(* ===== verification/_CoqProject ===== *)
-Q . S2P
Prelude.v
Bitblast.v
Bits.v
Aac.v
Annexb.v
H264Sps.v
HevcConfig.v
Media.v
TsWire.v
Probe.v
TsMux.v
AdtsFraming.v
TsDemux.v
TsRoundtrip.v
FrameUnits.v
Ring.v
Reader.v
Queues.v
LeafArena.v
ReadyQueue.v
TimerWheel.v
Feed.v
WakeGate.v
Leaf.v
SinkShard.v
EgressShard.v
ShardGroup.v
EgressManager.v
EgressRuntime.v
SinkFabric.v
Text.v
AudioRouting.v
OutputSpec.v
Planner.v
AudioRouter.v
StageFfmpeg.v
Diagnosis.v
Alerts.v
AlertTracker.v
Baselines.v
UploadPolicy.v
InputGate.v
Continuity.v
IngestRegistry.v
HlsPlaylist.v
HlsOrdering.v
Security.v
Http1.v
Mp4Boxes.v
Fmp4Demux.v
SegmentPublisher.v
Cmaf.v
HlsSession.v
