(* ===== verification/Prelude.v ===== *)
(** * Restream: a verification library for the media router

    Restream takes live streams in (RTMP, SRT, pushed HLS), fans them out and sends them on.
    Between the sockets run, in Rust crates under [src/crates], its media core, the egress
    fabric and the ingest side of the engine, and the rules that plan and judge them:

    - [restream-core]: codecs and the packet envelope.  Bit-level parsing of parameter
      sets, Annex B and length-prefixed NAL units, ADTS, RTMP video tags.
    - [restream-mpegts]: the transport stream.  A muxer and a demuxer, their wire
      primitives, and the probing of streams for metadata.
    - [restream-sync]: the fan-out.  A ring of packets with one producer and many readers,
      the configurations of its tracks, and the queues around it.
    - [restream-engine/src/egress]: the fabric.  Shards, one thread each, serve many outputs
      of a feed: a manager places outputs and sends commands over bounded channels, a runtime
      resizes the pool and replaces dead shards, publishers wake the shards, and a shard's
      loop drives a backend that visits its leaves within budgets.
    - [restream-engine/src]: the ingest side.  Inputs of a pipeline register and are
      selected; each writes through a gate; pushed HLS objects are put in order, demuxed in
      bounded steps, merged and published; failed logins are counted.  HLS outputs decide
      here what to upload.
    - [restream-domain]: what an output asks for (audio routing, encoding, protocol) and the
      planner of the stages it needs.
    - [restream-health]: diagnosis, alerts and their lifetimes, baselines of destinations.

    A packet enters as transport stream bytes ([TsDemux]), in a fragmented MP4 object
    ([Mp4Boxes], [Fmp4Demux]) or as RTMP payload, passes its input's gate, is published
    in a ring ([Ring]) together with a word that names its sequence and the generation of
    its track's configuration ([Media], [FrameUnits]), and is pulled by readers ([Reader])
    that mux it again ([TsMux]) or wrap it for RTMP ([Annexb], [HevcConfig], [Aac]).  The leaves
    of the fabric read the ring through a feed ([Feed]).

    ** The files

    - [Prelude]: machine integers at their width with wrap-around, checked and saturating
      operations; slices as options; big-endian values; a state-and-option monad for the
      readers and parsers; shared lemmas and tactics.  [Bitblast]: equality of bit-vector
      terms by their bits.
    - [Bits] ([codec/bits.rs]): [BitReader], Exp-Golomb codes, emulation prevention.
    - [Aac] ([codec/aac.rs]): ADTS headers, the frame walk, prepending and stripping.
    - [Annexb] ([codec/video.rs]): start codes, AVCC conversion and records, the
      accumulator of parameter sets.  The finder of the memchr crate is the class
      [Memmem]; a naive finder is an instance of it.
    - [H264Sps] ([codec/h264_sps.rs]): the SPS parser against an encoder of the syntax.
    - [HevcConfig] ([codec/enhanced_rtmp_hevc.rs]): enhanced RTMP tags, hvcC records.
    - [Media] ([lib.rs], [codec.rs]): the packet and the unit word.
    - [TsWire] ([wire.rs]): timestamps, PCR, CRC-32 by table and by polynomial.
    - [Probe] ([probe.rs], [probe/]): metadata from payloads.
    - [TsMux] ([mux.rs]): [TsMuxer]; a write out of the packet's bounds is [None].
    - [AdtsFraming] ([demux/adts.rs]): AAC frames across PES boundaries.
    - [TsDemux] ([demux.rs]): [TsDemuxer], with the memchr crate's byte search as the class
      [Memchr].
    - [TsRoundtrip]: the two sides composed.
    - [FrameUnits] ([frame_units.rs]): [TrackConfigs] against the log of a track.
    - [Ring] ([ring_buffer.rs], [slot.rs], [sequence_reads.rs]): [RingBuffer]; a publication
      is the list of its atomic operations, and [ring_step] interleaves them.
    - [Reader] ([reader.rs]): [Reader], each load at its own time.
    - [Queues] ([standby_gop.rs], [byte_queue.rs], [DtsEnforcer]).

    The files of the fabric, sources under [restream-engine/src/egress]:

    - [LeafArena] ([leaf_arena.rs]): slots with epochs, against a map of keys that are never
      issued twice.  [ReadyQueue] ([scheduler.rs]).  [TimerWheel] ([timer.rs]).
    - [Feed] ([feed.rs], [journal.rs]): reads by cursor over the live ring of [Ring].
    - [WakeGate] ([journal.rs], [FeedWakeHandle] of [shard.rs]): the atomic operations of
      publishers and shard as a step relation.
    - [Leaf] ([policy.rs], [command.rs], [leaf.rs], [backend.rs], [visit.rs]): commands,
      budgets, the state of a leaf and its visit.
    - [SinkShard] ([backends/sink.rs], [backends/sink_shard.rs]): the smallest backend, all
      its handlers.
    - [EgressShard] ([shard.rs]): the loop over any backend, the class [EgressShardBackend].
    - [ShardGroup] ([shard/group.rs], [EgressShardHandle]): threads behind bounded channels;
      the class [CommandSink] with its laws, and the group as its instance.
    - [EgressManager] ([manager.rs]): placement and commands, proved against the class.
    - [EgressRuntime] ([runtime.rs]): dispatch, admission, [rescale].
    - [SinkFabric] ([engine_sink_egress_fabric.rs]): the registry of runtimes, and the
      composition of all layers.
    - [Http1] ([http1.rs]): request heads and the incremental reader of responses of the
      upload backend; the httparse crate is the class [HeadParser].

    The files of the ingest side and of HLS, sources under [restream-engine/src]:

    - [InputGate] ([input_gate.rs], and the forwarders of [srt/ingest_packets.rs],
      [rtmp/ingest_media.rs], [ingest_publisher.rs]): the gate word and its interleavings.
      [Continuity] ([ingest_publisher/continuity.rs]).
    - [IngestRegistry] ([engine_ingest.rs]): registration, selection and release of inputs, cut
      at their awaits, with forwarders running and futures dropped in between.
    - [HlsPlaylist] ([hls_ingest/playlist.rs]): the playlist parser over bytes.
      [HlsOrdering] ([hls_ingest/ordering.rs]): a push session, every operation.
    - [Mp4Boxes] ([ingest_publisher/fmp4/boxes.rs]): the walk over the boxes of an fMP4
      object, against a declarative layout of segments.
    - [Fmp4Demux] ([ingest_publisher/fmp4.rs]): tracks from an init segment, fragments
      released as their bytes arrive with a budget of samples per step, against a reference
      that demuxes the object at once.  The shiguredo_mp4 crate is the class [Mp4].
    - [SegmentPublisher] ([ingest_publisher.rs], [hls_ingest/session.rs]): the class
      [SegmentDemux] with its instances for the two containers, renditions and their merge,
      and the session's step, composed with [Fmp4Demux], [Continuity] and [InputGate].
    - [HlsSession] ([hls_ingest/session.rs], [hls_ingest/pacing.rs]): the session around
      them: checks of an uploaded object, the turns of the loop with the branch each takes and
      the times it reads as inputs, and the pacer.
    - [Cmaf] ([moq/ingest/cmaf.rs]): MoQ tracks on the same demuxer.
    - [UploadPolicy] ([hls/upload_policy.rs]): what an HLS output uploads next.
    - [Security] ([security.rs], [domain/ingest_security.rs]): failures and bans.

    The files of the rules:

    - [Text]: the strings and numbers of the standard library the rest uses.
    - [AudioRouting], [OutputSpec], [Planner] ([restream-domain]): specifications of outputs,
      the strings that key stages, the stage graph.  URL parsing is the class [UrlParser].
    - [AudioRouter] ([audio_router.rs]) and [StageFfmpeg] ([external_transcoder.rs], profiles,
      stage plans): how a planned stage routes packets or starts its child process.
    - [Diagnosis], [Alerts], [AlertTracker], [Baselines] ([restream-health]): why an output is
      degraded, the alerts of a snapshot (a JSON value), their history, learned normals.

    ** What the theorems show

    - Parsers are exact: they accept what the syntax allows, return its value and refuse
      the rest, with no overflow ([Bits], [H264Sps], [HevcConfig], [Probe], [Aac]).
    - Formats round trip ([Annexb], [HevcConfig], [Aac], [TsWire], [AdtsFraming]), up to
      the whole transport stream ([TsRoundtrip]): what is muxed is what is demuxed, cut
      into chunks anywhere, and the tables describe the program.
    - The muxer never fails and writes whole packets with continuous counters and rising
      timestamps; the demuxer is bounded and consistent on any bytes, and a new program
      layout never relabels queued media ([TsMux], [TsDemux]).
    - Reads of the ring never give another sequence's packet, in every interleaving with
      the producer, while it stays less than 2^31 sequences ahead (the tag of a word has 31
      bits); a quiet ring reads back its last lap, growth keeps it, and a lapped reader
      resumes at the newest keyframe ([Ring]).  Readers deliver runs of the stream in
      order and, after an overflow, no interframe before a keyframe ([Reader]).
    - The standby cache is the current GOP, the byte queue is first in first out and
      bounded, decode times rise ([Queues]).
    - The fabric serves what it was asked to: the manager's books are exact, a live output
      never moves, a refused command changes nothing ([EgressManager]); through panics,
      failing factories and resizes each shard was told exactly the outputs placed on it
      ([EgressRuntime]); the loop hands commands on in order, with bounded work per turn,
      and stops in time when drained ([EgressShard]); the backend refines a map of outputs
      ([SinkShard], over [LeafArena] and [ReadyQueue]).  [SinkFabric] composes these: a
      shard's backend serves only what the manager holds, and all of it while no request got
      past admission.
    - Nothing published is missed: every publication is seen by the shard ([WakeGate]), a
      wake visits every leaf ([SinkShard]), and reads of a feed play the log in order
      ([Feed]).  Timers fire exactly when due ([TimerWheel]).

    - One input writes: of the registered sessions of a pipeline at most one has a gate that
      admits or holds a packet, through every await of the operations, except those that a
      dropped selection left armed ([IngestRegistry]); a demoted gate stays closed
      ([InputGate]); the times of a stream increase across passes, while decoding times are
      not negative ([Continuity]).
    - Pushed HLS is put in order: what an upload writes parses back, whatever parses is well
      formed ([HlsPlaylist]); a session releases in rising order (up to the last
      sequence number), each segment with its init, is due exactly when it says, and stays
      bounded ([HlsOrdering]).  An upload session
      lists only acknowledged segments and never goes back ([UploadPolicy]), and the
      response to an upload is read the same however it is split ([Http1]).
    - What is released reaches the ring: the walk accepts exactly the segments of the layout
      ([Mp4Boxes]); a sample's NAL units read back from its packet, a fragment comes out in
      decode order, an init gives tracks that can be converted ([Fmp4Demux]); a session
      publishes every segment in finitely many bounded steps, as if demuxed at once, and
      merges renditions in decode order within a window ([SegmentPublisher]); the session
      keeps to one container and paces within the lead of the wall clock ([HlsSession]); a
      CMAF payload is published whole or not at all ([Cmaf]).
    - Bans are exact while the table has room, and eviction is by rank ([Security]).
    - Planned graphs hold each stage once, after its input; outputs get codecs they support
      ([Planner]), and the child process does the routing its stage is keyed by
      ([StageFfmpeg]).  Degraded outputs are explained by an alert of their own or of
      their shard, save plain back-pressure ([Alerts]), the history of
      alerts is complete since the time it names ([AlertTracker]), and an anomaly is a
      departure that lasted ([Baselines]).

    Defects of the code are proved too: [TsMux.sdt_descriptors_loop_length],
    [Reader.pull_past_write_idx], [EgressShard.ready_backlog_never_overflows],
    [SinkFabric.readd_after_panic_skips_admission], [StageFfmpeg.downmix_lost_behind_bridge],
    [AudioRouter.unsorted_selection_swaps_tracks],
    [InputGate.publisher_promotion_collapses_times],
    [IngestRegistry.reconnect_leaves_old_gate_open],
    [HlsOrdering.variant_switch_repeats_sequence], [HlsOrdering.last_sequence_repeats],
    [Security.single_slot_never_bans],
    [Security.mapped_loopback_is_limited] and [Fmp4Demux.empty_video_sample_is_published].

    ** Fuel

    Loops over data that shrinks run on fuel that is the length of the data plus one, and a
    lemma or the property itself shows it is never the fuel that ends them.  [pull] takes
    its fuel as an argument, and its property gives a bound that is enough.  The loops of
    [rescale] run on the number of shards they can add or drop, and its property shows they
    end by themselves.  The loop of a shard has no bound of its own: a run is given one input
    per iteration.  The poll of an HLS push session runs on twice the listed entries plus
    two, which a turn's measure shows to be enough; the release loop of [Fmp4Demux] on the
    fragments plus two, the merge on the packets queued plus one.

    ** Left out

    Memory is sequentially consistent: the orderings of the atomics are not modelled, a
    publication's stores are seen in program order.  Sequences are unbounded.  Clocks are
    arguments.  Wake-ups, subscribers, names, logging and statistics with floating point are
    left out; so are progress sinks, metrics and the delivery sweep of the fabric, and the
    sizer's floating-point arithmetic, whose answers are inputs.  Counters of 32 and 64 bits
    that only a run of that many steps could overflow are bounded by the length of the run
    (leaf epochs and counts of outputs below 2^32, holders below 2^64); ids of ingest attempts
    are unbounded.  A forwarder's call is taken with the gate left alone during it, except in
    the step relations of [InputGate] and [IngestRegistry].  Durations are nanoseconds.  The
    iteration order of a [HashMap], the hash of [DefaultHasher] and the RFC 3339 form of a
    time are parameters.  Left out are also the backends of the other protocols, which are
    sockets and protocol libraries around the modelled loop; the registries of stages and
    feeds, which start and stop tasks and child processes; the reply channels and the key
    registry of push sessions; and the HTTP application, the agent plane, the database, the
    tools and vendored code. *)

From stdpp Require Export base tactics list numbers option gmap strings.
From Stdlib Require Import Sorted.
From stdpp Require Import sorting.
From Stdlib Require Export ZArith Lia.
From Stdlib Require Export Floats.SpecFloat.

#[global] Open Scope Z_scope.

(** ** Machine integers

    A [w]-bit unsigned integer is a [Z] in [0, 2^w); the casts and the checked
    operations of the source are written out. *)

Declare Scope rs_scope.
Delimit Scope rs_scope with rs.
Notation "x .& y" := (Z.land x y) (at level 40, left associativity) : rs_scope.
Notation "x .| y" := (Z.lor x y) (at level 50, left associativity) : rs_scope.
Notation "x .^ y" := (Z.lxor x y) (at level 45, left associativity) : rs_scope.
Notation "x .<< n" := (Z.shiftl x n) (at level 34, left associativity) : rs_scope.
Notation "x .>> n" := (Z.shiftr x n) (at level 34, left associativity) : rs_scope.
#[global] Open Scope rs_scope.

Definition wrapu (w : Z) (x : Z) : Z := x mod 2 ^ w.
Definition wraps (w : Z) (x : Z) : Z := (x + 2 ^ (w - 1)) mod 2 ^ w - 2 ^ (w - 1).

Abbreviation as_u8 := (wrapu 8).
Abbreviation as_u16 := (wrapu 16).
Abbreviation as_u32 := (wrapu 32).
Abbreviation as_u64 := (wrapu 64).
Abbreviation as_i32 := (wraps 32).
Abbreviation as_i64 := (wraps 64).

Definition in_u (w : Z) (x : Z) : Prop := 0 <= x < 2 ^ w.
Definition in_i (w : Z) (x : Z) : Prop := - 2 ^ (w - 1) <= x < 2 ^ (w - 1).

(** [checked_add], [checked_mul], [try_from] and the like: the exact result
    when it fits the width, else [None]. *)
Definition checked_u (w : Z) (x : Z) : option Z :=
  if (0 <=? x) && (x <? 2 ^ w) then Some x else None.
Definition checked_i (w : Z) (x : Z) : option Z :=
  if (- 2 ^ (w - 1) <=? x) && (x <? 2 ^ (w - 1)) then Some x else None.
(** [saturating_add] and the like. *)
Definition sat_u (w : Z) (x : Z) : Z := Z.max 0 (Z.min x (2 ^ w - 1)).
Definition sat_i (w : Z) (x : Z) : Z :=
  Z.max (- 2 ^ (w - 1)) (Z.min x (2 ^ (w - 1) - 1)).

Abbreviation i64_MIN := (- 2 ^ 63).

(** ** Bytes and slices *)

Abbreviation bytes := (list Z).
Abbreviation is_u8 := (in_u 8).
Abbreviation bytes_ok := (Forall is_u8).

Definition zlen {A} (l : list A) : Z := Z.of_nat (length l).

(** [slice.split_at_checked(n)] *)
Definition split_at_checked {A} (n : nat) (l : list A) : option (list A * list A) :=
  if (n <=? length l)%nat then Some (take n l, drop n l) else None.
(** [slice.get(n..)] *)
Definition get_from {A} (n : nat) (l : list A) : option (list A) :=
  if (n <=? length l)%nat then Some (drop n l) else None.
(** [slice.get(..n)] *)
Definition get_to {A} (n : nat) (l : list A) : option (list A) :=
  if (n <=? length l)%nat then Some (take n l) else None.
(** [slice.get(a..b)] *)
Definition get_range {A} (a b : nat) (l : list A) : option (list A) :=
  if (a <=? b)%nat && (b <=? length l)%nat then Some (take (b - a) (drop a l)) else None.
(** [slice.first_chunk::<n>()] *)
Definition first_chunk {A} (n : nat) (l : list A) : option (list A) := get_to n l.

(** Big-endian value of a byte string: [fold(0, |v, b| (v << 8) | b)]. *)
Definition be_value (l : bytes) : Z := fold_left (fun v b => (v .<< 8) .| b) l 0.

(** [x.to_be_bytes()] of an [n]-byte unsigned integer. *)
Fixpoint to_be_bytes (n : nat) (x : Z) : bytes :=
  match n with
  | O => []
  | S n' => as_u8 (x .>> (8 * Z.of_nat n')) :: to_be_bytes n' x
  end.

(** ** Floating point

    [f64] is IEEE 754 binary64 with rounding to nearest even, as the standard
    library's executable specification of floats. *)

Abbreviation f64 := spec_float.
Definition f64_zero : f64 := S754_zero false.
(** [f64::from(x)] of an integer, [a / b], [a * b], [a > 0.0] *)
Definition f64_from (x : Z) : f64 := binary_normalize 53 1024 x 0 false.
Definition f64_div : f64 -> f64 -> f64 := SFdiv 53 1024.
Definition f64_mul : f64 -> f64 -> f64 := SFmul 53 1024.
Definition f64_gt_zero (x : f64) : bool := SFltb f64_zero x.

(** ** State with failure

    A method [&mut self -> Option<A>]: the state survives a failure, the value
    does not.  [?] is monadic bind. *)

Definition M (S A : Type) : Type := S -> option A * S.
#[export] Instance M_ret {S} : MRet (M S) := fun A a s => (Some a, s).
#[export] Instance M_bind {S} : MBind (M S) := fun A B f m s =>
  match m s with
  | (Some a, s') => f a s'
  | (None, s') => (None, s')
  end.
Definition fail {S A} : M S A := fun s => (None, s).
Definition lift {S A} (o : option A) : M S A := fun s => (o, s).
Definition guard {S} (b : bool) : M S unit := if b then mret tt else fail.

(** [for _ in 0..n { m?; }] *)
Fixpoint repeat_M {S A} (n : nat) (m : M S A) : M S unit :=
  match n with
  | O => mret tt
  | Datatypes.S n' => _ ← m; repeat_M n' m
  end.

(** ** Automation *)

Create HintDb rs discriminated.

(** Case analysis on the tests of the code. *)
Ltac bool_to_prop :=
  repeat match goal with
  | H : _ && _ = true |- _ => apply andb_true_iff in H; destruct H
  | H : _ && _ = false |- _ => apply andb_false_iff in H
  | H : _ || _ = true |- _ => apply orb_true_iff in H
  | H : _ || _ = false |- _ => apply orb_false_iff in H; destruct H
  | H : negb _ = true |- _ => apply negb_true_iff in H
  | H : negb _ = false |- _ => apply negb_false_iff in H
  | H : (_ =? _) = true |- _ => apply Z.eqb_eq in H
  | H : (_ =? _) = false |- _ => apply Z.eqb_neq in H
  | H : (_ <? _) = true |- _ => apply Z.ltb_lt in H
  | H : (_ <? _) = false |- _ => apply Z.ltb_ge in H
  | H : (_ <=? _) = true |- _ => apply Z.leb_le in H
  | H : (_ <=? _) = false |- _ => apply Z.leb_gt in H
  | H : (_ =? _)%nat = true |- _ => apply Nat.eqb_eq in H
  | H : (_ =? _)%nat = false |- _ => apply Nat.eqb_neq in H
  | H : (_ <? _)%nat = true |- _ => apply Nat.ltb_lt in H
  | H : (_ <? _)%nat = false |- _ => apply Nat.ltb_ge in H
  | H : (_ <=? _)%nat = true |- _ => apply Nat.leb_le in H
  | H : (_ <=? _)%nat = false |- _ => apply Nat.leb_gt in H
  end.

(** Destruct the outermost test of the goal. *)
Ltac case_if :=
  match goal with
  | |- context [if ?b then _ else _] =>
      lazymatch type of b with
      | bool => let E := fresh "E" in destruct b eqn:E
      | _ => let E := fresh "E" in destruct b as [E|E]
      end
  end; bool_to_prop.

(** Right-nested appends. *)
Ltac app_norm_goal := repeat first [rewrite <- app_assoc | progress cbn [app]].
Ltac app_norm_in H := repeat first [rewrite <- app_assoc in H | progress cbn [app] in H].
Tactic Notation "app_norm" := app_norm_goal.
Tactic Notation "app_norm" "in" hyp(H) := app_norm_in H.

(** ** Lemmas on integers *)

Lemma wrapu_range w x : 0 <= w -> in_u w (wrapu w x).
Proof. intros Hw. apply Z.mod_pos_bound, Z.pow_pos_nonneg; lia. Qed.

Lemma wrapu_id w x : in_u w x -> wrapu w x = x.
Proof. apply Z.mod_small. Qed.

Lemma checked_u_Some w x : in_u w x -> checked_u w x = Some x.
Proof.
  intros [H1 H2]. unfold checked_u.
  rewrite (proj2 (Z.leb_le _ _) H1), (proj2 (Z.ltb_lt _ _) H2). done.
Qed.

Lemma checked_u_inv w x y : checked_u w x = Some y -> y = x /\ in_u w x.
Proof. unfold checked_u, in_u. case_if; intros [=]; split; auto; lia. Qed.

Lemma checked_u_None w x : checked_u w x = None -> ~ in_u w x.
Proof. intros E H. by rewrite checked_u_Some in E. Qed.

Lemma checked_i_Some w x : in_i w x -> checked_i w x = Some x.
Proof.
  intros [H1 H2]. unfold checked_i.
  rewrite (proj2 (Z.leb_le _ _) H1), (proj2 (Z.ltb_lt _ _) H2). done.
Qed.

Lemma checked_i_inv w x y : checked_i w x = Some y -> y = x /\ in_i w x.
Proof. unfold checked_i, in_i. case_if; intros [=]; split; auto; lia. Qed.

Lemma testbit_above x w i : 0 <= x < 2 ^ w -> w <= i -> Z.testbit x i = false.
Proof.
  intros [H1 H2] Hi. destruct (decide (x = 0)) as [->|]; [apply Z.bits_0|].
  apply Z.bits_above_log2; [lia|].
  apply Z.lt_le_trans with w; [|lia]. apply Z.log2_lt_pow2; lia.
Qed.

(** A shift by a constant glued to a value below it is addition. *)
Lemma lor_shiftl_add a b n :
  0 <= n -> 0 <= b < 2 ^ n -> (a .<< n) .| b = a * 2 ^ n + b.
Proof.
  intros Hn Hb.
  assert (Hdisj : (a .<< n) .& b = 0).
  { apply Z.bits_inj'; intros i Hi. rewrite Z.land_spec, Z.bits_0.
    destruct (Z.ltb_spec i n); [by rewrite Z.shiftl_spec_low|].
    by rewrite (testbit_above b n), andb_false_r. }
  rewrite <- Z.shiftl_mul_pow2, <- Z.lxor_lor by done.
  symmetry. by apply Z.add_nocarry_lxor.
Qed.

(** Extensionality on bits, for equalities between shifts and masks. *)
Lemma land_ones_mod x n : 0 <= n -> x .& (2 ^ n - 1) = x mod 2 ^ n.
Proof. intros. rewrite <- Z.land_ones, Z.ones_equiv by done. f_equal. Qed.

Lemma shiftr_range x n w :
  0 <= n -> 0 <= w -> 0 <= x < 2 ^ (w + n) -> 0 <= x .>> n < 2 ^ w.
Proof.
  intros Hn Hw [H1 H2]. rewrite Z.shiftr_div_pow2 by done.
  rewrite Z.pow_add_r in H2 by done. split; [apply Z.div_pos; lia|].
  apply Z.div_lt_upper_bound; lia.
Qed.

Lemma in_u_of_bits w x :
  0 <= w -> 0 <= x -> (forall i, w <= i -> Z.testbit x i = false) -> in_u w x.
Proof.
  intros Hw Hx H. split; [done|].
  destruct (decide (x = 0)) as [->|Hnz]; [lia|].
  apply Z.log2_lt_pow2; [lia|].
  destruct (Z.ltb_spec (Z.log2 x) w) as [|Hge]; [done|].
  specialize (H _ Hge). rewrite Z.bit_log2 in H by lia. done.
Qed.

Lemma lor_range w x y : in_u w x -> in_u w y -> 0 <= w -> in_u w (x .| y).
Proof.
  intros Hx Hy Hw. apply in_u_of_bits; [done| |].
  - apply Z.lor_nonneg. unfold in_u in *; lia.
  - intros i Hi. rewrite Z.lor_spec.
    by rewrite (testbit_above x w), (testbit_above y w).
Qed.

Lemma lxor_range w x y : in_u w x -> in_u w y -> 0 <= w -> in_u w (x .^ y).
Proof.
  intros Hx Hy Hw. apply in_u_of_bits; [done| |].
  - apply Z.lxor_nonneg. unfold in_u in *; lia.
  - intros i Hi. rewrite Z.lxor_spec.
    by rewrite (testbit_above x w), (testbit_above y w).
Qed.

Lemma land_range_r w x y : in_u w y -> 0 <= w -> in_u w (x .& y).
Proof.
  intros Hy Hw. apply in_u_of_bits; [done| |].
  - apply Z.land_nonneg. unfold in_u in *; lia.
  - intros i Hi. rewrite Z.land_spec.
    by rewrite (testbit_above y w), andb_false_r.
Qed.

Lemma land_range_l w x y : in_u w x -> 0 <= w -> in_u w (x .& y).
Proof. rewrite Z.land_comm. apply land_range_r. Qed.

#[export] Hint Resolve wrapu_range lor_range lxor_range land_range_r land_range_l : rs.

Lemma wrapu_testbit w x i : 0 <= w -> 0 <= i -> Z.testbit (wrapu w x) i = (i <? w) && Z.testbit x i.
Proof.
  intros Hw Hi. unfold wrapu. destruct (Z.ltb_spec i w).
  - by rewrite Z.mod_pow2_bits_low.
  - by rewrite Z.mod_pow2_bits_high.
Qed.

(** ** Lemmas on slices *)

Section slices.
Context {A : Type}.
Implicit Types l : list A.

Lemma zlen_cons (a : A) l : zlen (a :: l) = zlen l + 1.
Proof. unfold zlen. cbn [length]. lia. Qed.

Lemma zlen_nonneg l : 0 <= zlen l.
Proof. unfold zlen. lia. Qed.

Lemma split_at_checked_app n l k : length l = n -> split_at_checked n (l ++ k) = Some (l, k).
Proof.
  intros <-. unfold split_at_checked. rewrite length_app.
  destruct (Nat.leb_spec (length l) (length l + length k)); [|lia].
  by rewrite take_app_length, drop_app_length.
Qed.

Lemma split_at_checked_inv n l a b :
  split_at_checked n l = Some (a, b) -> l = a ++ b /\ length a = n.
Proof.
  unfold split_at_checked. case_if; intros [= <- <-].
  split; [by rewrite take_drop|]. rewrite length_take. lia.
Qed.

Lemma get_from_app n l k : length l = n -> get_from n (l ++ k) = Some k.
Proof.
  intros <-. unfold get_from. rewrite length_app.
  destruct (Nat.leb_spec (length l) (length l + length k)); [|lia].
  by rewrite drop_app_length.
Qed.

Lemma get_from_0 l : get_from 0 l = Some l.
Proof. by destruct l. Qed.

Lemma get_from_inv n l k : get_from n l = Some k -> k = drop n l /\ (n <= length l)%nat.
Proof. unfold get_from. case_if; intros [= <-]; auto. Qed.

Lemma get_to_inv n l k : get_to n l = Some k -> k = take n l /\ (n <= length l)%nat.
Proof. unfold get_to. case_if; intros [= <-]; auto. Qed.

Lemma get_to_app n l k : length l = n -> get_to n (l ++ k) = Some l.
Proof.
  intros <-. unfold get_to. rewrite length_app.
  destruct (Nat.leb_spec (length l) (length l + length k)); [|lia].
  by rewrite take_app_length.
Qed.
End slices.

Lemma bytes_ok_app l k : bytes_ok (l ++ k) <-> bytes_ok l /\ bytes_ok k.
Proof. apply Forall_app. Qed.

Lemma bytes_ok_take n l : bytes_ok l -> bytes_ok (take n l).
Proof. apply Forall_take. Qed.

Lemma bytes_ok_drop n l : bytes_ok l -> bytes_ok (drop n l).
Proof. apply Forall_drop. Qed.

#[export] Hint Resolve bytes_ok_take bytes_ok_drop : rs.

(** ** Big-endian integers *)

Lemma length_to_be_bytes n x : length (to_be_bytes n x) = n.
Proof. induction n; cbn; auto. Qed.

Lemma to_be_bytes_ok n x : bytes_ok (to_be_bytes n x).
Proof. induction n; cbn; constructor; auto. apply wrapu_range; lia. Qed.

Lemma be_value_snoc l b : be_value (l ++ [b]) = (be_value l .<< 8) .| b.
Proof. unfold be_value. by rewrite fold_left_app. Qed.

Lemma be_value_range l : bytes_ok l -> 0 <= be_value l < 2 ^ (8 * zlen l).
Proof.
  induction l as [|b l IH] using rev_ind; intros Hok; [by vm_compute|].
  apply bytes_ok_app in Hok as [Hl Hb]. apply Forall_cons_1 in Hb as [Hb _].
  rewrite be_value_snoc, lor_shiftl_add by (unfold in_u in Hb; lia).
  unfold zlen in *. rewrite length_app. cbn [length].
  replace (8 * Z.of_nat (length l + 1)) with (8 * Z.of_nat (length l) + 8) by lia.
  rewrite Z.pow_add_r by lia. specialize (IH Hl). unfold in_u in Hb. lia.
Qed.

Lemma to_be_bytes_snoc n x :
  to_be_bytes (S n) x = to_be_bytes n (x .>> 8) ++ [as_u8 x].
Proof.
  revert x. induction n as [|n IH]; intros x.
  - cbn. by rewrite Z.shiftr_0_r.
  - change (to_be_bytes (S (S n)) x)
      with (as_u8 (x .>> (8 * Z.of_nat (S n))) :: to_be_bytes (S n) x).
    rewrite IH. cbn [to_be_bytes app]. f_equal. f_equal.
    rewrite Z.shiftr_shiftr by lia. f_equal. lia.
Qed.

(** Round trip: reading back the bytes of an [n]-byte integer. *)
Lemma be_value_to_be_bytes n x : be_value (to_be_bytes n x) = x mod 2 ^ (8 * Z.of_nat n).
Proof.
  revert x. induction n as [|n IH]; intros x; [cbn; by rewrite Z.mod_1_r|].
  rewrite to_be_bytes_snoc, be_value_snoc, IH.
  rewrite lor_shiftl_add; [|lia|apply wrapu_range; lia]. unfold wrapu.
  rewrite Z.shiftr_div_pow2 by lia.
  replace (8 * Z.of_nat (S n)) with (8 + 8 * Z.of_nat n) by lia.
  rewrite Z.pow_add_r by lia.
  rewrite Z.rem_mul_r by (try apply Z.pow_nonzero; lia). lia.
Qed.

Lemma be_value_to_be_bytes_id n x :
  in_u (8 * Z.of_nat n) x -> be_value (to_be_bytes n x) = x.
Proof. intros H. rewrite be_value_to_be_bytes. by apply Z.mod_small. Qed.

(** ** [sort_by], a stable sort *)

Fixpoint insert_by {A} (leb : A -> A -> bool) (x : A) (l : list A) : list A :=
  match l with
  | [] => [x]
  | y :: l' => if leb x y then x :: l else y :: insert_by leb x l'
  end.
Definition sort_by {A} (leb : A -> A -> bool) (l : list A) : list A := fold_right (insert_by leb) [] l.

Section Sort.
Context {A} (leb : A -> A -> bool)
  (leb_total : forall x y, leb x y = false -> leb y x = true)
  (leb_trans : forall x y z, leb x y = true -> leb y z = true -> leb x z = true).

Lemma insert_by_perm x (l : list A) : insert_by leb x l ≡ₚ x :: l.
Proof.
  induction l as [|y l IH]; [done|]. cbn. case_match; [done|]. rewrite IH. apply Permutation_swap.
Qed.

Lemma sort_by_perm (l : list A) : sort_by leb l ≡ₚ l.
Proof. induction l as [|x l IH]; [done|]. cbn. by rewrite insert_by_perm, IH. Qed.

Lemma insert_by_sorted x l :
  StronglySorted (fun a b => leb a b = true) l ->
  StronglySorted (fun a b => leb a b = true) (insert_by leb x l).
Proof.
  induction 1 as [|y l Hs IH Hy]; [repeat constructor|]. cbn. case_match eqn:Hxy.
  - constructor; [by constructor|]. constructor; [done|]. eapply Forall_impl; [exact Hy|].
    intros z Hz. by eapply leb_trans.
  - constructor; [done|]. rewrite insert_by_perm. constructor; [by apply leb_total|done].
Qed.

Lemma sort_by_sorted l : StronglySorted (fun a b => leb a b = true) (sort_by leb l).
Proof. induction l as [|x l IH]; [constructor|]. by apply insert_by_sorted. Qed.

Lemma sort_by_split n l x y :
  x ∈ take n (sort_by leb l) -> y ∈ drop n (sort_by leb l) -> leb x y = true.
Proof.
  pose proof (sort_by_sorted l) as Hs. rewrite <- (take_drop n) in Hs.
  intros Hx Hy. by eapply (StronglySorted_app_1_elem_of (fun a b => leb a b = true)).
Qed.

(** A sorted list stays as it is, and filtering commutes with sorting: the sort is stable. *)
Lemma sort_by_id l : StronglySorted (fun a b => leb a b = true) l -> sort_by leb l = l.
Proof.
  induction 1 as [|x l Hs IH Hx]; [done|]. cbn. unfold sort_by in IH. rewrite IH.
  destruct Hx as [|y l Hy _]; [done|]. cbn. by rewrite Hy.
Qed.

Lemma insert_by_below x l : Forall (fun y => leb x y = true) l -> insert_by leb x l = x :: l.
Proof. destruct 1 as [|y l Hy _]; [done|]. cbn. by rewrite Hy. Qed.

Lemma filter_insert_by (P : A -> Prop) `{!forall a, Decision (P a)} x l :
  StronglySorted (fun a b => leb a b = true) l ->
  filter P (insert_by leb x l) = if decide (P x) then insert_by leb x (filter P l) else filter P l.
Proof.
  induction 1 as [|y l Hs IH Hy]; cbn [insert_by]; [by rewrite filter_cons, filter_nil|].
  destruct (leb x y) eqn:Hxy.
  - rewrite filter_cons. case_decide; [|done]. rewrite insert_by_below; [done|].
    apply Forall_forall. intros z [_ Hz]%list_elem_of_filter. apply elem_of_cons in Hz as [->|Hz]; [done|].
    rewrite Forall_forall in Hy. eapply leb_trans; [exact Hxy|by apply Hy].
  - rewrite !filter_cons, IH. destruct (decide (P y)), (decide (P x)); try done. cbn [insert_by]. by rewrite Hxy.
Qed.

Lemma filter_sort_by (P : A -> Prop) `{!forall a, Decision (P a)} l :
  filter P (sort_by leb l) = sort_by leb (filter P l).
Proof.
  induction l as [|x l IH]; [done|]. cbn [sort_by fold_right]. fold (sort_by leb l).
  rewrite filter_insert_by by apply sort_by_sorted. rewrite filter_cons, IH. by case_decide.
Qed.
End Sort.
