(* ===== verification/Bitblast.v ===== *)
(** * Reflective equality and range checks for bit expressions

    The wire formats pack fields with shifts, masks and casts.  [bitblast]
    proves an equality of two such expressions, and [bitrange] that one fits a
    width, by computing every bit symbolically; the widths of the variables come
    from [in_u] hypotheses. *)

From S2P Require Import Prelude.

Inductive zexp :=
  | ZVar (n : nat)
  | ZConst (z : Z)
  | ZLand (a b : zexp)
  | ZLor (a b : zexp)
  | ZLxor (a b : zexp)
  | ZShl (a : zexp) (k : Z)
  | ZShr (a : zexp) (k : Z)
  | ZWrap (w : Z) (a : zexp).

Inductive bexp :=
  | BConst (b : bool)
  | BVar (n : nat) (i : Z)
  | BAnd (a b : bexp)
  | BOr (a b : bexp)
  | BXor (a b : bexp).

#[export] Instance bexp_eq_dec : EqDecision bexp.
Proof. solve_decision. Defined.

(** Variables with their widths. *)
Definition benv := list (Z * Z).
Definition env_ok (env : benv) : Prop := Forall (fun p => in_u p.1 p.2) env.
Definition lookup_env (env : benv) (n : nat) : Z * Z := nth n env (0, 0).

Section denote.
Context (env : benv).

Fixpoint zden (e : zexp) : Z :=
  match e with
  | ZVar n => (lookup_env env n).2
  | ZConst z => z
  | ZLand a b => zden a .& zden b
  | ZLor a b => zden a .| zden b
  | ZLxor a b => zden a .^ zden b
  | ZShl a k => zden a .<< k
  | ZShr a k => zden a .>> k
  | ZWrap w a => wrapu w (zden a)
  end.

Fixpoint bden (e : bexp) : bool :=
  match e with
  | BConst b => b
  | BVar n i => Z.testbit (lookup_env env n).2 i
  | BAnd a b => bden a && bden b
  | BOr a b => bden a || bden b
  | BXor a b => xorb (bden a) (bden b)
  end.

(** Constructors that fold constants. *)
Definition mk_and (a b : bexp) : bexp :=
  match a, b with
  | BConst false, _ | _, BConst false => BConst false
  | BConst true, x | x, BConst true => x
  | _, _ => BAnd a b
  end.
Definition mk_or (a b : bexp) : bexp :=
  match a, b with
  | BConst true, _ | _, BConst true => BConst true
  | BConst false, x | x, BConst false => x
  | _, _ => BOr a b
  end.
Definition mk_xor (a b : bexp) : bexp :=
  match a, b with
  | BConst false, x | x, BConst false => x
  | _, _ => BXor a b
  end.

Fixpoint bit_of (e : zexp) (i : Z) : bexp :=
  if i <? 0 then BConst false
  else match e with
  | ZVar n => if i <? (lookup_env env n).1 then BVar n i else BConst false
  | ZConst z => BConst (Z.testbit z i)
  | ZLand a b => mk_and (bit_of a i) (bit_of b i)
  | ZLor a b => mk_or (bit_of a i) (bit_of b i)
  | ZLxor a b => mk_xor (bit_of a i) (bit_of b i)
  | ZShl a k => bit_of a (i - k)
  | ZShr a k => bit_of a (i + k)
  | ZWrap w a => if i <? w then bit_of a i else BConst false
  end.

Fixpoint width (e : zexp) : Z :=
  match e with
  | ZVar n => (lookup_env env n).1
  | ZConst z => Z.log2 z + 1
  | ZLand a b => Z.min (width a) (width b)
  | ZLor a b | ZLxor a b => Z.max (width a) (width b)
  | ZShl a k => width a + k
  | ZShr a k => Z.max 0 (width a - k)
  | ZWrap w a => Z.min w (width a)
  end.

Fixpoint wf (e : zexp) : bool :=
  match e with
  | ZVar n => 0 <=? (lookup_env env n).1
  | ZConst z => 0 <=? z
  | ZLand a b | ZLor a b | ZLxor a b => wf a && wf b
  | ZShl a k | ZShr a k => wf a && (0 <=? k)
  | ZWrap w a => wf a && (0 <=? w)
  end.

Lemma bden_and a b : bden (mk_and a b) = bden a && bden b.
Proof.
  destruct a as [[]| | | |], b as [[]| | | |];
    cbn; rewrite ?andb_false_r, ?andb_true_r; reflexivity.
Qed.
Lemma bden_or a b : bden (mk_or a b) = bden a || bden b.
Proof.
  destruct a as [[]| | | |], b as [[]| | | |];
    cbn; rewrite ?orb_false_r, ?orb_true_r; reflexivity.
Qed.
Lemma bden_xor a b : bden (mk_xor a b) = xorb (bden a) (bden b).
Proof.
  destruct a as [[]| | | |], b as [[]| | | |];
    cbn; rewrite ?xorb_false_l, ?xorb_false_r; reflexivity.
Qed.

Context (Henv : env_ok env).

Lemma lookup_env_ok n : in_u (lookup_env env n).1 (lookup_env env n).2.
Proof.
  unfold lookup_env. destruct (nth_in_or_default n env (0, 0)) as [Hin| ->].
  - unfold env_ok in Henv. rewrite List.Forall_forall in Henv. by apply Henv.
  - cbn. unfold in_u. lia.
Qed.

Lemma bit_of_neg e i : i < 0 -> bit_of e i = BConst false.
Proof. intros H. destruct e; cbn; by rewrite (proj2 (Z.ltb_lt _ _) H). Qed.

Lemma bit_of_sound e i : wf e = true -> bden (bit_of e i) = Z.testbit (zden e) i.
Proof.
  revert i. induction e as [n|z|a IHa b IHb|a IHa b IHb|a IHa b IHb|a IHa k|a IHa k|w a IHa];
    intros i Hwf; cbn in Hwf; bool_to_prop;
    (destruct (Z.ltb_spec i 0); [rewrite bit_of_neg, Z.testbit_neg_r by done; done|]);
    cbn [bit_of zden]; rewrite (proj2 (Z.ltb_ge i 0)) by done.
  - pose proof (lookup_env_ok n) as Hin. case_if; [done|].
    cbn. by rewrite (testbit_above _ (lookup_env env n).1).
  - done.
  - by rewrite bden_and, Z.land_spec, IHa, IHb.
  - by rewrite bden_or, Z.lor_spec, IHa, IHb.
  - by rewrite bden_xor, Z.lxor_spec, IHa, IHb.
  - by rewrite IHa, Z.shiftl_spec.
  - by rewrite IHa, Z.shiftr_spec.
  - rewrite wrapu_testbit by done. case_if; [by rewrite IHa|done].
Qed.

Lemma zden_nonneg e : wf e = true -> 0 <= zden e.
Proof.
  induction e; cbn; intros; bool_to_prop.
  - pose proof (lookup_env_ok n). unfold in_u in *. lia.
  - done.
  - apply Z.land_nonneg; auto.
  - apply Z.lor_nonneg; auto.
  - apply Z.lxor_nonneg; split; auto.
  - apply Z.shiftl_nonneg; auto.
  - apply Z.shiftr_nonneg; auto.
  - apply wrapu_range; lia.
Qed.

Lemma width_nonneg e : wf e = true -> 0 <= width e.
Proof.
  induction e; cbn; intros; bool_to_prop;
    repeat match goal with H : ?x = true -> _, H' : ?x = true |- _ => specialize (H H') end;
    try lia. pose proof (Z.log2_nonneg z). lia.
Qed.

Lemma testbit_above_width e i : wf e = true -> width e <= i -> Z.testbit (zden e) i = false.
Proof.
  revert i. induction e as [n|z|a IHa b IHb|a IHa b IHb|a IHa b IHb|a IHa k|a IHa k|w a IHa];
    cbn [wf width zden]; intros i Hwf Hi; bool_to_prop.
  - apply (testbit_above _ (lookup_env env n).1); [apply lookup_env_ok|done].
  - apply Z.bits_above_log2; lia.
  - rewrite Z.land_spec. destruct (Z.min_spec (width a) (width b)) as [[_ E]|[_ E]].
    + by rewrite IHa by (done || lia).
    + rewrite IHb by (done || lia). apply andb_false_r.
  - rewrite Z.lor_spec, IHa, IHb by (done || lia). done.
  - rewrite Z.lxor_spec, IHa, IHb by (done || lia). done.
  - pose proof (width_nonneg a ltac:(done)).
    rewrite Z.shiftl_spec by lia. apply IHa; [done|lia].
  - rewrite Z.shiftr_spec by lia. apply IHa; [done|lia].
  - destruct (Z.ltb_spec i 0); [by rewrite Z.testbit_neg_r|].
    rewrite wrapu_testbit by done. destruct (Z.ltb_spec i w); [|done].
    cbn. apply IHa; [done|lia].
Qed.

Lemma width_sound e : wf e = true -> in_u (width e) (zden e).
Proof.
  intros Hwf. apply in_u_of_bits; [by apply width_nonneg|by apply zden_nonneg|].
  intros i Hi. by apply testbit_above_width.
Qed.

Definition check_eq (e1 e2 : zexp) : bool :=
  wf e1 && wf e2 &&
  forallb (fun i => bool_decide (bit_of e1 i = bit_of e2 i))
    (seqZ 0 (Z.max (width e1) (width e2))).

Theorem check_eq_sound e1 e2 : check_eq e1 e2 = true -> zden e1 = zden e2.
Proof.
  unfold check_eq. intros H. bool_to_prop.
  rewrite forallb_forall in H0.
  apply Z.bits_inj'. intros i Hi.
  destruct (Z.ltb_spec i (Z.max (width e1) (width e2))).
  - rewrite <- !bit_of_sound by done. f_equal. eapply bool_decide_eq_true_1, H0.
    apply list_elem_of_In, elem_of_seqZ. lia.
  - rewrite !testbit_above_width by (done || lia). done.
Qed.

Definition check_range (w : Z) (e : zexp) : bool := wf e && (width e <=? w).

Theorem check_range_sound w e : check_range w e = true -> in_u w (zden e).
Proof.
  unfold check_range. intros H. bool_to_prop.
  destruct (width_sound e) as [H1 H2]; [done|]. split; [done|].
  eapply Z.lt_le_trans; [done|]. pose proof (width_nonneg e ltac:(done)).
  apply Z.pow_le_mono_r; lia.
Qed.
End denote.

(** ** Reification *)

Ltac collect_env env :=
  match goal with
  | H : in_u ?w ?x |- _ =>
      lazymatch env with
      | context [(w, x)] => fail
      | _ => collect_env constr:((w, x) :: env)
      end
  | _ => env
  end.

Ltac env_index env x :=
  lazymatch env with
  | (_, x) :: _ => constr:(O)
  | _ :: ?rest => let n := env_index rest x in constr:(S n)
  end.

Ltac reify env t :=
  lazymatch t with
  | Z.land ?a ?b => let a := reify env a in let b := reify env b in constr:(ZLand a b)
  | Z.lor ?a ?b => let a := reify env a in let b := reify env b in constr:(ZLor a b)
  | Z.lxor ?a ?b => let a := reify env a in let b := reify env b in constr:(ZLxor a b)
  | Z.shiftl ?a ?k => let a := reify env a in constr:(ZShl a k)
  | Z.shiftr ?a ?k => let a := reify env a in constr:(ZShr a k)
  | wrapu ?w ?a => let a := reify env a in constr:(ZWrap w a)
  | _ => lazymatch isZcst t with
         | true => constr:(ZConst t)
         | _ => let n := env_index env t in constr:(ZVar n)
         end
  end.

Ltac solve_env := repeat (apply Forall_cons; split; [assumption|]); apply Forall_nil; exact I.

(** Prove [x = y] for bit expressions. *)
Ltac bitblast :=
  let env := collect_env constr:(@nil (Z * Z)) in
  lazymatch goal with
  | |- ?x = ?y =>
      let a := reify env x in
      let b := reify env y in
      change (zden env a = zden env b);
      apply (check_eq_sound env);
        [solve_env | vm_compute; reflexivity]
  end.

(** Prove [in_u w x] for a bit expression. *)
Ltac bitrange :=
  let env := collect_env constr:(@nil (Z * Z)) in
  lazymatch goal with
  | |- in_u ?w ?x =>
      let a := reify env x in
      change (in_u w (zden env a));
      apply (check_range_sound env);
        [solve_env | vm_compute; reflexivity]
  end.
