(* ===== verification/Bits.v ===== *)
(** * Bit-level reading of parameter sets

    Models [crates/restream-core/src/codec/bits.rs]: the most-significant-bit
    first [BitReader], its fixed-width and Exp-Golomb reads, and the removal of
    emulation-prevention bytes ([rbsp]).  The specification side is a list of
    bits: [rem r] is what a reader has left, [enc_ue] / [enc_se] are the codes of
    ITU-T H.264 9.1, and [escape] is the encoder of 7.4.1. *)

From S2P Require Import Prelude.

(** ** The reader *)

Record BitReader := mk_BitReader { data : bytes; mask : Z }.

Definition BitReader_new (d : bytes) : BitReader := mk_BitReader d 0x80.

Definition read_bit : M BitReader bool := fun r =>
  match data r with
  | [] => (None, r)
  | byte :: rest =>
      let bit := negb (byte .& mask r =? 0) in
      let r' := if mask r =? 0x01 then mk_BitReader rest 0x80
                else mk_BitReader (data r) (mask r / 2) in
      (Some bit, r')
  end.

Fixpoint read_bits_loop (n : nat) (value : Z) : M BitReader Z :=
  match n with
  | O => mret value
  | S n' =>
      doubled ← lift (checked_u 32 (value * 2));
      bit ← read_bit;
      read_bits_loop n' (doubled .| Z.b2z bit)
  end.

Definition read_bits (n : Z) : M BitReader Z :=
  if 32 <? n then fail else read_bits_loop (Z.to_nat n) 0.

Definition skip (n : Z) : M BitReader unit := repeat_M (Z.to_nat n) read_bit.

(** The [while !self.read_bit()?] loop: it leaves after at most 32 bits, so 33
    rounds of fuel are never used up. *)
Fixpoint read_ue_zeros (fuel : nat) (leading_zeros : Z) : M BitReader Z :=
  match fuel with
  | O => fail
  | S fuel' =>
      bit ← read_bit;
      if (bit : bool) then mret leading_zeros
      else
        lz ← lift (checked_u 32 (leading_zeros + 1));
        if 31 <? lz then fail else read_ue_zeros fuel' lz
  end.

(** [1u32.checked_shl(n)] *)
Definition checked_shl_1 (n : Z) : option Z :=
  if n <? 32 then Some (as_u32 (1 .<< n)) else None.

Definition read_ue : M BitReader Z :=
  leading_zeros ← read_ue_zeros 33 0;
  if leading_zeros =? 0 then mret 0
  else
    suffix ← read_bits leading_zeros;
    one ← lift (checked_shl_1 leading_zeros);
    base ← lift (checked_u 32 (one - 1));
    lift (checked_u 32 (base + suffix)).

Definition read_se : M BitReader Z :=
  code ← read_ue;
  sum ← lift (checked_i 64 (code + 1));
  let magnitude := Z.quot sum 2 in
  value ← (if code .& 1 =? 1 then mret magnitude
           else lift (checked_i 64 (- magnitude)));
  lift (checked_i 32 value).

Fixpoint rbsp_loop (zeros : Z) (d : bytes) : bytes :=
  match d with
  | [] => []
  | byte :: rest =>
      if (2 <=? zeros) && (byte =? 3) then rbsp_loop 0 rest
      else byte :: rbsp_loop (if byte =? 0 then sat_u 8 (zeros + 1) else 0) rest
  end.

Definition rbsp (d : bytes) : bytes := rbsp_loop 0 d.

(** ** Specification: bit strings *)

(** The low [n] bits of [x], most significant first. *)
Fixpoint be_bits (n : nat) (x : Z) : list bool :=
  match n with
  | O => []
  | S n' => Z.testbit x (Z.of_nat n') :: be_bits n' x
  end.

Definition bits_value (l : list bool) : Z :=
  fold_left (fun v (b : bool) => 2 * v + Z.b2z b) l 0.

Definition byte_bits (b : Z) : list bool := be_bits 8 b.

(** What a reader has left. *)
Definition rem (r : BitReader) : list bool :=
  match data r with
  | [] => []
  | b :: rest => be_bits (S (Z.to_nat (Z.log2 (mask r)))) b ++ flat_map byte_bits rest
  end.

Definition reader_ok (r : BitReader) : Prop :=
  bytes_ok (data r) /\ exists k, 0 <= k <= 7 /\ mask r = 2 ^ k.

(** ue(v) and se(v) codes. *)
Definition enc_ue (v : Z) : list bool :=
  let k := Z.to_nat (Z.log2 (v + 1)) in
  replicate k false ++ be_bits (S k) (v + 1).

Definition se_code (v : Z) : Z := if 0 <? v then 2 * v - 1 else - 2 * v.
Definition enc_se (v : Z) : list bool := enc_ue (se_code v).

(** Emulation prevention: a 3 goes in front of every byte up to 3 that would
    follow two zero bytes. *)
Fixpoint escape_loop (zeros : Z) (d : bytes) : bytes :=
  match d with
  | [] => []
  | b :: rest =>
      if (2 <=? zeros) && (b <=? 3)
      then 3 :: b :: escape_loop (if b =? 0 then 1 else 0) rest
      else b :: escape_loop (if b =? 0 then zeros + 1 else 0) rest
  end.
Definition escape (d : bytes) : bytes := escape_loop 0 d.

(** [yields m bs a]: a reader whose next bits are [bs] reads exactly those with
    [m], gets [a], and stays well formed. *)
Definition yields {A} (m : M BitReader A) (bs : list bool) (a : A) : Prop :=
  forall r rest, reader_ok r -> rem r = bs ++ rest ->
    exists r', m r = (Some a, r') /\ reader_ok r' /\ rem r' = rest.

(** ** Lemmas *)

Lemma length_be_bits n x : length (be_bits n x) = n.
Proof. induction n; cbn; auto. Qed.

Lemma bits_value_snoc l b : bits_value (l ++ [b]) = 2 * bits_value l + Z.b2z b.
Proof. unfold bits_value. by rewrite fold_left_app. Qed.

Lemma bits_value_range l : 0 <= bits_value l < 2 ^ zlen l.
Proof.
  unfold zlen. induction l as [|b l IH] using rev_ind; [by vm_compute|].
  rewrite bits_value_snoc, length_app, Nat2Z.inj_add, Z.pow_add_r by lia.
  destruct b; cbn [Z.b2z length Z.of_nat]; lia.
Qed.

Lemma be_bits_snoc n x : be_bits (S n) x = be_bits n (x .>> 1) ++ [Z.testbit x 0].
Proof.
  revert x. induction n as [|n IH]; intros x; [done|].
  change (be_bits (S (S n)) x) with (Z.testbit x (Z.of_nat (S n)) :: be_bits (S n) x).
  rewrite IH. cbn [be_bits app]. f_equal.
  rewrite Z.shiftr_spec by lia. f_equal. lia.
Qed.

Lemma bits_value_be_bits n x : bits_value (be_bits n x) = x mod 2 ^ Z.of_nat n.
Proof.
  revert x. induction n as [|n IH]; intros x; [cbn; by rewrite Z.mod_1_r|].
  rewrite be_bits_snoc, bits_value_snoc, IH.
  rewrite Nat2Z.inj_succ, <- Z.add_1_l, Z.pow_add_r by lia.
  rewrite Z.rem_mul_r by (try apply Z.pow_nonzero; lia).
  rewrite Z.shiftr_div_pow2, Z.bit0_mod, Z.add_comm by lia.
  change (2 ^ 1) with 2. lia.
Qed.

Lemma bits_value_be_bits_id n x : in_u (Z.of_nat n) x -> bits_value (be_bits n x) = x.
Proof. intros H. rewrite bits_value_be_bits. by apply Z.mod_small. Qed.

Lemma be_bits_bits_value l : be_bits (length l) (bits_value l) = l.
Proof.
  induction l as [|b l IH] using rev_ind; [done|].
  rewrite length_app, Nat.add_comm. cbn [length Nat.add].
  rewrite be_bits_snoc, bits_value_snoc. f_equal.
  - rewrite Z.shiftr_div_pow2 by lia.
    replace ((2 * bits_value l + Z.b2z b) / 2 ^ 1) with (bits_value l); [done|].
    apply Z.div_unique with (Z.b2z b); destruct b; cbn; lia.
  - rewrite Z.add_comm, Z.add_b2z_double_bit0. done.
Qed.

Lemma land_pow2_testbit b k : 0 <= k -> negb (b .& 2 ^ k =? 0) = Z.testbit b k.
Proof.
  intros Hk. destruct (Z.testbit b k) eqn:E.
  - apply negb_true_iff, Z.eqb_neq. intros H.
    assert (Z.testbit (b .& 2 ^ k) k = true) as Hb.
    { rewrite Z.land_spec, E, Z.pow2_bits_true; done. }
    rewrite H, Z.bits_0 in Hb. done.
  - apply negb_false_iff, Z.eqb_eq, Z.bits_inj'. intros i Hi.
    rewrite Z.land_spec, Z.bits_0, Z.pow2_bits_eqb by done.
    destruct (Z.eqb_spec k i) as [<-|]; [by rewrite E|by rewrite andb_false_r].
Qed.

Lemma reader_new_ok d : bytes_ok d -> reader_ok (BitReader_new d).
Proof. intros H. split; [done|]. exists 7. cbn. lia. Qed.

Lemma rem_new d : rem (BitReader_new d) = flat_map byte_bits d.
Proof. by destruct d. Qed.

Lemma read_bit_nil r : rem r = [] -> read_bit r = (None, r).
Proof. unfold rem, read_bit. by destruct (data r). Qed.

Lemma read_bit_cons r b bs :
  reader_ok r -> rem r = b :: bs ->
  exists r', read_bit r = (Some b, r') /\ reader_ok r' /\ rem r' = bs.
Proof.
  intros [Hok (k & Hk & Hm)]. unfold rem, read_bit.
  destruct (data r) as [|byte rest] eqn:Hd; [done|].
  rewrite Hm, Z.log2_pow2, land_pow2_testbit by lia. cbn [be_bits app].
  rewrite Z2Nat.id by lia. intros [= <- <-]. eexists; split; [done|].
  inversion Hok; subst.
  destruct (decide (k = 0)) as [->|Hk0]; cbn [Z.eqb Z.pow].
  - split; [by apply reader_new_ok|]. by destruct rest.
  - assert ((2 ^ k =? 1) = false) as ->.
    { apply Z.eqb_neq. change 1 with (2 ^ 0). intros E%Z.pow_inj_r; lia. }
    assert (2 ^ k / 2 = 2 ^ (k - 1)) as Hhalf.
    { rewrite Z.pow_sub_r by lia. done. }
    rewrite Hhalf. split.
    + split; [done|]. exists (k - 1). cbn. lia.
    + cbn. rewrite Z.log2_pow2 by lia.
      replace (Z.to_nat k) with (S (Z.to_nat (k - 1))) by lia. done.
Qed.

Lemma yields_ret {A} (a : A) : yields (mret a) [] a.
Proof. intros r rest Hr Hrem. eexists; split; [done|]. done. Qed.

Lemma yields_bind {A B} (m : M BitReader A) (f : A -> M BitReader B) bs1 bs2 a b :
  yields m bs1 a -> yields (f a) bs2 b -> yields (m ≫= f) (bs1 ++ bs2) b.
Proof.
  intros H1 H2 r rest Hr Hrem. rewrite <- app_assoc in Hrem.
  destruct (H1 r _ Hr Hrem) as (r1 & E1 & Hr1 & Hrem1).
  destruct (H2 r1 _ Hr1 Hrem1) as (r2 & E2 & Hr2 & Hrem2).
  exists r2. unfold mbind, M_bind. by rewrite E1, E2.
Qed.

Lemma yields_lift {A} (o : option A) a : o = Some a -> yields (lift o) [] a.
Proof. intros -> r rest Hr Hrem. eexists; split; done. Qed.

Lemma yields_lift_bind {A B} (o : option A) (f : A -> M BitReader B) a bs b :
  o = Some a -> yields (f a) bs b -> yields (lift o ≫= f) bs b.
Proof. intros. eapply (yields_bind _ _ [] bs); eauto using yields_lift. Qed.

Lemma yields_bit b : yields read_bit [b] b.
Proof. intros r rest Hr Hrem. by apply read_bit_cons. Qed.

Lemma yields_bit_bind {B} (f : bool -> M BitReader B) b bs v :
  yields (f b) bs v -> yields (read_bit ≫= f) (b :: bs) v.
Proof. intros. eapply (yields_bind _ _ [b] bs); eauto using yields_bit. Qed.

Lemma double_lor v b : 0 <= v -> v * 2 .| Z.b2z b = 2 * v + Z.b2z b.
Proof.
  intros. replace (v * 2) with (v .<< 1) by (rewrite Z.shiftl_mul_pow2; lia).
  rewrite lor_shiftl_add by (destruct b; cbn; lia). lia.
Qed.

Lemma yields_read_bits_loop bs v :
  0 <= v -> v * 2 ^ zlen bs + bits_value bs < 2 ^ 32 ->
  yields (read_bits_loop (length bs) v) bs (v * 2 ^ zlen bs + bits_value bs).
Proof.
  revert v. induction bs as [|b bs IH]; intros v Hv Hmax.
  - cbn [length read_bits_loop]. replace (v * _ + _) with v; [apply yields_ret|].
    unfold zlen; cbn. lia.
  - assert (Hcons : forall w, w * 2 ^ zlen (b :: bs) + bits_value (b :: bs)
              = (2 * w + Z.b2z b) * 2 ^ zlen bs + bits_value bs).
    { intros w. unfold zlen. cbn [length]. rewrite Nat2Z.inj_succ, Z.pow_succ_r by lia.
      enough (bits_value (b :: bs) = Z.b2z b * 2 ^ Z.of_nat (length bs) + bits_value bs) by lia.
      clear. change (b :: bs) with ([b] ++ bs).
      induction bs as [|c bs IH] using rev_ind; [cbn; destruct b; done|].
      rewrite app_assoc, !bits_value_snoc, IH, length_app, Nat2Z.inj_add, Z.pow_add_r by lia.
      cbn [length Z.of_nat]. lia. }
    rewrite Hcons in *. cbn [length read_bits_loop].
    pose proof (bits_value_range bs) as Hr.
    assert (0 < 2 ^ zlen bs) by (apply Z.pow_pos_nonneg; unfold zlen; lia).
    eapply yields_lift_bind.
    { apply checked_u_Some. unfold in_u. destruct b; cbn [Z.b2z] in *; nia. }
    apply yields_bit_bind. rewrite double_lor by done.
    apply IH; destruct b; cbn [Z.b2z] in *; lia.
Qed.

Lemma yields_read_bits n bs :
  zlen bs = n -> n <= 32 -> yields (read_bits n) bs (bits_value bs).
Proof.
  intros <- Hn. unfold read_bits. destruct (Z.ltb_spec 32 (zlen bs)); [lia|].
  unfold zlen in *. rewrite Nat2Z.id.
  pose proof (bits_value_range bs) as Hr. unfold zlen in Hr.
  pose proof (yields_read_bits_loop bs 0) as H'. unfold zlen in H'.
  rewrite Z.mul_0_l, Z.add_0_l in H'. apply H'; [done|].
  apply Z.lt_le_trans with (2 ^ Z.of_nat (length bs)); [lia|]. apply Z.pow_le_mono_r; lia.
Qed.

Lemma yields_skip n bs : zlen bs = n -> yields (skip n) bs tt.
Proof.
  intros <-. unfold skip, zlen. rewrite Nat2Z.id.
  induction bs as [|b bs IH]; [apply yields_ret|]. by apply yields_bit_bind.
Qed.

Lemma yields_bits_field n x :
  0 <= n <= 32 -> in_u n x -> yields (read_bits n) (be_bits (Z.to_nat n) x) x.
Proof.
  intros Hn Hx. pose proof (yields_read_bits n (be_bits (Z.to_nat n) x)) as H.
  unfold zlen in H. rewrite length_be_bits, Z2Nat.id, bits_value_be_bits_id in H by
    (rewrite ?Z2Nat.id by lia; done || lia).
  apply H; lia.
Qed.

(** *** Exp-Golomb codes *)

Lemma read_ue_zeros_yields k fuel lz :
  0 <= lz -> lz + Z.of_nat k <= 31 -> (k < fuel)%nat ->
  yields (read_ue_zeros fuel lz) (replicate k false ++ [true]) (lz + Z.of_nat k).
Proof.
  revert fuel lz. induction k as [|k IH]; intros fuel lz Hlz Hmax Hf;
    (destruct fuel as [|fuel]; [lia|]); cbn [read_ue_zeros replicate app].
  - apply yields_bit_bind. rewrite Z.add_0_r. apply yields_ret.
  - apply yields_bit_bind. cbn beta iota.
    eapply yields_lift_bind; [apply checked_u_Some; unfold in_u; lia|].
    destruct (Z.ltb_spec 31 (lz + 1)); [lia|].
    replace (lz + Z.of_nat (S k)) with (lz + 1 + Z.of_nat k) by lia.
    apply IH; lia.
Qed.

Lemma enc_ue_split v :
  0 <= v ->
  exists k suffix, enc_ue v = replicate k false ++ [true] ++ suffix /\ length suffix = k /\
    v = 2 ^ Z.of_nat k - 1 + bits_value suffix /\ Z.of_nat k = Z.log2 (v + 1).
Proof.
  intros Hv. pose proof (Z.log2_nonneg (v + 1)) as Hk0.
  exists (Z.to_nat (Z.log2 (v + 1))), (be_bits (Z.to_nat (Z.log2 (v + 1))) (v + 1)).
  assert (Hid : Z.of_nat (Z.to_nat (Z.log2 (v + 1))) = Z.log2 (v + 1)) by lia.
  split_and!; [|by rewrite length_be_bits| |done].
  - unfold enc_ue. cbn [be_bits app]. by rewrite Hid, Z.bit_log2 by lia.
  - rewrite bits_value_be_bits, Hid.
    destruct (Z.log2_spec (v + 1)) as [H1 H2]; [lia|]. rewrite Z.pow_succ_r in H2 by lia.
    replace ((v + 1) mod 2 ^ Z.log2 (v + 1)) with (v + 1 - 2 ^ Z.log2 (v + 1)); [lia|].
    apply Z.mod_unique with 1; lia.
Qed.

Lemma log2_ue_bound v : 0 <= v <= 2 ^ 32 - 2 -> Z.log2 (v + 1) <= 31.
Proof. intros Hv. apply Z.lt_succ_r, Z.log2_lt_pow2; cbn; lia. Qed.

Lemma checked_shl_1_pow k : 0 <= k <= 31 -> checked_shl_1 k = Some (2 ^ k).
Proof.
  intros Hk. unfold checked_shl_1. destruct (Z.ltb_spec k 32); [|lia].
  rewrite Z.shiftl_1_l, wrapu_id; [done|]. unfold in_u.
  split; [apply Z.pow_nonneg; lia|apply Z.pow_lt_mono_r; lia].
Qed.

(** The tail of [read_ue] after the leading zeros. *)
Lemma read_ue_tail_yields k suffix :
  length suffix = k -> (k <= 31)%nat ->
  yields (if Z.of_nat k =? 0 then mret 0
          else suffix ← read_bits (Z.of_nat k);
               one ← lift (checked_shl_1 (Z.of_nat k));
               base ← lift (checked_u 32 (one - 1));
               lift (checked_u 32 (base + suffix)))
    suffix (2 ^ Z.of_nat k - 1 + bits_value suffix).
Proof.
  intros Hlen Hk. destruct (Z.eqb_spec (Z.of_nat k) 0) as [E|E].
  - destruct k; [|lia]. destruct suffix; [|done]. apply yields_ret.
  - rewrite <- (app_nil_r suffix) at 1.
    pose proof (bits_value_range suffix) as Hr. unfold zlen in Hr. rewrite Hlen in Hr.
    assert (1 <= 2 ^ Z.of_nat k <= 2 ^ 31).
    { split; [change 1 with (2 ^ 0)|]; apply Z.pow_le_mono_r; lia. }
    eapply yields_bind; [apply yields_read_bits; unfold zlen; lia|].
    eapply yields_lift_bind; [apply checked_shl_1_pow; lia|].
    eapply yields_lift_bind; [apply checked_u_Some; unfold in_u; lia|].
    apply yields_lift, checked_u_Some. unfold in_u. lia.
Qed.

Lemma yields_ue v : 0 <= v <= 2 ^ 32 - 2 -> yields read_ue (enc_ue v) v.
Proof.
  intros Hv. destruct (enc_ue_split v) as (k & suffix & -> & Hlen & Hval & Hlog); [lia|].
  pose proof (log2_ue_bound v Hv). rewrite Hval, app_assoc. unfold read_ue.
  eapply yields_bind; [apply (read_ue_zeros_yields k 33 0); lia|].
  rewrite Z.add_0_l. apply read_ue_tail_yields; lia.
Qed.

Lemma se_code_range v : - (2 ^ 31 - 1) <= v <= 2 ^ 31 - 1 -> 0 <= se_code v <= 2 ^ 32 - 2.
Proof. unfold se_code. case_if; lia. Qed.

Lemma yields_se v : - (2 ^ 31 - 1) <= v <= 2 ^ 31 - 1 -> yields read_se (enc_se v) v.
Proof.
  intros Hv. pose proof (se_code_range v Hv) as Hc. unfold read_se, enc_se.
  rewrite <- (app_nil_r (enc_ue _)).
  eapply yields_bind; [by apply yields_ue|].
  eapply yields_lift_bind; [apply checked_i_Some; unfold in_i; cbn; lia|].
  assert (Hodd : se_code v .& 1 = Z.b2z (0 <? v)).
  { rewrite (land_ones_mod _ 1) by lia. unfold se_code. change (2 ^ 1) with 2.
    case_if; cbn [Z.b2z]; Z.div_mod_to_equations; lia. }
  assert (Hmag : Z.quot (se_code v + 1) 2 = Z.abs v).
  { rewrite Z.quot_div_nonneg by lia. unfold se_code.
    case_if; Z.div_mod_to_equations; lia. }
  rewrite Hmag, Hodd.
  replace v with (if 0 <? v then Z.abs v else - Z.abs v) at 4 by (case_if; lia).
  destruct (Z.ltb_spec 0 v); cbn [Z.b2z Z.eqb].
  - eapply (yields_bind _ _ [] []); [apply yields_ret|].
    apply yields_lift, checked_i_Some. unfold in_i. lia.
  - eapply (yields_bind _ _ [] []).
    + apply yields_lift, checked_i_Some. unfold in_i. cbn. lia.
    + apply yields_lift, checked_i_Some. unfold in_i. lia.
Qed.

(** *** Reads in the other direction: what a successful read has consumed *)

(** [consumes m P]: when [m] succeeds with [a] it took exactly some bits [bs]
    with [P bs a], and the reader stays well formed. *)
Definition consumes {A} (m : M BitReader A) (P : list bool -> A -> Prop) : Prop :=
  forall r a r', reader_ok r -> m r = (Some a, r') ->
    reader_ok r' /\ exists bs, rem r = bs ++ rem r' /\ P bs a.

Lemma consumes_ret {A} (a : A) : consumes (mret a) (fun bs b => bs = [] /\ b = a).
Proof. intros r b r' Hr [= <- <-]. split; [done|]. by exists []. Qed.

Lemma consumes_lift {A} (o : option A) :
  consumes (lift o) (fun bs b => bs = [] /\ o = Some b).
Proof. intros r b r' Hr [= -> <-]. split; [done|]. by exists []. Qed.

Lemma consumes_fail {A} : consumes (fail : M BitReader A) (fun _ _ => False).
Proof. intros r b r' Hr [=]. Qed.

Lemma consumes_bind {A B} (m : M BitReader A) (f : A -> M BitReader B) P Q :
  consumes m P -> (forall bs a, P bs a -> consumes (f a) (Q a)) ->
  consumes (m ≫= f) (fun bs b => exists a bs1 bs2, bs = bs1 ++ bs2 /\ P bs1 a /\ Q a bs2 b).
Proof.
  intros H1 H2 r b r' Hr. unfold mbind, M_bind.
  destruct (m r) as [[a|] r1] eqn:E1; [|done]. intros E2.
  destruct (H1 r a r1 Hr E1) as (Hr1 & bs1 & Hrem1 & HP).
  destruct (H2 bs1 a HP r1 b r' Hr1 E2) as (Hr2 & bs2 & Hrem2 & HQ).
  split; [done|]. exists (bs1 ++ bs2). rewrite Hrem1, Hrem2, app_assoc. eauto 8.
Qed.

Lemma consumes_weaken {A} (m : M BitReader A) (P Q : list bool -> A -> Prop) :
  consumes m P -> (forall bs a, P bs a -> Q bs a) -> consumes m Q.
Proof.
  intros H HPQ r a r' Hr E. destruct (H r a r' Hr E) as (Hr' & bs & Hrem & HP). eauto.
Qed.

Lemma consumes_bit : consumes read_bit (fun bs b => bs = [b]).
Proof.
  intros r b r' Hr E. destruct (rem r) as [|c bs] eqn:Hrem.
  - by rewrite read_bit_nil in E.
  - destruct (read_bit_cons r c bs Hr Hrem) as (r1 & E1 & Hr1 & Hrem1).
    rewrite E in E1. injection E1 as <- <-. split; [done|]. exists [b]. by rewrite Hrem1.
Qed.

Lemma bits_value_cons b bs :
  bits_value (b :: bs) = Z.b2z b * 2 ^ zlen bs + bits_value bs.
Proof.
  unfold zlen. change (b :: bs) with ([b] ++ bs).
  induction bs as [|c bs IH] using rev_ind; [cbn; destruct b; done|].
  rewrite app_assoc, !bits_value_snoc, IH, length_app, Nat2Z.inj_add, Z.pow_add_r by lia.
  cbn [length Z.of_nat]. lia.
Qed.

Lemma consumes_read_bits_loop n v :
  0 <= v ->
  consumes (read_bits_loop n v)
    (fun bs a => length bs = n /\ a = v * 2 ^ zlen bs + bits_value bs).
Proof.
  revert v. induction n as [|n IH]; intros v Hv; cbn [read_bits_loop].
  - eapply consumes_weaken; [apply consumes_ret|]. intros bs a [-> ->].
    split; [done|]. unfold zlen; cbn. lia.
  - set (Q := fun (_ : Z) bs a => exists b bs', bs = b :: bs' /\ length bs' = n /\
          a = (2 * v + Z.b2z b) * 2 ^ zlen bs' + bits_value bs').
    eapply consumes_weaken.
    { eapply (consumes_bind _ _ _ Q); [apply consumes_lift|].
      intros bs1 d [_ Hd]. apply checked_u_inv in Hd as [-> Hd].
      eapply consumes_weaken.
      { eapply consumes_bind; [apply consumes_bit|]. intros bs2 b _.
        rewrite double_lor by done. apply IH. destruct b; cbn; lia. }
      cbn. intros bs a (b & bs2 & bs3 & -> & -> & Hlen & ->). exists b, bs3. auto. }
    cbn. intros bs a (d & bs1 & bs2 & -> & [-> Hd] & b & bs3 & -> & Hlen & ->).
    cbn [app]. split; [cbn; lia|].
    rewrite bits_value_cons, zlen_cons, Z.pow_add_r by (pose proof (zlen_nonneg bs3); lia).
    lia.
Qed.

Lemma consumes_read_bits n :
  0 <= n -> consumes (read_bits n) (fun bs a => n <= 32 /\ zlen bs = n /\ a = bits_value bs).
Proof.
  intros Hn. unfold read_bits. case_if.
  - eapply consumes_weaken; [apply consumes_fail|done].
  - eapply consumes_weaken; [by apply consumes_read_bits_loop|].
    intros bs a [Hlen ->]. unfold zlen. split_and!; lia.
Qed.

Lemma consumes_read_ue_zeros fuel lz :
  0 <= lz <= 31 ->
  consumes (read_ue_zeros fuel lz)
    (fun bs a => exists k, bs = replicate k false ++ [true] /\ a = lz + Z.of_nat k /\ a <= 31).
Proof.
  revert lz. induction fuel as [|fuel IH]; intros lz Hlz; cbn [read_ue_zeros].
  { eapply consumes_weaken; [apply consumes_fail|done]. }
  eapply consumes_weaken.
  { eapply (consumes_bind _ _ _ (fun b bs a =>
      exists k, b :: bs = replicate k false ++ [true] /\ a = lz + Z.of_nat k /\ a <= 31));
      [apply consumes_bit|].
    intros bs1 b _. destruct b.
    - eapply consumes_weaken; [apply consumes_ret|]. intros bs a [-> ->].
      exists O. cbn. split_and!; [done|lia|lia].
    - eapply consumes_weaken.
      { eapply consumes_bind; [apply consumes_lift|]. intros bs2 d [_ Hd].
        apply checked_u_inv in Hd as [-> Hd].
        instantiate (1 := fun _ bs a => exists k, bs = replicate k false ++ [true] /\
          a = lz + 1 + Z.of_nat k /\ a <= 31).
        case_if; [eapply consumes_weaken; [apply consumes_fail|done]|]. apply IH. lia. }
      cbn. intros bs a (d & bs2 & bs3 & -> & [-> _] & k & -> & -> & Hm).
      exists (S k). cbn. split_and!; [done|lia|lia]. }
  cbn. intros bs a (b & bs1 & bs2 & -> & -> & k & Hk & Ha). exists k. done.
Qed.

Lemma enc_ue_join k suffix :
  length suffix = k ->
  replicate k false ++ [true] ++ suffix = enc_ue (2 ^ Z.of_nat k - 1 + bits_value suffix).
Proof.
  intros Hlen. pose proof (bits_value_range suffix) as Hr. unfold zlen in Hr. rewrite Hlen in Hr.
  unfold enc_ue. replace (_ - 1 + _ + 1) with (2 ^ Z.of_nat k + bits_value suffix) by lia.
  assert (Z.log2 (2 ^ Z.of_nat k + bits_value suffix) = Z.of_nat k) as ->.
  { apply Z.log2_unique; [lia|]. rewrite Z.pow_succ_r by lia. lia. }
  rewrite Nat2Z.id. f_equal. cbn [be_bits app]. f_equal.
  - rewrite <- (Z.mul_1_l (2 ^ Z.of_nat k)), <- lor_shiftl_add by lia.
    rewrite Z.lor_spec, Z.shiftl_spec, Z.sub_diag by lia. done.
  - rewrite <- (be_bits_bits_value suffix) at 1. rewrite Hlen.
    rewrite <- (be_bits_bits_value (be_bits k (2 ^ Z.of_nat k + bits_value suffix))).
    rewrite length_be_bits, bits_value_be_bits. f_equal.
    apply Z.mod_unique with 1; lia.
Qed.

Lemma consumes_ue :
  consumes read_ue (fun bs v => bs = enc_ue v /\ 0 <= v <= 2 ^ 32 - 2).
Proof.
  unfold read_ue. eapply consumes_weaken.
  { eapply consumes_bind; [apply consumes_read_ue_zeros; lia|].
    intros bs1 lz (k & -> & -> & Hk). rewrite Z.add_0_l.
    instantiate (1 := fun lz bs v => zlen bs = lz /\ v = 2 ^ lz - 1 + bits_value bs). cbn beta.
    case_if.
    - eapply consumes_weaken; [apply consumes_ret|]. intros bs a [-> ->]. by rewrite E.
    - eapply consumes_weaken.
      { eapply consumes_bind; [apply consumes_read_bits; lia|]. intros bs2 suffix Hs.
        eapply consumes_bind; [apply consumes_lift|]. intros bs3 one Hone.
        eapply consumes_bind; [apply consumes_lift|]. intros bs4 base Hbase.
        apply consumes_lift. }
      cbn. intros bs v (suffix & b1 & b2 & -> & (Hn & Hlen & ->) & one & b3 & b4 & -> &
        [-> Hone] & base & b5 & b6 & -> & [-> Hbase] & -> & Hv).
      rewrite checked_shl_1_pow in Hone by lia. injection Hone as <-.
      apply checked_u_inv in Hbase as [-> _], Hv as [-> _].
      rewrite !app_nil_r. auto. }
  cbn. intros bs v (lz & bs1 & bs2 & -> & (k & -> & -> & Hk) & Hlen & ->).
  rewrite Z.add_0_l in *.
  pose proof (bits_value_range bs2) as Hr. rewrite Hlen in Hr.
  assert (1 <= 2 ^ Z.of_nat k <= 2 ^ 31).
  { split; [change 1 with (2 ^ 0)|]; apply Z.pow_le_mono_r; lia. }
  split; [|lia]. rewrite <- app_assoc. apply enc_ue_join. unfold zlen in Hlen. lia.
Qed.

(** *** Emulation prevention *)

Lemma escape_loop_3 z b rest : 2 <= z -> b <= 3 ->
  escape_loop z (b :: rest) = 3 :: b :: escape_loop (if b =? 0 then 1 else 0) rest.
Proof.
  intros Hz Hb. cbn [escape_loop].
  by rewrite (proj2 (Z.leb_le _ _) Hz), (proj2 (Z.leb_le _ _) Hb).
Qed.

Lemma rbsp_escape_loop z d :
  bytes_ok d -> 0 <= z <= 2 -> rbsp_loop z (escape_loop z d) = d.
Proof.
  intros Hok. revert z. induction Hok as [|b rest Hb Hrest IH]; intros z Hz; [done|].
  destruct (decide (2 <= z /\ b <= 3)) as [[Hz2 Hb3]|Hno].
  - rewrite escape_loop_3 by done. cbn [rbsp_loop].
    rewrite (proj2 (Z.leb_le _ _) Hz2). cbn.
    rewrite <- (IH (if b =? 0 then 1 else 0)) at 2 by (case_if; lia).
    destruct (b =? 0) eqn:E; reflexivity.
  - assert ((2 <=? z) && (b <=? 3) = false) as E.
    { apply andb_false_iff. destruct (Z.leb_spec 2 z), (Z.leb_spec b 3); auto; lia. }
    cbn [escape_loop]. rewrite E. cbn [rbsp_loop].
    assert ((2 <=? z) && (b =? 3) = false) as ->.
    { apply andb_false_iff in E as [->|E]; [done|]. bool_to_prop.
      apply andb_false_iff. right. apply Z.eqb_neq. lia. }
    f_equal. destruct (b =? 0) eqn:Eb; [|apply IH; lia]. bool_to_prop.
    assert (z <= 1) by (destruct (decide (2 <= z)); [lia|lia]).
    assert (sat_u 8 (z + 1) = z + 1) as -> by (unfold sat_u; lia). apply IH; lia.
Qed.

(** Two zero bytes in a row followed by a byte below 3: what a NAL unit must not
    contain, since a start code could begin there. *)
Fixpoint has_emulation (d : bytes) : bool :=
  match d with
  | 0 :: ((0 :: (b :: _)) as rest) => (b <? 3) || has_emulation rest
  | _ :: rest => has_emulation rest
  | [] => false
  end.

Lemma escape_loop_clean z d :
  bytes_ok d -> 0 <= z <= 2 ->
  has_emulation (replicate (Z.to_nat z) 0 ++ escape_loop z d) = false.
Proof.
  intros Hok. revert z. induction Hok as [|b rest Hb Hrest IH]; intros z Hz.
  { assert (z = 0 \/ z = 1 \/ z = 2) as [->|[->| ->]] by lia; done. }
  assert (H0 := IH 0 ltac:(lia)). assert (H1 := IH 1 ltac:(lia)). assert (H2 := IH 2 ltac:(lia)).
  change (Z.to_nat 0) with O in H0. change (Z.to_nat 1) with 1%nat in H1.
  change (Z.to_nat 2) with 2%nat in H2. cbn [replicate app] in *. unfold in_u in Hb.
  assert (Hnz : forall l, b <> 0 -> has_emulation (b :: l) = has_emulation l).
  { intros l Hb0. destruct b; done. }
  destruct (decide (2 <= z /\ b <= 3)) as [[Hz2 Hb3]|Hno].
  - assert (z = 2) as -> by lia. rewrite escape_loop_3 by done. cbn [replicate app Z.to_nat].
    change (Pos.to_nat 2) with 2%nat. cbn [replicate app].
    change (has_emulation (b :: escape_loop (if b =? 0 then 1 else 0) rest) = false).
    destruct (Z.eqb_spec b 0) as [->|Hb0]; [done|]. by rewrite Hnz.
  - cbn [escape_loop].
    assert ((2 <=? z) && (b <=? 3) = false) as ->.
    { apply andb_false_iff. destruct (Z.leb_spec 2 z), (Z.leb_spec b 3); auto; lia. }
    destruct (Z.eqb_spec b 0) as [->|Hb0].
    + assert (z = 0 \/ z = 1) as [->| ->] by lia; done.
    + assert (Hb' : forall l, has_emulation (b :: l) = has_emulation l) by (intros; by apply Hnz).
      assert (z = 0 \/ z = 1 \/ z = 2) as [->|[->| ->]] by lia.
      * change (Z.to_nat 0) with O. cbn [replicate app]. by rewrite Hb'.
      * change (Z.to_nat 1) with 1%nat. cbn [replicate app].
        assert (has_emulation (0 :: b :: escape_loop 0 rest)
                = has_emulation (b :: escape_loop 0 rest)) as -> by (by destruct b).
        by rewrite Hb'.
      * change (Z.to_nat 2) with 2%nat. cbn [replicate app].
        assert (has_emulation (0 :: 0 :: b :: escape_loop 0 rest)
          = (b <? 3) || has_emulation (b :: escape_loop 0 rest)) as ->.
        { cbn [has_emulation]. destruct b; done. }
        rewrite Hb', H0. destruct (Z.ltb_spec b 3); [lia|done].
Qed.

Lemma rbsp_ok d : bytes_ok d -> bytes_ok (rbsp d).
Proof.
  intros Hok. unfold rbsp. generalize 0 as z.
  induction Hok as [|b rest Hb Hrest IH]; intros z; cbn [rbsp_loop]; [constructor|].
  case_if; [apply IH|]. constructor; auto.
Qed.

(** *** Postconditions of reads *)

Definition returns {A} (m : M BitReader A) (P : A -> Prop) : Prop := consumes m (fun _ a => P a).

Lemma returns_ret {A} (a : A) (P : A -> Prop) : P a -> returns (mret a) P.
Proof. intros H. eapply consumes_weaken; [apply consumes_ret|]. by intros bs b [_ ->]. Qed.

Lemma returns_fail {A} (P : A -> Prop) : returns fail P.
Proof. eapply consumes_weaken; [apply consumes_fail|done]. Qed.

Lemma returns_lift {A} (o : option A) : returns (lift o) (fun a => o = Some a).
Proof. eapply consumes_weaken; [apply consumes_lift|]. by intros bs b [_ ->]. Qed.

Lemma returns_bind {A B} (m : M BitReader A) (f : A -> M BitReader B) P Q :
  returns m P -> (forall a, P a -> returns (f a) Q) -> returns (m ≫= f) Q.
Proof.
  intros Hm Hf. eapply consumes_weaken.
  - eapply (consumes_bind _ _ _ (fun _ _ b => Q b)); [exact Hm|]. intros bs a. apply Hf.
  - cbn. by intros bs b (a & bs1 & bs2 & _ & _ & HQ).
Qed.

Lemma returns_bits n : 0 <= n -> returns (read_bits n) (in_u n).
Proof.
  intros Hn. eapply consumes_weaken; [by apply consumes_read_bits|].
  intros bs a (_ & Hl & ->). pose proof (bits_value_range bs) as Hr. by rewrite Hl in Hr.
Qed.

Lemma returns_ue : returns read_ue (fun v => 0 <= v <= 2 ^ 32 - 2).
Proof. eapply consumes_weaken; [apply consumes_ue|]. by intros bs v [_ ?]. Qed.

Lemma returns_bit : returns read_bit (fun _ => True).
Proof. eapply consumes_weaken; [apply consumes_bit|done]. Qed.

Lemma returns_repeat {A} n (m : M BitReader A) P : returns m P -> returns (repeat_M n m) (fun _ => True).
Proof.
  intros Hm. induction n as [|n IH]; cbn [repeat_M]; [by apply returns_ret|].
  eapply returns_bind; [exact Hm|done].
Qed.

Lemma returns_skip n : returns (skip n) (fun _ => True).
Proof. eapply returns_repeat, returns_bit. Qed.

(** One read of a parser, its postcondition at hand. *)
Create HintDb returns discriminated.
#[export] Hint Resolve returns_ue returns_bit returns_skip returns_lift : returns.
#[export] Hint Extern 1 (returns (read_bits _) _) => apply returns_bits; lia : returns.
Ltac rstep := eapply returns_bind; [solve [eauto with returns]|intros ? ?].

(** ** Properties *)

(** [read_bits n] is total and exact: it succeeds exactly when [n] is at most
    32 and that many bits are left, returns their big-endian value, and leaves the
    reader just behind them; it never fails by overflow. *)
Theorem read_bits_exact r n :
  reader_ok r -> 0 <= n ->
  match read_bits n r with
  | (Some v, r') => n <= 32 /\ n <= zlen (rem r) /\ reader_ok r' /\
      v = bits_value (take (Z.to_nat n) (rem r)) /\ rem r' = drop (Z.to_nat n) (rem r)
  | (None, _) => 32 < n \/ zlen (rem r) < n
  end.
Proof.
  intros Hr Hn. destruct (read_bits n r) as [[v|] r'] eqn:E.
  - destruct (consumes_read_bits n Hn r v r' Hr E) as (Hr' & bs & Hrem & H32 & Hlen & ->).
    rewrite Hrem. unfold zlen in *. rewrite length_app.
    assert (Z.to_nat n = length bs) as -> by lia.
    rewrite take_app_length, drop_app_length. split_and!; auto; lia.
  - destruct (decide (32 < n)); [auto|right].
    destruct (decide (zlen (rem r) < n)) as [|Hlen]; [done|]. exfalso. unfold zlen in Hlen.
    destruct (yields_read_bits n (take (Z.to_nat n) (rem r))) with (r := r)
      (rest := drop (Z.to_nat n) (rem r)) as (r1 & E1 & _).
    + unfold zlen. rewrite length_take. lia.
    + lia.
    + done.
    + by rewrite take_drop.
    + congruence.
Qed.

Lemma read_bits_exact_witness :
  exists v, fst (read_bits 3 (BitReader_new [0xA6])) = Some v /\ v = 5 /\
  match read_bits 3 (BitReader_new [0xA6]) with
  | (Some v, r') => 3 <= 32 /\ 3 <= zlen (rem (BitReader_new [0xA6])) /\ reader_ok r' /\
      v = bits_value (take (Z.to_nat 3) (rem (BitReader_new [0xA6]))) /\
      rem r' = drop (Z.to_nat 3) (rem (BitReader_new [0xA6]))
  | (None, _) => 32 < 3 \/ zlen (rem (BitReader_new [0xA6])) < 3
  end.
Proof.
  exists 5. split; [vm_compute; reflexivity|]. split; [reflexivity|].
  apply (read_bits_exact (BitReader_new [0xA6]) 3); [|lia].
  apply reader_new_ok. repeat constructor; unfold in_u; lia.
Defined.

(** Unsigned Exp-Golomb reads are exact and canonical: [read_ue] succeeds with
    [v] and leaves [rest] if and only if the reader's bits are the ue(v) code of
    [v] followed by [rest], for [v] up to 2^32 - 2; no other bit string is read as
    [v] and no intermediate computation overflows. *)
Theorem read_ue_iff r v rest :
  reader_ok r ->
  (exists r', read_ue r = (Some v, r') /\ reader_ok r' /\ rem r' = rest) <->
  (0 <= v <= 2 ^ 32 - 2 /\ rem r = enc_ue v ++ rest).
Proof.
  intros Hr. split.
  - intros (r' & E & Hr' & <-).
    destruct (consumes_ue r v r' Hr E) as (_ & bs & Hrem & -> & Hv). done.
  - intros [Hv Hrem]. by apply (yields_ue v Hv).
Qed.

Lemma read_ue_iff_witness :
  (exists r', read_ue (BitReader_new [0x26; 0xFF]) = (Some 3, r') /\ reader_ok r' /\
     rem r' = drop 5 (rem (BitReader_new [0x26; 0xFF]))) <->
  (0 <= 3 <= 2 ^ 32 - 2 /\
   rem (BitReader_new [0x26; 0xFF]) = enc_ue 3 ++ drop 5 (rem (BitReader_new [0x26; 0xFF]))).
Proof.
  apply (read_ue_iff (BitReader_new [0x26; 0xFF]) 3).
  apply reader_new_ok. repeat constructor; unfold in_u; lia.
Defined.

(** Signed Exp-Golomb round trip over the whole range of the code: a reader at
    the se(v) code of any [v] from -(2^31 - 1) to 2^31 - 1 reads back exactly [v]
    (the largest codeNum does not wrap through [i32]). *)
Theorem read_se_roundtrip r v rest :
  reader_ok r -> - (2 ^ 31 - 1) <= v <= 2 ^ 31 - 1 -> rem r = enc_se v ++ rest ->
  exists r', read_se r = (Some v, r') /\ reader_ok r' /\ rem r' = rest.
Proof. intros Hr Hv. by apply yields_se. Qed.

Lemma read_se_roundtrip_witness :
  exists r', read_se (BitReader_new [0; 0; 0; 1; 0xFF; 0xFF; 0xFF; 0xFE]) = (Some (- 2147483647), r')
    /\ reader_ok r' /\ rem r' = [false].
Proof.
  apply (read_se_roundtrip (BitReader_new [0; 0; 0; 1; 0xFF; 0xFF; 0xFF; 0xFE]) (- 2147483647) [false]).
  - apply reader_new_ok. repeat constructor; unfold in_u; lia.
  - lia.
  - vm_compute. reflexivity.
Defined.

(** Removing emulation-prevention bytes inverts inserting them: for every byte
    string, [rbsp] of its escaped form is the string, and the escaped form has no
    two zero bytes followed by a byte below 3 (so no start code) inside. *)
Theorem rbsp_escape d :
  bytes_ok d -> rbsp (escape d) = d /\ has_emulation (escape d) = false.
Proof.
  intros Hok. split; [by apply rbsp_escape_loop|]. by apply (escape_loop_clean 0).
Qed.

Lemma rbsp_escape_witness :
  rbsp (escape [0; 0; 1; 0; 0; 0; 3]) = [0; 0; 1; 0; 0; 0; 3] /\
  has_emulation (escape [0; 0; 1; 0; 0; 0; 3]) = false.
Proof. apply rbsp_escape. repeat constructor; unfold in_u; lia. Defined.
