(* ===== verification/Aac.v ===== *)
(** * AAC configuration and ADTS framing

    Models [crates/restream-core/src/codec/aac.rs]: AudioSpecificConfig and ADTS
    headers, the walk over the ADTS frames of a payload, and the FLV audio
    wrapping.  A byte is a [Z]; a [usize] length that only ever counts bytes of a
    slice is a [nat]. *)

From S2P Require Import Prelude Bitblast.

(** ** Definitions *)

Definition AAC_SAMPLE_RATES : list Z :=
  [96000; 88200; 64000; 48000; 44100; 32000; 24000; 22050; 16000; 12000; 11025; 8000; 7350].

(** [iter().position(f)] *)
Fixpoint position {A} (f : A -> bool) (l : list A) : option nat :=
  match l with
  | [] => None
  | a :: rest => if f a then Some O else S <$> position f rest
  end.

Definition aac_frequency_index (sample_rate : Z) : option Z :=
  index ← position (fun rate => rate =? sample_rate) AAC_SAMPLE_RATES;
  checked_u 8 (Z.of_nat index).

Definition build_aac_sequence_header (sample_rate channels : Z) : bytes :=
  let freq_idx := default 3 (aac_frequency_index sample_rate) in
  let chan_cfg := as_u8 (Z.min channels 7) in
  let audio_object_type := 2 in
  let asc_byte0 := as_u8 (audio_object_type .<< 3) .| (freq_idx .>> 1) in
  let asc_byte1 := as_u8 ((freq_idx .& 0x01) .<< 7) .| as_u8 (chan_cfg .<< 3) in
  [0xAF; 0x00] ++ [asc_byte0; asc_byte1].

Definition MAX_ADTS_PAYLOAD : Z := 0x1FFF - 7.

Definition build_adts_header_for (frame_len object_type freq_idx chan_cfg : Z) : option bytes :=
  if negb ((1 <=? object_type) && (object_type <=? 4)) || (12 <? freq_idx) || (7 <? chan_cfg)
  then None
  else
    let profile := sat_u 8 (object_type - 1) in
    len ← checked_u 16 frame_len;
    total_len ← checked_u 16 (len + 7);
    if negb (total_len <=? 0x1FFF) then None
    else
      let len_high := as_u8 (total_len .>> 8) in
      let len_low := as_u8 total_len in
      Some [0xFF;
            0xF1;
            as_u8 (profile .<< 6) .| as_u8 (freq_idx .<< 2) .| (chan_cfg .>> 2);
            as_u8 ((chan_cfg .& 0x03) .<< 6) .| ((len_high .>> 3) .& 0x03);
            as_u8 (len_high .<< 5) .| (len_low .>> 3);
            as_u8 ((len_low .& 0x07) .<< 5) .| 0x1F;
            0xFC].

Definition build_adts_header (frame_len sample_rate channels : Z) : option bytes :=
  let freq_idx := default 3 (aac_frequency_index sample_rate) in
  build_adts_header_for frame_len 2 freq_idx (as_u8 (Z.min channels 7)).

Definition has_adts_sync (d : bytes) : bool :=
  match d with
  | b0 :: second :: _ => (b0 =? 0xFF) && (second .& 0xF0 =? 0xF0)
  | _ => false
  end.

(** The length field of an ADTS header: [b3], [b4], [b5] as [usize]. *)
Definition adts_len_field (b3 b4 b5 : Z) : Z :=
  ((b3 .& 0x03) .<< 11) .| (b4 .<< 3) .| ((b5 .& 0xE0) .>> 5).

Record AdtsFrameRanges := mk_AdtsFrameRanges { afr_data : bytes; afr_offset : nat }.

Definition AdtsFrameRanges_next (it : AdtsFrameRanges)
    : option ((nat * nat) * AdtsFrameRanges) :=
  rest ← get_from (afr_offset it) (afr_data it);
  match first_chunk 7 rest with
  | Some [b0; sync_low; _; b3; b4; b5; _] =>
      if negb (b0 =? 0xFF) then None
      else if negb (sync_low .& 0xF0 =? 0xF0) then None
      else
        let frame_len := Z.to_nat (adts_len_field b3 b4 b5) in
        if (frame_len <? 7)%nat || (length rest <? frame_len)%nat then None
        else
          let start := afr_offset it in
          let offset := (start + frame_len)%nat in
          Some ((start, offset), mk_AdtsFrameRanges (afr_data it) offset)
  | _ => None
  end.

(** Draining the iterator.  Every range takes at least seven bytes, so as many
    rounds as there are bytes, and one more for the final [None], are enough. *)
Fixpoint collect_ranges (fuel : nat) (it : AdtsFrameRanges) : list (nat * nat) :=
  match fuel with
  | O => []
  | S fuel' =>
      match AdtsFrameRanges_next it with
      | None => []
      | Some (range, it') => range :: collect_ranges fuel' it'
      end
  end.

Definition adts_frame_ranges (d : bytes) : list (nat * nat) :=
  collect_ranges (S (length d)) (mk_AdtsFrameRanges d 0).

Definition adts_frame_count (d : bytes) : nat := length (adts_frame_ranges d).

Definition adts_sample_rate (d : bytes) : option Z :=
  match first_chunk 3 d with
  | Some [first; second; third] =>
      if negb (first =? 0xFF) || negb (second .& 0xF0 =? 0xF0) then None
      else AAC_SAMPLE_RATES !! Z.to_nat ((third .>> 2) .& 0x0F)
  | _ => None
  end.

Definition prepend_adts_into (raw_aac : bytes) (sample_rate channels : Z) (out : bytes)
    : option bytes :=
  adts ← build_adts_header (zlen raw_aac) sample_rate channels;
  Some ((out ++ adts) ++ raw_aac).

Definition strip_adts (d : bytes) : bytes :=
  match d with
  | b0 :: second :: _ :: _ :: _ :: _ :: _ :: _ =>
      if (b0 =? 0xFF) && (second .& 0xF0 =? 0xF0) then
        let hdr_len := if second .& 0x01 =? 1 then 7%nat else 9%nat in
        if (hdr_len <? length d)%nat then default d (get_from hdr_len d) else d
      else d
  | _ => d
  end.

Definition audio_for_rtmp_into (payload out : bytes) : bytes :=
  let raw := strip_adts payload in
  [0xAF; 0x01] ++ raw.

(** ** Lemmas *)

(** Header bytes as a function of the fields. *)
Definition adts_header_bytes (profile freq_idx chan_cfg total : Z) : bytes :=
  [0xFF; 0xF1;
   as_u8 (profile .<< 6) .| as_u8 (freq_idx .<< 2) .| (chan_cfg .>> 2);
   as_u8 ((chan_cfg .& 0x03) .<< 6) .| ((as_u8 (total .>> 8) .>> 3) .& 0x03);
   as_u8 (as_u8 (total .>> 8) .<< 5) .| (as_u8 total .>> 3);
   as_u8 ((as_u8 total .& 0x07) .<< 5) .| 0x1F;
   0xFC].

Lemma build_adts_header_for_Some frame_len object_type freq_idx chan_cfg h :
  0 <= frame_len -> build_adts_header_for frame_len object_type freq_idx chan_cfg = Some h ->
  1 <= object_type <= 4 /\ freq_idx <= 12 /\ chan_cfg <= 7 /\ frame_len <= MAX_ADTS_PAYLOAD /\
  h = adts_header_bytes (object_type - 1) freq_idx chan_cfg (frame_len + 7).
Proof.
  intros Hl. unfold build_adts_header_for. case_if; [done|]. cbn [mbind option_bind].
  destruct (checked_u 16 frame_len) as [len|] eqn:E1; [|done]. cbn.
  destruct (checked_u 16 (len + 7)) as [total|] eqn:E2; [|done]. cbn.
  apply checked_u_inv in E1 as [-> _], E2 as [-> _].
  case_if; [done|]. intros [= <-]. bool_to_prop.
  assert (sat_u 8 (object_type - 1) = object_type - 1) as -> by (unfold sat_u; lia).
  unfold MAX_ADTS_PAYLOAD. split_and!; try lia; done.
Qed.

Lemma build_adts_header_for_ok frame_len object_type freq_idx chan_cfg :
  0 <= frame_len <= MAX_ADTS_PAYLOAD -> 1 <= object_type <= 4 -> freq_idx <= 12 ->
  chan_cfg <= 7 ->
  build_adts_header_for frame_len object_type freq_idx chan_cfg =
    Some (adts_header_bytes (object_type - 1) freq_idx chan_cfg (frame_len + 7)).
Proof.
  unfold MAX_ADTS_PAYLOAD. intros Hl Ho Hf Hc. unfold build_adts_header_for.
  destruct (_ || _) eqn:E.
  { apply orb_true_iff in E as [E|E]; [|bool_to_prop; lia].
    apply orb_true_iff in E as [E|E]; [|bool_to_prop; lia].
    bool_to_prop. destruct E; bool_to_prop; lia. }
  rewrite checked_u_Some by (unfold in_u; lia). cbn.
  rewrite checked_u_Some by (unfold in_u; lia). cbn.
  destruct (Z.leb_spec (frame_len + 7) 0x1FFF); [|lia]. cbn.
  assert (sat_u 8 (object_type - 1) = object_type - 1) as -> by (unfold sat_u; lia). done.
Qed.

Lemma header_len_field chan total :
  in_u 3 chan -> in_u 13 total ->
  adts_len_field
    (as_u8 ((chan .& 0x03) .<< 6) .| ((as_u8 (total .>> 8) .>> 3) .& 0x03))
    (as_u8 (as_u8 (total .>> 8) .<< 5) .| (as_u8 total .>> 3))
    (as_u8 ((as_u8 total .& 0x07) .<< 5) .| 0x1F) = total.
Proof. intros Hc Ht. unfold adts_len_field. bitblast. Qed.

Lemma header_rate_field profile freq chan :
  in_u 2 profile -> in_u 4 freq -> in_u 3 chan ->
  ((as_u8 (profile .<< 6) .| as_u8 (freq .<< 2) .| (chan .>> 2)) .>> 2) .& 0x0F = freq.
Proof. intros Hp Hf Hc. bitblast. Qed.

Lemma adts_header_bytes_ok profile freq chan total :
  in_u 2 profile -> in_u 4 freq -> in_u 3 chan -> in_u 13 total ->
  bytes_ok (adts_header_bytes profile freq chan total).
Proof.
  intros Hp Hf Hc Ht. unfold adts_header_bytes.
  repeat (apply Forall_cons; split); [..|apply Forall_nil; exact I]; try bitrange.
Qed.

(** One step of the iterator over a frame that is really there. *)
Lemma next_frame done profile freq chan raw rest :
  in_u 3 chan -> zlen raw <= MAX_ADTS_PAYLOAD ->
  AdtsFrameRanges_next (mk_AdtsFrameRanges
      (done ++ (adts_header_bytes profile freq chan (zlen raw + 7) ++ raw) ++ rest) (length done)) =
    Some ((length done, length done + (7 + length raw))%nat,
          mk_AdtsFrameRanges
            (done ++ (adts_header_bytes profile freq chan (zlen raw + 7) ++ raw) ++ rest)
            (length done + (7 + length raw))).
Proof.
  intros Hc Hraw. unfold MAX_ADTS_PAYLOAD, zlen in *. unfold AdtsFrameRanges_next.
  cbn [afr_data afr_offset]. rewrite get_from_app by done. cbn [mbind option_bind].
  unfold first_chunk. rewrite <- app_assoc, get_to_app by done.
  unfold adts_header_bytes at 1. cbn [negb Z.eqb Pos.eqb].
  change (negb (0xF1 .& 0xF0 =? 0xF0)) with false. cbn iota.
  rewrite header_len_field by (done || (unfold in_u; lia)).
  replace (Z.to_nat (Z.of_nat (length raw) + 7)) with (7 + length raw)%nat by lia.
  rewrite !length_app. change (length (adts_header_bytes _ _ _ _)) with 7%nat.
  destruct (Nat.ltb_spec (7 + length raw) 7); [lia|].
  destruct (Nat.ltb_spec (7 + (length raw + length rest)) (7 + length raw)); [lia|].
  done.
Qed.

(** What a range promises, whatever the data. *)
Lemma next_bounds it range it' :
  AdtsFrameRanges_next it = Some (range, it') ->
  range = (afr_offset it, afr_offset it') /\ afr_data it' = afr_data it /\
  (afr_offset it + 7 <= afr_offset it' <= length (afr_data it))%nat /\
  adts_sample_rate (drop (afr_offset it) (afr_data it)) =
    (b ← drop (afr_offset it) (afr_data it) !! 2%nat;
     AAC_SAMPLE_RATES !! Z.to_nat ((b .>> 2) .& 0x0F)).
Proof.
  unfold AdtsFrameRanges_next. destruct (get_from _ _) as [rest|] eqn:E; [|done].
  cbn [mbind option_bind]. apply get_from_inv in E as [-> Hlen].
  set (rest := drop (afr_offset it) (afr_data it)) in *.
  destruct (first_chunk 7 rest) as [c|] eqn:Ec; [|done].
  destruct c as [|b0 [|b1 [|b2 [|b3 [|b4 [|b5 [|b6 [|]]]]]]]]; try done.
  unfold first_chunk in Ec. apply get_to_inv in Ec as [Hc Hl7].
  case_if; [done|]. case_if; [done|]. case_if; [done|].
  intros [= <- <-]. cbn [afr_offset afr_data].
  assert (length rest = length (afr_data it) - afr_offset it)%nat as Hr
    by (subst rest; apply length_drop).
  split_and!; [done|done|lia|lia|].
  destruct rest as [|r0 [|r1 [|r2 rest']]]; try (cbn in Hl7; lia).
  cbn in Hc. injection Hc as <- <- <- _. unfold adts_sample_rate. cbn.
  rewrite E, E0. done.
Qed.

(** The consecutive ranges of frames with the given lengths. *)
Fixpoint tile (start : nat) (lens : list nat) : list (nat * nat) :=
  match lens with
  | [] => []
  | n :: rest => (start, start + n)%nat :: tile (start + n) rest
  end.

Definition adts_frame (profile freq chan : Z) (raw : bytes) : bytes :=
  adts_header_bytes profile freq chan (zlen raw + 7) ++ raw.

Lemma length_adts_frame profile freq chan raw :
  length (adts_frame profile freq chan raw) = (7 + length raw)%nat.
Proof. done. Qed.

Lemma next_short d start :
  (length d < start + 7)%nat -> AdtsFrameRanges_next (mk_AdtsFrameRanges d start) = None.
Proof.
  intros H. unfold AdtsFrameRanges_next. cbn [afr_data afr_offset].
  unfold get_from. case_if; [|done]. cbn. unfold first_chunk, get_to.
  rewrite length_drop. case_if; [lia|done].
Qed.

Lemma collect_ranges_stream profile freq chan frames tail :
  in_u 3 chan -> Forall (fun raw => zlen raw <= MAX_ADTS_PAYLOAD) frames ->
  (length tail < 7)%nat -> forall before fuel, (length frames < fuel)%nat ->
  collect_ranges fuel
    (mk_AdtsFrameRanges (before ++ flat_map (adts_frame profile freq chan) frames ++ tail)
      (length before)) = tile (length before) (map (fun raw => 7 + length raw)%nat frames).
Proof.
  intros Hc Hall Ht. induction Hall as [|raw frames Hraw Hall IH];
    intros before fuel Hf; (destruct fuel as [|fuel]; [cbn in Hf; lia|]);
    cbn [collect_ranges flat_map map tile].
  - rewrite next_short; [done|]. cbn. rewrite length_app. lia.
  - unfold adts_frame at 1. rewrite <- app_assoc, next_frame by done.
    f_equal. rewrite app_assoc.
    change (adts_header_bytes profile freq chan (zlen raw + 7) ++ raw)
      with (adts_frame profile freq chan raw).
    replace (length before + (7 + length raw))%nat
      with (length (before ++ adts_frame profile freq chan raw))
      by (by rewrite length_app, length_adts_frame).
    apply IH. cbn in Hf. lia.
Qed.

Lemma collect_ranges_bounds fuel it :
  exists lens,
    collect_ranges fuel it = tile (afr_offset it) lens /\ Forall (fun n => 7 <= n)%nat lens /\
    (sum_list lens = 0 \/ afr_offset it + sum_list lens <= length (afr_data it))%nat.
Proof.
  revert it. induction fuel as [|fuel IH]; intros it; cbn [collect_ranges].
  - exists []. cbn. split_and!; auto.
  - destruct (AdtsFrameRanges_next it) as [[range it']|] eqn:E.
    + apply next_bounds in E as (-> & Hd & Hb & _).
      destruct (IH it') as (lens & -> & Hall & Hsum).
      exists ((afr_offset it' - afr_offset it)%nat :: lens). cbn [tile sum_list_with].
      replace (afr_offset it + (afr_offset it' - afr_offset it))%nat with (afr_offset it') by lia.
      split_and!; [done|constructor; [lia|done]|]. right. rewrite Hd in Hsum. cbn. lia.
    + exists []. cbn. split_and!; auto.
Qed.

Lemma collect_ranges_fuel_enough fuel it :
  (length (afr_data it) < afr_offset it + 7 * fuel)%nat ->
  forall extra, collect_ranges (fuel + extra) it = collect_ranges fuel it.
Proof.
  revert it. induction fuel as [|fuel IH]; intros it H extra.
  - cbn [Nat.add collect_ranges]. destruct extra; [done|]. cbn [collect_ranges].
    destruct it as [d o]. cbn in H. rewrite next_short by lia. done.
  - cbn [Nat.add collect_ranges].
    destruct (AdtsFrameRanges_next it) as [[range it']|] eqn:E; [|done].
    apply next_bounds in E as (-> & Hd & Hb & _). f_equal. apply IH. rewrite Hd. lia.
Qed.

(** ** Properties *)

(** ADTS framing round trip: for any AAC frames that fit an ADTS header, written
    one after the other behind headers with the same fields and followed by fewer
    than seven stray bytes, the frame walk returns exactly their consecutive byte
    ranges, one per frame. *)
Theorem adts_frame_ranges_stream object_type freq_idx chan_cfg frames tail :
  1 <= object_type <= 4 -> 0 <= freq_idx <= 12 -> 0 <= chan_cfg <= 7 ->
  Forall (fun raw => zlen raw <= MAX_ADTS_PAYLOAD) frames -> (length tail < 7)%nat ->
  exists headers,
    Forall2 (fun raw h => build_adts_header_for (zlen raw) object_type freq_idx chan_cfg = Some h)
      frames headers /\
    adts_frame_ranges (concat (zip_with app headers frames) ++ tail) =
      tile 0 (map (fun raw => 7 + length raw)%nat frames).
Proof.
  intros Ho Hf Hc Hall Ht.
  set (hdr := fun raw : bytes =>
    adts_header_bytes (object_type - 1) freq_idx chan_cfg (zlen raw + 7)).
  exists (map hdr frames). split.
  - apply Forall2_fmap_r, Forall_Forall2_diag. eapply Forall_impl; [exact Hall|].
    intros raw Hraw. cbn. apply build_adts_header_for_ok; [unfold zlen in *; lia|lia..].
  - assert (concat (zip_with app (map hdr frames) frames)
      = flat_map (adts_frame (object_type - 1) freq_idx chan_cfg) frames) as ->.
    { clear. induction frames as [|raw frames IH]; cbn; [done|]. by rewrite IH. }
    unfold adts_frame_ranges.
    apply (collect_ranges_stream (object_type - 1) freq_idx chan_cfg frames tail
      ltac:(unfold in_u; lia) Hall Ht []).
    rewrite length_app. clear. induction frames; cbn in *; [lia|].
    rewrite length_app. cbn. lia.
Qed.

Lemma adts_frame_ranges_stream_witness :
  exists headers,
    Forall2 (fun raw h => build_adts_header_for (zlen raw) 2 4 2 = Some h)
      [[1; 2; 3]; []; [9]] headers /\
    adts_frame_ranges (concat (zip_with app headers [[1; 2; 3]; []; [9]]) ++ [0xFF]) =
      tile 0 (map (fun raw : bytes => 7 + length raw)%nat [[1; 2; 3]; []; [9]]).
Proof.
  apply (adts_frame_ranges_stream 2 4 2 [[1; 2; 3]; []; [9]] [0xFF]); [lia..| |cbn; lia].
  repeat constructor; vm_compute; discriminate.
Defined.

(** The frame walk is safe on any input: the ranges it yields start at the first
    byte, are consecutive, cover at least a header each and never reach past the
    data, and the fuel of the model never cuts the walk short. *)
Theorem adts_frame_ranges_bounds d :
  exists lens,
    adts_frame_ranges d = tile 0 lens /\ Forall (fun n => 7 <= n)%nat lens /\
    (sum_list lens <= length d)%nat /\
    (forall extra, collect_ranges (S (length d) + extra) (mk_AdtsFrameRanges d 0)
                   = adts_frame_ranges d).
Proof.
  destruct (collect_ranges_bounds (S (length d)) (mk_AdtsFrameRanges d 0))
    as (lens & H1 & H2 & H3). cbn in H3. exists lens.
  split_and!; [done|done|lia|]. intros extra. apply collect_ranges_fuel_enough. cbn. lia.
Qed.

(** Building an ADTS header: it fails exactly for a field ADTS cannot express
    (object type outside 1..4, frequency index above 12, channel configuration
    above 7, or a frame over [MAX_ADTS_PAYLOAD]); otherwise the seven bytes name the
    sampling rate of the index and the frame's length plus seven. *)
Theorem build_adts_header_for_spec frame_len object_type freq_idx chan_cfg rest :
  0 <= frame_len -> in_u 8 object_type -> in_u 8 freq_idx -> in_u 8 chan_cfg ->
  match build_adts_header_for frame_len object_type freq_idx chan_cfg with
  | Some h =>
      1 <= object_type <= 4 /\ freq_idx <= 12 /\ chan_cfg <= 7 /\
    frame_len <= MAX_ADTS_PAYLOAD /\ bytes_ok h /\ length h = 7%nat /\
    has_adts_sync (h ++ rest) = true /\
    adts_sample_rate (h ++ rest) = AAC_SAMPLE_RATES !! Z.to_nat freq_idx /\
    exists b3 b4 b5, firstn 3 (skipn 3 h) = [b3; b4; b5] /\
    adts_len_field b3 b4 b5 = frame_len + 7
  | None => ~ (1 <= object_type <= 4) \/ 12 < freq_idx \/ 7 < chan_cfg \/
            MAX_ADTS_PAYLOAD < frame_len
  end.
Proof.
  intros Hl Ho Hf Hc. unfold in_u in *.
  destruct (build_adts_header_for frame_len object_type freq_idx chan_cfg) as [h|] eqn:E.
  - apply build_adts_header_for_Some in E as (H1 & H2 & H3 & H4 & ->); [|done].
    unfold MAX_ADTS_PAYLOAD in *.
    assert (in_u 2 (object_type - 1)) by (unfold in_u; lia).
    assert (in_u 4 freq_idx) by (unfold in_u; lia).
    assert (in_u 3 chan_cfg) by (unfold in_u; lia).
    assert (in_u 13 (frame_len + 7)) by (unfold in_u; lia).
    split_and!; try lia; try done; [by apply adts_header_bytes_ok|..].
    + unfold adts_sample_rate, adts_header_bytes. cbn -[Z.land Z.lor wrapu AAC_SAMPLE_RATES].
      change (negb (0xF1 .& 0xF0 =? 0xF0)) with false. cbn iota.
      by rewrite header_rate_field.
    + unfold adts_header_bytes. do 3 eexists. split; [reflexivity|]. by apply header_len_field.
  - destruct (decide (1 <= object_type <= 4)); [|auto].
    destruct (decide (12 < freq_idx)); [auto|]. destruct (decide (7 < chan_cfg)); [auto|].
    destruct (decide (MAX_ADTS_PAYLOAD < frame_len)); [auto|].
    rewrite build_adts_header_for_ok in E by lia. done.
Qed.

Lemma build_adts_header_for_spec_witness :
  match build_adts_header_for 372 2 3 2 with
  | Some h =>
      1 <= 2 <= 4 /\ 3 <= 12 /\ 2 <= 7 /\
    372 <= MAX_ADTS_PAYLOAD /\ bytes_ok h /\ length h = 7%nat /\
    has_adts_sync (h ++ [5]) = true /\
    adts_sample_rate (h ++ [5]) = AAC_SAMPLE_RATES !! Z.to_nat 3 /\
    exists b3 b4 b5, firstn 3 (skipn 3 h) = [b3; b4; b5] /\
    adts_len_field b3 b4 b5 = 372 + 7
  | None => ~ (1 <= 2 <= 4) \/ 12 < 3 \/ 7 < 2 \/ MAX_ADTS_PAYLOAD < 372
  end.
Proof. apply (build_adts_header_for_spec 372 2 3 2 [5]); unfold in_u; lia. Defined.

(** Stripping undoes prepending: when [prepend_adts_into] accepts a non-empty raw
    AAC frame it appends a header and the frame behind what was there, and
    [strip_adts] of what it appended is the frame; it refuses (and writes nothing)
    only a frame longer than an ADTS header can describe. *)
Theorem strip_prepend_adts raw sample_rate channels out :
  raw <> [] -> 0 <= channels ->
  match prepend_adts_into raw sample_rate channels out with
  | Some out' => exists h, out' = out ++ h ++ raw /\ length h = 7%nat /\ strip_adts (h ++ raw) = raw
  | None => MAX_ADTS_PAYLOAD < zlen raw
  end.
Proof.
  intros Hne Hch. unfold prepend_adts_into, build_adts_header.
  set (f := default 3 (aac_frequency_index sample_rate)).
  assert (Hf : f <= 12).
  { subst f. unfold aac_frequency_index. unfold AAC_SAMPLE_RATES. cbn [position].
    repeat case_if; vm_compute; discriminate. }
  assert (Hc : as_u8 (Z.min channels 7) <= 7).
  { rewrite wrapu_id; unfold in_u; lia. }
  destruct (build_adts_header_for _ 2 f _) as [h|] eqn:E; cbn.
  - apply build_adts_header_for_Some in E as (_ & _ & _ & _ & ->); [|unfold zlen; lia].
    eexists. split; [by rewrite <- app_assoc|]. split; [done|].
    destruct raw as [|x raw]; [done|]. reflexivity.
  - destruct (decide (MAX_ADTS_PAYLOAD < zlen raw)); [done|].
    rewrite build_adts_header_for_ok in E; [done|unfold zlen in *; lia|lia..].
Qed.

Lemma strip_prepend_adts_witness :
  match prepend_adts_into [0x21; 0x10] 44100 2 [7] with
  | Some out' => exists h, out' = [7] ++ h ++ [0x21; 0x10] /\ length h = 7%nat /\
    strip_adts (h ++ [0x21; 0x10]) = [0x21; 0x10]
  | None => MAX_ADTS_PAYLOAD < zlen [0x21; 0x10]
  end.
Proof. apply strip_prepend_adts; [discriminate|lia]. Defined.
