(* ===== verification/Annexb.v ===== *)
(** * Annex B and length-prefixed NAL unit framing

    Models [crates/restream-core/src/codec/video.rs]: the walk over the NAL units
    of an Annex B byte stream, the parameter-set accumulator, the conversions to
    and from length-prefixed (AVCC) framing and the AVC decoder configuration
    record.

    The start codes are found by the [memchr] crate, which is not part of the
    sources: [Memmem] is its interface with the documented behaviour of
    [memmem::Finder::find_iter] as laws, and everything here is proved against
    the interface. *)

From S2P Require Import Prelude.
From Stdlib Require Import Sorting.Sorted.

(** ** The substring finder *)

Definition occurs_at (needle haystack : bytes) (i : nat) : Prop :=
  (i + length needle <= length haystack)%nat /\
  take (length needle) (drop i haystack) = needle.

(** All non-overlapping occurrences, from left to right. *)
Class Memmem := {
  find_iter : bytes -> bytes -> list nat;
  find_iter_sound : forall needle haystack i,
    i ∈ find_iter needle haystack -> occurs_at needle haystack i;
  find_iter_disjoint : forall needle haystack,
    StronglySorted (fun i j => i + length needle <= j)%nat (find_iter needle haystack);
  find_iter_complete : forall needle haystack i,
    needle <> [] -> occurs_at needle haystack i ->
    exists j, j ∈ find_iter needle haystack /\ (j <= i < j + length needle)%nat;
}.

(** ** Definitions *)

Module Kind.
Inductive AnnexbCodecKind := Unknown | H264 | H265.
#[global] Instance AnnexbCodecKind_eq_dec : EqDecision AnnexbCodecKind.
Proof. solve_decision. Defined.
End Kind.
Export Kind(AnnexbCodecKind).

Section annexb.
Context `{Memmem}.

Definition start_code_finder (d : bytes) : list nat := find_iter [0; 0; 1] d.

(** [iter().take_while(|b| b == 0).count()] *)
Fixpoint count_zeros (l : bytes) : nat :=
  match l with
  | b :: rest => if b =? 0 then S (count_zeros rest) else O
  | [] => O
  end.

Definition start_code_span (d : bytes) (idx : nat) : nat * nat :=
  let zeros := match get_to idx d with
               | Some before => count_zeros (reverse before)
               | None => O
               end in
  ((idx - zeros)%nat, (idx + 3)%nat).

Inductive ControlFlow := Continue | Break.

Section walk.
Context {S : Type} (visit : bytes -> S -> ControlFlow * S).

(** [if let Some(start) = current && let Some(nalu) = .. && !nalu.is_empty() { visit(nalu)?; }] *)
Definition visit_some (nalu : option bytes) (s : S) : ControlFlow * S :=
  match nalu with
  | Some (b :: nalu) => visit (b :: nalu) s
  | _ => (Continue, s)
  end.

Fixpoint for_each_loop (d : bytes) (idxs : list nat) (current : option nat) (s : S)
    : ControlFlow * S :=
  match idxs with
  | [] => visit_some (nalu_start ← current; get_from nalu_start d) s
  | idx :: idxs' =>
      let '(start, payload_start) := start_code_span d idx in
      match visit_some (nalu_start ← current; get_range nalu_start start d) s with
      | (Break, s') => (Break, s')
      | (Continue, s') => for_each_loop d idxs' (Some payload_start) s'
      end
  end.

Definition for_each_annexb_nalu (d : bytes) (s : S) : ControlFlow * S :=
  for_each_loop d (start_code_finder d) None s.
End walk.

Definition split_annexb_nalus (d : bytes) : list bytes :=
  (for_each_annexb_nalu (fun nalu nalus => (Continue, nalus ++ [nalu])) d []).2.

Definition raw_annexb_is_keyframe (payload : bytes) : bool :=
  let visit nalu (_ : unit) :=
    let keyframe :=
      match nalu with
      | first :: rest =>
          if first .& 0x1F =? 5 then true
          else match rest with
               | _ :: _ => let t := (first .>> 1) .& 0x3F in (16 <=? t) && (t <=? 23)
               | [] => false
               end
      | [] => false
      end in
    (if keyframe then Break else Continue, tt) in
  match (for_each_annexb_nalu visit payload tt).1 with Break => true | Continue => false end.

(** *** Parameter sets *)

Record AnnexbParameterSetAccumulator := mk_Accumulator {
  kind : AnnexbCodecKind;
  h264_sps : option bytes;
  h264_pps : option bytes;
  h265_vps : option bytes;
  h265_sps : option bytes;
  h265_pps : option bytes;
}.

Definition Accumulator_default : AnnexbParameterSetAccumulator :=
  mk_Accumulator Kind.Unknown None None None None None.

Definition annexb_nalu (nalu : bytes) : bytes := [0; 0; 0; 1] ++ nalu.

Definition switch_kind (k : AnnexbCodecKind) (self : AnnexbParameterSetAccumulator)
    : AnnexbParameterSetAccumulator :=
  match kind self with
  | Kind.Unknown =>
      mk_Accumulator k (h264_sps self) (h264_pps self)
        (h265_vps self) (h265_sps self) (h265_pps self)
  | existing =>
      if decide (existing = k) then self
      else mk_Accumulator k None None None None None
  end.

Definition h265_param_type (nalu : bytes) : Z :=
  match nalu with
  | first :: second :: _ =>
      if (first .& 0x81 =? 0) && ((1 <=? second) && (second <=? 7))
      then (first .>> 1) .& 0x3F else 0
  | _ => 0
  end.

Definition push_nalu (nalu : bytes) (self : AnnexbParameterSetAccumulator)
    : AnnexbParameterSetAccumulator :=
  match nalu with
  | [] => self
  | first :: _ =>
      let h264_nal_type := first .& 0x1F in
      let h265_nal_type := h265_param_type nalu in
      if (32 <=? h265_nal_type) && (h265_nal_type <=? 34) then
        let s := switch_kind Kind.H265 self in
        let set := Some (annexb_nalu nalu) in
        if h265_nal_type =? 32
        then mk_Accumulator (kind s) (h264_sps s) (h264_pps s) set (h265_sps s) (h265_pps s)
        else if h265_nal_type =? 33
        then mk_Accumulator (kind s) (h264_sps s) (h264_pps s) (h265_vps s) set (h265_pps s)
        else mk_Accumulator (kind s) (h264_sps s) (h264_pps s) (h265_vps s) (h265_sps s) set
      else if negb (bool_decide (kind self = Kind.H265)) && ((h264_nal_type =? 7) || (h264_nal_type =? 8)) then
        let s := switch_kind Kind.H264 self in
        let set := Some (annexb_nalu nalu) in
        if h264_nal_type =? 7
        then mk_Accumulator (kind s) set (h264_pps s) (h265_vps s) (h265_sps s) (h265_pps s)
        else mk_Accumulator (kind s) (h264_sps s) set (h265_vps s) (h265_sps s) (h265_pps s)
      else self
  end.

Definition complete (self : AnnexbParameterSetAccumulator) : option bytes :=
  match kind self with
  | Kind.Unknown => None
  | Kind.H264 =>
      match h264_sps self, h264_pps self with
      | Some sps, Some pps => Some (sps ++ pps)
      | _, _ => None
      end
  | Kind.H265 =>
      match h265_vps self, h265_sps self, h265_pps self with
      | Some vps, Some sps, Some pps => Some (vps ++ sps ++ pps)
      | _, _, _ => None
      end
  end.

Definition push_payload (payload : bytes) (self : AnnexbParameterSetAccumulator)
    : option bytes * AnnexbParameterSetAccumulator :=
  let self' :=
    (for_each_annexb_nalu (fun nalu self => (Continue, push_nalu nalu self)) payload self).2 in
  (complete self', self').

Definition annexb_parameter_sets (payload : bytes) : option bytes :=
  (push_payload payload Accumulator_default).1.

(** *** FLV and AVCC *)

Definition signed_be24 (value : Z) : bytes :=
  drop 1 (to_be_bytes 4 (as_u32 (Z.max (-8388608) (Z.min value 8388607)))).

Definition annexb_to_avcc_into (d out : bytes) : bool * bytes :=
  (for_each_annexb_nalu
     (fun nalu '(has_vcl, out) =>
        match nalu with
        | [] => (Continue, (has_vcl, out))
        | first :: _ =>
            let nal_type := first .& 0x1F in
            if (7 <=? nal_type) && (nal_type <=? 9) then (Continue, (has_vcl, out))
            else
              let has_vcl := if (1 <=? nal_type) && (nal_type <=? 5) then true else has_vcl in
              let len := as_u32 (zlen nalu) in
              (Continue, (has_vcl, (out ++ to_be_bytes 4 len) ++ nalu))
        end) d (false, out)).2.

Definition video_for_rtmp_with_composition_into
    (payload : bytes) (is_keyframe : bool) (composition_time_ms : Z) : bool * bytes :=
  let tag := if is_keyframe then 0x17 else 0x27 in
  annexb_to_avcc_into payload ([tag; 1] ++ signed_be24 composition_time_ms).

Definition video_for_rtmp_into (payload : bytes) (is_keyframe : bool) : bool * bytes :=
  video_for_rtmp_with_composition_into payload is_keyframe 0.

(** Each round consumes a length field of at least a byte. *)
Fixpoint avcc_to_annexb_loop (fuel : nat) (rest : bytes) (nalu_len_size : nat) (out : bytes)
    : bytes :=
  match fuel with
  | O => out
  | S fuel' =>
      match split_at_checked nalu_len_size rest with
      | None => out
      | Some (len, tail) =>
          let nalu_len := Z.to_nat (be_value len) in
          match split_at_checked nalu_len tail with
          | Some (nalu, tail') =>
              if (0 <? nalu_len)%nat
              then avcc_to_annexb_loop fuel' tail' nalu_len_size ((out ++ [0; 0; 0; 1]) ++ nalu)
              else out
          | None => out
          end
      end
  end.

Definition avcc_to_annexb_into (d : bytes) (nalu_len_size : nat) (out : bytes) : bytes :=
  if negb ((1 <=? nalu_len_size)%nat && (nalu_len_size <=? 4)%nat) then out
  else avcc_to_annexb_loop (S (length d)) d nalu_len_size out.

Definition avcc_to_annexb (d : bytes) (nalu_len_size : nat) : bytes :=
  avcc_to_annexb_into d nalu_len_size [].

Section prefixed.
Context {S : Type} (visit : bytes -> S -> S).

Fixpoint for_each_length_prefixed_loop (fuel : nat) (size : nat) (au : bytes) (s : S) : bool * S :=
  match fuel with
  | O => (false, s)
  | Datatypes.S fuel' =>
      match au with
      | [] => (true, s)
      | _ :: _ =>
          match split_at_checked size au with
          | None => (false, s)
          | Some (len, rest) =>
              let len := Z.to_nat (be_value len) in
              match split_at_checked len rest with
              | Some (nalu, rest') =>
                  if (0 <? len)%nat then for_each_length_prefixed_loop fuel' size rest' (visit nalu s)
                  else (false, s)
              | None => (false, s)
              end
          end
      end
  end.

Definition for_each_length_prefixed (size : nat) (au : bytes) (s : S) : bool * S :=
  if negb ((1 <=? size)%nat && (size <=? 4)%nat) then (false, s)
  else for_each_length_prefixed_loop (Datatypes.S (length au)) size au s.
End prefixed.

(** *** The AVC decoder configuration record *)

Record AvccRecord := mk_AvccRecord {
  length_size_minus_one : Z;
  avcc_sps : list bytes;
  avcc_pps : list bytes;
}.

(** [take_u16_prefixed(&mut rest)] *)
Definition take_u16_prefixed : M bytes bytes := fun rest =>
  match split_at_checked 2 rest with
  | None => (None, rest)
  | Some (len, tail) =>
      match split_at_checked (Z.to_nat (be_value len)) tail with
      | None => (None, rest)
      | Some (item, tail') => (Some item, tail')
      end
  end.

(** [for _ in 0..n { v.push(take_u16_prefixed(&mut rest)?); }] *)
Fixpoint take_items (n : nat) (acc : list bytes) : M bytes (list bytes) :=
  match n with
  | O => mret acc
  | S n' => item ← take_u16_prefixed; take_items n' (acc ++ [item])
  end.

Definition split_first : M bytes Z := fun rest =>
  match rest with
  | [] => (None, rest)
  | b :: tail => (Some b, tail)
  end.

Definition avcc_record (record : bytes) : option AvccRecord :=
  match split_at_checked 6 record with
  | Some ([_; _; _; _; length_byte; sps_byte], rest) =>
      ((sps ← take_items (Z.to_nat (sps_byte .& 0x1F)) [];
        pps_count ← split_first;
        pps ← take_items (Z.to_nat pps_count) [];
        mret (mk_AvccRecord (length_byte .& 0x03) sps pps)) rest).1
  | _ => None
  end.

Definition start_coded (nalus : list bytes) : bytes := flat_map annexb_nalu nalus.

Definition parse_avcc_config (d : bytes) : nat * bytes :=
  match d !! 4%nat with
  | Some length_byte =>
      if (8 <=? length d)%nat then
        let nalu_len_size := (Z.to_nat (length_byte .& 0x03) + 1)%nat in
        let annexb :=
          match avcc_record d with
          | Some record => start_coded (avcc_sps record ++ avcc_pps record)
          | None => []
          end in
        (nalu_len_size, annexb)
      else (4%nat, [])
  | None => (4%nat, [])
  end.

Definition nal_type (nalu : bytes) : option Z := (fun first => first .& 0x1F) <$> head nalu.
Definition too_long (nalu : bytes) : bool :=
  match checked_u 16 (zlen nalu) with Some _ => false | None => true end.
Definition u16_prefixed (nalu : bytes) : bytes := to_be_bytes 2 (as_u16 (zlen nalu)) ++ nalu.

Definition nalus_of_type (t : Z) (nalus : list bytes) : list bytes :=
  filter (fun nalu => nal_type nalu = Some t) nalus.

Definition write_avcc_record_into (annexb_data body : bytes) : option bytes :=
  let nalus := split_annexb_nalus annexb_data in
  let sps_list := nalus_of_type 7 nalus in
  let pps_list := nalus_of_type 8 nalus in
  match (s ← head sps_list; first_chunk 4 s) with
  | Some [_; profile; compatibility; level] =>
      match checked_u 8 (zlen sps_list) with
      | Some sps_count =>
          if negb (sps_count <=? 0x1F) then None
          else
            match checked_u 8 (zlen pps_list) with
            | Some pps_count =>
                if existsb too_long sps_list || existsb too_long pps_list then None
                else
                  Some (body ++ [1; profile; compatibility; level; 0xFF; 0xE0 .| sps_count]
                        ++ flat_map u16_prefixed sps_list ++ [pps_count]
                        ++ flat_map u16_prefixed pps_list)
            | None => None
            end
      | None => None
      end
  | _ => None
  end.

Definition build_avcc_record (annexb_data : bytes) : option bytes :=
  write_avcc_record_into annexb_data [].

Definition build_avcc_sequence_header (annexb_data : bytes) : option bytes :=
  write_avcc_record_into annexb_data [0x17; 0x00; 0x00; 0x00; 0x00].

End annexb.

(** ** Specification *)

(** A start code of [2 + z] zero bytes and a one, then the NAL unit. *)
Definition annexb_unit (u : nat * bytes) : bytes := replicate (2 + u.1) 0 ++ 1 :: u.2.
Definition annexb_stream (us : list (nat * bytes)) : bytes := flat_map annexb_unit us.

(** No start code inside. *)
Definition code_free (l : bytes) : Prop := forall i, ~ occurs_at [0; 0; 1] l i.
Definition no_trailing_zero (l : bytes) : Prop := last l <> Some 0.

Definition nonempty (l : bytes) : bool := match l with [] => false | _ => true end.

(** What the length-prefixed form keeps of a list of NAL units. *)
Definition kept (nalu : bytes) : Prop :=
  match nal_type nalu with Some t => ~ 7 <= t <= 9 | None => False end.
#[export] Instance kept_dec nalu : Decision (kept nalu).
Proof. unfold kept. destruct (nal_type nalu); apply _. Defined.
Definition is_vcl (nalu : bytes) : bool :=
  match nal_type nalu with Some t => (1 <=? t) && (t <=? 5) | None => false end.
Definition len_prefixed (size : nat) (nalu : bytes) : bytes :=
  to_be_bytes size (zlen nalu) ++ nalu.

(** ** Lemmas: finding start codes *)

(** Every position of [00 00 01], counted from [i]. *)
Definition starts_code (d : bytes) : bool :=
  match d with b0 :: b1 :: b2 :: _ => (b0 =? 0) && (b1 =? 0) && (b2 =? 1) | _ => false end.
Fixpoint all_codes (i : nat) (d : bytes) : list nat :=
  match d with
  | [] => []
  | _ :: d' => (if starts_code d then [i] else []) ++ all_codes (S i) d'
  end.

Lemma starts_code_spec d : starts_code d = true <-> occurs_at [0; 0; 1] d 0.
Proof.
  unfold occurs_at. destruct d as [|b0 [|b1 [|b2 d]]]; cbn; try (split; [done|intros [? ?]; (lia || done)]).
  rewrite !andb_true_iff, !Z.eqb_eq, firstn_O. split.
  - intros [[-> ->] ->]. split; [lia|done].
  - intros [_ [= -> -> ->]]. done.
Qed.

Lemma occurs_at_drop n d i j : occurs_at n (drop i d) j -> n <> [] -> occurs_at n d (i + j).
Proof.
  unfold occurs_at. rewrite length_drop, drop_drop. intros [H1 H2] Hn. split; [|done].
  destruct n; [done|]. cbn in *. lia.
Qed.

Lemma occurs_at_drop_inv n d i j : occurs_at n d (i + j) -> occurs_at n (drop i d) j.
Proof. unfold occurs_at. rewrite length_drop, drop_drop. intros [H1 H2]. split; [lia|done]. Qed.

Lemma occurs_lookup d i :
  occurs_at [0; 0; 1] d i -> d !! i = Some 0 /\ d !! S i = Some 0 /\ d !! S (S i) = Some 1.
Proof.
  intros [_ Ht]. assert (forall k, (k < 3)%nat -> d !! (i + k)%nat = [0; 0; 1] !! k) as Hk.
  { intros k Hk. rewrite <- Ht, lookup_take_lt, lookup_drop by done. done. }
  rewrite <- (Nat.add_0_r i) at 1. rewrite <- (Nat.add_1_r i), <- (Nat.add_1_r (i + 1)), <- Nat.add_assoc.
  by rewrite !Hk by (cbn; lia).
Qed.

Lemma elem_all_codes d i j :
  j ∈ all_codes i d <-> exists k, j = (i + k)%nat /\ occurs_at [0; 0; 1] d k.
Proof.
  revert i. induction d as [|b d IH]; intros i; cbn [all_codes].
  - rewrite elem_of_nil. split; [done|]. intros (k & _ & [H _]). cbn in H. lia.
  - rewrite elem_of_app, IH. split.
    + intros [Hj|(k & -> & Hk)].
      * destruct (starts_code (b :: d)) eqn:E; [|by apply elem_of_nil in Hj].
        apply list_elem_of_singleton in Hj as ->. exists O. split; [lia|]. by apply starts_code_spec.
      * exists (S k). split; [lia|]. by apply (occurs_at_drop _ _ 1).
    + intros ([|k] & -> & Hk).
      * left. apply starts_code_spec in Hk as ->. apply list_elem_of_singleton. lia.
      * right. exists k. split; [lia|]. by apply (occurs_at_drop_inv _ _ 1) in Hk.
Qed.

Lemma all_codes_sorted i d : StronglySorted lt (all_codes i d).
Proof.
  revert i. induction d as [|b d IH]; intros i; cbn [all_codes]; [constructor|].
  case_if; cbn; [|done]. constructor; [done|]. apply Forall_forall. intros j Hj.
  apply elem_all_codes in Hj as (k & -> & _). lia.
Qed.

(** A strictly increasing list is determined by its elements. *)
Lemma sorted_lt_unique (l k : list nat) :
  StronglySorted lt l -> StronglySorted lt k -> (forall i, i ∈ l <-> i ∈ k) -> l = k.
Proof.
  intros Hl. revert k. induction Hl as [|x l Hl IH Hx]; intros k Hk Heq.
  - destruct k as [|y k]; [done|]. by destruct (not_elem_of_nil y); apply Heq, list_elem_of_here.
  - inversion Hk as [|y k' Hk' Hy]; subst; [by destruct (not_elem_of_nil x); apply Heq, list_elem_of_here|].
    rewrite Forall_forall in Hx, Hy.
    assert (x = y) as ->.
    { destruct (proj1 (elem_of_cons _ _ _) (proj1 (Heq x) (list_elem_of_here _ _))) as [|Hxk]; [done|].
      destruct (proj1 (elem_of_cons _ _ _) (proj2 (Heq y) (list_elem_of_here _ _))) as [|Hyl]; [done|].
      specialize (Hx _ Hyl). specialize (Hy _ Hxk). lia. }
    f_equal. apply IH; [done|]. intros i. specialize (Heq i). rewrite !elem_of_cons in Heq.
    split; intros Hi; [pose proof (Hx _ Hi)|pose proof (Hy _ Hi)];
      (destruct (decide (i = y)); [lia|tauto]).
Qed.

(** *** Streams of units *)

Definition clean (l : bytes) : Prop := code_free l /\ no_trailing_zero l.

Lemma starts_code_free d k : code_free d -> starts_code (drop k d) = false.
Proof.
  intros Hd. destruct (starts_code (drop k d)) eqn:E; [|done].
  apply starts_code_spec, occurs_at_drop in E; [|done]. by destruct (Hd _ E).
Qed.

Lemma all_codes_skip pre rest i :
  (forall k, (k < length pre)%nat -> starts_code (drop k pre ++ rest) = false) ->
  all_codes i (pre ++ rest) = all_codes (i + length pre) rest.
Proof.
  revert i. induction pre as [|b pre IH]; intros i Hk; cbn [app all_codes length].
  - by rewrite Nat.add_0_r.
  - specialize (Hk O ltac:(cbn; lia)) as Hb. cbn [drop app] in Hb. rewrite Hb. cbn [app].
    rewrite IH; [f_equal; lia|]. intros k Hlt. apply (Hk (S k)). cbn. lia.
Qed.

Lemma all_codes_free i d : code_free d -> all_codes i d = [].
Proof.
  intros Hd. rewrite <- (app_nil_r d) at 1. rewrite all_codes_skip; [done|].
  intros k _. rewrite app_nil_r. by apply starts_code_free.
Qed.

Lemma last_drop_lt (d : bytes) k : (k < length d)%nat -> last (drop k d) = last d.
Proof.
  intros Hk. rewrite !last_lookup, lookup_drop, length_drop. f_equal. lia.
Qed.

Lemma all_codes_clean i d rest : clean d -> all_codes i (d ++ rest) = all_codes (i + length d) rest.
Proof.
  intros [Hf Hz]. apply all_codes_skip. intros k Hk.
  pose proof (starts_code_free d k Hf) as Hs. unfold no_trailing_zero in Hz.
  rewrite <- (last_drop_lt d k) in Hz by done.
  destruct (drop k d) as [|b0 [|b1 [|b2 l]]] eqn:E; [|..|done];
    [apply (f_equal length) in E; rewrite length_drop in E; cbn in E; lia|..];
    cbn in Hz |- *; destruct rest as [|? [|? ?]]; try done.
  1: rewrite (proj2 (Z.eqb_neq b0 0)) by congruence; done.
  all: rewrite (proj2 (Z.eqb_neq b1 0)) by congruence; by rewrite ?andb_false_r.
Qed.

Lemma all_codes_zeros i z rest :
  all_codes i (replicate (2 + z) 0 ++ 1 :: rest) = (i + z)%nat :: all_codes (i + z + 3) rest.
Proof.
  replace (2 + z)%nat with (z + 2)%nat by lia. rewrite replicate_add, <- app_assoc.
  rewrite all_codes_skip.
  - rewrite length_replicate. replace (i + z + 3)%nat with (S (S (S (i + z)))) by lia.
    by destruct rest as [|? []].
  - intros k. rewrite length_replicate, drop_replicate. intros Hk.
    destruct (z - k)%nat as [|m] eqn:E; [lia|]. by destruct m as [|[|m]].
Qed.

Lemma count_zeros_clean l z :
  last l <> Some 0 -> count_zeros (reverse (l ++ replicate z 0)) = z.
Proof.
  intros Hl. rewrite reverse_app, reverse_replicate.
  induction z as [|z IH]; cbn; [|by rewrite IH].
  destruct l as [|x l] using rev_ind; [done|]. rewrite reverse_snoc. cbn.
  rewrite last_snoc in Hl. by rewrite (proj2 (Z.eqb_neq _ _)) by congruence.
Qed.

Definition some_nalu (o : option bytes) : list bytes :=
  match o with Some (b :: n) => [b :: n] | _ => [] end.

(** Visiting a list, stopping at a break. *)
Fixpoint visit_all {S} (visit : bytes -> S -> ControlFlow * S) (nalus : list bytes) (s : S) :=
  match nalus with
  | [] => (Continue, s)
  | n :: ns => match visit n s with
               | (Break, s') => (Break, s')
               | (Continue, s') => visit_all visit ns s'
               end
  end.

(** The NAL units the walk finds. *)
Fixpoint nalus_loop (d : bytes) (idxs : list nat) (current : option nat) : list bytes :=
  match idxs with
  | [] => some_nalu (nalu_start ← current; get_from nalu_start d)
  | idx :: idxs' =>
      let '(start, payload_start) := start_code_span d idx in
      some_nalu (nalu_start ← current; get_range nalu_start start d)
        ++ nalus_loop d idxs' (Some payload_start)
  end.

Lemma for_each_loop_visit_all {S} (visit : bytes -> S -> ControlFlow * S) d idxs current s :
  for_each_loop visit d idxs current s = visit_all visit (nalus_loop d idxs current) s.
Proof.
  revert current s. induction idxs as [|idx idxs IH]; intros current s; cbn [for_each_loop nalus_loop].
  - destruct (_ ← current; _) as [[|b n]|]; cbn; try done. by destruct (visit _ s) as [[] ?].
  - unfold start_code_span. cbn zeta.
    destruct (_ ← current; _) as [[|b n]|]; cbn; try apply IH.
    destruct (visit _ s) as [[] ?]; [apply IH|done].
Qed.

Lemma all_codes_unit i u rest :
  all_codes i (annexb_unit u ++ rest) = (i + u.1)%nat :: all_codes (i + u.1 + 3) (u.2 ++ rest).
Proof. unfold annexb_unit. rewrite <- app_assoc. apply all_codes_zeros. Qed.

(** The span of the start code behind a closed NAL unit, and the unit. *)
Lemma start_code_span_unit before n u rest :
  clean n ->
  start_code_span (before ++ 1 :: n ++ annexb_unit u ++ rest) (length before + 1 + length n + u.1)
  = ((length before + 1 + length n)%nat, (length before + 1 + length n + u.1 + 3)%nat) /\
  get_range (length before + 1) (length before + 1 + length n)
    (before ++ 1 :: n ++ annexb_unit u ++ rest) = Some n.
Proof.
  intros [_ Hz]. split.
  - unfold start_code_span. f_equal.
    unfold annexb_unit. replace (2 + u.1)%nat with (u.1 + 2)%nat by lia.
    rewrite replicate_add.
    replace (before ++ 1 :: n ++ ((replicate u.1 0 ++ replicate 2 0) ++ 1 :: u.2) ++ rest)
      with (((before ++ 1 :: n) ++ replicate u.1 0) ++ (replicate 2 0 ++ 1 :: u.2) ++ rest)
      by (rewrite <- !app_assoc; cbn; by rewrite <- ?app_assoc).
    rewrite get_to_app by (rewrite !length_app, length_replicate; cbn; lia).
    rewrite count_zeros_clean; [lia|].
    destruct n as [|x n] using rev_ind; [by rewrite last_snoc|].
    unfold no_trailing_zero in Hz.
    rewrite last_snoc in Hz. rewrite app_comm_cons, app_assoc, last_snoc. done.
  - unfold get_range. rewrite length_app. cbn [length]. rewrite !length_app.
    destruct (Nat.leb_spec (length before + 1) (length before + 1 + length n)); [|lia].
    match goal with |- context [(?a <=? ?b)%nat] => destruct (Nat.leb_spec a b); [|lia] end. cbn [andb].
    f_equal. replace (length before + 1 + length n - (length before + 1))%nat with (length n) by lia.
    rewrite cons_middle, app_assoc, drop_app_length', take_app_length; [done|].
    rewrite length_app. done.
Qed.

Definition keep_nonempty (ns : list bytes) : list bytes := List.filter nonempty ns.

Lemma some_nalu_keep n : some_nalu (Some n) = keep_nonempty [n].
Proof. by destruct n. Qed.

(** The walk over the rest of a stream, the previous NAL unit [n] still open. *)
Lemma nalus_loop_stream us : forall before n last,
  clean n -> Forall (fun u => clean u.2) us -> code_free last.2 ->
  nalus_loop (before ++ 1 :: n ++ annexb_stream (us ++ [last]))
    (all_codes (length before + 1 + length n) (annexb_stream (us ++ [last])))
    (Some (length before + 1)%nat) = keep_nonempty (n :: map snd (us ++ [last])).
Proof.
  induction us as [|u us IH]; intros before n last Hn Hus Hlast;
    cbn [app annexb_stream flat_map map]; rewrite all_codes_unit; cbn [nalus_loop].
  - destruct (start_code_span_unit before n last [] Hn) as [-> Hr]. cbn [mbind option_bind].
    rewrite Hr. rewrite !app_nil_r. rewrite all_codes_free by done. cbn [nalus_loop mbind option_bind].
    unfold annexb_unit.
    rewrite (app_comm_cons n _ 1), (app_assoc before).
    change (1 :: last.2) with ([1] ++ last.2). rewrite (app_assoc (replicate _ _)), (app_assoc (before ++ _)).
    rewrite get_from_app by (rewrite !length_app, length_replicate; cbn; lia).
    rewrite !some_nalu_keep. unfold keep_nonempty. by rewrite <- List.filter_app.
  - apply Forall_cons in Hus as [Hu Hus]. fold (annexb_stream (us ++ [last])).
    destruct (start_code_span_unit before n u (annexb_stream (us ++ [last])) Hn) as [-> Hr].
    cbn [mbind option_bind]. rewrite Hr, all_codes_clean by done.
    rewrite some_nalu_keep. unfold keep_nonempty.
    etransitivity; [|symmetry; apply (List.filter_app nonempty [n])]. f_equal.
    specialize (IH ((before ++ 1 :: n) ++ replicate (2 + u.1) 0) u.2 last Hu Hus Hlast).
    rewrite !length_app, length_replicate in IH. cbn [length] in IH.
    unfold annexb_unit. unfold annexb_stream in *.
    app_norm in IH; app_norm.
    replace (length before + 1 + length n + u.1 + 3)%nat
      with (length before + S (length n) + (2 + u.1) + 1)%nat by lia.
    exact IH.
Qed.

Section walk_lemmas.
Context `{Memmem}.

(** Start codes cannot overlap, so the finder reports all of them. *)
Lemma finder_all_codes d : start_code_finder d = all_codes 0 d.
Proof.
  unfold start_code_finder. apply sorted_lt_unique; [|apply all_codes_sorted|].
  - generalize (find_iter_disjoint [0; 0; 1] d). generalize (find_iter [0; 0; 1] d).
    intros l Hl. induction Hl as [|x l Hl IH Hx]; constructor; [done|].
    eapply Forall_impl; [exact Hx|]. cbn. lia.
  - intros i. rewrite elem_all_codes. split.
    + intros Hi%find_iter_sound. by exists i.
    + intros (k & -> & Hk). cbn [Nat.add].
      destruct (find_iter_complete [0; 0; 1] d k) as (j & Hj & Hle); [done|done|].
      cbn in Hle. apply occurs_lookup in Hk as (Hk0 & Hk1 & _).
      pose proof (find_iter_sound _ _ _ Hj) as (Hj0 & Hj1 & Hj2)%occurs_lookup.
      assert (k = j \/ k = S j \/ k = S (S j)) as [->|[->| ->]] by lia; [done|congruence..].
Qed.
End walk_lemmas.

Section walk_lemmas2.
Context `{Memmem}.

Lemma for_each_visit_all {S} (visit : bytes -> S -> ControlFlow * S) d s :
  for_each_annexb_nalu visit d s = visit_all visit (nalus_loop d (start_code_finder d) None) s.
Proof. apply for_each_loop_visit_all. Qed.

Lemma visit_all_push nalus acc :
  visit_all (fun nalu nalus => (Continue, nalus ++ [nalu])) nalus acc = (Continue, acc ++ nalus).
Proof.
  revert acc. induction nalus as [|n ns IH]; intros acc; cbn; [by rewrite app_nil_r|].
  rewrite IH. by app_norm.
Qed.

Lemma split_nalus_loop d : split_annexb_nalus d = nalus_loop d (start_code_finder d) None.
Proof. unfold split_annexb_nalus. by rewrite for_each_visit_all, visit_all_push. Qed.

(** Every walk visits the NAL units of the split, in order. *)
Lemma for_each_split {S} (visit : bytes -> S -> ControlFlow * S) d s :
  for_each_annexb_nalu visit d s = visit_all visit (split_annexb_nalus d) s.
Proof. by rewrite for_each_visit_all, split_nalus_loop. Qed.

Lemma split_code_free d : code_free d -> split_annexb_nalus d = [].
Proof. intros Hd. by rewrite split_nalus_loop, finder_all_codes, all_codes_free. Qed.

Lemma split_stream pre us last :
  clean pre -> Forall (fun u => clean u.2) us -> code_free last.2 ->
  split_annexb_nalus (pre ++ annexb_stream (us ++ [last]))
  = keep_nonempty (map snd (us ++ [last])).
Proof.
  intros Hpre Hus Hlast. rewrite split_nalus_loop, finder_all_codes, all_codes_clean by done.
  destruct Hus as [|u us Hu Hus]; cbn [app annexb_stream flat_map map];
    rewrite all_codes_unit; cbn [nalus_loop]; unfold start_code_span;
    cbn [mbind option_bind some_nalu app].
  - rewrite !app_nil_r, all_codes_free by done. cbn [nalus_loop mbind option_bind].
    unfold annexb_unit. change (1 :: last.2) with ([1] ++ last.2). rewrite !app_assoc.
    rewrite get_from_app by (rewrite !length_app, length_replicate; cbn; lia).
    apply some_nalu_keep.
  - rewrite all_codes_clean by done.
    pose proof (nalus_loop_stream us (pre ++ replicate (2 + u.1) 0) u.2 last Hu Hus Hlast) as Hl.
    rewrite length_app, length_replicate in Hl.
    replace (length pre + (2 + u.1) + 1)%nat with (length pre + u.1 + 3)%nat in Hl by lia.
    rewrite <- Hl. f_equal. unfold annexb_unit at 1. by app_norm.
Qed.
End walk_lemmas2.

(** *** Every byte string is such a stream *)

Lemma strip_zeros (l : bytes) : exists p z, l = p ++ replicate z 0 /\ no_trailing_zero p.
Proof.
  induction l as [|b l IH] using rev_ind; [by exists [], O|].
  destruct (decide (b = 0)) as [->|Hb].
  - destruct IH as (p & z & -> & Hp). exists p, (S z). split; [|done].
    rewrite <- app_assoc. f_equal. change [0] with (replicate 1 0).
    rewrite <- replicate_add. f_equal. lia.
  - exists (l ++ [b]), O. cbn. rewrite app_nil_r. split; [done|].
    unfold no_trailing_zero. rewrite last_snoc. congruence.
Qed.

Lemma code_free_app_l l k : code_free (l ++ k) -> code_free l.
Proof.
  intros Hc i Hi. apply (Hc i). destruct Hi as [Hl Ht]. split.
  - rewrite length_app. lia.
  - cbn [length] in *. rewrite drop_app_le, take_app_le by (rewrite ?length_drop; lia). done.
Qed.

(** Splitting at the first start code. *)
Lemma first_code d :
  code_free d \/ exists p rest, d = p ++ [0; 0; 1] ++ rest /\ code_free p.
Proof.
  destruct (all_codes 0 d) as [|i l] eqn:E.
  - left. intros i Hi. destruct (not_elem_of_nil i). rewrite <- E.
    apply elem_all_codes. by exists i.
  - right. assert (occurs_at [0; 0; 1] d i) as [Hl Ht].
    { destruct (proj1 (elem_all_codes d 0 i)) as (k & -> & Hk); [|done].
      rewrite E. apply list_elem_of_here. }
    exists (take i d), (drop 3 (drop i d)). split.
    + rewrite <- Ht. cbn [length]. by rewrite !take_drop.
    + intros k [Hk1 Hk2]. cbn [length] in *. rewrite length_take in Hk1.
      assert (k ∈ all_codes 0 d) as Hin.
      { apply elem_all_codes. exists k. split; [done|]. split; [cbn; lia|].
        etransitivity; [|exact Hk2]. cbn [length]. rewrite !take_drop_commute, take_take.
        do 2 f_equal. lia. }
      pose proof (all_codes_sorted 0 d) as Hs. rewrite E in Hin, Hs.
      apply elem_of_cons in Hin as [->|Hin]; [lia|].
      inversion Hs as [|? ? _ Hf]; subst. rewrite Forall_forall in Hf. specialize (Hf _ Hin). lia.
Qed.

Lemma annexb_decompose d :
  code_free d \/
  exists pre us last, d = pre ++ annexb_stream (us ++ [last]) /\ clean pre /\
    Forall (fun u => clean u.2) us /\ code_free last.2.
Proof.
  remember (length d) as n eqn:Hn. revert d Hn.
  induction n as [n IH] using lt_wf_ind. intros d ->.
  destruct (first_code d) as [Hf|(p & rest & -> & Hp)]; [by left|]. right.
  destruct (strip_zeros p) as (pre & z & -> & Hz). pose proof (code_free_app_l _ _ Hp) as Hpre.
  specialize (IH (length rest)). destruct (IH ltac:(rewrite !length_app; cbn; lia) rest eq_refl)
    as [Hrest|(pre' & us & last & -> & Hpre' & Hus & Hlast)].
  - exists pre, [], (z, rest). split_and!; [|done|done|done].
    cbn [app annexb_stream flat_map]. unfold annexb_unit. cbn [fst snd].
    replace (2 + z)%nat with (z + 2)%nat by lia.
    rewrite replicate_add, app_nil_r. by app_norm.
  - exists pre, ((z, pre') :: us), last. split_and!; [|done|by constructor|done].
    cbn [app annexb_stream flat_map]. unfold annexb_unit at 1. cbn [fst snd].
    replace (2 + z)%nat with (z + 2)%nat by lia. rewrite replicate_add. by app_norm.
Qed.

(** *** Length-prefixed framing *)

Lemma split_at_checked_len_prefixed size nalu rest :
  zlen nalu < 2 ^ (8 * Z.of_nat size) ->
  split_at_checked size (len_prefixed size nalu ++ rest)
    = Some (to_be_bytes size (zlen nalu), nalu ++ rest) /\
  Z.to_nat (be_value (to_be_bytes size (zlen nalu))) = length nalu.
Proof.
  intros Hl. unfold len_prefixed. rewrite <- app_assoc. split.
  - apply split_at_checked_app, length_to_be_bytes.
  - rewrite be_value_to_be_bytes_id by (unfold in_u, zlen in *; lia). unfold zlen. lia.
Qed.

Definition fits (size : nat) (nalu : bytes) : Prop :=
  nalu <> [] /\ zlen nalu < 2 ^ (8 * Z.of_nat size).

Lemma fits_pos size nalu : fits size nalu -> (0 <? length nalu)%nat = true.
Proof. intros [Hn _]. destruct nalu; [done|]. apply Nat.ltb_lt. cbn. lia. Qed.

Lemma len_prefixed_cons size nalu rest :
  fits size nalu -> exists b l, len_prefixed size nalu ++ rest = b :: l.
Proof.
  intros [Hn _]. unfold len_prefixed. destruct (to_be_bytes size _); cbn; [|eauto].
  destruct nalu; [done|]. cbn. eauto.
Qed.

Lemma length_prefixed_nalus size nalus :
  Forall (fits size) nalus -> (length nalus <= length (flat_map (len_prefixed size) nalus))%nat.
Proof.
  induction 1 as [|n ns Hn Hns IH]; [done|]. cbn [flat_map length]. rewrite length_app.
  unfold len_prefixed at 1. rewrite length_app. destruct n; [by destruct Hn|]. cbn. lia.
Qed.

Lemma for_each_length_prefixed_loop_ok {S} (visit : bytes -> S -> S) size nalus s fuel :
  Forall (fits size) nalus -> (length nalus < fuel)%nat ->
  for_each_length_prefixed_loop visit fuel size (flat_map (len_prefixed size) nalus) s
  = (true, fold_left (fun s n => visit n s) nalus s).
Proof.
  intros Hns. revert s fuel. induction Hns as [|n ns Hn Hns IH]; intros s fuel Hf;
    (destruct fuel as [|fuel]; [lia|]); cbn [flat_map for_each_length_prefixed_loop fold_left]; [done|].
  destruct (len_prefixed_cons size n (flat_map (len_prefixed size) ns) Hn) as (b & l & E).
  rewrite E. cbn iota. rewrite <- E.
  destruct (split_at_checked_len_prefixed size n (flat_map (len_prefixed size) ns) (proj2 Hn))
    as [-> ->].
  rewrite split_at_checked_app, (fits_pos size) by done. apply IH. cbn in Hf. lia.
Qed.

Lemma avcc_to_annexb_loop_ok size nalus out fuel :
  (1 <= size)%nat -> Forall (fits size) nalus -> (length nalus < fuel)%nat ->
  avcc_to_annexb_loop fuel (flat_map (len_prefixed size) nalus) size out
  = out ++ start_coded nalus.
Proof.
  intros Hs Hns. revert out fuel. induction Hns as [|n ns Hn Hns IH]; intros out fuel Hf;
    (destruct fuel as [|fuel]; [lia|]);
    cbn [flat_map avcc_to_annexb_loop start_coded].
  - destruct size; [lia|]. cbn. by rewrite app_nil_r.
  - destruct (split_at_checked_len_prefixed size n (flat_map (len_prefixed size) ns) (proj2 Hn))
      as [-> ->].
    rewrite split_at_checked_app, (fits_pos size) by done. rewrite IH by (cbn in Hf; lia).
    unfold annexb_nalu. by app_norm.
Qed.

Lemma fold_left_push (l acc : list bytes) : fold_left (fun ns n => ns ++ [n]) l acc = acc ++ l.
Proof.
  revert acc. induction l as [|x l IH]; intros acc; cbn; [by rewrite app_nil_r|].
  rewrite IH. by app_norm.
Qed.

(** *** What the walk yields *)

Lemma keep_nonempty_spec ns n : n ∈ keep_nonempty ns -> n <> [] /\ n ∈ ns.
Proof.
  unfold keep_nonempty. intros Hn. apply list_elem_of_In, filter_In in Hn as [Hin Hne].
  split; [by destruct n|by apply list_elem_of_In].
Qed.

Lemma length_annexb_stream us u : u ∈ us -> (length u.2 < length (annexb_stream us))%nat.
Proof.
  induction us as [|v us IH]; intros Hu; [by apply not_elem_of_nil in Hu|].
  cbn [annexb_stream flat_map]. rewrite length_app. apply elem_of_cons in Hu as [->|Hu].
  - unfold annexb_unit. rewrite length_app. cbn. lia.
  - specialize (IH Hu). unfold annexb_stream in *. lia.
Qed.

Section conversions.
Context `{Memmem}.

Lemma split_elem d n : n ∈ split_annexb_nalus d -> n <> [] /\ (length n < length d)%nat.
Proof.
  destruct (annexb_decompose d) as [Hf|(pre & us & l & -> & Hp & Hus & Hl)].
  - rewrite split_code_free by done. intros Hn. by apply not_elem_of_nil in Hn.
  - rewrite split_stream by done. intros Hn. apply keep_nonempty_spec in Hn as [Hne Hin].
    split; [done|]. apply list_elem_of_fmap in Hin as (u & -> & Hu).
    apply length_annexb_stream in Hu. rewrite length_app. lia.
Qed.

Lemma annexb_to_avcc_fold d out :
  zlen d <= 2 ^ 32 ->
  annexb_to_avcc_into d out =
    (existsb is_vcl (filter kept (split_annexb_nalus d)),
     out ++ flat_map (len_prefixed 4) (filter kept (split_annexb_nalus d))).
Proof.
  intros Hd. unfold annexb_to_avcc_into. rewrite for_each_split.
  assert (Forall (fun n => n <> [] /\ zlen n < 2 ^ 32) (split_annexb_nalus d)) as Hall.
  { apply Forall_forall. intros n Hn. apply split_elem in Hn as [? ?].
    split; [done|]. unfold zlen in *. lia. }
  change (existsb is_vcl ?l) with (false || existsb is_vcl l).
  generalize false as vcl. revert out.
  induction Hall as [|n ns [Hne Hlen] Hns IH]; intros out vcl; cbn [visit_all].
  - cbn. by rewrite orb_false_r, app_nil_r.
  - destruct n as [|b n]; [done|]. rewrite filter_cons.
    destruct ((7 <=? b .& 0x1F) && (b .& 0x1F <=? 9)) eqn:E.
    + bool_to_prop. rewrite decide_False by (unfold kept, nal_type; cbn; lia). apply IH.
    + rewrite decide_True by
        (unfold kept, nal_type; cbn; apply andb_false_iff in E as [E|E]; bool_to_prop; lia).
      rewrite IH. cbn [existsb flat_map]. f_equal.
      * unfold is_vcl at 2, nal_type. cbn [head fmap option_fmap option_map].
        by destruct ((1 <=? b .& 0x1F) && (b .& 0x1F <=? 5)), vcl.
      * unfold len_prefixed. rewrite wrapu_id by (unfold in_u, zlen in *; lia). by app_norm.
Qed.
End conversions.

(** *** The configuration record *)

Lemma take_u16_prefixed_ok item rest :
  zlen item < 2 ^ 16 -> take_u16_prefixed (u16_prefixed item ++ rest) = (Some item, rest).
Proof.
  intros Hl. unfold take_u16_prefixed, u16_prefixed.
  rewrite wrapu_id by (unfold in_u, zlen in *; lia).
  destruct (split_at_checked_len_prefixed 2 item rest Hl) as [E1 E2].
  unfold len_prefixed in E1. by rewrite E1, E2, split_at_checked_app.
Qed.

Lemma take_items_ok items acc rest :
  Forall (fun item => zlen item < 2 ^ 16) items ->
  take_items (length items) acc (flat_map u16_prefixed items ++ rest) = (Some (acc ++ items), rest).
Proof.
  intros Hall. revert acc. induction Hall as [|i items Hi Hall IH]; intros acc; cbn [length take_items].
  - by rewrite app_nil_r.
  - cbn [flat_map]. unfold mbind, M_bind. rewrite <- app_assoc, take_u16_prefixed_ok by done.
    rewrite IH. by app_norm.
Qed.

Lemma existsb_too_long ns :
  existsb too_long ns = false <-> Forall (fun n => zlen n < 2 ^ 16) ns.
Proof.
  induction ns as [|n ns IH]; cbn; [by split; [constructor|]|].
  rewrite orb_false_iff, IH, Forall_cons. apply and_iff_compat_r.
  unfold too_long, checked_u, zlen.
  destruct (Z.leb_spec 0 (Z.of_nat (length n))), (Z.ltb_spec (Z.of_nat (length n)) (2 ^ 16));
    cbn; split; (done || lia).
Qed.

Lemma avcc_record_ok profile compat level sps pps :
  zlen sps <= 0x1F -> Forall (fun n => zlen n < 2 ^ 16) sps -> Forall (fun n => zlen n < 2 ^ 16) pps ->
  avcc_record ([1; profile; compat; level; 0xFF; 0xE0 .| zlen sps]
    ++ flat_map u16_prefixed sps ++ [zlen pps] ++ flat_map u16_prefixed pps)
  = Some (mk_AvccRecord 3 sps pps).
Proof.
  intros Hn Hs Hp. unfold avcc_record. rewrite split_at_checked_app by done. cbn iota.
  assert (Hmask : (0xE0 .| zlen sps) .& 0x1F = zlen sps).
  { rewrite Z.land_lor_distr_l. change (0xE0 .& 0x1F) with 0. rewrite Z.lor_0_l.
    change 0x1F with (2 ^ 5 - 1) at 1. rewrite land_ones_mod by lia.
    apply Z.mod_small. unfold zlen in *. lia. }
  rewrite Hmask. unfold zlen at 1. rewrite Nat2Z.id.
  unfold mbind at 1, M_bind at 1. rewrite take_items_ok by done. cbn [app].
  unfold mbind at 1, M_bind at 1. cbn [split_first].
  unfold mbind, M_bind. unfold zlen. rewrite Nat2Z.id.
  rewrite <- (app_nil_r (flat_map u16_prefixed pps)), take_items_ok by done. done.
Qed.

Lemma u16_prefixed_length n : (2 + length n = length (u16_prefixed n))%nat.
Proof. unfold u16_prefixed. by rewrite length_app, length_to_be_bytes. Qed.

(** *** The accumulator *)

Definition set_of_type (f : bytes -> bool) (o : option bytes) : Prop :=
  match o with Some s => exists nalu, s = annexb_nalu nalu /\ f nalu = true | None => True end.
Definition is_h264 (t : Z) (nalu : bytes) : bool := bool_decide (nal_type nalu = Some t).
Definition is_h265 (t : Z) (nalu : bytes) : bool := h265_param_type nalu =? t.

(** The sets of the other codec are absent, and each set holds a NAL unit of its type. *)
Definition acc_ok (a : AnnexbParameterSetAccumulator) : Prop :=
  set_of_type (is_h264 7) (h264_sps a) /\ set_of_type (is_h264 8) (h264_pps a) /\
  set_of_type (is_h265 32) (h265_vps a) /\ set_of_type (is_h265 33) (h265_sps a) /\
  set_of_type (is_h265 34) (h265_pps a) /\
  (kind a <> Kind.H264 -> h264_sps a = None /\ h264_pps a = None) /\
  (kind a <> Kind.H265 -> h265_vps a = None /\ h265_sps a = None /\ h265_pps a = None).

Lemma switch_kind_ok k a : acc_ok a -> acc_ok (switch_kind k a) /\ kind (switch_kind k a) = k \/ k = Kind.Unknown.
Proof.
  intros (H1 & H2 & H3 & H4 & H5 & H6 & H7). destruct k; [by right|left..]; unfold switch_kind;
    destruct (kind a) eqn:E; cbn; (split; [|done || (try case_decide; done)]);
    unfold acc_ok; try case_decide; try done; cbn; rewrite ?E;
    split_and!; auto; try done; intros; try (by apply H6); try (by apply H7); done.
Qed.

Lemma push_nalu_ok nalu a :
  acc_ok a -> acc_ok (push_nalu nalu a) /\ (kind a = Kind.H265 -> kind (push_nalu nalu a) = Kind.H265).
Proof.
  intros Ha. unfold push_nalu. destruct nalu as [|first rest]; [done|].
  set (nalu := first :: rest).
  case_if.
  - destruct (switch_kind_ok Kind.H265 a Ha) as [[Hs Hk]|]; [|done].
    destruct Hs as (H1 & H2 & H3 & H4 & H5 & H6 & H7).
    repeat case_if; (split; [|done]); unfold acc_ok; cbn; rewrite Hk; split_and!; auto; try done;
      try (exists nalu; split; [done|]; unfold is_h265; apply Z.eqb_eq; lia);
      intros; apply H6; by rewrite Hk.
  - case_if; [|done]. destruct (switch_kind_ok Kind.H264 a Ha) as [[Hs Hk]|]; [|done].
    destruct Hs as (H1 & H2 & H3 & H4 & H5 & H6 & H7).
    apply bool_decide_eq_false in H.
    repeat case_if; (split; [|done]); unfold acc_ok; cbn; rewrite Hk; split_and!; auto; try done;
      try (exists nalu; split; [done|]; unfold is_h264; apply bool_decide_eq_true;
           unfold nal_type; cbn; f_equal; lia);
      intros; apply H7; by rewrite Hk.
Qed.

(** *** A finder *)

Fixpoint naive_iter (needle haystack : bytes) (i skip : nat) : list nat :=
  match haystack with
  | [] => []
  | _ :: rest =>
      match skip with
      | S skip' => naive_iter needle rest (S i) skip'
      | O => if bool_decide (take (length needle) haystack = needle)
             then i :: naive_iter needle rest (S i) (length needle - 1)
             else naive_iter needle rest (S i) 0
      end
  end.
Definition naive_find (needle haystack : bytes) : list nat :=
  match needle with [] => [] | _ => naive_iter needle haystack 0 0 end.

Lemma take_eq_length (needle l : bytes) :
  take (length needle) l = needle -> (length needle <= length l)%nat.
Proof. intros E. apply (f_equal length) in E. rewrite length_take in E. lia. Qed.

Lemma naive_iter_sound needle haystack i skip j :
  j ∈ naive_iter needle haystack i skip ->
  exists k, j = (i + k)%nat /\ (skip <= k)%nat /\ occurs_at needle haystack k.
Proof.
  revert i skip. induction haystack as [|b h IH]; intros i skip Hj; cbn in Hj;
    [by apply not_elem_of_nil in Hj|].
  destruct skip as [|skip]; [case_bool_decide as E; [apply elem_of_cons in Hj as [->|Hj]|]|].
  - exists O. split_and!; [lia|lia|]. split; [|done]. by apply take_eq_length in E.
  - apply IH in Hj as (k & -> & Hk & [Ho1 Ho2]).
    exists (S k). split_and!; [lia|lia|]. split; [cbn; lia|done].
  - apply IH in Hj as (k & -> & Hk & [Ho1 Ho2]).
    exists (S k). split_and!; [lia|lia|]. split; [cbn; lia|done].
  - apply IH in Hj as (k & -> & Hk & [Ho1 Ho2]).
    exists (S k). split_and!; [lia|lia|]. split; [cbn; lia|done].
Qed.

Lemma naive_iter_disjoint needle haystack i skip :
  needle <> [] ->
  StronglySorted (fun i j => i + length needle <= j)%nat (naive_iter needle haystack i skip).
Proof.
  intros Hn. revert i skip. induction haystack as [|b h IH]; intros i skip; cbn; [constructor|].
  destruct skip; [|done]. case_bool_decide; [|done]. constructor; [done|].
  apply Forall_forall. intros j Hj. apply naive_iter_sound in Hj as (k & -> & Hk & _).
  destruct needle; [done|]. cbn in *. lia.
Qed.

Lemma naive_iter_complete needle haystack i skip k :
  needle <> [] -> (skip <= k)%nat -> occurs_at needle haystack k ->
  exists j, j ∈ naive_iter needle haystack i skip /\ (j <= i + k < j + length needle)%nat.
Proof.
  intros Hn. revert i skip k. induction haystack as [|b h IH]; intros i skip k Hk [Ho1 Ho2]; cbn in Ho1.
  - destruct needle; [done|]. cbn in Ho1. lia.
  - assert (Hrest : forall k', k = S k' -> occurs_at needle h k').
    { intros k' ->. split; [cbn in Ho1; lia|done]. }
    destruct skip as [|skip]; cbn [naive_iter].
    + case_bool_decide as E.
      * destruct (decide (k < length needle)%nat).
        { exists i. split; [apply list_elem_of_here|lia]. }
        destruct k as [|k]; [destruct needle; [done|cbn in *; lia]|].
        destruct (IH (S i) (length needle - 1)%nat k) as (j & Hj & Hjk); [lia|by apply Hrest|].
        exists j. split; [by apply list_elem_of_further|lia].
      * destruct k as [|k]; [done|].
        destruct (IH (S i) O k) as (j & Hj & Hjk); [lia|by apply Hrest|].
        exists j. split; [done|lia].
    + destruct k as [|k]; [lia|].
      destruct (IH (S i) skip k) as (j & Hj & Hjk); [lia|by apply Hrest|].
      exists j. split; [done|lia].
Qed.

Definition naive_memmem : Memmem.
Proof.
  refine {| find_iter := naive_find |}.
  - intros [|x needle] h i; [intros Hi; by apply not_elem_of_nil in Hi|].
    intros Hi. by apply naive_iter_sound in Hi as (k & -> & _ & Ho).
  - intros [|x needle] h; [constructor|]. by apply naive_iter_disjoint.
  - intros [|x needle] h i Hn Ho; [done|].
    destruct (naive_iter_complete (x :: needle) h 0 0 i Hn ltac:(lia) Ho) as (j & Hj & Hjk).
    exists j. split; [done|lia].
Defined.

(** Code-freeness decided by the list of codes. *)
Lemma code_free_dec d : all_codes 0 d = [] -> code_free d.
Proof.
  intros E i Hi. apply (not_elem_of_nil i). rewrite <- E. apply elem_all_codes. by exists i.
Qed.

(** ** Properties *)

(** Annex B round trip, for any finder with the documented behaviour: the split
    of a stream built from NAL units behind start codes of any length (three bytes
    or more, extra zero bytes belonging to the start code), after any start-code
    free prefix, is the list of its non-empty NAL units in order; only the last one
    may end in zero bytes, and keeps them. *)
Theorem split_annexb_nalus_stream `{Memmem} pre us last :
  clean pre -> Forall (fun u => clean u.2) us -> code_free last.2 ->
  split_annexb_nalus (pre ++ annexb_stream (us ++ [last]))
  = keep_nonempty (map snd (us ++ [last])).
Proof. apply split_stream. Qed.

Lemma split_annexb_nalus_stream_witness :
  @split_annexb_nalus naive_memmem
    ([9] ++ annexb_stream ([(1%nat, [0x67; 0; 0; 3; 1]); (0%nat, []); (0%nat, [0x68])] ++ [(3%nat, [0x65; 0; 0])]))
  = [[0x67; 0; 0; 3; 1]; [0x68]; [0x65; 0; 0]].
Proof.
  apply (@split_annexb_nalus_stream naive_memmem [9]
           [(1%nat, [0x67; 0; 0; 3; 1]); (0%nat, []); (0%nat, [0x68])] (3%nat, [0x65; 0; 0])).
  - split; [by apply code_free_dec|done].
  - repeat constructor; try (by apply code_free_dec); done.
  - by apply code_free_dec.
Defined.

(** The split is total and exact: any byte string without a start code has no NAL
    unit, and any other one is a prefix and a stream of units behind
    start codes whose non-empty NAL units are what the split returns; so every NAL
    unit returned is non-empty, holds no start code and is a piece of the input,
    and no byte outside start codes and the prefix is lost. *)
Theorem split_annexb_nalus_total `{Memmem} d :
  (code_free d /\ split_annexb_nalus d = []) \/
  exists pre us last, d = pre ++ annexb_stream (us ++ [last]) /\ clean pre /\
    Forall (fun u => clean u.2) us /\ code_free last.2 /\
    split_annexb_nalus d = keep_nonempty (map snd (us ++ [last])).
Proof.
  destruct (annexb_decompose d) as [Hf|(pre & us & l & -> & Hp & Hus & Hl)]; [left|right].
  - split; [done|]. by apply split_code_free.
  - exists pre, us, l. split_and!; try done. by apply split_stream.
Qed.

(** Annex B to AVCC and back: of any payload, the conversion appends exactly the
    NAL units that are not SPS, PPS or AUD, each behind its four-byte length, and
    reports whether one of them is a slice; reading the result back (refusing any
    broken framing) visits those NAL units, and turning it into Annex B again
    puts a four-byte start code in front of each. *)
Theorem annexb_avcc_roundtrip `{Memmem} d out :
  zlen d <= 2 ^ 32 ->
  let nalus := filter kept (split_annexb_nalus d) in
  exists avcc,
    annexb_to_avcc_into d out = (existsb is_vcl nalus, out ++ avcc) /\
    for_each_length_prefixed (fun n ns => ns ++ [n]) 4 avcc [] = (true, nalus) /\
    avcc_to_annexb avcc 4 = start_coded nalus.
Proof.
  intros Hd nalus. exists (flat_map (len_prefixed 4) nalus).
  assert (Forall (fits 4) nalus) as Hall.
  { apply Forall_forall. intros n Hn. apply list_elem_of_filter in Hn as [_ Hn].
    apply split_elem in Hn as [Hne Hlen]. split; [done|]. unfold zlen in *. cbn. lia. }
  pose proof (length_prefixed_nalus 4 nalus Hall) as Hlen. split_and!.
  - by apply annexb_to_avcc_fold.
  - unfold for_each_length_prefixed. cbn -[for_each_length_prefixed_loop].
    rewrite for_each_length_prefixed_loop_ok by (done || lia). f_equal.
    apply (fold_left_push nalus []).
  - unfold avcc_to_annexb, avcc_to_annexb_into. cbn -[avcc_to_annexb_loop].
    by rewrite avcc_to_annexb_loop_ok by (done || lia).
Qed.

Lemma annexb_avcc_roundtrip_witness :
  let d := [0; 0; 0; 1; 0x67; 5; 0; 0; 1; 0x65; 9; 9; 0; 0; 1; 0x06; 7] in
  exists avcc,
    @annexb_to_avcc_into naive_memmem d [3] = (true, [3] ++ avcc) /\
    for_each_length_prefixed (fun n ns => ns ++ [n]) 4 avcc [] = (true, [[0x65; 9; 9]; [0x06; 7]]) /\
    avcc_to_annexb avcc 4 = start_coded [[0x65; 9; 9]; [0x06; 7]].
Proof.
  apply (@annexb_avcc_roundtrip naive_memmem
           [0; 0; 0; 1; 0x67; 5; 0; 0; 1; 0x65; 9; 9; 0; 0; 1; 0x06; 7] [3]).
  vm_compute. discriminate.
Defined.

(** The AVC configuration record: building it from any Annex B payload fails
    exactly when there is no SPS of at least four bytes in front, more than 31 SPS
    or 255 PPS, or a parameter set over 65,535 bytes; otherwise parsing the record
    gives back all SPS and PPS of the payload in order with four-byte lengths, the
    Annex B form of the parsed configuration is those sets behind start codes, and
    the FLV sequence header is the record behind its five-byte tag. *)
Theorem build_avcc_record_spec `{Memmem} d :
  let sps := nalus_of_type 7 (split_annexb_nalus d) in
  let pps := nalus_of_type 8 (split_annexb_nalus d) in
  match build_avcc_record d with
  | Some record =>
      avcc_record record = Some (mk_AvccRecord 3 sps pps) /\
      parse_avcc_config record = (4%nat, start_coded (sps ++ pps)) /\
      build_avcc_sequence_header d = Some ([0x17; 0; 0; 0; 0] ++ record)
  | None =>
      (s ← head sps; first_chunk 4 s) = None \/ 31 < zlen sps \/ 255 < zlen pps \/
      Exists (fun n => 65535 < zlen n) (sps ++ pps)
  end.
Proof.
  cbn zeta. unfold build_avcc_sequence_header, build_avcc_record, write_avcc_record_into.
  set (sps := nalus_of_type 7 _). set (pps := nalus_of_type 8 _).
  destruct (s ← head sps; first_chunk 4 s) as [c|] eqn:Ec; [|by left].
  assert (Hc : exists s0 c0 c1 c2 c3 srest, sps = s0 :: srest /\ c = [c0; c1; c2; c3] /\ (4 <= length s0)%nat).
  { destruct sps as [|s0 srest]; [done|]. cbn in Ec. apply get_to_inv in Ec as [-> Hl].
    destruct s0 as [|c0 [|c1 [|c2 [|c3 s0]]]]; cbn in Hl; try lia.
    do 6 eexists. split_and!; [done|done|cbn; lia]. }
  destruct Hc as (s0 & c0 & c1 & c2 & c3 & srest & Hsps & -> & Hs0).
  destruct (checked_u 8 (zlen sps)) as [n|] eqn:En.
  2: { right; left. apply checked_u_None in En. unfold in_u, zlen in *. lia. }
  apply checked_u_inv in En as [-> _]. case_if; [right; left; lia|].
  destruct (checked_u 8 (zlen pps)) as [m|] eqn:Em.
  2: { right; right; left. apply checked_u_None in Em. unfold in_u, zlen in *. lia. }
  apply checked_u_inv in Em as [-> _].
  destruct (existsb too_long sps || existsb too_long pps) eqn:Et.
  - do 3 right. rewrite <- existsb_app in Et. apply existsb_exists in Et as (x & Hx & Ht).
    apply Exists_exists. exists x. split; [by apply list_elem_of_In|].
    unfold too_long in Ht. destruct (checked_u 16 (zlen x)) eqn:Ex; [done|].
    apply checked_u_None in Ex. unfold in_u, zlen in *. lia.
  - apply orb_false_iff in Et as [Hs Hp]. apply existsb_too_long in Hs, Hp.
    pose proof (avcc_record_ok c1 c2 c3 sps pps E Hs Hp) as Hrec.
    split_and!; [done| |done]. unfold parse_avcc_config. cbn [app lookup list_lookup].
    cbn [app] in Hrec. rewrite Hrec.
    destruct (Nat.leb_spec 8 (length (1 :: c1 :: c2 :: c3 :: 0xFF :: 0xE0 .| zlen sps
      :: flat_map u16_prefixed sps ++ zlen pps :: flat_map u16_prefixed pps))) as [_|Hlt]; [done|].
    exfalso. rewrite Hsps in Hlt. cbn in Hlt. rewrite !length_app in Hlt. cbn in Hlt. lia.
Qed.

Lemma build_avcc_record_spec_witness :
  let d := [0; 0; 1; 0x67; 0x42; 0; 30; 0; 0; 1; 0x68; 4] in
  match @build_avcc_record naive_memmem d with
  | Some record => avcc_record record = Some (mk_AvccRecord 3 [[0x67; 0x42; 0; 30]] [[0x68; 4]])
  | None => False
  end.
Proof.
  cbn zeta. pose proof (@build_avcc_record_spec naive_memmem [0; 0; 1; 0x67; 0x42; 0; 30; 0; 0; 1; 0x68; 4]) as Hs.
  cbn zeta in Hs. destruct (@build_avcc_record naive_memmem _) as [record|] eqn:E; [|by vm_compute in E].
  destruct Hs as (-> & _). by vm_compute.
Defined.

(** The parameter-set accumulator never mixes codecs: after any payloads, the sets
    of a codec other than the current one are absent, each set held is a NAL unit of
    its own type behind a start code, a stream once seen as H.265 stays H.265, and
    the sets reported for a payload are the SPS and PPS of H.264 or the VPS, SPS
    and PPS of H.265. *)
Theorem push_payload_invariant `{Memmem} payload a :
  acc_ok a ->
  let '(sets, a') := push_payload payload a in
  acc_ok a' /\ (kind a = Kind.H265 -> kind a' = Kind.H265) /\
  match sets with
  | Some s =>
      (kind a' = Kind.H264 /\ exists sps pps, s = annexb_nalu sps ++ annexb_nalu pps /\
         is_h264 7 sps = true /\ is_h264 8 pps = true) \/
      (kind a' = Kind.H265 /\ exists vps sps pps,
         s = annexb_nalu vps ++ annexb_nalu sps ++ annexb_nalu pps /\
         is_h265 32 vps = true /\ is_h265 33 sps = true /\ is_h265 34 pps = true)
  | None => True
  end.
Proof.
  intros Ha. unfold push_payload. rewrite for_each_split. set (a' := (visit_all _ _ a).2).
  assert (Ha' : acc_ok a' /\ (kind a = Kind.H265 -> kind a' = Kind.H265)).
  { subst a'. generalize (split_annexb_nalus payload). intros nalus. revert a Ha.
    induction nalus as [|n ns IH]; intros a Ha; [done|]. cbn [visit_all].
    destruct (push_nalu_ok n a Ha) as [Hp Hk]. destruct (IH _ Hp) as [H1 H2]. split; [done|auto]. }
  destruct Ha' as [Ha' Hk]. split_and!; [done|done|]. unfold complete.
  destruct Ha' as (H1 & H2 & H3 & H4 & H5 & _ & _).
  destruct (kind a') eqn:E; [done|..].
  - destruct (h264_sps a'), (h264_pps a'); try done. left.
    destruct H1 as (? & -> & ?), H2 as (? & -> & ?). eauto 10.
  - destruct (h265_vps a'), (h265_sps a'), (h265_pps a'); try done. right.
    destruct H3 as (? & -> & ?), H4 as (? & -> & ?), H5 as (? & -> & ?). eauto 10.
Qed.

Lemma push_payload_invariant_witness :
  let r := @push_payload naive_memmem [0; 0; 1; 0x67; 1; 2; 3; 0; 0; 1; 0x68; 4] Accumulator_default in
  r.1 = Some ([0; 0; 0; 1; 0x67; 1; 2; 3] ++ [0; 0; 0; 1; 0x68; 4]) /\ acc_ok r.2.
Proof.
  split; [by vm_compute|].
  exact (proj1 (@push_payload_invariant naive_memmem
    [0; 0; 1; 0x67; 1; 2; 3; 0; 0; 1; 0x68; 4] Accumulator_default
    ltac:(unfold acc_ok; cbn; tauto))).
Defined.
