(* ===== verification/H264Sps.v ===== *)
(** * The H.264 sequence parameter set probe

    Models [crates/restream-core/src/codec/h264_sps.rs], the one SPS parser both
    ingest probes share.  The specification side is an SPS as a record of syntax
    elements with its bit string after ITU-T H.264 7.3.2.1.1; parsing is proved
    to be the left inverse of writing it. *)

From S2P Require Import Prelude Bits.
From stdpp Require Import pretty.
#[local] Open Scope Z_scope.

(** ** Definitions *)

Record H264Sps := mk_H264Sps {
  h264_profile_idc : Z;
  h264_level_idc : Z;
  h264_width : Z;
  h264_height : Z;
  h264_fps : f64;
}.

Definition HIGH_PROFILES : list Z :=
  [100; 110; 122; 244; 44; 83; 86; 118; 128; 138; 139; 134; 135].

Definition profile_name (profile_idc : Z) : string :=
  if profile_idc =? 66 then "Baseline"
  else if profile_idc =? 77 then "Main"
  else if profile_idc =? 88 then "Extended"
  else if profile_idc =? 100 then "High"
  else if profile_idc =? 110 then "High 10"
  else if profile_idc =? 122 then "High 4:2:2"
  else if profile_idc =? 244 then "High 4:4:4 Predictive"
  else "Unknown".

Definition level_name (level_idc : Z) : string :=
  (pretty (level_idc / 10) +:+ "." +:+ pretty (level_idc mod 10))%string.

Definition cropped (size first second unit : Z) : option Z :=
  sum ← checked_u 64 (first + second);
  crop ← checked_u 64 (sum * unit);
  rest ← checked_u 64 (size - crop);
  value ← checked_u 32 rest;
  if 0 <? value then Some value else None.

(** The loop of [skip_scaling_list] from given scales. *)
Fixpoint skip_scaling_loop (size : nat) (last_scale next_scale : Z) : M BitReader unit :=
  match size with
  | O => mret tt
  | S size' =>
      next_scale ← (if negb (next_scale =? 0) then
                      delta ← read_se;
                      if negb ((-128 <=? delta) && (delta <=? 127)) then fail
                      else sum ← lift (checked_i 32 (last_scale + delta)); mret (sum mod 256)
                    else mret next_scale);
      skip_scaling_loop size' (if negb (next_scale =? 0) then next_scale else last_scale) next_scale
  end.

Definition skip_scaling_list (size : nat) : M BitReader unit := skip_scaling_loop size 8 8.

(** [for index in index..index + n] over the scaling lists of an SPS. *)
Fixpoint skip_scaling_lists (n : nat) (index : Z) : M BitReader unit :=
  match n with
  | O => mret tt
  | S n' =>
      flag ← read_bits 1;
      _ ← (if flag =? 1 then skip_scaling_list (if index <? 6 then 16%nat else 64%nat) else mret tt);
      skip_scaling_lists n' (index + 1)
  end.

Definition vui_frame_rate : M BitReader f64 :=
  aspect ← read_bits 1;
  sar ← (if aspect =? 1 then idc ← read_bits 8; mret (idc =? 255) else mret false);
  _ ← (if (sar : bool) then skip 32 else mret tt);
  overscan ← read_bits 1;
  _ ← (if overscan =? 1 then skip 1 else mret tt);
  signal ← read_bits 1;
  _ ← (if signal =? 1 then
         _ ← skip 4;
         colour ← read_bits 1;
         if colour =? 1 then skip 24 else mret tt
       else mret tt);
  chroma_loc ← read_bits 1;
  _ ← (if chroma_loc =? 1 then _ ← read_ue; _ ← read_ue; mret tt else mret tt);
  timing ← read_bits 1;
  if timing =? 0 then mret f64_zero
  else
    num_units_in_tick ← read_bits 32;
    time_scale ← read_bits 32;
    mret (if (0 <? num_units_in_tick) && (0 <? time_scale)
          then f64_div (f64_from time_scale) (f64_mul (f64_from 2) (f64_from num_units_in_tick))
          else f64_zero).

(** The chroma format, bit depths and scaling lists of a high profile. *)
Definition parse_high_profile : M BitReader Z :=
  chroma_format_idc ← read_ue;
  if 3 <? chroma_format_idc then fail
  else
    _ ← (if chroma_format_idc =? 3 then skip 1 else mret tt);
    bit_depth_luma_minus8 ← read_ue;
    bit_depth_chroma_minus8 ← read_ue;
    if (8 <? bit_depth_luma_minus8) || (8 <? bit_depth_chroma_minus8) then fail
    else
      _ ← skip 1;
      flag ← read_bits 1;
      _ ← (if flag =? 1
           then skip_scaling_lists (if chroma_format_idc =? 3 then 12%nat else 8%nat) 0
           else mret tt);
      mret chroma_format_idc.

(** The picture order count syntax. *)
Definition parse_pic_order_cnt : M BitReader unit :=
  poc_type ← read_ue;
  if poc_type =? 0 then _ ← read_ue; mret tt
  else if poc_type =? 1 then
    _ ← skip 1;
    _ ← read_se;
    _ ← read_se;
    cycle ← read_ue;
    if 255 <? cycle then fail else repeat_M (Z.to_nat cycle) read_se
  else if poc_type =? 2 then mret tt
  else fail.

(** Everything behind the three leading bytes. *)
Definition parse_h264_sps_body (profile_idc level_idc : Z) : M BitReader H264Sps :=
  _seq_parameter_set_id ← read_ue;
  chroma_format_idc ← (if bool_decide (profile_idc ∈ HIGH_PROFILES) then parse_high_profile else mret 1);
  _log2_max_frame_num_minus4 ← read_ue;
  _ ← parse_pic_order_cnt;
  _max_num_ref_frames ← read_ue;
  _ ← skip 1;
  width_in_mbs_minus1 ← read_ue;
  height_in_map_units_minus1 ← read_ue;
  frame_mbs_only ← read_bits 1;
  _ ← (if frame_mbs_only =? 0 then skip 1 else mret tt);
  _ ← skip 1;
  cropping ← read_bits 1;
  '(crop_left, crop_right, crop_top, crop_bottom) ←
    (if cropping =? 1 then
       l ← read_ue; r ← read_ue; t ← read_ue; b ← read_ue; mret (l, r, t, b)
     else mret (0, 0, 0, 0));
  let sub_width := if (chroma_format_idc =? 1) || (chroma_format_idc =? 2) then 2 else 1 in
  let sub_height := if chroma_format_idc =? 1 then 2 else 1 in
  frame_height_factor ← lift (checked_u 64 (2 - frame_mbs_only));
  width_mbs ← lift (checked_u 64 (width_in_mbs_minus1 + 1));
  full_width ← lift (checked_u 64 (width_mbs * 16));
  width ← lift (cropped full_width crop_left crop_right sub_width);
  height_units ← lift (checked_u 64 (height_in_map_units_minus1 + 1));
  height_mbs ← lift (checked_u 64 (height_units * frame_height_factor));
  full_height ← lift (checked_u 64 (height_mbs * 16));
  crop_unit_y ← lift (checked_u 64 (sub_height * frame_height_factor));
  height ← lift (cropped full_height crop_top crop_bottom crop_unit_y);
  vui ← read_bits 1;
  fps ← (if vui =? 1 then vui_frame_rate else mret f64_zero);
  mret (mk_H264Sps profile_idc level_idc width height fps).

Definition parse_h264_sps (payload : bytes) : option H264Sps :=
  let sps := rbsp payload in
  match first_chunk 3 sps with
  | Some [profile_idc; _; level_idc] =>
      rest ← get_from 3 sps;
      (parse_h264_sps_body profile_idc level_idc (BitReader_new rest)).1
  | _ => None
  end.

(** ** Specification: the syntax of an SPS *)

Inductive poc_syntax :=
  | Poc0 (log2_max_lsb_minus4 : Z)
  | Poc1 (always_zero : bool) (non_ref top_to_bottom : Z) (cycle : list Z)
  | Poc2.

Record vui_syntax := mk_vui {
  v_aspect : option (Z * Z);              (* aspect_ratio_idc, sar_width and sar_height *)
  v_overscan : option bool;
  v_signal : option (Z * option Z);       (* format and range, colour description *)
  v_chroma_loc : option (Z * Z);
  v_timing : option (Z * Z);              (* num_units_in_tick, time_scale *)
}.

Record high_syntax := mk_high {
  s_chroma_format_idc : Z;
  s_separate_colour_plane : bool;
  s_bit_depth_luma_minus8 : Z;
  s_bit_depth_chroma_minus8 : Z;
  s_transform_bypass : bool;
  s_scaling : option (list (option (list Z)));
}.

Record sps_syntax := mk_sps {
  s_profile_idc : Z;
  s_constraints : Z;
  s_level_idc : Z;
  s_id : Z;
  s_high : high_syntax;                   (* written for the high profiles only *)
  s_log2_max_frame_num_minus4 : Z;
  s_poc : poc_syntax;
  s_max_num_ref_frames : Z;
  s_gaps : bool;
  s_width_in_mbs_minus1 : Z;
  s_height_in_map_units_minus1 : Z;
  s_frame_mbs_only : bool;
  s_mb_adaptive : bool;
  s_direct_8x8 : bool;
  s_crop : option (Z * Z * Z * Z);        (* left, right, top, bottom *)
  s_vui : option vui_syntax;
}.

Definition is_high (s : sps_syntax) : bool := bool_decide (s_profile_idc s ∈ HIGH_PROFILES).

Definition enc_flag {A} (o : option A) (enc : A -> list bool) : list bool :=
  match o with Some a => [true] ++ enc a | None => [false] end.

Definition enc_scaling_lists (ls : list (option (list Z))) : list bool :=
  flat_map (fun l => enc_flag l (flat_map enc_se)) ls.

Definition enc_high (h : high_syntax) : list bool :=
  enc_ue (s_chroma_format_idc h) ++
  (if s_chroma_format_idc h =? 3 then [s_separate_colour_plane h] else []) ++
  enc_ue (s_bit_depth_luma_minus8 h) ++ enc_ue (s_bit_depth_chroma_minus8 h) ++
  [s_transform_bypass h] ++ enc_flag (s_scaling h) enc_scaling_lists.

Definition enc_poc (p : poc_syntax) : list bool :=
  match p with
  | Poc0 n => enc_ue 0 ++ enc_ue n
  | Poc1 z a b cycle =>
      enc_ue 1 ++ [z] ++ enc_se a ++ enc_se b ++ enc_ue (zlen cycle) ++ flat_map enc_se cycle
  | Poc2 => enc_ue 2
  end.

Definition enc_vui (v : vui_syntax) : list bool :=
  enc_flag (v_aspect v) (fun a => be_bits 8 a.1 ++ (if a.1 =? 255 then be_bits 32 a.2 else [])) ++
  enc_flag (v_overscan v) (fun b => [b]) ++
  enc_flag (v_signal v) (fun a => be_bits 4 a.1 ++ enc_flag a.2 (be_bits 24)) ++
  enc_flag (v_chroma_loc v) (fun a => enc_ue a.1 ++ enc_ue a.2) ++
  enc_flag (v_timing v) (fun a => be_bits 32 a.1 ++ be_bits 32 a.2).

Definition enc_sps_body (s : sps_syntax) : list bool :=
  enc_ue (s_id s) ++
  (if is_high s then enc_high (s_high s) else []) ++
  enc_ue (s_log2_max_frame_num_minus4 s) ++
  enc_poc (s_poc s) ++
  enc_ue (s_max_num_ref_frames s) ++ [s_gaps s] ++
  enc_ue (s_width_in_mbs_minus1 s) ++ enc_ue (s_height_in_map_units_minus1 s) ++
  [s_frame_mbs_only s] ++ (if s_frame_mbs_only s then [] else [s_mb_adaptive s]) ++
  [s_direct_8x8 s] ++
  enc_flag (s_crop s) (fun '(l, r, t, b) => enc_ue l ++ enc_ue r ++ enc_ue t ++ enc_ue b) ++
  enc_flag (s_vui s) enc_vui.

(** What the standard says of the values. *)
Definition ue_ok (v : Z) : Prop := 0 <= v <= 2 ^ 32 - 2.
Definition se_ok (v : Z) : Prop := - (2 ^ 31 - 1) <= v <= 2 ^ 31 - 1.

Fixpoint scaling_ok (size : nat) (last_scale next_scale : Z) (deltas : list Z) : Prop :=
  match size with
  | O => deltas = []
  | S size' =>
      if next_scale =? 0 then scaling_ok size' last_scale 0 deltas
      else match deltas with
           | [] => False
           | d :: deltas' =>
               let next := (last_scale + d) mod 256 in
               -128 <= d <= 127 /\
               scaling_ok size' (if next =? 0 then last_scale else next) next deltas'
           end
  end.

Fixpoint scaling_lists_ok (index : Z) (ls : list (option (list Z))) : Prop :=
  match ls with
  | [] => True
  | l :: ls' =>
      match l with
      | Some deltas => scaling_ok (if index <? 6 then 16%nat else 64%nat) 8 8 deltas
      | None => True
      end /\ scaling_lists_ok (index + 1) ls'
  end.

Definition high_ok (h : high_syntax) : Prop :=
  0 <= s_chroma_format_idc h <= 3 /\
  0 <= s_bit_depth_luma_minus8 h <= 8 /\ 0 <= s_bit_depth_chroma_minus8 h <= 8 /\
  match s_scaling h with
  | Some ls => length ls = (if s_chroma_format_idc h =? 3 then 12%nat else 8%nat) /\ scaling_lists_ok 0 ls
  | None => True
  end.

Definition poc_ok (p : poc_syntax) : Prop :=
  match p with
  | Poc0 n => ue_ok n
  | Poc1 _ a b cycle => se_ok a /\ se_ok b /\ zlen cycle <= 255 /\ Forall se_ok cycle
  | Poc2 => True
  end.

Definition vui_ok (v : vui_syntax) : Prop :=
  match v_aspect v with Some (idc, _) => in_u 8 idc | None => True end /\
  match v_chroma_loc v with Some (a, b) => ue_ok a /\ ue_ok b | None => True end /\
  match v_timing v with Some (n, t) => in_u 32 n /\ in_u 32 t | None => True end.

(** The picture size after cropping (7.4.2.1.1). *)
Definition chroma_idc (s : sps_syntax) : Z :=
  if is_high s then s_chroma_format_idc (s_high s) else 1.
Definition crop_of (s : sps_syntax) : Z * Z * Z * Z := default (0, 0, 0, 0) (s_crop s).
Definition field_factor (s : sps_syntax) : Z := if s_frame_mbs_only s then 1 else 2.
Definition SubWidthC (s : sps_syntax) : Z :=
  if (chroma_idc s =? 1) || (chroma_idc s =? 2) then 2 else 1.
Definition SubHeightC (s : sps_syntax) : Z := if chroma_idc s =? 1 then 2 else 1.
Definition sps_width (s : sps_syntax) : Z :=
  let '(l, r, _, _) := crop_of s in
  16 * (s_width_in_mbs_minus1 s + 1) - SubWidthC s * (l + r).
Definition sps_height (s : sps_syntax) : Z :=
  let '(_, _, t, b) := crop_of s in
  16 * field_factor s * (s_height_in_map_units_minus1 s + 1) - SubHeightC s * field_factor s * (t + b).

Definition sps_fps (s : sps_syntax) : f64 :=
  match s_vui s with
  | Some v =>
      match v_timing v with
      | Some (n, t) =>
          if (0 <? n) && (0 <? t) then f64_div (f64_from t) (f64_mul (f64_from 2) (f64_from n))
          else f64_zero
      | None => f64_zero
      end
  | None => f64_zero
  end.

Definition sps_ok (s : sps_syntax) : Prop :=
  in_u 8 (s_profile_idc s) /\ in_u 8 (s_constraints s) /\ in_u 8 (s_level_idc s) /\
  ue_ok (s_id s) /\ high_ok (s_high s) /\ ue_ok (s_log2_max_frame_num_minus4 s) /\
  poc_ok (s_poc s) /\ ue_ok (s_max_num_ref_frames s) /\
  ue_ok (s_width_in_mbs_minus1 s) /\ ue_ok (s_height_in_map_units_minus1 s) /\
  (let '(l, r, t, b) := crop_of s in ue_ok l /\ ue_ok r /\ ue_ok t /\ ue_ok b) /\
  match s_vui s with Some v => vui_ok v | None => True end.

(** [payload] is [s] written out: the bytes of the three leading fields and of the
    body's bits, padded with any further bits to full bytes, then escaped. *)
Definition sps_payload (s : sps_syntax) (payload : bytes) : Prop :=
  exists body padding, bytes_ok body /\ flat_map byte_bits body = enc_sps_body s ++ padding /\
    payload = escape ([s_profile_idc s; s_constraints s; s_level_idc s] ++ body).

(** ** Lemmas *)

Lemma yields_flag (b : bool) : yields (read_bits 1) [b] (Z.b2z b).
Proof. destruct b; apply (yields_read_bits 1); done. Qed.

Lemma yields_skip1 b : yields (skip 1) [b] tt.
Proof. by apply yields_skip. Qed.

Lemma yields_skip_bits n x : yields (skip (Z.of_nat n)) (be_bits n x) tt.
Proof. apply yields_skip. unfold zlen. by rewrite length_be_bits. Qed.

Lemma yields_bind_ret {A B} (m : M BitReader A) (f : A -> M BitReader B) bs a b :
  yields m bs a -> yields (f a) [] b -> yields (m ≫= f) bs b.
Proof. intros. rewrite <- (app_nil_r bs). by eapply yields_bind. Qed.

Lemma yields_app_nil {A} (m : M BitReader A) bs a : yields m (bs ++ []) a -> yields m bs a.
Proof. by rewrite app_nil_r. Qed.

(** An optional element behind its presence flag. *)
Lemma yields_enc_flag {A B} (o : option A) enc (k : Z -> M BitReader B) b :
  (forall a, o = Some a -> yields (k 1) (enc a) b) ->
  (o = None -> yields (k 0) [] b) ->
  yields (v ← read_bits 1; k v) (enc_flag o enc) b.
Proof.
  intros HS HN. destruct o as [a|]; cbn [enc_flag].
  - eapply yields_bind; [apply (yields_flag true)|]. by apply HS.
  - apply yields_bind_ret with 0; [apply (yields_flag false)|by apply HN].
Qed.

Lemma yields_repeat {A} (m : M BitReader A) (enc : A -> list bool) l :
  Forall (fun a => yields m (enc a) a) l -> yields (repeat_M (length l) m) (flat_map enc l) tt.
Proof.
  induction 1 as [|a l Ha Hl IH]; cbn [length repeat_M flat_map]; [apply yields_ret|].
  by eapply yields_bind.
Qed.

Lemma yields_scaling size last next deltas :
  0 <= last < 256 -> 0 <= next < 256 -> scaling_ok size last next deltas ->
  yields (skip_scaling_loop size last next) (flat_map enc_se deltas) tt.
Proof.
  revert last next deltas. induction size as [|size IH]; intros last next deltas Hl Hn Hok;
    cbn in Hok; cbn [skip_scaling_loop].
  - subst. apply yields_ret.
  - destruct (Z.eqb_spec next 0) as [->|Hnz]; cbn [negb].
    + apply (yields_bind _ _ [] _ 0); [apply yields_ret|]. by apply IH.
    + destruct deltas as [|d deltas]; [done|]. destruct Hok as [Hd Hok]. cbn [flat_map].
      apply yields_bind with ((last + d) mod 256).
      * apply yields_bind_ret with d; [apply yields_se; lia|].
        destruct (Z.leb_spec (-128) d); [|lia]. destruct (Z.leb_spec d 127); [|lia]. cbn [andb negb].
        eapply yields_lift_bind; [apply checked_i_Some; unfold in_i; lia|]. apply yields_ret.
      * pose proof (Z.mod_pos_bound (last + d) 256 ltac:(lia)).
        apply IH; [|done|]; destruct (_ =? 0); cbn [negb]; done || lia.
Qed.

Lemma yields_scaling_lists ls index :
  scaling_lists_ok index ls ->
  yields (skip_scaling_lists (length ls) index) (enc_scaling_lists ls) tt.
Proof.
  revert index. induction ls as [|l ls IH]; intros index Hok; cbn [length skip_scaling_lists].
  - apply yields_ret.
  - destruct Hok as [Hl Hls]. cbn [enc_scaling_lists flat_map]. destruct l as [deltas|]; cbn [enc_flag].
    + rewrite <- app_assoc. eapply yields_bind; [apply (yields_flag true)|].
      eapply yields_bind; [|by apply IH]. by apply yields_scaling.
    + eapply yields_bind; [apply (yields_flag false)|].
      apply (yields_bind _ _ [] _ tt); [apply yields_ret|]. by apply IH.
Qed.

Create HintDb yields discriminated.
#[export] Hint Resolve yields_ret yields_ue yields_se yields_flag yields_skip1 : yields.

(** One more element read; its side condition by arithmetic. *)
Ltac ystep := eapply yields_bind; [solve [eauto with yields | apply yields_ue; unfold ue_ok in *; lia]|].
Ltac ynone := eapply (yields_bind _ _ []); [apply yields_ret|].

Lemma yields_high h :
  high_ok h -> yields parse_high_profile (enc_high h) (s_chroma_format_idc h).
Proof.
  intros (Hc & Hl & Hd & Hs). unfold parse_high_profile, enc_high. ystep.
  destruct (Z.ltb_spec 3 (s_chroma_format_idc h)); [lia|].
  eapply yields_bind; [instantiate (1 := tt); case_if; eauto with yields|].
  ystep. ystep.
  destruct (Z.ltb_spec 8 (s_bit_depth_luma_minus8 h)); [lia|].
  destruct (Z.ltb_spec 8 (s_bit_depth_chroma_minus8 h)); [lia|]. cbn [orb].
  ystep. apply yields_enc_flag.
  - intros ls Els. rewrite Els in Hs. destruct Hs as [Hlen Hls].
    apply yields_bind_ret with tt; [|apply yields_ret].
    cbn [Z.eqb Pos.eqb]. rewrite <- Hlen. by apply yields_scaling_lists.
  - intros _. ynone. apply yields_ret.
Qed.

Lemma yields_poc p : poc_ok p -> yields parse_pic_order_cnt (enc_poc p) tt.
Proof.
  unfold parse_pic_order_cnt. destruct p as [n|z a b cycle|]; cbn [poc_ok enc_poc]; intros Hok.
  - ystep. apply yields_bind_ret with n; eauto with yields.
  - destruct Hok as (Ha & Hb & Hlen & Hall). pose proof (zlen_nonneg cycle).
    do 5 ystep. cbn [Z.eqb Pos.eqb]. destruct (Z.ltb_spec 255 (zlen cycle)); [lia|].
    unfold zlen. rewrite Nat2Z.id. apply yields_repeat.
    eapply Forall_impl; [exact Hall|]. intros v Hv. by apply yields_se.
  - apply yields_bind_ret with 2; [apply yields_ue; lia|]. apply yields_ret.
Qed.

Definition vui_fps (v : vui_syntax) : f64 :=
  match v_timing v with
  | Some (n, t) =>
      if (0 <? n) && (0 <? t) then f64_div (f64_from t) (f64_mul (f64_from 2) (f64_from n))
      else f64_zero
  | None => f64_zero
  end.

(** A presence flag, the optional element and what follows. *)
Lemma yields_opt {A B} (o : option A) enc (m : Z -> M BitReader B) (b : B) :
  (forall a, o = Some a -> yields (m 1) (enc a) b) -> (o = None -> yields (m 0) [] b) ->
  forall C (k : B -> M BitReader C) bs c, yields (k b) bs c ->
  yields (v ← read_bits 1; x ← m v; k x) (enc_flag o enc ++ bs) c.
Proof.
  intros HS HN C k bs c Hk. destruct o as [a|]; cbn [enc_flag].
  - rewrite <- app_assoc. eapply yields_bind; [apply (yields_flag true)|].
    eapply yields_bind; [by apply HS|done].
  - eapply yields_bind; [apply (yields_flag false)|].
    apply (yields_bind _ _ [] _ b); [by apply HN|done].
Qed.

Definition sar_bits (v : vui_syntax) : list bool :=
  match v_aspect v with Some (idc, sar) => if idc =? 255 then be_bits 32 sar else [] | None => [] end.
Definition extended_sar (v : vui_syntax) : bool :=
  match v_aspect v with Some (idc, _) => idc =? 255 | None => false end.

Lemma enc_aspect_split v bs :
  enc_flag (v_aspect v) (fun a => be_bits 8 a.1 ++ (if a.1 =? 255 then be_bits 32 a.2 else [])) ++ bs =
  enc_flag (v_aspect v) (fun a => be_bits 8 a.1) ++ sar_bits v ++ bs.
Proof. unfold sar_bits. destruct (v_aspect v) as [[idc sar]|]; [|done]. cbn [enc_flag fst snd]. by app_norm. Qed.

Lemma yields_vui v : vui_ok v -> yields vui_frame_rate (enc_vui v) (vui_fps v).
Proof.
  intros (Ha & Hc & Ht). unfold vui_frame_rate, enc_vui. rewrite enc_aspect_split.
  apply yields_opt with (extended_sar v).
  { intros [idc sar] E. unfold extended_sar. rewrite E in Ha |- *.
    apply yields_bind_ret with idc; [by apply (yields_bits_field 8)|apply yields_ret]. }
  { intros E. unfold extended_sar. rewrite E. apply yields_ret. }
  eapply yields_bind.
  { instantiate (1 := tt). unfold sar_bits, extended_sar. destruct (v_aspect v) as [[idc sar]|];
      [case_if; [apply (yields_skip_bits 32)|]|]; apply yields_ret. }
  apply yields_opt with tt; [intros ? _; apply yields_skip1|intros _; apply yields_ret|].
  apply yields_opt with tt; [|intros _; apply yields_ret|].
  { intros [fmt colour] _. cbn [Z.eqb Pos.eqb fst snd].
    eapply yields_bind; [apply (yields_skip_bits 4)|].
    apply yields_enc_flag; [intros ? _; apply (yields_skip_bits 24)|intros _; apply yields_ret]. }
  apply yields_opt with tt; [|intros _; apply yields_ret|].
  { intros [a b] E. rewrite E in Hc. destruct Hc. cbn [Z.eqb Pos.eqb fst snd].
    ystep. apply yields_bind_ret with b; [by apply yields_ue|apply yields_ret]. }
  unfold vui_fps. apply yields_enc_flag.
  - intros [n t] E. rewrite E in Ht |- *. destruct Ht. cbn [Z.eqb Pos.eqb fst snd].
    eapply yields_bind; [by apply (yields_bits_field 32)|].
    eapply yields_bind_ret; [by apply (yields_bits_field 32)|]. apply yields_ret.
  - intros ->. apply yields_ret.
Qed.

Lemma cropped_ok size first second unit :
  0 <= first -> 0 <= second -> 0 <= unit -> first + second < 2 ^ 33 -> unit <= 4 ->
  size < 2 ^ 64 -> 0 < size - unit * (first + second) < 2 ^ 32 ->
  cropped size first second unit = Some (size - unit * (first + second)).
Proof.
  intros H1 H2 H3 H4 H5 H6 H7. unfold cropped.
  rewrite checked_u_Some by (unfold in_u; lia). cbn [mbind option_bind].
  rewrite checked_u_Some by (unfold in_u; nia). cbn [mbind option_bind].
  rewrite (Z.mul_comm (first + second) unit).
  rewrite checked_u_Some by (unfold in_u; lia). cbn [mbind option_bind].
  rewrite checked_u_Some by (unfold in_u; lia). cbn [mbind option_bind].
  destruct (Z.ltb_spec 0 (size - unit * (first + second))); [done|lia].
Qed.

Ltac ylift := eapply yields_lift_bind; [apply checked_u_Some; unfold in_u, ue_ok in *; lia|].

Lemma yields_sps_body s :
  sps_ok s -> 0 < sps_width s < 2 ^ 32 -> 0 < sps_height s < 2 ^ 32 ->
  yields (parse_h264_sps_body (s_profile_idc s) (s_level_idc s)) (enc_sps_body s)
    (mk_H264Sps (s_profile_idc s) (s_level_idc s) (sps_width s) (sps_height s) (sps_fps s)).
Proof.
  intros (_ & _ & _ & Hid & Hhigh & Hfn & Hpoc & Href & Hw & Hh & Hcrop & Hvui) HW HH.
  unfold parse_h264_sps_body, enc_sps_body. ystep.
  apply yields_bind with (chroma_idc s).
  { unfold chroma_idc. fold (is_high s). destruct (is_high s); [by apply yields_high|apply yields_ret]. }
  ystep. eapply yields_bind; [by apply yields_poc|]. do 5 ystep.
  eapply yields_bind.
  { instantiate (1 := tt). destruct (s_frame_mbs_only s); [apply yields_ret|apply yields_skip1]. }
  ystep.
  apply yields_opt with (crop_of s).
  { intros [[[l r] t] b] E. unfold crop_of in *. rewrite E in Hcrop |- *. cbn in Hcrop.
    destruct Hcrop as (? & ? & ? & ?). cbn [Z.eqb Pos.eqb]. do 3 ystep.
    eapply yields_bind_ret; [by apply yields_ue|apply yields_ret]. }
  { intros E. unfold crop_of. rewrite E. apply yields_ret. }
  unfold sps_width, sps_height in *. destruct (crop_of s) as [[[l r] t] b].
  destruct Hcrop as (Hl & Hr & Ht & Hb).
  fold (SubWidthC s) (SubHeightC s).
  assert (1 <= SubWidthC s <= 2) by (unfold SubWidthC; case_if; lia).
  assert (1 <= SubHeightC s <= 2) by (unfold SubHeightC; case_if; lia).
  assert (Hff : 2 - Z.b2z (s_frame_mbs_only s) = field_factor s)
    by (unfold field_factor; by destruct (s_frame_mbs_only s)).
  assert (1 <= field_factor s <= 2) by (unfold field_factor; case_if; lia).
  rewrite Hff. unfold ue_ok in *.
  eapply yields_lift_bind; [apply checked_u_Some; unfold in_u; lia|].
  do 2 ylift.
  eapply yields_lift_bind; [apply cropped_ok; try lia|]. 
  ylift.
  eapply yields_lift_bind; [apply checked_u_Some; unfold in_u; nia|].
  eapply yields_lift_bind; [apply checked_u_Some; unfold in_u; nia|].
  eapply yields_lift_bind; [apply checked_u_Some; unfold in_u; nia|].
  eapply yields_lift_bind; [apply cropped_ok; try lia; nia|].
  unfold sps_fps. apply yields_enc_flag.
  - intros v E. rewrite E in Hvui |- *. eapply yields_bind_ret; [by apply yields_vui|].
    unfold vui_fps. erewrite f_equal; [apply yields_ret|]. f_equal; ring.
  - intros ->. ynone. erewrite f_equal; [apply yields_ret|]. f_equal; ring.
Qed.

Lemma parse_h264_sps_payload s payload :
  sps_ok s -> sps_payload s payload ->
  parse_h264_sps payload =
    (parse_h264_sps_body (s_profile_idc s) (s_level_idc s)
       (BitReader_new (drop 3 (rbsp payload)))).1 /\
  reader_ok (BitReader_new (drop 3 (rbsp payload))) /\
  exists padding, rem (BitReader_new (drop 3 (rbsp payload))) = enc_sps_body s ++ padding.
Proof.
  intros (Hp & Hc & Hl & _) (body & padding & Hok & Hbits & ->). unfold parse_h264_sps.
  assert (rbsp (escape ([s_profile_idc s; s_constraints s; s_level_idc s] ++ body))
    = [s_profile_idc s; s_constraints s; s_level_idc s] ++ body) as ->.
  { apply rbsp_escape_loop; [|lia]. apply bytes_ok_app. split; [|done].
    repeat (constructor; [done|]). constructor. }
  split_and!; [done| |].
  - by apply reader_new_ok.
  - exists padding. by rewrite rem_new.
Qed.

(** ** Properties *)

(** C34: The SPS parser inverts the SPS syntax: for every SPS of the standard's syntax
    (any profile, scaling lists, picture order count type, cropping and VUI), written
    out bit by bit, padded and escaped, with a picture size between 1 and 2^32 - 1,
    parsing succeeds and reports its profile, level, the picture size after cropping
    in chroma units, and the frame rate of its timing information. *)
Theorem parse_h264_sps_roundtrip s payload :
  sps_ok s -> sps_payload s payload ->
  0 < sps_width s < 2 ^ 32 -> 0 < sps_height s < 2 ^ 32 ->
  parse_h264_sps payload = Some (mk_H264Sps (s_profile_idc s) (s_level_idc s)
                                   (sps_width s) (sps_height s) (sps_fps s)).
Proof.
  intros Hs Hp Hw Hh. destruct (parse_h264_sps_payload s payload Hs Hp) as (-> & Hr & pad & Hrem).
  by destruct (yields_sps_body s Hs Hw Hh _ pad Hr Hrem) as (r' & -> & _).
Qed.

Definition example_sps : sps_syntax :=
  mk_sps 100 0 40 0
    (mk_high 1 false 0 0 false
       (Some [Some [8; -16]; None; None; None; None; None; None; None]))
    0 (Poc1 true (-1) 2 [3; -3]) 4 false 119 67 true false true (Some (0, 0, 0, 4))
    (Some (mk_vui (Some (255, 2 ^ 16 + 1)) None (Some (5, Some 0x010101)) None (Some (1001, 60000)))).

(** Grouping bits into bytes. *)
Fixpoint pack_bytes (n : nat) (bs : list bool) : bytes :=
  match n with
  | O => []
  | S n' => match bs with
            | [] => []
            | _ => bits_value (take 8 (bs ++ replicate 8 false)) :: pack_bytes n' (drop 8 bs)
            end
  end.
Definition example_body : bytes := pack_bytes 64 (enc_sps_body example_sps).

Lemma parse_h264_sps_roundtrip_witness :
  parse_h264_sps (escape ([100; 0; 40] ++ example_body)) =
    Some (mk_H264Sps 100 40 1920 1080
            (f64_div (f64_from 60000) (f64_from 2002))).
Proof.
  apply (parse_h264_sps_roundtrip example_sps).
  - unfold sps_ok, high_ok, poc_ok, vui_ok, ue_ok, se_ok, in_u. cbn.
    split_and!; try done; try lia. repeat constructor; lia.
  - exists example_body, (replicate 4 false). split_and!; [|by vm_compute|done].
    apply Forall_forall. intros b Hb. apply list_elem_of_In in Hb.
    assert (forallb (fun b => (0 <=? b) && (b <? 256)) example_body = true) as Hall by by vm_compute.
    rewrite forallb_forall in Hall. specialize (Hall _ Hb). unfold in_u. lia.
  - vm_compute. split; done.
  - vm_compute. split; done.
Defined.
