(* ===== verification/HevcConfig.v ===== *)
(** * Enhanced RTMP and the HEVC decoder configuration

    Models [crates/restream-core/src/codec/enhanced_rtmp_hevc.rs]: the enhanced
    RTMP video tag, the HEVC decoder configuration record in both directions, and
    the profile/tier/level parser of an H.265 SPS. *)

From S2P Require Import Prelude Bitblast Bits Annexb.

(** ** Definitions *)

Definition EX_SEQUENCE_START : Z := 0.
Definition EX_CODED_FRAMES : Z := 1.
Definition EX_CODED_FRAMES_X : Z := 3.

(** b"hvc1" and b"avc1" *)
Definition hvc1 : bytes := [0x68; 0x76; 0x63; 0x31].
Definition avc1 : bytes := [0x61; 0x76; 0x63; 0x31].

Record ExVideoTag := mk_ExVideoTag {
  ex_fourcc : bytes;
  ex_packet_type : Z;
  ex_keyframe : bool;
  ex_composition_time_ms : Z;
  ex_body : bytes;
}.

Definition ExVideoTag_is_hevc (tag : ExVideoTag) : bool := bool_decide (ex_fourcc tag = hvc1).

Definition ex_video_tag (payload : bytes) : option ExVideoTag :=
  match split_at_checked 5 payload with
  | Some ([first; a; b; c; d], rest) =>
      if first .& 0x80 =? 0 then None
      else
        let fourcc := [a; b; c; d] in
        if negb (bool_decide (fourcc = hvc1)) && negb (bool_decide (fourcc = avc1)) then None
        else
          let packet_type := first .& 0x0F in
          '(composition_time_ms, body) ←
            (if packet_type =? EX_CODED_FRAMES then
               match split_at_checked 3 rest with
               | Some ([high; mid; low], body) =>
                   let sign := if negb (high .& 0x80 =? 0) then 0xFF else 0x00 in
                   Some (as_i32 (be_value [sign; high; mid; low]), body)
               | _ => None
               end
             else Some (0, rest));
          Some (mk_ExVideoTag fourcc packet_type ((first .>> 4) .& 0x07 =? 1)
                  composition_time_ms body)
  | _ => None
  end.

Record HvccRecord := mk_HvccRecord {
  hvcc_length_size_minus_one : Z;
  hvcc_vps : list bytes;
  hvcc_sps : list bytes;
  hvcc_pps : list bytes;
}.

Definition hvcc_push (kind : Z) (nalu : bytes) (p : HvccRecord) : HvccRecord :=
  let t := kind .& 0x3F in
  if t =? 32 then
    mk_HvccRecord (hvcc_length_size_minus_one p) (hvcc_vps p ++ [nalu]) (hvcc_sps p) (hvcc_pps p)
  else if t =? 33 then
    mk_HvccRecord (hvcc_length_size_minus_one p) (hvcc_vps p) (hvcc_sps p ++ [nalu]) (hvcc_pps p)
  else if t =? 34 then
    mk_HvccRecord (hvcc_length_size_minus_one p) (hvcc_vps p) (hvcc_sps p) (hvcc_pps p ++ [nalu])
  else p.

Fixpoint hvcc_nalus (count : nat) (kind : Z) (p : HvccRecord) : M bytes HvccRecord :=
  match count with
  | O => mret p
  | S count' => nalu ← take_u16_prefixed; hvcc_nalus count' kind (hvcc_push kind nalu p)
  end.

(** [rest.split_first_chunk::<n>()?] on the remaining slice *)
Definition take_chunk (n : nat) : M bytes bytes := fun rest =>
  match split_at_checked n rest with
  | Some (chunk, tail) => (Some chunk, tail)
  | None => (None, rest)
  end.

Fixpoint hvcc_arrays (arrays : nat) (p : HvccRecord) : M bytes HvccRecord :=
  match arrays with
  | O => mret p
  | S arrays' =>
      head ← take_chunk 3;
      match head with
      | [kind; count_high; count_low] =>
          p' ← hvcc_nalus (Z.to_nat (be_value [count_high; count_low])) kind p;
          hvcc_arrays arrays' p'
      | _ => fail
      end
  end.

Definition hvcc_record (record : bytes) : option HvccRecord :=
  '(header, rest) ← split_at_checked 23 record;
  length_byte ← header !! 21%nat;
  arrays ← header !! 22%nat;
  (hvcc_arrays (Z.to_nat arrays) (mk_HvccRecord (length_byte .& 0x03) [] [] []) rest).1.

Definition h265_nal_type (nalu : bytes) : option Z :=
  match nalu with
  | first :: _ :: _ => Some ((first .>> 1) .& 0x3F)
  | _ => None
  end.

Section walk.
Context `{Memmem}.

Definition h265_annexb_to_length_prefixed_into (d out : bytes) : bool * bytes :=
  (for_each_annexb_nalu
     (fun nalu '(has_vcl, out) =>
        match h265_nal_type nalu with
        | None => (Continue, (has_vcl, out))
        | Some nal_type =>
            if (32 <=? nal_type) && (nal_type <=? 35) then (Continue, (has_vcl, out))
            else
              let has_vcl := if nal_type <=? 31 then true else has_vcl in
              let out := match checked_u 32 (zlen nalu) with
                         | Some len => (out ++ to_be_bytes 4 len) ++ nalu
                         | None => out
                         end in
              (Continue, (has_vcl, out))
        end) d (false, out)).2.

Definition hevc_video_for_enhanced_rtmp_with_composition_into
    (payload : bytes) (is_keyframe : bool) (composition_time_ms : Z) : bool * bytes :=
  let frame_type := if is_keyframe then 1 else 2 in
  let packet_type := if composition_time_ms =? 0 then 3 else 1 in
  let out := [0x80 .| as_u8 (frame_type .<< 4) .| packet_type] ++ hvc1 in
  let out := if negb (composition_time_ms =? 0) then out ++ signed_be24 composition_time_ms else out in
  h265_annexb_to_length_prefixed_into payload out.
End walk.

Record HevcProfileTierLevel := mk_HevcProfileTierLevel {
  ptl_profile_space : Z;
  ptl_tier_flag : bool;
  ptl_profile_idc : Z;
  ptl_profile_compatibility_flags : Z;
  ptl_constraint_indicator_flags : Z;
  ptl_level_idc : Z;
  ptl_width : Z;
  ptl_height : Z;
  ptl_max_sub_layers_minus1 : Z;
  ptl_temporal_id_nested : bool;
  ptl_chroma_format_idc : Z;
  ptl_bit_depth_luma_minus8 : Z;
  ptl_bit_depth_chroma_minus8 : Z;
}.

(** The presence flags of the sub-layers. *)
Fixpoint read_present (n : nat) : M BitReader (list (bool * bool)) :=
  match n with
  | O => mret []
  | S n' =>
      profile_present ← read_bits 1;
      level_present ← read_bits 1;
      rest ← read_present n';
      mret ((profile_present =? 1, level_present =? 1) :: rest)
  end.

Fixpoint skip_sub_layers (present : list (bool * bool)) : M BitReader unit :=
  match present with
  | [] => mret tt
  | (profile_present, level_present) :: present' =>
      _ ← (if (profile_present : bool) then
             _ ← read_bits 2; _ ← read_bits 1; _ ← read_bits 5; _ ← read_bits 32;
             _ ← read_bits 1; _ ← read_bits 1; _ ← read_bits 1; _ ← read_bits 1;
             skip 44
           else mret tt);
      _ ← (if (level_present : bool) then _ ← read_bits 8; mret tt else mret tt);
      skip_sub_layers present'
  end.

Definition skip_hevc_sub_layer_profile_tier_level (max_sub_layers_minus1 : Z) : M BitReader unit :=
  let sub_layers := Z.to_nat max_sub_layers_minus1 in
  present ← read_present (Nat.min sub_layers 7);
  _ ← (if (0 <? sub_layers)%nat then repeat_M (8 - sub_layers) (read_bits 2) else mret tt);
  skip_sub_layers present.

Definition read_u8 (n : Z) : M BitReader Z := v ← read_bits n; lift (checked_u 8 v).
Definition read_ue_u8 : M BitReader Z := v ← read_ue; lift (checked_u 8 v).

Definition parse_hevc_ptl_body : M BitReader HevcProfileTierLevel :=
  _sps_video_parameter_set_id ← read_bits 4;
  max_sub_layers_minus1 ← read_u8 3;
  temporal_id_nested ← read_bits 1;
  profile_space ← read_u8 2;
  tier_flag ← read_bits 1;
  profile_idc ← read_u8 5;
  profile_compatibility_flags ← read_bits 32;
  constraint_high ← read_bits 16;
  constraint_low ← read_bits 32;
  let constraint_indicator_flags := as_u64 (constraint_high .<< 32) .| constraint_low in
  level_idc ← read_u8 8;
  _ ← skip_hevc_sub_layer_profile_tier_level max_sub_layers_minus1;
  _sps_seq_parameter_set_id ← read_ue;
  chroma_format_idc ← read_ue_u8;
  if 3 <? chroma_format_idc then fail
  else
    _ ← (if chroma_format_idc =? 3 then _ ← read_bits 1; mret tt else mret tt);
    pic_width ← read_ue;
    pic_height ← read_ue;
    window ← read_bits 1;
    '(crop_x, crop_y) ←
      (if window =? 1 then
         left ← read_ue; right ← read_ue; top ← read_ue; bottom ← read_ue;
         mret (sat_u 32 (left + right), sat_u 32 (top + bottom))
       else mret (0, 0));
    let sub_width := if (chroma_format_idc =? 1) || (chroma_format_idc =? 2) then 2 else 1 in
    let sub_height := if chroma_format_idc =? 1 then 2 else 1 in
    let width := sat_u 32 (pic_width - sat_u 32 (crop_x * sub_width)) in
    let height := sat_u 32 (pic_height - sat_u 32 (crop_y * sub_height)) in
    bit_depth_luma_minus8 ← read_ue_u8;
    bit_depth_chroma_minus8 ← read_ue_u8;
    if (7 <? bit_depth_luma_minus8) || (7 <? bit_depth_chroma_minus8) then fail
    else
      mret (mk_HevcProfileTierLevel profile_space (tier_flag =? 1) profile_idc
              profile_compatibility_flags constraint_indicator_flags level_idc width height
              max_sub_layers_minus1 (temporal_id_nested =? 1) chroma_format_idc
              bit_depth_luma_minus8 bit_depth_chroma_minus8).

Definition parse_hevc_profile_tier_level (sps : bytes) : option HevcProfileTierLevel :=
  payload ← get_from 2 sps;
  match payload with
  | [] => None
  | _ => (parse_hevc_ptl_body (BitReader_new (rbsp payload))).1
  end.

(** [push_array] *)
Definition push_array (nal_type : Z) (nalu : bytes) (out : bytes) : option bytes :=
  len ← checked_u 16 (zlen nalu);
  Some (((out ++ [0x80 .| nal_type] ++ to_be_bytes 2 1) ++ to_be_bytes 2 len) ++ nalu).

(** The 23 bytes in front of the arrays. *)
Definition hvcc_header (profile : HevcProfileTierLevel) : bytes :=
  [1; as_u8 (ptl_profile_space profile .<< 6) .| as_u8 (Z.b2z (ptl_tier_flag profile) .<< 5)
        .| ptl_profile_idc profile]
  ++ to_be_bytes 4 (ptl_profile_compatibility_flags profile)
  ++ drop 2 (to_be_bytes 8 (ptl_constraint_indicator_flags profile))
  ++ [ptl_level_idc profile]
  ++ [0xF0; 0x00; 0xFC]
  ++ [0xFC .| (ptl_chroma_format_idc profile .& 0x03);
      0xF8 .| (ptl_bit_depth_luma_minus8 profile .& 0x07);
      0xF8 .| (ptl_bit_depth_chroma_minus8 profile .& 0x07)]
  ++ [0x00; 0x00]
  ++ [as_u8 (Z.min (sat_u 8 (ptl_max_sub_layers_minus1 profile + 1)) 7 .<< 3)
        .| as_u8 (Z.b2z (ptl_temporal_id_nested profile) .<< 2) .| 3]
  ++ [3].

Section records.
Context `{Memmem}.

Definition first_of_type (nalus : list bytes) (expected : Z) : option bytes :=
  List.find (fun n => bool_decide (h265_nal_type n = Some expected)) nalus.

Definition build_hvcc_record (annexb_data : bytes) : option bytes :=
  let nalus := split_annexb_nalus annexb_data in
  vps ← first_of_type nalus 32;
  sps ← first_of_type nalus 33;
  pps ← first_of_type nalus 34;
  profile ← parse_hevc_profile_tier_level sps;
  hvcc ← push_array 32 vps (hvcc_header profile);
  hvcc ← push_array 33 sps hvcc;
  push_array 34 pps hvcc.

Definition build_hevc_enhanced_rtmp_sequence_header (annexb_data : bytes) : option bytes :=
  hvcc ← build_hvcc_record annexb_data;
  Some ([0x80] ++ hvc1 ++ hvcc).
End records.

(** ** Lemmas *)

(** What the length-prefixed form keeps of an H.265 access unit. *)
Definition kept265 (nalu : bytes) : Prop :=
  match h265_nal_type nalu with Some t => ~ 32 <= t <= 35 | None => False end.
#[export] Instance kept265_dec nalu : Decision (kept265 nalu).
Proof. unfold kept265. destruct (h265_nal_type nalu); apply _. Defined.
Definition is_vcl265 (nalu : bytes) : bool :=
  match h265_nal_type nalu with Some t => t <=? 31 | None => false end.

Section walk_lemmas.
Context `{Memmem}.

Lemma h265_length_prefixed_fold d out :
  zlen d <= 2 ^ 32 ->
  h265_annexb_to_length_prefixed_into d out =
    (existsb is_vcl265 (filter kept265 (split_annexb_nalus d)),
     out ++ flat_map (len_prefixed 4) (filter kept265 (split_annexb_nalus d))).
Proof.
  intros Hd. unfold h265_annexb_to_length_prefixed_into. rewrite for_each_split.
  assert (Forall (fun n => in_u 32 (zlen n)) (split_annexb_nalus d)) as Hall.
  { apply Forall_forall. intros n Hn. apply split_elem in Hn as [? ?].
    unfold in_u, zlen in *. lia. }
  change (existsb is_vcl265 ?l) with (false || existsb is_vcl265 l).
  generalize false as vcl. revert out.
  induction Hall as [|n ns Hlen Hns IH]; intros out vcl; cbn [visit_all].
  - cbn. by rewrite orb_false_r, app_nil_r.
  - rewrite filter_cons. destruct (h265_nal_type n) as [t|] eqn:Et.
    + destruct ((32 <=? t) && (t <=? 35)) eqn:E.
      * bool_to_prop. rewrite decide_False by (unfold kept265; rewrite Et; lia). apply IH.
      * rewrite decide_True by
          (unfold kept265; rewrite Et; apply andb_false_iff in E as [E|E]; bool_to_prop; lia).
        rewrite checked_u_Some, IH by done. cbn [existsb flat_map]. unfold is_vcl265 at 2. rewrite Et.
        unfold len_prefixed. app_norm. apply (f_equal2 pair); [|done]. by destruct (t <=? 31), vcl.
    + rewrite decide_False by (unfold kept265; rewrite Et; tauto). apply IH.
Qed.

Lemma kept265_fits d nalus :
  nalus = filter kept265 (split_annexb_nalus d) -> zlen d <= 2 ^ 32 -> Forall (fits 4) nalus.
Proof.
  intros -> Hd. apply Forall_forall. intros n Hn. apply list_elem_of_filter in Hn as [_ Hn].
  apply split_elem in Hn as [Hne Hlen]. split; [done|]. unfold zlen in *. cbn. lia.
Qed.

End walk_lemmas.

(** Reading back a 24-bit composition time. *)
Lemma sign_bit v :
  -8388608 <= v <= 8388607 ->
  negb (as_u8 (as_u32 v .>> 16) .& 0x80 =? 0) = (v <? 0).
Proof.
  intros Hv. rewrite (land_pow2_testbit _ 7), wrapu_testbit, Z.shiftr_spec by lia. cbn [Z.ltb Z.compare Pos.compare Pos.compare_cont andb].
  change (7 + 16) with 23. unfold wrapu. rewrite Z.mod_pow2_bits_low by lia.
  destruct (Z.ltb_spec v 0).
  - apply Z.testbit_true; [lia|]. Z.div_mod_to_equations. lia.
  - apply testbit_above with 23; lia.
Qed.

Lemma be_value_4 a b c d :
  is_u8 b -> is_u8 c -> is_u8 d ->
  be_value [a; b; c; d] = a * 2 ^ 24 + b * 2 ^ 16 + c * 2 ^ 8 + d.
Proof.
  unfold in_u. intros Hb Hc Hd. unfold be_value. cbn [fold_left].
  rewrite Z.shiftl_0_l, Z.lor_0_l. rewrite !lor_shiftl_add by lia. lia.
Qed.

Lemma signed_be24_read ct :
  exists high mid low, signed_be24 ct = [high; mid; low] /\
    as_i32 (be_value [if negb (high .& 0x80 =? 0) then 0xFF else 0x00; high; mid; low])
    = Z.max (-8388608) (Z.min ct 8388607).
Proof.
  unfold signed_be24. set (v := Z.max _ _). assert (Hv : -8388608 <= v <= 8388607) by lia.
  clearbody v. cbn [to_be_bytes drop]. do 3 eexists. split; [reflexivity|].
  change (8 * Z.of_nat 2) with 16. rewrite sign_bit by done.
  rewrite be_value_4 by (apply wrapu_range; lia).
  change (8 * Z.of_nat 1) with 8. change (8 * Z.of_nat 0) with 0.
  unfold wraps, wrapu. rewrite !Z.shiftr_div_pow2 by lia.
  destruct (Z.ltb_spec v 0); Z.div_mod_to_equations; lia.
Qed.

(** *** The parsed fields fit the record *)

Definition ptl_ok (p : HevcProfileTierLevel) : Prop :=
  in_u 2 (ptl_profile_space p) /\ in_u 5 (ptl_profile_idc p) /\
  in_u 32 (ptl_profile_compatibility_flags p) /\ in_u 48 (ptl_constraint_indicator_flags p) /\
  in_u 8 (ptl_level_idc p) /\ in_u 3 (ptl_max_sub_layers_minus1 p) /\
  0 <= ptl_chroma_format_idc p <= 3 /\ 0 <= ptl_bit_depth_luma_minus8 p <= 7 /\
  0 <= ptl_bit_depth_chroma_minus8 p <= 7 /\ in_u 32 (ptl_width p) /\ in_u 32 (ptl_height p).

Lemma sat_u_range w x : 0 <= w -> in_u w (sat_u w x).
Proof. intros Hw. pose proof (Z.pow_pos_nonneg 2 w). unfold in_u, sat_u. lia. Qed.

Lemma returns_u8 n : 0 <= n -> returns (read_u8 n) (in_u n).
Proof.
  intros Hn. unfold read_u8. rstep. eapply consumes_weaken; [apply returns_lift|].
  intros bs b Hb. cbn in Hb. by apply checked_u_inv in Hb as [-> _].
Qed.

Lemma returns_ue_u8 : returns read_ue_u8 (in_u 8).
Proof.
  unfold read_ue_u8. rstep. eapply consumes_weaken; [apply returns_lift|].
  intros bs b Hb. cbn in Hb. by apply checked_u_inv in Hb as [-> ?].
Qed.
#[export] Hint Resolve returns_ue_u8 : returns.
#[export] Hint Extern 1 (returns (read_u8 _) _) => apply returns_u8; lia : returns.

Lemma returns_sub_layers n : returns (skip_hevc_sub_layer_profile_tier_level n) (fun _ => True).
Proof.
  unfold skip_hevc_sub_layer_profile_tier_level.
  eapply returns_bind with (fun _ => True).
  { induction (Nat.min (Z.to_nat n) 7) as [|m IH]; cbn [read_present]; [by apply returns_ret|].
    do 2 rstep. eapply returns_bind; [exact IH|]. intros. by apply returns_ret. }
  intros present _. eapply returns_bind with (fun _ => True).
  { case_if; [|by apply returns_ret]. eapply returns_repeat, returns_bits. lia. }
  intros _ _. induction present as [|[p l] present IH]; cbn [skip_sub_layers]; [by apply returns_ret|].
  eapply returns_bind with (fun _ => True).
  { case_if; [|by apply returns_ret]. do 8 rstep. apply returns_skip. }
  intros _ _. eapply returns_bind with (fun _ => True); [|done].
  case_if; [|by apply returns_ret]. rstep. by apply returns_ret.
Qed.
#[export] Hint Resolve returns_sub_layers : returns.

Lemma returns_ptl : returns parse_hevc_ptl_body ptl_ok.
Proof.
  unfold parse_hevc_ptl_body. do 12 rstep. do 1 rstep.
  case_if; [apply returns_fail|].
  eapply returns_bind with (fun _ => True).
  { case_if; [rstep|]; by apply returns_ret. }
  intros _ _. do 3 rstep.
  eapply returns_bind with (fun _ => True).
  { case_if; [do 4 rstep|]; by apply returns_ret. }
  intros [cx cy] _. do 2 rstep. case_if; [apply returns_fail|]. bool_to_prop.
  apply returns_ret. unfold ptl_ok. cbn.
  assert (in_u 48 (as_u64 (a6 .<< 32) .| a7)) by bitrange.
  unfold in_u in *. split_and!; try lia; try (apply sat_u_range; lia).
Qed.

Lemma parse_hevc_ptl_ok sps p :
  bytes_ok sps -> parse_hevc_profile_tier_level sps = Some p -> ptl_ok p.
Proof.
  intros Hok. unfold parse_hevc_profile_tier_level, get_from. case_if; [|done]. cbn [mbind option_bind].
  destruct (drop 2 sps) as [|b payload] eqn:Ed; [done|]. rewrite <- Ed.
  destruct (parse_hevc_ptl_body _) as [o r'] eqn:E'. cbn. intros ->.
  apply (returns_ptl _ p r') in E' as (_ & _ & _ & Hp); [done|].
  apply reader_new_ok, rbsp_ok, bytes_ok_drop, Hok.
Qed.

(** *** The record read back *)

Lemma length_hvcc_header p : length (hvcc_header p) = 23%nat.
Proof. reflexivity. Qed.

Lemma push_array_Some t nalu out out' :
  push_array t nalu out = Some out' ->
  zlen nalu < 2 ^ 16 /\ out' = out ++ [0x80 .| t; 0; 1] ++ u16_prefixed nalu.
Proof.
  unfold push_array. destruct (checked_u 16 (zlen nalu)) as [len|] eqn:E; [|done].
  apply checked_u_inv in E as [-> Hl]. cbn [mbind option_bind]. intros [= <-].
  split; [unfold in_u in Hl; lia|]. unfold u16_prefixed. rewrite (wrapu_id 16) by done. by app_norm.
Qed.

Lemma push_array_None t nalu out : push_array t nalu out = None -> 65535 < zlen nalu.
Proof.
  unfold push_array. destruct (checked_u 16 (zlen nalu)) eqn:E; [done|]. intros _.
  apply checked_u_None in E. unfold in_u, zlen in *. lia.
Qed.

Lemma hvcc_arrays_one n t nalu rest p :
  zlen nalu < 2 ^ 16 ->
  hvcc_arrays (S n) p ([0x80 .| t; 0; 1] ++ u16_prefixed nalu ++ rest)
  = hvcc_arrays n (hvcc_push (0x80 .| t) nalu p) rest.
Proof.
  intros Hl. cbn [hvcc_arrays]. unfold mbind at 1, M_bind at 1, take_chunk.
  rewrite split_at_checked_app by done.
  change (be_value [0; 1]) with 1. change (Z.to_nat 1) with 1%nat. cbn [hvcc_nalus].
  unfold mbind, M_bind. rewrite take_u16_prefixed_ok by done. done.
Qed.

Definition hvcc_fields_ok (p : HevcProfileTierLevel) (record : bytes) : Prop :=
  exists b1 b12 b16 b17 b18 b21,
    record !! 1%nat = Some b1 /\ b1 .>> 6 = ptl_profile_space p /\
    Z.testbit b1 5 = ptl_tier_flag p /\ b1 .& 0x1F = ptl_profile_idc p /\
    be_value (take 4 (drop 2 record)) = ptl_profile_compatibility_flags p /\
    be_value (take 6 (drop 6 record)) = ptl_constraint_indicator_flags p /\
    record !! 12%nat = Some b12 /\ b12 = ptl_level_idc p /\
    record !! 16%nat = Some b16 /\ b16 .& 0x03 = ptl_chroma_format_idc p /\
    record !! 17%nat = Some b17 /\ b17 .& 0x07 = ptl_bit_depth_luma_minus8 p /\
    record !! 18%nat = Some b18 /\ b18 .& 0x07 = ptl_bit_depth_chroma_minus8 p /\
    record !! 21%nat = Some b21 /\ (b21 .>> 3) .& 0x07 = Z.min (ptl_max_sub_layers_minus1 p + 1) 7.

Lemma hvcc_header_fields p rest : ptl_ok p -> hvcc_fields_ok p (hvcc_header p ++ rest).
Proof.
  intros (H1 & H2 & H3 & H4 & H5 & H6 & H7 & H8 & H9 & _).
  assert (in_u 2 (ptl_chroma_format_idc p)) by (unfold in_u; lia).
  assert (in_u 3 (ptl_bit_depth_luma_minus8 p)) by (unfold in_u; lia).
  assert (in_u 3 (ptl_bit_depth_chroma_minus8 p)) by (unfold in_u; lia).
  assert (in_u 1 (Z.b2z (ptl_tier_flag p))) by (destruct (ptl_tier_flag p); done).
  assert (in_u 1 (Z.b2z (ptl_temporal_id_nested p))) by (destruct (ptl_temporal_id_nested p); done).
  exists (as_u8 (ptl_profile_space p .<< 6) .| as_u8 (Z.b2z (ptl_tier_flag p) .<< 5) .| ptl_profile_idc p),
    (ptl_level_idc p), (0xFC .| (ptl_chroma_format_idc p .& 0x03)),
    (0xF8 .| (ptl_bit_depth_luma_minus8 p .& 0x07)), (0xF8 .| (ptl_bit_depth_chroma_minus8 p .& 0x07)),
    (as_u8 (Z.min (sat_u 8 (ptl_max_sub_layers_minus1 p + 1)) 7 .<< 3)
        .| as_u8 (Z.b2z (ptl_temporal_id_nested p) .<< 2) .| 3).
  split_and!; try reflexivity; try bitblast.
  - rewrite !Z.lor_spec, !wrapu_testbit, !Z.shiftl_spec by lia.
    rewrite (testbit_above (ptl_profile_idc p) 5 5) by (unfold in_u in *; lia).
    cbn -[Z.testbit]. rewrite Z.testbit_neg_r by lia. by destruct (ptl_tier_flag p).
  - change (take 4 (drop 2 _)) with (to_be_bytes 4 (ptl_profile_compatibility_flags p)).
    by apply be_value_to_be_bytes_id.
  - change (take 6 (drop 6 _)) with (to_be_bytes 6 (ptl_constraint_indicator_flags p)).
    by apply be_value_to_be_bytes_id.
  - assert (sat_u 8 (ptl_max_sub_layers_minus1 p + 1) = ptl_max_sub_layers_minus1 p + 1) as ->
      by (unfold sat_u, in_u in *; lia).
    set (n := Z.min _ _). assert (in_u 3 n) by (unfold in_u in *; lia). bitblast.
Qed.


Lemma first_of_type_elem nalus t n : first_of_type nalus t = Some n -> n ∈ nalus.
Proof. intros Hn. apply find_some in Hn as [Hin _]. by apply list_elem_of_In. Qed.

Section record_lemmas.
Context `{Memmem}.

Lemma split_bytes_ok d n : bytes_ok d -> n ∈ split_annexb_nalus d -> bytes_ok n.
Proof.
  destruct (annexb_decompose d) as [Hf|(pre & us & l & -> & Hp & Hus & Hl)].
  - rewrite split_code_free by done. intros _ Hn. by apply not_elem_of_nil in Hn.
  - rewrite split_stream by done. intros Hok Hn. apply keep_nonempty_spec in Hn as [_ Hin].
    apply list_elem_of_fmap in Hin as (u & -> & Hu). apply bytes_ok_app in Hok as [_ Hok].
    revert Hok Hu. generalize (us ++ [l]). intros vs.
    induction vs as [|v vs IH]; intros Hok Hu; [by apply not_elem_of_nil in Hu|].
    cbn [annexb_stream flat_map] in Hok. apply bytes_ok_app in Hok as [Hv Hvs].
    apply elem_of_cons in Hu as [->|Hu]; [|by apply IH].
    unfold annexb_unit in Hv. apply bytes_ok_app in Hv as [_ Hv]. by apply Forall_cons in Hv as [_ Hv].
Qed.
End record_lemmas.

(** ** Properties *)

(** Enhanced RTMP round trip: the tag written for any H.265 access unit reads back
    as an [hvc1] tag with the same keyframe flag, a composition time equal to the
    given one clamped to 24 bits (coded frames, or coded frames X for zero), and a
    body that is, length by length, the NAL units other than VPS, SPS, PPS and AUD;
    the result says whether a slice is among them. *)
Theorem hevc_enhanced_rtmp_roundtrip `{Memmem} payload is_keyframe ct :
  zlen payload <= 2 ^ 32 -> in_i 32 ct ->
  let nalus := filter kept265 (split_annexb_nalus payload) in
  exists out au,
    hevc_video_for_enhanced_rtmp_with_composition_into payload is_keyframe ct
      = (existsb is_vcl265 nalus, out) /\
    ex_video_tag out = Some (mk_ExVideoTag hvc1
      (if ct =? 0 then EX_CODED_FRAMES_X else EX_CODED_FRAMES) is_keyframe
      (Z.max (-8388608) (Z.min ct 8388607)) au) /\
    for_each_length_prefixed (fun n ns => ns ++ [n]) 4 au [] = (true, nalus).
Proof.
  intros Hd Hct nalus. pose proof (kept265_fits payload nalus eq_refl Hd) as Hall.
  pose proof (length_prefixed_nalus 4 nalus Hall) as Hlen.
  unfold hevc_video_for_enhanced_rtmp_with_composition_into.
  rewrite h265_length_prefixed_fold by done. fold nalus.
  exists ((if negb (ct =? 0)
           then ([0x80 .| as_u8 ((if is_keyframe then 1 else 2) .<< 4) .| (if ct =? 0 then 3 else 1)]
                 ++ hvc1) ++ signed_be24 ct
           else [0x80 .| as_u8 ((if is_keyframe then 1 else 2) .<< 4) .| (if ct =? 0 then 3 else 1)]
                ++ hvc1) ++ flat_map (len_prefixed 4) nalus).
  exists (flat_map (len_prefixed 4) nalus). split_and!; [done| |].
  - destruct (Z.eqb_spec ct 0) as [->|Hnz]; cbn [negb].
    + unfold ex_video_tag. rewrite split_at_checked_app by done. by destruct is_keyframe.
    + unfold ex_video_tag. rewrite <- app_assoc, split_at_checked_app by done.
      destruct (signed_be24_read ct) as (high & mid & low & E & Hread). rewrite E.
      destruct is_keyframe; cbn -[as_i32 be_value split_at_checked app];
        rewrite split_at_checked_app by done; cbn -[as_i32 be_value Z.land];
        by rewrite Hread.
  - unfold for_each_length_prefixed. cbn -[for_each_length_prefixed_loop].
    rewrite for_each_length_prefixed_loop_ok by (done || lia). f_equal.
    apply (fold_left_push nalus []).
Qed.

Lemma hevc_enhanced_rtmp_roundtrip_witness :
  exists out au,
    @hevc_video_for_enhanced_rtmp_with_composition_into naive_memmem
       [0; 0; 1; 0x40; 1; 7; 0; 0; 1; 0x26; 1; 9] true (-33) = (true, out) /\
    ex_video_tag out = Some (mk_ExVideoTag hvc1 1 true (-33) au) /\
    for_each_length_prefixed (fun n ns => ns ++ [n]) 4 au [] = (true, [[0x26; 1; 9]]).
Proof.
  apply (@hevc_enhanced_rtmp_roundtrip naive_memmem
           [0; 0; 1; 0x40; 1; 7; 0; 0; 1; 0x26; 1; 9] true (-33)).
  - vm_compute. discriminate.
  - unfold in_i. lia.
Defined.

(** The HEVC configuration record round trip: building it from any payload fails
    exactly when a VPS, SPS or PPS is missing or over 65,535 bytes or the SPS does
    not parse; otherwise the record reads back as the payload's first VPS, SPS and
    PPS with four-byte lengths, its general profile space, tier, profile, compatibility
    and constraint flags, level, chroma format, bit depths and layer count are those
    parsed from the SPS, and the sequence header is the record behind an [hvc1] tag. *)
Theorem build_hvcc_record_spec `{Memmem} d :
  bytes_ok d ->
  let first := first_of_type (split_annexb_nalus d) in
  match build_hvcc_record d with
  | Some record =>
      exists vps sps pps p, first 32 = Some vps /\ first 33 = Some sps /\ first 34 = Some pps /\
        hvcc_record record = Some (mk_HvccRecord 3 [vps] [sps] [pps]) /\
        parse_hevc_profile_tier_level sps = Some p /\ hvcc_fields_ok p record /\
        (tag ← (header ← build_hevc_enhanced_rtmp_sequence_header d; ex_video_tag header);
         Some (ex_packet_type tag, ex_body tag)) = Some (EX_SEQUENCE_START, record)
  | None =>
      first 32 = None \/ first 34 = None \/ (sps ← first 33; parse_hevc_profile_tier_level sps) = None \/
      exists t n, first t = Some n /\ 65535 < zlen n
  end.
Proof.
  intros Hok first. unfold build_hevc_enhanced_rtmp_sequence_header, build_hvcc_record.
  fold first. destruct (first 32) as [vps|] eqn:Ev; cbn [mbind option_bind]; [|by left].
  destruct (first 33) as [sps|] eqn:Es; cbn [mbind option_bind]; [|by do 2 right; left].
  destruct (first 34) as [pps|] eqn:Ep; cbn [mbind option_bind]; [|by right; left].
  destruct (parse_hevc_profile_tier_level sps) as [p|] eqn:Ept; cbn [mbind option_bind];
    [|by do 2 right; left].
  destruct (push_array 32 vps _) as [h1|] eqn:E1; cbn [mbind option_bind].
  2: { do 3 right. apply push_array_None in E1. eauto. }
  destruct (push_array 33 sps _) as [h2|] eqn:E2; cbn [mbind option_bind].
  2: { do 3 right. apply push_array_None in E2. eauto. }
  destruct (push_array 34 pps _) as [h3|] eqn:E3; cbn [mbind option_bind].
  2: { do 3 right. apply push_array_None in E3. eauto. }
  apply push_array_Some in E1 as [L1 ->], E2 as [L2 ->], E3 as [L3 ->].
  exists vps, sps, pps, p. split_and!; try done.
  - unfold hvcc_record. app_norm.
    rewrite split_at_checked_app by apply length_hvcc_header. cbn [mbind option_bind].
    change (hvcc_header p !! 22%nat) with (Some 3).
    change (hvcc_header p !! 21%nat) with
      (Some (as_u8 (Z.min (sat_u 8 (ptl_max_sub_layers_minus1 p + 1)) 7 .<< 3)
        .| as_u8 (Z.b2z (ptl_temporal_id_nested p) .<< 2) .| 3)). cbn [mbind option_bind].
    change (Z.to_nat 3) with 3%nat.
    change ((0x80 .| 32) :: 0 :: 1 :: ?l) with ([0x80 .| 32; 0; 1] ++ l).
    rewrite hvcc_arrays_one by done.
    change ((0x80 .| 33) :: 0 :: 1 :: ?l) with ([0x80 .| 33; 0; 1] ++ l).
    rewrite hvcc_arrays_one by done.
    change ((0x80 .| 34) :: 0 :: 1 :: ?l) with ([0x80 .| 34; 0; 1] ++ l).
    rewrite <- (app_nil_r (u16_prefixed pps)), hvcc_arrays_one by done.
    cbn [hvcc_arrays mret M_ret fst]. f_equal.
    transitivity (mk_HvccRecord ((as_u8 (Z.min (sat_u 8 (ptl_max_sub_layers_minus1 p + 1)) 7 .<< 3)
      .| as_u8 (Z.b2z (ptl_temporal_id_nested p) .<< 2) .| 3) .& 3) [vps] [sps] [pps]); [done|f_equal].
    set (n := Z.min (sat_u 8 _) 7). assert (in_u 3 n) by (subst n; unfold in_u, sat_u; lia).
    assert (in_u 1 (Z.b2z (ptl_temporal_id_nested p))) by (destruct (ptl_temporal_id_nested p); done).
    bitblast.
  - app_norm. apply hvcc_header_fields, (parse_hevc_ptl_ok sps); [|done].
    apply (split_bytes_ok d); [done|]. by eapply first_of_type_elem.
Qed.

Lemma build_hvcc_record_spec_witness :
  let d := [0; 0; 1; 0x40; 1; 7; 0; 0; 1; 0x42; 1; 1; 1; 0x60; 0; 0; 3; 0; 0x80; 0; 0; 3; 0; 0; 3; 0;
            0x5D; 0xA0; 2; 0x80; 0x80; 0x2D; 0x16; 0x59; 0x59; 0xA4; 0x93; 0x2B; 0x90; 0; 0; 1; 0x44; 1; 9] in
  match @build_hvcc_record naive_memmem d with
  | Some record => exists vps sps pps,
      hvcc_record record = Some (mk_HvccRecord 3 [vps] [sps] [pps]) /\ length sps = 30%nat
  | None => False
  end.
Proof.
  set (d := [0; 0; 1; 0x40; 1; 7; 0; 0; 1; 0x42; 1; 1; 1; 0x60; 0; 0; 3; 0; 0x80; 0; 0; 3; 0; 0; 3; 0;
            0x5D; 0xA0; 2; 0x80; 0x80; 0x2D; 0x16; 0x59; 0x59; 0xA4; 0x93; 0x2B; 0x90; 0; 0; 1; 0x44; 1; 9]).
  assert (Hok : bytes_ok d).
  { apply Forall_forall. intros b Hb. apply list_elem_of_In in Hb.
    assert (forallb (fun b => (0 <=? b) && (b <? 256)) d = true) as Hall by by vm_compute.
    rewrite forallb_forall in Hall. specialize (Hall _ Hb). unfold in_u. lia. }
  pose proof (@build_hvcc_record_spec naive_memmem d Hok) as Hs. cbn zeta in *.
  destruct (@build_hvcc_record naive_memmem d) as [r|] eqn:E; [|by vm_compute in E].
  destruct Hs as (vps & sps & pps & p & _ & Hsps & _ & Hr & _). exists vps, sps, pps.
  split; [done|]. vm_compute in Hsps. by injection Hsps as <-.
Defined.
