(* ===== verification/Media.v ===== *)
(** * Core media vocabulary

    Models the types of [crates/restream-core/src/lib.rs] and the codec descriptor
    of [crates/restream-core/src/codec.rs]: media types, payload formats, the
    packet envelope and the unit word the ring stores beside each packet. *)

From S2P Require Import Prelude Bitblast.

(** ** Definitions *)

Inductive MediaType := Video | Audio.
#[global] Instance MediaType_eq_dec : EqDecision MediaType.
Proof. solve_decision. Defined.

Inductive PayloadFormat := Flv | Raw.
#[global] Instance PayloadFormat_eq_dec : EqDecision PayloadFormat.
Proof. solve_decision. Defined.

Definition CONFIG_TRACKS_PER_TYPE : nat := 4.
Definition CONFIG_HISTORY : nat := 4.

Definition PRESENT : Z := 1 .<< 63.
Definition TAG_MASK : Z := (1 .<< 31) - 1.

Definition unit_tag (sequence : Z) : Z := as_u64 sequence .& TAG_MASK.

Record FrameUnit := mk_FrameUnit { config_generation : Z }.

Definition FrameUnit_pack (u : FrameUnit) (sequence : Z) : Z :=
  PRESENT .| as_u64 (unit_tag sequence .<< 32) .| config_generation u.

Definition FrameUnit_unpack (raw sequence : Z) : option FrameUnit :=
  if negb (raw .& PRESENT =? 0) && ((raw .>> 32) .& TAG_MASK =? unit_tag sequence)
  then Some (mk_FrameUnit (as_u32 raw)) else None.

Record TrackConfig := mk_TrackConfig { generation : Z; config_bytes : bytes }.

Record MediaPacket := mk_MediaPacket {
  media_type : MediaType;
  format : PayloadFormat;
  is_keyframe : bool;
  track_index : Z;
  pts : Z;
  dts : Z;
  payload : bytes;
}.

Definition is_video_keyframe (p : MediaPacket) : bool :=
  bool_decide (media_type p = Video) && is_keyframe p.

Definition is_video_interframe (p : MediaPacket) : bool :=
  if negb (bool_decide (media_type p = Video)) || is_keyframe p then false
  else match format p with
       | Flv =>
           match payload p with
           | tag :: _ => let t := (tag .>> 4) .& 0x07 in (t =? 2) || (t =? 3)
           | [] => false
           end
       | Raw => true
       end.

Inductive VideoCodecKind := CodecH264 | CodecHevc | CodecUnknown.

(** [str::eq_ignore_ascii_case] *)
Definition to_ascii_lowercase (c : Ascii.ascii) : Ascii.ascii :=
  let n := Ascii.nat_of_ascii c in
  if (65 <=? n)%nat && (n <=? 90)%nat then Ascii.ascii_of_nat (n + 32) else c.
Fixpoint string_lowercase (s : string) : string :=
  match s with
  | EmptyString => EmptyString
  | String c s' => String (to_ascii_lowercase c) (string_lowercase s')
  end.
Definition eq_ignore_ascii_case (a b : string) : bool :=
  bool_decide (string_lowercase a = string_lowercase b).

Definition from_codec_name (codec : string) : VideoCodecKind :=
  if eq_ignore_ascii_case codec "h264" || eq_ignore_ascii_case codec "avc" then CodecH264
  else if eq_ignore_ascii_case codec "h265" || eq_ignore_ascii_case codec "hevc" then CodecHevc
  else CodecUnknown.

Definition is_hevc (k : VideoCodecKind) : bool :=
  match k with CodecHevc => true | _ => false end.

Definition as_stage_codec (k : VideoCodecKind) : option string :=
  match k with
  | CodecH264 => Some "h264"%string
  | CodecHevc => Some "hevc"%string
  | CodecUnknown => None
  end.

(** The bytes of a string. *)
Fixpoint string_bytes (s : string) : bytes :=
  match s with
  | EmptyString => []
  | String c s' => Z.of_nat (Ascii.nat_of_ascii c) :: string_bytes s'
  end.

(** ** Lemmas *)

Lemma string_bytes_ok s : bytes_ok (string_bytes s).
Proof.
  induction s as [|c s IH]; cbn [string_bytes]; constructor; [|done].
  pose proof (Ascii.nat_ascii_bounded c). unfold in_u. lia.
Qed.

Lemma unit_tag_mod sequence : unit_tag sequence = sequence mod 2 ^ 31.
Proof.
  unfold unit_tag. change TAG_MASK with (2 ^ 31 - 1). rewrite land_ones_mod by lia. unfold wrapu.
  apply Z.mod_mod_divide. by exists (2 ^ 33).
Qed.

Lemma unit_tag_range sequence : in_u 31 (unit_tag sequence).
Proof. rewrite unit_tag_mod. by apply (wrapu_range 31). Qed.

(** The word reads back for exactly the sequences with its tag. *)
Lemma unpack_pack u s s' :
  in_u 32 (config_generation u) ->
  FrameUnit_unpack (FrameUnit_pack u s) s' =
    if s mod 2 ^ 31 =? s' mod 2 ^ 31 then Some u else None.
Proof.
  intros Hg. unfold FrameUnit_unpack, FrameUnit_pack.
  pose proof (unit_tag_range s) as Ht. rewrite <- !unit_tag_mod.
  set (t := unit_tag s) in *. set (g := config_generation u) in *. clearbody t.
  assert (negb ((PRESENT .| as_u64 (t .<< 32) .| g) .& PRESENT =? 0) = true) as ->.
  { apply negb_true_iff, Z.eqb_neq. intros E.
    assert (Hb : (PRESENT .| as_u64 (t .<< 32) .| g) .& PRESENT = PRESENT).
    { unfold PRESENT. change (1 .<< 63) with 0x8000000000000000. bitblast. }
    rewrite Hb in E. done. }
  assert (((PRESENT .| as_u64 (t .<< 32) .| g) .>> 32) .& TAG_MASK = t) as ->.
  { unfold PRESENT, TAG_MASK. change (1 .<< 63) with 0x8000000000000000.
    change ((1 .<< 31) - 1) with 0x7FFFFFFF. bitblast. }
  assert (as_u32 (PRESENT .| as_u64 (t .<< 32) .| g) = g) as ->.
  { unfold PRESENT. change (1 .<< 63) with 0x8000000000000000. bitblast. }
  cbn [andb]. case_if; [|done]. subst g. by destruct u.
Qed.

Lemma unpack_zero s : FrameUnit_unpack 0 s = None.
Proof. done. Qed.
