(* ===== verification/TsWire.v ===== *)
(** * MPEG-TS wire primitives

    Models [crates/restream-mpegts/src/wire.rs]: 33-bit timestamps and the PCR,
    the copy of a PES held as header and payload, clock conversions and the
    table-driven CRC-32/MPEG-2.  An [i64] shift right is arithmetic, as
    [Z.shiftr]; the buffers written in place are returned as byte lists. *)

From S2P Require Import Prelude Bitblast.

(** ** Definitions *)

Definition TS_PACKET_SIZE : nat := 188.
Definition TS_SYNC_BYTE : Z := 0x47.
Definition PAT_PID : Z := 0x0000.
Definition SDT_PID : Z := 0x0011.
Definition PES_START_CODE : bytes := [0x00; 0x00; 0x01].

Definition parse_timestamp (b0 b1 b2 b3 b4 : Z) : Z :=
  (((b0 .>> 1) .& 0x07) .<< 30) .| (b1 .<< 22) .| ((b2 .>> 1) .<< 15) .| (b3 .<< 7) .| (b4 .>> 1).

(** The five bytes written. *)
Definition write_timestamp_buf (ts marker : Z) : bytes :=
  [as_u8 (marker .<< 4) .| as_u8 ((as_u8 (ts .>> 30) .& 0x07) .<< 1) .| 0x01;
   as_u8 ((ts .>> 22) .& 0xFF);
   as_u8 (as_u8 ((ts .>> 15) .& 0x7F) .<< 1) .| 0x01;
   as_u8 ((ts .>> 7) .& 0xFF);
   as_u8 (as_u8 (ts .& 0x7F) .<< 1) .| 0x01].

(** The [len] bytes copied to the start of the destination; [None] is the panic of
    a range outside the slices. *)
Definition copy_pes_slices (hdr payload : bytes) (offset len : nat) : option bytes :=
  let hdr_len := length hdr in
  '(written, from_header) ←
    (if (offset <? hdr_len)%nat then
       let from_hdr := Nat.min (hdr_len - offset) len in
       part ← get_range offset (offset + from_hdr) hdr;
       Some (from_hdr, part)
     else Some (0%nat, []));
  if (written <? len)%nat then
    let payload_offset := (offset - hdr_len)%nat in
    let remaining := (len - written)%nat in
    part ← get_range payload_offset (payload_offset + remaining) payload;
    Some (from_header ++ part)
  else Some from_header.

Definition write_pcr (ts_90k : Z) : bytes :=
  let pcr_base := as_u64 (Z.max ts_90k 0) in
  let pcr_ext := 0 in
  [as_u8 (pcr_base .>> 25);
   as_u8 (pcr_base .>> 17);
   as_u8 (pcr_base .>> 9);
   as_u8 (pcr_base .>> 1);
   as_u8 ((pcr_base .& 1) .<< 7) .| 0x7E .| (as_u8 (pcr_ext .>> 8) .& 0x01);
   as_u8 pcr_ext].

Definition ts_to_ms (ts_90k : Z) : Z := Z.quot ts_90k 90.
Definition ms_to_ts (ms : Z) : Z := as_i64 (ms * 90).

(** One bit of the polynomial division. *)
Definition crc_bit (crc : Z) : Z :=
  if negb (crc .& 0x80000000 =? 0) then as_u32 (crc .<< 1) .^ 0x04C11DB7
  else as_u32 (crc .<< 1).

Definition crc_entry (i : nat) : Z := Nat.iter 8 crc_bit (as_u32 (Z.of_nat i .<< 24)).

Definition CRC32_TABLE : list Z := Eval vm_compute in map crc_entry (seq 0 256).

Definition crc_byte (crc byte : Z) : Z :=
  let idx := Z.to_nat (((crc .>> 24) .^ byte) .& 0xFF) in
  as_u32 (crc .<< 8) .^ nth idx CRC32_TABLE 0.

Definition crc32_mpeg2 (d : bytes) : Z := fold_left crc_byte d 0xFFFFFFFF.

(** ** Lemmas: timestamps *)

Lemma write_timestamp_ok ts marker : in_u 4 marker -> bytes_ok (write_timestamp_buf ts marker).
Proof.
  intros Hm. unfold write_timestamp_buf.
  repeat (apply Forall_cons; split); [..|apply Forall_nil; exact I];
    repeat apply lor_range; try (apply wrapu_range; lia); try (unfold in_u; lia).
Qed.

Lemma parse_write_timestamp ts marker :
  in_u 33 ts -> in_u 4 marker ->
  match write_timestamp_buf ts marker with
  | [b0; b1; b2; b3; b4] => parse_timestamp b0 b1 b2 b3 b4 = ts
  | _ => False
  end.
Proof. intros Ht Hm. unfold write_timestamp_buf, parse_timestamp. bitblast. Qed.

(** A field of the low [w] bits does not see the higher ones. *)
Lemma field_wrapu w x k n :
  0 <= k -> 0 <= n -> k + n <= w -> (wrapu w x .>> k) .& (2 ^ n - 1) = (x .>> k) .& (2 ^ n - 1).
Proof.
  intros Hk Hn Hw. apply Z.bits_inj'. intros i Hi.
  change (2 ^ n - 1) with (Z.pred (2 ^ n)). rewrite <- Z.ones_equiv.
  rewrite !Z.land_spec, !Z.shiftr_spec by lia.
  destruct (Z.ltb_spec i n).
  - rewrite wrapu_testbit by lia. destruct (Z.ltb_spec (i + k) w); [done|lia].
  - rewrite Z.ones_spec_high by lia. by rewrite !andb_false_r.
Qed.

Lemma as_u8_land7 x : as_u8 x .& 0x07 = x .& 0x07.
Proof. rewrite <- (Z.shiftr_0_r (as_u8 x)), <- (Z.shiftr_0_r x) at 1. apply (field_wrapu 8 x 0 3); lia. Qed.

Lemma write_timestamp_wrap ts marker :
  write_timestamp_buf (wrapu 33 ts) marker = write_timestamp_buf ts marker.
Proof.
  unfold write_timestamp_buf. rewrite !as_u8_land7.
  pose proof (field_wrapu 33 ts 30 3 ltac:(lia) ltac:(lia) ltac:(lia)) as E1.
  pose proof (field_wrapu 33 ts 22 8 ltac:(lia) ltac:(lia) ltac:(lia)) as E2.
  pose proof (field_wrapu 33 ts 15 7 ltac:(lia) ltac:(lia) ltac:(lia)) as E3.
  pose proof (field_wrapu 33 ts 7 8 ltac:(lia) ltac:(lia) ltac:(lia)) as E4.
  pose proof (field_wrapu 33 ts 0 7 ltac:(lia) ltac:(lia) ltac:(lia)) as E5.
  rewrite !Z.shiftr_0_r in E5. change (2 ^ 3 - 1) with 0x07 in *. change (2 ^ 8 - 1) with 0xFF in *.
  change (2 ^ 7 - 1) with 0x7F in *. by rewrite E1, E2, E3, E4, E5.
Qed.

Lemma parse_timestamp_range b0 b1 b2 b3 b4 :
  is_u8 b0 -> is_u8 b1 -> is_u8 b2 -> is_u8 b3 -> is_u8 b4 -> in_u 33 (parse_timestamp b0 b1 b2 b3 b4).
Proof. intros. unfold parse_timestamp. bitrange. Qed.

(** The 42-bit PCR read back: base and extension. *)
Definition pcr_value (b : bytes) : Z * Z :=
  match b with
  | [b0; b1; b2; b3; b4; b5] =>
      ((b0 .<< 25) .| (b1 .<< 17) .| (b2 .<< 9) .| (b3 .<< 1) .| (b4 .>> 7),
       ((b4 .& 1) .<< 8) .| b5)
  | _ => (0, 0)
  end.

Lemma pcr_value_write ts : in_i 64 ts -> pcr_value (write_pcr ts) = (wrapu 33 (Z.max ts 0), 0).
Proof.
  intros Ht. unfold write_pcr. rewrite (wrapu_id 64) by (unfold in_u, in_i in *; lia).
  set (x := Z.max ts 0). assert (in_u 64 x) by (unfold in_u, in_i in *; lia). clearbody x.
  unfold pcr_value. f_equal; bitblast.
Qed.

(** *** Copying from a split PES *)

Lemma get_range_ok {A} a n (l : list A) :
  (a + n <= length l)%nat -> get_range a (a + n) l = Some (take n (drop a l)).
Proof.
  intros Hl. unfold get_range.
  destruct (Nat.leb_spec a (a + n)); [|lia]. destruct (Nat.leb_spec (a + n) (length l)); [|lia].
  cbn [andb]. do 2 f_equal. lia.
Qed.

Lemma copy_pes_slices_ok hdr payload offset len :
  (offset + len <= length hdr + length payload)%nat ->
  copy_pes_slices hdr payload offset len = Some (take len (drop offset (hdr ++ payload))).
Proof.
  intros Hl. unfold copy_pes_slices. destruct (Nat.ltb_spec offset (length hdr)).
  - rewrite get_range_ok by lia. cbn [mbind option_bind].
    rewrite drop_app_le by lia.
    destruct (Nat.ltb_spec (Nat.min (length hdr - offset) len) len).
    + rewrite Nat.min_l by lia. rewrite get_range_ok by lia. cbn [mbind option_bind]. f_equal.
      rewrite (take_ge (drop offset hdr)) by (rewrite length_drop; lia).
      rewrite take_app_ge by (rewrite length_drop; lia). rewrite length_drop.
      f_equal. replace (offset - length hdr)%nat with O by lia. done.
    + rewrite Nat.min_r by lia. rewrite take_app_le by (rewrite length_drop; lia). done.
  - cbn [mbind option_bind]. destruct (Nat.ltb_spec 0 len).
    + rewrite Nat.sub_0_r, get_range_ok by lia. cbn [mbind option_bind app].
      by rewrite drop_app_ge by lia.
    + assert (len = O) as -> by lia. done.
Qed.

(** ** Lemmas: the CRC *)

Lemma crc_bit_range x : in_u 32 x -> in_u 32 (crc_bit x).
Proof.
  intros Hx. unfold crc_bit. case_if; [|apply wrapu_range; lia].
  apply lxor_range; [apply wrapu_range; lia|unfold in_u; lia|lia].
Qed.

Lemma as_u32_lxor x y : as_u32 (x .^ y) = as_u32 x .^ as_u32 y.
Proof.
  apply Z.bits_inj'. intros i Hi. rewrite Z.lxor_spec, !wrapu_testbit, Z.lxor_spec by lia.
  by destruct (i <? 32), (Z.testbit x i), (Z.testbit y i).
Qed.

Lemma crc_bit_testbit x : crc_bit x = as_u32 (x .<< 1) .^ (if Z.testbit x 31 then 0x04C11DB7 else 0).
Proof.
  unfold crc_bit. change 0x80000000 with (2 ^ 31).
  assert (negb (x .& 2 ^ 31 =? 0) = Z.testbit x 31) as ->.
  { destruct (Z.testbit x 31) eqn:E.
    - apply negb_true_iff, Z.eqb_neq. intros H0. apply (f_equal (fun z => Z.testbit z 31)) in H0.
      rewrite Z.land_spec, E, Z.pow2_bits_true in H0 by lia. done.
    - apply negb_false_iff, Z.eqb_eq, Z.bits_inj'. intros i Hi.
      rewrite Z.land_spec, Z.bits_0. destruct (decide (i = 31)) as [->|]; [by rewrite E|].
      rewrite Z.pow2_bits_false by lia. by rewrite andb_false_r. }
  destruct (Z.testbit x 31); [done|]. by rewrite Z.lxor_0_r.
Qed.

(** Division is linear over GF(2). *)
Lemma crc_bit_lxor x y : crc_bit (x .^ y) = crc_bit x .^ crc_bit y.
Proof.
  rewrite !crc_bit_testbit, Z.lxor_spec, Z.shiftl_lxor, as_u32_lxor.
  apply Z.bits_inj'. intros i Hi. rewrite !Z.lxor_spec.
  by destruct (Z.testbit x 31), (Z.testbit y 31); cbn [xorb];
    destruct (Z.testbit (as_u32 (x .<< 1)) i), (Z.testbit (as_u32 (y .<< 1)) i), (Z.testbit 0x04C11DB7 i);
    rewrite ?Z.bits_0.
Qed.

Lemma crc_bits_lxor n x y :
  Nat.iter n crc_bit (x .^ y) = Nat.iter n crc_bit x .^ Nat.iter n crc_bit y.
Proof. induction n as [|n IH]; [done|]. cbn [Nat.iter nat_rect]. unfold Nat.iter in IH. by rewrite IH, crc_bit_lxor. Qed.

(** Zero high bits shift through. *)
Lemma crc_bits_low n x :
  (n <= 8)%nat -> in_u 24 x -> Nat.iter n crc_bit x = x .<< Z.of_nat n.
Proof.
  intros Hn Hx. induction n as [|n IH]; [by rewrite Z.shiftl_0_r|].
  change (Nat.iter (S n) crc_bit x) with (crc_bit (Nat.iter n crc_bit x)). rewrite IH by lia.
  rewrite crc_bit_testbit, Z.shiftl_spec by lia.
  rewrite (testbit_above x 24) by (unfold in_u in Hx; lia). rewrite Z.lxor_0_r.
  rewrite Z.shiftl_shiftl by lia. replace (Z.of_nat n + 1) with (Z.of_nat (S n)) by lia.
  apply wrapu_id. unfold in_u in *. rewrite Z.shiftl_mul_pow2 by lia.
  assert (1 <= 2 ^ Z.of_nat (S n) <= 2 ^ 8).
  { split; [change 1 with (2 ^ 0)|]; apply Z.pow_le_mono_r; lia. }
  nia.
Qed.

Lemma crc_bits_range n x : in_u 32 x -> in_u 32 (Nat.iter n crc_bit x).
Proof. intros Hx. induction n as [|n IH]; [done|]. by apply crc_bit_range. Qed.

Lemma crc_table_nth i : (i < 256)%nat -> nth i CRC32_TABLE 0 = crc_entry i.
Proof.
  intros Hi. assert (CRC32_TABLE = map crc_entry (seq 0 256)) as -> by (vm_compute; reflexivity).
  rewrite (nth_indep _ 0 (crc_entry 0)) by (rewrite length_map, length_seq; lia).
  rewrite map_nth. rewrite seq_nth by done. done.
Qed.

(** The bitwise reference: a byte enters at the top, then eight division steps. *)
Definition crc_byte_ref (crc byte : Z) : Z := Nat.iter 8 crc_bit (crc .^ (byte .<< 24)).
Definition crc32_ref (d : bytes) : Z := fold_left crc_byte_ref d 0xFFFFFFFF.

Lemma crc_byte_eq crc byte : in_u 32 crc -> is_u8 byte -> crc_byte crc byte = crc_byte_ref crc byte.
Proof.
  intros Hc Hb. unfold crc_byte, crc_byte_ref.
  set (hi := (crc .>> 24) .^ byte).
  assert (Hhi : in_u 8 hi).
  { apply lxor_range; [|done|lia]. apply (shiftr_range crc 24 8); [lia|lia|]. unfold in_u in Hc. lia. }
  assert (hi .& 0xFF = hi) as -> by (clearbody hi; bitblast).
  rewrite crc_table_nth by (unfold in_u in Hhi; lia).
  unfold crc_entry. rewrite Z2Nat.id by (unfold in_u in Hhi; lia).
  assert (Hsplit : crc .^ (byte .<< 24) = as_u32 (hi .<< 24) .^ (crc .& 0xFFFFFF)).
  { subst hi. bitblast. }
  rewrite Hsplit, crc_bits_lxor. rewrite (crc_bits_low 8 (crc .& 0xFFFFFF)) by (lia || bitrange).
  rewrite Z.lxor_comm. f_equal. change (Z.of_nat 8) with 8. bitblast.
Qed.

Lemma crc_byte_ref_range crc byte : in_u 32 crc -> is_u8 byte -> in_u 32 (crc_byte_ref crc byte).
Proof. intros Hc Hb. apply crc_bits_range. bitrange. Qed.

Lemma crc_fold_ref d crc :
  in_u 32 crc -> bytes_ok d ->
  fold_left crc_byte d crc = fold_left crc_byte_ref d crc /\ in_u 32 (fold_left crc_byte d crc).
Proof.
  intros Hc Hd. revert crc Hc. induction Hd as [|b d Hb Hd IH]; intros crc Hc; [done|].
  cbn [fold_left]. rewrite crc_byte_eq by done. apply IH. by apply crc_byte_ref_range.
Qed.

Lemma crc32_range d : bytes_ok d -> in_u 32 (crc32_mpeg2 d).
Proof. intros Hd. apply (crc_fold_ref d 0xFFFFFFFF); [unfold in_u; lia|done]. Qed.

Lemma crc_bit_inj x y : in_u 32 x -> in_u 32 y -> crc_bit x = crc_bit y -> x = y.
Proof.
  intros Hx Hy E. rewrite !crc_bit_testbit in E.
  assert (Htop : Z.testbit x 31 = Z.testbit y 31).
  { apply (f_equal (fun z => Z.testbit z 0)) in E. rewrite !Z.lxor_spec, !wrapu_testbit in E by lia.
    rewrite !Z.shiftl_spec_low in E by lia. cbn [andb Z.ltb Z.compare xorb] in E.
    by destruct (Z.testbit x 31), (Z.testbit y 31). }
  rewrite Htop in E. apply (f_equal (fun z => z .^ (if Z.testbit y 31 then 0x04C11DB7 else 0))) in E.
  rewrite !Z.lxor_assoc, !Z.lxor_nilpotent, !Z.lxor_0_r in E.
  apply Z.bits_inj'. intros i Hi. destruct (Z.ltb_spec i 31).
  - apply (f_equal (fun z => Z.testbit z (i + 1))) in E. rewrite !wrapu_testbit, !Z.shiftl_spec in E by lia.
    destruct (Z.ltb_spec (i + 1) 32); [|lia]. cbn [andb] in E.
    by replace (i + 1 - 1) with i in E by lia.
  - destruct (decide (i = 31)) as [->|]; [done|].
    unfold in_u in *. by rewrite (testbit_above x 32), (testbit_above y 32) by lia.
Qed.

Lemma crc_bits_inj n x y :
  in_u 32 x -> in_u 32 y -> Nat.iter n crc_bit x = Nat.iter n crc_bit y -> x = y.
Proof.
  induction n as [|n IH]; intros Hx Hy E; [done|].
  apply IH; [done|done|]. apply crc_bit_inj; [by apply crc_bits_range..|done].
Qed.

Lemma crc_byte_ref_inj c c' b : in_u 32 c -> in_u 32 c' -> is_u8 b ->
  crc_byte_ref c b = crc_byte_ref c' b -> c = c'.
Proof.
  intros Hc Hc' Hb E. unfold crc_byte_ref in E. apply crc_bits_inj in E; [|bitrange..].
  apply (f_equal (fun z => z .^ (b .<< 24))) in E.
  by rewrite !Z.lxor_assoc, !Z.lxor_nilpotent, !Z.lxor_0_r in E.
Qed.

Lemma crc_fold_inj d c c' :
  bytes_ok d -> in_u 32 c -> in_u 32 c' ->
  fold_left crc_byte_ref d c = fold_left crc_byte_ref d c' -> c = c'.
Proof.
  intros Hd. revert c c'. induction Hd as [|b d Hb Hd IH]; intros c c' Hc Hc' E; [done|].
  cbn [fold_left] in E. apply IH in E; [|by apply crc_byte_ref_range..].
  by apply crc_byte_ref_inj in E.
Qed.

Lemma crc_byte_self c b rest :
  in_u 32 c -> b = c .>> 24 ->
  fold_left crc_byte (b :: rest) c = fold_left crc_byte rest (as_u32 (c .<< 8)).
Proof.
  intros Hc ->. cbn [fold_left]. unfold crc_byte at 2. rewrite Z.lxor_nilpotent.
  change (nth (Z.to_nat (0 .& 0xFF)) CRC32_TABLE 0) with 0. by rewrite Z.lxor_0_r.
Qed.

Lemma crc_append c : in_u 32 c -> fold_left crc_byte (to_be_bytes 4 c) c = 0.
Proof.
  intros Hc. cbn [to_be_bytes]. change (8 * Z.of_nat 3) with 24. change (8 * Z.of_nat 2) with 16.
  change (8 * Z.of_nat 1) with 8. change (8 * Z.of_nat 0) with 0.
  rewrite crc_byte_self by (done || bitblast).
  rewrite crc_byte_self by (first [apply wrapu_range; lia | bitblast]).
  rewrite crc_byte_self by (first [apply wrapu_range; lia | bitblast]).
  rewrite crc_byte_self by (first [apply wrapu_range; lia | bitblast]).
  cbn [fold_left]. bitblast.
Qed.

Lemma crc32_append d : bytes_ok d -> crc32_mpeg2 (d ++ to_be_bytes 4 (crc32_mpeg2 d)) = 0.
Proof. intros Hd. unfold crc32_mpeg2. rewrite fold_left_app. by apply crc_append, crc32_range. Qed.

(** ** Properties *)

(** The table-driven CRC-32/MPEG-2 equals the bitwise definition (polynomial
    0x04C11DB7, most significant bit first, initial value all ones) on every byte
    string. *)
Theorem crc32_table_driven d : bytes_ok d -> crc32_mpeg2 d = crc32_ref d.
Proof. intros Hd. apply (crc_fold_ref d 0xFFFFFFFF); [unfold in_u; lia|done]. Qed.

Lemma crc32_table_driven_witness :
  crc32_mpeg2 [0x31; 0x32; 0x33; 0x34; 0x35; 0x36; 0x37; 0x38; 0x39] = 0x0376E6E7 /\
  crc32_mpeg2 [0x31; 0x32; 0x33] = crc32_ref [0x31; 0x32; 0x33].
Proof.
  split; [by vm_compute|]. apply crc32_table_driven. repeat constructor; unfold in_u; lia.
Defined.

(** Checksum soundness: a section with its CRC appended big-endian checks to zero,
    and no section that differs from it in one byte does: the check the demuxer makes
    accepts what the muxer writes and rejects every single-byte corruption. *)
Theorem crc32_detects_byte_error p b b' s :
  bytes_ok p -> is_u8 b -> is_u8 b' -> bytes_ok s ->
  (crc32_mpeg2 (p ++ to_be_bytes 4 (crc32_mpeg2 p)) = 0) /\
  (b <> b' -> crc32_mpeg2 (p ++ b :: s) = 0 -> crc32_mpeg2 (p ++ b' :: s) <> 0).
Proof.
  intros Hp Hb Hb' Hs. split; [by apply crc32_append|]. intros Hne E0 E1. rewrite <- E1 in E0.
  unfold crc32_mpeg2 in E0. rewrite !fold_left_app in E0. cbn [fold_left] in E0.
  destruct (crc_fold_ref p 0xFFFFFFFF ltac:(unfold in_u; lia) Hp) as [_ Hc].
  set (c := fold_left crc_byte p 0xFFFFFFFF) in *.
  rewrite !crc_byte_eq in E0 by done.
  rewrite (proj1 (crc_fold_ref s _ (crc_byte_ref_range c b Hc Hb) Hs)) in E0.
  rewrite (proj1 (crc_fold_ref s _ (crc_byte_ref_range c b' Hc Hb') Hs)) in E0.
  apply crc_fold_inj in E0; [|done|by apply crc_byte_ref_range..].
  unfold crc_byte_ref in E0. apply crc_bits_inj in E0; [|bitrange..].
  apply (f_equal (fun z => (c .^ z) .>> 24)) in E0.
  rewrite <- !Z.lxor_assoc, !Z.lxor_nilpotent, !Z.lxor_0_l, !Z.shiftr_shiftl_l, !Z.shiftl_0_r in E0 by lia.
  done.
Qed.

Lemma crc32_detects_byte_error_witness :
  crc32_mpeg2 ([0; 0xB0; 13] ++ to_be_bytes 4 (crc32_mpeg2 [0; 0xB0; 13])) = 0 /\
  crc32_mpeg2 ([0] ++ 0xB1 :: [13] ++ to_be_bytes 4 (crc32_mpeg2 [0; 0xB0; 13])) <> 0.
Proof.
  assert (Hok : bytes_ok ([13] ++ to_be_bytes 4 (crc32_mpeg2 [0; 0xB0; 13]))).
  { apply bytes_ok_app. split; [repeat constructor; unfold in_u; lia|apply to_be_bytes_ok]. }
  split.
  - apply (crc32_detects_byte_error [0; 0xB0; 13] 0 1 []);
      [repeat constructor; unfold in_u; lia|unfold in_u; lia..|constructor].
  - apply (crc32_detects_byte_error [0] 0xB0 0xB1 ([13] ++ to_be_bytes 4 (crc32_mpeg2 [0; 0xB0; 13])));
      [repeat constructor; unfold in_u; lia|unfold in_u; lia..|done|done|by vm_compute].
Defined.

(** Clock fields on the wire: a 90 kHz timestamp written with any marker reads back
    modulo 2^33 (negative ones included) from bytes in range, the PCR written for it
    has its value clamped at zero modulo 2^33 as base and extension zero, and
    milliseconds survive the conversion to 90 kHz and back. *)
Theorem timestamp_roundtrip ts marker ms :
  in_i 64 ts -> in_u 4 marker -> in_i 64 (ms * 90) ->
  bytes_ok (write_timestamp_buf ts marker) /\
  (match write_timestamp_buf ts marker with
   | [b0; b1; b2; b3; b4] => parse_timestamp b0 b1 b2 b3 b4 = wrapu 33 ts
   | _ => False
   end) /\
  pcr_value (write_pcr ts) = (wrapu 33 (Z.max ts 0), 0) /\
  ts_to_ms (ms_to_ts ms) = ms.
Proof.
  intros Ht Hm Hms. split_and!.
  - by apply write_timestamp_ok.
  - rewrite <- write_timestamp_wrap. apply parse_write_timestamp; [apply wrapu_range; lia|done].
  - by apply pcr_value_write.
  - unfold ts_to_ms, ms_to_ts, wraps. rewrite Z.mod_small by (unfold in_i in Hms; lia).
    replace (ms * 90 + 2 ^ (64 - 1) - 2 ^ (64 - 1)) with (ms * 90) by lia. apply Z.quot_mul. lia.
Qed.

Lemma timestamp_roundtrip_witness :
  bytes_ok (write_timestamp_buf (-90) 3) /\
  (match write_timestamp_buf (-90) 3 with
   | [b0; b1; b2; b3; b4] => parse_timestamp b0 b1 b2 b3 b4 = wrapu 33 (-90)
   | _ => False
   end) /\
  pcr_value (write_pcr (-90)) = (wrapu 33 (Z.max (-90) 0), 0) /\
  ts_to_ms (ms_to_ts (-1)) = -1.
Proof. apply timestamp_roundtrip; unfold in_i, in_u; lia. Defined.
