(* ===== verification/Probe.v ===== *)
(** * Stream probes for MPEG-TS ingest

    Models [crates/restream-mpegts/src/probe.rs] with its H.264 and H.265
    submodules and the metadata of [crates/restream-core/src/metadata.rs]: the
    keyframe tests on NAL units, the search for an SPS, the H.265 SPS parser, and
    the video and audio metadata of a first PES payload.

    [parse_sps] of the source writes into a metadata value its caller drops on
    failure; here it returns the new metadata on success. *)

From S2P Require Import Prelude Bitblast Bits Aac Annexb H264Sps HevcConfig.
From stdpp Require Import pretty.
#[local] Open Scope Z_scope.

(** ** Definitions *)

Inductive StreamKind := KindH264 | KindH265 | KindAacAdts | KindAacLatm.
#[global] Instance StreamKind_eq_dec : EqDecision StreamKind.
Proof. solve_decision. Defined.

Definition codec_name (k : StreamKind) : string :=
  match k with
  | KindH264 => "h264"
  | KindH265 => "hevc"
  | KindAacAdts | KindAacLatm => "aac"
  end.

Record VideoMeta := mk_VideoMeta {
  vm_codec : string;
  vm_width : Z;
  vm_height : Z;
  vm_fps : f64;
  vm_bw : option f64;
  vm_pid : option Z;
  vm_language : option string;
  vm_title : option string;
  vm_profile : option string;
  vm_level : option string;
  vm_pixel_format : option string;
}.

Record AudioMeta := mk_AudioMeta {
  am_codec : string;
  am_sample_rate : Z;
  am_channels : Z;
  am_channel_layout : option string;
  am_track_index : Z;
  am_pid : option Z;
  am_language : option string;
  am_title : option string;
  am_profile : option string;
}.

Definition set_video (meta : VideoMeta) (w h : Z) (fps : f64) (profile level : string) : VideoMeta :=
  mk_VideoMeta (vm_codec meta) w h fps (vm_bw meta) (vm_pid meta) (vm_language meta)
    (vm_title meta) (Some profile) (Some level) (vm_pixel_format meta).

Section nals.
Context `{Memmem}.

(** A callback with captured state; [true] stops the walk. *)
Definition for_each_nal_raw {S} (callback : bytes -> S -> bool * S) (d : bytes) (s : S) : bool * S :=
  let '(flow, s') :=
    for_each_annexb_nalu
      (fun nalu s => let '(stop, s') := callback nalu s in
                     (if (stop : bool) then Break else Continue, s')) d s in
  (match flow with Break => true | Continue => false end, s').

Definition h264_for_each_nal (callback : Z -> bytes -> bool) (d : bytes) : bool :=
  (for_each_nal_raw
     (fun nal_data (_ : unit) =>
        (match nal_data with
         | header :: payload => callback (header .& 0x1F) payload
         | [] => false
         end, tt)) d tt).1.

Definition h264_is_keyframe (payload : bytes) : bool :=
  h264_for_each_nal (fun nal_type _ => nal_type =? 5) payload.

Definition find_h264_sps (payload : bytes) : option bytes :=
  (for_each_nal_raw
     (fun nal_data result =>
        match nal_data with
        | header :: rest => if header .& 0x1F =? 7 then (true, Some rest) else (false, result)
        | [] => (false, result)
        end) payload None).2.

Definition h265_for_each_nal (callback : Z -> bytes -> bool) (d : bytes) : bool :=
  (for_each_nal_raw
     (fun nal_data (_ : unit) =>
        (match nal_data with
         | header :: _ => callback ((header .>> 1) .& 0x3F) (default [] (get_from 2 nal_data))
         | [] => false
         end, tt)) d tt).1.

Definition h265_is_keyframe (payload : bytes) : bool :=
  h265_for_each_nal (fun nal_type _ => (16 <=? nal_type) && (nal_type <=? 23)) payload.

Definition find_h265_sps (payload : bytes) : option bytes :=
  (for_each_nal_raw
     (fun nal_data result =>
        match nal_data with
        | header :: _ :: rest =>
            if (header .>> 1) .& 0x3F =? 33 then (true, Some rest) else (false, result)
        | _ => (false, result)
        end) payload None).2.
End nals.

(** [h264::parse_sps] *)
Definition probe_h264_sps (raw_sps : bytes) (meta : VideoMeta) : option VideoMeta :=
  sps ← parse_h264_sps raw_sps;
  Some (set_video meta (h264_width sps) (h264_height sps)
          (if f64_gt_zero (h264_fps sps) then h264_fps sps else vm_fps meta)
          (profile_name (h264_profile_idc sps)) (level_name (h264_level_idc sps))).

(** *** The H.265 SPS *)

Definition MAX_SHORT_TERM_REF_PIC_SETS : Z := 64.
Definition MAX_DELTA_POCS : Z := 64.
Definition MAX_LONG_TERM_REF_PICS : Z := 32.

Definition h265_profile_name (general_profile_idc : Z) : string :=
  if general_profile_idc =? 1 then "Main"
  else if general_profile_idc =? 2 then "Main 10"
  else if general_profile_idc =? 3 then "Main Still Picture"
  else "Unknown".

Definition h265_level_name (general_level_idc : Z) : string :=
  (pretty (general_level_idc / 30) +:+ "." +:+ pretty ((general_level_idc mod 30) / 3))%string.

Fixpoint skip_present (present : list (bool * bool)) : M BitReader unit :=
  match present with
  | [] => mret tt
  | (profile, level) :: present' =>
      _ ← (if (profile : bool) then skip 88 else mret tt);
      _ ← (if (level : bool) then skip 8 else mret tt);
      skip_present present'
  end.

Definition h265_sub_layers (max_sub_layers : Z) : M BitReader unit :=
  if 1 <? max_sub_layers then
    sub_layers ← lift (checked_u 32 (max_sub_layers - 1));
    present ← read_present (Nat.min (Z.to_nat sub_layers) 8);
    left ← lift (checked_u 32 (9 - max_sub_layers));
    reserved ← lift (checked_u 32 (left * 2));
    _ ← skip reserved;
    skip_present present
  else mret tt.

(** Picture size after the conformance window. *)
Definition h265_window (chroma_format_idc width height : Z) : M BitReader (Z * Z) :=
  conformance_window ← read_bits 1;
  if conformance_window =? 1 then
    let sub_wc := if (chroma_format_idc =? 1) || (chroma_format_idc =? 2) then 2 else 1 in
    let sub_hc := if chroma_format_idc =? 1 then 2 else 1 in
    left ← read_ue;
    right ← read_ue;
    sum_h ← lift (checked_u 32 (left + right));
    crop_horizontal ← lift (checked_u 32 (sum_h * sub_wc));
    top ← read_ue;
    bottom ← read_ue;
    sum_v ← lift (checked_u 32 (top + bottom));
    crop_vertical ← lift (checked_u 32 (sum_v * sub_hc));
    w ← lift (checked_u 32 (width - crop_horizontal));
    h ← lift (checked_u 32 (height - crop_vertical));
    mret (w, h)
  else mret (width, height).

(** One scaling list of [skip_scaling_list_data]. *)
Definition skip_scaling_entry (size_id : Z) : M BitReader unit :=
  pred_mode ← read_bits 1;
  if pred_mode =? 0 then _ ← read_ue; mret tt
  else
    doubled ← lift (checked_u 32 (size_id * 2));
    shift ← lift (checked_u 32 (doubled + 4));
    shifted ← lift (checked_shl_1 shift);
    let coef_num := Z.min shifted 64 in
    _ ← (if 1 <? size_id then _ ← read_se; mret tt else mret tt);
    repeat_M (Z.to_nat coef_num) read_se.

(** [while matrix_id < 6]: six lists of each size, two of the largest. *)
Fixpoint skip_scaling_matrices (fuel : nat) (size_id step matrix_id : Z) : M BitReader unit :=
  match fuel with
  | O => fail
  | S fuel' =>
      if matrix_id <? 6 then
        _ ← skip_scaling_entry size_id;
        next ← lift (checked_u 32 (matrix_id + step));
        skip_scaling_matrices fuel' size_id step next
      else mret tt
  end.

Definition skip_scaling_list_data : M BitReader unit :=
  _ ← skip_scaling_matrices 7 0 1 0;
  _ ← skip_scaling_matrices 7 1 1 0;
  _ ← skip_scaling_matrices 7 2 1 0;
  skip_scaling_matrices 7 3 3 0.

(** The flags of an inter-predicted set: [count + 1] entries. *)
Fixpoint count_used (n : nat) (this_count : Z) : M BitReader Z :=
  match n with
  | O => mret this_count
  | S n' =>
      used ← read_bits 1;
      if used =? 0 then
        use_delta ← read_bits 1;
        if use_delta =? 1 then
          c ← lift (checked_u 32 (this_count + 1)); count_used n' c
        else count_used n' this_count
      else c ← lift (checked_u 32 (this_count + 1)); count_used n' c
  end.

Definition ue_flag : M BitReader unit := _ ← read_ue; skip 1.

(** One short-term reference picture set: its number of delta POCs. *)
Definition short_term_rps (i : Z) (num_delta_pocs : list Z) : M BitReader Z :=
  inter_pred ← (if 0 <? i then read_bits 1 else mret 0);
  if inter_pred =? 1 then
    _ ← skip 1;
    _ ← read_ue;
    prev ← lift (checked_u 32 (i - 1));
    count ← lift (num_delta_pocs !! Z.to_nat prev);
    this_count ← count_used (S (Z.to_nat count)) 0;
    if MAX_DELTA_POCS <? this_count then fail else mret this_count
  else
    num_negative ← read_ue;
    num_positive ← read_ue;
    total ← lift (checked_u 32 (num_negative + num_positive));
    if MAX_DELTA_POCS <? total then fail
    else
      _ ← repeat_M (Z.to_nat num_negative) ue_flag;
      _ ← repeat_M (Z.to_nat num_positive) ue_flag;
      mret total.

Fixpoint short_term_rps_loop (n : nat) (i : Z) (num_delta_pocs : list Z) : M BitReader unit :=
  match n with
  | O => mret tt
  | S n' =>
      count ← short_term_rps i num_delta_pocs;
      short_term_rps_loop n' (i + 1) (num_delta_pocs ++ [count])
  end.

(** The frame rate of the VUI, when it has one. *)
Definition h265_vui : M BitReader (option f64) :=
  aspect_ratio_present ← read_bits 1;
  _ ← (if aspect_ratio_present =? 1 then
         sar_idx ← read_bits 8; if sar_idx =? 255 then skip 32 else mret tt
       else mret tt);
  overscan_present ← read_bits 1;
  _ ← (if overscan_present =? 1 then skip 1 else mret tt);
  video_signal_present ← read_bits 1;
  _ ← (if video_signal_present =? 1 then
         _ ← skip (3 + 1);
         colour_desc_present ← read_bits 1;
         if colour_desc_present =? 1 then skip 24 else mret tt
       else mret tt);
  chroma_loc_present ← read_bits 1;
  _ ← (if chroma_loc_present =? 1 then _ ← read_ue; _ ← read_ue; mret tt else mret tt);
  _ ← skip 3;
  default_display_window ← read_bits 1;
  _ ← (if default_display_window =? 1 then
         _ ← read_ue; _ ← read_ue; _ ← read_ue; _ ← read_ue; mret tt
       else mret tt);
  timing_info_present ← read_bits 1;
  if timing_info_present =? 1 then
    num_units_in_tick ← read_bits 32;
    time_scale ← read_bits 32;
    mret (if (0 <? num_units_in_tick) && (0 <? time_scale)
          then Some (f64_div (f64_from time_scale) (f64_from num_units_in_tick)) else None)
  else mret None.

(** The syntax behind the bit depths; nothing of it but the frame rate is kept. *)
Definition h265_sps_tail (max_sub_layers log2_max_pic_order_cnt : Z) : M BitReader (option f64) :=
  sub_layer_ordering_info_present ← read_bits 1;
  start ← (if sub_layer_ordering_info_present =? 1 then mret 0
           else lift (checked_u 32 (max_sub_layers - 1)));
  _ ← repeat_M (Z.to_nat (max_sub_layers - start)) (_ ← read_ue; _ ← read_ue; read_ue);
  a ← read_ue; _ ← lift (checked_u 32 (a + 3));
  _ ← read_ue;
  b ← read_ue; _ ← lift (checked_u 32 (b + 2));
  _ ← read_ue;
  _ ← read_ue;
  _ ← read_ue;
  scaling_list_enabled ← read_bits 1;
  _ ← (if scaling_list_enabled =? 1 then
         scaling_list_data_present ← read_bits 1;
         if scaling_list_data_present =? 1 then skip_scaling_list_data else mret tt
       else mret tt);
  _ ← skip 1;
  _ ← skip 1;
  pcm_enabled ← read_bits 1;
  _ ← (if pcm_enabled =? 1 then
         _ ← skip 4; _ ← skip 4; _ ← read_ue; _ ← read_ue; skip 1
       else mret tt);
  num_short_term_rps ← read_ue;
  if MAX_SHORT_TERM_REF_PIC_SETS <? num_short_term_rps then fail
  else
    _ ← short_term_rps_loop (Z.to_nat num_short_term_rps) 0 [];
    long_term_ref_pics_present ← read_bits 1;
    _ ← (if long_term_ref_pics_present =? 1 then
           num_long_term_ref_pics ← read_ue;
           if MAX_LONG_TERM_REF_PICS <? num_long_term_ref_pics then fail
           else repeat_M (Z.to_nat num_long_term_ref_pics)
                  (_ ← read_bits log2_max_pic_order_cnt; skip 1)
         else mret tt);
    _ ← skip 1;
    _ ← skip 1;
    vui_present ← read_bits 1;
    if vui_present =? 1 then h265_vui else mret None.

Definition parse_h265_sps_body (meta : VideoMeta) : M BitReader VideoMeta :=
  _vps_id ← read_bits 4;
  msl ← read_bits 3;
  max_sub_layers ← lift (checked_u 32 (msl + 1));
  _ ← skip 1;
  _ ← skip 2;
  _ ← skip 1;
  general_profile_idc ← read_bits 5;
  _ ← skip 32;
  _ ← skip 48;
  general_level_idc ← read_bits 8;
  _ ← h265_sub_layers max_sub_layers;
  _sps_id ← read_ue;
  chroma_format_idc ← read_ue;
  if 3 <? chroma_format_idc then fail
  else
    _ ← (if chroma_format_idc =? 3 then skip 1 else mret tt);
    width ← read_ue;
    height ← read_ue;
    if (width =? 0) || (height =? 0) then fail
    else
      '(meta_width, meta_height) ← h265_window chroma_format_idc width height;
      if (meta_width =? 0) || (meta_height =? 0) then fail
      else
        luma ← read_ue;
        bit_depth_luma ← lift (checked_u 32 (luma + 8));
        chroma ← read_ue;
        bit_depth_chroma ← lift (checked_u 32 (chroma + 8));
        if (16 <? bit_depth_luma) || (16 <? bit_depth_chroma) then fail
        else
          lsb ← read_ue;
          log2_max_pic_order_cnt ← lift (checked_u 32 (lsb + 4));
          if 16 <? log2_max_pic_order_cnt then fail
          else
            fps ← h265_sps_tail max_sub_layers log2_max_pic_order_cnt;
            mret (set_video meta meta_width meta_height (default (vm_fps meta) fps)
                    (h265_profile_name general_profile_idc) (h265_level_name general_level_idc)).

(** [h265::parse_sps] *)
Definition parse_h265_sps (sps : bytes) (meta : VideoMeta) : option VideoMeta :=
  if (length sps <? 2)%nat then None
  else (parse_h265_sps_body meta (BitReader_new sps)).1.

(** *** Probes *)

Section probes.
Context `{Memmem}.

Definition probe_video (kind : StreamKind) (pid : Z) (language title : option string)
    (pes_payload : bytes) : VideoMeta :=
  let meta := mk_VideoMeta (codec_name kind) 0 0 f64_zero None (Some pid) language title
                None None None in
  let parsed :=
    match kind with
    | KindH264 => sps ← find_h264_sps pes_payload; probe_h264_sps sps meta
    | KindH265 => raw_sps ← find_h265_sps pes_payload; parse_h265_sps (rbsp raw_sps) meta
    | _ => None
    end in
  default meta parsed.

Definition clear_pid (m : VideoMeta) : VideoMeta :=
  mk_VideoMeta (vm_codec m) (vm_width m) (vm_height m) (vm_fps m) (vm_bw m) None
    (vm_language m) (vm_title m) (vm_profile m) (vm_level m) (vm_pixel_format m).

Definition hevc_video_meta (annex_b : bytes) : VideoMeta :=
  clear_pid (probe_video KindH265 0 None None annex_b).

Definition h264_video_meta (annex_b : bytes) : VideoMeta :=
  clear_pid (probe_video KindH264 0 None None annex_b).
End probes.

Definition video_meta_complete (kind : StreamKind) (meta : VideoMeta) : bool :=
  match kind with
  | KindH264 | KindH265 => (0 <? vm_width meta) && (0 <? vm_height meta)
  | KindAacAdts | KindAacLatm => true
  end.

Definition probe_audio (kind : StreamKind) (track_index pid : Z) (language title : option string)
    (pes_payload : bytes) : AudioMeta :=
  let meta := mk_AudioMeta (codec_name kind) 0 0 None track_index (Some pid) language title None in
  match kind, first_chunk 7 pes_payload with
  | KindAacAdts, Some [b0; sync_low; b2; b3; _; _; _] =>
      if (b0 =? 0xFF) && (sync_low .& 0xF0 =? 0xF0) then
        let profile_idx := b2 .>> 6 in
        let profile := if profile_idx =? 0 then Some "Main"%string
                       else if profile_idx =? 1 then Some "LC"%string
                       else if profile_idx =? 2 then Some "SSR"%string
                       else if profile_idx =? 3 then Some "LTP/Reserved"%string
                       else None in
        let sample_rate_idx := Z.to_nat ((b2 .>> 2) .& 0x0F) in
        let channel_config := (be_value [b2; b3] .>> 6) .& 0x07 in
        let rate := default 0 (AAC_SAMPLE_RATES !! sample_rate_idx) in
        let channels := if channel_config =? 7 then 8 else channel_config in
        mk_AudioMeta (codec_name kind) rate channels None track_index (Some pid) language title profile
      else meta
  | _, _ => meta
  end.

Definition audio_meta_complete (kind : StreamKind) (meta : AudioMeta) : bool :=
  match kind with
  | KindAacAdts => (0 <? am_sample_rate meta) && (0 <? am_channels meta)
  | KindAacLatm | KindH264 | KindH265 => true
  end.

(** ** Lemmas *)

(** [lock m1 m2 R]: whenever [m1] succeeds, [m2] succeeds on the same reader,
    stops at the same place, and the results are related. *)
Definition lock {A B} (m1 : M BitReader A) (m2 : M BitReader B) (R : A -> B -> Prop) : Prop :=
  forall r a r', reader_ok r -> m1 r = (Some a, r') ->
    reader_ok r' /\ exists b, m2 r = (Some b, r') /\ R a b.

(** The same, for parsers of which [m2] stops earlier. *)
Definition agree {A B} (m1 : M BitReader A) (m2 : M BitReader B) (R : A -> B -> Prop) : Prop :=
  forall r a r' b r'', reader_ok r -> m1 r = (Some a, r') -> m2 r = (Some b, r'') -> R a b.

Section lockstep.
Context {A B C D : Type}.

Lemma agree_bind (m1 : M BitReader A) (m2 : M BitReader B) (f : A -> M BitReader C)
    (g : B -> M BitReader D) R Q :
  lock m1 m2 R -> (forall a b, R a b -> agree (f a) (g b) Q) -> agree (m1 ≫= f) (m2 ≫= g) Q.
Proof.
  intros Hm Hf r a r' b r'' Hr. unfold mbind, M_bind.
  destruct (m1 r) as [[x|] r1] eqn:E1; [|done].
  destruct (Hm r x r1 Hr E1) as (Hr1 & y & -> & HR). by apply (Hf x y HR).
Qed.

Lemma lock_bind (m1 : M BitReader A) (m2 : M BitReader B) (f : A -> M BitReader C)
    (g : B -> M BitReader D) R Q :
  lock m1 m2 R -> (forall a b, R a b -> lock (f a) (g b) Q) -> lock (m1 ≫= f) (m2 ≫= g) Q.
Proof.
  intros Hm Hf r c r' Hr. unfold mbind, M_bind.
  destruct (m1 r) as [[x|] r1] eqn:E1; [|done].
  destruct (Hm r x r1 Hr E1) as (Hr1 & y & -> & HR). by apply (Hf x y HR).
Qed.

Lemma lock_ret (a : A) (b : B) (R : A -> B -> Prop) : R a b -> lock (mret a) (mret b) R.
Proof. intros HR r x r' Hr [= <- <-]. split; [done|]. by exists b. Qed.

Lemma lock_refl (m : M BitReader A) P : returns m P -> lock m m (fun a b => a = b /\ P a).
Proof.
  intros Hm r a r' Hr E. destruct (Hm r a r' Hr E) as (Hr' & bs & _ & HP). eauto.
Qed.

(** A side computation that only the first one makes. *)
Lemma agree_lift (o : option A) (f : A -> M BitReader C) (m2 : M BitReader D) Q :
  (forall a, o = Some a -> agree (f a) m2 Q) -> agree (lift o ≫= f) m2 Q.
Proof.
  intros Hf r a r' b r'' Hr. unfold mbind, M_bind, lift. destruct o as [x|]; [|done].
  by apply Hf.
Qed.

Lemma lock_lift (o : option A) (f : A -> M BitReader C) (m2 : M BitReader D) Q :
  (forall a, o = Some a -> lock (f a) m2 Q) -> lock (lift o ≫= f) m2 Q.
Proof.
  intros Hf r a r' Hr. unfold mbind, M_bind, lift. destruct o as [x|]; [|done]. by apply Hf.
Qed.
End lockstep.

(** Skipping is reading without looking. *)
Lemma read_bits_loop_skip n v r r' :
  0 <= v -> (v + 1) * 2 ^ Z.of_nat n <= 2 ^ 32 ->
  repeat_M n read_bit r = (Some tt, r') -> exists w, read_bits_loop n v r = (Some w, r').
Proof.
  revert v r. induction n as [|n IH]; intros v r Hv Hmax; cbn [repeat_M read_bits_loop].
  - intros [= <-]. by exists v.
  - unfold mbind, M_bind, lift. rewrite Nat2Z.inj_succ, Z.pow_succ_r in Hmax by lia.
    assert (1 <= 2 ^ Z.of_nat n) by (change 1 with (2 ^ 0); apply Z.pow_le_mono_r; lia).
    rewrite checked_u_Some by (unfold in_u; nia).
    destruct (read_bit r) as [[b|] r1]; [|done]. intros Hs.
    apply (IH (v * 2 .| Z.b2z b) r1); [rewrite double_lor by done; destruct b; cbn; lia| |done].
    rewrite double_lor by done. destruct b; cbn [Z.b2z]; nia.
Qed.

Lemma lock_skip_read n : 0 <= n <= 32 -> lock (skip n) (read_bits n) (fun _ _ => True).
Proof.
  intros Hn r [] r' Hr E. destruct (returns_skip n r tt r' Hr E) as (Hr' & _).
  split; [done|]. unfold read_bits. destruct (Z.ltb_spec 32 n); [lia|].
  destruct (read_bits_loop_skip (Z.to_nat n) 0 r r') as [w Hw]; [lia| |done|eauto].
  rewrite Z2Nat.id, Z.mul_1_l by lia. apply (Z.pow_le_mono_r 2 n 32); lia.
Qed.

Lemma repeat_M_add {S A} n k (m : M S A) s :
  repeat_M (n + k) m s = (_ ← repeat_M n m; repeat_M k m) s.
Proof.
  revert s. induction n as [|n IH]; intros s; [done|]. cbn [Nat.add repeat_M].
  unfold mbind, M_bind in *. destruct (m s) as [[a|] s']; [|done]. apply IH.
Qed.

Lemma lock_skip_split {A B} a b (m1 : M BitReader A) (m2 : M BitReader B) R1 R2 :
  0 <= a -> 0 <= b -> lock (skip a) m1 R1 -> lock (skip b) m2 R2 ->
  lock (skip (a + b)) (_ ← m1; m2) R2.
Proof.
  intros Ha Hb H1 H2 r u r' Hr E. unfold skip in E.
  rewrite Z2Nat.inj_add, repeat_M_add in E by done.
  refine (lock_bind (skip a) m1 (fun _ => skip b) (fun _ => m2) _ _ H1 _ r u r' Hr E). auto.
Qed.

(** The two ways to pass over the sub-layers. *)
Lemma lock_sub_layer_profile :
  lock (skip 88)
    (_ ← read_bits 2; _ ← read_bits 1; _ ← read_bits 5; _ ← read_bits 32;
     _ ← read_bits 1; _ ← read_bits 1; _ ← read_bits 1; _ ← read_bits 1; skip 44)
    (fun _ _ => True).
Proof.
  change 88 with (2 + (1 + (5 + (32 + (1 + (1 + (1 + (1 + 44)))))))).
  repeat (eapply lock_skip_split; [lia|lia|apply lock_skip_read; lia|]).
  intros r u r' Hr E. destruct (returns_skip _ r u r' Hr E) as (Hr' & _). eauto.
Qed.

Lemma lock_present present : lock (skip_present present) (skip_sub_layers present) (fun _ _ => True).
Proof.
  induction present as [|[p l] present IH]; cbn [skip_present skip_sub_layers]; [by apply lock_ret|].
  eapply lock_bind with (fun _ _ => True).
  { destruct p; [apply lock_sub_layer_profile|by apply lock_ret]. }
  intros _ _ _. eapply lock_bind with (fun _ _ => True); [|by intros; apply IH].
  destruct l; [|by apply lock_ret]. intros r u r' Hr E.
  destruct (lock_skip_read 8 ltac:(lia) r u r' Hr E) as (Hr' & w & Hw & _).
  split; [done|]. exists tt. unfold mbind, M_bind. by rewrite Hw.
Qed.

Lemma lock_reserved n : lock (skip (Z.of_nat n * 2)) (repeat_M n (read_bits 2)) (fun _ _ => True).
Proof.
  induction n as [|n IH]; [by apply lock_ret|]. cbn [repeat_M].
  replace (Z.of_nat (S n) * 2) with (2 + Z.of_nat n * 2) by lia.
  eapply lock_skip_split; [lia|lia|apply lock_skip_read; lia|done].
Qed.

Lemma returns_present n : returns (read_present n) (fun _ => True).
Proof.
  induction n as [|n IH]; cbn [read_present]; [by apply returns_ret|].
  do 2 rstep. eapply returns_bind; [exact IH|]. intros. by apply returns_ret.
Qed.

Lemma lock_sub_layers m :
  in_u 3 m -> lock (h265_sub_layers (m + 1)) (skip_hevc_sub_layer_profile_tier_level m) (fun _ _ => True).
Proof.
  unfold in_u. intros Hm. unfold h265_sub_layers, skip_hevc_sub_layer_profile_tier_level.
  destruct (Z.ltb_spec 1 (m + 1)).
  - apply lock_lift. intros sub Hsub. apply checked_u_inv in Hsub as [-> _].
    rewrite !Nat.min_l by lia. replace (m + 1 - 1) with m by lia.
    eapply lock_bind; [apply lock_refl, returns_present|]. intros present ? [<- _].
    apply lock_lift. intros l Hl. apply checked_u_inv in Hl as [-> _].
    apply lock_lift. intros res Hres. apply checked_u_inv in Hres as [-> _].
    destruct (Nat.ltb_spec 0 (Z.to_nat m)); [|lia].
    eapply lock_bind; [|intros _ _ _; apply lock_present].
    replace ((9 - (m + 1)) * 2) with (Z.of_nat (8 - Z.to_nat m) * 2) by lia. apply lock_reserved.
  - assert (m = 0) as -> by lia. cbn. by apply lock_ret.
Qed.

Lemma agree_skip_split {B C D} a b (f : unit -> M BitReader C) (m1 : M BitReader B)
    (g : B -> M BitReader D) R Q :
  0 <= a -> 0 <= b -> lock (skip a) m1 R -> (forall x, agree (skip b ≫= f) (g x) Q) ->
  agree (skip (a + b) ≫= f) (m1 ≫= g) Q.
Proof.
  intros Ha Hb H1 H2 r c r' d r'' Hr E1 E2.
  refine (agree_bind (skip a) m1 (fun _ => skip b ≫= f) g _ _ H1 _ r c r' d r'' Hr _ E2);
    [intros; apply H2|].
  rewrite <- E1. unfold mbind, M_bind, skip. rewrite Z2Nat.inj_add, repeat_M_add by done.
  unfold mbind, M_bind. by destruct (repeat_M (Z.to_nat a) read_bit r) as [[]].
Qed.

Lemma lock_read_u8 n : 0 <= n <= 8 -> lock (read_bits n) (read_u8 n) (fun a b => a = b /\ in_u n a).
Proof.
  intros Hn r a r' Hr E. destruct (returns_bits n ltac:(lia) r a r' Hr E) as (Hr' & bs & _ & Ha).
  split; [done|]. exists a. split; [|done]. unfold read_u8, mbind, M_bind, lift. rewrite E.
  rewrite checked_u_Some; [done|]. unfold in_u in *. pose proof (Z.pow_le_mono_r 2 n 8). lia.
Qed.

Lemma agree_fail_l {A B} (m2 : M BitReader B) (Q : A -> B -> Prop) : agree fail m2 Q.
Proof. by intros r a r' b r'' Hr [=]. Qed.
Lemma agree_fail_r {A B} (m1 : M BitReader A) (Q : A -> B -> Prop) : agree m1 fail Q.
Proof. by intros r a r' b r'' Hr E [=]. Qed.

(** What any success returns, whatever was read. *)
Definition post {A} (m : M BitReader A) (P : A -> Prop) : Prop :=
  forall r a r', m r = (Some a, r') -> P a.

Lemma post_ret {A} (a : A) (P : A -> Prop) : P a -> post (mret a) P.
Proof. by intros HP r b r' [= <- <-]. Qed.
Lemma post_fail {A} (P : A -> Prop) : post fail P.
Proof. by intros r b r' [=]. Qed.
Lemma post_bind {A B} (m : M BitReader A) (f : A -> M BitReader B) P :
  (forall a, post (f a) P) -> post (m ≫= f) P.
Proof.
  intros Hf r b r'. unfold mbind, M_bind. destruct (m r) as [[a|] r1]; [|done]. apply Hf.
Qed.
Lemma post_if {A} (b : bool) (m1 m2 : M BitReader A) P :
  post m1 P -> post m2 P -> post (if b then m1 else m2) P.
Proof. by destruct b. Qed.

Ltac post_tac :=
  repeat first [apply post_fail | apply post_ret | apply post_bind; intros ?
               | apply post_if].

Lemma agree_post {A B} (m1 : M BitReader A) (m2 : M BitReader B) (P : A -> Prop) (Q : B -> Prop) R :
  post m1 P -> post m2 Q -> (forall a b, P a -> Q b -> R a b) -> agree m1 m2 R.
Proof. intros H1 H2 HR r a r' b r'' _ E1 E2. eauto. Qed.

Lemma lock_ue : lock read_ue read_ue (fun a b => a = b /\ 0 <= a <= 2 ^ 32 - 2).
Proof. apply (lock_refl _ _ returns_ue). Qed.

Lemma lock_bits n : 0 <= n -> lock (read_bits n) (read_bits n) (fun a b => a = b /\ in_u n a).
Proof. intros Hn. apply (lock_refl _ _ (returns_bits n Hn)). Qed.

(** What the two parsers must agree on. *)
Definition same_video (meta : VideoMeta) (p : HevcProfileTierLevel) : Prop :=
  vm_width meta = ptl_width p /\ vm_height meta = ptl_height p /\
  vm_profile meta = Some (h265_profile_name (ptl_profile_idc p)) /\
  vm_level meta = Some (h265_level_name (ptl_level_idc p)).

Ltac aue := eapply agree_bind; [apply lock_ue|intros ? ? [<- ?]].

Definition window_spec (chroma width height : Z) (wh cxy : Z * Z) : Prop :=
  let sub_w := if (chroma =? 1) || (chroma =? 2) then 2 else 1 in
  let sub_h := if chroma =? 1 then 2 else 1 in
  wh.1 = sat_u 32 (width - sat_u 32 (cxy.1 * sub_w)) /\
  wh.2 = sat_u 32 (height - sat_u 32 (cxy.2 * sub_h)).

Lemma sat_u_id w x : in_u w x -> sat_u w x = x.
Proof. unfold in_u, sat_u. lia. Qed.

Lemma agree_window {C D} chroma width height (f : Z * Z -> M BitReader C)
    (g : Z * Z -> M BitReader D) Q :
  in_u 32 width -> in_u 32 height ->
  (forall wh cxy, window_spec chroma width height wh cxy -> agree (f wh) (g cxy) Q) ->
  agree (h265_window chroma width height ≫= f)
    (window ← read_bits 1;
     cxy ← (if window =? 1 then
              left ← read_ue; right ← read_ue; top ← read_ue; bottom ← read_ue;
              mret (sat_u 32 (left + right), sat_u 32 (top + bottom))
            else mret (0, 0)); g cxy) Q.
Proof.
  intros Hw Hh Hf r a r' b r'' Hr. unfold h265_window. unfold mbind, M_bind.
  destruct (read_bits 1 r) as [[v|] r1] eqn:E1; [|done].
  destruct (returns_bits 1 ltac:(lia) r v r1 Hr E1) as (Hr1 & _).
  destruct (v =? 1).
  - destruct (read_ue r1) as [[l|] r2] eqn:E2; [|done].
    destruct (returns_ue r1 l r2 Hr1 E2) as (Hr2 & _ & _ & Hl).
    destruct (read_ue r2) as [[rt|] r3] eqn:E3; [|done].
    destruct (returns_ue r2 rt r3 Hr2 E3) as (Hr3 & _ & _ & Hrt).
    unfold lift at 1. destruct (checked_u 32 (l + rt)) as [sh|] eqn:Esh; [|done].
    unfold lift at 1.
    destruct (checked_u 32 (sh * _)) as [ch|] eqn:Ech; [|done].
    destruct (read_ue r3) as [[t|] r4] eqn:E4; [|done].
    destruct (returns_ue r3 t r4 Hr3 E4) as (Hr4 & _ & _ & Ht).
    destruct (read_ue r4) as [[bt|] r5] eqn:E5; [|done].
    destruct (returns_ue r4 bt r5 Hr4 E5) as (Hr5 & _ & _ & Hbt).
    unfold lift at 1. destruct (checked_u 32 (t + bt)) as [sv|] eqn:Esv; [|done].
    unfold lift at 1. destruct (checked_u 32 (sv * _)) as [cv|] eqn:Ecv; [|done].
    unfold lift at 1. destruct (checked_u 32 (width - ch)) as [w|] eqn:Ew; [|done].
    unfold lift at 1. destruct (checked_u 32 (height - cv)) as [h|] eqn:Eh; [|done].
    apply checked_u_inv in Esh as [-> Hsh], Ech as [-> Hch], Esv as [-> Hsv], Ecv as [-> Hcv],
      Ew as [-> Hw'], Eh as [-> Hh'].
    apply Hf; [|done]. unfold window_spec. cbn [fst snd].
    rewrite !(sat_u_id 32 (l + rt)), !(sat_u_id 32 (t + bt)) by done.
    rewrite (sat_u_id 32 ((l + rt) * _)), (sat_u_id 32 ((t + bt) * _)) by done.
    by rewrite !sat_u_id.
  - apply Hf; [|done]. unfold window_spec. cbn [fst snd]. rewrite !Z.mul_0_l.
    change (sat_u 32 0) with 0. rewrite !Z.sub_0_r. by rewrite !sat_u_id.
Qed.

(** One that reads a [u8] fails beyond it. *)
Lemma agree_ue_u8 {C D} (f : Z -> M BitReader C) (g : Z -> M BitReader D) Q :
  (forall a, in_u 8 a -> agree (f a) (g a) Q) -> agree (read_ue ≫= f) (read_ue_u8 ≫= g) Q.
Proof.
  intros Hf r c r' d r'' Hr. unfold read_ue_u8, mbind, M_bind, lift.
  destruct (read_ue r) as [[a|] r1] eqn:E; [|done].
  destruct (returns_ue r a r1 Hr E) as (Hr1 & _).
  destruct (checked_u 8 a) as [x|] eqn:Ex; [|done]. apply checked_u_inv in Ex as [-> Ha].
  by apply Hf.
Qed.

Lemma sps_parsers_agree meta :
  agree (parse_h265_sps_body meta) parse_hevc_ptl_body same_video.
Proof.
  unfold parse_h265_sps_body, parse_hevc_ptl_body.
  eapply agree_bind; [apply lock_bits; lia|intros _ _ _].
  eapply agree_bind; [apply lock_read_u8; lia|intros msl ? [<- Hmsl]].
  apply agree_lift. intros max Hmax. apply checked_u_inv in Hmax as [-> _].
  eapply agree_bind; [apply lock_skip_read; lia|intros _ nested _].
  eapply agree_bind with (fun _ b => True).
  { intros r u r' Hr E. destruct (lock_skip_read 2 ltac:(lia) r u r' Hr E) as (Hr' & w & Hw & _).
    destruct (lock_read_u8 2 ltac:(lia) r w r' Hr Hw) as (_ & x & Hx & _). eauto. }
  intros _ space _.
  eapply agree_bind; [apply lock_skip_read; lia|intros _ tier _].
  eapply agree_bind; [apply lock_read_u8; lia|intros idc ? [<- _]].
  eapply agree_bind; [apply lock_skip_read; lia|intros _ compat _].
  apply (agree_skip_split 16 32 _ _ _ (fun _ _ => True)); [lia|lia|apply lock_skip_read; lia|].
  intros chigh. eapply agree_bind; [apply lock_skip_read; lia|intros _ clow _].
  eapply agree_bind; [apply lock_read_u8; lia|intros level ? [<- _]].
  eapply agree_bind; [by apply lock_sub_layers|intros _ _ _]. aue.
  apply agree_ue_u8. intros chroma Hchroma. case_if; [apply agree_fail_l|].
  eapply agree_bind with (fun _ _ => True).
  { case_if; [|by apply lock_ret]. intros r u r' Hr Es.
    destruct (lock_skip_read 1 ltac:(lia) r u r' Hr Es) as (Hr' & w & Hw & _).
    split; [done|]. exists tt. unfold mbind, M_bind. by rewrite Hw. }
  intros _ _ _. do 2 aue. case_if; [apply agree_fail_l|].
  apply agree_window; [unfold in_u; lia..|]. intros [w h] [cx cy] [Ew Eh]. cbn [fst snd] in Ew, Eh.
  eapply (agree_post _ _
    (fun m => vm_width m = w /\ vm_height m = h /\ vm_profile m = Some (h265_profile_name idc) /\
              vm_level m = Some (h265_level_name level))
    (fun p => ptl_width p = w /\ ptl_height p = h /\ ptl_profile_idc p = idc /\ ptl_level_idc p = level)).
  - post_tac. cbn. done.
  - post_tac. cbn. done.
  - intros m p (J1 & J2 & J3 & J4) (K1 & K2 & K3 & K4). unfold same_video.
    by rewrite J1, J2, J3, J4, K1, K2, K3, K4.
Qed.

(** What a successful SPS parse promises. *)
Definition sized (w h : Z) : Prop := 0 < w < 2 ^ 32 /\ 0 < h < 2 ^ 32.

Lemma cropped_sized size a b unit v : cropped size a b unit = Some v -> 0 < v < 2 ^ 32.
Proof.
  unfold cropped.
  destruct (checked_u 64 (a + b)) as [sum|]; [|done]. cbn [mbind option_bind].
  destruct (checked_u 64 (sum * unit)) as [crop|]; [|done]. cbn [mbind option_bind].
  destruct (checked_u 64 (size - crop)) as [rest|]; [|done]. cbn [mbind option_bind].
  destruct (checked_u 32 rest) as [x|] eqn:E; [|done]. cbn [mbind option_bind].
  apply checked_u_inv in E as [-> E]. case_if; [|done]. intros [= <-]. unfold in_u in *. lia.
Qed.

Lemma post_lift_bind {A B} (o : option A) (f : A -> M BitReader B) P :
  (forall a, o = Some a -> post (f a) P) -> post (lift o ≫= f) P.
Proof. intros Hf r b r'. unfold mbind, M_bind, lift. destruct o; [|done]. by apply Hf. Qed.

Lemma parse_h264_sps_sized payload sps :
  parse_h264_sps payload = Some sps -> sized (h264_width sps) (h264_height sps).
Proof.
  unfold parse_h264_sps. destruct (first_chunk 3 _) as [[|p [|c [|l [|]]]]|]; try done.
  destruct (get_from 3 _) as [rest|]; [|done]. cbn [mbind option_bind].
  assert (post (parse_h264_sps_body p l) (fun s => sized (h264_width s) (h264_height s))) as Hp.
  { unfold parse_h264_sps_body.
    repeat match goal with
    | |- post (lift (cropped _ _ _ _) ≫= _) _ =>
        let w := fresh "w" in let Hw := fresh "Hw" in
        apply post_lift_bind; intros w Hw; apply cropped_sized in Hw
    | |- post (mret _) _ => apply post_ret
    | |- post (_ ≫= _) _ => apply post_bind; intros ?
    | x : (_ * _)%type |- _ => destruct x
    end.
    done. }
  destruct (parse_h264_sps_body p l (BitReader_new rest)) as [o r'] eqn:E. cbn. intros ->.
  exact (Hp _ _ _ E).
Qed.

Lemma post_bind_post {A B} (m : M BitReader A) (f : A -> M BitReader B) P Q :
  post m P -> (forall a, P a -> post (f a) Q) -> post (m ≫= f) Q.
Proof.
  intros Hm Hf r b r'. unfold mbind, M_bind. destruct (m r) as [[a|] r1] eqn:E; [|done].
  apply Hf. by eapply Hm.
Qed.

Lemma post_lift {A} (o : option A) : post (lift o) (fun a => o = Some a).
Proof. by intros r a r' [= -> _]. Qed.

Lemma post_ue : post read_ue (in_u 32).
Proof.
  unfold read_ue. apply post_bind. intros lz. apply post_if; [by apply post_ret|].
  do 3 (apply post_bind; intros ?). intros r v r' E. apply post_lift in E.
  by apply checked_u_inv in E as [-> ?].
Qed.

Lemma post_window chroma w h :
  in_u 32 w -> in_u 32 h -> post (h265_window chroma w h) (fun wh => in_u 32 wh.1 /\ in_u 32 wh.2).
Proof.
  intros Hw Hh. unfold h265_window. apply post_bind. intros v. apply post_if; [|by apply post_ret].
  do 8 (apply post_bind; intros ?).
  do 2 (apply post_lift_bind; let a := fresh in let E := fresh in
        intros a E; apply checked_u_inv in E as [-> E]).
  by apply post_ret.
Qed.

Lemma parse_h265_sps_sized sps meta meta' :
  parse_h265_sps sps meta = Some meta' -> sized (vm_width meta') (vm_height meta').
Proof.
  unfold parse_h265_sps. case_if; [done|].
  assert (post (parse_h265_sps_body meta) (fun m => sized (vm_width m) (vm_height m))) as Hp.
  { unfold parse_h265_sps_body. do 13 (apply post_bind; intros ?).
    apply post_if; [apply post_fail|]. apply post_bind. intros _.
    eapply post_bind_post; [apply post_ue|]. intros w Hw.
    eapply post_bind_post; [apply post_ue|]. intros h Hh.
    apply post_if; [apply post_fail|].
    eapply post_bind_post; [by apply post_window|]. intros [mw mh] [Hmw Hmh]. cbn [fst snd] in *.
    destruct (Z.eqb_spec mw 0); [apply post_fail|]. destruct (Z.eqb_spec mh 0); [apply post_fail|].
    cbn [orb]. post_tac. unfold sized, in_u in *. cbn. lia. }
  destruct (parse_h265_sps_body meta (BitReader_new sps)) as [o r'] eqn:E'. cbn. intros ->.
  exact (Hp _ _ _ E').
Qed.

(** ** Properties *)

(** The two H.265 SPS parsers agree: on any SPS NAL unit that both the ingest probe
    and the decoder-configuration parser accept, they report the same picture size
    after the conformance window and the same general profile and level, although one
    checks its arithmetic and the other saturates, and they skip the sub-layer
    information differently. *)
Theorem h265_sps_parsers_agree h0 h1 raw meta meta' p :
  bytes_ok raw ->
  parse_h265_sps (rbsp raw) meta = Some meta' ->
  parse_hevc_profile_tier_level (h0 :: h1 :: raw) = Some p ->
  same_video meta' p.
Proof.
  intros Hok. unfold parse_h265_sps, parse_hevc_profile_tier_level. case_if; [done|].
  cbn [get_from length Nat.leb drop mbind option_bind].
  destruct raw as [|b raw]; [done|]. intros E1 E2.
  destruct (parse_h265_sps_body _ _) as [o1 r1] eqn:F1. cbn in E1. subst o1.
  destruct (parse_hevc_ptl_body _) as [o2 r2] eqn:F2. cbn in E2. subst o2.
  eapply sps_parsers_agree; [|exact F1|exact F2]. by apply reader_new_ok, rbsp_ok.
Qed.

Definition example_h265_sps : bytes :=
  [1; 1; 0x60; 0; 0; 3; 0; 0x80; 0; 0; 3; 0; 0; 3; 0; 0x5D; 0xA0; 2; 0x80; 0x80; 0x2D; 0x16; 0x59;
   0x59; 0xA4; 0x93; 0x2B; 0xC0; 0x5A; 0x80; 0; 0; 3; 0; 0x80; 0; 0; 0x0F; 2].
Definition blank_meta (kind : StreamKind) (pid : Z) (language title : option string) : VideoMeta :=
  mk_VideoMeta (codec_name kind) 0 0 f64_zero None (Some pid) language title None None None.

Lemma h265_sps_parsers_agree_witness :
  exists meta' p,
    parse_h265_sps (rbsp example_h265_sps) (blank_meta KindH265 256 None None) = Some meta' /\
    parse_hevc_profile_tier_level (0x42 :: 1 :: example_h265_sps) = Some p /\ same_video meta' p.
Proof.
  destruct (parse_h265_sps (rbsp example_h265_sps) (blank_meta KindH265 256 None None)) as [m|] eqn:E1;
    [|by vm_compute in E1].
  destruct (parse_hevc_profile_tier_level (0x42 :: 1 :: example_h265_sps)) as [p|] eqn:E2;
    [|by vm_compute in E2].
  exists m, p. split_and!; [done|done|].
  apply (h265_sps_parsers_agree 0x42 1 example_h265_sps (blank_meta KindH265 256 None None));
    [|exact E1|exact E2].
  repeat constructor; unfold in_u; lia.
Defined.

(** A video probe is all or nothing: for an H.264 or H.265 PES payload either the
    metadata is complete (a picture size between 1 and 2^32 - 1 in both directions, a
    profile and a level, exactly when an SPS is found and parses), or it is the blank
    metadata of the stream; a partly parsed SPS never leaks into it. *)
Theorem probe_video_all_or_nothing `{Memmem} kind pid language title payload :
  kind = KindH264 \/ kind = KindH265 ->
  let meta := probe_video kind pid language title payload in
  if video_meta_complete kind meta
  then sized (vm_width meta) (vm_height meta) /\ is_Some (vm_profile meta) /\ is_Some (vm_level meta)
  else meta = blank_meta kind pid language title /\
       match kind with
       | KindH264 => (sps ← find_h264_sps payload; parse_h264_sps sps) = None
       | _ => (raw ← find_h265_sps payload; parse_h265_sps (rbsp raw) (blank_meta kind pid language title))
              = None
       end.
Proof.
  intros [-> | ->]; cbn zeta; unfold probe_video, video_meta_complete.
  - destruct (find_h264_sps payload) as [sps|]; cbn [mbind option_bind default]; [|done].
    unfold probe_h264_sps. destruct (parse_h264_sps sps) as [info|] eqn:E; cbn; [|done].
    apply parse_h264_sps_sized in E as Hs. unfold sized in *.
    destruct (Z.ltb_spec 0 (h264_width info)); [|lia].
    destruct (Z.ltb_spec 0 (h264_height info)); [|lia]. cbn. eauto.
  - fold (blank_meta KindH265 pid language title).
    destruct (find_h265_sps payload) as [raw|]; cbn [mbind option_bind default]; [|done].
    destruct (parse_h265_sps (rbsp raw) _) as [m|] eqn:E; cbn [default from_option id]; [|done].
    pose proof (parse_h265_sps_sized _ _ _ E) as Hs. unfold sized in *.
    destruct (Z.ltb_spec 0 (vm_width m)); [|lia]. destruct (Z.ltb_spec 0 (vm_height m)); [|lia].
    cbn. split; [done|]. revert E. unfold parse_h265_sps. case_if; [done|]. intros E0.
    assert (post (parse_h265_sps_body (blank_meta KindH265 pid language title))
      (fun m => is_Some (vm_profile m) /\ is_Some (vm_level m))) as Hp.
    { unfold parse_h265_sps_body. do 13 (apply post_bind; intros ?).
      apply post_if; [apply post_fail|]. do 3 (apply post_bind; intros ?).
      apply post_if; [apply post_fail|]. apply post_bind. intros [? ?].
      post_tac. cbn. eauto. }
    destruct (parse_h265_sps_body _ _) as [o r'] eqn:F. cbn in E0. subst o. exact (Hp _ _ _ F).
Qed.

Lemma probe_video_all_or_nothing_witness :
  let meta := @probe_video naive_memmem KindH265 256 None None ([0; 0; 1; 0x42; 1] ++ example_h265_sps) in
  video_meta_complete KindH265 meta = true /\
  (sized (vm_width meta) (vm_height meta) /\ is_Some (vm_profile meta) /\ is_Some (vm_level meta)).
Proof.
  cbn zeta.
  assert (E : video_meta_complete KindH265 (@probe_video naive_memmem KindH265 256 None None
    ([0; 0; 1; 0x42; 1] ++ example_h265_sps)) = true) by by vm_compute.
  split; [exact E|].
  pose proof (@probe_video_all_or_nothing naive_memmem KindH265 256 None None
    ([0; 0; 1; 0x42; 1] ++ example_h265_sps) (or_intror eq_refl)) as Hp. cbv zeta in Hp.
  rewrite E in Hp. exact Hp.
Defined.

Definition adts_profile_name (object_type : Z) : option string :=
  if object_type =? 1 then Some "Main"%string
  else if object_type =? 2 then Some "LC"%string
  else if object_type =? 3 then Some "SSR"%string
  else Some "LTP/Reserved"%string.

Lemma header_channel_field profile freq chan total :
  in_u 2 profile -> in_u 4 freq -> in_u 3 chan -> in_u 13 total ->
  (be_value [as_u8 (profile .<< 6) .| as_u8 (freq .<< 2) .| (chan .>> 2);
             as_u8 ((chan .& 0x03) .<< 6) .| ((as_u8 (total .>> 8) .>> 3) .& 0x03)] .>> 6) .& 0x07 = chan.
Proof. intros Hp Hf Hc Ht. unfold be_value. cbn [fold_left]. rewrite Z.shiftl_0_l, Z.lor_0_l. bitblast. Qed.

Lemma header_profile_field profile freq chan :
  in_u 2 profile -> in_u 4 freq -> in_u 3 chan ->
  (as_u8 (profile .<< 6) .| as_u8 (freq .<< 2) .| (chan .>> 2)) .>> 6 = profile.
Proof. intros Hp Hf Hc. bitblast. Qed.

(** The audio probe inverts the ADTS header builder: of any payload that starts with
    a header built for an object type, frequency index and channel configuration, it
    reports the profile, the sampling rate of the index and the channel count (eight
    for configuration 7), and finds the metadata complete unless the configuration
    is 0. *)
Theorem probe_audio_adts frame_len object_type freq_idx chan_cfg h rest track_index pid language title :
  0 <= frame_len -> 0 <= freq_idx -> 0 <= chan_cfg ->
  build_adts_header_for frame_len object_type freq_idx chan_cfg = Some h ->
  let meta := probe_audio KindAacAdts track_index pid language title (h ++ rest) in
  Some (am_sample_rate meta) = AAC_SAMPLE_RATES !! Z.to_nat freq_idx /\
  am_channels meta = (if chan_cfg =? 7 then 8 else chan_cfg) /\
  am_profile meta = adts_profile_name object_type /\
  audio_meta_complete KindAacAdts meta = negb (chan_cfg =? 0).
Proof.
  intros Hl Hf0 Hc0 E. apply build_adts_header_for_Some in E as (Ho & Hf & Hc & Hlen & ->); [|done].
  unfold MAX_ADTS_PAYLOAD in Hlen.
  assert (in_u 2 (object_type - 1)) by (unfold in_u; lia).
  assert (in_u 4 freq_idx) by (unfold in_u; lia).
  assert (in_u 3 chan_cfg) by (unfold in_u; lia).
  assert (in_u 13 (frame_len + 7)) by (unfold in_u; lia).
  unfold probe_audio, first_chunk. rewrite get_to_app by done.
  unfold adts_header_bytes. cbn iota.
  change ((0xFF =? 0xFF) && (0xF1 .& 0xF0 =? 0xF0)) with true. cbn iota zeta.
  rewrite header_channel_field, header_rate_field, header_profile_field by done.
  cbn [am_sample_rate am_channels am_profile audio_meta_complete].
  assert (exists rate, AAC_SAMPLE_RATES !! Z.to_nat freq_idx = Some rate /\ 0 < rate) as (rate & Hr & Hpos).
  { assert (Z.to_nat freq_idx < 13)%nat as Hlt by lia.
    destruct (lookup_lt_is_Some_2 AAC_SAMPLE_RATES (Z.to_nat freq_idx) Hlt) as [rate Hr].
    exists rate. split; [done|]. apply list_elem_of_lookup_2 in Hr.
    assert (Forall (fun r => 0 < r) AAC_SAMPLE_RATES) as Hall by (repeat constructor; lia).
    rewrite Forall_forall in Hall. by apply Hall. }
  rewrite Hr. cbn [default from_option id]. split_and!; [done|done| |].
  - unfold adts_profile_name.
    repeat match goal with |- context [?a =? ?b] => destruct (Z.eqb_spec a b); try lia end; done.
  - destruct (Z.ltb_spec 0 rate); [|lia]. cbn [andb].
    destruct (Z.eqb_spec chan_cfg 7) as [->|]; [done|].
    destruct (Z.eqb_spec chan_cfg 0) as [->|]; [done|]. destruct (Z.ltb_spec 0 chan_cfg); [done|lia].
Qed.

Lemma probe_audio_adts_witness :
  exists h, build_adts_header_for 372 2 3 2 = Some h /\
  let meta := probe_audio KindAacAdts 0 257 None None (h ++ [1; 2; 3]) in
  Some (am_sample_rate meta) = AAC_SAMPLE_RATES !! 3%nat /\ am_channels meta = 2 /\
  am_profile meta = Some "LC"%string /\ audio_meta_complete KindAacAdts meta = true.
Proof.
  eexists. split; [reflexivity|].
  apply (probe_audio_adts 372 2 3 2 _ [1; 2; 3] 0 257 None None); [lia..|reflexivity].
Defined.
