(* ===== verification/TsMux.v ===== *)
(** * The MPEG-TS muxer

    Models [crates/restream-mpegts/src/mux.rs]: the muxer state, its tables (PAT,
    PMT, SDT) and the packetisation of one media packet.  [None] is a panic of the
    source (an index or a range out of bounds); the [i64] arithmetic wraps, as in a
    release build.  A 188-byte packet is built as in the source, by writes into a
    buffer of 0xFF. *)

From S2P Require Import Prelude Bitblast Bits Aac Media TsWire Probe.

(** ** Definitions *)

Definition STREAM_TYPE_H264 : Z := 0x1B.
Definition STREAM_TYPE_H265 : Z := 0x24.
Definition STREAM_TYPE_AAC_ADTS : Z := 0x0F.

Definition is_ascii_alphabetic (b : Z) : bool :=
  ((65 <=? b) && (b <=? 90)) || ((97 <=? b) && (b <=? 122)).
Definition byte_lowercase (b : Z) : Z := if (65 <=? b) && (b <=? 90) then b + 32 else b.

Definition iso639_language_descriptor (language : option string) : bytes :=
  match language with
  | None => []
  | Some language =>
      let code := map byte_lowercase
                    (take 3 (List.filter is_ascii_alphabetic (string_bytes language))) in
      match code with
      | [c0; c1; c2] => [0x0A; 0x04; c0; c1; c2; 0x00]
      | _ => []
      end
  end.

Record MuxStreamConfig := mk_MuxStreamConfig {
  stream_type : Z;
  ms_pid : Z;
  ms_media_type : MediaType;
  ms_track_index : Z;
  sample_rate : Z;
  language : option string;
}.

Record TsServiceMetadata := mk_TsServiceMetadata { provider_name : string; service_name : string }.

Definition TsServiceMetadata_disabled : TsServiceMetadata := mk_TsServiceMetadata "" "".
Definition TsServiceMetadata_default : TsServiceMetadata :=
  mk_TsServiceMetadata "Restream" "Restream Recording".

Record TsMuxer := mk_TsMuxer {
  streams : list MuxStreamConfig;
  continuity : list Z;
  pat_cc : Z;
  pmt_cc : Z;
  sdt_cc : Z;
  pmt_pid : Z;
  pcr_pid : Z;
  last_pat_pmt_dts : option Z;
  last_dts_90k : list Z;
  service_metadata : TsServiceMetadata;
}.

Record PacketMeta := mk_PacketMeta { pts_ms : Z; dts_ms : Z; pm_is_keyframe : bool }.

(** The audio streams behind [pid]. *)
Fixpoint audio_streams (pid : Z) (audio_tracks : list AudioMeta) : list MuxStreamConfig :=
  match audio_tracks with
  | [] => []
  | a :: rest =>
      mk_MuxStreamConfig STREAM_TYPE_AAC_ADTS pid Audio (am_track_index a) (am_sample_rate a)
        (am_language a) :: audio_streams (as_u16 (pid + 1)) rest
  end.

Definition new_with_metadata (video : option VideoMeta) (audio_tracks : list AudioMeta)
    (metadata : TsServiceMetadata) : TsMuxer :=
  let pid := 0x100 in
  let streams :=
    match video with
    | Some v =>
        let stream_type := if bool_decide (vm_codec v = "h264"%string) then STREAM_TYPE_H264
                           else if bool_decide (vm_codec v = "hevc"%string) then STREAM_TYPE_H265
                           else STREAM_TYPE_H264 in
        mk_MuxStreamConfig stream_type pid Video 0 0 None
          :: audio_streams (as_u16 (pid + 1)) audio_tracks
    | None => audio_streams pid audio_tracks
    end in
  let stream_count := length streams in
  let pcr_pid := match streams with s :: _ => ms_pid s | [] => 0x100 end in
  mk_TsMuxer streams (replicate stream_count 0) 0 0 0 0x1000 pcr_pid None
    (replicate stream_count i64_MIN) metadata.

Definition TsMuxer_new (video : option VideoMeta) (audio_tracks : list AudioMeta) : TsMuxer :=
  new_with_metadata video audio_tracks TsServiceMetadata_disabled.

Definition stream_index (self : TsMuxer) (media_type : MediaType) (track_index : Z) : option nat :=
  position (fun s => bool_decide (ms_media_type s = media_type) && (ms_track_index s =? track_index))
    (streams self).

(** [dst[at..at + src.len()].copy_from_slice(src)] *)
Definition splice (at_ : nat) (src dst : bytes) : bytes :=
  take at_ dst ++ src ++ drop (at_ + length src) dst.

Definition blank_packet : bytes := replicate TS_PACKET_SIZE 0xFF.

Definition packet_span_end_90k (self : TsMuxer) (stream_idx : nat) (dts_90k : Z) (payload : bytes) : Z :=
  match streams self !! stream_idx with
  | None => dts_90k
  | Some stream =>
      if negb (bool_decide (ms_media_type stream = Audio)) || (sample_rate stream =? 0) then dts_90k
      else
        let frame_count := Z.of_nat (adts_frame_count payload) in
        if frame_count <=? 1 then dts_90k
        else
          let frame_ticks := Z.quot (90000 * 1024) (sample_rate stream) in
          as_i64 (dts_90k + as_i64 (frame_ticks * (frame_count - 1)))
  end.

(** *** Tables *)

Definition write_pat (self : TsMuxer) (out : bytes) : TsMuxer * bytes :=
  let ts := blank_packet in
  let ts := <[0%nat := TS_SYNC_BYTE]> ts in
  let ts := <[1%nat := 0x40]> ts in
  let ts := <[2%nat := 0x00]> ts in
  let ts := <[3%nat := 0x10 .| (pat_cc self .& 0x0F)]> ts in
  let ts := <[4%nat := 0x00]> ts in
  let pat := [0x00; 0xB0; 13; 0x00; 0x01; 0xC1; 0x00; 0x00; 0x00; 0x01;
              0xE0 .| (as_u8 (pmt_pid self .>> 8) .& 0x1F); as_u8 (pmt_pid self)] in
  let ts := splice 5 pat ts in
  let crc := crc32_mpeg2 (take 12 (drop 5 ts)) in
  let ts := <[17%nat := as_u8 (crc .>> 24)]> ts in
  let ts := <[18%nat := as_u8 (crc .>> 16)]> ts in
  let ts := <[19%nat := as_u8 (crc .>> 8)]> ts in
  let ts := <[20%nat := as_u8 crc]> ts in
  (mk_TsMuxer (streams self) (continuity self) ((pat_cc self + 1) .& 0x0F) (pmt_cc self) (sdt_cc self)
     (pmt_pid self) (pcr_pid self) (last_pat_pmt_dts self) (last_dts_90k self) (service_metadata self),
   out ++ ts).

Definition stream_descriptors (s : MuxStreamConfig) : bytes :=
  match ms_media_type s with
  | Audio => iso639_language_descriptor (language s)
  | Video => []
  end.

Definition pmt_entry (s : MuxStreamConfig) : bytes :=
  let descriptors := stream_descriptors s in
  let len := zlen descriptors in
  [stream_type s;
   0xE0 .| (as_u8 (ms_pid s .>> 8) .& 0x1F);
   as_u8 (ms_pid s);
   0xF0 .| (as_u8 (len .>> 8) .& 0x0F);
   as_u8 len] ++ descriptors.

(** The section without its CRC, for a given length field. *)
Definition pmt_section (self : TsMuxer) (section_len : Z) : bytes :=
  [0x02; 0xB0 .| (as_u8 (section_len .>> 8) .& 0x0F); as_u8 section_len;
   0x00; 0x01; 0xC1; 0x00; 0x00;
   0xE0 .| (as_u8 (pcr_pid self .>> 8) .& 0x1F); as_u8 (pcr_pid self); 0xF0; 0x00]
  ++ flat_map pmt_entry (streams self).

Definition crc_bytes (crc : Z) : bytes :=
  [as_u8 (crc .>> 24); as_u8 (crc .>> 16); as_u8 (crc .>> 8); as_u8 crc].

(** The packets of a PMT section; a round copies at least a byte. *)
Fixpoint write_pmt_loop (fuel : nat) (pmt_pid : Z) (section : bytes) (offset : nat) (first : bool)
    (cc : Z) (out : bytes) : Z * bytes :=
  match fuel with
  | O => (cc, out)
  | S fuel' =>
      if (offset <? length section)%nat then
        let ts := blank_packet in
        let ts := <[0%nat := TS_SYNC_BYTE]> ts in
        let ts := <[1%nat := (as_u8 (pmt_pid .>> 8) .& 0x1F) .| (if first then 0x40 else 0x00)]> ts in
        let ts := <[2%nat := as_u8 pmt_pid]> ts in
        let ts := <[3%nat := 0x10 .| (cc .& 0x0F)]> ts in
        let cc := (cc + 1) .& 0x0F in
        let '(ts, payload_start) :=
          if first then (<[4%nat := 0x00]> ts, 5%nat) else (ts, 4%nat) in
        let capacity := (TS_PACKET_SIZE - payload_start)%nat in
        let n := Nat.min capacity (length section - offset) in
        let ts := splice payload_start (take n (drop offset section)) ts in
        write_pmt_loop fuel' pmt_pid section (offset + n) false cc (out ++ ts)
      else (cc, out)
  end.

Definition write_pmt (self : TsMuxer) (out : bytes) : TsMuxer * bytes :=
  let entry_size := sum_list_with (fun s => 5 + length (stream_descriptors s))%nat (streams self) in
  let section_len := 9 + Z.of_nat entry_size + 4 in
  if 1021 <? section_len then (self, out)
  else
    let section := pmt_section self section_len in
    let crc := crc32_mpeg2 section in
    let section := section ++ crc_bytes crc in
    let '(cc, out) := write_pmt_loop (length section) (pmt_pid self) section 0 true (pmt_cc self) out in
    (mk_TsMuxer (streams self) (continuity self) (pat_cc self) cc (sdt_cc self) (pmt_pid self)
       (pcr_pid self) (last_pat_pmt_dts self) (last_dts_90k self) (service_metadata self), out).

(** [str::is_char_boundary] on the bytes of a string: not a continuation byte. *)
Definition is_char_boundary (value : bytes) (i : nat) : bool :=
  if (i =? 0)%nat then true
  else match value !! i with
       | Some b => negb (b .& 0xC0 =? 0x80)
       | None => (i =? length value)%nat
       end.

Fixpoint char_boundary_below (value : bytes) (end_ : nat) : nat :=
  match end_ with
  | O => O
  | S end' => if negb (is_char_boundary value end_) then char_boundary_below value end' else end_
  end.

Definition truncate_utf8_bytes (value : bytes) (max_bytes : nat) : bytes :=
  if (length value <=? max_bytes)%nat then value
  else take (char_boundary_below value max_bytes) value.

Definition write_sdt (self : TsMuxer) (out : bytes) : option (TsMuxer * bytes) :=
  let provider := truncate_utf8_bytes (string_bytes (provider_name (service_metadata self))) 48 in
  let service := truncate_utf8_bytes (string_bytes (service_name (service_metadata self))) 110 in
  let descriptor_len := 3 + zlen provider + zlen service in
  let service_loop_len := 5 + 2 + descriptor_len in
  let section_len := 12 + service_loop_len in
  let ts := blank_packet in
  let ts := <[0%nat := TS_SYNC_BYTE]> ts in
  let ts := <[1%nat := 0x40 .| (as_u8 (SDT_PID .>> 8) .& 0x1F)]> ts in
  let ts := <[2%nat := as_u8 SDT_PID]> ts in
  let ts := <[3%nat := 0x10 .| (sdt_cc self .& 0x0F)]> ts in
  let ts := <[4%nat := 0x00]> ts in
  let head := [0x42; 0xF0 .| (as_u8 (section_len .>> 8) .& 0x0F); as_u8 section_len;
               0x00; 0x01; 0xC1; 0x00; 0x00; 0x00; 0x01; 0xFF] in
  let service_entry := [0x00; 0x01; 0xFC; 0x80 .| (as_u8 (descriptor_len .>> 8) .& 0x0F); as_u8 descriptor_len] in
  let descriptor := [0x48; as_u8 descriptor_len; 0x01; as_u8 (zlen provider)] ++ provider
                    ++ [as_u8 (zlen service)] ++ service in
  let sdt := head ++ service_entry ++ descriptor in
  let crc_end := Z.to_nat (5 + 3 + section_len - 4) in
  if (5 + length sdt <=? TS_PACKET_SIZE)%nat && (crc_end + 4 <=? TS_PACKET_SIZE)%nat then
    let ts := splice 5 sdt ts in
    let crc := crc32_mpeg2 (take (crc_end - 5) (drop 5 ts)) in
    let ts := splice crc_end (crc_bytes crc) ts in
    Some (mk_TsMuxer (streams self) (continuity self) (pat_cc self) (pmt_cc self)
            ((sdt_cc self + 1) .& 0x0F) (pmt_pid self) (pcr_pid self) (last_pat_pmt_dts self)
            (last_dts_90k self) (service_metadata self), out ++ ts)
  else None.

(** *** One media packet *)

(** The packet buffer with its header, and where the payload starts. *)
Definition ts_header (pid pcr_pid cc : Z) (first is_keyframe : bool) (dts_90k : Z) (remaining_pes : nat)
    : bytes * nat :=
  let ts := blank_packet in
  let ts := <[0%nat := TS_SYNC_BYTE]> ts in
  let pusi_bit := if first then 0x40 else 0x00 in
  let ts := <[1%nat := pusi_bit .| (as_u8 (pid .>> 8) .& 0x1F)]> ts in
  let ts := <[2%nat := as_u8 pid]> ts in
  if first && (is_keyframe || (pid =? pcr_pid)) then
    let pcr_bytes := if pid =? pcr_pid then 6%nat else 0%nat in
    let af_flags := (if is_keyframe then 0x40 else 0x00) .| (if (0 <? pcr_bytes)%nat then 0x10 else 0x00) in
    let min_af_len := (1 + pcr_bytes)%nat in
    let available := (TS_PACKET_SIZE - 4 - 1 - min_af_len)%nat in
    let payload_in_packet := Nat.min remaining_pes available in
    let stuff := (available - payload_in_packet)%nat in
    let af_len := (min_af_len + stuff)%nat in
    let ts := <[3%nat := 0x30 .| cc]> ts in
    let ts := <[4%nat := as_u8 (Z.of_nat af_len)]> ts in
    let ts := <[5%nat := af_flags]> ts in
    let ts := if (0 <? pcr_bytes)%nat then splice 6 (write_pcr dts_90k) ts else ts in
    (ts, (5 + af_len)%nat)
  else
    let available := (TS_PACKET_SIZE - 4)%nat in
    let payload_in_packet := Nat.min remaining_pes available in
    if (payload_in_packet <? available)%nat then
      let stuff := (available - payload_in_packet)%nat in
      if (stuff =? 1)%nat then
        let ts := <[3%nat := 0x30 .| cc]> ts in
        let ts := <[4%nat := 0x00]> ts in
        (ts, 5%nat)
      else
        let ts := <[3%nat := 0x30 .| cc]> ts in
        let ts := <[4%nat := as_u8 (Z.of_nat (stuff - 1))]> ts in
        let ts := if (2 <=? stuff)%nat then <[5%nat := 0x00]> ts else ts in
        (ts, (4 + stuff)%nat)
    else
      let ts := <[3%nat := 0x10 .| cc]> ts in
      (ts, 4%nat).

(** [while pes_offset < total_pes]: a round copies at least a byte. *)
Fixpoint packetize (fuel : nat) (pid pcr_pid : Z) (is_keyframe : bool) (dts_90k : Z)
    (pes_hdr payload : bytes) (pes_offset : nat) (first : bool) (cc : Z) (out : bytes)
    : option (Z * bytes) :=
  let total_pes := (length pes_hdr + length payload)%nat in
  match fuel with
  | O => Some (cc, out)
  | S fuel' =>
      if (pes_offset <? total_pes)%nat then
        let remaining_pes := (total_pes - pes_offset)%nat in
        let '(ts, header_end) := ts_header pid pcr_pid cc first is_keyframe dts_90k remaining_pes in
        let payload_space := (TS_PACKET_SIZE - header_end)%nat in
        let copy_len := Nat.min remaining_pes payload_space in
        part ← copy_pes_slices pes_hdr payload pes_offset copy_len;
        packetize fuel' pid pcr_pid is_keyframe dts_90k pes_hdr payload (pes_offset + copy_len) false
          ((cc + 1) .& 0x0F) (out ++ splice header_end part ts)
      else Some (cc, out)
  end.

(** [pes_hdr[..hdr_len]] *)
Definition pes_header (media_type : MediaType) (pts_90k dts_90k : Z) (payload_len : Z) : bytes :=
  let pts_differs := negb (pts_90k =? dts_90k) in
  let hdr_len := if pts_differs then 19 else 14 in
  let pes_data_len := hdr_len - 6 + payload_len in
  PES_START_CODE
  ++ [match media_type with Video => 0xE0 | Audio => 0xC0 end]
  ++ (if bool_decide (media_type = Audio) && (pes_data_len <=? 0xFFFF)
      then [as_u8 (pes_data_len .>> 8); as_u8 pes_data_len] else [0; 0])
  ++ [0x80; if pts_differs then 0xC0 else 0x80; if pts_differs then 10 else 5]
  ++ write_timestamp_buf pts_90k (if pts_differs then 0x03 else 0x02)
  ++ (if pts_differs then write_timestamp_buf dts_90k 0x01 else []).

(** The timestamps a packet leaves with, given the previous one of its stream. *)
Definition next_timestamps (prev : option Z) (pts_ms dts_ms : Z) : Z * Z :=
  let pts_90k := ms_to_ts pts_ms in
  let dts_90k := ms_to_ts dts_ms in
  let pts_offset_90k := Z.max (as_i64 (pts_90k - dts_90k)) 0 in
  let '(pts_90k, dts_90k) :=
    match prev with
    | Some prev =>
        if dts_90k <=? prev then
          let dts_90k := as_i64 (prev + 1) in
          (as_i64 (dts_90k + pts_offset_90k), dts_90k)
        else (pts_90k, dts_90k)
    | None => (pts_90k, dts_90k)
    end in
  (if pts_90k <? dts_90k then dts_90k else pts_90k, dts_90k).

Definition should_insert_tables (last : option Z) (dts_ms : Z) (is_keyframe : bool) : bool :=
  match last with
  | None => true
  | Some last => is_keyframe || (500 <=? Z.abs (as_i64 (dts_ms - last)))
  end.

Definition write_tables (self : TsMuxer) (dts_ms : Z) (is_keyframe : bool) (out : bytes)
    : option (TsMuxer * bytes) :=
  if should_insert_tables (last_pat_pmt_dts self) dts_ms is_keyframe then
    let '(self, out) := write_pat self out in
    let '(self, out) := write_pmt self out in
    '(self, out) ←
      (if negb (bool_decide (provider_name (service_metadata self) = ""%string))
          || negb (bool_decide (service_name (service_metadata self) = ""%string))
       then write_sdt self out else Some (self, out));
    Some (mk_TsMuxer (streams self) (continuity self) (pat_cc self) (pmt_cc self) (sdt_cc self)
            (pmt_pid self) (pcr_pid self) (Some dts_ms) (last_dts_90k self) (service_metadata self), out)
  else Some (self, out).

Definition mux_packet_at (self : TsMuxer) (stream_idx : nat) (media_type : MediaType)
    (meta : PacketMeta) (payload out : bytes) : option (TsMuxer * bytes) :=
  match payload with
  | [] => Some (self, out)
  | _ =>
      stream ← streams self !! stream_idx;
      let pid := ms_pid stream in
      let '(pts_90k, dts_90k) :=
        next_timestamps (last_dts_90k self !! stream_idx) (pts_ms meta) (dts_ms meta) in
      let span_end := packet_span_end_90k self stream_idx dts_90k payload in
      let self :=
        mk_TsMuxer (streams self) (continuity self) (pat_cc self) (pmt_cc self) (sdt_cc self)
          (pmt_pid self) (pcr_pid self) (last_pat_pmt_dts self)
          (<[stream_idx := span_end]> (last_dts_90k self)) (service_metadata self) in
      '(self, out) ← write_tables self (dts_ms meta) (pm_is_keyframe meta) out;
      let pes_hdr := pes_header media_type pts_90k dts_90k (zlen payload) in
      cc ← continuity self !! stream_idx;
      '(cc, out) ← packetize (length pes_hdr + length payload) pid (pcr_pid self) (pm_is_keyframe meta)
                     dts_90k pes_hdr payload 0 true cc out;
      Some (mk_TsMuxer (streams self) (<[stream_idx := cc]> (continuity self)) (pat_cc self) (pmt_cc self)
              (sdt_cc self) (pmt_pid self) (pcr_pid self) (last_pat_pmt_dts self) (last_dts_90k self)
              (service_metadata self), out)
  end.

Definition mux_packet_into (self : TsMuxer) (media_type : MediaType) (track_index : Z)
    (meta : PacketMeta) (payload out : bytes) : option (TsMuxer * bytes) :=
  match stream_index self media_type track_index with
  | Some stream_idx => mux_packet_at self stream_idx media_type meta payload out
  | None => Some (self, out)
  end.

(** The bytes returned are the muxer's scratch buffer, cleared first. *)
Definition mux_packet (self : TsMuxer) (media_type : MediaType) (track_index pts_ms dts_ms : Z)
    (is_keyframe : bool) (payload : bytes) : option (TsMuxer * bytes) :=
  mux_packet_into self media_type track_index (mk_PacketMeta pts_ms dts_ms is_keyframe) payload [].

Definition mux_packet_by_stream_idx (self : TsMuxer) (stream_idx : nat) (media_type : MediaType)
    (pts_ms dts_ms : Z) (is_keyframe : bool) (payload : bytes) : option (TsMuxer * bytes) :=
  if bool_decide (ms_media_type <$> streams self !! stream_idx = Some media_type)
  then mux_packet_at self stream_idx media_type (mk_PacketMeta pts_ms dts_ms is_keyframe) payload []
  else Some (self, []).

(** ** Specification: reading a transport packet *)

(** The payload behind the header and the adaptation field. *)
Definition ts_payload (pkt : bytes) : bytes :=
  match pkt with
  | _ :: _ :: _ :: control :: after =>
      let afc := (control .>> 4) .& 0x03 in
      if afc =? 1 then after
      else if afc =? 3 then
        match after with
        | af_len :: rest => drop (Z.to_nat af_len) rest
        | [] => []
        end
      else []
  | _ => []
  end.

Definition ts_random_access (pkt : bytes) : bool :=
  match pkt with
  | _ :: _ :: _ :: control :: af_len :: flags :: _ =>
      ((control .>> 4) .& 0x03 =? 3) && (0 <? af_len) && negb (flags .& 0x40 =? 0)
  | _ => false
  end.

(** A packet with the given PID, unit start and continuity counter. *)
Definition ts_packet_ok (pid : Z) (first : bool) (cc : Z) (pkt : bytes) : Prop :=
  length pkt = TS_PACKET_SIZE /\
  exists flags pid_low control rest, pkt = TS_SYNC_BYTE :: flags :: pid_low :: control :: rest /\
    is_u8 flags /\ is_u8 pid_low /\ is_u8 control /\
    be_value [flags .& 0x1F; pid_low] = pid /\ negb (flags .& 0x40 =? 0) = first /\
    control .& 0x0F = cc.

(** Consecutive packets of a PID, the first one starting a unit. *)
Fixpoint packets_ok (pid : Z) (first : bool) (cc : Z) (pkts : list bytes) : Prop :=
  match pkts with
  | [] => True
  | pkt :: rest => ts_packet_ok pid first cc pkt /\ packets_ok pid false ((cc + 1) .& 0x0F) rest
  end.

(** ** Lemmas *)

Lemma splice_end at_ src dst :
  (at_ + length src = length dst)%nat -> splice at_ src dst = take at_ dst ++ src.
Proof. intros Hl. unfold splice. rewrite drop_ge by lia. by rewrite app_nil_r. Qed.

Lemma blank4 a b c d :
  <[3%nat := d]> (<[2%nat := c]> (<[1%nat := b]> (<[0%nat := a]> blank_packet)))
  = [a; b; c; d] ++ replicate 184 0xFF.
Proof. reflexivity. Qed.

(** What a header is: four bytes, then an adaptation field that fills the packet
    up to the payload. *)
Definition header_spec (pid cc : Z) (first is_keyframe : bool) (remaining : nat) (ts : bytes) (header_end : nat) : Prop :=
  exists af,
    take header_end ts =
      [TS_SYNC_BYTE; (if first then 0x40 else 0x00) .| (as_u8 (pid .>> 8) .& 0x1F); as_u8 pid;
       (match af with [] => 0x10 | _ => 0x30 end) .| cc] ++ af /\
    length ts = TS_PACKET_SIZE /\ header_end = (4 + length af)%nat /\
    (header_end + Nat.min remaining (TS_PACKET_SIZE - header_end) = TS_PACKET_SIZE)%nat /\
    (header_end < TS_PACKET_SIZE)%nat /\
    match af with
    | [] => first && is_keyframe = false
    | af_len :: body => af_len = zlen body /\
        match body with
        | [] => first && is_keyframe = false
        | flags :: _ => negb (flags .& 0x40 =? 0) = first && is_keyframe
        end
    end.

Lemma length_write_pcr ts : length (write_pcr ts) = 6%nat.
Proof. reflexivity. Qed.

Lemma take_app_replicate {A} (l : list A) n m x k :
  k = (length l + n)%nat -> (n <= m)%nat -> take k (l ++ replicate m x) = l ++ replicate n x.
Proof.
  intros -> Hn. rewrite take_app_ge by lia. replace (length l + n - length l)%nat with n by lia.
  f_equal. rewrite take_replicate. f_equal. lia.
Qed.

Lemma as_u8_nat n : (n < 256)%nat -> as_u8 (Z.of_nat n) = Z.of_nat n.
Proof. intros Hn. apply wrapu_id. unfold in_u. lia. Qed.

Lemma blank6 a b c d e f :
  <[5%nat := f]> (<[4%nat := e]> (<[3%nat := d]> (<[2%nat := c]> (<[1%nat := b]> (<[0%nat := a]> blank_packet)))))
  = [a; b; c; d; e; f] ++ replicate 182 0xFF.
Proof. reflexivity. Qed.

Lemma blank5 a b c d e :
  <[4%nat := e]> (<[3%nat := d]> (<[2%nat := c]> (<[1%nat := b]> (<[0%nat := a]> blank_packet))))
  = [a; b; c; d; e] ++ replicate 183 0xFF.
Proof. reflexivity. Qed.

Lemma splice_pcr l dts :
  length l = 6%nat ->
  splice 6 (write_pcr dts) (l ++ replicate 182 0xFF) = (l ++ write_pcr dts) ++ replicate 176 0xFF.
Proof.
  intros Hl. unfold splice. rewrite length_write_pcr, <- app_assoc. f_equal.
  - by rewrite take_app_length'.
  - f_equal. rewrite drop_app_ge, Hl by lia. by rewrite drop_replicate.
Qed.

Lemma ts_header_af_spec pid pcr_pid cc is_keyframe dts remaining ts header_end :
  (0 < remaining)%nat -> is_keyframe || (pid =? pcr_pid) = true ->
  ts_header pid pcr_pid cc true is_keyframe dts remaining = (ts, header_end) ->
  header_spec pid cc true is_keyframe remaining ts header_end.
Proof.
  intros Hr Hk. unfold ts_header, header_spec, TS_PACKET_SIZE. rewrite Hk. cbn [andb].
  rewrite blank6. destruct (pid =? pcr_pid); cbn [Nat.ltb Nat.leb]; intros E; apply pair_equal_spec in E as [<- <-].
  - set (n := (176 - Nat.min remaining 176)%nat). assert (n <= 175)%nat by lia.
    change (188 - 4 - 1 - 7)%nat with 176%nat. fold n. rewrite splice_pcr by done.
    exists (Z.of_nat (7 + n) :: ((if is_keyframe then 0x40 else 0x00) .| 0x10) :: write_pcr dts ++ replicate n 0xFF).
    rewrite as_u8_nat by lia.
    rewrite (take_app_replicate _ n) by (cbn; lia).
    split_and!.
    + by app_norm.
    + reflexivity.
    + cbn. rewrite length_replicate. lia.
    + lia.
    + lia.
    + unfold zlen. cbn. rewrite length_replicate. lia.
    + by destruct is_keyframe.
  - set (n := (182 - Nat.min remaining 182)%nat). assert (n <= 181)%nat by lia.
    change (188 - 4 - 1 - 1)%nat with 182%nat. fold n.
    exists (Z.of_nat (1 + n) :: ((if is_keyframe then 0x40 else 0x00) .| 0x00) :: replicate n 0xFF).
    rewrite as_u8_nat by lia.
    rewrite (take_app_replicate _ n) by (cbn; lia).
    split_and!.
    + by app_norm.
    + reflexivity.
    + cbn. rewrite length_replicate. lia.
    + lia.
    + lia.
    + unfold zlen. cbn. rewrite length_replicate. lia.
    + by destruct is_keyframe.
Qed.

Lemma ts_header_plain_spec pid pcr_pid cc first is_keyframe dts remaining ts header_end :
  (0 < remaining)%nat -> first && (is_keyframe || (pid =? pcr_pid)) = false ->
  ts_header pid pcr_pid cc first is_keyframe dts remaining = (ts, header_end) ->
  header_spec pid cc first is_keyframe remaining ts header_end.
Proof.
  intros Hr Hk. unfold ts_header, header_spec, TS_PACKET_SIZE. rewrite Hk.
  assert (Hfk : first && is_keyframe = false) by (by destruct first, is_keyframe). rewrite Hfk.
  change (188 - 4)%nat with 184%nat.
  destruct (Nat.ltb_spec (Nat.min remaining 184) 184).
  - set (stuff := (184 - Nat.min remaining 184)%nat).
    destruct (Nat.eqb_spec stuff 1).
    + rewrite blank5. intros E; apply pair_equal_spec in E as [<- <-]. exists [0]. split_and!; [|reflexivity|done|lia|lia|done|done].
      by rewrite take_app_length'.
    + destruct (Nat.leb_spec 2 stuff); [|lia]. rewrite blank6. intros E; apply pair_equal_spec in E as [<- <-].
      exists (Z.of_nat (stuff - 1) :: 0 :: replicate (stuff - 2) 0xFF).
      rewrite as_u8_nat by lia.
      rewrite (take_app_replicate _ (stuff - 2)) by (cbn; lia).
      split_and!; [by app_norm|reflexivity| |lia|lia| |done].
      * cbn. rewrite length_replicate. lia.
      * unfold zlen. cbn. rewrite length_replicate. lia.
  - rewrite blank4. intros E; apply pair_equal_spec in E as [<- <-]. exists []. split_and!; [|reflexivity|done|lia|lia|done].
    by rewrite take_app_length'.
Qed.

Lemma ts_header_spec pid pcr_pid cc first is_keyframe dts remaining ts header_end :
  (0 < remaining)%nat ->
  ts_header pid pcr_pid cc first is_keyframe dts remaining = (ts, header_end) ->
  header_spec pid cc first is_keyframe remaining ts header_end.
Proof.
  intros Hr. destruct (first && (is_keyframe || (pid =? pcr_pid))) eqn:E.
  - apply andb_true_iff in E as [-> E]. by apply ts_header_af_spec.
  - by apply ts_header_plain_spec.
Qed.

(** The finished packet carries its part of the PES. *)
Lemma header_spec_packet pid cc first is_keyframe remaining ts header_end part :
  in_u 13 pid -> in_u 4 cc -> header_spec pid cc first is_keyframe remaining ts header_end ->
  length part = Nat.min remaining (TS_PACKET_SIZE - header_end) ->
  let pkt := splice header_end part ts in
  ts_packet_ok pid first cc pkt /\ ts_payload pkt = part /\
  ts_random_access pkt = first && is_keyframe.
Proof.
  intros Hp Hc (af & Htake & Hlen & -> & Hfull & Hlt & Haf) Hpart. cbn zeta.
  rewrite splice_end by (unfold TS_PACKET_SIZE in *; lia).
  rewrite Htake.
  assert (Hf1 : is_u8 ((if first then 0x40 else 0x00) .| (as_u8 (pid .>> 8) .& 0x1F)))
    by (destruct first; bitrange).
  assert (Hpidv : be_value [((if first then 0x40 else 0x00) .| (as_u8 (pid .>> 8) .& 0x1F)) .& 0x1F; as_u8 pid] = pid).
  { unfold be_value. cbn [fold_left]. rewrite Z.shiftl_0_l, Z.lor_0_l. destruct first; bitblast. }
  assert (Hfirst : negb (((if first then 0x40 else 0x00) .| (as_u8 (pid .>> 8) .& 0x1F)) .& 0x40 =? 0) = first).
  { assert (((if first then 0x40 else 0x00) .| (as_u8 (pid .>> 8) .& 0x1F)) .& 0x40
      = if first then 0x40 else 0) as -> by (destruct first; bitblast). by destruct first. }
  split_and!.
  - split.
    + cbn. rewrite !length_app. unfold TS_PACKET_SIZE in *. lia.
    + do 4 eexists. app_norm. split; [done|].
      split_and!; [done|apply wrapu_range; lia|destruct af; bitrange|done|done|destruct af; bitblast].
  - app_norm. unfold ts_payload.
    destruct af as [|l body].
    + assert (((0x10 .| cc) .>> 4) .& 0x03 = 1) as -> by bitblast. done.
    + assert (((0x30 .| cc) .>> 4) .& 0x03 = 3) as -> by bitblast. cbn [Z.eqb Pos.eqb app].
      destruct Haf as [-> _]. unfold zlen. rewrite Nat2Z.id. by rewrite drop_app_length.
  - app_norm. unfold ts_random_access.
    destruct af as [|l [|fl body]]; cbn [app].
    + assert (((0x10 .| cc) .>> 4) .& 0x03 = 1) as -> by bitblast. rewrite Haf.
      by destruct part as [|? [|? ?]].
    + destruct Haf as [-> Haf]. rewrite Haf. destruct part; [done|]. by rewrite andb_false_r.
    + assert (((0x30 .| cc) .>> 4) .& 0x03 = 3) as -> by bitblast. destruct Haf as [-> Haf].
      destruct (Z.ltb_spec 0 (zlen (fl :: body))); [done|]. unfold zlen in *. cbn in *. lia.
Qed.

Lemma cc_next_range cc : in_u 4 ((cc + 1) .& 0x0F).
Proof. apply land_range_r; [unfold in_u; lia|lia]. Qed.

Lemma ts_packet_ok_length pid first cc pkt : ts_packet_ok pid first cc pkt -> length pkt = TS_PACKET_SIZE.
Proof. by intros [? _]. Qed.

(** A packet has room for 176 bytes of payload. *)
Lemma ts_header_room pid pcr_pid cc first is_keyframe dts remaining ts header_end :
  ts_header pid pcr_pid cc first is_keyframe dts remaining = (ts, header_end) ->
  (Nat.min remaining 176 <= TS_PACKET_SIZE - header_end)%nat.
Proof.
  unfold ts_header, TS_PACKET_SIZE. destruct (first && _).
  - destruct (pid =? pcr_pid); cbn [Nat.ltb Nat.leb]; intros E; apply pair_equal_spec in E as [_ <-]; lia.
  - destruct (_ <? _)%nat; [|intros E; apply pair_equal_spec in E as [_ <-]; lia].
    destruct (_ =? 1)%nat; intros E; apply pair_equal_spec in E as [_ <-]; lia.
Qed.

(** The packets of a PES from an offset on. *)
Lemma packetize_ok pid pcr_pid is_keyframe dts hdr pl :
  in_u 13 pid -> forall fuel offset first cc out,
  (length hdr + length pl - offset <= fuel)%nat -> in_u 4 cc ->
  exists cc' pkts,
    packetize fuel pid pcr_pid is_keyframe dts hdr pl offset first cc out = Some (cc', out ++ concat pkts) /\
    in_u 4 cc' /\ packets_ok pid first cc pkts /\
    flat_map ts_payload pkts = drop offset (hdr ++ pl) /\
    map ts_random_access pkts =
      match pkts with [] => [] | _ :: rest => (first && is_keyframe) :: map (fun _ => false) rest end /\
    Forall (fun p => ts_payload p <> []) pkts /\
    match pkts with
    | [] => (length hdr + length pl <= offset)%nat
    | p :: _ => (Nat.min (length hdr + length pl - offset) 176 <= length (ts_payload p))%nat
    end.
Proof.
  intros Hp fuel. induction fuel as [|fuel IH]; intros offset first cc out Hf Hcc; cbn [packetize].
  - exists cc, []. rewrite app_nil_r, drop_ge by (rewrite length_app; lia). split_and!; try done; try constructor; lia.
  - destruct (Nat.ltb_spec offset (length hdr + length pl)) as [Hlt|Hge].
    2: { exists cc, []. rewrite app_nil_r, drop_ge by (rewrite length_app; lia). split_and!; try done; try constructor; lia. }
    destruct (ts_header _ _ _ _ _ _ _) as [ts header_end] eqn:Eh.
    apply ts_header_room in Eh as Hroom. apply ts_header_spec in Eh as Hs; [|lia].
    set (remaining := (length hdr + length pl - offset)%nat) in *.
    set (n := Nat.min remaining (TS_PACKET_SIZE - header_end)).
    assert (0 < n <= remaining)%nat.
    { destruct Hs as (af & _ & _ & _ & _ & Hl & _). lia. }
    rewrite copy_pes_slices_ok by lia. cbn [mbind option_bind].
    set (part := take n (drop offset (hdr ++ pl))).
    assert (Hpart : length part = n) by (subst part; rewrite length_take, length_drop, length_app; lia).
    destruct (header_spec_packet pid cc first is_keyframe remaining ts header_end part Hp Hcc Hs Hpart)
      as (Hok & Hpay & Hra).
    destruct (IH (offset + n)%nat false ((cc + 1) .& 0x0F) (out ++ splice header_end part ts)
      ltac:(lia) (cc_next_range cc)) as (cc' & pkts & -> & Hcc' & Hpk & Hfl & Hras & Hpne & _).
    exists cc', (splice header_end part ts :: pkts). cbn [concat packets_ok flat_map map].
    rewrite <- app_assoc, Hfl, Hpay, Hra, Hras. split_and!; try done.
    + subst part. rewrite <- (take_drop n (drop offset (hdr ++ pl))) at 2. by rewrite drop_drop.
    + f_equal. by destruct pkts.
    + constructor; [|done]. rewrite Hpay. intros Hnil. rewrite Hnil in Hpart. cbn in Hpart. lia.
    + rewrite Hpart. subst n. lia.
Qed.

Lemma length_pes_header mt pts dts n :
  length (pes_header mt pts dts n) = (if pts =? dts then 14%nat else 19%nat).
Proof. unfold pes_header. by destruct mt, (pts =? dts); cbn [negb]; try case_if. Qed.

(** *** Tables *)

(** A PSI packet: pointer field first when it starts the section. *)
Lemma crc_bytes_be crc : crc_bytes crc = to_be_bytes 4 crc.
Proof. unfold crc_bytes. cbn. by rewrite Z.shiftr_0_r. Qed.

Definition pat_section (self : TsMuxer) : bytes :=
  [0x00; 0xB0; 13; 0x00; 0x01; 0xC1; 0x00; 0x00; 0x00; 0x01;
   0xE0 .| (as_u8 (pmt_pid self .>> 8) .& 0x1F); as_u8 (pmt_pid self)].

Definition set_pat_cc (self : TsMuxer) (cc : Z) : TsMuxer :=
  mk_TsMuxer (streams self) (continuity self) cc (pmt_cc self) (sdt_cc self)
     (pmt_pid self) (pcr_pid self) (last_pat_pmt_dts self) (last_dts_90k self) (service_metadata self).
Definition set_pmt_cc (self : TsMuxer) (cc : Z) : TsMuxer :=
  mk_TsMuxer (streams self) (continuity self) (pat_cc self) cc (sdt_cc self)
     (pmt_pid self) (pcr_pid self) (last_pat_pmt_dts self) (last_dts_90k self) (service_metadata self).
Definition set_sdt_cc (self : TsMuxer) (cc : Z) : TsMuxer :=
  mk_TsMuxer (streams self) (continuity self) (pat_cc self) (pmt_cc self) cc
     (pmt_pid self) (pcr_pid self) (last_pat_pmt_dts self) (last_dts_90k self) (service_metadata self).

Lemma write_pat_eq self out :
  write_pat self out =
    (set_pat_cc self ((pat_cc self + 1) .& 0x0F),
     out ++ [TS_SYNC_BYTE; 0x40; 0x00; 0x10 .| (pat_cc self .& 0x0F)]
         ++ [0x00] ++ (pat_section self ++ crc_bytes (crc32_mpeg2 (pat_section self)))
         ++ replicate 167 0xFF).
Proof. reflexivity. Qed.

Lemma plain_packet pid (first : bool) c (rest : bytes) :
  in_u 13 pid -> in_u 4 c -> length rest = 184%nat ->
  let pkt := [TS_SYNC_BYTE; (if first then 0x40 else 0x00) .| (as_u8 (pid .>> 8) .& 0x1F); as_u8 pid; 0x10 .| c] ++ rest in
  ts_packet_ok pid first c pkt /\ ts_payload pkt = rest /\ ts_random_access pkt = false.
Proof.
  intros Hp Hc Hr. cbn zeta. split_and!.
  - split; [rewrite length_app, Hr; done|]. do 4 eexists. split; [done|].
    split_and!; [destruct first; bitrange|apply wrapu_range; lia|bitrange| |destruct first|bitblast].
    + unfold be_value. cbn [fold_left]. rewrite Z.shiftl_0_l, Z.lor_0_l. destruct first; bitblast.
    + apply negb_true_iff, Z.eqb_neq.
      assert ((0x40 .| (as_u8 (pid .>> 8) .& 0x1F)) .& 0x40 = 0x40) as -> by bitblast. done.
    + apply negb_false_iff, Z.eqb_eq. bitblast.
  - unfold ts_payload. cbn [app].
    assert (((0x10 .| c) .>> 4) .& 0x03 = 1) as -> by bitblast. done.
  - unfold ts_random_access. cbn [app].
    assert (((0x10 .| c) .>> 4) .& 0x03 = 1) as -> by bitblast.
    by destruct rest as [|? [|? ?]].
Qed.

Lemma land_0f_id c : in_u 4 c -> c .& 0x0F = c.
Proof. intros Hc. bitblast. Qed.

Lemma splice_middle l src n x :
  (length src <= n)%nat ->
  splice (length l) src (l ++ replicate n x) = l ++ src ++ replicate (n - length src) x.
Proof.
  intros Hn. unfold splice. rewrite take_app_length. do 2 f_equal.
  rewrite drop_app_ge by lia. replace (length l + length src - length l)%nat with (length src) by lia.
  apply drop_replicate.
Qed.

(** The packets of a PMT section from an offset on. *)
Lemma write_pmt_loop_ok pid (section : bytes) :
  in_u 13 pid -> forall fuel offset first cc out,
  (length section - offset <= fuel)%nat -> in_u 4 cc ->
  (first = true -> (offset < length section)%nat) ->
  exists cc' pkts stuffing,
    write_pmt_loop fuel pid section offset first cc out = (cc', out ++ concat pkts) /\
    in_u 4 cc' /\ packets_ok pid first cc pkts /\
    flat_map ts_payload pkts = (if first then [0] else []) ++ drop offset section ++ stuffing /\
    Forall (fun p => length (ts_payload p) = 184%nat) pkts.
Proof.
  intros Hp fuel. induction fuel as [|fuel IH]; intros offset first cc out Hf Hcc Hfirst; cbn [write_pmt_loop].
  - exists cc, [], []. rewrite app_nil_r, drop_ge by lia.
    destruct first; [specialize (Hfirst eq_refl); lia|done].
  - destruct (Nat.ltb_spec offset (length section)) as [Hlt|Hge].
    2: { exists cc, [], []. rewrite app_nil_r, drop_ge by lia.
         destruct first; [specialize (Hfirst eq_refl); lia|done]. }
    rewrite land_0f_id by done.
    set (n := Nat.min (TS_PACKET_SIZE - (if first then 5 else 4)) (length section - offset)).
    set (part := take n (drop offset section)).
    assert (Hpart : length part = n) by (subst part; rewrite length_take, length_drop; lia).
    set (pl := (if first then [0] else []) ++ part ++ replicate (TS_PACKET_SIZE - (if first then 5 else 4) - n) 0xFF).
    assert (Hpl : length pl = 184%nat).
    { subst pl. rewrite !length_app, length_replicate, Hpart. unfold TS_PACKET_SIZE in *.
      destruct first; cbn [length]; lia. }
    set (flags := (if first then 0x40 else 0x00) .| (as_u8 (pid .>> 8) .& 0x1F)).
    set (pkt := [TS_SYNC_BYTE; flags; as_u8 pid; 0x10 .| cc] ++ pl).
    destruct (plain_packet pid first cc pl Hp Hcc Hpl) as (Hok & Hpay & Hra).
    destruct (IH (offset + n)%nat false ((cc + 1) .& 0x0F) (out ++ pkt)
      ltac:(unfold TS_PACKET_SIZE in *; destruct first; lia) (cc_next_range cc) ltac:(done))
      as (cc' & pkts & stuffing & E & Hcc' & Hpk & Hfl & Hras).
    set (pad := replicate (TS_PACKET_SIZE - (if first then 5 else 4) - n) 0xFF).
    exists cc', (pkt :: pkts), (pad ++ stuffing). split_and!.
    + cbn [concat]. rewrite app_assoc, <- E. rewrite (Z.lor_comm (as_u8 (pid .>> 8) .& 0x1F)). fold flags.
      assert (Hpkt : (let '(ts, payload_start) :=
          if first then (<[4%nat := 0x00]> (<[3%nat := 0x10 .| cc]> (<[2%nat := as_u8 pid]> (<[1%nat := flags]>
                          (<[0%nat := TS_SYNC_BYTE]> blank_packet)))), 5%nat)
          else (<[3%nat := 0x10 .| cc]> (<[2%nat := as_u8 pid]> (<[1%nat := flags]>
                          (<[0%nat := TS_SYNC_BYTE]> blank_packet))), 4%nat) in
        splice payload_start part ts) = pkt).
      { subst pkt pl. unfold pad. destruct first.
        - rewrite blank5. rewrite (splice_middle [_; _; _; _; _] part 183 0xFF) by (rewrite Hpart; unfold TS_PACKET_SIZE in *; lia).
          rewrite Hpart. by app_norm.
        - rewrite blank4. rewrite (splice_middle [_; _; _; _] part 184 0xFF) by (rewrite Hpart; unfold TS_PACKET_SIZE in *; lia).
          rewrite Hpart. by app_norm. }
      rewrite <- Hpkt. clear. subst flags part n. destruct first; cbn zeta iota; reflexivity.
    + done.
    + split; [done|]. done.
    + cbn [flat_map]. change (ts_payload pkt) with (ts_payload ([TS_SYNC_BYTE; flags; as_u8 pid; 0x10 .| cc] ++ pl)).
      subst flags. rewrite Hpay, Hfl. subst pl. app_norm. f_equal.
      rewrite <- (take_drop n (drop offset section)), drop_drop. fold part. app_norm. f_equal.
      fold pad. cbn [app].
      destruct (decide (n = length section - offset)%nat) as [Hn|Hn].
      * rewrite (drop_ge section) by lia. done.
      * assert (pad = []) as ->; [|done]. unfold pad. replace (_ - n)%nat with O; [done|]. lia.
    + constructor; [|done]. change (ts_payload pkt) with
        (ts_payload ([TS_SYNC_BYTE; flags; as_u8 pid; 0x10 .| cc] ++ pl)). subst flags. by rewrite Hpay.
Qed.

(** *** The service description *)

Lemma char_boundary_below_le value n : (char_boundary_below value n <= n)%nat.
Proof. induction n as [|n IH]; [done|]. cbn [char_boundary_below]. case_if; lia. Qed.

Lemma char_boundary_below_ok value n : is_char_boundary value (char_boundary_below value n) = true.
Proof.
  induction n as [|n IH]; [done|]. cbn [char_boundary_below].
  destruct (is_char_boundary value (S n)) eqn:E; cbn [negb]; done.
Qed.

Lemma truncate_utf8_bytes_spec value n :
  (length (truncate_utf8_bytes value n) <= n)%nat /\
  exists rest, value = truncate_utf8_bytes value n ++ rest /\
    is_char_boundary value (length (truncate_utf8_bytes value n)) = true.
Proof.
  unfold truncate_utf8_bytes. destruct (Nat.leb_spec (length value) n).
  - split; [done|]. exists []. split; [by rewrite app_nil_r|]. unfold is_char_boundary.
    case_if; [done|]. rewrite lookup_ge_None_2 by lia. apply Nat.eqb_refl.
  - pose proof (char_boundary_below_le value n) as Hle. rewrite length_take.
    split; [lia|]. exists (drop (char_boundary_below value n) value). split; [by rewrite take_drop|].
    rewrite Nat.min_l by lia. apply char_boundary_below_ok.
Qed.

Definition sdt_provider (self : TsMuxer) : bytes :=
  truncate_utf8_bytes (string_bytes (provider_name (service_metadata self))) 48.
Definition sdt_service (self : TsMuxer) : bytes :=
  truncate_utf8_bytes (string_bytes (service_name (service_metadata self))) 110.
Definition sdt_descriptor_len (self : TsMuxer) : Z := 3 + zlen (sdt_provider self) + zlen (sdt_service self).

(** The section up to the service loop, the loop's entry, and its descriptor. *)
Definition sdt_head (self : TsMuxer) : bytes :=
  let section_len := 19 + sdt_descriptor_len self in
  [0x42; 0xF0 .| (as_u8 (section_len .>> 8) .& 0x0F); as_u8 section_len;
   0x00; 0x01; 0xC1; 0x00; 0x00; 0x00; 0x01; 0xFF].
Definition sdt_entry (self : TsMuxer) : bytes :=
  let n := sdt_descriptor_len self in [0x00; 0x01; 0xFC; 0x80 .| (as_u8 (n .>> 8) .& 0x0F); as_u8 n].
Definition sdt_descriptor (self : TsMuxer) : bytes :=
  [0x48; as_u8 (sdt_descriptor_len self); 0x01; as_u8 (zlen (sdt_provider self))] ++ sdt_provider self
  ++ [as_u8 (zlen (sdt_service self))] ++ sdt_service self.
Definition sdt_section (self : TsMuxer) : bytes := sdt_head self ++ sdt_entry self ++ sdt_descriptor self.

Lemma length_sdt_section self :
  length (sdt_section self) = (21 + length (sdt_provider self) + length (sdt_service self))%nat.
Proof.
  unfold sdt_section, sdt_head, sdt_entry, sdt_descriptor. rewrite !length_app. cbn [length]. lia.
Qed.

Lemma write_sdt_ok self out :
  in_u 4 (sdt_cc self) ->
  let section := sdt_section self in
  exists pkt stuffing,
    write_sdt self out = Some (set_sdt_cc self ((sdt_cc self + 1) .& 0x0F), out ++ pkt) /\
    ts_packet_ok SDT_PID true (sdt_cc self) pkt /\
    ts_payload pkt = [0x00] ++ (section ++ crc_bytes (crc32_mpeg2 section)) ++ stuffing.
Proof.
  intros Hcc section. unfold write_sdt.
  fold (sdt_provider self) (sdt_service self). fold (sdt_descriptor_len self).
  destruct (truncate_utf8_bytes_spec (string_bytes (provider_name (service_metadata self))) 48) as [Hp _].
  destruct (truncate_utf8_bytes_spec (string_bytes (service_name (service_metadata self))) 110) as [Hs _].
  fold (sdt_provider self) in Hp. fold (sdt_service self) in Hs.
  replace (12 + (5 + 2 + sdt_descriptor_len self)) with (19 + sdt_descriptor_len self) by lia.
  change ([0x42; _; _; _; _; _; _; _; _; _; _] ++ _) with section.
  pose proof (length_sdt_section self) as Hl. fold section in Hl.
  assert (Hend : Z.to_nat (5 + 3 + (19 + sdt_descriptor_len self) - 4) = (5 + length section)%nat).
  { unfold sdt_descriptor_len, zlen. lia. }
  rewrite Hend. unfold TS_PACKET_SIZE.
  destruct (Nat.leb_spec (5 + length section) 188); [|lia].
  destruct (Nat.leb_spec (5 + length section + 4) 188); [|lia]. cbn [andb].
  rewrite (land_0f_id (sdt_cc self)), blank5 by done.
  rewrite (splice_middle [_; _; _; _; _] section 183) by lia.
  set (l5 := [TS_SYNC_BYTE; _; _; _; _]).
  replace (take (5 + length section - 5) (drop 5 (l5 ++ section ++ replicate (183 - length section) 0xFF)))
    with section.
  2: { rewrite (drop_app_length' l5) by done. replace (5 + length section - 5)%nat with (length section) by lia.
       by rewrite take_app_length. }
  set (crc := crc_bytes (crc32_mpeg2 section)). rewrite (app_assoc l5 section).
  replace (5 + length section)%nat with (length (l5 ++ section)) by (rewrite length_app; done).
  rewrite splice_middle by (change (length crc) with 4%nat; lia).
  change (length crc) with 4%nat.
  destruct (plain_packet SDT_PID true (sdt_cc self)
    ([0x00] ++ (section ++ crc) ++ replicate (183 - length section - 4) 0xFF)) as (Hok & Hpay & _).
  { unfold in_u, SDT_PID. lia. }
  { done. }
  { rewrite !length_app, length_replicate. change (length crc) with 4%nat. cbn [length]. lia. }
  exists ((l5 ++ section) ++ crc ++ replicate (183 - length section - 4) 0xFF),
    (replicate (183 - length section - 4) 0xFF).
  subst l5. split_and!; [done| |].
  - revert Hok. by app_norm.
  - revert Hpay. by app_norm.
Qed.

(** *** Invariant *)

Definition mux_ok (self : TsMuxer) : Prop :=
  length (continuity self) = length (streams self) /\
  length (last_dts_90k self) = length (streams self) /\
  Forall (in_u 4) (continuity self) /\
  in_u 4 (pat_cc self) /\ in_u 4 (pmt_cc self) /\ in_u 4 (sdt_cc self) /\
  in_u 13 (pmt_pid self) /\ Forall (fun s => in_u 13 (ms_pid s)) (streams self).

Lemma audio_streams_pids pid tracks :
  0 <= pid -> pid + zlen tracks <= 0x1000 ->
  Forall (fun s => in_u 13 (ms_pid s)) (audio_streams pid tracks) /\
  map ms_pid (audio_streams pid tracks) = map (fun k => pid + Z.of_nat k) (seq 0 (length tracks)).
Proof.
  revert pid. induction tracks as [|a tracks IH]; intros pid Hp Hn; [done|].
  rewrite zlen_cons in Hn. pose proof (zlen_nonneg tracks). cbn [audio_streams length seq map].
  rewrite wrapu_id by (unfold in_u; lia). destruct (IH (pid + 1)) as [H1 H2]; [lia|lia|].
  split; [constructor; [unfold in_u; cbn; lia|done]|].
  cbn [ms_pid]. f_equal; [lia|]. rewrite H2, <- seq_shift, map_map. apply map_ext. intros k. lia.
Qed.

Lemma new_with_metadata_ok video tracks metadata :
  zlen tracks <= 0xE00 -> mux_ok (new_with_metadata video tracks metadata).
Proof.
  intros Hn. unfold new_with_metadata, mux_ok. cbn.
  set (ss := match video with Some _ => _ | None => _ end).
  rewrite !length_replicate. split_and!; try done; try (unfold in_u; lia).
  - by apply Forall_replicate.
  - subst ss. destruct video as [v|].
    + constructor; [unfold in_u; cbn; lia|]. change (as_u16 (0x100 + 1)) with 0x101.
      apply audio_streams_pids; lia.
    + apply audio_streams_pids; lia.
Qed.

Definition whole_packets (pkts : list bytes) : Prop :=
  Forall (fun p => length p = TS_PACKET_SIZE /\ head p = Some TS_SYNC_BYTE) pkts.

Lemma packets_ok_whole pid first cc pkts : packets_ok pid first cc pkts -> whole_packets pkts.
Proof.
  revert first cc. induction pkts as [|p pkts IH]; intros first cc; [constructor|].
  intros [(Hl & f & pl & c & r & -> & _) Hr]. constructor; [done|]. by eapply IH.
Qed.

Definition pmt_entry_size (self : TsMuxer) : nat :=
  sum_list_with (fun s => 5 + length (stream_descriptors s))%nat (streams self).
Definition pmt_section_len (self : TsMuxer) : Z := 9 + Z.of_nat (pmt_entry_size self) + 4.
(** The section with its checksum. *)
Definition pmt_full_section (self : TsMuxer) : bytes :=
  let section := pmt_section self (pmt_section_len self) in
  section ++ crc_bytes (crc32_mpeg2 section).

#[local] Opaque crc32_mpeg2.

Lemma write_pmt_eq self out :
  write_pmt self out =
    if 1021 <? pmt_section_len self then (self, out)
    else let '(cc, out) := write_pmt_loop (length (pmt_full_section self)) (pmt_pid self)
                             (pmt_full_section self) 0 true (pmt_cc self) out in
         (set_pmt_cc self cc, out).
Proof. reflexivity. Qed.

Lemma pmt_full_section_pos self : (0 < length (pmt_full_section self))%nat.
Proof. unfold pmt_full_section, pmt_section. rewrite !length_app. cbn [length]. lia. Qed.

Lemma write_pmt_ok self out :
  in_u 13 (pmt_pid self) -> in_u 4 (pmt_cc self) ->
  exists cc' pkts,
    write_pmt self out = (set_pmt_cc self cc', out ++ concat pkts) /\ in_u 4 cc' /\
    packets_ok (pmt_pid self) true (pmt_cc self) pkts /\
    (pmt_section_len self <= 1021 ->
     exists stuffing, flat_map ts_payload pkts = [0x00] ++ pmt_full_section self ++ stuffing) /\
    Forall (fun p => length (ts_payload p) = 184%nat) pkts.
Proof.
  intros Hp Hc. rewrite write_pmt_eq. case_if.
  - exists (pmt_cc self), []. rewrite app_nil_r. split_and!; try done; [by destruct self|lia].
  - destruct (write_pmt_loop_ok (pmt_pid self) (pmt_full_section self) Hp
      (length (pmt_full_section self)) 0 true (pmt_cc self) out) as (cc' & pkts & st & -> & Hc' & Hpk & Hfl & Hra);
      [lia|done|intros _; apply pmt_full_section_pos|].
    exists cc', pkts. split_and!; try done. intros _. by exists st.
Qed.

(** The tables a muxer writes: the PAT, the packets of the PMT (none when it would be
    too long) and the service description. *)
Definition tables_spec (self : TsMuxer) (tables : list bytes) : Prop :=
  tables = [] \/
  exists pat pmts sdts cc cc' stuffing,
    tables = pat :: pmts ++ sdts /\
    ts_packet_ok PAT_PID true cc pat /\
    ts_payload pat = [0x00] ++ (pat_section self ++ crc_bytes (crc32_mpeg2 (pat_section self))) ++ stuffing /\
    packets_ok (pmt_pid self) true cc' pmts /\
    Forall (fun p => length (ts_payload p) = 184%nat) pmts /\
    (pmt_section_len self <= 1021 ->
     exists stuffing, flat_map ts_payload pmts = [0x00] ++ pmt_full_section self ++ stuffing) /\
    Forall (fun p => exists cc, ts_packet_ok SDT_PID true cc p) sdts.

(** The tables a packet needs are due. *)
Definition tables_due (self : TsMuxer) (dts_ms : Z) (is_keyframe : bool) : bool :=
  should_insert_tables (last_pat_pmt_dts self) dts_ms is_keyframe.

Lemma write_tables_spec self dts_ms is_keyframe out :
  mux_ok self ->
  exists self' tables,
    write_tables self dts_ms is_keyframe out = Some (self', out ++ concat tables) /\
    mux_ok self' /\ tables_spec self tables /\
    (tables_due self dts_ms is_keyframe = true -> tables <> []) /\
    streams self' = streams self /\ continuity self' = continuity self /\
    last_dts_90k self' = last_dts_90k self /\ pcr_pid self' = pcr_pid self /\ pmt_pid self' = pmt_pid self.
Proof.
  intros Hok. pose proof Hok as (H1 & H2 & H3 & H4 & H5 & H6 & H7 & H8). unfold write_tables, tables_due. case_if.
  2: { exists self, []. rewrite app_nil_r. split_and!; try done. by left. }
  rewrite write_pat_eq.
  pose proof (cc_next_range (pat_cc self)) as Hpc. pose proof (cc_next_range (sdt_cc self)) as Hsc.
  set (psec := pat_section self ++ _). set (pat := [TS_SYNC_BYTE; _; _; _] ++ _).
  destruct (plain_packet PAT_PID true (pat_cc self) ([0x00] ++ psec ++ replicate 167 0xFF))
    as (Hpat & Hpay & _); [unfold in_u, PAT_PID; lia|done|done|].
  change ([TS_SYNC_BYTE; _; _; _] ++ _) with
    ([TS_SYNC_BYTE; 0x40; 0x00; 0x10 .| pat_cc self] ++ [0x00] ++ psec ++ replicate 167 0xFF) in Hpat, Hpay.
  rewrite <- (land_0f_id (pat_cc self)) in Hpat at 2 by done.
  rewrite <- (land_0f_id (pat_cc self)) in Hpay by done. fold pat in Hpat, Hpay.
  destruct (write_pmt_ok (set_pat_cc self ((pat_cc self + 1) .& 0x0F)) (out ++ pat) H7 H5)
    as (cc' & pkts & -> & Hcc' & Hpk & Hfl & H184).
  assert (Hspec : forall sdts, Forall (fun p => exists cc, ts_packet_ok SDT_PID true cc p) sdts ->
    tables_spec self (pat :: pkts ++ sdts)).
  { intros sdts Hs. right. exists pat, pkts, sdts, (pat_cc self), (pmt_cc self), (replicate 167 0xFF).
    split_and!; done. }
  case_if.
  - destruct (write_sdt_ok (set_pmt_cc (set_pat_cc self ((pat_cc self + 1) .& 0x0F)) cc')
      ((out ++ pat) ++ concat pkts) H6) as (sdt & st & -> & Hsdt & _).
    cbn [mbind option_bind]. eexists _, (pat :: pkts ++ [sdt]). split.
    { cbn [concat]. rewrite concat_app. cbn [concat]. rewrite app_nil_r. by app_norm. }
    split_and!; try done. apply Hspec. constructor; [by eexists|constructor].
  - cbn [mbind option_bind]. eexists _, (pat :: pkts ++ []). rewrite app_nil_r.
    split; [cbn [concat]; by app_norm|]. split_and!; try done.
    rewrite <- (app_nil_r pkts). apply Hspec. constructor.
Qed.

Lemma ts_packet_ok_whole pid first cc pkt :
  ts_packet_ok pid first cc pkt -> length pkt = TS_PACKET_SIZE /\ head pkt = Some TS_SYNC_BYTE.
Proof. by intros (Hl & f & pl & c & r & -> & _). Qed.

(** Tables are whole packets. *)
Lemma tables_spec_whole self tables : tables_spec self tables -> whole_packets tables.
Proof.
  intros [->|(pat & pmts & sdts & cc & cc' & st & -> & Hpat & _ & Hpmt & _ & _ & Hsdt)]; [constructor|].
  constructor; [by eapply ts_packet_ok_whole|]. apply Forall_app. split; [by eapply packets_ok_whole|].
  eapply Forall_impl; [exact Hsdt|]. intros p [c Hp]. by eapply ts_packet_ok_whole.
Qed.

(** *** Timestamps *)

Lemma as_i64_id x : in_i 64 x -> as_i64 x = x.
Proof. unfold in_i, wraps. intros Hx. rewrite Z.mod_small by lia. lia. Qed.

(** Half of the 64-bit range, and milliseconds whose ticks stay in it. *)
Definition tick_ok (x : Z) : Prop := - 2 ^ 62 < x < 2 ^ 62.
Definition ms_ok (ms : Z) : Prop := - 2 ^ 54 < ms < 2 ^ 54.

Lemma next_timestamps_ok prev p d :
  i64_MIN <= prev < 2 ^ 62 -> ms_ok p -> ms_ok d ->
  let '(pts, dts) := next_timestamps (Some prev) p d in
  prev < dts /\ dts <= pts /\ pts - dts = 90 * Z.max (p - d) 0 /\
  (dts = 90 * d \/ dts = prev + 1 /\ 90 * d <= prev) /\ dts < 2 ^ 62 + 1.
Proof.
  unfold ms_ok. intros Hprev Hp Hd. unfold next_timestamps, ms_to_ts.
  rewrite !(as_i64_id (_ * 90)) by (unfold in_i; lia).
  rewrite (as_i64_id (p * 90 - d * 90)) by (unfold in_i; lia).
  destruct (Z.leb_spec (d * 90) prev).
  - rewrite (as_i64_id (prev + 1)) by (unfold in_i; lia).
    rewrite as_i64_id by (unfold in_i; lia).
    destruct (Z.ltb_spec (prev + 1 + Z.max (p * 90 - d * 90) 0) (prev + 1)); lia.
  - destruct (Z.ltb_spec (p * 90) (d * 90)); lia.
Qed.

Lemma span_end_ge self i dts pl :
  tick_ok dts -> Forall (fun s => in_u 32 (sample_rate s)) (streams self) -> zlen pl < 2 ^ 32 ->
  dts <= packet_span_end_90k self i dts pl.
Proof.
  unfold tick_ok. intros Hd Hs Hpl. unfold packet_span_end_90k.
  destruct (streams self !! i) as [s|] eqn:E; [|lia]. rewrite Forall_lookup in Hs. specialize (Hs _ _ E).
  case_if; [lia|]. case_if; [lia|]. bool_to_prop. unfold in_u in Hs.
  assert (Hq : 0 <= Z.quot (90000 * 1024) (sample_rate s) <= 92160000).
  { rewrite Z.quot_div_nonneg by lia. split; [apply Z.div_pos; lia|].
    apply Z.div_le_upper_bound; nia. }
  assert (Hn : Z.of_nat (adts_frame_count pl) <= zlen pl).
  { unfold adts_frame_count.
    destruct (collect_ranges_bounds (S (length pl)) (mk_AdtsFrameRanges pl 0)) as (lens & Er & Hall & Hsum).
    unfold adts_frame_ranges. rewrite Er. cbn in Hsum.
    assert (length (tile 0 lens) = length lens) as Hlen.
    { clear. generalize O as k. induction lens as [|n lens IH]; intros k; [done|]. cbn. by rewrite IH. }
    cbn [afr_offset]. rewrite Hlen. unfold zlen. clear Er Hlen.
    assert (length lens <= sum_list lens)%nat; [|lia].
    induction Hall as [|n lens Hn Hall IH]; [done|]. cbn. unfold sum_list in *.
    assert (length lens <= sum_list_with id lens)%nat; [|cbn in *; lia].
    clear -Hall. induction Hall; cbn in *; lia. }
  rewrite (as_i64_id (Z.quot _ _ * _)) by (unfold in_i; nia).
  rewrite as_i64_id by (unfold in_i; nia). nia.
Qed.

(** *** One media packet *)

Lemma mux_packet_at_ok self i stream mt meta pl out :
  mux_ok self -> streams self !! i = Some stream -> pl <> [] ->
  exists self' cc tables pkts,
    mux_packet_at self i mt meta pl out = Some (self', out ++ concat (tables ++ pkts)) /\
    mux_ok self' /\ tables_spec self tables /\
    (tables_due self (dts_ms meta) (pm_is_keyframe meta) = true -> tables <> []) /\
    continuity self !! i = Some cc /\ packets_ok (ms_pid stream) true cc pkts /\
    (let '(pts, dts) := next_timestamps (last_dts_90k self !! i) (pts_ms meta) (dts_ms meta) in
     let hdr := pes_header mt pts dts (zlen pl) in
     flat_map ts_payload pkts = hdr ++ pl /\
     (exists p rest, pkts = p :: rest /\ (Nat.min (length hdr + length pl) 176 <= length (ts_payload p))%nat) /\
     last_dts_90k self' = <[i := packet_span_end_90k self i dts pl]> (last_dts_90k self)) /\
    Forall (fun p => ts_payload p <> []) pkts /\
    map ts_random_access pkts =
      match pkts with [] => [] | _ :: rest => pm_is_keyframe meta :: map (fun _ => false) rest end /\
    streams self' = streams self /\ pcr_pid self' = pcr_pid self /\ pmt_pid self' = pmt_pid self.
Proof.
  intros Hok Hs Hne. unfold mux_packet_at. destruct pl as [|b pl]; [done|]. set (p := b :: pl).
  rewrite Hs. cbn [mbind option_bind].
  destruct (next_timestamps _ _ _) as [pts dts].
  destruct Hok as (H1 & H2 & H3 & H4 & H5 & H6 & H7 & H8).
  set (self1 := mk_TsMuxer _ _ _ _ _ _ _ _ _ _).
  assert (Hok1 : mux_ok self1).
  { unfold mux_ok. cbn. rewrite length_insert. done. }
  destruct (write_tables_spec self1 (dts_ms meta) (pm_is_keyframe meta) out Hok1)
    as (self2 & tables & -> & Hok2 & Ht & Hdue & Es & Ec & El & Ep & Epmt). cbn [mbind option_bind].
  rewrite Ec. cbn [continuity self1].
  destruct (lookup_lt_is_Some_2 (continuity self) i) as [cc Hcc].
  { rewrite H1. by eapply lookup_lt_Some. }
  rewrite Hcc. cbn [mbind option_bind].
  assert (Hcc4 : in_u 4 cc) by (rewrite Forall_lookup in H3; by eapply H3).
  assert (Hpid : in_u 13 (ms_pid stream)) by (rewrite Forall_lookup in H8; by eapply H8).
  set (hdr := pes_header mt pts dts (zlen p)).
  destruct (packetize_ok (ms_pid stream) (pcr_pid self2) (pm_is_keyframe meta) dts hdr p Hpid
    (length hdr + length p) 0 true cc (out ++ concat tables))
    as (cc' & pkts & -> & Hcc' & Hpk & Hfl & Hra & Hpne & Hfirst); [lia|done|].
  cbn [mbind option_bind]. eexists _, cc, tables, pkts. split; [by rewrite concat_app, app_assoc|].
  split_and!; try done.
  - destruct Hok2 as (K1 & K2 & K3 & K4 & K5 & K6 & K7 & K8). unfold mux_ok. cbn.
    rewrite length_insert, Es. cbn [streams self1]. rewrite Es in K2, K8. split_and!; try done.
    apply Forall_insert; [done|]. done.
  - destruct pkts as [|q pkts]; [subst p; cbn in Hfirst; lia|]. exists q, pkts. split; [done|]. by rewrite Nat.sub_0_r in Hfirst.
Qed.

(** ** Properties *)

(** C22: Muxing one media packet is total and lossless: on a well-formed muxer and an
    existing stream, with any payload and timestamps, it never panics; it appends whole
    188-byte packets only, first the tables when they are due and then the packets of
    the stream's PID, whose continuity counters run on from the stream's, of which
    exactly the first starts a unit and carries the random-access flag of a keyframe,
    and whose payloads, stuffing removed, concatenate to the PES header and the
    payload.  The muxer stays well formed. *)
Theorem mux_packet_at_packets self i stream mt meta pl out :
  mux_ok self -> streams self !! i = Some stream -> pl <> [] ->
  exists self' cc tables pkts,
    mux_packet_at self i mt meta pl out = Some (self', out ++ concat (tables ++ pkts)) /\
    mux_ok self' /\ whole_packets (tables ++ pkts) /\
    continuity self !! i = Some cc /\ packets_ok (ms_pid stream) true cc pkts /\
    (let '(pts, dts) := next_timestamps (last_dts_90k self !! i) (pts_ms meta) (dts_ms meta) in
     flat_map ts_payload pkts = pes_header mt pts dts (zlen pl) ++ pl) /\
    map ts_random_access pkts =
      match pkts with [] => [] | _ :: rest => pm_is_keyframe meta :: map (fun _ => false) rest end.
Proof.
  intros Hok Hs Hne.
  destruct (mux_packet_at_ok self i stream mt meta pl out Hok Hs Hne)
    as (self' & cc & tables & pkts & E & Hok' & Ht & _ & Hcc & Hpk & Hts & _ & Hra & _).
  exists self', cc, tables, pkts. split_and!; try done.
  - apply Forall_app. split; [by eapply tables_spec_whole|by eapply packets_ok_whole].
  - destruct (next_timestamps _ _ _) as [pts dts]. by destruct Hts as [? _].
Qed.

Definition example_muxer : TsMuxer :=
  TsMuxer_new (Some (blank_meta KindH264 256 None None))
    [mk_AudioMeta "aac" 48000 2 None 0 None (Some "eng"%string) None None].

Lemma mux_packet_at_packets_witness :
  exists self' cc tables pkts,
    mux_packet_at example_muxer 0 Video (mk_PacketMeta 40 0 true) (replicate 200 7) []
      = Some (self', [] ++ concat (tables ++ pkts)) /\
    mux_ok self' /\ whole_packets (tables ++ pkts) /\
    continuity example_muxer !! 0%nat = Some cc /\ packets_ok 0x100 true cc pkts /\
    flat_map ts_payload pkts = pes_header Video 3600 0 200 ++ replicate 200 7 /\
    map ts_random_access pkts =
      match pkts with [] => [] | _ :: rest => true :: map (fun _ => false) rest end.
Proof.
  apply (mux_packet_at_packets example_muxer 0 (mk_MuxStreamConfig STREAM_TYPE_H264 0x100 Video 0 0 None)
           Video (mk_PacketMeta 40 0 true) (replicate 200 7) []).
  - apply new_with_metadata_ok. vm_compute. discriminate.
  - reflexivity.
  - discriminate.
Defined.

(** Timestamps on the wire are strictly increasing per stream: with the previous
    end of the stream's span below 2^62 ticks and times within 2^54 ms, the DTS written
    is above it, the PTS is not below the DTS and keeps the packet's composition
    offset, the DTS is the packet's own unless that would go backwards (then one tick
    past the previous), and the span recorded for the next packet does not end before
    the DTS even when the payload holds several audio frames. *)
Theorem mux_timestamps_monotonic self i prev p d pl :
  last_dts_90k self !! i = Some prev -> i64_MIN <= prev < 2 ^ 61 -> ms_ok p -> ms_ok d ->
  Forall (fun s => in_u 32 (sample_rate s)) (streams self) -> zlen pl < 2 ^ 32 ->
  let '(pts, dts) := next_timestamps (last_dts_90k self !! i) p d in
  prev < dts <= pts /\ pts - dts = 90 * Z.max (p - d) 0 /\
  (dts = 90 * d \/ (dts = prev + 1 /\ 90 * d <= prev)) /\
  dts <= packet_span_end_90k self i dts pl.
Proof.
  intros Hi Hprev Hp Hd Hs Hpl. rewrite Hi.
  pose proof (next_timestamps_ok prev p d ltac:(lia) Hp Hd) as Hn.
  destruct (next_timestamps (Some prev) p d) as [pts dts].
  destruct Hn as (Hlt & Hle & Hoff & Hd' & _). split_and!; [lia|lia|done|done|].
  apply span_end_ge; [|done|done]. unfold tick_ok, ms_ok in *. lia.
Qed.

Lemma mux_timestamps_monotonic_witness :
  let '(pts, dts) := next_timestamps (last_dts_90k example_muxer !! 1%nat) 21 0 in
  i64_MIN < dts <= pts /\ pts - dts = 90 * Z.max (21 - 0) 0 /\
  (dts = 90 * 0 \/ (dts = i64_MIN + 1 /\ 90 * 0 <= i64_MIN)) /\
  dts <= packet_span_end_90k example_muxer 1 dts [1; 2; 3].
Proof.
  apply (mux_timestamps_monotonic example_muxer 1 i64_MIN 21 0 [1; 2; 3]);
    [reflexivity|lia|unfold ms_ok; lia..| |vm_compute; reflexivity].
  repeat constructor; unfold in_u; cbn; lia.
Defined.

(** The service description always fits one packet: whatever the provider and service
    names (cut at a character boundary to 48 and 110 bytes), [write_sdt] never writes out
    of bounds, and its packet carries, behind the pointer field, a section whose length
    field counts its bytes and whose checksum verifies. *)
Theorem write_sdt_fits self out :
  in_u 4 (sdt_cc self) ->
  exists pkt section stuffing,
    write_sdt self out = Some (set_sdt_cc self ((sdt_cc self + 1) .& 0x0F), out ++ pkt) /\
    ts_packet_ok SDT_PID true (sdt_cc self) pkt /\
    ts_payload pkt = [0x00] ++ section ++ stuffing /\
    (exists b1 b2, section !! 1%nat = Some b1 /\ section !! 2%nat = Some b2 /\
       be_value [b1 .& 0x0F; b2] + 3 = zlen section) /\
    crc32_mpeg2 section = 0.
Proof.
  intros Hcc. destruct (write_sdt_ok self out Hcc) as (pkt & st & E & Hok & Hpay).
  exists pkt, (sdt_section self ++ crc_bytes (crc32_mpeg2 (sdt_section self))), st.
  destruct (truncate_utf8_bytes_spec (string_bytes (provider_name (service_metadata self))) 48) as [Hp (rp & Erp & _)].
  destruct (truncate_utf8_bytes_spec (string_bytes (service_name (service_metadata self))) 110) as [Hs (rs & Ers & _)].
  fold (sdt_provider self) in Hp, Erp. fold (sdt_service self) in Hs, Ers.
  assert (Hlen : in_u 8 (19 + sdt_descriptor_len self)) by (unfold in_u, sdt_descriptor_len, zlen; lia).
  split_and!; try done.
  - do 2 eexists. split; [reflexivity|]. split; [reflexivity|].
    rewrite (wrapu_id 8 (19 + _)) by done.
    unfold zlen. rewrite length_app, length_sdt_section. change (length (crc_bytes _)) with 4%nat.
    unfold sdt_descriptor_len, zlen in *. set (n := 19 + _) in *.
    assert (be_value [(0xF0 .| (as_u8 (n .>> 8) .& 0x0F)) .& 0x0F; n] = n) as ->; [|lia].
    unfold be_value. cbn [fold_left]. rewrite Z.shiftl_0_l, Z.lor_0_l. bitblast.
  - rewrite crc_bytes_be. apply crc32_append.
    pose proof (string_bytes_ok (provider_name (service_metadata self))) as Bp.
    pose proof (string_bytes_ok (service_name (service_metadata self))) as Bs.
    rewrite Erp in Bp. rewrite Ers in Bs. apply bytes_ok_app in Bp as [Bp _], Bs as [Bs _].
    unfold sdt_section, sdt_head, sdt_entry, sdt_descriptor. rewrite !bytes_ok_app.
    split_and!; try done; repeat (apply Forall_cons; split); try apply Forall_nil; try done;
      try (unfold in_u; lia); try (apply wrapu_range; lia);
      (apply lor_range; [unfold in_u; lia| |lia]; apply land_range_r; [unfold in_u; lia|lia]).
Qed.

Lemma write_sdt_fits_witness :
  exists pkt section stuffing,
    write_sdt example_muxer [] = Some (set_sdt_cc example_muxer 1, [] ++ pkt) /\
    ts_packet_ok SDT_PID true 0 pkt /\
    ts_payload pkt = [0x00] ++ section ++ stuffing /\
    (exists b1 b2, section !! 1%nat = Some b1 /\ section !! 2%nat = Some b2 /\
       be_value [b1 .& 0x0F; b2] + 3 = zlen section) /\
    crc32_mpeg2 section = 0.
Proof. apply (write_sdt_fits example_muxer []). unfold in_u. cbn. lia. Defined.

(** The descriptors loop of the service entry holds two bytes more than its length
    field says: in every packet [write_sdt] writes, the field behind the eleven bytes of
    the section's head and the three of the service has the descriptor's own length, which
    does not count the descriptor's tag and length bytes, so a reader that follows the
    field ends two bytes before the checksum. *)
Theorem sdt_descriptors_loop_length self out :
  in_u 4 (sdt_cc self) ->
  exists self' pkt head high low loop crc stuffing,
    write_sdt self out = Some (self', out ++ pkt) /\
    ts_payload pkt = [0x00] ++ (head ++ [0x00; 0x01; 0xFC; high; low] ++ loop ++ crc) ++ stuffing /\
    length head = 11%nat /\ length crc = 4%nat /\ crc = to_be_bytes 4 (crc32_mpeg2 (head ++ [0x00; 0x01; 0xFC; high; low] ++ loop)) /\
    be_value [high .& 0x0F; low] + 2 = zlen loop.
Proof.
  intros Hcc. destruct (write_sdt_ok self out Hcc) as (pkt & st & E & _ & Hpay).
  set (n := sdt_descriptor_len self).
  exists (set_sdt_cc self ((sdt_cc self + 1) .& 0x0F)), pkt, (sdt_head self), (0x80 .| (as_u8 (n .>> 8) .& 0x0F)), (as_u8 n),
    (sdt_descriptor self), (crc_bytes (crc32_mpeg2 (sdt_section self))), st.
  split_and!; [done| |done|done|by rewrite crc_bytes_be|].
  { rewrite Hpay. unfold sdt_section, sdt_entry. by app_norm. }
  destruct (truncate_utf8_bytes_spec (string_bytes (provider_name (service_metadata self))) 48) as [Hp _].
  destruct (truncate_utf8_bytes_spec (string_bytes (service_name (service_metadata self))) 110) as [Hs _].
  fold (sdt_provider self) in Hp. fold (sdt_service self) in Hs.
  assert (Hlen : in_u 8 n) by (unfold in_u, n, sdt_descriptor_len, zlen; lia).
  assert (be_value [(0x80 .| (as_u8 (n .>> 8) .& 0x0F)) .& 0x0F; as_u8 n] = n) as ->.
  { unfold be_value. cbn [fold_left]. rewrite Z.shiftl_0_l, Z.lor_0_l. bitblast. }
  unfold n, sdt_descriptor, sdt_descriptor_len, zlen. rewrite !length_app. cbn [length]. lia.
Qed.

Lemma sdt_descriptors_loop_length_witness :
  exists self' pkt head high low loop crc stuffing,
    write_sdt example_muxer [] = Some (self', [] ++ pkt) /\
    ts_payload pkt = [0x00] ++ (head ++ [0x00; 0x01; 0xFC; high; low] ++ loop ++ crc) ++ stuffing /\
    length head = 11%nat /\ length crc = 4%nat /\ crc = to_be_bytes 4 (crc32_mpeg2 (head ++ [0x00; 0x01; 0xFC; high; low] ++ loop)) /\
    be_value [high .& 0x0F; low] + 2 = zlen loop.
Proof. apply (sdt_descriptors_loop_length example_muxer []). unfold in_u. cbn. lia. Defined.
