(* ===== verification/AdtsFraming.v ===== *)
(** * ADTS framing of a TS audio stream

    Models [crates/restream-mpegts/src/demux/adts.rs]: one AAC frame per unit,
    whatever the PES boundaries.  A frame cut at a PES end is carried to the next
    PES; a stream joined mid-frame is resynchronised. *)

From S2P Require Import Prelude Bitblast Bits Aac Media TsWire.

(** ** Definitions *)

Definition ADTS_HEADER_LEN : nat := 7.
Definition MAX_ADTS_FRAME : Z := 8191.
Definition FRAME_TICKS_90K : Z := 1024 * 90000.

Record AdtsFraming := mk_AdtsFraming {
  carry : bytes;
  next : option (Z * Z);
  unframed : Z;
  framed : bool;
}.

Definition AdtsFraming_default : AdtsFraming := mk_AdtsFraming [] None 0 false.

Inductive Carried :=
  | Completed (frame : bytes) (consumed : nat)
  | Pending
  | Rejected.

Inductive Framed :=
  | Frames (first : option bytes)
  | Whole (payload : bytes).

Definition frame_len (d : bytes) : option nat :=
  match first_chunk ADTS_HEADER_LEN d with
  | Some [b0; b1; _; b3; b4; b5; _] =>
      if negb (b0 =? 0xFF) then None
      else if negb (b1 .& 0xF6 =? 0xF0) then None
      else
        let len := Z.to_nat (adts_len_field b3 b4 b5) in
        if (ADTS_HEADER_LEN <=? len)%nat then Some len else None
  | _ => None
  end.

Definition sync_prefix (d : bytes) : bool :=
  match d with
  | [b0] => b0 =? 0xFF
  | b0 :: b1 :: _ => (b0 =? 0xFF) && (b1 .& 0xF6 =? 0xF0)
  | [] => false
  end.

Definition step_90k (frame : bytes) : option Z :=
  rate ← adts_sample_rate frame;
  if rate =? 0 then None else Some (Z.quot FRAME_TICKS_90K rate).

Definition push (output : list MediaPacket) (track_index pts dts : Z) (payload : bytes)
    : list MediaPacket :=
  output ++ [mk_MediaPacket Audio Raw false track_index (ts_to_ms pts) (ts_to_ms dts) payload].

(** Whether the first frame of [data] can start at the head of [rest], a tail of it. *)
Definition frame_starts (rest : bytes) : bool :=
  match frame_len rest with
  | Some len =>
      match get_from len rest with
      | None => true
      | Some after => match after with [] => true | _ => sync_prefix after end
      end
  | None => (length rest <? ADTS_HEADER_LEN)%nat && sync_prefix rest
  end.

(** [(0..data.len()).find(..)] *)
Fixpoint resync (d : bytes) : option nat :=
  match d with
  | [] => None
  | _ :: d' => if frame_starts d then Some O else S <$> resync d'
  end.

Definition drop_unframed (self : AdtsFraming) (dropped : nat) : AdtsFraming :=
  if (dropped =? 0)%nat then self
  else if negb (framed self)
  then mk_AdtsFraming (carry self) (next self) (sat_u 64 (unframed self + Z.of_nat dropped)) (framed self)
  else self.

Definition complete_carry (self : AdtsFraming) (d : bytes) : Carried * AdtsFraming :=
  let aligned := match frame_len d with Some _ => true | None => false end in
  let taken := mk_AdtsFraming [] (next self) (unframed self) (framed self) in
  let pending := mk_AdtsFraming (carry self ++ d) (next self) (unframed self) (framed self) in
  let header := take ADTS_HEADER_LEN (carry self ++ d) in
  let header_len := length header in
  match frame_len header with
  | Some len =>
      let need := (len - length (carry self))%nat in
      match get_to need d, get_from need d with
      | Some rest, Some after =>
          if match after with [] => true | _ => sync_prefix after end
          then (Completed (carry self ++ rest) need, taken)
          else (Rejected, taken)
      | None, _ => if negb aligned then (Pending, pending) else (Rejected, taken)
      | _, _ => (Rejected, taken)
      end
  | None =>
      if negb aligned && (header_len <? ADTS_HEADER_LEN)%nat && sync_prefix header
      then (Pending, pending) else (Rejected, taken)
  end.

Definition sat_add_step (t : Z * Z) (step : Z) : Z * Z := (sat_i 64 (t.1 + step), sat_i 64 (t.2 + step)).

(** The [while] loop over the frames that start in the PES.  A round consumes at
    least a header. *)
Fixpoint frame_loop (fuel : nat) (self : AdtsFraming) (d : bytes) (start offset : nat) (carried : bool)
    (pes_first expected : option (Z * Z)) (first : option bytes) (track_index : Z)
    (output : list MediaPacket) : Framed * AdtsFraming * list MediaPacket :=
  let finish :=
    (Frames first,
     mk_AdtsFraming (carry self) expected (unframed self)
       (match first with Some _ => true | None => framed self end), output) in
  match fuel with
  | O => finish
  | S fuel' =>
      match get_from offset d with
      | None | Some [] => finish
      | Some rest =>
          match (match pes_first with Some t => Some t | None => expected end) with
          | None => finish
          | Some (pts, dts) =>
              let keep := (Frames first,
                           mk_AdtsFraming (carry self ++ rest) (Some (pts, dts)) (unframed self) (framed self),
                           output) in
              match frame_len rest with
              | Some len =>
                  if (len <=? length rest)%nat then
                    match step_90k rest with
                    | None =>
                        if match first with None => negb carried | Some _ => false end
                        then (Whole (drop start d),
                              mk_AdtsFraming (carry self) None (unframed self) (framed self), output)
                        else finish
                    | Some step =>
                        let unit := take len rest in
                        frame_loop fuel' self d start (offset + len) carried None
                          (Some (sat_add_step (pts, dts) step))
                          (match first with None => Some unit | Some f => Some f end) track_index
                          (push output track_index pts dts unit)
                    end
                  else keep
              | None =>
                  if (length rest <? ADTS_HEADER_LEN)%nat && sync_prefix rest then keep else finish
              end
          end
      end
  end.

(** Behind the carried frame, if any. *)
Definition frame_from (self : AdtsFraming) (d : bytes) (pes_timestamps expected : option (Z * Z))
    (resume : option nat) (first : option bytes) (track_index : Z) (output : list MediaPacket)
    : Framed * AdtsFraming * list MediaPacket :=
  let carried := match resume with Some _ => true | None => false end in
  match (match resume with Some start => Some start | None => resync d end) with
  | None =>
      (Frames first,
       drop_unframed (mk_AdtsFraming (carry self) expected (unframed self) (framed self)) (length d),
       output)
  | Some start =>
      frame_loop (S (length d)) self d start start carried pes_timestamps expected first track_index output
  end.

Definition frame (self : AdtsFraming) (payload : bytes) (pes_timestamps : option (Z * Z)) (track_index : Z)
    (output : list MediaPacket) : Framed * AdtsFraming * list MediaPacket :=
  let d := payload in
  let expected := next self in
  match carry self with
  | [] => frame_from self d pes_timestamps expected None None track_index output
  | _ =>
      let '(outcome, self) := complete_carry self d in
      match outcome with
      | Completed frame consumed =>
          match expected, step_90k frame with
          | Some (pts, dts), Some step =>
              frame_from self d pes_timestamps (Some (sat_add_step (pts, dts) step)) (Some consumed)
                (Some frame) track_index (push output track_index pts dts frame)
          | _, _ => frame_from self d pes_timestamps expected (Some consumed) None track_index output
          end
      | Pending => (Frames None, self, output)
      | Rejected => frame_from self d pes_timestamps None None None track_index output
      end
  end.

(** ** Lemmas *)

Lemma frame_len_bounds d n : frame_len d = Some n -> (7 <= n)%nat /\ (7 <= length d)%nat /\ sync_prefix d = true.
Proof.
  unfold frame_len, first_chunk, ADTS_HEADER_LEN. destruct (get_to 7 d) as [c|] eqn:Ec; [|done].
  apply get_to_inv in Ec as [-> Hl].
  destruct d as [|b0 [|b1 [|b2 [|b3 [|b4 [|b5 [|b6 d]]]]]]]; cbn in Hl; try lia. cbn [take].
  destruct (b0 =? 0xFF) eqn:E0; cbn [negb]; [|done].
  destruct (b1 .& 0xF6 =? 0xF0) eqn:E1; cbn [negb]; [|done].
  destruct (Nat.leb_spec 7 (Z.to_nat (adts_len_field b3 b4 b5))) as [Hn|]; [|done]. intros [= <-].
  split_and!; [done|done|]. unfold sync_prefix. by rewrite E0, E1.
Qed.

(** The header is in the first seven bytes. *)
Lemma frame_len_app d r : (7 <= length d)%nat -> frame_len (d ++ r) = frame_len d.
Proof.
  intros Hl. unfold frame_len, first_chunk, ADTS_HEADER_LEN, get_to. rewrite length_app.
  destruct (Nat.leb_spec 7 (length d + length r)); [|lia]. destruct (Nat.leb_spec 7 (length d)); [|lia].
  by rewrite take_app_le.
Qed.

Lemma frame_len_take d n : (7 <= n)%nat -> frame_len (take n d) = frame_len d.
Proof.
  intros Hn. destruct (decide (7 <= length d)%nat).
  - rewrite <- (take_drop n d) at 2. rewrite frame_len_app; [done|]. rewrite length_take. lia.
  - by rewrite take_ge by lia.
Qed.

Lemma frame_len_short d : (length d < 7)%nat -> frame_len d = None.
Proof.
  intros Hl. unfold frame_len, first_chunk, ADTS_HEADER_LEN, get_to.
  destruct (Nat.leb_spec 7 (length d)); [lia|done].
Qed.

Lemma sync_prefix_app d r : d <> [] -> sync_prefix (d ++ r) = true -> sync_prefix d = true.
Proof.
  destruct d as [|b0 [|b1 d]]; cbn; try done. destruct r; [done|].
  rewrite andb_true_iff. by intros _ [? _].
Qed.

Lemma step_90k_app d r : (3 <= length d)%nat -> step_90k (d ++ r) = step_90k d.
Proof.
  intros Hl. unfold step_90k, adts_sample_rate, first_chunk, get_to. rewrite length_app.
  destruct (Nat.leb_spec 3 (length d + length r)); [|lia]. destruct (Nat.leb_spec 3 (length d)); [|lia].
  by rewrite take_app_le.
Qed.

(** *** Frames and pieces of frames *)

Definition whole_frame (step : Z) (f : bytes) : Prop :=
  frame_len f = Some (length f) /\ step_90k f = Some step.

(** A proper beginning of [f]. *)
Definition begins (q f : bytes) : Prop := exists r, f = q ++ r /\ r <> [].

Lemma begins_cases step q f :
  whole_frame step f -> begins q f -> q <> [] ->
  sync_prefix q = true /\
  (frame_len q = Some (length f) \/ (frame_len q = None /\ (length q < 7)%nat)) /\
  (length q < length f)%nat.
Proof.
  intros [Hf Hstep] (r & -> & Hr) Hq. rewrite length_app in *.
  assert (0 < length r)%nat by (destruct r; [done|cbn; lia]).
  apply frame_len_bounds in Hf as Hb. destruct Hb as (_ & _ & Hs).
  split_and!; [by eapply sync_prefix_app| |lia].
  destruct (decide (7 <= length q)%nat).
  - left. by rewrite frame_len_app in Hf.
  - right. split; [|lia]. apply frame_len_short. lia.
Qed.

Lemma whole_frame_cons step f : whole_frame step f -> exists b l, f = b :: l /\ (7 <= length f)%nat.
Proof.
  intros [Hf _]. apply frame_len_bounds in Hf as (_ & Hl & _). destruct f; [cbn in Hl; lia|eauto].
Qed.

(** What follows a frame: more frames, or a piece of one. *)
Definition follows (step : Z) (rest : bytes) : Prop :=
  exists fs q, rest = concat fs ++ q /\ Forall (whole_frame step) fs /\
    (q = [] \/ exists f, whole_frame step f /\ begins q f).

Lemma follows_sync step rest : follows step rest -> rest <> [] -> sync_prefix rest = true.
Proof.
  intros (fs & q & -> & Hfs & Hq) Hne. destruct Hfs as [|f fs Hf Hfs].
  - cbn in *. destruct Hq as [->|(f & Hf & Hb)]; [done|]. by eapply begins_cases.
  - destruct Hf as [Hf _]. apply frame_len_bounds in Hf as (_ & Hl & Hs). cbn [concat].
    destruct f as [|b0 [|b1 f]]; cbn in Hl; try lia. done.
Qed.

Lemma follows_starts step rest : follows step rest -> rest <> [] -> frame_starts rest = true.
Proof.
  intros Hfo Hne. pose proof (follows_sync step rest Hfo Hne) as Hs. unfold frame_starts.
  destruct Hfo as (fs & q & -> & Hfs & Hq). destruct Hfs as [|f fs Hf Hfs].
  - cbn [concat app] in *. destruct Hq as [->|(f & Hf & Hb)]; [done|].
    destruct (begins_cases step q f Hf Hb Hne) as (_ & [E|[E Hl]] & Hlt).
    + rewrite E. unfold get_from. destruct (Nat.leb_spec (length f) (length q)); [lia|done].
    + rewrite E, Hs. unfold ADTS_HEADER_LEN. destruct (Nat.ltb_spec (length q) 7); [done|lia].
  - cbn [concat]. rewrite <- app_assoc. destruct Hf as [Hf Hstep].
    apply frame_len_bounds in Hf as Hb. rewrite frame_len_app, Hf, get_from_app by (done || lia).
    destruct (concat fs ++ q) eqn:E; [done|]. rewrite <- E.
    eapply follows_sync; [by exists fs, q|]. by rewrite E.
Qed.

(** *** The loop *)

Definition unit_at (track_index : Z) (t : Z * Z) (f : bytes) : MediaPacket :=
  mk_MediaPacket Audio Raw false track_index (ts_to_ms t.1) (ts_to_ms t.2) f.
Definition time_at (t : Z * Z) (step : Z) (k : nat) : Z * Z :=
  (t.1 + Z.of_nat k * step, t.2 + Z.of_nat k * step).
(** The frames from time [t] on. *)
Fixpoint units (track_index : Z) (t : Z * Z) (step : Z) (fs : list bytes) : list MediaPacket :=
  match fs with
  | [] => []
  | f :: fs' => unit_at track_index t f :: units track_index (time_at t step 1) step fs'
  end.

Definition times_ok (t : Z * Z) (step : Z) (n : nat) : Prop :=
  0 <= step /\ in_i 64 t.1 /\ in_i 64 t.2 /\
  in_i 64 (t.1 + Z.of_nat n * step) /\ in_i 64 (t.2 + Z.of_nat n * step).

Lemma sat_add_step_ok t step n :
  times_ok t step (S n) -> sat_add_step t step = time_at t step 1 /\ times_ok (time_at t step 1) step n.
Proof.
  unfold times_ok, in_i. intros (Hs & H1 & H2 & H3 & H4). unfold sat_add_step, time_at, sat_i. cbn [fst snd].
  rewrite !Nat2Z.inj_succ in *. split; [f_equal; nia|]. cbn. split_and!; nia.
Qed.

Lemma time_at_0 t step : time_at t step 0 = t.
Proof. unfold time_at. destruct t. cbn. f_equal; lia. Qed.
Lemma time_at_S t step k : time_at (time_at t step 1) step k = time_at t step (S k).
Proof. unfold time_at. cbn [fst snd]. f_equal; lia. Qed.

Lemma frame_loop_ok step track_index d start carried :
  forall fs q fuel before st pes_first expected first output t,
  d = before ++ concat fs ++ q -> Forall (whole_frame step) fs ->
  (q = [] \/ exists f, whole_frame step f /\ begins q f) ->
  carry st = [] -> (length fs < fuel)%nat -> times_ok t step (length fs) ->
  (pes_first = None \/ pes_first = Some t) ->
  (expected = Some t \/ (pes_first = Some t /\ concat fs ++ q <> [])) ->
  exists first' st',
    frame_loop fuel st d start (length before) carried pes_first expected first track_index output
      = (Frames first', st', output ++ units track_index t step fs) /\
    carry st' = q /\ next st' = Some (time_at t step (length fs)).
Proof.
  induction fs as [|f fs IH]; intros q fuel before st pes_first expected first output t Hd Hfs Hq Hcarry
    Hfuel Ht Hpes Hexp; (destruct fuel as [|fuel]; [cbn in Hfuel; lia|]); cbn [frame_loop].
  - cbn [concat app length units] in *. rewrite Hd, get_from_app by done. rewrite app_nil_r, time_at_0.
    destruct q as [|b q].
    + destruct Hexp as [->|[_ ?]]; [|done]. eexists _, _. split; [reflexivity|]. done.
    + assert (match pes_first with Some t => Some t | None => expected end = Some t) as ->.
      { destruct Hpes as [->| ->]; [|done]. destruct Hexp as [->|[? _]]; done. }
      destruct t as [tp td]. destruct Hq as [?|(f & Hf & Hb)]; [done|].
      destruct (begins_cases step (b :: q) f Hf Hb ltac:(done)) as (Hs & Hlen & Hlt).
      rewrite Hcarry. cbn [app].
      destruct Hlen as [->|[-> Hl]].
      * destruct (Nat.leb_spec (length f) (length (b :: q))); [lia|].
        eexists _, _. split; [reflexivity|]. done.
      * rewrite Hs. unfold ADTS_HEADER_LEN. destruct (Nat.ltb_spec (length (b :: q)) 7); [|lia]. cbn [andb].
        eexists _, _. split; [reflexivity|]. done.
  - apply Forall_cons in Hfs as [Hf Hfs]. cbn [concat length units] in *.
    destruct (whole_frame_cons step f Hf) as (b & l & Ef & Hl7).
    assert (get_from (length before) d = Some (f ++ concat fs ++ q)) as ->.
    { rewrite Hd, get_from_app by done. by rewrite <- app_assoc. }
    assert (Hcons : f ++ concat fs ++ q = b :: l ++ concat fs ++ q) by (rewrite Ef; done).
    rewrite Hcons. cbn iota. rewrite <- Hcons.
    assert (match pes_first with Some t => Some t | None => expected end = Some t) as ->.
    { destruct Hpes as [->| ->]; [|done]. destruct Hexp as [->|[? _]]; done. }
    destruct t as [tp td]. destruct Hf as [Hf Hstep].
    rewrite frame_len_app, Hf by done. rewrite step_90k_app, Hstep by lia.
    destruct (Nat.leb_spec (length f) (length (f ++ concat fs ++ q))) as [_|Hbad];
      [|rewrite length_app in Hbad; lia].
    rewrite take_app_length.
    destruct (sat_add_step_ok (tp, td) step (length fs) Ht) as [-> Ht'].
    destruct (IH q fuel (before ++ f) st None (Some (time_at (tp, td) step 1))
      (match first with None => Some f | Some f0 => Some f0 end)
      (push output track_index tp td f) (time_at (tp, td) step 1)) as (first' & st' & E & Hc & Hn);
      try done; [by rewrite Hd, <- !app_assoc|lia|by left|by left|].
    rewrite length_app in E. rewrite E. exists first', st'.
    split_and!; [|done|by rewrite Hn, time_at_S].
    f_equal. unfold push. rewrite <- app_assoc. done.
Qed.

(** *** One PES *)

Lemma concat_length_frames step fs : Forall (whole_frame step) fs -> (length fs <= length (concat fs))%nat.
Proof.
  induction 1 as [|f fs Hf Hfs IH]; [done|]. cbn [concat length]. rewrite length_app.
  destruct (whole_frame_cons step f Hf) as (? & ? & _ & ?). lia.
Qed.

Lemma frame_empty st pes track_index output :
  carry st = [] -> frame st [] pes track_index output = (Frames None, mk_AdtsFraming [] (next st) (unframed st) (framed st), output).
Proof. intros Hc. unfold frame. rewrite Hc. unfold frame_from. cbn. by rewrite Hc. Qed.

Lemma frame_clean step st d fs q pes track_index output t :
  carry st = [] -> d = concat fs ++ q -> d <> [] -> Forall (whole_frame step) fs ->
  (q = [] \/ exists f, whole_frame step f /\ begins q f) ->
  times_ok t step (length fs) -> (pes = None \/ pes = Some t) -> (next st = Some t \/ pes = Some t) ->
  exists first st',
    frame st d pes track_index output = (Frames first, st', output ++ units track_index t step fs) /\
    carry st' = q /\ next st' = Some (time_at t step (length fs)).
Proof.
  intros Hc Hd Hne Hfs Hq Ht Hpes Hnext. unfold frame. rewrite Hc. unfold frame_from. cbn iota.
  assert (resync d = Some O) as ->.
  { destruct d as [|b d]; [done|]. cbn [resync].
    rewrite (follows_starts step) by (done || (by exists fs, q)). done. }
  apply (frame_loop_ok step track_index d 0 false fs q (S (length d)) [] st); try done.
  - rewrite Hd, length_app. pose proof (concat_length_frames step fs Hfs). lia.
  - destruct Hnext as [?|?]; [by left|right]. split; [done|]. by rewrite <- Hd.
Qed.

Lemma frame_pending step st f r d pes track_index output :
  carry st <> [] -> whole_frame step f -> f = carry st ++ d ++ r -> r <> [] -> frame_len d = None ->
  frame st d pes track_index output =
    (Frames None, mk_AdtsFraming (carry st ++ d) (next st) (unframed st) (framed st), output).
Proof.
  intros Hc Hf Ef Hr Hd. unfold frame. destruct (carry st) as [|c cs] eqn:Ecarry; [done|].
  unfold complete_carry. rewrite Hd, Ecarry. set (part := c :: cs) in *. cbn [negb andb].
  assert (Hb : begins (part ++ d) f) by (exists r; split; [by rewrite <- app_assoc|done]).
  destruct (begins_cases step (part ++ d) f Hf Hb ltac:(done)) as (Hs & Hlen & Hlt).
  rewrite length_app in Hlen, Hlt.
  assert (Hlen' : frame_len (take ADTS_HEADER_LEN (part ++ d)) = frame_len (part ++ d))
    by (apply frame_len_take; unfold ADTS_HEADER_LEN; lia).
  rewrite Hlen'. destruct Hlen as [->|[-> Hl]].
  - unfold get_to. destruct (Nat.leb_spec (length f - length part) (length d)); [lia|done].
  - rewrite take_ge by (rewrite length_app; unfold ADTS_HEADER_LEN; lia). rewrite length_app, Hs.
    unfold ADTS_HEADER_LEN. destruct (Nat.ltb_spec (length part + length d) 7); [done|lia].
Qed.

Lemma frame_completed step st f a fs q d pes track_index output t :
  carry st <> [] -> whole_frame step f -> f = carry st ++ a -> a <> [] ->
  d = a ++ concat fs ++ q -> Forall (whole_frame step) fs ->
  (q = [] \/ exists f, whole_frame step f /\ begins q f) ->
  next st = Some t -> times_ok t step (S (length fs)) ->
  (pes = None \/ pes = Some (time_at t step 1)) ->
  exists first st',
    frame st d pes track_index output = (Frames first, st', output ++ units track_index t step (f :: fs)) /\
    carry st' = q /\ next st' = Some (time_at t step (S (length fs))).
Proof.
  intros Hc Hf Ef Ha Hd Hfs Hq Hnext Ht Hpes. unfold frame.
  destruct (carry st) as [|c cs] eqn:Ecarry; [done|]. set (part := c :: cs) in *.
  assert (Hcomp : complete_carry st d =
    (Completed f (length a), mk_AdtsFraming [] (next st) (unframed st) (framed st))).
  { unfold complete_carry. rewrite Ecarry. fold part.
    assert (frame_len (take ADTS_HEADER_LEN (part ++ d)) = Some (length f)) as ->.
    { rewrite frame_len_take by (unfold ADTS_HEADER_LEN; lia). rewrite Hd, app_assoc, <- Ef.
      destruct Hf as [Hf _]. rewrite frame_len_app; [done|].
      apply frame_len_bounds in Hf as (_ & ? & _). done. }
    replace (length f - length part)%nat with (length a) by (rewrite Ef, length_app; lia).
    rewrite Hd, get_to_app, get_from_app by done. rewrite <- Ef.
    assert (match concat fs ++ q with [] => true | _ => sync_prefix (concat fs ++ q) end = true) as ->; [|done].
    destruct (concat fs ++ q) as [|x y] eqn:E; [done|]. rewrite <- E.
    apply (follows_sync step); [by exists fs, q|]. by rewrite E. }
  rewrite Hcomp, Hnext. destruct Hf as [Hf Hstep]. rewrite Hstep. destruct t as [tp td].
  destruct (sat_add_step_ok (tp, td) step (length fs) Ht) as [-> Ht'].
  unfold frame_from. cbn iota.
  destruct (frame_loop_ok step track_index d (length a) true fs q (S (length d)) a
    (mk_AdtsFraming [] (Some (tp, td)) (unframed st) (framed st)) pes (Some (time_at (tp, td) step 1)) (Some f)
    (push output track_index tp td f) (time_at (tp, td) step 1)) as (first & st' & E & Hc' & Hn'); try done.
  - rewrite Hd, !length_app. pose proof (concat_length_frames step fs Hfs). lia.
  - by left.
  - rewrite E. exists first, st'. split_and!; [|done|by rewrite Hn', time_at_S].
    f_equal. unfold push. rewrite <- app_assoc. done.
Qed.

(** *** A stream of PES packets *)

Fixpoint run_framing (st : AdtsFraming) (track_index : Z) (ps : list (bytes * option (Z * Z)))
    (output : list MediaPacket) : AdtsFraming * list MediaPacket :=
  match ps with
  | [] => (st, output)
  | (p, ts) :: ps' =>
      let '(_, st', output') := frame st p ts track_index output in
      run_framing st' track_index ps' output'
  end.

(** How the PES packets cut the frames [fs], [part] bytes into the first: a timestamp,
    when there is one, is that of the first frame that starts in the PES ([t] is the
    time of the first frame of [fs]); a PES inside a frame does not by chance start
    with a header. *)
Fixpoint cut_ok (step : Z) (t : Z * Z) (fs : list bytes) (part : bytes) (ps : list (bytes * option (Z * Z))) : Prop :=
  match ps with
  | [] => concat fs = part
  | (p, ts) :: ps' =>
      (ts = None \/ ts = Some (time_at t step (match part with [] => 0 | _ => 1 end))) /\
      exists done fs' part',
        fs = done ++ fs' /\ part ++ p = concat done ++ part' /\
        (part' = [] \/ exists f, head fs' = Some f /\ begins part' f) /\
        (part <> [] -> done = [] -> frame_len p = None) /\
        cut_ok step (time_at t step (length done)) fs' part' ps'
  end.

Lemma time_at_add t step a b : time_at (time_at t step a) step b = time_at t step (a + b).
Proof. unfold time_at. cbn [fst snd]. f_equal; lia. Qed.

Lemma units_app track_index t step fs gs :
  units track_index t step (fs ++ gs) =
    units track_index t step fs ++ units track_index (time_at t step (length fs)) step gs.
Proof.
  revert t. induction fs as [|f fs IH]; intros t; cbn [app units length]; [by rewrite time_at_0|].
  rewrite IH, time_at_S. done.
Qed.

Lemma times_ok_le t step n m : times_ok t step n -> (m <= n)%nat -> times_ok t step m.
Proof. unfold times_ok, in_i. intros (Hs & H1 & H2 & H3 & H4) Hm. split_and!; nia. Qed.

Lemma times_ok_at t step n m : times_ok t step (n + m) -> times_ok (time_at t step n) step m.
Proof. unfold times_ok, in_i, time_at. cbn [fst snd]. intros (Hs & H1 & H2 & H3 & H4). split_and!; nia. Qed.

(** The state between two PES packets. *)
Definition framing_at (st : AdtsFraming) (t : Z * Z) (part : bytes) (ps : list (bytes * option (Z * Z))) : Prop :=
  carry st = part /\
  (next st = Some t \/ (part = [] /\ next st = None /\
     match ps with (_, ts) :: _ => ts = Some t | [] => True end)).

Lemma frame_pes step st t fs part p ts track_index output done fs' part' :
  Forall (whole_frame step) fs -> times_ok t step (length fs) ->
  (part = [] \/ exists f, head fs = Some f /\ begins part f) ->
  carry st = part -> (next st = Some t \/ (part = [] /\ ts = Some t)) -> p <> [] ->
  (ts = None \/ ts = Some (time_at t step (match part with [] => 0 | _ => 1 end))) ->
  fs = done ++ fs' -> part ++ p = concat done ++ part' ->
  (part' = [] \/ exists f, head fs' = Some f /\ begins part' f) ->
  (part <> [] -> done = [] -> frame_len p = None) ->
  exists first st',
    frame st p ts track_index output = (Frames first, st', output ++ units track_index t step done) /\
    carry st' = part' /\ next st' = Some (time_at t step (length done)).
Proof.
  intros Hfs Ht Hpart Hc Hn Hp Hts Efs Ecut Hpart' Hspur.
  assert (Hdone : Forall (whole_frame step) done) by (rewrite Efs in Hfs; by apply Forall_app in Hfs as [? _]).
  assert (Hq : part' = [] \/ exists f, whole_frame step f /\ begins part' f).
  { destruct Hpart' as [?|(f & Hf & Hb)]; [by left|right]. exists f. split; [|done].
    rewrite Efs in Hfs. apply Forall_app in Hfs as [_ Hfs']. destruct fs'; [done|].
    injection Hf as ->. by apply Forall_cons in Hfs' as [? _]. }
  assert (Htd : times_ok t step (length done)).
  { eapply times_ok_le; [exact Ht|]. rewrite Efs, length_app. lia. }
  destruct part as [|c cs].
  - cbn [app] in Ecut. rewrite time_at_0 in Hts.
    eapply frame_clean; try done. destruct Hn as [?|[_ ?]]; auto.
  - set (part := c :: cs) in *. destruct Hpart as [?|(f & Hf & r & Ef & Hr)]; [done|].
    assert (Hnext : next st = Some t) by (destruct Hn as [?|[? _]]; done).
    destruct fs as [|f0 fs0]; [done|]. injection Hf as ->.
    assert (Hfw : whole_frame step f) by by apply Forall_cons in Hfs as [? _].
    destruct done as [|d0 done].
    + cbn [concat app length units] in *. rewrite app_nil_r, time_at_0.
      destruct Hpart' as [Hbad|(g & Hg & r' & Eg & Hr')]; [by rewrite Hbad in Ecut|].
      rewrite <- Efs in Hg. injection Hg as <-.
      rewrite (frame_pending step st f r'); [|by rewrite Hc|done| |done|by apply Hspur].
      2: { rewrite Hc. etransitivity; [exact Eg|]. rewrite <- Ecut. by app_norm. }
      eexists _, _. split; [done|]. cbn [carry next]. by rewrite Hc, Ecut.
    + injection Efs as <- Efs. cbn [concat] in Ecut. rewrite Ef, <- !app_assoc in Ecut.
      apply app_inv_head in Ecut. apply Forall_cons in Hdone as [_ Hdone].
      apply (frame_completed step st f r done part' p ts track_index output t); try done; by rewrite Hc.
Qed.

Lemma run_framing_ok step track_index ps : forall st t fs part output,
  Forall (whole_frame step) fs -> times_ok t step (length fs) ->
  (part = [] \/ exists f, head fs = Some f /\ begins part f) ->
  framing_at st t part ps -> Forall (fun p => p.1 <> []) ps -> cut_ok step t fs part ps ->
  exists st', run_framing st track_index ps output = (st', output ++ units track_index t step fs) /\
    carry st' = [].
Proof.
  induction ps as [|[p ts] ps IH]; intros st t fs part output Hfs Ht Hpart [Hc Hn] Hne Hcut; cbn [run_framing].
  - cbn in Hcut. destruct fs as [|f fs]; cbn [concat] in Hcut.
    + exists st. rewrite app_nil_r, Hc. done.
    + exfalso. apply Forall_cons in Hfs as [Hf _]. apply whole_frame_cons in Hf as (b & l & Ef & _).
      destruct Hpart as [->|(g & Hg & r & Eg & Hr)]; [by rewrite Ef in Hcut|].
      injection Hg as <-. rewrite <- Hcut, <- app_assoc in Eg.
      apply (f_equal length) in Eg. rewrite !length_app in Eg. destruct r; [done|]. cbn in Eg. lia.
  - cbn in Hcut. destruct Hcut as (Hts & done & fs' & part' & Efs & Ecut & Hp' & Hspur & Hrest).
    apply Forall_cons in Hne as [Hpne Hne]. cbn in Hpne.
    destruct (frame_pes step st t fs part p ts track_index output done fs' part')
      as (first & st' & -> & Hc' & Hn'); try done.
    { destruct Hn as [?|(? & _ & ?)]; [by left|by right]. }
    rewrite Efs in Hfs. apply Forall_app in Hfs as [_ Hfs'].
    rewrite Efs, length_app in Ht. rewrite Efs, units_app.
    destruct (IH st' (time_at t step (length done)) fs' part' (output ++ units track_index t step done))
      as (st'' & -> & Hc''); try done.
    + by apply times_ok_at.
    + split; [done|by left].
    + exists st''. by rewrite app_assoc.
Qed.

(** *** Any input *)

(** What is carried is the beginning of one frame. *)
Definition carry_ok (c : bytes) : Prop :=
  bytes_ok c /\
  (c = [] \/ (sync_prefix c = true /\
     ((exists len, frame_len c = Some len /\ (length c < len)%nat) \/ (length c < 7)%nat))).

Definition one_frame (pkt : MediaPacket) : Prop :=
  frame_len (payload pkt) = Some (length (payload pkt)) /\
  media_type pkt = Audio /\ format pkt = Raw /\ is_keyframe pkt = false.

Lemma frame_len_max d n : bytes_ok d -> frame_len d = Some n -> Z.of_nat n <= 8191.
Proof.
  intros Hok. unfold frame_len, first_chunk, ADTS_HEADER_LEN. destruct (get_to 7 d) as [c|] eqn:Ec; [|done].
  apply get_to_inv in Ec as [-> Hl].
  destruct d as [|b0 [|b1 [|b2 [|b3 [|b4 [|b5 [|b6 d]]]]]]]; cbn in Hl; try lia. cbn [take].
  repeat (apply Forall_cons in Hok as [? Hok]).
  destruct (b0 =? 0xFF); cbn [negb]; [|done]. destruct (b1 .& 0xF6 =? 0xF0); cbn [negb]; [|done].
  assert (in_u 13 (adts_len_field b3 b4 b5)) as Hr by (unfold adts_len_field; bitrange).
  unfold in_u in Hr. destruct (Nat.leb_spec 7 (Z.to_nat (adts_len_field b3 b4 b5))); [|done].
  intros [= <-]. change (2 ^ 13) with 8192 in Hr. lia.
Qed.

Lemma carry_ok_bound c : carry_ok c -> zlen c <= 8190.
Proof.
  unfold zlen. intros [Hb [->|(_ & [(len & Hl & Hlt)|Hlt])]]; [cbn; lia| |lia].
  apply frame_len_max in Hl; [lia|done].
Qed.

Lemma frame_loop_inv track_index d start carried :
  bytes_ok d -> forall fuel st offset pes_first expected first output r st' output',
  carry st = [] ->
  frame_loop fuel st d start offset carried pes_first expected first track_index output = (r, st', output') ->
  carry_ok (carry st') /\ exists new, output' = output ++ new /\ Forall one_frame new.
Proof.
  intros Hd fuel. induction fuel as [|fuel IH]; intros st offset pes_first expected first output r st' output' Hc;
    cbn [frame_loop].
  { intros [= <- <- <-]. cbn. rewrite Hc. split; [split; [constructor|by left]|].
    exists []. by rewrite app_nil_r. }
  assert (Hfin : forall f e s o, (f, mk_AdtsFraming (carry st) e (unframed st) s, output) = (r, st', o) ->
    carry_ok (carry st') /\ exists new, o = output ++ new /\ Forall one_frame new).
  { intros f e s o [= <- <- <-]. cbn. rewrite Hc. split; [split; [constructor|by left]|].
    exists []. by rewrite app_nil_r. }
  destruct (get_from offset d) as [[|b rest]|] eqn:Eg; [apply Hfin| |apply Hfin].
  apply get_from_inv in Eg as [Erest _]. set (rs := b :: rest) in *.
  assert (Hrs : bytes_ok rs) by (rewrite Erest; by apply Forall_drop).
  destruct (match pes_first with Some t => Some t | None => expected end) as [[tp td]|]; [|apply Hfin].
  rewrite Hc. cbn [app].
  destruct (frame_len rs) as [len|] eqn:El.
  - destruct (Nat.leb_spec len (length rs)) as [Hle|Hgt].
    + destruct (step_90k rs) as [step|].
      2: { rewrite <- Hc. destruct (match first with None => negb carried | Some _ => false end); apply Hfin. }
      intros E. apply IH in E as (Hc' & new & -> & Hnew); [|done]. split; [done|].
      eexists. unfold push. rewrite <- app_assoc. split; [reflexivity|].
      apply Forall_app. split; [|done]. constructor; [|constructor].
      unfold one_frame. cbn [payload media_type format is_keyframe].
      apply frame_len_bounds in El as Hb. rewrite frame_len_take by lia. rewrite El, length_take.
      split_and!; try done. f_equal. lia.
    + intros [= <- <- <-]. cbn [carry]. split.
      * split; [done|right]. apply frame_len_bounds in El as Hb. destruct Hb as (_ & _ & Hs).
        split; [done|left]. eauto.
      * exists []. by rewrite app_nil_r.
  - destruct ((length rs <? ADTS_HEADER_LEN)%nat && sync_prefix rs) eqn:Ep; [|rewrite <- Hc; apply Hfin].
    apply andb_true_iff in Ep as [Hlt Hs]. apply Nat.ltb_lt in Hlt.
    intros [= <- <- <-]. cbn [carry]. split; [|exists []; by rewrite app_nil_r].
    split; [done|right]. split; [done|by right].
Qed.

Lemma frame_from_inv st d pes expected resume first track_index output r st' output' :
  bytes_ok d -> carry st = [] ->
  frame_from st d pes expected resume first track_index output = (r, st', output') ->
  carry_ok (carry st') /\ exists new, output' = output ++ new /\ Forall one_frame new.
Proof.
  intros Hd Hc. unfold frame_from. destruct (match resume with Some s => Some s | None => resync d end).
  - by apply frame_loop_inv.
  - intros [= <- <- <-]. split; [|exists []; by rewrite app_nil_r].
    unfold drop_unframed. repeat case_if; cbn; rewrite Hc; (split; [constructor|by left]).
Qed.

Lemma complete_carry_inv st d o st' :
  bytes_ok d -> carry_ok (carry st) -> carry st <> [] -> complete_carry st d = (o, st') ->
  match o with
  | Completed f n => carry st' = [] /\ frame_len f = Some (length f)
  | Pending => carry_ok (carry st')
  | Rejected => carry st' = []
  end.
Proof.
  intros Hd [Hcb [?|(Hs & Hlt)]] Hne; [done|]. unfold complete_carry.
  rewrite (frame_len_take (carry st ++ d) ADTS_HEADER_LEN) by (unfold ADTS_HEADER_LEN; lia).
  destruct (frame_len (carry st ++ d)) as [len|] eqn:El.
  - assert (Hlen : (length (carry st) < len)%nat).
    { apply frame_len_bounds in El as Hb. destruct Hlt as [(len' & Hl' & Hlt)|Hlt]; [|lia].
      rewrite frame_len_app in El by (by apply frame_len_bounds in Hl' as (_ & ? & _)).
      rewrite Hl' in El. by injection El as <-. }
    unfold get_to, get_from. destruct (Nat.leb_spec (len - length (carry st)) (length d)).
    + destruct (match drop _ d with [] => true | _ => _ end); intros [= <- <-]; [|done]. split; [done|].
      assert (carry st ++ take (len - length (carry st)) d = take len (carry st ++ d)) as ->.
      { rewrite take_app_ge by lia. done. }
      apply frame_len_bounds in El as Hb. rewrite frame_len_take, El, length_take, length_app by lia.
      f_equal. lia.
    + destruct (negb _); intros [= <- <-]; [|done]. cbn [carry].
      split; [by apply bytes_ok_app|right]. apply frame_len_bounds in El as Hb. destruct Hb as (_ & _ & Hs').
      split; [done|left]. exists len. rewrite length_app. split; [done|lia].
  - destruct (negb _ && _ && _) eqn:Ep; intros [= <- <-]; [|done]. cbn [carry].
    apply andb_true_iff in Ep as [Ep Hs']. apply andb_true_iff in Ep as [_ Hl].
    apply Nat.ltb_lt in Hl. unfold ADTS_HEADER_LEN in *. rewrite length_take in Hl.
    rewrite take_ge in Hs' by lia.
    split; [by apply bytes_ok_app|right]. split; [done|right]. lia.
Qed.

Lemma frame_inv st d pes track_index output r st' output' :
  bytes_ok d -> carry_ok (carry st) -> frame st d pes track_index output = (r, st', output') ->
  carry_ok (carry st') /\ exists new, output' = output ++ new /\ Forall one_frame new.
Proof.
  intros Hd Hc E. unfold frame in E. destruct (carry st) as [|c cs] eqn:Ec; [by eapply frame_from_inv in E|].
  destruct (complete_carry st d) as [o st1] eqn:Ecc.
  assert (Hcc := complete_carry_inv st d o st1 Hd ltac:(by rewrite Ec) ltac:(by rewrite Ec) Ecc).
  destruct o as [f n| |].
  - destruct Hcc as [Hc1 Hf].
    assert (Hplain : frame_from st1 d pes (next st) (Some n) None track_index output = (r, st', output') ->
      carry_ok (carry st') /\ exists new, output' = output ++ new /\ Forall one_frame new)
      by (intros E'; by eapply frame_from_inv in E').
    destruct (next st) as [[tp td]|]; [|by apply Hplain].
    destruct (step_90k f) as [step|]; [|by apply Hplain].
    apply frame_from_inv in E as (H1 & new & -> & Hnew); [|done|done]. split; [done|].
    unfold push. rewrite <- app_assoc. eexists. split; [reflexivity|].
    apply Forall_app. split; [|done]. by repeat constructor.
  - injection E as <- <- <-. split; [done|]. exists []. by rewrite app_nil_r.
  - by eapply frame_from_inv in E.
Qed.

Lemma frame_carry_ok st d pes track_index output r st' output' :
  bytes_ok d -> carry_ok (carry st) -> frame st d pes track_index output = (r, st', output') ->
  carry_ok (carry st').
Proof. intros Hd Hc E. by eapply frame_inv in E as [? _]. Qed.

(** The fuel of the loop is enough: a round moves a header or more ahead. *)
Lemma frame_loop_fuel track_index d start carried :
  forall fuel fuel' st offset pes_first expected first output,
  (length d - offset < fuel)%nat -> (length d - offset < fuel')%nat ->
  frame_loop fuel st d start offset carried pes_first expected first track_index output =
  frame_loop fuel' st d start offset carried pes_first expected first track_index output.
Proof.
  induction fuel as [|fuel IH]; intros fuel' st offset pes_first expected first output Hf Hf'; [lia|].
  destruct fuel' as [|fuel']; [lia|]. cbn [frame_loop].
  destruct (get_from offset d) as [[|b rest]|] eqn:Eg; try done.
  apply get_from_inv in Eg as [Er Ho].
  assert (length d - offset = length (b :: rest))%nat as Hl by (rewrite Er, length_drop; done).
  destruct (match pes_first with Some t => Some t | None => expected end) as [[tp td]|]; [|done].
  destruct (frame_len (b :: rest)) as [len|] eqn:El; [|done].
  destruct (Nat.leb_spec len (length (b :: rest))); [|done].
  destruct (step_90k (b :: rest)); [|done]. apply frame_len_bounds in El as (H7 & _).
  apply IH; lia.
Qed.

(** ** Properties *)

(** C33: AAC reframing is exact: a stream of ADTS frames of one sampling rate, cut into PES
    packets anywhere (inside headers and over several packets too), comes out as
    exactly those frames, one unit each and in order, stamped from the first frame's
    time on in steps of 1024 samples, and nothing is left over; a PES may leave its
    timestamp out, except the first.  The one condition is that a PES lying wholly
    inside a frame does not by chance begin like a frame header. *)
Theorem adts_reframing step t fs ps track_index output :
  Forall (whole_frame step) fs -> times_ok t step (length fs) ->
  Forall (fun p => p.1 <> []) ps -> (forall p ts rest, ps = (p, ts) :: rest -> ts = Some t) ->
  cut_ok step t fs [] ps ->
  exists st', run_framing AdtsFraming_default track_index ps output
    = (st', output ++ units track_index t step fs) /\ carry st' = [].
Proof.
  intros Hfs Ht Hne Hfirst Hcut. apply (run_framing_ok step track_index ps _ t fs []); try done.
  - by left.
  - split; [done|right]. split_and!; try done. destruct ps as [|[p ts] ps]; [done|]. by eapply Hfirst.
Qed.

Definition example_frame (payload : bytes) : bytes := adts_frame 1 3 2 payload.

Lemma adts_reframing_witness :
  exists st',
    run_framing AdtsFraming_default 0
      [([0xFF; 0xF1; 0x4C], Some (90000, 90000));
       ([0x80; 1; 0x3F; 0xFC; 5; 6; 0xFF], None);
       ([0xF1; 0x4C; 0x80; 1; 0x1F; 0xFC; 7], None)] []
    = (st', [] ++ units 0 (90000, 90000) 1920 [example_frame [5; 6]; example_frame [7]]) /\
    carry st' = [].
Proof.
  apply (adts_reframing 1920 (90000, 90000) [example_frame [5; 6]; example_frame [7]]).
  - repeat constructor.
  - unfold times_ok, in_i. cbn. lia.
  - repeat constructor; discriminate.
  - by intros p ts rest [= <- <- <-].
  - cbn. split; [by right|]. exists [], [example_frame [5; 6]; example_frame [7]], [0xFF; 0xF1; 0x4C].
    split_and!; try done; [right; exists (example_frame [5; 6]); split; [done|by eexists]|by left|].
    exists [example_frame [5; 6]], [example_frame [7]], [0xFF].
    split_and!; try done; [right; exists (example_frame [7]); split; [done|by eexists]|by left|].
    exists [example_frame [7]], [], [].
    split_and!; try done. by left.
Defined.

(** AAC framing is safe on any input: whatever bytes and timestamps a PES brings, the
    bytes carried over stay the beginning of one frame (at most 8190 of them), earlier
    output is kept, and every unit added is exactly one ADTS frame as its own header
    counts it. *)
Theorem adts_framing_invariant st d pes track_index output :
  bytes_ok d -> carry_ok (carry st) ->
  let '(_, st', output') := frame st d pes track_index output in
  carry_ok (carry st') /\ zlen (carry st') <= 8190 /\
  exists new, output' = output ++ new /\ Forall one_frame new.
Proof.
  intros Hd Hc. destruct (frame st d pes track_index output) as [[r st'] output'] eqn:E.
  destruct (frame_inv st d pes track_index output r st' output' Hd Hc E) as [H1 H2].
  split_and!; [done|by apply carry_ok_bound|done].
Qed.

Lemma adts_framing_invariant_witness :
  let '(_, st', output') := frame AdtsFraming_default [1; 2; 0xFF; 0xF1; 0x4C] (Some (0, 0)) 0 [] in
  carry_ok (carry st') /\ zlen (carry st') <= 8190 /\
  exists new, output' = [] ++ new /\ Forall one_frame new.
Proof.
  apply (adts_framing_invariant AdtsFraming_default [1; 2; 0xFF; 0xF1; 0x4C] (Some (0, 0)) 0 []).
  - repeat constructor; unfold in_u; lia.
  - split; [constructor|by left].
Defined.
