(* ===== verification/TsDemux.v ===== *)
(** * The MPEG-TS demuxer

    Models [crates/restream-mpegts/src/demux.rs], the parser of untrusted SRT
    ingest: packet synchronisation, PAT and PMT sections, PES reassembly per PID,
    AAC framing and the probes of the streams.  The Rust arrays and vectors are
    lists, the map of old streams a finite map; [memchr] is the external crate's,
    known by its specification.  [feed]'s scratch buffer holds nothing between calls
    and is left out of the state. *)

From S2P Require Import Prelude Bitblast Bits Aac Annexb Media TsWire Probe AdtsFraming.

(** [memchr::memchr]: the position of the first occurrence of a byte. *)
Class Memchr := {
  memchr : Z -> bytes -> option nat;
  memchr_Some : forall b d i, memchr b d = Some i ->
    d !! i = Some b /\ forall j, (j < i)%nat -> d !! j <> Some b;
  memchr_None : forall b d, memchr b d = None -> b ∉ d;
}.

(** ** Definitions *)

Definition MAX_PES_BUFFER : Z := 512 * 1024.
Definition PID_COUNT : nat := Z.to_nat (1 .<< 13).
Definition NO_STREAM : Z := 0xFFFF.
Definition CC_UNSET : Z := 0xFF.
Definition PMT_VER_UNSET : Z := 0xFF.

Definition pes_payload_len (pes_packet_len pes_header_len : Z) : option Z :=
  if pes_packet_len =? 0 then None else checked_u 64 (pes_packet_len - (pes_header_len + 3)).

Definition from_stream_type (st : Z) : option StreamKind :=
  if st =? 0x1B then Some KindH264
  else if st =? 0x24 then Some KindH265
  else if st =? 0x0F then Some KindAacAdts
  else if st =? 0x11 then Some KindAacLatm
  else None.

Definition kind_media_type (k : StreamKind) : MediaType :=
  match k with KindH264 | KindH265 => Video | KindAacAdts | KindAacLatm => Audio end.

Record PesAccumulator := mk_PesAccumulator {
  pes_buf : bytes;
  expected_payload_len : option Z;
  pes_pts : Z;
  pes_dts : Z;
  has_timestamp : bool;
  pes_random_access : bool;
  adts : AdtsFraming;
}.

Definition PesAccumulator_new : PesAccumulator :=
  mk_PesAccumulator [] None 0 0 false false AdtsFraming_default.

Definition append_bounded (p : PesAccumulator) (data : bytes) : PesAccumulator :=
  if zlen (pes_buf p) + zlen data <=? MAX_PES_BUFFER
  then mk_PesAccumulator (pes_buf p ++ data) (expected_payload_len p) (pes_pts p) (pes_dts p)
         (has_timestamp p) (pes_random_access p) (adts p)
  else p.

Definition pes_reset (p : PesAccumulator) : PesAccumulator :=
  mk_PesAccumulator [] None 0 0 false false (adts p).

Record StreamInfo := mk_StreamInfo {
  si_pid : Z;
  si_kind : StreamKind;
  si_track_index : Z;
  si_language : option string;
  si_title : option string;
  si_continuity : Z;
  si_pes : PesAccumulator;
}.

Definition set_pes (s : StreamInfo) (p : PesAccumulator) : StreamInfo :=
  mk_StreamInfo (si_pid s) (si_kind s) (si_track_index s) (si_language s) (si_title s) (si_continuity s) p.
Definition set_continuity (s : StreamInfo) (cc : Z) : StreamInfo :=
  mk_StreamInfo (si_pid s) (si_kind s) (si_track_index s) (si_language s) (si_title s) cc (si_pes s).

Record DemuxProbe := mk_DemuxProbe {
  dp_video : option VideoMeta;
  dp_video_sequence_header : option bytes;
  dp_video_track_count : Z;
  dp_audio_tracks : list AudioMeta;
}.

Record TopologyChanges := mk_TopologyChanges { changed_audio : bool; changed_video : bool }.
Definition TopologyChanges_default : TopologyChanges := mk_TopologyChanges false false.
Definition mark (c : TopologyChanges) (kind : StreamKind) : TopologyChanges :=
  match kind_media_type kind with
  | Audio => mk_TopologyChanges true (changed_video c)
  | Video => mk_TopologyChanges (changed_audio c) true
  end.

Inductive StreamProbe :=
  | ProbeVideo (meta : VideoMeta) (sequence_header : option bytes)
  | ProbeAudio (meta : AudioMeta).

Record StreamDescriptors := mk_StreamDescriptors {
  sd_language : option string;
  sd_title : option string;
}.

(** *** Text

    [str::from_utf8] as a decoder to code points, [str::trim] and
    [to_ascii_lowercase] on them, and the bytes of the result. *)

Definition is_cont (b : Z) : bool := (0x80 <=? b) && (b <=? 0xBF).

(** One character: its code point and what follows. *)
Definition decode_char (d : bytes) : option (Z * bytes) :=
  match d with
  | [] => None
  | b0 :: d1 =>
      if b0 <=? 0x7F then Some (b0, d1)
      else if (0xC2 <=? b0) && (b0 <=? 0xDF) then
        match d1 with
        | b1 :: d2 => if is_cont b1 then Some (((b0 .& 0x1F) .<< 6) .| (b1 .& 0x3F), d2) else None
        | [] => None
        end
      else if (0xE0 <=? b0) && (b0 <=? 0xEF) then
        match d1 with
        | b1 :: b2 :: d3 =>
            let low := if b0 =? 0xE0 then 0xA0 else 0x80 in
            let high := if b0 =? 0xED then 0x9F else 0xBF in
            if (low <=? b1) && (b1 <=? high) && is_cont b2
            then Some (((b0 .& 0x0F) .<< 12) .| ((b1 .& 0x3F) .<< 6) .| (b2 .& 0x3F), d3) else None
        | _ => None
        end
      else if (0xF0 <=? b0) && (b0 <=? 0xF4) then
        match d1 with
        | b1 :: b2 :: b3 :: d4 =>
            let low := if b0 =? 0xF0 then 0x90 else 0x80 in
            let high := if b0 =? 0xF4 then 0x8F else 0xBF in
            if (low <=? b1) && (b1 <=? high) && is_cont b2 && is_cont b3
            then Some (((b0 .& 0x07) .<< 18) .| ((b1 .& 0x3F) .<< 12) .| ((b2 .& 0x3F) .<< 6) .| (b3 .& 0x3F), d4)
            else None
        | _ => None
        end
      else None
  end.

(** A character has at least one byte. *)
Fixpoint decode_utf8 (fuel : nat) (d : bytes) : option (list Z) :=
  match d, fuel with
  | [], _ => Some []
  | _, O => None
  | _, S fuel' => '(c, rest) ← decode_char d; cons c <$> decode_utf8 fuel' rest
  end.
Definition from_utf8 (d : bytes) : option (list Z) := decode_utf8 (length d) d.

Definition encode_char (c : Z) : bytes :=
  if c <=? 0x7F then [c]
  else if c <=? 0x7FF then [0xC0 .| (c .>> 6); 0x80 .| (c .& 0x3F)]
  else if c <=? 0xFFFF then [0xE0 .| (c .>> 12); 0x80 .| ((c .>> 6) .& 0x3F); 0x80 .| (c .& 0x3F)]
  else [0xF0 .| (c .>> 18); 0x80 .| ((c .>> 12) .& 0x3F); 0x80 .| ((c .>> 6) .& 0x3F); 0x80 .| (c .& 0x3F)].

(** The characters with the White_Space property. *)
Definition is_whitespace (c : Z) : bool :=
  ((9 <=? c) && (c <=? 13)) || (c =? 0x20) || (c =? 0x85) || (c =? 0xA0) || (c =? 0x1680)
  || ((0x2000 <=? c) && (c <=? 0x200A)) || (c =? 0x2028) || (c =? 0x2029) || (c =? 0x202F)
  || (c =? 0x205F) || (c =? 0x3000).

Fixpoint trim_start (l : list Z) : list Z :=
  match l with
  | c :: l' => if is_whitespace c then trim_start l' else l
  | [] => []
  end.
Definition trim (l : list Z) : list Z := reverse (trim_start (reverse (trim_start l))).

Definition char_lowercase (c : Z) : Z := if (65 <=? c) && (c <=? 90) then c + 32 else c.

Definition string_of_bytes (d : bytes) : string :=
  fold_right (fun b s => String (Ascii.ascii_of_N (Z.to_N b)) s) EmptyString d.

(** *** Sections *)

(** [slice.split_first_chunk::<n>()] *)
Definition split_first_chunk (n : nat) (d : bytes) : option (bytes * bytes) := split_at_checked n d.

(** [while let Some((&[tag, len], tail))]: a round consumes two bytes or more. *)
Fixpoint parse_stream_descriptors_loop (fuel : nat) (rest : bytes) (acc : StreamDescriptors)
    : StreamDescriptors :=
  match fuel, split_first_chunk 2 rest with
  | S fuel', Some ([tag; len], tail) =>
      match split_at_checked (Z.to_nat len) tail with
      | None => acc
      | Some (payload, tail) =>
          let acc :=
            if tag =? 0x0A then
              match code ← first_chunk 3 payload; from_utf8 code with
              | Some language =>
                  match map char_lowercase (trim language) with
                  | [] => acc
                  | language => mk_StreamDescriptors
                                  (Some (string_of_bytes (flat_map encode_char language))) (sd_title acc)
                  end
              | None => acc
              end
            else acc in
          parse_stream_descriptors_loop fuel' tail acc
      end
  | _, _ => acc
  end.
Definition parse_stream_descriptors (data : bytes) : StreamDescriptors :=
  parse_stream_descriptors_loop (length data) data (mk_StreamDescriptors None None).

Definition length_12 (high low : Z) : Z := be_value [high .& 0x0F; low].
Definition pid_13 (high low : Z) : Z := be_value [high .& 0x1F; low].

Fixpoint descriptors_are_valid_loop (fuel : nat) (data : bytes) : bool :=
  match data, fuel with
  | [], _ => true
  | _, O => false
  | _, S fuel' =>
      match split_first_chunk 2 data with
      | Some ([_; len], tail) =>
          match get_from (Z.to_nat len) tail with
          | Some tail => descriptors_are_valid_loop fuel' tail
          | None => false
          end
      | _ => false
      end
  end.
Definition descriptors_are_valid (data : bytes) : bool := descriptors_are_valid_loop (length data) data.

Fixpoint entries_are_valid (fuel : nat) (entries : bytes) : bool :=
  match entries, fuel with
  | [], _ => true
  | _, O => false
  | _, S fuel' =>
      match split_first_chunk 5 entries with
      | Some ([_; _; _; info_high; info_low], tail) =>
          match split_at_checked (Z.to_nat (length_12 info_high info_low)) tail with
          | Some (descriptors, tail) =>
              if descriptors_are_valid descriptors then entries_are_valid fuel' tail else false
          | None => false
          end
      | _ => false
      end
  end.

Definition pmt_stream_loop_bounds (data : bytes) (end_ : nat) : option (nat * nat) :=
  stream_loop_end ← (if (4 <=? end_)%nat then Some (end_ - 4)%nat else None);
  if (length data <? end_)%nat || (stream_loop_end <? 12)%nat then None
  else
    match d ← get_range 10 12 data; first_chunk 2 d with
    | Some [high; low] =>
        let stream_loop_start := (12 + Z.to_nat (length_12 high low))%nat in
        program ← get_range 12 stream_loop_start data;
        if negb (descriptors_are_valid program) then None
        else
          entries ← get_range stream_loop_start stream_loop_end data;
          if entries_are_valid (length entries) entries
          then Some (stream_loop_start, stream_loop_end) else None
    | _ => None
    end.

Definition section_after_pointer (payload : bytes) : option bytes :=
  match payload with
  | pointer :: rest =>
      match get_from (Z.to_nat pointer) rest with
      | Some [] | None => None
      | Some section => Some section
      end
  | [] => None
  end.

(** *** The demuxer *)

Record TsDemuxer := mk_TsDemuxer {
  streams : list StreamInfo;
  pid_to_stream : list Z;
  pmt_pid : option Z;
  probed : bool;
  initial_probe_done : bool;
  probe_result : option DemuxProbe;
  topology_changes : TopologyChanges;
  remainder : bytes;
  output : list MediaPacket;
  audio_track_counter : Z;
  video_track_count : Z;
  stream_probes : list (option StreamProbe);
  pmt_layout : bytes;
  pmt_buf : bytes;
  pmt_expected : nat;
  pmt_version : Z;
}.

Definition TsDemuxer_new : TsDemuxer :=
  mk_TsDemuxer [] (replicate PID_COUNT NO_STREAM) None false false None TopologyChanges_default []
    [] 0 0 [] [] [] 0 PMT_VER_UNSET.

(** Assignments to fields. *)
Definition set_streams (d : TsDemuxer) (ss : list StreamInfo) : TsDemuxer :=
  mk_TsDemuxer ss (pid_to_stream d) (pmt_pid d) (probed d) (initial_probe_done d) (probe_result d)
    (topology_changes d) (remainder d) (output d) (audio_track_counter d) (video_track_count d)
    (stream_probes d) (pmt_layout d) (pmt_buf d) (pmt_expected d) (pmt_version d).
Definition set_output (d : TsDemuxer) (out : list MediaPacket) : TsDemuxer :=
  mk_TsDemuxer (streams d) (pid_to_stream d) (pmt_pid d) (probed d) (initial_probe_done d) (probe_result d)
    (topology_changes d) (remainder d) out (audio_track_counter d) (video_track_count d)
    (stream_probes d) (pmt_layout d) (pmt_buf d) (pmt_expected d) (pmt_version d).
Definition set_remainder (d : TsDemuxer) (r : bytes) : TsDemuxer :=
  mk_TsDemuxer (streams d) (pid_to_stream d) (pmt_pid d) (probed d) (initial_probe_done d) (probe_result d)
    (topology_changes d) r (output d) (audio_track_counter d) (video_track_count d)
    (stream_probes d) (pmt_layout d) (pmt_buf d) (pmt_expected d) (pmt_version d).
Definition set_pmt_pid (d : TsDemuxer) (p : option Z) : TsDemuxer :=
  mk_TsDemuxer (streams d) (pid_to_stream d) p (probed d) (initial_probe_done d) (probe_result d)
    (topology_changes d) (remainder d) (output d) (audio_track_counter d) (video_track_count d)
    (stream_probes d) (pmt_layout d) (pmt_buf d) (pmt_expected d) (pmt_version d).
Definition set_pmt_section (d : TsDemuxer) (buf : bytes) (expected : nat) : TsDemuxer :=
  mk_TsDemuxer (streams d) (pid_to_stream d) (pmt_pid d) (probed d) (initial_probe_done d) (probe_result d)
    (topology_changes d) (remainder d) (output d) (audio_track_counter d) (video_track_count d)
    (stream_probes d) (pmt_layout d) buf expected (pmt_version d).
Definition set_pmt_version (d : TsDemuxer) (v : Z) : TsDemuxer :=
  mk_TsDemuxer (streams d) (pid_to_stream d) (pmt_pid d) (probed d) (initial_probe_done d) (probe_result d)
    (topology_changes d) (remainder d) (output d) (audio_track_counter d) (video_track_count d)
    (stream_probes d) (pmt_layout d) (pmt_buf d) (pmt_expected d) v.
Definition set_probes (d : TsDemuxer) (probes : list (option StreamProbe)) (p : bool) : TsDemuxer :=
  mk_TsDemuxer (streams d) (pid_to_stream d) (pmt_pid d) p (initial_probe_done d) (probe_result d)
    (topology_changes d) (remainder d) (output d) (audio_track_counter d) (video_track_count d)
    probes (pmt_layout d) (pmt_buf d) (pmt_expected d) (pmt_version d).
Definition set_probe_result (d : TsDemuxer) (initial : bool) (r : option DemuxProbe) : TsDemuxer :=
  mk_TsDemuxer (streams d) (pid_to_stream d) (pmt_pid d) (probed d) initial r
    (topology_changes d) (remainder d) (output d) (audio_track_counter d) (video_track_count d)
    (stream_probes d) (pmt_layout d) (pmt_buf d) (pmt_expected d) (pmt_version d).
Definition set_topology_changes (d : TsDemuxer) (c : TopologyChanges) : TsDemuxer :=
  mk_TsDemuxer (streams d) (pid_to_stream d) (pmt_pid d) (probed d) (initial_probe_done d) (probe_result d)
    c (remainder d) (output d) (audio_track_counter d) (video_track_count d)
    (stream_probes d) (pmt_layout d) (pmt_buf d) (pmt_expected d) (pmt_version d).

Definition drain (d : TsDemuxer) : list MediaPacket * TsDemuxer := (output d, set_output d []).
Definition drain_into (d : TsDemuxer) (batch : list MediaPacket) : nat * list MediaPacket * TsDemuxer :=
  (length (output d), batch ++ output d, set_output d []).
Definition take_probe (d : TsDemuxer) : option DemuxProbe * TsDemuxer :=
  (probe_result d, set_probe_result d (initial_probe_done d) None).
Definition take_topology_changes (d : TsDemuxer) : TopologyChanges * TsDemuxer :=
  (topology_changes d, set_topology_changes d TopologyChanges_default).
Definition has_streams (d : TsDemuxer) : bool := match streams d with [] => false | _ => true end.

(** *** Probes *)

(** One round of the loop over the streams and their probes. *)
Definition collect_probe (acc : option VideoMeta * option bytes * list AudioMeta)
    (sp : StreamInfo * option StreamProbe) : option VideoMeta * option bytes * list AudioMeta :=
  let '(video, header, tracks) := acc in
  let '(stream, probe) := sp in
  match probe with
  | Some (ProbeVideo m sequence_header) =>
      (Some (mk_VideoMeta (vm_codec m) (vm_width m) (vm_height m) (vm_fps m) (vm_bw m) (vm_pid m)
               (si_language stream) (si_title stream) (vm_profile m) (vm_level m) (vm_pixel_format m)),
       sequence_header, tracks)
  | Some (ProbeAudio m) =>
      (video, header,
       tracks ++ [mk_AudioMeta (am_codec m) (am_sample_rate m) (am_channels m) (am_channel_layout m)
                    (si_track_index stream) (am_pid m) (si_language stream) (si_title stream) (am_profile m)])
  | None => acc
  end.

Definition publish_probe (d : TsDemuxer) : TsDemuxer :=
  let '(video, header, tracks) :=
    fold_left collect_probe (zip (streams d) (stream_probes d)) (None, None, []) in
  let count := match video with Some _ => Z.max (video_track_count d) 1 | None => 0 end in
  set_probe_result d true (Some (mk_DemuxProbe video header count tracks)).

Definition all_probed (probes : list (option StreamProbe)) : bool :=
  forallb (fun p => match p with Some _ => true | None => false end) probes.

Section with_memmem.
Context `{Memmem}.

(** The configuration of a stream, once its payload is enough for one. *)
Definition build_stream_probe (stream : StreamInfo) (payload : bytes) : option StreamProbe :=
  match kind_media_type (si_kind stream) with
  | Video =>
      let meta := probe_video (si_kind stream) (si_pid stream) None None payload in
      if negb (video_meta_complete (si_kind stream) meta) then None
      else Some (ProbeVideo meta
             (if bool_decide (si_kind stream = KindH264) then build_avcc_sequence_header payload else None))
  | Audio =>
      let meta := probe_audio (si_kind stream) (si_track_index stream) (si_pid stream) None None payload in
      if negb (audio_meta_complete (si_kind stream) meta) then None else Some (ProbeAudio meta)
  end.

Definition try_build_probe (d : TsDemuxer) (stream_idx : nat) (payload : bytes) : TsDemuxer :=
  let probes := stream_probes d ++ replicate (length (streams d) - length (stream_probes d)) None in
  let d := set_probes d probes (probed d) in
  match probes !! stream_idx with
  | None | Some (Some _) => d
  | Some None =>
      match streams d !! stream_idx with
      | None => d
      | Some stream =>
          match build_stream_probe stream payload with
          | None => d
          | Some probe =>
              let probes := <[stream_idx := Some probe]> probes in
              if all_probed probes then publish_probe (set_probes d probes true)
              else set_probes d probes (probed d)
          end
      end
  end.

(** *** PES *)

Definition update_stream (d : TsDemuxer) (stream_idx : nat) (s : StreamInfo) : TsDemuxer :=
  set_streams d (<[stream_idx := s]> (streams d)).

(** The rest of [flush_pes] for a payload forwarded whole. *)
Definition push_whole (d : TsDemuxer) (stream_idx : nat) (kind : StreamKind) (track_index pts_ms dts_ms : Z)
    (is_keyframe : bool) (payload : bytes) : TsDemuxer :=
  let d := if negb (probed d) then try_build_probe d stream_idx payload else d in
  set_output d (output d ++ [mk_MediaPacket (kind_media_type kind) Raw is_keyframe track_index pts_ms dts_ms payload]).

Definition flush_pes (d : TsDemuxer) (stream_idx : nat) : TsDemuxer :=
  match streams d !! stream_idx with
  | None => d
  | Some stream =>
      let kind := si_kind stream in
      let pes := si_pes stream in
      let is_adts := bool_decide (kind = KindAacAdts) in
      if bool_decide (pes_buf pes = []) || negb (has_timestamp pes || is_adts)
      then update_stream d stream_idx (set_pes stream (pes_reset pes))
      else
        let payload := pes_buf pes in
        let pts_90k := pes_pts pes in
        let dts_90k := pes_dts pes in
        let stream' := set_pes stream (pes_reset pes) in
        let is_keyframe :=
          match kind with
          | KindH264 => pes_random_access pes || h264_is_keyframe payload
          | KindH265 => h265_is_keyframe payload
          | _ => false
          end in
        if is_adts then
          let timestamps := if has_timestamp pes then Some (pts_90k, dts_90k) else None in
          let '(framed, adts', output') := frame (adts pes) payload timestamps (si_track_index stream) (output d) in
          let pes' := mk_PesAccumulator [] None 0 0 false false adts' in
          let d := set_output (update_stream d stream_idx (set_pes stream pes')) output' in
          match framed with
          | Frames first =>
              match first with
              | Some first => if negb (probed d) then try_build_probe d stream_idx first else d
              | None => d
              end
          | Whole payload =>
              if has_timestamp pes
              then push_whole d stream_idx kind (si_track_index stream) (ts_to_ms pts_90k) (ts_to_ms dts_90k)
                     is_keyframe payload
              else d
          end
        else
          push_whole (update_stream d stream_idx stream') stream_idx kind (si_track_index stream)
            (ts_to_ms pts_90k) (ts_to_ms dts_90k) is_keyframe payload
  end.

Definition flush_completed_pes (d : TsDemuxer) (stream_idx : nat) : TsDemuxer :=
  match streams d !! stream_idx with
  | None => d
  | Some stream =>
      let pes := si_pes stream in
      match expected_payload_len pes with
      | None => d
      | Some expected =>
          if expected <=? zlen (pes_buf pes) then
            let pes' := mk_PesAccumulator (take (Z.to_nat expected) (pes_buf pes)) (expected_payload_len pes)
                          (pes_pts pes) (pes_dts pes) (has_timestamp pes) (pes_random_access pes) (adts pes) in
            flush_pes (update_stream d stream_idx (set_pes stream pes')) stream_idx
          else d
      end
  end.

Definition flush (d : TsDemuxer) : TsDemuxer := fold_left flush_pes (seq 0 (length (streams d))) d.

(** [parse_timestamp] on a [&[u8; 5]] *)
Definition chunk_timestamp (chunk : option bytes) : option Z :=
  match chunk with
  | Some [b0; b1; b2; b3; b4] => Some (parse_timestamp b0 b1 b2 b3 b4)
  | _ => None
  end.

(** What a PES header at the start of [payload] does to the accumulator. *)
Definition start_pes (p : PesAccumulator) (random_access : bool) (payload : bytes)
    (len_high len_low pes_flags header_len : Z) : PesAccumulator :=
  let pes_packet_len := be_value [len_high; len_low] in
  let has_pts := negb (pes_flags .& 0x80 =? 0) in
  let has_dts := negb (pes_flags .& 0x40 =? 0) in
  let header := default [] (get_from 9 payload) in
  let parsed_pts := if has_pts then chunk_timestamp (first_chunk 5 header) else None in
  let pts := default (pes_pts p) parsed_pts in
  let has_ts := match parsed_pts with Some _ => true | None => has_timestamp p end in
  let parsed_dts :=
    if has_dts then chunk_timestamp (rest ← get_from 5 header; first_chunk 5 rest) else None in
  let dts := default (if has_pts then pts else pes_dts p) parsed_dts in
  let p := mk_PesAccumulator (pes_buf p) (pes_payload_len pes_packet_len header_len) pts dts has_ts
             random_access (adts p) in
  match get_from (Z.to_nat header_len) header with
  | Some (b :: pes_data) => append_bounded p (b :: pes_data)
  | _ => p
  end.
End with_memmem.

(** *** Tables *)

(** [for &[..] in programs.as_chunks::<4>().0] *)
Fixpoint first_program (programs : bytes) : option Z :=
  match programs with
  | number_high :: number_low :: pid_high :: pid_low :: rest =>
      if negb (be_value [number_high; number_low] =? 0) then Some (pid_13 pid_high pid_low)
      else first_program rest
  | _ => None
  end.

Definition parse_pat (d : TsDemuxer) (payload : bytes) (pusi : bool) : TsDemuxer :=
  match (if pusi then section_after_pointer payload else Some payload) with
  | None => d
  | Some data =>
      match first_chunk 8 data with
      | Some (table_id :: length_high :: length_low :: _) =>
          if table_id =? 0x00 then
            let end_ := (Nat.min (Z.to_nat (length_12 length_high length_low) + 3) (length data) - 4)%nat in
            match get_range 8 end_ data with
            | None => d
            | Some programs =>
                match first_program programs with
                | Some pid => set_pmt_pid d (Some pid)
                | None => d
                end
            end
          else d
      | _ => d
      end
  end.

(** The streams a PMT declares, as the loop of [parse_pmt] builds them. *)
Record PmtState := mk_PmtState {
  ps_streams : list StreamInfo;
  ps_probes : list (option StreamProbe);
  ps_pids : list Z;
  ps_old : gmap Z (StreamInfo * option StreamProbe);
  ps_audio_counter : Z;
  ps_video_count : Z;
  ps_removed_config : bool;
  ps_retained_changed : bool;
  ps_changes : TopologyChanges;
  ps_has_video : bool;
}.

Definition is_probed (p : option StreamProbe) : bool := match p with Some _ => true | None => false end.

(** One entry of a known stream type. *)
Definition pmt_add_stream (s : PmtState) (kind : StreamKind) (es_pid : Z) (descriptor_bytes : bytes) : PmtState :=
  let is_video := bool_decide (kind_media_type kind = Video) in
  let video_count := if is_video then sat_u 64 (ps_video_count s + 1) else ps_video_count s in
  let audio_counter := if is_video then ps_audio_counter s else sat_u 32 (ps_audio_counter s + 1) in
  if is_video && ps_has_video s
  then mk_PmtState (ps_streams s) (ps_probes s) (ps_pids s) (ps_old s) audio_counter video_count
         (ps_removed_config s) (ps_retained_changed s) (ps_changes s) (ps_has_video s)
  else
    let track_index := if is_video then 0 else ps_audio_counter s in
    let descriptors := parse_stream_descriptors descriptor_bytes in
    let '(pes, continuity, probe, changes, retained, removed) :=
      match ps_old s !! es_pid with
      | Some (old, probe) =>
          if bool_decide (si_kind old = kind) then
            (si_pes old, si_continuity old, probe,
             (if negb (si_track_index old =? track_index) then mark (ps_changes s) kind else ps_changes s),
             ps_retained_changed s ||
               (is_probed probe &&
                (negb (si_track_index old =? track_index)
                 || negb (bool_decide (si_language old = sd_language descriptors))
                 || negb (bool_decide (si_title old = sd_title descriptors)))),
             ps_removed_config s)
          else
            (PesAccumulator_new, CC_UNSET, None, mark (mark (ps_changes s) (si_kind old)) kind,
             ps_retained_changed s, ps_removed_config s || is_probed probe)
      | None =>
          (PesAccumulator_new, CC_UNSET, None, mark (ps_changes s) kind,
           ps_retained_changed s, ps_removed_config s)
      end in
    let stream_idx := Z.of_nat (length (ps_streams s)) in
    mk_PmtState
      (ps_streams s ++ [mk_StreamInfo es_pid kind track_index (sd_language descriptors) (sd_title descriptors)
                          continuity pes])
      (ps_probes s ++ [probe])
      (match checked_u 16 stream_idx with
       | Some index => <[Z.to_nat es_pid := index]> (ps_pids s)
       | None => ps_pids s
       end)
      (delete es_pid (ps_old s)) audio_counter video_count removed retained changes
      (ps_has_video s || is_video).

(** [while let Some((&[stream_type, ..], tail))]: a round consumes five bytes or more. *)
Fixpoint pmt_entries_loop (fuel : nat) (entries : bytes) (s : PmtState) : PmtState :=
  match fuel, split_first_chunk 5 entries with
  | S fuel', Some ([stream_type; pid_high; pid_low; info_high; info_low], tail) =>
      match split_at_checked (Z.to_nat (length_12 info_high info_low)) tail with
      | None => s
      | Some (descriptor_bytes, tail) =>
          pmt_entries_loop fuel' tail
            (match from_stream_type stream_type with
             | Some kind => pmt_add_stream s kind (pid_13 pid_high pid_low) descriptor_bytes
             | None => s
             end)
      end
  | _, _ => s
  end.

(** [streams.drain(..).map(..).collect()] with the probes, which may be fewer. *)
Fixpoint collect_old (ss : list StreamInfo) (probes : list (option StreamProbe))
    (old : gmap Z (StreamInfo * option StreamProbe)) : gmap Z (StreamInfo * option StreamProbe) :=
  match ss with
  | [] => old
  | s :: ss' => collect_old ss' (tail probes) (<[si_pid s := (s, default None (head probes))]> old)
  end.

(** The streams left over are gone. *)
Definition drop_old (old : gmap Z (StreamInfo * option StreamProbe)) (changes : TopologyChanges) (removed : bool)
    : TopologyChanges * bool :=
  fold_left (fun acc (e : StreamInfo * option StreamProbe) => (mark acc.1 (si_kind e.1), acc.2 || is_probed e.2))
    (map snd (map_to_list old)) (changes, removed).

Definition retained_packet (changes : TopologyChanges) (p : MediaPacket) : bool :=
  match media_type p with Audio => negb (changed_audio changes) | Video => negb (changed_video changes) end.

(** The part of [parse_pmt] behind the checks: a table with a new layout. *)
Definition apply_pmt (d : TsDemuxer) (layout entries : bytes) : TsDemuxer :=
  let s := pmt_entries_loop (length entries) entries
             (mk_PmtState [] [] (replicate PID_COUNT NO_STREAM)
                (collect_old (streams d) (stream_probes d) ∅) 0 0 false false TopologyChanges_default false) in
  let '(changes, removed) := drop_old (ps_old s) (ps_changes s) (ps_removed_config s) in
  let out := if changed_audio changes || changed_video changes
             then List.filter (retained_packet changes) (output d) else output d in
  let topology := mk_TopologyChanges (changed_audio (topology_changes d) || changed_audio changes)
                    (changed_video (topology_changes d) || changed_video changes) in
  let probed := all_probed (ps_probes s) in
  let d := mk_TsDemuxer (ps_streams s) (ps_pids s) (pmt_pid d) probed (initial_probe_done d) (probe_result d)
             topology (remainder d) out (ps_audio_counter s) (ps_video_count s) (ps_probes s) layout
             [] 0 (pmt_version d) in
  if probed || (initial_probe_done d && (removed || ps_retained_changed s)) then publish_probe d else d.

(** The part behind the reassembly: a complete section in [pmt_buf]. *)
Definition pmt_section_complete (d : TsDemuxer) : TsDemuxer :=
  let data := pmt_buf d in
  let cleared := set_pmt_section d [] 0 in
  match pmt_stream_loop_bounds data (pmt_expected d), data !! 5%nat with
  | Some (loop_start, loop_end), Some version_byte =>
      if negb (crc32_mpeg2 data =? 0) || (version_byte .& 1 =? 0)
         || negb (bool_decide (get_range 6 8 data = Some [0; 0]))
      then cleared
      else
        let d := set_pmt_version d ((version_byte .>> 1) .& 0x1F) in
        let layout := default [] (get_range 10 loop_end data) in
        if bool_decide (pmt_layout d = layout) then set_pmt_section d [] 0
        else apply_pmt d layout (default [] (get_range loop_start loop_end data))
  | _, _ => cleared
  end.

(** The section bytes gathered so far, or [None] when the payload is no part of one. *)
Definition pmt_start (d : TsDemuxer) (payload : bytes) (pusi : bool) : TsDemuxer * option bytes :=
  if pusi then
    let d := set_pmt_section d [] 0 in
    match section_after_pointer payload with
    | None => (d, None)
    | Some data =>
        match first_chunk 3 data with
        | Some [table_id; length_high; length_low] =>
            if table_id =? 0x02 then
              let section_len := length_12 length_high length_low in
              if (13 <=? section_len) && (section_len <=? 1021)
              then (set_pmt_section d [] (Z.to_nat section_len + 3)%nat, Some data)
              else (d, None)
            else (d, None)
        | _ => (d, None)
        end
    end
  else if (0 <? pmt_expected d)%nat then (d, Some payload) else (d, None).

Definition parse_pmt (d : TsDemuxer) (payload : bytes) (pusi : bool) : TsDemuxer :=
  match pmt_start d payload pusi with
  | (d, None) => d
  | (d, Some data) =>
      let remaining := (pmt_expected d - length (pmt_buf d))%nat in
      let d := set_pmt_section d (pmt_buf d ++ default [] (get_to (Nat.min (length data) remaining) data))
                 (pmt_expected d) in
      if (length (pmt_buf d) <? pmt_expected d)%nat then d else pmt_section_complete d
  end.

(** *** Packets *)

(** The payload of a packet behind its adaptation field, and its random-access flag. *)
Definition packet_payload (control : Z) (after_header : bytes) : option (bytes * bool) :=
  let adaptation_field_control := (control .>> 4) .& 0x03 in
  if (adaptation_field_control =? 0x00) || (adaptation_field_control =? 0x02) then None
  else if adaptation_field_control =? 0x03 then
    match after_header with
    | [] => None
    | af_len :: rest =>
        let random_access :=
          if 0 <? af_len
          then match rest with af_flags :: _ => negb (af_flags .& 0x40 =? 0) | [] => false end
          else false in
        Some (default [] (get_from (Z.to_nat af_len) rest), random_access)
    end
  else Some (after_header, false).

Section packets.
Context `{Memmem}.

(** A packet of an elementary stream. *)
Definition process_es_packet (d : TsDemuxer) (stream_idx : nat) (continuity_counter : Z)
    (payload_unit_start random_access : bool) (payload : bytes) : TsDemuxer :=
  match streams d !! stream_idx with
  | None => d
  | Some stream =>
      let d := update_stream d stream_idx (set_continuity stream continuity_counter) in
      if payload_unit_start then
        let d := flush_pes d stream_idx in
        match first_chunk 9 payload with
        | Some [b0; b1; b2; _; len_high; len_low; _; pes_flags; header_len] =>
            if (b0 =? 0x00) && (b1 =? 0x00) && (b2 =? 0x01) then
              match streams d !! stream_idx with
              | Some stream =>
                  flush_completed_pes
                    (update_stream d stream_idx
                       (set_pes stream (start_pes (si_pes stream) random_access payload len_high len_low
                                          pes_flags header_len)))
                    stream_idx
              | None => d
              end
            else d
        | _ => d
        end
      else
        match streams d !! stream_idx with
        | Some stream =>
            flush_completed_pes
              (update_stream d stream_idx (set_pes stream (append_bounded (si_pes stream) payload))) stream_idx
        | None => d
        end
  end.

Definition process_ts_packet (d : TsDemuxer) (pkt : bytes) : TsDemuxer :=
  match pkt with
  | _ :: flags :: pid_low :: control :: after_header =>
      let pid := pid_13 flags pid_low in
      let payload_unit_start := negb (flags .& 0x40 =? 0) in
      let continuity_counter := control .& 0x0F in
      match packet_payload control after_header with
      | None | Some ([], _) => d
      | Some (payload, random_access) =>
          if pid =? PAT_PID then parse_pat d payload payload_unit_start
          else if bool_decide (Some pid = pmt_pid d) then parse_pmt d payload payload_unit_start
          else
            match pid_to_stream d !! Z.to_nat pid with
            | None => d
            | Some stream_idx =>
                if stream_idx =? NO_STREAM then d
                else process_es_packet d (Z.to_nat stream_idx) continuity_counter payload_unit_start
                       random_access payload
            end
      end
  | _ => d
  end.
End packets.

(** *** Synchronisation *)

Definition ts_sync_candidate_is_valid (data : bytes) (candidate : nat) : bool :=
  if negb (bool_decide (data !! candidate = Some TS_SYNC_BYTE)) then false
  else
    let remaining := (length data - candidate)%nat in
    if (remaining <=? TS_PACKET_SIZE)%nat then true
    else
      let second := (candidate + TS_PACKET_SIZE)%nat in
      if negb (bool_decide (data !! second = Some TS_SYNC_BYTE)) then false
      else (remaining <=? 2 * TS_PACKET_SIZE)%nat
           || bool_decide (data !! (second + TS_PACKET_SIZE)%nat = Some TS_SYNC_BYTE).

Section feeding.
Context `{Memmem} `{Memchr}.

(** A round moves past a candidate. *)
Fixpoint find_ts_sync_loop (fuel : nat) (data : bytes) (search_offset : nat) : nat :=
  match fuel with
  | O => length data
  | S fuel' =>
      match rest ← get_from search_offset data; memchr TS_SYNC_BYTE rest with
      | None => length data
      | Some relative =>
          let candidate := (search_offset + relative)%nat in
          if ts_sync_candidate_is_valid data candidate then candidate
          else find_ts_sync_loop fuel' data (candidate + 1)
      end
  end.
Definition find_ts_sync (data : bytes) : nat :=
  if ts_sync_candidate_is_valid data 0 then 0%nat else find_ts_sync_loop (S (length data)) data 0.

(** A round consumes a byte or a packet. *)
Fixpoint feed_slice_loop (fuel : nat) (d : TsDemuxer) (buf : bytes) (offset : nat) : TsDemuxer * nat :=
  match fuel with
  | O => (d, offset)
  | S fuel' =>
      match rest ← get_from offset buf; first_chunk TS_PACKET_SIZE rest with
      | None => (d, offset)
      | Some packet =>
          if bool_decide (head packet = Some TS_SYNC_BYTE)
          then feed_slice_loop fuel' (process_ts_packet d packet) buf (offset + TS_PACKET_SIZE)
          else
            let next := find_ts_sync (default [] (get_from (offset + 1) buf)) in
            feed_slice_loop fuel' d buf (offset + 1 + next)
      end
  end.
Definition feed_slice (d : TsDemuxer) (buf : bytes) : TsDemuxer * nat :=
  feed_slice_loop (S (length buf)) d buf (find_ts_sync buf).

Definition cap_remainder (r : bytes) : bytes :=
  let max_remainder := (TS_PACKET_SIZE - 1)%nat in
  if (max_remainder <=? length r)%nat then drop (length r - max_remainder) r else r.

Definition feed (d : TsDemuxer) (data : bytes) : TsDemuxer :=
  let d :=
    match remainder d with
    | [] =>
        let '(d, leftover) := feed_slice d data in
        set_remainder d (remainder d ++ default [] (get_from leftover data))
    | _ =>
        let scratch := remainder d ++ data in
        let '(d, leftover) := feed_slice d scratch in
        set_remainder d (default [] (get_from leftover scratch))
    end in
  set_remainder d (cap_remainder (remainder d)).
End feeding.

(** ** Lemmas: what a packet does not touch *)

(** The unread tail is no input of packet processing. *)
Section remainder.
Context `{Memmem}.
Implicit Types (d : TsDemuxer) (r : bytes).

Lemma publish_probe_rem d r : publish_probe (set_remainder d r) = set_remainder (publish_probe d) r.
Proof.
  unfold publish_probe. cbn [streams stream_probes set_remainder].
  destruct (fold_left _ _ _) as [[? ?] ?]. done.
Qed.

Lemma try_build_probe_rem d r i p :
  try_build_probe (set_remainder d r) i p = set_remainder (try_build_probe d i p) r.
Proof.
  unfold try_build_probe. cbn [streams stream_probes set_remainder set_probes].
  destruct (_ !! i) as [[?|]|]; try done. destruct (streams d !! i); [|done].
  destruct (build_stream_probe _ _); [|done]. case_if; [|done]. by rewrite <- publish_probe_rem.
Qed.

Lemma push_whole_rem d r i k ti p q kf pl :
  push_whole (set_remainder d r) i k ti p q kf pl = set_remainder (push_whole d i k ti p q kf pl) r.
Proof.
  unfold push_whole. cbn [probed set_remainder]. case_if; [|done]. rewrite try_build_probe_rem. done.
Qed.

Lemma flush_pes_rem d r i : flush_pes (set_remainder d r) i = set_remainder (flush_pes d i) r.
Proof.
  unfold flush_pes. cbn [streams output set_remainder]. destruct (streams d !! i) as [s|]; [|done].
  case_if; [done|]. case_if.
  - destruct (frame _ _ _ _ _) as [[f a] o]. destruct f as [[first|]|pl]; [|done|].
    + cbn [probed set_output update_stream set_streams set_remainder]. case_if; [|done].
      by rewrite <- try_build_probe_rem.
    + case_if; [|done]. by rewrite <- push_whole_rem.
  - by rewrite <- push_whole_rem.
Qed.

Lemma flush_completed_pes_rem d r i :
  flush_completed_pes (set_remainder d r) i = set_remainder (flush_completed_pes d i) r.
Proof.
  unfold flush_completed_pes. cbn [streams set_remainder]. destruct (streams d !! i); [|done].
  destruct (expected_payload_len _); [|done]. case_if; [|done]. by rewrite <- flush_pes_rem.
Qed.

Lemma process_es_packet_rem d r i cc s ra p :
  process_es_packet (set_remainder d r) i cc s ra p = set_remainder (process_es_packet d i cc s ra p) r.
Proof.
  unfold process_es_packet. cbn [streams set_remainder]. destruct (streams d !! i) as [st|]; [|done].
  change (update_stream (set_remainder d r) i (set_continuity st cc))
    with (set_remainder (update_stream d i (set_continuity st cc)) r).
  set (d1 := update_stream d i (set_continuity st cc)). destruct s.
  - rewrite flush_pes_rem. set (d2 := flush_pes d1 i).
    destruct (first_chunk 9 p) as [l|]; [|done].
    destruct l as [|b0 [|b1 [|b2 [|b3 [|b4 [|b5 [|b6 [|b7 [|b8 [|]]]]]]]]]]; try done. case_if; [|done].
    cbn [streams set_remainder]. destruct (streams d2 !! i); [|done]. by rewrite <- flush_completed_pes_rem.
  - cbn [streams set_remainder]. destruct (streams d1 !! i); [|done]. by rewrite <- flush_completed_pes_rem.
Qed.

Lemma parse_pat_rem d r p s : parse_pat (set_remainder d r) p s = set_remainder (parse_pat d p s) r.
Proof.
  unfold parse_pat. destruct (if s then _ else _) as [data|]; [|done].
  destruct (first_chunk 8 data) as [[|t [|h [|l ?]]]|]; try done. case_if; [|done].
  destruct (get_range _ _ _); [|done]. by destruct (first_program _).
Qed.

Lemma apply_pmt_rem d r l e : apply_pmt (set_remainder d r) l e = set_remainder (apply_pmt d l e) r.
Proof.
  unfold apply_pmt. cbn [streams stream_probes output topology_changes set_remainder pmt_pid
    initial_probe_done probe_result pmt_version remainder].
  set (s := pmt_entries_loop _ _ _). destruct (drop_old _ _ _) as [c rm].
  destruct (all_probed (ps_probes s) || _); [|done]. by rewrite <- publish_probe_rem.
Qed.

Lemma pmt_section_complete_rem d r :
  pmt_section_complete (set_remainder d r) = set_remainder (pmt_section_complete d) r.
Proof.
  unfold pmt_section_complete. cbn [pmt_buf pmt_expected set_remainder].
  destruct (pmt_stream_loop_bounds _ _) as [[a b]|]; [|done].
  destruct (pmt_buf d !! 5%nat); [|done].
  destruct (negb _ || _ || _); [done|].
  cbn [pmt_layout set_pmt_version set_remainder].
  destruct (bool_decide _); [done|]. by rewrite <- apply_pmt_rem.
Qed.

Lemma parse_pmt_rem d r p s : parse_pmt (set_remainder d r) p s = set_remainder (parse_pmt d p s) r.
Proof.
  unfold parse_pmt.
  assert (pmt_start (set_remainder d r) p s =
    (set_remainder (pmt_start d p s).1 r, (pmt_start d p s).2)) as ->.
  { unfold pmt_start. destruct s.
    - destruct (section_after_pointer p) as [data|]; [|done].
      destruct (first_chunk 3 data) as [[|t [|h [|l [|]]]]|]; try done.
      destruct (t =? 2); [|done]. by destruct (_ && _).
    - cbn [pmt_expected set_remainder]. by destruct (0 <? pmt_expected d)%nat. }
  destruct (pmt_start d p s) as [d1 [data|]]; cbn [fst snd]; [|done].
  cbn [pmt_expected pmt_buf set_remainder set_pmt_section].
  destruct (_ <? _)%nat; [done|]. by rewrite <- pmt_section_complete_rem.
Qed.

Lemma process_ts_packet_rem d r pkt :
  process_ts_packet (set_remainder d r) pkt = set_remainder (process_ts_packet d pkt) r.
Proof.
  unfold process_ts_packet. destruct pkt as [|? [|f [|pl [|c a]]]]; try done.
  destruct (packet_payload c a) as [[[|b p] ra]|]; try done.
  case_if; [apply parse_pat_rem|]. cbn [pmt_pid set_remainder pid_to_stream].
  case_if; [apply parse_pmt_rem|]. destruct (_ !! _); [|done].
  case_if; [done|]. apply process_es_packet_rem.
Qed.

Lemma set_remainder_id d : set_remainder d (remainder d) = d.
Proof. by destruct d. Qed.

(** The tail survives a packet. *)
Lemma process_ts_packet_remainder d pkt : remainder (process_ts_packet d pkt) = remainder d.
Proof. rewrite <- (set_remainder_id d) at 1. by rewrite process_ts_packet_rem. Qed.

Context `{Memchr}.

Lemma feed_slice_loop_rem fuel d r buf off :
  feed_slice_loop fuel (set_remainder d r) buf off =
    let '(d', n) := feed_slice_loop fuel d buf off in (set_remainder d' r, n).
Proof.
  revert d off. induction fuel as [|fuel IH]; intros d off; [done|]. cbn [feed_slice_loop].
  destruct (mbind _ _) as [pkt|]; [|done]. case_if; [|apply IH].
  rewrite process_ts_packet_rem. apply IH.
Qed.

Lemma feed_slice_rem d r buf :
  feed_slice (set_remainder d r) buf = let '(d', n) := feed_slice d buf in (set_remainder d' r, n).
Proof. apply feed_slice_loop_rem. Qed.

Lemma feed_slice_remainder d buf d' n : feed_slice d buf = (d', n) -> remainder d' = remainder d.
Proof.
  intros E. rewrite <- (set_remainder_id d) in E. rewrite feed_slice_rem in E.
  destruct (feed_slice d buf). by injection E as <- _.
Qed.
End remainder.

(** ** Lemmas: synchronisation *)

Definition naive_memchr (b : Z) (d : bytes) : option nat :=
  fst <$> list_find (fun x => x = b) d.
(** An implementation of [memchr], for concrete runs. *)
#[program] Definition naive_Memchr : Memchr := {| memchr := naive_memchr |}.
Next Obligation.
  unfold naive_memchr. intros b d i. destruct (list_find _ d) as [[j x]|] eqn:E; [|done].
  apply list_find_Some in E as (Hj & -> & Hmin). intros [= <-]. split; [done|].
  intros k Hk Hd. by eapply (Hmin _ _ Hd).
Qed.
Next Obligation.
  unfold naive_memchr. intros b d. destruct (list_find _ d) as [[j x]|] eqn:E; [done|].
  apply list_find_None in E. rewrite Forall_forall in E. intros _ Hin. by apply (E b).
Qed.

Section sync.
Context `{Memchr}.

Lemma find_ts_sync_loop_bound fuel data off :
  (off <= length data)%nat -> (find_ts_sync_loop fuel data off <= length data)%nat.
Proof.
  revert off. induction fuel as [|fuel IH]; intros off Ho; [done|]. cbn [find_ts_sync_loop].
  destruct (get_from off data) as [rest|] eqn:Eg; [|done]. cbn [mbind option_bind].
  destruct (memchr TS_SYNC_BYTE rest) as [i|] eqn:Ei; [|done].
  apply get_from_inv in Eg as [-> _]. apply memchr_Some in Ei as [Hi _].
  rewrite lookup_drop in Hi. apply lookup_lt_Some in Hi. case_if; [lia|]. apply IH. lia.
Qed.

Lemma find_ts_sync_bound data : (find_ts_sync data <= length data)%nat.
Proof. unfold find_ts_sync. case_if; [lia|]. apply find_ts_sync_loop_bound. lia. Qed.

(** Where the search stops: at the first position from which the data looks like
    packets, or at the end. *)
Lemma find_ts_sync_loop_spec fuel data off :
  (length data < off + fuel)%nat -> (off <= length data)%nat ->
  (forall j, (j < off)%nat -> ts_sync_candidate_is_valid data j = false) ->
  let n := find_ts_sync_loop fuel data off in
  (forall j, (j < n)%nat -> ts_sync_candidate_is_valid data j = false) /\
  (n = length data \/ ts_sync_candidate_is_valid data n = true).
Proof.
  revert off. induction fuel as [|fuel IH]; intros off Hf Ho Hbefore; [lia|]. cbn [find_ts_sync_loop].
  unfold get_from. destruct (Nat.leb_spec off (length data)); [|lia]. cbn [mbind option_bind].
  destruct (memchr TS_SYNC_BYTE (drop off data)) as [i|] eqn:Ei.
  - apply memchr_Some in Ei as [Hi Hmin].
    assert (Hup : forall j, (j < off + i)%nat -> ts_sync_candidate_is_valid data j = false).
    { intros j Hj. destruct (decide (j < off)%nat); [by apply Hbefore|].
      unfold ts_sync_candidate_is_valid. rewrite bool_decide_false; [done|].
      specialize (Hmin (j - off)%nat ltac:(lia)). rewrite lookup_drop in Hmin.
      by replace (off + (j - off))%nat with j in Hmin by lia. }
    rewrite lookup_drop in Hi. apply lookup_lt_Some in Hi. case_if; [auto|]. apply IH; [lia|lia|].
    intros j Hj. destruct (decide (j = off + i)%nat) as [->|]; [done|]. apply Hup. lia.
  - split; [|by left]. intros j Hj. destruct (decide (j < off)%nat); [by apply Hbefore|].
    unfold ts_sync_candidate_is_valid. rewrite bool_decide_false; [done|]. intros Hx.
    apply memchr_None in Ei. apply Ei. apply list_elem_of_lookup. exists (j - off)%nat.
    rewrite lookup_drop. by replace (off + (j - off))%nat with j by lia.
Qed.

Lemma find_ts_sync_spec data :
  (forall j, (j < find_ts_sync data)%nat -> ts_sync_candidate_is_valid data j = false) /\
  (find_ts_sync data = length data \/ ts_sync_candidate_is_valid data (find_ts_sync data) = true).
Proof.
  unfold find_ts_sync. case_if; [split; [lia|auto]|].
  apply find_ts_sync_loop_spec; [lia|lia|]. intros j Hj. lia.
Qed.

Context `{Memmem}.

(** The fuel of the loop is enough: it stops with less than a packet left. *)
Lemma feed_slice_loop_end fuel d buf off :
  (off <= length buf)%nat -> (length buf < off + fuel)%nat ->
  let '(_, n) := feed_slice_loop fuel d buf off in
  (off <= n <= length buf)%nat /\ (length buf - n < TS_PACKET_SIZE)%nat.
Proof.
  revert d off. induction fuel as [|fuel IH]; intros d off Ho Hf; [lia|]. cbn [feed_slice_loop].
  unfold get_from at 1. destruct (Nat.leb_spec off (length buf)); [|lia]. cbn [mbind option_bind].
  unfold first_chunk, get_to. rewrite length_drop.
  destruct (Nat.leb_spec TS_PACKET_SIZE (length buf - off)) as [Hp|Hp]; [|lia].
  assert (0 < TS_PACKET_SIZE)%nat by (unfold TS_PACKET_SIZE; lia).
  case_if.
  - specialize (IH (process_ts_packet d (take TS_PACKET_SIZE (drop off buf))) (off + TS_PACKET_SIZE)%nat).
    destruct (feed_slice_loop _ _ _ _). lia.
  - unfold get_from. destruct (Nat.leb_spec (off + 1) (length buf)); [|lia]. cbn [default from_option id].
    pose proof (find_ts_sync_bound (drop (off + 1) buf)) as Hb. rewrite length_drop in Hb.
    specialize (IH d (off + 1 + find_ts_sync (drop (off + 1) buf))%nat).
    destruct (feed_slice_loop _ _ _ _). lia.
Qed.

Lemma feed_slice_end d buf :
  let '(_, n) := feed_slice d buf in (n <= length buf)%nat /\ (length buf - n < TS_PACKET_SIZE)%nat.
Proof.
  unfold feed_slice. pose proof (find_ts_sync_bound buf).
  pose proof (feed_slice_loop_end (S (length buf)) d buf (find_ts_sync buf)) as Hl.
  destruct (feed_slice_loop _ _ _ _). lia.
Qed.

Lemma cap_remainder_id r : (length r < TS_PACKET_SIZE)%nat -> cap_remainder r = r.
Proof.
  intros Hr. unfold cap_remainder. case_if; [|done].
  replace (length r - (TS_PACKET_SIZE - 1))%nat with O by (unfold TS_PACKET_SIZE in *; lia). done.
Qed.

(** The cap of [feed] never drops anything. *)
Lemma feed_eq d data :
  feed d data =
    let buf := remainder d ++ data in
    let '(d', n) := feed_slice d buf in set_remainder d' (drop n buf).
Proof.
  assert (Hset : forall d r r', set_remainder (set_remainder d r) r' = set_remainder d r') by done.
  unfold feed. destruct (remainder d) as [|b r] eqn:Er; cbn [app].
  - pose proof (feed_slice_end d data) as He. destruct (feed_slice d data) as [d' n] eqn:Ef.
    unfold get_from. destruct (Nat.leb_spec n (length data)); [|lia]. cbn [default from_option id].
    assert (remainder d' = []) as ->.
    { apply feed_slice_remainder in Ef. by rewrite Ef. }
    cbn [app remainder set_remainder]. rewrite cap_remainder_id by (rewrite length_drop; lia). done.
  - pose proof (feed_slice_end d (b :: r ++ data)) as He. destruct (feed_slice d _) as [d' n] eqn:Ef.
    unfold get_from. destruct (Nat.leb_spec n (length (b :: r ++ data))); [|lia]. cbn [default from_option id].
    cbn [app remainder set_remainder]. rewrite cap_remainder_id by (rewrite length_drop; lia). done.
Qed.
End sync.

(** *** Aligned input *)

(** A sync byte wherever a packet starts. *)
Definition aligned (buf : bytes) : Prop :=
  forall k, (k * TS_PACKET_SIZE < length buf)%nat -> buf !! (k * TS_PACKET_SIZE)%nat = Some TS_SYNC_BYTE.
Definition packet_sized (pkts : list bytes) : Prop := Forall (fun p => length p = TS_PACKET_SIZE) pkts.

Lemma aligned_prefix a b : aligned (a ++ b) -> aligned a.
Proof.
  intros Ha k Hk. specialize (Ha k). rewrite length_app in Ha.
  rewrite lookup_app_l in Ha by done. apply Ha. lia.
Qed.

Lemma length_concat_packets pkts :
  packet_sized pkts -> length (concat pkts) = (length pkts * TS_PACKET_SIZE)%nat.
Proof. induction 1 as [|p pkts Hp _ IH]; [done|]. cbn [concat length]. rewrite length_app, Hp, IH. lia. Qed.

Lemma aligned_suffix pkts b : packet_sized pkts -> aligned (concat pkts ++ b) -> aligned b.
Proof.
  intros Hp Ha k Hk. specialize (Ha (length pkts + k)%nat).
  rewrite length_app, length_concat_packets in Ha by done.
  rewrite lookup_app_r in Ha by (rewrite length_concat_packets by done; lia).
  rewrite length_concat_packets in Ha by done.
  replace ((length pkts + k) * TS_PACKET_SIZE - length pkts * TS_PACKET_SIZE)%nat
    with (k * TS_PACKET_SIZE)%nat in Ha by lia. apply Ha. lia.
Qed.

Lemma whole_packets_aligned pkts b :
  Forall (fun p => length p = TS_PACKET_SIZE /\ head p = Some TS_SYNC_BYTE) pkts ->
  (b = [] \/ head b = Some TS_SYNC_BYTE) -> (length b < TS_PACKET_SIZE)%nat -> aligned (concat pkts ++ b).
Proof.
  intros Hp Hb Hl. induction Hp as [|p pkts [Hlen Hh] _ IH]; cbn [concat].
  - intros k Hk. cbn [app] in *. destruct k as [|k]; [|lia].
    destruct Hb as [->|Hb]; [cbn in Hk; lia|]. by destruct b.
  - intros k Hk. rewrite <- app_assoc in *. destruct k as [|k].
    + destruct p; [done|]. injection Hh as ->. done.
    + rewrite lookup_app_r by lia.
      replace (S k * TS_PACKET_SIZE - length p)%nat with (k * TS_PACKET_SIZE)%nat by lia.
      apply IH. rewrite length_app in Hk. lia.
Qed.

Lemma aligned_valid buf : aligned buf -> buf <> [] -> ts_sync_candidate_is_valid buf 0 = true.
Proof.
  intros Ha Hne. unfold ts_sync_candidate_is_valid.
  assert (0 < length buf)%nat by (destruct buf; [done|cbn; lia]).
  rewrite (bool_decide_true (_ !! 0%nat = _)); [|apply (Ha 0%nat); lia]. cbn [negb].
  case_if; [done|]. rewrite (bool_decide_true (_ !! (0 + _)%nat = _)).
  2: { specialize (Ha 1%nat). rewrite Nat.mul_1_l in Ha. apply Ha. lia. }
  cbn [negb]. destruct (Nat.leb_spec (length buf - 0) (2 * TS_PACKET_SIZE)); [done|]. cbn [orb].
  apply bool_decide_true. specialize (Ha 2%nat). cbn [Nat.mul] in Ha. rewrite Nat.add_0_r in Ha.
  apply Ha. lia.
Qed.

Section aligned.
Context `{Memmem} `{Memchr}.

Lemma find_ts_sync_aligned buf : aligned buf -> find_ts_sync buf = 0%nat.
Proof.
  intros Ha. destruct buf as [|b buf].
  - pose proof (find_ts_sync_bound []) as Hb. cbn [length] in Hb. lia.
  - unfold find_ts_sync. by rewrite (aligned_valid _ Ha).
Qed.

Lemma feed_slice_loop_aligned tail : forall pkts before fuel d,
  (length pkts < fuel)%nat -> packet_sized pkts -> (length tail < TS_PACKET_SIZE)%nat ->
  aligned (concat pkts ++ tail) ->
  feed_slice_loop fuel d (before ++ concat pkts ++ tail) (length before) =
    (fold_left process_ts_packet pkts d, length before + length (concat pkts))%nat.
Proof.
  induction pkts as [|p pkts IH]; intros before fuel d Hf Hp Ht Ha;
    (destruct fuel as [|fuel]; [cbn in Hf; lia|]); cbn [feed_slice_loop];
    rewrite get_from_app by done; cbn [mbind option_bind].
  - cbn [concat app fold_left length]. unfold first_chunk, get_to.
    destruct (Nat.leb_spec TS_PACKET_SIZE (length tail)); [lia|]. f_equal; lia.
  - apply Forall_cons in Hp as [Hlen Hp]. cbn [concat fold_left].
    unfold first_chunk. rewrite <- app_assoc, get_to_app by done.
    rewrite bool_decide_true.
    2: { specialize (Ha 0%nat). cbn [concat Nat.mul] in Ha. destruct p as [|b p]; [done|].
         rewrite <- Ha; [done|]. cbn. lia. }
    replace (length before + TS_PACKET_SIZE)%nat with (length (before ++ p)) by (rewrite length_app; lia).
    replace (before ++ p ++ concat pkts ++ tail) with ((before ++ p) ++ concat pkts ++ tail)
      by (by rewrite <- app_assoc).
    rewrite IH; try done.
    + f_equal. rewrite !length_app. lia.
    + cbn in Hf. lia.
    + apply (aligned_suffix [p]); [by constructor|]. cbn [concat]. rewrite app_nil_r.
      cbn [concat] in Ha. by rewrite <- app_assoc in Ha.
Qed.

Lemma feed_slice_aligned pkts tail d :
  packet_sized pkts -> (length tail < TS_PACKET_SIZE)%nat -> aligned (concat pkts ++ tail) ->
  feed_slice d (concat pkts ++ tail) = (fold_left process_ts_packet pkts d, length (concat pkts)).
Proof.
  intros Hp Ht Ha. unfold feed_slice. rewrite find_ts_sync_aligned by done.
  apply (feed_slice_loop_aligned tail pkts []); try done.
  rewrite length_app, length_concat_packets by done. unfold TS_PACKET_SIZE. lia.
Qed.

Lemma fold_process_rem pkts d r :
  fold_left process_ts_packet pkts (set_remainder d r) =
    set_remainder (fold_left process_ts_packet pkts d) r.
Proof. revert d. induction pkts as [|p pkts IH]; intros d; [done|]. cbn [fold_left]. by rewrite process_ts_packet_rem, IH. Qed.

Lemma feed_aligned pkts tail d data :
  packet_sized pkts -> (length tail < TS_PACKET_SIZE)%nat ->
  remainder d ++ data = concat pkts ++ tail -> aligned (concat pkts ++ tail) ->
  feed d data = set_remainder (fold_left process_ts_packet pkts d) tail.
Proof.
  intros Hp Ht Hd Ha. rewrite feed_eq. cbn zeta. rewrite Hd, feed_slice_aligned by done.
  by rewrite drop_app_length.
Qed.
End aligned.

(** Cutting whole packets at any byte. *)
Lemma cut_packets m pkts tail total :
  packet_sized pkts -> (length tail < TS_PACKET_SIZE)%nat -> total = concat pkts ++ tail ->
  (m <= length total)%nat ->
  exists done rest part,
    pkts = done ++ rest /\ take m total = concat done ++ part /\ (length part < TS_PACKET_SIZE)%nat /\
    part ++ drop m total = concat rest ++ tail.
Proof.
  intros Hp Ht -> Hm. revert m Hm. induction Hp as [|p pkts Hlen Hp IH]; intros m Hm.
  - exists [], [], (take m tail). cbn [concat app] in *. rewrite length_take, take_drop.
    split_and!; try done. lia.
  - cbn [concat] in *. rewrite <- app_assoc in *. rewrite !length_app in Hm.
    destruct (Nat.ltb_spec m (length p)).
    + exists [], (p :: pkts), (take m p). cbn [concat app]. rewrite length_take.
      rewrite take_app_le by lia. split_and!; try done; [lia|].
      rewrite drop_app_le by lia. rewrite app_assoc, take_drop. by rewrite <- app_assoc.
    + destruct (IH (m - length p)%nat) as (done & rest & part & -> & Et & Hpart & Ed).
      { rewrite length_app. lia. }
      exists (p :: done), rest, part. rewrite take_app_ge, Et by lia. cbn [concat app].
      rewrite <- app_assoc. rewrite drop_app_ge by lia. split_and!; done.
Qed.

(** ** Lemmas: the invariant *)

Lemma PID_COUNT_val : Z.of_nat PID_COUNT = 8192.
Proof. vm_compute. reflexivity. Qed.
#[local] Opaque PID_COUNT.

(** What identifies a stream for the consumers of the demuxer. *)
Definition ident (s : StreamInfo) : Z * StreamKind * Z := (si_pid s, si_kind s, si_track_index s).
Definition is_audio (i : Z * StreamKind * Z) : bool := bool_decide (kind_media_type i.1.2 = Audio).

(** PIDs map to the streams that have them; audio tracks are numbered in order; there
    is at most one video stream, track 0. *)
Definition topology_ok (ids : list (Z * StreamKind * Z)) (pids : list Z) : Prop :=
  length pids = PID_COUNT /\
  (forall pid idx, pids !! pid = Some idx -> idx <> NO_STREAM ->
     0 <= idx /\ exists k t, ids !! Z.to_nat idx = Some (Z.of_nat pid, k, t)) /\
  (let audio := List.filter is_audio ids in
   map snd audio = map Z.of_nat (seq 0 (length audio))) /\
  (let video := List.filter (fun i => negb (is_audio i)) ids in
   (length video <= 1)%nat /\ Forall (fun i => i.2 = 0) video).

Definition pes_ok (p : PesAccumulator) : Prop :=
  zlen (pes_buf p) <= MAX_PES_BUFFER /\ bytes_ok (pes_buf p) /\ carry_ok (carry (adts p)) /\
  in_u 33 (pes_pts p) /\ in_u 33 (pes_dts p).

Definition streams_ok (ss : list StreamInfo) : Prop := Forall (fun s => pes_ok (si_pes s)) ss.

Definition demux_ok (d : TsDemuxer) : Prop :=
  streams_ok (streams d) /\
  topology_ok (map ident (streams d)) (pid_to_stream d) /\
  (length (stream_probes d) <= length (streams d))%nat /\
  (length (pmt_buf d) <= pmt_expected d)%nat /\ Z.of_nat (pmt_expected d) <= 1024 /\
  bytes_ok (pmt_buf d) /\
  (length (remainder d) < TS_PACKET_SIZE)%nat /\ bytes_ok (remainder d).

Lemma pes_ok_new : pes_ok PesAccumulator_new.
Proof. unfold pes_ok, MAX_PES_BUFFER, zlen, in_u. cbn. split_and!; try done; try lia. split; [constructor|by left]. Qed.

Lemma pes_ok_reset p a : carry_ok (carry a) -> pes_ok (mk_PesAccumulator [] None 0 0 false p a).
Proof. intros Ha. unfold pes_ok, MAX_PES_BUFFER, zlen, in_u. cbn. split_and!; try done; lia. Qed.

Lemma append_bounded_ok p data : pes_ok p -> bytes_ok data -> pes_ok (append_bounded p data).
Proof.
  intros (H1 & H2 & H3 & H4 & H5) Hd. unfold append_bounded. case_if; [|done].
  unfold pes_ok, zlen in *. cbn. rewrite length_app. split_and!; try done; [lia|by apply bytes_ok_app].
Qed.

Lemma start_pes_ok p ra pl lh ll fl hl :
  pes_ok p -> bytes_ok pl -> pes_ok (start_pes p ra pl lh ll fl hl).
Proof.
  intros (H1 & H2 & H3 & H4 & H5) Hpl. unfold start_pes.
  assert (Hh : bytes_ok (default [] (get_from 9 pl))).
  { unfold get_from. case_if; cbn; [by apply Forall_drop|constructor]. }
  set (header := default [] (get_from 9 pl)) in *.
  assert (Hc : forall l t, bytes_ok l -> chunk_timestamp (first_chunk 5 l) = Some t -> in_u 33 t).
  { intros l t Hl. unfold first_chunk, get_to. case_if; [|done]. pose proof (bytes_ok_take 5 l Hl) as Ht.
    destruct (take 5 l) as [|b0 [|b1 [|b2 [|b3 [|b4 [|]]]]]]; try done.
    intros [= <-]. repeat (apply Forall_cons in Ht as [? Ht]). by apply parse_timestamp_range. }
  set (parsed_pts := if negb (fl .& 0x80 =? 0) then _ else None).
  assert (Hpts : in_u 33 (default (pes_pts p) parsed_pts)).
  { destruct parsed_pts as [t|] eqn:E; [|done]. subst parsed_pts. cbn. destruct (negb _); [|done]. by eapply Hc. }
  set (parsed_dts := if negb (fl .& 0x40 =? 0) then _ else None).
  set (dts := default _ parsed_dts). assert (Hdts : in_u 33 dts).
  { subst dts. destruct parsed_dts as [t|] eqn:E; [|cbn; by case_if]. subst parsed_dts. cbn.
    destruct (negb (fl .& 0x40 =? 0)); [|done]. unfold get_from in E.
    destruct (5 <=? length header)%nat; [|done]. cbn [mbind option_bind] in E.
    eapply Hc; [|exact E]. by apply Forall_drop. }
  clearbody dts. set (p' := mk_PesAccumulator _ _ _ _ _ _ _).
  assert (pes_ok p') by done.
  destruct (get_from (Z.to_nat hl) header) as [[|b rest]|] eqn:Eg; try done.
  apply append_bounded_ok; [done|]. apply get_from_inv in Eg as [-> _]. by apply Forall_drop.
Qed.

(** *** Probes only move the probe fields *)

Lemma publish_probe_eq d : exists r, publish_probe d = set_probe_result d true (Some r).
Proof. unfold publish_probe. destruct (fold_left _ _ _) as [[? ?] ?]. by eexists. Qed.

Section invariant.
Context `{Memmem}.

Lemma try_build_probe_eq d i p :
  exists probes b i' r,
    try_build_probe d i p = set_probe_result (set_probes d probes b) i' r /\
    length probes = Nat.max (length (stream_probes d)) (length (streams d)).
Proof.
  unfold try_build_probe.
  set (probes := stream_probes d ++ replicate _ _).
  assert (Hlen : length probes = Nat.max (length (stream_probes d)) (length (streams d))).
  { subst probes. rewrite length_app, length_replicate. lia. }
  assert (Hid : exists probes' b i' r, set_probes d probes (probed d)
      = set_probe_result (set_probes d probes' b) i' r /\
    length probes' = Nat.max (length (stream_probes d)) (length (streams d))).
  { by exists probes, (probed d), (initial_probe_done d), (probe_result d). }
  destruct (probes !! i) as [[?|]|]; try done. destruct (streams _ !! i) as [s|]; [|done].
  destruct (build_stream_probe s p) as [pr|]; [|done].
  case_if.
  - destruct (publish_probe_eq (set_probes (set_probes d probes (probed d)) (<[i:=Some pr]> probes) true)) as [r ->].
    exists (<[i:=Some pr]> probes), true, true, (Some r). by rewrite length_insert.
  - exists (<[i:=Some pr]> probes), (probed d), (initial_probe_done d), (probe_result d). by rewrite length_insert.
Qed.

Lemma try_build_probe_ok d i p : demux_ok d -> demux_ok (try_build_probe d i p).
Proof.
  intros (H1 & H2 & H3 & H4). destruct (try_build_probe_eq d i p) as (probes & b & i' & r & -> & Hl).
  unfold demux_ok. cbn. split_and!; try done; try apply H4. rewrite Hl. lia.
Qed.

Lemma update_stream_ok d i s s' :
  demux_ok d -> streams d !! i = Some s -> ident s' = ident s -> pes_ok (si_pes s') ->
  demux_ok (update_stream d i s').
Proof.
  intros (H1 & H2 & H3 & H4) Hi Hid Hp. unfold demux_ok. cbn. rewrite length_insert.
  split; [by apply Forall_insert|]. split; [|done].
  assert (map ident (<[i:=s']> (streams d)) = map ident (streams d)) as ->; [|done].
  change (map ident) with (fmap ident : list StreamInfo -> _). rewrite list_fmap_insert, Hid.
  apply list_insert_id. by rewrite list_lookup_fmap, Hi.
Qed.

Lemma demux_ok_pes d i s : demux_ok d -> streams d !! i = Some s -> pes_ok (si_pes s).
Proof. intros (H1 & _) Hi. unfold streams_ok in H1. rewrite Forall_lookup in H1. by eapply H1. Qed.

Lemma push_whole_ok d i k ti p q kf pl : demux_ok d -> demux_ok (push_whole d i k ti p q kf pl).
Proof.
  intros Hd. unfold push_whole.
  assert (Hd' : demux_ok (if negb (probed d) then try_build_probe d i pl else d)).
  { case_if; [by apply try_build_probe_ok|done]. }
  destruct (if negb (probed d) then _ else _). exact Hd'.
Qed.

Lemma flush_pes_ok d i : demux_ok d -> demux_ok (flush_pes d i).
Proof.
  intros Hd. unfold flush_pes. destruct (streams d !! i) as [s|] eqn:Es; [|done].
  pose proof (demux_ok_pes _ _ _ Hd Es) as Hp. pose proof Hp as (P1 & P2 & P3 & P4 & P5).
  destruct (_ || _); [eapply update_stream_ok; try done; by apply pes_ok_reset|].
  case_if; [|apply push_whole_ok; eapply update_stream_ok; try done; by apply pes_ok_reset].
  destruct (frame _ _ _ _ _) as [[f a] o] eqn:Ef.
  assert (Ha : carry_ok (carry a)).
  { eapply frame_carry_ok; [| |exact Ef]; done. }
  set (d1 := set_output _ _).
  assert (Hd1 : demux_ok d1).
  { subst d1. eapply (update_stream_ok d i s) in Hd; [exact Hd|done|done|]. by apply pes_ok_reset. }
  destruct f as [[first|]|pl]; [|done|].
  - case_if; [by apply try_build_probe_ok|done].
  - case_if; [by apply push_whole_ok|done].
Qed.

Lemma flush_completed_pes_ok d i : demux_ok d -> demux_ok (flush_completed_pes d i).
Proof.
  intros Hd. unfold flush_completed_pes. destruct (streams d !! i) as [s|] eqn:Es; [|done].
  destruct (expected_payload_len _); [|done]. case_if; [|done]. apply flush_pes_ok.
  eapply update_stream_ok; try done. destruct (demux_ok_pes _ _ _ Hd Es) as (P1 & P2 & P3).
  split_and!; try apply P3; cbn; [|by apply Forall_take].
  unfold zlen in *. rewrite length_take. lia.
Qed.

Lemma process_es_packet_ok d i cc st ra p :
  demux_ok d -> bytes_ok p -> demux_ok (process_es_packet d i cc st ra p).
Proof.
  intros Hd Hb. unfold process_es_packet. destruct (streams d !! i) as [s|] eqn:Es; [|done].
  assert (Hd1 : demux_ok (update_stream d i (set_continuity s cc))).
  { eapply update_stream_ok; try done. exact (demux_ok_pes d i s Hd Es). }
  set (d1 := update_stream d i _) in *. clearbody d1. destruct st.
  - pose proof (flush_pes_ok d1 i Hd1) as Hd2. set (d2 := flush_pes d1 i) in *. clearbody d2.
    destruct (first_chunk 9 p) as [l|]; [|done].
    destruct l as [|b0 [|b1 [|b2 [|b3 [|b4 [|b5 [|b6 [|b7 [|b8 [|]]]]]]]]]]; try done. case_if; [|done].
    destruct (streams d2 !! i) as [s2|] eqn:Es2; [|done]. apply flush_completed_pes_ok.
    eapply update_stream_ok; try done. apply start_pes_ok; [|done]. exact (demux_ok_pes d2 i s2 Hd2 Es2).
  - destruct (streams d1 !! i) as [s2|] eqn:Es2; [|done]. apply flush_completed_pes_ok.
    eapply update_stream_ok; try done. apply append_bounded_ok; [|done]. exact (demux_ok_pes d1 i s2 Hd1 Es2).
Qed.
End invariant.

(** *** The stream loop of a PMT *)

Definition pmt_inv (s : PmtState) : Prop :=
  streams_ok (ps_streams s) /\ topology_ok (map ident (ps_streams s)) (ps_pids s) /\
  length (ps_probes s) = length (ps_streams s) /\
  map_Forall (fun _ (e : StreamInfo * option StreamProbe) => pes_ok (si_pes e.1)) (ps_old s) /\
  ps_audio_counter s = zlen (List.filter is_audio (map ident (ps_streams s))) /\
  (ps_has_video s = false -> List.filter (fun i => negb (is_audio i)) (map ident (ps_streams s)) = []).

Lemma topology_ok_snoc ids pids pid k t :
  topology_ok ids pids -> in_u 13 pid -> zlen ids < 65535 ->
  (kind_media_type k = Audio -> t = zlen (List.filter is_audio ids)) ->
  (kind_media_type k = Video -> t = 0 /\ List.filter (fun i => negb (is_audio i)) ids = []) ->
  topology_ok (ids ++ [(pid, k, t)]) (<[Z.to_nat pid := zlen ids]> pids).
Proof.
  intros (T1 & T2 & T3 & T4) Hpid Hlen Ha Hv. pose proof PID_COUNT_val as HP. unfold in_u in Hpid.
  split_and!.
  - by rewrite length_insert.
  - intros p idx. rewrite list_lookup_insert. destruct (decide _) as [[<- _]|Hne].
    + intros [= <-] _. split; [apply zlen_nonneg|]. exists k, t. unfold zlen. rewrite Nat2Z.id, Z2Nat.id by lia.
      by rewrite lookup_app_r, Nat.sub_diag by lia.
    + intros Hp Hidx. destruct (T2 _ _ Hp Hidx) as [H0 (k' & t' & Hl)]. split; [done|].
      exists k', t'. rewrite lookup_app_l; [done|]. by eapply lookup_lt_Some.
  - cbn zeta. rewrite List.filter_app. cbn [List.filter]. unfold is_audio at 2 4. cbn [fst snd].
    destruct (kind_media_type k) eqn:Ek.
    + rewrite (bool_decide_false (Video = Audio)), !app_nil_r by done. exact T3.
    + rewrite (bool_decide_true (Audio = Audio)) by done.
      rewrite map_app, length_app, T3. cbn [length map]. rewrite Nat.add_1_r, seq_S, map_app. cbn [map].
      do 2 f_equal. by rewrite Ha.
  - cbn zeta. rewrite List.filter_app. cbn [List.filter]. unfold is_audio at 2 4. cbn [fst snd].
    destruct (kind_media_type k) eqn:Ek.
    + destruct (Hv eq_refl) as [-> ->]. rewrite (bool_decide_false (Video = Audio)) by done. cbn.
      split; [lia|]. by repeat constructor.
    + rewrite (bool_decide_true (Audio = Audio)) by done. cbn [negb]. rewrite !app_nil_r. exact T4.
Qed.

Lemma pmt_add_stream_inv s kind pid desc :
  pmt_inv s -> in_u 13 pid -> zlen (ps_streams s) < 65535 -> pmt_inv (pmt_add_stream s kind pid desc).
Proof.
  intros (I1 & I2 & I3 & I4 & I5 & I6) Hpid Hlen. unfold pmt_add_stream.
  destruct (bool_decide (kind_media_type kind = Video) && ps_has_video s) eqn:Ev.
  { apply andb_true_iff in Ev as [Ev1 Ev2]. rewrite Ev1. done. }
  set (track := if bool_decide _ then 0 else ps_audio_counter s).
  set (descs := parse_stream_descriptors desc).
  match goal with |- context [match ps_old s !! pid with Some _ => _ | None => _ end] =>
    set (choice := match ps_old s !! pid with Some _ => _ | None => _ end) end.
  assert (Hpes : pes_ok choice.1.1.1.1.1).
  { subst choice. destruct (ps_old s !! pid) as [[old pr]|] eqn:Eo; [|apply pes_ok_new].
    case_if; [|apply pes_ok_new]. cbn. exact (I4 _ _ Eo). }
  destruct choice as [[[[[pes cc] probe] changes] retained] removed]. cbn in Hpes.
  rewrite checked_u_Some by (unfold zlen in Hlen; unfold in_u; lia).
  unfold pmt_inv. cbn. split_and!.
  - apply Forall_app. split; [done|]. constructor; [done|constructor].
  - rewrite map_app. change (map ident [_]) with [(pid, kind, track)].
    replace (Z.of_nat (length (ps_streams s))) with (zlen (map ident (ps_streams s)))
      by (unfold zlen; by rewrite length_map).
    apply topology_ok_snoc; try done.
    + unfold zlen. by rewrite length_map.
    + intros Ek. subst track. rewrite Ek, bool_decide_false by done. done.
    + intros Ek. subst track. rewrite Ek, bool_decide_true by done. split; [done|].
      rewrite bool_decide_true in Ev by done. by apply I6.
  - rewrite !length_app, I3. done.
  - by apply map_Forall_delete.
  - rewrite map_app, List.filter_app. cbn [map List.filter]. unfold is_audio at 2. cbn [fst snd ident si_kind].
    destruct (kind_media_type kind) eqn:Ek.
    + rewrite bool_decide_true, bool_decide_false, app_nil_r by done. done.
    + rewrite bool_decide_false, bool_decide_true by done. rewrite I5. unfold sat_u, zlen.
      rewrite length_app. cbn [length].
      assert (length (List.filter is_audio (map ident (ps_streams s))) <= length (ps_streams s))%nat.
      { rewrite <- (length_map ident). apply List.filter_length_le. }
      unfold zlen in Hlen. lia.
  - intros Hv. apply orb_false_iff in Hv as [Hv1 Hv2]. apply bool_decide_eq_false in Hv2.
    rewrite map_app, List.filter_app, I6 by done. cbn [map List.filter]. unfold is_audio. cbn [fst snd ident si_kind].
    destruct (kind_media_type kind); [done|]. by rewrite bool_decide_true.
Qed.

Lemma pmt_add_stream_length s kind pid desc :
  zlen (ps_streams (pmt_add_stream s kind pid desc)) <= zlen (ps_streams s) + 1.
Proof.
  unfold pmt_add_stream. case_if; [cbn; lia|].
  match goal with |- context [match ps_old s !! pid with Some _ => _ | None => _ end] =>
    destruct (match ps_old s !! pid with Some _ => _ | None => _ end) as [[[[[? ?] ?] ?] ?] ?] end.
  cbn. unfold zlen. rewrite length_app. cbn. lia.
Qed.

Lemma pid_13_range a b : is_u8 a -> is_u8 b -> in_u 13 (pid_13 a b).
Proof.
  intros Ha Hb. unfold pid_13, be_value. cbn [fold_left]. rewrite Z.shiftl_0_l, Z.lor_0_l. bitrange.
Qed.

Lemma pmt_entries_loop_inv fuel entries s :
  bytes_ok entries -> pmt_inv s -> zlen (ps_streams s) + Z.of_nat fuel < 65536 ->
  pmt_inv (pmt_entries_loop fuel entries s).
Proof.
  revert entries s. induction fuel as [|fuel IH]; intros entries s Hb Hs Hl; [done|]. cbn [pmt_entries_loop].
  destruct (split_first_chunk 5 entries) as [[l tl]|] eqn:Es; [|done].
  apply split_at_checked_inv in Es as [-> _]. apply bytes_ok_app in Hb as [Hl5 Ht].
  destruct l as [|st [|ph [|pl [|ih [|il [|]]]]]]; try done.
  destruct (split_at_checked _ tl) as [[desc tl']|] eqn:Es; [|done].
  apply split_at_checked_inv in Es as [-> _]. apply bytes_ok_app in Ht as [_ Ht].
  repeat (apply Forall_cons in Hl5 as [? Hl5]).
  destruct (from_stream_type st) as [kind|]; [|apply IH; try done; lia].
  pose proof (pmt_add_stream_length s kind (pid_13 ph pl) desc).
  apply IH; [done| |lia]. apply pmt_add_stream_inv; [done|by apply pid_13_range|lia].
Qed.

Lemma collect_old_inv ss probes old :
  streams_ok ss -> map_Forall (fun _ (e : StreamInfo * option StreamProbe) => pes_ok (si_pes e.1)) old ->
  map_Forall (fun _ (e : StreamInfo * option StreamProbe) => pes_ok (si_pes e.1)) (collect_old ss probes old).
Proof.
  intros Hss. revert probes old. induction Hss as [|s ss Hs _ IH]; intros probes old Ho; [done|].
  cbn [collect_old]. apply IH. by apply map_Forall_insert_2.
Qed.

Lemma topology_ok_empty : topology_ok [] (replicate PID_COUNT NO_STREAM).
Proof.
  split_and!; [apply length_replicate| |done|cbn; split; [lia|constructor]].
  intros pid idx Hl Hn. by apply lookup_replicate in Hl as [-> _].
Qed.

Lemma apply_pmt_ok d layout entries :
  demux_ok d -> bytes_ok entries -> Z.of_nat (length entries) <= 1024 -> demux_ok (apply_pmt d layout entries).
Proof.
  intros (H1 & H2 & H3 & H4 & H5 & H6 & H7 & H8) Hb Hl. unfold apply_pmt.
  set (s := pmt_entries_loop _ _ _).
  assert (Hs : pmt_inv s).
  { apply pmt_entries_loop_inv; [done| |unfold zlen; cbn [ps_streams length]; lia]. unfold pmt_inv. cbn. split_and!; try done.
    - constructor.
    - apply topology_ok_empty.
    - by apply collect_old_inv. }
  destruct (drop_old _ _ _) as [c rm]. destruct Hs as (I1 & I2 & I3 & _).
  set (d' := mk_TsDemuxer _ _ _ _ _ _ _ _ _ _ _ _ _ _ _ _).
  assert (demux_ok d') by (unfold demux_ok; cbn; split_and!; try done; lia).
  case_if; [|done]. destruct (publish_probe_eq d') as [r ->]. done.
Qed.

Lemma get_range_sub {A} a b (l k : list A) : get_range a b l = Some k -> k = take (b - a) (drop a l) /\ (b <= length l)%nat.
Proof. unfold get_range. case_if; intros [= <-]. auto. Qed.

Lemma pmt_section_complete_ok d : demux_ok d -> demux_ok (pmt_section_complete d).
Proof.
  intros Hd. pose proof Hd as (H1 & H2 & H3 & H4 & H5 & H6 & H7 & H8). unfold pmt_section_complete.
  assert (Hc : forall d', demux_ok d' -> demux_ok (set_pmt_section d' [] 0)).
  { intros d' (K1 & K2 & K3 & K4 & K5 & K6 & K7 & K8). unfold demux_ok. cbn. split_and!; try done; lia. }
  destruct (pmt_stream_loop_bounds _ _) as [[a b]|]; [|by apply Hc].
  destruct (pmt_buf d !! 5%nat); [|by apply Hc].
  destruct (negb _ || _ || _); [by apply Hc|].
  destruct (bool_decide _); [apply Hc; exact Hd|].
  apply apply_pmt_ok; [exact Hd|..];
    destruct (get_range a b (pmt_buf d)) as [e|] eqn:Eg; cbn [default from_option id]; try constructor;
    try (apply get_range_sub in Eg as [-> _]).
  - by apply Forall_take, Forall_drop.
  - rewrite length_take, length_drop. lia.
  - cbn. lia.
Qed.

Lemma section_after_pointer_ok p s : bytes_ok p -> section_after_pointer p = Some s -> bytes_ok s.
Proof.
  destruct p as [|b p]; [done|]. cbn. intros Hb. apply Forall_cons in Hb as [_ Hb].
  destruct (get_from _ p) as [[|x l]|] eqn:E; try done. intros [= <-].
  apply get_from_inv in E as [-> _]. by apply Forall_drop.
Qed.

Lemma pmt_start_ok d p s : demux_ok d -> bytes_ok p ->
  demux_ok (pmt_start d p s).1 /\ match (pmt_start d p s).2 with Some data => bytes_ok data | None => True end.
Proof.
  intros Hd Hb. pose proof Hd as (H1 & H2 & H3 & H4 & H5 & H6 & H7 & H8).
  assert (Hn : forall n, Z.of_nat n <= 1024 -> demux_ok (set_pmt_section d [] n)).
  { intros n Hn. unfold demux_ok. cbn. split_and!; try done; lia. }
  unfold pmt_start. destruct s; [|by destruct (0 <? pmt_expected d)%nat].
  assert (demux_ok (set_pmt_section d [] 0)) by (apply Hn; lia).
  destruct (section_after_pointer p) as [data|] eqn:Es; [|done].
  apply section_after_pointer_ok in Es; [|done].
  destruct (first_chunk 3 data) as [[|t [|h [|l [|]]]]|]; try done.
  destruct (t =? 2); [|done]. destruct (_ && _) eqn:E; [|done]. bool_to_prop.
  split; [|done]. apply Hn. lia.
Qed.

Lemma parse_pmt_ok d p s : demux_ok d -> bytes_ok p -> demux_ok (parse_pmt d p s).
Proof.
  intros Hd Hb. unfold parse_pmt. destruct (pmt_start_ok d p s Hd Hb) as [Hd1 Hdata].
  destruct (pmt_start d p s) as [d1 [data|]]; cbn [fst snd] in *; [|done].
  set (d2 := set_pmt_section _ _ _). assert (Hd2 : demux_ok d2).
  { destruct Hd1 as (H1 & H2 & H3 & H4 & H5 & H6 & H7 & H8). unfold demux_ok. cbn.
    unfold get_to. destruct (Nat.leb_spec (Nat.min (length data) (pmt_expected d1 - length (pmt_buf d1))) (length data)); [|lia].
    cbn [default from_option id]. rewrite length_app, length_take.
    split_and!; try done; [lia|]. apply bytes_ok_app. split; [done|]. by apply Forall_take. }
  case_if; [done|]. by apply pmt_section_complete_ok.
Qed.

Lemma parse_pat_ok d p s : demux_ok d -> demux_ok (parse_pat d p s).
Proof.
  intros Hd. unfold parse_pat. destruct (if s then _ else _) as [data|]; [|done].
  destruct (first_chunk 8 data) as [[|t [|h [|l ?]]]|]; try done. case_if; [|done].
  destruct (get_range _ _ _); [|done]. by destruct (first_program _).
Qed.

Lemma packet_payload_ok c a p ra : bytes_ok a -> packet_payload c a = Some (p, ra) -> bytes_ok p.
Proof.
  intros Ha. unfold packet_payload. case_if; [done|]. case_if; [|by intros [= <- <-]].
  destruct a as [|n rest]; [done|]. intros [= <- _]. apply Forall_cons in Ha as [_ Ha].
  unfold get_from. case_if; cbn; [by apply Forall_drop|constructor].
Qed.

Section invariant2.
Context `{Memmem}.

Lemma process_ts_packet_ok d pkt : demux_ok d -> bytes_ok pkt -> demux_ok (process_ts_packet d pkt).
Proof.
  intros Hd Hb. unfold process_ts_packet. destruct pkt as [|? [|f [|pl [|c a]]]]; try done.
  do 4 apply Forall_cons in Hb as [? Hb].
  destruct (packet_payload c a) as [[[|b p] ra]|] eqn:Ep; try done.
  apply packet_payload_ok in Ep; [|done].
  case_if; [by apply parse_pat_ok|]. case_if; [by apply parse_pmt_ok|].
  destruct (_ !! _); [|done]. case_if; [done|]. by apply process_es_packet_ok.
Qed.

Context `{Memchr}.

Lemma feed_slice_loop_ok fuel d buf off :
  demux_ok d -> bytes_ok buf -> demux_ok (feed_slice_loop fuel d buf off).1.
Proof.
  intros Hd Hb. revert d off Hd. induction fuel as [|fuel IH]; intros d off Hd; [done|]. cbn [feed_slice_loop].
  destruct (mbind _ _) as [pkt|] eqn:Ep; [|done]. case_if; [|by apply IH].
  apply IH. apply process_ts_packet_ok; [done|].
  destruct (get_from off buf) as [r|] eqn:Eg; [|done]. cbn in Ep.
  apply get_from_inv in Eg as [-> _]. apply get_to_inv in Ep as [-> _]. by apply Forall_take, Forall_drop.
Qed.

Lemma feed_ok d data : demux_ok d -> bytes_ok data -> demux_ok (feed d data).
Proof.
  intros Hd Hb. rewrite feed_eq. cbn zeta. set (buf := remainder d ++ data).
  assert (Hbuf : bytes_ok buf).
  { apply bytes_ok_app. split; [|done]. by destruct Hd as (_ & _ & _ & _ & _ & _ & _ & ?). }
  pose proof (feed_slice_end d buf) as He.
  pose proof (feed_slice_loop_ok (S (length buf)) d buf (find_ts_sync buf) Hd Hbuf) as Hok.
  fold (feed_slice d buf) in Hok. destruct (feed_slice d buf) as [d' n]. cbn [fst] in Hok.
  destruct Hok as (H1 & H2 & H3 & H4 & H5 & H6 & H7 & H8). unfold demux_ok. cbn.
  split_and!; try done; [rewrite length_drop; lia|by apply Forall_drop].
Qed.

Lemma flush_ok d : demux_ok d -> demux_ok (flush d).
Proof.
  unfold flush. generalize (seq 0 (length (streams d))) as l. intros l. revert d.
  induction l as [|i l IH]; intros d Hd; [done|]. cbn [fold_left]. apply IH. by apply flush_pes_ok.
Qed.
End invariant2.

Lemma demux_ok_new : demux_ok TsDemuxer_new.
Proof.
  unfold demux_ok. cbn. split_and!; try done; try lia; try constructor; [apply length_replicate| |].
  - split; [|split]; [|done|cbn; split; [lia|constructor]].
    intros pid idx Hl Hn. by apply lookup_replicate in Hl as [-> _].
  - lia.
Qed.

(** ** Lemmas: a new layout and the packets not yet drained *)

Definition changed (mt : MediaType) (c : TopologyChanges) : bool :=
  match mt with Audio => changed_audio c | Video => changed_video c end.
Definition id_media_type (i : Z * StreamKind * Z) : MediaType := kind_media_type i.1.2.

Lemma changed_mark mt c k : changed mt (mark c k) = changed mt c || bool_decide (mt = kind_media_type k).
Proof. unfold mark. by destruct mt, (kind_media_type k), c as [[] []]. Qed.

Lemma changed_drop_old mt old c rm :
  changed mt (drop_old old c rm).1 =
    changed mt c || existsb (fun e => bool_decide (mt = kind_media_type (si_kind (fst (snd e))))) (map_to_list old).
Proof.
  unfold drop_old. generalize (map_to_list old) as l. intros l. revert c rm.
  induction l as [|[p e] l IH]; intros c rm; cbn [map fold_left existsb]; [by rewrite orb_false_r|].
  rewrite IH, changed_mark. cbn. by rewrite orb_assoc.
Qed.

(** What holds while the loop replaces the streams [old]. *)
Definition replacing (old : list StreamInfo) (s : PmtState) : Prop :=
  (forall st, st ∈ ps_streams s -> changed (id_media_type (ident st)) (ps_changes s) = false ->
     ident st ∈ map ident old) /\
  (forall o, o ∈ old -> changed (id_media_type (ident o)) (ps_changes s) = false ->
     fst <$> ps_old s !! si_pid o = Some o \/ ident o ∈ map ident (ps_streams s)) /\
  (forall p o pr, ps_old s !! p = Some (o, pr) -> o ∈ old /\ si_pid o = p).

Lemma elem_of_map {A B} (f : A -> B) x l : x ∈ l -> f x ∈ map f l.
Proof. intros Hx. change (map f l) with (f <$> l). by apply list_elem_of_fmap_2. Qed.

Lemma replacing_mono old streams' probes pids old' a v rm rt ch hv s :
  replacing old s ->
  (forall mt, changed mt ch = false -> changed mt (ps_changes s) = false) ->
  (forall st, st ∈ streams' -> changed (id_media_type (ident st)) ch = false ->
     st ∈ ps_streams s \/ ident st ∈ map ident old) ->
  (forall st, st ∈ ps_streams s -> ident st ∈ map ident streams') ->
  (forall p o pr, ps_old s !! p = Some (o, pr) ->
     old' !! p = Some (o, pr) \/ changed (id_media_type (ident o)) ch = true \/ ident o ∈ map ident streams') ->
  (forall p e, old' !! p = Some e -> ps_old s !! p = Some e) ->
  replacing old (mk_PmtState streams' probes pids old' a v rm rt ch hv).
Proof.
  intros (R1 & R2 & R3) Hch Hnew Hkeep Hold Hsub. unfold replacing. cbn. split_and!.
  - intros st Hst Hc. destruct (Hnew st Hst Hc) as [Hin|Hin]; [|done]. apply R1; [done|by apply Hch].
  - intros o Ho Hc. destruct (R2 o Ho (Hch _ Hc)) as [Hl|Hl].
    + destruct (ps_old s !! si_pid o) as [[o' pr]|] eqn:E; [|done]. injection Hl as ->.
      destruct (Hold _ _ _ E) as [->|[Hbad|Hin]]; [by left|congruence|by right].
    + right. change (map ident (ps_streams s)) with (ident <$> ps_streams s) in Hl.
      apply list_elem_of_fmap_1 in Hl as (st & -> & Hst). by apply Hkeep.
  - intros p o pr Hp. eapply R3. by apply Hsub.
Qed.

Lemma pmt_add_stream_replacing old s kind pid desc :
  replacing old s -> replacing old (pmt_add_stream s kind pid desc).
Proof.
  intros HR. pose proof HR as (R1 & R2 & R3). unfold pmt_add_stream.
  case_if; [exact HR|].
  set (track := if bool_decide _ then 0 else ps_audio_counter s).
  set (descs := parse_stream_descriptors desc).
  assert (Hall : forall streams' st, st ∈ ps_streams s -> ident st ∈ map ident (ps_streams s ++ streams')).
  { intros streams' st Hst. apply elem_of_map, elem_of_app. by left. }
  assert (Hdel : forall p e, delete pid (ps_old s) !! p = Some e -> ps_old s !! p = Some e).
  { intros p e He. by apply lookup_delete_Some in He as [_ ?]. }
  assert (Hmark : forall c mt, changed mt (mark c kind) = false -> changed mt c = false /\ mt <> kind_media_type kind).
  { intros c mt Hm. rewrite changed_mark in Hm. apply orb_false_iff in Hm as [? Hm].
    split; [done|]. by apply bool_decide_eq_false in Hm. }
  destruct (ps_old s !! pid) as [[o pr]|] eqn:Eo.
  - destruct (R3 _ _ _ Eo) as [Hoin Hopid]. destruct (decide (si_kind o = kind)) as [Hk|Hk].
    + rewrite (bool_decide_true (si_kind o = kind)) by done.
      apply replacing_mono with s; [done| | |by apply Hall| |done].
      * intros mt. destruct (si_track_index o =? track); cbn [negb]; [done|]. intros Hm. by apply Hmark in Hm as [? _].
      * intros st. rewrite elem_of_app, list_elem_of_singleton. intros [?| ->]; [by left|]. intros Hm. right.
        destruct (Z.eqb_spec (si_track_index o) track) as [Et|Et]; cbn [negb] in *.
        -- replace (ident _) with (ident o); [by apply elem_of_map|].
           unfold ident. cbn [si_pid si_kind si_track_index]. congruence.
        -- by apply Hmark in Hm as [_ ?].
      * intros p o' pr' Hp. destruct (decide (p = pid)) as [->|]; [|left; by rewrite lookup_delete_ne].
        rewrite Eo in Hp. injection Hp as <- <-. right.
        destruct (Z.eqb_spec (si_track_index o) track) as [Et|Et]; cbn [negb].
        -- right. rewrite map_app. apply elem_of_app. right. apply list_elem_of_singleton.
           unfold ident. cbn [si_pid si_kind si_track_index]. congruence.
        -- left. rewrite changed_mark. unfold id_media_type, ident. cbn. rewrite Hk, bool_decide_true by done.
           by rewrite orb_true_r.
    + rewrite (bool_decide_false (si_kind o = kind)) by done.
      apply replacing_mono with s; [done| | |by apply Hall| |done].
      * intros mt Hm. apply Hmark in Hm as [Hm _]. rewrite changed_mark in Hm. by apply orb_false_iff in Hm as [? _].
      * intros st. rewrite elem_of_app, list_elem_of_singleton. intros [?| ->]; [by left|].
        intros Hm. by apply Hmark in Hm as [_ ?].
      * intros p o' pr' Hp. destruct (decide (p = pid)) as [->|]; [|left; by rewrite lookup_delete_ne].
        rewrite Eo in Hp. injection Hp as <- <-. right. left. rewrite !changed_mark.
        unfold id_media_type, ident. cbn. rewrite (bool_decide_true (kind_media_type (si_kind o) = _)) by done.
        by rewrite orb_true_r.
  - apply replacing_mono with s; [done| | |by apply Hall| |done].
    + intros mt Hm. by apply Hmark in Hm as [? _].
    + intros st. rewrite elem_of_app, list_elem_of_singleton. intros [?| ->]; [by left|].
      intros Hm. by apply Hmark in Hm as [_ ?].
    + intros p o' pr' Hp. left. rewrite lookup_delete_ne; [done|]. intros ->. congruence.
Qed.

Lemma pmt_entries_loop_replacing old fuel entries s :
  replacing old s -> replacing old (pmt_entries_loop fuel entries s).
Proof.
  revert entries s. induction fuel as [|fuel IH]; intros entries s Hs; [done|]. cbn [pmt_entries_loop].
  destruct (split_first_chunk 5 entries) as [[l tl]|]; [|done].
  destruct l as [|st [|ph [|pl [|ih [|il [|]]]]]]; try done.
  destruct (split_at_checked _ tl) as [[desc tl']|]; [|done]. apply IH.
  destruct (from_stream_type st); [by apply pmt_add_stream_replacing|done].
Qed.

Lemma collect_old_lookup ss probes old p e :
  collect_old ss probes old !! p = Some e ->
  old !! p = Some e \/ (e.1 ∈ ss /\ si_pid e.1 = p).
Proof.
  revert probes old. induction ss as [|s ss IH]; intros probes old; [by left|]. cbn [collect_old].
  intros Hl. apply IH in Hl as [Hl|[? ?]]; [|right; split; [by apply list_elem_of_further|done]].
  apply lookup_insert_Some in Hl as [[<- <-]|[_ ?]]; [|by left]. right. split; [apply list_elem_of_here|done].
Qed.

Lemma collect_old_keep ss probes old p :
  p ∉ map si_pid ss -> collect_old ss probes old !! p = old !! p.
Proof.
  revert probes old. induction ss as [|s ss IH]; intros probes old Hp; [done|]. cbn [collect_old map] in *.
  apply not_elem_of_cons in Hp as [Hne Hp]. rewrite IH by done. by rewrite lookup_insert_ne.
Qed.

Lemma collect_old_find ss probes old o :
  NoDup (map si_pid ss) -> o ∈ ss -> fst <$> collect_old ss probes old !! si_pid o = Some o.
Proof.
  revert probes old. induction ss as [|s ss IH]; intros probes old Hnd Ho; [by apply not_elem_of_nil in Ho|].
  cbn [collect_old map] in *. apply NoDup_cons in Hnd as [Hni Hnd].
  apply elem_of_cons in Ho as [->|Ho]; [|by apply IH].
  rewrite collect_old_keep by done. by rewrite lookup_insert_eq.
Qed.

Lemma replacing_start ss probes :
  NoDup (map si_pid ss) ->
  replacing ss (mk_PmtState [] [] (replicate PID_COUNT NO_STREAM) (collect_old ss probes ∅) 0 0 false false
                  TopologyChanges_default false).
Proof.
  intros Hnd. unfold replacing. cbn. split_and!.
  - intros st Hst. by apply not_elem_of_nil in Hst.
  - intros o Ho _. left. by apply collect_old_find.
  - intros p o pr Hl. apply collect_old_lookup in Hl as [Hl|Hl]; [|done]. by rewrite lookup_empty in Hl.
Qed.

(** The media type [mt] keeps its identities, or is marked and loses its packets. *)
Definition media_preserved (mt : MediaType) (d d' : TsDemuxer) : Prop :=
  (forall i, id_media_type i = mt -> i ∈ map ident (streams d) <-> i ∈ map ident (streams d')) /\
  List.filter (fun p => bool_decide (media_type p = mt)) (output d') =
  List.filter (fun p => bool_decide (media_type p = mt)) (output d).
Definition media_invalidated (mt : MediaType) (d d' : TsDemuxer) : Prop :=
  changed mt (topology_changes d') = true /\ Forall (fun p => media_type p <> mt) (output d').

Lemma retained_filter mt c out :
  changed mt c = false ->
  List.filter (fun p => bool_decide (media_type p = mt)) (List.filter (retained_packet c) out) =
  List.filter (fun p => bool_decide (media_type p = mt)) out.
Proof.
  intros Hc. induction out as [|p out IH]; [done|]. cbn [List.filter].
  destruct (retained_packet c p) eqn:Er; cbn [List.filter]; [by rewrite IH|].
  destruct (decide (media_type p = mt)) as [Hm|Hm].
  - unfold retained_packet in Er. rewrite Hm in Er. by destruct mt; cbn in *; rewrite Hc in Er.
  - by rewrite bool_decide_false.
Qed.

Lemma apply_pmt_eq d layout entries :
  let s := pmt_entries_loop (length entries) entries
             (mk_PmtState [] [] (replicate PID_COUNT NO_STREAM)
                (collect_old (streams d) (stream_probes d) ∅) 0 0 false false TopologyChanges_default false) in
  let c := (drop_old (ps_old s) (ps_changes s) (ps_removed_config s)).1 in
  let d' := apply_pmt d layout entries in
  streams d' = ps_streams s /\
  output d' = (if changed_audio c || changed_video c
               then List.filter (retained_packet c) (output d) else output d) /\
  (forall mt, changed mt (topology_changes d') = changed mt (topology_changes d) || changed mt c).
Proof.
  cbn zeta. unfold apply_pmt. set (s := pmt_entries_loop _ _ _). destruct (drop_old _ _ _) as [c rm].
  set (d' := mk_TsDemuxer _ _ _ _ _ _ _ _ _ _ _ _ _ _ _ _). cbn [fst].
  assert (Hp : forall b : bool, let d'' := if b then publish_probe d' else d' in
    streams d'' = streams d' /\ output d'' = output d' /\ topology_changes d'' = topology_changes d').
  { intros []; cbn zeta; [|done]. by destruct (publish_probe_eq d') as [r ->]. }
  match goal with |- context [if ?b then publish_probe d' else d'] => destruct (Hp b) as (-> & -> & ->) end.
  subst d'. cbn. split_and!; [done|done|]. by intros [].
Qed.

(** ** Runs of the demuxer *)

Section runs.
Context `{Memmem} `{Memchr}.

(** The operations a caller has. *)
Inductive demux_step : TsDemuxer -> TsDemuxer -> Prop :=
  | step_feed d data : bytes_ok data -> demux_step d (feed d data)
  | step_flush d : demux_step d (flush d)
  | step_drain d : demux_step d (drain d).2
  | step_drain_into d batch : demux_step d (drain_into d batch).2
  | step_take_probe d : demux_step d (take_probe d).2
  | step_take_topology_changes d : demux_step d (take_topology_changes d).2.

Lemma demux_step_ok d d' : demux_step d d' -> demux_ok d -> demux_ok d'.
Proof. intros [] Hd; try exact Hd; [by apply feed_ok|by apply flush_ok]. Qed.
End runs.

(** No packet fits in less than a packet. *)
Lemma no_packets pkts tail part :
  packet_sized pkts -> concat pkts ++ tail = part -> (length part < TS_PACKET_SIZE)%nat ->
  pkts = [] /\ tail = part.
Proof.
  intros Hs <- Hl. rewrite length_app, length_concat_packets in Hl by done.
  destruct pkts; [done|]. cbn [length] in Hl. lia.
Qed.

Lemma feed_chunks_from `{Memmem} `{Memchr} tail :
  (length tail < TS_PACKET_SIZE)%nat ->
  forall chunks d pkts, packet_sized pkts -> aligned (concat pkts ++ tail) ->
  remainder d ++ concat chunks = concat pkts ++ tail -> chunks <> [] \/ remainder d = tail ->
  fold_left feed chunks d = set_remainder (fold_left process_ts_packet pkts d) tail.
Proof.
  intros Hl chunks. induction chunks as [|c cs IH]; intros d pkts Hs Ha Hcat Hne.
  - destruct Hne as [?|Hne]; [done|]. cbn [concat fold_left] in *. rewrite app_nil_r, Hne in Hcat.
    destruct (no_packets pkts tail tail) as [-> _]; [done|done|done|].
    cbn [fold_left]. rewrite <- Hne. by rewrite set_remainder_id.
  - cbn [concat fold_left] in *. rewrite app_assoc in Hcat.
    destruct (cut_packets (length (remainder d ++ c)) pkts tail (concat pkts ++ tail) Hs Hl eq_refl)
      as (done & rest & part & -> & Et & Hpl & Ed).
    { rewrite <- Hcat, !length_app. lia. }
    rewrite <- Hcat, take_app_length in Et. rewrite <- Hcat, drop_app_length in Ed.
    apply Forall_app in Hs as [Hs1 Hs2]. rewrite concat_app, <- app_assoc in Ha, Hcat.
    assert (Ha1 : aligned (concat done ++ part)).
    { rewrite <- Ed, app_assoc in Ha. by eapply aligned_prefix. }
    rewrite (feed_aligned done part d c); [|done..].
    rewrite fold_left_app. destruct cs as [|c' cs].
    + cbn [concat fold_left] in *. rewrite app_nil_r in Ed.
      destruct (no_packets rest tail part) as [-> ->]; done.
    + rewrite (IH _ rest); try done.
      * rewrite fold_process_rem. done.
      * eapply aligned_suffix; [exact Hs1|exact Ha].
      * by left.
Qed.

(** Concrete runs use the reference searches. *)
#[local] Existing Instances naive_memmem naive_Memchr.

(** ** Properties *)

(** C19: The demuxer is safe on untrusted input: from a new one, after any calls in any
    order on any bytes, every PES buffer stays within 512 KiB, every carried ADTS tail
    is the beginning of one frame, PTS and DTS are 33-bit, the PMT section buffer stays
    within the length announced (at most 1024), less than one packet is left unread,
    the PID table only names streams that have that PID, the audio tracks are numbered
    0, 1, ... in order, and there is at most one video stream. *)
Theorem demux_reachable_ok `{Memmem} `{Memchr} d :
  rtc demux_step TsDemuxer_new d -> demux_ok d.
Proof.
  intros Hr. enough (forall d0, rtc demux_step d0 d -> demux_ok d0 -> demux_ok d) as Hgo.
  { apply (Hgo TsDemuxer_new Hr), demux_ok_new. }
  clear Hr. intros d0 Hr. induction Hr; [done|]. intros Hd. apply IHHr. by eapply demux_step_ok.
Qed.

Lemma demux_reachable_ok_witness :
  demux_ok (flush (feed TsDemuxer_new [0x47; 1; 2])).
Proof.
  apply demux_reachable_ok. apply rtc_l with (feed TsDemuxer_new [0x47; 1; 2]); [apply step_feed|apply rtc_once, step_flush].
  repeat constructor; unfold in_u; lia.
Defined.

(** C21: How a stream is cut into chunks does not matter: whole packets that start with the
    sync byte, and a part of one behind them, fed in chunks of any sizes (empty ones
    too), leave exactly the state of processing the packets one by one in order, with
    the part kept for the next call. *)
Theorem feed_chunking `{Memmem} `{Memchr} d chunks pkts tail :
  remainder d = [] -> concat chunks = concat pkts ++ tail ->
  Forall (fun p => length p = TS_PACKET_SIZE /\ head p = Some TS_SYNC_BYTE) pkts ->
  (tail = [] \/ head tail = Some TS_SYNC_BYTE) -> (length tail < TS_PACKET_SIZE)%nat ->
  fold_left feed chunks d = set_remainder (fold_left process_ts_packet pkts d) tail.
Proof.
  intros Hr Hcat Hp Ht Hl. apply feed_chunks_from; try done.
  - eapply Forall_impl; [exact Hp|]. by intros ? [? _].
  - by apply whole_packets_aligned.
  - by rewrite Hr.
  - rewrite Hr. destruct chunks; [right|by left]. cbn in Hcat. symmetry in Hcat.
    by apply app_eq_nil in Hcat as [_ ->].
Qed.

Definition null_packet : bytes := [0x47; 0x1F; 0xFF; 0x10] ++ replicate 184 0xFF.

Lemma feed_chunking_witness :
  fold_left feed [take 100 null_packet; []; drop 100 null_packet ++ [0x47]] TsDemuxer_new
    = set_remainder (fold_left process_ts_packet [null_packet] TsDemuxer_new) [0x47].
Proof.
  apply (feed_chunking TsDemuxer_new _ [null_packet] [0x47]); try reflexivity.
  - repeat constructor.
  - by right.
  - unfold TS_PACKET_SIZE. cbn. lia.
Defined.

(** A new program layout never relabels media: when a PMT with a new layout replaces
    the streams (their PIDs being distinct), then for audio and for video either the
    identities (PID, codec, track index) stay exactly the same and the packets of that
    type waiting in the output are kept, all and in order, or the type is reported as
    changed and none of its packets is left in the output. *)
Theorem pmt_never_relabels d layout entries mt :
  NoDup (map si_pid (streams d)) ->
  media_preserved mt d (apply_pmt d layout entries) \/ media_invalidated mt d (apply_pmt d layout entries).
Proof.
  intros Hnd. destruct (apply_pmt_eq d layout entries) as (Es & Eo & Et).
  set (s := pmt_entries_loop _ _ _) in *.
  assert (HR : replacing (streams d) s) by (by apply pmt_entries_loop_replacing, replacing_start).
  destruct HR as (R1 & R2 & _). pose proof (changed_drop_old mt (ps_old s) (ps_changes s) (ps_removed_config s)) as Hd.
  set (c := (drop_old _ _ _).1) in *.
  destruct (changed mt c) eqn:Ec; [right|left].
  - split; [by rewrite Et, Ec, orb_true_r|]. rewrite Eo.
    assert (changed_audio c || changed_video c = true) as -> by (destruct mt; cbn in Ec; rewrite Ec, ?orb_true_r; done).
    apply Forall_forall. intros p Hp Hm. apply list_elem_of_In, filter_In in Hp as [_ Hp].
    unfold retained_packet in Hp. rewrite Hm in Hp. by destruct mt; cbn in *; rewrite Ec in Hp.
  - symmetry in Hd. apply orb_false_iff in Hd as [Hc Hex]. split.
    + intros i Hm. rewrite Es. change (map ident) with (fmap ident : list StreamInfo -> _).
      rewrite !list_elem_of_fmap. split.
      * intros (o & -> & Ho). rewrite <- Hm in Hc. destruct (R2 o Ho Hc) as [Hl|Hl].
        -- exfalso. destruct (ps_old s !! si_pid o) as [[o' pr]|] eqn:El; [|done]. injection Hl as ->.
           apply elem_of_map_to_list, list_elem_of_In in El.
           assert (existsb (fun e => bool_decide (mt = kind_media_type (si_kind (fst (snd e))))) (map_to_list (ps_old s)) = true); [|congruence].
           apply existsb_exists. eexists. split; [exact El|]. by apply bool_decide_true.
        -- by apply list_elem_of_fmap in Hl.
      * intros (st & -> & Hst). rewrite <- Hm in Hc. specialize (R1 st Hst Hc). by apply list_elem_of_fmap in R1.
    + rewrite Eo. case_if; [|done]. by apply retained_filter.
Qed.

Definition aac_stream (pid idx : Z) : StreamInfo :=
  mk_StreamInfo pid KindAacAdts idx None None CC_UNSET PesAccumulator_new.
Definition two_tracks : TsDemuxer := set_streams TsDemuxer_new [aac_stream 0x101 0; aac_stream 0x102 1].

Lemma pmt_never_relabels_witness :
  media_preserved Audio two_tracks (apply_pmt two_tracks [] [0x0F; 0xE1; 0x02; 0xF0; 0x00]) \/
  media_invalidated Audio two_tracks (apply_pmt two_tracks [] [0x0F; 0xE1; 0x02; 0xF0; 0x00]).
Proof.
  apply (pmt_never_relabels two_tracks [] [0x0F; 0xE1; 0x02; 0xF0; 0x00] Audio).
  repeat constructor; cbn; rewrite ?elem_of_cons, ?elem_of_nil; intuition discriminate.
Defined.
