(* ===== verification/TsRoundtrip.v ===== *)
(** * What the muxer writes, the demuxer reads

    The two ends of the transport stream together: [TsMuxer] of
    [crates/restream-mpegts/src/mux.rs] and [TsDemuxer] of
    [crates/restream-mpegts/src/demux.rs].  The tables of a muxer give the demuxer
    its streams, and a sequence of muxed video packets comes back as it was. *)

From S2P Require Import Prelude Bitblast Bits Aac Annexb Media TsWire Probe AdtsFraming TsMux TsDemux.

(** ** Elementary stream packets *)

Lemma packet_payload_ts control after :
  ts_payload (0x47 :: 0 :: 0 :: control :: after) <> [] ->
  packet_payload control after =
    Some (ts_payload (0x47 :: 0 :: 0 :: control :: after),
          match after with
          | af_len :: flags :: _ =>
              ((control .>> 4) .& 0x03 =? 3) && (0 <? af_len) && negb (flags .& 0x40 =? 0)
          | _ => false
          end).
Proof.
  unfold packet_payload, ts_payload. set (afc := (control .>> 4) .& 0x03).
  destruct (Z.eqb_spec afc 1) as [->|H1].
  - intros _. cbn. by destruct after as [|? [|? ?]].
  - destruct (Z.eqb_spec afc 3) as [->|H3]; [|done]. cbn [Z.eqb Pos.eqb orb].
    destruct after as [|n rest]; [done|]. intros Hne. f_equal. f_equal.
    + unfold get_from. case_if; [done|]. by rewrite drop_ge by lia.
    + destruct rest as [|fl rest]; [by rewrite drop_nil in Hne|].
      by destruct (0 <? n).
Qed.

Section packets.
Context `{Memmem}.

Lemma process_es d pid first cc pkt idx :
  ts_packet_ok pid first cc pkt -> ts_payload pkt <> [] -> pid <> PAT_PID -> pmt_pid d <> Some pid ->
  pid_to_stream d !! Z.to_nat pid = Some idx -> idx <> NO_STREAM ->
  process_ts_packet d pkt =
    process_es_packet d (Z.to_nat idx) cc first (ts_random_access pkt) (ts_payload pkt).
Proof.
  intros (Hl & flags & pl & control & rest & -> & _ & _ & _ & Hpid & Hfirst & Hcc) Hne Hpat Hpmt Hidx Hs.
  unfold process_ts_packet. fold (pid_13 flags pl) in Hpid. rewrite Hpid, Hfirst, Hcc.
  rewrite packet_payload_ts by exact Hne. change (ts_payload (0x47 :: 0 :: 0 :: control :: rest))
    with (ts_payload (TS_SYNC_BYTE :: flags :: pl :: control :: rest)).
  destruct (ts_payload _) as [|b p]; [done|]. rewrite (proj2 (Z.eqb_neq _ _) Hpat).
  rewrite bool_decide_false by congruence. rewrite Hidx, (proj2 (Z.eqb_neq _ _) Hs).
  done.
Qed.

(** A packet of a PID nobody listens to. *)
Lemma process_other d pid first cc pkt :
  ts_packet_ok pid first cc pkt -> pid <> PAT_PID -> pmt_pid d <> Some pid ->
  pid_to_stream d !! Z.to_nat pid = Some NO_STREAM -> process_ts_packet d pkt = d.
Proof.
  intros (Hl & flags & pl & control & rest & -> & _ & _ & _ & Hpid & _) Hpat Hpmt Hidx.
  unfold process_ts_packet. fold (pid_13 flags pl) in Hpid. rewrite Hpid.
  destruct (packet_payload control rest) as [[[|b p] ra]|]; try done.
  rewrite (proj2 (Z.eqb_neq _ _) Hpat). rewrite bool_decide_false by congruence. by rewrite Hidx.
Qed.

Lemma process_pmt d pid first cc pkt :
  ts_packet_ok pid first cc pkt -> ts_payload pkt <> [] -> pid <> PAT_PID -> pmt_pid d = Some pid ->
  process_ts_packet d pkt = parse_pmt d (ts_payload pkt) first.
Proof.
  intros (Hl & flags & pl & control & rest & -> & _ & _ & _ & Hpid & Hfirst & Hcc) Hne Hpat Hpmt.
  unfold process_ts_packet. fold (pid_13 flags pl) in Hpid. rewrite Hpid, Hfirst.
  rewrite packet_payload_ts by exact Hne. change (ts_payload (0x47 :: 0 :: 0 :: control :: rest))
    with (ts_payload (TS_SYNC_BYTE :: flags :: pl :: control :: rest)).
  destruct (ts_payload _) as [|b p]; [done|]. rewrite (proj2 (Z.eqb_neq _ _) Hpat).
  by rewrite bool_decide_true by congruence.
Qed.

(** *** The packets of one video PES *)

(** An accumulator that holds [pl], of unknown length still to come. *)
Definition holds (pts dts : Z) (random_access : bool) (a : AdtsFraming) (pl : bytes) : PesAccumulator :=
  mk_PesAccumulator pl None (wrapu 33 pts) (wrapu 33 dts) true random_access a.

Lemma parse_written ts marker rest :
  in_u 4 marker ->
  chunk_timestamp (first_chunk 5 (write_timestamp_buf ts marker ++ rest)) = Some (wrapu 33 ts).
Proof.
  intros Hm. unfold first_chunk. rewrite get_to_app by done.
  rewrite <- write_timestamp_wrap.
  pose proof (parse_write_timestamp (wrapu 33 ts) marker ltac:(apply wrapu_range; lia) Hm) as Hp.
  unfold chunk_timestamp. destruct (write_timestamp_buf _ _) as [|b0 [|b1 [|b2 [|b3 [|b4 [|]]]]]]; try done.
  by rewrite Hp.
Qed.

Lemma append_bounded_holds pts dts ra a buf x :
  zlen (buf ++ x) <= MAX_PES_BUFFER ->
  append_bounded (holds pts dts ra a buf) x = holds pts dts ra a (buf ++ x).
Proof.
  unfold zlen. rewrite length_app. intros Hl. unfold append_bounded, zlen. cbn [pes_buf holds].
  case_if; [done|lia].
Qed.

Lemma start_pes_header p ra pts dts n x :
  pes_buf p = [] -> zlen x <= MAX_PES_BUFFER ->
  exists sid b6 fl hl,
    pes_header Video pts dts n = [0; 0; 1; sid; 0; 0; b6; fl; hl] ++ drop 9 (pes_header Video pts dts n) /\
    start_pes p ra (pes_header Video pts dts n ++ x) 0 0 fl hl = holds pts dts ra (adts p) x.
Proof.
  intros Hb Hx. unfold pes_header. cbn [bool_decide andb].
  rewrite (bool_decide_false (Video = Audio)) by done. cbn [andb].
  destruct (Z.eqb_spec pts dts) as [<-|Hne]; cbn [negb]; do 4 eexists; (split; [reflexivity|]).
  - unfold start_pes. cbn [app]. rewrite app_nil_r.
    assert (forall l : bytes, get_from 9 (0 :: 0 :: 1 :: 0xE0 :: 0 :: 0 :: 0x80 :: 0x80 :: 5 :: l) = Some l) as Hg
      by (intros l; by apply (get_from_app 9 [_; _; _; _; _; _; _; _; _])).
    unfold PES_START_CODE. cbn [app]. rewrite Hg. cbn [default from_option id Z.land Pos.land Z.eqb negb].
    rewrite parse_written by (unfold in_u; lia). cbn [default from_option id].
    rewrite (get_from_app (Z.to_nat 5)) by done. rewrite Hb.
    change (pes_payload_len (be_value [0; 0]) 5) with (@None Z).
    destruct x as [|b x]; [done|]. exact (append_bounded_holds pts pts ra (adts p) [] (b :: x) Hx).
  - unfold start_pes. 
    assert (forall l : bytes, get_from 9 (0 :: 0 :: 1 :: 0xE0 :: 0 :: 0 :: 0x80 :: 0xC0 :: 10 :: l) = Some l) as Hg
      by (intros l; by apply (get_from_app 9 [_; _; _; _; _; _; _; _; _])).
    unfold PES_START_CODE. cbn [app]. rewrite Hg. cbn [default from_option id Z.land Pos.land Z.eqb negb].
    rewrite <- app_assoc. rewrite parse_written by (unfold in_u; lia).
    rewrite (get_from_app 5 (write_timestamp_buf pts 0x03)) by done. cbn [mbind option_bind]. rewrite parse_written by (unfold in_u; lia).
    cbn [default from_option id].
    rewrite app_assoc, (get_from_app (Z.to_nat 10)) by done. rewrite Hb.
    change (pes_payload_len (be_value [0; 0]) 10) with (@None Z).
    destruct x as [|b x]; [done|]. exact (append_bounded_holds pts dts ra (adts p) [] (b :: x) Hx).
Qed.
End packets.

(** *** A whole video PES *)

Definition is_video (k : StreamKind) : Prop := kind_media_type k = Video.
(** Between PES packets. *)
Definition idle (a : AdtsFraming) : PesAccumulator := mk_PesAccumulator [] None 0 0 false false a.

(** The packet a finished video PES becomes. *)
Definition video_packet `{Memmem} (kind : StreamKind) (track pts dts : Z) (ra : bool) (pl : bytes) : MediaPacket :=
  mk_MediaPacket Video Raw
    (match kind with
     | KindH264 => ra || h264_is_keyframe pl
     | KindH265 => h265_is_keyframe pl
     | _ => false
     end) track (ts_to_ms (wrapu 33 pts)) (ts_to_ms (wrapu 33 dts)) pl.

(** The fields the round trip follows: probes and the like may move. *)
Definition same_program (d d' : TsDemuxer) : Prop :=
  pid_to_stream d' = pid_to_stream d /\ pmt_pid d' = pmt_pid d /\ pmt_layout d' = pmt_layout d.

Lemma same_program_refl d : same_program d d.
Proof. done. Qed.
Lemma same_program_trans d1 d2 d3 : same_program d1 d2 -> same_program d2 d3 -> same_program d1 d3.
Proof. intros (A1 & A2 & A3) (B1 & B2 & B3). repeat split; congruence. Qed.

Section pes.
Context `{Memmem}.

Lemma push_whole_eq d i k ti p q kf pl :
  let d' := push_whole d i k ti p q kf pl in
  streams d' = streams d /\ same_program d d' /\
  output d' = output d ++ [mk_MediaPacket (kind_media_type k) Raw kf ti p q pl].
Proof.
  cbn zeta. unfold push_whole. case_if; [|done].
  by destruct (try_build_probe_eq d i pl) as (pr & b & i' & r & -> & _).
Qed.

Lemma flush_holds d i s pts dts ra a pl :
  streams d !! i = Some s -> is_video (si_kind s) -> si_pes s = holds pts dts ra a pl -> pl <> [] ->
  let d' := flush_pes d i in
  streams d' = <[i := set_pes s (idle a)]> (streams d) /\ same_program d d' /\
  output d' = output d ++ [video_packet (si_kind s) (si_track_index s) pts dts ra pl].
Proof.
  intros Hs Hk Hp Hne. cbn zeta. unfold flush_pes. rewrite Hs, Hp. cbn [pes_buf holds has_timestamp].
  rewrite (bool_decide_false (pl = [])) by done. cbn [orb negb].
  rewrite bool_decide_false by (unfold is_video in Hk; intros Hbad; by rewrite Hbad in Hk).
  set (d1 := update_stream d i _).
  edestruct (push_whole_eq d1 i) as (E1 & E2 & E3). rewrite E1, E3. split_and!; try done.
  unfold video_packet. unfold is_video in Hk. rewrite Hk. cbn. done.
Qed.

Lemma flush_idle d i s a :
  streams d !! i = Some s -> si_pes s = idle a -> flush_pes d i = d.
Proof.
  intros Hs Hp. unfold flush_pes. rewrite Hs, Hp. cbn [pes_buf idle].
  rewrite (bool_decide_true ([] = [])) by done. cbn [orb].
  assert (set_pes s (pes_reset (idle a)) = s) as ->.
  { destruct s. cbn in *. by rewrite Hp. }
  unfold update_stream. rewrite list_insert_id by done. by destruct d.
Qed.

(** Continuation packets. *)
Lemma es_rest pid idx i pts dts ra a : forall pkts d s buf cc,
  packets_ok pid false cc pkts -> Forall (fun p => ts_payload p <> []) pkts ->
  pid <> PAT_PID -> pmt_pid d <> Some pid -> pid_to_stream d !! Z.to_nat pid = Some idx ->
  idx <> NO_STREAM -> Z.to_nat idx = i ->
  streams d !! i = Some s -> si_pes s = holds pts dts ra a buf ->
  zlen (buf ++ flat_map ts_payload pkts) <= MAX_PES_BUFFER ->
  let d' := fold_left process_ts_packet pkts d in
  exists cc', streams d' =
    <[i := set_continuity (set_pes s (holds pts dts ra a (buf ++ flat_map ts_payload pkts))) cc']> (streams d) /\
    same_program d d' /\ output d' = output d.
Proof.
  induction pkts as [|p pkts IH]; intros d s buf cc Hpk Hne Hpat Hpmt Hpid Hidx Hi Hs Hpes Hmax; cbn zeta.
  - cbn [fold_left flat_map] in *. rewrite app_nil_r. exists (si_continuity s).
    split_and!; [|done|done]. rewrite list_insert_id; [done|]. rewrite Hs, <- Hpes. by destruct s.
  - cbn [fold_left flat_map packets_ok] in *. destruct Hpk as [Hp Hpk]. apply Forall_cons in Hne as [Hpne Hne].
    rewrite (process_es d pid false cc p idx) by done. rewrite Hi.
    unfold process_es_packet. rewrite Hs. set (s1 := set_continuity s cc).
    cbn [streams update_stream set_streams]. rewrite list_lookup_insert_eq by (by eapply lookup_lt_Some).
    assert (Hp1 : si_pes s1 = holds pts dts ra a buf) by done. rewrite Hp1.
    rewrite app_assoc in Hmax.
    rewrite append_bounded_holds.
    2: { unfold zlen in *. rewrite length_app in Hmax. lia. }
    set (d1 := update_stream (update_stream d i s1) i _).
    assert (Hd1 : streams d1 = <[i := set_pes s1 (holds pts dts ra a (buf ++ ts_payload p))]> (streams d)).
    { subst d1. cbn. by rewrite list_insert_insert_eq. }
    assert (Hd1i : streams d1 !! i = Some (set_pes s1 (holds pts dts ra a (buf ++ ts_payload p)))).
    { rewrite Hd1. apply list_lookup_insert_eq. by eapply lookup_lt_Some. }
    assert (flush_completed_pes d1 i = d1) as ->.
    { unfold flush_completed_pes. by rewrite Hd1i. }
    destruct (IH d1 _ (buf ++ ts_payload p) _ Hpk Hne Hpat Hpmt Hpid Hidx Hi Hd1i eq_refl Hmax)
      as (cc' & E & Hsp & Ho).
    exists cc'. rewrite E, Hd1, list_insert_insert_eq. rewrite app_assoc. done.
Qed.

(** The first packet: what was pending leaves, the new header is read. *)
Lemma es_first d pid cc p idx i s a n pts dts x :
  ts_packet_ok pid true cc p -> ts_payload p = pes_header Video pts dts n ++ x -> zlen x <= MAX_PES_BUFFER ->
  pid <> PAT_PID -> pmt_pid d <> Some pid -> pid_to_stream d !! Z.to_nat pid = Some idx ->
  idx <> NO_STREAM -> Z.to_nat idx = i -> streams d !! i = Some s ->
  let d0 := flush_pes (update_stream d i (set_continuity s cc)) i in
  streams d0 = <[i := set_pes (set_continuity s cc) (idle a)]> (streams d) -> same_program d d0 ->
  let d' := process_ts_packet d p in
  streams d' = <[i := set_pes (set_continuity s cc) (holds pts dts (ts_random_access p) a x)]> (streams d) /\
  same_program d d' /\ output d' = output d0.
Proof.
  intros Hp Hpay Hx Hpat Hpmt Hpid Hidx Hi Hs d0 Hd0 Hsp. cbn zeta.
  assert (Hne : ts_payload p <> []) by (rewrite Hpay; unfold pes_header; done).
  rewrite (process_es d pid true cc p idx) by done. rewrite Hi.
  unfold process_es_packet. rewrite Hs. fold d0.
  assert (Hd0i : streams d0 !! i = Some (set_pes (set_continuity s cc) (idle a))).
  { rewrite Hd0. apply list_lookup_insert_eq. by eapply lookup_lt_Some. }
  destruct (start_pes_header (idle a) (ts_random_access p) pts dts n x eq_refl Hx)
    as (sid & b6 & fl & hl & Ehdr & Estart).
  rewrite Hpay, Ehdr, <- app_assoc. unfold first_chunk. rewrite get_to_app by done.
  cbn [Z.eqb Pos.eqb andb]. rewrite Hd0i. rewrite app_assoc, <- Ehdr.
  change (si_pes (set_pes (set_continuity s cc) (idle a))) with (idle a).
  rewrite Estart. set (d1 := update_stream d0 i _).
  change (set_pes (set_pes (set_continuity s cc) (idle a)) (holds pts dts (ts_random_access p) (adts (idle a)) x))
    with (set_pes (set_continuity s cc) (holds pts dts (ts_random_access p) a x)) in d1.
  assert (Hd1i : streams d1 !! i = Some (set_pes (set_continuity s cc) (holds pts dts (ts_random_access p) a x))).
  { subst d1. cbn. rewrite Hd0, list_insert_insert_eq. apply list_lookup_insert_eq. by eapply lookup_lt_Some. }
  assert (flush_completed_pes d1 i = d1) as ->.
  { unfold flush_completed_pes. by rewrite Hd1i. }
  split_and!; [|done|done]. subst d1. cbn. by rewrite Hd0, list_insert_insert_eq.
Qed.
End pes.

(** *** From one video packet to the next *)

Section video.
Context `{Memmem}.

(** A PES that waits for its successor: timestamps, keyframe flag, payload. *)
Definition Waiting : Type := option (Z * Z * bool * bytes).
Definition pending_pes (a : AdtsFraming) (w : Waiting) : PesAccumulator :=
  match w with None => idle a | Some (pts, dts, ra, pl) => holds pts dts ra a pl end.
Definition pending_ok (w : Waiting) : Prop := match w with None => True | Some (_, _, _, pl) => pl <> [] end.
Definition pending_out (kind : StreamKind) (track : Z) (w : Waiting) : list MediaPacket :=
  match w with None => [] | Some (pts, dts, ra, pl) => [video_packet kind track pts dts ra pl] end.

Lemma flush_pending d i s a w :
  streams d !! i = Some s -> is_video (si_kind s) -> si_pes s = pending_pes a w -> pending_ok w ->
  let d' := flush_pes d i in
  streams d' = <[i := set_pes s (idle a)]> (streams d) /\ same_program d d' /\
  output d' = output d ++ pending_out (si_kind s) (si_track_index s) w.
Proof.
  intros Hs Hk Hp Hw. destruct w as [[[[pts dts] ra] pl]|]; cbn [pending_pes pending_ok pending_out] in *.
  - by apply flush_holds.
  - cbn zeta. rewrite (flush_idle d i s a Hs Hp), app_nil_r. split_and!; try done.
    rewrite list_insert_id; [done|]. rewrite Hs, <- Hp. by destruct s.
Qed.

Lemma es_pes d pid cc pkts idx i s a w pts dts kf pl :
  packets_ok pid true cc pkts ->
  (let hdr := pes_header Video pts dts (zlen pl) in
   flat_map ts_payload pkts = hdr ++ pl /\
   exists p rest, pkts = p :: rest /\ (Nat.min (length hdr + length pl) 176 <= length (ts_payload p))%nat) ->
  Forall (fun p => ts_payload p <> []) pkts ->
  map ts_random_access pkts = match pkts with [] => [] | _ :: rest => kf :: map (fun _ => false) rest end ->
  zlen pl <= MAX_PES_BUFFER -> pid <> PAT_PID -> pmt_pid d <> Some pid ->
  pid_to_stream d !! Z.to_nat pid = Some idx -> idx <> NO_STREAM -> Z.to_nat idx = i ->
  streams d !! i = Some s -> is_video (si_kind s) -> si_pes s = pending_pes a w -> pending_ok w ->
  let d' := fold_left process_ts_packet pkts d in
  exists cc', streams d' = <[i := set_continuity (set_pes s (holds pts dts kf a pl)) cc']> (streams d) /\
    same_program d d' /\ output d' = output d ++ pending_out (si_kind s) (si_track_index s) w.
Proof.
  intros Hpk (Hfl & p & rest & -> & Hlong) Hne Hra Hmax Hpat Hpmt Hpid Hidx Hi Hs Hk Hpes Hw. cbn zeta.
  cbn [packets_ok flat_map map fold_left] in *. destruct Hpk as [Hp Hpk]. apply Forall_cons in Hne as [Hpne Hne].
  injection Hra as Hra _. set (hdr := pes_header Video pts dts (zlen pl)) in *.
  assert (Hh : (length hdr <= 19)%nat) by (subst hdr; rewrite length_pes_header; case_if; lia).
  set (x := drop (length hdr) (ts_payload p)).
  assert (Hpay : ts_payload p = hdr ++ x).
  { subst x. apply (f_equal (take (length hdr))) in Hfl. rewrite take_app_length, take_app_le in Hfl by lia.
    by rewrite <- Hfl at 1; rewrite take_drop. }
  assert (Hpl : x ++ flat_map ts_payload rest = pl).
  { rewrite Hpay, <- app_assoc in Hfl. by apply app_inv_head in Hfl. }
  assert (Hx : zlen x <= MAX_PES_BUFFER).
  { rewrite <- Hpl in Hmax. unfold zlen in *. rewrite length_app in Hmax. lia. }
  destruct (flush_pending (update_stream d i (set_continuity s cc)) i (set_continuity s cc) a w) as (F1 & F2 & F3);
    [cbn; apply list_lookup_insert_eq; by eapply lookup_lt_Some|done|done|done|].
  cbn [streams update_stream set_streams] in F1. rewrite list_insert_insert_eq in F1.
  destruct (es_first d pid cc p idx i s a (zlen pl) pts dts x) as (E1 & E2 & E3); try done.
  set (d1 := process_ts_packet d p) in *. pose proof E2 as (P1 & P2 & P3).
  rewrite Hra in E1.
  destruct (es_rest pid idx i pts dts kf a rest d1 (set_pes (set_continuity s cc) (holds pts dts kf a x)) x ((cc + 1) .& 0x0F))
    as (cc' & G1 & G2 & G3); try done.
  - by rewrite P2.
  - by rewrite P1.
  - rewrite E1. apply list_lookup_insert_eq. by eapply lookup_lt_Some.
  - by rewrite Hpl.
  - exists cc'. rewrite G1, E1, list_insert_insert_eq, Hpl. split_and!; [done| |].
    + by eapply same_program_trans.
    + by rewrite G3, E3, F3.
Qed.
End video.

(** ** Tables *)

#[local] Opaque crc32_mpeg2.

Lemma pid_13_written v : in_u 13 v -> pid_13 (0xE0 .| (as_u8 (v .>> 8) .& 0x1F)) (as_u8 v) = v.
Proof. intros Hv. unfold pid_13, be_value. cbn [fold_left]. rewrite Z.shiftl_0_l, Z.lor_0_l. bitblast. Qed.

Lemma length_12_written b v :
  b = 0xB0 \/ b = 0xF0 -> in_u 12 v -> length_12 (b .| (as_u8 (v .>> 8) .& 0x0F)) (as_u8 v) = v.
Proof.
  intros Hb Hv. unfold length_12, be_value. cbn [fold_left]. rewrite Z.shiftl_0_l, Z.lor_0_l.
  destruct Hb as [-> | ->]; bitblast.
Qed.

Section tables.
Context `{Memmem}.

Lemma process_pat d m cc pkt stuffing :
  in_u 13 (TsMux.pmt_pid m) -> ts_packet_ok PAT_PID true cc pkt ->
  ts_payload pkt = [0x00] ++ (pat_section m ++ crc_bytes (crc32_mpeg2 (pat_section m))) ++ stuffing ->
  process_ts_packet d pkt = set_pmt_pid d (Some (TsMux.pmt_pid m)).
Proof.
  intros Hpid (Hl & flags & pl & control & rest & -> & _ & _ & _ & Hp & Hfirst & Hcc) Hpay.
  unfold process_ts_packet. fold (pid_13 flags pl) in Hp. rewrite Hp, Hfirst.
  change (ts_payload (TS_SYNC_BYTE :: flags :: pl :: control :: rest))
    with (ts_payload (0x47 :: 0 :: 0 :: control :: rest)) in Hpay.
  rewrite packet_payload_ts by (rewrite Hpay; done). rewrite Hpay. cbn [app]. rewrite Z.eqb_refl.
  unfold parse_pat, section_after_pointer, pat_section, crc_bytes. cbn [app Z.to_nat].
  rewrite get_from_0. unfold first_chunk.
  match goal with |- context [get_to 8 ?l] => set (sec := l) end.
  assert (get_to 8 sec = Some (take 8 sec)) as -> by (unfold get_to; by destruct (Nat.leb_spec 8 (length sec)); [|cbn in *; lia]).
  cbn [take sec Z.eqb].
  change (length_12 176 13) with 13.
  assert (Nat.min (Z.to_nat 13 + 3) (length sec) - 4 = 12)%nat as -> by (subst sec; cbn [length]; lia).
  assert (get_range 8 12 sec = Some (take 4 (drop 8 sec))) as ->.
  { unfold get_range. by destruct (Nat.leb_spec 12 (length sec)); [|cbn in *; lia]. }
  cbn [take drop sec first_program]. change (negb (be_value [0; 1] =? 0)) with true. cbn iota.
  by rewrite pid_13_written.
Qed.

(** *** Reassembly of the section *)

Lemma pmt_section_complete_expected d : pmt_expected (pmt_section_complete d) = 0%nat.
Proof.
  unfold pmt_section_complete. destruct (pmt_stream_loop_bounds _ _) as [[a b]|]; [|done].
  destruct (pmt_buf d !! 5%nat); [|done]. destruct (negb _ || _ || _); [done|].
  destruct (bool_decide _); [done|]. unfold apply_pmt.
  destruct (drop_old _ _ _) as [c rm]. case_if; [|done].
  edestruct publish_probe_eq as [r ->]. done.
Qed.

Lemma pmt_ignored payloads d :
  pmt_expected d = 0%nat -> fold_left (fun d p => parse_pmt d p false) payloads d = d.
Proof.
  intros He. induction payloads as [|p ps IH]; [done|]. cbn [fold_left].
  assert (parse_pmt d p false = d) as ->; [|done]. unfold parse_pmt, pmt_start. by rewrite He.
Qed.

Lemma pmt_rest section stuffing : forall payloads d,
  length section = pmt_expected d -> (length (pmt_buf d) < pmt_expected d)%nat ->
  pmt_buf d ++ concat payloads = section ++ stuffing ->
  fold_left (fun d p => parse_pmt d p false) payloads d =
    pmt_section_complete (set_pmt_section d section (pmt_expected d)).
Proof.
  induction payloads as [|p ps IH]; intros d Hlen Hlt Hcat.
  - exfalso. apply (f_equal length) in Hcat. cbn in Hcat. rewrite !length_app in Hcat. cbn in Hcat. lia.
  - cbn [fold_left concat] in *. unfold parse_pmt at 2, pmt_start.
    destruct (Nat.ltb_spec 0 (pmt_expected d)); [|lia].
    set (n := Nat.min (length p) (pmt_expected d - length (pmt_buf d))).
    assert (get_to n p = Some (take n p)) as ->.
    { unfold get_to. by destruct (Nat.leb_spec n (length p)); [|lia]. }
    cbn [default from_option id pmt_buf pmt_expected set_pmt_section].
    rewrite length_app, length_take.
    destruct (Nat.ltb_spec (length (pmt_buf d) + Nat.min n (length p)) (pmt_expected d)).
    + rewrite IH; [done|done| |].
      * cbn. rewrite length_app, length_take. lia.
      * cbn. rewrite take_ge by lia. by rewrite <- app_assoc.
    + rewrite pmt_ignored by apply pmt_section_complete_expected. do 2 f_equal.
      apply (f_equal (take (length section))) in Hcat. rewrite take_app_length in Hcat. rewrite <- Hcat.
      rewrite take_app_ge by lia. f_equal. rewrite take_app_le by lia. f_equal. lia.
Qed.

Lemma pmt_reassembled d section stuffing p0 payloads h0 h1 tl :
  section = 0x02 :: h0 :: h1 :: tl -> 13 <= length_12 h0 h1 <= 1021 ->
  zlen section = length_12 h0 h1 + 3 -> (4 <= length p0)%nat ->
  concat (p0 :: payloads) = [0x00] ++ section ++ stuffing ->
  fold_left (fun d p => parse_pmt d p false) payloads (parse_pmt d p0 true) =
    pmt_section_complete (set_pmt_section d section (length section)).
Proof.
  intros Esec Hn Hlen Hp0 Hcat. cbn [concat] in Hcat.
  destruct p0 as [|z data]; [cbn in Hp0; lia|]. injection Hcat as -> Hcat.
  assert (Hd : exists t, data = 0x02 :: h0 :: h1 :: t).
  { rewrite Esec in Hcat. destruct data as [|x [|y [|w t]]]; cbn in Hp0; try lia.
    cbn [app] in Hcat. injection Hcat as -> -> -> _. by exists t. }
  unfold parse_pmt at 2, pmt_start, section_after_pointer. cbn [Z.to_nat]. rewrite get_from_0.
  assert (Hfc : first_chunk 3 data = Some [0x02; h0; h1]).
  { destruct Hd as [t ->]. by apply (get_to_app 3 [_; _; _]). }
  destruct data as [|x0 data0] eqn:Edata; [by destruct Hd|]. rewrite <- Edata in *. rewrite Hfc. cbn [Z.eqb Pos.eqb].
  destruct (Z.leb_spec 13 (length_12 h0 h1)); [|lia]. destruct (Z.leb_spec (length_12 h0 h1) 1021); [|lia].
  cbn [andb pmt_expected pmt_buf set_pmt_section length app].
  assert (Hexp : (Z.to_nat (length_12 h0 h1) + 3)%nat = length section) by (unfold zlen in Hlen; lia).
  rewrite Hexp, Nat.sub_0_r.
  set (n := Nat.min (length data) (length section)).
  assert (get_to n data = Some (take n data)) as ->.
  { unfold get_to. by destruct (Nat.leb_spec n (length data)); [|lia]. }
  cbn [default from_option id]. rewrite length_take.
  destruct (Nat.ltb_spec (Nat.min n (length data)) (length section)).
  - rewrite (pmt_rest section stuffing); [done|done| |]; cbn.
    + rewrite length_take. lia.
    + rewrite take_ge by lia. done.
  - rewrite pmt_ignored by apply pmt_section_complete_expected. do 2 f_equal.
    apply (f_equal (take (length section))) in Hcat. rewrite take_app_length in Hcat. rewrite <- Hcat.
    rewrite take_app_le by lia. f_equal. lia.
Qed.
End tables.

(** *** The entries of the section *)

(** The language a descriptor of the muxer says. *)
Definition written_language (c : MuxStreamConfig) : option string :=
  match stream_descriptors c with
  | [_; _; c0; c1; c2; _] => Some (string_of_bytes [c0; c1; c2])
  | _ => None
  end.

Definition lowercase_letter (b : Z) : Prop := 97 <= b <= 122.

Lemma written_letters l : Forall lowercase_letter (map byte_lowercase (List.filter is_ascii_alphabetic l)).
Proof.
  induction l as [|b l IH]; [constructor|]. cbn [List.filter]. destruct (is_ascii_alphabetic b) eqn:E; [|done].
  cbn [map]. constructor; [|done]. unfold is_ascii_alphabetic, byte_lowercase, lowercase_letter in *.
  destruct (Z.leb_spec 65 b), (Z.leb_spec b 90), (Z.leb_spec 97 b), (Z.leb_spec b 122); cbn in *; try done; lia.
Qed.

Lemma stream_descriptors_cases c :
  stream_descriptors c = [] \/
  exists c0 c1 c2, stream_descriptors c = [0x0A; 0x04; c0; c1; c2; 0x00] /\
    lowercase_letter c0 /\ lowercase_letter c1 /\ lowercase_letter c2.
Proof.
  unfold stream_descriptors, iso639_language_descriptor. destruct (ms_media_type c); [by left|].
  destruct (language c) as [l|]; [|by left].
  pose proof (written_letters (string_bytes l)) as Hl. set (fl := List.filter _ _) in *. clearbody fl.
  destruct fl as [|c0 [|c1 [|c2 fl]]]; try by left. right. cbn [take map] in *.
  repeat (apply Forall_cons in Hl as [? Hl]). eauto 10.
Qed.

Lemma letter_decode c : lowercase_letter c ->
  (c <=? 0x7F) = true /\ is_whitespace c = false /\ char_lowercase c = c /\ encode_char c = [c].
Proof.
  unfold lowercase_letter. intros Hc. split_and!.
  - lia.
  - unfold is_whitespace. destruct (Z.leb_spec c 13); [lia|]. repeat (apply orb_false_iff; split); lia.
  - unfold char_lowercase. destruct (Z.leb_spec c 90); [lia|]. by rewrite andb_false_r.
  - unfold encode_char. destruct (Z.leb_spec c 0x7F); [done|lia].
Qed.

Lemma from_utf8_letters c0 c1 c2 :
  lowercase_letter c0 -> lowercase_letter c1 -> lowercase_letter c2 ->
  from_utf8 [c0; c1; c2] = Some [c0; c1; c2].
Proof.
  intros H0 H1 H2. unfold from_utf8. cbn [length]. unfold decode_utf8, decode_char.
  rewrite (proj1 (letter_decode c0 H0)). cbn [mbind option_bind].
  rewrite (proj1 (letter_decode c1 H1)). cbn [mbind option_bind].
  rewrite (proj1 (letter_decode c2 H2)). done.
Qed.

Lemma parse_written_descriptors c :
  parse_stream_descriptors (stream_descriptors c) = mk_StreamDescriptors (written_language c) None.
Proof.
  unfold written_language. destruct (stream_descriptors_cases c) as [->|(c0 & c1 & c2 & -> & H0 & H1 & H2)]; [done|].
  destruct (letter_decode c0 H0) as (A1 & A2 & A3 & A4), (letter_decode c1 H1) as (B1 & B2 & B3 & B4),
    (letter_decode c2 H2) as (C1 & C2 & C3 & C4).
  transitivity (match from_utf8 [c0; c1; c2] with
                | Some l => match map char_lowercase (trim l) with
                            | [] => mk_StreamDescriptors None None
                            | l => mk_StreamDescriptors (Some (string_of_bytes (flat_map encode_char l))) None
                            end
                | None => mk_StreamDescriptors None None
                end); [reflexivity|].
  rewrite from_utf8_letters by done.
  unfold trim. cbn [trim_start]. rewrite A2.
  change (reverse [c0; c1; c2]) with [c2; c1; c0]. cbn [trim_start]. rewrite C2.
  change (reverse [c2; c1; c0]) with [c0; c1; c2]. cbn [map]. rewrite A3, B3, C3.
  cbn [flat_map]. rewrite A4, B4, C4. done.
Qed.

Definition mux_stream_ok (c : MuxStreamConfig) : Prop :=
  is_u8 (stream_type c) /\ in_u 13 (ms_pid c) /\
  exists k, from_stream_type (stream_type c) = Some k /\ kind_media_type k = ms_media_type c.

Lemma split_pmt_entry c rest :
  mux_stream_ok c ->
  exists pl ph ih il,
    split_first_chunk 5 (pmt_entry c ++ rest) =
      Some ([stream_type c; ph; pl; ih; il], stream_descriptors c ++ rest) /\
    pid_13 ph pl = ms_pid c /\
    split_at_checked (Z.to_nat (length_12 ih il)) (stream_descriptors c ++ rest) = Some (stream_descriptors c, rest).
Proof.
  intros (_ & Hp & _). do 4 eexists. split.
  { unfold pmt_entry, split_first_chunk. rewrite <- app_assoc. by apply split_at_checked_app. }
  split; [by apply pid_13_written|].
  rewrite length_12_written; [|by right|].
  - apply split_at_checked_app. unfold zlen. lia.
  - unfold in_u, zlen. destruct (stream_descriptors_cases c) as [->|(? & ? & ? & -> & _)]; cbn; lia.
Qed.

Lemma descriptors_written_valid c : descriptors_are_valid (stream_descriptors c) = true.
Proof. by destruct (stream_descriptors_cases c) as [->|(? & ? & ? & -> & _)]. Qed.

Lemma pmt_entry_length c : (5 <= length (pmt_entry c))%nat.
Proof. unfold pmt_entry. rewrite length_app. cbn [length]. lia. Qed.

Lemma entries_length cs : (length cs <= length (flat_map pmt_entry cs))%nat.
Proof.
  induction cs as [|c cs IH]; [done|]. cbn [flat_map length]. rewrite length_app.
  pose proof (pmt_entry_length c). lia.
Qed.

Lemma entries_written_valid fuel cs :
  Forall mux_stream_ok cs -> (length cs <= fuel)%nat -> entries_are_valid fuel (flat_map pmt_entry cs) = true.
Proof.
  intros Hcs. revert fuel. induction Hcs as [|c cs Hc _ IH]; intros fuel Hf; [by destruct fuel|].
  cbn [length flat_map] in *. destruct fuel as [|fuel]; [lia|]. cbn [entries_are_valid].
  destruct (split_pmt_entry c (flat_map pmt_entry cs) Hc) as (pl & ph & ih & il & E1 & _ & E2).
  assert (exists x y, pmt_entry c ++ flat_map pmt_entry cs = x :: y) as (x & y & Exy) by (unfold pmt_entry; cbn; eauto).
  rewrite Exy. cbn iota. rewrite <- Exy, E1, E2, descriptors_written_valid. apply IH. lia.
Qed.

(** One entry of the muxer's PMT. *)
Definition add_written (s : PmtState) (c : MuxStreamConfig) : PmtState :=
  match from_stream_type (stream_type c) with
  | Some kind => pmt_add_stream s kind (ms_pid c) (stream_descriptors c)
  | None => s
  end.

Lemma pmt_entries_written fuel cs s :
  Forall mux_stream_ok cs -> (length cs <= fuel)%nat ->
  pmt_entries_loop fuel (flat_map pmt_entry cs) s = fold_left add_written cs s.
Proof.
  intros Hcs. revert fuel s. induction Hcs as [|c cs Hc _ IH]; intros fuel s Hf; [by destruct fuel|].
  cbn [length flat_map fold_left] in *. destruct fuel as [|fuel]; [lia|]. cbn [pmt_entries_loop].
  destruct (split_pmt_entry c (flat_map pmt_entry cs) Hc) as (pl & ph & ih & il & E1 & E2 & E3).
  rewrite E1, E3, E2. apply IH. lia.
Qed.

(** The streams of a fresh demuxer behind the muxer's tables. *)
Fixpoint declared (audio : Z) (cs : list MuxStreamConfig) : list StreamInfo :=
  match cs with
  | [] => []
  | c :: cs' =>
      match from_stream_type (stream_type c) with
      | None => declared audio cs'
      | Some kind =>
          match kind_media_type kind with
          | Video => mk_StreamInfo (ms_pid c) kind 0 (written_language c) None CC_UNSET PesAccumulator_new
                       :: declared audio cs'
          | Audio => mk_StreamInfo (ms_pid c) kind audio (written_language c) None CC_UNSET PesAccumulator_new
                       :: declared (audio + 1) cs'
          end
      end
  end.

Definition is_video_config (c : MuxStreamConfig) : bool := bool_decide (ms_media_type c = Video).

(** The PID table of the declared streams, the first of them at [n]. *)
Fixpoint declared_pids (n : Z) (cs : list MuxStreamConfig) (pids : list Z) : list Z :=
  match cs with
  | [] => pids
  | c :: cs' => declared_pids (n + 1) cs' (<[Z.to_nat (ms_pid c) := n]> pids)
  end.

Lemma add_written_fold cs s :
  Forall mux_stream_ok cs -> ps_old s = ∅ ->
  (length (List.filter is_video_config cs) <= (if ps_has_video s then 0 else 1))%nat ->
  zlen (ps_streams s) + zlen cs < 65535 -> 0 <= ps_audio_counter s -> ps_audio_counter s + zlen cs < 65535 ->
  let s' := fold_left add_written cs s in
  ps_streams s' = ps_streams s ++ declared (ps_audio_counter s) cs /\
  ps_pids s' = declared_pids (zlen (ps_streams s)) cs (ps_pids s) /\ ps_old s' = ∅.
Proof.
  intros Hcs. revert s. induction Hcs as [|c cs Hc _ IH]; intros s Ho Hv Hl Ha Hal; cbn zeta.
  - cbn. by rewrite app_nil_r.
  - destruct Hc as (_ & _ & k & Hk & Hm). cbn [fold_left declared declared_pids]. rewrite zlen_cons in Hl, Hal.
    pose proof (zlen_nonneg cs). pose proof (zlen_nonneg (ps_streams s)).
    unfold add_written at 2 4 6. rewrite Hk. unfold pmt_add_stream. rewrite Ho, lookup_empty, parse_written_descriptors.
    cbn [List.filter] in Hv. unfold is_video_config at 1 in Hv. rewrite Hm.
    cbn [sd_language sd_title]. change (Z.of_nat (length (ps_streams s))) with (zlen (ps_streams s)).
    rewrite checked_u_Some by (unfold in_u; lia).
    destruct (ms_media_type c).
    + rewrite bool_decide_true by done. rewrite bool_decide_true in Hv by done. cbn [length] in Hv.
      destruct (ps_has_video s) eqn:Ev; [lia|]. cbn [andb orb].
      match goal with |- context [fold_left add_written cs ?x] => set (s1 := x) end.
      destruct (IH s1) as (E1 & E2 & E3); subst s1; cbn; try done; try lia.
      * unfold zlen in *. rewrite length_app. cbn. lia.
      * cbn in *. rewrite E1, E2, E3. rewrite <- app_assoc. split_and!; try done.
        f_equal. unfold zlen. rewrite length_app. cbn. lia.
    + rewrite (bool_decide_false (Audio = Video)) by done. rewrite bool_decide_false in Hv by done. cbn [andb orb].
      rewrite orb_false_r.
      match goal with |- context [fold_left add_written cs ?x] => set (s1 := x) end.
      assert (Hsat : sat_u 32 (ps_audio_counter s + 1) = ps_audio_counter s + 1) by (unfold sat_u; lia).
      destruct (IH s1) as (E1 & E2 & E3); subst s1; cbn; rewrite ?Hsat; try done; try lia.
      * unfold zlen in *. rewrite length_app. cbn. lia.
      * cbn in *. rewrite Hsat in E1, E2, E3. rewrite E1, E2, E3. rewrite <- app_assoc. split_and!; try done.
        f_equal. unfold zlen. rewrite length_app. cbn. lia.
Qed.

(** *** The whole section *)

Definition program_layout (m : TsMuxer) : bytes := [0xF0; 0x00] ++ flat_map pmt_entry (TsMux.streams m).

(** A muxer whose tables describe one program: at most one video stream, distinct PIDs
    off those of the tables, and a PMT that fits. *)
Definition program_ok (m : TsMuxer) : Prop :=
  mux_ok m /\ Forall mux_stream_ok (TsMux.streams m) /\
  (length (List.filter is_video_config (TsMux.streams m)) <= 1)%nat /\
  pmt_section_len m <= 1021 /\
  NoDup (map ms_pid (TsMux.streams m)) /\
  Forall (fun c => ms_pid c <> PAT_PID /\ ms_pid c <> SDT_PID /\ ms_pid c <> TsMux.pmt_pid m) (TsMux.streams m) /\
  TsMux.pmt_pid m <> PAT_PID /\ TsMux.pmt_pid m <> SDT_PID.

Lemma length_entries cs :
  length (flat_map pmt_entry cs) = sum_list_with (fun s => 5 + length (stream_descriptors s))%nat cs.
Proof.
  induction cs as [|c cs IH]; [done|]. cbn [flat_map sum_list_with]. rewrite length_app, IH.
  unfold pmt_entry. rewrite length_app. cbn [length]. lia.
Qed.

Lemma entries_bytes_ok cs : Forall mux_stream_ok cs -> bytes_ok (flat_map pmt_entry cs).
Proof.
  induction 1 as [|c cs (Ht & Hp & _) _ IH]; [constructor|]. cbn [flat_map]. apply bytes_ok_app. split; [|done].
  unfold pmt_entry. apply bytes_ok_app. split.
  - repeat (apply Forall_cons; split); try apply Forall_nil; try done; try (apply wrapu_range; lia);
      (apply lor_range; [unfold in_u; lia| |lia]; apply land_range_r; [unfold in_u; lia|lia]).
  - destruct (stream_descriptors_cases c) as [->|(c0 & c1 & c2 & -> & H0 & H1 & H2)]; [constructor|].
    unfold lowercase_letter in *. repeat (apply Forall_cons; split); try apply Forall_nil; try done; unfold in_u; lia.
Qed.

Lemma pmt_full_section_split m :
  exists h0 h1 p0 p1,
    pmt_full_section m =
      [0x02; h0; h1; 0x00; 0x01; 0xC1; 0x00; 0x00; p0; p1] ++ program_layout m
        ++ crc_bytes (crc32_mpeg2 (pmt_section m (pmt_section_len m))) /\
    h0 = 0xB0 .| (as_u8 (pmt_section_len m .>> 8) .& 0x0F) /\ h1 = as_u8 (pmt_section_len m).
Proof.
  do 4 eexists. split; [|done]. unfold pmt_full_section, pmt_section, program_layout. cbn [app]. reflexivity.
Qed.

Lemma length_full_section m : zlen (pmt_full_section m) = pmt_section_len m + 3.
Proof.
  unfold pmt_full_section, pmt_section, pmt_section_len, pmt_entry_size, zlen.
  rewrite !length_app, length_entries. cbn [length crc_bytes]. lia.
Qed.

Lemma pmt_full_section_crc m : program_ok m -> crc32_mpeg2 (pmt_full_section m) = 0.
Proof.
  intros (_ & Hs & _). unfold pmt_full_section. rewrite crc_bytes_be. apply crc32_append.
  unfold pmt_section. apply bytes_ok_app. split; [|by apply entries_bytes_ok].
  repeat (apply Forall_cons; split); try apply Forall_nil; try done; try (apply wrapu_range; lia);
    try (unfold in_u; lia); (apply lor_range; [unfold in_u; lia| |lia]; apply land_range_r; [unfold in_u; lia|lia]).
Qed.

Lemma get_range_middle {A} (l m r : list A) a b :
  a = length l -> b = (length l + length m)%nat -> get_range a b (l ++ m ++ r) = Some m.
Proof.
  intros -> ->. unfold get_range. rewrite !length_app.
  destruct (Nat.leb_spec (length l) (length l + length m)); [|lia].
  destruct (Nat.leb_spec (length l + length m) (length l + (length m + length r))); [|lia]. cbn [andb].
  rewrite drop_app_length. f_equal. rewrite take_app_le by lia. apply take_ge. lia.
Qed.

Lemma bounds_written m :
  program_ok m ->
  pmt_stream_loop_bounds (pmt_full_section m) (length (pmt_full_section m)) =
    Some (12, length (pmt_full_section m) - 4)%nat.
Proof.
  intros (_ & Hs & _). destruct (pmt_full_section_split m) as (h0 & h1 & p0 & p1 & E & _ & _).
  set (entries := flat_map pmt_entry (TsMux.streams m)).
  assert (Hlen : length (pmt_full_section m) = (16 + length entries)%nat).
  { rewrite E. unfold program_layout. fold entries. rewrite !length_app. cbn [length crc_bytes]. lia. }
  unfold pmt_stream_loop_bounds. rewrite Hlen.
  destruct (Nat.leb_spec 4 (16 + length entries)); [|lia]. cbn [mbind option_bind].
  destruct (Nat.ltb_spec (16 + length entries) (16 + length entries)); [lia|].
  destruct (Nat.ltb_spec (16 + length entries - 4) 12); [lia|]. cbn [orb].
  assert (get_range 10 12 (pmt_full_section m) = Some [0xF0; 0x00]) as ->.
  { rewrite E. unfold program_layout. rewrite <- app_assoc. by apply get_range_middle. }
  cbn [mbind option_bind]. change (first_chunk 2 [0xF0; 0x00]) with (Some [0xF0; 0x00]).
  cbn beta iota zeta. change (12 + Z.to_nat (length_12 0xF0 0x00))%nat with 12%nat.
  assert (get_range 12 12 (pmt_full_section m) = Some []) as ->.
  { unfold get_range. rewrite Hlen. destruct (Nat.leb_spec 12 (16 + length entries)); [|lia]. done. }
  cbn [mbind option_bind descriptors_are_valid descriptors_are_valid_loop length negb].
  assert (get_range 12 (16 + length entries - 4) (pmt_full_section m) = Some entries) as ->.
  { rewrite E. apply (get_range_middle [0x02; h0; h1; 0x00; 0x01; 0xC1; 0x00; 0x00; p0; p1; 0xF0; 0x00] entries);
      [done|]. cbn [length]. lia. }
  cbn [mbind option_bind]. subst entries. rewrite entries_written_valid; [done|done|apply entries_length].
Qed.

Lemma complete_written d m :
  program_ok m ->
  pmt_section_complete (set_pmt_section d (pmt_full_section m) (length (pmt_full_section m))) =
    let d1 := set_pmt_version (set_pmt_section d (pmt_full_section m) (length (pmt_full_section m))) 0 in
    if bool_decide (pmt_layout d = program_layout m) then set_pmt_section d1 [] 0
    else apply_pmt d1 (program_layout m) (flat_map pmt_entry (TsMux.streams m)).
Proof.
  intros Hm. unfold pmt_section_complete. cbn [pmt_buf pmt_expected set_pmt_section].
  rewrite bounds_written by done. destruct (pmt_full_section_split m) as (h0 & h1 & p0 & p1 & E & _ & _).
  assert (pmt_full_section m !! 5%nat = Some 0xC1) as -> by (by rewrite E).
  rewrite pmt_full_section_crc by done.
  assert (get_range 6 8 (pmt_full_section m) = Some [0; 0]) as ->.
  { rewrite E. by apply (get_range_middle [_; _; _; _; _; _] [0; 0] ([p0; p1] ++ _)). }
  rewrite (bool_decide_true (Some [0; 0] = Some [0; 0])) by done.
  change (negb (0 =? 0) || (0xC1 .& 1 =? 0) || negb true) with false. cbn iota.
  change ((0xC1 .>> 1) .& 0x1F) with 0. cbn zeta.
  set (n := (length (pmt_full_section m) - 4)%nat).
  assert (Hn : n = (12 + length (flat_map pmt_entry (TsMux.streams m)))%nat).
  { subst n. rewrite E. unfold program_layout. rewrite !length_app. cbn [length crc_bytes]. lia. }
  assert (get_range 10 n (pmt_full_section m) = Some (program_layout m)) as ->.
  { rewrite E. apply get_range_middle; [done|]. rewrite Hn. done. }
  assert (get_range 12 n (pmt_full_section m) = Some (flat_map pmt_entry (TsMux.streams m))) as ->.
  { rewrite E. apply (get_range_middle [0x02; h0; h1; 0x00; 0x01; 0xC1; 0x00; 0x00; p0; p1; 0xF0; 0x00]);
      [done|]. cbn [length]. lia. }
  done.
Qed.

(** *** The packets of the tables *)

Section process_tables.
Context `{Memmem}.

Lemma parse_pmt_pmt_pid d p s : pmt_pid (parse_pmt d p s) = pmt_pid d.
Proof.
  unfold parse_pmt.
  assert (Hst : pmt_pid (pmt_start d p s).1 = pmt_pid d).
  { unfold pmt_start. destruct s; [|by case_if]. destruct (section_after_pointer p) as [data|]; [|done].
    destruct (first_chunk 3 data) as [[|t [|h [|l [|]]]]|]; try done. destruct (t =? 2); [|done]. by destruct (_ && _). }
  destruct (pmt_start d p s) as [d1 [data|]]; cbn [fst] in Hst; [|done]. rewrite <- Hst.
  set (d2 := set_pmt_section _ _ _). change (pmt_pid d1) with (pmt_pid d2). case_if; [done|].
  unfold pmt_section_complete. destruct (pmt_stream_loop_bounds _ _) as [[a b]|]; [|done].
  destruct (pmt_buf d2 !! 5%nat); [|done]. destruct (negb _ || _ || _); [done|].
  destruct (bool_decide _); [done|]. unfold apply_pmt.
  destruct (drop_old _ _ _) as [c rm]. case_if; [|done]. edestruct publish_probe_eq as [r ->]. done.
Qed.

Lemma process_pmt_rest pid pkts : forall d cc,
  packets_ok pid false cc pkts -> Forall (fun p => length (ts_payload p) = 184%nat) pkts ->
  pid <> PAT_PID -> pmt_pid d = Some pid ->
  fold_left process_ts_packet pkts d =
    fold_left (fun d p => parse_pmt d p false) (map ts_payload pkts) d.
Proof.
  induction pkts as [|p pkts IH]; intros d cc Hp Hl Hpat Hpid; [done|]. cbn [packets_ok fold_left map] in *.
  destruct Hp as [Hp Hps]. apply Forall_cons in Hl as [Hl1 Hl].
  assert (ts_payload p <> []) by (intros E; by rewrite E in Hl1).
  rewrite (process_pmt d pid false cc p) by done. eapply IH; try done. by rewrite parse_pmt_pmt_pid.
Qed.

(** A PMT of the muxer, whatever the state of the section buffer. *)
Lemma process_pmt_packets m d cc pkts :
  program_ok m -> packets_ok (TsMux.pmt_pid m) true cc pkts ->
  Forall (fun p => length (ts_payload p) = 184%nat) pkts ->
  (exists stuffing, flat_map ts_payload pkts = [0x00] ++ pmt_full_section m ++ stuffing) ->
  pmt_pid d = Some (TsMux.pmt_pid m) ->
  fold_left process_ts_packet pkts d =
    pmt_section_complete (set_pmt_section d (pmt_full_section m) (length (pmt_full_section m))).
Proof.
  intros Hm Hp Hl [st Hfl] Hpid. pose proof Hm as (_ & _ & _ & Hlen & _ & _ & Hpat & _).
  destruct pkts as [|p pkts]; [done|]. cbn [packets_ok fold_left] in *.
  destruct Hp as [Hp Hps]. apply Forall_cons in Hl as [Hl1 Hl].
  assert (ts_payload p <> []) by (intros E; by rewrite E in Hl1).
  rewrite (process_pmt d _ true cc p) by done.
  rewrite (process_pmt_rest (TsMux.pmt_pid m) pkts _ ((cc + 1) .& 0x0F)); [|done..|by rewrite parse_pmt_pmt_pid].
  destruct (pmt_full_section_split m) as (h0 & h1 & p0 & p1 & E & -> & ->).
  assert (H13 : 13 <= pmt_section_len m) by (unfold pmt_section_len; lia).
  pose proof (length_full_section m) as Hzl.
  assert (Hl12 : length_12 (0xB0 .| (as_u8 (pmt_section_len m .>> 8) .& 0x0F)) (as_u8 (pmt_section_len m))
    = pmt_section_len m) by (apply length_12_written; [by left|unfold in_u; lia]).
  eapply (pmt_reassembled d (pmt_full_section m) st); [rewrite E; reflexivity| | | |].
  - lia.
  - lia.
  - rewrite Hl1. lia.
  - cbn [concat]. rewrite <- Hfl, flat_map_concat_map. done.
Qed.

Lemma process_sdts d sdts :
  Forall (fun p => exists cc, ts_packet_ok SDT_PID true cc p) sdts ->
  pmt_pid d <> Some SDT_PID -> pid_to_stream d !! Z.to_nat SDT_PID = Some NO_STREAM ->
  fold_left process_ts_packet sdts d = d.
Proof.
  intros Hs Hp Hn. induction Hs as [|p sdts [cc Hc] _ IH]; [done|]. cbn [fold_left].
  by rewrite (process_other d SDT_PID true cc p).
Qed.

(** Tables the demuxer knows leave everything as it is. *)
Lemma process_tables_again m d tables :
  program_ok m -> tables_spec m tables -> pmt_pid d = Some (TsMux.pmt_pid m) ->
  pmt_layout d = program_layout m -> pid_to_stream d !! Z.to_nat SDT_PID = Some NO_STREAM ->
  let d' := fold_left process_ts_packet tables d in
  streams d' = streams d /\ same_program d d' /\ output d' = output d.
Proof.
  intros Hm [->|(pat & pmts & sdts & cc & cc' & st & -> & Hpat & Hpay & Hpmt & H184 & Hfl & Hsdt)] Hpid Hlay Hn;
    [done|].
  pose proof Hm as ((_ & _ & _ & _ & _ & _ & Hp13 & _) & _ & _ & Hlen & _ & _ & _ & Hsd). cbn [fold_left].
  rewrite (process_pat d m cc pat st) by done. rewrite fold_left_app.
  set (d1 := set_pmt_pid d _).
  rewrite (process_pmt_packets m d1 cc' pmts); [|done|done|done|by apply Hfl|done].
  rewrite complete_written by done. cbn zeta.
  rewrite bool_decide_true by exact Hlay.
  rewrite process_sdts; [|done| |exact Hn].
  - cbn. split_and!; done.
  - cbn. congruence.
Qed.

Lemma declared_pids_other n cs pids p :
  p ∉ map ms_pid cs -> Forall (fun c => 0 <= ms_pid c) cs -> 0 <= p ->
  declared_pids n cs pids !! Z.to_nat p = pids !! Z.to_nat p.
Proof.
  revert n pids. induction cs as [|c cs IH]; intros n pids Hp Hc H0; [done|]. cbn [declared_pids map] in *.
  apply not_elem_of_cons in Hp as [Hne Hp]. apply Forall_cons in Hc as [Hc1 Hc].
  rewrite IH by done. rewrite list_lookup_insert_ne; [done|]. intros Heq. apply Hne. lia.
Qed.

Lemma declared_pids_lookup n cs pids j c :
  NoDup (map ms_pid cs) -> Forall (fun c => in_u 13 (ms_pid c)) cs -> length pids = PID_COUNT ->
  cs !! j = Some c -> declared_pids n cs pids !! Z.to_nat (ms_pid c) = Some (n + Z.of_nat j).
Proof.
  revert n pids j. induction cs as [|c' cs IH]; intros n pids j Hnd Hr Hl Hj; [done|].
  cbn [declared_pids map] in *. apply NoDup_cons in Hnd as [Hni Hnd]. apply Forall_cons in Hr as [Hr1 Hr].
  assert (Hpos : Forall (fun c => 0 <= ms_pid c) cs).
  { eapply Forall_impl; [exact Hr|]. unfold in_u. cbn. lia. }
  destruct j as [|j].
  - injection Hj as ->. rewrite declared_pids_other by (done || (unfold in_u in Hr1; lia)).
    rewrite list_lookup_insert_eq; [f_equal; lia|]. rewrite Hl. pose proof PID_COUNT_val. unfold in_u in Hr1. lia.
  - cbn in Hj. rewrite (IH _ _ j); [f_equal; lia|done|done|by rewrite length_insert|done].
Qed.

Lemma program_stream_count m : program_ok m -> zlen (TsMux.streams m) < 1024.
Proof.
  intros (_ & _ & _ & Hl & _). unfold pmt_section_len, pmt_entry_size in Hl. rewrite <- length_entries in Hl.
  pose proof (entries_length (TsMux.streams m)). unfold zlen. lia.
Qed.

(** The tables of a muxer give a fresh demuxer its streams. *)
Lemma process_tables_fresh m tables :
  program_ok m -> tables_spec m tables -> tables <> [] ->
  let d := fold_left process_ts_packet tables TsDemuxer_new in
  streams d = declared 0 (TsMux.streams m) /\
  pid_to_stream d = declared_pids 0 (TsMux.streams m) (replicate PID_COUNT NO_STREAM) /\
  pmt_pid d = Some (TsMux.pmt_pid m) /\ pmt_layout d = program_layout m /\ output d = [].
Proof.
  intros Hm [->|(pat & pmts & sdts & cc & cc' & st & -> & Hpat & Hpay & Hpmt & H184 & Hfl & Hsdt)] Hne;
    [done|].
  pose proof Hm as ((_ & _ & _ & _ & _ & _ & Hp13 & _) & Hcs & Hv & Hlen & _ & Hpids & _ & Hsd). cbn [fold_left].
  rewrite (process_pat _ m cc pat st) by done. rewrite fold_left_app. set (d1 := set_pmt_pid _ _).
  rewrite (process_pmt_packets m d1 cc' pmts); [|done|done|done|by apply Hfl|done].
  rewrite complete_written by done. cbn zeta.
  rewrite bool_decide_false by (unfold program_layout; done).
  set (d2 := set_pmt_version _ _).
  assert (Hap : let d3 := apply_pmt d2 (program_layout m) (flat_map pmt_entry (TsMux.streams m)) in
    streams d3 = declared 0 (TsMux.streams m) /\
    pid_to_stream d3 = declared_pids 0 (TsMux.streams m) (replicate PID_COUNT NO_STREAM) /\
    pmt_pid d3 = Some (TsMux.pmt_pid m) /\ pmt_layout d3 = program_layout m /\ output d3 = []).
  { cbn zeta. unfold apply_pmt. rewrite pmt_entries_written by (done || apply entries_length).
    pose proof (program_stream_count m Hm) as Hc.
    match goal with |- context [fold_left add_written _ ?x] => set (s0 := x) end.
    assert (Z1 : zlen (ps_streams s0) = 0) by done. assert (Z2 : ps_audio_counter s0 = 0) by done.
    destruct (add_written_fold (TsMux.streams m) s0) as (E1 & E2 & E3); try done; [lia..|].
    set (s1 := fold_left _ _ _) in *. rewrite E3.
    destruct (drop_old _ _ _) as [c rm]. case_if; [edestruct publish_probe_eq as [r ->]|];
      cbn [streams pid_to_stream pmt_pid pmt_layout output set_probe_result];
      rewrite E1, E2; (split_and!; try done; by case_if). }
  destruct Hap as (A1 & A2 & A3 & A4 & A5). rewrite process_sdts; [done|done| |].
  - rewrite A3. congruence.
  - rewrite A2, declared_pids_other.
    + rewrite lookup_replicate_2; [done|]. pose proof PID_COUNT_val. unfold SDT_PID. lia.
    + rewrite list_elem_of_In, in_map_iff. intros (c & Ec & Hc). rewrite Forall_forall in Hpids.
      apply list_elem_of_In in Hc. by destruct (Hpids c Hc) as (_ & ? & _).
    + eapply Forall_impl; [exact Hcs|]. intros c (_ & Hp & _). unfold in_u in Hp. lia.
    + unfold SDT_PID. lia.
Qed.
End process_tables.

(** ** A muxer and a demuxer in step *)

Lemma audio_streams_ok pid tracks :
  0x100 <= pid -> pid + zlen tracks <= 0x1000 ->
  Forall (fun c => mux_stream_ok c /\ pid <= ms_pid c < 0x1000 /\ ms_media_type c = Audio) (audio_streams pid tracks) /\
  NoDup (map ms_pid (audio_streams pid tracks)) /\ length (audio_streams pid tracks) = length tracks.
Proof.
  revert pid. induction tracks as [|t tracks IH]; intros pid Hp Hn; [split_and!; constructor|].
  rewrite zlen_cons in Hn. pose proof (zlen_nonneg tracks). cbn [audio_streams length map].
  rewrite wrapu_id by (unfold in_u; lia). destruct (IH (pid + 1)) as (I1 & I2 & I3); [lia|lia|].
  split_and!; [| |by rewrite I3].
  - constructor.
    + split_and!; [|cbn; lia|cbn; lia|done]. unfold mux_stream_ok. cbn. split_and!; [unfold in_u, STREAM_TYPE_AAC_ADTS; lia|unfold in_u; lia|].
      by exists KindAacAdts.
    + eapply Forall_impl; [exact I1|]. cbn. intros c (? & ? & ?). split_and!; try done; lia.
  - cbn. apply NoDup_cons. split; [|done]. rewrite list_elem_of_In, in_map_iff. intros (c & Ec & Hc).
    rewrite Forall_forall in I1. apply list_elem_of_In in Hc. destruct (I1 c Hc) as (_ & ? & _). lia.
Qed.

(** The codec the muxer announces for a video. *)
Definition written_kind (v : VideoMeta) : StreamKind :=
  if bool_decide (vm_codec v = "h264"%string) then KindH264
  else if bool_decide (vm_codec v = "hevc"%string) then KindH265 else KindH264.

Lemma no_video_filter cs :
  Forall (fun c => ms_media_type c = Audio) cs -> List.filter is_video_config cs = [].
Proof.
  induction 1 as [|c cs Hc _ IH]; [done|]. cbn [List.filter]. unfold is_video_config at 1.
  by rewrite Hc, bool_decide_false.
Qed.

Lemma entry_size_bound cs :
  (sum_list_with (fun s => 5 + length (stream_descriptors s))%nat cs <= 11 * length cs)%nat.
Proof.
  induction cs as [|c cs IH]; [done|]. cbn [sum_list_with length].
  destruct (stream_descriptors_cases c) as [E|(? & ? & ? & E & _)]; rewrite E; cbn [length]; lia.
Qed.

Lemma new_program_ok v tracks md :
  zlen tracks <= 90 ->
  let m := new_with_metadata (Some v) tracks md in
  program_ok m /\ last_pat_pmt_dts m = None /\ last_dts_90k m !! 0%nat = Some i64_MIN /\
  exists c cs, TsMux.streams m = c :: cs /\ ms_media_type c = Video /\ ms_track_index c = 0 /\
    from_stream_type (stream_type c) = Some (written_kind v) /\
    Forall (fun c => ms_media_type c = Audio) cs.
Proof.
  intros Hn. cbn zeta. pose proof (new_with_metadata_ok (Some v) tracks md ltac:(lia)) as Hok.
  destruct (audio_streams_ok 0x101 tracks) as (A1 & A2 & A3); [lia|lia|].
  unfold new_with_metadata in *. change (as_u16 (0x100 + 1)) with 0x101 in *. cbn zeta in *.
  set (st := if bool_decide (vm_codec v = "h264"%string) then _ else _) in *.
  assert (Hst : from_stream_type st = Some (written_kind v) /\ is_u8 st).
  { subst st. unfold written_kind. repeat case_if; (split; [done|unfold in_u, STREAM_TYPE_H264, STREAM_TYPE_H265; lia]). }
  set (c := mk_MuxStreamConfig st 0x100 Video 0 0 None) in *.
  assert (Haud : Forall (fun c => ms_media_type c = Audio) (audio_streams 0x101 tracks)).
  { eapply Forall_impl; [exact A1|]. by intros ? (_ & _ & ?). }
  split; [|split_and!; [done|done|exists c, (audio_streams 0x101 tracks); split_and!; try done; apply Hst]].
  unfold program_ok. cbn [TsMux.streams TsMux.pmt_pid] in *. split_and!; try done.
  - constructor; [|eapply Forall_impl; [exact A1|]; by intros ? (? & _)].
    unfold mux_stream_ok. cbn. split_and!; [apply Hst|unfold in_u; lia|].
    exists (written_kind v). split; [apply Hst|]. unfold written_kind. by repeat case_if.
  - cbn [List.filter]. rewrite no_video_filter by done. by case_if.
  - unfold pmt_section_len, pmt_entry_size. cbn [TsMux.streams sum_list_with].
    pose proof (entry_size_bound (audio_streams 0x101 tracks)). unfold zlen in Hn.
    change (length (stream_descriptors c)) with 0%nat. lia.
  - cbn [map]. apply NoDup_cons. split; [|done]. rewrite list_elem_of_In, in_map_iff. intros (c' & Ec & Hc).
    rewrite Forall_forall in A1. apply list_elem_of_In in Hc. destruct (A1 c' Hc) as (_ & ? & _). cbn in Ec. lia.
  - constructor; [done|]. eapply Forall_impl; [exact A1|]. cbn. unfold PAT_PID, SDT_PID. intros c' (_ & ? & _). lia.
Qed.

Section steps.
Context `{Memmem}.

Definition idle_stream (s : StreamInfo) : Prop := exists a, si_pes s = idle a.

(** The demuxer knows the muxer's program; the video, stream 0, has [w] waiting. *)
Definition synced (m : TsMuxer) (kind : StreamKind) (d : TsDemuxer) (w : Waiting) : Prop :=
  program_ok m /\ pmt_pid d = Some (TsMux.pmt_pid m) /\ pmt_layout d = program_layout m /\
  pid_to_stream d !! Z.to_nat SDT_PID = Some NO_STREAM /\
  exists c s a rest,
    TsMux.streams m !! 0%nat = Some c /\ pid_to_stream d !! Z.to_nat (ms_pid c) = Some 0 /\
    streams d = s :: rest /\ si_kind s = kind /\ is_video kind /\ si_track_index s = 0 /\
    si_pes s = pending_pes a w /\ pending_ok w /\ Forall idle_stream rest.

Lemma declared_idle audio cs : Forall idle_stream (declared audio cs).
Proof.
  revert audio. induction cs as [|c cs IH]; intros audio; [constructor|]. cbn [declared].
  destruct (from_stream_type _) as [k|]; [|done]. destruct (kind_media_type k); constructor; try done; by eexists.
Qed.

(** The tables of the first packet. *)
Lemma synced_fresh m kind tables c cs :
  program_ok m -> tables_spec m tables -> tables <> [] -> TsMux.streams m = c :: cs ->
  from_stream_type (stream_type c) = Some kind -> is_video kind ->
  let d := fold_left process_ts_packet tables TsDemuxer_new in
  synced m kind d None /\ output d = [].
Proof.
  intros Hm Ht Hne Hc Hk Hv. destruct (process_tables_fresh m tables Hm Ht Hne) as (A1 & A2 & A3 & A4 & A5).
  cbn zeta. set (d := fold_left _ _ _) in *. split; [|done]. split_and!; try done.
  - rewrite A2. pose proof Hm as (_ & Hcs & _ & _ & _ & Hpids & _). rewrite declared_pids_other.
    + rewrite lookup_replicate_2; [done|]. pose proof PID_COUNT_val. unfold SDT_PID. lia.
    + rewrite list_elem_of_In, in_map_iff. intros (c' & Ec & Hc'). rewrite Forall_forall in Hpids.
      apply list_elem_of_In in Hc'. by destruct (Hpids c' Hc') as (_ & ? & _).
    + eapply Forall_impl; [exact Hcs|]. intros c' (_ & Hp & _). unfold in_u in Hp. lia.
    + unfold SDT_PID. lia.
  - pose proof Hm as (_ & Hcs & _ & _ & Hnd & _).
    assert (Hdec : declared 0 (c :: cs) = mk_StreamInfo (ms_pid c) kind 0 (written_language c) None CC_UNSET PesAccumulator_new
                       :: declared 0 cs).
    { cbn [declared]. rewrite Hk. unfold is_video in Hv. by rewrite Hv. }
    exists c. do 3 eexists. rewrite Hc in *. rewrite A1, Hdec. split_and!; try done.
    + rewrite A2. rewrite (declared_pids_lookup 0 (c :: cs) _ 0 c); [done|done| |apply length_replicate|done].
      eapply Forall_impl; [exact Hcs|]. by intros c' (_ & ? & _).
    + apply declared_idle.
Qed.

Lemma synced_again m kind d w tables :
  synced m kind d w -> tables_spec m tables ->
  let d' := fold_left process_ts_packet tables d in synced m kind d' w /\ output d' = output d.
Proof.
  intros (S1 & S2 & S3 & S4 & c & s & a & rest & S5 & S6 & S7 & S8) Ht. cbn zeta.
  destruct (process_tables_again m d tables S1 Ht S2 S3 S4) as (E1 & (E2 & E3 & E4) & E5).
  split; [|done]. unfold synced. rewrite E2, E3, E4, E1. split_and!; try done.
  exists c, s, a, rest. done.
Qed.

(** The packets of one more video PES. *)
Lemma synced_pes m m' kind d w c cc pkts pts dts kf pl :
  synced m kind d w -> TsMux.streams m !! 0%nat = Some c ->
  mux_ok m' -> TsMux.streams m' = TsMux.streams m -> TsMux.pmt_pid m' = TsMux.pmt_pid m ->
  packets_ok (ms_pid c) true cc pkts ->
  (let hdr := pes_header Video pts dts (zlen pl) in
   flat_map ts_payload pkts = hdr ++ pl /\
   exists p rest, pkts = p :: rest /\ (Nat.min (length hdr + length pl) 176 <= length (ts_payload p))%nat) ->
  Forall (fun p => ts_payload p <> []) pkts ->
  map ts_random_access pkts = match pkts with [] => [] | _ :: rest => kf :: map (fun _ => false) rest end ->
  zlen pl <= MAX_PES_BUFFER -> pl <> [] ->
  let d' := fold_left process_ts_packet pkts d in
  synced m' kind d' (Some (pts, dts, kf, pl)) /\ output d' = output d ++ pending_out kind 0 w.
Proof.
  intros (S1 & S2 & S3 & S4 & c' & s & a & rest & S5 & S6 & S7 & S8 & S9 & S10 & S11 & S12 & S13) Hc Hok' Hs Hp
    Hpk Hfl Hne Hra Hmax Hpl. cbn zeta. rewrite Hc in S5. injection S5 as <-.
  pose proof S1 as (_ & P2 & P3 & P4 & P5 & P6 & P7 & P8).
  assert (Hpid : ms_pid c <> PAT_PID /\ ms_pid c <> TsMux.pmt_pid m).
  { rewrite Forall_lookup in P6. by destruct (P6 _ _ Hc) as (? & _ & ?). }
  destruct (es_pes d (ms_pid c) cc pkts 0 0 s a w pts dts kf pl) as (cc' & E1 & (E2 & E3 & E4) & E5); try done.
  - by destruct Hpid.
  - rewrite S2. intros [= E]. by destruct Hpid.
  - by rewrite S7.
  - by rewrite S8.
  - rewrite S7 in E1. cbn in E1. rewrite S8, S10 in E5. split; [|done]. unfold synced.
    rewrite E2, E3, E4, Hs, Hp. split_and!; try done.
    + unfold program_ok, pmt_section_len, pmt_entry_size in *. rewrite Hs, Hp. done.
    + unfold program_layout in *. by rewrite Hs.
    + exists c. do 3 eexists. rewrite E1. split_and!; try done.
Qed.

(** The end of the stream. *)
Lemma synced_flush m kind d w :
  synced m kind d w -> output (flush d) = output d ++ pending_out kind 0 w.
Proof.
  intros (_ & _ & _ & _ & c & s & a & rest & _ & _ & Es & Hk & Hv & Ht & Hp & Hw & Hidle).
  unfold flush. rewrite Es. cbn [length seq fold_left].
  destruct (flush_pending d 0 s a w) as (F1 & _ & F3); [by rewrite Es|by rewrite Hk|done|done|].
  rewrite Es in F1. cbn in F1. rewrite Hk, Ht in F3. rewrite <- F3.
  set (d1 := flush_pes d 0) in *. clearbody d1.
  assert (Hgo : forall l, Forall (fun i => exists t a', streams d1 !! i = Some t /\ si_pes t = idle a') l ->
    fold_left flush_pes l d1 = d1).
  { induction 1 as [|i l (t & a' & Hi & Hi') _ IH]; [done|]. cbn [fold_left].
    by rewrite (flush_idle d1 i t a'). }
  rewrite Hgo; [done|]. apply Forall_forall. intros i Hi. apply elem_of_seq in Hi.
  destruct (lookup_lt_is_Some_2 rest (i - 1)) as [t Ht']; [lia|].
  rewrite Forall_lookup in Hidle. destruct (Hidle _ _ Ht') as [a' Ha'].
  exists t, a'. split; [|done]. rewrite F1. destruct i as [|i]; [lia|]. cbn. by replace (S i - 1)%nat with i in Ht' by lia.
Qed.
End steps.

(** *** A sequence of video packets *)

Fixpoint mux_video (m : TsMuxer) (ps : list (PacketMeta * bytes)) (out : bytes) : option (TsMuxer * bytes) :=
  match ps with
  | [] => Some (m, out)
  | (meta, pl) :: ps' =>
      '(m, out) ← mux_packet_into m Video 0 meta pl out;
      mux_video m ps' out
  end.

(** Decoding times increase from [last] on, no packet is presented before it is decoded,
    and every time fits the 33-bit clock. *)
Fixpoint well_timed (last : Z) (ps : list (PacketMeta * bytes)) : Prop :=
  match ps with
  | [] => True
  | (meta, _) :: ps' =>
      last < dts_ms meta <= pts_ms meta /\ 0 <= dts_ms meta /\ 90 * pts_ms meta < 2 ^ 33 /\
      well_timed (dts_ms meta) ps'
  end.
Definition video_payload_ok (p : PacketMeta * bytes) : Prop := p.2 <> [] /\ zlen p.2 <= MAX_PES_BUFFER.

Section sequence.
Context `{Memmem}.

(** The packet that comes back. *)
Definition received (kind : StreamKind) (p : PacketMeta * bytes) : MediaPacket :=
  mk_MediaPacket Video Raw
    (match kind with
     | KindH264 => pm_is_keyframe p.1 || h264_is_keyframe p.2
     | KindH265 => h265_is_keyframe p.2
     | _ => false
     end) 0 (pts_ms p.1) (dts_ms p.1) p.2.

Definition waiting (p : PacketMeta * bytes) : Waiting :=
  Some (90 * pts_ms p.1, 90 * dts_ms p.1, pm_is_keyframe p.1, p.2).

Lemma waiting_out kind p :
  0 <= dts_ms p.1 <= pts_ms p.1 -> 90 * pts_ms p.1 < 2 ^ 33 -> pending_out kind 0 (waiting p) = [received kind p].
Proof.
  intros Hd Hp. unfold waiting, pending_out, video_packet, received.
  rewrite !wrapu_id by (unfold in_u; lia). unfold ts_to_ms.
  rewrite !(Z.mul_comm 90), !Z.quot_mul by done. done.
Qed.

(** Times that increase go on the wire as they are. *)
Lemma next_timestamps_id last p d :
  last = i64_MIN \/ (exists l, last = 90 * l /\ l < d) -> 0 <= d <= p -> 90 * p < 2 ^ 33 ->
  next_timestamps (Some last) p d = (90 * p, 90 * d).
Proof.
  intros Hl Hd Hp. unfold next_timestamps, ms_to_ts.
  rewrite !(as_i64_id (_ * 90)) by (unfold in_i; lia).
  destruct (Z.leb_spec (d * 90) last) as [Hle|_]; [destruct Hl as [->|(l & -> & ?)]; lia|].
  destruct (Z.ltb_spec (p * 90) (d * 90)); [lia|]. f_equal; lia.
Qed.

Definition last_ok (m : TsMuxer) (last : Z) : Prop :=
  exists x, last_dts_90k m !! 0%nat = Some x /\ (x = i64_MIN /\ last < 0 \/ x = 90 * last).

(** One more packet: the muxer writes whole packets which leave the demuxer with that
    packet waiting. *)
Lemma mux_step m kind c cs d w last meta pl out :
  (synced m kind d w \/
   (d = TsDemuxer_new /\ w = None /\ program_ok m /\ last_pat_pmt_dts m = None /\
    from_stream_type (stream_type c) = Some kind /\ is_video kind)) ->
  TsMux.streams m = c :: cs -> ms_media_type c = Video -> ms_track_index c = 0 ->
  last_ok m last -> well_timed last [(meta, pl)] -> video_payload_ok (meta, pl) ->
  exists m' pkts,
    mux_packet_into m Video 0 meta pl out = Some (m', out ++ concat pkts) /\ whole_packets pkts /\
    let d' := fold_left process_ts_packet pkts d in
    synced m' kind d' (waiting (meta, pl)) /\ output d' = output d ++ pending_out kind 0 w /\
    TsMux.streams m' = c :: cs /\ last_ok m' (dts_ms meta).
Proof.
  intros Hst Hcs Hcv Hct (x & Hx & Hlast) (Ht1 & Ht2 & Ht3 & _) [Hne Hmax]. cbn [fst snd] in *.
  assert (Hm : program_ok m) by (destruct Hst as [[? _]|(_ & _ & ? & _)]; done).
  assert (Hidx : stream_index m Video 0 = Some 0%nat).
  { unfold stream_index. rewrite Hcs. cbn [position]. rewrite Hcv, Hct. by rewrite bool_decide_true. }
  unfold mux_packet_into. rewrite Hidx.
  destruct (mux_packet_at_ok m 0 c Video meta pl out) as (m' & cc & tables & pkts & E & Hok' & Htab & Hdue & _ & Hpk & Hts
    & Hpne & Hra & Es & _ & Epmt); [by destruct Hm|by rewrite Hcs|done|].
  rewrite Hx, next_timestamps_id in Hts; [|destruct Hlast as [[-> _]| ->]; [by left|right; exists last; lia]|lia|lia].
  destruct Hts as (Hfl & Hfirst & Hl').
  exists m', (tables ++ pkts). split; [done|]. split.
  { apply Forall_app. split; [by eapply tables_spec_whole|by eapply packets_ok_whole]. }
  cbn zeta. rewrite fold_left_app.
  assert (Hd1 : synced m kind (fold_left process_ts_packet tables d) w /\
    output (fold_left process_ts_packet tables d) = output d).
  { destruct Hst as [Hs|(-> & -> & _ & Hnone & Hk & Hv)]; [by apply synced_again|].
    eapply (synced_fresh m kind tables c cs); try done. apply Hdue. unfold tables_due. by rewrite Hnone. }
  destruct Hd1 as [Hd1 Ho1].
  destruct (synced_pes m m' kind (fold_left process_ts_packet tables d) w c cc pkts (90 * pts_ms meta) (90 * dts_ms meta)
    (pm_is_keyframe meta) pl) as [S1 S2]; try done; [by rewrite Hcs|].
  rewrite Ho1 in S2. split_and!; try done; [by rewrite Es|].
  exists (90 * dts_ms meta). split; [|by right]. rewrite Hl'.
  rewrite list_lookup_insert_eq by (by eapply lookup_lt_Some).
  unfold packet_span_end_90k. rewrite Hcs. cbn. by rewrite Hcv, bool_decide_false.
Qed.

Lemma mux_sequence kind c cs : forall ps m d p0 last out,
  synced m kind d (waiting p0) -> 0 <= dts_ms p0.1 <= pts_ms p0.1 -> 90 * pts_ms p0.1 < 2 ^ 33 ->
  TsMux.streams m = c :: cs -> ms_media_type c = Video -> ms_track_index c = 0 ->
  last_ok m last -> well_timed last ps -> Forall video_payload_ok ps ->
  exists m' pkts,
    mux_video m ps out = Some (m', out ++ concat pkts) /\ whole_packets pkts /\
    output (flush (fold_left process_ts_packet pkts d)) = output d ++ map (received kind) (p0 :: ps).
Proof.
  induction ps as [|[meta pl] ps IH]; intros m d p0 last out Hs Hp1 Hp2 Hcs Hcv Hct Hl Ht Hok.
  - exists m, []. cbn [mux_video concat fold_left map]. rewrite app_nil_r. split_and!; [done|constructor|].
    erewrite synced_flush by exact Hs. by rewrite waiting_out.
  - apply Forall_cons in Hok as [Hok1 Hok]. destruct Ht as (T1 & T2 & T3 & T4).
    destruct (mux_step m kind c cs d (waiting p0) last meta pl out) as (m1 & pkts1 & E1 & W1 & S1 & O1 & C1 & L1);
      [by left|done..|].
    destruct (IH m1 (fold_left process_ts_packet pkts1 d) (meta, pl) (dts_ms meta) (out ++ concat pkts1))
      as (m2 & pkts2 & E2 & W2 & O2); try done; [cbn; lia|].
    exists m2, (pkts1 ++ pkts2). cbn [mux_video]. rewrite E1. cbn [mbind option_bind].
    rewrite E2, concat_app, app_assoc. split_and!; [done|by apply Forall_app|].
    rewrite fold_left_app, O2, O1, waiting_out by done. cbn [map]. by rewrite <- app_assoc.
Qed.
End sequence.

(** Concrete runs use the reference searches. *)
#[local] Existing Instances naive_memmem naive_Memchr.

(** ** Properties *)

(** C1: Muxing and demuxing are inverse on video: for a program of one H.264 or H.265 video and up
    to 90 audio tracks, a sequence of video packets with increasing decoding times that
    fit the 33-bit clock and payloads of at most 512 KiB is muxed without failure, and
    a new demuxer fed the bytes in chunks of any sizes and flushed at the end outputs
    exactly those packets: the same payloads, PTS and DTS, in order, each a keyframe
    when it was muxed as one (H.264) or its NAL units say so. *)
Theorem mux_demux_roundtrip `{Memmem} `{Memchr} v tracks md ps :
  zlen tracks <= 90 -> well_timed (-1) ps -> Forall video_payload_ok ps ->
  exists m out,
    mux_video (new_with_metadata (Some v) tracks md) ps [] = Some (m, out) /\
    forall chunks, concat chunks = out ->
      output (flush (fold_left feed chunks TsDemuxer_new)) = map (received (written_kind v)) ps.
Proof.
  intros Hn Ht Hok. destruct (new_program_ok v tracks md Hn) as (Hm & Hlast & Hdts & c & cs & Ec & Hcv & Hct & Hck & _).
  set (m := new_with_metadata (Some v) tracks md) in *.
  assert (Hgo : exists m' pkts, mux_video m ps [] = Some (m', concat pkts) /\ whole_packets pkts /\
    output (flush (fold_left process_ts_packet pkts TsDemuxer_new)) = map (received (written_kind v)) ps).
  { destruct ps as [|[meta pl] ps]; [exists m, []; split_and!; [done|constructor|done]|].
    apply Forall_cons in Hok as [Hok1 Hok]. destruct Ht as (T1 & T2 & T3 & T4).
    destruct (mux_step m (written_kind v) c cs TsDemuxer_new None (-1) meta pl [])
      as (m1 & pkts1 & E1 & W1 & S1 & O1 & C1 & L1); try done.
    { right. split_and!; try done. unfold is_video, written_kind. by repeat case_if. }
    { exists i64_MIN. split; [done|left; lia]. }
    destruct (mux_sequence (written_kind v) c cs ps m1 (fold_left process_ts_packet pkts1 TsDemuxer_new) (meta, pl)
      (dts_ms meta) (concat pkts1)) as (m2 & pkts2 & E2 & W2 & O2); try done; [cbn; lia|].
    exists m2, (pkts1 ++ pkts2). cbn [mux_video]. rewrite E1. cbn [mbind option_bind app].
    rewrite E2, concat_app. split_and!; [done|by apply Forall_app|]. by rewrite fold_left_app, O2, O1. }
  destruct Hgo as (m' & pkts & E & Hw & Ho). exists m', (concat pkts). split; [done|].
  intros chunks Hc. rewrite (feed_chunks_from [] ltac:(unfold TS_PACKET_SIZE; cbn [length]; lia) chunks TsDemuxer_new pkts).
  - assert (Hrem : remainder (fold_left process_ts_packet pkts TsDemuxer_new) = []).
    { clear. change (@nil Z) with (remainder TsDemuxer_new). generalize TsDemuxer_new as d.
      induction pkts as [|p pkts IH]; intros d; [done|]. cbn [fold_left]. rewrite IH. apply process_ts_packet_remainder. }
    rewrite <- Hrem, set_remainder_id. done.
  - eapply Forall_impl; [exact Hw|]. by intros ? [? _].
  - apply whole_packets_aligned; [done|by left|unfold TS_PACKET_SIZE; cbn [length]; lia].
  - by rewrite app_nil_r.
  - by right.
Qed.

Definition example_video : VideoMeta := blank_meta KindH264 256 None None.

Lemma mux_demux_roundtrip_witness :
  exists m out,
    mux_video (new_with_metadata (Some example_video) [] TsServiceMetadata_default)
      [(mk_PacketMeta 40 0 true, [0; 0; 1; 0x65; 9]); (mk_PacketMeta 80 40 false, replicate 300 7)] [] = Some (m, out) /\
    forall chunks, concat chunks = out ->
      output (flush (fold_left feed chunks TsDemuxer_new)) =
        map (received KindH264) [(mk_PacketMeta 40 0 true, [0; 0; 1; 0x65; 9]); (mk_PacketMeta 80 40 false, replicate 300 7)].
Proof.
  apply (mux_demux_roundtrip example_video [] TsServiceMetadata_default).
  - unfold zlen. cbn. lia.
  - cbn. lia.
  - repeat constructor; try discriminate; vm_compute; discriminate.
Defined.

(** A demuxer learns a muxer's program from its tables: for a program of a video and
    up to 90 audio tracks, the PAT and PMT (over several packets when it is long, with
    or without a service description) fed to a new demuxer give it exactly the muxer's
    streams, in order, with their PIDs, codecs and languages, audio tracks numbered
    from 0, and every PID mapped to its stream. *)
Theorem tables_describe_program `{Memmem} v tracks md dts_ms is_keyframe :
  zlen tracks <= 90 ->
  let m := new_with_metadata (Some v) tracks md in
  exists m' tables,
    write_tables m dts_ms is_keyframe [] = Some (m', concat tables) /\ whole_packets tables /\
    let d := fold_left process_ts_packet tables TsDemuxer_new in
    streams d = declared 0 (TsMux.streams m) /\
    forall j c, TsMux.streams m !! j = Some c -> pid_to_stream d !! Z.to_nat (ms_pid c) = Some (Z.of_nat j).
Proof.
  intros Hn. cbn zeta. destruct (new_program_ok v tracks md Hn) as (Hm & Hlast & _).
  set (m := new_with_metadata (Some v) tracks md) in *.
  destruct (write_tables_spec m dts_ms is_keyframe []) as (m' & tables & E & _ & Ht & Hdue & _); [by destruct Hm|].
  exists m', tables. split; [done|]. split; [by eapply tables_spec_whole|].
  destruct (process_tables_fresh m tables Hm Ht) as (A1 & A2 & _).
  { apply Hdue. unfold tables_due. by rewrite Hlast. }
  split; [done|]. intros j c Hj. rewrite A2. pose proof Hm as (_ & Hcs & _ & _ & Hnd & _).
  rewrite (declared_pids_lookup 0 (TsMux.streams m) _ j c); [f_equal; lia|done| |apply length_replicate|done].
  eapply Forall_impl; [exact Hcs|]. by intros c' (_ & ? & _).
Qed.

Lemma tables_describe_program_witness :
  let m := new_with_metadata (Some example_video)
             [mk_AudioMeta "aac" 48000 2 None 0 None (Some "eng"%string) None None] TsServiceMetadata_default in
  exists m' tables,
    write_tables m 0 true [] = Some (m', concat tables) /\ whole_packets tables /\
    let d := fold_left process_ts_packet tables TsDemuxer_new in
    streams d = declared 0 (TsMux.streams m) /\
    forall j c, TsMux.streams m !! j = Some c -> pid_to_stream d !! Z.to_nat (ms_pid c) = Some (Z.of_nat j).
Proof.
  apply (tables_describe_program example_video _ TsServiceMetadata_default 0 true). unfold zlen. cbn. lia.
Defined.
