(* ===== verification/FrameUnits.v ===== *)
(** * Track configurations and their generations

    Models [TrackConfigs] of [crates/restream-sync/src/frame_units.rs]: the codec
    configurations of a ring's tracks, each change under a new generation, the last
    few of them resolvable.  The table has one writer, the ring's producer; an
    operation is one transition. *)

From S2P Require Import Prelude Bitblast Media.

(** ** Definitions *)

Record TrackConfigSlot := mk_TrackConfigSlot {
  slot_generation : Z;
  slot_current : option TrackConfig;
  slot_history : list (option TrackConfig);
}.

Definition TrackConfigSlot_new : TrackConfigSlot :=
  mk_TrackConfigSlot 0 None (replicate CONFIG_HISTORY None).

Definition history_slot (generation : Z) : nat := Z.to_nat (generation mod Z.of_nat CONFIG_HISTORY).

Record TrackConfigs := mk_TrackConfigs { tracks : list TrackConfigSlot }.

Definition TrackConfigs_new : TrackConfigs :=
  mk_TrackConfigs (replicate (2 * CONFIG_TRACKS_PER_TYPE) TrackConfigSlot_new).

Definition media_type_index (mt : MediaType) : nat := match mt with Video => 0 | Audio => 1 end.

(** [slot]: the position of a track's slot. *)
Definition track_slot (mt : MediaType) (track_index : Z) : option nat :=
  let track := Z.to_nat track_index in
  if (track <? CONFIG_TRACKS_PER_TYPE)%nat
  then Some (media_type_index mt * CONFIG_TRACKS_PER_TYPE + track)%nat else None.

Definition lookup_slot (self : TrackConfigs) (mt : MediaType) (track_index : Z) : option TrackConfigSlot :=
  i ← track_slot mt track_index; tracks self !! i.

Definition config_generation_of (self : TrackConfigs) (mt : MediaType) (track_index : Z) : Z :=
  match lookup_slot self mt track_index with Some slot => slot_generation slot | None => 0 end.

(** One slot: [set] and [clear] behind the lookup. *)
Definition slot_set (slot : TrackConfigSlot) (bs : bytes) : Z * TrackConfigSlot :=
  let current := slot_generation slot in
  if match slot_current slot with Some config => bool_decide (config_bytes config = bs) | None => false end
  then (current, slot)
  else
    let next := as_u32 (current + 1) in
    let config := mk_TrackConfig next bs in
    (next, mk_TrackConfigSlot next (Some config)
             (<[history_slot next := Some config]> (slot_history slot))).

Definition slot_clear (slot : TrackConfigSlot) : TrackConfigSlot :=
  match slot_current slot with
  | Some _ => mk_TrackConfigSlot (as_u32 (slot_generation slot + 1)) None (slot_history slot)
  | None => slot
  end.

Definition config_set (self : TrackConfigs) (mt : MediaType) (track_index : Z) (bs : bytes) : Z * TrackConfigs :=
  match track_slot mt track_index with
  | None => (0, self)
  | Some i =>
      match tracks self !! i with
      | None => (0, self)
      | Some slot =>
          let '(generation, slot) := slot_set slot bs in
          (generation, mk_TrackConfigs (<[i := slot]> (tracks self)))
      end
  end.

Definition config_clear (self : TrackConfigs) (mt : MediaType) (track_index : Z) : TrackConfigs :=
  match track_slot mt track_index with
  | None => self
  | Some i =>
      match tracks self !! i with
      | None => self
      | Some slot => mk_TrackConfigs (<[i := slot_clear slot]> (tracks self))
      end
  end.

Definition config_get (self : TrackConfigs) (mt : MediaType) (track_index generation : Z) : option TrackConfig :=
  if generation =? 0 then None
  else
    slot ← lookup_slot self mt track_index;
    config ← mjoin (slot_history slot !! history_slot generation);
    if Media.generation config =? generation then Some config else None.

Definition config_current (self : TrackConfigs) (mt : MediaType) (track_index : Z) : option TrackConfig :=
  slot ← lookup_slot self mt track_index; slot_current slot.

(** [copy_from]: every entry and counter, position by position. *)
Definition slot_copy (slot old : TrackConfigSlot) : TrackConfigSlot :=
  mk_TrackConfigSlot (slot_generation old) (slot_current old)
    (take (length (slot_history slot)) (slot_history old) ++ drop (length (slot_history old)) (slot_history slot)).
Definition config_copy_from (self previous : TrackConfigs) : TrackConfigs :=
  mk_TrackConfigs (zip_with slot_copy (tracks self) (tracks previous)
                   ++ drop (length (tracks previous)) (tracks self)).

(** ** Specification: the log of a track *)

Inductive ConfigOp := OpSet (bs : bytes) | OpClear.

Definition run_op (self : TrackConfigs) (op : MediaType * Z * ConfigOp) : TrackConfigs :=
  let '(mt, ti, o) := op in
  match o with
  | OpSet bs => (config_set self mt ti bs).2
  | OpClear => config_clear self mt ti
  end.

(** What a track has been: its generation, the bytes in force, and every configuration
    it had, the newest first. *)
Record TrackLog := mk_TrackLog {
  log_generation : Z;
  log_current : option bytes;
  log_entries : list (Z * bytes);
}.

Definition log_op (l : TrackLog) (o : ConfigOp) : TrackLog :=
  match o with
  | OpSet bs =>
      if bool_decide (log_current l = Some bs) then l
      else mk_TrackLog (log_generation l + 1) (Some bs) ((log_generation l + 1, bs) :: log_entries l)
  | OpClear =>
      match log_current l with
      | Some _ => mk_TrackLog (log_generation l + 1) None (log_entries l)
      | None => l
      end
  end.

Definition track_log (ops : list (MediaType * Z * ConfigOp)) (mt : MediaType) (ti : Z) : TrackLog :=
  fold_left log_op (map snd (List.filter (fun op => bool_decide (track_slot op.1.1 op.1.2 = track_slot mt ti)) ops))
    (mk_TrackLog 0 None []).

(** ** Lemmas *)

(** A slot and the log of its track. *)
Definition slot_ok (slot : TrackConfigSlot) (l : TrackLog) : Prop :=
  slot_generation slot = log_generation l /\ 0 <= log_generation l /\
  config_bytes <$> slot_current slot = log_current l /\
  length (slot_history slot) = CONFIG_HISTORY /\
  (forall c, slot_current slot = Some c -> Media.generation c = log_generation l) /\
  (* every entry of the history is logged *)
  (forall i c, slot_history slot !! i = Some (Some c) ->
     i = history_slot (Media.generation c) /\ (Media.generation c, config_bytes c) ∈ log_entries l) /\
  (* the log ascends to the generation, and its last entries are in the history *)
  (forall g bs, (g, bs) ∈ log_entries l -> 0 < g <= log_generation l /\
     (log_generation l - g < Z.of_nat CONFIG_HISTORY ->
      slot_history slot !! history_slot g = Some (Some (mk_TrackConfig g bs)))) /\
  (forall g b b', (g, b) ∈ log_entries l -> (g, b') ∈ log_entries l -> b = b').

Lemma history_slot_lt g : (history_slot g < CONFIG_HISTORY)%nat.
Proof. unfold history_slot, CONFIG_HISTORY. pose proof (Z.mod_pos_bound g 4). lia. Qed.

(** Two generations less than [CONFIG_HISTORY] apart are in different slots. *)
Lemma history_slot_inj g g' :
  history_slot g = history_slot g' -> Z.abs (g - g') < Z.of_nat CONFIG_HISTORY -> g = g'.
Proof.
  unfold history_slot, CONFIG_HISTORY. intros E Hd.
  pose proof (Z.mod_pos_bound g 4). pose proof (Z.mod_pos_bound g' 4).
  pose proof (Z.div_mod g 4). pose proof (Z.div_mod g' 4). lia.
Qed.

Lemma slot_ok_new : slot_ok TrackConfigSlot_new (mk_TrackLog 0 None []).
Proof.
  unfold slot_ok, TrackConfigSlot_new, CONFIG_HISTORY. cbn. split_and!; try done.
  - intros i c Hi. by destruct i as [|[|[|[|]]]].
  - intros g bs Hin. by apply not_elem_of_nil in Hin.
  - intros g b b' Hin. by apply not_elem_of_nil in Hin.
Qed.

Lemma slot_set_ok slot l bs :
  slot_ok slot l -> log_generation l < 2 ^ 32 - 1 -> slot_ok (slot_set slot bs).2 (log_op l (OpSet bs)).
Proof.
  intros (H1 & H0 & H2 & H3 & H4 & H5 & H6 & H7) Hmax. unfold slot_set, log_op.
  rewrite <- H2. destruct (slot_current slot) as [c|] eqn:Ec; cbn [fmap option_fmap option_map].
  1: destruct (decide (config_bytes c = bs)) as [Eb|Eb].
  1: { rewrite !bool_decide_true by congruence. cbn [snd]. unfold slot_ok. rewrite <- H2, Ec. split_and!; done. }
  1: rewrite !bool_decide_false by congruence.
  2: rewrite bool_decide_false by done.
  all: cbn [snd]; rewrite H1, wrapu_id by (unfold in_u; lia); set (n := log_generation l + 1);
    assert (Hn : forall i c0, <[history_slot n:=Some (mk_TrackConfig n bs)]> (slot_history slot) !! i = Some (Some c0) ->
      (i = history_slot n /\ c0 = mk_TrackConfig n bs) \/ slot_history slot !! i = Some (Some c0))
      by (intros i c0 Hi; apply list_lookup_insert_Some in Hi as [(-> & [= ->] & _)|[_ ?]]; auto);
    unfold slot_ok; cbn; rewrite length_insert; (split_and!; [done|lia|done|done|by intros c0 [= <-]| | |]).
  1,4: intros i c0 Hi; destruct (Hn i c0 Hi) as [[-> ->]|Hold];
    [split; [done|apply list_elem_of_here]|destruct (H5 i c0 Hold) as [? ?]; split; [done|by apply list_elem_of_further]].
  1,3: intros g b Hin; apply elem_of_cons in Hin as [[= -> ->]|Hin];
    [split; [lia|]; intros _; apply list_lookup_insert_eq; rewrite H3; apply history_slot_lt
    |destruct (H6 g b Hin) as [Hg Hh]; split; [lia|]; intros Hd;
     rewrite list_lookup_insert_ne; [apply Hh; lia|];
     intros E; apply history_slot_inj in E; lia].
  all: intros g b b' Hb Hb'; apply elem_of_cons in Hb as [E|Hb]; apply elem_of_cons in Hb' as [E'|Hb'];
    [congruence|exfalso; destruct (H6 _ _ Hb') as [? _]; injection E as -> _; lia
    |exfalso; destruct (H6 _ _ Hb) as [? _]; injection E' as -> _; lia|by eapply H7].
Qed.

Lemma slot_clear_ok slot l :
  slot_ok slot l -> log_generation l < 2 ^ 32 - 1 -> slot_ok (slot_clear slot) (log_op l OpClear).
Proof.
  intros Hok Hmax. pose proof Hok as (H1 & H0 & H2 & H3 & H4 & H5 & H6 & H7). unfold slot_clear, log_op.
  rewrite <- H2. destruct (slot_current slot) as [c|] eqn:Ec; cbn [fmap option_fmap option_map]; [|done].
  rewrite H1, wrapu_id by (unfold in_u; lia). unfold slot_ok. cbn. split_and!; try done; [lia|].
  intros g b Hin. destruct (H6 g b Hin) as [Hg Hh]. split; [lia|]. intros Hd. apply Hh. lia.
Qed.

(** Every slot of the table and the log of its track. *)
Definition table_ok (self : TrackConfigs) (logs : nat -> TrackLog) : Prop :=
  length (tracks self) = (2 * CONFIG_TRACKS_PER_TYPE)%nat /\
  forall i slot, tracks self !! i = Some slot -> slot_ok slot (logs i).

Definition logs_op (logs : nat -> TrackLog) (op : MediaType * Z * ConfigOp) : nat -> TrackLog :=
  fun i => if bool_decide (track_slot op.1.1 op.1.2 = Some i) then log_op (logs i) op.2 else logs i.

Lemma log_op_generation l o : log_generation l <= log_generation (log_op l o) <= log_generation l + 1.
Proof. unfold log_op. destruct o; [|destruct (log_current l)]; try case_if; cbn; lia. Qed.

Lemma run_op_ok self logs op :
  table_ok self logs -> (forall i, log_generation (logs i) < 2 ^ 32 - 1) ->
  table_ok (run_op self op) (logs_op logs op).
Proof.
  intros [Hl Hok] Hmax. destruct op as [[mt ti] o]. unfold run_op, logs_op. cbn [fst snd].
  assert (Hupd : forall i slot', track_slot mt ti = Some i ->
    (forall slot, tracks self !! i = Some slot -> slot_ok slot' (log_op (logs i) o)) ->
    table_ok (mk_TrackConfigs (<[i := slot']> (tracks self)))
      (fun j => if bool_decide (track_slot mt ti = Some j) then log_op (logs j) o else logs j)).
  { intros i slot' Ht Hs. split; [cbn; by rewrite length_insert|]. cbn [tracks]. intros j slot Hj.
    apply list_lookup_insert_Some in Hj as [(-> & <- & Hlt)|[Hne Hj]].
    - rewrite bool_decide_true by done. destruct (lookup_lt_is_Some_2 _ _ Hlt) as [slot0 Hs0]. by eapply Hs.
    - rewrite bool_decide_false by congruence. by apply Hok. }
  destruct o as [bs|]; unfold config_set, config_clear; (destruct (track_slot mt ti) as [i|] eqn:Et;
    [|cbn [snd]; split; [done|]; intros j slot Hj; rewrite bool_decide_false by done; by apply Hok]);
    (destruct (tracks self !! i) as [slot|] eqn:Es;
    [|cbn [snd]; split; [done|]; intros j slot' Hj; rewrite bool_decide_false by (intros [= ->]; congruence); by apply Hok]).
  - pose proof (slot_set_ok slot (logs i) bs (Hok _ _ Es) (Hmax i)) as Hs.
    destruct (slot_set slot bs) as [g slot']. cbn [snd] in *. apply Hupd; [done|]. by intros.
  - apply Hupd; [done|]. intros slot0 _. apply slot_clear_ok; [by apply Hok|done].
Qed.

Lemma logs_op_generation logs op i :
  log_generation (logs i) <= log_generation (logs_op logs op i) <= log_generation (logs i) + 1.
Proof. unfold logs_op. case_if; [apply log_op_generation|lia]. Qed.

Lemma run_ops_ok ops : forall self logs n,
  table_ok self logs -> (forall i, log_generation (logs i) <= n) -> n + zlen ops < 2 ^ 32 - 1 ->
  table_ok (fold_left run_op ops self) (fold_left logs_op ops logs).
Proof.
  induction ops as [|op ops IH]; intros self logs n Hok Hn Hlen; [done|]. cbn [fold_left].
  unfold zlen in *. cbn [length] in Hlen. apply (IH _ _ (n + 1)).
  - apply run_op_ok; [done|]. intros i. specialize (Hn i). lia.
  - intros i. pose proof (logs_op_generation logs op i). specialize (Hn i). lia.
  - lia.
Qed.

Lemma logs_track_log mt ti i ops : forall l logs,
  track_slot mt ti = Some i -> logs i = l ->
  fold_left logs_op ops logs i =
    fold_left log_op (map snd (List.filter (fun op => bool_decide (track_slot op.1.1 op.1.2 = track_slot mt ti)) ops)) l.
Proof.
  induction ops as [|op ops IH]; intros l logs Ht <-; [done|]. cbn [fold_left List.filter].
  rewrite Ht in *. rewrite (IH (logs_op logs op i)) by done. unfold logs_op.
  by destruct (bool_decide (track_slot op.1.1 op.1.2 = Some i)).
Qed.

Lemma track_slot_lt mt ti i : track_slot mt ti = Some i -> (i < 2 * CONFIG_TRACKS_PER_TYPE)%nat.
Proof.
  unfold track_slot, CONFIG_TRACKS_PER_TYPE. case_if; [|done]. intros [= <-]. destruct mt; cbn; lia.
Qed.

(** ** Properties *)

(** Every packet finds the configuration it was published with: after any changes to
    any tracks (fewer than 2^32 - 1), a track of the table has the generation of its log
    (one more for every change of its bytes, none for the same bytes), its current bytes,
    and resolves a generation only to the bytes it had under that generation; of the
    last four generations it resolves every one that had bytes, whatever other tracks
    did. *)
Theorem config_generations_resolve ops mt ti :
  zlen ops < 2 ^ 32 - 1 -> is_Some (track_slot mt ti) ->
  let self := fold_left run_op ops TrackConfigs_new in
  let l := track_log ops mt ti in
  config_generation_of self mt ti = log_generation l /\
  config_bytes <$> config_current self mt ti = log_current l /\
  (forall g c, config_get self mt ti g = Some c -> Media.generation c = g /\ (g, config_bytes c) ∈ log_entries l) /\
  (forall g bs, (g, bs) ∈ log_entries l -> log_generation l - g < Z.of_nat CONFIG_HISTORY ->
     config_get self mt ti g = Some (mk_TrackConfig g bs)).
Proof.
  intros Hlen [i Hi]. cbn zeta. set (self := fold_left run_op ops TrackConfigs_new).
  destruct (run_ops_ok ops TrackConfigs_new (fun _ => mk_TrackLog 0 None []) 0) as [Hl Hok]; [|cbn; lia|lia|].
  { split; [apply length_replicate|]. intros j slot Hj. apply lookup_replicate in Hj as [-> _]. apply slot_ok_new. }
  fold self in Hl, Hok. destruct (lookup_lt_is_Some_2 (tracks self) i) as [slot Hslot].
  { rewrite Hl. by eapply track_slot_lt. }
  assert (Hlog : fold_left logs_op ops (fun _ => mk_TrackLog 0 None []) i = track_log ops mt ti)
    by (by apply logs_track_log).
  specialize (Hok _ _ Hslot). rewrite Hlog in Hok. destruct Hok as (H1 & H0 & H2 & H3 & H4 & H5 & H6 & H7).
  assert (Hlook : lookup_slot self mt ti = Some slot) by (unfold lookup_slot; by rewrite Hi).
  unfold config_generation_of, config_current, config_get. rewrite Hlook. cbn [mbind option_bind].
  split_and!; [done|done| |].
  - intros g c. case_if; [done|]. destruct (mjoin _) as [c'|] eqn:Ej; [|done]. cbn [mbind option_bind].
    case_if; [|done]. intros [= ->]. split; [done|].
    destruct (slot_history slot !! history_slot g) as [[c'|]|] eqn:Eh; try done. injection Ej as ->.
    destruct (H5 _ _ Eh) as [_ Hin]. by rewrite <- E0.
  - intros g bs Hin Hd. destruct (H6 g bs Hin) as [Hg Hh]. rewrite (proj2 (Z.eqb_neq g 0)) by lia.
    rewrite (Hh Hd). cbn. by rewrite Z.eqb_refl.
Qed.

Definition example_ops : list (MediaType * Z * ConfigOp) :=
  [(Video, 0, OpSet [1]); (Video, 0, OpSet [1]); (Audio, 0, OpSet [9]); (Video, 0, OpClear); (Video, 0, OpSet [2])].

Lemma config_generations_resolve_witness :
  let self := fold_left run_op example_ops TrackConfigs_new in
  let l := track_log example_ops Video 0 in
  config_generation_of self Video 0 = log_generation l /\
  config_bytes <$> config_current self Video 0 = log_current l /\
  (forall g c, config_get self Video 0 g = Some c -> Media.generation c = g /\ (g, config_bytes c) ∈ log_entries l) /\
  (forall g bs, (g, bs) ∈ log_entries l -> log_generation l - g < Z.of_nat CONFIG_HISTORY ->
     config_get self Video 0 g = Some (mk_TrackConfig g bs)).
Proof.
  apply (config_generations_resolve example_ops Video 0).
  - vm_compute. reflexivity.
  - by eexists.
Defined.

(** Clearing a track takes a generation but no place in the history: a configuration four
    changes old can still resolve. *)
Lemma cleared_track_resolves_older :
  let self := fold_left run_op
    [(Video, 0, OpSet [1]); (Video, 0, OpSet [2]); (Video, 0, OpSet [3]); (Video, 0, OpSet [4]); (Video, 0, OpClear)]
    TrackConfigs_new in
  config_generation_of self Video 0 = 5 /\ config_get self Video 0 1 = Some (mk_TrackConfig 1 [1]).
Proof. split; reflexivity. Qed.
