(* ===== verification/Ring.v ===== *)
(** * The packet ring

    Models [crates/restream-sync/src/ring_buffer.rs] with its [slot] and
    [sequence_reads] modules: publication of packets, one writer, and reads by
    sequence from other threads.

    A publication is a program of atomic operations on the shared state, in the order
    of the source; it runs to its end when nothing interleaves ([push], [push_batch])
    and one operation at a time between the loads of a reader in [ring_step].  Memory
    is sequentially consistent.  Sequences are natural numbers (a [usize] does not wrap
    in the life of a ring); the sentinel [usize::MAX] of the last keyframe is [None].
    Times are arguments.  Notification, subscribers and metadata are left out. *)

From S2P Require Import Prelude Bitblast Bits Annexb Media FrameUnits.

(** ** Definitions *)

Record RingSlot := mk_RingSlot {
  slot_data : option MediaPacket;
  slot_published_at_us : Z;
  slot_unit : Z;
}.

Definition RingSlot_new : RingSlot := mk_RingSlot None 0 0.

Record RingBuffer := mk_RingBuffer {
  slots : list RingSlot;
  write_idx : nat;
  write_begin : nat;
  last_keyframe_idx : option nat;
  published_bytes : Z;
  capacity : nat;
  track_configs : TrackConfigs;
}.

Definition RingBuffer_new (capacity : nat) : RingBuffer :=
  mk_RingBuffer (replicate capacity RingSlot_new) 0 0 None 0 capacity TrackConfigs_new.

Definition new_continuing (capacity start_write_idx : nat) : RingBuffer :=
  mk_RingBuffer (replicate capacity RingSlot_new) start_write_idx start_write_idx None 0 capacity TrackConfigs_new.

Definition MEDIA_PULL_BURST_PACKETS : nat := 32.
Definition MEDIA_PRODUCER_BATCH_PACKETS : nat := MEDIA_PULL_BURST_PACKETS.

(** *** Atomic operations of the producer *)

Inductive Op :=
  | SetConfig (mt : MediaType) (track_index : Z) (bs : bytes)
  | ClearConfig (mt : MediaType) (track_index : Z)
  | BeginWrite (end_ : nat)
  | StoreTime (slot_idx : nat) (us : Z)
  | StoreUnit (slot_idx : nat) (unit : Z)
  | Replace (slot_idx : nat) (packet : MediaPacket)
  | StoreKeyframe (idx : nat)
  | AddPublishedBytes (bytes : Z)
  | StoreWriteIdx (idx : nat).

Definition set_slot (self : RingBuffer) (i : nat) (f : RingSlot -> RingSlot) : RingBuffer :=
  mk_RingBuffer (alter f i (slots self)) (write_idx self) (write_begin self) (last_keyframe_idx self)
    (published_bytes self) (capacity self) (track_configs self).

Definition begin_write (self : RingBuffer) (end_ : nat) : RingBuffer :=
  mk_RingBuffer (slots self) (write_idx self) end_ (last_keyframe_idx self) (published_bytes self)
    (capacity self) (track_configs self).

Definition add_published_bytes (self : RingBuffer) (bytes : Z) : RingBuffer :=
  mk_RingBuffer (slots self) (write_idx self) (write_begin self) (last_keyframe_idx self)
    (as_u64 (published_bytes self + bytes)) (capacity self) (track_configs self).

Definition slot_replace (packet : MediaPacket) (slot : RingSlot) : RingSlot :=
  mk_RingSlot (Some packet) (slot_published_at_us slot) (slot_unit slot).

Definition set_track_config (self : RingBuffer) (mt : MediaType) (track_index : Z) (bs : bytes) : Z * RingBuffer :=
  match bs with
  | [] => (config_generation_of (track_configs self) mt track_index, self)
  | _ =>
      let '(generation, configs) := config_set (track_configs self) mt track_index bs in
      (generation,
       mk_RingBuffer (slots self) (write_idx self) (write_begin self) (last_keyframe_idx self)
         (published_bytes self) (capacity self) configs)
  end.

Definition apply_op (self : RingBuffer) (op : Op) : RingBuffer :=
  match op with
  | SetConfig mt ti bs => (set_track_config self mt ti bs).2
  | ClearConfig mt ti =>
      mk_RingBuffer (slots self) (write_idx self) (write_begin self) (last_keyframe_idx self)
        (published_bytes self) (capacity self) (config_clear (track_configs self) mt ti)
  | BeginWrite n => begin_write self n
  | StoreTime i us => set_slot self i (fun s => mk_RingSlot (slot_data s) us (slot_unit s))
  | StoreUnit i w => set_slot self i (fun s => mk_RingSlot (slot_data s) (slot_published_at_us s) w)
  | Replace i p => set_slot self i (slot_replace p)
  | StoreKeyframe i =>
      mk_RingBuffer (slots self) (write_idx self) (write_begin self) (Some i) (published_bytes self)
        (capacity self) (track_configs self)
  | AddPublishedBytes b => add_published_bytes self b
  | StoreWriteIdx n =>
      mk_RingBuffer (slots self) n (write_begin self) (last_keyframe_idx self) (published_bytes self)
        (capacity self) (track_configs self)
  end.

Definition run_ops (self : RingBuffer) (ops : list Op) : RingBuffer := fold_left apply_op ops self.

(** *** Tracks *)

Definition remove_video_track (self : RingBuffer) : RingBuffer := apply_op self (ClearConfig Video 0).

(** [set_audio_tracks] on the configurations: the tracks not listed are cleared. *)
Definition audio_track_ops (track_indices : list Z) : list Op :=
  flat_map (fun i => let ti := Z.of_nat i in
                     if existsb (Z.eqb ti) track_indices then [] else [ClearConfig Audio ti])
    (seq 0 CONFIG_TRACKS_PER_TYPE).
Definition set_audio_tracks (self : RingBuffer) (track_indices : list Z) : RingBuffer :=
  run_ops self (audio_track_ops track_indices).

(** *** Publication *)

Definition next_frame_unit (configs : TrackConfigs) (packet : MediaPacket) (sequence : nat) : Z :=
  FrameUnit_pack (mk_FrameUnit (config_generation_of configs (media_type packet) (track_index packet)))
    (Z.of_nat sequence).

(** The operations that put [packet] in the slot of [idx], published at [us]. *)
Definition slot_ops (cap : nat) (configs : TrackConfigs) (idx : nat) (packet : MediaPacket) (us : Z) : list Op :=
  let slot_idx := (idx mod cap)%nat in
  [BeginWrite (idx + 1);
   StoreTime slot_idx us;
   StoreUnit slot_idx (next_frame_unit configs packet idx);
   Replace slot_idx packet]
  ++ (if is_video_keyframe packet then [StoreKeyframe idx] else []).

Definition push_ops (self : RingBuffer) (packet : MediaPacket) (elapsed_us : Z) : list Op :=
  let idx := write_idx self in
  slot_ops (capacity self) (track_configs self) idx packet (Z.max elapsed_us 1)
  ++ [AddPublishedBytes (zlen (payload packet)); StoreWriteIdx (idx + 1)].
Definition push (self : RingBuffer) (packet : MediaPacket) (elapsed_us : Z) : RingBuffer :=
  run_ops self (push_ops self packet elapsed_us).

Section with_memmem.
Context `{Memmem}.

(** [record_in_band_config]: the configuration a packet carries. *)
Definition in_band_config (packet : MediaPacket) : option bytes :=
  if bool_decide (media_type packet = Video) && bool_decide (format packet = Raw)
  then annexb_parameter_sets (payload packet) else None.

(** The loop of [push_batch], with the recording [inspect] of
    [push_batch_recording_config] when [record] is set. *)
Fixpoint batch_ops (record : bool) (cap : nat) (configs : TrackConfigs) (idx : nat) (us : Z)
    (packets : list MediaPacket) : list Op :=
  match packets with
  | [] => []
  | packet :: rest =>
      let config := if record then in_band_config packet else None in
      let config_ops := match config with Some bs => [SetConfig Video (track_index packet) bs] | None => [] end in
      let configs :=
        match config with
        | Some (b :: bs) => (config_set configs Video (track_index packet) (b :: bs)).2
        | _ => configs
        end in
      config_ops ++ slot_ops cap configs idx packet us ++ batch_ops record cap configs (idx + 1) us rest
  end.

Definition payload_sum (packets : list MediaPacket) : Z :=
  fold_right (fun p n => zlen (payload p) + n) 0 packets.

Definition publish_ops (record : bool) (self : RingBuffer) (packets : list MediaPacket) (elapsed_us : Z) : list Op :=
  match packets with
  | [] => []
  | _ =>
      batch_ops record (capacity self) (track_configs self) (write_idx self) (Z.max elapsed_us 1) packets
      ++ [AddPublishedBytes (payload_sum packets); StoreWriteIdx (write_idx self + length packets)]
  end.

Definition push_batch (self : RingBuffer) (packets : list MediaPacket) (elapsed_us : Z) : nat * RingBuffer :=
  (length packets, run_ops self (publish_ops false self packets elapsed_us)).

Definition push_batch_recording_config (self : RingBuffer) (packets : list MediaPacket) (elapsed_us : Z)
    : nat * RingBuffer :=
  (length packets, run_ops self (publish_ops true self packets elapsed_us)).

(** Chunks of at most [MEDIA_PRODUCER_BATCH_PACKETS]; a round takes a packet or ends. *)
Fixpoint push_drained_loop (record : bool) (fuel : nat) (self : RingBuffer) (packets : list MediaPacket)
    (elapsed_us : Z) (total : nat) : nat * RingBuffer :=
  match fuel with
  | O => (total, self)
  | S fuel' =>
      let chunk := take MEDIA_PRODUCER_BATCH_PACKETS packets in
      let '(published, self) :=
        if record then push_batch_recording_config self chunk elapsed_us else push_batch self chunk elapsed_us in
      if (published =? 0)%nat then (total, self)
      else push_drained_loop record fuel' self (drop MEDIA_PRODUCER_BATCH_PACKETS packets) elapsed_us (total + published)
  end.
Definition push_drained_batch_capped (self : RingBuffer) (packets : list MediaPacket) (elapsed_us : Z)
    : nat * RingBuffer := push_drained_loop false (S (length packets)) self packets elapsed_us 0.
Definition push_drained_batch_recording_config (self : RingBuffer) (packets : list MediaPacket) (elapsed_us : Z)
    : nat * RingBuffer := push_drained_loop true (S (length packets)) self packets elapsed_us 0.
End with_memmem.

(** *** Reads by sequence *)

Definition ring_slot (self : RingBuffer) (sequence : nat) : option RingSlot :=
  slots self !! (sequence mod capacity self)%nat.

Definition slot_packet (self : RingBuffer) (sequence : nat) : option MediaPacket :=
  slot ← ring_slot self sequence; slot_data slot.
(** The unit word of the slot, if it was written for [sequence]. *)
Definition slot_unit_at (self : RingBuffer) (sequence : nat) : option FrameUnit :=
  slot ← ring_slot self sequence; FrameUnit_unpack (slot_unit slot) (Z.of_nat sequence).

(** The two loads of [read_at], the packet's from [self] and the word's from the later
    state [self']. *)
Definition read_at_across (self self' : RingBuffer) (sequence : nat) : option MediaPacket :=
  packet ← slot_packet self sequence;
  _ ← slot_unit_at self' sequence;
  Some packet.
Definition read_at (self : RingBuffer) (sequence : nat) : option MediaPacket := read_at_across self self sequence.

Definition read_unverified_with {U} (self : RingBuffer) (sequence : nat) (map : MediaPacket -> U) : option U :=
  map <$> slot_packet self sequence.

(** The loads of [run_intact]: [write_begin] from [self], the word of a sequence from the
    state [later sequence]. *)
Definition run_intact_across (self : RingBuffer) (later : nat -> RingBuffer) (start end_ : nat) : bool :=
  if (write_begin self <=? start + capacity self)%nat then true
  else forallb (fun sequence => match slot_unit_at (later sequence) sequence with Some _ => true | None => false end)
         (seq start (end_ - start)).
Definition run_intact (self : RingBuffer) (start end_ : nat) : bool :=
  run_intact_across self (fun _ => self) start end_.

Definition frame_unit (self : RingBuffer) (sequence : nat) : option FrameUnit :=
  if (write_idx self <=? sequence)%nat || (capacity self <=? write_idx self - sequence)%nat then None
  else slot_unit_at self sequence.

Inductive ConfigAt := NotRetained | NoConfig | ConfigIs (c : TrackConfig).
Definition track_config_at (self : RingBuffer) (sequence : nat) (mt : MediaType) (track_index : Z) : ConfigAt :=
  match frame_unit self sequence with
  | None => NotRetained
  | Some unit =>
      if config_generation unit =? 0 then NoConfig
      else match config_get (track_configs self) mt track_index (config_generation unit) with
           | Some c => ConfigIs c
           | None => NotRetained
           end
  end.

Definition fast_forward (self : RingBuffer) (current_write_idx : nat) : nat :=
  match last_keyframe_idx self with
  | Some kf_idx => if (current_write_idx - kf_idx <? capacity self)%nat then kf_idx else current_write_idx
  | None => current_write_idx
  end.

(** *** Growing a ring *)

Definition seed_slot (self : RingBuffer) (idx : nat) (packet : MediaPacket) (unit us : Z) : RingBuffer :=
  let slot_idx := (idx mod capacity self)%nat in
  run_ops self [StoreTime slot_idx us; Replace slot_idx packet; StoreUnit slot_idx unit].

(** [for idx in start_idx..old_write_idx] *)
Fixpoint seed_loop (self old_ring : RingBuffer) (us : nat -> Z) (idxs : list nat) (copied : nat) (last_keyframe : option nat)
    : RingBuffer * nat * option nat :=
  match idxs with
  | [] => (self, copied, last_keyframe)
  | idx :: rest =>
      match read_at old_ring idx, ring_slot old_ring idx with
      | Some packet, Some old_slot =>
          seed_loop (seed_slot self idx packet (slot_unit old_slot) (Z.max (us idx) 1)) old_ring us rest (copied + 1)
            (if is_video_keyframe packet then Some idx else last_keyframe)
      | _, _ => seed_loop self old_ring us rest copied last_keyframe
      end
  end.

(** [elapsed_us idx] is the clock when [idx] is copied. *)
Definition seed_readable_tail_from (self old_ring : RingBuffer) (elapsed_us : nat -> Z) : nat * RingBuffer :=
  let old_write_idx := write_idx old_ring in
  let tail_capacity := Nat.min (capacity self - 1) (capacity old_ring - 1) in
  let start_idx := (old_write_idx - tail_capacity)%nat in
  let self := begin_write self old_write_idx in
  let '(self, copied, last_keyframe) :=
    seed_loop self old_ring elapsed_us (seq start_idx (old_write_idx - start_idx)) 0 None in
  (copied,
   mk_RingBuffer (slots self) old_write_idx (write_begin self)
     (match last_keyframe with Some i => Some i | None => last_keyframe_idx self end)
     (published_bytes self) (capacity self) (config_copy_from (track_configs self) (track_configs old_ring))).

(** ** The interleavings of a producer with readers *)

(** The ring, the operations the producer has still to make, and what was handed to the
    producer so far (a ghost): the packet of a sequence is at its position. *)
Record conf := mk_conf { ring : RingBuffer; pending : list Op; log : list MediaPacket }.

Section steps.
Context `{Memmem}.

Inductive ring_step : conf -> conf -> Prop :=
  | step_push r l p us :
      ring_step (mk_conf r [] l) (mk_conf r (push_ops r p us) (l ++ [p]))
  | step_batch r l record packets us :
      ring_step (mk_conf r [] l) (mk_conf r (publish_ops record r packets us) (l ++ packets))
  | step_config r l mt ti bs : ring_step (mk_conf r [] l) (mk_conf r [SetConfig mt ti bs] l)
  | step_remove_video r l : ring_step (mk_conf r [] l) (mk_conf r [ClearConfig Video 0] l)
  | step_audio_tracks r l tracks : ring_step (mk_conf r [] l) (mk_conf r (audio_track_ops tracks) l)
  | step_op r op ops l : ring_step (mk_conf r (op :: ops) l) (mk_conf (apply_op r op) ops l).

(** The states of a ring: a new one, after any steps, or grown to another capacity between
    two publications. *)
Inductive reachable : conf -> Prop :=
  | reach_new cap : (0 < cap)%nat -> reachable (mk_conf (RingBuffer_new cap) [] [])
  | reach_step c c' : reachable c -> ring_step c c' -> reachable c'
  | reach_grow r l cap us :
      reachable (mk_conf r [] l) -> (0 < cap)%nat ->
      reachable (mk_conf (seed_readable_tail_from (new_continuing cap (write_idx r)) r us).2 [] l).
End steps.

(** ** Lemmas *)

(** *** Sequences in a window of one lap *)

(** [x] sits in cell [s mod cap] for the [s] of the last lap before [n] (and not before
    [f]), or the cell is empty. *)
Definition holds {X} (f n cap : nat) (R : nat -> X -> Prop) (E : X -> Prop) (xs : list X) : Prop :=
  length xs = cap /\
  forall j x, xs !! j = Some x ->
    (exists s, (f <= s < n)%nat /\ (n <= s + cap)%nat /\ (s mod cap = j)%nat /\ R s x) \/
    (E x /\ forall s, (f <= s < n)%nat -> (n <= s + cap)%nat -> (s mod cap <> j)%nat).

Lemma lap_inj cap n s s' :
  (0 < cap)%nat -> (s mod cap = s' mod cap)%nat ->
  (s < n <= s + cap)%nat -> (s' < n <= s' + cap)%nat -> s = s'.
Proof.
  intros Hc E H1 H2. pose proof (Nat.div_mod_eq s cap) as Es. pose proof (Nat.div_mod_eq s' cap) as Es'.
  rewrite E in Es. assert (s / cap = s' / cap)%nat as Eq; [|rewrite Eq in Es; lia].
  destruct (Nat.lt_trichotomy (s / cap) (s' / cap)) as [Hlt|[?|Hlt]]; [exfalso|done|exfalso]; nia.
Qed.

Lemma holds_get {X} f n cap (R : nat -> X -> Prop) E xs s :
  (0 < cap)%nat -> holds f n cap R E xs -> (f <= s < n)%nat -> (n <= s + cap)%nat ->
  exists x, xs !! (s mod cap)%nat = Some x /\ R s x.
Proof.
  intros Hc [Hl Hx] H1 H2. destruct (lookup_lt_is_Some_2 xs (s mod cap)%nat) as [x Ex].
  { rewrite Hl. apply Nat.mod_upper_bound. lia. }
  exists x. split; [done|]. destruct (Hx _ _ Ex) as [(s' & ? & ? & Es & HR)|[_ Hn]].
  - assert (s' = s) as -> by (apply (lap_inj cap n); try done; lia). done.
  - by destruct (Hn s H1 H2).
Qed.

Lemma holds_write {X} f n cap (R : nat -> X -> Prop) E xs g :
  (0 < cap)%nat -> (f <= n)%nat -> holds f n cap R E xs -> (forall x, R n (g x)) ->
  holds f (S n) cap R E (alter g (n mod cap)%nat xs).
Proof.
  intros Hc Hf [Hl Hx] HR. split; [by rewrite length_alter|]. intros j x Hj.
  destruct (decide (j = n mod cap)%nat) as [->|Hne].
  - rewrite list_lookup_alter_eq in Hj. apply fmap_Some in Hj as (x0 & _ & ->).
    left. exists n. split_and!; [lia|lia|lia|done|done].
  - rewrite list_lookup_alter_ne in Hj by done. destruct (Hx _ _ Hj) as [(s & ? & ? & Es & Hs)|[HE Hn]].
    + left. exists s. split_and!; try done; try lia.
      enough (s + cap <> n)%nat by lia. intros <-. apply Hne. subst j.
      rewrite <- (Nat.mul_1_l cap) at 2. by rewrite Nat.Div0.mod_add.
    + right. split; [done|]. intros s Hs1 Hs2. destruct (decide (s = n)) as [->|]; [done|]. apply Hn; lia.
Qed.

Lemma holds_keep {X} f n cap (R : nat -> X -> Prop) E xs g i :
  holds f n cap R E xs -> (forall s x, R s x -> R s (g x)) -> (forall x, E x -> E (g x)) ->
  holds f n cap R E (alter g i xs).
Proof.
  intros [Hl Hx] HR HE. split; [by rewrite length_alter|]. intros j x Hj.
  destruct (decide (j = i)) as [->|Hne].
  - rewrite list_lookup_alter_eq in Hj. apply fmap_Some in Hj as (x0 & Hx0 & ->).
    destruct (Hx _ _ Hx0) as [(s & ? & ? & ? & ?)|[? ?]]; [left; exists s; auto|right; auto].
  - rewrite list_lookup_alter_ne in Hj by done. by apply Hx.
Qed.

Lemma holds_impl {X} f n cap (R R' : nat -> X -> Prop) E xs :
  holds f n cap R E xs -> (forall s x, (s < n)%nat -> R s x -> R' s x) -> holds f n cap R' E xs.
Proof.
  intros [Hl Hx] HR. split; [done|]. intros j x Hj.
  destruct (Hx _ _ Hj) as [(s & ? & ? & ? & ?)|?]; [left; exists s; split_and!; auto; try lia; apply HR; auto; lia|by right].
Qed.

Lemma holds_empty {X} f cap (R : nat -> X -> Prop) (E : X -> Prop) x :
  E x -> holds f f cap R E (replicate cap x).
Proof.
  intros HE. split; [apply length_replicate|]. intros j y Hj. apply lookup_replicate in Hj as [-> _].
  right. split; [done|]. lia.
Qed.

(** *** What a ring holds *)

Inductive phase := Ready | Begun | Tagged | Owing.

(** One past the last sequence whose write began, and whose word is stored. *)
Definition begun (n : nat) (ph : phase) : nat := match ph with Ready | Owing => n | _ => S n end.
Definition tagged (n : nat) (ph : phase) : nat := match ph with Tagged => S n | _ => n end.
(** One past the last sequence whose keyframe, if it is one, is recorded. *)
Definition noted (n : nat) (ph : phase) : nat := match ph with Owing => n - 1 | _ => n end.

Definition data_is (l : list MediaPacket) (s : nat) (slot : RingSlot) : Prop :=
  exists p, l !! s = Some p /\ slot_data slot = Some p.
Definition tag_is (s : nat) (slot : RingSlot) : Prop :=
  exists u, in_u 32 (config_generation u) /\ slot_unit slot = FrameUnit_pack u (Z.of_nat s).
Definition generations_ok (configs : TrackConfigs) : Prop :=
  Forall (fun t => in_u 32 (slot_generation t)) (tracks configs).

(** The packets of [f, n) of the log are in the slots, as far as the last lap has them;
    of sequence [n] the writes up to [ph] were made. *)
Record represents (f : nat) (l : list MediaPacket) (r : RingBuffer) (n : nat) (ph : phase) : Prop := {
  rep_cap : (0 < capacity r)%nat;
  rep_floor : (f <= noted n ph)%nat;
  rep_len : (n <= length l)%nat;
  rep_idx : (write_idx r <= n)%nat;
  rep_begin : write_begin r = begun n ph;
  rep_data : holds f n (capacity r) (data_is l) (fun slot => slot_data slot = None) (slots r);
  rep_tags : holds f (tagged n ph) (capacity r) tag_is (fun slot => slot_unit slot = 0) (slots r);
  rep_kf : forall k, last_keyframe_idx r = Some k ->
    (f <= k < n)%nat /\ exists p, l !! k = Some p /\ is_video_keyframe p = true;
  rep_last : forall s p, (f <= s < noted n ph)%nat -> l !! s = Some p -> is_video_keyframe p = true ->
    exists k, last_keyframe_idx r = Some k /\ (s <= k)%nat;
  rep_gen : generations_ok (track_configs r);
}.

Lemma lookup_slot_gen configs mt ti : generations_ok configs -> in_u 32 (config_generation_of configs mt ti).
Proof.
  intros Hg. unfold config_generation_of, lookup_slot. destruct (track_slot mt ti) as [i|]; cbn; [|by split].
  destruct (tracks configs !! i) as [t|] eqn:Et; [|by split].
  exact (Forall_lookup_1 _ _ _ _ Hg Et).
Qed.

Lemma config_set_gen configs mt ti bs : generations_ok configs -> generations_ok (config_set configs mt ti bs).2.
Proof.
  intros Hg. unfold config_set. destruct (track_slot mt ti) as [i|]; [|done].
  destruct (tracks configs !! i) as [t|] eqn:Et; [|done].
  destruct (slot_set t bs) as [g t'] eqn:Es. cbn. apply Forall_insert; [done|].
  unfold slot_set in Es. pose proof (Forall_lookup_1 _ _ _ _ Hg Et) as Ht. cbn in Ht.
  destruct (slot_current t); [destruct (bool_decide _)|]; injection Es as <- <-; try done; cbn; apply wrapu_range; lia.
Qed.

Lemma config_clear_gen configs mt ti : generations_ok configs -> generations_ok (config_clear configs mt ti).
Proof.
  intros Hg. unfold config_clear. destruct (track_slot mt ti) as [i|]; [|done].
  destruct (tracks configs !! i) as [t|] eqn:Et; [|done]. cbn. apply Forall_insert; [done|].
  pose proof (Forall_lookup_1 _ _ _ _ Hg Et) as Ht. unfold slot_clear.
  destruct (slot_current t); [|done]. cbn. apply wrapu_range; lia.
Qed.

(** *** The operations keep it *)

(** [op] is the next operation of a producer that wrote [n] sequences and is in [ph]. *)
Inductive op_ok (cap : nat) (l : list MediaPacket) : nat -> phase -> Op -> nat -> phase -> Prop :=
  | ok_set_config n mt ti bs : op_ok cap l n Ready (SetConfig mt ti bs) n Ready
  | ok_clear_config n mt ti : op_ok cap l n Ready (ClearConfig mt ti) n Ready
  | ok_begin n : op_ok cap l n Ready (BeginWrite (n + 1)) n Begun
  | ok_time n i us : op_ok cap l n Begun (StoreTime i us) n Begun
  | ok_unit n u : in_u 32 (config_generation u) ->
      op_ok cap l n Begun (StoreUnit (n mod cap) (FrameUnit_pack u (Z.of_nat n))) n Tagged
  | ok_replace n p : l !! n = Some p ->
      op_ok cap l n Tagged (Replace (n mod cap) p) (S n) (if is_video_keyframe p then Owing else Ready)
  | ok_keyframe n p : l !! n = Some p -> is_video_keyframe p = true ->
      op_ok cap l (S n) Owing (StoreKeyframe n) (S n) Ready
  | ok_bytes n b : op_ok cap l n Ready (AddPublishedBytes b) n Ready
  | ok_idx n : op_ok cap l n Ready (StoreWriteIdx n) n Ready.

Lemma op_ok_mono cap l n ph op n' ph' : op_ok cap l n ph op n' ph' -> (n <= n')%nat.
Proof. destruct 1; lia. Qed.

Lemma apply_op_capacity r op : capacity (apply_op r op) = capacity r.
Proof. destruct op; try done. cbn. unfold set_track_config. destruct bs; [done|]. by destruct (config_set _ _ _ _). Qed.

Lemma represents_configs f l r n ph g :
  represents f l r n ph -> generations_ok g ->
  represents f l (mk_RingBuffer (slots r) (write_idx r) (write_begin r) (last_keyframe_idx r)
                    (published_bytes r) (capacity r) g) n ph.
Proof. intros [] Hg. by constructor. Qed.

Lemma op_ok_represents f l r n ph op n' ph' :
  represents f l r n ph -> op_ok (capacity r) l n ph op n' ph' -> represents f l (apply_op r op) n' ph'.
Proof.
  intros Hr Hop. pose proof Hr as [Hc Hf Hl Hi Hb Hd Ht Hk Hlast Hg].
  destruct Hop as [n mt ti bs|n mt ti|n|n i us|n u Hu|n p Hp|n p Hp Hkf|n b|n]; cbn [apply_op].
  - unfold set_track_config. destruct bs as [|b bs]; [done|].
    pose proof (config_set_gen (track_configs r) mt ti (b :: bs) Hg) as Hg'.
    destruct (config_set _ _ _ _) as [g c]. by apply represents_configs.
  - apply represents_configs; [done|by apply config_clear_gen].
  - constructor; try done. cbn. lia.
  - constructor; try done; cbn [set_slot slots capacity]; apply holds_keep; done.
  - constructor; try done; cbn [set_slot slots capacity].
    + by apply holds_keep.
    + apply holds_write; [done|done|done|]. intros x. by exists u.
  - apply lookup_lt_Some in Hp as Hlt. cbn in Hf.
    constructor; try done; cbn [set_slot slots capacity write_idx write_begin last_keyframe_idx]; try lia.
    + destruct (is_video_keyframe p); cbn; lia.
    + rewrite Hb. by destruct (is_video_keyframe p).
    + apply holds_write; [done|done|done|]. intros x. by exists p.
    + apply holds_keep; [by destruct (is_video_keyframe p)|done|done].
    + intros k Ek. destruct (Hk k Ek) as [? ?]. split; [lia|done].
    + intros s q Hs Hq Hqk. destruct (is_video_keyframe p) eqn:Ep; cbn in Hs.
      * apply (Hlast s q); [cbn; lia|done|done].
      * destruct (decide (s = n)) as [->|]; [congruence|]. apply (Hlast s q); [cbn; lia|done|done].
  - cbn in *. constructor; try done; cbn; [lia| |].
    + intros k [= <-]. split; [lia|by exists p].
    + intros s q Hs _ _. exists n. split; [done|lia].
  - by constructor.
  - by constructor.
Qed.

(** [ops] take a producer from [n], [ph] and the write index [i] to the end of the log. *)
Inductive ops_ok (cap : nat) (l : list MediaPacket) : nat -> phase -> nat -> list Op -> Prop :=
  | ops_nil : ops_ok cap l (length l) Ready (length l) []
  | ops_cons n ph i op n' ph' ops :
      op_ok cap l n ph op n' ph' ->
      ops_ok cap l n' ph' (match op with StoreWriteIdx i' => i' | _ => i end) ops ->
      ops_ok cap l n ph i (op :: ops).

Lemma apply_op_write_idx r op :
  write_idx (apply_op r op) = match op with StoreWriteIdx i => i | _ => write_idx r end.
Proof. destruct op; try done. cbn. unfold set_track_config. destruct bs; [done|]. by destruct (config_set _ _ _ _). Qed.

Section publication.
Context `{Memmem}.

(** The operations of one packet, up to [ops]. *)
Lemma slot_ops_ok cap l configs n i p us ops :
  l !! n = Some p -> generations_ok configs ->
  ops_ok cap l (S n) Ready i ops -> ops_ok cap l n Ready i (slot_ops cap configs n p us ++ ops).
Proof.
  intros Hp Hg Hops. unfold slot_ops. cbn [app].
  eapply ops_cons; [apply ok_begin|]. eapply ops_cons; [apply ok_time|].
  eapply ops_cons; [apply ok_unit, lookup_slot_gen, Hg|].
  eapply ops_cons; [by apply ok_replace|]. destruct (is_video_keyframe p) eqn:Ek; [|done].
  cbn [app]. eapply ops_cons; [by eapply ok_keyframe|done].
Qed.

Lemma batch_ops_ok record cap l i us ops packets : forall configs n,
  generations_ok configs -> (forall k p, packets !! k = Some p -> l !! (n + k)%nat = Some p) ->
  ops_ok cap l (n + length packets) Ready i ops ->
  ops_ok cap l n Ready i (batch_ops record cap configs n us packets ++ ops).
Proof.
  induction packets as [|p packets IH]; intros configs n Hg Hp Hops.
  { cbn in *. by rewrite Nat.add_0_r in Hops. }
  cbn [batch_ops]. rewrite <- !app_assoc.
  assert (Hslot : forall configs, generations_ok configs ->
    ops_ok cap l n Ready i (slot_ops cap configs n p us ++ batch_ops record cap configs (n + 1) us packets ++ ops)).
  { intros c Hc. apply slot_ops_ok; [|done|].
    - rewrite <- (Nat.add_0_r n). by apply Hp.
    - rewrite Nat.add_1_r. cbn [length] in Hops. rewrite <- Nat.add_succ_comm in Hops.
      apply IH; [done| |done]. intros k q Hk. rewrite Nat.add_succ_comm. by apply Hp. }
  destruct (if record then in_band_config p else None) as [[|b bs]|]; cbn [app].
  - eapply ops_cons; [apply ok_set_config|]. by apply Hslot.
  - eapply ops_cons; [apply ok_set_config|]. apply Hslot. by apply config_set_gen.
  - by apply Hslot.
Qed.

Lemma publish_ops_ok record r l packets us :
  write_idx r = length l -> generations_ok (track_configs r) ->
  ops_ok (capacity r) (l ++ packets) (length l) Ready (length l) (publish_ops record r packets us).
Proof.
  intros Hi Hg. unfold publish_ops. destruct packets as [|p packets].
  { rewrite app_nil_r. constructor. }
  rewrite Hi. apply batch_ops_ok; [done| |].
  - intros k q Hk. rewrite lookup_app_r by lia. by replace (length l + k - length l)%nat with k by lia.
  - rewrite <- length_app. eapply ops_cons; [apply ok_bytes|]. eapply ops_cons; [apply ok_idx|]. constructor.
Qed.

Lemma push_ops_ok r l p us :
  write_idx r = length l -> generations_ok (track_configs r) ->
  ops_ok (capacity r) (l ++ [p]) (length l) Ready (length l) (push_ops r p us).
Proof.
  intros Hi Hg. unfold push_ops. rewrite Hi. apply slot_ops_ok; [|done|].
  - by rewrite lookup_app_r, Nat.sub_diag by lia.
  - replace (length l + 1)%nat with (length (l ++ [p])) by (by rewrite length_app).
    replace (S (length l)) with (length (l ++ [p])) by (rewrite length_app; cbn; lia).
    eapply ops_cons; [apply ok_bytes|]. eapply ops_cons; [apply ok_idx|]. constructor.
Qed.

Lemma audio_track_ops_ok cap l tracks : ops_ok cap l (length l) Ready (length l) (audio_track_ops tracks).
Proof.
  unfold audio_track_ops. induction (seq 0 CONFIG_TRACKS_PER_TYPE) as [|i js IH]; cbn [flat_map]; [constructor|].
  case_if; [done|]. eapply ops_cons; [apply ok_clear_config|done].
Qed.
End publication.

(** *** Every step keeps it *)

Definition conf_ok (f n : nat) (c : conf) : Prop :=
  exists ph, represents f (log c) (ring c) n ph /\
      ops_ok (capacity (ring c)) (log c) n ph (write_idx (ring c)) (pending c).

Lemma represents_log_app f l l' r n ph : represents f l r n ph -> represents f (l ++ l') r n ph.
Proof.
  intros [Hc Hf Hl Hi Hb Hd Ht Hk Hlast Hg].
  assert (Hin : forall k, (k < n)%nat -> (l ++ l') !! k = l !! k) by (intros k Hk'; apply lookup_app_l; lia).
  constructor; try done.
  - rewrite length_app. lia.
  - eapply holds_impl; [done|]. intros s x Hs (p & Hp & Hx). exists p. by rewrite Hin.
  - intros k Ek. destruct (Hk k Ek) as [? ?]. by rewrite Hin by lia.
  - intros s p Hs. rewrite Hin; [by apply Hlast|]. destruct ph; cbn in *; lia.
Qed.

Lemma ops_ok_nil_inv cap l n ph i : ops_ok cap l n ph i [] -> n = length l /\ ph = Ready /\ i = length l.
Proof. inversion 1. auto. Qed.

Section with_memmem'.
Context `{Memmem}.

Lemma ring_step_ok f n c c' :
  conf_ok f n c -> ring_step c c' ->
  exists n', (n <= n')%nat /\ conf_ok f n' c' /\ capacity (ring c') = capacity (ring c) /\ log c `prefix_of` log c'.
Proof.
  intros (ph & Hr & Hops) Hs.
  assert (Hidle : forall ops packets, pending c = [] ->
    (write_idx (ring c) = length (log c) -> generations_ok (track_configs (ring c)) ->
     ops_ok (capacity (ring c)) (log c ++ packets) (length (log c)) Ready (length (log c)) ops) ->
    exists n', (n <= n')%nat /\ conf_ok f n' (mk_conf (ring c) ops (log c ++ packets)) /\
      capacity (ring c) = capacity (ring c) /\ log c `prefix_of` log c ++ packets).
  { intros ops packets Hp Ho. rewrite Hp in Hops. apply ops_ok_nil_inv in Hops as (-> & -> & Hi).
    exists (length (log c)). split_and!; [done| |done|by exists packets]. exists Ready. cbn.
    split; [by apply represents_log_app|]. rewrite Hi. apply Ho; [done|apply Hr]. }
  assert (Hidle0 : forall ops, pending c = [] ->
    ops_ok (capacity (ring c)) (log c) (length (log c)) Ready (length (log c)) ops ->
    exists n', (n <= n')%nat /\ conf_ok f n' (mk_conf (ring c) ops (log c)) /\
      capacity (ring c) = capacity (ring c) /\ log c `prefix_of` log c).
  { intros ops Hp Ho. destruct (Hidle ops [] Hp) as (n' & ?); [by rewrite app_nil_r|]. exists n'. by rewrite app_nil_r in *. }
  destruct Hs as [r l p us|r l record packets us|r l mt ti bs|r l|r l tr|r op ops l]; cbn in *.
  - apply Hidle; [done|]. apply push_ops_ok.
  - apply Hidle; [done|]. apply publish_ops_ok.
  - apply Hidle0; [done|]. eapply ops_cons; [apply ok_set_config|constructor].
  - apply Hidle0; [done|]. eapply ops_cons; [apply ok_clear_config|constructor].
  - apply Hidle0; [done|]. apply audio_track_ops_ok.
  - inversion Hops as [|? ? ? ? n' ph' ? Hop Hrest]; subst. exists n'.
    split_and!; [by eapply op_ok_mono| |apply apply_op_capacity|done]. exists ph'. cbn.
    split; [by eapply op_ok_represents|]. by rewrite apply_op_capacity, apply_op_write_idx.
Qed.

Lemma ring_steps_ok c c' : rtc ring_step c c' -> forall f n, conf_ok f n c ->
  exists n', (n <= n')%nat /\ conf_ok f n' c' /\ capacity (ring c') = capacity (ring c) /\ log c `prefix_of` log c'.
Proof.
  induction 1 as [c|c c1 c' Hs _ IH]; intros f n Hok; [by exists n|].
  destruct (ring_step_ok f n c c1 Hok Hs) as (n1 & ? & Hok1 & Hcap & Hpre).
  destruct (IH f n1 Hok1) as (n' & ? & Hok' & Hcap' & Hpre'). exists n'.
  split_and!; [lia|done|congruence|by etrans].
Qed.
End with_memmem'.

(** *** Reads of a quiet ring *)

Lemma tag_unpack s s' slot : tag_is s slot ->
  (exists u, FrameUnit_unpack (slot_unit slot) (Z.of_nat s') = Some u) <-> Z.of_nat s mod 2 ^ 31 = Z.of_nat s' mod 2 ^ 31.
Proof.
  intros (u & Hu & ->). rewrite unpack_pack by done. case_if; split; intros Hx; try done; [by exists u|].
  by destruct Hx.
Qed.

(** A sequence whose word is in its slot, in the last lap. *)
Lemma unit_retained f l r n ph s :
  represents f l r n ph -> (f <= s < tagged n ph)%nat -> (tagged n ph <= s + capacity r)%nat ->
  is_Some (slot_unit_at r s).
Proof.
  intros Hr H1 H2. destruct (holds_get _ _ _ _ _ _ s (rep_cap _ _ _ _ _ Hr) (rep_tags _ _ _ _ _ Hr) H1 H2) as (slot & Es & Ht).
  unfold slot_unit_at, ring_slot. rewrite Es. cbn. by apply (tag_unpack s s slot Ht).
Qed.

Lemma packet_retained f l r n ph s :
  represents f l r n ph -> (f <= s < n)%nat -> (n <= s + capacity r)%nat -> slot_packet r s = l !! s.
Proof.
  intros Hr H1 H2. destruct (holds_get _ _ _ _ _ _ s (rep_cap _ _ _ _ _ Hr) (rep_data _ _ _ _ _ Hr) H1 H2) as (slot & Es & p & Hp & Hd).
  unfold slot_packet, ring_slot. rewrite Es. cbn. by rewrite Hp.
Qed.

Lemma packet_missing f l r n ph s :
  represents f l r n ph -> (s < n)%nat -> (s < f)%nat -> (n <= s + capacity r)%nat -> slot_packet r s = None.
Proof.
  intros Hr H1 Hf H2. unfold slot_packet, ring_slot.
  destruct (slots r !! _) as [slot|] eqn:Es; [|done]. cbn.
  destruct (proj2 (rep_data _ _ _ _ _ Hr) _ _ Es) as [(s' & ? & ? & E & _)|[? _]]; [|done].
  apply (lap_inj (capacity r) n) in E; [lia|apply Hr|lia|lia].
Qed.

Lemma read_at_retained f l r n s :
  represents f l r n Ready -> (f <= s < n)%nat -> (n <= s + capacity r)%nat -> read_at r s = l !! s.
Proof.
  intros Hr H1 H2. unfold read_at, read_at_across. rewrite (packet_retained f l r n Ready) by done.
  destruct (unit_retained f l r n Ready s Hr H1 H2) as [u ->]. by destruct (l !! s).
Qed.

(** *** Growing a ring *)

Section seeding.
Context (f : nat) (l : list MediaPacket) (old_ring : RingBuffer) (n : nat) (us : nat -> Z).
Context (Hold : represents f l old_ring n Ready).

Lemma seed_loop_app a b : forall self copied lk,
  seed_loop self old_ring us (a ++ b) copied lk =
    let '(self, copied, lk) := seed_loop self old_ring us a copied lk in seed_loop self old_ring us b copied lk.
Proof.
  induction a as [|i a IH]; intros self copied lk; [done|]. cbn [app seed_loop].
  destruct (read_at old_ring i), (ring_slot old_ring i); apply IH.
Qed.

Lemma seed_loop_skip k : forall m self copied lk,
  (m + k <= f)%nat -> (m + k <= n)%nat -> (n <= m + capacity old_ring)%nat ->
  seed_loop self old_ring us (seq m k) copied lk = (self, copied, lk).
Proof.
  induction k as [|k IH]; intros m self copied lk H1 H2 H3; [done|]. cbn [seq seed_loop].
  assert (read_at old_ring m = None) as ->.
  { unfold read_at, read_at_across. by rewrite (packet_missing f l old_ring n Ready) by (done || lia). }
  apply IH; lia.
Qed.

(** The slots of the new ring [self] are seeded up to [m], [lk] is the last keyframe. *)
Record seeded (fl m : nat) (self : RingBuffer) (lk : option nat) : Prop := {
  seeded_data : holds fl m (capacity self) (data_is l) (fun slot => slot_data slot = None) (slots self);
  seeded_tags : holds fl m (capacity self) tag_is (fun slot => slot_unit slot = 0) (slots self);
  seeded_kf : forall k, lk = Some k -> (fl <= k < m)%nat /\ exists p, l !! k = Some p /\ is_video_keyframe p = true;
  seeded_last : forall s p, (fl <= s < m)%nat -> l !! s = Some p -> is_video_keyframe p = true ->
    exists k, lk = Some k /\ (s <= k)%nat;
}.

Lemma seed_slot_seeded fl m self lk p slot t :
  (0 < capacity self)%nat -> (fl <= m)%nat -> seeded fl m self lk -> l !! m = Some p -> tag_is m slot ->
  seeded fl (S m) (seed_slot self m p (slot_unit slot) t) (if is_video_keyframe p then Some m else lk).
Proof.
  intros Hc Hfl [Hd Ht Hk Hlast] Hp Htag. unfold seed_slot.
  constructor; cbn [run_ops fold_left apply_op set_slot slots capacity].
  - apply holds_keep; [|done|done]. apply holds_write; [done|done| |intros x; by exists p].
    by apply holds_keep.
  - apply holds_write; [done|done| |intros x; exact Htag].
    apply holds_keep; [|done|done]. by apply holds_keep.
  - intros k Ek. destruct (is_video_keyframe p) eqn:Ep.
    + injection Ek as <-. split; [lia|by exists p].
    + destruct (Hk k Ek) as [? ?]. split; [lia|done].
  - intros s q Hs Hq Hkf. destruct (is_video_keyframe p) eqn:Ep; [exists m; split; [done|lia]|].
    apply (Hlast s q); [|done|done]. destruct (decide (s = m)) as [->|]; [congruence|lia].
Qed.

(** What a seeding does not touch. *)
Definition same_frame (a b : RingBuffer) : Prop :=
  capacity a = capacity b /\ write_begin a = write_begin b /\ track_configs a = track_configs b /\
  last_keyframe_idx a = last_keyframe_idx b.

Lemma seed_loop_seeded fl k : forall m self copied lk,
  (0 < capacity self)%nat -> (fl <= m)%nat -> (f <= m)%nat -> (m + k = n)%nat ->
  (n <= m + capacity old_ring)%nat -> seeded fl m self lk ->
  let '(self', copied', lk') := seed_loop self old_ring us (seq m k) copied lk in
  seeded fl n self' lk' /\ same_frame self' self /\ copied' = (copied + k)%nat.
Proof.
  induction k as [|k IH]; intros m self copied lk Hc Hfl Hf Hmk Hcap Hs.
  { cbn. assert (m = n) as <- by lia. split_and!; [done|done|lia]. }
  cbn [seq seed_loop]. rewrite (read_at_retained f l old_ring n) by (done || lia).
  destruct (lookup_lt_is_Some_2 l m) as [p Hp]. { pose proof (rep_len _ _ _ _ _ Hold). lia. }
  destruct (holds_get _ _ _ _ _ _ m (rep_cap _ _ _ _ _ Hold) (rep_tags _ _ _ _ _ Hold)) as (slot & Es & Ht);
    [cbn; lia|cbn; lia|].
  rewrite Hp. unfold ring_slot. rewrite Es.
  specialize (IH (S m) (seed_slot self m p (slot_unit slot) (Z.max (us m) 1)) (copied + 1)%nat (if is_video_keyframe p then Some m else lk)).
  destruct (seed_loop _ _ _ _ _ _) as [[self' copied'] lk'].
  destruct IH as (H1 & H2 & H3); [done|lia|lia|lia|lia|by apply seed_slot_seeded|].
  split_and!; [done|exact H2|lia].
Qed.
End seeding.

Lemma zip_copy_gen a b : generations_ok b -> generations_ok a -> generations_ok (config_copy_from a b).
Proof.
  unfold generations_ok, config_copy_from. destruct a as [xs], b as [ys]. cbn [tracks]. intros Hb Ha.
  apply Forall_app. split; [|by apply Forall_drop]. revert ys Hb.
  induction xs as [|x xs IH]; intros [|y ys] Hb; cbn [zip_with]; constructor; inversion Hb; inversion Ha; subst; auto.
Qed.

Lemma generations_new : generations_ok TrackConfigs_new.
Proof. by repeat constructor. Qed.

(** The grown ring holds the same log, from the later of the old floor and the start of
    the copied tail, and says how much it copied. *)
Lemma grow_represents f l r us cap :
  represents f l r (length l) Ready -> write_idx r = length l -> (0 < cap)%nat ->
  let start := (length l - Nat.min (cap - 1) (capacity r - 1))%nat in
  let '(copied, r') := seed_readable_tail_from (new_continuing cap (write_idx r)) r us in
  represents (Nat.max f start) l r' (length l) Ready /\ write_idx r' = length l /\ capacity r' = cap /\
  copied = (length l - Nat.max f start)%nat.
Proof.
  intros Hr Hi Hc start. unfold seed_readable_tail_from. rewrite Hi.
  change (capacity (new_continuing cap (length l))) with cap. fold start. cbn zeta.
  set (fl := Nat.max f start). pose proof (rep_floor _ _ _ _ _ Hr) as Hf. cbn in Hf.
  pose proof (rep_cap _ _ _ _ _ Hr) as Hrc.
  replace (length l - start)%nat with ((fl - start) + (length l - fl))%nat by lia.
  rewrite seq_app, seed_loop_app. replace (start + (fl - start))%nat with fl by lia.
  assert (Hskip : forall self, seed_loop self r us (seq start (fl - start)) 0 None = (self, 0%nat, None)).
  { intros self. destruct (decide (start <= f)%nat) as [Hle|Hgt].
    - apply (seed_loop_skip f l r (length l)); [done|lia..].
    - by replace (fl - start)%nat with 0%nat by lia. }
  rewrite Hskip.
  pose proof (seed_loop_seeded f l r (length l) us Hr fl (length l - fl) fl
      (begin_write (new_continuing cap (length l)) (length l)) 0 None) as Hs.
  destruct (seed_loop _ _ _ _ _ _) as [[self' copied'] lk'].
  destruct Hs as (Hs & (E1 & E2 & E3 & E4) & ->); [done|lia|lia|lia|lia|
      constructor; [by apply holds_empty|by apply holds_empty|done|lia]|].
  cbn in E1, E2, E3, E4. destruct Hs as [Hd Ht Hk Hlast]. rewrite E4.
  replace (match lk' with Some i => Some i | None => None end) with lk' by (by destruct lk').
  split_and!; [constructor; cbn; try done; try lia|done|done|lia].
  apply zip_copy_gen; [apply Hr|]. rewrite E3. apply generations_new.
Qed.

(** *** Every reachable state *)

Lemma represents_new cap : (0 < cap)%nat -> represents 0 [] (RingBuffer_new cap) 0 Ready.
Proof.
  intros Hc. constructor; cbn; try done; try lia; try (by apply holds_empty). apply generations_new.
Qed.

Lemma reachable_ok `{Memmem} c : reachable c -> exists f n, conf_ok f n c.
Proof.
  induction 1 as [cap Hc|c c' _ (f & n & Hok) Hs|r l cap us _ (f & n & ph & Hr & Hops) Hc].
  - exists 0%nat, 0%nat, Ready. split; [by apply represents_new|]. constructor.
  - destruct (ring_step_ok f n c c' Hok Hs) as (n' & _ & ? & _). eauto.
  - cbn in *. apply ops_ok_nil_inv in Hops as (-> & -> & Hi).
    pose proof (grow_represents f l r us cap Hr Hi Hc) as Hg.
    destruct (seed_readable_tail_from _ _ _) as [copied r']. destruct Hg as (Hg & Hi' & _). cbn.
    eexists _, _, Ready. split; [done|]. cbn. rewrite Hi'. constructor.
Qed.

(** *** Loads of a reader *)

(** A word that unpacks for [s] was stored for [s], and no write a lap later began. *)
Lemma unit_is_own f l r n ph s u :
  represents f l r n ph -> slot_unit_at r s = Some u -> (s < tagged n ph)%nat ->
  Z.of_nat (write_begin r) <= Z.of_nat s + 2 ^ 31 ->
  (tagged n ph <= s + capacity r)%nat.
Proof.
  intros Hr Hu Hs Hmax. unfold slot_unit_at, ring_slot in Hu.
  destruct (slots r !! _) as [slot|] eqn:Es; [|done]. cbn in Hu.
  destruct (proj2 (rep_tags _ _ _ _ _ Hr) _ _ Es) as [(q & Hq1 & Hq2 & Eq & Ht)|[E0 _]].
  2: by rewrite E0, unpack_zero in Hu.
  assert (Em : Z.of_nat q mod 2 ^ 31 = Z.of_nat s mod 2 ^ 31) by (apply (tag_unpack q s slot Ht); by exists u).
  rewrite (rep_begin _ _ _ _ _ Hr) in Hmax.
  assert (Hqb : (q < begun n ph)%nat) by (destruct ph; cbn in *; lia).
  destruct (decide (q = s)) as [->|Hne]; [done|].
  destruct (decide (q < s)%nat) as [Hlt|Hge]; [lia|exfalso].
  pose proof (Z.div_mod (Z.of_nat q) (2 ^ 31)). pose proof (Z.div_mod (Z.of_nat s) (2 ^ 31)). nia.
Qed.

(** The packet of a slot is that of its last sequence. *)
Lemma packet_is_own f l r n ph s p :
  represents f l r n ph -> slot_packet r s = Some p -> (s < n <= s + capacity r)%nat -> l !! s = Some p.
Proof.
  intros Hr Hp Hs. unfold slot_packet, ring_slot in Hp.
  destruct (slots r !! _) as [slot|] eqn:Es; [|done]. cbn in Hp.
  destruct (proj2 (rep_data _ _ _ _ _ Hr) _ _ Es) as [(q & Hq1 & Hq2 & Eq & (p' & Hl & Hd))|[E0 _]]; [|congruence].
  assert (q = s) as -> by (apply (lap_inj (capacity r) n); [apply Hr|done|lia|lia]). congruence.
Qed.

Lemma read_at_cases f l r n s :
  represents f l r n Ready -> (s < n <= s + capacity r)%nat ->
  read_at r s = if decide (f <= s)%nat then l !! s else None.
Proof.
  intros Hr Hs. destruct (decide (f <= s)%nat) as [Hf|Hf].
  - apply (read_at_retained f l r n); [done|lia|lia].
  - unfold read_at, read_at_across. by rewrite (packet_missing f l r n Ready) by (done || lia).
Qed.

Lemma tagged_ge n ph : (n <= tagged n ph)%nat.
Proof. destruct ph; cbn; lia. Qed.
Lemma tagged_begun n ph : (tagged n ph <= begun n ph)%nat.
Proof. destruct ph; cbn; lia. Qed.

Section reads.
Context `{Memmem}.

(** A load of the packet, then anything of the producer, then a load of the word. *)
Lemma load_then_check c c' s p u :
  reachable c -> rtc ring_step c c' -> (s < write_idx (ring c))%nat ->
  Z.of_nat (write_begin (ring c')) <= Z.of_nat s + 2 ^ 31 ->
  slot_packet (ring c) s = Some p -> slot_unit_at (ring c') s = Some u -> log c !! s = Some p.
Proof.
  intros Hreach Hsteps Hs Hmax Hp Hu. destruct (reachable_ok c Hreach) as (f & n & Hok).
  destruct (ring_steps_ok c c' Hsteps f n Hok) as (n' & Hn & (ph' & Hr' & _) & Hcap & _).
  destruct Hok as (ph & Hr & _). pose proof (rep_idx _ _ _ _ _ Hr). pose proof (tagged_ge n' ph').
  assert (tagged n' ph' <= s + capacity (ring c'))%nat by (eapply unit_is_own; [done|done|lia|done]).
  eapply packet_is_own; [done|done|lia].
Qed.

(** A load of the packet, then a load of [write_begin] less than a lap later. *)
Lemma load_then_begin c c' s start p :
  reachable c -> rtc ring_step c c' -> (start <= s < write_idx (ring c))%nat ->
  (write_begin (ring c') <= start + capacity (ring c'))%nat ->
  slot_packet (ring c) s = Some p -> log c !! s = Some p.
Proof.
  intros Hreach Hsteps Hs Hb Hp. destruct (reachable_ok c Hreach) as (f & n & Hok).
  destruct (ring_steps_ok c c' Hsteps f n Hok) as (n' & Hn & (ph' & Hr' & _) & Hcap & _).
  destruct Hok as (ph & Hr & _). pose proof (rep_idx _ _ _ _ _ Hr).
  pose proof (tagged_ge n' ph'). pose proof (tagged_begun n' ph'). rewrite (rep_begin _ _ _ _ _ Hr') in Hb.
  eapply packet_is_own; [done|done|lia].
Qed.

Lemma step_write_idx c c' : reachable c -> ring_step c c' -> (write_idx (ring c) <= write_idx (ring c'))%nat.
Proof.
  intros Hreach Hs. destruct (reachable_ok c Hreach) as (f & n & ph & Hr & Hops).
  destruct Hs as [| | | | |r op ops l]; try done. cbn in *. rewrite apply_op_write_idx.
  inversion Hops as [|? ? ? ? n' ph' ? Hop _]; subst.
  pose proof (rep_idx _ _ _ _ _ Hr). by destruct Hop.
Qed.

Lemma log_grows c c' s p : reachable c -> rtc ring_step c c' -> log c !! s = Some p -> log c' !! s = Some p.
Proof.
  intros Hreach Hsteps Hp. destruct (reachable_ok c Hreach) as (f & n & Hok).
  destruct (ring_steps_ok c c' Hsteps f n Hok) as (_ & _ & _ & _ & Hpre). by eapply prefix_lookup_Some.
Qed.

(** [fast_forward] stays in the window of a quiet ring. *)
Lemma fast_forward_window r l :
  reachable (mk_conf r [] l) ->
  (fast_forward r (write_idx r) <= write_idx r < fast_forward r (write_idx r) + capacity r)%nat.
Proof.
  intros Hreach. destruct (reachable_ok _ Hreach) as (f & n & ph & Hr & Hops). cbn in *.
  apply ops_ok_nil_inv in Hops as (-> & -> & Hi). pose proof (rep_cap _ _ _ _ _ Hr).
  unfold fast_forward. destruct (last_keyframe_idx r) as [k|] eqn:Ek; [|lia].
  destruct (rep_kf _ _ _ _ _ Hr k Ek) as [? _]. case_if; bool_to_prop; lia.
Qed.

Lemma reachable_steps c c' : reachable c -> rtc ring_step c c' -> reachable c'.
Proof. intros Hc. induction 1 as [|c c1 c' Hs _ IH]; [done|]. apply IH. by eapply reach_step. Qed.

Lemma steps_write_idx c c' : reachable c -> rtc ring_step c c' -> (write_idx (ring c) <= write_idx (ring c'))%nat.
Proof.
  intros Hc Hs. induction Hs as [|c c1 c' Hs _ IH]; [done|].
  pose proof (step_write_idx c c1 Hc Hs). specialize (IH (reach_step c c1 Hc Hs)). lia.
Qed.

(** *** Runs of the producer *)

Lemma run_ops_steps ops : forall r l, rtc ring_step (mk_conf r ops l) (mk_conf (run_ops r ops) [] l).
Proof.
  induction ops as [|op ops IH]; intros r l; [done|]. eapply rtc_l; [apply step_op|]. apply IH.
Qed.

Lemma publish_steps record r packets us l :
  rtc ring_step (mk_conf r [] l) (mk_conf (run_ops r (publish_ops record r packets us)) [] (l ++ packets)).
Proof. eapply rtc_l; [apply (step_batch r l record packets us)|]. apply run_ops_steps. Qed.

Lemma drained_steps record fuel : forall r packets us total l,
  (length packets < fuel)%nat ->
  let '(total', r') := push_drained_loop record fuel r packets us total in
  total' = (total + length packets)%nat /\ rtc ring_step (mk_conf r [] l) (mk_conf r' [] (l ++ packets)).
Proof.
  induction fuel as [|fuel IH]; intros r packets us total l Hf; [lia|]. cbn [push_drained_loop].
  set (chunk := take MEDIA_PRODUCER_BATCH_PACKETS packets). set (rest := drop MEDIA_PRODUCER_BATCH_PACKETS packets).
  assert (E : packets = chunk ++ rest) by (symmetry; apply take_drop).
  replace (if record then push_batch_recording_config r chunk us else push_batch r chunk us)
    with (length chunk, run_ops r (publish_ops record r chunk us)) by (by destruct record).
  pose proof (publish_steps record r chunk us l) as Hchunk.
  assert (Hlen : length packets = (length chunk + length rest)%nat) by (rewrite E at 1; apply length_app).
  destruct (length chunk =? 0)%nat eqn:Ez.
  - apply Nat.eqb_eq, nil_length_inv in Ez. assert (packets = []) as ->.
    { destruct packets; [done|]. by unfold chunk in Ez. }
    cbn. split; [lia|]. exact Hchunk.
  - apply Nat.eqb_neq in Ez. specialize (IH (run_ops r (publish_ops record r chunk us)) rest us (total + length chunk)%nat (l ++ chunk)).
    destruct (push_drained_loop _ _ _ _ _ _) as [total' r']. destruct IH as [-> IH]; [lia|].
    split; [lia|]. rewrite <- app_assoc, <- E in IH. by etrans.
Qed.
End reads.

(** Packets loaded one by one, the whole run checked afterwards. *)
Lemma run_intact_loads `{Memmem} (at_load : nat -> conf) c (at_check : nat -> conf) (packets : nat -> MediaPacket) start end_ :
  (forall s, (start <= s < end_)%nat ->
     reachable (at_load s) /\ (s < write_idx (ring (at_load s)))%nat /\
     slot_packet (ring (at_load s)) s = Some (packets s) /\ rtc ring_step (at_load s) c /\
     rtc ring_step c (at_check s) /\ Z.of_nat (write_begin (ring (at_check s))) <= Z.of_nat s + 2 ^ 31) ->
  run_intact_across (ring c) (fun s => ring (at_check s)) start end_ = true ->
  forall s, (start <= s < end_)%nat -> log c !! s = Some (packets s).
Proof.
  intros Hrun. unfold run_intact_across. intros Hok s Hs.
  destruct (Hrun s Hs) as (Hreach & Hw & Hp & Hc & Hlater & Hmax). eapply log_grows; [done|done|].
  destruct (Nat.leb_spec (write_begin (ring c)) (start + capacity (ring c))) as [Hle|Hgt].
  - apply (load_then_begin (at_load s) c s start); [done|done|lia|done|done].
  - rewrite forallb_forall in Hok. specialize (Hok s). rewrite in_seq in Hok.
    destruct (slot_unit_at (ring (at_check s)) s) as [u|] eqn:Eu; [|discriminate Hok; lia].
    apply (load_then_check (at_load s) (at_check s) s _ u); [done|by etrans|done|done|done|done].
Qed.

(** ** Properties *)

(** C3: A read never delivers another sequence's packet.  Take any reachable state of a
    ring, a sequence below its write index, the load of the packet there, then any steps
    of the producer (in the middle of a batch or not, laps included, short of 2^31
    sequences), then the load of the word: if [read_at] gives a packet, it is the one
    published at that sequence. *)
Theorem read_at_own_packet `{Memmem} c c' s p :
  reachable c -> rtc ring_step c c' -> (s < write_idx (ring c))%nat ->
  Z.of_nat (write_begin (ring c')) <= Z.of_nat s + 2 ^ 31 ->
  read_at_across (ring c) (ring c') s = Some p -> log c !! s = Some p.
Proof.
  intros Hreach Hsteps Hs Hmax. unfold read_at_across.
  destruct (slot_packet (ring c) s) as [q|] eqn:Ep; [|done]. cbn.
  destruct (slot_unit_at (ring c') s) as [u|] eqn:Eu; [|done]. intros [= <-]. by eapply load_then_check.
Qed.

(** C6: The check of a whole run is enough.  The packets of a run are loaded one by one
    with no check, each in some reachable state in which its sequence was published;
    later [run_intact] loads [write_begin] and perhaps the words, each in a state of its
    own, the producer running all the while.  If it says the run is intact, every packet
    loaded is the one published at its sequence. *)
Theorem run_intact_sound `{Memmem} (at_load : nat -> conf) c (at_check : nat -> conf) (packets : nat -> MediaPacket) start end_ :
  (forall s, (start <= s < end_)%nat ->
     reachable (at_load s) /\ (s < write_idx (ring (at_load s)))%nat /\
     slot_packet (ring (at_load s)) s = Some (packets s) /\ rtc ring_step (at_load s) c /\
     rtc ring_step c (at_check s) /\ Z.of_nat (write_begin (ring (at_check s))) <= Z.of_nat s + 2 ^ 31) ->
  run_intact_across (ring c) (fun s => ring (at_check s)) start end_ = true ->
  forall s, (start <= s < end_)%nat -> log c !! s = Some (packets s).
Proof. exact (run_intact_loads at_load c at_check packets start end_). Qed.

(** What was published can be read back.  Between two publications of a ring that was
    not grown, every sequence of the last lap reads as its packet, and the run of them
    is intact. *)
Theorem published_reads_back `{Memmem} cap r l :
  (0 < cap)%nat -> rtc ring_step (mk_conf (RingBuffer_new cap) [] []) (mk_conf r [] l) ->
  write_idx r = length l /\
  (forall s, (s < length l)%nat -> (length l <= s + cap)%nat -> read_at r s = l !! s) /\
  (forall start end_, (length l <= start + cap)%nat -> run_intact r start end_ = true).
Proof.
  intros Hc Hsteps. assert (Hok : conf_ok 0 0 (mk_conf (RingBuffer_new cap) [] [])).
  { exists Ready. split; [by apply represents_new|]. constructor. }
  destruct (ring_steps_ok _ _ Hsteps 0 0 Hok) as (n & _ & (ph & Hr & Hops) & Hcap & _). cbn in *.
  apply ops_ok_nil_inv in Hops as (-> & -> & Hi). split_and!; [done| |].
  - intros s Hs Hl. eapply read_at_retained; [done|lia|lia].
  - intros start end_ Hl. unfold run_intact, run_intact_across. rewrite (rep_begin _ _ _ _ _ Hr), Hcap. cbn.
    by rewrite (proj2 (Nat.leb_le _ _) Hl).
Qed.

(** Growing a ring keeps its readable tail.  A ring of any other capacity seeded from
    a quiet ring has the same write index, and of the sequences both have room for it
    reads the same packet, or none where the old ring had none. *)
Theorem grow_keeps_tail `{Memmem} r l cap us :
  reachable (mk_conf r [] l) -> (0 < cap)%nat ->
  let r' := (seed_readable_tail_from (new_continuing cap (write_idx r)) r us).2 in
  write_idx r' = write_idx r /\ capacity r' = cap /\
  forall s, (s < write_idx r)%nat -> (write_idx r <= s + Nat.min (cap - 1) (capacity r - 1))%nat ->
    read_at r' s = read_at r s.
Proof.
  intros Hreach Hc. destruct (reachable_ok _ Hreach) as (f & n & ph & Hr & Hops). cbn in *.
  apply ops_ok_nil_inv in Hops as (-> & -> & Hi). pose proof (grow_represents f l r us cap Hr Hi Hc) as Hg.
  destruct (seed_readable_tail_from _ _ _) as [copied r']. cbn. destruct Hg as (Hg & Hi' & Hcap & _).
  rewrite Hi, Hi' in *. split_and!; [done|done|]. intros s Hs Hl. pose proof (rep_cap _ _ _ _ _ Hr).
  rewrite (read_at_cases f l r (length l)) by (done || lia).
  rewrite (read_at_cases _ l r' (length l) s Hg) by lia. repeat destruct (decide _); done || lia.
Qed.

(** A reader that falls behind resumes at the newest keyframe.  Between two
    publications [fast_forward] gives the sequence of a video keyframe that can be read,
    with no keyframe after it, or the write index when no keyframe can be read (of the
    last [capacity - 1] sequences). *)
Theorem fast_forward_newest_keyframe `{Memmem} r l :
  reachable (mk_conf r [] l) ->
  let k := fast_forward r (write_idx r) in
  ((k < write_idx r)%nat /\ (exists p, read_at r k = Some p /\ is_video_keyframe p = true) /\
   forall s p, (k < s < write_idx r)%nat -> read_at r s = Some p -> is_video_keyframe p = false) \/
  (k = write_idx r /\
   forall s p, (s < write_idx r < s + capacity r)%nat -> read_at r s = Some p -> is_video_keyframe p = false).
Proof.
  intros Hreach. destruct (reachable_ok _ Hreach) as (f & n & ph & Hr & Hops). cbn in *.
  apply ops_ok_nil_inv in Hops as (-> & -> & Hi). rewrite Hi.
  assert (Hread : forall s p, (s < length l)%nat -> (length l <= s + capacity r)%nat -> read_at r s = Some p ->
    is_video_keyframe p = true -> exists k, last_keyframe_idx r = Some k /\ (s <= k)%nat).
  { intros s p Hs Hl Hp Hkf. rewrite (read_at_cases f l r (length l) s Hr) in Hp by lia.
    destruct (decide (f <= s)%nat) as [Hf|]; [|done]. apply (rep_last _ _ _ _ _ Hr s p); [cbn; lia|done|done]. }
  pose proof (rep_kf _ _ _ _ _ Hr) as Hkf. unfold fast_forward.
  destruct (last_keyframe_idx r) as [k|] eqn:Ek.
  2: { right. split; [done|]. intros s p Hs Hp. apply not_true_is_false. intros Hk.
       destruct (Hread s p) as (? & ? & _); [lia|lia|done|done|done]. }
  destruct (Hkf k eq_refl) as (Hk & p & Hp & Hpk).
  destruct (Nat.ltb_spec (length l - k) (capacity r)) as [Hlt|Hge].
  - left. split_and!; [lia| |].
    + exists p. rewrite (read_at_retained f l r (length l)) by (done || lia). done.
    + intros s q Hs Hq. apply not_true_is_false. intros Hqk.
      destruct (Hread s q) as (? & [= <-] & ?); [lia|lia|done|done|lia].
  - right. split; [done|]. intros s q Hs Hq. apply not_true_is_false. intros Hqk.
    destruct (Hread s q) as (? & [= <-] & ?); [lia|lia|done|done|lia].
Qed.

(** Draining publishes everything, in order: [push_drained_batch_capped] and its
    recording variant end, count every packet, and are runs of whole publications of at
    most 32 packets whose log gains exactly the packets drained. *)
Theorem drained_batch_publishes_all `{Memmem} r l packets us :
  let '(total, r') := push_drained_batch_capped r packets us in
  let '(total_rec, r'_rec) := push_drained_batch_recording_config r packets us in
  total = length packets /\ rtc ring_step (mk_conf r [] l) (mk_conf r' [] (l ++ packets)) /\
  total_rec = length packets /\ rtc ring_step (mk_conf r [] l) (mk_conf r'_rec [] (l ++ packets)).
Proof.
  unfold push_drained_batch_capped, push_drained_batch_recording_config.
  pose proof (drained_steps false (S (length packets)) r packets us 0 l) as H1.
  pose proof (drained_steps true (S (length packets)) r packets us 0 l) as H2.
  destruct (push_drained_loop false _ _ _ _ _) as [t r1]. destruct (push_drained_loop true _ _ _ _ _) as [t' r2].
  destruct H1 as [-> ?], H2 as [-> ?]; [lia..|]. done.
Qed.

(** *** A ring of two slots at work *)

#[local] Existing Instances naive_memmem.

Definition example_packet (kf : bool) (t : Z) : MediaPacket := mk_MediaPacket Video Raw kf 0 t t [t].
Definition example_packets : list MediaPacket := [example_packet true 1; example_packet false 2; example_packet true 3].
(** Three packets published, the first of them lapped. *)
Definition example_quiet : conf :=
  mk_conf (push_batch (RingBuffer_new 2) example_packets 7).2 [] example_packets.
(** A fourth, up to the store of its word: slot 1 still has the packet of sequence 1. *)
Definition example_busy : conf :=
  let r := ring example_quiet in
  let p := example_packet false 4 in
  mk_conf (run_ops r (take 3 (push_ops r p 9))) (drop 3 (push_ops r p 9)) (example_packets ++ [p]).

Lemma example_quiet_steps : rtc ring_step (mk_conf (RingBuffer_new 2) [] []) example_quiet.
Proof. exact (publish_steps false (RingBuffer_new 2) example_packets 7 []). Qed.

Lemma example_quiet_reachable : reachable example_quiet.
Proof.
  eapply reachable_steps; [apply (reach_new 2); lia|]. apply example_quiet_steps.
Qed.

Lemma example_busy_steps : rtc ring_step example_quiet example_busy.
Proof.
  eapply rtc_l; [apply (step_push _ _ (example_packet false 4) 9)|].
  eapply rtc_l; [apply step_op|]. eapply rtc_l; [apply step_op|]. eapply rtc_l; [apply step_op|]. apply rtc_refl.
Qed.

Lemma read_at_own_packet_witness :
  read_at_across (ring example_quiet) (ring example_busy) 1 = None /\
  read_at_across (ring example_quiet) (ring example_busy) 2 = Some (example_packet true 3) /\
  log example_quiet !! 2%nat = Some (example_packet true 3).
Proof.
  split; [by vm_compute|]. split; [by vm_compute|].
  apply (read_at_own_packet example_quiet example_busy 2 (example_packet true 3)).
  - apply example_quiet_reachable.
  - apply example_busy_steps.
  - vm_compute. lia.
  - vm_compute. discriminate.
  - by vm_compute.
Defined.

Lemma run_intact_sound_witness :
  run_intact (ring example_busy) 2 3 = true /\ log example_busy !! 2%nat = Some (example_packet true 3).
Proof.
  split; [by vm_compute|].
  apply (run_intact_sound (fun _ => example_quiet) example_busy (fun _ => example_busy) (fun _ => example_packet true 3) 2 3).
  - intros s Hs. assert (s = 2)%nat as -> by lia. split_and!.
    + apply example_quiet_reachable.
    + vm_compute. lia.
    + by vm_compute.
    + apply example_busy_steps.
    + apply rtc_refl.
    + vm_compute. discriminate.
  - by vm_compute.
  - lia.
Defined.

Lemma published_reads_back_witness :
  let r := ring example_quiet in
  write_idx r = length example_packets /\
  (forall s, (s < length example_packets)%nat -> (length example_packets <= s + 2)%nat -> read_at r s = example_packets !! s) /\
  (forall start end_, (length example_packets <= start + 2)%nat -> run_intact r start end_ = true).
Proof.
  apply (published_reads_back 2 (ring example_quiet) example_packets).
  - lia.
  - apply example_quiet_steps.
Defined.

Lemma grow_keeps_tail_witness :
  let r := ring example_quiet in
  let r' := (seed_readable_tail_from (new_continuing 5 (write_idx r)) r (fun _ => 11)).2 in
  read_at r' 2 = Some (example_packet true 3) /\
  write_idx r' = write_idx r /\ capacity r' = 5%nat /\
  forall s, (s < write_idx r)%nat -> (write_idx r <= s + Nat.min (5 - 1) (capacity r - 1))%nat ->
    read_at r' s = read_at r s.
Proof.
  split; [by vm_compute|]. apply (grow_keeps_tail (ring example_quiet) example_packets 5 (fun _ => 11)).
  - apply example_quiet_reachable.
  - lia.
Defined.

Lemma fast_forward_newest_keyframe_witness :
  let r := ring example_quiet in
  let k := fast_forward r (write_idx r) in
  k = 2%nat /\
  (((k < write_idx r)%nat /\ (exists p, read_at r k = Some p /\ is_video_keyframe p = true) /\
    forall s p, (k < s < write_idx r)%nat -> read_at r s = Some p -> is_video_keyframe p = false) \/
   (k = write_idx r /\
    forall s p, (s < write_idx r < s + capacity r)%nat -> read_at r s = Some p -> is_video_keyframe p = false)).
Proof.
  split; [by vm_compute|]. apply (fast_forward_newest_keyframe (ring example_quiet) example_packets).
  apply example_quiet_reachable.
Defined.
