(* ===== verification/Reader.v ===== *)
(** * Readers of the ring

    Models [crates/restream-sync/src/reader.rs]: a reader's position, the pull of one
    packet or of a burst, the resynchronisation of a reader that was lapped, and the
    migration to a grown ring.

    A reader runs beside the producer, so its loads see the ring at different times:
    [ring_at t] is the ring at the reader's [t]-th load, and every operation returns the
    time of its last load.  Registration, names, waiting and logging are left out. *)

From S2P Require Import Prelude Bits Annexb Media FrameUnits Ring.

(** ** Definitions *)

Definition BURST_HIST_BUCKETS : nat := 6.
Definition burst_bucket (n : nat) : nat :=
  if (n =? 1)%nat then 0
  else if (n =? 2)%nat then 1
  else if (3 <=? n)%nat && (n <=? 4)%nat then 2
  else if (5 <=? n)%nat && (n <=? 8)%nat then 3
  else if (9 <=? n)%nat && (n <=? 16)%nat then 4
  else 5.

(** [ReaderInfo]: what others see of a reader. *)
Record ReaderInfo := mk_ReaderInfo {
  info_read_idx : nat;
  overflow_count : Z;
  burst_count : Z;
  packet_sum : Z;
  burst_hist : list Z;
}.
Definition ReaderInfo_new (read_idx : nat) : ReaderInfo :=
  mk_ReaderInfo read_idx 0 0 0 (replicate BURST_HIST_BUCKETS 0).

Record Reader := mk_Reader {
  info : ReaderInfo;
  read_idx : nat;
  migration_preroll_packets : nat;
  awaiting_keyframe : bool;
}.

(** [burst_stats]: the bucket in which the cumulated count reaches half. *)
Fixpoint median_bucket_loop (half cumulative : Z) (index : nat) (histogram : list Z) : nat :=
  match histogram with
  | [] => 0
  | count :: rest =>
      let cumulative := cumulative + count in
      if half <=? cumulative then index else median_bucket_loop half cumulative (index + 1) rest
  end.
Definition median_burst_size (self : ReaderInfo) : Z :=
  match median_bucket_loop ((burst_count self + 1) / 2) 0 0 (burst_hist self) with
  | 0%nat => 1 | 1%nat => 2 | 2%nat => 3 | 3%nat => 6 | 4%nat => 12 | _ => 24
  end.

(** *** Construction *)

Definition register (start_idx migration_preroll : nat) : Reader :=
  mk_Reader (ReaderInfo_new start_idx) start_idx migration_preroll false.

Definition oldest_available (buffer : RingBuffer) (current_write : nat) : nat :=
  current_write - (capacity buffer - 1).

Definition preroll_start (buffer : RingBuffer) (current_write preroll_packets : nat) : nat :=
  let keyframe_start := fast_forward buffer current_write in
  if (keyframe_start <? current_write)%nat
  then Nat.max (keyframe_start - preroll_packets) (oldest_available buffer current_write)
  else keyframe_start.

Definition Reader_new (buffer : RingBuffer) : Reader := register (fast_forward buffer (write_idx buffer)) 0.
Definition new_with_keyframe_preroll (buffer : RingBuffer) (preroll_packets : nat) : Reader :=
  register (preroll_start buffer (write_idx buffer) preroll_packets) 0.
Definition new_stage_input (buffer : RingBuffer) (preroll_packets : nat) : Reader :=
  register (preroll_start buffer (write_idx buffer) preroll_packets) preroll_packets.
Definition new_live (buffer : RingBuffer) : Reader := register (write_idx buffer) 0.

Definition sync_read_idx (self : Reader) (i : nat) : Reader :=
  mk_Reader (mk_ReaderInfo i (overflow_count (info self)) (burst_count (info self)) (packet_sum (info self)) (burst_hist (info self)))
    i (migration_preroll_packets self) (awaiting_keyframe self).

Definition lag (buffer : RingBuffer) (self : Reader) : nat := write_idx buffer - read_idx self.

(** *** Pulling *)

Definition set_awaiting (self : Reader) (b : bool) : Reader :=
  mk_Reader (info self) (read_idx self) (migration_preroll_packets self) b.

Definition count_overflow (self : Reader) : Reader :=
  mk_Reader (mk_ReaderInfo (info_read_idx (info self)) (as_u64 (overflow_count (info self) + 1)) (burst_count (info self))
               (packet_sum (info self)) (burst_hist (info self)))
    (read_idx self) (migration_preroll_packets self) (awaiting_keyframe self).

Definition count_burst (self : Reader) (loaded : nat) : Reader :=
  let i := info self in
  mk_Reader (mk_ReaderInfo (info_read_idx i) (overflow_count i) (as_u64 (burst_count i + 1))
               (as_u64 (packet_sum i + Z.of_nat loaded))
               (alter (fun n => as_u64 (n + 1)) (burst_bucket loaded) (burst_hist i)))
    (read_idx self) (migration_preroll_packets self) (awaiting_keyframe self).

Inductive pull_result := PullOk (packet : option MediaPacket) | PullOverflow.
Inductive burst_result := BurstOk (loaded : nat) | BurstOverflow.

Section schedule.
Context (ring_at : nat -> RingBuffer).

Definition resync (t : nat) (self : Reader) (w : nat) : nat * Reader :=
  let self := sync_read_idx self (fast_forward (ring_at t) w) in
  (S t, set_awaiting (count_overflow self) true).

Definition lags_a_lap (t : nat) (self : Reader) (w : nat) : bool :=
  (read_idx self <? w)%nat && (capacity (ring_at t) <=? w - read_idx self)%nat.

(** The two loads of [read_at]. *)
Definition read_now (t : nat) (sequence : nat) : nat * option MediaPacket :=
  (S (S t), read_at_across (ring_at t) (ring_at (S t)) sequence).

(** One round of [pull]'s loop: [None] is the [continue]. *)
Definition pull_round (t : nat) (self : Reader) : nat * Reader * option pull_result :=
  let w := write_idx (ring_at t) in
  if (read_idx self =? w)%nat then (S t, self, Some (PullOk None))
  else
    let '(t, packet) := if lags_a_lap t self w then (S t, None) else read_now (S t) (read_idx self) in
    match packet with
    | None => let '(t, self) := resync t self w in (t, self, Some PullOverflow)
    | Some packet =>
        let self := sync_read_idx self (read_idx self + 1) in
        if awaiting_keyframe self then
          if is_video_interframe packet then (t, self, None)
          else (t, set_awaiting self (negb (is_video_keyframe packet)), Some (PullOk (Some packet)))
        else (t, self, Some (PullOk (Some packet)))
    end.

Fixpoint pull (fuel t : nat) (self : Reader) : option (nat * Reader * pull_result) :=
  match fuel with
  | O => None
  | S fuel' =>
      match pull_round t self with
      | (t, self, Some result) => Some (t, self, result)
      | (t, self, None) => pull fuel' t self
      end
  end.

(** [load]: the run of [sequences]. *)
Fixpoint load (t : nat) (output : list MediaPacket) (sequences : list nat) : nat * list MediaPacket * bool :=
  match sequences with
  | [] => (t, output, true)
  | sequence :: rest =>
      match read_now t sequence with
      | (t, None) => (t, output, false)
      | (t, Some packet) => load t (output ++ [packet]) rest
      end
  end.

(** The loop of [load_after_resync]; [sequence] rises to the write index. *)
Fixpoint load_after_resync_loop (fuel t : nat) (awaiting : bool) (output : list MediaPacket)
    (sequence loaded w max_packets : nat) : nat * bool * list MediaPacket * option nat :=
  match fuel with
  | O => (t, awaiting, output, Some sequence)
  | S fuel' =>
      if (sequence <? w)%nat && (loaded <? max_packets)%nat then
        match read_now t sequence with
        | (t, None) => (t, awaiting, output, None)
        | (t, Some packet) =>
            if awaiting && is_video_interframe packet then
              if (0 <? loaded)%nat then (t, awaiting, output, Some sequence)
              else load_after_resync_loop fuel' t awaiting output (sequence + 1) loaded w max_packets
            else
              let awaiting := awaiting && negb (is_video_keyframe packet) in
              load_after_resync_loop fuel' t awaiting (output ++ [packet]) (sequence + 1) (loaded + 1) w max_packets
        end
      else (t, awaiting, output, Some sequence)
  end.
Definition load_after_resync (t : nat) (self : Reader) (output : list MediaPacket) (w max_packets : nat)
    : nat * bool * list MediaPacket * option nat :=
  load_after_resync_loop (w - read_idx self) t (awaiting_keyframe self) output (read_idx self) 0 w max_packets.

Definition pull_burst (t : nat) (self : Reader) (output : list MediaPacket) (max_packets : nat)
    : nat * Reader * list MediaPacket * burst_result :=
  if (max_packets =? 0)%nat then (t, self, output, BurstOk 0)
  else
    let w := write_idx (ring_at t) in
    if lags_a_lap t self w then
      let '(t, self) := resync (S t) self w in (t, self, output, BurstOverflow)
    else
      let start_len := length output in
      let '(t, awaiting, output, next) :=
        if awaiting_keyframe self then load_after_resync (S t) self output w max_packets
        else
          let available := Nat.min (w - read_idx self) max_packets in
          match load (S t) output (seq (read_idx self) available) with
          | (t, output, true) => (t, awaiting_keyframe self, output, Some (read_idx self + available)%nat)
          | (t, output, false) => (t, awaiting_keyframe self, output, None)
          end in
      let self := set_awaiting self awaiting in
      match next with
      | None => let '(t, self) := resync t self w in (t, self, take start_len output, BurstOverflow)
      | Some next =>
          let loaded := (length output - start_len)%nat in
          let self := sync_read_idx self next in
          let self := if (0 <? loaded)%nat then count_burst self loaded else self in
          (t, self, output, BurstOk loaded)
      end.
End schedule.

(** *** Migration *)

Definition migrate_to (self : Reader) (new_ring : RingBuffer) : Reader :=
  let old_read_idx := read_idx self in
  let new_write_idx := write_idx new_ring in
  if (0 <? migration_preroll_packets self)%nat && (old_read_idx =? new_write_idx)%nat then
    let keyframe_start := fast_forward new_ring new_write_idx in
    if (keyframe_start <? new_write_idx)%nat then
      sync_read_idx self (Nat.max (keyframe_start - migration_preroll_packets self) (oldest_available new_ring new_write_idx))
    else self
  else self.

(** ** A reader beside the producer *)

Section concurrent.
Context `{Memmem} (confs : nat -> conf).

(** The states a reader's loads see: a run of the producer.  A run that ends goes on
    unchanged. *)
Definition run_of_producer : Prop := reachable (confs 0) /\ forall t, rtc ring_step (confs t) (confs (S t)).

(** The producer stays less than 2^31 sequences ahead of [s]. *)
Definition within_tags (s : nat) : Prop := forall t, Z.of_nat (write_begin (ring (confs t))) <= Z.of_nat s + 2 ^ 31.

Context (Hrun : run_of_producer).

Lemma run_steps t t' : (t <= t')%nat -> rtc ring_step (confs t) (confs t').
Proof. induction 1 as [|t' _ IH]; [done|]. etrans; [exact IH|apply Hrun]. Qed.

Lemma run_reachable t : reachable (confs t).
Proof. eapply reachable_steps; [apply Hrun|]. apply run_steps. lia. Qed.

Lemma run_write_idx t t' : (t <= t')%nat -> (write_idx (ring (confs t)) <= write_idx (ring (confs t')))%nat.
Proof. intros Ht. apply steps_write_idx; [apply run_reachable|by apply run_steps]. Qed.

Lemma run_log t t' s p : (t <= t')%nat -> log (confs t) !! s = Some p -> log (confs t') !! s = Some p.
Proof. intros Ht. apply log_grows; [apply run_reachable|by apply run_steps]. Qed.

#[local] Abbreviation ring_at := (fun t => ring (confs t)).

Lemma read_now_own t s t' p :
  read_now ring_at t s = (t', Some p) -> within_tags s -> (s < write_idx (ring (confs t)))%nat ->
  t' = S (S t) /\ log (confs t') !! s = Some p.
Proof.
  unfold read_now. intros [= <- Hp] Hw Hs. split; [done|]. apply (run_log t); [lia|].
  unfold read_at_across in Hp. destruct (slot_packet (ring (confs t)) s) as [q|] eqn:Eq; [|done]. cbn in Hp.
  destruct (slot_unit_at (ring (confs (S t))) s) as [u|] eqn:Eu; [|done]. injection Hp as <-.
  apply (load_then_check (confs t) (confs (S t)) s q u); try done; [apply run_reachable|apply run_steps; lia].
Qed.

Lemma within_tags_mono s s' : (s <= s')%nat -> within_tags s -> within_tags s'.
Proof. intros Hs Hw t. specialize (Hw t). lia. Qed.

(** Between the reader's position and [s] lie only interframes it must not deliver; none
    at all when it awaits no keyframe. *)
Definition skipped (t' : nat) (self : Reader) (s : nat) : Prop :=
  (read_idx self <= s)%nat /\ (awaiting_keyframe self = false -> s = read_idx self) /\
  forall i, (read_idx self <= i < s)%nat -> exists q, log (confs t') !! i = Some q /\ is_video_interframe q = true.

Definition pull_post (t : nat) (self : Reader) (t' : nat) (self' : Reader) (res : pull_result) : Prop :=
  (t <= t')%nat /\
  match res with
  | PullOk (Some p) =>
      exists s, skipped t' self s /\ read_idx self' = S s /\ (S s <= write_idx (ring (confs t')))%nat /\
        log (confs t') !! s = Some p /\
        (awaiting_keyframe self = true -> is_video_interframe p = false) /\
        awaiting_keyframe self' = awaiting_keyframe self && negb (is_video_keyframe p)
  | PullOk None =>
      skipped t' self (read_idx self') /\ awaiting_keyframe self' = awaiting_keyframe self /\
      exists t0, (t <= t0 <= t')%nat /\ read_idx self' = write_idx (ring (confs t0))
  | PullOverflow => awaiting_keyframe self' = true
  end.

Lemma pull_spec fuel : forall t self,
  (read_idx self <= write_idx (ring (confs t)))%nat -> within_tags (read_idx self) ->
  (forall i, (write_idx (ring (confs i)) < read_idx self + fuel)%nat) ->
  exists t' self' res, pull ring_at fuel t self = Some (t', self', res) /\ pull_post t self t' self' res.
Proof.
  induction fuel as [|fuel IH]; intros t self Hle Hw HN; [specialize (HN t); lia|].
  cbn [pull]. unfold pull_round. destruct (Nat.eqb_spec (read_idx self) (write_idx (ring (confs t)))) as [Eq|Hne].
  { eexists _, _, _. split; [done|]. split; [lia|]. split_and!; [|done|].
    - split_and!; [lia|done|lia].
    - exists t. split; [lia|done]. }
  destruct (lags_a_lap _ _ _ _).
  { eexists _, _, _. split; [done|]. split; [lia|done]. }
  destruct (read_now ring_at (S t) (read_idx self)) as [t1 [p|]] eqn:Er.
  2: { unfold read_now in Er. injection Er as <- _. eexists _, _, _. split; [done|]. split; [lia|done]. }
  pose proof (run_write_idx t (S t)) as Hm.
  destruct (read_now_own _ _ _ _ Er) as [-> Hp]; [done|lia|].
  pose proof (run_write_idx (S t) (S (S (S t)))) as Hm2.
  cbn [sync_read_idx awaiting_keyframe]. rewrite ?Ea.
  destruct (awaiting_keyframe self) eqn:Ea; [destruct (is_video_interframe p) eqn:Ei|].
  - destruct (IH (S (S (S t))) (sync_read_idx self (read_idx self + 1))) as (t' & self' & res & E & Ht & Hpost).
    { cbn. lia. } { cbn. eapply within_tags_mono; [|done]. lia. } { intros i. cbn. specialize (HN i). lia. }
    exists t', self', res. split; [exact E|]. split; [lia|].
    assert (Hskip : forall s, skipped t' (sync_read_idx self (read_idx self + 1)) s -> skipped t' self s).
    { intros s (H1 & _ & H2). cbn in H1, H2. split_and!; [lia|congruence|]. intros i Hi.
      destruct (decide (i = read_idx self)) as [->|]; [|apply H2; lia].
      exists p. split; [|done]. by apply (run_log (S (S (S t)))). }
    destruct res as [[q|]|]; [| |done].
    + destruct Hpost as (s & Hs & ? & ? & ? & Haw & Haw'). cbn in Haw, Haw'. rewrite Ea in Haw, Haw'. exists s.
      split_and!; auto. by rewrite Ea.
    + destruct Hpost as (Hs & Haw & t0 & ? & ?). cbn in Haw. split_and!; [by apply Hskip|congruence|exists t0; split; [lia|done]].
  - eexists _, _, _. split; [done|]. split; [lia|]. exists (read_idx self). cbn [set_awaiting sync_read_idx read_idx awaiting_keyframe]. rewrite ?Ea.
    split_and!; [split_and!; [lia|done|lia]|lia|lia|done|done|done].
  - eexists _, _, _. split; [done|]. split; [lia|]. exists (read_idx self). cbn [set_awaiting sync_read_idx read_idx awaiting_keyframe]. rewrite ?Ea.
    split_and!; [split_and!; [lia|done|lia]|lia|lia|done|done|done].
Qed.

(** *** Bursts *)

(** [run] is what was published from [first] on. *)
Definition is_run (t : nat) (first : nat) (run : list MediaPacket) : Prop :=
  forall i p, run !! i = Some p -> log (confs t) !! (first + i)%nat = Some p.

Lemma is_run_cons t first p run :
  log (confs t) !! first = Some p -> is_run t (S first) run -> is_run t first (p :: run).
Proof.
  intros Hp Hr [|i] q Hq; cbn in Hq.
  - injection Hq as <-. by rewrite Nat.add_0_r.
  - rewrite <- Nat.add_succ_comm. by apply Hr.
Qed.

Lemma load_spec k : forall t output start,
  (0 < k -> start + k <= write_idx (ring (confs t)))%nat -> within_tags start ->
  let '(t', output', ok) := load ring_at t output (seq start k) in
  (t <= t')%nat /\ exists run, output' = output ++ run /\ (ok = true -> length run = k /\ is_run t' start run).
Proof.
  induction k as [|k IH]; intros t output start Hk Hw; cbn [seq load].
  { split; [done|]. exists []. rewrite app_nil_r. split; [done|]. intros _. split; [done|]. intros i p Hi. by destruct i. }
  destruct (read_now ring_at t start) as [t1 [p|]] eqn:Er.
  2: { unfold read_now in Er. injection Er as <- _. split; [lia|]. exists []. by rewrite app_nil_r. }
  destruct (read_now_own _ _ _ _ Er) as [-> Hp]; [done|lia|].
  pose proof (run_write_idx t (S (S t))) as Hm.
  specialize (IH (S (S t)) (output ++ [p]) (S start)).
  destruct (load _ _ _ _) as [[t' output'] ok]. destruct IH as (Ht & run & -> & Hok); [lia|eapply within_tags_mono; [|done]; lia|].
  split; [lia|]. exists (p :: run). rewrite <- app_assoc. split; [done|]. intros Hok'. destruct (Hok Hok') as [Hlen Hr].
  split; [cbn; lia|]. apply is_run_cons; [|done]. by apply (run_log (S (S t))).
Qed.

(** No interframe before the first keyframe. *)
Fixpoint starts_clean (run : list MediaPacket) : bool :=
  match run with
  | [] => true
  | p :: rest => is_video_keyframe p || (negb (is_video_interframe p) && starts_clean rest)
  end.

(** What [load_after_resync] appends and where it stops, when it stops at [next]. *)
Definition resync_run (t' : nat) (awaiting awaiting' : bool) (sequence loaded w max_packets : nat)
    (run : list MediaPacket) (next : nat) : Prop :=
  (exists first, (0 < loaded -> first = sequence)%nat /\ (sequence <= first)%nat /\ (first + length run = next)%nat /\
    is_run t' first run /\ (awaiting = false -> first = sequence) /\
    (forall i, (sequence <= i < first)%nat -> exists q, log (confs t') !! i = Some q /\ is_video_interframe q = true)) /\
  (awaiting = true -> starts_clean run = true) /\
  awaiting' = awaiting && forallb (fun p => negb (is_video_keyframe p)) run /\
  (loaded + length run <= max_packets)%nat /\ (next <= Nat.max sequence w)%nat /\
  (loaded + length run = 0 -> 0 < max_packets -> w <= next)%nat.

Lemma resync_run_nil t' awaiting sequence loaded w max_packets :
  (loaded <= max_packets)%nat -> ((sequence < w)%nat -> (0 < loaded)%nat \/ max_packets = 0%nat) ->
  resync_run t' awaiting awaiting sequence loaded w max_packets [] sequence.
Proof.
  intros Hl Hdone. split_and!; [|done|by destruct awaiting|cbn; lia|lia|].
  - exists sequence. split_and!; [done|lia|cbn; lia|by intros []|done|lia].
  - cbn. intros. destruct (decide (w <= sequence)%nat); [done|]. destruct Hdone; lia.
Qed.

Lemma load_after_resync_spec w max_packets fuel : forall t awaiting output sequence loaded,
  (w <= write_idx (ring (confs t)))%nat -> within_tags sequence -> (w <= sequence + fuel)%nat ->
  (loaded <= max_packets)%nat ->
  let '(t', awaiting', output', next) :=
    load_after_resync_loop ring_at fuel t awaiting output sequence loaded w max_packets in
  (t <= t')%nat /\ exists run, output' = output ++ run /\
  forall next', next = Some next' -> resync_run t' awaiting awaiting' sequence loaded w max_packets run next'.
Proof.
  induction fuel as [|fuel IH]; intros t awaiting output sequence loaded Hw Htags Hf Hl; cbn [load_after_resync_loop].
  all: assert (Hend : forall t', (t <= t')%nat -> ((sequence < w)%nat -> (0 < loaded)%nat \/ max_packets = 0%nat) ->
    (t <= t')%nat /\ exists run, output = output ++ run /\
    forall next', Some sequence = Some next' -> resync_run t' awaiting awaiting sequence loaded w max_packets run next')
    by (intros t' Ht Hdone; split; [done|]; exists []; rewrite app_nil_r; split; [done|]; intros next' [= <-];
        by apply resync_run_nil).
  { apply Hend; [done|lia]. }
  destruct (Nat.ltb_spec sequence w) as [Hlt|Hge]; [|apply Hend; [done|lia]].
  destruct (Nat.ltb_spec loaded max_packets) as [Hlt'|Hge']; [|apply Hend; [done|lia]]. cbn [andb].
  destruct (read_now ring_at t sequence) as [t1 [p|]] eqn:Er.
  2: { unfold read_now in Er. injection Er as <- _. split; [lia|]. exists []. by rewrite app_nil_r. }
  destruct (read_now_own _ _ _ _ Er) as [-> Hp]; [done|lia|].
  pose proof (run_write_idx t (S (S t))) as Hm.
  assert (Htags' : within_tags (sequence + 1)) by (eapply within_tags_mono; [|done]; lia).
  destruct (awaiting && is_video_interframe p) eqn:Eskip.
  - apply andb_true_iff in Eskip as [-> Ei].
    destruct (Nat.ltb_spec 0 loaded) as [Hl0|Hl0]; [apply Hend; lia|].
    assert (loaded = 0%nat) as -> by lia.
    specialize (IH (S (S t)) true output (sequence + 1)%nat 0%nat).
    destruct (load_after_resync_loop _ _ _ _ _ _ _ _ _) as [[[t' awaiting'] output'] next].
    destruct IH as (Ht & run & -> & Hn); [lia|done|lia|lia|]. split; [lia|]. exists run. split; [done|]. intros next' Hn'.
    destruct (Hn next' Hn') as ((first & _ & H1 & H2 & H3 & _ & H5) & H6 & H7 & H8 & H9 & H10).
    split_and!; [|done|done|done|lia|done]. exists first. split_and!; [lia|lia|done|done|done|].
    intros i Hi. destruct (decide (i = sequence)) as [->|]; [|apply H5; lia].
    exists p. split; [|done]. by apply (run_log (S (S t))).
  - specialize (IH (S (S t)) (awaiting && negb (is_video_keyframe p)) (output ++ [p]) (sequence + 1)%nat (loaded + 1)%nat).
    destruct (load_after_resync_loop _ _ _ _ _ _ _ _ _) as [[[t' awaiting'] output'] next].
    destruct IH as (Ht & run & -> & Hn); [lia|done|lia|lia|]. split; [lia|]. exists (p :: run). rewrite <- app_assoc.
    split; [done|]. intros next' Hn'.
    destruct (Hn next' Hn') as ((first & H0 & H1 & H2 & H3 & _ & H5) & H6 & H7 & H8 & H9 & H10).
    assert (first = sequence + 1)%nat as -> by lia.
    split_and!; [|intros ->|by rewrite H7, <- andb_assoc|cbn; lia|lia|cbn; lia].
    + exists sequence. split_and!; [done|lia|cbn; lia| |done|lia].
      apply is_run_cons; [by apply (run_log (S (S t)))|]. by rewrite Nat.add_1_r in H3.
    + cbn in *. destruct (is_video_keyframe p) eqn:Ek; [done|]. cbn in *. rewrite Eskip. by apply H6.
Qed.

Definition burst_post (t : nat) (self : Reader) (output : list MediaPacket) (max_packets : nat)
    (t' : nat) (self' : Reader) (output' : list MediaPacket) (res : burst_result) : Prop :=
  (t <= t')%nat /\
  match res with
  | BurstOverflow => output' = output /\ awaiting_keyframe self' = true
  | BurstOk n =>
      exists first run, output' = output ++ run /\ length run = n /\ (n <= max_packets)%nat /\
        skipped t' self first /\ is_run t' first run /\ read_idx self' = (first + n)%nat /\
        (read_idx self' <= Nat.max (read_idx self) (write_idx (ring (confs t))))%nat /\
        (awaiting_keyframe self = true -> starts_clean run = true) /\
        awaiting_keyframe self' = awaiting_keyframe self && forallb (fun p => negb (is_video_keyframe p)) run /\
        (n = 0 -> 0 < max_packets -> write_idx (ring (confs t)) <= read_idx self')%nat
  end.

(** The last step of a burst, with the run in hand. *)
Lemma burst_ok_post t self output max_packets t' awaiting' run next first :
  (t <= t')%nat -> (length run <= max_packets)%nat -> skipped t' self first -> is_run t' first run ->
  (first + length run = next)%nat -> (next <= Nat.max (read_idx self) (write_idx (ring (confs t))))%nat ->
  (awaiting_keyframe self = true -> starts_clean run = true) ->
  awaiting' = awaiting_keyframe self && forallb (fun p => negb (is_video_keyframe p)) run ->
  (length run = 0 -> 0 < max_packets -> write_idx (ring (confs t)) <= next)%nat ->
  let loaded := (length (output ++ run) - length output)%nat in
  let self' := sync_read_idx (set_awaiting self awaiting') next in
  burst_post t self output max_packets t' (if (0 <? loaded)%nat then count_burst self' loaded else self')
    (output ++ run) (BurstOk loaded).
Proof.
  intros Ht Hlen Hskip Hrun' Hnext Hle Hclean Haw Hz. cbn zeta.
  replace (length (output ++ run) - length output)%nat with (length run) by (rewrite length_app; lia).
  split; [done|]. exists first, run.
  assert (E : forall b : bool, read_idx (if b then count_burst (sync_read_idx (set_awaiting self awaiting') next) (length run)
                       else sync_read_idx (set_awaiting self awaiting') next) = next) by (by intros []).
  rewrite !E. split_and!; try done. by destruct (0 <? length run)%nat.
Qed.

Lemma pull_burst_spec t self output max_packets :
  within_tags (read_idx self) ->
  let '(t', self', output', res) := pull_burst ring_at t self output max_packets in
  burst_post t self output max_packets t' self' output' res.
Proof.
  intros Hw. unfold pull_burst. destruct (Nat.eqb_spec max_packets 0) as [->|Hmax].
  { split; [done|]. exists (read_idx self), []. rewrite app_nil_r, Nat.add_0_r.
    split_and!; try done; try lia; [split_and!; [lia|done|lia]|by destruct (awaiting_keyframe self)]. }
  destruct (lags_a_lap _ _ _ _); [by split; [cbn; lia|]|].
  pose proof (run_write_idx t (S t)) as Hm. destruct (awaiting_keyframe self) eqn:Ea.
  - unfold load_after_resync. rewrite Ea.
    pose proof (load_after_resync_spec (write_idx (ring (confs t))) max_packets (write_idx (ring (confs t)) - read_idx self)
      (S t) true output (read_idx self) 0) as Hs.
    destruct (load_after_resync_loop _ _ _ _ _ _ _ _ _) as [[[t' awaiting'] output'] next].
    destruct Hs as (Ht & run & -> & Hn); [lia|done|lia|lia|].
    destruct next as [next|]; [|split; [cbn; lia|cbn; by rewrite take_app_length]].
    destruct (Hn next eq_refl) as ((first & _ & H1 & H2 & H3 & _ & H5) & H6 & H7 & H8 & H9 & H10).
    apply burst_ok_post with first; try done; try lia; [|by rewrite Ea|by rewrite Ea].
    split_and!; [done|congruence|done].
  - set (available := Nat.min (write_idx (ring (confs t)) - read_idx self) max_packets).
    pose proof (load_spec available (S t) output (read_idx self)) as Hs.
    destruct (load _ _ _ _) as [[t' output'] ok]. destruct Hs as (Ht & run & -> & Hok); [lia|done|].
    destruct ok; [|split; [cbn; lia|cbn; by rewrite take_app_length]].
    destruct (Hok eq_refl) as [Hlen Hr].
    apply burst_ok_post with (read_idx self); try done; try lia; [split_and!; [lia|done|lia]|by rewrite Ea|by rewrite Ea].
Qed.
End concurrent.

(** ** Properties *)

(** A reader gets the stream in order, one packet at a time, whatever the producer
    does meanwhile.  From a position not past the write index, [pull] ends (within the
    sequences published until then), and either delivers the packet published at its
    position, moving just past it; or, awaiting a keyframe after an overflow, the first
    packet there that is not a video interframe, having skipped only interframes, and
    stops awaiting exactly on a video keyframe; or has caught up with a write index; or
    reports an overflow and awaits a keyframe. *)
Theorem pull_in_order `{Memmem} (confs : nat -> conf) t self fuel :
  run_of_producer confs -> (read_idx self <= write_idx (ring (confs t)))%nat ->
  within_tags confs (read_idx self) ->
  (forall i, (write_idx (ring (confs i)) < read_idx self + fuel)%nat) ->
  exists t' self' res,
    pull (fun t => ring (confs t)) fuel t self = Some (t', self', res) /\ pull_post confs t self t' self' res.
Proof. intros Hrun. exact (pull_spec confs Hrun fuel t self). Qed.

(** C16: A burst is a run of the stream.  From any position, [pull_burst] appends at most
    the packets asked for, all of them published at consecutive sequences, the last one
    just before the new position and none at or past the write index; the run begins at
    the old position, or, awaiting a keyframe, after interframes only and with no
    interframe before its first keyframe, which ends the wait; it is empty only when the
    reader has caught up.  On an overflow nothing is appended and a keyframe is awaited. *)
Theorem pull_burst_in_order `{Memmem} (confs : nat -> conf) t self output max_packets :
  run_of_producer confs -> within_tags confs (read_idx self) ->
  let '(t', self', output', res) := pull_burst (fun t => ring (confs t)) t self output max_packets in
  burst_post confs t self output max_packets t' self' output' res.
Proof. intros Hrun. exact (pull_burst_spec confs Hrun t self output max_packets). Qed.

(** A new reader, with or without preroll, starts in the readable window of a quiet
    ring: not past the write index and less than a lap behind it, so its first pull finds
    no lap; a reader with preroll starts at most that many packets before the newest
    keyframe, and not after it.  A stage reader at the write index of a grown ring
    migrates into the window too. *)
Theorem readers_start_in_window `{Memmem} r l preroll self :
  reachable (mk_conf r [] l) -> read_idx self = write_idx r ->
  Forall (fun reader => (read_idx reader <= write_idx r)%nat /\ lags_a_lap (fun _ => r) 0 reader (write_idx r) = false)
    [Reader_new r; new_with_keyframe_preroll r preroll; new_stage_input r preroll; new_live r; migrate_to self r] /\
  (fast_forward r (write_idx r) - preroll <= read_idx (new_stage_input r preroll) <= fast_forward r (write_idx r))%nat.
Proof.
  intros Hreach Hself. pose proof (fast_forward_window r l Hreach) as Hk.
  assert (Hwin : forall reader, (read_idx reader <= write_idx r < read_idx reader + capacity r)%nat ->
    (read_idx reader <= write_idx r)%nat /\ lags_a_lap (fun _ => r) 0 reader (write_idx r) = false).
  { intros reader Hr. split; [lia|]. apply andb_false_iff. right. apply Nat.leb_gt. lia. }
  assert (Hpre : forall n, (fast_forward r (write_idx r) - n <= preroll_start r (write_idx r) n <= fast_forward r (write_idx r))%nat /\
    (write_idx r < preroll_start r (write_idx r) n + capacity r)%nat).
  { intros n. unfold preroll_start, oldest_available. case_if; bool_to_prop; lia. }
  split; [|apply Hpre].
  repeat (apply Forall_cons; split); [..|by apply Forall_nil]; apply Hwin.
  - cbn. lia.
  - cbn. specialize (Hpre preroll). lia.
  - cbn. specialize (Hpre preroll). lia.
  - cbn. lia.
  - unfold migrate_to. specialize (Hpre (migration_preroll_packets self)). unfold preroll_start in Hpre.
    destruct (_ && _); [|lia]. destruct (_ <? _)%nat; [cbn [sync_read_idx read_idx]|]; lia.
Qed.

(** *** Concrete readers *)

#[local] Existing Instances naive_memmem.

(** The producer between the first and the second load of a reader. *)
Definition example_run (t : nat) : conf := if (t <=? 1)%nat then example_quiet else example_busy.

Lemma example_run_ok : run_of_producer example_run.
Proof.
  split; [apply example_quiet_reachable|].
  intros [|[|t]]; [apply rtc_refl|apply example_busy_steps|apply rtc_refl].
Qed.

Lemma example_run_tags s : within_tags example_run s.
Proof.
  intros t. unfold example_run. destruct (t <=? 1)%nat.
  - assert (Z.of_nat (write_begin (ring example_quiet)) <= 2 ^ 31) by (vm_compute; discriminate). lia.
  - assert (Z.of_nat (write_begin (ring example_busy)) <= 2 ^ 31) by (vm_compute; discriminate). lia.
Qed.

Lemma pull_in_order_witness :
  exists t' self' res,
    pull (fun t => ring (example_run t)) 2 0 (register 2 0) = Some (t', self', res) /\
    pull_post example_run 0 (register 2 0) t' self' res.
Proof.
  apply (pull_in_order example_run 0 (register 2 0) 2).
  - apply example_run_ok.
  - vm_compute. lia.
  - apply example_run_tags.
  - intros i. unfold example_run. destruct (i <=? 1)%nat; vm_compute; lia.
Defined.

Lemma pull_burst_in_order_witness :
  let self := set_awaiting (register 2 0) true in
  pull_burst (fun t => ring (example_run t)) 0 self [] 8 =
    (3%nat, count_burst (sync_read_idx (set_awaiting self false) 3) 1, [example_packet true 3], BurstOk 1) /\
  let '(t', self', output', res) := pull_burst (fun t => ring (example_run t)) 0 self [] 8 in
  burst_post example_run 0 self [] 8 t' self' output' res.
Proof.
  split; [by vm_compute|]. apply (pull_burst_in_order example_run 0 (set_awaiting (register 2 0) true) [] 8).
  - apply example_run_ok.
  - apply example_run_tags.
Defined.

Lemma readers_start_in_window_witness :
  let r := ring example_quiet in
  Forall (fun reader => (read_idx reader <= write_idx r)%nat /\ lags_a_lap (fun _ => r) 0 reader (write_idx r) = false)
    [Reader_new r; new_with_keyframe_preroll r 1; new_stage_input r 1; new_live r; migrate_to (register 3 1) r] /\
  (fast_forward r (write_idx r) - 1 <= read_idx (new_stage_input r 1) <= fast_forward r (write_idx r))%nat.
Proof.
  apply (readers_start_in_window (ring example_quiet) example_packets 1 (register 3 1)).
  - apply example_quiet_reachable.
  - by vm_compute.
Defined.

(** *** A reader past the write index *)

(** Five packets in a ring of four slots, then a batch of three that stops before the
    third, its keyframe recorded and the write index still 5. *)
Definition lap_packets : list MediaPacket :=
  example_packet true 0 :: (example_packet false <$> [1; 2; 3; 4]).
Definition lap_batch : list MediaPacket := [example_packet false 5; example_packet true 6; example_packet false 7].
Definition lap_quiet : conf := mk_conf (push_batch (RingBuffer_new 4) lap_packets 1).2 [] lap_packets.
Definition lap_conf (done : nat) : conf :=
  let r := ring lap_quiet in
  let ops := publish_ops false r lap_batch 2 in
  mk_conf (run_ops r (take done ops)) (drop done ops) (lap_packets ++ lap_batch).
(** The batch after its first nine operations, then, for the word of the reader's third
    read, after three more. *)
Definition lap_run (t : nat) : conf :=
  if (t =? 0)%nat then lap_quiet else if (t <=? 6)%nat then lap_conf 9 else lap_conf 12.

Lemma run_some_steps r ops k : forall l,
  rtc ring_step (mk_conf r ops l) (mk_conf (run_ops r (take k ops)) (drop k ops) l).
Proof.
  revert r ops. induction k as [|k IH]; intros r ops l; [by rewrite drop_0|].
  destruct ops as [|op ops]; [done|]. eapply rtc_l; [apply step_op|]. apply IH.
Qed.

Lemma lap_run_ok : run_of_producer lap_run.
Proof.
  split.
  - eapply reachable_steps; [apply (reach_new 4); lia|]. exact (publish_steps false (RingBuffer_new 4) lap_packets 1 []).
  - intros t. destruct (decide (t = 0)%nat) as [->|]; [|destruct (decide (t = 6)%nat) as [->|]].
    + eapply rtc_l; [apply (step_batch (ring lap_quiet) lap_packets false lap_batch 2)|]. apply run_some_steps.
    + exact (run_some_steps (ring (lap_conf 9)) (pending (lap_conf 9)) 3 _).
    + assert (lap_run (S t) = lap_run t) as ->; [|apply rtc_refl]. unfold lap_run.
      destruct t as [|[|[|[|[|[|[|t]]]]]]]; done.
Qed.

(** A reader can be past the write index, and then [pull] is wrong: [fast_forward]
    may give the keyframe of an unfinished batch, past the write index.
    [pull] does not stop there: after the overflow of a reader at 0 it delivers the
    keyframe 6, and for sequence 7 the packet published at sequence 3, whose slot got the
    word of 7 between the two loads. *)
Lemma pull_past_write_idx :
  let ring_at t := ring (lap_run t) in
  let at_ n awaiting := set_awaiting (count_overflow (sync_read_idx (register 0 0) n)) awaiting in
  pull ring_at 1 0 (register 0 0) = Some (2%nat, at_ 6%nat true, PullOverflow) /\ write_idx (ring_at 8%nat) = 5%nat /\
  pull ring_at 1 2 (at_ 6%nat true) = Some (5%nat, sync_read_idx (at_ 6%nat false) 7, PullOk (Some (example_packet true 6))) /\
  pull ring_at 1 5 (sync_read_idx (at_ 6%nat false) 7) =
    Some (8%nat, sync_read_idx (at_ 6%nat false) 8, PullOk (Some (example_packet false 3))) /\
  log (lap_run 8) !! 7%nat = Some (example_packet false 7).
Proof. split_and!; vm_compute; reflexivity. Qed.
