(* ===== verification/Queues.v ===== *)
(** * Bounded queues and timestamp order

    Models the standby cache of [crates/restream-sync/src/standby_gop.rs], the byte queue
    of [byte_queue.rs] and the [DtsEnforcer] of [ring_buffer.rs].

    The byte queue is behind a mutex, so an operation is a transition of its state; an
    asynchronous write is two of them, the check that finds room and the append, with
    anything in between.  The statistics of the queue are kept, its wake-ups are not. *)

From S2P Require Import Prelude Media.

(** ** Definitions *)

(** *** The standby cache *)

Record StandbyGopCache := mk_StandbyGopCache {
  packets : list MediaPacket;
  payload_bytes : Z;
  max_payload_bytes : Z;
  max_packets : nat;
}.

Definition DEFAULT_STANDBY_GOP_MAX_BYTES : Z := 16 * 1024 * 1024.
Definition DEFAULT_STANDBY_GOP_MAX_PACKETS : nat := Z.to_nat 2048.

Definition StandbyGopCache_new (max_bytes : Z) (max_count : nat) : StandbyGopCache :=
  mk_StandbyGopCache [] 0 max_bytes max_count.

Definition gop_clear (self : StandbyGopCache) : StandbyGopCache :=
  mk_StandbyGopCache [] 0 (max_payload_bytes self) (max_packets self).

(** The second half of [push]: append within the limits or drop everything. *)
Definition gop_append (self : StandbyGopCache) (packet : MediaPacket) : StandbyGopCache :=
  let next_bytes := sat_u 64 (payload_bytes self + zlen (payload packet)) in
  if (max_payload_bytes self <? next_bytes) || (max_packets self <=? length (packets self))%nat
  then gop_clear self
  else mk_StandbyGopCache (packets self ++ [packet]) next_bytes (max_payload_bytes self) (max_packets self).

Definition gop_push (self : StandbyGopCache) (packet : MediaPacket) : StandbyGopCache :=
  if is_video_keyframe packet then gop_append (gop_clear self) packet
  else match packets self with
       | [] => self
       | _ => gop_append self packet
       end.

Definition is_replay_ready (self : StandbyGopCache) : bool :=
  match packets self with packet :: _ => is_video_keyframe packet | [] => false end.

Definition take_replay (self : StandbyGopCache) : list MediaPacket * StandbyGopCache :=
  if is_replay_ready self then (packets self, gop_clear self) else ([], self).

Definition packets_bytes (ps : list MediaPacket) : Z := fold_right (fun p n => zlen (payload p) + n) 0 ps.

Definition gop_retain (keep : MediaPacket -> bool) (self : StandbyGopCache) : StandbyGopCache :=
  let ps := List.filter keep (packets self) in
  let self := mk_StandbyGopCache ps (packets_bytes ps) (max_payload_bytes self) (max_packets self) in
  if is_replay_ready self then self else gop_clear self.

(** *** The byte queue *)

Record MemoryQueue := mk_MemoryQueue {
  buf : bytes;
  closed : bool;
  queue_capacity : nat;
  high_water_bytes : nat;
  blocked_writes : Z;
}.

Definition MemoryQueue_new (cap : nat) : MemoryQueue := mk_MemoryQueue [] false cap 0 0.

(** [extend] and [record_depth] *)
Definition queue_extend (self : MemoryQueue) (data : bytes) : MemoryQueue :=
  let buf := buf self ++ data in
  mk_MemoryQueue buf (closed self) (queue_capacity self) (Nat.max (high_water_bytes self) (length buf)) (blocked_writes self).

(** The condition on which the loop of a write ends. *)
Definition write_admitted (self : MemoryQueue) : bool := closed self || (length (buf self) <? queue_capacity self)%nat.

Definition count_blocked (self : MemoryQueue) : MemoryQueue :=
  mk_MemoryQueue (buf self) (closed self) (queue_capacity self) (high_water_bytes self) (as_u64 (blocked_writes self + 1)).

(** What a write does after its loop. *)
Definition write_sync (self : MemoryQueue) (data : bytes) : MemoryQueue :=
  if closed self then self else queue_extend self data.
Definition write_cancellable_commit (self : MemoryQueue) (data : bytes) (cancelled : bool) : bool * MemoryQueue :=
  if closed self || cancelled then (false, self) else (true, queue_extend self data).
Definition write_batch_commit (self : MemoryQueue) (chunks : list bytes) : nat * MemoryQueue :=
  if closed self then (0%nat, self)
  else
    let n := length (concat chunks) in
    (n, if (0 <? n)%nat then queue_extend self (concat chunks)
        else mk_MemoryQueue (buf self ++ concat chunks) (closed self) (queue_capacity self) (high_water_bytes self) (blocked_writes self)).

Definition close (self : MemoryQueue) : MemoryQueue :=
  mk_MemoryQueue (buf self) true (queue_capacity self) (high_water_bytes self) (blocked_writes self).

(** The copy from the two slices of the deque, [front] the first [k] bytes. *)
Definition copy_slices (front back : bytes) (to_read : nat) : bytes :=
  if (to_read <=? length front)%nat then take to_read front
  else front ++ take (to_read - length front) back.

Definition read_nonblocking (self : MemoryQueue) (k target_len : nat) : bytes * MemoryQueue :=
  match buf self with
  | [] => ([], self)
  | _ =>
      let to_read := Nat.min target_len (length (buf self)) in
      (copy_slices (take k (buf self)) (drop k (buf self)) to_read,
       mk_MemoryQueue (drop to_read (buf self)) (closed self) (queue_capacity self) (high_water_bytes self) (blocked_writes self))
  end.

(** [None] while the reader waits. *)
Definition read (self : MemoryQueue) (k target_len : nat) : option (bytes * MemoryQueue) :=
  match buf self with
  | [] => if closed self then Some ([], self) else None
  | _ => Some (read_nonblocking self k target_len)
  end.

(** *** Timestamp order *)

Record DtsEnforcer := mk_DtsEnforcer { last_dts : list Z }.
Definition DtsEnforcer_new (num_streams : nat) : DtsEnforcer := mk_DtsEnforcer (replicate num_streams i64_MIN).

Definition enforce (self : DtsEnforcer) (stream_idx : nat) (pts dts : Z) : (Z * Z) * DtsEnforcer :=
  let dts :=
    match last_dts self !! stream_idx with
    | Some prev => if dts <=? prev then sat_i 64 (prev + 1) else dts
    | None => dts
    end in
  let pts := if pts <? dts then dts else pts in
  ((pts, dts), mk_DtsEnforcer (<[stream_idx := dts]> (last_dts self))).

(** ** Specifications *)

(** The packets since the last video keyframe, that one included. *)
Fixpoint last_gop (history : list MediaPacket) : list MediaPacket :=
  match history with
  | [] => []
  | p :: rest => if existsb is_video_keyframe rest then last_gop rest
                 else if is_video_keyframe p then p :: rest else []
  end.

Definition fits (max_bytes : Z) (max_count : nat) (gop : list MediaPacket) : bool :=
  (packets_bytes gop <=? max_bytes) && (length gop <=? max_count)%nat.

(** A queue with one asynchronous writer: what it is about to append, whether it passed
    its check, and, as ghosts, the bytes accepted and the bytes delivered. *)
Inductive writer := Idle | Waiting (data : bytes) | Passed (data : bytes).
Record queue_conf := mk_queue_conf { queue : MemoryQueue; writing : writer; accepted : bytes; delivered : bytes }.

Inductive queue_step (chunk : nat) : queue_conf -> queue_conf -> Prop :=
  | q_start q data a d : (length data <= chunk)%nat ->
      queue_step chunk (mk_queue_conf q Idle a d) (mk_queue_conf q (Waiting data) a d)
  | q_block q data a d : write_admitted q = false ->
      queue_step chunk (mk_queue_conf q (Waiting data) a d) (mk_queue_conf (count_blocked q) (Waiting data) a d)
  | q_pass q data a d : write_admitted q = true ->
      queue_step chunk (mk_queue_conf q (Waiting data) a d) (mk_queue_conf q (Passed data) a d)
  | q_append q data a d :
      queue_step chunk (mk_queue_conf q (Passed data) a d)
        (mk_queue_conf (write_sync q data) Idle (if closed q then a else a ++ data) d)
  | q_append_cancellable q data cancelled written q' a d :
      write_cancellable_commit q data cancelled = (written, q') ->
      queue_step chunk (mk_queue_conf q (Passed data) a d) (mk_queue_conf q' Idle (if written then a ++ data else a) d)
  | q_cancel q data a d :
      queue_step chunk (mk_queue_conf q (Waiting data) a d) (mk_queue_conf q Idle a d)
  | q_append_batch q chunks n q' a d :
      write_batch_commit q chunks = (n, q') ->
      queue_step chunk (mk_queue_conf q (Passed (concat chunks)) a d)
        (mk_queue_conf q' Idle (a ++ take n (concat chunks)) d)
  | q_read q w k n out q' a d :
      read q k n = Some (out, q') ->
      queue_step chunk (mk_queue_conf q w a d) (mk_queue_conf q' w a (d ++ out))
  | q_read_nonblocking q w k n out q' a d :
      read_nonblocking q k n = (out, q') ->
      queue_step chunk (mk_queue_conf q w a d) (mk_queue_conf q' w a (d ++ out))
  | q_close q w a d : queue_step chunk (mk_queue_conf q w a d) (mk_queue_conf (close q) w a d).

(** ** Lemmas *)

(** *** The standby cache *)

Lemma packets_bytes_app a b : packets_bytes (a ++ b) = packets_bytes a + packets_bytes b.
Proof.
  induction a as [|p a IH]; [done|]. cbn [app]. unfold packets_bytes in *. cbn [fold_right]. rewrite IH. lia.
Qed.

Lemma packets_bytes_nonneg a : 0 <= packets_bytes a.
Proof. unfold packets_bytes, zlen. induction a as [|p a IH]; cbn [fold_right]; lia. Qed.

Lemma last_gop_snoc history p :
  last_gop (history ++ [p]) =
    if is_video_keyframe p then [p]
    else match last_gop history with [] => [] | gop => gop ++ [p] end.
Proof.
  induction history as [|q history IH]; cbn [app last_gop existsb]; [done|].
  rewrite existsb_app. cbn [existsb]. rewrite orb_false_r.
  destruct (existsb is_video_keyframe history) eqn:Eh; cbn [orb]; [exact IH|].
  destruct (is_video_keyframe p); cbn [orb]; [exact IH|]. by destruct (is_video_keyframe q).
Qed.

(** What the cache is after [history]. *)
Definition gop_state (max_bytes : Z) (max_count : nat) (history : list MediaPacket) : StandbyGopCache :=
  let gop := last_gop history in
  let gop := if fits max_bytes max_count gop then gop else [] in
  mk_StandbyGopCache gop (packets_bytes gop) max_bytes max_count.

Lemma gop_append_spec max_bytes max_count gop p :
  max_bytes < 2 ^ 64 - 1 ->
  gop_append (mk_StandbyGopCache gop (packets_bytes gop) max_bytes max_count) p =
    let gop' := if fits max_bytes max_count (gop ++ [p]) then gop ++ [p] else [] in
    mk_StandbyGopCache gop' (packets_bytes gop') max_bytes max_count.
Proof.
  intros Hmax. unfold gop_append, fits, gop_clear, sat_u.
  cbn [packets payload_bytes max_payload_bytes max_packets]. rewrite packets_bytes_app, length_app.
  cbn [packets_bytes fold_right length]. rewrite Z.add_0_r.
  pose proof (packets_bytes_nonneg gop). assert (0 <= zlen (payload p)) by (unfold zlen; lia).
  destruct (Z.ltb_spec max_bytes (Z.max 0 (Z.min (packets_bytes gop + zlen (payload p)) (2 ^ 64 - 1)))) as [Hb|Hb].
  { rewrite (proj2 (Z.leb_gt _ _)) by lia. done. }
  rewrite (proj2 (Z.leb_le _ max_bytes)) by lia. cbn [orb andb].
  destruct (Nat.leb_spec max_count (length gop)) as [Hc|Hc].
  - by rewrite (proj2 (Nat.leb_gt _ _)) by lia.
  - rewrite (proj2 (Nat.leb_le (length gop + 1) max_count)) by lia. f_equal.
    rewrite packets_bytes_app. cbn. lia.
Qed.

Lemma fits_snoc max_bytes max_count gop p :
  fits max_bytes max_count (gop ++ [p]) = true -> fits max_bytes max_count gop = true.
Proof.
  unfold fits. rewrite packets_bytes_app, length_app. cbn. unfold zlen. intros H%andb_true_iff.
  destruct H as [H1%Z.leb_le H2%Nat.leb_le]. apply andb_true_iff. split; [apply Z.leb_le|apply Nat.leb_le]; lia.
Qed.

Lemma gop_push_state max_bytes max_count history p :
  0 <= max_bytes < 2 ^ 64 - 1 ->
  gop_push (gop_state max_bytes max_count history) p = gop_state max_bytes max_count (history ++ [p]).
Proof.
  intros Hmax. unfold gop_push. destruct (is_video_keyframe p) eqn:Ek.
  { unfold gop_state. rewrite last_gop_snoc, Ek. cbn zeta.
    exact (gop_append_spec max_bytes max_count [] p ltac:(lia)). }
  unfold gop_state. rewrite last_gop_snoc, Ek. cbn zeta.
  destruct (last_gop history) as [|q gop] eqn:El.
  { cbn [packets]. by destruct (fits max_bytes max_count []). }
  destruct (fits max_bytes max_count (q :: gop)) eqn:Ef; cbn [packets].
  - exact (gop_append_spec max_bytes max_count (q :: gop) p ltac:(lia)).
  - destruct (fits max_bytes max_count ((q :: gop) ++ [p])) eqn:Ef'; [|done].
    apply fits_snoc in Ef'. congruence.
Qed.

Lemma gop_pushes_state max_bytes max_count ps : forall history,
  0 <= max_bytes < 2 ^ 64 - 1 ->
  fold_left gop_push ps (gop_state max_bytes max_count history) = gop_state max_bytes max_count (history ++ ps).
Proof.
  induction ps as [|p ps IH]; intros history Hmax; cbn [fold_left]; [by rewrite app_nil_r|].
  rewrite gop_push_state, IH by done. by rewrite <- app_assoc.
Qed.

Lemma last_gop_head history p gop : last_gop history = p :: gop -> is_video_keyframe p = true.
Proof.
  induction history as [|q history IH]; cbn; [done|]. destruct (existsb _ _); [done|].
  destruct (is_video_keyframe q) eqn:Eq; [|done]. by intros [= <- _].
Qed.

(** *** The byte queue *)

Lemma copy_slices_take q k n : copy_slices (take k q) (drop k q) n = take n q.
Proof.
  unfold copy_slices. destruct (Nat.leb_spec n (length (take k q))) as [Hn|Hn].
  - rewrite take_take. f_equal. rewrite length_take in Hn. lia.
  - transitivity (take n (take k q ++ drop k q)); [|by rewrite take_drop].
    rewrite take_app. f_equal. symmetry. apply take_ge. lia.
Qed.

(** A read takes the front of the queue. *)
Lemma read_nonblocking_spec q k n :
  let '(out, q') := read_nonblocking q k n in
  out = take n (buf q) /\ buf q' = drop n (buf q) /\ closed q' = closed q /\
  queue_capacity q' = queue_capacity q /\ high_water_bytes q' = high_water_bytes q.
Proof.
  unfold read_nonblocking. destruct (buf q) as [|b bs] eqn:Eb; [by rewrite take_nil, drop_nil|].
  cbn [buf closed queue_capacity high_water_bytes]. rewrite copy_slices_take.
  set (l := b :: bs). split_and!; try done.
  - destruct (Nat.le_ge_cases n (length l)); [by rewrite Nat.min_l by done|].
    rewrite Nat.min_r by done. by rewrite !take_ge by lia.
  - destruct (Nat.le_ge_cases n (length l)); [by rewrite Nat.min_l by done|].
    rewrite Nat.min_r by done. by rewrite !drop_ge by lia.
Qed.

(** Nothing lost, nothing reordered; the depth stays below the capacity but for the last
    append, and the high-water mark has seen it. *)
Definition queue_ok (cap chunk : nat) (c : queue_conf) : Prop :=
  delivered c ++ buf (queue c) = accepted c /\ queue_capacity (queue c) = cap /\
  (length (buf (queue c)) <= high_water_bytes (queue c) <= cap - 1 + chunk)%nat /\
  match writing c with
  | Idle => True
  | Waiting data => (length data <= chunk)%nat
  | Passed data => (length data <= chunk)%nat /\ (closed (queue c) = false -> length (buf (queue c)) < cap)%nat
  end.

Lemma extend_ok cap chunk q data a d :
  queue_ok cap chunk (mk_queue_conf q (Passed data) a d) -> closed q = false ->
  queue_ok cap chunk (mk_queue_conf (queue_extend q data) Idle (a ++ data) d).
Proof.
  intros (H1 & H2 & H3 & H4 & H5) Hc. cbn in *. specialize (H5 Hc). split_and!; try done.
  - cbn. by rewrite app_assoc, H1.
  - cbn. rewrite length_app. lia.
  - cbn. rewrite length_app. lia.
Qed.

(** Reads and closing leave less in the queue. *)
Lemma shrink_ok cap chunk q q' w a d out :
  queue_ok cap chunk (mk_queue_conf q w a d) -> out ++ buf q' = buf q ->
  (closed q = true -> closed q' = true) -> queue_capacity q' = queue_capacity q -> high_water_bytes q' = high_water_bytes q ->
  queue_ok cap chunk (mk_queue_conf q' w a (d ++ out)).
Proof.
  intros (H1 & H2 & H3 & H4) Hb Hc Hcap Hhw. cbn in *. assert (length (buf q') <= length (buf q))%nat.
  { rewrite <- Hb, length_app. lia. }
  split_and!; cbn; [by rewrite <- app_assoc, Hb|congruence|lia|lia|]. destruct w as [|data|data]; [done|done|].
  destruct H4 as [? H4]. split; [done|]. intros Hf. destruct (closed q) eqn:Eq; [by rewrite Hc in Hf|]. specialize (H4 eq_refl). lia.
Qed.

Lemma read_nonblocking_ok cap chunk q w a d k n out q' :
  queue_ok cap chunk (mk_queue_conf q w a d) -> read_nonblocking q k n = (out, q') ->
  queue_ok cap chunk (mk_queue_conf q' w a (d ++ out)).
Proof.
  intros Hok Hr. pose proof (read_nonblocking_spec q k n) as Hs. rewrite Hr in Hs.
  destruct Hs as (-> & E & Hc & Hcap & Hhw). eapply shrink_ok; [exact Hok| |congruence|done|done].
  rewrite E. apply take_drop.
Qed.

Lemma queue_ok_writer cap chunk q w w' a d :
  queue_ok cap chunk (mk_queue_conf q w a d) ->
  match w' with
  | Idle => True
  | Waiting data => (length data <= chunk)%nat
  | Passed data => (length data <= chunk)%nat /\ (closed q = false -> length (buf q) < cap)%nat
  end -> queue_ok cap chunk (mk_queue_conf q w' a d).
Proof. intros (? & ? & ? & _) Hw. repeat split; cbn in *; try done; lia. Qed.

Lemma queue_step_ok cap chunk c c' : queue_step chunk c c' -> queue_ok cap chunk c -> queue_ok cap chunk c'.
Proof.
  destruct 1 as [q data a d Hd|q data a d Hw|q data a d Hw|q data a d|q data cancelled written q' a d Hq
    |q data a d|q chunks n q' a d Hq|q w k n out q' a d Hq|q w k n out q' a d Hq|q w a d]; intros Hok.
  - eapply queue_ok_writer; [exact Hok|exact Hd].
  - exact Hok.
  - eapply queue_ok_writer; [exact Hok|]. destruct Hok as (_ & Hcap & _ & Hd). cbn in *. split; [done|]. intros Hc.
    unfold write_admitted in Hw. rewrite Hc in Hw. apply Nat.ltb_lt in Hw. lia.
  - unfold write_sync. destruct (closed q) eqn:Ec; [|by apply extend_ok].
    eapply queue_ok_writer; [exact Hok|done].
  - unfold write_cancellable_commit in Hq. destruct (closed q || cancelled) eqn:Ec; injection Hq as <- <-.
    + eapply queue_ok_writer; [exact Hok|done].
    + apply orb_false_iff in Ec as [Ec _]. by apply extend_ok.
  - eapply queue_ok_writer; [exact Hok|done].
  - unfold write_batch_commit in Hq. destruct (closed q) eqn:Ec; injection Hq as <- <-.
    + rewrite take_0, app_nil_r. eapply queue_ok_writer; [exact Hok|done].
    + rewrite take_ge by lia. pose proof (extend_ok _ _ _ _ _ _ Hok Ec) as Hx.
      destruct (Nat.ltb_spec 0 (length (concat chunks))) as [Hn|Hn]; [exact Hx|].
      destruct (concat chunks); [|cbn in Hn; lia]. rewrite !app_nil_r.
      destruct q. cbn in Ec |- *. subst. eapply queue_ok_writer; [exact Hok|done].
  - unfold read in Hq. destruct (buf q) eqn:Eb; [destruct (closed q); [|done]|].
    + injection Hq as <- <-. by rewrite app_nil_r.
    + injection Hq as Hq. by eapply read_nonblocking_ok.
  - by eapply read_nonblocking_ok.
  - rewrite <- (app_nil_r d). by eapply shrink_ok.
Qed.

Lemma queue_steps_ok cap chunk c c' : rtc (queue_step chunk) c c' -> queue_ok cap chunk c -> queue_ok cap chunk c'.
Proof. induction 1 as [|c c1 c' Hs _ IH]; [done|]. intros Hok. apply IH. by eapply queue_step_ok. Qed.

(** *** Timestamp order *)

Fixpoint enforce_all (self : DtsEnforcer) (samples : list (nat * Z * Z)) : list (Z * Z) :=
  match samples with
  | [] => []
  | (i, pts, dts) :: rest => let '(out, self) := enforce self i pts dts in out :: enforce_all self rest
  end.

Lemma enforce_length self i pts dts : length (last_dts (enforce self i pts dts).2) = length (last_dts self).
Proof. apply length_insert. Qed.

(** The last time of a stream never falls, and a new one is above it, saturation apart. *)
Lemma enforce_rises self i pts dts j prev :
  last_dts self !! j = Some prev -> in_i 64 prev ->
  let '((_, dts'), self') := enforce self i pts dts in
  exists prev', last_dts self' !! j = Some prev' /\ (prev <= prev') /\ (in_i 64 dts -> in_i 64 prev') /\
    (j = i -> prev' = dts' /\ (prev < dts' \/ prev = 2 ^ 63 - 1 /\ dts' = 2 ^ 63 - 1 \/ ~ in_i 64 dts)).
Proof.
  intros Hj Hp. unfold enforce, sat_i, in_i in *. cbn [last_dts].
  destruct (decide (j = i)) as [->|Hne].
  - rewrite Hj. rewrite list_lookup_insert_eq by (by eapply lookup_lt_Some).
    eexists. split; [done|]. case_if; bool_to_prop; split_and!; intros; try split; lia.
  - rewrite list_lookup_insert_ne by done. exists prev. split_and!; [done|lia|done|done].
Qed.

Lemma enforce_all_rises samples : forall self j prev,
  Forall (fun s => in_i 64 s.2) samples -> last_dts self !! j = Some prev -> in_i 64 prev ->
  forall k pts dts out, samples !! k = Some (j, pts, dts) -> enforce_all self samples !! k = Some out ->
    prev < out.2 \/ prev = 2 ^ 63 - 1 /\ out.2 = 2 ^ 63 - 1.
Proof.
  induction samples as [|[[i pts0] dts0] samples IH]; intros self j prev Hs Hj Hp k pts dts out Hk Ho; [done|].
  apply Forall_cons in Hs as [H0 Hs]. cbn [enforce_all] in Ho. cbn [snd] in H0.
  pose proof (enforce_rises self i pts0 dts0 j prev Hj Hp) as Hr.
  destruct (enforce self i pts0 dts0) as [[pts' dts'] self'] eqn:Ee.
  destruct Hr as (prev' & Hj' & Hle & Hin & Hi). specialize (Hin H0). destruct k as [|k]; cbn in Hk, Ho.
  - injection Hk as -> -> ->. injection Ho as <-. cbn. destruct (Hi eq_refl) as [_ [?|[?|?]]]; [by left|by right|done].
  - pose proof (IH self' j prev' Hs Hj' Hin k pts dts out Hk Ho). unfold in_i in *. lia.
Qed.

Lemma enforce_ok self i pts dts :
  Forall (in_i 64) (last_dts self) -> in_i 64 dts ->
  let '((pts', dts'), self') := enforce self i pts dts in
  dts' <= pts' /\ in_i 64 dts' /\ Forall (in_i 64) (last_dts self') /\ length (last_dts self') = length (last_dts self) /\
  ((i < length (last_dts self))%nat -> last_dts self' !! i = Some dts').
Proof.
  intros Hin Hd. unfold enforce. cbn [last_dts].
  set (dts' := match last_dts self !! i with Some prev => if dts <=? prev then sat_i 64 (prev + 1) else dts | None => dts end).
  assert (Hd' : in_i 64 dts').
  { subst dts'. destruct (last_dts self !! i) as [prev|]; [|done]. case_if; [|done]. unfold sat_i, in_i. lia. }
  split_and!; [case_if; bool_to_prop; lia|done|by apply Forall_insert|apply length_insert|].
  intros Hi. by apply list_lookup_insert_eq.
Qed.

(** ** Properties *)

(** The standby cache holds the current GOP or nothing.  After any packets, it is
    exactly the packets since the last video keyframe when those are within its limits in
    bytes and number, and empty otherwise; its byte count is theirs; and a replay gives
    them all, from a keyframe on, and leaves it empty. *)
Theorem standby_gop_is_last_gop max_bytes max_count history :
  0 <= max_bytes < 2 ^ 64 - 1 ->
  let self := fold_left gop_push history (StandbyGopCache_new max_bytes max_count) in
  let gop := if fits max_bytes max_count (last_gop history) then last_gop history else [] in
  packets self = gop /\ payload_bytes self = packets_bytes gop /\
  is_replay_ready self = negb (bool_decide (gop = [])) /\ take_replay self = (gop, StandbyGopCache_new max_bytes max_count).
Proof.
  intros Hmax. cbn zeta.
  assert (Hnew : StandbyGopCache_new max_bytes max_count = gop_state max_bytes max_count []).
  { unfold gop_state. cbn. by destruct (fits _ _ _). }
  rewrite Hnew at 1 2 3 4. rewrite gop_pushes_state by done. cbn [app]. unfold gop_state at 1 2 3 4. cbn zeta.
  set (gop := if fits max_bytes max_count (last_gop history) then last_gop history else []).
  assert (Hready : is_replay_ready (mk_StandbyGopCache gop (packets_bytes gop) max_bytes max_count) = negb (bool_decide (gop = []))).
  { unfold is_replay_ready. cbn [packets]. destruct gop as [|p gop'] eqn:Eg; [done|].
    rewrite bool_decide_false by done. subst gop. destruct (fits _ _ _); [|done]. by eapply last_gop_head. }
  split_and!; [done|done|done|]. unfold take_replay. rewrite Hready. cbn [packets].
  destruct gop as [|p gop']; [done|]. by rewrite bool_decide_false.
Qed.

Lemma standby_gop_is_last_gop_witness :
  let kf := mk_MediaPacket Video Raw true 0 0 0 [1; 2] in
  let inter := mk_MediaPacket Video Raw false 0 1 1 [3] in
  let history := [inter; kf; inter; kf; inter; inter] in
  last_gop history = [kf; inter; inter] /\
  let self := fold_left gop_push history (StandbyGopCache_new 4 3) in
  let gop := if fits 4 3 (last_gop history) then last_gop history else [] in
  packets self = gop /\ payload_bytes self = packets_bytes gop /\
  is_replay_ready self = negb (bool_decide (gop = [])) /\ take_replay self = (gop, StandbyGopCache_new 4 3).
Proof. split; [by vm_compute|]. apply (standby_gop_is_last_gop 4 3). lia. Defined.

(** The byte queue is first in, first out, and bounded.  Whatever one asynchronous
    writer (plain, cancellable or batched), its reads and a close do, in any order: the
    bytes delivered and the bytes still queued are the bytes accepted, in order; the
    queue never holds more than its capacity less one and one write of at most [chunk]
    bytes; a blocking read gives no bytes only at the end of a closed queue (or for an
    empty target), so a reader gets everything. *)
Theorem memory_queue_fifo cap chunk c :
  rtc (queue_step chunk) (mk_queue_conf (MemoryQueue_new cap) Idle [] []) c ->
  delivered c ++ buf (queue c) = accepted c /\
  (length (buf (queue c)) <= high_water_bytes (queue c) <= cap - 1 + chunk)%nat /\
  forall k n out q', read (queue c) k (S n) = Some (out, q') -> out = [] -> closed (queue c) = true /\ delivered c = accepted c.
Proof.
  intros Hs. assert (Hok : queue_ok cap chunk (mk_queue_conf (MemoryQueue_new cap) Idle [] [])).
  { repeat split; cbn; lia. }
  destruct (queue_steps_ok cap chunk _ c Hs Hok) as (H1 & H2 & H3 & _). split_and!; [done|lia|lia|].
  intros k n out q' Hr ->. unfold read in Hr. pose proof (read_nonblocking_spec (queue c) k (S n)) as Hs'.
  destruct (buf (queue c)) as [|b bs] eqn:Eb.
  - destruct (closed (queue c)) eqn:Ec; [|done]. split; [done|]. by rewrite app_nil_r in H1.
  - injection Hr as Hr. rewrite Hr in Hs'. by destruct Hs' as [? _].
Qed.

Lemma memory_queue_fifo_witness :
  let q := (read_nonblocking (write_sync (MemoryQueue_new 2) [1; 2; 3]) 1 2).2 in
  let c := mk_queue_conf q Idle [1; 2; 3] [1; 2] in
  delivered c ++ buf (queue c) = accepted c /\
  (length (buf (queue c)) <= high_water_bytes (queue c) <= 2 - 1 + 3)%nat /\
  forall k n out q', read (queue c) k (S n) = Some (out, q') -> out = [] -> closed (queue c) = true /\ delivered c = accepted c.
Proof.
  apply (memory_queue_fifo 2 3).
  eapply rtc_l; [apply (q_start 3 _ [1; 2; 3]); cbn; lia|].
  eapply rtc_l; [apply q_pass; reflexivity|].
  eapply rtc_l; [apply q_append|]. cbn [app].
  eapply rtc_l; [apply (q_read_nonblocking 3 _ _ 1 2 [1; 2]); reflexivity|]. apply rtc_refl.
Defined.

(** Timestamps handed on are ordered.  Of any samples with 64-bit decode times, every
    one leaves with a presentation time not before its decode time, and two samples of
    the same stream leave with rising decode times, the maximum of the type apart, where
    they stay. *)
Theorem dts_enforcer_rises num_streams samples :
  Forall (fun s => in_i 64 s.2) samples ->
  let outs := enforce_all (DtsEnforcer_new num_streams) samples in
  length outs = length samples /\ Forall (fun out => out.2 <= out.1) outs /\
  forall a b i pa da pb db oa ob, (i < num_streams)%nat -> (a < b)%nat ->
    samples !! a = Some (i, pa, da) -> samples !! b = Some (i, pb, db) ->
    outs !! a = Some oa -> outs !! b = Some ob -> oa.2 < ob.2 \/ oa.2 = 2 ^ 63 - 1 /\ ob.2 = 2 ^ 63 - 1.
Proof.
  intros Hs. cbn zeta.
  assert (Hinit : Forall (in_i 64) (last_dts (DtsEnforcer_new num_streams)) /\ length (last_dts (DtsEnforcer_new num_streams)) = num_streams).
  { cbn. split; [|apply length_replicate]. apply Forall_replicate. by split. }
  revert Hinit. generalize (DtsEnforcer_new num_streams). induction samples as [|[[i pts] dts] samples IH]; intros self [Hin Hlen].
  { cbn. split_and!; done. }
  apply Forall_cons in Hs as [H0 Hs]. cbn [snd] in H0. cbn [enforce_all].
  pose proof (enforce_ok self i pts dts Hin H0) as Hok.
  destruct (enforce self i pts dts) as [[pts' dts'] self'].
  destruct Hok as (H1 & H2 & H3 & H4 & H5). destruct (IH Hs self') as (L & P & R); [by rewrite H4|].
  split_and!; [cbn; by rewrite L|by constructor|].
  intros a b j pa da pb db oa ob Hj Hab Ha Hb Hoa Hob. destruct b as [|b]; [lia|]. cbn in Hb, Hob.
  destruct a as [|a]; cbn in Ha, Hoa; [|by apply (R a b j pa da pb db oa ob); try done; lia].
  injection Ha as -> _ _. injection Hoa as <-. cbn [snd].
  eapply (enforce_all_rises samples self' j dts'); [done|apply H5; lia|done|done|done].
Qed.

Lemma dts_enforcer_rises_witness :
  let samples := [(0%nat, 5, 5); (1%nat, 1, 1); (0%nat, 4, 3); (0%nat, 9, 7)] in
  enforce_all (DtsEnforcer_new 2) samples = [(5, 5); (1, 1); (6, 6); (9, 7)] /\
  let outs := enforce_all (DtsEnforcer_new 2) samples in
  length outs = length samples /\ Forall (fun out => out.2 <= out.1) outs /\
  forall a b i pa da pb db oa ob, (i < 2)%nat -> (a < b)%nat ->
    samples !! a = Some (i, pa, da) -> samples !! b = Some (i, pb, db) ->
    outs !! a = Some oa -> outs !! b = Some ob -> oa.2 < ob.2 \/ oa.2 = 2 ^ 63 - 1 /\ ob.2 = 2 ^ 63 - 1.
Proof.
  split; [by vm_compute|]. apply (dts_enforcer_rises 2). unfold in_i. repeat constructor; cbn; lia.
Defined.
