(* ===== verification/LeafArena.v ===== *)
(** * The leaf arena of an egress shard ([egress/leaf_arena.rs])

    A shard keeps its outputs ("leaves") in slots.  A [LeafKey] names a slot and one
    occupancy of it; removing a leaf raises the slot's epoch, so that a key kept in a
    queue, a timer or a completion stops resolving.  This file models [LeafArena] and
    shows that it implements a finite map whose keys are never reused: [Spec] is that
    map, [trace] a history of calls in which callers only use keys they were given, and
    the simulation lemmas relate the two as long as no epoch has wrapped. *)

From S2P Require Import Prelude.

(** ** Keys *)

(** [slot] is a [u32] index and [epoch] a [u32] counter. *)
Record LeafKey := { slot : nat; epoch : Z }.

#[export] Instance LeafKey_eq_dec : EqDecision LeafKey.
Proof. solve_decision. Defined.

#[export] Instance LeafKey_countable : Countable LeafKey.
Proof.
  refine (inj_countable' (fun k => (slot k, epoch k)) (fun p => {| slot := p.1; epoch := p.2 |}) _).
  by intros [].
Defined.

(** [Vec::pop]: the last element and the rest. *)
Definition vec_pop {A} (l : list A) : option (A * list A) :=
  match rev l with
  | [] => None
  | x :: r => Some (x, rev r)
  end.

Lemma vec_pop_Some {A} (l : list A) x r : vec_pop l = Some (x, r) <-> l = r ++ [x].
Proof.
  unfold vec_pop. split.
  - destruct (rev l) as [|y q] eqn:E; intros [= <- <-].
    by rewrite <- (rev_involutive l), E.
  - intros ->. by rewrite rev_app_distr; cbn; rewrite rev_involutive.
Qed.

Lemma vec_pop_None {A} (l : list A) : vec_pop l = None <-> l = [].
Proof.
  unfold vec_pop. split; [|by intros ->].
  destruct (rev l) as [|y q] eqn:E; intros [=].
  by rewrite <- (rev_involutive l), E.
Qed.

(** ** The arena *)

Section arena.
Context {T : Type}.

Record Slot := { s_epoch : Z; s_value : option T }.

Record LeafArena := {
  slots : list Slot;
  (** Popped from the end. *)
  free : list nat }.

(** [u32::try_from(capacity).unwrap_or(u32::MAX)] *)
Definition clamp_u32 (capacity : nat) : nat :=
  if Z.of_nat capacity <? 2 ^ 32 then capacity else Z.to_nat (2 ^ 32 - 1).

Definition with_capacity (capacity : nat) : LeafArena :=
  {| slots := replicate (clamp_u32 capacity) {| s_epoch := 0; s_value := None |};
     free := rev (seq 0 (clamp_u32 capacity)) |}.

Definition capacity (a : LeafArena) : nat := length (slots a).
Definition is_full (a : LeafArena) : bool := bool_decide (free a = []).
Definition len (a : LeafArena) : nat := length (slots a) - length (free a).
Definition is_empty (a : LeafArena) : bool := Nat.eqb (len a) 0.

(** [self.slots.get_mut(i)] updated by [f]. *)
Definition on_slot (i : nat) (f : Slot -> Slot) (a : LeafArena) : LeafArena :=
  {| slots := alter f i (slots a); free := free a |}.

(** The pop of the free list is kept when the slot lookup fails. *)
Definition reserve (a : LeafArena) : option LeafKey * LeafArena :=
  match vec_pop (free a) with
  | None => (None, a)
  | Some (i, rest) =>
      let a' := {| slots := slots a; free := rest |} in
      match slots a !! i with
      | None => (None, a')
      | Some s => (Some {| slot := i; epoch := s_epoch s |}, a')
      end
  end.

Definition set_value (v : option T) (s : Slot) : Slot :=
  {| s_epoch := s_epoch s; s_value := v |}.

Definition insert_with (make : LeafKey -> T) (a : LeafArena) : option LeafKey * LeafArena :=
  match reserve a with
  | (None, a') => (None, a')
  | (Some k, a') =>
      match slots a' !! slot k with
      | None => (None, a')
      | Some _ => (Some k, on_slot (slot k) (set_value (Some (make k))) a')
      end
  end.

(** [self.slots.get(key.slot).filter(|entry| entry.epoch == key.epoch)] *)
Definition entry_of (a : LeafArena) (k : LeafKey) : option Slot :=
  match slots a !! slot k with
  | Some s => if s_epoch s =? epoch k then Some s else None
  | None => None
  end.

(** [Ok(())] is [None]; a refusal hands the value back. *)
Definition fill (k : LeafKey) (value : T) (a : LeafArena) : option T * LeafArena :=
  match entry_of a k with
  | Some {| s_value := None |} => (None, on_slot (slot k) (set_value (Some value)) a)
  | _ => (Some value, a)
  end.

Definition get (a : LeafArena) (k : LeafKey) : option T := entry_of a k ≫= s_value.

Definition vacate (s : Slot) : Slot :=
  {| s_epoch := as_u32 (s_epoch s + 1); s_value := None |}.

Definition remove (k : LeafKey) (a : LeafArena) : option T * LeafArena :=
  match entry_of a k with
  | None => (None, a)
  | Some s =>
      (s_value s, {| slots := alter vacate (slot k) (slots a); free := free a ++ [slot k] |})
  end.

(** The removed leaf, which must be [None], is dropped. *)
Definition release_reserved (k : LeafKey) (a : LeafArena) : LeafArena := (remove k a).2.

(** [get_mut] with the update its caller makes. *)
Definition modify (k : LeafKey) (f : T -> T) (a : LeafArena) : LeafArena :=
  match get a k with
  | Some v => on_slot (slot k) (set_value (Some (f v))) a
  | None => a
  end.

Definition iter (a : LeafArena) : list (LeafKey * T) :=
  omap (fun '(s, i) => v ← s_value s; Some ({| slot := i; epoch := s_epoch s |}, v))
       (zip (slots a) (seq 0 (length (slots a)))).

(** The iterator of [drain] run to its end. *)
Definition in_use (a : LeafArena) : list bool :=
  map (fun i => bool_decide (i ∉ free a)) (seq 0 (length (slots a))).

Definition drain_step (acc : list Slot * list nat * list T) (e : Slot * bool * nat)
    : list Slot * list nat * list T :=
  let '(ss, fr, out) := acc in
  let '(s, used, i) := e in
  if negb used then (ss ++ [s], fr, out)
  else (ss ++ [vacate s], fr ++ [i], out ++ option_list (s_value s)).

Definition drain (a : LeafArena) : list T * LeafArena :=
  let '(ss, fr, out) :=
    fold_left drain_step
      (zip (zip (slots a) (in_use a)) (seq 0 (length (slots a)))) ([], free a, []) in
  (out, {| slots := ss; free := fr |}).
End arena.

Arguments Slot : clear implicits.
Arguments LeafArena : clear implicits.

(** ** What the arena promises

    A finite map from keys to leaves, reserved or filled, that never hands out a key
    twice. *)

Section spec.
Context {T : Type}.

Inductive op :=
  | OReserve
  | OInsert (make : LeafKey -> T)
  | OFill (k : LeafKey) (v : T)
  | OModify (k : LeafKey) (f : T -> T)
  | ORemove (k : LeafKey)
  | ORelease (k : LeafKey)
  | ODrain.

Inductive res :=
  | RKey (k : option LeafKey)
  | RFill (back : option T)
  | RLeaf (leaf : option T)
  | RUnit
  | RLeaves (leaves : list T).

Definition apply (o : op) (a : LeafArena T) : res * LeafArena T :=
  match o with
  | OReserve => let '(k, a') := reserve a in (RKey k, a')
  | OInsert make => let '(k, a') := insert_with make a in (RKey k, a')
  | OFill k v => let '(b, a') := fill k v a in (RFill b, a')
  | OModify k f => (RUnit, modify k f a)
  | ORemove k => let '(l, a') := remove k a in (RLeaf l, a')
  | ORelease k => (RUnit, release_reserved k a)
  | ODrain => let '(l, a') := drain a in (RLeaves l, a')
  end.

(** The key a call names. *)
Definition op_key (o : op) : option LeafKey :=
  match o with
  | OFill k _ | OModify k _ | ORemove k | ORelease k => Some k
  | _ => None
  end.

Record Spec := {
  sp_capacity : nat;
  sp_issued : gset LeafKey;
  sp_live : gmap LeafKey (option T) }.

Definition sp_set (s : Spec) (k : LeafKey) (v : option T) : Spec :=
  {| sp_capacity := sp_capacity s; sp_issued := {[k]} ∪ sp_issued s;
     sp_live := <[k := v]> (sp_live s) |}.
Definition sp_delete (s : Spec) (k : LeafKey) : Spec :=
  {| sp_capacity := sp_capacity s; sp_issued := sp_issued s; sp_live := delete k (sp_live s) |}.
Definition sp_clear (s : Spec) : Spec :=
  {| sp_capacity := sp_capacity s; sp_issued := sp_issued s; sp_live := ∅ |}.
Definition sp_get (s : Spec) (k : LeafKey) : option T := mjoin (sp_live s !! k).
Definition sp_init (capacity : nat) : Spec :=
  {| sp_capacity := capacity; sp_issued := ∅; sp_live := ∅ |}.

Inductive spec_step (s : Spec) : op -> res -> Spec -> Prop :=
  | SReserve k :
      (size (sp_live s) < sp_capacity s)%nat -> k ∉ sp_issued s ->
      spec_step s OReserve (RKey (Some k)) (sp_set s k None)
  | SReserveFull :
      size (sp_live s) = sp_capacity s -> spec_step s OReserve (RKey None) s
  | SInsert make k :
      (size (sp_live s) < sp_capacity s)%nat -> k ∉ sp_issued s ->
      spec_step s (OInsert make) (RKey (Some k)) (sp_set s k (Some (make k)))
  | SInsertFull make :
      size (sp_live s) = sp_capacity s -> spec_step s (OInsert make) (RKey None) s
  | SFill k v :
      sp_live s !! k = Some None -> spec_step s (OFill k v) (RFill None) (sp_set s k (Some v))
  | SFillRefused k v :
      sp_live s !! k <> Some None -> spec_step s (OFill k v) (RFill (Some v)) s
  | SModify k f v :
      sp_get s k = Some v -> spec_step s (OModify k f) RUnit (sp_set s k (Some (f v)))
  | SModifyNone k f :
      sp_get s k = None -> spec_step s (OModify k f) RUnit s
  | SRemove k : spec_step s (ORemove k) (RLeaf (sp_get s k)) (sp_delete s k)
  | SRelease k : spec_step s (ORelease k) RUnit (sp_delete s k)
  | SDrain vs :
      vs ≡ₚ omap snd (map_to_list (sp_live s)) ->
      spec_step s ODrain (RLeaves vs) (sp_clear s).

(** Histories of calls: a caller only names keys the arena gave out. *)
Definition returned_key (e : op * res) : option LeafKey :=
  match e.2 with RKey k => k | _ => None end.
Definition returned (h : list (op * res)) (k : LeafKey) : Prop := k ∈ omap returned_key h.

Inductive trace (cap : nat) : list (op * res) -> LeafArena T -> Prop :=
  | trace_init : trace cap [] (with_capacity cap)
  | trace_step h a o r a' :
      trace cap h a ->
      (forall k, op_key o = Some k -> returned h k) ->
      apply o a = (r, a') ->
      trace cap (h ++ [(o, r)]) a'.

Inductive spec_trace (cap : nat) : list (op * res) -> Spec -> Prop :=
  | spec_trace_init : spec_trace cap [] (sp_init cap)
  | spec_trace_step h s o r s' :
      spec_trace cap h s -> spec_step s o r s' -> spec_trace cap (h ++ [(o, r)]) s'.
End spec.

Arguments op : clear implicits.
Arguments res : clear implicits.
Arguments Spec : clear implicits.

(** ** The simulation *)

Section simulation.
Context {T : Type}.
Implicit Types (a : LeafArena T) (s : Spec T) (k : LeafKey).

(** The leaf a key stands for: its slot is taken and at its epoch. *)
Definition live_of a k : option (option T) :=
  match entry_of a k with
  | Some e => if decide (slot k ∈ free a) then None else Some (s_value e)
  | None => None
  end.

(** [n] bounds the epochs. *)
Record refines (n : Z) a s : Prop := {
  rf_nodup : NoDup (free a);
  rf_free : forall i, i ∈ free a -> (i < length (slots a))%nat;
  rf_epoch : forall i e, slots a !! i = Some e -> 0 <= s_epoch e <= n;
  rf_vacant : forall i e, i ∈ free a -> slots a !! i = Some e -> s_value e = None;
  rf_issued : forall k, k ∈ sp_issued s -> exists e, slots a !! slot k = Some e /\
    (epoch k < s_epoch e \/ epoch k = s_epoch e /\ slot k ∉ free a);
  rf_live : forall k, sp_live s !! k = live_of a k;
  rf_count : (size (sp_live s) + length (free a) = length (slots a))%nat;
  rf_cap : sp_capacity s = length (slots a) }.

Lemma list_lookup_alter_dec {A} (f : A -> A) i j (l : list A) :
  alter f i l !! j = if decide (i = j) then f <$> l !! j else l !! j.
Proof.
  destruct (decide (i = j)) as [->|].
  - apply list_lookup_alter_eq.
  - by apply list_lookup_alter_ne.
Qed.

Lemma entry_of_Some a k e :
  entry_of a k = Some e <-> slots a !! slot k = Some e /\ s_epoch e = epoch k.
Proof.
  unfold entry_of. destruct (slots a !! slot k) as [e'|]; [|naive_solver].
  case_if; naive_solver.
Qed.

Lemma live_of_Some a k v :
  live_of a k = Some v <->
  exists e, slots a !! slot k = Some e /\ s_epoch e = epoch k /\ s_value e = v /\
    slot k ∉ free a.
Proof.
  unfold live_of. split.
  - destruct (entry_of a k) as [e|] eqn:E; [|done]. apply entry_of_Some in E as [? ?].
    destruct (decide _); naive_solver.
  - intros (e & He & Hep & Hv & Hf). assert (entry_of a k = Some e) as -> by (by apply entry_of_Some).
    by rewrite decide_False, Hv.
Qed.

Lemma refines_get n a s k : refines n a s -> get a k = sp_get s k.
Proof.
  intros R. unfold sp_get. rewrite (rf_live _ _ _ R). unfold get, live_of.
  destruct (entry_of a k) as [e|] eqn:E; [|done]. cbn.
  apply entry_of_Some in E as [E _].
  destruct (decide _) as [Hf|]; [|done]. cbn. by eapply rf_vacant in E.
Qed.

(** A key in use that was given out is at its slot's epoch. *)
Lemma issued_current n a s k e :
  refines n a s -> k ∈ sp_issued s -> entry_of a k = Some e ->
  slot k ∉ free a /\ sp_live s !! k = Some (s_value e).
Proof.
  intros R Hk He. pose proof He as [He1 He2]%entry_of_Some.
  destruct (rf_issued _ _ _ R k Hk) as (e' & He' & Hd). simplify_eq.
  destruct Hd as [|[_ Hf]]; [lia|]. split; [done|].
  rewrite (rf_live _ _ _ R). apply live_of_Some. naive_solver.
Qed.

(** A slot's value is written: [fill], [get_mut]. *)
Lemma refines_set_value n a s k e v :
  refines n a s -> k ∈ sp_issued s -> entry_of a k = Some e ->
  refines n (on_slot (slot k) (set_value v) a) (sp_set s k v).
Proof.
  intros R Hk He. destruct (issued_current _ _ _ _ _ R Hk He) as [Hf Hl].
  pose proof He as [He1 He2]%entry_of_Some.
  destruct R as [R1 R2 R3 R4 R5 R6 R7 R8]. split; cbn; rewrite ?length_alter; auto.
  - intros i e'. rewrite list_lookup_alter_dec. destruct (decide _) as [<-|]; [|eauto].
    rewrite He1. intros [= <-]. cbn. eauto.
  - intros i e' Hi. rewrite list_lookup_alter_dec. destruct (decide _) as [<-|]; [done|eauto].
  - intros k' [->%elem_of_singleton|Hk']%elem_of_union;
      [exists (set_value v e); rewrite list_lookup_alter_eq, He1; cbn; auto|].
    destruct (R5 k' Hk') as (e' & He' & Hd). rewrite list_lookup_alter_dec.
    destruct (decide _) as [Heq|]; [|eauto]. rewrite He'. exists (set_value v e'). auto.
  - intros k'. apply option_eq; intros w. rewrite live_of_Some. cbn.
    rewrite list_lookup_alter_dec. destruct (decide (k = k')) as [<-|Hne].
    + rewrite lookup_insert_eq, decide_True, He1 by done. cbn. split.
      * intros [= <-]. exists (set_value v e). cbn. auto.
      * intros (? & [= <-] & _ & Hw & _). cbn in Hw. by f_equal.
    + rewrite lookup_insert_ne, R6, live_of_Some by done.
      destruct (decide (slot k = slot k')) as [Hs|]; [|naive_solver].
      assert (slots a !! slot k' = Some e) as -> by congruence.
      assert (epoch k <> epoch k') by (intros ?; apply Hne; destruct k, k'; cbn in *; congruence).
      split; intros (? & ? & ? & _); simplify_eq/=; congruence.
  - rewrite map_size_insert_Some by (by eexists). lia.
Qed.

Lemma reserve_sim n a s :
  refines n a s ->
  match reserve a with
  | (None, a') => a' = a /\ size (sp_live s) = sp_capacity s
  | (Some k, a') =>
      (size (sp_live s) < sp_capacity s)%nat /\ k ∉ sp_issued s /\
      refines n a' (sp_set s k None) /\ exists e, entry_of a' k = Some e
  end.
Proof.
  intros R. unfold reserve. destruct (vec_pop (free a)) as [[i rest]|] eqn:Ep.
  2:{ apply vec_pop_None in Ep. split; [done|].
      pose proof (rf_count _ _ _ R) as Hc. rewrite Ep in Hc. cbn in Hc.
      rewrite (rf_cap _ _ _ R). lia. }
  apply vec_pop_Some in Ep.
  assert (Hi : i ∈ free a) by (rewrite Ep; set_solver).
  assert (Hir : i ∉ rest).
  { pose proof (rf_nodup _ _ _ R) as Hn. rewrite Ep in Hn.
    apply NoDup_app in Hn as (_ & Hn & _). set_solver. }
  destruct (lookup_lt_is_Some_2 (slots a) i) as [e He]; [by eapply rf_free|].
  rewrite He. set (k := {| slot := i; epoch := s_epoch e |}).
  assert (Hfresh : k ∉ sp_issued s).
  { intros Hk. destruct (rf_issued _ _ _ R k Hk) as (e' & He' & Hd). cbn in *. simplify_eq.
    destruct Hd as [|[_ Hd]]; [lia|done]. }
  assert (Hdead : sp_live s !! k = None).
  { rewrite (rf_live _ _ _ R). destruct (live_of a k) as [v|] eqn:E; [|done].
    apply live_of_Some in E as (? & _ & _ & _ & Hf). done. }
  pose proof (rf_vacant _ _ _ R _ _ Hi He) as Hv.
  destruct R as [R1 R2 R3 R4 R5 R6 R7 R8].
  rewrite Ep in R7. rewrite length_app in R7. cbn in R7.
  split_and!; [lia|done| |by exists e; apply entry_of_Some].
  split; cbn; auto.
  - rewrite Ep in R1. by apply NoDup_app in R1 as (? & _).
  - intros j Hj. apply R2. rewrite Ep. set_solver.
  - intros j e' Hj. apply R4. rewrite Ep. set_solver.
  - intros k' [->%elem_of_singleton|Hk']%elem_of_union; [by exists e; auto|].
    destruct (R5 k' Hk') as (e' & He' & Hd). exists e'. split; [done|].
    destruct Hd as [|[? Hf]]; [auto|]. right. split; [done|]. rewrite Ep in Hf. set_solver.
  - intros k'. apply option_eq; intros w. rewrite live_of_Some. cbn.
    destruct (decide (k = k')) as [<-|Hne].
    + rewrite lookup_insert_eq. cbn. split; [intros [= <-]; by exists e|].
      intros (? & Hx & _ & Hw & _). f_equal. congruence.
    + rewrite lookup_insert_ne, R6, live_of_Some, Ep by done.
      split; intros (e' & He' & Hep & Hw & Hf); exists e'; split_and!; auto; [set_solver|].
      intros [Hin|Hin%list_elem_of_singleton]%elem_of_app; [done|].
      subst i. apply Hne. rewrite He in He'. injection He' as ->.
      destruct k'; cbn in *; unfold k; congruence.
  - rewrite map_size_insert_None by done. lia.
Qed.

Lemma remove_sim n a s k :
  refines n a s -> k ∈ sp_issued s -> n + 1 < 2 ^ 32 ->
  (remove k a).1 = sp_get s k /\ refines (n + 1) (remove k a).2 (sp_delete s k).
Proof.
  intros R Hk Hn. rewrite <- (refines_get _ _ _ k R). unfold remove, get.
  destruct (entry_of a k) as [e|] eqn:E; cbn; split; try done.
  2:{ assert (Hd : sp_live s !! k = None) by (rewrite (rf_live _ _ _ R); unfold live_of; by rewrite E).
      destruct R as [R1 R2 R3 R4 R5 R6 R7 R8]. split; cbn; auto.
      - intros i e He. specialize (R3 i e He). lia.
      - intros k'. by rewrite delete_id.
      - by rewrite delete_id. }
  destruct (issued_current _ _ _ _ _ R Hk E) as [Hf Hl].
  pose proof E as [He1 He2]%entry_of_Some.
  pose proof (rf_epoch _ _ _ R _ _ He1) as Hep.
  assert (Hw : as_u32 (s_epoch e + 1) = s_epoch e + 1) by (apply wrapu_id; split; lia).
  destruct R as [R1 R2 R3 R4 R5 R6 R7 R8]. split; cbn; rewrite ?length_alter; auto.
  - apply NoDup_app. split_and!; [done| |apply NoDup_singleton]. set_solver.
  - intros i [Hi| ->%list_elem_of_singleton]%elem_of_app; [auto|]. by apply lookup_lt_Some in He1.
  - intros i e'. rewrite list_lookup_alter_dec. destruct (decide _) as [<-|].
    + rewrite He1. intros [= <-]. cbn. lia.
    + intros He. specialize (R3 i e' He). lia.
  - intros i e' Hi. rewrite list_lookup_alter_dec. destruct (decide _) as [<-|Hne].
    + rewrite He1. by intros [= <-].
    + apply R4. set_solver.
  - intros k' Hk'. destruct (R5 k' Hk') as (e' & He' & Hd). rewrite list_lookup_alter_dec.
    destruct (decide _) as [Heq|Hne].
    + rewrite He'. exists (vacate e'). split; [done|]. left. cbn.
      assert (e' = e) as -> by congruence. rewrite Hw. lia.
    + exists e'. split; [done|]. destruct Hd as [|[? Hd]]; [auto|]. right. set_solver.
  - intros k'. apply option_eq; intros w. rewrite live_of_Some. cbn.
    rewrite list_lookup_alter_dec. destruct (decide (k = k')) as [<-|Hne].
    + rewrite lookup_delete_eq, decide_True, He1 by done. cbn.
      split; [done|]. intros (? & _ & _ & _ & Hin). set_solver.
    + rewrite lookup_delete_ne, R6, live_of_Some by done.
      destruct (decide (slot k = slot k')) as [Hs|Hs]; [|set_solver].
      assert (slots a !! slot k' = Some e) as -> by congruence.
      assert (epoch k <> epoch k') by (intros ?; apply Hne; destruct k, k'; cbn in *; congruence).
      split; intros (? & ? & ? & _ & Hin); simplify_eq/=; [congruence|]. rewrite Hs in Hin. set_solver.
  - rewrite map_size_delete_Some, length_app by (by eexists). cbn.
    assert (size (sp_live s) <> 0%nat); [|lia].
    apply map_size_non_empty_iff. intros Hempty. by rewrite Hempty, lookup_empty in Hl.
Qed.

(** *** Draining *)

Definition vacate_used a (i : nat) (e : Slot T) : Slot T :=
  if decide (i ∈ free a) then e else vacate e.

Definition used_entry a (i : nat) (e : Slot T) : option (LeafKey * option T) :=
  if decide (i ∈ free a) then None else Some ({| slot := i; epoch := s_epoch e |}, s_value e).

Definition used_entries a : list (LeafKey * option T) :=
  omap (fun '(e, i) => used_entry a i e) (zip (slots a) (seq 0 (length (slots a)))).

Lemma list_omap_cons {A B} (f : A -> option B) x l :
  omap f (x :: l) = match f x with Some y => y :: omap f l | None => omap f l end.
Proof. done. Qed.

Lemma used_free a i e : i ∈ free a -> used_entry a i e = None.
Proof. intros. unfold used_entry. by rewrite decide_True. Qed.

Lemma used_taken a i e :
  i ∉ free a -> used_entry a i e = Some ({| slot := i; epoch := s_epoch e |}, s_value e).
Proof. intros. unfold used_entry. by rewrite decide_False. Qed.

Lemma drain_fold a l ss fr out :
  fold_left drain_step (map (fun '(e, i) => (e, bool_decide (i ∉ free a), i)) l) (ss, fr, out) =
  (ss ++ map (fun '(e, i) => vacate_used a i e) l,
   fr ++ filter (fun i => i ∉ free a) (map snd l),
   out ++ omap snd (omap (fun '(e, i) => used_entry a i e) l)).
Proof.
  revert ss fr out. induction l as [|[e i] l IH]; intros ss fr out; [by rewrite !app_nil_r|].
  cbn [map fold_left drain_step snd]. rewrite filter_cons, list_omap_cons.
  destruct (decide (i ∈ free a)) as [Hd|Hd].
  - rewrite used_free, bool_decide_eq_false_2, decide_False by tauto. cbn [negb]. rewrite IH.
    assert (vacate_used a i e = e) as -> by (by apply decide_True). by rewrite <- app_assoc.
  - rewrite used_taken, bool_decide_eq_true_2, decide_True by tauto. cbn [negb].
    rewrite IH, list_omap_cons. assert (vacate_used a i e = vacate e) as -> by (by apply decide_False).
    destruct e as [ep [v|]]; cbn; by rewrite <- !app_assoc.
Qed.

Lemma drain_eq a :
  drain a = (omap snd (used_entries a),
    {| slots := map (fun '(e, i) => vacate_used a i e) (zip (slots a) (seq 0 (length (slots a))));
       free := free a ++ filter (fun i => i ∉ free a) (seq 0 (length (slots a))) |}).
Proof.
  unfold drain, in_use, used_entries.
  assert (Hz : forall (l : list (Slot T)) (q : list nat),
    zip (zip l (map (fun i => bool_decide (i ∉ free a)) q)) q =
    map (fun '(e, i) => (e, bool_decide (i ∉ free a), i)) (zip l q)).
  { induction l as [|e l IH]; intros [|i q]; cbn; [done..|]. by rewrite IH. }
  rewrite Hz, drain_fold. cbn. repeat f_equal.
  apply (snd_zip (A := Slot T)). by rewrite length_seq.
Qed.

Lemma enum_lookup a i e :
  zip (slots a) (seq 0 (length (slots a))) !! i = Some e <->
  slots a !! i = Some e.1 /\ e.2 = i.
Proof.
  destruct e as [e j]. rewrite lookup_zip_Some; cbn. rewrite lookup_seq.
  split; intros [H1 H2]; split; auto; [lia|]. apply lookup_lt_Some in H1. lia.
Qed.

Lemma used_entries_slots a l :
  map (fun p => slot p.1) (omap (fun '(e, i) => used_entry a i e) l) =
  filter (fun i => i ∉ free a) (map snd l).
Proof.
  induction l as [|[e i] l IH]; [done|]. cbn [map snd]. rewrite list_omap_cons, filter_cons.
  destruct (decide (i ∈ free a)).
  - by rewrite used_free, decide_False by tauto.
  - rewrite used_taken, decide_True by tauto. cbn. by f_equal.
Qed.

Lemma used_entries_spec n a s :
  refines n a s -> used_entries a ≡ₚ map_to_list (sp_live s).
Proof.
  intros R. apply NoDup_Permutation; [|apply NoDup_map_to_list|].
  - apply (NoDup_fmap_1 (fun p => slot p.1)). unfold used_entries. change fmap with (@map (LeafKey * option T) nat).
    rewrite used_entries_slots. apply NoDup_filter.
    rewrite (snd_zip (A := Slot T)) by (by rewrite length_seq). apply NoDup_seq.
  - intros [k v]. rewrite elem_of_map_to_list, (rf_live _ _ _ R), live_of_Some.
    unfold used_entries. rewrite list_elem_of_omap. split.
    + intros ([e i] & Hin & Hu). apply list_elem_of_lookup in Hin as [j [He Hj]%enum_lookup].
      cbn in *. subst j. unfold used_entry in Hu. destruct (decide _); simplify_eq. cbn. eauto.
    + intros (e & He & Hep & Hv & Hf). exists (e, slot k). split.
      * apply list_elem_of_lookup. exists (slot k). by apply enum_lookup.
      * unfold used_entry. rewrite decide_False by done. destruct k; cbn in *; congruence.
Qed.

Lemma drained_free a :
  NoDup (free a) -> (forall i, i ∈ free a -> (i < length (slots a))%nat) ->
  free a ++ filter (fun i => i ∉ free a) (seq 0 (length (slots a))) ≡ₚ
  seq 0 (length (slots a)).
Proof.
  intros Hn Hlt. apply NoDup_Permutation; [|apply NoDup_seq|].
  - apply NoDup_app. split_and!; [done| |apply NoDup_filter, NoDup_seq].
    intros i Hi [Hni _]%list_elem_of_filter. done.
  - intros i. rewrite elem_of_app, list_elem_of_filter, elem_of_seq.
    destruct (decide (i ∈ free a)) as [Hi|Hi]; [specialize (Hlt i Hi)|]; split; try tauto; lia.
Qed.

Lemma drain_sim n a s :
  refines n a s -> n + 1 < 2 ^ 32 ->
  (drain a).1 ≡ₚ omap snd (map_to_list (sp_live s)) /\ refines (n + 1) (drain a).2 (sp_clear s).
Proof.
  intros R Hn. rewrite drain_eq. cbn [fst snd].
  split; [by rewrite (used_entries_spec _ _ _ R)|].
  pose proof (drained_free a (rf_nodup _ _ _ R) (rf_free _ _ _ R)) as Hp.
  set (fr := free a ++ _) in *.
  assert (Hin : forall i, i ∈ fr <-> (i < length (slots a))%nat)
    by (intros i; rewrite Hp, elem_of_seq; lia).
  assert (Hlen : length (map (fun '(e, i) => vacate_used a i e)
    (zip (slots a) (seq 0 (length (slots a))))) = length (slots a)).
  { rewrite length_map, length_zip, length_seq. lia. }
  assert (Hlk : forall i e, map (fun '(e, i) => vacate_used a i e)
    (zip (slots a) (seq 0 (length (slots a)))) !! i = Some e <->
    exists e0, slots a !! i = Some e0 /\ e = vacate_used a i e0).
  { intros i e. rewrite list_lookup_fmap, fmap_Some. split.
    - intros ([e0 j] & [? ?]%enum_lookup & ->). cbn in *. subst. eauto.
    - intros (e0 & He0 & ->). exists (e0, i). split; [by apply enum_lookup|done]. }
  assert (Hvac : forall i e0, slots a !! i = Some e0 ->
    s_value (vacate_used a i e0) = None /\ 0 <= s_epoch (vacate_used a i e0) <= n + 1 /\
    s_epoch e0 <= s_epoch (vacate_used a i e0) /\
    (i ∉ free a -> s_epoch e0 < s_epoch (vacate_used a i e0))).
  { intros i e0 He0. pose proof (rf_epoch _ _ _ R _ _ He0). unfold vacate_used.
    destruct (decide _) as [Hf|Hf]; [split_and!; try lia; [by eapply rf_vacant|done]|].
    cbn. rewrite wrapu_id by (split; lia). split_and!; [done|lia..]. }
  destruct R as [R1 R2 R3 R4 R5 R6 R7 R8].
  split; cbn [slots free sp_issued sp_live sp_capacity sp_clear]; rewrite ?Hlen; auto.
  - rewrite Hp. apply NoDup_seq.
  - by intros i ?%Hin.
  - intros i e (e0 & He0 & ->)%Hlk. by apply Hvac.
  - intros i e _ (e0 & He0 & ->)%Hlk. by apply Hvac.
  - intros k Hk. destruct (R5 k Hk) as (e0 & He0 & Hd). exists (vacate_used a (slot k) e0).
    split; [by apply Hlk; eauto|]. left.
    destruct (Hvac _ _ He0) as (_ & _ & ? & Hs). destruct Hd as [?|[-> ?]]; [lia|auto].
  - intros k. rewrite lookup_empty. symmetry. destruct (live_of _ k) as [v|] eqn:E; [|done].
    apply live_of_Some in E as (e & (e0 & He0 & _)%Hlk & _ & _ & Hf). cbn in Hf.
    destruct Hf. apply Hin. by eapply lookup_lt_Some.
  - rewrite map_size_empty, Hp, length_seq. done.
Qed.

(** *** Every call, and histories *)

Lemma refines_weaken n a s : refines n a s -> refines (n + 1) a s.
Proof.
  intros [R1 R2 R3 R4 R5 R6 R7 R8]. split; auto.
  intros i e He. specialize (R3 i e He). lia.
Qed.

Lemma sp_set_set s k v w : sp_set (sp_set s k v) k w = sp_set s k w.
Proof.
  unfold sp_set; cbn. f_equal; [set_solver|]. apply insert_insert_eq.
Qed.

Lemma insert_sim n a s make :
  refines n a s ->
  match insert_with make a with
  | (None, a') => a' = a /\ size (sp_live s) = sp_capacity s
  | (Some k, a') =>
      (size (sp_live s) < sp_capacity s)%nat /\ k ∉ sp_issued s /\
      refines n a' (sp_set s k (Some (make k)))
  end.
Proof.
  intros R. pose proof (reserve_sim _ _ _ R) as H. unfold insert_with.
  destruct (reserve a) as [[k|] a']; [|done].
  destruct H as (Hc & Hi & R' & e & He). pose proof He as [-> _]%entry_of_Some.
  split_and!; [done|done|]. rewrite <- (sp_set_set s k None).
  eapply refines_set_value; eauto. cbn. set_solver.
Qed.

Lemma modify_sim n a s k f v :
  refines n a s -> k ∈ sp_issued s -> get a k = Some v ->
  refines n (modify k f a) (sp_set s k (Some (f v))).
Proof.
  intros R Hk Hv. unfold modify. rewrite Hv. unfold get in Hv.
  destruct (entry_of a k) as [e|] eqn:E; [|done]. by eapply refines_set_value.
Qed.

Lemma apply_sim n a s o :
  refines n a s -> (forall k, op_key o = Some k -> k ∈ sp_issued s) -> n + 1 < 2 ^ 32 ->
  exists s', spec_step s o (apply o a).1 s' /\ refines (n + 1) (apply o a).2 s'.
Proof.
  intros R Hk Hn. destruct o as [|make|k v|k f|k|k|]; cbn [apply op_key] in *.
  - pose proof (reserve_sim _ _ _ R) as H. destruct (reserve a) as [[k|] a']; cbn.
    + destruct H as (Hc & Hi & R' & _). eexists. split; [by constructor|by apply refines_weaken].
    + destruct H as [-> Hc]. eexists. split; [by constructor|by apply refines_weaken].
  - pose proof (insert_sim _ _ _ make R) as H. destruct (insert_with make a) as [[k|] a']; cbn.
    + destruct H as (Hc & Hi & R'). eexists. split; [by apply SInsert|by apply refines_weaken].
    + destruct H as [-> Hc]. eexists. split; [by constructor|by apply refines_weaken].
  - specialize (Hk k eq_refl). unfold fill. destruct (entry_of a k) as [e|] eqn:E; cbn.
    + destruct (issued_current _ _ _ _ _ R Hk E) as [_ Hl]. destruct e as [ep [w|]]; cbn.
      * exists s. split; [constructor; by rewrite Hl|by apply refines_weaken].
      * eexists. split; [by constructor|]. by eapply refines_weaken, refines_set_value.
    + exists s. split; [constructor|by apply refines_weaken].
      rewrite (rf_live _ _ _ R). unfold live_of. by rewrite E.
  - specialize (Hk k eq_refl). destruct (sp_get s k) as [v|] eqn:E; rewrite <- (refines_get _ _ _ _ R) in E.
    + eexists. split; [apply SModify; by rewrite <- (refines_get _ _ _ _ R)|].
      by apply refines_weaken, modify_sim.
    + exists s. unfold modify. rewrite E. split; [|by apply refines_weaken].
      constructor. by rewrite <- (refines_get _ _ _ _ R).
  - destruct (remove_sim _ _ _ k R (Hk k eq_refl) Hn) as [H1 H2].
    destruct (remove k a) as [l a']; cbn in *. subst l. eexists. split; [constructor|done].
  - destruct (remove_sim _ _ _ k R (Hk k eq_refl) Hn) as [H1 H2].
    eexists. split; [constructor|done].
  - destruct (drain_sim _ _ _ R Hn) as [H1 H2]. destruct (drain a) as [l a']; cbn in *.
    eexists. split; [by constructor|done].
Qed.

Lemma refines_init cap :
  refines 0 (with_capacity (T := T) cap) (sp_init (clamp_u32 cap)).
Proof.
  assert (Hp : rev (seq 0 (clamp_u32 cap)) ≡ₚ seq 0 (clamp_u32 cap))
    by (symmetry; apply Permutation_rev).
  split; cbn -[clamp_u32]; rewrite ?length_replicate.
  - rewrite Hp. apply NoDup_seq.
  - intros i. rewrite Hp, elem_of_seq. lia.
  - intros i e [-> _]%lookup_replicate. cbn. lia.
  - intros i e _ [-> _]%lookup_replicate. done.
  - intros k. by rewrite elem_of_empty.
  - intros k. rewrite lookup_empty. symmetry. destruct (live_of _ k) as [v|] eqn:E; [|done].
    apply live_of_Some in E as (e & [_ Hlt]%lookup_replicate & _ & _ & Hf).
    destruct Hf. cbn -[clamp_u32]. rewrite Hp, elem_of_seq. lia.
  - by rewrite map_size_empty, Hp, length_seq.
  - done.
Qed.

Lemma returned_app (h : list (op T * res T)) e k :
  returned (h ++ [e]) k <-> returned h k \/ e.2 = RKey (Some k).
Proof.
  unfold returned. rewrite omap_app, elem_of_app. destruct e as [o []]; cbn; try set_solver.
  destruct k0 as [k0|]; cbn; set_solver.
Qed.

Lemma spec_step_issued s o r s' k :
  spec_step s o r s' -> r = RKey (Some k) \/ k ∈ sp_issued s -> k ∈ sp_issued s'.
Proof. intros Hst [Hr|Hi]; destruct Hst; simplify_eq; cbn; set_solver. Qed.

(** Deleted keys that were given out stay dead. *)
Lemma spec_step_dead s o r s' k :
  spec_step s o r s' -> k ∈ sp_issued s -> sp_live s !! k = None -> sp_live s' !! k = None.
Proof.
  intros Hs Hk Hd. destruct Hs; cbn in *; rewrite ?lookup_delete_None, ?lookup_insert_None;
    unfold sp_get in *; auto; split; auto; intros ->; try done; try congruence.
  by rewrite Hd in *.
Qed.

Lemma trace_sim cap h a :
  trace (T := T) cap h a -> Z.of_nat (length h) < 2 ^ 32 ->
  exists s, spec_trace (clamp_u32 cap) h s /\ refines (Z.of_nat (length h)) a s /\
    (forall k, returned h k -> k ∈ sp_issued s) /\
    (forall k r, (ORemove k, r) ∈ h -> k ∈ sp_issued s /\ sp_live s !! k = None).
Proof.
  induction 1 as [|h a o r a' _ IH Hret Ha]; intros Hlen.
  - exists (sp_init (clamp_u32 cap)). split_and!; [constructor|apply refines_init| |].
    + intros k Hk. by apply not_elem_of_nil in Hk.
    + intros k r Hk. by apply not_elem_of_nil in Hk.
  - rewrite length_app in *. cbn in Hlen.
    destruct IH as (s & Hs & R & Hi & Hrem); [lia|].
    destruct (apply_sim _ _ _ o R) as (s' & Hst & R');
      [intros k Hk; by apply Hi, Hret|lia|]. rewrite Ha in Hst, R'. cbn in Hst, R'.
    exists s'. split_and!.
    + by eapply spec_trace_step.
    + cbn. by replace (Z.of_nat (length h + 1)) with (Z.of_nat (length h) + 1) by lia.
    + intros k [Hk|Hk]%returned_app; (eapply spec_step_issued; [exact Hst|]); auto.
    + intros k q [Hk|Hk%list_elem_of_singleton]%elem_of_app.
      * destruct (Hrem k q Hk). split; [by eapply spec_step_issued; eauto|].
        by eapply spec_step_dead.
      * injection Hk as <- <-. specialize (Hi k (Hret k eq_refl)).
        split; [by eapply spec_step_issued; eauto|].
        inversion Hst; subst. cbn. apply lookup_delete_eq.
Qed.

Lemma iter_spec n a s k v :
  refines n a s -> (k, v) ∈ iter a <-> sp_live s !! k = Some (Some v).
Proof.
  intros R. unfold iter. rewrite (rf_live _ _ _ R), live_of_Some, list_elem_of_omap. split.
  - intros ([e i] & Hin & Hv). apply list_elem_of_lookup in Hin as [j [He Hj]%enum_lookup].
    cbn in *. subst j. destruct (s_value e) as [w|] eqn:Ew; cbn in Hv; [|done].
    injection Hv as <- <-. exists e. cbn. split_and!; auto.
    intros Hf. by rewrite (rf_vacant _ _ _ R _ _ Hf He) in Ew.
  - intros (e & He & Hep & Hv & Hf). exists (e, slot k). split.
    + apply list_elem_of_lookup. exists (slot k). by apply enum_lookup.
    + rewrite Hv. cbn. destruct k; cbn in *; congruence.
Qed.

Lemma spec_trace_capacity c h s : spec_trace (T := T) c h s -> sp_capacity s = c.
Proof. induction 1 as [|? ? ? ? ? _ IH Hst]; [done|]. rewrite <- IH. by destruct Hst. Qed.

(** Histories made by running calls. *)
Fixpoint replay (h : list (op T * res T)) a (os : list (op T))
    : option (list (op T * res T) * LeafArena T) :=
  match os with
  | [] => Some (h, a)
  | o :: os' =>
      let ok := match op_key o with Some k => bool_decide (k ∈ omap returned_key h) | None => true end in
      if ok then let '(r, a') := apply o a in replay (h ++ [(o, r)]) a' os' else None
  end.

Lemma replay_trace cap os h a h' a' :
  trace cap h a -> replay h a os = Some (h', a') -> trace cap h' a'.
Proof.
  revert h a. induction os as [|o os IH]; cbn; intros h a Ht; [by intros [= <- <-]|].
  case_if; [|done]. destruct (apply o a) as [r a''] eqn:Ea. apply IH.
  eapply trace_step; [done| |done]. intros k Hk. rewrite Hk in E.
  by apply bool_decide_eq_true in E.
Qed.
End simulation.

(** ** Properties *)

(** C31: whatever calls are made with keys the arena gave out, fewer than 2^32 of them (so
    that no epoch wraps), the results are those of the specification: a finite map that
    never gives a key out twice, refuses exactly when it is full, and resolves a key
    exactly while its leaf is live.  [get], [len], [is_full] and [iter] read that map. *)
Theorem arena_refines_map {T} cap h (a : LeafArena T) :
  trace cap h a -> Z.of_nat (length h) < 2 ^ 32 ->
  exists s, spec_trace (clamp_u32 cap) h s /\
    (forall k, get a k = sp_get s k) /\
    (forall k v, (k, v) ∈ iter a <-> sp_live s !! k = Some (Some v)) /\
    len a = size (sp_live s) /\ (len a <= clamp_u32 cap)%nat /\
    (is_full a = true <-> len a = clamp_u32 cap).
Proof.
  intros Ht Hlen. destruct (trace_sim _ _ _ Ht Hlen) as (s & Hs & R & _).
  pose proof (spec_trace_capacity _ _ _ Hs) as Hcap.
  pose proof (rf_count _ _ _ R). pose proof (rf_cap _ _ _ R).
  exists s. unfold len, is_full. split_and!; auto; try lia.
  - intros k. by eapply refines_get.
  - intros k v. by eapply iter_spec.
  - rewrite bool_decide_eq_true. destruct (free a); cbn in *; split; intros; try done; lia.
Qed.

(** A key that was removed never resolves again, however its slot is reused. *)
Theorem removed_key_never_resolves {T} cap h (a : LeafArena T) k r :
  trace cap h a -> Z.of_nat (length h) < 2 ^ 32 -> (ORemove k, r) ∈ h -> get a k = None.
Proof.
  intros Ht Hlen Hin. destruct (trace_sim _ _ _ Ht Hlen) as (s & _ & R & _ & Hrem).
  rewrite (refines_get _ _ _ _ R). unfold sp_get. by rewrite (proj2 (Hrem _ _ Hin)).
Qed.

(** ** Witnesses *)

#[local] Abbreviation key0 e := {| slot := 0; epoch := e |}.

(** A slot used twice: the second leaf has a new key. *)
Definition reuse_history : list (op Z * res Z) :=
  [(OInsert (fun _ => 7), RKey (Some (key0 0))); (ORemove (key0 0), RLeaf (Some 7));
   (OReserve, RKey (Some (key0 1))); (OReserve, RKey None); (OFill (key0 0) 8, RFill (Some 8));
   (OFill (key0 1) 9, RFill None)].

Lemma reuse_trace : exists a, trace 1 reuse_history a /\ get a (key0 1) = Some 9.
Proof.
  eexists. split; [eapply (replay_trace 1 (map fst reuse_history)); [constructor|]|]; reflexivity.
Qed.

Lemma arena_refines_map_witness :
  exists s a, spec_trace 1 reuse_history s /\ trace 1 reuse_history a /\ len a = size (sp_live s).
Proof.
  destruct reuse_trace as (a & Ha & _).
  destruct (arena_refines_map 1 reuse_history a Ha ltac:(reflexivity)) as (s & Hs & _ & _ & Hl & _).
  by exists s, a.
Defined.

Lemma removed_key_never_resolves_witness :
  exists a, trace 1 reuse_history a /\ get a (key0 0) = None /\ get a (key0 1) = Some 9.
Proof.
  destruct reuse_trace as (a & Ha & H9). exists a. split_and!; [done| |done].
  apply (removed_key_never_resolves 1 reuse_history a (key0 0) (RLeaf (Some 7)) Ha);
    [reflexivity|]. right. left.
Defined.
