(* ===== verification/ReadyQueue.v ===== *)
(** * The ready queue of an egress shard ([egress/scheduler.rs])

    A first-in first-out queue of leaf keys that holds each key once.  [member] records,
    per slot, the key that is queued; an entry of [order] that is not its slot's member is
    stale and skipped.  [queued] is the queue the structure stands for. *)

From S2P Require Import Prelude LeafArena.

Record ScheduleState := {
  deficit_bytes : Z;
  last_service_at : option Z;
  wants_feed_wake : bool;
  feed_wake_queued : bool }.

Definition ScheduleState_new : ScheduleState :=
  {| deficit_bytes := 0; last_service_at := None; wants_feed_wake := false;
     feed_wake_queued := false |}.

Definition mark_serviced (now : Z) (s : ScheduleState) : ScheduleState :=
  {| deficit_bytes := 0; last_service_at := Some now; wants_feed_wake := wants_feed_wake s;
     feed_wake_queued := feed_wake_queued s |}.

Inductive Push := Queued | AlreadyQueued | Full.

Definition is_queued (p : Push) : bool := match p with Full => false | _ => true end.

Record ReadyQueue := {
  order : list LeafKey;
  member : list (option LeafKey);
  rq_capacity : nat }.

Definition rq_with_capacity (capacity : nat) : ReadyQueue :=
  {| order := []; member := replicate capacity None; rq_capacity := capacity |}.

Definition contains (q : ReadyQueue) (k : LeafKey) : bool :=
  bool_decide (member q !! slot k = Some (Some k)).

(** [Vec::resize(n, None)] *)
Definition resize_members (n : nat) (m : list (option LeafKey)) : list (option LeafKey) :=
  resize n None m.

(** [slot.saturating_add(1)] is exact: a slot is a [u32]. *)
Definition push (k : LeafKey) (q : ReadyQueue) : Push * ReadyQueue :=
  if contains q k then (AlreadyQueued, q)
  else if (rq_capacity q <=? length (order q))%nat then (Full, q)
  else
    let m := if (length (member q) <=? slot k)%nat
             then resize_members (S (slot k)) (member q) else member q in
    (Queued, {| order := order q ++ [k]; member := <[slot k := Some k]> m;
                rq_capacity := rq_capacity q |}).

(** The loop of [pop], on the entries of [order] that are left. *)
Fixpoint pop_loop (m : list (option LeafKey)) (entries : list LeafKey)
    : option LeafKey * list LeafKey * list (option LeafKey) :=
  match entries with
  | [] => (None, [], m)
  | k :: rest =>
      if bool_decide (m !! slot k = Some (Some k))
      then (Some k, rest, <[slot k := None]> m)
      else pop_loop m rest
  end.

Definition pop (q : ReadyQueue) : option LeafKey * ReadyQueue :=
  let '(k, rest, m) := pop_loop (member q) (order q) in
  (k, {| order := rest; member := m; rq_capacity := rq_capacity q |}).

Definition front (q : ReadyQueue) : option LeafKey :=
  snd <$> list_find (fun k => contains q k = true) (order q).

Definition rq_remove (k : LeafKey) (q : ReadyQueue) : ReadyQueue :=
  if contains q k
  then {| order := filter (fun queued => queued <> k) (order q);
          member := <[slot k := None]> (member q);
          rq_capacity := rq_capacity q |}
  else q.

Definition rq_len (q : ReadyQueue) : nat := length (order q).
Definition rq_is_empty (q : ReadyQueue) : bool := bool_decide (order q = []).

Definition rq_clear (q : ReadyQueue) : ReadyQueue :=
  {| order := []; member := map (fun _ => None) (member q); rq_capacity := rq_capacity q |}.

(** ** The queue it stands for *)

Definition queued (q : ReadyQueue) : list LeafKey :=
  filter (fun k => contains q k = true) (order q).

(** A member is under its own slot and in [order]; [order] keeps it once and is bounded. *)
Record queue_ok (q : ReadyQueue) : Prop := {
  qo_member : forall i k, member q !! i = Some (Some k) -> i = slot k /\ k ∈ order q;
  qo_once : NoDup (queued q);
  qo_bound : (length (order q) <= rq_capacity q)%nat }.

(** A push of a key that was superseded in its slot is a caller's mistake. *)
Definition not_superseded (q : ReadyQueue) (k : LeafKey) : Prop :=
  k ∈ order q -> contains q k = true.

Lemma contains_true q k : contains q k = true <-> member q !! slot k = Some (Some k).
Proof. apply bool_decide_eq_true. Qed.

Lemma contains_queued q k : queue_ok q -> contains q k = true <-> k ∈ queued q.
Proof.
  intros Q. unfold queued. rewrite list_elem_of_filter. split; [|tauto].
  intros H. split; [done|]. by eapply qo_member, contains_true.
Qed.

Lemma one_key_per_slot q k k' :
  contains q k = true -> contains q k' = true -> slot k = slot k' -> k = k'.
Proof. rewrite !contains_true. congruence. Qed.

Lemma filter_iff_ext {A} (P Q : A -> Prop) `{!forall x, Decision (P x), !forall x, Decision (Q x)} (l : list A) :
  (forall x, x ∈ l -> P x <-> Q x) -> filter P l = filter Q l.
Proof.
  induction l as [|x l IH]; intros Hl; [done|]. rewrite !filter_cons.
  rewrite IH by (intros y Hy; apply Hl; by right).
  assert (P x <-> Q x) by (apply Hl; left). do 2 destruct (decide _); tauto.
Qed.

Lemma rq_with_capacity_ok c : queue_ok (rq_with_capacity c) /\ queued (rq_with_capacity c) = [].
Proof.
  split; [|done]. split; cbn; [|constructor|lia].
  intros i k [? _]%lookup_replicate. done.
Qed.

(** The members after a push, at any slot. *)
Lemma push_member m (k : LeafKey) i :
  <[slot k := Some k]> (if (length m <=? slot k)%nat then resize_members (S (slot k)) m else m) !! i =
  if decide (i = slot k) then Some (Some k)
  else if decide (i < length m)%nat then m !! i
  else if decide (i < slot k)%nat then Some None else None.
Proof.
  unfold resize_members. destruct (decide (i = slot k)) as [->|Hne].
  - apply list_lookup_insert_eq. case_if; rewrite ?length_resize; lia.
  - rewrite list_lookup_insert_ne by done. case_if.
    + destruct (decide (i < length m)%nat).
      * by rewrite lookup_resize by lia.
      * destruct (decide _); [by rewrite lookup_resize_new by lia|].
        apply lookup_ge_None. rewrite length_resize. lia.
    + destruct (decide _); [done|]. rewrite decide_False by lia. apply lookup_ge_None. lia.
Qed.

Lemma push_contains q k k' q' :
  push k q = (Queued, q') ->
  contains q' k' = true <-> k' = k \/ contains q k' = true /\ slot k' <> slot k.
Proof.
  unfold push. case_if; [done|]. case_if; [done|]. intros [= <-].
  rewrite !contains_true. cbn [member]. rewrite push_member.
  destruct (decide (slot k' = slot k)) as [Hs|Hs].
  - naive_solver.
  - destruct (decide _) as [|Hge].
    + naive_solver.
    + apply not_lt, lookup_ge_None in Hge. rewrite Hge.
      split; [by destruct (decide _)|]. intros [->|[? _]]; done.
Qed.

Lemma push_spec q k p q' :
  queue_ok q -> not_superseded q k -> push k q = (p, q') ->
  queue_ok q' /\
  match p with
  | AlreadyQueued => k ∈ queued q /\ q' = q
  | Full => k ∉ queued q /\ length (order q) = rq_capacity q /\ q' = q
  | Queued => k ∉ queued q /\ (length (order q) < rq_capacity q)%nat /\
      queued q' = filter (fun k' => slot k' <> slot k) (queued q) ++ [k]
  end.
Proof.
  intros Q Hns Hp. pose proof Q as [Q1 Q2 Q3]. pose proof Hp as Hp'. unfold push in Hp'.
  pose proof (contains_queued q k Q) as Hkq.
  destruct (contains q k) eqn:Ek; simplify_eq/=; [by split; [|split; [apply Hkq|]]|].
  assert (Hkn : k ∉ queued q) by (intros ?%Hkq; done).
  destruct (_ <=? _)%nat eqn:Ec; simplify_eq/=; bool_to_prop.
  { split; [done|]. split; [done|]. split; [lia|done]. }
  pose proof (fun k' => push_contains q k k' _ Hp) as Hc.
  match goal with |- queue_ok ?x /\ _ => set (q' := x) in * end.
  assert (Hq : queued q' = filter (fun k' => slot k' <> slot k) (queued q) ++ [k]).
  { assert (Hk : k ∉ order q) by (intros Hin; specialize (Hns Hin); congruence).
    unfold queued at 1. cbn [order q']. rewrite filter_app. f_equal.
    - unfold queued. rewrite list_filter_filter. apply filter_iff_ext.
      intros k' Hk'. rewrite Hc. split; [|tauto]. intros [->|?]; [done|tauto].
    - rewrite filter_cons, decide_True; [done|]. apply Hc. by left. }
  split; [|split_and!; [done|lia|done]].
  split.
  - intros i k' Hi. cbn [member q'] in Hi. rewrite push_member in Hi. cbn [order q'].
    destruct (decide (i = slot k)) as [->|].
    + injection Hi as ->. split; [done|]. set_solver.
    + destruct (decide _); [|by destruct (decide _)].
      apply Q1 in Hi as [-> Hin]. set_solver.
  - rewrite Hq. apply NoDup_app. split_and!; [by apply NoDup_filter| |apply NoDup_singleton].
    intros k' [? _]%list_elem_of_filter ->%list_elem_of_singleton. done.
  - cbn. rewrite length_app. cbn. lia.
Qed.

(** [pop] skips stale entries and takes the first member. *)
Lemma pop_loop_spec m l r rest m' :
  pop_loop m l = (r, rest, m') ->
  exists skipped, Forall (fun k => m !! slot k <> Some (Some k)) skipped /\
    match r with
    | None => l = skipped /\ rest = [] /\ m' = m
    | Some k => l = skipped ++ k :: rest /\ m !! slot k = Some (Some k) /\
                m' = <[slot k := None]> m
    end.
Proof.
  induction l as [|k l IH]; cbn [pop_loop]; [intros [= <- <- <-]; by exists []|].
  case_bool_decide as Hk; [intros [= <- <- <-]; by exists []|].
  intros (sk & Hsk & H)%IH. exists (k :: sk). split; [by constructor|].
  destruct r; [destruct H as (-> & ? & ->)|destruct H as (-> & ? & ->)]; done.
Qed.

Lemma filter_none {A} (P : A -> Prop) `{!forall x, Decision (P x)} (l : list A) :
  Forall (fun x => ~ P x) l -> filter P l = [].
Proof.
  induction 1 as [|x l Hx _ IH]; [done|]. by rewrite filter_cons, decide_False.
Qed.

Lemma filter_all {A} (P : A -> Prop) `{!forall x, Decision (P x)} (l : list A) :
  Forall P l -> filter P l = l.
Proof.
  induction 1 as [|x l Hx _ IH]; [done|]. by rewrite filter_cons, decide_True, IH.
Qed.

Lemma pop_spec q r q' :
  queue_ok q -> pop q = (r, q') ->
  queue_ok q' /\ r = head (queued q) /\ queued q' = tail (queued q) /\
  (length (order q') + (if r then 1 else 0) <= length (order q))%nat.
Proof.
  intros Q. pose proof Q as [Q1 Q2 Q3]. unfold pop.
  destruct (pop_loop _ _) as [[r' rest] m] eqn:E. intros [= -> <-].
  apply pop_loop_spec in E as (sk & Hsk & E).
  assert (Hst : filter (fun k => contains q k = true) sk = []).
  { apply filter_none. eapply Forall_impl; [exact Hsk|]. intros k Hk. by rewrite contains_true. }
  destruct r as [k|].
  2:{ destruct E as (Ho & -> & ->).
      assert (queued q = []) as -> by (unfold queued; by rewrite Ho).
      split_and!; try done; [|cbn; lia]. split; cbn; [|constructor|lia].
      intros i k Hi. destruct (Q1 i k Hi) as [-> Hin]. rewrite Ho in Hin.
      rewrite Forall_forall in Hsk. by destruct (Hsk k Hin). }
  destruct E as (Ho & Hk & ->).
  assert (Hkc : contains q k = true) by (by apply contains_true).
  assert (Hqd : queued q = k :: filter (fun k => contains q k = true) rest).
  { unfold queued. rewrite Ho, filter_app, Hst. cbn [app]. by rewrite filter_cons, decide_True. }
  rewrite Hqd in Q2. apply NoDup_cons in Q2 as [Hnk Hnd].
  set (q' := {| order := rest |}).
  assert (Hc : forall k', k' ∈ rest -> contains q' k' = true <-> contains q k' = true).
  { intros k' Hk'. rewrite !contains_true. cbn [member q'].
    destruct (decide (slot k = slot k')) as [Hs|Hs]; [|by rewrite list_lookup_insert_ne].
    rewrite <- Hs, list_lookup_insert_eq by (by eapply lookup_lt_Some).
    split; [done|]. rewrite Hk. intros [= <-]. destruct Hnk.
    apply list_elem_of_filter. split; [by apply contains_true|done]. }
  assert (Hqd' : queued q' = filter (fun k => contains q k = true) rest) by (by apply filter_iff_ext).
  rewrite Hqd, Hqd'. cbn [head tail order q']. split_and!; auto.
  - split.
    + intros i k' Hi. cbn [member q'] in Hi. destruct (decide (slot k = i)) as [<-|Hs].
      { by rewrite list_lookup_insert_eq in Hi by (by eapply lookup_lt_Some). }
      rewrite list_lookup_insert_ne in Hi by done. destruct (Q1 i k' Hi) as [-> Hin].
      split; [done|]. rewrite Ho, elem_of_app, elem_of_cons in Hin. cbn.
      destruct Hin as [Hin|[->|?]]; [|done..].
      rewrite Forall_forall in Hsk. by destruct (Hsk _ Hin).
    + by rewrite Hqd'.
    + cbn. rewrite Ho, length_app in Q3. cbn in Q3. lia.
  - rewrite Ho, length_app. cbn. lia.
Qed.

Lemma pop_suffix q r q' :
  pop q = (r, q') -> order q' `suffix_of` order q /\ rq_capacity q' = rq_capacity q.
Proof.
  unfold pop. destruct (pop_loop _ _) as [[r' rest] m] eqn:E. intros [= -> <-].
  apply pop_loop_spec in E as (sk & _ & E). split; [|done]. cbn.
  destruct r as [k|]; [destruct E as [-> _]|destruct E as (-> & -> & _)].
  - exists (sk ++ [k]). by rewrite <- app_assoc.
  - exists sk. by rewrite app_nil_r.
Qed.

Lemma front_spec q : front q = head (queued q).
Proof.
  unfold front, queued. induction (order q) as [|k l IH]; [done|].
  cbn [list_find]. rewrite filter_cons. destruct (decide _); [done|].
  rewrite <- IH. by destruct (list_find _ l) as [[]|].
Qed.

Lemma remove_spec q k :
  queue_ok q ->
  queue_ok (rq_remove k q) /\ queued (rq_remove k q) = filter (fun k' => k' <> k) (queued q).
Proof.
  intros Q. pose proof Q as [Q1 Q2 Q3]. unfold rq_remove. destruct (contains q k) eqn:E.
  2:{ split; [done|]. unfold queued. rewrite list_filter_filter. apply filter_iff_ext.
      intros k' _. split; [|tauto]. intros Hk'. split; [|done]. congruence. }
  pose proof E as Hk%contains_true.
  set (q' := {| order := filter _ _ |}).
  assert (Hc : forall k', contains q' k' = true <-> contains q k' = true /\ k' <> k).
  { intros k'. rewrite !contains_true. cbn [member q'].
    destruct (decide (slot k = slot k')) as [Hs|Hs].
    - rewrite <- Hs, list_lookup_insert_eq by (by eapply lookup_lt_Some). naive_solver.
    - rewrite list_lookup_insert_ne by done. naive_solver. }
  assert (Hq : queued q' = filter (fun k' => k' <> k) (queued q)).
  { unfold queued. cbn [order q']. rewrite !list_filter_filter. apply filter_iff_ext.
    intros k' _. rewrite Hc. tauto. }
  split; [split|done].
  - intros i k' Hi. cbn [member q'] in Hi. destruct (decide (slot k = i)) as [<-|Hs].
    { by rewrite list_lookup_insert_eq in Hi by (by eapply lookup_lt_Some). }
    rewrite list_lookup_insert_ne in Hi by done. destruct (Q1 i k' Hi) as [-> Hin].
    split; [done|]. cbn. apply list_elem_of_filter. naive_solver.
  - rewrite Hq. by apply NoDup_filter.
  - cbn. etrans; [apply length_filter|done].
Qed.

Lemma clear_spec q : queue_ok (rq_clear q) /\ queued (rq_clear q) = [].
Proof.
  split; [|done]. split; cbn; [|constructor|lia].
  intros i k Hi. change (map _ (member q)) with ((fun _ => None (A := LeafKey)) <$> member q) in Hi.
  rewrite list_lookup_fmap in Hi. by destruct (member q !! i).
Qed.
