(* ===== verification/TimerWheel.v ===== *)
(** * The timers of an egress shard ([egress/timer.rs])

    One deadline per key, in a heap that may also hold superseded entries.  [active] says
    which entry of a key counts.  The standard library's [BinaryHeap] is the multiset of its
    entries, as a list: [peek] and [pop] give the greatest entry, and the entries' order is
    total, so which one that is does not depend on the layout of the heap. *)

From S2P Require Import Prelude LeafArena.
From Stdlib Require Import Sorted.

(** ** Keys: the trait [Ord] with its laws *)

Class KeyOrd (K : Type) := {
  kcmp : K -> K -> comparison;
  kcmp_eq : forall x y, kcmp x y = Eq <-> x = y;
  kcmp_opp : forall x y, kcmp y x = CompOpp (kcmp x y);
  kcmp_trans : forall x y z, kcmp x y = Lt -> kcmp y z = Lt -> kcmp x z = Lt }.

#[export] Program Instance Z_key_ord : KeyOrd Z := {| kcmp := Z.compare |}.
Next Obligation. apply Z.compare_eq_iff. Qed.
Next Obligation. apply Z.compare_antisym. Qed.
Next Obligation. intros. rewrite Z.compare_lt_iff in *. lia. Qed.

Section timers.
Context {K : Type} `{EqDecision K, !Countable K, !KeyOrd K}.

Record TimerEntry := { fire_at : Z; t_key : K; generation : Z }.

#[export] Instance TimerEntry_eq_dec : EqDecision TimerEntry.
Proof. solve_decision. Defined.

(** [Reverse(self.fire_at).cmp(&Reverse(other.fire_at)).then_with(..).then_with(..)] *)
Definition entry_cmp (a b : TimerEntry) : comparison :=
  match Z.compare (fire_at b) (fire_at a) with
  | Eq => match kcmp (t_key a) (t_key b) with
          | Eq => Z.compare (generation a) (generation b)
          | c => c
          end
  | c => c
  end.

(** ** [BinaryHeap] *)

Definition heap_max (m e : TimerEntry) : TimerEntry :=
  match entry_cmp e m with Gt => e | _ => m end.

Definition heap_peek (h : list TimerEntry) : option TimerEntry :=
  match h with
  | [] => None
  | e :: rest => Some (fold_left heap_max rest e)
  end.

Fixpoint remove_one (e : TimerEntry) (h : list TimerEntry) : list TimerEntry :=
  match h with
  | [] => []
  | x :: rest => if decide (x = e) then rest else x :: remove_one e rest
  end.

Definition heap_pop (h : list TimerEntry) : option (TimerEntry * list TimerEntry) :=
  match heap_peek h with
  | None => None
  | Some m => Some (m, remove_one m h)
  end.

(** ** [TimerWheel] *)

Record TimerWheel := {
  heap : list TimerEntry;
  active : gmap K TimerEntry;
  tw_capacity : Z }.

Definition tw_new : TimerWheel :=
  {| heap := []; active := ∅; tw_capacity := 2 ^ 64 - 1 |}.
Definition tw_with_capacity (capacity : Z) : TimerWheel :=
  {| heap := []; active := ∅; tw_capacity := capacity |}.

Definition tw_len (w : TimerWheel) : Z := Z.of_nat (size (active w)).
Definition tw_is_empty (w : TimerWheel) : bool := tw_len w =? 0.

(** [self.active.len().saturating_mul(2).saturating_add(64)] *)
Definition heap_bound (w : TimerWheel) : Z := sat_u 64 (sat_u 64 (tw_len w * 2) + 64).

Definition rebuild_if_needed (w : TimerWheel) : TimerWheel :=
  if zlen (heap w) <=? heap_bound w then w
  else {| heap := map snd (map_to_list (active w)); active := active w;
          tw_capacity := tw_capacity w |}.

Definition tw_insert (at_ : Z) (k : K) (gen : Z) (w : TimerWheel) : bool * TimerWheel :=
  if bool_decide (active w !! k = None) && (tw_capacity w <=? tw_len w) then (false, w)
  else
    let entry := {| fire_at := at_; t_key := k; generation := gen |} in
    (true, rebuild_if_needed
       {| heap := entry :: heap w; active := <[k := entry]> (active w);
          tw_capacity := tw_capacity w |}).

(** [self.active.get(&entry.key).is_some_and(..)] *)
Definition is_current (act : gmap K TimerEntry) (e : TimerEntry) : bool :=
  match act !! t_key e with
  | Some a => (fire_at a =? fire_at e) && (generation a =? generation e)
  | None => false
  end.

(** The loop of [discard_stale_heads]; every turn takes one entry off the heap. *)
Fixpoint discard_loop (fuel : nat) (act : gmap K TimerEntry) (h : list TimerEntry)
    : list TimerEntry :=
  match fuel with
  | O => h
  | S n =>
      match heap_peek h with
      | None => h
      | Some e => if is_current act e then h else discard_loop n act (remove_one e h)
      end
  end.

Definition discard_stale_heads (w : TimerWheel) : TimerWheel :=
  {| heap := discard_loop (S (length (heap w))) (active w) (heap w); active := active w;
     tw_capacity := tw_capacity w |}.

Definition next_deadline (w : TimerWheel) : option Z * TimerWheel :=
  let w' := discard_stale_heads w in (fire_at <$> heap_peek (heap w'), w').

(** The loop of [drain_expired_limited_into]; [quota] is what [max_fired] leaves. *)
Fixpoint drain_loop (fuel : nat) (now : Z) (valid_gen : K -> option Z) (quota : nat)
    (h : list TimerEntry) (act : gmap K TimerEntry)
    : list (K * Z) * list TimerEntry * gmap K TimerEntry :=
  match fuel with
  | O => ([], h, act)
  | S n =>
      match quota with
      | O => ([], h, act)
      | S quota' =>
          match heap_pop h with
          | None => ([], h, act)
          | Some (e, h') =>
              if now <? fire_at e then ([], h, act)
              else if negb (is_current act e) then drain_loop n now valid_gen quota h' act
              else
                let act' := delete (t_key e) act in
                if bool_decide (valid_gen (t_key e) = Some (generation e))
                then
                  let '(fired, h'', act'') := drain_loop n now valid_gen quota' h' act' in
                  ((t_key e, generation e) :: fired, h'', act'')
                else drain_loop n now valid_gen quota h' act'
          end
      end
  end.

Definition drain_expired_limited_into (now : Z) (max_fired : nat) (valid_gen : K -> option Z)
    (w : TimerWheel) : list (K * Z) * TimerWheel :=
  let '(fired, h, act) :=
    drain_loop (S (length (heap w))) now valid_gen max_fired (heap w) (active w) in
  (fired, rebuild_if_needed {| heap := h; active := act; tw_capacity := tw_capacity w |}).

(** [usize::MAX] of entries never fit in a heap: its length is quota enough. *)
Definition drain_expired (now : Z) (valid_gen : K -> option Z) (w : TimerWheel)
    : list (K * Z) * TimerWheel :=
  drain_expired_limited_into now (S (length (heap w))) valid_gen w.

Definition tw_clear (w : TimerWheel) : TimerWheel :=
  {| heap := []; active := ∅; tw_capacity := tw_capacity w |}.

(** ** The heap *)

Lemma entry_cmp_fire a b : entry_cmp a b <> Gt -> fire_at b <= fire_at a.
Proof. unfold entry_cmp. destruct (Z.compare_spec (fire_at b) (fire_at a)); try lia; done. Qed.

Lemma entry_cmp_gt_fire a b : entry_cmp a b = Gt -> fire_at a <= fire_at b.
Proof. unfold entry_cmp. destruct (Z.compare_spec (fire_at b) (fire_at a)); try lia; done. Qed.

Lemma heap_peek_spec h e :
  heap_peek h = Some e -> e ∈ h /\ forall x, x ∈ h -> fire_at e <= fire_at x.
Proof.
  destruct h as [|x h]; [done|]. cbn. intros [= <-]. revert x.
  induction h as [|y h IH]; intros x; cbn.
  - split; [set_solver|]. intros z ->%list_elem_of_singleton. lia.
  - destruct (IH (heap_max x y)) as [H1 H2]. split.
    + apply elem_of_cons in H1 as [H1|H1]; [|set_solver]. rewrite H1. unfold heap_max.
      destruct (entry_cmp y x); set_solver.
    + assert (Hm : fire_at (heap_max x y) <= fire_at x /\ fire_at (heap_max x y) <= fire_at y).
      { unfold heap_max. destruct (entry_cmp y x) eqn:E.
        - split; [lia|]. apply entry_cmp_fire. congruence.
        - split; [lia|]. apply entry_cmp_fire. congruence.
        - split; [|lia]. by apply entry_cmp_gt_fire. }
      specialize (H2 (heap_max x y) ltac:(left)) as H3.
      intros z [->|[->|Hz]%elem_of_cons]%elem_of_cons; [lia..|]. apply H2. by right.
Qed.

Lemma heap_peek_None h : heap_peek h = None <-> h = [].
Proof. by destruct h. Qed.

Lemma remove_one_perm e h : e ∈ h -> h ≡ₚ e :: remove_one e h.
Proof.
  induction h as [|x h IH]; [by intros ?%not_elem_of_nil|]. cbn.
  destruct (decide (x = e)) as [->|Hne]; [done|].
  intros [->|Hin]%elem_of_cons; [done|]. rewrite (IH Hin) at 1. apply perm_swap.
Qed.

Lemma remove_one_in x e h : x ∈ remove_one e h -> x ∈ h.
Proof.
  induction h as [|y h IH]; [done|]. cbn. destruct (decide _); set_solver.
Qed.

Lemma remove_one_other x e h : x ∈ h -> x <> e -> x ∈ remove_one e h.
Proof.
  intros Hx Hne. induction h as [|y h IH]; [done|]. cbn.
  destruct (decide _) as [->|]; set_solver.
Qed.

Lemma remove_one_length e h : e ∈ h -> length h = S (length (remove_one e h)).
Proof. intros Hin. by rewrite (remove_one_perm e h Hin) at 1. Qed.

(** ** The invariant *)

(** The entry of a key that counts is in the heap. *)
Definition heap_ok (h : list TimerEntry) (act : gmap K TimerEntry) : Prop :=
  forall k e, act !! k = Some e -> t_key e = k /\ e ∈ h.

Record wheel_ok (w : TimerWheel) : Prop := {
  wo_heap : heap_ok (heap w) (active w);
  wo_bound : zlen (heap w) <= heap_bound w;
  wo_capacity : tw_len w <= tw_capacity w < 2 ^ 64 }.

Lemma is_current_Some h act e :
  heap_ok h act -> is_current act e = true <-> act !! t_key e = Some e.
Proof.
  intros Hok. unfold is_current. split.
  - destruct (act !! t_key e) as [a|] eqn:E; [|done]. intros ?. bool_to_prop.
    destruct (Hok _ _ E) as [Hk _]. f_equal. destruct a, e; cbn in *; congruence.
  - intros ->. by rewrite !Z.eqb_refl.
Qed.

Lemma heap_ok_pop_stale h act e :
  heap_ok h act -> is_current act e = false -> heap_ok (remove_one e h) act.
Proof.
  intros Hok Hc k x Hx. destruct (Hok k x Hx) as [Hk Hin]. split; [done|].
  apply remove_one_other; [done|]. intros ->. rewrite <- Hk in Hx.
  apply (is_current_Some _ _ _ Hok) in Hx. congruence.
Qed.

Lemma heap_ok_pop_current h act e :
  heap_ok h act -> act !! t_key e = Some e -> heap_ok (remove_one e h) (delete (t_key e) act).
Proof.
  intros Hok He k x [Hne Hx]%lookup_delete_Some. destruct (Hok k x Hx) as [Hk Hin].
  split; [done|]. apply remove_one_other; [done|]. intros ->. congruence.
Qed.

Lemma heap_bound_ge w : tw_len w < 2 ^ 64 -> tw_len w <= heap_bound w.
Proof. unfold heap_bound, tw_len, sat_u. lia. Qed.

Lemma rebuild_ok w :
  heap_ok (heap w) (active w) -> tw_len w <= tw_capacity w < 2 ^ 64 ->
  wheel_ok (rebuild_if_needed w) /\ active (rebuild_if_needed w) = active w.
Proof.
  intros Hok Hc. unfold rebuild_if_needed. case_if; (split; [|done]); [by split|].
  split; [| |done].
  - intros k e Hk. split; [by eapply Hok|]. cbn.
    apply list_elem_of_fmap. exists (k, e). split; [done|]. by apply elem_of_map_to_list.
  - unfold zlen. cbn [heap]. rewrite length_map, length_map_to_list. apply (heap_bound_ge w). lia.
Qed.

Lemma tw_insert_ok at_ k gen w b w' :
  wheel_ok w -> tw_insert at_ k gen w = (b, w') ->
  wheel_ok w' /\
  (b = false <-> active w !! k = None /\ tw_len w = tw_capacity w) /\
  active w' = if b then <[k := {| fire_at := at_; t_key := k; generation := gen |}]> (active w)
              else active w.
Proof.
  intros [W1 W2 W3]. unfold tw_insert. case_if.
  { apply bool_decide_eq_true in H. intros [= <- <-]. split_and!; [done| |done].
    split; [split; [done|lia]|done]. }
  intros [= <- <-]. set (e := {| fire_at := at_ |}).
  destruct (rebuild_ok {| heap := e :: heap w; active := <[k:=e]> (active w);
    tw_capacity := tw_capacity w |}) as [H1 H2].
  - intros k' x. cbn. rewrite lookup_insert_Some. intros [[<- <-]|[_ Hx]]; [set_solver|].
    destruct (W1 _ _ Hx). set_solver.
  - unfold tw_len in *. cbn. destruct (active w !! k) eqn:Ek.
    + rewrite map_size_insert_Some by (by eexists). lia.
    + rewrite map_size_insert_None by done. destruct E as [E|E]; bool_to_prop; [|lia].
      by rewrite bool_decide_eq_false in E.
  - split_and!; [done| |by rewrite H2].
    split; [done|]. intros [Hk Hl]. destruct E as [E|E]; bool_to_prop; [|lia].
    by rewrite bool_decide_eq_false in E.
Qed.

(** ** The next deadline *)

Lemma discard_loop_spec fuel act h :
  heap_ok h act -> (length h < fuel)%nat ->
  let h' := discard_loop fuel act h in
  heap_ok h' act /\ (length h' <= length h)%nat /\
  match heap_peek h' with None => h' = [] | Some e => act !! t_key e = Some e end.
Proof.
  revert h. induction fuel as [|fuel IH]; intros h Hok Hlen; [lia|]. cbn [discard_loop].
  destruct (heap_peek h) as [e|] eqn:Ep.
  2:{ apply heap_peek_None in Ep as ->. done. }
  destruct (is_current act e) eqn:Ec.
  { rewrite Ep. split_and!; [done|lia|]. by eapply is_current_Some. }
  destruct (heap_peek_spec h e Ep) as [Hin _]. pose proof (remove_one_length e h Hin).
  destruct (IH (remove_one e h)) as (H1 & H2 & H3);
    [by apply heap_ok_pop_stale|lia|]. split_and!; [done|lia|done].
Qed.

Lemma next_deadline_ok w d w' :
  wheel_ok w -> next_deadline w = (d, w') ->
  wheel_ok w' /\ active w' = active w /\
  match d with
  | None => active w = ∅
  | Some t => (exists k e, active w !! k = Some e /\ fire_at e = t) /\
              forall k e, active w !! k = Some e -> t <= fire_at e
  end.
Proof.
  intros [W1 W2 W3]. unfold next_deadline. intros [= <- <-].
  destruct (discard_loop_spec (S (length (heap w))) (active w) (heap w) W1) as (H1 & H2 & H3);
    [lia|]. cbn [heap discard_stale_heads].
  split; [|split; [done|]].
  { split; [done| |done]. unfold zlen in *. cbn [heap discard_stale_heads].
    change (heap_bound (discard_stale_heads w)) with (heap_bound w). lia. }
  destruct (heap_peek _) as [e|] eqn:Ep; cbn.
  - split; [eauto|]. intros k x Hx. apply heap_peek_spec in Ep as [_ Hmin].
    apply Hmin. by eapply H1.
  - apply map_empty. intros k. apply eq_None_not_Some. intros [x Hx].
    destruct (H1 _ _ Hx) as [_ Hin]. by rewrite H3 in Hin; apply not_elem_of_nil in Hin.
Qed.

(** ** Draining *)

(** What a drain of at most [quota] timers leaves and reports. *)
Record drained (now : Z) (valid_gen : K -> option Z) (quota : nat)
    (act act' : gmap K TimerEntry) (fired : list (K * Z)) : Prop := {
  dr_quota : (length fired <= quota)%nat;
  dr_sub : act' ⊆ act;
  dr_taken : forall k e, act !! k = Some e -> act' !! k = None ->
    fire_at e <= now /\ forall k' e', act' !! k' = Some e' -> fire_at e <= fire_at e';
  dr_fired : forall k g, (k, g) ∈ fired <-> exists e,
    act !! k = Some e /\ act' !! k = None /\ generation e = g /\ valid_gen k = Some g;
  dr_once : NoDup (map fst fired);
  dr_order : StronglySorted (fun p q => forall e e',
    act !! p.1 = Some e -> act !! q.1 = Some e' -> fire_at e <= fire_at e') fired;
  dr_all : (length fired < quota)%nat -> forall k e, act' !! k = Some e -> now < fire_at e }.

Lemma drained_nothing now vg quota act :
  (forall k e, act !! k = Some e -> quota <> 0%nat -> now < fire_at e) ->
  drained now vg quota act act [].
Proof.
  intros Hall. split; cbn; [lia|done| | |constructor..|].
  - intros k e H1 H2. congruence.
  - intros k g. split; [by intros ?%not_elem_of_nil|]. intros (e & ? & ? & _). congruence.
  - intros Hq k e He. eapply Hall; [done|lia].
Qed.

(** One current entry goes first: its deadline is the earliest. *)
Lemma drained_take now vg quota act act' fired e :
  act !! t_key e = Some e -> fire_at e <= now ->
  (forall k x, act !! k = Some x -> fire_at e <= fire_at x) ->
  vg (t_key e) <> Some (generation e) ->
  drained now vg quota (delete (t_key e) act) act' fired ->
  drained now vg quota act act' fired.
Proof.
  intros He Hnow Hmin Hvg [D1 D2 D3 D4 D5 D6 D7].
  assert (Hdel : act' !! t_key e = None).
  { destruct (act' !! t_key e) as [x|] eqn:E; [|done].
    eapply lookup_weaken in E; [|done]. by rewrite lookup_delete_eq in E. }
  assert (Hsub : act' ⊆ act) by (etrans; [done|apply delete_subseteq]).
  split; auto.
  - intros k x Hx Hk. destruct (decide (k = t_key e)) as [->|Hne].
    + simplify_eq. split; [done|]. intros k' e' Hk'. by eapply Hmin, lookup_weaken.
    + by apply (D3 k); [rewrite lookup_delete_ne|].
  - intros k g. rewrite D4. split; intros (x & Hx & Hk & Hg & Hv); exists x.
    + apply lookup_delete_Some in Hx as [_ Hx]. auto.
    + split_and!; auto. rewrite lookup_delete_ne; [done|]. intros <-. congruence.
  - assert (Hin : Forall (fun p => p.1 <> t_key e) fired).
    { apply Forall_forall. intros [k g] (x & Hx & _)%D4 Heq. cbn in *. subst.
      by rewrite lookup_delete_eq in Hx. }
    clear -D6 Hin. induction D6 as [|p l _ IH Hp]; constructor.
    + apply IH. by inversion Hin.
    + inversion_clear Hin as [|? ? Hp1 Hl]. rewrite Forall_forall in *. intros q Hq x y Hx Hy.
      apply (Hp q Hq); by rewrite lookup_delete_ne by (intros Heq; (by apply Hp1) || by apply (Hl q Hq)).
Qed.

Lemma drained_fire now vg quota act act' fired e :
  act !! t_key e = Some e -> fire_at e <= now ->
  (forall k x, act !! k = Some x -> fire_at e <= fire_at x) ->
  vg (t_key e) = Some (generation e) ->
  drained now vg quota (delete (t_key e) act) act' fired ->
  drained now vg (S quota) act act' ((t_key e, generation e) :: fired).
Proof.
  intros He Hnow Hmin Hvg D.
  (* the entry's key is not among the rest *)
  assert (Hother : forall k g, (k, g) ∈ fired -> k <> t_key e).
  { intros k g (x & Hx & _)%(dr_fired _ _ _ _ _ _ D) ->. by rewrite lookup_delete_eq in Hx. }
  pose proof (drained_take now (fun k => if decide (k = t_key e) then None else vg k)
    quota act act' fired e He Hnow Hmin) as [D1 D2 D3 D4 D5 D6 D7].
  { by rewrite decide_True. }
  { destruct D as [D1 D2 D3 D4 D5 D6 D7]. split; auto. intros k g. rewrite D4.
    split; intros (x & Hx & ?); exists x; destruct (decide (k = t_key e)) as [->|]; auto;
      try by rewrite lookup_delete_eq in Hx. }
  split; auto; cbn [length map fst].
  - lia.
  - intros k g. rewrite elem_of_cons, D4. split.
    + intros [[= -> ->]|(x & Hx & Hk & Hg & Hv)].
      * exists e. split_and!; auto. destruct (act' !! t_key e) as [x|] eqn:E; [|done].
        eapply lookup_weaken in E; [|apply (dr_sub _ _ _ _ _ _ D)].
        by rewrite lookup_delete_eq in E.
      * exists x. by destruct (decide _).
    + intros (x & Hx & Hk & Hg & Hv). destruct (decide (k = t_key e)) as [->|Hne]; [left; congruence|].
      right. by exists x.
  - constructor; [|done]. intros (p & Hp & Hin)%list_elem_of_fmap. destruct p as [k g].
    by eapply Hother.
  - constructor; [done|]. apply Forall_forall. intros [k g] Hin x y Hx Hy. cbn in *.
    simplify_eq. eauto.
  - intros. eapply D7; [lia|done].
Qed.

Lemma drain_loop_spec fuel now vg quota h act fired h' act' :
  heap_ok h act -> (length h < fuel)%nat ->
  drain_loop fuel now vg quota h act = (fired, h', act') ->
  heap_ok h' act' /\ drained now vg quota act act' fired.
Proof.
  revert quota h act fired. induction fuel as [|fuel IH]; intros quota h act fired Hok Hlen;
    [lia|]. cbn [drain_loop].
  destruct quota as [|quota]; [intros [= <- <- <-]; split; [done|by apply drained_nothing]|].
  unfold heap_pop. destruct (heap_peek h) as [e|] eqn:Ep.
  2:{ intros [= <- <- <-]. split; [done|]. apply drained_nothing. intros k x Hx _.
      apply heap_peek_None in Ep as ->. by destruct (Hok _ _ Hx) as [_ ?%not_elem_of_nil]. }
  apply heap_peek_spec in Ep as [Hin Hmin]. pose proof (remove_one_length e h Hin).
  assert (Hmin' : forall k x, act !! k = Some x -> fire_at e <= fire_at x)
    by (intros k x Hx; apply Hmin; by eapply Hok).
  case_if.
  { intros [= <- <- <-]. split; [done|]. apply drained_nothing. intros k x Hx _.
    specialize (Hmin' k x Hx). lia. }
  destruct (is_current act e) eqn:Ec; cbn [negb].
  2:{ apply IH; [by apply heap_ok_pop_stale|lia]. }
  apply (is_current_Some _ _ _ Hok) in Ec. pose proof (heap_ok_pop_current _ _ _ Hok Ec).
  case_bool_decide as Hvg.
  - destruct (drain_loop fuel now vg quota _ _) as [[f h''] act''] eqn:E2.
    intros [= <- <- <-]. apply IH in E2 as [H1 H2]; [|done|lia].
    split; [done|]. by apply drained_fire.
  - intros E2. apply IH in E2 as [H1 H2]; [|done|lia]. split; [done|]. by eapply drained_take.
Qed.

(** *** No quota *)

Lemma active_le_heap h act : heap_ok h act -> (size act <= length h)%nat.
Proof.
  intros Hok. rewrite <- length_map_to_list, <- (length_map snd).
  apply submseteq_length, NoDup_submseteq.
  - apply (NoDup_fmap_1 t_key). change (NoDup (map t_key (map snd (map_to_list act)))).
    rewrite map_map. erewrite map_ext_in; [apply (NoDup_fst_map_to_list act)|].
    intros [k e] Hin%list_elem_of_In%elem_of_map_to_list. cbn. by apply Hok.
  - intros e ([k x] & -> & Hx%elem_of_map_to_list)%list_elem_of_fmap. by eapply Hok.
Qed.

Lemma fired_le_active now vg quota act act' fired :
  drained now vg quota act act' fired -> (length fired <= size act)%nat.
Proof.
  intros D. rewrite <- (length_map fst), <- length_map_to_list, <- (length_map fst (map_to_list act)).
  apply submseteq_length, NoDup_submseteq; [apply (dr_once _ _ _ _ _ _ D)|].
  intros k ([k' g] & -> & (e & He & _)%(dr_fired _ _ _ _ _ _ D))%list_elem_of_fmap.
  apply list_elem_of_fmap. exists (k', e). split; [done|]. by apply elem_of_map_to_list.
Qed.

(** ** Reachable wheels *)

Inductive wheel_reachable (cap : Z) : TimerWheel -> Prop :=
  | WInit : 0 <= cap < 2 ^ 64 -> wheel_reachable cap (tw_with_capacity cap)
  | WInsert w at_ k gen :
      wheel_reachable cap w -> wheel_reachable cap (tw_insert at_ k gen w).2
  | WNext w : wheel_reachable cap w -> wheel_reachable cap (next_deadline w).2
  | WDrain w now max vg :
      wheel_reachable cap w -> wheel_reachable cap (drain_expired_limited_into now max vg w).2
  | WClear w : wheel_reachable cap w -> wheel_reachable cap (tw_clear w).

Lemma drain_ok w now max vg fired w' :
  wheel_ok w -> drain_expired_limited_into now max vg w = (fired, w') ->
  wheel_ok w' /\ drained now vg max (active w) (active w') fired.
Proof.
  intros [W1 W2 W3]. unfold drain_expired_limited_into.
  destruct (drain_loop _ _ _ _ _ _) as [[f h] act] eqn:E. intros [= <- <-].
  apply drain_loop_spec in E as [H1 H2]; [|done|lia].
  destruct (rebuild_ok {| heap := h; active := act; tw_capacity := tw_capacity w |}) as [H3 H4];
    [done| |by rewrite H4].
  cbn. unfold tw_len in *. cbn.
  pose proof (map_subseteq_size _ _ (dr_sub _ _ _ _ _ _ H2)). lia.
Qed.

Lemma wheel_reachable_ok cap w : wheel_reachable cap w -> wheel_ok w /\ tw_capacity w = cap.
Proof.
  assert (Hcap : forall w, tw_capacity (rebuild_if_needed w) = tw_capacity w)
    by (intros w'; unfold rebuild_if_needed; by case_if).
  induction 1 as [Hc|w at_ k gen _ [IH <-]|w _ [IH <-]|w now max vg _ [IH <-]|w _ [IH <-]].
  - split; [|done]. split; cbn; try (by intros ? ?; rewrite lookup_empty); [|done].
    unfold heap_bound, tw_len, zlen, sat_u. cbn. lia.
  - destruct (tw_insert at_ k gen w) as [b w'] eqn:E. split; [by eapply tw_insert_ok in E as []|].
    unfold tw_insert in E. destruct (_ && _); injection E as <- <-; [done|cbn [snd]; by rewrite Hcap].
  - destruct (next_deadline w) as [d w'] eqn:E. split; [by eapply next_deadline_ok in E as []|].
    by injection E as <- <-.
  - destruct (drain_expired_limited_into now max vg w) as [f w'] eqn:E.
    split; [by eapply drain_ok in E as []|].
    unfold drain_expired_limited_into in E. destruct (drain_loop _ _ _ _ _ _) as [[]].
    injection E as <- <-. cbn [snd]; by rewrite Hcap.
  - split; [|done]. destruct IH as [_ _ W3]. split; cbn; [by intros ? ?; rewrite lookup_empty| |].
    + unfold heap_bound, tw_len, zlen, sat_u. cbn. lia.
    + unfold tw_len in *. cbn. rewrite map_size_empty. lia.
Qed.
End timers.

Arguments TimerEntry : clear implicits.
Arguments TimerWheel K {_ _}.

(** ** Properties *)

Section properties.
Context {K : Type} `{EqDecision K, !Countable K, !KeyOrd K}.

(** Draining the timers of a wheel in any state it can reach: at most [max_fired] are
    reported; exactly the entries that counted and were taken out and whose generation the
    backend still has are reported, each key once, in the order of their deadlines; what is
    taken was due and no later than anything left; and unless the limit was reached nothing
    due is left.  Replaced deadlines never fire. *)
Theorem timer_drain_exact cap (w w' : TimerWheel K) now max_fired valid_gen fired :
  wheel_reachable cap w ->
  drain_expired_limited_into now max_fired valid_gen w = (fired, w') ->
  wheel_ok w' /\ drained now valid_gen max_fired (active w) (active w') fired.
Proof. intros [Hok _]%wheel_reachable_ok. by apply drain_ok. Qed.

(** Without a limit all that is due goes. *)
Lemma drain_expired_fires_all cap (w w' : TimerWheel K) now valid_gen fired :
  wheel_reachable cap w -> drain_expired now valid_gen w = (fired, w') ->
  active w' = filter (fun p => now < fire_at p.2) (active w) /\
  forall k g, (k, g) ∈ fired <-> exists e, active w !! k = Some e /\ fire_at e <= now /\
    generation e = g /\ valid_gen k = Some g.
Proof.
  intros [Hok _]%wheel_reachable_ok E. apply drain_ok in E as [_ D]; [|done].
  pose proof (fired_le_active _ _ _ _ _ _ D). pose proof (active_le_heap _ _ (wo_heap _ Hok)).
  destruct D as [D1 D2 D3 D4 D5 D6 D7].
  assert (Hleft : forall k, active w' !! k = None <->
    forall e, active w !! k = Some e -> fire_at e <= now).
  { intros k. split; [intros Hk e He; by eapply D3|]. intros Hk.
    destruct (active w' !! k) as [x|] eqn:Ex; [|done].
    specialize (D7 ltac:(lia) _ _ Ex). specialize (Hk x ltac:(by eapply lookup_weaken)). lia. }
  split.
  - apply map_eq. intros k. apply option_eq. intros e. rewrite map_lookup_filter_Some. cbn. split.
    + intros He. split; [by eapply lookup_weaken|]. eapply D7; [lia|done].
    + intros [He Hlt]. destruct (active w' !! k) as [x|] eqn:Ex.
      * f_equal. eapply lookup_weaken in Ex; [|done]. congruence.
      * specialize (proj1 (Hleft k) Ex e He). lia.
  - intros k g. rewrite D4. split; intros (e & He & Hk & Hg & Hv); exists e; split_and!; auto.
    + by eapply Hleft.
    + apply Hleft. intros x Hx. by simplify_eq.
Qed.

(** The wheel's next deadline is the earliest deadline that counts, and [None] exactly
    when there is none; asking for it changes no timer, and the heap stays within twice the
    number of timers plus 64 however often keys are rescheduled. *)
Theorem next_deadline_is_earliest cap (w w' : TimerWheel K) d :
  wheel_reachable cap w -> next_deadline w = (d, w') ->
  active w' = active w /\
  match d with
  | None => active w = ∅
  | Some t => (exists k e, active w !! k = Some e /\ fire_at e = t) /\
              forall k e, active w !! k = Some e -> t <= fire_at e
  end /\ zlen (heap w') <= 2 * tw_len w + 64 /\ tw_len w <= cap.
Proof.
  intros [Hok <-]%wheel_reachable_ok E. destruct (next_deadline_ok _ _ _ Hok E) as (W' & Ha & Hd).
  split_and!; [done|done| |apply Hok]. destruct W' as [_ W2 _].
  unfold heap_bound, tw_len, sat_u in *. rewrite <- Ha. lia.
Qed.
End properties.

(** ** Witnesses *)

Definition three_timers : TimerWheel Z :=
  (tw_insert 30 3 1 (tw_insert 5 1 2 (tw_insert 20 2 1 (tw_insert 10 1 1
    (tw_with_capacity 4)).2).2).2).2.

Lemma three_timers_reachable : wheel_reachable 4 three_timers.
Proof. repeat apply WInsert. apply WInit. lia. Qed.

Lemma timer_drain_exact_witness :
  exists w', drain_expired_limited_into 20 8 (fun k => Some (if k =? 1 then 2 else 1)) three_timers
    = ([(1, 2); (2, 1)], w') /\
  drained 20 (fun k => Some (if k =? 1 then 2 else 1)) 8 (active three_timers) (active w')
    [(1, 2); (2, 1)].
Proof.
  eexists. split; [vm_compute; reflexivity|].
  eapply (timer_drain_exact 4); [apply three_timers_reachable|vm_compute; reflexivity].
Defined.

Lemma next_deadline_is_earliest_witness :
  (next_deadline three_timers).1 = Some 5 /\
  (forall k e, active three_timers !! k = Some e -> 5 <= fire_at e).
Proof.
  split; [reflexivity|].
  destruct (next_deadline_is_earliest 4 three_timers (next_deadline three_timers).2 (Some 5)
    three_timers_reachable ltac:(reflexivity)) as (_ & [_ H] & _). exact H.
Defined.
