(* ===== verification/Feed.v ===== *)
(** * Feeds of the egress fabric ([egress/feed.rs], [egress/journal.rs])

    A feed is a ring seen by a leaf: a cursor with an epoch, reads within a budget, and the
    sync points a leaf starts or resumes at.  [RingFeed] and [TsFeed] share [read_ring]; they
    differ in what they make of a packet, here the argument [unit], and in that [RingFeed]
    first follows a grown ring to its successor: [ring_at] is the ring it ends at.

    As in [Reader], a feed is read beside the producer: [ring_at t] is the ring at the
    [t]-th load, and operations return the time after their last load. *)

From S2P Require Import Prelude Bits Annexb Media FrameUnits Ring Reader.

(** ** Definitions *)

Record FeedCursor := mk_FeedCursor {
  fc_epoch : Z;
  next_sequence : nat;
  fc_awaiting : bool }.

Definition FeedCursor_new (epoch : Z) (next : nat) : FeedCursor := mk_FeedCursor epoch next false.
Definition awaiting_keyframe_at (epoch : Z) (next : nat) : FeedCursor :=
  mk_FeedCursor epoch next true.

Record ReadBudget := mk_ReadBudget { max_units : nat; max_bytes : Z }.

Inductive FeedRead (U : Type) :=
  | FUnits (units : list U) (next_cursor : FeedCursor)
  | FEmpty
  | FOverrun (oldest_sequence : nat)
  | FEpochMismatch (current_epoch : Z).
Arguments FUnits {U}.
Arguments FEmpty {U}.
Arguments FOverrun {U}.
Arguments FEpochMismatch {U}.

(** [FeedEpoch::advance] *)
Definition epoch_advance (epoch : Z) : Z := as_u64 (epoch + 1).

Definition oldest_retained_sequence (ring : RingBuffer) : nat :=
  (write_idx ring - capacity ring)%nat.

Section schedule.
Context (ring_at : nat -> RingBuffer).

(** The value is returned and stored in the cache. *)
Definition refresh_oldest (t : nat) : nat * nat := (S t, oldest_retained_sequence (ring_at t)).

Section units.
Context {U : Type} (unit : MediaPacket -> U).

Definition in_budget (budget : ReadBudget) (units : list U) (total_bytes : Z) : bool :=
  (length units <? max_units budget)%nat && (total_bytes <? max_bytes budget).

(** The first loop of [read_ring]: [None] is an overrun.  The sequence rises to [head]. *)
Fixpoint await_loop (fuel t head : nat) (budget : ReadBudget) (next : FeedCursor) (total_bytes : Z)
    (units : list U) : nat * option (FeedCursor * Z) * list U :=
  match fuel with
  | O => (t, Some (next, total_bytes), units)
  | S fuel' =>
      if fc_awaiting next && (next_sequence next <? head)%nat && in_budget budget units total_bytes
      then
        match read_now ring_at t (next_sequence next) with
        | (t, None) => (t, None, units)
        | (t, Some packet) =>
            if is_video_interframe packet then
              if negb (length units =? 0)%nat then (t, Some (next, total_bytes), units)
              else await_loop fuel' t head budget
                     (mk_FeedCursor (fc_epoch next) (next_sequence next + 1) (fc_awaiting next))
                     total_bytes units
            else await_loop fuel' t head budget
                   (mk_FeedCursor (fc_epoch next) (next_sequence next + 1)
                      (negb (is_video_keyframe packet)))
                   (total_bytes + zlen (payload packet)) (units ++ [unit packet])
        end
      else (t, Some (next, total_bytes), units)
  end.

(** The second loop: slots loaded without a check. *)
Fixpoint run_loop (fuel t head : nat) (budget : ReadBudget) (next : FeedCursor) (total_bytes : Z)
    (units : list U) : nat * option (FeedCursor * Z) * list U :=
  match fuel with
  | O => (t, Some (next, total_bytes), units)
  | S fuel' =>
      if negb (fc_awaiting next) && (next_sequence next <? head)%nat
         && in_budget budget units total_bytes
      then
        match read_unverified_with (ring_at t) (next_sequence next)
                (fun packet => (zlen (payload packet), unit packet)) with
        | None => (S t, None, units)
        | Some (payload_len, made) =>
            run_loop fuel' (S t) head budget
              (mk_FeedCursor (fc_epoch next) (next_sequence next + 1) (fc_awaiting next))
              (total_bytes + payload_len) (units ++ [made])
        end
      else (t, Some (next, total_bytes), units)
  end.

(** The time, the cached oldest sequence, the caller's batch and the result. *)
Definition read_ring (t : nat) (epoch : Z) (cached_oldest : nat) (cursor : FeedCursor)
    (budget : ReadBudget) : nat * nat * list U * FeedRead Datatypes.unit :=
  if negb (fc_epoch cursor =? epoch) then (t, cached_oldest, [], FEpochMismatch epoch)
  else
    let head := write_idx (ring_at t) in
    let '(t, oldest) := refresh_oldest (S t) in
    if (next_sequence cursor <? oldest)%nat then (t, oldest, [], FOverrun oldest)
    else
      match await_loop (head - next_sequence cursor) t head budget cursor 0 [] with
      | (t, None, units) =>
          let '(t, oldest) := refresh_oldest t in (t, oldest, units, FOverrun oldest)
      | (t, Some (next, total_bytes), units) =>
          let run_start := next_sequence next in
          match run_loop (head - run_start) t head budget next total_bytes units with
          | (t, None, _) =>
              let '(t, oldest) := refresh_oldest t in (t, oldest, [], FOverrun oldest)
          | (t, Some (next, _), units) =>
              let run_end := next_sequence next in
              let intact := run_intact_across (ring_at t)
                              (fun s => ring_at (S t + (s - run_start))%nat) run_start run_end in
              let t' := (S t + (run_end - run_start))%nat in
              if (run_start <? run_end)%nat && negb intact then
                let '(t, oldest) := refresh_oldest t' in (t, oldest, [], FOverrun oldest)
              else if (next_sequence next =? next_sequence cursor)%nat
              then (t', oldest, units, FEmpty)
              else (t', oldest, units, FUnits [] next)
          end
      end.

Definition into_owned (read : FeedRead Datatypes.unit) (units : list U) : FeedRead U :=
  match read with
  | FUnits _ next => FUnits units next
  | FEmpty => FEmpty
  | FOverrun oldest => FOverrun oldest
  | FEpochMismatch epoch => FEpochMismatch epoch
  end.

Definition read_from (t : nat) (epoch : Z) (cached_oldest : nat) (cursor : FeedCursor)
    (budget : ReadBudget) : nat * nat * FeedRead U :=
  let '(t, cached, units, read) := read_ring t epoch cached_oldest cursor budget in
  (t, cached, into_owned read units).
End units.

(** *** Sync points *)

Definition latest_sync_point (t : nat) (epoch : Z) : nat * option FeedCursor :=
  let head := write_idx (ring_at t) in
  if (head =? 0)%nat then (S t, None)
  else
    let kf_idx := fast_forward (ring_at (S t)) head in
    let '(t, oldest) := refresh_oldest (S (S t)) in
    (t, if (oldest <=? kf_idx)%nat && (kf_idx <? head)%nat
        then Some (FeedCursor_new epoch kf_idx) else None).

Fixpoint sync_scan (t : nat) (epoch : Z) (sequences : list nat) : nat * option FeedCursor :=
  match sequences with
  | [] => (t, None)
  | idx :: rest =>
      let '(t, packet) := read_now ring_at t idx in
      if match packet with Some p => is_video_keyframe p | None => false end
      then (t, Some (FeedCursor_new epoch idx))
      else sync_scan t epoch rest
  end.

Definition sync_point_at_or_after (t : nat) (epoch : Z) (sequence : nat) : nat * option FeedCursor :=
  let head := write_idx (ring_at t) in
  let '(t, oldest) := refresh_oldest (S t) in
  let start := Nat.max sequence oldest in
  sync_scan t epoch (seq start (head - start)).

(** [visit.rs]: where a leaf with no position starts.  The live edge is read first. *)
Definition live_start_cursor (t : nat) (epoch : Z) : nat * FeedCursor :=
  let edge := write_idx (ring_at t) in
  let '(t, point) := latest_sync_point (S t) epoch in
  (t, match point with Some c => c | None => awaiting_keyframe_at epoch edge end).
End schedule.

(** ** A feed beside the producer *)

Definition bytes_of (run : list MediaPacket) : Z := foldr (fun p n => zlen (payload p) + n) 0 run.

Lemma bytes_of_cons p run : bytes_of (p :: run) = zlen (payload p) + bytes_of run.
Proof. done. Qed.

Lemma bytes_of_app a b : bytes_of (a ++ b) = bytes_of a + bytes_of b.
Proof. unfold bytes_of. induction a as [|p a IH]; cbn; [done|]. rewrite IH. lia. Qed.

(** What was taken fits the budget, the last unit's bytes apart. *)
Definition fits (budget : ReadBudget) (count : nat) (total : Z) (run : list MediaPacket) : Prop :=
  run = [] \/ ((count + length run <= max_units budget)%nat /\
               total + bytes_of (removelast run) < max_bytes budget).

Lemma fits_cons budget count total p run :
  (count < max_units budget)%nat -> total < max_bytes budget ->
  fits budget (count + 1) (total + zlen (payload p)) run -> fits budget count total (p :: run).
Proof.
  intros Hc Ht [->|[H1 H2]]; right; cbn; [lia|]. destruct run as [|q run]; cbn in *; lia.
Qed.

Lemma fits_app budget count total a b :
  fits budget count total a -> fits budget (count + length a) (total + bytes_of a) b ->
  fits budget count total (a ++ b).
Proof.
  intros Ha [->|[H1 H2]]; [by rewrite app_nil_r|]. right. rewrite length_app. split; [lia|].
  destruct b as [|p b].
  - rewrite app_nil_r. destruct Ha as [->|[_ Ha]]; [cbn in *; lia|done].
  - rewrite removelast_app by done. rewrite bytes_of_app. lia.
Qed.

Section concurrent.
Context `{Memmem} (confs : nat -> conf) (Hrun : run_of_producer confs).
Context {U : Type} (unit : MediaPacket -> U) (budget : ReadBudget).

#[local] Abbreviation ring_at := (fun t => ring (confs t)).

(** From [sequence] to [first] there are only interframes, none without a wait. *)
Definition skips (t : nat) (awaiting : bool) (sequence first : nat) : Prop :=
  (sequence <= first)%nat /\ (awaiting = false -> first = sequence) /\
  forall i, (sequence <= i < first)%nat ->
    exists q, log (confs t) !! i = Some q /\ is_video_interframe q = true.

Definition no_keyframe (run : list MediaPacket) : bool :=
  forallb (fun p => negb (is_video_keyframe p)) run.

Record awaited (t' head : nat) (next next' : FeedCursor) (total total' : Z) (count : nat)
    (run : list MediaPacket) : Prop := {
  aw_first : exists first, skips t' (fc_awaiting next) (next_sequence next) first /\
    ((0 < count)%nat -> first = next_sequence next) /\
    (first + length run)%nat = next_sequence next' /\ is_run confs t' first run;
  aw_clean : fc_awaiting next = true -> starts_clean run = true;
  aw_wait : fc_awaiting next' = fc_awaiting next && no_keyframe run;
  aw_bytes : total' = total + bytes_of run;
  aw_epoch : fc_epoch next' = fc_epoch next;
  aw_head : (next_sequence next' <= Nat.max (next_sequence next) head)%nat;
  aw_fits : fits budget count total run;
  aw_idle : fc_awaiting next = false -> run = [];
  aw_some : next_sequence next' = next_sequence next -> fc_awaiting next = true -> (0 < count)%nat \/
    (head <= next_sequence next)%nat \/ max_units budget = 0%nat \/ max_bytes budget <= total }.

Lemma awaited_stop t head next total count :
  (fc_awaiting next = true -> (0 < count)%nat \/ (head <= next_sequence next)%nat \/
     max_units budget = 0%nat \/ max_bytes budget <= total) ->
  awaited t head next next total total count [].
Proof.
  intros Hs. split; auto; cbn; try lia; [|by rewrite andb_true_r|by left].
  exists (next_sequence next). split_and!; [split_and!; [lia|done|lia]|done|lia|].
  intros i p Hi. by destruct i.
Qed.

Lemma in_budget_spec (units : list U) total :
  in_budget budget units total = true <->
  (length units < max_units budget)%nat /\ total < max_bytes budget.
Proof. unfold in_budget. rewrite andb_true_iff, Nat.ltb_lt, Z.ltb_lt. done. Qed.

Lemma await_loop_spec head fuel : forall t next total units,
  (head <= write_idx (ring (confs t)))%nat -> within_tags confs (next_sequence next) ->
  (head <= next_sequence next + fuel)%nat ->
  let '(t', r, units') := await_loop ring_at unit fuel t head budget next total units in
  (t <= t')%nat /\ forall next' total', r = Some (next', total') ->
  exists run, units' = units ++ map unit run /\ awaited t' head next next' total total' (length units) run.
Proof.
  induction fuel as [|fuel IH]; intros t next total units Hw Htags Hf; cbn [await_loop].
  all: assert (Hend : forall t', (t <= t')%nat -> (fc_awaiting next = true -> (0 < length units)%nat \/
    (head <= next_sequence next)%nat \/ max_units budget = 0%nat \/ max_bytes budget <= total) ->
    (t <= t')%nat /\ forall next' total', Some (next, total) = Some (next', total') ->
    exists run, units = units ++ map unit run /\ awaited t' head next next' total total' (length units) run)
    by (intros t' Ht Hs; split; [done|]; intros ? ? [= <- <-]; exists []; rewrite app_nil_r;
        split; [done|by apply awaited_stop]).
  { apply Hend; [done|intros _; lia]. }
  destruct (fc_awaiting next) eqn:Eaw; [|apply Hend; done].
  destruct (Nat.ltb_spec (next_sequence next) head) as [Hlt|Hge]; [|apply Hend; auto].
  cbn [andb]. destruct (in_budget budget units total) eqn:Eb.
  2: { apply Hend; [done|]. intros _. unfold in_budget in Eb. apply andb_false_iff in Eb as [Eb|Eb]; bool_to_prop; lia. }
  apply in_budget_spec in Eb as [Hu Hb].
  destruct (read_now ring_at t (next_sequence next)) as [t1 [p|]] eqn:Er.
  2: { unfold read_now in Er. injection Er as <- _. split; [lia|done]. }
  destruct (read_now_own confs Hrun _ _ _ _ Er) as [-> Hp]; [done|lia|].
  pose proof (run_write_idx confs Hrun t (S (S t))) as Hm.
  assert (Htags' : within_tags confs (next_sequence next + 1))
    by (eapply within_tags_mono; [|done]; lia).
  destruct (is_video_interframe p) eqn:Ei.
  - destruct (Nat.eqb_spec (length units) 0) as [Hz|Hz]; cbn [negb]; [|apply Hend; [lia|intros _; lia]].
    specialize (IH (S (S t)) (mk_FeedCursor (fc_epoch next) (next_sequence next + 1) true) total units).
    destruct (await_loop _ _ _ _ _ _ _ _ _) as [[t' r] units']. cbn [next_sequence] in IH.
    destruct IH as [Ht IH]; [lia|done|lia|]. split; [lia|]. intros next' total' ->.
    destruct (IH _ _ eq_refl) as (run & -> & A). exists run. split; [done|].
    destruct A as [(first & (S1 & _ & S3) & _ & A2 & A3) A4 A5 A6 A7 A8 A9 A10 A11]. cbn in *.
    split; rewrite ?Eaw; auto; try lia; try congruence. exists first. split_and!; auto; [|lia].
    split_and!; [lia|done|]. intros i Hi. destruct (decide (i = next_sequence next)) as [->|];
      [|apply S3; lia]. exists p. split; [|done]. by apply (run_log confs Hrun (S (S t))).
  - specialize (IH (S (S t)) (mk_FeedCursor (fc_epoch next) (next_sequence next + 1)
      (negb (is_video_keyframe p))) (total + zlen (payload p)) (units ++ [unit p])).
    destruct (await_loop _ _ _ _ _ _ _ _ _) as [[t' r] units']. cbn [next_sequence] in IH.
    destruct IH as [Ht IH]; [lia|done|lia|]. split; [lia|]. intros next' total' ->.
    destruct (IH _ _ eq_refl) as (run & -> & A). exists (p :: run). rewrite <- app_assoc.
    split; [done|]. rewrite length_app in A. cbn [length] in A.
    destruct A as [(first & (S1 & S2 & S3) & A1 & A2 & A3) A4 A5 A6 A7 A8 A9 A10 A11]. cbn in *.
    rewrite A1 in * by lia.
    split; auto; try lia; try congruence.
    + exists (next_sequence next). split_and!; auto; [split_and!; [lia|done|lia]|cbn; lia|].
      apply is_run_cons; [by apply (run_log confs Hrun (S (S t)))|]. by rewrite Nat.add_1_r in A3.
    + intros _. cbn. destruct (is_video_keyframe p) eqn:Ek; [done|]. cbn. rewrite Ei. by apply A4.
    + by rewrite Eaw, A5.
    + rewrite A6, bytes_of_cons. lia.
    + by apply fits_cons.
Qed.

(** The second loop: load [i] is at time [t + i]. *)
Record loaded (t t' head : nat) (next next' : FeedCursor) (total : Z) (count : nat)
    (run : list MediaPacket) : Prop := {
  ld_next : next' = mk_FeedCursor (fc_epoch next) (next_sequence next + length run) (fc_awaiting next);
  ld_time : t' = (t + length run)%nat;
  ld_loads : forall i p, run !! i = Some p ->
    slot_packet (ring (confs (t + i))) (next_sequence next + i) = Some p;
  ld_idle : fc_awaiting next = true -> run = [];
  ld_head : (next_sequence next' <= Nat.max (next_sequence next) head)%nat;
  ld_fits : fits budget count total run;
  ld_some : run = [] -> fc_awaiting next = false -> (head <= next_sequence next)%nat \/
    (max_units budget <= count)%nat \/ max_bytes budget <= total }.

Lemma loaded_stop t head next total count :
  (fc_awaiting next = false -> (head <= next_sequence next)%nat \/
    (max_units budget <= count)%nat \/ max_bytes budget <= total) ->
  loaded t t head next next total count [].
Proof.
  intros Hs. split; cbn; try done; try lia; auto; [|by left].
  rewrite Nat.add_0_r. by destruct next.
Qed.

Lemma run_loop_spec head fuel : forall t next total units,
  (head <= next_sequence next + fuel)%nat ->
  let '(t', r, units') := run_loop ring_at unit fuel t head budget next total units in
  (t <= t')%nat /\ forall next' total', r = Some (next', total') ->
  exists run, units' = units ++ map unit run /\ loaded t t' head next next' total (length units) run.
Proof.
  induction fuel as [|fuel IH]; intros t next total units Hf; cbn [run_loop].
  all: assert (Hend : (fc_awaiting next = false -> (head <= next_sequence next)%nat \/
    (max_units budget <= length units)%nat \/ max_bytes budget <= total) ->
    (t <= t)%nat /\ forall next' total', Some (next, total) = Some (next', total') ->
    exists run, units = units ++ map unit run /\ loaded t t head next next' total (length units) run)
    by (intros Hs; split; [done|]; intros ? ? [= <- <-]; exists []; rewrite app_nil_r;
        split; [done|by apply loaded_stop]).
  { apply Hend. intros _; lia. }
  destruct (fc_awaiting next) eqn:Eaw; cbn [negb andb]; [by apply Hend|].
  destruct (Nat.ltb_spec (next_sequence next) head) as [Hlt|Hge]; [|apply Hend; auto].
  cbn [andb]. destruct (in_budget budget units total) eqn:Eb.
  2: { apply Hend. intros _. unfold in_budget in Eb. apply andb_false_iff in Eb as [Eb|Eb]; bool_to_prop; lia. }
  apply in_budget_spec in Eb as [Hu Hb]. unfold read_unverified_with.
  destruct (slot_packet (ring (confs t)) (next_sequence next)) as [p|] eqn:Ep; cbn [fmap option_fmap option_map];
    [|split; [lia|done]].
  specialize (IH (S t) (mk_FeedCursor (fc_epoch next) (next_sequence next + 1) false)
    (total + zlen (payload p)) (units ++ [unit p])).
  destruct (run_loop _ _ _ _ _ _ _ _ _) as [[t' r] units']. cbn [next_sequence] in IH.
  destruct IH as [Ht IH]; [lia|]. split; [lia|]. intros next' total' ->.
  destruct (IH _ _ eq_refl) as (run & -> & L). exists (p :: run). rewrite <- app_assoc.
  split; [done|]. rewrite length_app in L. cbn [length] in L.
  destruct L as [L1 L2 L3 L4 L5 L6 L7]. cbn in *.
  split; try done; cbn; try lia.
  - rewrite L1, Eaw. f_equal. lia.
  - intros [|i] q Hq; cbn in Hq.
    + injection Hq as <-. by rewrite !Nat.add_0_r.
    + specialize (L3 i q Hq). replace (t + S i)%nat with (S (t + i)) by lia.
      by replace (next_sequence next + S i)%nat with (next_sequence next + 1 + i)%nat by lia.
  - congruence.
  - by apply fits_cons.
Qed.

Definition feed_post (t : nat) (epoch : Z) (cursor : FeedCursor) (t' : nat) (units : list U)
    (read : FeedRead Datatypes.unit) : Prop :=
  (t <= t')%nat /\
  match read with
  | FUnits _ next =>
      fc_epoch cursor = epoch /\
      exists first run, units = map unit run /\
        skips t' (fc_awaiting cursor) (next_sequence cursor) first /\ is_run confs t' first run /\
        next = mk_FeedCursor epoch (first + length run) (fc_awaiting cursor && no_keyframe run) /\
        (next_sequence cursor < next_sequence next <= write_idx (ring (confs t)))%nat /\
        (fc_awaiting cursor = true -> starts_clean run = true) /\ fits budget 0 0 run
  | FEmpty =>
      units = [] /\ ((write_idx (ring (confs t)) <= next_sequence cursor)%nat \/
                     max_units budget = 0%nat \/ max_bytes budget <= 0)
  | FOverrun oldest =>
      exists t0, (t <= t0 <= t')%nat /\ oldest = oldest_retained_sequence (ring (confs t0))
  | FEpochMismatch current => current = epoch /\ fc_epoch cursor <> epoch
  end.

Lemma is_run_app t first a b :
  is_run confs t first a -> is_run confs t (first + length a) b -> is_run confs t first (a ++ b).
Proof.
  intros Ha Hb i p. rewrite lookup_app_Some. intros [Hi|[Hge Hi]]; [by apply Ha|].
  specialize (Hb _ _ Hi). by replace (first + length a + (i - length a))%nat with (first + i)%nat in Hb by lia.
Qed.

Lemma is_run_later t t' first run : (t <= t')%nat -> is_run confs t first run -> is_run confs t' first run.
Proof. intros Ht Hr i p Hi. by apply (run_log confs Hrun t), Hr. Qed.

Lemma skips_later t t' aw sequence first : (t <= t')%nat -> skips t aw sequence first -> skips t' aw sequence first.
Proof.
  intros Ht (H1 & H2 & H3). split_and!; auto. intros i Hi. destruct (H3 i Hi) as (q & Hq & Hf).
  exists q. split; [|done]. by apply (run_log confs Hrun t).
Qed.

Lemma starts_clean_app a b :
  starts_clean a = true -> (no_keyframe a = true -> b = []) -> starts_clean (a ++ b) = true.
Proof.
  induction a as [|p a IH]; cbn; intros Ha Hb; [by rewrite Hb|].
  destruct (is_video_keyframe p); [done|]. cbn in *. apply andb_true_iff in Ha as [-> Ha]. cbn. auto.
Qed.

Lemma no_keyframe_app a b : no_keyframe (a ++ b) = no_keyframe a && no_keyframe b.
Proof. apply forallb_app. Qed.

(** The loads of the second loop are of the run, if the check says so. *)
Lemma loaded_run t t' head next next' total count run :
  loaded t t' head next next' total count run -> (head <= write_idx (ring (confs t)))%nat ->
  within_tags confs (next_sequence next) ->
  run_intact_across (ring (confs t'))
    (fun s => ring (confs (S t' + (s - next_sequence next))%nat)) (next_sequence next) (next_sequence next') = true ->
  is_run confs t' (next_sequence next) run.
Proof.
  intros [L1 L2 L3 _ L5 _ _] Hw Htags Hok i p Hi. pose proof (lookup_lt_Some _ _ _ Hi) as Hlt.
  rewrite L1 in L5, Hok. cbn in L5, Hok.
  pose proof (run_intact_loads (fun s => confs (t + (s - next_sequence next))%nat) (confs t')
    (fun s => confs (S t' + (s - next_sequence next))%nat)
    (fun s => default p (run !! (s - next_sequence next)%nat))
    (next_sequence next) (next_sequence next + length run)) as Hall.
  rewrite Hall; [f_equal; replace (next_sequence next + i - next_sequence next)%nat with i by lia;
    by rewrite Hi| |done|lia].
  intros s Hs. split_and!.
  - by apply run_reachable.
  - pose proof (run_write_idx confs Hrun t (t + (s - next_sequence next)) ltac:(lia)). lia.
  - destruct (lookup_lt_is_Some_2 run (s - next_sequence next)) as [q Hq]; [lia|]. rewrite Hq. cbn.
    rewrite <- (L3 _ _ Hq). f_equal. lia.
  - apply run_steps; [done|lia].
  - apply run_steps; [done|lia].
  - specialize (Htags (S t' + (s - next_sequence next))%nat). lia.
Qed.

Lemma read_ring_spec t epoch cached cursor :
  within_tags confs (next_sequence cursor) ->
  let '(t', _, units, read) := read_ring ring_at unit t epoch cached cursor budget in
  feed_post t epoch cursor t' units read.
Proof.
  intros Htags. unfold read_ring. destruct (Z.eqb_spec (fc_epoch cursor) epoch) as [He|He];
    cbn [negb]; [|by split; [lia|]].
  unfold refresh_oldest. case_if.
  { split; [lia|]. exists (S t). split; [lia|done]. }
  set (head := write_idx (ring (confs t))). pose proof (run_write_idx confs Hrun t (S (S t))) as Hm.
  pose proof (await_loop_spec head (head - next_sequence cursor) (S (S t)) cursor 0 []) as Ha.
  destruct (await_loop _ _ _ _ _ _ _ _ _) as [[t1 [[next total]|]] units1].
  2: { destruct Ha as [Ht _]; [lia|done|lia|]. split; [lia|]. exists t1. split; [lia|done]. }
  destruct Ha as [Ht1 Ha]; [lia|done|lia|]. destruct (Ha _ _ eq_refl) as (run1 & -> & A). clear Ha.
  cbn [app length] in *. destruct A as [(first & Hsk & _ & A2 & A3) A4 A5 A6 A7 A8 A9 A10 A11].
  assert (Htags' : within_tags confs (next_sequence next))
    by (eapply within_tags_mono; [|done]; destruct Hsk; lia).
  pose proof (run_loop_spec head (head - next_sequence next) t1 next total (map unit run1)) as Hr.
  destruct (run_loop _ _ _ _ _ _ _ _ _) as [[t2 [[next2 total2]|]] units2].
  2: { destruct Hr as [Ht _]; [lia|]. split; [lia|]. exists t2. split; [lia|done]. }
  destruct Hr as [Ht2 Hr]; [lia|]. destruct (Hr _ _ eq_refl) as (run2 & -> & L). clear Hr.
  rewrite <- map_app in *. rewrite length_map in L. pose proof L as [L1 L2 L3 L4 L5 L6 L7].
  assert (Hseq : next_sequence next2 = (first + length (run1 ++ run2))%nat)
    by (rewrite L1, length_app; cbn; lia).
  assert (Hn2 : next_sequence next2 = (next_sequence next + length run2)%nat) by (by rewrite L1).
  cbn zeta. destruct ((_ <? _)%nat && _) eqn:Echk.
  { split; [lia|]. eexists. split; [|done]. lia. }
  pose proof (run_write_idx confs Hrun t t1) as Hm1. destruct Hsk as (S1 & S2 & S3).
  assert (Hr2 : is_run confs t2 (next_sequence next) run2).
  { apply andb_false_iff in Echk as [Echk|Echk]; bool_to_prop.
    - destruct run2; [by intros []|]. cbn in Hn2. lia.
    - eapply loaded_run; [exact L|lia|done|done]. }
  set (t' := (S t2 + (next_sequence next2 - next_sequence next))%nat).
  case_if.
  - split; [lia|]. rewrite length_app in Hseq.
    assert (run1 = [] /\ run2 = []) as [-> ->] by (split; apply nil_length_inv; lia).
    split; [done|]. cbn in *. destruct (fc_awaiting cursor) eqn:Eaw.
    + destruct A11 as [|[|[|]]]; try done; try lia; auto.
    + cbn in A5. destruct L7 as [|[|]]; try done; [left; lia|right; left; lia|right; right; lia].
  - split; [lia|]. split; [done|]. exists first, (run1 ++ run2). split_and!.
    + done.
    + apply (skips_later t1); [lia|]. by split_and!.
    + apply (is_run_later t2); [lia|]. apply is_run_app; [by apply (is_run_later t1)|]. by rewrite A2.
    + rewrite L1, A5, A7, no_keyframe_app, He. f_equal; [rewrite length_app; lia|].
      rewrite andb_assoc. destruct (fc_awaiting cursor && no_keyframe run1) eqn:Ew; [|done].
      by rewrite L4 by congruence.
    + cbn in *. lia.
    + lia.
    + intros Hw. apply starts_clean_app; [by apply A4|]. intros Hk. apply L4. by rewrite A5, Hw, Hk.
    + apply fits_app; [done|]. by rewrite <- A6.
Qed.
End concurrent.

(** *** What a leaf plays *)

(** The stream without the interframes that come before the first keyframe, when one is
    awaited. *)
Fixpoint playable (awaiting : bool) (l : list MediaPacket) : list MediaPacket :=
  match l with
  | [] => []
  | p :: rest =>
      if awaiting && is_video_interframe p then playable awaiting rest
      else p :: playable (awaiting && negb (is_video_keyframe p)) rest
  end.

Definition slice {A} (l : list A) (a b : nat) : list A := take (b - a) (drop a l).

Lemma lookup_slice {A} (l : list A) a b i :
  slice l a b !! i = if decide (i < b - a)%nat then l !! (a + i)%nat else None.
Proof.
  unfold slice. destruct (decide _).
  - by rewrite lookup_take_lt, lookup_drop by lia.
  - by apply lookup_take_ge; lia.
Qed.

Lemma slice_app {A} (l : list A) a b c :
  (a <= b <= c)%nat -> slice l a c = slice l a b ++ slice l b c.
Proof.
  intros Hb. unfold slice. replace (drop b l) with (drop (b - a) (drop a l))
    by (rewrite drop_drop; f_equal; lia).
  rewrite <- (take_drop (b - a) (take (c - a) (drop a l))). f_equal.
  - rewrite take_take. f_equal. lia.
  - rewrite skipn_firstn_comm. f_equal. lia.
Qed.

Lemma playable_skip l rest :
  Forall (fun p => is_video_interframe p = true) l -> playable true (l ++ rest) = playable true rest.
Proof. induction 1 as [|p l Hp _ IH]; cbn; [done|]. by rewrite Hp. Qed.

Lemma playable_false l : playable false l = l.
Proof. induction l as [|p l IH]; cbn; [done|]. by rewrite IH. Qed.

Lemma playable_clean l : starts_clean l = true -> playable true l = l.
Proof.
  induction l as [|p l IH]; cbn; [done|]. destruct (is_video_keyframe p) eqn:Ek; cbn.
  - intros _. rewrite playable_false.
    assert (is_video_interframe p = false) as ->; [|done].
    unfold is_video_interframe, is_video_keyframe in *. apply andb_true_iff in Ek as [-> ->]. done.
  - intros [Hi Hc]%andb_true_iff. apply negb_true_iff in Hi. rewrite Hi. by rewrite IH.
Qed.

Lemma playable_app aw a b : playable aw (a ++ b) = playable aw a ++ playable (aw && no_keyframe a) b.
Proof.
  revert aw. induction a as [|p a IH]; intros aw; cbn; [by rewrite andb_true_r|].
  destruct (aw && is_video_interframe p) eqn:E.
  - rewrite IH. apply andb_true_iff in E as [-> Ei]. repeat f_equal.
    unfold is_video_interframe, is_video_keyframe in *.
    destruct (bool_decide (media_type p = Video)), (is_keyframe p); done.
  - rewrite IH. cbn. by rewrite andb_assoc.
Qed.

Section session.
Context `{Memmem} (confs : nat -> conf) (Hrun : run_of_producer confs).
Context {U : Type} (unit : MediaPacket -> U) (epoch : Z).

#[local] Abbreviation ring_at := (fun t => ring (confs t)).

(** A leaf from its start on: reads with any budgets, at any times, none an overrun.
    [start] and [awaiting] are those of its first cursor, [out] what it was given. *)
Inductive feed_session (start : nat) (awaiting : bool) : nat -> FeedCursor -> list U -> Prop :=
  | fs_start t t' c :
      live_start_cursor ring_at t epoch = (t', c) -> next_sequence c = start ->
      fc_awaiting c = awaiting -> feed_session start awaiting t' c []
  | fs_units t t1 t' c next out units empty cached cached' budget :
      feed_session start awaiting t c out -> (t <= t1)%nat ->
      read_ring ring_at unit t1 epoch cached c budget = (t', cached', units, FUnits empty next) ->
      feed_session start awaiting t' next (out ++ units)
  | fs_empty t t1 t' c out units cached cached' budget :
      feed_session start awaiting t c out -> (t <= t1)%nat ->
      read_ring ring_at unit t1 epoch cached c budget = (t', cached', units, FEmpty) ->
      feed_session start awaiting t' c out.

Lemma slice_later t t' a b :
  (t <= t')%nat -> (b <= write_idx (ring (confs t)))%nat ->
  slice (log (confs t')) a b = slice (log (confs t)) a b.
Proof.
  intros Ht Hb. apply list_eq. intros i. rewrite !lookup_slice. destruct (decide _) as [Hi|]; [|done].
  destruct (lookup_lt_is_Some_2 (log (confs t)) (a + i)) as [p Hp].
  - destruct (reachable_ok _ (run_reachable confs Hrun t)) as (f & n & ph & Hr & _).
    pose proof (rep_idx _ _ _ _ _ Hr). pose proof (rep_len _ _ _ _ _ Hr). lia.
  - rewrite Hp. by apply (run_log confs Hrun t).
Qed.

(** A read plays the stretch between its cursors. *)
Lemma feed_post_plays budget t c t' units empty next :
  feed_post confs unit budget t epoch c t' units (FUnits empty next) ->
  let l := slice (log (confs t')) (next_sequence c) (next_sequence next) in
  units = map unit (playable (fc_awaiting c) l) /\
  fc_awaiting next = fc_awaiting c && no_keyframe l.
Proof.
  intros (_ & He & first & run & -> & (S1 & S2 & S3) & Hr & -> & Hlt & Hc & _). cbn [next_sequence fc_awaiting] in *.
  assert (Hrun2 : slice (log (confs t')) first (first + length run) = run).
  { apply list_eq. intros i. rewrite lookup_slice. destruct (decide _) as [Hi|Hi].
    - destruct (lookup_lt_is_Some_2 run i) as [p Hp]; [lia|]. rewrite Hp. by apply Hr.
    - symmetry. apply lookup_ge_None. lia. }
  cbn zeta. rewrite (slice_app _ _ first) by lia. rewrite Hrun2.
  assert (Hsk : Forall (fun p => is_video_interframe p = true)
    (slice (log (confs t')) (next_sequence c) first)).
  { apply Forall_lookup. intros i p. rewrite lookup_slice. destruct (decide _); [|done].
    intros Hp. destruct (S3 (next_sequence c + i)%nat) as (q & Hq & Hi); [lia|]. congruence. }
  rewrite no_keyframe_app.
  assert (no_keyframe (slice (log (confs t')) (next_sequence c) first) = true) as ->.
  { apply forallb_forall. intros p Hp%list_elem_of_In. rewrite Forall_forall in Hsk.
    specialize (Hsk p Hp). unfold is_video_interframe, is_video_keyframe in *.
    destruct (bool_decide (media_type p = Video)), (is_keyframe p); done. }
  cbn [andb]. split; [|done]. f_equal. destruct (fc_awaiting c).
  - rewrite playable_skip by done. by rewrite playable_clean by auto.
  - rewrite playable_false, S2 by done. unfold slice. by rewrite Nat.sub_diag.
Qed.

Lemma live_start_spec t t' c :
  live_start_cursor ring_at t epoch = (t', c) ->
  (t <= t')%nat /\ fc_epoch c = epoch /\ (next_sequence c <= write_idx (ring (confs t')))%nat /\
  if fc_awaiting c then next_sequence c = write_idx (ring (confs t))
  else exists p, log (confs t') !! next_sequence c = Some p /\ is_video_keyframe p = true.
Proof.
  unfold live_start_cursor, latest_sync_point, refresh_oldest. case_if.
  { intros [= <- <-]. cbn. pose proof (run_write_idx confs Hrun t (S (S t))). split_and!; auto; lia. }
  intros [= <- <-]. pose proof (run_write_idx confs Hrun t (S (S (S (S t))))).
  case_if; cbn; split_and!; auto; try lia.
  - pose proof (run_write_idx confs Hrun (S t) (S (S (S (S t))))). lia.
  - match goal with H : (_ < write_idx (ring (confs (S t))))%nat |- _ => rename H into Hlt end.
    unfold fast_forward in Hlt |- *.
    destruct (reachable_ok _ (run_reachable confs Hrun (S (S t)))) as (f & n & ph & Hr & _).
    destruct (last_keyframe_idx (ring (confs (S (S t))))) as [j|] eqn:Ej; [|lia].
    destruct (rep_kf _ _ _ _ _ Hr j Ej) as (_ & p & Hp & Hk).
    destruct (_ <? _)%nat; [|lia]. exists p. split; [|done].
    by apply (run_log confs Hrun (S (S t))); [lia|].
Qed.

Lemma feed_session_spec start awaiting t c out :
  within_tags confs start -> feed_session start awaiting t c out ->
  let l := slice (log (confs t)) start (next_sequence c) in
  out = map unit (playable awaiting l) /\ fc_awaiting c = awaiting && no_keyframe l /\
  (start <= next_sequence c <= write_idx (ring (confs t)))%nat /\
  (awaiting = false -> exists p, log (confs t) !! start = Some p /\ is_video_keyframe p = true).
Proof.
  intros Htags Hs. induction Hs as [t t' c Hl <- <-|t t1 t' c next out units empty cached cached' budget _ IH Ht Hread
    |t t1 t' c out units cached cached' budget _ IH Ht Hread].
  - apply live_start_spec in Hl as (_ & _ & Hle & Hk). unfold slice. rewrite Nat.sub_diag. cbn.
    rewrite andb_true_r. split_and!; auto. intros Haw. by rewrite Haw in Hk.
  - destruct IH as (Ho & Ha & Hle & Hk). pose proof (run_write_idx confs Hrun t t1 Ht).
    pose proof (read_ring_spec confs Hrun unit budget t1 epoch cached c) as Hp. rewrite Hread in Hp.
    specialize (Hp ltac:(eapply within_tags_mono; [|exact Htags]; lia)).
    pose proof (feed_post_plays _ _ _ _ _ _ _ Hp) as [Hu Haw].
    destruct Hp as (Ht' & _ & first & run & _ & _ & _ & _ & Hlt & _).
    pose proof (run_write_idx confs Hrun t1 t' Ht').
    cbn zeta. rewrite (slice_app _ start (next_sequence c)) by lia.
    rewrite (slice_later t t' start (next_sequence c)) by lia.
    split_and!; [|by rewrite Haw, Ha, no_keyframe_app, andb_assoc|lia|lia|].
    + rewrite playable_app, map_app, <- Ha. by rewrite <- Hu, <- Ho.
    + intros Hf. destruct (Hk Hf) as (p & Hp & ?). exists p. split; [|done].
      by apply (run_log confs Hrun t); [lia|].
  - destruct IH as (Ho & Ha & Hle & Hk). pose proof (run_write_idx confs Hrun t t1 Ht).
    pose proof (read_ring_spec confs Hrun unit budget t1 epoch cached c) as Hp. rewrite Hread in Hp.
    destruct (Hp ltac:(eapply within_tags_mono; [|exact Htags]; lia)) as [Ht' _].
    pose proof (run_write_idx confs Hrun t1 t' Ht').
    cbn zeta. rewrite (slice_later t t' start (next_sequence c)) by lia.
    split_and!; [done|done|lia|lia|]. intros Hf. destruct (Hk Hf) as (p & Hp' & ?). exists p. split; [|done].
    by apply (run_log confs Hrun t); [lia|].
Qed.
End session.

(** *** A quiet feed *)

Section quiet.
Context {U : Type} (unit : MediaPacket -> U) (budget : ReadBudget).
Context (r : RingBuffer) (l : list MediaPacket).
Context (Hr : represents 0 l r (length l) Ready) (Hi : write_idx r = length l).

Lemma quiet_await fuel t next total units :
  (length l <= next_sequence next + capacity r)%nat ->
  (await_loop (fun _ => r) unit fuel t (length l) budget next total units).1.2 <> None.
Proof.
  revert t next total units. induction fuel as [|fuel IH]; intros t next total units Hc; cbn [await_loop]; [done|].
  destruct (_ && _ && _) eqn:E; [|done]. bool_to_prop.
  assert (Hs : read_at r (next_sequence next) = l !! next_sequence next)
    by (apply (read_at_retained 0 l r (length l)); [done|lia|lia]).
  unfold read_now. unfold read_at in Hs. rewrite Hs.
  destruct (lookup_lt_is_Some_2 l (next_sequence next)) as [p Hp]; [done|]. rewrite Hp.
  destruct (is_video_interframe p); [destruct (negb _); [done|]|]; apply IH; cbn; lia.
Qed.

Lemma quiet_run fuel t next total units :
  (length l <= next_sequence next + capacity r)%nat ->
  (run_loop (fun _ => r) unit fuel t (length l) budget next total units).1.2 <> None.
Proof.
  revert t next total units. induction fuel as [|fuel IH]; intros t next total units Hc; cbn [run_loop]; [done|].
  destruct (_ && _ && _) eqn:E; [|done]. bool_to_prop.
  assert (is_Some (slot_packet r (next_sequence next))) as [p Hp].
  { rewrite (packet_retained 0 l r (length l) Ready) by (done || lia).
    apply lookup_lt_is_Some_2. lia. }
  unfold read_unverified_with. rewrite Hp. cbn. apply IH. cbn. lia.
Qed.

Lemma await_seq fuel t head next total units :
  match (await_loop (fun _ => r) unit fuel t head budget next total units).1.2 with
  | Some (next', _) => (next_sequence next <= next_sequence next')%nat
  | None => True
  end.
Proof.
  revert t next total units. induction fuel as [|fuel IH]; intros t next total units; cbn [await_loop];
    [cbn; lia|].
  destruct (_ && _ && _); [|cbn; lia]. destruct (read_now _ _ _) as [t1 [p|]]; [|done].
  destruct (is_video_interframe p); [destruct (negb _); [cbn; lia|]|].
  all: match goal with |- context [await_loop _ _ _ ?a _ _ ?b ?c ?d] => specialize (IH a b c d) end.
  all: destruct (await_loop _ _ _ _ _ _ _ _ _) as [[? [[]|]] ?]; cbn in *; [lia|done].
Qed.

Lemma quiet_read t epoch cached cursor :
  fc_epoch cursor = epoch -> (oldest_retained_sequence r <= next_sequence cursor)%nat ->
  match (read_ring (fun _ => r) unit t epoch cached cursor budget).2 with
  | FUnits _ _ | FEmpty => True
  | _ => False
  end.
Proof.
  unfold oldest_retained_sequence. intros He Ho. unfold read_ring.
  rewrite (proj2 (Z.eqb_eq _ _) He). cbn [negb]. unfold refresh_oldest, oldest_retained_sequence.
  case_if; [lia|]. rewrite Hi in *.
  pose proof (quiet_await (length l - next_sequence cursor) (S (S t)) cursor 0 [] ltac:(lia)) as Ha.
  pose proof (await_seq (length l - next_sequence cursor) (S (S t)) (length l) cursor 0 []) as Hq.
  destruct (await_loop _ _ _ _ _ _ _ _ _) as [[t1 [[next total]|]] units1]; cbn in Ha, Hq; [|done].
  pose proof (quiet_run (length l - next_sequence next) t1 next total units1 ltac:(lia)) as Hb.
  destruct (run_loop _ _ _ _ _ _ _ _ _) as [[t2 [[next2 total2]|]] units2]; cbn in Hb; [|done].
  cbn zeta. unfold run_intact_across. rewrite (rep_begin _ _ _ _ _ Hr). cbn [begun].
  rewrite (proj2 (Nat.leb_le (length l) (next_sequence next + capacity r))) by lia.
  rewrite andb_false_r. by destruct (_ =? _)%nat.
Qed.
End quiet.

(** ** Properties *)

(** A feed read delivers a run of the stream within its budget, whatever the producer
    does meanwhile.  The units are those of consecutive sequences that begin at the cursor
    (or, when a keyframe is awaited, after interframes only, with no interframe before the
    first keyframe, which ends the wait) and stop before the write index; no more than the
    units asked for, and all but the last within the bytes.  It is empty only with nothing
    to read or no budget; an overrun names an oldest sequence of the ring; an old epoch is
    refused. *)
Theorem feed_read_in_order `{Memmem} (confs : nat -> conf) {U} (unit : MediaPacket -> U)
    budget t epoch cached cursor :
  run_of_producer confs -> within_tags confs (next_sequence cursor) ->
  let '(t', _, units, read) :=
    read_ring (fun t => ring (confs t)) unit t epoch cached cursor budget in
  feed_post confs unit budget t epoch cursor t' units read.
Proof. intros Hrun. by apply read_ring_spec. Qed.

(** C32: A leaf plays the published stream.  From the position [live_start_cursor] gives,
    through any number of reads of any budgets beside the producer, as long as none is an
    overrun, what it was given is exactly the stream between its first cursor and its
    current one, less the interframes before the first keyframe when it started at the
    live edge; otherwise it starts at a keyframe.  Nothing is skipped, repeated or taken
    from another sequence. *)
Theorem feed_session_plays_log `{Memmem} (confs : nat -> conf) {U} (unit : MediaPacket -> U)
    epoch start awaiting t c out :
  run_of_producer confs -> within_tags confs start ->
  feed_session confs unit epoch start awaiting t c out ->
  let l := slice (log (confs t)) start (next_sequence c) in
  out = map unit (playable awaiting l) /\ fc_awaiting c = awaiting && no_keyframe l /\
  (start <= next_sequence c <= write_idx (ring (confs t)))%nat /\
  (awaiting = false -> exists p, log (confs t) !! start = Some p /\ is_video_keyframe p = true).
Proof. intros Hrun. by apply feed_session_spec. Qed.

(** A cursor in the window of a quiet ring always reads: with the producer between two
    publications (the ring not grown), a cursor of the current epoch at or after the oldest
    retained sequence gets units or nothing, never an overrun. *)
Theorem feed_read_quiet_never_overruns `{Memmem} cap r l {U} (unit : MediaPacket -> U)
    budget t epoch cached cursor :
  (0 < cap)%nat -> rtc ring_step (mk_conf (RingBuffer_new cap) [] []) (mk_conf r [] l) ->
  fc_epoch cursor = epoch -> (oldest_retained_sequence r <= next_sequence cursor)%nat ->
  match (read_ring (fun _ => r) unit t epoch cached cursor budget).2 with
  | FUnits _ _ | FEmpty => True
  | _ => False
  end.
Proof.
  intros Hc Hsteps. assert (Hok : conf_ok 0 0 (mk_conf (RingBuffer_new cap) [] [])).
  { exists Ready. split; [by apply represents_new|]. constructor. }
  destruct (ring_steps_ok _ _ Hsteps 0 0 Hok) as (n & _ & (ph & Hr & Hops) & Hcap & _). cbn in *.
  apply ops_ok_nil_inv in Hops as (-> & -> & Hi). by apply (quiet_read unit budget r l).
Qed.

(** *** Concrete feeds *)

#[local] Existing Instances naive_memmem.

Lemma feed_read_in_order_witness :
  let '(t', _, units, read) :=
    read_ring (fun t => ring (example_run t)) pts 0 0 0 (FeedCursor_new 0 2) (mk_ReadBudget 4 100) in
  units = [3] /\ feed_post example_run pts (mk_ReadBudget 4 100) 0 0 (FeedCursor_new 0 2) t' units read.
Proof.
  pose proof (feed_read_in_order example_run pts (mk_ReadBudget 4 100) 0 0 0 (FeedCursor_new 0 2)
    example_run_ok (example_run_tags 2)) as H.
  destruct (read_ring _ _ _ _ _ _ _) as [[[t' c'] units] read] eqn:E. vm_compute in E.
  injection E as <- <- <- <-. split; [reflexivity|exact H].
Defined.

Lemma example_session : exists t c, feed_session example_run pts 0 2 false t c [3].
Proof.
  destruct (live_start_cursor (fun t => ring (example_run t)) 0 0) as [t c] eqn:E1.
  destruct (read_ring (fun t => ring (example_run t)) pts t 0 0 c (mk_ReadBudget 4 100))
    as [[[t' c'] units] read] eqn:E2.
  assert (Hc : c = FeedCursor_new 0 2) by (vm_compute in E1; by injection E1 as <- <-).
  assert (H2 : units = [3] /\ exists next, read = FUnits [] next).
  { clear Hc. vm_compute in E1. injection E1 as <- <-. vm_compute in E2. injection E2 as <- <- <- <-.
    split; [done|]. by eexists. }
  destruct H2 as (-> & next & ->). exists t', next.
  apply (fs_units _ _ _ _ _ t t t' c next [] [3] [] 0 c' (mk_ReadBudget 4 100)); [|done|done].
  by apply (fs_start _ _ _ _ _ 0); [|by rewrite Hc..].
Qed.

Lemma feed_session_plays_log_witness :
  exists t c, feed_session example_run pts 0 2 false t c [3] /\
    map pts (playable false (slice (log (example_run t)) 2 (next_sequence c))) = [3].
Proof.
  destruct example_session as (t & c & Hs). exists t, c. split; [exact Hs|].
  destruct (feed_session_plays_log example_run pts 0 2 false t c [3] example_run_ok
    (example_run_tags 2) Hs) as [E _]. symmetry. exact E.
Defined.

Lemma feed_read_quiet_never_overruns_witness :
  (read_ring (fun _ => ring example_quiet) pts 0 5 0 (FeedCursor_new 5 1) (mk_ReadBudget 4 100)).2
    = FUnits [] (FeedCursor_new 5 3) /\
  match (read_ring (fun _ => ring example_quiet) pts 0 5 0 (FeedCursor_new 5 1) (mk_ReadBudget 4 100)).2 with
  | FUnits _ _ | FEmpty => True
  | _ => False
  end.
Proof.
  split; [vm_compute; reflexivity|].
  apply (feed_read_quiet_never_overruns 2 (ring example_quiet) example_packets pts
    (mk_ReadBudget 4 100) 0 5 0 (FeedCursor_new 5 1)); [lia|exact example_quiet_steps|reflexivity|].
  vm_compute. lia.
Defined.
