(* ===== verification/WakeGate.v ===== *)
(** * Waking a shard ([egress/journal.rs], [egress/shard.rs])

    Publishers wake a shard through a bounded command channel.  [WakeGate] coalesces: a
    publisher sends a wake only when it turns [pending] on, and falls back to the bit
    [full_retry] when the channel is full; the shard clears the bit before it looks at the
    feed.  The atomic operations of any number of publishers and of the shard's loop are the
    steps of [step]; what the shard has seen is compared with what was published. *)

From S2P Require Import Prelude.

Record WakeGate := { pending : bool; full_retry : bool }.

Definition WakeGate_new : WakeGate := {| pending := false; full_retry := false |}.

Definition notify (g : WakeGate) : bool * WakeGate :=
  (negb (pending g), {| pending := true; full_retry := full_retry g |}).
Definition take_pending (g : WakeGate) : bool * WakeGate :=
  (pending g, {| pending := false; full_retry := full_retry g |}).
Definition set_full_retry (g : WakeGate) : WakeGate :=
  {| pending := pending g; full_retry := true |}.
Definition record_full_delivery (g : WakeGate) : WakeGate := set_full_retry (take_pending g).2.
Definition take_full_delivery (g : WakeGate) : bool * WakeGate :=
  (full_retry g, {| pending := pending g; full_retry := false |}).

Inductive Command := FeedWake | OtherCommand.

#[export] Instance Command_eq_dec : EqDecision Command.
Proof. solve_decision. Defined.

(** Where a publisher is: in [FeedWakeHandle::deliver] after its push, or not at all.  The
    two atomic operations of [record_full_delivery] are steps of their own. *)
Inductive publisher :=
  | PIdle
  | PPublished          (** pushed, [notify] is next *)
  | PMustSend           (** [notify] returned [true], [try_send] is next *)
  | PFullTake           (** [Full]: [self.take()] is next *)
  | PFullSet            (** [full_retry.swap(true)] is next *)
  | PClosedTake.        (** [Disconnected]: [self.gate.take()] is next *)

(** Where the shard's loop is. *)
Inductive shard_pc :=
  | SLoop
  | SWake               (** received [FeedWake], [wake_gate.take()] is next *)
  | SObserve            (** [backend.on_command(FeedWake)] and the ready visit are next *)
  | SStopped.           (** the receiver is gone *)

#[export] Instance shard_pc_eq_dec : EqDecision shard_pc.
Proof. solve_decision. Defined.

Record state := mk_state {
  gate : WakeGate;
  channel : list Command;
  head : nat;                    (** publications made *)
  seen : nat;                    (** publications the shard has looked at *)
  publishers : list publisher;
  shard : shard_pc }.

Definition init (n : nat) : state := mk_state WakeGate_new [] 0 0 (replicate n PIdle) SLoop.

Definition set_publisher (s : state) (i : nat) (p : publisher) : list publisher :=
  <[i := p]> (publishers s).

Section steps.
Context (capacity : nat).

(** One atomic operation of a publisher inside [deliver], or of the shard. *)
Inductive work : state -> state -> Prop :=
  | w_notify s i b g :
      publishers s !! i = Some PPublished -> notify (gate s) = (b, g) ->
      work s (mk_state g (channel s) (head s) (seen s)
        (set_publisher s i (if b then PMustSend else PIdle)) (shard s))
  | w_send s i :
      publishers s !! i = Some PMustSend -> shard s <> SStopped ->
      (length (channel s) < capacity)%nat ->
      work s (mk_state (gate s) (channel s ++ [FeedWake]) (head s) (seen s)
        (set_publisher s i PIdle) (shard s))
  | w_send_full s i :
      publishers s !! i = Some PMustSend -> shard s <> SStopped ->
      (capacity <= length (channel s))%nat ->
      work s (mk_state (gate s) (channel s) (head s) (seen s)
        (set_publisher s i PFullTake) (shard s))
  | w_send_closed s i :
      publishers s !! i = Some PMustSend -> shard s = SStopped ->
      work s (mk_state (gate s) (channel s) (head s) (seen s)
        (set_publisher s i PClosedTake) (shard s))
  | w_full_take s i :
      publishers s !! i = Some PFullTake ->
      work s (mk_state (take_pending (gate s)).2 (channel s) (head s) (seen s)
        (set_publisher s i PFullSet) (shard s))
  | w_full_set s i :
      publishers s !! i = Some PFullSet ->
      work s (mk_state (set_full_retry (gate s)) (channel s) (head s) (seen s)
        (set_publisher s i PIdle) (shard s))
  | w_closed_take s i :
      publishers s !! i = Some PClosedTake ->
      work s (mk_state (take_pending (gate s)).2 (channel s) (head s) (seen s)
        (set_publisher s i PIdle) (shard s))
  | w_recv s c rest :
      shard s = SLoop -> channel s = c :: rest ->
      work s (mk_state (gate s) rest (head s) (seen s) (publishers s)
        (match c with FeedWake => SWake | OtherCommand => SLoop end))
  | w_take s :
      shard s = SWake ->
      work s (mk_state (take_pending (gate s)).2 (channel s) (head s) (seen s) (publishers s) SObserve)
  | w_take_full s g :
      shard s = SLoop -> take_full_delivery (gate s) = (true, g) ->
      work s (mk_state g (channel s) (head s) (seen s) (publishers s) SObserve)
  | w_observe s :
      shard s = SObserve ->
      work s (mk_state (gate s) (channel s) (head s) (head s) (publishers s) SLoop).

(** What the world does: a publication, another command, the end of the shard. *)
Inductive event : state -> state -> Prop :=
  | e_publish s i :
      publishers s !! i = Some PIdle ->
      event s (mk_state (gate s) (channel s) (S (head s)) (seen s)
        (set_publisher s i PPublished) (shard s))
  | e_command s :
      (length (channel s) < capacity)%nat ->
      event s (mk_state (gate s) (channel s ++ [OtherCommand]) (head s) (seen s)
        (publishers s) (shard s))
  | e_stop s :
      shard s = SLoop ->
      event s (mk_state (gate s) [] (head s) (seen s) (publishers s) SStopped).

Inductive reachable (n : nat) : state -> Prop :=
  | r_init : reachable n (init n)
  | r_work s s' : reachable n s -> work s s' -> reachable n s'
  | r_event s s' : reachable n s -> event s s' -> reachable n s'.
End steps.

(** ** Lemmas *)

(** Someone is on the way to the shard with a hint. *)
Definition delivering (p : publisher) : bool :=
  match p with PIdle => false | _ => true end.
(** A publisher that turned [pending] on and has not handed it over. *)
Definition owns_pending (p : publisher) : bool :=
  match p with PMustSend | PFullTake => true | _ => false end.

Definition hinted (s : state) : Prop :=
  Exists (fun p => delivering p = true) (publishers s) \/ FeedWake ∈ channel s \/
  full_retry (gate s) = true \/ shard s = SWake \/ shard s = SObserve.

(** [pending] never stays on without someone who will act on it. *)
Definition owned (s : state) : Prop :=
  pending (gate s) = true ->
  Exists (fun p => owns_pending p = true) (publishers s) \/ FeedWake ∈ channel s \/ shard s = SWake.

Record gate_ok (s : state) : Prop := {
  g_seen : (seen s <= head s)%nat;
  g_live : shard s <> SStopped -> owned s /\ ((seen s < head s)%nat -> hinted s) /\
           Forall (fun p => p <> PClosedTake) (publishers s) }.

Lemma Exists_insert {A} (P : A -> Prop) (l : list A) i x y :
  l !! i = Some x -> Exists P l -> (P x -> P y) -> Exists P (<[i := y]> l).
Proof.
  intros Hi (z & Hz & HP)%Exists_exists Hxy. apply list_elem_of_lookup in Hz as [j Hj].
  apply Exists_exists. destruct (decide (i = j)) as [->|Hne].
  - exists y. simplify_eq. split; [|auto]. apply list_elem_of_lookup. exists j.
    apply list_lookup_insert_eq. by eapply lookup_lt_Some.
  - exists z. split; [|done]. apply list_elem_of_lookup. exists j. by rewrite list_lookup_insert_ne.
Qed.

Lemma Exists_inserted {A} (P : A -> Prop) (l : list A) i x y :
  l !! i = Some x -> P y -> Exists P (<[i := y]> l).
Proof.
  intros Hi Hy. apply Exists_exists. exists y. split; [|done]. apply list_elem_of_lookup. exists i.
  apply list_lookup_insert_eq. by eapply lookup_lt_Some.
Qed.

Lemma lookup_not_exists {A} (P : A -> Prop) (l : list A) i x y :
  l !! i = Some x -> ~ P x -> Exists P l -> Exists P (<[i := y]> l).
Proof. intros Hi Hx He. by eapply Exists_insert. Qed.

(** The hint a publisher leaves behind when it is done. *)
Lemma hinted_without s i x (g : WakeGate) ch sh :
  publishers s !! i = Some x -> owns_pending x = false -> owned s -> pending (gate s) = true ->
  full_retry g = full_retry (gate s) -> ch = channel s -> sh = shard s ->
  hinted (mk_state g ch (head s) (seen s) (<[i := PIdle]> (publishers s)) sh).
Proof.
  intros Hi Hx Ho Hp Hg -> ->. destruct (Ho Hp) as [He|[Hc|Hs]]; unfold hinted; cbn; auto.
  left. eapply lookup_not_exists in He; [| exact Hi | by rewrite Hx].
  eapply Exists_impl; [exact He|]. by intros [].
Qed.

Lemma work_ok cap s s' : gate_ok s -> work cap s s' -> gate_ok s'.
Proof.
  intros [Hle Hlive] Hw. destruct Hw as [s i b g Hi Hn|s i Hi Hs Hc|s i Hi Hs Hc|s i Hi Hs|s i Hi|s i Hi|s i Hi
    |s c rest Hs Hc|s Hs|s g Hs Hg|s Hs]; split; cbn; try done; try lia; intros Hst;
    try (rewrite Hs in Hst; done); try (destruct (Hlive ltac:(congruence)) as (Ho & Hh & Hcl)).
  - unfold notify in Hn. injection Hn as <- <-. split_and!.
    + intros _. cbn. destruct (pending (gate s)) eqn:Ep; cbn.
      * destruct (Ho Ep) as [He|[?|?]]; auto. left. by eapply lookup_not_exists.
      * left. by eapply Exists_inserted.
    + intros Hlt. destruct (pending (gate s)) eqn:Ep; cbn.
      * by eapply hinted_without.
      * left. by eapply Exists_inserted.
    + apply Forall_insert; [done|]. by destruct (negb _).
  - split_and!.
    + intros Hp. right. left. cbn. set_solver.
    + intros _. right. left. cbn. set_solver.
    + by apply Forall_insert.
  - split_and!.
    + intros Hp. left. by eapply Exists_inserted.
    + intros _. left. by eapply Exists_inserted.
    + by apply Forall_insert.
  - split_and!; [by intros ?| |by apply Forall_insert]. intros _. left. by eapply Exists_inserted.
  - split_and!; [|by intros _; right; right; left|by apply Forall_insert].
    intros Hp. destruct (Ho Hp) as [He|[?|?]]; [|by right; left|by right; right].
    left. by eapply lookup_not_exists.
  - rewrite Forall_lookup in Hcl. by specialize (Hcl i _ Hi).
  - split_and!; [| |done].
    + intros Hp. unfold owned in *. cbn in *. destruct c; [by right; right|].
      rewrite Hc in Ho. destruct (Ho Hp) as [?|[?|?]]; [by left|set_solver|congruence].
    + intros Hlt. unfold hinted in *. cbn in *. destruct c; [tauto|].
      rewrite Hc in Hh. destruct (Hh Hlt) as [?|[?|[?|[?|?]]]]; auto; try congruence. set_solver.
  - split_and!; [by intros ?|by intros _; right; right; right; right|done].
  - unfold take_full_delivery in Hg. injection Hg as _ <-.
    split_and!; [|by intros _; right; right; right; right|done].
    intros Hp. destruct (Ho Hp) as [?|[?|?]]; [by left|by right; left|congruence].
  - split_and!; [|lia|done]. intros Hp. destruct (Ho Hp) as [?|[?|?]]; [by left|by right; left|congruence].
Qed.

Lemma event_ok cap s s' : gate_ok s -> event cap s s' -> gate_ok s'.
Proof.
  intros [Hle Hlive] He. destruct He as [s i Hi|s Hc|s Hs]; split; cbn; try done; try lia; intros Hst.
  - destruct (Hlive Hst) as (Ho & Hh & Hcl). split_and!.
    + intros Hp. destruct (Ho Hp) as [?|[?|?]]; [|by right; left|by right; right].
      left. by eapply lookup_not_exists.
    + intros _. left. by eapply Exists_inserted.
    + by apply Forall_insert.
  - destruct (Hlive Hst) as (Ho & Hh & Hcl). split_and!; [| |done].
    + intros Hp. unfold owned in *. cbn. destruct (Ho Hp) as [?|[?|?]]; auto. right. left. set_solver.
    + intros Hlt. unfold hinted in *. cbn. destruct (Hh Hlt) as [?|[?|[?|[?|?]]]]; auto. right. left. set_solver.
Qed.

Lemma reachable_gate_ok cap n s : reachable cap n s -> gate_ok s.
Proof.
  induction 1 as [|s s' _ IH Hw|s s' _ IH He]; [|by eapply work_ok|by eapply event_ok].
  split; cbn; [lia|]. intros _. split_and!; [done|lia|].
  apply Forall_forall. by intros p ->%elem_of_replicate_inv.
Qed.

(** *** Work runs out *)

Definition p_weight (p : publisher) : nat :=
  match p with
  | PIdle => 0 | PPublished => 6 | PMustSend => 5 | PFullTake => 4 | PFullSet => 3 | PClosedTake => 1
  end.
Definition c_weight (c : Command) : nat := match c with FeedWake => 3 | OtherCommand => 1 end.
Definition s_weight (p : shard_pc) : nat :=
  match p with SWake => 2 | SObserve => 1 | _ => 0 end.
Definition sum {A} (f : A -> nat) (l : list A) : nat := foldr (fun x n => (f x + n)%nat) 0%nat l.

(** The atomic operations still to come without new events, at most. *)
Definition work_left (s : state) : nat :=
  (sum p_weight (publishers s) + sum c_weight (channel s) + s_weight (shard s) +
   (if full_retry (gate s) then 2 else 0))%nat.

Lemma sum_app {A} (f : A -> nat) a b : sum f (a ++ b) = (sum f a + sum f b)%nat.
Proof. unfold sum. induction a as [|x a IH]; cbn; [done|]. rewrite IH. lia. Qed.

Lemma sum_insert {A} (f : A -> nat) l i x y :
  l !! i = Some x -> (sum f (<[i := y]> l) + f x = sum f l + f y)%nat.
Proof.
  intros Hi. rewrite <- (take_drop_middle l i x Hi) at 2.
  rewrite insert_take_drop by (by eapply lookup_lt_Some). rewrite !sum_app. unfold sum. cbn. lia.
Qed.

Lemma sum_cons {A} (f : A -> nat) x l : sum f (x :: l) = (f x + sum f l)%nat.
Proof. done. Qed.

Lemma sum_nil {A} (f : A -> nat) : sum f [] = 0%nat.
Proof. done. Qed.

Lemma work_decreases cap s s' : work cap s s' -> (work_left s' < work_left s)%nat.
Proof.
  intros Hw. destruct Hw as [s i b g Hi Hn|s i Hi Hs Hc|s i Hi Hs Hc|s i Hi Hs|s i Hi|s i Hi|s i Hi
    |s c rest Hs Hc|s Hs|s g Hs Hg|s Hs]; unfold work_left; cbn -[sum];
    try (match goal with |- context [set_publisher s i ?y] =>
           pose proof (sum_insert p_weight _ i _ y Hi) as Hsum; unfold set_publisher; cbn -[sum] in Hsum end);
    rewrite ?sum_app, ?sum_cons, ?sum_nil; cbn -[sum]; try lia.
  - injection Hn as <- <-. cbn -[sum]. destruct (pending (gate s)); cbn -[sum] in *; lia.
  - rewrite Hc, Hs, sum_cons. destruct c; cbn -[sum]; lia.
  - rewrite Hs. cbn -[sum]. lia.
  - injection Hg as Hb <-. rewrite Hs, Hb. cbn -[sum]. lia.
  - rewrite Hs. cbn -[sum]. lia.
Qed.

(** *** Work is never stuck while there is some *)

Lemma work_or_quiet cap s :
  (exists s', work cap s s') \/
  (Forall (fun p => p = PIdle) (publishers s) /\
   (shard s = SStopped \/ shard s = SLoop /\ channel s = [] /\ full_retry (gate s) = false)).
Proof.
  destruct (decide (Exists (fun p => delivering p = true) (publishers s))) as [He|Hne].
  - left. apply Exists_exists in He as (p & [i Hi]%list_elem_of_lookup & Hp). destruct p; try done.
    + destruct (notify (gate s)) as [b g] eqn:En. eexists. by eapply w_notify.
    + destruct (decide (shard s = SStopped)); [eexists; by eapply w_send_closed|].
      destruct (decide (length (channel s) < cap)%nat); eexists; [by eapply w_send|eapply w_send_full; eauto; lia].
    + eexists. by eapply w_full_take.
    + eexists. by eapply w_full_set.
    + eexists. by eapply w_closed_take.
  - assert (Hidle : Forall (fun p => p = PIdle) (publishers s)).
    { apply Forall_forall. intros p Hp. destruct p; try done; destruct Hne; apply Exists_exists; by eexists. }
    destruct (shard s) eqn:Es.
    + destruct (channel s) as [|c rest] eqn:Ec; [|left; eexists; by eapply w_recv].
      destruct (full_retry (gate s)) eqn:Ef; [|by right; split; [|right]].
      left. eexists. eapply w_take_full; [done|]. unfold take_full_delivery. by rewrite Ef.
    + left. eexists. by eapply w_take.
    + left. eexists. by eapply w_observe.
    + right. split; [done|]. by left.
Qed.

Lemma work_head cap s s' : rtc (work cap) s s' -> head s' = head s.
Proof. induction 1 as [|s s1 s' Hw _ IH]; [done|]. rewrite IH. by destruct Hw. Qed.

Lemma work_reachable cap n s s' : reachable cap n s -> rtc (work cap) s s' -> reachable cap n s'.
Proof. intros Hr Hs. induction Hs as [|s s1 s' Hw _ IH]; [done|]. apply IH. by eapply r_work. Qed.

Lemma work_bounded cap k s s' : nsteps (work cap) k s s' -> (k <= work_left s)%nat.
Proof.
  induction 1 as [|k s s1 s' Hw _ IH]; [lia|]. pose proof (work_decreases _ _ _ Hw). lia.
Qed.

Lemma work_runs_out cap s :
  exists s', rtc (work cap) s s' /\ forall s'', ~ work cap s' s''.
Proof.
  remember (work_left s) as m eqn:Hm. revert s Hm. induction (lt_wf m) as [m _ IH]. intros s ->.
  destruct (work_or_quiet cap s) as [[s1 Hw]|Hq].
  - destruct (IH _ (work_decreases _ _ _ Hw) s1 eq_refl) as (s' & Hs & Hend).
    exists s'. split; [by eapply rtc_l|done].
  - exists s. split; [done|]. intros s'' Hw. destruct Hq as [Hp Hq]. rewrite Forall_lookup in Hp.
    destruct Hw; try (match goal with Hi : publishers _ !! _ = Some _ |- _ => by specialize (Hp _ _ Hi) end).
    + destruct Hq as [?|(_ & ? & _)]; congruence.
    + destruct Hq as [?|(? & _)]; congruence.
    + destruct Hq as [?|(_ & _ & Hf)]; [congruence|].
      match goal with Hg : take_full_delivery _ = _ |- _ => unfold take_full_delivery in Hg; rewrite Hf in Hg end.
      done.
    + destruct Hq as [?|(? & _)]; congruence.
Qed.

(** *** One publisher *)

(** The wakes that [pending] stands for. *)
Definition wakes (s : state) : nat :=
  (sum (fun p => if owns_pending p then 1 else 0) (publishers s) +
   sum (fun c => match c with FeedWake => 1 | OtherCommand => 0 end) (channel s) +
   match shard s with SWake => 1 | _ => 0 end)%nat.

Definition one_wake (s : state) : Prop :=
  length (publishers s) = 1%nat /\
  (shard s <> SStopped -> wakes s = if pending (gate s) then 1%nat else 0%nat).

Lemma work_one_wake cap s s' :
  Forall (fun p => p <> PClosedTake) (publishers s) \/ shard s = SStopped ->
  one_wake s -> work cap s s' -> one_wake s'.
Proof.
  intros Hcl [Hlen Hw1] Hw. destruct Hw as [s i b g Hi Hn|s i Hi Hs Hc|s i Hi Hs Hc|s i Hi Hs|s i Hi|s i Hi|s i Hi
    |s c rest Hs Hc|s Hs|s g Hs Hg|s Hs]; (split; [cbn; unfold set_publisher; rewrite ?length_insert; done|]);
    cbn -[wakes]; intros Hst; try (rewrite Hs in Hst; done); specialize (Hw1 ltac:(congruence));
    unfold wakes in *; cbn -[sum] in *;
    try (match goal with |- context [set_publisher s i ?y] =>
           pose proof (sum_insert (fun p => if owns_pending p then 1%nat else 0%nat) _ i _ y Hi) as Hsum;
           unfold set_publisher; cbn -[sum] in Hsum end);
    rewrite ?sum_app, ?sum_cons, ?sum_nil.
  - injection Hn as <- <-. cbn -[sum] in *. destruct (pending (gate s)); cbn -[sum] in *; lia.
  - lia.
  - lia.
  - destruct (pending (gate s)); lia.
  - lia.
  - destruct Hcl as [Hcl|?]; [|done]. rewrite Forall_lookup in Hcl. by specialize (Hcl i _ Hi).
  - rewrite Hc, Hs, sum_cons in Hw1. destruct c; cbn -[sum] in *; lia.
  - rewrite Hs in Hw1. cbn -[sum] in *. destruct (pending (gate s)); lia.
  - injection Hg as _ <-. rewrite Hs in Hw1. cbn -[sum] in *. lia.
  - rewrite Hs in Hw1. cbn -[sum] in *. lia.
Qed.

Lemma event_one_wake cap s s' : one_wake s -> event cap s s' -> one_wake s'.
Proof.
  intros [Hlen Hw1] He. destruct He as [s i Hi|s Hc|s Hs];
    (split; [cbn; unfold set_publisher; rewrite ?length_insert; done|]); cbn -[wakes]; intros Hst; try done;
    specialize (Hw1 Hst); unfold wakes in *; cbn -[sum] in *.
  - pose proof (sum_insert (fun p => if owns_pending p then 1%nat else 0%nat) _ i _ PPublished Hi) as Hsum.
    unfold set_publisher. cbn -[sum] in Hsum. lia.
  - rewrite sum_app, sum_cons, sum_nil. lia.
Qed.

Lemma reachable_one_wake cap s : reachable cap 1 s -> one_wake s.
Proof.
  induction 1 as [|s s' Hr IH Hw|s s' _ IH He]; [|eapply work_one_wake; eauto|by eapply event_one_wake].
  - split; [done|]. done.
  - apply reachable_gate_ok in Hr as [_ Hl]. destruct (decide (shard s = SStopped)); [by right|].
    left. by apply Hl.
Qed.

(** ** Properties *)

(** C8: No wake-up is lost, for any number of publishers and any interleaving of their
    atomic operations with the shard's.  From every reachable state the operations under
    way come to an end after at most [work_left] steps, however they are scheduled, and
    when they have, a shard that runs has looked at every publication, also when the
    channel was full. *)
Theorem every_publication_is_seen capacity n s :
  reachable capacity n s ->
  (forall k s', nsteps (work capacity) k s s' -> (k <= work_left s)%nat) /\
  (exists s', rtc (work capacity) s s' /\ forall s'', ~ work capacity s' s'') /\
  (forall s', rtc (work capacity) s s' -> (forall s'', ~ work capacity s' s'') ->
     shard s' = SStopped \/ seen s' = head s).
Proof.
  intros Hr. split_and!; [intros k s'; apply work_bounded|apply work_runs_out|].
  intros s' Hs Hend. pose proof (reachable_gate_ok _ _ _ (work_reachable _ _ _ _ Hr Hs)) as [Hle Hlive].
  rewrite <- (work_head _ _ _ Hs).
  destruct (work_or_quiet capacity s') as [[s'' Hw]|(Hp & [?|(Hl & Hc & Hf)])]; [by destruct (Hend s'')|by left|].
  right. destruct (decide (seen s' = head s')) as [|Hne]; [done|exfalso].
  destruct Hlive as (_ & Hh & _); [congruence|].
  destruct (Hh ltac:(lia)) as [He|[He|[He|[He|He]]]]; [|rewrite Hc in He; by apply not_elem_of_nil in He|congruence..].
  apply Exists_exists in He as (p & Hin & Hd). rewrite Forall_forall in Hp. by rewrite (Hp _ Hin) in Hd.
Qed.

(** With one publisher the gate coalesces: at most one wake is on its way to a running
    shard, from the moment its delivery is owed to the moment the shard clears the gate, and
    [pending] is on exactly then; so other commands find room in the channel. *)
Theorem one_wake_in_flight capacity s :
  reachable capacity 1 s -> shard s <> SStopped ->
  wakes s = (if pending (gate s) then 1 else 0)%nat /\
  (length (filter (fun c => c = FeedWake) (channel s)) <= 1)%nat.
Proof.
  intros Hr%reachable_one_wake Hst. destruct Hr as [_ Hw]. specialize (Hw Hst). split; [done|].
  assert (Hf : length (filter (fun c => c = FeedWake) (channel s)) =
    sum (fun c => match c with FeedWake => 1 | OtherCommand => 0 end)%nat (channel s)).
  { induction (channel s) as [|c l IH]; [done|]. rewrite filter_cons, sum_cons, <- IH.
    by destruct c, (decide _). }
  rewrite Hf. unfold wakes in Hw. destruct (pending (gate s)); lia.
Qed.

(** ** Witnesses *)

(** Two publishers and a channel of one: the second publication finds it full. *)
Definition full_state : state :=
  mk_state {| pending := false; full_retry := true |} [OtherCommand] 1 0 [PIdle; PIdle] SLoop.

Lemma full_state_reachable : reachable 1 2 full_state.
Proof.
  enough (exists s, reachable 1 2 s /\ s = full_state) as (s & Hs & <-) by exact Hs.
  eexists. split; [|shelve]. eapply r_work; [eapply r_work; [eapply r_work; [eapply r_work;
    [eapply r_event; [eapply r_event; [apply r_init|]|]|]|]|]|].
  - apply e_command. cbn. lia.
  - apply (e_publish _ _ 0). reflexivity.
  - apply (w_notify _ _ 0); reflexivity.
  - apply (w_send_full _ _ 0); [reflexivity|done|cbn; lia].
  - apply (w_full_take _ _ 0). reflexivity.
  - apply (w_full_set _ _ 0). reflexivity.
  Unshelve. reflexivity.
Qed.

Lemma every_publication_is_seen_witness :
  reachable 1 2 full_state /\
  exists s', rtc (work 1) full_state s' /\ (shard s' = SStopped \/ seen s' = 1%nat).
Proof.
  split; [apply full_state_reachable|].
  destruct (every_publication_is_seen 1 2 full_state full_state_reachable) as (_ & (s' & Hs & Hend) & Hall).
  exists s'. split; [exact Hs|]. apply Hall; [exact Hs|exact Hend].
Defined.

(** A wake in the channel, and another publication coalesced into it. *)
Definition queued_state : state :=
  mk_state {| pending := true; full_retry := false |} [FeedWake] 2 0 [PIdle] SLoop.

Lemma queued_state_reachable : reachable 2 1 queued_state.
Proof.
  enough (exists s, reachable 2 1 s /\ s = queued_state) as (s & Hs & <-) by exact Hs.
  eexists. split; [|shelve]. eapply r_work; [eapply r_event; [eapply r_work; [eapply r_work;
    [eapply r_event; [apply r_init|]|]|]|]|].
  - apply (e_publish _ _ 0). reflexivity.
  - apply (w_notify _ _ 0); reflexivity.
  - apply (w_send _ _ 0); [reflexivity|done|cbn; lia].
  - apply (e_publish _ _ 0). reflexivity.
  - apply (w_notify _ _ 0); reflexivity.
  Unshelve. reflexivity.
Qed.

Lemma one_wake_in_flight_witness : wakes queued_state = 1%nat.
Proof.
  destruct (one_wake_in_flight 2 queued_state queued_state_reachable ltac:(discriminate)) as [H _].
  exact H.
Defined.
