(* ===== verification/Leaf.v ===== *)
(** * Leaves: policy, commands and visits of the egress fabric

    Models [egress/policy.rs] (limits, stalls and the budget of a visit), [egress/command.rs]
    (what the control plane sends to shards), the state every leaf carries ([egress/leaf.rs]),
    the contract of a protocol engine ([egress/backend.rs]) and one scheduled visit of a leaf
    ([egress/visit.rs]).

    An engine is an argument of the visit: a function that may move the leaf's cursor, and
    that may panic ([None]).  Clocks are arguments.  The counters a leaf shares with the
    application for its status are left out. *)

From S2P Require Import Prelude Bits Annexb Media FrameUnits Ring Reader LeafArena ReadyQueue Feed.

(** ** Policy *)

(** Durations in nanoseconds. *)
Record LeafPolicy := {
  max_feed_lag_units : Z;
  no_progress_timeout : Z;
  resolve_timeout : Z;
  connect_timeout : Z;
  handshake_timeout : Z }.

Definition secs (n : Z) : Z := n * 1000000000.

Definition LeafPolicy_default : LeafPolicy :=
  {| max_feed_lag_units := 300; no_progress_timeout := secs 15; resolve_timeout := secs 5;
     connect_timeout := secs 30; handshake_timeout := secs 10 |}.

Record LeafLimits := { max_lag_units : Z; max_backpressure_duration : Z }.

Definition from_policy (policy : LeafPolicy) : LeafLimits :=
  {| max_lag_units := max_feed_lag_units policy;
     max_backpressure_duration := no_progress_timeout policy |}.

Inductive LeafStallClass := Idle | Backpressured | Stalled.

Definition classify_stall (pending_bytes age_since_progress lag_units : Z) (limits : LeafLimits)
    : LeafStallClass :=
  if pending_bytes =? 0 then Idle
  else if max_lag_units limits <? lag_units then Stalled
  else if max_backpressure_duration limits <=? age_since_progress then Stalled
  else Backpressured.

(** *** The budget of a visit *)

Record WorkBudget := {
  wb_max_units : Z;
  wb_max_bytes : Z;
  deadline : Z;
  spent_units : Z;
  spent_bytes : Z }.

Definition WorkBudget_new (units bytes now duration : Z) : WorkBudget :=
  {| wb_max_units := Z.max units 1; wb_max_bytes := bytes; deadline := now + duration;
     spent_units := 0; spent_bytes := 0 |}.

Definition debit_bytes (bytes : Z) (b : WorkBudget) : WorkBudget :=
  {| wb_max_units := wb_max_units b; wb_max_bytes := wb_max_bytes b; deadline := deadline b;
     spent_units := spent_units b; spent_bytes := sat_u 64 (spent_bytes b + bytes) |}.

Definition debit_unit (b : WorkBudget) : WorkBudget :=
  {| wb_max_units := wb_max_units b; wb_max_bytes := wb_max_bytes b; deadline := deadline b;
     spent_units := sat_u 64 (spent_units b + 1); spent_bytes := spent_bytes b |}.

Definition is_exhausted (now : Z) (b : WorkBudget) : bool :=
  (wb_max_units b <=? spent_units b) || (wb_max_bytes b <=? spent_bytes b) || (deadline b <=? now).

Definition remaining_bytes (b : WorkBudget) : Z := sat_u 64 (wb_max_bytes b - spent_bytes b).

Record WorkBudgetConfig := { cfg_max_units : Z; cfg_max_bytes : Z; window : Z }.
Definition new_visit (now : Z) (c : WorkBudgetConfig) : WorkBudget :=
  WorkBudget_new (cfg_max_units c) (cfg_max_bytes c) now (window c).

(** ** Commands *)

Abbreviation OutputId := string.
Abbreviation ShardId := nat.

Inductive ProtocolSpec :=
  | PRtmp (url : string) (tls : bool)
  | PSrt (url : string)
  | PSink
  | PHlsPut (url : string)
  | PPipeline (target_pipeline_id target_input_id : string)
  | PMoq (url : string).

Record OutputSpec := {
  os_id : OutputId;
  os_generation : Z;
  os_feed : string;
  os_protocol : ProtocolSpec;
  os_policy : LeafPolicy }.

Inductive EgressCommand :=
  | Add (spec : OutputSpec)
  | Update (spec : OutputSpec)
  | Remove (id : OutputId)
  | Abandon (id : OutputId)
  | FeedWake
  | DrainShard (shard : ShardId)
  | Shutdown.

Definition command_output_id (c : EgressCommand) : option OutputId :=
  match c with
  | Add s | Update s => Some (os_id s)
  | Remove id | Abandon id => Some id
  | FeedWake | DrainShard _ | Shutdown => None
  end.

(** ** The leaf *)

Record ProgressState := {
  last_byte_progress : option Z;
  last_protocol_progress : option Z;
  total_bytes_sent : Z;
  total_units_sent : Z;
  total_bytes_discarded : Z;
  total_units_discarded : Z;
  resync_count : Z;
  overrun_count : Z }.

Definition ProgressState_new : ProgressState :=
  {| last_byte_progress := None; last_protocol_progress := None; total_bytes_sent := 0;
     total_units_sent := 0; total_bytes_discarded := 0; total_units_discarded := 0;
     resync_count := 0; overrun_count := 0 |}.

Definition record_send (now bytes units : Z) (p : ProgressState) : ProgressState :=
  {| last_byte_progress := if 0 <? bytes then Some now else last_byte_progress p;
     last_protocol_progress := if 0 <? units then Some now else last_protocol_progress p;
     total_bytes_sent :=
       if 0 <? bytes then sat_u 64 (total_bytes_sent p + bytes) else total_bytes_sent p;
     total_units_sent :=
       if 0 <? units then sat_u 64 (total_units_sent p + units) else total_units_sent p;
     total_bytes_discarded := total_bytes_discarded p;
     total_units_discarded := total_units_discarded p;
     resync_count := resync_count p; overrun_count := overrun_count p |}.

Definition record_discard (now bytes units : Z) (p : ProgressState) : ProgressState :=
  {| last_byte_progress := if 0 <? bytes then Some now else last_byte_progress p;
     last_protocol_progress := if 0 <? units then Some now else last_protocol_progress p;
     total_bytes_sent := total_bytes_sent p; total_units_sent := total_units_sent p;
     total_bytes_discarded :=
       if 0 <? bytes then sat_u 64 (total_bytes_discarded p + bytes) else total_bytes_discarded p;
     total_units_discarded :=
       if 0 <? units then sat_u 64 (total_units_discarded p + units) else total_units_discarded p;
     resync_count := resync_count p; overrun_count := overrun_count p |}.

Definition record_overrun (p : ProgressState) : ProgressState :=
  {| last_byte_progress := last_byte_progress p; last_protocol_progress := last_protocol_progress p;
     total_bytes_sent := total_bytes_sent p; total_units_sent := total_units_sent p;
     total_bytes_discarded := total_bytes_discarded p;
     total_units_discarded := total_units_discarded p;
     resync_count := resync_count p; overrun_count := sat_u 32 (overrun_count p + 1) |}.

Record LeafCommon := {
  output_id : OutputId;
  lc_generation : Z;
  lc_feed : string;
  cursor : FeedCursor;
  cursor_primed : bool;
  schedule : ScheduleState;
  progress : ProgressState;
  limits : LeafLimits;
  pending_application_bytes : Z }.

(** The placeholder cursor [(0, 0)] is replaced on the first visit. *)
Definition LeafCommon_new (id : OutputId) (generation : Z) (feed : string) (lim : LeafLimits)
    : LeafCommon :=
  {| output_id := id; lc_generation := generation; lc_feed := feed;
     cursor := FeedCursor_new 0 0; cursor_primed := false; schedule := ScheduleState_new;
     progress := ProgressState_new; limits := lim; pending_application_bytes := 0 |}.

Definition is_current_generation (generation : Z) (c : LeafCommon) : bool :=
  lc_generation c =? generation.

(** Updates of the fields a visit writes. *)
Definition set_cursor (fc : FeedCursor) (c : LeafCommon) : LeafCommon :=
  {| output_id := output_id c; lc_generation := lc_generation c; lc_feed := lc_feed c;
     cursor := fc; cursor_primed := cursor_primed c; schedule := schedule c;
     progress := progress c; limits := limits c;
     pending_application_bytes := pending_application_bytes c |}.
Definition set_primed (c : LeafCommon) : LeafCommon :=
  {| output_id := output_id c; lc_generation := lc_generation c; lc_feed := lc_feed c;
     cursor := cursor c; cursor_primed := true; schedule := schedule c;
     progress := progress c; limits := limits c;
     pending_application_bytes := pending_application_bytes c |}.
Definition set_schedule (s : ScheduleState) (c : LeafCommon) : LeafCommon :=
  {| output_id := output_id c; lc_generation := lc_generation c; lc_feed := lc_feed c;
     cursor := cursor c; cursor_primed := cursor_primed c; schedule := s;
     progress := progress c; limits := limits c;
     pending_application_bytes := pending_application_bytes c |}.
Definition set_progress (p : ProgressState) (c : LeafCommon) : LeafCommon :=
  {| output_id := output_id c; lc_generation := lc_generation c; lc_feed := lc_feed c;
     cursor := cursor c; cursor_primed := cursor_primed c; schedule := schedule c;
     progress := p; limits := limits c;
     pending_application_bytes := pending_application_bytes c |}.

(** ** Protocol engines *)

Record Readiness := { readable : bool; writable : bool }.
Definition WRITABLE : Readiness := {| readable := false; writable := true |}.

Record Interest := { i_readable : bool; i_writable : bool }.
Definition Interest_NONE : Interest := {| i_readable := false; i_writable := false |}.

Inductive WaitCondition := WFeed | WIo (interest : Interest) | WFeedOrIo (interest : Interest).

Definition io_interest (w : WaitCondition) : Interest :=
  match w with
  | WFeed => Interest_NONE
  | WIo interest | WFeedOrIo interest => interest
  end.

Definition wants_feed (w : WaitCondition) : bool :=
  match w with WFeed | WFeedOrIo _ => true | WIo _ => false end.

Record ProtocolFailure := { reason : string; retryable : bool }.

Inductive EngineProgress :=
  | Progress (bytes units : Z) (wait : WaitCondition)
  | Needs (wait : WaitCondition)
  | HandshakeComplete
  | FeedOverrun
  | PeerClosed
  | Failed (failure : ProtocolFailure)
  | Yield.

Inductive VisitDecision := Continue | Suspend | Close.

Inductive EngineVisitResult :=
  | StaleGeneration
  | Visited (prog : EngineProgress) (decision : VisitDecision).

(** ** A visit *)

Section visit.
(** The feed: its ring at the time of each load, and its epoch. *)
Context (ring_at : nat -> RingBuffer) (epoch_at : nat -> Z).

Definition live_start (t : nat) : nat * FeedCursor := live_start_cursor ring_at t (epoch_at t).

Definition feed_wake_wanted (p : EngineProgress) : bool :=
  match p with
  | Progress _ _ wait | Needs wait => wants_feed wait
  | HandshakeComplete | FeedOverrun | PeerClosed | Failed _ | Yield => false
  end.

Definition set_wants_feed_wake (b : bool) (s : ScheduleState) : ScheduleState :=
  {| deficit_bytes := deficit_bytes s; last_service_at := last_service_at s;
     wants_feed_wake := b; feed_wake_queued := feed_wake_queued s |}.

Definition serviced (now : Z) (c : LeafCommon) : LeafCommon :=
  set_schedule (mark_serviced now (schedule c)) c.

Definition apply_progress_to_common (t : nat) (now : Z) (p : EngineProgress) (c : LeafCommon)
    : nat * LeafCommon * VisitDecision :=
  let c := set_schedule (set_wants_feed_wake (feed_wake_wanted p) (schedule c)) c in
  match p with
  | Progress bytes units _ =>
      (t, serviced now (set_progress (record_send now bytes units (progress c)) c), Continue)
  | Needs _ => (t, serviced now c, Suspend)
  | HandshakeComplete =>
      let '(t, fc) := live_start t in (t, serviced now (set_cursor fc c), Continue)
  | FeedOverrun =>
      let c := set_progress (record_overrun (progress c)) c in
      let '(t, fc) := live_start t in (t, set_cursor fc c, Continue)
  | Failed _ | PeerClosed => (t, c, Close)
  | Yield => (t, c, Continue)
  end.

(** [advance] is the engine's own step on its state [E]: [None] is a panic, caught here. *)
Definition engine_panic : EngineProgress := Failed {| reason := "engine_panic"; retryable := true |}.

Definition visit_leaf {E : Type} (generation : Z) (t : nat) (now : Z) (readiness : Readiness)
    (budget : WorkBudget)
    (advance : E -> nat -> FeedCursor -> Readiness -> WorkBudget ->
               E * nat * FeedCursor * option EngineProgress)
    (engine : E) (c : LeafCommon) : nat * E * LeafCommon * EngineVisitResult :=
  if negb (is_current_generation generation c) then (t, engine, c, StaleGeneration)
  else
    let '(t, c) :=
      if cursor_primed c then (t, c)
      else let '(t, fc) := live_start t in (t, set_primed (set_cursor fc c)) in
    let '(engine, t, fc, outcome) := advance engine t (cursor c) readiness budget in
    let c := set_cursor fc c in
    let prog := match outcome with Some p => p | None => engine_panic end in
    let '(t, c, decision) := apply_progress_to_common t now prog c in
    (t, engine, c, Visited prog decision).
End visit.

(** ** Lemmas *)

(** A visit that takes work only while the budget is not exhausted, and no more than
    [remaining_bytes] at a time. *)
Fixpoint spend (wanted : list (Z * Z)) (b : WorkBudget) : list Z * WorkBudget :=
  match wanted with
  | [] => ([], b)
  | (now, bytes) :: rest =>
      if is_exhausted now b then ([], b)
      else
        let taken := Z.min bytes (remaining_bytes b) in
        let '(l, b') := spend rest (debit_unit (debit_bytes taken b)) in
        (taken :: l, b')
  end.

Definition sum_list (l : list Z) : Z := foldr Z.add 0 l.

Definition budget_ok (b : WorkBudget) : Prop :=
  1 <= wb_max_units b < 2 ^ 64 /\ 0 <= wb_max_bytes b < 2 ^ 64 /\
  0 <= spent_units b <= wb_max_units b /\ 0 <= spent_bytes b <= wb_max_bytes b.

Lemma spend_ok wanted b l b' :
  budget_ok b -> Forall (fun w => 0 <= w.2) wanted -> spend wanted b = (l, b') ->
  budget_ok b' /\ spent_units b' = spent_units b + zlen l /\
  spent_bytes b' = spent_bytes b + sum_list l /\
  wb_max_units b' = wb_max_units b /\ wb_max_bytes b' = wb_max_bytes b.
Proof.
  intros Hb Hw. revert b l Hb. induction wanted as [|[now bytes] rest IH]; intros b l Hb; cbn [spend].
  { intros [= <- <-]. unfold zlen. cbn. split_and!; try done; lia. }
  inversion_clear Hw as [|? ? Hpos Hrest]. cbn in Hpos.
  destruct (is_exhausted now b) eqn:Ee.
  { intros [= <- <-]. unfold zlen. cbn. split_and!; try done; lia. }
  unfold is_exhausted in Ee. bool_to_prop. destruct Hb as (B1 & B2 & B3 & B4).
  set (taken := Z.min bytes (remaining_bytes b)).
  assert (Ht : 0 <= taken <= wb_max_bytes b - spent_bytes b).
  { unfold taken, remaining_bytes, sat_u. lia. }
  destruct (spend rest _) as [l' b''] eqn:E. intros [= <- <-].
  assert (E1 : spent_bytes (debit_unit (debit_bytes taken b)) = spent_bytes b + taken)
    by (cbn; unfold sat_u; lia).
  assert (E2 : spent_units (debit_unit (debit_bytes taken b)) = spent_units b + 1)
    by (cbn; unfold sat_u; lia).
  apply IH in E as (Hok & Hu & Hby & Hmu & Hmb); [|done|].
  - split; [done|]. rewrite Hu, Hby, E1, E2. change (sum_list (taken :: l')) with (taken + sum_list l').
    unfold zlen. cbn [length]. split_and!; try done; lia.
  - unfold budget_ok. rewrite E1, E2. cbn. lia.
Qed.

(** Neither identity nor policy of a leaf changes in a visit. *)
Lemma apply_progress_keeps ring_at epoch_at t now p c t' c' d :
  apply_progress_to_common ring_at epoch_at t now p c = (t', c', d) ->
  output_id c' = output_id c /\ lc_generation c' = lc_generation c /\ lc_feed c' = lc_feed c /\
  limits c' = limits c /\ cursor_primed c' = cursor_primed c.
Proof.
  unfold apply_progress_to_common. destruct p; try (destruct (live_start _ _ _) as [? ?]);
    intros [= <- <- <-]; done.
Qed.

Lemma visit_leaf_keeps {E} ring_at epoch_at g t now r b adv (e : E) c t' e' c' res :
  visit_leaf ring_at epoch_at g t now r b adv e c = (t', e', c', res) ->
  output_id c' = output_id c /\ lc_generation c' = lc_generation c /\ lc_feed c' = lc_feed c /\
  limits c' = limits c.
Proof.
  unfold visit_leaf. destruct (negb _); [by intros [= <- <- <- <-]|].
  set (start := if cursor_primed c then _ else _).
  assert (Hs : output_id start.2 = output_id c /\ lc_generation start.2 = lc_generation c /\
    lc_feed start.2 = lc_feed c /\ limits start.2 = limits c).
  { unfold start. destruct (cursor_primed c); [done|]. by destruct (live_start _ _ _). }
  destruct start as [t1 c1]. cbn in Hs. destruct (adv e t1 _ r b) as [[[e1 t2] fc] o].
  destruct (apply_progress_to_common _ _ _ _ _ _) as [[t3 c3] d] eqn:Ea.
  intros [= <- <- <- <-]. apply apply_progress_keeps in Ea as (-> & -> & -> & -> & _). done.
Qed.
