(* ===== verification/SinkShard.v ===== *)
(** * The sink shard ([egress/backends/sink_shard.rs], [egress/backends/sink.rs])

    The backend of outputs that discard what they are sent, the smallest that puts the parts
    of the fabric together: leaves in the arena ([LeafArena]), the ready queue
    ([ReadyQueue]), visits ([Leaf]) and feed reads ([Feed]).  Every handler of the backend is
    here; its delivery statistics are left out.  [closed] counts the engines that were closed.

    [ring_at], [epoch_at] and [clock] are the feed and the clock at the time of each load. *)

From S2P Require Import Prelude Bits Annexb Media FrameUnits Ring Reader LeafArena ReadyQueue Feed Leaf.

(** ** The sink engine *)

Record SinkTransport := { discarded_bytes : Z; discarded_units : Z; close_count : Z }.
Definition SinkTransport_default : SinkTransport :=
  {| discarded_bytes := 0; discarded_units := 0; close_count := 0 |}.

Definition sink_record_discard (bytes units : Z) (tr : SinkTransport) : SinkTransport :=
  {| discarded_bytes := sat_u 64 (discarded_bytes tr + bytes);
     discarded_units := sat_u 64 (discarded_units tr + units); close_count := close_count tr |}.
Definition sink_close (tr : SinkTransport) : SinkTransport :=
  {| discarded_bytes := discarded_bytes tr; discarded_units := discarded_units tr;
     close_count := sat_u 32 (close_count tr + 1) |}.

Record SinkFabricLeaf := { common : LeafCommon; transport : SinkTransport }.

Definition MEDIA_TICK_VISIT_BUDGET : nat := 256.

Section backend.
Context (ring_at : nat -> RingBuffer) (epoch_at clock : nat -> Z).

Definition sink_advance (tr : SinkTransport) (t : nat) (fc : FeedCursor) (_ : Readiness)
    (budget : WorkBudget) : SinkTransport * nat * FeedCursor * option EngineProgress :=
  let read_budget := mk_ReadBudget (Z.to_nat (wb_max_units budget)) (wb_max_bytes budget) in
  let '(t, _, read) := read_from ring_at (fun p => p) t (epoch_at t) 0 fc read_budget in
  match read with
  | FUnits units next =>
      let bytes := foldr (fun p n => zlen (payload p) + n) 0 units in
      (sink_record_discard bytes (zlen units) tr, t, next, Some (Progress bytes (zlen units) WFeed))
  | FEmpty => (tr, t, fc, Some (Needs WFeed))
  | FOverrun _ | FEpochMismatch _ => (tr, t, fc, Some FeedOverrun)
  end.

(** [SinkFabricLeaf::visit_ready] *)
Definition visit_ready (t : nat) (budget : WorkBudget) (leaf : SinkFabricLeaf)
    : nat * SinkFabricLeaf * EngineVisitResult :=
  let '(t, tr, c, res) :=
    visit_leaf ring_at epoch_at (lc_generation (common leaf)) t (clock t) WRITABLE budget
      sink_advance (transport leaf) (common leaf) in
  (t, {| common := c; transport := tr |}, res).

(** ** The backend *)

Record SinkShardBackend := mk_backend {
  budget_config : WorkBudgetConfig;
  leaves : LeafArena SinkFabricLeaf;
  output_leaves : gmap OutputId LeafKey;
  ready : ReadyQueue;
  closed : nat }.

Definition sink_new (config : WorkBudgetConfig) (leaf_capacity : nat) : SinkShardBackend :=
  mk_backend config (LeafArena.with_capacity leaf_capacity) ∅ (rq_with_capacity leaf_capacity) 0.

Definition enqueue (k : LeafKey) (b : SinkShardBackend) : SinkShardBackend :=
  match LeafArena.get (leaves b) k with
  | Some _ => mk_backend (budget_config b) (leaves b) (output_leaves b) (ReadyQueue.push k (ready b)).2 (closed b)
  | None => b
  end.

Definition remove_leaf_key (k : LeafKey) (b : SinkShardBackend) : SinkShardBackend :=
  let '(leaf, arena) := LeafArena.remove k (leaves b) in
  mk_backend (budget_config b) arena (output_leaves b) (rq_remove k (ready b))
    (match leaf with Some _ => S (closed b) | None => closed b end).

Definition remove_leaf_by_output (id : OutputId) (b : SinkShardBackend) : SinkShardBackend :=
  match output_leaves b !! id with
  | Some k => remove_leaf_key k
      (mk_backend (budget_config b) (leaves b) (delete id (output_leaves b)) (ready b) (closed b))
  | None => b
  end.

Definition new_leaf (spec : OutputSpec) : SinkFabricLeaf :=
  {| common := LeafCommon_new (os_id spec) (os_generation spec) (os_feed spec)
                 (from_policy (os_policy spec));
     transport := SinkTransport_default |}.

(** [false] when the output was rejected ([mark_terminated_unexpectedly]). *)
Definition add_leaf (spec : OutputSpec) (b : SinkShardBackend) : bool * SinkShardBackend :=
  let previous := output_leaves b !! os_id spec in
  if bool_decide (previous = None) && LeafArena.is_full (leaves b) then (false, b)
  else
    let b := match previous with Some k => remove_leaf_key k b | None => b end in
    match LeafArena.insert_with (fun _ => new_leaf spec) (leaves b) with
    | (None, arena) => (false, mk_backend (budget_config b) arena (output_leaves b) (ready b) (closed b))
    | (Some k, arena) =>
        (true, enqueue k (mk_backend (budget_config b) arena (<[os_id spec := k]> (output_leaves b))
                            (ready b) (closed b)))
    end.

Definition enqueue_all_leaves (b : SinkShardBackend) : SinkShardBackend :=
  mk_backend (budget_config b) (leaves b) (output_leaves b)
    (fold_left (fun q '(k, _) => (ReadyQueue.push k q).2) (LeafArena.iter (leaves b)) (ready b))
    (closed b).

(** One turn of [drain_ready_leaves] on a popped key: the leaf's visit and what follows. *)
Definition visit_key (k : LeafKey) (leaf : SinkFabricLeaf) (t : nat) (b : SinkShardBackend)
    : nat * SinkShardBackend :=
  let '(t, leaf', result) := visit_ready t (new_visit (clock t) (budget_config b)) leaf in
  let b := mk_backend (budget_config b) (LeafArena.modify k (fun _ => leaf') (leaves b))
             (output_leaves b) (ready b) (closed b) in
  let decision := match result with StaleGeneration => Suspend | Visited _ d => d end in
  (t, match decision with
      | Continue => enqueue k b
      | Suspend => b
      | Close =>
          remove_leaf_key k
            (mk_backend (budget_config b) (leaves b)
               (filter (fun p => p.2 <> k) (output_leaves b)) (ready b) (closed b))
      end).

(** The loop, with the keys it visited. *)
Fixpoint drain_ready_loop (n : nat) (t : nat) (b : SinkShardBackend)
    : nat * list LeafKey * SinkShardBackend :=
  match n with
  | O => (t, [], b)
  | S n' =>
      let '(popped, q) := ReadyQueue.pop (ready b) in
      let b := mk_backend (budget_config b) (leaves b) (output_leaves b) q (closed b) in
      match popped with
      | None => (t, [], b)
      | Some k =>
          match LeafArena.get (leaves b) k with
          | None => drain_ready_loop n' t b
          | Some leaf =>
              let '(t, b) := visit_key k leaf t b in
              let '(t, visited, b) := drain_ready_loop n' t b in
              (t, k :: visited, b)
          end
      end
  end.

Definition drain_ready_leaves (t : nat) (b : SinkShardBackend) : nat * list LeafKey * SinkShardBackend :=
  drain_ready_loop MEDIA_TICK_VISIT_BUDGET t b.

(** The handlers; all return [Continue]. *)
Definition sink_on_command (c : EgressCommand) (b : SinkShardBackend) : SinkShardBackend :=
  match c with
  | Add spec | Update spec =>
      match os_protocol spec with PSink => (add_leaf spec b).2 | _ => b end
  | Remove id | Abandon id => remove_leaf_by_output id b
  | FeedWake => enqueue_all_leaves b
  | DrainShard _ | Shutdown => b
  end.

Definition sink_on_shutdown (b : SinkShardBackend) : SinkShardBackend :=
  let '(drained, arena) := LeafArena.drain (leaves b) in
  mk_backend (budget_config b) arena ∅ (rq_clear (ready b)) (closed b + length drained)%nat.
End backend.

(** ** The invariant *)

(** The arena stands for the map [s], which has no reserved slots; outputs name their
    leaves and no leaf is without its output; only live keys are queued, each once, and
    the queue has room for every leaf. *)
Record sink_inv (n : Z) (s : Spec SinkFabricLeaf) (b : SinkShardBackend) : Prop := {
  si_arena : refines n (leaves b) s;
  si_issued : forall k, is_Some (sp_live s !! k) -> k ∈ sp_issued s;
  si_filled : forall k, sp_live s !! k <> Some None;
  si_outputs : forall o k, output_leaves b !! o = Some k <->
    exists leaf, sp_live s !! k = Some (Some leaf) /\ output_id (common leaf) = o;
  si_queue : queue_ok (ready b);
  si_ready : forall k, k ∈ order (ready b) -> contains (ready b) k = true /\ is_Some (sp_live s !! k);
  si_room : (length (slots (leaves b)) <= rq_capacity (ready b))%nat }.

Definition with_ready (b : SinkShardBackend) (q : ReadyQueue) : SinkShardBackend :=
  mk_backend (budget_config b) (leaves b) (output_leaves b) q (closed b).

Lemma live_slot_inj n a (s : Spec SinkFabricLeaf) k k' :
  refines n a s -> is_Some (sp_live s !! k) -> is_Some (sp_live s !! k') -> slot k = slot k' -> k = k'.
Proof.
  intros R. rewrite !(rf_live _ _ _ R). intros [v Hv] [v' Hv'] Hs.
  apply live_of_Some in Hv as (e & He & Hep & _). apply live_of_Some in Hv' as (e' & He' & Hep' & _).
  rewrite Hs in He. destruct k, k'; cbn in *; congruence.
Qed.

Lemma order_is_queued n s b : sink_inv n s b -> queued (ready b) = order (ready b).
Proof.
  intros I. apply filter_all, Forall_forall. intros k Hk. by eapply si_ready.
Qed.

(** A live key always finds room. *)
Lemma push_live n s b k :
  sink_inv n s b -> is_Some (sp_live s !! k) ->
  sink_inv n s (with_ready b (ReadyQueue.push k (ready b)).2) /\
  queued (ReadyQueue.push k (ready b)).2 =
    (if decide (k ∈ queued (ready b)) then queued (ready b) else queued (ready b) ++ [k]).
Proof.
  intros I Hk. pose proof (order_is_queued _ _ _ I) as Hoq. pose proof I as [R I2 I3 I4 Q I6 I7].
  destruct (ReadyQueue.push k (ready b)) as [p q'] eqn:Ep. cbn [snd].
  pose proof (push_spec _ _ _ _ Q ltac:(intros Hin; by apply I6) Ep) as [Q' Hp].
  destruct p.
  - destruct Hp as (Hn & _ & Hq).
    assert (Hother : filter (fun k' => slot k' <> slot k) (queued (ready b)) = queued (ready b)).
    { apply filter_all, Forall_forall. intros k' Hk' Hs. apply Hn.
      rewrite Hoq in Hk'. by rewrite <- (live_slot_inj _ _ _ k' k R ltac:(by apply I6) Hk Hs), Hoq. }
    rewrite Hother in Hq. rewrite decide_False, Hq by done. split; [|done].
    assert (Ho : order q' = order (ready b) ++ [k]).
    { unfold ReadyQueue.push in Ep. destruct (contains _ _); [done|]. destruct (_ <=? _)%nat; [done|].
      by injection Ep as <-. }
    assert (Hcap : rq_capacity q' = rq_capacity (ready b)).
    { unfold ReadyQueue.push in Ep. destruct (contains _ _); [done|]. destruct (_ <=? _)%nat; [done|].
      by injection Ep as <-. }
    split; cbn; auto.
    + intros k' Hk'. assert (Hin : k' ∈ queued q') by (rewrite Hq, Hoq, <- Ho; done).
      split; [by apply contains_queued|]. rewrite Ho in Hk'.
      apply elem_of_app in Hk' as [Hk'|Hk'%list_elem_of_singleton]; [by apply I6|by subst].
    + by rewrite Hcap.
  - destruct Hp as [Hin ->]. rewrite decide_True by done. split; [|done]. by destruct b.
  - exfalso. destruct Hp as (Hn & Hfull & _). rewrite Hoq in Hn.
    assert (Hlt : (S (length (order (ready b))) <= size (sp_live s))%nat).
    { rewrite <- length_map_to_list, <- (length_map fst).
      change (length (k :: order (ready b)) <= length (map fst (map_to_list (sp_live s))))%nat.
      apply submseteq_length, NoDup_submseteq.
      - constructor; [done|]. rewrite <- Hoq. apply Q.
      - intros k' Hk'. assert (is_Some (sp_live s !! k')) as [v Hv].
        { apply elem_of_cons in Hk' as [->|Hk']; [done|by apply I6]. }
        apply list_elem_of_fmap. exists (k', v). split; [done|]. by apply elem_of_map_to_list. }
    pose proof (rf_count _ _ _ R). lia.
Qed.

Lemma get_live n s b k :
  sink_inv n s b -> LeafArena.get (leaves b) k = mjoin (sp_live s !! k).
Proof. intros I. by rewrite (refines_get _ _ _ _ (si_arena _ _ _ I)). Qed.

Lemma get_is_live n s b k leaf :
  sink_inv n s b -> LeafArena.get (leaves b) k = Some leaf <-> sp_live s !! k = Some (Some leaf).
Proof.
  intros I. rewrite (get_live _ _ _ _ I). destruct (sp_live s !! k) as [[v|]|] eqn:E; cbn.
  - split; congruence.
  - by destruct (si_filled _ _ _ I k).
  - done.
Qed.

Lemma enqueue_ok n s b k :
  sink_inv n s b -> sink_inv n s (enqueue k b) /\
  queued (ready (enqueue k b)) =
    (if decide (is_Some (sp_live s !! k) /\ k ∉ queued (ready b)) then queued (ready b) ++ [k]
     else queued (ready b)).
Proof.
  intros I. unfold enqueue. destruct (LeafArena.get (leaves b) k) as [leaf|] eqn:E.
  - apply (get_is_live _ _ _ _ _ I) in E. destruct (push_live _ _ _ _ I ltac:(by eexists)) as [I' Hq].
    split; [done|]. cbn [ready]. rewrite Hq. destruct (decide (k ∈ queued (ready b))).
    + rewrite decide_False; [done|]. tauto.
    + rewrite decide_True; [done|]. split; [by eexists|done].
  - split; [done|]. rewrite decide_False; [done|]. intros [[[v|] Hv] _].
    + apply (get_is_live _ _ _ _ _ I) in Hv. congruence.
    + by eapply si_filled.
Qed.

(** The queue loses nothing but the key when a leaf goes. *)
Lemma remove_ok n s b k :
  n + 1 < 2 ^ 32 -> sink_inv n s b -> is_Some (sp_live s !! k) ->
  forall outs,
  (forall o k', outs !! o = Some k' <-> output_leaves b !! o = Some k' /\ k' <> k) ->
  sink_inv (n + 1) (sp_delete s k)
    (remove_leaf_key k (mk_backend (budget_config b) (leaves b) outs (ready b) (closed b))) /\
  queued (ready (remove_leaf_key k (mk_backend (budget_config b) (leaves b) outs (ready b) (closed b)))) =
    filter (fun k' => k' <> k) (queued (ready b)).
Proof.
  intros Hn I Hk outs Houts. pose proof I as [R I2 I3 I4 Q I6 I7].
  destruct (remove_sim _ _ _ k R (I2 k Hk) Hn) as [_ R'].
  destruct (remove_spec _ k Q) as [Q' Hq]. unfold remove_leaf_key. cbn [leaves ready output_leaves budget_config closed].
  destruct (LeafArena.remove k (leaves b)) as [leaf arena] eqn:Er. cbn [snd] in R'. split; [|exact Hq].
  split; cbn; auto.
  - intros k' [v [_ Hv]%lookup_delete_Some]. apply I2. by eexists.
  - intros k' [_ Hv]%lookup_delete_Some. by eapply I3.
  - intros o k'. rewrite Houts, I4. split.
    + intros [(leaf' & Hl & Ho) Hne]. exists leaf'. by rewrite lookup_delete_ne.
    + intros (leaf' & [Hne Hl]%lookup_delete_Some & Ho). split; [eauto|congruence].
  - intros k' Hk'. unfold rq_remove in *. destruct (contains (ready b) k) eqn:Ec.
    + cbn in Hk'. apply list_elem_of_filter in Hk' as [Hne Hk']. destruct (I6 k' Hk') as [Hc Hl].
      split; [|by rewrite lookup_delete_ne].
      apply contains_queued; [done|]. rewrite Hq. apply list_elem_of_filter. split; [done|].
      by apply contains_queued.
    + destruct (I6 k' Hk') as [Hc Hl]. split; [done|]. rewrite lookup_delete_ne; [done|]. congruence.
  - assert (length (slots arena) = length (slots (leaves b))) as ->.
    { pose proof (rf_cap _ _ _ R'). pose proof (rf_cap _ _ _ R). cbn in *. lia. }
    unfold rq_remove. by destruct (contains _ _).
Qed.

Lemma sink_inv_le n n' s b : n <= n' -> sink_inv n s b -> sink_inv n' s b.
Proof.
  intros Hle [[R1 R2 R3 R4 R5 R6 R7 R8] I2 I3 I4 Q I6 I7]. split; auto. split; auto.
  intros i e He. specialize (R3 i e He). lia.
Qed.

(** A leaf's own state changes. *)
Lemma set_leaf_ok n s b k leaf leaf' :
  sink_inv n s b -> sp_live s !! k = Some (Some leaf) ->
  output_id (common leaf') = output_id (common leaf) ->
  sink_inv n (sp_set s k (Some leaf'))
    (mk_backend (budget_config b) (LeafArena.modify k (fun _ => leaf') (leaves b)) (output_leaves b)
       (ready b) (closed b)).
Proof.
  intros I Hk Ho. pose proof I as [R I2 I3 I4 Q I6 I7].
  assert (Hg : LeafArena.get (leaves b) k = Some leaf) by (by eapply get_is_live).
  pose proof (modify_sim _ _ _ k (fun _ => leaf') leaf R (I2 k ltac:(by eexists)) Hg) as R'.
  split; cbn; auto.
  - intros k' Hk'. destruct (decide (k' = k)) as [->|Hne]; [set_solver|].
    rewrite lookup_insert_ne in Hk' by done. apply elem_of_union_r. by apply I2.
  - intros k'. rewrite lookup_insert_Some. intros [[_ ?]|[_ ?]]; [done|]. by eapply I3.
  - intros o k'. rewrite I4. split.
    + intros (l & Hl & Hlo). destruct (decide (k' = k)) as [->|Hne].
      * exists leaf'. rewrite lookup_insert_eq. split; [done|]. congruence.
      * exists l. by rewrite lookup_insert_ne.
    + intros (l & Hl & Hlo). apply lookup_insert_Some in Hl as [[<- [= <-]]|[Hne Hl]]; eauto.
      exists leaf. split; [done|]. congruence.
  - intros k' Hk'. destruct (I6 k' Hk') as [Hc Hl]. split; [done|].
    destruct (decide (k' = k)) as [->|]; [by rewrite lookup_insert_eq|by rewrite lookup_insert_ne].
  - pose proof (rf_cap _ _ _ R'). pose proof (rf_cap _ _ _ R). cbn in *. lia.
Qed.

Lemma insert_leaf_ok n s b spec k arena :
  sink_inv n s b -> output_leaves b !! os_id spec = None ->
  LeafArena.insert_with (fun _ => new_leaf spec) (leaves b) = (Some k, arena) ->
  let s' := sp_set s k (Some (new_leaf spec)) in
  let b' := mk_backend (budget_config b) arena (<[os_id spec := k]> (output_leaves b)) (ready b) (closed b) in
  sp_live s !! k = None /\ sink_inv n s' b' /\ queued (ready b') = queued (ready b).
Proof.
  intros I Hnone Hins s' b'. pose proof I as [R I2 I3 I4 Q I6 I7].
  pose proof (insert_sim _ _ _ (fun _ => new_leaf spec) R) as Hi. rewrite Hins in Hi.
  destruct Hi as (_ & Hfresh & R').
  assert (Hdead : sp_live s !! k = None).
  { destruct (sp_live s !! k) eqn:E; [|done]. destruct Hfresh. apply I2. by eexists. }
  split_and!; [done| |done]. split; cbn; auto.
  - intros k' Hk'. destruct (decide (k' = k)) as [->|Hne]; [set_solver|].
    rewrite lookup_insert_ne in Hk' by done. apply elem_of_union_r. by apply I2.
  - intros k'. rewrite lookup_insert_Some. intros [[_ ?]|[_ ?]]; [done|]. by eapply I3.
  - intros o k'. rewrite lookup_insert_Some, I4. split.
    + intros [[<- <-]|[Hne (l & Hl & Hlo)]].
      * exists (new_leaf spec). by rewrite lookup_insert_eq.
      * exists l. rewrite lookup_insert_ne; [done|]. congruence.
    + intros (l & Hl & Hlo). apply lookup_insert_Some in Hl as [[<- [= <-]]|[Hne Hl]].
      * left. split; [exact Hlo|done].
      * right. split; [|eauto]. intros Heq.
        assert (output_leaves b !! o = Some k') by (apply I4; eauto). congruence.
  - intros k' Hk'. destruct (I6 k' Hk') as [Hc Hl]. split; [done|].
    destruct (decide (k' = k)) as [->|]; [by rewrite lookup_insert_eq|by rewrite lookup_insert_ne].
  - pose proof (rf_cap _ _ _ R'). pose proof (rf_cap _ _ _ R). cbn in *. lia.
Qed.

Lemma remove_leaf_by_output_ok n s b id :
  n + 1 < 2 ^ 32 -> sink_inv n s b ->
  exists s', sink_inv (n + 1) s' (remove_leaf_by_output id b) /\ sp_capacity s' = sp_capacity s /\
    output_leaves (remove_leaf_by_output id b) = delete id (output_leaves b) /\
    (forall k leaf, sp_live s !! k = Some (Some leaf) -> output_id (common leaf) <> id ->
       sp_live s' !! k = Some (Some leaf)).
Proof.
  intros Hn I. unfold remove_leaf_by_output. destruct (output_leaves b !! id) as [k|] eqn:E.
  - destruct (proj1 (si_outputs _ _ _ I id k) E) as (leaf & Hl & Ho).
    exists (sp_delete s k). split_and!.
    + apply (remove_ok n s b k Hn I ltac:(by eexists)).
      intros o k'. rewrite lookup_delete_Some. split.
      * intros [Hne Hk']. split; [done|]. intros ->. apply (si_outputs _ _ _ I) in Hk' as (l & Hl' & Ho').
        congruence.
      * intros [Hk' Hne]. split; [|done]. intros ->. congruence.
    + done.
    + unfold remove_leaf_key. by destruct (LeafArena.remove _ _).
    + intros k' l Hl' Hne. cbn. rewrite lookup_delete_ne; [done|]. intros <-. congruence.
  - exists s. split_and!; [by eapply sink_inv_le; [|done]; lia|done|by rewrite delete_id|done].
Qed.

(** An output that is added replaces the one of its name. *)
Lemma add_leaf_ok n s b spec :
  n + 1 < 2 ^ 32 -> sink_inv n s b ->
  exists s', sink_inv (n + 1) s' (add_leaf spec b).2 /\ sp_capacity s' = sp_capacity s /\
  if (add_leaf spec b).1 then
    (output_leaves b !! os_id spec = None -> LeafArena.is_full (leaves b) = false) /\
    exists k, output_leaves (add_leaf spec b).2 = <[os_id spec := k]> (output_leaves b) /\
      sp_live s' !! k = Some (Some (new_leaf spec)) /\ k ∈ queued (ready (add_leaf spec b).2) /\
      forall k' leaf, sp_live s !! k' = Some (Some leaf) -> output_id (common leaf) <> os_id spec ->
        sp_live s' !! k' = Some (Some leaf)
  else (add_leaf spec b).2 = b /\ output_leaves b !! os_id spec = None /\
       LeafArena.is_full (leaves b) = true.
Proof.
  intros Hn I. unfold add_leaf.
  destruct (bool_decide (output_leaves b !! os_id spec = None) && LeafArena.is_full (leaves b)) eqn:Ef.
  { apply andb_true_iff in Ef as [E1%bool_decide_eq_true E2]. cbn. exists s.
    split_and!; [by eapply sink_inv_le; [|done]; lia|done..]. }
  set (b0 := match output_leaves b !! os_id spec with Some k => remove_leaf_key k b | None => b end).
  destruct (remove_leaf_by_output_ok n s b (os_id spec) Hn I) as (s0 & I0 & Hcap & Hout & Hkeep).
  set (b1 := remove_leaf_by_output (os_id spec) b) in *.
  assert (Hb : leaves b1 = leaves b0 /\ ready b1 = ready b0 /\ closed b1 = closed b0 /\
    budget_config b1 = budget_config b0 /\ output_leaves b0 = output_leaves b).
  { unfold b1, b0, remove_leaf_by_output, remove_leaf_key.
    destruct (output_leaves b !! os_id spec) as [k|]; [|done]. cbn. by destruct (LeafArena.remove _ _). }
  assert (Hfree : free (leaves b1) <> []).
  { unfold b1, remove_leaf_by_output. destruct (output_leaves b !! os_id spec) as [k|] eqn:E.
    - destruct (proj1 (si_outputs _ _ _ I _ k) E) as (leaf & Hl & _).
      apply (get_is_live _ _ _ _ _ I) in Hl. unfold remove_leaf_key, LeafArena.remove. cbn [leaves].
      unfold LeafArena.get in Hl. destruct (entry_of (leaves b) k); [|done]. cbn. by destruct (free (leaves b)).
    - rewrite bool_decide_eq_true_2 in Ef by done. cbn in Ef. unfold LeafArena.is_full in Ef.
      by apply bool_decide_eq_false in Ef. }
  destruct Hb as (Hb1 & Hb2 & Hb3 & Hb4 & Hb5). rewrite <- Hb1, <- Hb2, <- Hb3, <- Hb4, Hb5.
  destruct (LeafArena.insert_with (fun _ => new_leaf spec) (leaves b1)) as [[k|] arena] eqn:Ei.
  2: { exfalso. pose proof (insert_sim _ _ _ (fun _ => new_leaf spec) (si_arena _ _ _ I0)) as Hi.
       rewrite Ei in Hi. destruct Hi as [_ Hi]. pose proof (rf_count _ _ _ (si_arena _ _ _ I0)).
       pose proof (rf_cap _ _ _ (si_arena _ _ _ I0)). apply Hfree, nil_length_inv. lia. }
  destruct (insert_leaf_ok _ _ _ _ _ _ I0 ltac:(rewrite Hout; apply lookup_delete_eq) Ei) as (Hdead & I2 & Hq).
  rewrite Hout, insert_delete_eq in I2, Hq. cbn [fst snd].
  set (b2 := mk_backend _ arena _ _ _) in *.
  destruct (enqueue_ok _ _ b2 k I2) as [I3 Hq3]. exists (sp_set s0 k (Some (new_leaf spec))).
  split; [exact I3|]. split; [exact Hcap|].
  split; [intros Hnone; by rewrite bool_decide_eq_true_2 in Ef|]. exists k. split_and!.
  - unfold enqueue. by destruct (LeafArena.get _ _).
  - cbn. apply lookup_insert_eq.
  - rewrite Hq3, decide_True; [set_solver|]. split; [cbn; by rewrite lookup_insert_eq|].
    rewrite Hq. intros Hin. rewrite (order_is_queued _ _ _ I0) in Hin.
    apply (si_ready _ _ _ I0) in Hin as [_ [v Hv]]. congruence.
  - intros k' leaf Hl Hne. cbn. specialize (Hkeep _ _ Hl Hne). rewrite lookup_insert_ne; congruence.
Qed.

(** *** Visits *)

(** The leaves stay, at their generations. *)
Definition same_leaves (s s' : Spec SinkFabricLeaf) : Prop :=
  sp_capacity s' = sp_capacity s /\
  forall k leaf, sp_live s !! k = Some (Some leaf) ->
    exists leaf', sp_live s' !! k = Some (Some leaf') /\
      lc_generation (common leaf') = lc_generation (common leaf).

Lemma same_leaves_trans s1 s2 s3 : same_leaves s1 s2 -> same_leaves s2 s3 -> same_leaves s1 s3.
Proof.
  intros [C1 H1] [C2 H2]. split; [congruence|]. intros k leaf Hk.
  destruct (H1 k leaf Hk) as (l2 & Hk2 & <-).
  destruct (H2 k l2 Hk2) as (l3 & Hk3 & <-). eauto.
Qed.

(** A sink keeps its place whatever its feed does. *)
Lemma visit_ready_keeps ring_at epoch_at clock t budget leaf t' leaf' res :
  visit_ready ring_at epoch_at clock t budget leaf = (t', leaf', res) ->
  output_id (common leaf') = output_id (common leaf) /\
  lc_generation (common leaf') = lc_generation (common leaf) /\
  match res with StaleGeneration => False | Visited _ d => d <> Close end.
Proof.
  unfold visit_ready. destruct (visit_leaf _ _ _ _ _ _ _ _ _ _) as [[[t2 tr] c] r] eqn:E.
  intros [= <- <- <-]. pose proof (visit_leaf_keeps _ _ _ _ _ _ _ _ _ _ _ _ _ _ E) as (Hid & Hg & _).
  split_and!; [exact Hid|exact Hg|]. unfold visit_leaf in E.
  unfold is_current_generation in E. rewrite Z.eqb_refl in E. cbn [negb] in E.
  destruct (if cursor_primed (common leaf) then _ else _) as [t1 c1].
  destruct (sink_advance _ _ _ _ _ _ _) as [[[tr1 t3] fc] o] eqn:Ea.
  destruct (apply_progress_to_common _ _ _ _ _ _) as [[t4 c4] d] eqn:Ep. injection E as <- <- <- <-.
  unfold sink_advance in Ea. destruct (read_from _ _ _ _ _ _ _) as [[t5 ca] read].
  destruct read; injection Ea as <- <- <- <-; cbn in Ep;
    try (destruct (live_start _ _ _)); by injection Ep as <- <- <-.
Qed.

Lemma visit_key_ok ring_at epoch_at clock n s b k leaf t t' b' :
  sink_inv n s b -> sp_live s !! k = Some (Some leaf) -> k ∉ queued (ready b) ->
  visit_key ring_at epoch_at clock k leaf t b = (t', b') ->
  exists s' extra, sink_inv n s' b' /\ queued (ready b') = queued (ready b) ++ extra /\
    output_leaves b' = output_leaves b /\ same_leaves s s'.
Proof.
  intros I Hk Hnq. unfold visit_key.
  destruct (visit_ready _ _ _ t _ leaf) as [[t1 leaf'] res] eqn:Ev.
  apply visit_ready_keeps in Ev as (Hid & Hg & Hd).
  intros [= <- <-]. pose proof (set_leaf_ok _ _ _ _ _ leaf' I Hk Hid) as I1.
  set (b1 := mk_backend _ (LeafArena.modify _ _ _) _ _ _) in *. set (s1 := sp_set s k (Some leaf')) in *.
  assert (Hk1 : sp_live s1 !! k = Some (Some leaf')) by (apply lookup_insert_eq).
  assert (Hsame : same_leaves s s1).
  { split; [done|]. intros k' l Hl. destruct (decide (k' = k)) as [->|Hne].
    - exists leaf'. split; [done|]. congruence.
    - exists l. split; [|done]. cbn. by rewrite lookup_insert_ne. }
  destruct res as [|p d]; [done|]. destruct d; [| |done].
  - destruct (enqueue_ok _ _ b1 k I1) as [I2 Hq]. exists s1. rewrite Hq.
    rewrite decide_True by (split; [by eexists|exact Hnq]). exists [k].
    split_and!; [done|done| |done]. unfold enqueue. by destruct (LeafArena.get _ _).
  - exists s1, []. rewrite app_nil_r. done.
Qed.

Lemma popped_ok n s b q0 q r :
  sink_inv n s b -> ready b = q0 -> ReadyQueue.pop q0 = (r, q) -> sink_inv n s (with_ready b q).
Proof.
  intros I <- Ep. pose proof I as [R I2 I3 I4 Q I6 I7].
  destruct (pop_spec _ _ _ Q Ep) as (Q' & _ & Hq & _). destruct (pop_suffix _ _ _ Ep) as [[l Hl] Hcap].
  split; cbn; auto; [|by rewrite Hcap].
  intros k Hk. split; [|apply I6; rewrite Hl; set_solver].
  apply contains_queued; [done|]. rewrite Hq, (order_is_queued _ _ _ I).
  unfold ReadyQueue.pop in Ep. destruct (order (ready b)) as [|k0 rest] eqn:Eo.
  { injection Ep as _ <-. by apply not_elem_of_nil in Hk. }
  cbn [pop_loop] in Ep. rewrite bool_decide_eq_true_2 in Ep; [by injection Ep as _ <-|].
  apply contains_true. apply I6. left.
Qed.

Lemma drain_ready_loop_ok ring_at epoch_at clock m : forall n s b t,
  sink_inv n s b ->
  let '(t', visited, b') := drain_ready_loop ring_at epoch_at clock m t b in
  exists s' extra, sink_inv n s' b' /\ (length visited <= m)%nat /\
    take m (queued (ready b)) `prefix_of` visited /\
    queued (ready b') = drop m (queued (ready b)) ++ extra /\
    output_leaves b' = output_leaves b /\ same_leaves s s'.
Proof.
  assert (Hrefl : forall s, same_leaves s s) by (intros s; split; [done|eauto]).
  induction m as [|m IH]; intros n s b t I; cbn [drain_ready_loop].
  { exists s, []. rewrite app_nil_r. split_and!; [done|cbn; lia|apply prefix_nil|done|done|done]. }
  destruct (ReadyQueue.pop (ready b)) as [popped q] eqn:Ep.
  destruct (pop_spec _ _ _ (si_queue _ _ _ I) Ep) as (Q' & Hpop & Hq & _).
  pose proof (order_is_queued _ _ _ I) as Hoq. pose proof (popped_ok _ _ _ _ _ _ I eq_refl Ep) as I0.
  change (mk_backend (budget_config b) (leaves b) (output_leaves b) q (closed b)) with (with_ready b q) in *.
  set (b0 := with_ready b q) in *.
  destruct (queued (ready b)) as [|k rest] eqn:Eq; cbn in Hpop, Hq; subst popped.
  - (* nothing was ready *)
    exists s, []. cbn. split_and!; [exact I0|lia|done|by rewrite Hq|done|done].
  - destruct (si_ready _ _ _ I k) as [_ [v Hv]]; [rewrite <- Hoq; left|].
    destruct v as [leaf|]; [|by destruct (si_filled _ _ _ I k)].
    rewrite (proj2 (get_is_live _ _ _ _ _ I0) Hv).
    destruct (visit_key _ _ _ k leaf t b0) as [t1 b1] eqn:Ev.
    assert (Hkq : k ∉ queued (ready b0)).
    { cbn. rewrite Hq. pose proof (qo_once _ (si_queue _ _ _ I)) as Hnd. rewrite Eq in Hnd.
      by apply NoDup_cons in Hnd as [? _]. }
    destruct (visit_key_ok _ _ _ _ _ _ _ _ _ _ _ I0 Hv Hkq Ev) as (s1 & ex & I1 & Hq1 & Ho1 & Hs1).
    cbn in Hq1. rewrite Hq in Hq1.
    specialize (IH n s1 b1 t1 I1).
    destruct (drain_ready_loop _ _ _ m t1 b1) as [[t2 visited] b2].
    destruct IH as (s2 & ex2 & I2 & Hlen & Hpre & Hq2 & Ho2 & Hs2).
    exists s2, (drop (m - length rest) ex ++ ex2). split_and!.
    + done.
    + cbn. lia.
    + cbn. apply prefix_cons. etrans; [|exact Hpre]. rewrite Hq1, take_app. by eexists.
    + cbn. rewrite Hq2, Hq1, drop_app. by rewrite <- app_assoc.
    + by rewrite Ho2, Ho1.
    + by eapply same_leaves_trans.
Qed.

Lemma enqueue_all_ok n s b :
  sink_inv n s b -> sink_inv n s (enqueue_all_leaves b) /\
  (forall k, is_Some (sp_live s !! k) -> k ∈ queued (ready (enqueue_all_leaves b))) /\
  queued (ready b) `prefix_of` queued (ready (enqueue_all_leaves b)).
Proof.
  intros I. unfold enqueue_all_leaves.
  assert (Hfold : forall (l : list (LeafKey * SinkFabricLeaf)) b, sink_inv n s b -> (forall k v, (k, v) ∈ l -> is_Some (sp_live s !! k)) ->
    let q := fold_left (fun q '(k, _) => (ReadyQueue.push k q).2) l (ready b) in
    sink_inv n s (with_ready b q) /\ (forall k v, (k, v) ∈ l -> k ∈ queued q) /\
    queued (ready b) `prefix_of` queued q).
  { clear b I. induction l as [|[k v] l IH]; intros b I Hl; cbn [fold_left].
    - split_and!; [by destruct b|by intros ? ? ?%not_elem_of_nil|done].
    - destruct (push_live n s b k I ltac:(eapply Hl; left)) as [I1 Hq1].
      destruct (IH _ I1 ltac:(intros k' v' Hin; eapply Hl; by right)) as (I2 & Hin2 & Hpre).
      cbn [ready with_ready] in *. split_and!; [exact I2| |].
      + intros k' v' [[= -> ->]|Hin]%elem_of_cons; [|by eapply Hin2].
        eapply elem_of_prefix; [|exact Hpre]. rewrite Hq1. destruct (decide _); set_solver.
      + etrans; [|exact Hpre]. rewrite Hq1. destruct (decide _); [done|by eexists]. }
  destruct (Hfold (LeafArena.iter (leaves b)) b I) as (I' & Hin & Hpre).
  - intros k v Hkv. eapply iter_spec in Hkv; [|apply I]. by eexists.
  - split_and!; [exact I'| |exact Hpre]. intros k [[v|] Hv]; [|by destruct (si_filled _ _ _ I k)].
    apply (Hin k v). by eapply iter_spec; [apply I|].
Qed.

(** ** Runs of the shard *)

Section runs.
Context (ring_at : nat -> RingBuffer) (epoch_at clock : nat -> Z).

(** What a shard's loop asks of its backend. *)
Inductive sink_event := ECommand (c : EgressCommand) | ETick.

Definition sink_step (e : sink_event) (st : nat * SinkShardBackend) : nat * SinkShardBackend :=
  match e with
  | ECommand c => (st.1, sink_on_command c st.2)
  | ETick => let '(t, _, b) := drain_ready_leaves ring_at epoch_at clock st.1 st.2 in (t, b)
  end.

Definition sink_run (es : list sink_event) (st : nat * SinkShardBackend) : nat * SinkShardBackend :=
  fold_left (fun st e => sink_step e st) es st.

(** Ticks one after the other, with the keys they visit. *)
Fixpoint ticks (m : nat) (t : nat) (b : SinkShardBackend) : nat * list LeafKey * SinkShardBackend :=
  match m with
  | O => (t, [], b)
  | S m' =>
      let '(t, visited, b) := drain_ready_leaves ring_at epoch_at clock t b in
      let '(t, later, b) := ticks m' t b in
      (t, visited ++ later, b)
  end.

Lemma sink_new_ok config cap : sink_inv 0 (sp_init (clamp_u32 cap)) (sink_new config cap).
Proof.
  destruct (rq_with_capacity_ok cap) as [Q _]. split; cbn; auto.
  - apply refines_init.
  - intros k [v Hv]. by rewrite lookup_empty in Hv.
  - intros o k. rewrite lookup_empty. split; [done|]. intros (leaf & Hl & _). by rewrite lookup_empty in Hl.
  - by intros k ?%not_elem_of_nil.
  - rewrite length_replicate. unfold clamp_u32. case_if; lia.
Qed.

Lemma sink_step_ok e n s st :
  n + 1 < 2 ^ 32 -> sink_inv n s st.2 -> exists s', sink_inv (n + 1) s' (sink_step e st).2.
Proof.
  intros Hn I. assert (Hid : sink_inv (n + 1) s st.2) by (eapply sink_inv_le; [|done]; lia).
  destruct e as [c|]; cbn [sink_step snd].
  - unfold sink_on_command. destruct c as [spec|spec|id|id| | |]; try (by exists s).
    1,2: destruct (os_protocol spec); try (by exists s);
      destruct (add_leaf_ok n s st.2 spec Hn I) as (s' & I' & _); eauto.
    1,2: destruct (remove_leaf_by_output_ok n s st.2 id Hn I) as (s' & I' & _); eauto.
    exists s. by apply enqueue_all_ok.
  - pose proof (drain_ready_loop_ok ring_at epoch_at clock MEDIA_TICK_VISIT_BUDGET n s st.2 st.1 I) as Hd.
    unfold drain_ready_leaves. destruct (drain_ready_loop _ _ _ _ _ _) as [[t' visited] b'].
    destruct Hd as (s' & _ & I' & _). exists s'. eapply sink_inv_le; [|exact I']. lia.
Qed.

Lemma sink_run_ok es : forall n s st,
  n + Z.of_nat (length es) < 2 ^ 32 -> sink_inv n s st.2 ->
  exists s', sink_inv (n + Z.of_nat (length es)) s' (sink_run es st).2.
Proof.
  induction es as [|e es IH]; intros n s st Hn I; cbn [length sink_run fold_left] in *.
  - exists s. by rewrite Z.add_0_r.
  - destruct (sink_step_ok e n s st ltac:(lia) I) as [s1 I1].
    destruct (IH (n + 1) s1 (sink_step e st) ltac:(lia) I1) as [s' I']. exists s'.
    by replace (n + Z.of_nat (S (length es))) with (n + 1 + Z.of_nat (length es)) by lia.
Qed.

Lemma ticks_ok m : forall n s b t,
  sink_inv n s b ->
  let '(t', visited, b') := ticks m t b in
  forall k, k ∈ take (256 * m) (queued (ready b)) -> k ∈ visited.
Proof.
  induction m as [|m IH]; intros n s b t I; cbn [ticks]; [by rewrite Nat.mul_0_r|].
  pose proof (drain_ready_loop_ok ring_at epoch_at clock MEDIA_TICK_VISIT_BUDGET n s b t I) as Hd.
  unfold drain_ready_leaves. destruct (drain_ready_loop _ _ _ _ _ _) as [[t1 visited] b1].
  destruct Hd as (s1 & ex & I1 & _ & Hpre & Hq & _). change MEDIA_TICK_VISIT_BUDGET with 256%nat in *.
  specialize (IH n s1 b1 t1 I1). destruct (ticks m t1 b1) as [[t2 later] b2].
  intros k Hk. replace (256 * S m)%nat with (256 + 256 * m)%nat in Hk by lia.
  rewrite <- (take_drop 256 (queued (ready b))) in Hk. rewrite take_app in Hk.
  apply elem_of_app in Hk as [Hk|Hk]; apply elem_of_app.
  - left. eapply elem_of_prefix; [|exact Hpre]. rewrite take_take in Hk. by rewrite Nat.min_r in Hk by lia.
  - right. apply IH. rewrite Hq, take_app. apply elem_of_app. left.
    rewrite length_take in Hk. apply (elem_of_prefix (take (256 + 256 * m - 256 `min` length (queued (ready b))) (drop 256 (queued (ready b))))); [done|].
    destruct (decide (256 <= length (queued (ready b)))%nat).
    + rewrite Nat.min_l by lia. by replace (256 + 256 * m - 256)%nat with (256 * m)%nat by lia.
    + rewrite (drop_ge (queued (ready b))) by lia. rewrite !take_nil. done.
Qed.

(** *** The outputs a shard has *)

(** The generation of each output's leaf. *)
Definition outputs_of (b : SinkShardBackend) : gmap OutputId Z :=
  omap (fun k => (fun leaf => lc_generation (common leaf)) <$> LeafArena.get (leaves b) k) (output_leaves b).

(** What the commands mean: a map of at most [cap] outputs. *)
Definition apply_command (cap : nat) (m : gmap OutputId Z) (c : EgressCommand) : gmap OutputId Z :=
  match c with
  | Add spec | Update spec =>
      match os_protocol spec with
      | PSink =>
          if bool_decide (m !! os_id spec = None) && (cap <=? size m)%nat then m
          else <[os_id spec := os_generation spec]> m
      | _ => m
      end
  | Remove id | Abandon id => delete id m
  | FeedWake | DrainShard _ | Shutdown => m
  end.

Definition commands_of (es : list sink_event) : list EgressCommand :=
  omap (fun e => match e with ECommand c => Some c | ETick => None end) es.
End runs.

Lemma outputs_lookup n s b o g :
  sink_inv n s b ->
  outputs_of b !! o = Some g <-> exists k leaf, output_leaves b !! o = Some k /\
    sp_live s !! k = Some (Some leaf) /\ lc_generation (common leaf) = g.
Proof.
  intros I. unfold outputs_of. rewrite lookup_omap. split.
  - destruct (output_leaves b !! o) as [k|] eqn:E; [|done]. cbn.
    destruct (LeafArena.get (leaves b) k) as [leaf|] eqn:Eg; [|done]. intros [= <-].
    exists k, leaf. split_and!; [done| |done]. by eapply get_is_live.
  - intros (k & leaf & -> & Hl & <-). cbn. by rewrite (proj2 (get_is_live _ _ _ _ _ I) Hl).
Qed.

Lemma outputs_None n s b o :
  sink_inv n s b -> outputs_of b !! o = None <-> output_leaves b !! o = None.
Proof.
  intros I. split; intros Hn.
  - destruct (output_leaves b !! o) as [k|] eqn:E; [|done].
    destruct (proj1 (si_outputs _ _ _ I o k) E) as (leaf & Hl & _).
    assert (outputs_of b !! o = Some (lc_generation (common leaf)))
      by (eapply outputs_lookup; [done|]; eauto). congruence.
  - unfold outputs_of. by rewrite lookup_omap, Hn.
Qed.

(** Leaves of two states with the same outputs but one. *)
Lemma outputs_same n n' s s' b b' o :
  sink_inv n s b -> sink_inv n' s' b' -> output_leaves b' !! o = output_leaves b !! o ->
  (forall k leaf, sp_live s !! k = Some (Some leaf) -> output_id (common leaf) = o ->
     exists leaf', sp_live s' !! k = Some (Some leaf') /\
       lc_generation (common leaf') = lc_generation (common leaf)) ->
  outputs_of b' !! o = outputs_of b !! o.
Proof.
  intros I I' Ho Hl. destruct (output_leaves b !! o) as [k|] eqn:E.
  - destruct (proj1 (si_outputs _ _ _ I o k) E) as (leaf & Hk & Hid).
    destruct (Hl k leaf Hk Hid) as (leaf' & Hk' & Hg).
    rewrite (proj2 (outputs_lookup _ _ _ o (lc_generation (common leaf)) I)) by eauto.
    apply (outputs_lookup _ _ _ _ _ I'). eauto.
  - rewrite (proj2 (outputs_None _ _ _ o I)) by done. by apply (outputs_None _ _ _ _ I').
Qed.

Lemma size_outputs n s b : sink_inv n s b -> size (outputs_of b) = size (sp_live s).
Proof.
  intros I. trans (size (output_leaves b)).
  - rewrite <- !size_dom. f_equal. apply set_eq. intros o. rewrite !elem_of_dom, <- !not_eq_None_Some.
    by rewrite (outputs_None _ _ _ o I).
  - rewrite <- !length_map_to_list, <- (length_map snd), <- (length_map fst (map_to_list (sp_live s))).
    apply Permutation_length, NoDup_Permutation.
    + apply NoDup_fmap_2_strong; [|apply NoDup_map_to_list].
      intros [o1 k1] [o2 k2] H1%elem_of_map_to_list H2%elem_of_map_to_list Heq. cbn in Heq. subst k2.
      apply (si_outputs _ _ _ I) in H1 as (l1 & Hl1 & <-). apply (si_outputs _ _ _ I) in H2 as (l2 & Hl2 & <-).
      congruence.
    + apply NoDup_fst_map_to_list.
    + intros k. rewrite !list_elem_of_fmap. split.
      * intros ([o k'] & -> & Hk%elem_of_map_to_list). apply (si_outputs _ _ _ I) in Hk as (leaf & Hl & _).
        exists (k', Some leaf). split; [done|]. by apply elem_of_map_to_list.
      * intros ([k' [leaf|]] & -> & Hk%elem_of_map_to_list); [|by destruct (si_filled _ _ _ I k')].
        exists (output_id (common leaf), k'). split; [done|]. apply elem_of_map_to_list.
        apply (si_outputs _ _ _ I). eauto.
Qed.

Lemma is_full_outputs n s b :
  sink_inv n s b ->
  LeafArena.is_full (leaves b) = (sp_capacity s <=? size (outputs_of b))%nat.
Proof.
  intros I. rewrite (size_outputs _ _ _ I). pose proof (rf_count _ _ _ (si_arena _ _ _ I)).
  pose proof (rf_cap _ _ _ (si_arena _ _ _ I)). unfold LeafArena.is_full.
  destruct (free (leaves b)) as [|i l]; cbn in *; symmetry.
  - apply Nat.leb_le. lia.
  - apply Nat.leb_gt. lia.
Qed.

Lemma sink_step_outputs ring_at epoch_at clock e n s st :
  n + 1 < 2 ^ 32 -> sink_inv n s st.2 ->
  exists s', sink_inv (n + 1) s' (sink_step ring_at epoch_at clock e st).2 /\
    sp_capacity s' = sp_capacity s /\
    outputs_of (sink_step ring_at epoch_at clock e st).2 =
      fold_left (apply_command (sp_capacity s)) (commands_of [e]) (outputs_of st.2).
Proof.
  intros Hn I. assert (Hid : sink_inv (n + 1) s st.2) by (eapply sink_inv_le; [|done]; lia).
  destruct e as [c|]; cbn [sink_step snd commands_of omap list_omap fold_left].
  - assert (Hadd : forall spec, exists s', sink_inv (n + 1) s' (add_leaf spec st.2).2 /\
      sp_capacity s' = sp_capacity s /\ outputs_of (add_leaf spec st.2).2 =
        if bool_decide (outputs_of st.2 !! os_id spec = None) && (sp_capacity s <=? size (outputs_of st.2))%nat
        then outputs_of st.2 else <[os_id spec := os_generation spec]> (outputs_of st.2)).
    { intros spec. destruct (add_leaf_ok n s st.2 spec Hn I) as (s' & I' & Hcap & Hres). exists s'.
      split_and!; [done|done|]. rewrite <- (is_full_outputs _ _ _ I).
      destruct (add_leaf spec st.2) as [ok b']. cbn [fst snd] in *. destruct ok.
      - destruct Hres as (Hroom & k & Ho & Hk & _ & Hkeep).
        assert (Hnew : outputs_of b' = <[os_id spec := os_generation spec]> (outputs_of st.2)).
        { apply map_eq. intros o. destruct (decide (o = os_id spec)) as [->|Hne].
          - rewrite lookup_insert_eq. apply (outputs_lookup _ _ _ _ _ I'). exists k, (new_leaf spec).
            split_and!; [by rewrite Ho, lookup_insert_eq|done|done].
          - rewrite lookup_insert_ne by done. apply (outputs_same n (n + 1) s s'); auto.
            + by rewrite Ho, lookup_insert_ne.
            + intros k' leaf Hl Hid'. exists leaf. split; [|done]. apply Hkeep; [done|congruence]. }
        destruct (_ && _) eqn:Efull; [|done]. exfalso.
        apply andb_true_iff in Efull as [E1%bool_decide_eq_true E2].
        apply (outputs_None _ _ _ _ I) in E1. specialize (Hroom E1). congruence.
      - destruct Hres as (-> & Hnone & Hfull). apply (outputs_None _ _ _ _ I) in Hnone.
        rewrite bool_decide_eq_true_2, Hfull by done. done. }
    unfold sink_on_command, apply_command. destruct c as [spec|spec|id|id| | |]; try (by exists s).
    1,2: destruct (os_protocol spec); try (by exists s); apply Hadd.
    1,2: destruct (remove_leaf_by_output_ok n s st.2 id Hn I) as (s' & I' & Hcap & Ho & Hkeep); exists s';
      split_and!; [done|done|]; apply map_eq; intros o; destruct (decide (o = id)) as [->|Hne];
      [rewrite lookup_delete_eq; apply (outputs_None _ _ _ _ I'); by rewrite Ho, lookup_delete_eq|];
      rewrite lookup_delete_ne by done; apply (outputs_same n (n + 1) s s'); auto;
      [by rewrite Ho, lookup_delete_ne|intros k leaf Hl Hid'; exists leaf; split; [|done];
       apply Hkeep; [done|congruence]].
    exists s. split_and!; [by apply enqueue_all_ok|done|done].
  - pose proof (drain_ready_loop_ok ring_at epoch_at clock MEDIA_TICK_VISIT_BUDGET n s st.2 st.1 I) as Hd.
    unfold drain_ready_leaves. destruct (drain_ready_loop _ _ _ _ _ _) as [[t' visited] b'].
    destruct Hd as (s' & ex & I' & _ & _ & _ & Ho & Hcap & Hsame). exists s'. split_and!.
    + eapply sink_inv_le; [|exact I']. lia.
    + done.
    + apply map_eq. intros o. apply (outputs_same n n s s'); [done|done|cbn; by rewrite Ho|].
      intros k leaf Hl _. by apply Hsame.
Qed.

Lemma sink_run_outputs ring_at epoch_at clock es : forall n s st,
  n + Z.of_nat (length es) < 2 ^ 32 -> sink_inv n s st.2 ->
  exists s', sink_inv (n + Z.of_nat (length es)) s' (sink_run ring_at epoch_at clock es st).2 /\
    sp_capacity s' = sp_capacity s /\
    outputs_of (sink_run ring_at epoch_at clock es st).2 =
      fold_left (apply_command (sp_capacity s)) (commands_of es) (outputs_of st.2).
Proof.
  induction es as [|e es IH]; intros n s st Hn I; cbn [length sink_run fold_left] in *.
  - exists s. by rewrite Z.add_0_r.
  - destruct (sink_step_outputs ring_at epoch_at clock e n s st ltac:(lia) I) as (s1 & I1 & Hc1 & Ho1).
    destruct (IH (n + 1) s1 (sink_step ring_at epoch_at clock e st) ltac:(lia) I1) as (s' & I' & Hc' & Ho').
    exists s'. replace (n + Z.of_nat (S (length es))) with (n + 1 + Z.of_nat (length es)) by lia.
    split_and!; [done|congruence|]. unfold sink_run in Ho'. rewrite Ho', Ho1, Hc1.
    change (e :: es) with ([e] ++ es). unfold commands_of. by rewrite omap_app, fold_left_app.
Qed.

Lemma queued_le_live n s b : sink_inv n s b -> (length (queued (ready b)) <= size (sp_live s))%nat.
Proof.
  intros I. rewrite <- length_map_to_list, <- (length_map fst).
  apply submseteq_length, NoDup_submseteq; [apply I|]. intros k Hk.
  rewrite (order_is_queued _ _ _ I) in Hk. apply (si_ready _ _ _ I) in Hk as [_ [v Hv]].
  apply list_elem_of_fmap. exists (k, v). split; [done|]. by apply elem_of_map_to_list.
Qed.

(** Shutting down closes every leaf, once. *)
Lemma sink_shutdown_closes_all n s b :
  n + 1 < 2 ^ 32 -> sink_inv n s b ->
  closed (sink_on_shutdown b) = (closed b + LeafArena.len (leaves b))%nat /\
  LeafArena.is_empty (leaves (sink_on_shutdown b)) = true /\
  queued (ready (sink_on_shutdown b)) = [] /\ output_leaves (sink_on_shutdown b) = ∅.
Proof.
  intros Hn I. destruct (drain_sim _ _ _ (si_arena _ _ _ I) Hn) as [Hp R']. unfold sink_on_shutdown.
  destruct (LeafArena.drain (leaves b)) as [drained arena]. cbn [fst snd] in *. cbn [closed leaves ready output_leaves].
  pose proof (rf_count _ _ _ (si_arena _ _ _ I)). pose proof (rf_count _ _ _ R') as Hc. cbn [sp_live sp_clear] in Hc. rewrite map_size_empty in Hc.
  split_and!; [|unfold LeafArena.is_empty, LeafArena.len; apply Nat.eqb_eq; lia|by apply clear_spec|done].
  assert (length drained = size (sp_live s)) as ->; [|unfold LeafArena.len; lia].
  rewrite Hp, <- length_map_to_list. pose proof (si_filled _ _ _ I) as Hf.
  assert (Hall : Forall (fun p : LeafKey * option SinkFabricLeaf => is_Some p.2) (map_to_list (sp_live s))).
  { apply Forall_forall. intros [k [leaf|]] Hin%elem_of_map_to_list; [by eexists|by destruct (Hf k)]. }
  clear -Hall. induction Hall as [|[k v] l [leaf Hv] _ IH]; [done|]. cbn in Hv. subst v. cbn. by f_equal.
Qed.

(** ** Properties *)

(** The leaves of a sink shard are what its commands say.  After any sequence of
    commands and media ticks (fewer than 2^32, so that no epoch wraps), with any feed, the
    map from outputs to the generations of their leaves is that of the commands applied to
    a map of at most [capacity] outputs: an output that is added again is replaced, one
    that is removed is gone, a new one is refused when the shard is full, and no tick,
    overrun or stale event changes the set.  Every output has its own leaf, every leaf its
    output, and only live leaves are queued, each once. *)
Theorem sink_outputs_follow_commands ring_at epoch_at clock config cap es t :
  Z.of_nat (length es) < 2 ^ 32 ->
  let b := (sink_run ring_at epoch_at clock es (t, sink_new config cap)).2 in
  outputs_of b = fold_left (apply_command (clamp_u32 cap)) (commands_of es) ∅ /\
  (forall o k, output_leaves b !! o = Some k <->
     exists leaf, LeafArena.get (leaves b) k = Some leaf /\ output_id (common leaf) = o) /\
  (forall k, k ∈ order (ready b) -> is_Some (LeafArena.get (leaves b) k)) /\ NoDup (order (ready b)) /\
  LeafArena.len (leaves b) = size (output_leaves b).
Proof.
  intros Hn b.
  destruct (sink_run_outputs ring_at epoch_at clock es 0 _ (t, sink_new config cap) Hn (sink_new_ok config cap))
    as (s & I & _ & Ho). fold b in I, Ho. split_and!.
  - exact Ho.
  - intros o k. rewrite (si_outputs _ _ _ I). by setoid_rewrite <- (get_is_live _ _ _ _ _ I).
  - intros k Hk. apply (si_ready _ _ _ I) in Hk as [_ [[leaf|] Hv]]; [|by destruct (si_filled _ _ _ I k)].
    exists leaf. by eapply get_is_live.
  - rewrite <- (order_is_queued _ _ _ I). apply I.
  - pose proof (size_outputs _ _ _ I) as Hs. unfold LeafArena.len.
    pose proof (rf_count _ _ _ (si_arena _ _ _ I)).
    assert (size (output_leaves b) = size (outputs_of b)); [|lia].
    rewrite <- !size_dom. f_equal. apply set_eq. intros o. rewrite !elem_of_dom, <- !not_eq_None_Some.
    by rewrite (outputs_None _ _ _ o I).
Qed.

(** A feed wake reaches every leaf.  In any state a sink shard can reach, after a
    [FeedWake] every leaf it has is visited within the next [n / 256] media ticks, rounded
    up, however many of the leaves before it ask to be visited again: the queue drops no
    live leaf and is served in turn. *)
Theorem sink_wake_visits_every_leaf ring_at epoch_at clock config cap es t m :
  Z.of_nat (length es) < 2 ^ 32 ->
  let b := (sink_run ring_at epoch_at clock es (t, sink_new config cap)).2 in
  (LeafArena.len (leaves b) <= 256 * m)%nat ->
  let '(_, visited, _) := ticks ring_at epoch_at clock m t (sink_on_command FeedWake b) in
  forall o k, output_leaves b !! o = Some k -> k ∈ visited.
Proof.
  intros Hn b Hm.
  destruct (sink_run_outputs ring_at epoch_at clock es 0 _ (t, sink_new config cap) Hn (sink_new_ok config cap))
    as (s & I & _ & _). fold b in I. cbn [sink_on_command].
  destruct (enqueue_all_ok _ _ _ I) as (I1 & Hall & _).
  pose proof (ticks_ok ring_at epoch_at clock m _ _ _ t I1) as Ht.
  destruct (ticks _ _ _ m t (enqueue_all_leaves b)) as [[t' visited] b'].
  intros o k Hk. apply Ht. destruct (proj1 (si_outputs _ _ _ I o k) Hk) as (leaf & Hl & _).
  rewrite take_ge; [apply Hall; by eexists|].
  etrans; [apply (queued_le_live _ _ _ I1)|]. unfold LeafArena.len in Hm.
  pose proof (rf_count _ _ _ (si_arena _ _ _ I)). lia.
Qed.

(** *** A concrete shard *)

Definition sink_spec (id : OutputId) (gen : Z) : OutputSpec :=
  {| os_id := id; os_generation := gen; os_feed := "feed"; os_protocol := PSink;
     os_policy := LeafPolicy_default |}.

Definition example_config : WorkBudgetConfig :=
  {| cfg_max_units := 4; cfg_max_bytes := 1000; window := 1000 |}.

Definition example_events : list sink_event :=
  [ECommand (Add (sink_spec "a" 1)); ECommand (Add (sink_spec "b" 1)); ETick;
   ECommand (Add (sink_spec "c" 1)); ECommand (Remove "a"); ECommand (Update (sink_spec "b" 2)); ETick].

Lemma sink_outputs_follow_commands_witness :
  outputs_of (sink_run (fun _ => RingBuffer_new 2) (fun _ => 0) Z.of_nat example_events
    (0%nat, sink_new example_config 2)).2 = {[ "b"%string := 2 ]}.
Proof.
  pose proof (sink_outputs_follow_commands (fun _ => RingBuffer_new 2) (fun _ => 0) Z.of_nat
    example_config 2 example_events 0 ltac:(reflexivity)) as [H _].
  rewrite H. vm_compute. reflexivity.
Defined.

Lemma sink_wake_visits_every_leaf_witness :
  let b := (sink_run (fun _ => RingBuffer_new 2) (fun _ => 0) Z.of_nat example_events
    (0%nat, sink_new example_config 2)).2 in
  let '(_, visited, _) := ticks (fun _ => RingBuffer_new 2) (fun _ => 0) Z.of_nat 1 0
    (sink_on_command FeedWake b) in
  forall o k, output_leaves b !! o = Some k -> k ∈ visited.
Proof.
  apply (sink_wake_visits_every_leaf (fun _ => RingBuffer_new 2) (fun _ => 0) Z.of_nat
    example_config 2 example_events 0 1).
  - reflexivity.
  - vm_compute. lia.
Defined.
