(* ===== verification/EgressShard.v ===== *)
(** * The loop of a shard ([egress/shard.rs])

    One thread drives one backend: a batch of commands, a batch of ready visits, a batch of
    timers, a wait when there was nothing, one media tick, and, after [Shutdown], a window in
    which the backend may drain.  The trait [EgressShardBackend] is the class of that name;
    every call the loop makes is also written down in [r_calls], and every command the channel
    takes in [r_accepted], which the loop never reads.

    [clock n] is the n-th reading of [Instant::now()] that the loop acts on.  Commands arrive between
    iterations, or during the wait; the snapshot for diagnostics is left out. *)

From S2P Require Import Prelude Bits Annexb Media FrameUnits Ring Reader LeafArena ReadyQueue TimerWheel Feed.
From S2P Require Import WakeGate Leaf.

Abbreviation FeedWakeCommand := Leaf.FeedWake.

(** ** [Ord for OutputId] *)

Lemma string_compare_trans (x y z : string) :
  String.compare x y = Lt -> String.compare y z = Lt -> String.compare x z = Lt.
Proof.
  revert y z. induction x as [|a x IH]; intros [|b y] [|c z]; cbn; try done.
  unfold Ascii.compare.
  destruct (N.compare_spec (Ascii.N_of_ascii a) (Ascii.N_of_ascii b)) as [Hab|Hab|Hab]; try done;
    destruct (N.compare_spec (Ascii.N_of_ascii b) (Ascii.N_of_ascii c)) as [Hbc|Hbc|Hbc]; try done; intros H1 H2;
    destruct (N.compare_spec (Ascii.N_of_ascii a) (Ascii.N_of_ascii c)); try lia; try done.
  by eapply IH.
Qed.

#[export] Program Instance string_key_ord : KeyOrd string := {| kcmp := String.compare |}.
Next Obligation.
  intros x y. split; [apply String.compare_eq_iff|]. intros ->.
  pose proof (String.compare_antisym y y) as Ha. by destruct (String.compare y y).
Qed.
Next Obligation. intros x y. apply String.compare_antisym. Qed.
Next Obligation. apply string_compare_trans. Qed.

(** ** Backends *)

Inductive EgressShardCommandEffect :=
  | EContinue
  | ScheduleTimer (output_id : OutputId) (gen : Z) (at_ : Z)
  | ScheduleReady (count : Z)
  | Stop.

Definition stops_shard (e : EgressShardCommandEffect) : bool :=
  match e with Stop => true | _ => false end.

Class EgressShardBackend (B : Type) := {
  on_command : EgressCommand -> B -> EgressShardCommandEffect * B;
  timer_generation : B -> OutputId -> option Z;
  on_timer : OutputId -> Z -> B -> EgressShardCommandEffect * B;
  on_ready : B -> EgressShardCommandEffect * B;
  on_media_tick : B -> EgressShardCommandEffect * B;
  (** What a wait leaves of the backend; why it ended is the environment's choice. *)
  wait_idle : B -> B;
  on_shutdown : B -> B }.

(** Why [wait_idle] returned; the command is one that arrived during the wait. *)
Inductive EgressShardIdleWake :=
  | IdleCommand (c : EgressCommand)
  | BackendActivity
  | IdleTimeout
  | Disconnected.

Inductive backend_call :=
  | CCommand (c : EgressCommand)
  | CTimer (output_id : OutputId) (gen : Z)
  | CReady
  | CTick
  | CWait.

Record EgressShardConfig := {
  command_channel_capacity : nat;
  command_batch_budget : nat;
  readiness_batch_budget : nat;
  timer_batch_budget : nat;
  leaf_capacity : Z;
  idle_wait : Z;
  drain_timeout : Z }.

Inductive EgressShardConfigError := ZeroCommandCapacity | ZeroCommandBatch | ZeroReadyBatch | ZeroTimerBatch.

Definition DEFAULT_DRAIN_TIMEOUT : Z := secs 3.
Definition DEFAULT_LEAF_CAPACITY : Z := 4096.

Definition EgressShardConfig_new (capacity commands readiness timer : nat) (idle : Z)
    : EgressShardConfig + EgressShardConfigError :=
  if (capacity =? 0)%nat then inr ZeroCommandCapacity
  else if (commands =? 0)%nat then inr ZeroCommandBatch
  else if (readiness =? 0)%nat then inr ZeroReadyBatch
  else if (timer =? 0)%nat then inr ZeroTimerBatch
  else inl {| command_channel_capacity := capacity; command_batch_budget := commands;
              readiness_batch_budget := readiness; timer_batch_budget := timer;
              leaf_capacity := DEFAULT_LEAF_CAPACITY; idle_wait := idle;
              drain_timeout := DEFAULT_DRAIN_TIMEOUT |}.

(** [VecDeque<()>::capacity()]: the elements take no room, so it is [usize::MAX] whatever
    [with_capacity] was asked for. *)
Definition zst_capacity : Z := 2 ^ 64 - 1.

Section shard.
Context {B : Type} `{EgressShardBackend B} (clock : nat -> Z).

Record EgressShardRuntime := mk_shard {
  r_shard_id : ShardId;
  r_config : EgressShardConfig;
  receiver : list EgressCommand;
  backend : B;
  ready_backlog : Z;
  timers : TimerWheel OutputId;
  wake_gate : WakeGate;
  draining_until : option Z;
  ready_overflows : Z;
  queue_overflows : Z;
  r_t : nat;
  r_accepted : list EgressCommand;
  r_calls : list backend_call }.

(** The state [run_shard_thread] starts with. *)
Definition shard_new (id : ShardId) (config : EgressShardConfig) (b : B) : EgressShardRuntime :=
  mk_shard id config [] b 0 (tw_with_capacity (leaf_capacity config)) WakeGate_new None 0 0 0 [] [].

Definition set_receiver (q : list EgressCommand) (s : EgressShardRuntime) : EgressShardRuntime :=
  mk_shard (r_shard_id s) (r_config s) q (backend s) (ready_backlog s) (timers s) (wake_gate s)
    (draining_until s) (ready_overflows s) (queue_overflows s) (r_t s) (r_accepted s) (r_calls s).
(** The channel takes a command. *)
Definition accept (c : EgressCommand) (s : EgressShardRuntime) : EgressShardRuntime :=
  mk_shard (r_shard_id s) (r_config s) (receiver s) (backend s) (ready_backlog s) (timers s) (wake_gate s)
    (draining_until s) (ready_overflows s) (queue_overflows s) (r_t s) (r_accepted s ++ [c]) (r_calls s).
(** A call on the backend. *)
Definition set_backend (call : backend_call) (b : B) (s : EgressShardRuntime) : EgressShardRuntime :=
  mk_shard (r_shard_id s) (r_config s) (receiver s) b (ready_backlog s) (timers s) (wake_gate s)
    (draining_until s) (ready_overflows s) (queue_overflows s) (r_t s) (r_accepted s) (r_calls s ++ [call]).
Definition set_backlog (n overflows : Z) (s : EgressShardRuntime) : EgressShardRuntime :=
  mk_shard (r_shard_id s) (r_config s) (receiver s) (backend s) n (timers s) (wake_gate s)
    (draining_until s) overflows (queue_overflows s) (r_t s) (r_accepted s) (r_calls s).
Definition set_timers (w : TimerWheel OutputId) (overflows : Z) (s : EgressShardRuntime) : EgressShardRuntime :=
  mk_shard (r_shard_id s) (r_config s) (receiver s) (backend s) (ready_backlog s) w (wake_gate s)
    (draining_until s) (ready_overflows s) overflows (r_t s) (r_accepted s) (r_calls s).
Definition set_gate (g : WakeGate) (s : EgressShardRuntime) : EgressShardRuntime :=
  mk_shard (r_shard_id s) (r_config s) (receiver s) (backend s) (ready_backlog s) (timers s) g
    (draining_until s) (ready_overflows s) (queue_overflows s) (r_t s) (r_accepted s) (r_calls s).
Definition set_draining (d : option Z) (s : EgressShardRuntime) : EgressShardRuntime :=
  mk_shard (r_shard_id s) (r_config s) (receiver s) (backend s) (ready_backlog s) (timers s) (wake_gate s)
    d (ready_overflows s) (queue_overflows s) (r_t s) (r_accepted s) (r_calls s).

(** [Instant::now()] *)
Definition instant_now (s : EgressShardRuntime) : Z * EgressShardRuntime :=
  (clock (r_t s),
   mk_shard (r_shard_id s) (r_config s) (receiver s) (backend s) (ready_backlog s) (timers s) (wake_gate s)
     (draining_until s) (ready_overflows s) (queue_overflows s) (S (r_t s)) (r_accepted s) (r_calls s)).

(** Effects other than [Stop] become [Continue]; the result is [stops_shard]. *)
Definition apply_effect (e : EgressShardCommandEffect) (s : EgressShardRuntime) : bool * EgressShardRuntime :=
  match e with
  | ScheduleTimer id gen at_ =>
      let '(ok, w) := tw_insert at_ id gen (timers s) in
      (false, set_timers w (if ok then queue_overflows s else sat_u 64 (queue_overflows s + 1)) s)
  | ScheduleReady count =>
      let available := sat_u 64 (zst_capacity - ready_backlog s) in
      let accepted := Z.min count available in
      (false, set_backlog (ready_backlog s + accepted) (sat_u 64 (ready_overflows s + (count - accepted))) s)
  | EContinue => (false, s)
  | Stop => (true, s)
  end.

Definition call_command (c : EgressCommand) (s : EgressShardRuntime)
    : EgressShardCommandEffect * EgressShardRuntime :=
  let '(e, b) := on_command c (backend s) in (e, set_backend (CCommand c) b s).
Definition call_ready (s : EgressShardRuntime) : EgressShardCommandEffect * EgressShardRuntime :=
  let '(e, b) := on_ready (backend s) in (e, set_backend CReady b s).

Definition process_command (c : EgressCommand) (s : EgressShardRuntime)
    : EgressShardCommandEffect * EgressShardRuntime :=
  match c with
  | FeedWakeCommand =>
      let s := set_gate (take_pending (wake_gate s)).2 s in
      let '(_, s) := call_command FeedWakeCommand s in
      (ScheduleReady 1, s)
  | DrainShard target =>
      if negb (target =? r_shard_id s)%nat then (EContinue, s) else call_command c s
  | Shutdown =>
      match draining_until s with
      | None =>
          let '(now, s) := instant_now s in
          call_command Shutdown (set_draining (Some (now + drain_timeout (r_config s))) s)
      | Some _ => (EContinue, s)
      end
  | _ => call_command c s
  end.

(** The three batches: how much was done, whether the loop still runs. *)
Fixpoint command_loop (n : nat) (s : EgressShardRuntime) : nat * bool * EgressShardRuntime :=
  match n with
  | O => (O, true, s)
  | S n' =>
      match receiver s with
      | [] => (O, true, s)
      | c :: rest =>
          let '(e, s) := process_command c (set_receiver rest s) in
          let '(stops, s) := apply_effect e s in
          if stops then (1%nat, false, s)
          else let '(k, running, s) := command_loop n' s in (S k, running, s)
      end
  end.
Definition process_command_batch (s : EgressShardRuntime) : nat * bool * EgressShardRuntime :=
  command_loop (command_batch_budget (r_config s)) s.

Fixpoint ready_loop (n : nat) (s : EgressShardRuntime) : nat * bool * EgressShardRuntime :=
  match n with
  | O => (O, true, s)
  | S n' =>
      if ready_backlog s <=? 0 then (O, true, s)
      else
        let '(e, s) := call_ready (set_backlog (ready_backlog s - 1) (ready_overflows s) s) in
        let '(stops, s) := apply_effect e s in
        if stops then (1%nat, false, s)
        else let '(k, running, s) := ready_loop n' s in (S k, running, s)
  end.
Definition process_ready_batch (s : EgressShardRuntime) : nat * bool * EgressShardRuntime :=
  ready_loop (readiness_batch_budget (r_config s)) s.

Fixpoint timer_loop (expired : list (OutputId * Z)) (s : EgressShardRuntime) : nat * bool * EgressShardRuntime :=
  match expired with
  | [] => (O, true, s)
  | (id, gen) :: rest =>
      let '(e, b) := on_timer id gen (backend s) in
      let '(stops, s) := apply_effect e (set_backend (CTimer id gen) b s) in
      if stops then (1%nat, false, s)
      else let '(k, running, s) := timer_loop rest s in (S k, running, s)
  end.
Definition process_timer_batch (s : EgressShardRuntime) : nat * bool * EgressShardRuntime :=
  let '(now, s) := instant_now s in
  let '(expired, w) :=
    drain_expired_limited_into now (timer_batch_budget (r_config s)) (timer_generation (backend s)) (timers s) in
  timer_loop expired (set_timers w (queue_overflows s) s).

Definition idle_wait_bound (now : Z) (s : EgressShardRuntime) : Z * EgressShardRuntime :=
  let wait := idle_wait (r_config s) in
  let '(next, w) := next_deadline (timers s) in
  let wait := match next with Some d => Z.min wait (Z.max 0 (d - now)) | None => wait end in
  let wait := match draining_until s with Some d => Z.min wait (Z.max 0 (d - now)) | None => wait end in
  (wait, set_timers w (queue_overflows s) s).

Definition wait_for_activity (wake : EgressShardIdleWake) (s : EgressShardRuntime)
    : nat * bool * EgressShardRuntime :=
  let '(now, s) := instant_now s in
  let '(_, s) := idle_wait_bound now s in
  let s := set_backend CWait (wait_idle (backend s)) s in
  match wake with
  | IdleCommand c =>
      let '(e, s) := process_command c (accept c s) in
      let '(stops, s) := apply_effect e s in
      (1%nat, negb stops, s)
  | BackendActivity => let '(_, s) := apply_effect (ScheduleReady 1) s in (O, true, s)
  | IdleTimeout => (O, true, s)
  | Disconnected => (O, false, s)
  end.

(** The part of an iteration that runs when the three batches found nothing. *)
Definition idle_part (wake : EgressShardIdleWake) (s : EgressShardRuntime) : bool * EgressShardRuntime :=
  let '(processed, running, s) := wait_for_activity wake s in
  let '(ready, running, s) :=
    if running then process_ready_batch s else (O, false, s) in
  let '(timers_processed, running, s) :=
    if running then process_timer_batch s else (O, false, s) in
  let quiet := (processed =? 0)%nat && (ready =? 0)%nat && (timers_processed =? 0)%nat in
  let '(found_work, running, s) :=
    if running && quiet then
      let '(e, s) := call_ready s in
      let '(stops, s) := apply_effect e s in
      (match e with EContinue => false | _ => true end, negb stops, s)
    else (false, running, s) in
  let running :=
    if running && (match draining_until s with Some _ => true | None => false end) && quiet && negb found_work
    then false else running in
  (running, s).

(** [apply_effect] of the media tick: a [Stop] has no effect here. *)
Definition tick_part (s : EgressShardRuntime) : EgressShardRuntime :=
  let '(full, g) := take_full_delivery (wake_gate s) in
  let s := set_gate g s in
  let s := if full
           then let '(_, s) := call_command FeedWakeCommand s in (apply_effect (ScheduleReady 1) s).2
           else s in
  let '(e, b) := on_media_tick (backend s) in
  (apply_effect e (set_backend CTick b s)).2.

Definition iteration (wake : EgressShardIdleWake) (s : EgressShardRuntime) : bool * EgressShardRuntime :=
  let '(processed, running1, s) := process_command_batch s in
  let '(ready, running2, s) := process_ready_batch s in
  let '(timers_processed, running3, s) := process_timer_batch s in
  let running := running1 && running2 && running3 in
  let '(running, s) :=
    if running && (processed =? 0)%nat && (ready =? 0)%nat && (timers_processed =? 0)%nat
    then idle_part wake s else (running, s) in
  let s := tick_part s in
  match running, draining_until s with
  | true, Some d => let '(now, s) := instant_now s in (now <? d, s)
  | _, _ => (running, s)
  end.

(** What reaches the thread from outside between two iterations. *)
Inductive arrival :=
  | ASend (c : EgressCommand)
  | ADeliver.

(** [FeedWakeHandle::deliver] in one piece; its interleavings are in [WakeGate.v]. *)
Definition arrive (s : EgressShardRuntime) (a : arrival) : EgressShardRuntime :=
  let room := (length (receiver s) <? command_channel_capacity (r_config s))%nat in
  match a with
  | ASend c => if room then set_receiver (receiver s ++ [c]) (accept c s) else s
  | ADeliver =>
      let '(first, g) := notify (wake_gate s) in
      let s := set_gate g s in
      if first then
        if room then set_receiver (receiver s ++ [FeedWakeCommand]) (accept FeedWakeCommand s)
        else set_gate (record_full_delivery (wake_gate s)) s
      else s
  end.

(** [run]: iterations until one ends the loop, then [on_shutdown]. *)
Fixpoint run (inputs : list (list arrival * EgressShardIdleWake)) (s : EgressShardRuntime)
    : bool * EgressShardRuntime :=
  match inputs with
  | [] => (true, s)
  | (arrivals, wake) :: inputs =>
      let '(running, s) := iteration wake (fold_left arrive arrivals s) in
      if running then run inputs s
      else (false, mk_shard (r_shard_id s) (r_config s) (receiver s) (on_shutdown (backend s)) (ready_backlog s)
                     (timers s) (wake_gate s) (draining_until s) (ready_overflows s) (queue_overflows s) (r_t s)
                     (r_accepted s) (r_calls s))
  end.
End shard.
Arguments EgressShardRuntime : clear implicits.

(** ** What a piece of the loop does *)

Definition is_command (c : backend_call) : bool := match c with CCommand _ => true | _ => false end.
Definition is_timer (c : backend_call) : bool := match c with CTimer _ _ => true | _ => false end.
Definition is_ready (c : backend_call) : bool := match c with CReady => true | _ => false end.
Definition is_tick (c : backend_call) : bool := match c with CTick => true | _ => false end.
Definition count (f : backend_call -> bool) (calls : list backend_call) : nat := length (List.filter f calls).

Lemma count_app f a b : count f (a ++ b) = (count f a + count f b)%nat.
Proof. unfold count. by rewrite List.filter_app, length_app. Qed.

(** The commands a backend was handed, wakes left out. *)
Definition handed (calls : list backend_call) : list EgressCommand :=
  omap (fun c => match c with
                 | CCommand FeedWakeCommand => None
                 | CCommand c => Some c
                 | _ => None
                 end) calls.

(** Of the commands a shard receives, those its backend gets to see, wakes left out: not the
    draining of another shard, not a repeated [Shutdown]. *)
Fixpoint forward (id : ShardId) (draining : bool) (cs : list EgressCommand) : list EgressCommand :=
  match cs with
  | [] => []
  | FeedWakeCommand :: cs => forward id draining cs
  | DrainShard target :: cs =>
      if (target =? id)%nat then DrainShard target :: forward id draining cs else forward id draining cs
  | Shutdown :: cs => if draining then forward id true cs else Shutdown :: forward id true cs
  | c :: cs => c :: forward id draining cs
  end.

Definition is_shutdown (c : EgressCommand) : bool := match c with Shutdown => true | _ => false end.

Lemma forward_app id d cs cs' :
  forward id d (cs ++ cs') = forward id d cs ++ forward id (d || existsb is_shutdown cs) cs'.
Proof.
  revert d. induction cs as [|c cs IH]; intros d; cbn [app forward existsb]; [by rewrite orb_false_r|].
  destruct c; cbn [is_shutdown orb]; rewrite ?IH, ?orb_true_r; try done.
  - by destruct (_ =? _)%nat.
  - by destruct d.
Qed.

Definition is_draining {B} (s : EgressShardRuntime B) : bool :=
  match draining_until s with Some _ => true | None => false end.

Section trace.
Context {B : Type} `{EgressShardBackend B} (clock : nat -> Z).
Implicit Types (s : EgressShardRuntime B).

Definition backend_step (b : B) (c : backend_call) : B :=
  match c with
  | CCommand c => (on_command c b).2
  | CTimer id gen => (on_timer id gen b).2
  | CReady => (on_ready b).2
  | CTick => (on_media_tick b).2
  | CWait => wait_idle b
  end.

(** From [s] to [s'] the loop took the commands [cs] and made the calls [new]. *)
Record took (new : list backend_call) (cs : list EgressCommand) s s' : Prop := {
  tk_calls : r_calls s' = r_calls s ++ new;
  tk_backend : backend s' = fold_left backend_step new (backend s);
  tk_handed : handed new = forward (r_shard_id s) (is_draining s) cs;
  tk_id : r_shard_id s' = r_shard_id s;
  tk_config : r_config s' = r_config s;
  tk_clock : (r_t s <= r_t s')%nat;
  tk_draining : is_draining s' = is_draining s || existsb is_shutdown cs;
  tk_deadline : forall d, draining_until s = Some d -> draining_until s' = Some d;
  tk_set : forall d, draining_until s = None -> draining_until s' = Some d ->
    exists n, (r_t s <= n < r_t s')%nat /\ d = clock n + drain_timeout (r_config s) }.

Lemma took_refl s : took [] [] s s.
Proof.
  constructor; rewrite ?app_nil_r; cbn; rewrite ?orb_false_r; try done. intros d Hn Hd. congruence.
Qed.

Lemma took_trans n1 c1 n2 c2 s s1 s2 :
  took n1 c1 s s1 -> took n2 c2 s1 s2 -> took (n1 ++ n2) (c1 ++ c2) s s2.
Proof.
  intros [A1 A2 A3 A4 A5 A6 A7 A8 A9] [C1 C2 C3 C4 C5 C6 C7 C8 C9]. constructor.
  - by rewrite C1, A1, app_assoc.
  - by rewrite C2, A2, fold_left_app.
  - unfold handed in *. by rewrite omap_app, A3, C3, A4, A7, forward_app.
  - congruence.
  - congruence.
  - lia.
  - by rewrite C7, A7, existsb_app, orb_assoc.
  - auto.
  - intros d Hn Hd. destruct (draining_until s1) as [d1|] eqn:H1.
    + rewrite (C8 d1 eq_refl) in Hd. injection Hd as <-. destruct (A9 d1 Hn eq_refl) as (n & Hr & ->).
      exists n. split; [lia|done].
    + destruct (C9 d eq_refl Hd) as (n & Hr & ->). exists n. split; [lia|]. by rewrite A5.
Qed.

(** Steps that leave backend, trace and deadline alone. *)
Lemma took_quiet s s' :
  r_calls s' = r_calls s -> backend s' = backend s -> r_shard_id s' = r_shard_id s ->
  r_config s' = r_config s -> (r_t s <= r_t s')%nat -> draining_until s' = draining_until s -> took [] [] s s'.
Proof.
  intros H1 H2 H3 H4 H5 H6. constructor; rewrite ?app_nil_r; cbn; auto.
  - unfold is_draining. rewrite H6. by rewrite orb_false_r.
  - congruence.
  - intros d Hn Hd. congruence.
Qed.

Lemma took_call s call b :
  b = backend_step (backend s) call -> handed [call] = [] -> took [call] [] s (set_backend call b s).
Proof.
  intros -> Hh. constructor; cbn; rewrite ?orb_false_r; try done. intros d Hn Hd. congruence.
Qed.

Lemma apply_effect_took e s : took [] [] s (apply_effect e s).2.
Proof.
  apply took_quiet; destruct e; cbn; try done; by destruct (tw_insert _ _ _ _).
Qed.

Lemma call_command_took c s :
  (forall d cs, forward (r_shard_id s) d (c :: cs) = handed [CCommand c] ++ forward (r_shard_id s) d cs) ->
  is_shutdown c = false ->
  took [CCommand c] [c] s (call_command c s).2.
Proof.
  intros Hf Hs. unfold call_command. destruct (on_command c (backend s)) as [e b] eqn:Hc. cbn [snd].
  constructor; cbn [set_backend r_calls backend fold_left backend_step r_shard_id r_config r_t draining_until];
    try done.
  - by rewrite Hc.
  - by rewrite Hf, app_nil_r.
  - unfold is_draining. cbn [existsb draining_until]. by rewrite Hs, !orb_false_r.
  - intros d Hn Hd. congruence.
Qed.

(** A command that is taken and goes nowhere. *)
Lemma skip_took c s :
  forward (r_shard_id s) (is_draining s) [c] = [] ->
  is_draining s || is_shutdown c = is_draining s -> took [] [c] s s.
Proof.
  intros Hf Hs. constructor; rewrite ?app_nil_r; try done.
  - cbn [existsb]. by rewrite orb_false_r, Hs.
  - intros d Hn Hd. congruence.
Qed.

Lemma call_ready_took s : took [CReady] [] s (call_ready s).2.
Proof.
  unfold call_ready. destruct (on_ready (backend s)) as [e b] eqn:Hc. cbn [snd].
  apply took_call; [cbn; by rewrite Hc|done].
Qed.

Lemma process_command_took c s :
  exists new, took new [c] s (process_command clock c s).2 /\ (count is_command new <= 1)%nat /\
    count is_ready new = 0%nat /\ count is_timer new = 0%nat /\ count is_tick new = 0%nat.
Proof.
  destruct c as [spec|spec|id|id| |target|]; cbn [process_command];
    try (eexists; split; [by apply call_command_took|done]).
  - pose proof (call_command_took FeedWakeCommand (set_gate (take_pending (wake_gate s)).2 s)) as Hc.
    destruct (call_command _ _) as [e s']. exists [CCommand FeedWakeCommand]. split; [|done].
    apply (took_trans [] [] [_] [_] s (set_gate (take_pending (wake_gate s)).2 s)); [by apply took_quiet|].
    by apply Hc.
  - destruct (target =? r_shard_id s)%nat eqn:Ht; cbn [negb snd].
    + exists [CCommand (DrainShard target)]. split; [|done]. apply call_command_took; [|done]. intros d cs. cbn. by rewrite Ht.
    + exists []. split; [|cbn; lia]. apply skip_took; [cbn; by rewrite Ht|by rewrite orb_false_r].
  - destruct (draining_until s) as [d|] eqn:Hd; cbn [snd].
    + exists []. split; [|cbn; lia]. apply skip_took; unfold is_draining; by rewrite Hd.
    + exists [CCommand Shutdown]. split; [|done]. cbn. unfold call_command.
      destruct (on_command Shutdown _) as [e b] eqn:Hc. cbn in Hc. cbn [snd].
      constructor; cbn; unfold is_draining; rewrite ?Hd, ?Hc; try done; [lia|].
      intros d _ [= <-]. exists (r_t s). split; [lia|done].
Qed.

(** Only the command batch takes from the channel. *)
Definition chan s : list EgressCommand * list EgressCommand := (receiver s, r_accepted s).

Lemma apply_effect_receiver e s : chan (apply_effect e s).2 = chan s.
Proof. destruct e; cbn; try done. by destruct (tw_insert _ _ _ _). Qed.
Lemma call_command_receiver c s : chan (call_command c s).2 = chan s.
Proof. unfold call_command. by destruct (on_command c (backend s)). Qed.
Lemma process_command_receiver c s : chan (process_command clock c s).2 = chan s.
Proof.
  destruct c; cbn [process_command]; try apply call_command_receiver.
  - pose proof (call_command_receiver FeedWakeCommand (set_gate (take_pending (wake_gate s)).2 s)) as Hr.
    destruct (call_command _ _) as [e s']. exact Hr.
  - destruct (negb _); [done|apply call_command_receiver].
  - destruct (draining_until s); [done|]. cbn. by rewrite call_command_receiver.
Qed.

(** A command with its effect. *)
Lemma command_effect_took c s :
  let '(e, s1) := process_command clock c s in let '(stops, s') := apply_effect e s1 in
  exists new, took new [c] s s' /\ chan s' = chan s /\ (count is_command new <= 1)%nat /\
    count is_ready new = 0%nat /\ count is_timer new = 0%nat /\ count is_tick new = 0%nat.
Proof.
  destruct (process_command_took c s) as (new & Ht & Hcount). pose proof (process_command_receiver c s) as Hr.
  destruct (process_command clock c s) as [e s1]. pose proof (apply_effect_took e s1) as He.
  pose proof (apply_effect_receiver e s1) as Hre. destruct (apply_effect e s1) as [stops s'].
  cbn [snd] in *. exists new. split; [|split; [congruence|done]].
  rewrite <- (app_nil_r new), <- (app_nil_r [c]). by eapply took_trans.
Qed.

Lemma command_loop_took n : forall s,
  let '(k, running, s') := command_loop clock n s in
  exists new cs, took new cs s s' /\ receiver s = cs ++ receiver s' /\ r_accepted s' = r_accepted s /\ (k <= n)%nat /\
    (count is_command new <= k)%nat /\ count is_ready new = 0%nat /\ count is_timer new = 0%nat /\
    count is_tick new = 0%nat /\ (k = 0%nat -> running = true /\ s' = s /\ (n = 0%nat \/ receiver s = [])).
Proof.
  induction n as [|n IH]; intros s; cbn [command_loop].
  { exists [], []. split_and!; auto using took_refl. }
  destruct (receiver s) as [|c rest] eqn:Hr.
  { exists [], []. rewrite Hr. split_and!; auto using took_refl with lia. }
  pose proof (command_effect_took c (set_receiver rest s)) as Hc.
  destruct (process_command clock c (set_receiver rest s)) as [e s1].
  destruct (apply_effect e s1) as [[] s2]; destruct Hc as (new & Ht & Hrec & H1 & H2 & H3 & H4).
  all: assert (Ht0 : took new [c] s s2) by
    (apply (took_trans [] [] _ _ _ (set_receiver rest s)); [by apply took_quiet|done]).
  all: injection Hrec as Hrec Hacc.
  - exists new, [c]. rewrite Hrec. split_and!; auto with lia.
  - specialize (IH s2). destruct (command_loop clock n s2) as [[k running] s'].
    destruct IH as (new' & cs & Ht' & Hr' & Ha' & Hk & G1 & G2 & G3 & G4 & _).
    exists (new ++ new'), (c :: cs). rewrite !count_app. split_and!; try lia.
    + by apply (took_trans new [c] new' cs s s2).
    + cbn. rewrite <- Hr', Hrec. done.
    + rewrite Ha', Hacc. done.
Qed.

Lemma ready_loop_took n : forall s,
  let '(k, running, s') := ready_loop n s in
  exists new, took new [] s s' /\ chan s' = chan s /\ (k <= n)%nat /\
    count is_ready new = k /\ count is_command new = 0%nat /\ count is_timer new = 0%nat /\
    count is_tick new = 0%nat /\ (k = 0%nat -> running = true).
Proof.
  induction n as [|n IH]; intros s; cbn [ready_loop].
  { exists []. split_and!; auto using took_refl. }
  destruct (ready_backlog s <=? 0).
  { exists []. split_and!; auto using took_refl with lia. }
  pose proof (call_ready_took (set_backlog (ready_backlog s - 1) (ready_overflows s) s)) as Hc.
  assert (Hcr : chan (call_ready (set_backlog (ready_backlog s - 1) (ready_overflows s) s)).2 = chan s).
  { unfold call_ready. by destruct (on_ready _). }
  destruct (call_ready _) as [e s1]. pose proof (apply_effect_took e s1) as He.
  pose proof (apply_effect_receiver e s1) as Hre. destruct (apply_effect e s1) as [stops s2]. cbn [snd] in *.
  assert (Ht : took [CReady] [] s s2).
  { apply (took_trans [] [] [CReady] [] _ (set_backlog (ready_backlog s - 1) (ready_overflows s) s));
      [by apply took_quiet|]. by apply (took_trans [CReady] [] [] [] _ s1). }
  destruct stops.
  - exists [CReady]. rewrite Hre. split_and!; auto with lia.
  - specialize (IH s2). destruct (ready_loop n s2) as [[k running] s'].
    destruct IH as (new' & Ht' & Hr' & Hk & G1 & G2 & G3 & G4 & _).
    exists ([CReady] ++ new'). rewrite !count_app, Hr', Hre, Hcr. split_and!; try (cbn; lia); [|done].
    by apply (took_trans [CReady] [] new' [] s s2).
Qed.

Lemma timer_loop_took expired : forall s,
  let '(k, running, s') := timer_loop expired s in
  exists new, took new [] s s' /\ chan s' = chan s /\ (k <= length expired)%nat /\
    count is_timer new = k /\ count is_command new = 0%nat /\ count is_ready new = 0%nat /\
    count is_tick new = 0%nat /\ (k = 0%nat -> running = true).
Proof.
  induction expired as [|[id gen] expired IH]; intros s; cbn [timer_loop].
  { exists []. split_and!; auto using took_refl. }
  destruct (on_timer id gen (backend s)) as [e b] eqn:Hb.
  pose proof (took_call s (CTimer id gen) b ltac:(cbn; by rewrite Hb) eq_refl) as Hc.
  pose proof (apply_effect_took e (set_backend (CTimer id gen) b s)) as He.
  pose proof (apply_effect_receiver e (set_backend (CTimer id gen) b s)) as Hre.
  destruct (apply_effect e _) as [stops s2]. cbn [snd] in *.
  assert (Ht : took [CTimer id gen] [] s s2).
  { by apply (took_trans [CTimer id gen] [] [] [] s (set_backend (CTimer id gen) b s)). }
  destruct stops.
  - exists [CTimer id gen]. rewrite Hre. split_and!; cbn; auto with lia.
  - specialize (IH s2). destruct (timer_loop expired s2) as [[k running] s'].
    destruct IH as (new' & Ht' & Hr' & Hk & G1 & G2 & G3 & G4 & _).
    exists ([CTimer id gen] ++ new'). rewrite !count_app, Hr', Hre. split_and!; try (cbn; lia); [|done].
    by apply (took_trans [CTimer id gen] [] new' [] s s2).
Qed.
End trace.

Lemma drain_loop_quota {K} `{EqDecision K, !Countable K, !KeyOrd K} fuel now vg : forall quota
    (h : list (TimerEntry K)) act,
  (length (drain_loop fuel now vg quota h act).1.1 <= quota)%nat.
Proof.
  induction fuel as [|fuel IH]; intros quota h act; cbn [drain_loop]; [cbn; lia|].
  repeat (case_match; cbn [fst length]; try lia); simplify_eq;
    try match goal with Hd : drain_loop _ _ _ ?q ?h ?a = _ |- _ => specialize (IH q h a); rewrite Hd in IH; cbn in IH; lia end;
    try apply IH.
Qed.

Section iterations.
Context {B : Type} `{EgressShardBackend B} (clock : nat -> Z).
Implicit Types (s : EgressShardRuntime B).

(** The calls of a piece of the loop, by kind. *)
Definition within (new : list backend_call) (commands readies timers ticks : nat) : Prop :=
  (count is_command new <= commands)%nat /\ (count is_ready new <= readies)%nat /\
  (count is_timer new <= timers)%nat /\ count is_tick new = ticks.

Lemma within_app a b c1 r1 t1 k1 c2 r2 t2 k2 :
  within a c1 r1 t1 k1 -> within b c2 r2 t2 k2 -> within (a ++ b) (c1 + c2) (r1 + r2) (t1 + t2) (k1 + k2).
Proof. unfold within. rewrite !count_app. lia. Qed.

Lemma within_le a c r t k c' r' t' :
  within a c r t k -> (c <= c')%nat -> (r <= r')%nat -> (t <= t')%nat -> within a c' r' t' k.
Proof. unfold within. lia. Qed.

Lemma within_nil c r t : within [] c r t 0.
Proof. unfold within. cbn. lia. Qed.

Lemma process_command_batch_took s :
  let '(k, running, s') := process_command_batch clock s in
  exists new cs, took clock new cs s s' /\ receiver s = cs ++ receiver s' /\ r_accepted s' = r_accepted s /\
    within new (command_batch_budget (r_config s)) 0 0 0 /\
    (k = 0%nat -> running = true /\ s' = s /\ (command_batch_budget (r_config s) = 0%nat \/ receiver s = [])).
Proof.
  unfold process_command_batch. pose proof (command_loop_took clock (command_batch_budget (r_config s)) s) as Hc.
  destruct (command_loop clock _ s) as [[k running] s']. destruct Hc as (new & cs & Ht & Hr & Ha & Hk & H1 & H2 & H3 & H4 & H5).
  exists new, cs. split_and!; auto. unfold within. lia.
Qed.

Lemma process_ready_batch_took s :
  let '(k, running, s') := process_ready_batch s in
  exists new, took clock new [] s s' /\ chan s' = chan s /\
    within new 0 (readiness_batch_budget (r_config s)) 0 0.
Proof.
  unfold process_ready_batch. pose proof (ready_loop_took clock (readiness_batch_budget (r_config s)) s) as Hc.
  destruct (ready_loop _ s) as [[k running] s']. destruct Hc as (new & Ht & Hr & Hk & H1 & H2 & H3 & H4 & H5).
  exists new. split_and!; auto. unfold within. lia.
Qed.

Lemma process_timer_batch_took s :
  let '(k, running, s') := process_timer_batch clock s in
  exists new, took clock new [] s s' /\ chan s' = chan s /\
    within new 0 0 (timer_batch_budget (r_config s)) 0 /\ (r_t s < r_t s')%nat.
Proof.
  unfold process_timer_batch. cbn [instant_now].
  set (s0 := mk_shard _ _ _ _ _ _ _ _ _ _ (S (r_t s)) _ _).
  change (r_config s0) with (r_config s). change (backend s0) with (backend s). change (timers s0) with (timers s).
  assert (Hlen : (length (drain_expired_limited_into (clock (r_t s)) (timer_batch_budget (r_config s))
    (timer_generation (backend s)) (timers s)).1 <= timer_batch_budget (r_config s))%nat).
  { unfold drain_expired_limited_into.
    match goal with |- context [drain_loop ?f ?n ?v ?q ?h ?a] => pose proof (drain_loop_quota f n v q h a) as Hq end.
    by destruct (drain_loop _ _ _ _ _ _) as [[fired h] act]. }
  destruct (drain_expired_limited_into _ _ _ _) as [expired w]. cbn [fst] in Hlen.
  pose proof (timer_loop_took clock expired (set_timers w (queue_overflows s0) s0)) as Hc.
  destruct (timer_loop expired _) as [[k running] s']. destruct Hc as (new & Ht & Hr & Hk & H1 & H2 & H3 & H4 & H5).
  exists new. split_and!; auto.
  - apply (took_trans clock [] [] new [] s (set_timers w (queue_overflows s0) s0)); [|done].
    apply took_quiet; try done. cbn. lia.
  - unfold within. lia.
  - pose proof (tk_clock _ _ _ _ _ Ht) as Hcl. cbn in Hcl. lia.
Qed.

Definition arrived (wake : EgressShardIdleWake) : list EgressCommand :=
  match wake with IdleCommand c => [c] | _ => [] end.

Lemma wait_for_activity_took wake s :
  let '(k, running, s') := wait_for_activity clock wake s in
  exists new, took clock new (arrived wake) s s' /\ chan s' = (receiver s, r_accepted s ++ arrived wake) /\ within new 1 0 0 0.
Proof.
  unfold wait_for_activity, idle_wait_bound. cbn [instant_now].
  set (s0 := mk_shard _ _ _ _ _ _ _ _ _ _ (S (r_t s)) _ _).
  destruct (next_deadline (timers s0)) as [next w].
  set (s1 := set_backend CWait _ _).
  assert (H1 : took clock [CWait] [] s s1).
  { apply (took_trans clock [] [] [CWait] [] s (set_timers w (queue_overflows s0) s0)).
    - apply took_quiet; try done. cbn. lia.
    - by apply took_call. }
  assert (Hquiet : exists new, took clock new [] s s1 /\ chan s1 = (receiver s, r_accepted s ++ []) /\ within new 1 0 0 0).
  { exists [CWait]. rewrite app_nil_r. split_and!; [done|done|]. unfold within. cbn. lia. }
  destruct wake as [c| | |]; cbn [arrived]; try exact Hquiet.
  - pose proof (command_effect_took clock c (accept c s1)) as Hc.
    destruct (process_command clock c (accept c s1)) as [e s2].
    destruct (apply_effect e s2) as [stops s']. destruct Hc as (new & Ht & Hr & G1 & G2 & G3 & G4).
    exists ([CWait] ++ new). split_and!; [|by rewrite Hr|].
    { apply (took_trans clock [CWait] [] new [c] s (accept c s1)); [|done].
      apply (took_trans clock [CWait] [] [] [] s s1); [done|by apply took_quiet]. }
    unfold within. rewrite !count_app. cbn. lia.
  - pose proof (apply_effect_took clock (ScheduleReady 1) s1) as He.
    pose proof (apply_effect_receiver (ScheduleReady 1) s1) as Hr.
    destruct (apply_effect (ScheduleReady 1) s1) as [stops s']. cbn [snd] in *.
    exists ([CWait] ++ []). split_and!; [by apply (took_trans clock [CWait] [] [] [] s s1)|rewrite Hr, app_nil_r; done|].
    unfold within. cbn. lia.
Qed.

Lemma idle_part_took wake s :
  let '(running, s') := idle_part clock wake s in
  exists new, took clock new (arrived wake) s s' /\ chan s' = (receiver s, r_accepted s ++ arrived wake) /\
    within new 1 (readiness_batch_budget (r_config s) + 1) (timer_batch_budget (r_config s)) 0.
Proof.
  unfold idle_part. pose proof (wait_for_activity_took wake s) as Hw.
  destruct (wait_for_activity clock wake s) as [[processed running] s1]. destruct Hw as (n1 & T1 & R1 & W1).
  assert (H2 : let '(ready, running2, s2) := (if running then process_ready_batch s1 else (O, false, s1)) in
    exists new, took clock new (arrived wake) s s2 /\ chan s2 = (receiver s, r_accepted s ++ arrived wake) /\
      within new 1 (readiness_batch_budget (r_config s)) 0 0).
  { destruct running; [|exists n1; split_and!; auto; by eapply within_le; eauto with lia].
    pose proof (process_ready_batch_took s1) as Hr. destruct (process_ready_batch s1) as [[k r] s2].
    destruct Hr as (n2 & T2 & R2 & W2). exists (n1 ++ n2). rewrite (tk_config _ _ _ _ _ T1) in W2.
    split_and!; [|congruence|apply (within_app _ _ _ _ _ _ _ _ _ _ W1 W2)].
    rewrite <- (app_nil_r (arrived wake)). by eapply took_trans. }
  destruct (if running then process_ready_batch s1 else (O, false, s1)) as [[ready running2] s2].
  destruct H2 as (n2 & T2 & R2 & W2).
  assert (H3 : let '(tp, running3, s3) := (if running2 then process_timer_batch clock s2 else (O, false, s2)) in
    exists new, took clock new (arrived wake) s s3 /\ chan s3 = (receiver s, r_accepted s ++ arrived wake) /\
      within new 1 (readiness_batch_budget (r_config s)) (timer_batch_budget (r_config s)) 0).
  { destruct running2; [|exists n2; split_and!; auto; by eapply within_le; eauto with lia].
    pose proof (process_timer_batch_took s2) as Hr. destruct (process_timer_batch clock s2) as [[k r] s3].
    destruct Hr as (n3 & T3 & R3 & W3 & _). exists (n2 ++ n3). rewrite (tk_config _ _ _ _ _ T2) in W3.
    split_and!; [|congruence|].
    - rewrite <- (app_nil_r (arrived wake)). by eapply took_trans.
    - eapply within_le; [apply (within_app _ _ _ _ _ _ _ _ _ _ W2 W3)|lia..]. }
  destruct (if running2 then process_timer_batch clock s2 else (O, false, s2)) as [[tp running3] s3].
  destruct H3 as (n3 & T3 & R3 & W3).
  destruct (running3 && _) eqn:Hq.
  - pose proof (call_ready_took clock s3) as T4.
    assert (R4 : chan (call_ready s3).2 = chan s3) by (unfold call_ready; by destruct (on_ready _)).
    destruct (call_ready s3) as [e s4]. pose proof (apply_effect_took clock e s4) as T5.
    pose proof (apply_effect_receiver e s4) as R5. destruct (apply_effect e s4) as [stops s5]. cbn [snd] in *.
    exists (n3 ++ [CReady] ++ []). split_and!; [|congruence|].
    + rewrite <- (app_nil_r (arrived wake)). eapply took_trans; [exact T3|].
      by apply (took_trans clock [CReady] [] [] [] s3 s4).
    + eapply within_le; [apply (within_app _ _ _ _ _ _ 0 1 0 0 W3); unfold within; cbn; lia|lia..].
  - exists n3. split_and!; auto. by eapply within_le; eauto with lia.
Qed.

Lemma tick_part_took s :
  exists new, took clock new [] s (tick_part s) /\ chan (tick_part s) = chan s /\ within new 1 0 0 1.
Proof.
  unfold tick_part. destruct (take_full_delivery (wake_gate s)) as [full g].
  set (s0 := set_gate g s). assert (T0 : took clock [] [] s s0) by by apply took_quiet.
  assert (H1 : exists new, took clock new [] s0 (if full
    then let '(_, s) := call_command FeedWakeCommand s0 in (apply_effect (ScheduleReady 1) s).2 else s0) /\
    chan (if full then let '(_, s) := call_command FeedWakeCommand s0 in (apply_effect (ScheduleReady 1) s).2 else s0)
      = chan s0 /\ within new 1 0 0 0).
  { destruct full; [|exists []; split_and!; [apply took_refl|done|apply within_nil]].
    unfold call_command. destruct (on_command FeedWakeCommand (backend s0)) as [e b] eqn:Hb.
    exists ([CCommand FeedWakeCommand] ++ []). rewrite apply_effect_receiver. split_and!; [|done|unfold within; cbn; lia].
    eapply (took_trans clock _ [] _ []); [|apply apply_effect_took]. apply took_call; [cbn [backend_step]; by rewrite Hb|done]. }
  set (s1 := if full then _ else s0) in *. destruct H1 as (new & T1 & R1 & W1).
  destruct (on_media_tick (backend s1)) as [e b] eqn:Hb.
  exists (([] ++ new) ++ [CTick] ++ []). rewrite apply_effect_receiver. split_and!.
  - eapply (took_trans clock _ [] _ []); [by eapply (took_trans clock _ [] _ [])|].
    eapply (took_trans clock _ [] _ []); [|apply apply_effect_took]. apply took_call; [cbn [backend_step]; by rewrite Hb|done].
  - exact R1.
  - cbn [app]. apply (within_app _ _ 1 0 0 0 0 0 0 1 W1). unfold within. cbn. lia.
Qed.

(** The commands [cs] are the next ones the channel had taken. *)
Definition flow (cs : list EgressCommand) s s' : Prop :=
  forall pre, r_accepted s = pre ++ receiver s -> r_accepted s' = (pre ++ cs) ++ receiver s'.

Lemma flow_chan s s' : chan s' = chan s -> flow [] s s'.
Proof. unfold chan, flow. intros [= -> ->] pre. by rewrite app_nil_r. Qed.

Lemma flow_trans c1 c2 s s1 s2 : flow c1 s s1 -> flow c2 s1 s2 -> flow (c1 ++ c2) s s2.
Proof. unfold flow. intros H1 H2 pre Hp. rewrite app_assoc. by apply H2, H1. Qed.

(** The batches every iteration starts with. *)
Lemma batches_took s :
  let '(k1, r1, s1) := process_command_batch clock s in
  let '(k2, r2, s2) := process_ready_batch s1 in
  let '(k3, r3, s3) := process_timer_batch clock s2 in
  exists new cs, took clock new cs s s3 /\ flow cs s s3 /\
    within new (command_batch_budget (r_config s)) (readiness_batch_budget (r_config s))
      (timer_batch_budget (r_config s)) 0 /\ (r_t s < r_t s3)%nat /\
    (k1 = 0%nat -> (1 <= command_batch_budget (r_config s))%nat -> receiver s3 = []).
Proof.
  pose proof (process_command_batch_took s) as H1.
  destruct (process_command_batch clock s) as [[k1 r1] s1]. destruct H1 as (n1 & cs & T1 & R1 & A1 & W1 & Hk).
  pose proof (process_ready_batch_took s1) as H2.
  destruct (process_ready_batch s1) as [[k2 r2] s2]. destruct H2 as (n2 & T2 & R2 & W2).
  pose proof (process_timer_batch_took s2) as H3.
  destruct (process_timer_batch clock s2) as [[k3 r3] s3]. destruct H3 as (n3 & T3 & R3 & W3 & K3).
  rewrite (tk_config _ _ _ _ _ T2) in W3. rewrite (tk_config _ _ _ _ _ T1) in W2, W3.
  exists (n1 ++ n2 ++ n3), (cs ++ [] ++ []). split_and!.
  - eapply took_trans; [exact T1|]. by eapply took_trans.
  - apply (flow_trans _ _ s s1); [|by eapply flow_trans; apply flow_chan].
    intros pre Hp. by rewrite A1, Hp, R1, app_assoc.
  - eapply within_le; [apply (within_app _ _ _ _ _ _ _ _ _ _ W1 (within_app _ _ _ _ _ _ _ _ _ _ W2 W3))|lia..].
  - pose proof (tk_clock _ _ _ _ _ T1). pose proof (tk_clock _ _ _ _ _ T2). lia.
  - intros Hk0 Hb. destruct (Hk Hk0) as (_ & -> & [Hz|Hr]); [lia|].
    unfold chan in *. simplify_eq. congruence.
Qed.

Lemma iteration_took wake s :
  (1 <= command_batch_budget (r_config s))%nat ->
  let '(running, s') := iteration clock wake s in
  exists new cs, took clock new cs s s' /\ flow cs s s' /\
    within new (command_batch_budget (r_config s) + 2) (2 * readiness_batch_budget (r_config s) + 1)
      (2 * timer_batch_budget (r_config s)) 1 /\ (r_t s < r_t s')%nat /\
    (running = true -> forall d, draining_until s' = Some d -> exists n, (r_t s <= n < r_t s')%nat /\ clock n < d).
Proof.
  intros Hb. unfold iteration. pose proof (batches_took s) as H1.
  destruct (process_command_batch clock s) as [[k1 r1] s1]. destruct (process_ready_batch s1) as [[k2 r2] s2].
  destruct (process_timer_batch clock s2) as [[k3 r3] s3]. destruct H1 as (n3 & c3 & T3 & F3 & W3 & K3 & Hempty).
  assert (H4 : let '(running, s4) := (if r1 && r2 && r3 && (k1 =? 0)%nat && (k2 =? 0)%nat && (k3 =? 0)%nat
      then idle_part clock wake s3 else (r1 && r2 && r3, s3)) in
    exists new cs, took clock new cs s s4 /\ flow cs s s4 /\
      within new (command_batch_budget (r_config s) + 1) (2 * readiness_batch_budget (r_config s) + 1)
        (2 * timer_batch_budget (r_config s)) 0 /\ (r_t s3 <= r_t s4)%nat).
  { destruct (r1 && r2 && r3 && (k1 =? 0)%nat && (k2 =? 0)%nat && (k3 =? 0)%nat) eqn:Hc.
    - pose proof (idle_part_took wake s3) as Hi. destruct (idle_part clock wake s3) as [running s4].
      destruct Hi as (n4 & T4 & R4 & W4). rewrite (tk_config _ _ _ _ _ T3) in W4.
      exists (n3 ++ n4), (c3 ++ arrived wake). split_and!; [by eapply took_trans| | |apply (tk_clock _ _ _ _ _ T4)].
      + eapply flow_trans; [exact F3|]. intros pre Hp. injection R4 as -> ->.
        assert (Hk : k1 = 0%nat) by (apply Nat.eqb_eq; by destruct (k1 =? 0)%nat, r1, r2, r3).
        rewrite Hp, (Hempty Hk Hb), !app_nil_r. done.
      + eapply within_le; [apply (within_app _ _ _ _ _ _ _ _ _ _ W3 W4)|lia..].
    - exists n3, c3. split_and!; [done|done| |lia]. eapply within_le; [exact W3|lia..]. }
  destruct (if r1 && r2 && r3 && _ && _ && _ then _ else _) as [running s4]. destruct H4 as (n4 & c4 & T4 & F4 & W4 & K4).
  destruct (tick_part_took s4) as (n5 & T5 & R5 & W5). set (s5 := tick_part s4) in *.
  pose proof (tk_clock _ _ _ _ _ T5) as K5.
  assert (H5 : took clock (n4 ++ n5) (c4 ++ []) s s5 /\ flow (c4 ++ []) s s5 /\
    within (n4 ++ n5) (command_batch_budget (r_config s) + 2) (2 * readiness_batch_budget (r_config s) + 1)
      (2 * timer_batch_budget (r_config s)) 1).
  { split_and!; [by eapply took_trans|by eapply flow_trans; [|apply flow_chan]|].
    eapply within_le; [apply (within_app _ _ _ _ _ _ _ _ _ _ W4 W5)|lia..]. }
  destruct H5 as (T & F & W). destruct running, (draining_until s5) as [d|] eqn:Hd;
    try (exists (n4 ++ n5), (c4 ++ []); split_and!; [done|done|done|lia|intros ? d' Hd'; congruence]).
  cbn [instant_now]. exists ((n4 ++ n5) ++ []), ((c4 ++ []) ++ []). split_and!.
  - eapply took_trans; [exact T|]. apply took_quiet; try done. cbn. lia.
  - eapply flow_trans; [exact F|]. by apply flow_chan.
  - by rewrite app_nil_r.
  - change (r_t s < S (r_t s5))%nat. lia.
  - intros Hlt%Z.ltb_lt d' Hd'. change (draining_until s5 = Some d') in Hd'. assert (d' = d) as -> by congruence.
    exists (r_t s5). split; [|done]. change (r_t s <= r_t s5 < S (r_t s5))%nat. lia.
Qed.

Lemma arrive_took a s : took clock [] [] s (arrive s a) /\ flow [] s (arrive s a).
Proof.
  assert (Hpush : forall c s0, took clock [] [] s0 (set_receiver (receiver s0 ++ [c]) (accept c s0)) /\
    flow [] s0 (set_receiver (receiver s0 ++ [c]) (accept c s0))).
  { intros c s0. split; [by apply took_quiet|]. intros pre Hp. cbn. by rewrite Hp, app_nil_r, app_assoc. }
  assert (Hgate : forall g s0, took clock [] [] s0 (set_gate g s0) /\ flow [] s0 (set_gate g s0)).
  { intros g s0. split; [by apply took_quiet|by apply flow_chan]. }
  assert (Htrans : forall s0 s1 s2, took clock [] [] s0 s1 /\ flow [] s0 s1 -> took clock [] [] s1 s2 /\ flow [] s1 s2 ->
    took clock [] [] s0 s2 /\ flow [] s0 s2).
  { intros s0 s1 s2 [A1 A2] [C1 C2]. split; [by apply (took_trans clock [] [] [] [] s0 s1)|by apply (flow_trans [] [] s0 s1)]. }
  unfold arrive. destruct a as [c|].
  - destruct (_ <? _)%nat; [apply Hpush|]. split; [apply took_refl|by apply flow_chan].
  - cbn [notify]. destruct (negb _); [|apply Hgate].
    eapply Htrans; [apply Hgate|]. destruct (_ <? _)%nat; [apply Hpush|apply Hgate].
Qed.

Lemma arrive_all_took arrivals : forall s,
  took clock [] [] s (fold_left arrive arrivals s) /\ flow [] s (fold_left arrive arrivals s).
Proof.
  induction arrivals as [|a arrivals IH]; intros s; cbn [fold_left].
  { split; [apply took_refl|by apply flow_chan]. }
  destruct (arrive_took a s) as [A1 A2], (IH (arrive s a)) as [C1 C2].
  split; [by apply (took_trans clock [] [] [] [] s (arrive s a))|by apply (flow_trans [] [] s (arrive s a))].
Qed.

(** A whole run, up to the call of [on_shutdown]. *)
Lemma run_took inputs : forall s,
  (1 <= command_batch_budget (r_config s))%nat ->
  let '(running, s') := run clock inputs s in
  exists new cs s1, took clock new cs s s1 /\ flow cs s s1 /\
    r_accepted s' = r_accepted s1 /\ receiver s' = receiver s1 /\ r_calls s' = r_calls s1 /\
    draining_until s' = draining_until s1 /\
    backend s' = (if running then backend s1 else on_shutdown (backend s1)) /\
    (running = true -> inputs <> [] -> forall d, draining_until s1 = Some d ->
       exists n, (r_t s + length inputs - 1 <= n < r_t s1)%nat /\ clock n < d).
Proof.
  induction inputs as [|[arrivals wake] inputs IH]; intros s Hb; cbn [run].
  { exists [], [], s. split_and!; [apply took_refl|by apply flow_chan|done..]. }
  destruct (arrive_all_took arrivals s) as [T0 F0]. set (s0 := fold_left arrive arrivals s) in *.
  assert (Hb0 : (1 <= command_batch_budget (r_config s0))%nat) by by rewrite (tk_config _ _ _ _ _ T0).
  pose proof (iteration_took wake s0 Hb0) as Hi. destruct (iteration clock wake s0) as [running s1].
  destruct Hi as (n1 & c1 & T1 & F1 & _ & K1 & Hd1).
  pose proof (took_trans _ _ _ _ _ _ _ _ T0 T1) as T. pose proof (flow_trans _ _ _ _ _ F0 F1) as F.
  pose proof (tk_clock _ _ _ _ _ T0) as K0.
  destruct running; [|exists ([] ++ n1), ([] ++ c1), s1; split_and!; auto; done].
  destruct (decide (inputs = [])) as [->|Hne].
  { exists ([] ++ n1), ([] ++ c1), s1. cbn [run]. split_and!; [done..|]. intros _ _ d Hd.
    destruct (Hd1 eq_refl d Hd) as (n & Hn & Hlt). exists n. cbn. split; [lia|done]. }
  assert (Hb1 : (1 <= command_batch_budget (r_config s1))%nat) by by rewrite (tk_config _ _ _ _ _ T).
  specialize (IH s1 Hb1). destruct (run clock inputs s1) as [running s'].
  destruct IH as (n2 & c2 & s2 & T2 & F2 & E1 & E2 & E3 & E4 & E5 & Hd2).
  exists (([] ++ n1) ++ n2), (([] ++ c1) ++ c2), s2. split_and!; auto.
  - by eapply took_trans.
  - by eapply flow_trans.
  - intros Hr _ d Hd. destruct (Hd2 Hr Hne d Hd) as (n & Hn & Hlt). exists n. cbn [length]. split; [lia|done].
Qed.
End iterations.

(** ** Properties *)

Section properties.
Context {B : Type} `{EgressShardBackend B} (clock : nat -> Z).

(** A shard hands its commands on, in order and once each.  Run a shard on any backend
    and any clock, with commands and wakes arriving at any time.  The commands it received
    are the first ones its channel took, in that order, and the rest still wait in the
    channel.  The backend was handed exactly those, wakes apart and except that the draining
    of another shard and a second [Shutdown] go no further.  The backend is what these calls,
    the ready visits, the timers and the ticks made of it, and [on_shutdown] is its last call
    when the loop ends. *)
Theorem shard_hands_on_commands_in_order id config (b0 : B) inputs :
  (1 <= command_batch_budget config)%nat ->
  let '(running, s) := run clock inputs (shard_new id config b0) in
  exists received,
    r_accepted s = received ++ receiver s /\
    handed (r_calls s) = forward id false received /\
    (let b := fold_left backend_step (r_calls s) b0 in
     backend s = if running then b else on_shutdown b).
Proof.
  intros Hb. pose proof (run_took clock inputs (shard_new id config b0) Hb) as Hr.
  destruct (run clock inputs _) as [running s].
  destruct Hr as (new & cs & s1 & [T1 T2 T3 _ _ _ _ _ _] & F & E1 & E2 & E3 & _ & E5 & _).
  exists cs. rewrite E1, E2, E3, E5, T1, T2. cbn [r_calls shard_new app]. split_and!; [by apply (F [])|exact T3|].
  by destruct running.
Qed.

(** The work of one iteration is bounded.  Whatever state the shard is in and however it
    wakes, an iteration hands the backend at most the batch of commands and two more, calls
    [on_ready] at most twice the batch and once more, fires at most twice the timer batch,
    and runs exactly one media tick: no source of work can keep the others from their turn. *)
Theorem iteration_work_is_bounded wake (s : EgressShardRuntime B) :
  (1 <= command_batch_budget (r_config s))%nat ->
  let '(running, s') := iteration clock wake s in
  exists new, r_calls s' = r_calls s ++ new /\
    (count is_command new <= command_batch_budget (r_config s) + 2)%nat /\
    (count is_ready new <= 2 * readiness_batch_budget (r_config s) + 1)%nat /\
    (count is_timer new <= 2 * timer_batch_budget (r_config s))%nat /\
    count is_tick new = 1%nat.
Proof.
  intros Hb. pose proof (iteration_took clock wake s Hb) as Hi. destruct (iteration clock wake s) as [running s'].
  destruct Hi as (new & cs & T & _ & W & _). exists new. split; [apply T|exact W].
Qed.

(** C7: A draining shard stops in time.  Once [Shutdown] has set the deadline it never moves,
    whatever arrives later.  Give the shard any inputs, one per iteration, on a clock that
    does not run backwards and has passed the deadline by the time there have been that many
    iterations: the loop ends within them, and [on_shutdown] has been called.  No wait may
    sleep past the deadline. *)
Theorem draining_shard_stops inputs (s : EgressShardRuntime B) d :
  (1 <= command_batch_budget (r_config s))%nat -> draining_until s = Some d ->
  (forall n n', (n <= n')%nat -> clock n <= clock n') -> inputs <> [] ->
  (d <= clock (r_t s + length inputs - 1)%nat ->
   exists s' b, run clock inputs s = (false, s') /\ backend s' = on_shutdown b) /\
  draining_until (run clock inputs s).2 = Some d /\
  forall now, (idle_wait_bound now s).1 <= Z.max 0 (d - now).
Proof.
  intros Hb Hd Hmono Hne. pose proof (run_took clock inputs s Hb) as Hr.
  destruct (run clock inputs s) as [running s'].
  destruct Hr as (new & cs & s1 & T & _ & _ & _ & _ & E4 & E5 & Hlast).
  assert (Hd1 : draining_until s1 = Some d) by by apply (tk_deadline _ _ _ _ _ T).
  split_and!.
  - intros Hpast. destruct running; [exfalso|eauto].
    destruct (Hlast eq_refl Hne d Hd1) as (n & Hn & Hlt).
    specialize (Hmono (r_t s + length inputs - 1)%nat n ltac:(lia)). lia.
  - cbn. by rewrite E4.
  - intros now. unfold idle_wait_bound. destruct (next_deadline (timers s)) as [next w]. rewrite Hd. cbn. lia.
Qed.

(** The wait never oversleeps a timer.  Whatever was scheduled, replaced or fired before,
    the longest a shard may park is no more than its idle wait and no more than what is left
    until the earliest timer that still counts; working it out changes no timer. *)
Theorem shard_never_oversleeps (s : EgressShardRuntime B) cap now :
  wheel_reachable cap (timers s) ->
  let '(wait, s') := idle_wait_bound now s in
  wait <= idle_wait (r_config s) /\
  (forall id e, active (timers s) !! id = Some e -> wait <= Z.max 0 (fire_at e - now)) /\
  active (timers s') = active (timers s).
Proof.
  intros [Hok _]%wheel_reachable_ok. unfold idle_wait_bound.
  destruct (next_deadline (timers s)) as [next w] eqn:Hn. destruct (next_deadline_ok _ _ _ Hok Hn) as (_ & Ha & Hd).
  cbn [fst snd timers set_timers]. split_and!; [destruct next, (draining_until s); lia| |exact Ha].
  intros id e He. destruct next as [t|].
  - destruct Hd as [_ Hmin]. specialize (Hmin id e He). destruct (draining_until s); lia.
  - by rewrite Hd in He.
Qed.

(** The ready backlog has no bound of its own.  [ready_backlog] is made [with_capacity] of
    the channel's capacity plus the ready batch, and [apply_effect] is written to refuse what
    is beyond that and to count it in [ready_overflows].  Its elements take no room, so its
    capacity is always [usize::MAX]: however many visits are asked for, they are all queued,
    also far beyond the capacity asked for, and no overflow is ever counted. *)
Theorem ready_backlog_never_overflows (s : EgressShardRuntime B) effects :
  0 <= ready_backlog s -> ready_backlog s + Z.of_nat (length effects) < 2 ^ 64 ->
  0 <= ready_overflows s < 2 ^ 64 ->
  Forall (fun e => e = ScheduleReady 1) effects ->
  let s' := fold_left (fun s e => (apply_effect e s).2) effects s in
  ready_backlog s' = ready_backlog s + Z.of_nat (length effects) /\ ready_overflows s' = ready_overflows s.
Proof.
  intros Hn Hlt Ho Hall. revert s Hn Hlt Ho. induction Hall as [|e effects -> _ IH]; intros s Hn Hlt Ho.
  { cbn. lia. }
  cbn [length] in Hlt. cbn [fold_left length].
  set (s1 := (apply_effect (ScheduleReady 1) s).2).
  assert (Hs1 : ready_backlog s1 = ready_backlog s + 1 /\ ready_overflows s1 = ready_overflows s).
  { subst s1. cbn. unfold zst_capacity, sat_u. lia. }
  destruct Hs1 as [Hb1 Ho1]. destruct (IH s1) as [H1 H2]; [lia|lia|lia|]. rewrite H1, H2. lia.
Qed.
End properties.

(** ** Witnesses *)

(** A backend that counts its calls. *)
#[local] Instance counting_backend : EgressShardBackend nat := {
  on_command c b := (match c with Shutdown => EContinue | Add _ => ScheduleTimer "a"%string 1 5 | _ => EContinue end, S b);
  timer_generation _ _ := Some 1;
  on_timer _ _ b := (ScheduleReady 1, S b);
  on_ready b := (EContinue, S b);
  on_media_tick b := (EContinue, S b);
  wait_idle b := b;
  on_shutdown b := 0%nat }.

Definition small_config : EgressShardConfig :=
  {| command_channel_capacity := 2; command_batch_budget := 1; readiness_batch_budget := 1;
     timer_batch_budget := 1; leaf_capacity := 4; idle_wait := 10; drain_timeout := 3 |}.
Definition small_spec : OutputSpec :=
  {| os_id := "a"%string; os_generation := 1; os_feed := "f"%string; os_protocol := PSink;
     os_policy := LeafPolicy_default |}.
Definition small_inputs : list (list arrival * EgressShardIdleWake) :=
  [([ASend (Add small_spec); ASend (DrainShard 9); ASend (Remove "x")], IdleTimeout);
   ([ADeliver], IdleTimeout); ([], BackendActivity); ([], IdleCommand Shutdown)].

Lemma shard_hands_on_commands_in_order_witness :
  exists received, r_accepted (run Z.of_nat small_inputs (shard_new 0 small_config 0%nat)).2 = received ++
      receiver (run Z.of_nat small_inputs (shard_new 0 small_config 0%nat)).2 /\
    handed (r_calls (run Z.of_nat small_inputs (shard_new 0 small_config 0%nat)).2) = forward 0 false received.
Proof.
  pose proof (shard_hands_on_commands_in_order Z.of_nat 0 small_config 0%nat small_inputs ltac:(cbn; lia)) as Hr.
  destruct (run Z.of_nat small_inputs (shard_new 0 small_config 0%nat)) as [running s].
  destruct Hr as (received & H1 & H2 & _). exists received. split; [exact H1|exact H2].
Defined.

Lemma iteration_work_is_bounded_witness :
  exists new, r_calls (iteration Z.of_nat IdleTimeout (shard_new 0 small_config 0%nat)).2 = [] ++ new /\
    count is_tick new = 1%nat.
Proof.
  pose proof (iteration_work_is_bounded Z.of_nat IdleTimeout (shard_new 0 small_config 0%nat) ltac:(cbn; lia)) as Hi.
  destruct (iteration Z.of_nat IdleTimeout (shard_new 0 small_config 0%nat)) as [running s].
  destruct Hi as (new & H1 & _ & _ & _ & H2). exists new. split; [exact H1|exact H2].
Defined.

Definition draining_example : EgressShardRuntime nat :=
  set_draining (Some 4) (shard_new 0 small_config 0%nat).

Lemma draining_shard_stops_witness :
  exists s' b, run Z.of_nat (replicate 5 ([ASend Shutdown], IdleTimeout)) draining_example = (false, s') /\
    backend s' = on_shutdown b.
Proof.
  apply (draining_shard_stops Z.of_nat (replicate 5 ([ASend Shutdown], IdleTimeout)) draining_example 4).
  - cbn. lia.
  - reflexivity.
  - lia.
  - discriminate.
  - vm_compute. discriminate.
Defined.

Lemma shard_never_oversleeps_witness :
  (idle_wait_bound 3 (apply_effect (ScheduleTimer "a"%string 1 5) (shard_new 0 small_config 0%nat)).2).1 <= Z.max 0 (5 - 3).
Proof.
  pose proof (shard_never_oversleeps (apply_effect (ScheduleTimer "a"%string 1 5) (shard_new 0 small_config 0%nat)).2 4 3) as Hs.
  destruct (idle_wait_bound 3 _) as [wait s']. destruct Hs as (_ & Hs & _).
  - exact (WInsert 4 _ 5 "a"%string 1 (WInit 4 ltac:(lia))).
  - apply (Hs "a"%string {| fire_at := 5; t_key := "a"%string; generation := 1 |}). vm_compute. reflexivity.
Defined.

Lemma ready_backlog_never_overflows_witness :
  let s := shard_new 0 small_config 0%nat in
  let s' := fold_left (fun s e => (apply_effect e s).2) (replicate 100 (ScheduleReady 1)) s in
  ready_backlog s' = 100 /\ ready_overflows s' = 0 /\
  Z.of_nat (command_channel_capacity small_config + readiness_batch_budget small_config) < ready_backlog s'.
Proof.
  destruct (ready_backlog_never_overflows (shard_new 0 small_config 0%nat) (replicate 100 (ScheduleReady 1))) as [H1 H2].
  - cbn. lia.
  - vm_compute. reflexivity.
  - cbn. lia.
  - apply Forall_replicate. reflexivity.
  - cbv zeta. rewrite H1, H2. vm_compute. auto.
Defined.
