(* ===== verification/ShardGroup.v ===== *)
(** * The shard group and its command channels ([egress/shard/group.rs], [egress/shard.rs])

    A shard is a thread behind a bounded command channel.  The group holds the handles, one
    per shard, adds one at the end, replaces one whose thread died and drops the last one.
    The manager sees only the trait [CommandSink]: the class of that name, with the laws a
    channel keeps ([SinkLaws]), of which the group is the production instance. *)

From S2P Require Import Prelude Bits Annexb Media FrameUnits Ring Reader LeafArena ReadyQueue Feed Leaf.

(** ** Where commands go *)

Class CommandSink (Σ E : Type) := {
  free_slots : Σ -> ShardId -> option nat;
  (** [None] is [Ok(())]. *)
  send : Σ -> ShardId -> EgressCommand -> option E * Σ }.

(** A command that was taken is the last one of its shard's channel; one that was refused
    is nowhere. *)
Class SinkLaws (Σ E : Type) `{CommandSink Σ E} := {
  sent : Σ -> ShardId -> list EgressCommand;
  send_ok : forall σ i c σ', send σ i c = (None, σ') ->
    forall j, sent σ' j = if decide (j = i) then sent σ j ++ [c] else sent σ j;
  send_err : forall σ i c e σ', send σ i c = (Some e, σ') -> forall j, sent σ' j = sent σ j }.

(** ** One shard's handle *)

Inductive EgressShardSendError := SendFull | SendClosed.

Inductive EgressShardGroupError :=
  | GroupUnknownShard (shard_id : ShardId)
  | SendFailed (shard_id : ShardId) (source : EgressShardSendError).

(** The channel as its two ends see it: every command it ever took, oldest first, and how
    many of them the thread has received.  The receiver lives as long as the thread runs;
    [h_panicked] and [h_stopped] are the snapshot's flags. *)
Record EgressShardHandle := mk_handle {
  h_shard : ShardId;
  h_capacity : nat;
  h_accepted : list EgressCommand;
  h_received : nat;
  h_open : bool;
  h_panicked : bool;
  h_stopped : bool }.

Definition queued_commands (h : EgressShardHandle) : nat := (length (h_accepted h) - h_received h)%nat.

Definition free_command_slots (h : EgressShardHandle) : nat := (h_capacity h - queued_commands h)%nat.

Definition try_send (h : EgressShardHandle) (c : EgressCommand)
    : option EgressShardSendError * EgressShardHandle :=
  if negb (h_open h) then (Some SendClosed, h)
  else if (h_capacity h <=? queued_commands h)%nat then (Some SendFull, h)
  else (None, mk_handle (h_shard h) (h_capacity h) (h_accepted h ++ [c]) (h_received h) (h_open h)
                (h_panicked h) (h_stopped h)).

(** [receiver.try_recv()] on the shard's thread. *)
Definition try_recv (h : EgressShardHandle) : option EgressCommand * EgressShardHandle :=
  match h_accepted h !! h_received h with
  | Some c => (Some c, mk_handle (h_shard h) (h_capacity h) (h_accepted h) (S (h_received h)) (h_open h)
                         (h_panicked h) (h_stopped h))
  | None => (None, h)
  end.

(** The end of [run_shard_thread]: the receiver is gone. *)
Definition thread_ends (panicked : bool) (h : EgressShardHandle) : EgressShardHandle :=
  mk_handle (h_shard h) (h_capacity h) (h_accepted h) (h_received h) false (h_panicked h || panicked) true.

(** What a backend factory does on the new thread. *)
Inductive factory_outcome (E : Type) := FactoryOk | FactoryErr (e : E) | FactoryPanics.
Arguments FactoryOk {E}.
Arguments FactoryErr {E}.
Arguments FactoryPanics {E}.

Definition spawn_thread (shard_id : ShardId) (capacity : nat) : EgressShardHandle :=
  mk_handle shard_id capacity [] 0 true false false.

(** A factory that panics leaves the panicked shard, one that fails leaves none. *)
Definition try_spawn_with {E} (shard_id : ShardId) (capacity : nat) (factory : factory_outcome E)
    : EgressShardHandle + E :=
  match factory with
  | FactoryOk => inl (spawn_thread shard_id capacity)
  | FactoryPanics => inl (thread_ends true (spawn_thread shard_id capacity))
  | FactoryErr e => inr e
  end.

(** ** The group *)

Record EgressShardGroup := mk_group { handles : list EgressShardHandle }.

Definition group_shard_count (g : EgressShardGroup) : nat := length (handles g).

Definition try_send_to (g : EgressShardGroup) (i : ShardId) (c : EgressCommand)
    : option EgressShardGroupError * EgressShardGroup :=
  match handles g !! i with
  | None => (Some (GroupUnknownShard i), g)
  | Some h => match try_send h c with
              | (Some source, _) => (Some (SendFailed i source), g)
              | (None, h) => (None, mk_group (<[i := h]> (handles g)))
              end
  end.

Definition group_free_command_slots (g : EgressShardGroup) (i : ShardId) : option nat :=
  free_command_slots <$> handles g !! i.

Definition panicked_shards (g : EgressShardGroup) : list ShardId :=
  map h_shard (List.filter h_panicked (handles g)).

Definition replace_with {E} (i : ShardId) (capacity : nat) (factory : factory_outcome E)
    (g : EgressShardGroup) : option E * EgressShardGroup :=
  match handles g !! i with
  | None => (None, g)
  | Some _ => match try_spawn_with i capacity factory with
              | inr e => (Some e, g)
              | inl replacement => (None, mk_group (<[i := replacement]> (handles g)))
              end
  end.

Definition grow_with {E} (capacity : nat) (factory : factory_outcome E) (g : EgressShardGroup)
    : (ShardId + E) * EgressShardGroup :=
  let shard_id := length (handles g) in
  match try_spawn_with shard_id capacity factory with
  | inr e => (inr e, g)
  | inl h => (inl shard_id, mk_group (handles g ++ [h]))
  end.

(** [Vec::pop] *)
Definition shrink (g : EgressShardGroup) : option ShardId * EgressShardGroup :=
  match last (handles g) with
  | None => (None, g)
  | Some h => (Some (h_shard h), mk_group (take (length (handles g) - 1) (handles g)))
  end.

(** The shards' threads move on their own: one receives its next command, or ends. *)
Definition shard_receives (i : ShardId) (g : EgressShardGroup) : EgressShardGroup :=
  match handles g !! i with
  | Some h => if h_open h then mk_group (<[i := (try_recv h).2]> (handles g)) else g
  | None => g
  end.
Definition shard_ends (i : ShardId) (panicked : bool) (g : EgressShardGroup) : EgressShardGroup :=
  match handles g !! i with
  | Some h => mk_group (<[i := thread_ends panicked h]> (handles g))
  | None => g
  end.

(** The health a supervisor reads off a snapshot; [progress_age] is [now] less the time of
    the last loop iteration, saturating. *)
Inductive EgressShardHealth := Healthy | Stalled | Stopped | Panicked.

Definition heartbeat_state (panicked stopped : bool) (last_progress_at : option Z) (now stall_after : Z)
    : EgressShardHealth :=
  let progress_age := (fun at_ => Z.max 0 (now - at_)) <$> last_progress_at in
  if panicked then Panicked
  else if stopped then Stopped
  else match progress_age with
       | Some age => if stall_after <=? age then Stalled else Healthy
       | None => Stalled
       end.

(** ** The group keeps the laws *)

Definition accepted (g : EgressShardGroup) (i : ShardId) : list EgressCommand :=
  match handles g !! i with Some h => h_accepted h | None => [] end.

#[export] Instance group_sink : CommandSink EgressShardGroup EgressShardGroupError := {
  free_slots := group_free_command_slots;
  send := try_send_to }.

Lemma try_send_to_ok g i c g' :
  try_send_to g i c = (None, g') ->
  exists h, handles g !! i = Some h /\ h_open h = true /\ (queued_commands h < h_capacity h)%nat /\
    handles g' = <[i := mk_handle (h_shard h) (h_capacity h) (h_accepted h ++ [c]) (h_received h) (h_open h)
                   (h_panicked h) (h_stopped h)]> (handles g).
Proof.
  unfold try_send_to. destruct (handles g !! i) as [h|]; [|done]. unfold try_send.
  destruct (h_open h) eqn:Ho; [cbn [negb]|done].
  destruct (h_capacity h <=? queued_commands h)%nat eqn:Hc; [done|]. injection 1 as <-.
  apply Nat.leb_gt in Hc. exists h. by rewrite Ho.
Qed.

Lemma try_send_to_err g i c e g' : try_send_to g i c = (Some e, g') -> g' = g.
Proof.
  unfold try_send_to. destruct (handles g !! i) as [h|]; [|by injection 1].
  by destruct (try_send h c) as [[source|] h']; [injection 1|].
Qed.

Lemma accepted_insert g i h h' j :
  handles g !! i = Some h ->
  accepted (mk_group (<[i := h']> (handles g))) j = if decide (j = i) then h_accepted h' else accepted g j.
Proof.
  intros Hl. unfold accepted. cbn [handles]. destruct (decide (j = i)) as [->|Hne].
  - by rewrite list_lookup_insert_eq by (by eapply lookup_lt_Some).
  - by rewrite list_lookup_insert_ne.
Qed.

#[export] Program Instance group_laws : SinkLaws EgressShardGroup EgressShardGroupError := {
  sent := accepted }.
Next Obligation.
  intros g i c g' Hs j. apply try_send_to_ok in Hs as (h & Hl & Ho & Hq & Hg).
  destruct g' as [hs']. cbn in Hg. subst hs'. rewrite (accepted_insert g i h) by done. cbn [h_accepted].
  destruct (decide (j = i)) as [->|]; [|done]. unfold accepted. by rewrite Hl.
Qed.
Next Obligation. intros g i c e g' Hs j. by rewrite (try_send_to_err _ _ _ _ _ Hs). Qed.
