(* ===== verification/EgressManager.v ===== *)
(** * The egress manager ([egress/manager.rs])

    The manager holds every output that should run and the shard it was placed on, and sends
    commands to the shards.  It is the authority on generations and placement: a live output
    never moves, stale updates stop here.  Where commands go is the class [CommandSink] of
    [ShardGroup.v]: the manager is verified against its laws, not against the channels. *)

From S2P Require Import Prelude Bits Annexb Media FrameUnits Ring Reader LeafArena ReadyQueue Feed Leaf ShardGroup.

(** ** Placement *)

Definition FNV_OFFSET : Z := 0xcbf29ce484222325.
Definition FNV_PRIME : Z := 0x00000100000001b3.

Definition fnv_step (hash byte : Z) : Z := as_u64 ((hash .^ byte) * FNV_PRIME).
Definition stable_output_hash (bs : bytes) : Z := fold_left fnv_step bs FNV_OFFSET.

(** [u32::to_le_bytes] *)
Definition to_le_bytes_u32 (x : Z) : bytes := rev (to_be_bytes 4 x).

Definition stable_output_hash_pair (bs : bytes) (shard_index : ShardId) : Z :=
  fold_left fnv_step (to_le_bytes_u32 (Z.of_nat shard_index)) (stable_output_hash bs).

(** [Iterator::max_by_key] gives the last of equal elements, [min_by_key] the first. *)
Definition max_by {A} (le : A -> A -> bool) (l : list A) : option A :=
  match l with
  | [] => None
  | x :: rest => Some (fold_left (fun best y => if le best y then y else best) rest x)
  end.
Definition min_by {A} (lt : A -> A -> bool) (l : list A) : option A :=
  match l with
  | [] => None
  | x :: rest => Some (fold_left (fun best y => if lt y best then y else best) rest x)
  end.

Definition rendezvous (bs : bytes) (shards : list ShardId) : option ShardId :=
  max_by (fun a b => stable_output_hash_pair bs a <=? stable_output_hash_pair bs b) shards.

Definition assign_output_to_shard (id : OutputId) (shard_count : nat) : ShardId :=
  default 0%nat (rendezvous (string_bytes id) (seq 0 shard_count)).

Inductive PlacementPolicy := Rendezvous | LeastLoaded.

Record DesiredOutput := { d_spec : OutputSpec; d_shard : ShardId }.

Record EgressManager := mk_manager {
  shard_count : nat;
  placement_policy : PlacementPolicy;
  desired : gmap OutputId DesiredOutput;
  shard_outputs : list Z;
  draining_shards : list bool;
  dead_shards : list bool;
  placement : nat;
  shutting_down : bool }.

Definition EgressManager_new (count : nat) (policy : PlacementPolicy) : EgressManager :=
  mk_manager count policy ∅ (replicate count 0) (replicate count false) (replicate count false) count false.

Definition shard_is_dead (m : EgressManager) (i : ShardId) : bool :=
  default false (dead_shards m !! i).

(** [(count, Reverse(hash))] compared. *)
Definition load_lt (m : EgressManager) (bs : bytes) (a b : ShardId) : bool :=
  let ca := default 0 (shard_outputs m !! a) in
  let cb := default 0 (shard_outputs m !! b) in
  (ca <? cb) || ((ca =? cb) && (stable_output_hash_pair bs b <? stable_output_hash_pair bs a)).

Definition pick_shard (m : EgressManager) (bs : bytes) (range : list ShardId) (only_live : bool)
    : option ShardId :=
  let candidates := List.filter (fun i => negb only_live || negb (shard_is_dead m i)) range in
  match placement_policy m with
  | Rendezvous => rendezvous bs candidates
  | LeastLoaded => min_by (load_lt m bs) candidates
  end.

(** [Option::or_else] *)
Definition or_else {A} (o : option A) (o' : option A) : option A :=
  match o with Some _ => o | None => o' end.

Definition assign_output (m : EgressManager) (id : OutputId) : ShardId :=
  let bs := string_bytes id in
  let placed := seq 0 (placement m) in
  let tail := seq (placement m) (shard_count m - placement m) in
  default 0%nat
    (or_else (pick_shard m bs placed true)
       (or_else (pick_shard m bs tail true) (pick_shard m bs placed false))).

(** ** Commands *)

Inductive ManagerCommandOutcome :=
  | Enqueued (shard_id : ShardId)
  | Broadcast (count : nat)
  | IgnoredStale (shard_id : ShardId)
  | AlreadyCurrent (shard_id : ShardId)
  | AlreadyRemoved
  | AlreadyShuttingDown
  | Ignored.

Definition placed_shard (o : ManagerCommandOutcome) : option ShardId :=
  match o with Enqueued i | AlreadyCurrent i => Some i | _ => None end.

Inductive EgressManagerCommandError :=
  | UnknownShard (shard_id : ShardId)
  | CommandChannelFull (shard_id : ShardId)
  | ShardDraining (shard_id : ShardId).

Inductive EgressManagerDispatchError (E : Type) :=
  | CommandError (e : EgressManagerCommandError)
  | DispatchError (shard_id : ShardId) (source : E).
Arguments CommandError {E}.
Arguments DispatchError {E}.

Section dispatch.
Context {Σ E : Type} `{CommandSink Σ E}.

Definition check_command_slots (m : EgressManager) (i : ShardId) (additional : nat) (σ : Σ)
    : option EgressManagerCommandError :=
  if (shard_count m <=? i)%nat then Some (UnknownShard i)
  else match free_slots σ i with
       | None => Some (UnknownShard i)
       | Some free => if (free <? additional)%nat then Some (CommandChannelFull i) else None
       end.

Definition set_desired (m : EgressManager) (d : gmap OutputId DesiredOutput) (counts : list Z)
    : EgressManager :=
  mk_manager (shard_count m) (placement_policy m) d counts (draining_shards m) (dead_shards m)
    (placement m) (shutting_down m).

Definition result : Type := ManagerCommandOutcome + EgressManagerDispatchError E.

Definition dispatch_spec (spec : OutputSpec) (is_update : bool) (m : EgressManager) (σ : Σ)
    : result * EgressManager * Σ :=
  let current := desired m !! os_id spec in
  let shard_id := match current with Some d => d_shard d | None => assign_output m (os_id spec) end in
  let stale := match current with
               | Some d =>
                   if os_generation spec <? os_generation (d_spec d) then Some (IgnoredStale (d_shard d))
                   else if os_generation spec =? os_generation (d_spec d) then Some (AlreadyCurrent (d_shard d))
                   else None
               | None => None
               end in
  match stale with
  | Some outcome => (inl outcome, m, σ)
  | None =>
      match draining_shards m !! shard_id with
      | None => (inr (CommandError (UnknownShard shard_id)), m, σ)
      | Some true => (inr (CommandError (ShardDraining shard_id)), m, σ)
      | Some false =>
          match check_command_slots m shard_id 1 σ with
          | Some e => (inr (CommandError e), m, σ)
          | None =>
              match send σ shard_id (if is_update then Update spec else Add spec) with
              | (Some e, σ) => (inr (DispatchError shard_id e), m, σ)
              | (None, σ) =>
                  let counts := match current with
                                | None => alter (fun n => sat_u 32 (n + 1)) shard_id (shard_outputs m)
                                | Some _ => shard_outputs m
                                end in
                  (inl (Enqueued shard_id),
                   set_desired m (<[os_id spec := {| d_spec := spec; d_shard := shard_id |}]> (desired m)) counts,
                   σ)
              end
          end
      end
  end.

Definition dispatch_remove (id : OutputId) (command : OutputId -> EgressCommand) (m : EgressManager) (σ : Σ)
    : result * EgressManager * Σ :=
  match desired m !! id with
  | None => (inl AlreadyRemoved, m, σ)
  | Some d =>
      match check_command_slots m (d_shard d) 1 σ with
      | Some e => (inr (CommandError e), m, σ)
      | None =>
          match send σ (d_shard d) (command id) with
          | (Some e, σ) => (inr (DispatchError (d_shard d) e), m, σ)
          | (None, σ) =>
              (inl (Enqueued (d_shard d)),
               set_desired m (delete id (desired m)) (alter (fun n => sat_u 32 (n - 1)) (d_shard d) (shard_outputs m)),
               σ)
          end
      end
  end.

Definition dispatch_drain (i : ShardId) (m : EgressManager) (σ : Σ) : result * EgressManager * Σ :=
  match check_command_slots m i 1 σ with
  | Some e => (inr (CommandError e), m, σ)
  | None =>
      match send σ i (DrainShard i) with
      | (Some e, σ) => (inr (DispatchError i e), m, σ)
      | (None, σ) =>
          match draining_shards m !! i with
          | None => (inr (CommandError (UnknownShard i)), m, σ)
          | Some _ =>
              (inl (Enqueued i),
               mk_manager (shard_count m) (placement_policy m) (desired m) (shard_outputs m)
                 (<[i := true]> (draining_shards m)) (dead_shards m) (placement m) (shutting_down m), σ)
          end
      end
  end.

(** The two loops of [dispatch_shutdown]. *)
Fixpoint check_all (m : EgressManager) (shards : list ShardId) (σ : Σ) : option EgressManagerCommandError :=
  match shards with
  | [] => None
  | i :: rest => match check_command_slots m i 1 σ with Some e => Some e | None => check_all m rest σ end
  end.
Fixpoint send_all (shards : list ShardId) (σ : Σ) : option (ShardId * E) * Σ :=
  match shards with
  | [] => (None, σ)
  | i :: rest =>
      match send σ i Shutdown with
      | (Some e, σ) => (Some (i, e), σ)
      | (None, σ) => send_all rest σ
      end
  end.

Definition dispatch_shutdown (m : EgressManager) (σ : Σ) : result * EgressManager * Σ :=
  if shutting_down m then (inl AlreadyShuttingDown, m, σ)
  else
    let shards := seq 0 (shard_count m) in
    match check_all m shards σ with
    | Some e => (inr (CommandError e), m, σ)
    | None =>
        match send_all shards σ with
        | (Some (i, e), σ) => (inr (DispatchError i e), m, σ)
        | (None, σ) =>
            (inl (Broadcast (shard_count m)),
             mk_manager (shard_count m) (placement_policy m) (desired m) (shard_outputs m)
               (draining_shards m) (dead_shards m) (placement m) true, σ)
        end
    end.

Definition dispatch_command (c : EgressCommand) (m : EgressManager) (σ : Σ) : result * EgressManager * Σ :=
  match c with
  | Add spec => dispatch_spec spec false m σ
  | Update spec => dispatch_spec spec true m σ
  | Remove id => dispatch_remove id Remove m σ
  | Abandon id => dispatch_remove id Abandon m σ
  | FeedWake => (inl Ignored, m, σ)
  | DrainShard i => dispatch_drain i m σ
  | Shutdown => dispatch_shutdown m σ
  end.
End dispatch.

(** ** Shards that come and go *)

Definition forget_shard (i : ShardId) (m : EgressManager) : list OutputSpec * EgressManager :=
  (map (fun p => d_spec p.2) (map_to_list (filter (fun p => d_shard p.2 = i) (desired m))),
   mk_manager (shard_count m) (placement_policy m) (filter (fun p => d_shard p.2 <> i) (desired m))
     (<[i := 0]> (shard_outputs m)) (draining_shards m) (<[i := true]> (dead_shards m))
     (placement m) (shutting_down m)).

Definition revive_shard (i : ShardId) (m : EgressManager) : EgressManager :=
  mk_manager (shard_count m) (placement_policy m) (desired m) (shard_outputs m) (draining_shards m)
    (<[i := false]> (dead_shards m)) (placement m) (shutting_down m).

Definition desired_count_for_shard (m : EgressManager) (i : ShardId) : Z :=
  default 0 (shard_outputs m !! i).

Definition grow_to (shards : nat) (m : EgressManager) : EgressManager :=
  let shards := Nat.max shards (shard_count m) in
  mk_manager shards (placement_policy m) (desired m) (resize shards 0 (shard_outputs m))
    (resize shards false (draining_shards m)) (resize shards false (dead_shards m)) shards
    (shutting_down m).

Definition set_placement (shards : nat) (m : EgressManager) : EgressManager :=
  mk_manager (shard_count m) (placement_policy m) (desired m) (shard_outputs m) (draining_shards m)
    (dead_shards m) (Nat.min shards (shard_count m)) (shutting_down m).

Definition retire_empty_tail (m : EgressManager) : bool * EgressManager :=
  let tail := shard_count m in
  if (tail <=? 1)%nat || (tail <=? placement m)%nat || (0 <? desired_count_for_shard m (tail - 1))
  then (false, m)
  else (true, mk_manager (tail - 1) (placement_policy m) (desired m) (take (tail - 1) (shard_outputs m))
                (take (tail - 1) (draining_shards m)) (take (tail - 1) (dead_shards m)) (placement m)
                (shutting_down m)).

(** ** Facts about the choice of a shard *)

Lemma max_by_spec {A} (score : A -> Z) l r :
  max_by (fun a b => score a <=? score b) l = Some r ->
  r ∈ l /\ forall x, x ∈ l -> score x <= score r.
Proof.
  destruct l as [|x l]; [done|]. cbn [max_by]. injection 1 as <-.
  revert x. induction l as [|y l IH]; intros x; cbn [fold_left].
  - split; [by left|]. intros z [->|Hz]%elem_of_cons; [lia|by apply not_elem_of_nil in Hz].
  - destruct (score x <=? score y) eqn:Hc; [specialize (IH y)|specialize (IH x)];
      destruct IH as [Hin Hmax].
    + apply Z.leb_le in Hc. split; [by right|]. intros z [->|Hz]%elem_of_cons; [|by apply Hmax].
      pose proof (Hmax y ltac:(by left)). lia.
    + apply Z.leb_gt in Hc. split.
      * apply elem_of_cons in Hin as [->|Hin]; [by left|by right; right].
      * intros z [->|[->|Hz]%elem_of_cons]%elem_of_cons; [by apply Hmax; left| |by apply Hmax; right].
        pose proof (Hmax x ltac:(by left)). lia.
Qed.

Lemma max_by_snoc {A} (score : A -> Z) l x :
  max_by (fun a b => score a <=? score b) (l ++ [x]) =
    match max_by (fun a b => score a <=? score b) l with
    | Some best => Some (if score best <=? score x then x else best)
    | None => Some x
    end.
Proof. destruct l as [|y l]; [done|]. cbn [app max_by]. by rewrite fold_left_app. Qed.

Lemma max_by_None {A} (le : A -> A -> bool) l : max_by le l = None <-> l = [].
Proof. by destruct l. Qed.
Lemma min_by_None {A} (lt : A -> A -> bool) l : min_by lt l = None <-> l = [].
Proof. by destruct l. Qed.

(** [min_by_key] with a key whose order is total. *)
Lemma min_by_spec {A} (lt : A -> A -> bool) l r :
  (forall a, lt a a = false) ->
  (forall a b c, lt a b = false -> lt b c = false -> lt a c = false) ->
  (forall a b, lt a b = true -> lt b a = false) ->
  min_by lt l = Some r -> r ∈ l /\ forall x, x ∈ l -> lt x r = false.
Proof.
  intros Hirr Htrans Hasym. destruct l as [|x l]; [done|]. cbn [min_by]. injection 1 as <-.
  revert x. induction l as [|y l IH]; intros x; cbn [fold_left].
  - split; [by left|]. intros z [->|Hz]%elem_of_cons; [apply Hirr|by apply not_elem_of_nil in Hz].
  - destruct (lt y x) eqn:Hc; [specialize (IH y)|specialize (IH x)]; destruct IH as [Hin Hmin].
    + split; [by right|]. intros z [->|Hz]%elem_of_cons; [|by apply Hmin].
      eapply Htrans; [by apply Hasym|apply Hmin; by left].
    + split.
      * apply elem_of_cons in Hin as [->|Hin]; [by left|by right; right].
      * intros z [->|[->|Hz]%elem_of_cons]%elem_of_cons; [by apply Hmin; left| |by apply Hmin; right].
        eapply Htrans; [exact Hc|apply Hmin; by left].
Qed.

(** Less loaded, as a plain order on numbers. *)
Lemma load_lt_spec m bs a b :
  load_lt m bs a b = true <->
    (desired_count_for_shard m a < desired_count_for_shard m b \/
     desired_count_for_shard m a = desired_count_for_shard m b /\
     stable_output_hash_pair bs b < stable_output_hash_pair bs a).
Proof.
  unfold load_lt, desired_count_for_shard.
  rewrite orb_true_iff, andb_true_iff, !Z.ltb_lt, Z.eqb_eq. done.
Qed.

Lemma pick_shard_spec m bs range only_live i :
  pick_shard m bs range only_live = Some i ->
  i ∈ range /\ (only_live = true -> shard_is_dead m i = false) /\
  forall j, j ∈ range -> (only_live = true -> shard_is_dead m j = false) ->
    match placement_policy m with
    | Rendezvous => stable_output_hash_pair bs j <= stable_output_hash_pair bs i
    | LeastLoaded => load_lt m bs j i = false
    end.
Proof.
  intros Hp.
  assert (Hin : forall j, j ∈ List.filter (fun i => negb only_live || negb (shard_is_dead m i)) range <->
    j ∈ range /\ (only_live = true -> shard_is_dead m j = false)).
  { intros j. rewrite !list_elem_of_In, filter_In. destruct only_live, (shard_is_dead m j); naive_solver. }
  unfold pick_shard, rendezvous in Hp. destruct (placement_policy m).
  - apply (max_by_spec (stable_output_hash_pair bs)) in Hp as [Hi Hmax]. apply Hin in Hi as [Hi Hl].
    split_and!; [done|done|]. intros j Hj Hlj. apply Hmax. by apply Hin.
  - apply min_by_spec in Hp as [Hi Hmin].
    + apply Hin in Hi as [Hi Hl]. split_and!; [done|done|]. intros j Hj Hlj. apply Hmin. by apply Hin.
    + intros a. apply not_true_iff_false. rewrite load_lt_spec. lia.
    + intros a b c. rewrite <- !not_true_iff_false, !load_lt_spec. lia.
    + intros a b. rewrite <- !not_true_iff_false, !load_lt_spec. lia.
Qed.

Lemma pick_shard_None m bs range only_live :
  pick_shard m bs range only_live = None <->
    forall j, j ∈ range -> only_live = true /\ shard_is_dead m j = true.
Proof.
  assert (He : List.filter (fun i => negb only_live || negb (shard_is_dead m i)) range = [] <->
    forall j, j ∈ range -> only_live = true /\ shard_is_dead m j = true).
  { induction range as [|j l IH]; cbn [List.filter].
    - split; [|done]. intros _ j Hj. by apply not_elem_of_nil in Hj.
    - destruct only_live, (shard_is_dead m j) eqn:Hd; cbn [negb orb].
      + rewrite IH. split; [|by intros H0 k Hk; apply H0; right].
        intros H0 k [->|Hk]%elem_of_cons; [done|by apply H0].
      + split; [done|]. intros H0. destruct (H0 j ltac:(by left)); congruence.
      + split; [done|]. intros H0. destruct (H0 j ltac:(by left)); congruence.
      + split; [done|]. intros H0. destruct (H0 j ltac:(by left)); congruence. }
  rewrite <- He. unfold pick_shard, rendezvous. destruct (placement_policy m);
    [apply max_by_None|apply min_by_None].
Qed.

(** ** Everything that happens to the manager *)

Definition placed_on (i : ShardId) (D : gmap OutputId DesiredOutput) : gmap OutputId DesiredOutput :=
  filter (fun p => d_shard p.2 = i) D.
Definition load (m : EgressManager) (i : ShardId) : nat := size (placed_on i (desired m)).

Record manager_ok (m : EgressManager) : Prop := {
  mo_shards : (1 <= shard_count m)%nat;
  mo_placement : (1 <= placement m <= shard_count m)%nat;
  mo_outputs : length (shard_outputs m) = shard_count m;
  mo_draining : length (draining_shards m) = shard_count m;
  mo_dead : length (dead_shards m) = shard_count m;
  mo_desired : forall id d, desired m !! id = Some d ->
    os_id (d_spec d) = id /\ (d_shard d < shard_count m)%nat;
  mo_load : forall i, (i < shard_count m)%nat -> shard_outputs m !! i = Some (Z.of_nat (load m i)) }.

(** The calls the runtime makes, and a wake its feed watcher sends past the manager. *)
Inductive manager_op :=
  | ODispatch (c : EgressCommand)
  | OWake (i : ShardId)
  | OForget (i : ShardId)
  | ORevive (i : ShardId)
  | OGrow (shards : nat)
  | OPlace (shards : nat)
  | ORetire.

(** The counts are [NonZeroU32]. *)
Definition op_ok (op : manager_op) : Prop :=
  match op with OGrow n | OPlace n => (1 <= n)%nat | _ => True end.

Section runs.
Context {Σ E : Type} `{CommandSink Σ E}.

Definition run_op (s : EgressManager * Σ) (op : manager_op) : EgressManager * Σ :=
  let '(m, σ) := s in
  match op with
  | ODispatch c => let '(_, m, σ) := dispatch_command c m σ in (m, σ)
  | OWake i => (m, (send σ i FeedWake).2)
  | OForget i => ((forget_shard i m).2, σ)
  | ORevive i => (revive_shard i m, σ)
  | OGrow n => (grow_to n m, σ)
  | OPlace n => (set_placement n m, σ)
  | ORetire => ((retire_empty_tail m).2, σ)
  end.
Definition run_ops (s : EgressManager * Σ) (ops : list manager_op) : EgressManager * Σ :=
  fold_left run_op ops s.

(** What a command does to the manager, on every branch: nothing; one output's entry set at a
    newer generation after one send to its shard; one output's entry dropped after one send;
    a flag. *)
Inductive dispatch_effect (c : EgressCommand) (m : EgressManager) (σ : Σ) : @result E -> EgressManager -> Σ -> Prop :=
  | DE_same r : dispatch_effect c m σ (inl r) m σ
  | DE_error e σ' : (forall L : SinkLaws Σ E, c = Shutdown \/ forall i, sent σ' i = sent σ i) ->
      dispatch_effect c m σ (inr e) m σ'
  | DE_set spec (i : ShardId) σ' :
      c = Add spec \/ c = Update spec ->
      i = match desired m !! os_id spec with Some d => d_shard d | None => assign_output m (os_id spec) end ->
      (forall d, desired m !! os_id spec = Some d -> os_generation (d_spec d) < os_generation spec) ->
      (i < shard_count m)%nat -> draining_shards m !! i = Some false ->
      send σ i c = (None, σ') ->
      dispatch_effect c m σ (inl (Enqueued i))
        (set_desired m (<[os_id spec := {| d_spec := spec; d_shard := i |}]> (desired m))
           match desired m !! os_id spec with
           | None => alter (fun n => sat_u 32 (n + 1)) i (shard_outputs m)
           | Some _ => shard_outputs m
           end) σ'
  | DE_drop id d σ' :
      c = Remove id \/ c = Abandon id -> desired m !! id = Some d -> (d_shard d < shard_count m)%nat ->
      send σ (d_shard d) c = (None, σ') ->
      dispatch_effect c m σ (inl (Enqueued (d_shard d)))
        (set_desired m (delete id (desired m)) (alter (fun n => sat_u 32 (n - 1)) (d_shard d) (shard_outputs m))) σ'
  | DE_drain i σ' :
      c = DrainShard i -> (i < shard_count m)%nat -> send σ i c = (None, σ') ->
      dispatch_effect c m σ (inl (Enqueued i))
        (mk_manager (shard_count m) (placement_policy m) (desired m) (shard_outputs m)
           (<[i := true]> (draining_shards m)) (dead_shards m) (placement m) (shutting_down m)) σ'
  | DE_shutdown σ' :
      c = Shutdown -> send_all (seq 0 (shard_count m)) σ = (None, σ') ->
      dispatch_effect c m σ (inl (Broadcast (shard_count m)))
        (mk_manager (shard_count m) (placement_policy m) (desired m) (shard_outputs m)
           (draining_shards m) (dead_shards m) (placement m) true) σ'.

Lemma check_command_slots_ok m i n σ :
  check_command_slots m i n σ = None -> (i < shard_count m)%nat.
Proof. unfold check_command_slots. destruct (shard_count m <=? i)%nat eqn:Hi; [done|]. by apply Nat.leb_gt in Hi. Qed.

Lemma refused_send (σ σ' : Σ) (i : ShardId) (c0 c : EgressCommand) e :
  send σ i c0 = (Some e, σ') ->
  forall L : SinkLaws Σ E, c = Shutdown \/ forall j, sent σ' j = sent σ j.
Proof. intros Hs L. right. by eapply send_err. Qed.

Lemma unsent (c : EgressCommand) (σ : Σ) :
  forall L : SinkLaws Σ E, c = Shutdown \/ forall j, sent σ j = sent σ j.
Proof. by right. Qed.
#[local] Hint Resolve refused_send unsent : core.

Lemma dispatch_spec_effect spec (is_update : bool) m σ :
  (forall i b, draining_shards m !! i = Some b -> (i < shard_count m)%nat) ->
  let '(r, m', σ') := dispatch_spec spec is_update m σ in
  dispatch_effect (if is_update then Update spec else Add spec) m σ r m' σ'.
Proof.
  intros Hd. unfold dispatch_spec.
  set (i := match desired m !! os_id spec with Some d => d_shard d | None => assign_output m (os_id spec) end).
  destruct (match desired m !! os_id spec with Some d => if _ <? _ then _ else _ | None => None end) as [o|] eqn:Hs;
    [constructor|].
  assert (Hgen : forall d, desired m !! os_id spec = Some d -> os_generation (d_spec d) < os_generation spec).
  { intros d Hl. rewrite Hl in Hs.
    destruct (os_generation spec <? _) eqn:H1; [done|]. destruct (os_generation spec =? _) eqn:H2; [done|].
    apply Z.ltb_ge in H1. apply Z.eqb_neq in H2. lia. }
  destruct (draining_shards m !! i) as [[]|] eqn:Hdr; [by constructor; eauto| |by constructor; eauto].
  destruct (check_command_slots m i 1 σ) as [e|] eqn:Hc; [by constructor; eauto|].
  destruct (send σ i _) as [[e|] σ'] eqn:Hsend; [by constructor; eauto|].
  apply DE_set; [destruct is_update; auto|done|done| |done|done].
  by eapply check_command_slots_ok.
Qed.

Lemma dispatch_remove_effect id command m σ :
  command = Remove \/ command = Abandon ->
  let '(r, m', σ') := dispatch_remove id command m σ in
  dispatch_effect (command id) m σ r m' σ'.
Proof.
  intros Hcmd. unfold dispatch_remove. destruct (desired m !! id) as [d|] eqn:Hl; [|constructor].
  destruct (check_command_slots m _ 1 σ) as [e|] eqn:Hc; [by constructor; eauto|].
  destruct (send σ _ _) as [[e|] σ'] eqn:Hsend; [by constructor; eauto|].
  apply DE_drop; [destruct Hcmd as [-> | ->]; auto|done| |done].
  by eapply check_command_slots_ok.
Qed.

Lemma dispatch_command_effect c m σ :
  manager_ok m ->
  let '(r, m', σ') := dispatch_command c m σ in dispatch_effect c m σ r m' σ'.
Proof.
  intros Hm.
  assert (Hd : forall i b, draining_shards m !! i = Some b -> (i < shard_count m)%nat).
  { intros i b Hi. rewrite <- (mo_draining m Hm). by eapply lookup_lt_Some. }
  destruct c as [spec|spec|id|id| |i|]; cbn [dispatch_command].
  - by apply (dispatch_spec_effect spec false).
  - by apply (dispatch_spec_effect spec true).
  - by apply dispatch_remove_effect; left.
  - by apply dispatch_remove_effect; right.
  - constructor.
  - unfold dispatch_drain. destruct (check_command_slots m i 1 σ) as [e|] eqn:Hc; [by constructor; eauto|].
    destruct (send σ i _) as [[e|] σ'] eqn:Hsend; [by constructor; eauto|].
    apply check_command_slots_ok in Hc. destruct (draining_shards m !! i) as [b|] eqn:Hdr.
    + by apply DE_drain.
    + apply lookup_ge_None in Hdr. rewrite (mo_draining m Hm) in Hdr. lia.
  - unfold dispatch_shutdown. destruct (shutting_down m); [constructor|].
    destruct (check_all m _ σ); [by constructor; eauto|].
    destruct (send_all _ σ) as [[[i e]|] σ'] eqn:Hs; [constructor; by left|by apply DE_shutdown].
Qed.
End runs.

(** *** Counting the outputs of a shard *)

Lemma placed_on_insert i D id d :
  placed_on i (<[id := d]> D) =
    if decide (d_shard d = i) then <[id := d]> (placed_on i D) else delete id (placed_on i D).
Proof.
  unfold placed_on. destruct (decide (d_shard d = i)) as [Hi|Hi].
  - by apply map_filter_insert_True.
  - rewrite map_filter_insert_False by done. apply map_filter_delete.
Qed.

Lemma placed_on_delete i D id : placed_on i (delete id D) = delete id (placed_on i D).
Proof. apply map_filter_delete. Qed.

Lemma placed_on_lookup i D id d :
  placed_on i D !! id = Some d <-> D !! id = Some d /\ d_shard d = i.
Proof. apply map_lookup_filter_Some. Qed.

Lemma placed_on_lookup_None i D id d0 :
  D !! id = Some d0 -> d_shard d0 <> i -> placed_on i D !! id = None.
Proof.
  intros Hl Hne. apply eq_None_not_Some. intros [d [Hd Hi]%placed_on_lookup]. congruence.
Qed.

Lemma placed_on_fresh i D id : D !! id = None -> placed_on i D !! id = None.
Proof. intros Hl. apply eq_None_not_Some. intros [d [Hd Hi]%placed_on_lookup]. congruence. Qed.

Lemma placed_on_others i j D :
  placed_on i (filter (fun p => d_shard p.2 <> j) D) = if decide (i = j) then ∅ else placed_on i D.
Proof.
  unfold placed_on. destruct (decide (i = j)) as [->|Hne]; apply map_eq; intros id.
  - rewrite lookup_empty. apply eq_None_not_Some.
    intros [d [[_ H1]%map_lookup_filter_Some H2]%map_lookup_filter_Some]. by apply H1.
  - apply option_eq. intros d. rewrite !map_lookup_filter_Some. cbn. naive_solver.
Qed.

Lemma size_placed_insert i D id d :
  D !! id = None \/ (exists d0, D !! id = Some d0 /\ d_shard d0 = d_shard d) ->
  size (placed_on i (<[id := d]> D)) =
    ((if decide (D !! id = None /\ d_shard d = i) then 1 else 0) + size (placed_on i D))%nat.
Proof.
  intros Hc. rewrite placed_on_insert. destruct (decide (d_shard d = i)) as [Hi|Hi].
  - destruct Hc as [Hn|(d0 & Hl & Hs)].
    + rewrite decide_True by done. apply map_size_insert_None. by apply placed_on_fresh.
    + rewrite decide_False by (rewrite Hl; by intros [? _]).
      apply map_size_insert_Some. exists d0. apply placed_on_lookup. split; [done|congruence].
  - rewrite decide_False by tauto. rewrite delete_id; [done|].
    destruct Hc as [Hn|(d0 & Hl & Hs)]; [by apply placed_on_fresh|].
    apply (placed_on_lookup_None _ _ _ d0); congruence.
Qed.

Lemma size_placed_delete i D id d :
  D !! id = Some d ->
  size (placed_on i D) = ((if decide (d_shard d = i) then 1 else 0) + size (placed_on i (delete id D)))%nat.
Proof.
  intros Hl. rewrite <- (insert_id D id d Hl) at 1. rewrite <- insert_delete_eq.
  rewrite size_placed_insert by (left; apply lookup_delete_eq).
  rewrite lookup_delete_eq. by repeat case_decide; naive_solver.
Qed.

Lemma load_le m i : (load m i <= size (desired m))%nat.
Proof. apply map_size_filter. Qed.

(** *** The invariant *)

Lemma assign_output_bound m id : manager_ok m -> (assign_output m id < shard_count m)%nat.
Proof.
  intros Hm. pose proof (mo_placement m Hm) as Hp. unfold assign_output, or_else.
  destruct (pick_shard m (string_bytes id) (seq 0 (placement m)) true) as [i|] eqn:H1;
    [apply pick_shard_spec in H1 as [Hi _]; apply elem_of_seq in Hi; cbn; lia|].
  destruct (pick_shard m (string_bytes id) (seq (placement m) (shard_count m - placement m)) true) as [i|] eqn:H2;
    [apply pick_shard_spec in H2 as [Hi _]; apply elem_of_seq in Hi; cbn; lia|].
  destruct (pick_shard m (string_bytes id) (seq 0 (placement m)) false) as [i|] eqn:H3;
    [apply pick_shard_spec in H3 as [Hi _]; apply elem_of_seq in Hi; cbn; lia|].
  cbn. lia.
Qed.

Lemma sat_u32_id n : 0 <= n < 2 ^ 32 -> sat_u 32 n = n.
Proof. unfold sat_u. lia. Qed.

Lemma manager_new_ok count policy : (1 <= count)%nat -> manager_ok (EgressManager_new count policy).
Proof.
  intros Hc. unfold EgressManager_new. constructor; cbn; rewrite ?length_replicate; auto with lia.
  - intros id d. by rewrite lookup_empty.
  - intros i Hi. rewrite lookup_replicate_2 by done. unfold load, placed_on. cbn. by rewrite map_filter_empty, map_size_empty.
Qed.

Lemma set_output_ok m spec i :
  manager_ok m -> Z.of_nat (size (desired m)) + 1 < 2 ^ 32 -> (i < shard_count m)%nat ->
  (forall d, desired m !! os_id spec = Some d -> d_shard d = i) ->
  manager_ok (set_desired m (<[os_id spec := {| d_spec := spec; d_shard := i |}]> (desired m))
     match desired m !! os_id spec with
     | None => alter (fun n => sat_u 32 (n + 1)) i (shard_outputs m)
     | Some _ => shard_outputs m
     end).
Proof.
  intros Hm Hsz Hi Hsame. destruct Hm as [? ? Ho ? ? Hdes Hload]. constructor; cbn; auto.
  - destruct (desired m !! os_id spec); [done|]. by rewrite length_alter.
  - intros id d. destruct (decide (id = os_id spec)) as [->|Hne].
    + rewrite lookup_insert_eq. by injection 1 as <-.
    + rewrite lookup_insert_ne by done. apply Hdes.
  - intros j Hj. unfold load. cbn [desired set_desired]. pose proof (load_le m j) as Hle.
    rewrite size_placed_insert
      by (destruct (desired m !! os_id spec) as [d|] eqn:Hl; [right; exists d; auto|by left]).
    cbn [d_shard]. destruct (desired m !! os_id spec) as [d|] eqn:Hl.
    + rewrite decide_False by (by intros [? _]). by apply Hload.
    + destruct (decide (i = j)) as [->|Hne].
      * rewrite list_lookup_alter_eq, Hload by done. cbn. rewrite decide_True by done.
        f_equal. rewrite sat_u32_id by (unfold load in *; lia). unfold load. lia.
      * rewrite list_lookup_alter_ne by done. rewrite decide_False by tauto. by apply Hload.
Qed.

Lemma drop_output_ok m id d :
  manager_ok m -> Z.of_nat (size (desired m)) < 2 ^ 32 -> desired m !! id = Some d ->
  manager_ok (set_desired m (delete id (desired m)) (alter (fun n => sat_u 32 (n - 1)) (d_shard d) (shard_outputs m))).
Proof.
  intros Hm Hsz Hl. destruct Hm as [? ? Ho ? ? Hdes Hload]. constructor; cbn; auto.
  - by rewrite length_alter.
  - intros id' d' [_ Hl']%lookup_delete_Some. by apply Hdes.
  - intros j Hj. pose proof (load_le m j) as Hle. unfold load in *. cbn [desired set_desired].
    specialize (Hload j Hj). rewrite (size_placed_delete j _ id d Hl) in Hload, Hle.
    destruct (decide (d_shard d = j)) as [->|Hne].
    + rewrite list_lookup_alter_eq, Hload. cbn. f_equal. rewrite sat_u32_id; lia.
    + rewrite list_lookup_alter_ne by done. exact Hload.
Qed.

Lemma forget_shard_ok i m : manager_ok m -> manager_ok (forget_shard i m).2.
Proof.
  intros [? ? Ho ? Hdd Hdes Hload]. constructor; cbn; rewrite ?length_insert; auto.
  - intros id d [Hl _]%map_lookup_filter_Some. by apply Hdes.
  - intros j Hj. unfold load. cbn [desired]. rewrite placed_on_others.
    destruct (decide (j = i)) as [->|Hne].
    + rewrite list_lookup_insert_eq by lia. by rewrite map_size_empty.
    + rewrite list_lookup_insert_ne by done. by apply Hload.
Qed.

Lemma grow_to_ok n m : manager_ok m -> manager_ok (grow_to n m).
Proof.
  intros [? ? Ho ? Hdd Hdes Hload]. constructor; cbn; rewrite ?length_resize; auto with lia.
  - intros id d Hl. destruct (Hdes id d Hl). split; [done|lia].
  - intros j Hj. destruct (decide (j < shard_count m)%nat) as [Hlt|Hge].
    + rewrite lookup_resize by lia. by apply Hload.
    + rewrite lookup_resize_new by lia. f_equal.
      assert (He : placed_on j (desired m) = ∅); [|unfold load; cbn; by rewrite He, map_size_empty].
      apply map_eq. intros id. rewrite lookup_empty. apply eq_None_not_Some.
      intros [d [Hl Hs]%placed_on_lookup]. apply Hdes in Hl. lia.
Qed.

Lemma set_placement_ok n m : (1 <= n)%nat -> manager_ok m -> manager_ok (set_placement n m).
Proof. intros Hn [? ? Ho ? Hdd Hdes Hload]. constructor; cbn; auto with lia. Qed.

Lemma retire_ok m : manager_ok m -> manager_ok (retire_empty_tail m).2.
Proof.
  intros Hm. unfold retire_empty_tail.
  destruct ((shard_count m <=? 1)%nat || (shard_count m <=? placement m)%nat || (0 <? _)) eqn:Hc; [done|].
  apply orb_false_iff in Hc as [[H1%Nat.leb_gt H2%Nat.leb_gt]%orb_false_iff H3%Z.ltb_ge].
  unfold desired_count_for_shard in H3. rewrite (mo_load m Hm) in H3 by lia. cbn in H3.
  destruct Hm as [? ? Ho ? Hdd Hdes Hload]. constructor; cbn; rewrite ?length_take; auto with lia.
  - intros id d Hl. destruct (Hdes id d Hl) as [Hid Hs]. split; [done|].
    destruct (decide (d_shard d = shard_count m - 1)%nat) as [He|]; [|lia].
    assert (Hz : load m (shard_count m - 1) = 0%nat) by lia.
    apply map_size_empty_inv in Hz.
    assert (Hp : placed_on (shard_count m - 1) (desired m) !! id = Some d) by by apply placed_on_lookup.
    by rewrite Hz in Hp.
  - intros j Hj. rewrite lookup_take_lt by done. unfold load. cbn. apply Hload. lia.
Qed.

Section invariant.
Context {Σ E : Type} `{CommandSink Σ E}.

Lemma manager_op_ok s op :
  manager_ok s.1 -> Z.of_nat (size (desired s.1)) + 1 < 2 ^ 32 -> op_ok op ->
  manager_ok (run_op s op).1 /\ (size (desired (run_op s op).1) <= S (size (desired s.1)))%nat.
Proof.
  destruct s as [m σ]. intros Hm Hsz Hop. cbn [fst] in *.
  destruct op as [c|i|i|i|n|n|]; cbn [run_op fst].
  - pose proof (dispatch_command_effect c m σ Hm) as He.
    destruct (dispatch_command c m σ) as [[r m'] σ']. cbn [fst].
    destruct He as [| |spec i σ' Hc Hi Hgen Hlt Hd Hs|id d σ' Hc Hl Hlt Hs|i σ' Hc Hlt Hs|]; cbn; auto.
    + split; [|rewrite map_size_insert; destruct (desired m !! _); cbn; lia]. apply set_output_ok; auto. intros d Hl. by rewrite Hl in Hi.
    + split; [apply drop_output_ok; auto; lia|]. rewrite map_size_delete, Hl. lia.
    + split; [|lia]. destruct Hm. constructor; cbn; rewrite ?length_insert; auto.
    + split; [|lia]. by destruct Hm.
  - auto.
  - split; [by apply forget_shard_ok|]. cbn. pose proof (map_size_filter (fun p => d_shard p.2 <> i) (desired m)). lia.
  - split; [|cbn; lia]. destruct Hm. constructor; cbn; rewrite ?length_insert; auto.
  - split; [by apply grow_to_ok|cbn; lia].
  - split; [by apply set_placement_ok|cbn; lia].
  - split; [by apply retire_ok|]. unfold retire_empty_tail. by destruct (_ || _); cbn; lia.
Qed.

Lemma manager_ops_ok ops s :
  manager_ok s.1 -> Z.of_nat (size (desired s.1)) + Z.of_nat (length ops) < 2 ^ 32 -> Forall op_ok ops ->
  manager_ok (run_ops s ops).1.
Proof.
  intros Hm Hsz Hops. revert s Hm Hsz. induction Hops as [|op ops Hop Hops IH]; intros s Hm Hsz; [done|].
  cbn [length] in Hsz. destruct (manager_op_ok s op Hm ltac:(lia) Hop) as [Hm' Hs']. apply IH; [done|lia].
Qed.

(** A live output keeps its shard and never goes back a generation. *)
Definition releases (op : manager_op) (id : OutputId) (i : ShardId) : Prop :=
  op = ODispatch (Remove id) \/ op = ODispatch (Abandon id) \/ op = OForget i.

Lemma run_op_keeps s op id d :
  manager_ok s.1 -> desired s.1 !! id = Some d -> ~ releases op id (d_shard d) ->
  exists d', desired (run_op s op).1 !! id = Some d' /\ d_shard d' = d_shard d /\
    os_generation (d_spec d) <= os_generation (d_spec d').
Proof.
  destruct s as [m σ]. intros Hm Hl Hr. unfold releases in Hr. cbn [fst] in *.
  assert (Hid : exists d', desired m !! id = Some d' /\ d_shard d' = d_shard d /\
    os_generation (d_spec d) <= os_generation (d_spec d')) by (exists d; auto with lia).
  destruct op as [c|i|i|i|n|n|]; cbn [run_op fst]; try exact Hid.
  - pose proof (dispatch_command_effect c m σ Hm) as He.
    destruct (dispatch_command c m σ) as [[r m'] σ']. cbn [fst].
    destruct He as [| |spec i σ' Hc Hi Hgen Hlt Hd Hs|id' d' σ' Hc Hl' Hlt Hs|i σ' Hc Hlt Hs|]; cbn; auto.
    + destruct (decide (id = os_id spec)) as [->|Hne].
      * rewrite lookup_insert_eq. eexists. split; [done|]. rewrite Hl in Hi. cbn. specialize (Hgen d Hl). split; [done|lia].
      * by rewrite lookup_insert_ne.
    + rewrite lookup_delete_ne; [done|]. intros ->. destruct Hc as [-> | ->]; tauto.
  - cbn. exists d. split_and!; [|done|lia]. apply map_lookup_filter_Some. split; [done|]. cbn. intros Hi. subst i. tauto.
  - unfold retire_empty_tail. by destruct (_ || _).
Qed.

(** ** Properties *)

(** The books balance.  Start a manager with at least one shard and let anything happen,
    fewer than [2^32] calls in all: commands (also ones its shards refuse), feed wakes, shards
    that die and are revived, growth, shrinking placement, retiring the tail.  The per-shard
    tables then still have one entry per shard, the placement range is not empty and lies
    within the shards, every desired output is filed under its own id on a shard that exists,
    and [shard_outputs] of each shard is exactly the number of outputs placed there. *)
Theorem manager_invariant count policy (σ : Σ) ops :
  (1 <= count)%nat -> Z.of_nat (length ops) < 2 ^ 32 -> Forall op_ok ops ->
  let m := (run_ops (EgressManager_new count policy, σ) ops).1 in
  (1 <= placement m <= shard_count m)%nat /\
  length (shard_outputs m) = shard_count m /\ length (draining_shards m) = shard_count m /\
  length (dead_shards m) = shard_count m /\
  (forall id d, desired m !! id = Some d -> os_id (d_spec d) = id /\ (d_shard d < shard_count m)%nat) /\
  (forall i, (i < shard_count m)%nat ->
     desired_count_for_shard m i = Z.of_nat (size (filter (fun p => d_shard p.2 = i) (desired m)))).
Proof.
  intros Hc Hlen Hops m.
  assert (Hm : manager_ok m).
  { apply manager_ops_ok; [by apply manager_new_ok|cbn; rewrite map_size_empty; lia|done]. }
  destruct Hm. split_and!; auto; try lia. intros i Hi. unfold desired_count_for_shard.
  by rewrite mo_load0.
Qed.

(** C14: A live output never moves and never goes back.  In any reachable manager take an
    output it holds.  Whatever happens next, short of removing or abandoning this output or
    losing the very shard it is on (updates, adds of the same id, growth, shrinking, other
    shards dying), the output is still held, on the same shard, at a generation that is not
    older. *)
Theorem live_output_never_moves count policy (σ : Σ) before after id d :
  (1 <= count)%nat -> Z.of_nat (length before + length after) < 2 ^ 32 ->
  Forall op_ok before -> Forall op_ok after ->
  let s := run_ops (EgressManager_new count policy, σ) before in
  desired s.1 !! id = Some d -> Forall (fun op => ~ releases op id (d_shard d)) after ->
  exists d', desired (run_ops s after).1 !! id = Some d' /\ d_shard d' = d_shard d /\
    os_generation (d_spec d) <= os_generation (d_spec d').
Proof.
  intros Hc Hlen Hb Ha s Hl Hr. rewrite <- length_app in Hlen.
  assert (Hok : forall l, (length l <= length (before ++ after))%nat -> Forall op_ok l ->
    manager_ok (run_ops (EgressManager_new count policy, σ) l).1).
  { intros l Hll Hl'. apply manager_ops_ok; [by apply manager_new_ok|cbn; rewrite map_size_empty; lia|done]. }
  revert Ha Hr Hlen Hok. induction after as [|op after IH] using rev_ind; intros Ha Hr Hlen Hok.
  { exists d. auto with lia. }
  apply Forall_app in Hr as [Hr Hop]. apply Forall_app in Ha as [Ha Hopok].
  rewrite !length_app in Hlen, Hok. cbn in Hlen.
  destruct IH as (d1 & Hd1 & Hs1 & Hg1); [done|done|rewrite length_app; lia| |].
  { intros l Hll. apply Hok. rewrite length_app in Hll. lia. }
  unfold run_ops. rewrite fold_left_app. cbn [fold_left].
  destruct (run_op_keeps (run_ops s after) op id d1) as (d2 & Hd2 & Hs2 & Hg2).
  - unfold s, run_ops. rewrite <- fold_left_app. apply Hok; [rewrite length_app; lia|by apply Forall_app].
  - done.
  - rewrite Hs1. by inversion Hop.
  - exists d2. split_and!; [done|congruence|lia].
Qed.
End invariant.

(** *** What the shards were told *)

(** The specs a shard is left with after a list of commands. *)
Definition replay_command (specs : gmap OutputId OutputSpec) (c : EgressCommand) : gmap OutputId OutputSpec :=
  match c with
  | Add spec | Update spec => <[os_id spec := spec]> specs
  | Remove id | Abandon id => delete id specs
  | FeedWake | DrainShard _ | Shutdown => specs
  end.
Definition replay (cs : list EgressCommand) : gmap OutputId OutputSpec := fold_left replay_command cs ∅.

Definition specs_on (m : EgressManager) (i : ShardId) : gmap OutputId OutputSpec :=
  d_spec <$> placed_on i (desired m).

Lemma replay_snoc cs c : replay (cs ++ [c]) = replay_command (replay cs) c.
Proof. unfold replay. by rewrite fold_left_app. Qed.

Section told.
Context {Σ E : Type} `{SinkLaws Σ E}.

(** A send of a command that names no output leaves every shard with what it had. *)
Definition neutral (c : EgressCommand) : Prop := forall specs, replay_command specs c = specs.

Lemma send_neutral (σ : Σ) i c r σ' :
  neutral c -> send σ i c = (r, σ') -> forall j, replay (sent σ' j) = replay (sent σ j).
Proof.
  intros Hn Hs j. destruct r as [e|].
  - by rewrite (send_err _ _ _ _ _ Hs).
  - rewrite (send_ok _ _ _ _ Hs). case_decide; [by rewrite replay_snoc, Hn|done].
Qed.

Lemma send_all_neutral shards (σ : Σ) r σ' :
  send_all shards σ = (r, σ') -> forall j, replay (sent σ' j) = replay (sent σ j).
Proof.
  revert σ. induction shards as [|i shards IH]; intros σ; cbn [send_all].
  { intros Heq j. inversion Heq. subst. done. }
  destruct (send σ i Shutdown) as [[e|] σ1] eqn:Hs.
  - intros Heq. inversion Heq; subst. by apply (send_neutral σ i Shutdown _ _ ltac:(done) Hs).
  - intros Hr j. rewrite (IH _ Hr). by apply (send_neutral σ i Shutdown _ _ ltac:(done) Hs).
Qed.

Lemma specs_on_set m spec i counts j :
  (forall d, desired m !! os_id spec = Some d -> d_shard d = i) ->
  specs_on (set_desired m (<[os_id spec := {| d_spec := spec; d_shard := i |}]> (desired m)) counts) j =
    if decide (j = i) then <[os_id spec := spec]> (specs_on m j) else specs_on m j.
Proof.
  intros Hsame. unfold specs_on. cbn [desired set_desired]. rewrite placed_on_insert. cbn [d_shard].
  destruct (decide (j = i)) as [->|Hne].
  - rewrite decide_True by done. by rewrite fmap_insert.
  - rewrite decide_False by done. rewrite delete_id; [done|].
    destruct (desired m !! os_id spec) as [d|] eqn:Hl; [|by apply placed_on_fresh].
    apply (placed_on_lookup_None _ _ _ d); [done|]. rewrite (Hsame d); done.
Qed.

Lemma specs_on_drop m id d counts j :
  desired m !! id = Some d ->
  specs_on (set_desired m (delete id (desired m)) counts) j =
    if decide (j = d_shard d) then delete id (specs_on m j) else specs_on m j.
Proof.
  intros Hl. unfold specs_on. cbn [desired set_desired]. rewrite placed_on_delete.
  destruct (decide (j = d_shard d)) as [->|Hne]; [apply fmap_delete|].
  by rewrite delete_id by (by apply (placed_on_lookup_None _ _ _ d)).
Qed.

(** One command keeps the shard's copy and the manager's books together. *)
Lemma dispatch_keeps_told c m (σ : Σ) :
  manager_ok m -> let '(r, m', σ') := dispatch_command c m σ in
  forall j, replay (sent σ j) = specs_on m j -> replay (sent σ' j) = specs_on m' j.
Proof.
  intros Hm. pose proof (dispatch_command_effect c m σ Hm) as He.
  destruct (dispatch_command c m σ) as [[r m'] σ'] eqn:Hdisp. intros j Hj.
  destruct He as [|e σ' Hsent|spec i σ' Hc Hi Hgen Hlt Hd Hs|id d σ' Hc Hl Hlt Hs|i σ' Hc Hlt Hs|σ' Hc Hs].
  - done.
  - destruct (Hsent _) as [-> |Heq]; [|by rewrite Heq]. cbn [dispatch_command] in Hdisp.
    unfold dispatch_shutdown in Hdisp. destruct (shutting_down m); [done|].
    destruct (check_all _ _ _); [inversion Hdisp; by subst|].
    destruct (send_all _ σ) as [[[i e']|] σ1] eqn:Ha; inversion Hdisp; subst.
    by rewrite (send_all_neutral _ _ _ _ Ha).
  - rewrite specs_on_set by (intros d Hl; by rewrite Hl in Hi).
    rewrite (send_ok _ _ _ _ Hs). destruct (decide (j = i)) as [->|]; [|done].
    rewrite replay_snoc, Hj. by destruct Hc as [-> | ->].
  - rewrite (specs_on_drop _ _ d) by done. rewrite (send_ok _ _ _ _ Hs).
    destruct (decide (j = d_shard d)) as [->|]; [|done].
    rewrite replay_snoc, Hj. by destruct Hc as [-> | ->].
  - subst c. rewrite (send_neutral _ _ (DrainShard i) _ _ ltac:(done) Hs). done.
  - by rewrite (send_all_neutral _ _ _ _ Hs).
Qed.

Definition tells (op : manager_op) : Prop :=
  match op with ODispatch _ | OWake _ => True | _ => False end.

Lemma run_ops_told ops : forall s : EgressManager * Σ,
  manager_ok s.1 -> Z.of_nat (size (desired s.1)) + Z.of_nat (length ops) < 2 ^ 32 -> Forall tells ops ->
  forall j, replay (sent s.2 j) = specs_on s.1 j ->
  replay (sent (run_ops s ops).2 j) = specs_on (run_ops s ops).1 j.
Proof.
  induction ops as [|op ops IH]; intros s Hm Hsz Ht j Hj; [done|]. inversion Ht as [|? ? Hop Hops]; subst.
  cbn [length] in Hsz. destruct (manager_op_ok s op Hm ltac:(lia) ltac:(by destruct op)) as [Hm' Hs'].
  unfold run_ops. cbn [fold_left]. apply IH; [done|lia|done|].
  destruct s as [m σ], op as [c|i|i|i|n|n|]; try done; cbn [run_op].
  - pose proof (dispatch_keeps_told c m σ Hm) as Hk.
    destruct (dispatch_command c m σ) as [[r m'] σ']. by apply Hk.
  - cbn [fst snd]. destruct (send σ i FeedWake) as [r σ'] eqn:Hsend. cbn [snd].
    by rewrite (send_neutral _ _ FeedWake _ _ ltac:(done) Hsend).
Qed.
End told.

Section commands.
Context {Σ E : Type} `{SinkLaws Σ E}.

(** The shards are told exactly what the manager believes.  Against any channels that
    keep the laws, start with none told anything and send any commands and wakes in any order,
    some of them refused.  What a shard is left with when it applies the commands its channel
    took, in order, is exactly the set of outputs the manager has placed on it, with the spec
    and generation the manager holds: nothing is missing, nothing is left over, nothing is on
    two shards. *)
Theorem shards_told_what_manager_holds count policy (σ : Σ) ops i :
  (1 <= count)%nat -> Z.of_nat (length ops) < 2 ^ 32 -> Forall tells ops ->
  (forall j, sent σ j = []) ->
  let '(m, σ') := run_ops (EgressManager_new count policy, σ) ops in
  replay (sent σ' i) = d_spec <$> filter (fun p => d_shard p.2 = i) (desired m).
Proof.
  intros Hc Hlen Ht Hempty.
  pose proof (run_ops_told ops (EgressManager_new count policy, σ) (manager_new_ok count policy Hc)
    ltac:(cbn; rewrite map_size_empty; lia) Ht i) as Hr.
  destruct (run_ops _ ops) as [m σ']. apply Hr. cbn [fst snd]. rewrite Hempty.
  unfold specs_on, placed_on. cbn [EgressManager_new desired]. by rewrite map_filter_empty, fmap_empty.
Qed.

(** C28: A refused command changes nothing.  Whatever the error (a shard that does not exist
    or drains, a full channel, a send that fails), a manager whose tables have one entry per
    shard is left exactly as it was, and no channel has gained a command, except that a failed
    broadcast of [Shutdown] may have reached the shards before the one that failed. *)
Theorem refused_command_changes_nothing c m (σ : Σ) e m' σ' :
  manager_ok m -> dispatch_command c m σ = (inr e, m', σ') ->
  m' = m /\ (c <> Shutdown -> forall i, sent σ' i = sent σ i).
Proof.
  intros Hm Hd. pose proof (dispatch_command_effect c m σ Hm) as He. rewrite Hd in He.
  inversion He as [|e' σ1 Hs| | | |]; subst. split; [done|]. intros Hns. by destruct (Hs _).
Qed.
End commands.

(** Rendezvous placement disturbs as little as it can.  Adding one shard either leaves the
    choice for an output as it was or moves it to the shard just added: no output is ever
    shuffled between two shards that were both there before.  The chosen shard is one of the
    shards, and no shard scores higher for this output. *)
Theorem rendezvous_minimal_disruption id n :
  (1 <= n)%nat ->
  (assign_output_to_shard id (S n) = assign_output_to_shard id n \/ assign_output_to_shard id (S n) = n) /\
  (assign_output_to_shard id n < n)%nat /\
  forall j, (j < n)%nat ->
    stable_output_hash_pair (string_bytes id) j <=
      stable_output_hash_pair (string_bytes id) (assign_output_to_shard id n).
Proof.
  intros Hn. unfold assign_output_to_shard, rendezvous. rewrite seq_S. cbn [plus].
  rewrite (max_by_snoc (stable_output_hash_pair (string_bytes id))).
  destruct (max_by _ (seq 0 n)) as [best|] eqn:Hb.
  2:{ apply max_by_None in Hb. destruct n; [lia|done]. }
  apply (max_by_spec (stable_output_hash_pair (string_bytes id))) in Hb as [Hin Hmax].
  apply elem_of_seq in Hin. split_and!; [cbn; case_match; auto|cbn; lia|].
  intros j Hj. cbn. apply Hmax. apply elem_of_seq. lia.
Qed.

(** Where a new output goes.  It goes to a shard that exists.  As long as some shard is
    alive it goes to a live one; it leaves the placement range only when every shard in it is
    dead.  Under [LeastLoaded], when a placement shard is alive, no live placement shard
    carries fewer outputs than the chosen one. *)
Theorem assign_output_prefers_live m id :
  manager_ok m ->
  let i := assign_output m id in
  (i < shard_count m)%nat /\
  (forall j, (j < shard_count m)%nat -> shard_is_dead m j = false -> shard_is_dead m i = false) /\
  (forall j, (j < placement m)%nat -> shard_is_dead m j = false ->
     (i < placement m)%nat /\
     (placement_policy m = LeastLoaded -> desired_count_for_shard m i <= desired_count_for_shard m j)).
Proof.
  intros Hm i. split; [by apply assign_output_bound|].
  unfold assign_output, or_else in i. set (bs := string_bytes id) in i.
  destruct (pick_shard m bs (seq 0 (placement m)) true) as [i1|] eqn:H1.
  - apply pick_shard_spec in H1 as (Hin & Hlive & Hbest). apply elem_of_seq in Hin.
    change i with i1. split; [by intros; apply Hlive|]. intros j Hj Hdj. split; [lia|].
    intros Hpol. specialize (Hbest j ltac:(apply elem_of_seq; lia) ltac:(done)). rewrite Hpol in Hbest.
    apply not_true_iff_false in Hbest. rewrite load_lt_spec in Hbest. lia.
  - rewrite pick_shard_None in H1. split.
    + intros j Hj Hdj. destruct (pick_shard m bs (seq (placement m) _) true) as [i2|] eqn:H2.
      * apply pick_shard_spec in H2 as (_ & Hlive & _). by apply Hlive.
      * rewrite pick_shard_None in H2. exfalso.
        destruct (decide (j < placement m)%nat);
          [destruct (H1 j)|destruct (H2 j)]; rewrite ?elem_of_seq; try lia; congruence.
    + intros j Hj Hdj. destruct (H1 j); [apply elem_of_seq; lia|congruence].
Qed.

(** ** Witnesses *)

Definition example_spec (id : OutputId) (generation : Z) : OutputSpec :=
  {| os_id := id; os_generation := generation; os_feed := "feed"%string; os_protocol := PSink;
     os_policy := LeafPolicy_default |}.
Definition example_group : EgressShardGroup :=
  mk_group [spawn_thread 0 4; spawn_thread 1 4].
Definition example_ops : list manager_op :=
  [ODispatch (Add (example_spec "a" 1)); OWake 0; ODispatch (Add (example_spec "b" 1));
   ODispatch (Update (example_spec "a" 3)); ODispatch (Update (example_spec "a" 2));
   ODispatch (Add (example_spec "c" 1)); ODispatch (Remove "b")].

Lemma manager_invariant_witness :
  let m := (run_ops (EgressManager_new 2 LeastLoaded, example_group) (example_ops ++ [OForget 1; OGrow 3])).1 in
  shard_count m = 3%nat /\ desired_count_for_shard m 0 = Z.of_nat (size (filter (fun p => d_shard p.2 = 0%nat) (desired m))).
Proof.
  pose proof (manager_invariant 2 LeastLoaded example_group (example_ops ++ [OForget 1; OGrow 3])
    ltac:(lia) ltac:(reflexivity) ltac:(repeat constructor)) as (_ & _ & _ & _ & _ & Hload).
  split; [vm_compute; reflexivity|]. apply Hload. vm_compute. lia.
Defined.

Lemma live_output_never_moves_witness :
  let s := run_ops (EgressManager_new 2 Rendezvous, example_group) [ODispatch (Add (example_spec "a" 1))] in
  exists d', desired (run_ops s [OGrow 4; ODispatch (Update (example_spec "a" 2)); OPlace 1; ORetire]).1 !! "a"%string = Some d' /\
    d_shard d' = 0%nat /\ 1 <= os_generation (d_spec d').
Proof.
  apply (live_output_never_moves 2 Rendezvous example_group [ODispatch (Add (example_spec "a" 1))]
    [OGrow 4; ODispatch (Update (example_spec "a" 2)); OPlace 1; ORetire] "a"%string
    {| d_spec := example_spec "a" 1; d_shard := 0%nat |}).
  - lia.
  - reflexivity.
  - repeat constructor.
  - repeat constructor.
  - vm_compute. reflexivity.
  - repeat constructor; unfold releases; intuition congruence.
Defined.

Lemma shards_told_what_manager_holds_witness :
  let '(m, σ') := run_ops (EgressManager_new 2 LeastLoaded, example_group) example_ops in
  replay (sent σ' 0%nat) = d_spec <$> filter (fun p => d_shard p.2 = 0%nat) (desired m).
Proof.
  apply (shards_told_what_manager_holds 2 LeastLoaded example_group example_ops 0%nat).
  - lia.
  - reflexivity.
  - repeat constructor.
  - by intros [|[|[|j]]].
Defined.

Lemma refused_command_changes_nothing_witness :
  (dispatch_command (DrainShard 7) (EgressManager_new 2 Rendezvous) example_group).1.2 =
    EgressManager_new 2 Rendezvous.
Proof.
  destruct (refused_command_changes_nothing (DrainShard 7) (EgressManager_new 2 Rendezvous) example_group
    (CommandError (UnknownShard 7)) (EgressManager_new 2 Rendezvous) example_group) as [Hm _].
  - apply manager_new_ok. lia.
  - vm_compute. reflexivity.
  - vm_compute. reflexivity.
Defined.

Lemma rendezvous_minimal_disruption_witness :
  (assign_output_to_shard "output-7" 4 < 4)%nat.
Proof. apply (rendezvous_minimal_disruption "output-7" 4). lia. Defined.

Lemma assign_output_prefers_live_witness :
  let m := (forget_shard 0 (EgressManager_new 3 LeastLoaded)).2 in
  shard_is_dead m (assign_output m "a") = false.
Proof.
  destruct (assign_output_prefers_live (forget_shard 0 (EgressManager_new 3 LeastLoaded)).2 "a"%string)
    as (_ & Hlive & _).
  - apply forget_shard_ok, manager_new_ok. lia.
  - apply (Hlive 1%nat); [vm_compute; lia|vm_compute; reflexivity].
Defined.
