(* ===== verification/EgressRuntime.v ===== *)
(** * The egress fabric runtime ([egress/runtime.rs])

    The runtime pairs the manager with the shard group and keeps them in step: it sends the
    manager's commands to the group's channels and, in [rescale], replaces the shards whose
    thread panicked, grows the pool, narrows placement and retires empty tail shards.  The
    arithmetic of the sizer ([sizing.rs]) is in floating point: its answers are inputs of
    [rescale], and the theorems hold whatever they are. *)

From S2P Require Import Prelude Bits Annexb Media FrameUnits Ring Reader LeafArena ReadyQueue Feed Leaf.
From S2P Require Import ShardGroup EgressManager.

Inductive ResizeReason := ReasonAdd | ReasonRemove | ReasonObserve.

Record EgressFabricRuntime := mk_runtime {
  rt_manager : EgressManager;
  rt_group : EgressShardGroup;
  shard_ceiling : nat }.

Inductive EgressFabricRuntimeError := ShardCountMismatch (expected actual : nat).

Definition EgressFabricRuntime_new (count : nat) (policy : PlacementPolicy) (g : EgressShardGroup)
    (ceiling : nat) : EgressFabricRuntime + EgressFabricRuntimeError :=
  if negb (group_shard_count g =? count)%nat then inr (ShardCountMismatch count (group_shard_count g))
  else inl (mk_runtime (EgressManager_new count policy) g (Nat.max ceiling 1)).

Definition reason_for (c : EgressCommand) (rt : EgressFabricRuntime) : ResizeReason :=
  match c with
  | Add spec => match desired (rt_manager rt) !! os_id spec with None => ReasonAdd | Some _ => ReasonRemove end
  | _ => ReasonRemove
  end.

Inductive Saturated :=
  | Busy (busy_pct shards : nat)
  | Full (leaves shards : nat).

(** [sizer_admit] is the sizer's answer for the shard's outputs with the new one: the
    projected busy percent when it refuses. *)
Definition admit_add (admission_bypassed : bool) (leaf_capacity : nat) (sizer_admit : Z -> option nat)
    (id : OutputId) (rt : EgressFabricRuntime) : option Saturated :=
  if admission_bypassed then None
  else
    let m := rt_manager rt in
    let shard_outputs := desired_count_for_shard m (assign_output m id) + 1 in
    let shards := placement m in
    if Z.of_nat leaf_capacity <? shard_outputs then Some (Full leaf_capacity shards)
    else (fun busy_pct => Busy busy_pct shards) <$> sizer_admit shard_outputs.

Definition rt_dispatch (c : EgressCommand) (rt : EgressFabricRuntime)
    : @result EgressShardGroupError * EgressFabricRuntime :=
  let '(r, m, g) := dispatch_command c (rt_manager rt) (rt_group rt) in
  (r, mk_runtime m g (shard_ceiling rt)).

Definition has_panicked_shard (rt : EgressFabricRuntime) : bool :=
  negb (bool_decide (panicked_shards (rt_group rt) = [])).

(** ** Rescaling *)

Section rescale.
Context {E : Type}.

(** What [rescale] is given: why, what the sizer answered ([sz_observed] is [None] when there
    was no fresh observation), the host's and the profile's numbers, and what the backend
    factory does at its n-th call. *)
Record rescale_args := {
  ra_reason : ResizeReason;
  sz_recommend : nat;
  sz_observed : option nat;
  ra_override : option nat;
  ra_maximum : nat;
  ra_leaf_capacity : nat;
  ra_command_capacity : nat;
  factory_for : nat -> ShardId -> factory_outcome E }.

Record rescale_state := mk_rescale {
  rs_calls : nat;
  rs_manager : EgressManager;
  rs_group : EgressShardGroup;
  rs_touched : list ShardId;
  grow_error : option E }.

(** Every dead shard is isolated before any replacement. *)
Definition forget_all (dead : list ShardId) (m : EgressManager) : EgressManager :=
  fold_left (fun m i => (forget_shard i m).2) dead m.

Definition replace_one (a : rescale_args) (st : rescale_state) (i : ShardId) : rescale_state :=
  match replace_with i (ra_command_capacity a) (factory_for a (rs_calls st) i) (rs_group st) with
  | (None, g) =>
      mk_rescale (S (rs_calls st)) (revive_shard i (rs_manager st)) g (rs_touched st ++ [i]) (grow_error st)
  | (Some e, g) =>
      mk_rescale (S (rs_calls st)) (rs_manager st) g (rs_touched st) (or_else (grow_error st) (Some e))
  end.
Definition replace_all (a : rescale_args) (dead : list ShardId) (st : rescale_state) : rescale_state :=
  fold_left (replace_one a) dead st.

Definition sizing_target (a : rescale_args) (m : EgressManager) : nat :=
  match ra_override a with
  | None => match ra_reason a with
            | ReasonAdd => Nat.max (placement m) (sz_recommend a)
            | ReasonRemove => placement m
            | ReasonObserve => default (placement m) (sz_observed a)
            end
  | Some requested => requested
  end.

(** [usize::div_ceil] *)
Definition div_ceil (a b : nat) : nat := ((a + b - 1) / b)%nat.

Definition rescale_target (a : rescale_args) (ceiling : nat) (m : EgressManager) : nat :=
  let outputs := (size (desired m) + match ra_reason a with ReasonAdd => 1 | _ => 0 end)%nat in
  let maximum := Nat.min (ra_maximum a) ceiling in
  let leaf_shards := Nat.min (div_ceil outputs (ra_leaf_capacity a)) maximum in
  let target := sizing_target a m in
  Nat.max (match ra_reason a with ReasonAdd => Nat.max target leaf_shards | _ => target end) 1.

(** [while grow_error.is_none() && shard_count < target]; each turn adds a shard or ends. *)
Fixpoint grow_loop (a : rescale_args) (fuel target : nat) (st : rescale_state) : rescale_state :=
  match fuel with
  | O => st
  | S fuel =>
      if bool_decide (grow_error st = None) && (group_shard_count (rs_group st) <? target)%nat then
        match grow_with (ra_command_capacity a)
                (factory_for a (rs_calls st) (group_shard_count (rs_group st))) (rs_group st) with
        | (inl i, g) =>
            grow_loop a fuel target
              (mk_rescale (S (rs_calls st)) (rs_manager st) g (rs_touched st ++ [i]) (grow_error st))
        | (inr e, g) => mk_rescale (S (rs_calls st)) (rs_manager st) g (rs_touched st) (Some e)
        end
      else st
  end.

Definition place (target placement : nat) (st : rescale_state) : rescale_state :=
  let count := group_shard_count (rs_group st) in
  let m := rs_manager st in
  if bool_decide (grow_error st = None) || (placement <? count)%nat then
    let usable := Nat.max (Nat.min target count) 1 in
    if negb (usable =? placement)%nat then
      mk_rescale (rs_calls st)
        (if (shard_count m <? usable)%nat then grow_to usable m else set_placement usable m)
        (rs_group st) (rs_touched st) (grow_error st)
    else st
  else st.

(** [while self.manager.retire_empty_tail()]; each turn drops a shard or ends. *)
Fixpoint retire_loop (fuel : nat) (st : rescale_state) : rescale_state :=
  match fuel with
  | O => st
  | S fuel =>
      match retire_empty_tail (rs_manager st) with
      | (false, _) => st
      | (true, m) =>
          match shrink (rs_group st) with
          | (None, g) => mk_rescale (rs_calls st) m g (rs_touched st) (grow_error st)
          | (Some i, g) =>
              retire_loop fuel (mk_rescale (rs_calls st) m g (rs_touched st ++ [i]) (grow_error st))
          end
      end
  end.

Definition rescale (a : rescale_args) (rt : EgressFabricRuntime)
    : (list ShardId + E) * EgressFabricRuntime :=
  let panicked := panicked_shards (rt_group rt) in
  let st := mk_rescale 0 (forget_all panicked (rt_manager rt)) (rt_group rt) [] None in
  let st := replace_all a panicked st in
  let target := rescale_target a (shard_ceiling rt) (rs_manager st) in
  let before := placement (rs_manager st) in
  let st := grow_loop a (target - group_shard_count (rs_group st)) target st in
  let st := place target before st in
  let st := retire_loop (shard_count (rs_manager st)) st in
  (match grow_error st with Some e => inr e | None => inl (rs_touched st) end,
   mk_runtime (rs_manager st) (rs_group st) (shard_ceiling rt)).

(** ** Everything that happens to a runtime *)

Inductive fabric_event :=
  | EvDispatch (c : EgressCommand)
  | EvRescale (a : rescale_args)
  | EvWake (i : ShardId)
  | EvReceive (i : ShardId)
  | EvEnd (i : ShardId) (panicked : bool).

Definition fabric_step (rt : EgressFabricRuntime) (ev : fabric_event) : EgressFabricRuntime :=
  match ev with
  | EvDispatch c => (rt_dispatch c rt).2
  | EvRescale a => (rescale a rt).2
  | EvWake i => mk_runtime (rt_manager rt) (try_send_to (rt_group rt) i FeedWake).2 (shard_ceiling rt)
  | EvReceive i => mk_runtime (rt_manager rt) (shard_receives i (rt_group rt)) (shard_ceiling rt)
  | EvEnd i panicked => mk_runtime (rt_manager rt) (shard_ends i panicked (rt_group rt)) (shard_ceiling rt)
  end.
Definition fabric_run (rt : EgressFabricRuntime) (evs : list fabric_event) : EgressFabricRuntime :=
  fold_left fabric_step evs rt.
End rescale.
Arguments rescale_args : clear implicits.
Arguments rescale_state : clear implicits.
Arguments fabric_event : clear implicits.

(** ** Manager and group in step *)

(** The group may be ahead of the manager only within [rescale]. *)
Record threads_ok (g : EgressShardGroup) : Prop := {
  to_index : forall i h, handles g !! i = Some h -> h_shard h = i;
  to_closed : forall i h, handles g !! i = Some h -> h_panicked h = true -> h_open h = false }.

Definition told (m : EgressManager) (g : EgressShardGroup) (i : ShardId) : Prop :=
  if shard_is_dead m i
  then specs_on m i = ∅ /\ forall h, handles g !! i = Some h -> h_panicked h = true
  else replay (accepted g i) = specs_on m i.

Record fabric_ahead (m : EgressManager) (g : EgressShardGroup) : Prop := {
  fa_manager : manager_ok m;
  fa_threads : threads_ok g;
  fa_count : (shard_count m <= group_shard_count g)%nat;
  fa_told : forall i, (i < shard_count m)%nat -> told m g i;
  fa_fresh : forall i, (shard_count m <= i)%nat -> accepted g i = [] }.

Record fabric_ok (m : EgressManager) (g : EgressShardGroup) : Prop := {
  fo_ahead : fabric_ahead m g;
  fo_count : group_shard_count g = shard_count m }.

Lemma accepted_beyond g i : (group_shard_count g <= i)%nat -> accepted g i = [].
Proof. unfold accepted, group_shard_count. intros Hi. by rewrite lookup_ge_None_2. Qed.

Lemma fabric_ok_intro m g :
  manager_ok m -> threads_ok g -> group_shard_count g = shard_count m ->
  (forall i, (i < shard_count m)%nat -> told m g i) -> fabric_ok m g.
Proof.
  intros Hm Hg Hc Ht. split; [|done]. constructor; auto with lia.
  intros i Hi. apply accepted_beyond. lia.
Qed.

(** A channel may change while the thread behind it stays what it is. *)
Definition same_threads (g g' : EgressShardGroup) : Prop :=
  (forall i, (fun h => (h_shard h, h_open h, h_panicked h)) <$> handles g !! i =
             (fun h => (h_shard h, h_open h, h_panicked h)) <$> handles g' !! i).

#[export] Instance same_threads_equiv : Equivalence same_threads.
Proof.
  split.
  - by intros g i.
  - intros g g' Hs i. by rewrite Hs.
  - intros g g' g'' Hs Hs' i. by rewrite Hs, Hs'.
Qed.

Lemma same_threads_inv g g' i h' :
  same_threads g g' -> handles g' !! i = Some h' ->
  exists h, handles g !! i = Some h /\ h_shard h = h_shard h' /\ h_open h = h_open h' /\ h_panicked h = h_panicked h'.
Proof.
  intros Hs Hl. specialize (Hs i). rewrite Hl in Hs. apply fmap_Some in Hs as (h & Hh & Heq).
  inversion Heq. eauto.
Qed.

Lemma same_threads_count g g' : same_threads g g' -> group_shard_count g = group_shard_count g'.
Proof.
  intros Hs. unfold group_shard_count. apply Nat.le_antisymm; apply Nat.nlt_ge; intros Hlt.
  - destruct (lookup_lt_is_Some_2 _ _ Hlt) as [h Hh]. symmetry in Hs.
    destruct (same_threads_inv _ _ _ _ Hs Hh) as (h' & Hh' & _). apply lookup_lt_Some in Hh'. lia.
  - destruct (lookup_lt_is_Some_2 _ _ Hlt) as [h Hh].
    destruct (same_threads_inv _ _ _ _ Hs Hh) as (h' & Hh' & _). apply lookup_lt_Some in Hh'. lia.
Qed.

Lemma same_threads_ok g g' : same_threads g g' -> threads_ok g -> threads_ok g'.
Proof.
  intros Hs [Hi Hc]. constructor; intros i h' Hl; destruct (same_threads_inv _ _ _ _ Hs Hl) as (h & Hh & ? & ? & ?).
  - rewrite <- (Hi i h Hh). done.
  - intros Hp. rewrite <- (Hc i h Hh); congruence.
Qed.

Lemma try_send_to_threads g i c : same_threads g (try_send_to g i c).2.
Proof.
  destruct (try_send_to g i c) as [[e|] g'] eqn:Hs; cbn [snd].
  - by rewrite (try_send_to_err _ _ _ _ _ Hs).
  - apply try_send_to_ok in Hs as (h & Hl & Ho & _ & Hg). intros j. rewrite Hg.
    destruct (decide (j = i)) as [->|Hne].
    + rewrite list_lookup_insert_eq by (by eapply lookup_lt_Some). by rewrite Hl.
    + by rewrite list_lookup_insert_ne.
Qed.

Lemma send_all_threads shards (g : EgressShardGroup) r g' :
  send_all shards g = (r, g') -> same_threads g g'.
Proof.
  revert g. induction shards as [|i shards IH]; intros g; cbn [send_all].
  { intros Heq. by inversion Heq. }
  pose proof (try_send_to_threads g i Shutdown) as Ht. cbn [send group_sink] in *.
  destruct (try_send_to g i Shutdown) as [[e|] g1]; cbn [snd] in Ht.
  - intros Heq. by inversion Heq; subst.
  - intros Heq. etransitivity; [exact Ht|by apply IH].
Qed.

Lemma dispatch_threads c m (g : EgressShardGroup) : same_threads g (dispatch_command c m g).2.
Proof.
  destruct c as [spec|spec|id|id| |i|]; cbn [dispatch_command]; try reflexivity;
    unfold dispatch_spec, dispatch_remove, dispatch_drain, dispatch_shutdown.
  1-5: cbn [send group_sink]; repeat case_match; try reflexivity;
    match goal with Hs : try_send_to ?g ?i ?c = (_, ?g') |- _ =>
      pose proof (try_send_to_threads g i c) as Ht; rewrite Hs in Ht; exact Ht end.
  repeat case_match; try reflexivity; cbn; by eapply send_all_threads.
Qed.

Lemma dispatch_dead c m (g : EgressShardGroup) r m' g' :
  fabric_ok m g -> dispatch_command c m g = (r, m', g') ->
  (forall j, shard_is_dead m' j = shard_is_dead m j) /\ shard_count m' = shard_count m /\
  (forall j, (j < shard_count m)%nat -> shard_is_dead m j = true -> specs_on m' j = ∅).
Proof.
  intros [[Hm Hg Hle Ht Hf] Hcount] Hd.
  assert (Hdead : forall j, (j < shard_count m)%nat -> shard_is_dead m j = true ->
    specs_on m j = ∅ /\ forall h, handles g !! j = Some h -> h_panicked h = true).
  { intros j Hj Hdj. specialize (Ht j Hj). unfold told in Ht. by rewrite Hdj in Ht. }
  pose proof (dispatch_command_effect c m g Hm) as He. rewrite Hd in He.
  destruct He as [|e σ' Hs|spec i σ' Hc Hi Hgen Hlt Hdr Hs|id d σ' Hc Hl Hlt Hs|i σ' Hc Hlt Hs|σ' Hc Hs];
    (split_and!; [done|done|intros j Hj Hdj; destruct (Hdead j Hj Hdj) as [Hsp Hp]]); try exact Hsp.
  - rewrite specs_on_set by (intros d Hl; by rewrite Hl in Hi). rewrite decide_False; [done|]. intros ->.
    apply try_send_to_ok in Hs as (h & Hl & Ho & _). pose proof (to_closed g Hg _ _ Hl (Hp h Hl)). congruence.
  - rewrite (specs_on_drop _ _ d) by done. case_decide; [|done]. by rewrite Hsp, delete_empty.
Qed.

Lemma dispatch_fabric_ok c m g :
  Z.of_nat (size (desired m)) + 1 < 2 ^ 32 ->
  fabric_ok m g -> let '(_, m', g') := dispatch_command c m g in fabric_ok m' g'.
Proof.
  intros Hsz HF. pose proof HF as [[Hm Hg Hle Ht Hf] Hcount].
  pose proof (manager_op_ok (m, g) (ODispatch c) Hm Hsz ltac:(done)) as [Hm' _].
  pose proof (dispatch_keeps_told c m g Hm) as Hk. pose proof (dispatch_threads c m g) as Hth.
  destruct (dispatch_command c m g) as [[r m'] g'] eqn:Hd.
  cbn [run_op fst snd] in *. rewrite Hd in Hm'. cbn in Hm'.
  destruct (dispatch_dead c m g r m' g' HF Hd) as (Hdead & Hsc & Hempty).
  apply fabric_ok_intro; [done|by eapply same_threads_ok| |].
  - rewrite <- (same_threads_count _ _ Hth). congruence.
  - rewrite Hsc. intros i Hi. specialize (Ht i Hi). unfold told in *. rewrite Hdead.
    destruct (shard_is_dead m i) eqn:Hdi; [|by apply Hk].
    split; [by apply Hempty|]. intros h' Hl'.
    destruct (same_threads_inv _ _ _ _ Hth Hl') as (h & Hh & _ & _ & <-). by apply Ht.
Qed.

(** A thread that receives, or ends, leaves the books alone. *)
Lemma handle_change_ok m g i h h' :
  fabric_ok m g -> handles g !! i = Some h ->
  h_shard h' = h_shard h -> (h_panicked h' = true -> h_open h' = false) ->
  (h_panicked h = true -> h_panicked h' = true) ->
  replay (h_accepted h') = replay (h_accepted h) ->
  fabric_ok m (mk_group (<[i := h']> (handles g))).
Proof.
  intros [[Hm [Hi Hc] Hle Ht Hf] Hcount] Hl Hsh Hcl Hpan Hacc.
  pose proof (lookup_lt_Some _ _ _ Hl) as Hlt.
  assert (Hlook : forall j k, <[i := h']> (handles g) !! j = Some k ->
    (j = i /\ k = h') \/ (j <> i /\ handles g !! j = Some k)).
  { intros j k Hj. destruct (decide (j = i)) as [->|Hne].
    - rewrite list_lookup_insert_eq in Hj by done. left. split; congruence.
    - rewrite list_lookup_insert_ne in Hj by done. by right. }
  apply fabric_ok_intro; [done| | |].
  - constructor; cbn [handles]; intros j k [[-> ->]|[Hne Hj]]%Hlook.
    + rewrite Hsh. by apply Hi.
    + by apply Hi.
    + done.
    + by eapply Hc.
  - unfold group_shard_count in *. cbn [handles]. by rewrite length_insert.
  - intros j Hj. specialize (Ht j Hj). unfold told in *. destruct (shard_is_dead m j).
    + destruct Ht as [Hs Hp]. split; [done|]. intros k [[-> ->]|[Hne Hk]]%Hlook; [|by apply Hp].
      apply Hpan. by apply Hp.
    + rewrite (accepted_insert g i h h') by done. destruct (decide (j = i)) as [->|Hne]; [|done].
      rewrite Hacc. unfold accepted in Ht. by rewrite Hl in Ht.
Qed.

Lemma try_send_wake_ok m g i : fabric_ok m g -> fabric_ok m (try_send_to g i FeedWake).2.
Proof.
  intros HF. destruct (try_send_to g i FeedWake) as [[e|] g'] eqn:Hs; cbn [snd].
  - by rewrite (try_send_to_err _ _ _ _ _ Hs).
  - apply try_send_to_ok in Hs as (h & Hl & Ho & _ & Hg). destruct g' as [hs']. cbn in Hg. subst hs'.
    apply (handle_change_ok m g i h); auto; cbn [h_panicked h_open h_accepted].
    + pose proof (to_closed g (fa_threads _ _ (fo_ahead _ _ HF)) i h Hl). auto.
    + by rewrite replay_snoc.
Qed.

Lemma shard_receives_ok m g i : fabric_ok m g -> fabric_ok m (shard_receives i g).
Proof.
  intros HF. unfold shard_receives. destruct (handles g !! i) as [h|] eqn:Hl; [|done].
  destruct (h_open h) eqn:Ho; [|done]. unfold try_recv.
  assert (Hc : h_panicked h = true -> h_open h = false).
  { apply (to_closed g (fa_threads _ _ (fo_ahead _ _ HF)) i h Hl). }
  destruct (h_accepted h !! h_received h); cbn [snd]; by apply (handle_change_ok m g i h).
Qed.

Lemma shard_ends_ok m g i p : fabric_ok m g -> fabric_ok m (shard_ends i p g).
Proof.
  intros HF. unfold shard_ends. destruct (handles g !! i) as [h|] eqn:Hl; [|done].
  apply (handle_change_ok m g i h); auto. cbn. by intros ->.
Qed.

(** ** The phases of [rescale] *)

Lemma shard_is_dead_forget m i j :
  manager_ok m -> (i < shard_count m)%nat ->
  shard_is_dead (forget_shard i m).2 j = if decide (j = i) then true else shard_is_dead m j.
Proof.
  intros Hm Hi. unfold shard_is_dead. cbn. destruct (decide (j = i)) as [->|Hne].
  - by rewrite list_lookup_insert_eq by (rewrite (mo_dead m Hm); lia).
  - by rewrite list_lookup_insert_ne.
Qed.

Lemma specs_on_forget m i j :
  specs_on (forget_shard i m).2 j = if decide (j = i) then ∅ else specs_on m j.
Proof. unfold specs_on. cbn. rewrite placed_on_others. case_decide; [apply fmap_empty|done]. Qed.

Lemma forget_fabric_ok m g i h :
  fabric_ok m g -> handles g !! i = Some h -> h_panicked h = true ->
  fabric_ok (forget_shard i m).2 g.
Proof.
  intros [[Hm Hg Hle Ht Hf] Hcount] Hl Hp.
  assert (Hi : (i < shard_count m)%nat) by (rewrite <- Hcount; by eapply lookup_lt_Some).
  apply fabric_ok_intro; [by apply forget_shard_ok|done|done|].
  intros j Hj. unfold told. rewrite shard_is_dead_forget, specs_on_forget by done.
  destruct (decide (j = i)) as [->|Hne]; [|by apply Ht]. split; [done|]. intros h' Hh'. congruence.
Qed.

(** The outputs of the dead shards are released, and no others. *)
Definition survivors (dead : list ShardId) (D : gmap OutputId DesiredOutput) : gmap OutputId DesiredOutput :=
  filter (fun p => d_shard p.2 ∉ dead) D.

Lemma survivors_nil D : survivors [] D = D.
Proof. apply map_filter_id. intros id d _. apply not_elem_of_nil. Qed.

Lemma survivors_cons i dead D :
  survivors dead (filter (fun p => d_shard p.2 <> i) D) = survivors (i :: dead) D.
Proof.
  unfold survivors. apply map_eq. intros id. apply option_eq. intros d.
  rewrite !map_lookup_filter_Some. cbn. rewrite not_elem_of_cons. tauto.
Qed.

Lemma forget_all_ok dead g : forall m,
  fabric_ok m g -> (forall i, i ∈ dead -> exists h, handles g !! i = Some h /\ h_panicked h = true) ->
  let m' := forget_all dead m in
  fabric_ok m' g /\ desired m' = survivors dead (desired m) /\ shard_count m' = shard_count m /\
  placement m' = placement m /\
  forall j, shard_is_dead m' j = bool_decide (j ∈ dead) || shard_is_dead m j.
Proof.
  induction dead as [|i dead IH]; intros m HF Hd m'.
  { split_and!; [done|by rewrite survivors_nil|done|done|done]. }
  destruct (Hd i ltac:(by left)) as (h & Hl & Hp).
  destruct (IH (forget_shard i m).2) as (HF' & Hdes & Hsc & Hpl & Hdead).
  { by eapply forget_fabric_ok. }
  { intros j Hj. apply Hd. by right. }
  subst m'. change (forget_all (i :: dead) m) with (forget_all dead (forget_shard i m).2).
  split_and!; [done|by rewrite Hdes, <- survivors_cons|done|done|].
  intros j. rewrite Hdead. rewrite shard_is_dead_forget.
  - destruct (decide (j = i)) as [->|Hne].
    + rewrite orb_true_r. by rewrite bool_decide_true by by left.
    + f_equal. apply bool_decide_ext. rewrite elem_of_cons. tauto.
  - apply HF.
  - rewrite <- (fo_count _ _ HF). by eapply lookup_lt_Some.
Qed.

Lemma panicked_shards_spec g i :
  threads_ok g -> i ∈ panicked_shards g <-> exists h, handles g !! i = Some h /\ h_panicked h = true.
Proof.
  intros Hg. unfold panicked_shards. rewrite list_elem_of_In, in_map_iff. setoid_rewrite filter_In. split.
  - intros (h & <- & Hin & Hp). apply list_elem_of_In, list_elem_of_lookup in Hin as [j Hj].
    exists h. rewrite (to_index g Hg j h Hj). done.
  - intros (h & Hl & Hp). exists h. split_and!; [by apply (to_index g Hg)| |done].
    apply list_elem_of_In. by eapply list_elem_of_lookup_2.
Qed.

Lemma specs_on_survivors dead D i :
  i ∈ dead -> d_spec <$> placed_on i (survivors dead D) = ∅.
Proof.
  intros Hi. apply map_eq. intros id. rewrite lookup_empty, lookup_fmap.
  destruct (placed_on i (survivors dead D) !! id) as [d|] eqn:Hl; [|done].
  apply placed_on_lookup in Hl as [[_ Hn]%map_lookup_filter_Some <-]. done.
Qed.

Section phases.
Context {E : Type}.
Implicit Types (a : rescale_args E) (st : rescale_state E).

Definition in_step st : Prop := fabric_ok (rs_manager st) (rs_group st).

(** The factory builds a backend for [i] whenever it is asked. *)
Definition can_build a (i : ShardId) : Prop := forall n, factory_for a n i = FactoryOk.
(** A thread serves [i] and the manager places outputs on it. *)
Definition serving st (i : ShardId) : Prop :=
  shard_is_dead (rs_manager st) i = false /\
  exists h, handles (rs_group st) !! i = Some h /\ h_open h = true /\ h_panicked h = false.

Lemma try_spawn_with_ok i cap (f : factory_outcome E) h :
  try_spawn_with i cap f = inl h ->
  h_shard h = i /\ h_accepted h = [] /\ (h_panicked h = true -> h_open h = false) /\
  (f = FactoryOk -> h_open h = true /\ h_panicked h = false).
Proof. destruct f; cbn; intros Heq; inversion Heq; cbn; split_and!; auto; try done. Qed.

Lemma shard_is_dead_revive m i j :
  manager_ok m -> (i < shard_count m)%nat ->
  shard_is_dead (revive_shard i m) j = if decide (j = i) then false else shard_is_dead m j.
Proof.
  intros Hm Hi. unfold shard_is_dead. cbn. destruct (decide (j = i)) as [->|Hne].
  - by rewrite list_lookup_insert_eq by (rewrite (mo_dead m Hm); lia).
  - by rewrite list_lookup_insert_ne.
Qed.

Lemma revive_shard_ok i m : manager_ok m -> manager_ok (revive_shard i m).
Proof. intros []. constructor; cbn; rewrite ?length_insert; auto. Qed.

(** One replacement: either nothing but the error is new, or the shard has a fresh channel. *)
Lemma replace_one_ok a st i :
  in_step st -> specs_on (rs_manager st) i = ∅ -> (i < shard_count (rs_manager st))%nat ->
  let st' := replace_one a st i in
  in_step st' /\ desired (rs_manager st') = desired (rs_manager st) /\
  shard_count (rs_manager st') = shard_count (rs_manager st) /\
  placement (rs_manager st') = placement (rs_manager st) /\
  (can_build a i -> serving st' i) /\
  (forall j, j <> i -> handles (rs_group st') !! j = handles (rs_group st) !! j /\
     shard_is_dead (rs_manager st') j = shard_is_dead (rs_manager st) j) /\
  (can_build a i -> grow_error st' = grow_error st) /\
  (grow_error st' = None -> grow_error st = None).
Proof.
  intros HF He Hi. unfold replace_one, replace_with.
  pose proof HF as [[Hm [Hix Hcl] Hle Ht Hf] Hcount].
  destruct (lookup_lt_is_Some_2 (handles (rs_group st)) i) as [h0 Hl0];
    [unfold group_shard_count in Hcount; lia|]. rewrite Hl0.
  destruct (try_spawn_with i (ra_command_capacity a) (factory_for a (rs_calls st) i)) as [h|e] eqn:Hsp; cbn zeta.
  - destruct (try_spawn_with_ok _ _ _ _ Hsp) as (Hsh & Hacc & Hpo & Hok).
    pose proof (lookup_lt_Some _ _ _ Hl0) as Hlt.
    assert (HF' : fabric_ok (revive_shard i (rs_manager st)) (mk_group (<[i := h]> (handles (rs_group st))))).
    { apply fabric_ok_intro; [by apply revive_shard_ok| | |].
      - constructor; cbn [handles]; intros j k Hj; destruct (decide (j = i)) as [->|Hne];
          [rewrite list_lookup_insert_eq in Hj by done; by simplify_eq
          |rewrite list_lookup_insert_ne in Hj by done; by apply Hix
          |rewrite list_lookup_insert_eq in Hj by done; by simplify_eq
          |rewrite list_lookup_insert_ne in Hj by done; by eapply Hcl].
      - unfold group_shard_count in *. cbn [handles]. by rewrite length_insert.
      - intros j Hj. unfold told. rewrite shard_is_dead_revive, (accepted_insert _ _ h0) by done.
        cbn [handles]. destruct (decide (j = i)) as [->|Hne].
        + rewrite Hacc. change (∅ = specs_on (rs_manager st) i). done.
        + rewrite list_lookup_insert_ne by done. by apply Ht. }
    split_and!; try done.
    + intros Hb. split; cbn [rs_manager rs_group].
      * rewrite shard_is_dead_revive by done. by rewrite decide_True.
      * exists h. cbn [handles]. rewrite list_lookup_insert_eq by done. split; [done|]. apply Hok, Hb.
    + intros j Hne. cbn [rs_manager rs_group handles]. rewrite list_lookup_insert_ne by done.
      rewrite shard_is_dead_revive by done. by rewrite decide_False.
  - split_and!; try done.
    + intros Hb. by rewrite Hb in Hsp.
    + intros Hb. by rewrite Hb in Hsp.
    + cbn. by destruct (grow_error st).
Qed.

Lemma serving_keep st st' i :
  handles (rs_group st') !! i = handles (rs_group st) !! i ->
  shard_is_dead (rs_manager st') i = shard_is_dead (rs_manager st) i ->
  serving st i -> serving st' i.
Proof. unfold serving. by intros -> ->. Qed.

Lemma replace_all_ok a dead : forall st,
  in_step st -> (forall i, i ∈ dead -> specs_on (rs_manager st) i = ∅ /\ (i < shard_count (rs_manager st))%nat) ->
  let st' := replace_all a dead st in
  in_step st' /\ desired (rs_manager st') = desired (rs_manager st) /\
  shard_count (rs_manager st') = shard_count (rs_manager st) /\
  placement (rs_manager st') = placement (rs_manager st) /\
  (forall i, can_build a i -> i ∈ dead \/ serving st i -> serving st' i) /\
  (forall j, j ∉ dead -> handles (rs_group st') !! j = handles (rs_group st) !! j /\
     shard_is_dead (rs_manager st') j = shard_is_dead (rs_manager st) j) /\
  ((forall i, can_build a i) -> grow_error st' = grow_error st) /\
  (grow_error st' = None -> grow_error st = None).
Proof.
  induction dead as [|i dead IH]; intros st HF Hd.
  { split_and!; try done. intros i _ [Hi|Hi]; [by apply not_elem_of_nil in Hi|done]. }
  cbn zeta. change (replace_all a (i :: dead) st) with (replace_all a dead (replace_one a st i)).
  destruct (Hd i ltac:(by left)) as [He Hi].
  destruct (replace_one_ok a st i HF He Hi) as (HF1 & Hdes1 & Hsc1 & Hpl1 & Hs1 & Ho1 & He1 & Hg1).
  destruct (IH (replace_one a st i) HF1) as (HF2 & Hdes2 & Hsc2 & Hpl2 & Hs2 & Ho2 & He2 & Hg2).
  { intros j Hj. rewrite Hsc1. unfold specs_on. rewrite Hdes1. apply Hd. by right. }
  split_and!; [done|congruence|congruence|congruence| | | |auto].
  - intros j Hb Hj. apply Hs2; [done|]. destruct (decide (j = i)) as [->|Hne]; [right; by apply Hs1|].
    destruct Hj as [[Hji|Hj]%elem_of_cons|Hj]; [done|by left|right].
    destruct (Ho1 j Hne). by eapply serving_keep.
  - intros j [Hne Hnd]%not_elem_of_cons. destruct (Ho2 j Hnd), (Ho1 j Hne). split; congruence.
  - intros Hb. by rewrite He2, He1.
Qed.

(** Growing: the manager does not see the new shards yet. *)
Definition ahead st : Prop := fabric_ahead (rs_manager st) (rs_group st).

Lemma grow_push_ok m g h :
  fabric_ahead m g -> h_shard h = group_shard_count g -> h_accepted h = [] ->
  (h_panicked h = true -> h_open h = false) -> fabric_ahead m (mk_group (handles g ++ [h])).
Proof.
  intros [Hm [Hix Hcl] Hle Ht Hf] Hsh Hacc Hpo. unfold group_shard_count in *.
  assert (Hlook : forall j k, (handles g ++ [h]) !! j = Some k ->
    handles g !! j = Some k \/ (j = length (handles g) /\ k = h)).
  { intros j k [Hj|[Hge Hj]]%lookup_app_Some; [by left|right].
    apply list_lookup_singleton_Some in Hj as [? <-]. split; [lia|done]. }
  assert (Hac : forall j, accepted (mk_group (handles g ++ [h])) j = accepted g j).
  { intros j. unfold accepted. cbn [handles]. destruct ((handles g ++ [h]) !! j) as [k|] eqn:Hj.
    - destruct (Hlook j k Hj) as [-> |[-> ->]]; [done|]. rewrite Hacc. by rewrite lookup_ge_None_2.
    - apply lookup_ge_None in Hj. rewrite length_app in Hj. rewrite lookup_ge_None_2; [done|lia]. }
  constructor; cbn [handles].
  - done.
  - constructor; cbn [handles]; intros j k [Hj|[-> ->]]%Hlook; eauto.
  - unfold group_shard_count. cbn [handles]. rewrite length_app. lia.
  - intros j Hj. specialize (Ht j Hj). unfold told in *. rewrite Hac. cbn [handles].
    by rewrite lookup_app_l by lia.
  - intros j Hj. rewrite Hac. by apply Hf.
Qed.

Lemma grow_loop_ok a target : forall fuel st,
  ahead st ->
  let st' := grow_loop a fuel target st in
  ahead st' /\ rs_manager st' = rs_manager st /\
  (exists tail, handles (rs_group st') = handles (rs_group st) ++ tail /\
     (grow_error st' = None -> (forall i, can_build a i) ->
        forall h, h ∈ tail -> h_open h = true /\ h_panicked h = false)) /\
  (group_shard_count (rs_group st') <= Nat.max (group_shard_count (rs_group st)) target)%nat /\
  (grow_error st' = None -> grow_error st = None) /\
  ((forall i, can_build a i) -> grow_error st' = grow_error st) /\
  ((target - group_shard_count (rs_group st) <= fuel)%nat ->
     grow_error st' = None -> (target <= group_shard_count (rs_group st'))%nat).
Proof.
  induction fuel as [|fuel IH]; intros st HA; cbn [grow_loop].
  { split_and!; try done; [|lia|intros; lia]. exists []. rewrite app_nil_r. split; [done|].
    intros _ _ h Hh. by apply not_elem_of_nil in Hh. }
  destruct (bool_decide (grow_error st = None) && (group_shard_count (rs_group st) <? target)%nat) eqn:Hc.
  2:{ split_and!; try done.
    - exists []. rewrite app_nil_r. split; [done|]. intros _ _ h Hh. by apply not_elem_of_nil in Hh.
    - lia.
    - intros _ Hg. rewrite bool_decide_true in Hc by done. cbn in Hc. apply Nat.ltb_ge in Hc. lia. }
  apply andb_true_iff in Hc as [Hge%bool_decide_eq_true_1 Hlt%Nat.ltb_lt].
  unfold grow_with. fold (group_shard_count (rs_group st)).
  destruct (try_spawn_with (group_shard_count (rs_group st)) _ _) as [h|e] eqn:Hsp; cbn zeta.
  - destruct (try_spawn_with_ok _ _ _ _ Hsp) as (Hsh & Hacc & Hpo & Hok).
    set (st1 := mk_rescale _ _ (mk_group (handles (rs_group st) ++ [h])) _ _).
    destruct (IH st1) as (HA' & Hm' & (tail & Htail & Hnew) & Hle & Hg1 & Hg2 & Hfuel).
    { by apply grow_push_ok. }
    assert (Hlen : group_shard_count (rs_group st1) = S (group_shard_count (rs_group st))).
    { unfold group_shard_count. cbn. rewrite length_app. cbn. lia. }
    split_and!; auto.
    + exists (h :: tail). rewrite Htail. cbn [rs_group st1 handles]. rewrite <- app_assoc. split; [done|].
      intros Hg Hb k [->|Hk]%elem_of_cons; [apply Hok, Hb|by apply Hnew].
    + lia.
    + intros. apply Hfuel; [lia|done].
  - split_and!; try done; cbn.
    + exists []. rewrite app_nil_r. split; [done|]. intros _ _ h Hh. by apply not_elem_of_nil in Hh.
    + lia.
    + intros Hb. by rewrite (Hb _ _) in Hsp.
Qed.

Lemma specs_on_beyond m i : manager_ok m -> (shard_count m <= i)%nat -> specs_on m i = ∅.
Proof.
  intros Hm Hi. apply map_eq. intros id. unfold specs_on. rewrite lookup_empty, lookup_fmap.
  destruct (placed_on i (desired m) !! id) as [d|] eqn:Hl; [|done].
  apply placed_on_lookup in Hl as [Hl <-]. apply (mo_desired m Hm) in Hl. lia.
Qed.

Lemma shard_is_dead_grow n m i : manager_ok m -> shard_is_dead (grow_to n m) i = shard_is_dead m i.
Proof.
  intros Hm. unfold shard_is_dead. cbn. destruct (decide (i < shard_count m)%nat) as [Hlt|Hge].
  - by rewrite lookup_resize by (rewrite ?(mo_dead m Hm); lia).
  - rewrite (lookup_ge_None_2 (dead_shards m)) by (rewrite (mo_dead m Hm); lia).
    destruct (decide (i < Nat.max n (shard_count m))%nat).
    + by rewrite lookup_resize_new by (rewrite ?(mo_dead m Hm); lia).
    + by rewrite lookup_resize_old by lia.
Qed.

(** The manager catches up with the group, or only narrows placement. *)
Lemma place_ok st target :
  ahead st -> (1 <= target)%nat ->
  group_shard_count (rs_group st) = shard_count (rs_manager st) \/
    (shard_count (rs_manager st) < group_shard_count (rs_group st) <= target)%nat ->
  let st' := place target (placement (rs_manager st)) st in
  in_step st' /\ desired (rs_manager st') = desired (rs_manager st) /\
  rs_group st' = rs_group st /\ grow_error st' = grow_error st /\
  (forall i, shard_is_dead (rs_manager st') i = shard_is_dead (rs_manager st) i) /\
  (grow_error st = None -> (target <= group_shard_count (rs_group st))%nat ->
     placement (rs_manager st') = target).
Proof.
  intros HA Ht Hc. pose proof HA as [Hm Hg Hle Htold Hf]. pose proof (mo_placement _ Hm) as Hp.
  unfold place. set (count := group_shard_count (rs_group st)) in *.
  set (usable := Nat.max (Nat.min target count) 1) in *.
  assert (Hstep : forall m', manager_ok m' -> desired m' = desired (rs_manager st) -> shard_count m' = count ->
    (forall i, shard_is_dead m' i = shard_is_dead (rs_manager st) i) -> fabric_ok m' (rs_group st)).
  { intros m' Hm' Hd Hs Hdead. apply fabric_ok_intro; [done|done|done|].
    intros i Hi. unfold told, specs_on. rewrite Hdead, Hd. fold (specs_on (rs_manager st) i).
    destruct (decide (i < shard_count (rs_manager st))%nat) as [Hlt|Hge]; [by apply Htold|].
    rewrite (specs_on_beyond _ _ Hm) by lia. rewrite Hf by lia.
    assert (Hnd : shard_is_dead (rs_manager st) i = false).
    { unfold shard_is_dead. by rewrite lookup_ge_None_2 by (rewrite (mo_dead _ Hm); lia). }
    by rewrite Hnd. }
  destruct (bool_decide (grow_error st = None) || (placement (rs_manager st) <? count)%nat) eqn:Hcond.
  2:{ apply orb_false_iff in Hcond as [Hge%bool_decide_eq_false_1 Hlt%Nat.ltb_ge].
      split_and!; try done. apply Hstep; auto. lia. }
  destruct (usable =? placement (rs_manager st))%nat eqn:Hu; cbn [negb].
  { apply Nat.eqb_eq in Hu. split_and!; try done; [apply Hstep; auto; lia|]. intros _ Htc. lia. }
  destruct (shard_count (rs_manager st) <? usable)%nat eqn:Hg'; cbn [rs_manager rs_group grow_error].
  - apply Nat.ltb_lt in Hg'. split_and!; try done.
    + apply Hstep; [by apply grow_to_ok|done|cbn; lia|intros i; by apply shard_is_dead_grow].
    + intros i. by apply shard_is_dead_grow.
    + cbn. lia.
  - apply Nat.ltb_ge in Hg'. split_and!; try done.
    + apply Hstep; [apply set_placement_ok; [lia|done]|done|cbn; lia|done].
    + cbn. lia.
Qed.

Lemma retire_true m m' :
  retire_empty_tail m = (true, m') ->
  (placement m < shard_count m)%nat /\ (2 <= shard_count m)%nat /\
  shard_count m' = (shard_count m - 1)%nat /\ desired m' = desired m /\ placement m' = placement m /\
  forall i, (i < shard_count m')%nat -> shard_is_dead m' i = shard_is_dead m i.
Proof.
  unfold retire_empty_tail.
  destruct (_ || _) eqn:Hc; [done|].
  apply orb_false_iff in Hc as [[H1%Nat.leb_gt H2%Nat.leb_gt]%orb_false_iff _]. injection 1 as <-. cbn.
  split_and!; auto; try lia. intros i Hi. unfold shard_is_dead. cbn. by rewrite lookup_take_lt.
Qed.

Lemma retire_shrink_ok m g m' :
  fabric_ok m g -> retire_empty_tail m = (true, m') ->
  exists i, shrink g = (Some i, mk_group (take (group_shard_count g - 1) (handles g))) /\
    fabric_ok m' (mk_group (take (group_shard_count g - 1) (handles g))).
Proof.
  intros [[Hm [Hix Hcl] Hle Ht Hf] Hcount] Hr. pose proof (retire_ok m Hm) as Hm'. rewrite Hr in Hm'. cbn in Hm'.
  destruct (retire_true _ _ Hr) as (Hlt & H2 & Hsc & Hdes & Hpl & Hdead). unfold group_shard_count in *.
  unfold shrink. destruct (last (handles g)) as [h|] eqn:Hl.
  2:{ apply last_None in Hl. rewrite Hl in Hcount. cbn in Hcount. lia. }
  exists (h_shard h). split; [done|]. apply fabric_ok_intro; [done| | |].
  - constructor; cbn [handles]; intros j k [Hj _]%lookup_take_Some; eauto.
  - unfold group_shard_count. cbn [handles]. rewrite length_take. lia.
  - intros j Hj. specialize (Ht j ltac:(lia)). unfold told, specs_on, accepted in *. cbn [handles].
    rewrite Hdead, Hdes by done. by rewrite lookup_take_lt by lia.
Qed.

Lemma retire_loop_ok : forall fuel st,
  in_step st ->
  let st' := retire_loop fuel st in
  in_step st' /\ desired (rs_manager st') = desired (rs_manager st) /\ grow_error st' = grow_error st /\
  placement (rs_manager st') = placement (rs_manager st) /\
  (shard_count (rs_manager st') <= shard_count (rs_manager st))%nat /\
  (forall i, (i < shard_count (rs_manager st'))%nat ->
     handles (rs_group st') !! i = handles (rs_group st) !! i /\
     shard_is_dead (rs_manager st') i = shard_is_dead (rs_manager st) i) /\
  ((shard_count (rs_manager st) <= fuel)%nat -> (retire_empty_tail (rs_manager st')).1 = false).
Proof.
  induction fuel as [|fuel IH]; intros st HF; cbn [retire_loop].
  { split_and!; try done. pose proof (mo_shards _ (fa_manager _ _ (fo_ahead _ _ HF))). lia. }
  destruct (retire_empty_tail (rs_manager st)) as [[] m'] eqn:Hr.
  2:{ split_and!; try done. by rewrite Hr. }
  destruct (retire_shrink_ok _ _ _ HF Hr) as (i & Hs & HF'). rewrite Hs.
  destruct (retire_true _ _ Hr) as (Hlt & H2 & Hsc & Hdes & Hpl & Hdead).
  set (st1 := mk_rescale _ m' _ _ _). destruct (IH st1 HF') as (HF2 & Hd2 & Hg2 & Hp2 & Hsc2 & Hh2 & Hfuel).
  change (rs_manager st1) with m' in *. split_and!; auto; try congruence; try lia.
  - intros j Hj. destruct (Hh2 j Hj) as [Hh Hdj]. rewrite Hdj, (Hdead j) by lia. split; [|done].
    rewrite Hh. cbn. rewrite lookup_take_lt; [done|].
    rewrite (fo_count _ _ HF). lia.
  - intros. apply Hfuel. lia.
Qed.

Lemma rescale_target_pos a ceiling m : (1 <= rescale_target a ceiling m)%nat.
Proof. unfold rescale_target. lia. Qed.

Lemma rescale_target_ext a ceiling m m' :
  desired m = desired m' -> placement m = placement m' -> rescale_target a ceiling m = rescale_target a ceiling m'.
Proof. intros Hd Hp. unfold rescale_target, sizing_target. by rewrite Hd, Hp. Qed.

Lemma panicked_shards_nil g :
  threads_ok g -> (forall i h, handles g !! i = Some h -> h_panicked h = false) -> panicked_shards g = [].
Proof.
  intros Hg Hn. destruct (panicked_shards g) as [|i rest] eqn:Hp; [done|exfalso].
  assert (Hin : i ∈ panicked_shards g) by (rewrite Hp; by left).
  apply (panicked_shards_spec _ _ Hg) in Hin as (h & Hl & Hpan). rewrite (Hn i h Hl) in Hpan. done.
Qed.

(** Nobody is left panicked once every factory has built its backend. *)
Lemma all_built_ok a dead st0 st1 st2 tail :
  threads_ok (rs_group st0) -> dead = panicked_shards (rs_group st0) ->
  (forall i, i ∈ dead -> serving st1 i) ->
  (forall j, j ∉ dead -> handles (rs_group st1) !! j = handles (rs_group st0) !! j) ->
  handles (rs_group st2) = handles (rs_group st1) ++ tail ->
  (forall h, h ∈ tail -> h_open h = true /\ h_panicked h = false) ->
  forall i h, handles (rs_group st2) !! i = Some h -> h_panicked h = false.
Proof.
  intros Hg -> Hs Ho Ht Hn i h. rewrite Ht, lookup_app_Some. intros [Hl|[_ Hl]].
  - destruct (decide (i ∈ panicked_shards (rs_group st0))) as [Hd|Hnd].
    + destruct (Hs i Hd) as (_ & h' & Hl' & _ & Hp'). congruence.
    + apply not_true_iff_false. intros Hp. apply Hnd, panicked_shards_spec; [done|].
      rewrite (Ho i Hnd) in Hl. eauto.
  - by destruct (Hn h (list_elem_of_lookup_2 _ _ _ Hl)).
Qed.

(** The whole of [rescale]. *)
Lemma rescale_ok a rt :
  fabric_ok (rt_manager rt) (rt_group rt) ->
  let '(r, rt') := rescale a rt in
  let m := rt_manager rt in let g := rt_group rt in
  let m' := rt_manager rt' in let g' := rt_group rt' in
  let panicked := panicked_shards g in
  fabric_ok m' g' /\ desired m' = survivors panicked (desired m) /\
  (forall j, j ∉ panicked -> (j < shard_count m)%nat -> (j < shard_count m')%nat ->
     handles g' !! j = handles g !! j /\ shard_is_dead m' j = shard_is_dead m j) /\
  (forall i, i ∈ panicked -> can_build a i -> (i < shard_count m')%nat ->
     shard_is_dead m' i = false /\ exists h, handles g' !! i = Some h /\ h_open h = true /\ h_panicked h = false) /\
  (retire_empty_tail m').1 = false /\
  (forall touched, r = inl touched ->
     placement m' = rescale_target a (shard_ceiling rt) (forget_all panicked m)) /\
  shard_ceiling rt' = shard_ceiling rt /\
  ((forall i, can_build a i) -> (exists touched, r = inl touched) /\ panicked_shards g' = []).
Proof.
  intros HF. unfold rescale. set (panicked := panicked_shards (rt_group rt)).
  destruct (forget_all_ok panicked (rt_group rt) (rt_manager rt) HF) as (HF0 & Hd0 & Hs0 & Hp0 & Hdead0).
  { intros i Hi. by apply panicked_shards_spec in Hi; [|apply HF]. }
  set (st0 := mk_rescale 0 (forget_all panicked (rt_manager rt)) (rt_group rt) [] None).
  destruct (replace_all_ok a panicked st0 HF0) as (HF1 & Hd1 & Hs1 & Hp1 & Hb1 & Ho1 & He1 & Hg1).
  { intros i Hi. split.
    - unfold specs_on. cbn [rs_manager st0]. rewrite Hd0. by apply specs_on_survivors.
    - apply (panicked_shards_spec _ _ (fa_threads _ _ (fo_ahead _ _ HF))) in Hi as (h & Hl & _).
      cbn [rs_manager st0]. rewrite Hs0, <- (fo_count _ _ HF). by eapply lookup_lt_Some. }
  set (st1 := replace_all a panicked st0) in *.
  set (target := rescale_target a (shard_ceiling rt) (rs_manager st1)).
  destruct (grow_loop_ok a target (target - group_shard_count (rs_group st1)) st1 (fo_ahead _ _ HF1))
    as (HA2 & Hm2 & (tail & Htail & Hnew) & Hle2 & Hg2 & He2 & Hfuel2).
  set (st2 := grow_loop a (target - group_shard_count (rs_group st1)) target st1) in *.
  pose proof (fo_count _ _ HF1) as Hc1.
  destruct (place_ok st2 target HA2 (rescale_target_pos _ _ _)) as (HF3 & Hd3 & Hgr3 & Hge3 & Hdead3 & Hpl3).
  { rewrite Hm2. assert (group_shard_count (rs_group st1) <= group_shard_count (rs_group st2))%nat.
    { unfold group_shard_count. rewrite Htail, length_app. lia. } lia. }
  rewrite Hm2 in HF3, Hd3, Hgr3, Hge3, Hdead3, Hpl3.
  set (st3 := place target (placement (rs_manager st1)) st2) in *.
  destruct (retire_loop_ok (shard_count (rs_manager st3)) st3 HF3) as (HF4 & Hd4 & Hg4 & Hp4 & Hs4 & Hh4 & Hfin).
  set (st4 := retire_loop (shard_count (rs_manager st3)) st3) in *.
  cbn zeta. cbn [rt_manager rt_group shard_ceiling].
  assert (Hkeep : forall i, (i < shard_count (rs_manager st4))%nat -> (i < shard_count (rt_manager rt))%nat ->
    handles (rs_group st4) !! i = handles (rs_group st1) !! i /\
    shard_is_dead (rs_manager st4) i = shard_is_dead (rs_manager st1) i).
  { intros i Hi Hi0. destruct (Hh4 i Hi) as [Hh Hdi]. rewrite Hh, Hdi, Hgr3, Hdead3, Htail. split; [|done].
    apply lookup_app_l. unfold group_shard_count in Hc1. rewrite Hc1, Hs1. cbn [rs_manager st0]. lia. }
  split_and!; [done| | | |by apply Hfin| |done|].
  - rewrite Hd4, Hd3, Hd1. exact Hd0.
  - intros j Hj Hj0 Hj'. destruct (Hkeep j Hj' Hj0) as [-> ->]. destruct (Ho1 j Hj) as [-> ->].
    split; [done|]. cbn [rs_manager st0]. rewrite Hdead0. by rewrite bool_decide_false.
  - intros i Hi Hb Hi'.
    assert (Hi0 : (i < shard_count (rt_manager rt))%nat).
    { apply (panicked_shards_spec _ _ (fa_threads _ _ (fo_ahead _ _ HF))) in Hi as (h & Hl & _).
      rewrite <- (fo_count _ _ HF). by eapply lookup_lt_Some. }
    destruct (Hkeep i Hi' Hi0) as [-> ->]. apply (Hb1 i Hb). by left.
  - intros touched Hr. destruct (grow_error st4) eqn:Hge; [done|].
    rewrite Hp4, <- (rescale_target_ext a _ (rs_manager st1)) by done.
    apply Hpl3; [congruence|]. apply Hfuel2; [done|congruence].
  - intros Hb. assert (Hge : grow_error st2 = None) by (rewrite He2, He1 by done; done). split.
    { exists (rs_touched st4). by rewrite Hg4, Hge3, Hge. }
    apply panicked_shards_nil; [apply HF4|]. intros i h Hl.
    assert (Hi : (i < shard_count (rs_manager st4))%nat) by (rewrite <- (fo_count _ _ HF4); by eapply lookup_lt_Some).
    destruct (Hh4 i Hi) as [Hh _]. rewrite Hh, Hgr3 in Hl.
    eapply (all_built_ok a panicked st0 st1 st2 tail); [apply HF|done| | |done|by apply Hnew|done].
    + intros j Hj. apply Hb1; [done|by left].
    + intros j Hj. by apply Ho1.
Qed.
End phases.

(** ** Reachable runtimes *)

Section reach.
Context {E : Type}.
Implicit Types (ev : fabric_event E) (evs : list (fabric_event E)).

(** [EgressShardGroup::try_spawn_with] whose factories all succeed. *)
Definition spawn_group (count capacity : nat) : EgressShardGroup :=
  mk_group (map (fun i => spawn_thread i capacity) (seq 0 count)).

Lemma spawn_group_lookup count capacity i h :
  handles (spawn_group count capacity) !! i = Some h -> h = spawn_thread i capacity.
Proof.
  cbn. intros (x & -> & Hx)%list_lookup_fmap_Some. apply lookup_seq in Hx as [-> _]. done.
Qed.

Lemma spawn_group_ok count policy capacity :
  (1 <= count)%nat -> fabric_ok (EgressManager_new count policy) (spawn_group count capacity).
Proof.
  intros Hc. apply fabric_ok_intro; [by apply manager_new_ok| | |].
  - constructor; intros i h Hl; by rewrite (spawn_group_lookup _ _ _ _ Hl).
  - unfold group_shard_count, spawn_group. cbn. by rewrite length_map, length_seq.
  - intros i Hi. cbn in Hi. unfold told, shard_is_dead, accepted, specs_on, placed_on. cbn [EgressManager_new dead_shards desired].
    rewrite lookup_replicate_2 by done. cbn [default from_option]. rewrite map_filter_empty, fmap_empty.
    change (default false (Some false)) with false. cbn iota.
    destruct (handles (spawn_group count capacity) !! i) as [h|] eqn:Hl; [|done].
    by rewrite (spawn_group_lookup _ _ _ _ Hl).
Qed.

Lemma fabric_step_ok rt ev :
  Z.of_nat (size (desired (rt_manager rt))) + 1 < 2 ^ 32 ->
  fabric_ok (rt_manager rt) (rt_group rt) ->
  let rt' := fabric_step rt ev in
  fabric_ok (rt_manager rt') (rt_group rt') /\
  (size (desired (rt_manager rt')) <= S (size (desired (rt_manager rt))))%nat.
Proof.
  intros Hsz HF. destruct ev as [c|a|i|i|i p]; cbn [fabric_step].
  - pose proof (dispatch_fabric_ok c _ _ Hsz HF) as HF'.
    pose proof (manager_op_ok (rt_manager rt, rt_group rt) (ODispatch c) (fa_manager _ _ (fo_ahead _ _ HF)) Hsz I) as [_ Hs].
    unfold rt_dispatch. cbn [run_op] in Hs. by destruct (dispatch_command _ _ _) as [[r m'] g'].
  - pose proof (rescale_ok a rt HF) as Hr. destruct (rescale a rt) as [r rt'].
    destruct Hr as (HF' & Hd & _). split; [done|]. cbn [snd]. rewrite Hd.
    pose proof (map_size_filter (fun p : OutputId * DesiredOutput => d_shard p.2 ∉ panicked_shards (rt_group rt))
      (desired (rt_manager rt))). unfold survivors. lia.
  - split; [by apply try_send_wake_ok|cbn; lia].
  - split; [by apply shard_receives_ok|cbn; lia].
  - split; [by apply shard_ends_ok|cbn; lia].
Qed.

Lemma fabric_run_ok evs : forall rt,
  Z.of_nat (size (desired (rt_manager rt))) + Z.of_nat (length evs) < 2 ^ 32 ->
  fabric_ok (rt_manager rt) (rt_group rt) ->
  fabric_ok (rt_manager (fabric_run rt evs)) (rt_group (fabric_run rt evs)).
Proof.
  induction evs as [|ev evs IH]; intros rt Hsz HF; [done|]. cbn [length] in Hsz.
  destruct (fabric_step_ok rt ev ltac:(lia) HF) as [HF' Hs].
  change (fabric_run rt (ev :: evs)) with (fabric_run (fabric_step rt ev) evs). apply IH; [lia|done].
Qed.

(** A runtime as [EgressFabricRuntime::new] makes it, and everything it can become. *)
Definition reachable (rt : EgressFabricRuntime) : Prop :=
  exists count policy capacity ceiling rt0 evs, (1 <= count)%nat /\
    EgressFabricRuntime_new count policy (spawn_group count capacity) ceiling = inl rt0 /\
    Z.of_nat (length evs) < 2 ^ 32 /\ rt = fabric_run rt0 evs.

Lemma fabric_reachable_ok rt : reachable rt -> fabric_ok (rt_manager rt) (rt_group rt).
Proof.
  intros (count & policy & capacity & ceiling & rt0 & evs & Hc & Hnew & Hlen & ->).
  unfold EgressFabricRuntime_new in Hnew. destruct (negb _); [done|]. injection Hnew as <-.
  apply fabric_run_ok; cbn [rt_manager rt_group]; [|by apply spawn_group_ok].
  cbn. rewrite map_size_empty. lia.
Qed.
End reach.

(** ** Properties *)

Section properties.
Context {E : Type}.

(** C5: Manager, group and shards stay in step.  Take a runtime as it is created and let
    anything happen to it: commands, wakes, shards that receive, stop or panic at any moment,
    rescales with any sizing answer and with backend factories that succeed, fail or panic.
    The group then has exactly the manager's shards.  A shard the manager does not hold for
    dead has been told, by the commands its present channel took, exactly the outputs and
    specs the manager has placed on it; a shard held for dead has no outputs, and its thread
    did panic. *)
Theorem fabric_stays_in_step (rt : EgressFabricRuntime) :
  @reachable E rt ->
  group_shard_count (rt_group rt) = shard_count (rt_manager rt) /\
  forall i, (i < shard_count (rt_manager rt))%nat ->
    let placed := d_spec <$> filter (fun p => d_shard p.2 = i) (desired (rt_manager rt)) in
    if shard_is_dead (rt_manager rt) i
    then placed = ∅ /\ i ∈ panicked_shards (rt_group rt)
    else replay (accepted (rt_group rt) i) = placed.
Proof.
  intros HR. apply fabric_reachable_ok in HR as [[Hm Hg Hle Ht Hf] Hc]. split; [done|]. intros i Hi.
  specialize (Ht i Hi). unfold told in Ht. destruct (shard_is_dead _ i); [|exact Ht].
  destruct Ht as [Hs Hp]. split; [exact Hs|]. apply panicked_shards_spec; [done|].
  unfold group_shard_count in Hc. destruct (lookup_lt_is_Some_2 (handles (rt_group rt)) i) as [h Hh]; [lia|eauto].
Qed.

(** A resize never touches a live output.  Whatever [rescale] is asked for and whatever
    fails in it, an output on a shard that did not panic is still held on that shard under
    the same spec, and the shard still has the very same thread and channel: it was neither
    replaced nor retired.  The outputs of a panicked shard, and only they, are released. *)
Theorem rescale_touches_no_live_output (a : rescale_args E) (rt : EgressFabricRuntime) id d :
  @reachable E rt -> desired (rt_manager rt) !! id = Some d ->
  let rt' := (rescale a rt).2 in
  if decide (d_shard d ∈ panicked_shards (rt_group rt))
  then desired (rt_manager rt') !! id = None
  else desired (rt_manager rt') !! id = Some d /\
       handles (rt_group rt') !! d_shard d = handles (rt_group rt) !! d_shard d /\
       is_Some (handles (rt_group rt') !! d_shard d).
Proof.
  intros HR%fabric_reachable_ok Hl. pose proof (rescale_ok a rt HR) as Hr.
  destruct (rescale a rt) as [r rt']. destruct Hr as (HF' & Hd & Hkeep & _). cbn [snd].
  case_decide as Hp.
  - rewrite Hd. apply eq_None_not_Some. intros [d' [Hl' Hn]%map_lookup_filter_Some]. cbn in Hn. congruence.
  - assert (Hl' : desired (rt_manager rt') !! id = Some d).
    { rewrite Hd. by apply map_lookup_filter_Some. }
    pose proof HR as [[Hm _ _ _ _] _]. pose proof HF' as [[Hm' _ _ _ _] Hc'].
    destruct (mo_desired _ Hm _ _ Hl) as [_ Hlt]. destruct (mo_desired _ Hm' _ _ Hl') as [_ Hlt'].
    destruct (Hkeep (d_shard d) Hp Hlt Hlt') as [Hh _]. split_and!; [done|done|].
    apply lookup_lt_is_Some_2. unfold group_shard_count in Hc'. lia.
Qed.

(** C25: Rescaling recovers.  A panicked shard for which the backend can be built is served by
    a running thread again, and takes new outputs, whatever became of the other shards'
    replacements (unless it was retired with the tail).  When every backend can be built the
    call succeeds, no panicked or dead shard is left, new outputs are placed on exactly the
    number of shards that was aimed for, and no empty shard is left beyond them: the loops
    ran to their end. *)
Theorem rescale_recovers (a : rescale_args E) (rt : EgressFabricRuntime) :
  @reachable E rt ->
  let '(r, rt') := rescale a rt in
  (forall i, i ∈ panicked_shards (rt_group rt) -> (forall n, factory_for a n i = FactoryOk) ->
     (i < shard_count (rt_manager rt'))%nat ->
     shard_is_dead (rt_manager rt') i = false /\ exists h, handles (rt_group rt') !! i = Some h /\ h_open h = true) /\
  ((forall n i, factory_for a n i = FactoryOk) ->
     (exists touched, r = inl touched) /\ panicked_shards (rt_group rt') = [] /\
     (forall i, (i < shard_count (rt_manager rt'))%nat -> shard_is_dead (rt_manager rt') i = false) /\
     placement (rt_manager rt') = rescale_target a (shard_ceiling rt)
       (forget_all (panicked_shards (rt_group rt)) (rt_manager rt)) /\
     (retire_empty_tail (rt_manager rt')).1 = false).
Proof.
  intros HR%fabric_reachable_ok. pose proof (rescale_ok a rt HR) as Hr.
  destruct (rescale a rt) as [r rt']. destruct Hr as (HF' & Hd & Hkeep & Hrev & Hret & Hpl & _ & Hall). split.
  - intros i Hi Hb Hlt. destruct (Hrev i Hi Hb Hlt) as (Hdead & h & Hh & Ho & _). eauto.
  - intros Hb. destruct (Hall (fun i n => Hb n i)) as [[touched Hok] Hnone].
    split_and!; [eauto|done| |by eapply Hpl|done].
    intros i Hi. apply not_true_iff_false. intros Hdi. pose proof HF' as [[Hm Hg Hle Ht Hf] Hc].
    specialize (Ht i Hi). unfold told in Ht. rewrite Hdi in Ht. destruct Ht as [_ Hp].
    assert (Hin : i ∈ panicked_shards (rt_group rt')); [|rewrite Hnone in Hin; by apply not_elem_of_nil in Hin].
    apply panicked_shards_spec; [done|]. unfold group_shard_count in Hc.
    destruct (lookup_lt_is_Some_2 (handles (rt_group rt')) i) as [h Hh]; [lia|eauto].
Qed.
End properties.

(** ** Witnesses *)

Definition example_args : rescale_args unit := {|
  ra_reason := ReasonAdd; sz_recommend := 3; sz_observed := None; ra_override := None;
  ra_maximum := 8; ra_leaf_capacity := 2; ra_command_capacity := 4;
  factory_for := fun _ _ => FactoryOk |}.
Definition example_runtime : EgressFabricRuntime :=
  fabric_run (mk_runtime (EgressManager_new 2 LeastLoaded) (spawn_group 2 4) 4)
    [EvDispatch (Add (example_spec "a" 1)); EvDispatch (Add (example_spec "b" 1)); EvReceive 0;
     EvRescale example_args; EvDispatch (Add (example_spec "c" 1)); EvEnd (E := unit) 0 true].

Lemma example_runtime_reachable : @reachable unit example_runtime.
Proof.
  exists 2%nat, LeastLoaded, 4%nat, 4%nat, (mk_runtime (EgressManager_new 2 LeastLoaded) (spawn_group 2 4) 4).
  eexists. split_and!; [lia|reflexivity| |reflexivity]. reflexivity.
Defined.

Lemma fabric_stays_in_step_witness :
  group_shard_count (rt_group example_runtime) = 3%nat /\
  replay (accepted (rt_group example_runtime) 2%nat) =
    d_spec <$> filter (fun p => d_shard p.2 = 2%nat) (desired (rt_manager example_runtime)).
Proof.
  destruct (fabric_stays_in_step example_runtime example_runtime_reachable) as [Hc Ht]. split.
  - rewrite Hc. vm_compute. reflexivity.
  - apply (Ht 2%nat). vm_compute. lia.
Defined.

Lemma rescale_touches_no_live_output_witness :
  desired (rt_manager (rescale example_args example_runtime).2) !! "c"%string =
    Some {| d_spec := example_spec "c" 1; d_shard := 2%nat |}.
Proof.
  pose proof (rescale_touches_no_live_output example_args example_runtime "c"%string
    {| d_spec := example_spec "c" 1; d_shard := 2%nat |} example_runtime_reachable
    ltac:(vm_compute; reflexivity)) as Hr.
  cbv zeta in Hr. rewrite decide_False in Hr; [exact (proj1 Hr)|].
  apply (bool_decide_unpack _). vm_compute. exact I.
Defined.

Lemma rescale_recovers_witness :
  let '(r, rt') := rescale example_args example_runtime in
  panicked_shards (rt_group rt') = [] /\ panicked_shards (rt_group example_runtime) = [0%nat].
Proof.
  pose proof (rescale_recovers example_args example_runtime example_runtime_reachable) as Hr.
  destruct (rescale example_args example_runtime) as [r rt']. destruct Hr as [_ Hr].
  destruct (Hr ltac:(reflexivity)) as (_ & Hnone & _). split; [exact Hnone|vm_compute; reflexivity].
Defined.
