(* ===== verification/SinkFabric.v ===== *)
(** * The sink fabric of a media engine ([engine_sink_egress_fabric.rs])

    Where the parts of the fabric meet: the engine keeps a runtime per feed, counted by the
    outputs that hold it, sizes and admits before it dispatches an [Add], and each shard of
    the runtime runs a [SinkShardBackend] in the loop of [EgressShard.v].  The end-to-end
    theorem composes the layers: what a shard's backend serves is what the manager holds. *)

From S2P Require Import Prelude Bits Annexb Media FrameUnits Ring Reader LeafArena ReadyQueue TimerWheel Feed.
From S2P Require Import WakeGate Leaf SinkShard EgressShard ShardGroup EgressManager EgressRuntime.

(** ** The backend in the loop *)

(** [impl EgressShardBackend for SinkShardBackend]; the number counts loads of the feed. *)
#[export] Instance sink_backend (ring_at : nat -> RingBuffer) (epoch_at clock : nat -> Z)
    : EgressShardBackend (nat * SinkShardBackend) := {
  on_command c st := (EContinue, (st.1, sink_on_command c st.2));
  timer_generation _ _ := None;
  on_timer _ _ st := (EContinue, st);
  on_ready st := (EContinue, st);
  on_media_tick st :=
    let '(t, _, b) := drain_ready_leaves ring_at epoch_at clock st.1 st.2 in (EContinue, (t, b));
  wait_idle st := st;
  on_shutdown st := (st.1, sink_on_shutdown st.2) }.

(** ** Dispatch through the engine *)

(** The engine's configuration and the host's maximum, as far as the fabric reads them. *)
Record SinkFabricConfig := {
  sc_command_capacity : nat;
  sc_leaf_capacity : nat;
  sc_shards : nat;
  sc_maximum : nat }.

(** The answers of the sizer and of the backend factory during one call.  A sink backend's
    factory cannot fail ([Infallible]), its thread may still panic. *)
Record sink_env := {
  env_recommend : nat;
  env_observed : option nat;
  env_admit : Z -> option nat;
  env_factory : nat -> ShardId -> factory_outcome Empty_set }.

Definition sink_rescale_args (cfg : SinkFabricConfig) (env : sink_env) (reason : ResizeReason)
    : rescale_args Empty_set := {|
  ra_reason := reason; sz_recommend := env_recommend env; sz_observed := env_observed env;
  ra_override := None; ra_maximum := sc_maximum cfg; ra_leaf_capacity := sc_leaf_capacity cfg;
  ra_command_capacity := sc_command_capacity cfg; factory_for := env_factory env |}.

Definition rescale_sink_fabric (cfg : SinkFabricConfig) (env : sink_env) (reason : ResizeReason)
    (rt : EgressFabricRuntime) : EgressFabricRuntime :=
  (rescale (sink_rescale_args cfg env reason) rt).2.

Inductive SinkFabricDispatchError :=
  | MissingFeed (feed_id : string)
  | SinkSaturated (s : Saturated)
  | SinkDispatch (e : EgressManagerDispatchError EgressShardGroupError).

Definition sink_result : Type := ManagerCommandOutcome + SinkFabricDispatchError.

(** [runtime.dispatch(command)] and the resize that follows when the feed was not used. *)
Definition dispatch_then (cfg : SinkFabricConfig) (env : sink_env) (resize_after : bool) (c : EgressCommand)
    (rt : EgressFabricRuntime) : sink_result * EgressFabricRuntime :=
  match rt_dispatch c rt with
  | (inr e, rt) => (inr (SinkDispatch e), rt)
  | (inl outcome, rt) =>
      (inl outcome, if resize_after then rescale_sink_fabric cfg env ReasonRemove rt else rt)
  end.

(** [dispatch_sink_fabric_command] on the feed's runtime; [has_feed] when the registry has a
    reader of the feed. *)
Definition dispatch_sink_command (cfg : SinkFabricConfig) (env : sink_env) (has_feed : bool)
    (c : EgressCommand) (rt : EgressFabricRuntime) : sink_result * EgressFabricRuntime :=
  match c with
  | Add spec =>
      if has_feed then
        let reason := reason_for c rt in
        let rt := rescale_sink_fabric cfg env reason rt in
        match reason with
        | ReasonAdd =>
            match admit_add false (sc_leaf_capacity cfg) (env_admit env) (os_id spec) rt with
            | Some saturated => (inr (SinkSaturated saturated), rt)
            | None => dispatch_then cfg env false c rt
            end
        | _ => dispatch_then cfg env false c rt
        end
      else dispatch_then cfg env false c rt
  | _ => dispatch_then cfg env has_feed c rt
  end.

(** ** The registry *)

Record SinkFabricRegistry := mk_registry {
  runtimes : gmap string EgressFabricRuntime;
  active_outputs : gmap string Z;
  feed_wakes : gset string;
  feeds : gset string }.

Definition registry_new : SinkFabricRegistry := mk_registry ∅ ∅ ∅ ∅.

(** One shard, placed by load; [None] when the runtime cannot be made. *)
Definition new_sink_runtime (cfg : SinkFabricConfig) : option EgressFabricRuntime :=
  match EgressFabricRuntime_new 1 LeastLoaded (spawn_group 1 (sc_command_capacity cfg)) (sc_shards cfg) with
  | inl rt => Some rt
  | inr _ => None
  end.

Definition retain_sink_fabric_runtime (cfg : SinkFabricConfig) (feed_id : string) (r : SinkFabricRegistry)
    : option bool * SinkFabricRegistry :=
  let count r created :=
    (Some created,
     mk_registry (runtimes r)
       (<[feed_id := sat_u 64 (default 0 (active_outputs r !! feed_id) + 1)]> (active_outputs r))
       (feed_wakes r) (feeds r)) in
  match runtimes r !! feed_id with
  | Some _ => count r false
  | None =>
      match new_sink_runtime cfg with
      | None => (None, r)
      | Some rt =>
          count (mk_registry (<[feed_id := rt]> (runtimes r)) (active_outputs r)
                   ({[feed_id]} ∪ feed_wakes r) ({[feed_id]} ∪ feeds r)) true
      end
  end.

Definition dispatch_sink_fabric_command (cfg : SinkFabricConfig) (env : sink_env) (feed_id : string)
    (c : EgressCommand) (r : SinkFabricRegistry) : sink_result * SinkFabricRegistry :=
  match runtimes r !! feed_id with
  | None => (inr (MissingFeed feed_id), r)
  | Some rt =>
      let '(res, rt) := dispatch_sink_command cfg env (bool_decide (feed_id ∈ feeds r)) c rt in
      (res, mk_registry (<[feed_id := rt]> (runtimes r)) (active_outputs r) (feed_wakes r) (feeds r))
  end.

(** [resize_sink_fabrics] on one feed; [observation_due] is the clock's answer. *)
Definition resize_sink_fabric (cfg : SinkFabricConfig) (env : sink_env) (observation_due : bool)
    (feed_id : string) (r : SinkFabricRegistry) : SinkFabricRegistry :=
  match runtimes r !! feed_id with
  | None => r
  | Some rt =>
      if (observation_due || has_panicked_shard rt) && bool_decide (feed_id ∈ feeds r)
      then mk_registry (<[feed_id := rescale_sink_fabric cfg env ReasonObserve rt]> (runtimes r))
             (active_outputs r) (feed_wakes r) (feeds r)
      else r
  end.

Definition release_sink_fabric_runtime (feed_id : string) (r : SinkFabricRegistry) : bool * SinkFabricRegistry :=
  match active_outputs r !! feed_id with
  | None => (false, r)
  | Some n =>
      let n := sat_u 64 (n - 1) in
      if 0 <? n
      then (false, mk_registry (runtimes r) (<[feed_id := n]> (active_outputs r)) (feed_wakes r) (feeds r))
      else (match runtimes r !! feed_id with Some _ => true | None => false end,
            mk_registry (delete feed_id (runtimes r)) (delete feed_id (active_outputs r))
              (feed_wakes r ∖ {[feed_id]}) (feeds r ∖ {[feed_id]}))
  end.

Definition shutdown_all_sink_fabric_runtimes (r : SinkFabricRegistry) : nat * SinkFabricRegistry :=
  (size (runtimes r), mk_registry ∅ ∅ ∅ (feeds r)).

(** ** Who holds a runtime *)

Inductive registry_op :=
  | RRetain (feed_id : string)
  | RDispatch (env : sink_env) (feed_id : string) (c : EgressCommand)
  | RResize (env : sink_env) (due : bool) (feed_id : string)
  | RRelease (feed_id : string)
  | RShutdownAll.

Definition registry_step (cfg : SinkFabricConfig) (r : SinkFabricRegistry) (op : registry_op) : SinkFabricRegistry :=
  match op with
  | RRetain f => (retain_sink_fabric_runtime cfg f r).2
  | RDispatch env f c => (dispatch_sink_fabric_command cfg env f c r).2
  | RResize env due f => resize_sink_fabric cfg env due f r
  | RRelease f => (release_sink_fabric_runtime f r).2
  | RShutdownAll => (shutdown_all_sink_fabric_runtimes r).2
  end.

(** The contract: a count of holders per feed. *)
Definition holders_step (held : gmap string Z) (op : registry_op) : gmap string Z :=
  match op with
  | RRetain f => <[f := default 0 (held !! f) + 1]> held
  | RRelease f =>
      match held !! f with
      | Some n => if 1 <? n then <[f := n - 1]> held else delete f held
      | None => held
      end
  | RShutdownAll => ∅
  | _ => held
  end.

Record registry_ok (n : Z) (held : gmap string Z) (r : SinkFabricRegistry) : Prop := {
  ro_counts : active_outputs r = held;
  ro_range : forall f k, held !! f = Some k -> 1 <= k <= n;
  ro_runtimes : forall f, is_Some (runtimes r !! f) <-> is_Some (held !! f);
  ro_wakes : forall f, f ∈ feed_wakes r <-> is_Some (held !! f);
  ro_feeds : forall f, is_Some (held !! f) -> f ∈ feeds r }.

Lemma is_Some_insert {A} (m : gmap string A) k v j : is_Some (<[k := v]> m !! j) <-> k = j \/ is_Some (m !! j).
Proof. rewrite lookup_insert_is_Some. destruct (decide (k = j)); naive_solver. Qed.

Lemma is_Some_delete {A} (m : gmap string A) k j : is_Some (delete k m !! j) <-> k <> j /\ is_Some (m !! j).
Proof. rewrite lookup_delete_is_Some. tauto. Qed.

Lemma new_sink_runtime_ok cfg : new_sink_runtime cfg = Some (mk_runtime (EgressManager_new 1 LeastLoaded)
  (spawn_group 1 (sc_command_capacity cfg)) (Nat.max (sc_shards cfg) 1)).
Proof. done. Qed.

Lemma retain_ok cfg f n held r :
  0 <= n -> n + 1 < 2 ^ 64 -> registry_ok n held r ->
  registry_ok (n + 1) (holders_step held (RRetain f)) (retain_sink_fabric_runtime cfg f r).2.
Proof.
  intros Hn0 Hn [Hc Hr Hrt Hw Hf].
  assert (Hk : 0 <= default 0 (held !! f) <= n).
  { destruct (held !! f) as [k|] eqn:E; cbn; [specialize (Hr f k E)|]; lia. }
  assert (Hcount : sat_u 64 (default 0 (held !! f) + 1) = default 0 (held !! f) + 1) by (unfold sat_u; lia).
  assert (Hr' : forall g k, <[f := default 0 (held !! f) + 1]> held !! g = Some k -> 1 <= k <= n + 1).
  { intros g k. rewrite lookup_insert_Some. intros [[<- <-]|[_ Hg]]; [lia|]. specialize (Hr g k Hg). lia. }
  unfold retain_sink_fabric_runtime. destruct (runtimes r !! f) as [rt|] eqn:Hl; rewrite ?new_sink_runtime_ok; cbn [snd holders_step].
  - assert (Hs : is_Some (held !! f)) by (apply Hrt; eauto).
    constructor; cbn; auto; try (intros g; rewrite is_Some_insert); rewrite ?Hc, ?Hcount; auto.
    + rewrite Hrt. naive_solver.
    + rewrite Hw. naive_solver.
    + intros [<-|Hg]; auto.
  - constructor; cbn; auto; try (intros g; rewrite ?is_Some_insert); rewrite ?Hc, ?Hcount; auto.
    + rewrite Hrt. done.
    + rewrite elem_of_union, elem_of_singleton, Hw. naive_solver.
    + rewrite elem_of_union, elem_of_singleton. intros [<-|Hg]; auto.
Qed.

Lemma release_ok f n held r :
  n < 2 ^ 64 -> registry_ok n held r ->
  registry_ok n (holders_step held (RRelease f)) (release_sink_fabric_runtime f r).2 /\
  (release_sink_fabric_runtime f r).1 = bool_decide (held !! f = Some 1).
Proof.
  intros Hn [Hc Hr Hrt Hw Hf]. unfold release_sink_fabric_runtime. rewrite Hc. cbn [holders_step].
  destruct (held !! f) as [k|] eqn:Hl; cbn [fst snd]; [|by split].
  pose proof (Hr f k Hl) as Hk. assert (Hk' : sat_u 64 (k - 1) = k - 1) by (unfold sat_u; lia). rewrite Hk'.
  destruct (0 <? k - 1) eqn:H0; [apply Z.ltb_lt in H0|apply Z.ltb_ge in H0].
  - rewrite (proj2 (Z.ltb_lt 1 k)) by lia. cbn [fst snd].
    split; [|symmetry; apply bool_decide_eq_false; intros [= ->]; lia].
    constructor; cbn; auto; try (intros g; rewrite ?is_Some_insert).
    + intros k2. rewrite lookup_insert_Some. intros [[<- <-]|[_ Hg]]; [lia|by apply (Hr g)].
    + rewrite Hrt. split; [by right|]. intros [<-|Hg]; [by rewrite Hl|done].
    + rewrite Hw. split; [by right|]. intros [<-|Hg]; [by rewrite Hl|done].
    + intros [<-|Hg]; apply Hf; [by rewrite Hl|done].
  - rewrite (proj2 (Z.ltb_ge 1 k)) by lia. cbn [fst snd].
    assert (Hone : k = 1) by lia. subst k. split.
    + constructor; cbn; auto; try (intros g; rewrite ?is_Some_delete).
      * intros k2 [_ Hg]%lookup_delete_Some. by apply (Hr g).
      * by rewrite Hrt.
      * rewrite elem_of_difference, elem_of_singleton, Hw. naive_solver.
      * rewrite elem_of_difference, elem_of_singleton. intros [Hne Hg]. split; [by apply Hf|naive_solver].
    + rewrite bool_decide_true by done. destruct (proj2 (Hrt f)) as [rt Hrtf]; [by rewrite Hl|]. by rewrite Hrtf.
Qed.

Lemma runtimes_changed n held r f rt rt' :
  runtimes r !! f = Some rt -> registry_ok n held r ->
  registry_ok n held (mk_registry (<[f := rt']> (runtimes r)) (active_outputs r) (feed_wakes r) (feeds r)).
Proof.
  intros Hl [Hc Hr Hrt Hw Hf]. constructor; cbn; auto. intros g. rewrite is_Some_insert, <- Hrt.
  split; [|by right]. intros [<-|Hg]; [by rewrite Hl|done].
Qed.

Lemma empty_registry_ok n fs : registry_ok n ∅ (mk_registry ∅ ∅ ∅ fs).
Proof.
  constructor; cbn; [done| | | |]; intros f; rewrite ?lookup_empty; done.
Qed.

Lemma registry_step_ok cfg op n held r :
  0 <= n -> n + 1 < 2 ^ 64 -> registry_ok n held r ->
  registry_ok (n + 1) (holders_step held op) (registry_step cfg r op).
Proof.
  intros Hn0 Hn HR.
  assert (Hle : forall held r, registry_ok n held r -> registry_ok (n + 1) held r).
  { intros h r' [Hc Hr Hrt Hw Hf]. constructor; auto. intros f k Hk. specialize (Hr f k Hk). lia. }
  destruct op as [f|env f c|env due f|f|]; cbn [registry_step].
  - by apply retain_ok.
  - apply Hle. unfold dispatch_sink_fabric_command. destruct (runtimes r !! f) as [rt|] eqn:Hl; [|done].
    destruct (dispatch_sink_command _ _ _ _ _) as [res rt']. by eapply runtimes_changed.
  - apply Hle. unfold resize_sink_fabric. destruct (runtimes r !! f) as [rt|] eqn:Hl; [|done].
    destruct (_ && _); [by eapply runtimes_changed|done].
  - apply Hle, release_ok; [lia|done].
  - apply Hle, empty_registry_ok.
Qed.

Lemma registry_run_ok cfg ops : forall n held r,
  0 <= n -> n + Z.of_nat (length ops) < 2 ^ 64 -> registry_ok n held r ->
  registry_ok (n + Z.of_nat (length ops)) (fold_left holders_step ops held) (fold_left (registry_step cfg) ops r).
Proof.
  induction ops as [|op ops IH]; intros n held r Hn0 Hn HR; cbn [fold_left length] in *.
  { by rewrite Z.add_0_r. }
  replace (n + Z.of_nat (S (length ops))) with (n + 1 + Z.of_nat (length ops)) by lia.
  apply IH; [lia|lia|]. apply registry_step_ok; [lia|lia|done].
Qed.


(** ** Room for every output *)

(** At no point do the commands ask a shard for more than [cap] outputs at once. *)
Definition within_capacity (cap : nat) (cs : list EgressCommand) : Prop :=
  forall n, (size (replay (take n cs)) <= cap)%nat.

Definition sink_command (c : EgressCommand) : Prop :=
  match c with Add spec | Update spec => os_protocol spec = PSink | _ => True end.

Lemma within_capacity_nil cap : within_capacity cap [].
Proof. intros n. rewrite take_nil. cbn. rewrite map_size_empty. lia. Qed.

Lemma within_capacity_last cap cs : within_capacity cap cs -> (size (replay cs) <= cap)%nat.
Proof. intros Hw. specialize (Hw (length cs)). by rewrite firstn_all in Hw. Qed.

Lemma within_capacity_snoc cap cs c :
  within_capacity cap cs -> (size (replay (cs ++ [c])) <= cap)%nat -> within_capacity cap (cs ++ [c]).
Proof.
  intros Hw Hc n. destruct (decide (n <= length cs)%nat) as [Hle|Hgt].
  - rewrite take_app_le by done. apply Hw.
  - rewrite take_ge; [done|]. rewrite length_app. cbn. lia.
Qed.

Definition logs_ok (cap : nat) (g : EgressShardGroup) : Prop :=
  forall i, within_capacity cap (accepted g i) /\ Forall sink_command (accepted g i).

(** [rescale] only ever drops a whole channel. *)
Definition pruned (g g' : EgressShardGroup) : Prop :=
  forall i, accepted g' i = accepted g i \/ accepted g' i = [].

#[export] Instance pruned_preorder : PreOrder pruned.
Proof.
  split.
  - intros g i. by left.
  - intros g g1 g2 H1 H2 i. destruct (H2 i) as [-> | ->]; [apply H1|by right].
Qed.

Lemma pruned_logs cap g g' : pruned g g' -> logs_ok cap g -> logs_ok cap g'.
Proof.
  intros Hp Hl i. destruct (Hp i) as [-> | ->]; [apply Hl|]. split; [apply within_capacity_nil|constructor].
Qed.

Section prune.
Context {E : Type}.
Implicit Types (a : rescale_args E) (st : rescale_state E).

Lemma replace_all_pruned a dead : forall st, pruned (rs_group st) (rs_group (replace_all a dead st)).
Proof.
  induction dead as [|i dead IH]; intros st; [done|].
  transitivity (rs_group (replace_one a st i)); [|apply IH].
  unfold replace_one, replace_with. destruct (handles (rs_group st) !! i) as [h|] eqn:Hl; [|done].
  destruct (try_spawn_with _ _ _) as [h'|e] eqn:Hs; [|done].
  destruct (try_spawn_with_ok _ _ _ _ Hs) as (_ & Ha & _). intros j. cbn [rs_group].
  rewrite (accepted_insert _ _ h) by done. rewrite Ha. case_decide; auto.
Qed.

Lemma grow_loop_pruned a target : forall fuel st, pruned (rs_group st) (rs_group (grow_loop a fuel target st)).
Proof.
  induction fuel as [|fuel IH]; intros st; cbn [grow_loop]; [done|].
  destruct (_ && _); [|done]. unfold grow_with.
  destruct (try_spawn_with _ _ _) as [h|e] eqn:Hs; [|done].
  destruct (try_spawn_with_ok _ _ _ _ Hs) as (_ & Ha & _).
  etransitivity; [|apply IH]. intros j. cbn [rs_group]. unfold accepted. cbn [handles].
  destruct (decide (j < length (handles (rs_group st)))%nat) as [Hlt|Hge].
  - rewrite lookup_app_l by done. by left.
  - right. destruct ((handles (rs_group st) ++ [h]) !! j) as [k|] eqn:Hj; [|done].
    apply lookup_app_Some in Hj as [Hj|[_ Hj]]; [apply lookup_lt_Some in Hj; lia|].
    apply list_lookup_singleton_Some in Hj as [_ <-]. done.
Qed.

Lemma place_pruned target before st : pruned (rs_group st) (rs_group (place target before st)).
Proof. unfold place. by destruct (_ || _); [destruct (negb _)|]. Qed.

Lemma retire_loop_pruned : forall fuel st, pruned (rs_group st) (rs_group (retire_loop fuel st)).
Proof.
  induction fuel as [|fuel IH]; intros st; cbn [retire_loop]; [done|].
  destruct (retire_empty_tail (rs_manager st)) as [[] m]; [|done]. unfold shrink.
  destruct (last (handles (rs_group st))) as [h|]; [|done].
  etransitivity; [|apply IH]. intros j. cbn [rs_group]. unfold accepted. cbn [handles].
  destruct (decide (j < length (handles (rs_group st)) - 1)%nat).
  - rewrite lookup_take_lt by done. by left.
  - rewrite lookup_take_ge by lia. by right.
Qed.

Lemma rescale_pruned a rt : pruned (rt_group rt) (rt_group (rescale a rt).2).
Proof.
  unfold rescale. cbn [snd rt_group]. etransitivity; [|apply retire_loop_pruned].
  etransitivity; [|apply place_pruned]. etransitivity; [|apply grow_loop_pruned].
  apply (replace_all_pruned a _ (mk_rescale 0 (forget_all _ _) (rt_group rt) [] None)).
Qed.
End prune.

(** A command adds to a log at most once, save that it may be a [Shutdown]. *)
Lemma send_all_logs cap shards (g : EgressShardGroup) r g' :
  send_all shards g = (r, g') -> logs_ok cap g -> logs_ok cap g'.
Proof.
  revert g. induction shards as [|i shards IH]; intros g; cbn [send_all]; [intros Heq; by inversion Heq|].
  intros Heq Hl. assert (Hone : logs_ok cap (try_send_to g i Shutdown).2).
  { destruct (try_send_to g i Shutdown) as [[e|] g1] eqn:Hs; cbn [snd].
    - by rewrite (try_send_to_err _ _ _ _ _ Hs).
    - intros j. pose proof (send_ok (SinkLaws := group_laws) _ _ _ _ Hs j) as Hj. cbn in Hj. rewrite Hj.
      destruct (Hl j) as [H1 H2]. case_decide; [|done]. split.
      + apply within_capacity_snoc; [done|]. rewrite replay_snoc. by apply within_capacity_last.
      + apply Forall_app_2; [done|by repeat constructor]. }
  cbn [send group_sink] in Heq. destruct (try_send_to g i Shutdown) as [[e|] g1]; [by inversion Heq; subst|].
  by eapply IH.
Qed.

Lemma load_is_told m g i :
  fabric_ok m g -> (i < shard_count m)%nat -> shard_is_dead m i = false ->
  size (replay (accepted g i)) = load m i.
Proof.
  intros [[_ _ _ Ht _] _] Hi Hd. specialize (Ht i Hi). unfold told in Ht. rewrite Hd in Ht.
  rewrite Ht. unfold specs_on, load. apply map_size_fmap.
Qed.

Lemma open_is_live m g i h :
  fabric_ok m g -> handles g !! i = Some h -> h_open h = true -> shard_is_dead m i = false.
Proof.
  intros [[_ Hg _ Ht _] Hc] Hl Ho. apply not_true_iff_false. intros Hd.
  assert (Hi : (i < shard_count m)%nat) by (rewrite <- Hc; by eapply lookup_lt_Some).
  specialize (Ht i Hi). unfold told in Ht. rewrite Hd in Ht. destruct Ht as [_ Hp].
  rewrite (to_closed g Hg i h Hl (Hp h Hl)) in Ho. done.
Qed.

Lemma dispatch_logs cap c m (g : EgressShardGroup) :
  Z.of_nat (size (desired m)) + 1 < 2 ^ 32 -> fabric_ok m g -> logs_ok cap g -> sink_command c ->
  (forall spec, c = Add spec \/ c = Update spec -> desired m !! os_id spec = None ->
     (load m (assign_output m (os_id spec)) < cap)%nat) ->
  logs_ok cap (dispatch_command c m g).2.
Proof.
  intros Hsz HF Hl Hc Hroom. pose proof HF as [[Hm _ _ _ _] _].
  pose proof (dispatch_command_effect c m g Hm) as He. pose proof (dispatch_fabric_ok c m g Hsz HF) as HF'.
  pose proof (dispatch_dead c m g) as Hdead. pose proof (dispatch_threads c m g) as Hth.
  destruct (dispatch_command c m g) as [[r m'] g'] eqn:Hd. cbn [snd] in *.
  destruct (Hdead r m' g' HF eq_refl) as (Hsame & Hsc & _). clear Hdead.
  (* one more command on the log of an open shard *)
  assert (Hpush : forall i, send g i c = (None, g') -> (load m' i <= cap)%nat -> (i < shard_count m)%nat -> logs_ok cap g').
  { intros i Hs Hload Hi j. pose proof (send_ok (SinkLaws := group_laws) _ _ _ _ Hs j) as Hj. cbn in Hj. rewrite Hj.
    destruct (Hl j) as [H1 H2]. case_decide as Hji; [subst j|done]. split; [|apply Forall_app_2; [done|by constructor]].
    apply within_capacity_snoc; [done|]. rewrite <- Hj.
    apply try_send_to_ok in Hs as (h & Hh & Ho & _). rewrite (load_is_told m' g' i HF'); [done|lia|].
    rewrite Hsame. by eapply open_is_live. }
  destruct He as [|e g' Hsent|spec i g' Hcs Hi Hgen Hlt Hdr Hs|id d g' Hcs Hlk Hlt Hs|i g' Hcs Hlt Hs|g' Hcs Hs].
  - done.
  - destruct (Hsent _) as [-> |Heq]; [|intros j; specialize (Heq j); cbn in Heq; rewrite Heq; apply Hl].
    cbn [dispatch_command] in Hd. unfold dispatch_shutdown in Hd. destruct (shutting_down m); [done|].
    destruct (check_all _ _ _); [by inversion Hd; subst|].
    destruct (send_all _ g) as [[[i e']|] g1] eqn:Ha; inversion Hd; subst. by eapply send_all_logs.
  - apply (Hpush i Hs); [|done]. unfold load. cbn [desired set_desired].
    rewrite size_placed_insert
      by (destruct (desired m !! os_id spec) as [d|] eqn:E; [right; exists d; by rewrite Hi|by left]).
    destruct (desired m !! os_id spec) as [d|] eqn:E.
    + rewrite decide_False by (by intros [? _]). cbn. change (size (placed_on i (desired m))) with (load m i).
      apply try_send_to_ok in Hs as (h & Hh & Ho & _).
      rewrite <- (load_is_told m g i HF Hlt) by (by eapply open_is_live). apply within_capacity_last, Hl.
    + rewrite decide_True by done. change (size (placed_on i (desired m))) with (load m i). subst i.
      by apply (Hroom spec).
  - apply (Hpush (d_shard d) Hs); [|done]. unfold load. cbn [desired set_desired].
    pose proof (size_placed_delete (d_shard d) _ id d Hlk) as Hsize. rewrite decide_True in Hsize by done.
    change (size (placed_on (d_shard d) (desired m))) with (load m (d_shard d)) in Hsize.
    apply try_send_to_ok in Hs as (h & Hh & Ho & _).
    rewrite <- (load_is_told m g _ HF Hlt) in Hsize by (by eapply open_is_live).
    pose proof (within_capacity_last cap _ (proj1 (Hl (d_shard d)))). lia.
  - apply (Hpush i Hs); [|done]. change (load m i <= cap)%nat. apply try_send_to_ok in Hs as (h & Hh & Ho & _).
    rewrite <- (load_is_told m g i HF Hlt) by (by eapply open_is_live). apply within_capacity_last, Hl.
  - by eapply send_all_logs.
Qed.

(** ** A feed's runtime in service *)

(** A feed's runtime and its calls: commands for which [request] holds, the reconciler's look,
    and what its threads do. *)
Inductive in_service (request : EgressFabricRuntime -> EgressCommand -> Prop) (cfg : SinkFabricConfig)
    : nat -> EgressFabricRuntime -> Prop :=
  | SV_new rt : new_sink_runtime cfg = Some rt -> in_service request cfg 0 rt
  | SV_dispatch n rt env c :
      in_service request cfg n rt -> request rt c -> in_service request cfg (S n) (dispatch_sink_command cfg env true c rt).2
  | SV_resize n rt env :
      in_service request cfg n rt -> in_service request cfg (S n) (rescale_sink_fabric cfg env ReasonObserve rt)
  | SV_thread n rt (ev : fabric_event Empty_set) :
      match ev with EvWake _ | EvReceive _ | EvEnd _ _ => True | _ => False end ->
      in_service request cfg n rt -> in_service request cfg (S n) (fabric_step rt ev).

(** Any commands for sink outputs. *)
Definition sink_service : SinkFabricConfig -> nat -> EgressFabricRuntime -> Prop :=
  in_service (fun _ c => sink_command c).

(** The requests that do not get past admission.  The engine admits an [Add] of an output that
    was not held before the resize, and nothing else; so [Update] names an output that is
    held, and an output that is added again is not on a shard the resize finds dead
    ([readd_after_panic_skips_admission] shows what happens otherwise). *)
Definition sink_request (rt : EgressFabricRuntime) (c : EgressCommand) : Prop :=
  sink_command c /\
  (forall spec, c = Update spec -> is_Some (desired (rt_manager rt) !! os_id spec)) /\
  (forall spec d, c = Add spec -> desired (rt_manager rt) !! os_id spec = Some d ->
     d_shard d ∉ panicked_shards (rt_group rt)).
Definition serves : SinkFabricConfig -> nat -> EgressFabricRuntime -> Prop := in_service sink_request.

Lemma serves_service cfg n rt : serves cfg n rt -> sink_service cfg n rt.
Proof.
  unfold serves, sink_service. induction 1 as [|n rt env c _ IH [Hc _]| |]; [by apply SV_new|by apply SV_dispatch|by apply SV_resize|by apply SV_thread].
Qed.

Record sink_ok (cap : nat) (n : Z) (rt : EgressFabricRuntime) : Prop := {
  sk_fabric : fabric_ok (rt_manager rt) (rt_group rt);
  sk_logs : logs_ok cap (rt_group rt);
  sk_size : Z.of_nat (size (desired (rt_manager rt))) <= n }.

Lemma rescale_sink_ok cfg cap n env reason rt :
  sink_ok cap n rt -> sink_ok cap n (rescale_sink_fabric cfg env reason rt) /\
  desired (rt_manager (rescale_sink_fabric cfg env reason rt)) =
    survivors (panicked_shards (rt_group rt)) (desired (rt_manager rt)).
Proof.
  intros [HF Hl Hs]. unfold rescale_sink_fabric.
  pose proof (rescale_ok (sink_rescale_args cfg env reason) rt HF) as Hr.
  pose proof (rescale_pruned (sink_rescale_args cfg env reason) rt) as Hp.
  destruct (rescale _ rt) as [r rt']. cbn [snd] in *. destruct Hr as (HF' & Hd & _). split; [|done].
  constructor; [done|by eapply pruned_logs|]. rewrite Hd.
  assert (Hle : (size (survivors (panicked_shards (rt_group rt)) (desired (rt_manager rt)))
    <= size (desired (rt_manager rt)))%nat) by apply map_size_filter. lia.
Qed.

Lemma dispatch_sink_ok cap n c rt :
  n + 1 < 2 ^ 32 -> sink_ok cap n rt -> sink_command c ->
  (forall spec, c = Add spec \/ c = Update spec -> desired (rt_manager rt) !! os_id spec = None ->
     (load (rt_manager rt) (assign_output (rt_manager rt) (os_id spec)) < cap)%nat) ->
  sink_ok cap (n + 1) (rt_dispatch c rt).2.
Proof.
  intros Hn [HF Hl Hs] Hc Hroom.
  pose proof (dispatch_logs cap c (rt_manager rt) (rt_group rt) ltac:(lia) HF Hl Hc Hroom) as Hl'.
  pose proof (fabric_step_ok (E := Empty_set) rt (EvDispatch c) ltac:(lia) HF) as [HF' Hs']. cbn [fabric_step] in *.
  unfold rt_dispatch in *. destruct (dispatch_command c _ _) as [[r m'] g']. cbn [snd rt_manager rt_group] in *.
  constructor; [done|done|cbn [rt_manager]; lia].
Qed.

(** What admission promises. *)
Lemma admitted_has_room cap sizer id rt :
  manager_ok (rt_manager rt) -> admit_add false cap sizer id rt = None ->
  (load (rt_manager rt) (assign_output (rt_manager rt) id) < cap)%nat.
Proof.
  intros Hm. unfold admit_add. destruct (_ <? _) eqn:Hlt; [done|]. intros _. apply Z.ltb_ge in Hlt.
  unfold desired_count_for_shard in Hlt. rewrite (mo_load _ Hm) in Hlt by (by apply assign_output_bound).
  cbn in Hlt. lia.
Qed.

Lemma sink_ok_le cap n n' rt : sink_ok cap n rt -> n <= n' -> sink_ok cap n' rt.
Proof. intros [HF Hl Hs] Hle. constructor; [done|done|lia]. Qed.

Lemma dispatch_sink_command_ok cfg n env c rt :
  n + 1 < 2 ^ 32 -> sink_ok (sc_leaf_capacity cfg) n rt -> sink_request rt c ->
  sink_ok (sc_leaf_capacity cfg) (n + 1) (dispatch_sink_command cfg env true c rt).2.
Proof.
  intros Hn HS (Hc & Hup & Hadd).
  assert (Hthen : forall after rt0, sink_ok (sc_leaf_capacity cfg) n rt0 ->
    (forall spec, c = Add spec \/ c = Update spec -> desired (rt_manager rt0) !! os_id spec = None ->
       (load (rt_manager rt0) (assign_output (rt_manager rt0) (os_id spec)) < sc_leaf_capacity cfg)%nat) ->
    sink_ok (sc_leaf_capacity cfg) (n + 1) (dispatch_then cfg env after c rt0).2).
  { intros after rt0 HS0 Hroom. pose proof (dispatch_sink_ok _ n c rt0 Hn HS0 Hc Hroom) as HS1.
    unfold dispatch_then. destruct (rt_dispatch c rt0) as [[o|e] rt1]; [|done]. cbn [snd] in *.
    destruct after; [by apply rescale_sink_ok|done]. }
  destruct c as [spec|spec|id|id| |i|]; cbn [dispatch_sink_command].
  2-7: apply Hthen; [done|]; intros spec' [Heq|Heq] Hnone; inversion Heq; subst;
    destruct (Hup spec' eq_refl); congruence.
  unfold reason_for. destruct (desired (rt_manager rt) !! os_id spec) as [d|] eqn:Hl.
  - destruct (rescale_sink_ok cfg (sc_leaf_capacity cfg) n env ReasonRemove rt HS) as [HS1 Hkeep].
    apply Hthen; [done|]. intros spec' [[= <-]|[=]] Hnone. exfalso. rewrite Hkeep in Hnone.
    assert (Hs : survivors (panicked_shards (rt_group rt)) (desired (rt_manager rt)) !! os_id spec = Some d); [|congruence].
    apply map_lookup_filter_Some. split; [done|]. by apply (Hadd spec).
  - destruct (rescale_sink_ok cfg (sc_leaf_capacity cfg) n env ReasonAdd rt HS) as [HS1 _].
    destruct (admit_add _ _ _ _ _) as [sat|] eqn:Ha; [eapply sink_ok_le; [done|lia]|].
    apply Hthen; [done|]. intros spec' [[= <-]|[=]] _. eapply admitted_has_room; [|exact Ha].
    apply (fa_manager _ _ (fo_ahead _ _ (sk_fabric _ _ _ HS1))).
Qed.

(** With room for every output there could be, any command will do. *)
Definition any_cap : nat := Z.to_nat (2 ^ 32).

Lemma dispatch_any_command_ok cfg n env c rt :
  n + 1 < 2 ^ 32 -> sink_ok any_cap n rt -> sink_command c ->
  sink_ok any_cap (n + 1) (dispatch_sink_command cfg env true c rt).2.
Proof.
  intros Hn HS Hc.
  assert (Hthen : forall after rt0, sink_ok any_cap n rt0 -> sink_ok any_cap (n + 1) (dispatch_then cfg env after c rt0).2).
  { intros after rt0 HS0. assert (HS1 : sink_ok any_cap (n + 1) (rt_dispatch c rt0).2).
    { apply dispatch_sink_ok; [done|done|done|]. intros spec _ _. pose proof (sk_size _ _ _ HS0) as Hs.
      assert (load (rt_manager rt0) (assign_output (rt_manager rt0) (os_id spec)) <= size (desired (rt_manager rt0)))%nat
        by apply map_size_filter. unfold any_cap. lia. }
    unfold dispatch_then. destruct (rt_dispatch c rt0) as [[o|e] rt1]; [|done]. cbn [snd] in *.
    destruct after; [by apply rescale_sink_ok|done]. }
  destruct c as [spec|spec|id|id| |i|]; cbn [dispatch_sink_command]; try by apply Hthen.
  destruct (rescale_sink_ok cfg any_cap n env (reason_for (Add spec) rt) rt HS) as [HS1 _].
  destruct (reason_for (Add spec) rt); try by apply Hthen.
  destruct (admit_add _ _ _ _ _); [eapply sink_ok_le; [done|lia]|by apply Hthen].
Qed.

Lemma new_sink_runtime_sink_ok cap cfg rt :
  new_sink_runtime cfg = Some rt -> sink_ok cap 0 rt.
Proof.
  rewrite new_sink_runtime_ok. injection 1 as <-. constructor; cbn [rt_manager rt_group].
  - by apply spawn_group_ok.
  - intros i. assert (Ha : accepted (spawn_group 1 (sc_command_capacity cfg)) i = []).
    { unfold accepted. destruct (handles _ !! i) as [h|] eqn:Hl; [|done]. by rewrite (spawn_group_lookup _ _ _ _ Hl). }
    rewrite Ha. split; [apply within_capacity_nil|constructor].
  - cbn. rewrite map_size_empty. lia.
Qed.

Lemma thread_logs_ok cap rt (ev : fabric_event Empty_set) :
  match ev with EvWake _ | EvReceive _ | EvEnd _ _ => True | _ => False end ->
  logs_ok cap (rt_group rt) -> logs_ok cap (rt_group (fabric_step rt ev)).
Proof.
  intros Hev Hl. destruct ev as [c|a|i|i|i p]; try done; cbn [fabric_step rt_group].
  - destruct (try_send_to _ i FeedWakeCommand) as [[e|] g'] eqn:Hs; cbn [snd];
      [by rewrite (try_send_to_err _ _ _ _ _ Hs)|].
    intros j. pose proof (send_ok (SinkLaws := group_laws) _ _ _ _ Hs j) as Hj. cbn in Hj. rewrite Hj.
    destruct (Hl j) as [H1 H2]. case_decide; [|done]. split.
    + apply within_capacity_snoc; [done|]. rewrite replay_snoc. by apply within_capacity_last.
    + apply Forall_app_2; [done|by repeat constructor].
  - unfold shard_receives. destruct (handles _ !! i) as [h|] eqn:Hh; [|done]. destruct (h_open h); [|done].
    intros j. rewrite (accepted_insert _ i h) by done. case_decide; [subst j|apply Hl].
    unfold try_recv. specialize (Hl i). unfold accepted in Hl. rewrite Hh in Hl.
    destruct (h_accepted h !! h_received h); exact Hl.
  - unfold shard_ends. destruct (handles _ !! i) as [h|] eqn:Hh; [|done].
    intros j. rewrite (accepted_insert _ i h) by done. case_decide; [subst j|apply Hl].
    specialize (Hl i). unfold accepted in Hl. by rewrite Hh in Hl.
Qed.

Lemma in_service_ok cap request cfg n rt :
  (forall n env c rt, n + 1 < 2 ^ 32 -> sink_ok cap n rt -> request rt c ->
     sink_ok cap (n + 1) (dispatch_sink_command cfg env true c rt).2) ->
  in_service request cfg n rt -> Z.of_nat n < 2 ^ 32 -> sink_ok cap (Z.of_nat n) rt.
Proof.
  intros Hdispatch. induction 1 as [rt Hnew|n rt env c _ IH Hreq|n rt env _ IH|n rt ev Hev _ IH]; intros Hn.
  - by eapply new_sink_runtime_sink_ok.
  - rewrite Nat2Z.inj_succ. apply Hdispatch; [lia|apply IH; lia|done].
  - eapply sink_ok_le; [apply rescale_sink_ok, IH; lia|lia].
  - destruct (IH ltac:(lia)) as [HF Hl Hs].
    destruct (fabric_step_ok rt ev ltac:(lia) HF) as [HF' Hs']. constructor; [done|by apply thread_logs_ok|lia].
Qed.

Lemma serves_ok cfg n rt : serves cfg n rt -> Z.of_nat n < 2 ^ 32 -> sink_ok (sc_leaf_capacity cfg) (Z.of_nat n) rt.
Proof. apply in_service_ok. intros. by apply dispatch_sink_command_ok. Qed.
Lemma service_ok cfg n rt : sink_service cfg n rt -> Z.of_nat n < 2 ^ 32 -> sink_ok any_cap (Z.of_nat n) rt.
Proof. apply in_service_ok. intros. by apply dispatch_any_command_ok. Qed.

(** ** What a shard's backend makes of its commands *)

Section backend_run.
Context (ring_at : nat -> RingBuffer) (epoch_at feed_clock : nat -> Z).
#[local] Existing Instance sink_backend.

Definition call_event (c : backend_call) : option sink_event :=
  match c with CCommand c => Some (ECommand c) | CTick => Some ETick | _ => None end.

#[local] Opaque drain_ready_leaves.
Lemma sink_backend_step st c :
  @backend_step _ (sink_backend ring_at epoch_at feed_clock) st c =
    match call_event c with Some e => sink_step ring_at epoch_at feed_clock e st | None => st end.
Proof.
  destruct st as [t b], c; cbn; try reflexivity. by destruct (drain_ready_leaves _ _ _ _ _) as [[t' v] b'].
Qed.

Lemma sink_backend_run calls : forall st,
  fold_left (@backend_step _ (sink_backend ring_at epoch_at feed_clock)) calls st =
    sink_run ring_at epoch_at feed_clock (omap call_event calls) st.
Proof.
  induction calls as [|c calls IH]; intros st; [reflexivity|]. cbn [fold_left]. rewrite IH, sink_backend_step.
  cbn [omap list_omap]. by destruct (call_event c).
Qed.

Lemma omap_length_le {A C} (f : A -> option C) l : (length (omap f l) <= length l)%nat.
Proof. induction l as [|x l IH]; cbn; [lia|]. destruct (f x); cbn; unfold omap in *; lia. Qed.

Lemma apply_command_handed cap calls : forall M,
  fold_left (apply_command cap) (commands_of (omap call_event calls)) M =
    fold_left (apply_command cap) (handed calls) M.
Proof.
  induction calls as [|c calls IH]; intros M; [done|]. destruct c as [c| | | |]; try apply IH.
  destruct c; cbn [omap list_omap call_event commands_of handed fold_left apply_command]; apply IH.
Qed.

Lemma apply_command_forward cap id cs : forall draining M,
  fold_left (apply_command cap) (forward id draining cs) M = fold_left (apply_command cap) cs M.
Proof.
  induction cs as [|c cs IH]; intros draining M; [done|].
  destruct c; cbn [forward fold_left]; try apply IH.
  - destruct (_ =? _)%nat; cbn [fold_left]; apply IH.
  - destruct draining; cbn [fold_left]; apply IH.
Qed.

(** A running sink shard's outputs are what its received commands say. *)
Lemma sink_shard_outputs clock id config budget cap inputs s :
  (1 <= command_batch_budget config)%nat ->
  @run _ (sink_backend ring_at epoch_at feed_clock) clock inputs
    (shard_new id config (0%nat, sink_new budget cap)) = (true, s) ->
  Z.of_nat (length (r_calls s)) < 2 ^ 32 ->
  exists received, r_accepted s = received ++ receiver s /\
    outputs_of (backend s).2 = fold_left (apply_command (clamp_u32 cap)) received ∅.
Proof.
  intros Hb Hrun Hcalls.
  pose proof (@run_took _ (sink_backend ring_at epoch_at feed_clock) clock inputs
    (shard_new id config (0%nat, sink_new budget cap)) Hb) as Hr.
  rewrite Hrun in Hr. destruct Hr as (new & cs & s1 & [T1 T2 T3 _ _ _ _ _ _] & F & E1 & E2 & E3 & _ & E5 & _).
  cbn [shard_new r_calls app backend r_shard_id] in T1, T2, T3. rewrite E3, T1 in Hcalls.
  exists cs. rewrite E1, E2, E5, T2, sink_backend_run. split; [exact (F [] eq_refl)|].
  destruct (sink_run_outputs ring_at epoch_at feed_clock (omap call_event new) 0 (sp_init (clamp_u32 cap))
    (0%nat, sink_new budget cap)) as (sp & _ & _ & Ho); [|apply sink_new_ok|].
  { pose proof (omap_length_le call_event new). lia. }
  rewrite Ho. cbn [snd]. by rewrite apply_command_handed, T3, apply_command_forward.
Qed.
End backend_run.

(** With room for every output, the shard's map of outputs is the replay of its commands. *)
Lemma apply_command_replay cap cs :
  within_capacity cap cs -> Forall sink_command cs ->
  fold_left (apply_command cap) cs ∅ = os_generation <$> replay cs.
Proof.
  induction cs as [|c cs IH] using rev_ind; intros Hw Hs.
  { cbn. by rewrite fmap_empty. }
  apply Forall_app in Hs as [Hs Hc]. inversion Hc as [|? ? Hc0 _]; subst.
  assert (Hw' : within_capacity cap cs).
  { intros n. destruct (decide (n <= length cs)%nat) as [Hle|Hgt].
    - specialize (Hw n). by rewrite take_app_le in Hw.
    - specialize (Hw (length cs)). rewrite take_app_le, firstn_all in Hw by lia. by rewrite take_ge by lia. }
  rewrite fold_left_app, (IH Hw' Hs), replay_snoc. cbn [fold_left].
  pose proof (within_capacity_last _ _ Hw) as Hsize. rewrite replay_snoc in Hsize.
  assert (Hput : forall spec, (size (<[os_id spec := spec]> (replay cs)) <= cap)%nat ->
    (if bool_decide ((os_generation <$> replay cs) !! os_id spec = None) && (cap <=? size (os_generation <$> replay cs))%nat
     then os_generation <$> replay cs
     else <[os_id spec := os_generation spec]> (os_generation <$> replay cs)) =
    os_generation <$> <[os_id spec := spec]> (replay cs)).
  { intros spec Hsz. rewrite fmap_insert. destruct (bool_decide _ && _) eqn:Hb; [exfalso|done].
    apply andb_true_iff in Hb as [Hn%bool_decide_eq_true_1 Hcap%Nat.leb_le].
    rewrite lookup_fmap in Hn. apply fmap_None in Hn. rewrite map_size_fmap in Hcap.
    rewrite map_size_insert_None in Hsz by done. lia. }
  destruct c as [spec|spec|id|id| | |]; cbn [apply_command replay_command sink_command] in *;
    rewrite ?Hc0; try done; try (by apply Hput); by rewrite fmap_delete.
Qed.

(** Without it the backend leaves out what it has no room for, and has no other output. *)
Lemma apply_command_within cap cs :
  Forall sink_command cs ->
  fold_left (apply_command cap) cs ∅ ⊆ os_generation <$> replay cs /\ (size (fold_left (apply_command cap) cs ∅) <= cap)%nat.
Proof.
  induction cs as [|c cs IH] using rev_ind; intros Hs.
  { cbn. rewrite map_size_empty. split; [apply map_empty_subseteq|lia]. }
  apply Forall_app in Hs as [Hs Hc]. inversion Hc as [|? ? Hc0 _]; subst. destruct (IH Hs) as [Hsub Hsize].
  rewrite fold_left_app, replay_snoc. cbn [fold_left]. set (M := fold_left _ cs ∅) in *.
  assert (Hput : forall spec,
    let M' := if bool_decide (M !! os_id spec = None) && (cap <=? size M)%nat then M
              else <[os_id spec := os_generation spec]> M in
    M' ⊆ os_generation <$> <[os_id spec := spec]> (replay cs) /\ (size M' <= cap)%nat).
  { intros spec. rewrite fmap_insert. cbn zeta. destruct (bool_decide _) eqn:Hb; cbn [andb].
    - apply bool_decide_eq_true_1 in Hb. destruct (_ <=? _)%nat eqn:Hcap.
      + split; [by apply insert_subseteq_r|done].
      + apply Nat.leb_gt in Hcap. rewrite map_size_insert_None by done. split; [by apply insert_mono|lia].
    - apply bool_decide_eq_false_1 in Hb. split; [by apply insert_mono|].
      rewrite map_size_insert_Some; [done|]. by apply not_eq_None_Some. }
  assert (Hdel : forall id, delete id M ⊆ os_generation <$> delete id (replay cs) /\ (size (delete id M) <= cap)%nat).
  { intros id. rewrite fmap_delete. split; [by apply delete_mono|].
    pose proof (map_subseteq_size _ _ (delete_subseteq M id)). lia. }
  destruct c as [spec|spec|id|id| | |]; cbn [apply_command replay_command sink_command] in *; rewrite ?Hc0; auto; apply Hput.
Qed.

(** ** Properties *)

(** A feed's runtime lives as long as somebody holds it.  After any calls (fewer than
    [2^64]) the registry's count of every feed is the number of holders that came less those
    that left since the last shutdown; exactly the feeds with a holder have a runtime and a
    wake subscription, and each of them has its reader.  A release tears the runtime down
    exactly when the last holder leaves. *)
Theorem sink_fabric_counts_holders cfg ops f :
  Z.of_nat (length ops) < 2 ^ 64 ->
  let held := fold_left holders_step ops ∅ in
  let r := fold_left (registry_step cfg) ops registry_new in
  active_outputs r = held /\
  (forall g n, held !! g = Some n -> 1 <= n) /\
  (forall g, is_Some (runtimes r !! g) <-> is_Some (held !! g)) /\
  (forall g, g ∈ feed_wakes r <-> is_Some (held !! g)) /\
  (forall g, is_Some (held !! g) -> g ∈ feeds r) /\
  (release_sink_fabric_runtime f r).1 = bool_decide (held !! f = Some 1).
Proof.
  intros Hlen held r. pose proof (registry_run_ok cfg ops 0 ∅ registry_new ltac:(lia) Hlen (empty_registry_ok _ _)) as HR.
  fold held r in HR. destruct (release_ok f (0 + Z.of_nat (length ops)) held r ltac:(lia) HR) as [_ Hrel]. destruct HR as [Hc Hr Hrt Hw Hf].
  split_and!; auto. intros g n Hg. by apply (Hr g).
Qed.

(** C26: Admission holds every shard to its leaf table.  In a sink fabric in service, with
    requests as described at [sink_request], no shard is ever given more outputs than it has
    leaves, however shards die and are replaced and however the pool is resized; nor do the
    commands it is sent ask, at any point, for more than that. *)
Theorem admission_bounds_every_shard cfg n rt i :
  serves cfg n rt -> Z.of_nat n < 2 ^ 32 -> (i < shard_count (rt_manager rt))%nat ->
  (shard_is_dead (rt_manager rt) i = false ->
     desired_count_for_shard (rt_manager rt) i <= Z.of_nat (sc_leaf_capacity cfg)) /\
  (forall k, (size (replay (take k (accepted (rt_group rt) i))) <= sc_leaf_capacity cfg)%nat).
Proof.
  intros HS Hn Hi. destruct (serves_ok cfg n rt HS Hn) as [HF Hl _]. destruct (Hl i) as [Hw _]. split; [|exact Hw].
  intros Hd. unfold desired_count_for_shard. pose proof HF as [[Hm _ _ _ _] _]. rewrite (mo_load _ Hm) by done. cbn.
  rewrite <- (load_is_told _ _ _ HF Hi Hd). pose proof (within_capacity_last _ _ Hw). lia.
Qed.

(** C2: End to end: what a sink shard serves is what its manager holds.  Take a sink fabric in
    service, given any commands for sink outputs, and one of its shards that is not dead, and
    run that shard's loop with a sink backend over any feed, any clocks and any arrivals, so
    that its channel took the commands the group says it took and it has received them all.
    Then every output its backend serves is one the manager has placed on that shard, at the
    manager's generation, and there are at most as many as it has leaves; and it serves all of
    them if its commands never asked for more outputs at once than it has leaves, so in
    particular whenever no request got past admission ([sink_request]: no [Update] of an output
    that is not held, no [Add] again of one whose shard has panicked). *)
Theorem sink_shard_serves_what_manager_holds cfg n rt i h ring_at epoch_at feed_clock clock config budget inputs s :
  sink_service cfg n rt -> Z.of_nat n < 2 ^ 32 -> Z.of_nat (sc_leaf_capacity cfg) < 2 ^ 32 ->
  (1 <= command_batch_budget config)%nat ->
  handles (rt_group rt) !! i = Some h -> shard_is_dead (rt_manager rt) i = false ->
  @run _ (sink_backend ring_at epoch_at feed_clock) clock inputs
    (shard_new i config (0%nat, sink_new budget (sc_leaf_capacity cfg))) = (true, s) ->
  r_accepted s = h_accepted h -> receiver s = [] -> Z.of_nat (length (r_calls s)) < 2 ^ 32 ->
  let served := outputs_of (backend s).2 in
  let held := (fun d => os_generation (d_spec d)) <$> filter (fun p => d_shard p.2 = i) (desired (rt_manager rt)) in
  served ⊆ held /\ (size served <= sc_leaf_capacity cfg)%nat /\
  (within_capacity (sc_leaf_capacity cfg) (h_accepted h) -> served = held) /\
  (serves cfg n rt -> served = held).
Proof.
  intros HS Hn Hcap Hb Hh Hdead Hrun Hacc Hrec Hcalls served held.
  destruct (service_ok cfg n rt HS Hn) as [HF Hl _].
  assert (Hi : (i < shard_count (rt_manager rt))%nat) by (rewrite <- (fo_count _ _ HF); by eapply lookup_lt_Some).
  assert (Hlog : accepted (rt_group rt) i = h_accepted h) by (unfold accepted; by rewrite Hh).
  pose proof (fa_told _ _ (fo_ahead _ _ HF) i Hi) as Ht. unfold told in Ht. rewrite Hdead, Hlog in Ht.
  destruct (Hl i) as [_ Hs]. rewrite Hlog in Hs.
  assert (Hheld : os_generation <$> replay (h_accepted h) = held).
  { rewrite Ht. unfold specs_on, placed_on. by rewrite <- map_fmap_compose. }
  assert (Hserved : served = fold_left (apply_command (sc_leaf_capacity cfg)) (h_accepted h) ∅).
  { destruct (sink_shard_outputs ring_at epoch_at feed_clock clock i config budget _ inputs s Hb Hrun Hcalls)
      as (received & Hr & Ho). rewrite Hrec, app_nil_r, Hacc in Hr. subst received. unfold served. rewrite Ho.
    assert (Hclamp : clamp_u32 (sc_leaf_capacity cfg) = sc_leaf_capacity cfg) by (unfold clamp_u32; case_if; lia).
    by rewrite Hclamp. }
  assert (Hall : within_capacity (sc_leaf_capacity cfg) (h_accepted h) -> served = held).
  { intros Hw. by rewrite Hserved, (apply_command_replay _ _ Hw Hs). }
  rewrite <- Hheld in *. rewrite Hserved in *. destruct (apply_command_within (sc_leaf_capacity cfg) _ Hs) as [H1 H2].
  split_and!; try done. intros HS'. apply Hall. rewrite <- Hlog. by apply (serves_ok cfg n rt HS' Hn).
Qed.

(** *** Adding again while the old shard is dead *)

Definition one_leaf : SinkFabricConfig :=
  {| sc_command_capacity := 8; sc_leaf_capacity := 1; sc_shards := 2; sc_maximum := 2 |}.
Definition calm_env : sink_env :=
  {| env_recommend := 1; env_observed := Some 1%nat; env_admit := fun _ => None;
     env_factory := fun _ _ => FactoryOk |}.
Definition sink_spec (id : OutputId) (generation : Z) : OutputSpec :=
  {| os_id := id; os_generation := generation; os_feed := "feed"%string; os_protocol := PSink;
     os_policy := LeafPolicy_default |}.

(** Two outputs on two shards of one leaf each, placement narrowed to the first shard. *)
Definition two_outputs : EgressFabricRuntime :=
  let rt := mk_runtime (EgressManager_new 1 LeastLoaded) (spawn_group 1 8) 2 in
  let rt := (dispatch_sink_command one_leaf calm_env true (Add (sink_spec "a" 1)) rt).2 in
  let rt := (dispatch_sink_command one_leaf calm_env true (Add (sink_spec "b" 1)) rt).2 in
  rescale_sink_fabric one_leaf calm_env ReasonObserve rt.

Lemma two_outputs_serves : serves one_leaf 3 two_outputs.
Proof.
  unfold two_outputs. apply SV_resize. apply SV_dispatch; [apply SV_dispatch; [by apply SV_new|]|].
  - split_and!; [done|done|]. intros spec d [= <-]. vm_compute. done.
  - split_and!; [done|done|]. intros spec d [= <-]. vm_compute. done.
Defined.

(** Adding an output again can get past admission.  Whether an [Add] is admitted is
    decided from what the manager held before the resize, but the resize itself releases the
    outputs of a dead shard.  Here each shard has one leaf, ["a"] and ["b"] each have a shard,
    and the second shard panics: adding ["b"] at a newer generation is accepted without
    admission and leaves two outputs on the one shard, whose backend has room for one. *)
Theorem readd_after_panic_skips_admission :
  let rt := mk_runtime (rt_manager two_outputs) (shard_ends 1 true (rt_group two_outputs)) 2 in
  let '(res, rt') := dispatch_sink_command one_leaf calm_env true (Add (sink_spec "b" 2)) rt in
  res = inl (Enqueued 0) /\ shard_count (rt_manager rt') = 1%nat /\
  desired_count_for_shard (rt_manager rt') 0 = 2 /\ sc_leaf_capacity one_leaf = 1%nat /\
  fold_left (apply_command 1) (accepted (rt_group rt') 0) ∅ = {[ "a"%string := 1 ]}.
Proof. vm_compute. auto. Qed.

(** ** Witnesses *)

Lemma sink_fabric_counts_holders_witness :
  (release_sink_fabric_runtime "f"
     (fold_left (registry_step one_leaf)
        [RRetain "f"; RRetain "g"; RRetain "f"; RDispatch calm_env "f" (Add (sink_spec "a" 1)); RRelease "f"] registry_new)).1 = true.
Proof.
  destruct (sink_fabric_counts_holders one_leaf
    [RRetain "f"; RRetain "g"; RRetain "f"; RDispatch calm_env "f" (Add (sink_spec "a" 1)); RRelease "f"] "f"
    ltac:(reflexivity)) as (_ & _ & _ & _ & _ & Hrel).
  rewrite Hrel. vm_compute. reflexivity.
Defined.

Lemma admission_bounds_every_shard_witness :
  desired_count_for_shard (rt_manager two_outputs) 1 <= 1.
Proof.
  apply (admission_bounds_every_shard one_leaf 3 two_outputs 1 two_outputs_serves).
  - reflexivity.
  - vm_compute. lia.
  - vm_compute. reflexivity.
Defined.

Definition shard_one_inputs : list (list arrival * EgressShardIdleWake) :=
  [([ASend (Add (sink_spec "b" 1))], IdleTimeout)].
Definition loop_config : EgressShardConfig :=
  {| command_channel_capacity := 8; command_batch_budget := 4; readiness_batch_budget := 4;
     timer_batch_budget := 4; leaf_capacity := 1; idle_wait := 10; drain_timeout := 3 |}.
Definition empty_feed : nat -> RingBuffer := fun _ => RingBuffer_new 2.
Definition shard_one : bool * EgressShardRuntime (nat * SinkShardBackend) :=
  @run _ (sink_backend empty_feed (fun _ => 0) Z.of_nat) Z.of_nat shard_one_inputs
    (shard_new 1 loop_config (0%nat, sink_new {| cfg_max_units := 4; cfg_max_bytes := 100; window := 10 |} 1)).

Lemma sink_shard_serves_what_manager_holds_witness :
  outputs_of (backend shard_one.2).2 = {[ "b"%string := 1 ]}.
Proof.
  refine (eq_trans (proj2 (proj2 (proj2 (sink_shard_serves_what_manager_holds one_leaf 3 two_outputs 1
    (match handles (rt_group two_outputs) !! 1%nat with Some h => h | None => spawn_thread 1 8 end)
    empty_feed (fun _ => 0) Z.of_nat Z.of_nat loop_config
    {| cfg_max_units := 4; cfg_max_bytes := 100; window := 10 |} shard_one_inputs shard_one.2
    (serves_service _ _ _ two_outputs_serves) ltac:(reflexivity) ltac:(reflexivity) ltac:(cbn; lia)
    ltac:(vm_compute; reflexivity) ltac:(vm_compute; reflexivity) ltac:(vm_compute; reflexivity)
    ltac:(vm_compute; reflexivity) ltac:(vm_compute; reflexivity) ltac:(vm_compute; reflexivity)))) two_outputs_serves) _).
  vm_compute. reflexivity.
Defined.
