(* ===== verification/Text.v ===== *)
(** * Text

    The part of Rust's [str] and integer formatting the domain crates use: prefix
    tests, splitting, joining, decimal printing and parsing, trimming.  A [&str] is
    its UTF-8 bytes (Rocq's [string]); every separator and prefix the code uses is
    ASCII, so working on bytes and on characters agree. *)

From Stdlib Require Import Ascii.
From stdpp Require Import pretty.
From S2P Require Import Prelude Media.

Open Scope Z_scope.

(** ** Definitions *)

(** [str::strip_prefix] *)
Fixpoint strip_prefix (p s : string) : option string :=
  match p, s with
  | EmptyString, _ => Some s
  | String c p', String d s' => if bool_decide (c = d) then strip_prefix p' s' else None
  | String _ _, EmptyString => None
  end.

(** [str::starts_with] *)
Definition starts_with (s p : string) : bool :=
  match strip_prefix p s with Some _ => true | None => false end.

(** [str::split] at a character *)
Fixpoint split_char (sep : Ascii.ascii) (s : string) : list string :=
  match s with
  | EmptyString => [EmptyString]
  | String c s' =>
      if bool_decide (c = sep) then EmptyString :: split_char sep s'
      else match split_char sep s' with
           | h :: t => String c h :: t
           | [] => [String c EmptyString]
           end
  end.

(** [str::split_once] at a character: the text before and after the first one.
    [s.find(c)] and [s.splitn(2, c)] are read off it. *)
Fixpoint split_once (sep : Ascii.ascii) (s : string) : option (string * string) :=
  match s with
  | EmptyString => None
  | String c s' =>
      if bool_decide (c = sep) then Some (EmptyString, s')
      else match split_once sep s' with
           | Some (a, b) => Some (String c a, b)
           | None => None
           end
  end.

(** [<[String]>::join] *)
Fixpoint join (sep : string) (l : list string) : string :=
  match l with
  | [] => EmptyString
  | [s] => s
  | s :: l' => s +:+ sep +:+ join sep l'
  end.

(** [str::rsplit_once] at a string: the text before and after its last occurrence. *)
Fixpoint rsplit_once (p s : string) : option (string * string) :=
  match s with
  | EmptyString => if bool_decide (p = EmptyString) then Some (EmptyString, EmptyString) else None
  | String c s' =>
      match rsplit_once p s' with
      | Some (a, b) => Some (String c a, b)
      | None => match strip_prefix p s with Some b => Some (EmptyString, b) | None => None end
      end
  end.

(** [usize] is 64 bits wide on the platforms the program builds for. *)
Definition USIZE_MAX : Z := 2 ^ 64 - 1.

(** [char::to_digit(10)] *)
Definition digit (c : Ascii.ascii) : option Z :=
  let n := Z.of_nat (Ascii.nat_of_ascii c) in
  if (48 <=? n) && (n <=? 57) then Some (n - 48) else None.

(** [char::to_digit] *)
Definition to_digit (radix : Z) (c : Ascii.ascii) : option Z :=
  let n := Z.of_nat (Ascii.nat_of_ascii c) in
  let d := if (48 <=? n) && (n <=? 57) then n - 48
           else if (97 <=? n) && (n <=? 122) then n - 87
           else if (65 <=? n) && (n <=? 90) then n - 55 else radix in
  if d <? radix then Some d else None.

Fixpoint parse_digits (acc : Z) (s : string) : option Z :=
  match s with
  | EmptyString => Some acc
  | String c s' =>
      match digit c with
      | Some d => let v := acc * 10 + d in if v <=? USIZE_MAX then parse_digits v s' else None
      | None => None
      end
  end.

(** [str::parse::<usize>]: an optional plus sign, then at least one digit, no
    overflow. *)
Definition parse_usize (s : string) : option Z :=
  match s with
  | EmptyString => None
  | String c s' =>
      if bool_decide (c = "+"%char)
      then match s' with EmptyString => None | _ => parse_digits 0 s' end
      else parse_digits 0 s
  end.

(** [Display] of an unsigned integer *)
Definition display (n : Z) : string := pretty (Z.to_N n).

Fixpoint string_forall (f : Ascii.ascii -> bool) (s : string) : bool :=
  match s with
  | EmptyString => true
  | String c s' => f c && string_forall f s'
  end.
Definition lacks (sep : Ascii.ascii) (s : string) : bool :=
  string_forall (fun c => negb (bool_decide (c = sep))) s.

(** The UTF-8 encodings of the characters with the Unicode [White_Space] property,
    which is what [str::trim] removes. *)
Definition byte_string (l : list nat) : string :=
  fold_right (fun n s => String (Ascii.ascii_of_nat n) s) EmptyString l.
Definition WHITE_SPACE : list string :=
  map byte_string
    ([[9]; [10]; [11]; [12]; [13]; [32]; [194; 133]; [194; 160]; [225; 154; 128]]
     ++ map (fun n => [226; 128; 128 + n]) (seq 0 11)
     ++ [[226; 128; 168]; [226; 128; 169]; [226; 128; 175]; [226; 129; 159];
         [227; 128; 128]])%nat.

Fixpoint strip_any (ps : list string) (s : string) : option string :=
  match ps with
  | [] => None
  | p :: ps' => match strip_prefix p s with Some r => Some r | None => strip_any ps' s end
  end.

Fixpoint trim_start_fuel (fuel : nat) (ps : list string) (s : string) : string :=
  match fuel with
  | O => s
  | S fuel' =>
      match strip_any ps s with Some r => trim_start_fuel fuel' ps r | None => s end
  end.

Fixpoint string_rev_app (s acc : string) : string :=
  match s with EmptyString => acc | String c s' => string_rev_app s' (String c acc) end.
Definition string_rev (s : string) : string := string_rev_app s EmptyString.

Definition trim_start (s : string) : string :=
  trim_start_fuel (String.length s) WHITE_SPACE s.
Definition trim_end (s : string) : string :=
  string_rev (trim_start_fuel (String.length s) (map string_rev WHITE_SPACE) (string_rev s)).
(** [str::trim] *)
Definition trim (s : string) : string := trim_end (trim_start s).

#[local] Arguments String.append : simpl nomatch.

(** ** Prefixes *)

Lemma strip_prefix_app p s : strip_prefix p (p +:+ s) = Some s.
Proof. induction p as [|c p IH]; cbn; [done|]. by rewrite bool_decide_true. Qed.

Lemma strip_prefix_other c d p q s : c <> d -> strip_prefix (String c p) (String d q +:+ s) = None.
Proof. intros H. cbn. by rewrite bool_decide_false. Qed.

Lemma strip_prefix_inv p s r : strip_prefix p s = Some r -> s = (p +:+ r).
Proof.
  revert s. induction p as [|c p IH]; cbn; intros s E; [by simplify_eq|].
  destruct s as [|d s]; [done|]. case_bool_decide; [|done]. subst. cbn. by rewrite (IH _ E).
Qed.

Lemma starts_with_app p s : starts_with (p +:+ s) p = true.
Proof. unfold starts_with. by rewrite strip_prefix_app. Qed.

(** ** Splitting *)

Lemma string_app_assoc a b c : (a +:+ b) +:+ c = a +:+ (b +:+ c).
Proof. induction a as [|x a IH]; cbn; [done|]. by rewrite IH. Qed.

Lemma lacks_cons sep c s : lacks sep (String c s) = true <-> c <> sep /\ lacks sep s = true.
Proof. unfold lacks; cbn. rewrite andb_true_iff. case_bool_decide; naive_solver. Qed.

Lemma split_char_nonempty sep s : split_char sep s <> [].
Proof. destruct s as [|c s]; cbn; [done|]. case_bool_decide; [done|]. by destruct (split_char sep s). Qed.

Lemma split_char_lacks sep s : lacks sep s = true -> split_char sep s = [s].
Proof.
  induction s as [|c s IH]; [done|]. intros [Hc Hs]%lacks_cons. cbn.
  rewrite bool_decide_false by done. by rewrite IH.
Qed.

Lemma split_char_app sep a b :
  lacks sep a = true -> split_char sep (a +:+ String sep EmptyString +:+ b) = a :: split_char sep b.
Proof.
  induction a as [|c a IH]; [intros _; cbn; by rewrite bool_decide_true|].
  intros [Hc Ha]%lacks_cons. change (String c a +:+ ?x) with (String c (a +:+ x)).
  cbn [split_char]. rewrite bool_decide_false by done. by rewrite IH.
Qed.

Lemma split_join sep l :
  l <> [] -> Forall (fun s => lacks sep s = true) l ->
  split_char sep (join (String sep EmptyString) l) = l.
Proof.
  intros Hl HF. induction HF as [|s l Hs HF IH]; [done|].
  destruct l as [|s' l]; [by apply split_char_lacks|].
  change (join _ _) with (s +:+ String sep EmptyString +:+ join (String sep EmptyString) (s' :: l)).
  rewrite split_char_app by done. by rewrite IH.
Qed.

Lemma split_once_app sep a b :
  lacks sep a = true -> split_once sep (a +:+ String sep EmptyString +:+ b) = Some (a, b).
Proof.
  induction a as [|c a IH]; [intros _; cbn; by rewrite bool_decide_true|].
  intros [Hc Ha]%lacks_cons. change (String c a +:+ ?x) with (String c (a +:+ x)).
  cbn [split_once]. rewrite bool_decide_false by done. by rewrite IH.
Qed.

Lemma split_once_lacks sep s : lacks sep s = true -> split_once sep s = None.
Proof.
  induction s as [|c s IH]; [done|]. intros [Hc Hs]%lacks_cons. cbn.
  rewrite bool_decide_false by done. by rewrite IH.
Qed.

Lemma lacks_app sep a b : lacks sep (a +:+ b) = lacks sep a && lacks sep b.
Proof.
  unfold lacks. induction a as [|c a IH]; [done|].
  change (String c a +:+ b) with (String c (a +:+ b)). cbn. by rewrite IH, andb_assoc.
Qed.

(** ** Numbers *)

(** A character that is not a digit does not occur in a printed number. *)
Lemma pretty_char_digit d :
  (d < 10)%N -> digit (pretty_N_char d) = Some (Z.of_N d).
Proof.
  intros Hd. assert (d = 0 ∨ d = 1 ∨ d = 2 ∨ d = 3 ∨ d = 4 ∨ d = 5 ∨ d = 6 ∨ d = 7 ∨ d = 8 ∨ d = 9)%N
    as Hc by lia.
  by repeat (destruct Hc as [->|Hc]; [done|]); subst.
Qed.

Lemma parse_pretty_go x s :
  Z.of_N x <= USIZE_MAX -> parse_digits 0 (pretty_N_go x s) = parse_digits (Z.of_N x) s.
Proof.
  revert s. induction (N.lt_wf_0 x) as [x _ IH]; intros s Hx.
  destruct (decide (x = 0)%N) as [->|Hne]; [by rewrite pretty_N_go_0|].
  assert (x `div` 10 < x)%N as Hlt by (apply N.div_lt; lia).
  rewrite pretty_N_go_step by lia. rewrite IH; [|done|lia]. cbn [parse_digits].
  rewrite pretty_char_digit by (apply N.mod_upper_bound; lia). cbn zeta.
  replace (Z.of_N (x `div` 10) * 10 + Z.of_N (x `mod` 10)) with (Z.of_N x).
  - by rewrite (proj2 (Z.leb_le _ _) Hx).
  - pose proof (N.div_mod x 10 ltac:(lia)). lia.
Qed.

Lemma pretty_go_lacks sep x s :
  digit sep = None -> lacks sep s = true -> lacks sep (pretty_N_go x s) = true.
Proof.
  intros Hd. revert s. induction (N.lt_wf_0 x) as [x _ IH]; intros s Hs.
  destruct (decide (x = 0)%N) as [->|Hne]; [by rewrite pretty_N_go_0|].
  rewrite pretty_N_go_step by lia. apply IH; [apply N.div_lt; lia|].
  apply lacks_cons. split; [|done]. intros <-.
  rewrite pretty_char_digit in Hd by (apply N.mod_upper_bound; lia). done.
Qed.

Lemma display_lacks sep n : digit sep = None -> lacks sep (display n) = true.
Proof.
  intros Hd. unfold display, pretty, pretty_N. case_decide; [|by apply pretty_go_lacks].
  apply lacks_cons. split; [|done]. by intros <-.
Qed.

(** Printing and parsing are inverse on [usize]. *)
Lemma parse_display n : 0 <= n <= USIZE_MAX -> parse_usize (display n) = Some n.
Proof.
  intros Hn. pose proof (display_lacks "+"%char n eq_refl) as Hp. revert Hp.
  unfold display, pretty, pretty_N. case_decide as Hz.
  - intros _. trans (Some 0); [done|]. f_equal. lia.
  - pose proof (parse_pretty_go (Z.to_N n) EmptyString ltac:(lia)) as Hg.
    cbn [parse_digits] in Hg. rewrite Z2N.id in Hg by lia.
    destruct (pretty_N_go (Z.to_N n) EmptyString) as [|c s] eqn:E.
    + cbn in Hg. simplify_eq.
    + intros [Hc _]%lacks_cons. cbn [parse_usize]. by rewrite bool_decide_false.
Qed.
