(* ===== verification/AudioRouting.v ===== *)
(** * Audio routing

    Models [crates/restream-domain/src/domain/audio_routing.rs]: the routing an
    output asks for, the operation string a stage is keyed by, and the parser that
    reads it back. *)

From Stdlib Require Import Ascii.
From S2P Require Import Prelude Media Text.

Open Scope Z_scope.

(** ** Definitions *)

Inductive AudioRouting :=
| Passthrough
| SelectTracks (tracks : list Z)
| Remap (track left_ch right_ch : Z)
| Downmix (track : Z).
#[global] Instance AudioRouting_eq_dec : EqDecision AudioRouting.
Proof. solve_decision. Defined.

Definition operation_string (r : AudioRouting) : option string :=
  match r with
  | Passthrough => None
  | SelectTracks [] => None
  | SelectTracks tracks => Some ("atrack:" +:+ join "," (map display tracks))
  | Remap track left_ch right_ch =>
      if track =? 0 then Some ("remap:" +:+ display left_ch +:+ ":" +:+ display right_ch)
      else Some ("remap:" +:+ display left_ch +:+ ":" +:+ display right_ch +:+ ":" +:+ display track)
  | Downmix track => Some ("downmix:" +:+ display track)
  end.

Definition is_audio_operation (value : string) : bool :=
  starts_with value "atrack:" || starts_with value "remap:" || starts_with value "downmix:".

Definition parse_audio_operation (operation : string) : AudioRouting :=
  match strip_prefix "remap:" operation with
  | Some rest =>
      let parts := split_char ":"%char rest in
      match parts with
      | p0 :: p1 :: _ =>
          let left_ch := default 0 (parse_usize p0) in
          let right_ch := default 1 (parse_usize p1) in
          let track := default 0 (parts !! 2%nat ≫= parse_usize) in
          Remap track left_ch right_ch
      | _ => Passthrough
      end
  | None =>
      match strip_prefix "atrack:" operation with
      | Some rest =>
          match omap parse_usize (split_char ","%char rest) with
          | [] => Passthrough
          | tracks => SelectTracks tracks
          end
      | None =>
          match strip_prefix "downmix:" operation with
          | Some rest =>
              match parse_usize rest with Some track => Downmix track | None => Passthrough end
          | None => Passthrough
          end
      end
  end.

Definition parse_audio_routing (encoding : string) : AudioRouting :=
  match split_once "+"%char encoding with
  | Some (_, audio_part) => parse_audio_operation audio_part
  | None =>
      if is_audio_operation encoding then parse_audio_operation encoding else Passthrough
  end.

(** A routing whose numbers are [usize]s, as every value of the Rust type is. *)
Definition usize_ok (n : Z) : Prop := 0 <= n <= USIZE_MAX.
Definition routing_ok (r : AudioRouting) : Prop :=
  match r with
  | Passthrough => True
  | SelectTracks tracks => Forall usize_ok tracks
  | Remap track left_ch right_ch => usize_ok track /\ usize_ok left_ch /\ usize_ok right_ch
  | Downmix track => usize_ok track
  end.

(** ** Lemmas *)

Lemma parse_digits_ok s acc n : 0 <= acc <= USIZE_MAX -> parse_digits acc s = Some n -> usize_ok n.
Proof.
  revert acc. induction s as [|c s IH]; cbn; intros acc Ha E; [by simplify_eq|].
  unfold digit in E. case_match; [|done]. case_match; [|done].
  apply IH in E; [done|]. repeat case_match; simplify_eq; bool_to_prop; lia.
Qed.

Lemma parse_usize_ok s n : parse_usize s = Some n -> usize_ok n.
Proof.
  unfold parse_usize. destruct s as [|c s]; [done|].
  assert (0 <= 0 <= USIZE_MAX) by (unfold USIZE_MAX; lia).
  case_bool_decide; [destruct s; [done|]|]; by apply parse_digits_ok.
Qed.

Lemma parse_usize_default s d : usize_ok d -> usize_ok (default d (parse_usize s)).
Proof. destruct (parse_usize s) eqn:E; [|done]. intros _. by eapply parse_usize_ok. Qed.

Lemma usize_ok_small n : 0 <= n < 10 -> usize_ok n.
Proof. unfold usize_ok, USIZE_MAX. lia. Qed.

Lemma parse_audio_operation_ok s :
  routing_ok (parse_audio_operation s) /\ parse_audio_operation s <> SelectTracks [].
Proof.
  unfold parse_audio_operation. destruct (strip_prefix "remap:" s) as [rest|].
  { destruct (split_char ":"%char rest) as [|p0 [|p1 ps]]; [done|done|]. split; [|done].
    repeat split; try apply parse_usize_default, usize_ok_small; try lia.
    all: destruct ((p0 :: p1 :: ps) !! 2%nat) as [p2|]; cbn; [|by apply usize_ok_small];
         by apply parse_usize_default, usize_ok_small. }
  destruct (strip_prefix "atrack:" s) as [rest|].
  { destruct (omap _ _) as [|t ts] eqn:E; [done|]. split; [|done]. cbn. rewrite <- E.
    apply Forall_forall. intros n [p [_ Hp]]%list_elem_of_omap. by eapply parse_usize_ok. }
  destruct (strip_prefix "downmix:" s) as [rest|]; [|done].
  destruct (parse_usize rest) eqn:E; [|done]. split; [|done]. by eapply parse_usize_ok.
Qed.

Lemma omap_parse_display l : Forall usize_ok l -> omap parse_usize (map display l) = l.
Proof. induction 1 as [|n l Hn HF IH]; [done|]. cbn. rewrite parse_display by done. by rewrite IH. Qed.

Lemma tracks_split t ts :
  Forall usize_ok (t :: ts) ->
  omap parse_usize (split_char ","%char (join "," (map display (t :: ts)))) = t :: ts.
Proof.
  intros HF. change ","%string with (String ","%char EmptyString). rewrite split_join.
  - by apply omap_parse_display.
  - done.
  - apply Forall_forall. intros s (n & -> & _)%list_elem_of_fmap. by apply display_lacks.
Qed.

Lemma parse_operation_string r op :
  routing_ok r -> operation_string r = Some op -> parse_audio_operation op = r.
Proof.
  intros Hr E. destruct r as [|[|t ts]|track left_ch right_ch|track]; cbn -[join display map] in E; simplify_eq.
  - unfold parse_audio_operation. rewrite strip_prefix_other, strip_prefix_app by done.
    by rewrite tracks_split.
  - destruct Hr as (Ht & Hl & Hri). destruct (Z.eqb_spec track 0); simplify_eq; unfold parse_audio_operation;
      rewrite strip_prefix_app;
      rewrite split_char_app by (by apply display_lacks).
    + rewrite split_char_lacks by (by apply display_lacks). cbn -[display].
      by rewrite !parse_display by done.
    + rewrite split_char_app, split_char_lacks by (by apply display_lacks). cbn -[display].
      by rewrite !parse_display.
  - unfold parse_audio_operation. rewrite !strip_prefix_other, strip_prefix_app by done.
    by rewrite parse_display.
Qed.

(** What the printer emits is an audio operation and holds no plus sign, so an
    encoding that carries it splits where it should. *)
Lemma join_lacks sep s l :
  lacks sep s = true -> Forall (fun x => lacks sep x = true) l -> lacks sep (join s l) = true.
Proof.
  intros Hs. induction 1 as [|x l Hx HF IH]; [done|]. destruct l; [done|].
  change (join s (x :: _ :: _)) with (x +:+ s +:+ join s (s0 :: l)). by rewrite !lacks_app, Hx, Hs, IH.
Qed.

Lemma operation_string_form r op :
  operation_string r = Some op ->
  is_audio_operation op = true /\ lacks "+"%char op = true /\ op <> EmptyString.
Proof.
  intros E. destruct r as [|[|t ts]|track left_ch right_ch|track]; cbn -[join display map] in E; simplify_eq;
    [| |].
  - split_and!; [done| |done]. rewrite lacks_app, join_lacks; [done|done|].
    apply Forall_forall. intros s (n & -> & _)%list_elem_of_fmap. by apply display_lacks.
  - destruct (track =? 0); simplify_eq; (split_and!; [done| |done]);
      by rewrite !lacks_app, !display_lacks.
  - split_and!; [done| |done]. by rewrite lacks_app, display_lacks.
Qed.
