(* ===== verification/OutputSpec.v ===== *)
(** * Output specifications

    Models [crates/restream-domain/src/domain/output_spec/]: the video part of an
    output ([video.rs]), its protocol and URL scheme ([protocol.rs]), the encoding
    strings ([encoding.rs]) and the configuration with its codec resolution
    ([config.rs]).

    URL parsing is the [url] crate's: it is the class [UrlParser]. *)

From Stdlib Require Import Ascii.
From S2P Require Import Prelude Media Text AudioRouting.

Open Scope Z_scope.

#[global] Instance VideoCodecKind_eq_dec : EqDecision VideoCodecKind.
Proof. solve_decision. Defined.

(** ** Video *)

Inductive OutputVideoCodec := OVAuto | OVH264 | OVHevc.
#[global] Instance OutputVideoCodec_eq_dec : EqDecision OutputVideoCodec.
Proof. solve_decision. Defined.

Definition explicit_kind (c : OutputVideoCodec) : option VideoCodecKind :=
  match c with
  | OVAuto => None
  | OVH264 => Some CodecH264
  | OVHevc => Some CodecHevc
  end.

Inductive VideoSelector := SelSource | SelCustom | SelPreset (name : string).
#[global] Instance VideoSelector_eq_dec : EqDecision VideoSelector.
Proof. solve_decision. Defined.

Definition as_encoding_str (v : VideoSelector) : string :=
  match v with
  | SelSource => "source"
  | SelCustom => "custom"
  | SelPreset name => name
  end.

Definition selector_is_custom (v : VideoSelector) : bool :=
  match v with SelCustom => true | _ => false end.

Inductive OutputVideoConfig :=
| VideoSource (codec : OutputVideoCodec)
| VideoPresetConfig (preset : string) (codec : OutputVideoCodec)
| VideoCustom.
#[global] Instance OutputVideoConfig_eq_dec : EqDecision OutputVideoConfig.
Proof. solve_decision. Defined.

Definition encoding_label (v : OutputVideoConfig) : string :=
  match v with
  | VideoSource _ => "source"
  | VideoPresetConfig preset _ => preset
  | VideoCustom => "custom"
  end.

Definition video_is_custom (v : OutputVideoConfig) : bool :=
  match v with VideoCustom => true | _ => false end.

Definition is_source_auto (v : OutputVideoConfig) : bool :=
  match v with VideoSource OVAuto => true | _ => false end.

Definition video_codec (v : OutputVideoConfig) : OutputVideoCodec :=
  match v with
  | VideoSource codec | VideoPresetConfig _ codec => codec
  | VideoCustom => OVAuto
  end.

Definition set_codec (v : OutputVideoConfig) (codec : OutputVideoCodec) : OutputVideoConfig :=
  match v with
  | VideoSource _ => VideoSource codec
  | VideoPresetConfig preset _ => VideoPresetConfig preset codec
  | VideoCustom => VideoCustom
  end.

(** ** Protocol *)

Inductive EgressProtocol :=
  ProtoRtmp | ProtoSrt | ProtoHls | ProtoSink | ProtoPipeline | ProtoMoq | ProtoUnknown.
#[global] Instance EgressProtocol_eq_dec : EqDecision EgressProtocol.
Proof. solve_decision. Defined.

Inductive OutputUrlScheme :=
  SchemeRtmp | SchemeRtmps | SchemeSrt | SchemeHls | SchemeSink | SchemePipeline
| SchemeHttp | SchemeHttps | SchemeMoqt | SchemeUnknown.
#[global] Instance OutputUrlScheme_eq_dec : EqDecision OutputUrlScheme.
Proof. solve_decision. Defined.

(** What the [url] crate gives: parsing, and the parts the code reads. *)
Class UrlParser := {
  Url : Type;
  url_parse : string -> option Url;
  url_scheme : Url -> string;
  url_as_str : Url -> string;
  url_host_str : Url -> option string;
  url_path_segments : Url -> option (list string);
}.

Section Protocol.
Context `{UrlParser}.

Definition scheme_from_url (url : string) : OutputUrlScheme :=
  match url_parse (trim url) with
  | None => SchemeUnknown
  | Some parsed =>
      let s := string_lowercase (url_scheme parsed) in
      if bool_decide (s = "rtmp") then SchemeRtmp
      else if bool_decide (s = "rtmps") then SchemeRtmps
      else if bool_decide (s = "srt") then SchemeSrt
      else if bool_decide (s = "hls") then SchemeHls
      else if bool_decide (s = "sink") then SchemeSink
      else if bool_decide (s = "pipeline") then SchemePipeline
      else if bool_decide (s = "http") then SchemeHttp
      else if bool_decide (s = "https") then SchemeHttps
      else if bool_decide (s = "moqt") then SchemeMoqt
      else SchemeUnknown
  end.

Definition is_supported_output (s : OutputUrlScheme) : bool :=
  match s with SchemeUnknown => false | _ => true end.

Definition scheme_protocol (s : OutputUrlScheme) : EgressProtocol :=
  match s with
  | SchemeRtmp | SchemeRtmps => ProtoRtmp
  | SchemeSrt => ProtoSrt
  | SchemeHls | SchemeHttp | SchemeHttps => ProtoHls
  | SchemeSink => ProtoSink
  | SchemePipeline => ProtoPipeline
  | SchemeUnknown => ProtoUnknown
  | SchemeMoqt => ProtoMoq
  end.

Definition protocol_from_url (url : string) : EgressProtocol :=
  scheme_protocol (scheme_from_url url).

Definition protocol_is_rtmp (p : EgressProtocol) : bool :=
  match p with ProtoRtmp => true | _ => false end.

Record RecirculationTarget := mk_RecirculationTarget {
  rt_pipeline_id : string;
  rt_input_id : string;
}.

Inductive RecirculationTargetParseError :=
  MalformedUrl | UnsupportedScheme | MissingPipeline | MissingInput.

Definition recirculation_parse (url : string)
  : RecirculationTarget + RecirculationTargetParseError :=
  match url_parse (trim url) with
  | None => inr MalformedUrl
  | Some parsed =>
      match scheme_from_url (url_as_str parsed) with
      | SchemePipeline =>
          match url_host_str parsed with
          | None | Some EmptyString => inr MissingPipeline
          | Some pipeline_id =>
              match url_path_segments parsed ≫= fun segs =>
                      snd <$> list_find (fun s => s <> EmptyString) segs with
              | None => inr MissingInput
              | Some input_id => inl (mk_RecirculationTarget pipeline_id input_id)
              end
          end
      | _ => inr UnsupportedScheme
      end
  end.

End Protocol.

Inductive RtmpOutputMode := RtmpLegacy | RtmpEnhanced.
#[global] Instance RtmpOutputMode_eq_dec : EqDecision RtmpOutputMode.
Proof. solve_decision. Defined.

Inductive OutputProtocolConfig := ProtocolAuto | ProtocolRtmp (mode : RtmpOutputMode).
#[global] Instance OutputProtocolConfig_eq_dec : EqDecision OutputProtocolConfig.
Proof. solve_decision. Defined.

Definition protocol_rtmp_mode (p : OutputProtocolConfig) : option RtmpOutputMode :=
  match p with ProtocolRtmp mode => Some mode | ProtocolAuto => None end.

(** ** Configuration *)

Record OutputConfig := mk_OutputConfig {
  cfg_video : OutputVideoConfig;
  cfg_audio : AudioRouting;
  cfg_protocol : OutputProtocolConfig;
}.
#[global] Instance OutputConfig_eq_dec : EqDecision OutputConfig.
Proof. solve_decision. Defined.

Definition OutputConfig_source : OutputConfig :=
  mk_OutputConfig (VideoSource OVAuto) Passthrough ProtocolAuto.
Definition OutputConfig_preset (preset : string) : OutputConfig :=
  mk_OutputConfig (VideoPresetConfig preset OVAuto) Passthrough ProtocolAuto.
Definition with_video_codec (c : OutputConfig) (codec : OutputVideoCodec) : OutputConfig :=
  mk_OutputConfig (set_codec (cfg_video c) codec) (cfg_audio c) (cfg_protocol c).
Definition with_audio (c : OutputConfig) (audio : AudioRouting) : OutputConfig :=
  mk_OutputConfig (cfg_video c) audio (cfg_protocol c).
Definition with_rtmp_mode (c : OutputConfig) (mode : RtmpOutputMode) : OutputConfig :=
  mk_OutputConfig (cfg_video c) (cfg_audio c) (ProtocolRtmp mode).

Definition rtmp_mode (c : OutputConfig) : RtmpOutputMode :=
  default RtmpLegacy (protocol_rtmp_mode (cfg_protocol c)).

Definition stage_encoding_label (c : OutputConfig) : string :=
  let video := encoding_label (cfg_video c) in
  match operation_string (cfg_audio c) with
  | Some audio =>
      match cfg_video c with
      | VideoSource _ => audio
      | _ => video +:+ "+" +:+ audio
      end
  | None => video
  end.

Definition is_source_passthrough (c : OutputConfig) : bool :=
  is_source_auto (cfg_video c) && bool_decide (cfg_audio c = Passthrough).

Record ProtocolCapabilities := mk_ProtocolCapabilities {
  cap_protocol : EgressProtocol;
  cap_rtmp_mode : option RtmpOutputMode;
}.

Definition supports (cap : ProtocolCapabilities) (codec : VideoCodecKind) : bool :=
  match cap_protocol cap, cap_rtmp_mode cap, codec with
  | ProtoRtmp, Some RtmpLegacy, CodecH264 => true
  | ProtoRtmp, Some RtmpEnhanced, (CodecH264 | CodecHevc) => true
  | ProtoSrt, _, (CodecH264 | CodecHevc) => true
  | ProtoPipeline, _, (CodecH264 | CodecHevc | CodecUnknown) => true
  | ProtoHls, _, CodecH264 => true
  | ProtoMoq, _, (CodecH264 | CodecHevc) => true
  | ProtoSink, _, (CodecH264 | CodecHevc | CodecUnknown) => true
  | _, _, _ => false
  end.

Definition default_codec (cap : ProtocolCapabilities) : VideoCodecKind :=
  match cap_protocol cap, cap_rtmp_mode cap with
  | ProtoRtmp, Some RtmpLegacy | ProtoHls, _ | ProtoMoq, _ => CodecH264
  | _, _ => CodecUnknown
  end.

Inductive OutputConfigError := UnsupportedCodecForProtocol.

Definition validate_capabilities (c : OutputConfig) (cap : ProtocolCapabilities)
  : option OutputConfigError :=
  match explicit_kind (video_codec (cfg_video c)) with
  | None => None
  | Some codec => if supports cap codec then None else Some UnsupportedCodecForProtocol
  end.

Inductive ResolvedOutputVideo :=
| ResolvedSource (codec : VideoCodecKind)
| ResolvedPreset (preset : string) (codec : VideoCodecKind).

Record ResolvedOutputConfig := mk_ResolvedOutputConfig {
  res_video : ResolvedOutputVideo;
  res_audio : AudioRouting;
  res_protocol : EgressProtocol;
}.

Definition resolve_for_input_codec (c : OutputConfig) (cap : ProtocolCapabilities)
    (input_codec : VideoCodecKind) : ResolvedOutputConfig + OutputConfigError :=
  match validate_capabilities c cap with
  | Some e => inr e
  | None =>
      let codec :=
        match explicit_kind (video_codec (cfg_video c)) with
        | Some codec => codec
        | None =>
            if supports cap input_codec && negb (bool_decide (input_codec = CodecUnknown))
            then input_codec else default_codec cap
        end in
      if negb (supports cap codec) then inr UnsupportedCodecForProtocol
      else
        let video := match cfg_video c with
                     | VideoSource _ | VideoCustom => ResolvedSource codec
                     | VideoPresetConfig preset _ => ResolvedPreset preset codec
                     end in
        inl (mk_ResolvedOutputConfig video (cfg_audio c) (cap_protocol cap))
  end.

Definition from_output `{UrlParser} (url : string) (c : OutputConfig) : ProtocolCapabilities :=
  let protocol := protocol_from_url url in
  mk_ProtocolCapabilities protocol
    (if protocol_is_rtmp protocol then Some (rtmp_mode c) else None).

(** ** Encoding strings *)

Definition video_selector_of (part : string) : VideoSelector :=
  if bool_decide (part = "") || bool_decide (part = "source") then SelSource
  else if bool_decide (part = "custom") then SelCustom
  else SelPreset part.

Record OutputEncodingSpec := mk_OutputEncodingSpec {
  spec_video : VideoSelector;
  spec_audio_operation : option string;
}.

Definition OutputEncodingSpec_parse (encoding : string) : OutputEncodingSpec :=
  let '(first_part, second_part) :=
    match split_once "+"%char encoding with
    | Some (a, b) => (a, if bool_decide (b = "") then None else Some b)
    | None => (encoding, None)
    end in
  if is_audio_operation first_part
  then mk_OutputEncodingSpec (video_selector_of "source") (Some first_part)
  else mk_OutputEncodingSpec (video_selector_of first_part) second_part.

Definition StagePresetSpec_parse (preset : string) : OutputEncodingSpec :=
  match strip_prefix "video:" preset with
  | Some video => mk_OutputEncodingSpec (video_selector_of video) None
  | None =>
      match strip_prefix "audio:" preset with
      | Some rest =>
          let operation := match rsplit_once ":from:" rest with
                           | Some (op, _) => op
                           | None => rest
                           end in
          mk_OutputEncodingSpec SelSource (Some operation)
      | None => OutputEncodingSpec_parse preset
      end
  end.

(** The selector an output's video configuration stands for. *)
Definition selector_of_config (v : OutputVideoConfig) : VideoSelector :=
  match v with
  | VideoSource _ => SelSource
  | VideoPresetConfig preset _ => SelPreset preset
  | VideoCustom => SelCustom
  end.

(** A preset name the encoding grammar can carry: not one of its keywords, not an
    audio operation, and without the separator. *)
Definition preset_name_ok (name : string) : bool :=
  negb (bool_decide (name = "")) && negb (bool_decide (name = "source"))
  && negb (bool_decide (name = "custom")) && negb (is_audio_operation name)
  && lacks "+"%char name.
Definition video_names_ok (v : OutputVideoConfig) : bool :=
  match v with VideoPresetConfig preset _ => preset_name_ok preset | _ => true end.

(** ** Codec resolution *)

Lemma resolve_supported c cap input r :
  resolve_for_input_codec c cap input = inl r ->
  supports cap (match res_video r with ResolvedSource k | ResolvedPreset _ k => k end) = true.
Proof.
  unfold resolve_for_input_codec. destruct (validate_capabilities c cap); [done|].
  case_if; intros E'; [done|]. simplify_eq. cbn. by destruct (cfg_video c).
Qed.

(** A configuration that passes validation resolves for every known input codec, on
    every protocol but the unknown one. *)
Lemma resolve_total c cap input :
  validate_capabilities c cap = None -> input <> CodecUnknown ->
  cap_protocol cap <> ProtoUnknown ->
  (cap_protocol cap = ProtoRtmp -> cap_rtmp_mode cap <> None) ->
  exists r, resolve_for_input_codec c cap input = inl r.
Proof.
  intros Hv Hi Hp Hm. unfold resolve_for_input_codec. rewrite Hv. unfold validate_capabilities in Hv.
  destruct (explicit_kind (video_codec (cfg_video c))) as [k|].
  { destruct (supports cap k); [|done]. eauto. }
  destruct cap as [p m]. cbn in *.
  destruct p, m as [[]|], input; cbn; try done; eauto; by destruct (Hm eq_refl).
Qed.

(** ** The encoding label *)

Lemma video_selector_label v : video_names_ok v = true ->
  video_selector_of (encoding_label v) = selector_of_config v.
Proof.
  destruct v as [?|p ?|]; [done| |done]. cbn [video_names_ok encoding_label selector_of_config].
  unfold preset_name_ok, video_selector_of. intros H. bool_to_prop.
  by repeat match goal with E : bool_decide _ = false |- _ => rewrite E; clear E end.
Qed.

Lemma video_label_form v : video_names_ok v = true ->
  lacks "+"%char (encoding_label v) = true /\ is_audio_operation (encoding_label v) = false.
Proof.
  destruct v as [?|p ?|]; [done| |done]. cbn [video_names_ok encoding_label].
  unfold preset_name_ok. intros H. by bool_to_prop.
Qed.

(** The label's text splits into the video part and the audio operation. *)
Lemma label_parse c : video_names_ok (cfg_video c) = true ->
  OutputEncodingSpec_parse (stage_encoding_label c)
    = mk_OutputEncodingSpec (selector_of_config (cfg_video c)) (operation_string (cfg_audio c)).
Proof.
  intros Hv. pose proof (video_selector_label _ Hv) as Hs. pose proof (video_label_form _ Hv) as [Hl Ha].
  unfold stage_encoding_label, OutputEncodingSpec_parse.
  destruct (operation_string (cfg_audio c)) as [op|] eqn:Eo.
  - destruct (operation_string_form _ _ Eo) as (Hop & Hlack & Hne).
    destruct (cfg_video c) as [k|p k|].
    + by rewrite split_once_lacks, Hop.
    + cbn [encoding_label] in *. rewrite split_once_app, Ha by done.
      rewrite bool_decide_false by done. by rewrite Hs.
    + cbn [encoding_label] in *. rewrite split_once_app, Ha by done. by rewrite bool_decide_false.
  - rewrite split_once_lacks, Ha by done. by rewrite Hs.
Qed.

Lemma label_routing c :
  video_names_ok (cfg_video c) = true -> routing_ok (cfg_audio c) ->
  cfg_audio c <> SelectTracks [] ->
  parse_audio_routing (stage_encoding_label c) = cfg_audio c.
Proof.
  intros Hv Hr Hne. pose proof (video_label_form _ Hv) as [Hl Ha].
  unfold stage_encoding_label, parse_audio_routing.
  destruct (operation_string (cfg_audio c)) as [op|] eqn:Eo.
  - destruct (operation_string_form _ _ Eo) as (Hop & Hlack & _).
    destruct (cfg_video c) as [k|p k|]; cbn [encoding_label] in *.
    + rewrite split_once_lacks, Hop by done. by apply parse_operation_string.
    + rewrite split_once_app by done. by apply parse_operation_string.
    + rewrite split_once_app by done. by apply parse_operation_string.
  - rewrite split_once_lacks, Ha by done.
    destruct (cfg_audio c) as [|[]|track ? ?|]; cbn in Eo; try done. by destruct (track =? 0).
Qed.

(** ** Theorems *)

(** The encoding label of an output's configuration names the configuration: parsed
    as an encoding it gives back the video selector and the audio operation, and the
    audio routing read from it is the one configured, whatever the tracks and
    channels.  It holds of every preset name the grammar can carry and every routing
    but the empty track selection, which the label drops. *)
Theorem encoding_label_roundtrip c :
  video_names_ok (cfg_video c) = true -> routing_ok (cfg_audio c) ->
  cfg_audio c <> SelectTracks [] ->
  OutputEncodingSpec_parse (stage_encoding_label c)
    = mk_OutputEncodingSpec (selector_of_config (cfg_video c)) (operation_string (cfg_audio c))
  /\ parse_audio_routing (stage_encoding_label c) = cfg_audio c.
Proof. intros Hv Hr Hne. split; [by apply label_parse|by apply label_routing]. Qed.

Lemma encoding_label_roundtrip_witness :
  let c := mk_OutputConfig (VideoPresetConfig "720p" OVAuto) (Remap 2 0 17) ProtocolAuto in
  stage_encoding_label c = "720p+remap:0:17:2" /\ parse_audio_routing "720p+remap:0:17:2" = cfg_audio c.
Proof.
  intros c. split; [by vm_compute|].
  assert (stage_encoding_label c = "720p+remap:0:17:2") as E by (by vm_compute). rewrite <- E.
  apply (encoding_label_roundtrip c); [by vm_compute| |done].
  cbn. unfold usize_ok, USIZE_MAX. lia.
Defined.

(** Reading an audio operation is idempotent through its printed form: whatever text
    is read, the routing it stands for is printed as an operation that is read as the
    same routing, and only the passthrough has no operation. *)
Theorem audio_operation_canonical s :
  match operation_string (parse_audio_operation s) with
  | Some op => parse_audio_operation op = parse_audio_operation s /\ is_audio_operation op = true
  | None => parse_audio_operation s = Passthrough
  end.
Proof.
  destruct (parse_audio_operation_ok s) as [Hok Hne].
  destruct (operation_string (parse_audio_operation s)) as [op|] eqn:E.
  - split; [by apply parse_operation_string|]. by apply (operation_string_form _ _ E).
  - destruct (parse_audio_operation s) as [|[]|track ? ?|]; cbn in E; try done.
    by destruct (track =? 0).
Qed.
