(* ===== verification/Planner.v ===== *)
(** * The stage planner

    Models [crates/restream-domain/src/domain/stage.rs] (stage kinds and keys),
    [crates/restream-domain/src/runtime/graph.rs] (the graph under construction) and
    [crates/restream-domain/src/planner/] (the stages one output needs, the backend of
    a stage, and the four planners). *)

From Stdlib Require Import Ascii.
From S2P Require Import Prelude Media Text AudioRouting OutputSpec.

Open Scope Z_scope.

(** ** Stages *)

Inductive StageKind :=
| StSource
| StVideoPreset (preset : string) (output_codec : option string)
| StAudioRoute (operation : string) (upstream : StageKind)
| StCodecEdge (operation : string) (upstream : StageKind)
| StPreview (preset : string) (upstream : StageKind)
| StHlsSegmenter (upstream : StageKind)
| StHls
| StRecording.
#[global] Instance StageKind_eq_dec : EqDecision StageKind.
Proof. solve_decision. Defined.

Definition upstream (k : StageKind) : option StageKind :=
  match k with
  | StAudioRoute _ u | StCodecEdge _ u | StPreview _ u | StHlsSegmenter u => Some u
  | _ => None
  end.

Definition audio_operation (k : StageKind) : option string :=
  match k with StAudioRoute operation _ => Some operation | _ => None end.

Definition video_output_codec (k : StageKind) : option string :=
  match k with StVideoPreset _ output_codec => output_codec | _ => None end.

Definition graph_type (k : StageKind) : string :=
  match k with
  | StAudioRoute _ _ => "audio_filter"
  | StCodecEdge _ _ => "codec_edge"
  | StSource => "source"
  | StHls | StHlsSegmenter _ => "hls"
  | StRecording => "recording"
  | StVideoPreset _ _ => "transcoder"
  | StPreview _ _ => "preview"
  end.

(** [Display for StageKind] *)
Fixpoint stage_to_string (k : StageKind) : string :=
  match k with
  | StSource => "source"
  | StHls => "hls"
  | StHlsSegmenter StSource => "hls"
  | StHlsSegmenter u => "hls:from:" +:+ stage_to_string u
  | StRecording => "recording"
  | StVideoPreset preset (Some codec) => "video:" +:+ preset +:+ ":codec:" +:+ codec
  | StVideoPreset preset None => "video:" +:+ preset
  | StAudioRoute operation u => "audio:" +:+ operation +:+ ":from:" +:+ stage_to_string u
  | StCodecEdge operation u => operation +:+ ":from:" +:+ stage_to_string u
  | StPreview preset u => "preview:" +:+ preset +:+ ":from:" +:+ stage_to_string u
  end.

Record StageKey := mk_StageKey { sk_pipeline : string; sk_kind : StageKind }.
#[global] Instance StageKey_eq_dec : EqDecision StageKey.
Proof. solve_decision. Defined.

Inductive StageBackendKind :=
  BackendAudioRouter | BackendExternalFfmpeg | BackendHlsSegmenter | BackendRecording.
#[global] Instance StageBackendKind_eq_dec : EqDecision StageBackendKind.
Proof. solve_decision. Defined.

Definition is_lightweight_audio_route (r : AudioRouting) : bool :=
  match r with SelectTracks _ | Passthrough => true | _ => false end.

Definition select_backend (stage : StageKind) : StageBackendKind :=
  match stage with
  | StAudioRoute operation _ =>
      if is_lightweight_audio_route (parse_audio_operation operation)
      then BackendAudioRouter else BackendExternalFfmpeg
  | StHls | StHlsSegmenter _ => BackendHlsSegmenter
  | StRecording => BackendRecording
  | _ => BackendExternalFfmpeg
  end.

(** ** The graph *)

Inductive GraphRole :=
| RoleOutput (output_id : string)
| RoleHlsPreview
| RoleHlsOutput (output_id : string)
| RoleRecording
| RoleDiagnostic.

Record StagePlan := mk_StagePlan {
  sp_key : StageKey;
  sp_kind : StageKind;
  sp_input : option StageKey;
  sp_backend : StageBackendKind;
}.

Record StageEdge := mk_StageEdge { se_from : StageKey; se_to : StageKey }.

Record StageGraphPlan := mk_StageGraphPlan {
  sg_pipeline_id : string;
  sg_role : GraphRole;
  sg_terminal_stage : StageKey;
  sg_stages : list StagePlan;
  sg_edges : list StageEdge;
}.

Definition StageGraphPlan_new (pipeline_id : string) (role : GraphRole) (terminal : StageKey)
  : StageGraphPlan := mk_StageGraphPlan pipeline_id role terminal [] [].

Definition set_terminal (p : StageGraphPlan) (k : StageKey) : StageGraphPlan :=
  mk_StageGraphPlan (sg_pipeline_id p) (sg_role p) k (sg_stages p) (sg_edges p).
Definition set_role (p : StageGraphPlan) (r : GraphRole) : StageGraphPlan :=
  mk_StageGraphPlan (sg_pipeline_id p) r (sg_terminal_stage p) (sg_stages p) (sg_edges p).

(** The input [add_stage] gives a stage of each kind. *)
Definition stage_input (pipeline_id : string) (kind : StageKind) : option StageKey :=
  match kind with
  | StSource => None
  | StVideoPreset _ _ => Some (mk_StageKey pipeline_id StSource)
  | StAudioRoute _ u => Some (mk_StageKey pipeline_id u)
  | StCodecEdge _ u => Some (mk_StageKey pipeline_id u)
  | StPreview _ u => Some (mk_StageKey pipeline_id u)
  | StHlsSegmenter u => Some (mk_StageKey pipeline_id u)
  | StHls => Some (mk_StageKey pipeline_id StSource)
  | StRecording => Some (mk_StageKey pipeline_id StSource)
  end.

Definition add_stage (p : StageGraphPlan) (key : StageKey) (backend : StageBackendKind)
  : StageGraphPlan :=
  if existsb (fun s => bool_decide (sp_key s = key)) (sg_stages p) then p
  else
    let kind := sk_kind key in
    let input := stage_input (sg_pipeline_id p) kind in
    let edges := match input with
                 | Some input_key => sg_edges p ++ [mk_StageEdge input_key key]
                 | None => sg_edges p
                 end in
    mk_StageGraphPlan (sg_pipeline_id p) (sg_role p) (sg_terminal_stage p)
      (sg_stages p ++ [mk_StagePlan key kind input backend]) edges.

(** ** The stages of one output *)

Record EncodingStagePlan := mk_EncodingStagePlan {
  es_pipeline : string;
  es_source : StageKind;
  es_video_stage : option StageKind;
  es_audio_stage : option StageKind;
}.

Definition from_output_config (pipeline_id : string) (config : OutputConfig) : EncodingStagePlan :=
  let source := StSource in
  let video_stage :=
    match cfg_video config with
    | VideoPresetConfig preset codec =>
        Some (match codec with
              | OVAuto => StVideoPreset preset None
              | OVH264 => StVideoPreset preset (Some "h264")
              | OVHevc => StVideoPreset preset (Some "hevc")
              end)
    | VideoSource _ | VideoCustom => None
    end in
  let up := default source video_stage in
  let audio_stage := (fun op => StAudioRoute op up) <$> operation_string (cfg_audio config) in
  mk_EncodingStagePlan pipeline_id source video_stage audio_stage.

Definition es_video_key (e : EncodingStagePlan) : option StageKey :=
  mk_StageKey (es_pipeline e) <$> es_video_stage e.
Definition es_audio_key (e : EncodingStagePlan) : option StageKey :=
  mk_StageKey (es_pipeline e) <$> es_audio_stage e.

Definition audio_stage_from_upstream (e : EncodingStagePlan) (up : StageKind) : option StageKey :=
  (fun operation => mk_StageKey (es_pipeline e) (StAudioRoute operation up))
    <$> (es_audio_stage e ≫= audio_operation).

Definition video_terminal_kind (e : EncodingStagePlan) : StageKind :=
  default (es_source e) (es_video_stage e).

Definition terminal_kind (e : EncodingStagePlan) : StageKind :=
  match es_audio_stage e with
  | Some k => k
  | None => default (es_source e) (es_video_stage e)
  end.

Record OutputPath := mk_OutputPath {
  op_stage_plan : EncodingStagePlan;
  op_protocol : EgressProtocol;
  op_config : OutputConfig;
}.

Definition normalized_input_codec (ingest_video_codec : option string) : VideoCodecKind :=
  default CodecUnknown (from_codec_name <$> ingest_video_codec).

Section OutputPath.
Context `{UrlParser}.

Definition OutputPath_resolve (pipeline_id : string) (config : OutputConfig) (url : string)
  : OutputPath :=
  mk_OutputPath (from_output_config pipeline_id config) (protocol_from_url url) config.
End OutputPath.

Definition path_capabilities (o : OutputPath) : ProtocolCapabilities :=
  mk_ProtocolCapabilities (op_protocol o)
    (if protocol_is_rtmp (op_protocol o) then Some (rtmp_mode (op_config o)) else None).

Definition resolved_config (o : OutputPath) (input_codec : VideoCodecKind)
  : ResolvedOutputConfig + OutputConfigError :=
  resolve_for_input_codec (op_config o) (path_capabilities o) input_codec.

Definition video_stage (o : OutputPath) (ingest : option string) : option StageKey :=
  let input_codec := normalized_input_codec ingest in
  match resolved_config o input_codec with
  | inl (mk_ResolvedOutputConfig (ResolvedPreset preset codec) _ _) =>
      Some (mk_StageKey (es_pipeline (op_stage_plan o))
              (match as_stage_codec codec with
               | Some codec => StVideoPreset preset (Some codec)
               | None => StVideoPreset preset None
               end))
  | _ => es_video_key (op_stage_plan o)
  end.

Definition codec_edge_upstream_stage_kind (o : OutputPath) (ingest : option string) : StageKind :=
  match video_stage o ingest with
  | Some stage => sk_kind stage
  | None => video_terminal_kind (op_stage_plan o)
  end.

Definition needs_h264_codec_edge (o : OutputPath) (ingest : option string) : bool :=
  let input_codec := normalized_input_codec ingest in
  is_hevc input_codec &&
  match resolved_config o input_codec with
  | inl (mk_ResolvedOutputConfig (ResolvedSource CodecH264) _ _) => true
  | _ => false
  end.

Definition codec_edge_stage (o : OutputPath) (ingest : option string) : option StageKey :=
  if needs_h264_codec_edge o ingest
  then Some (mk_StageKey (es_pipeline (op_stage_plan o))
               (StCodecEdge "hevc_to_h264" (codec_edge_upstream_stage_kind o ingest)))
  else None.

Definition routed_audio_stage (o : OutputPath) (ingest : option string) : option StageKey :=
  match codec_edge_stage o ingest with
  | Some codec_edge => audio_stage_from_upstream (op_stage_plan o) (sk_kind codec_edge)
  | None =>
      match video_stage o ingest with
      | Some v => audio_stage_from_upstream (op_stage_plan o) (sk_kind v)
      | None => es_audio_key (op_stage_plan o)
      end
  end.

Definition terminal_stage_kind (o : OutputPath) (ingest : option string) : StageKind :=
  match routed_audio_stage o ingest with
  | Some s => sk_kind s
  | None =>
      match codec_edge_stage o ingest with
      | Some s => sk_kind s
      | None =>
          match video_stage o ingest with
          | Some s => sk_kind s
          | None => terminal_kind (op_stage_plan o)
          end
      end
  end.

Definition terminal_stage_key (o : OutputPath) (ingest : option string) : StageKey :=
  mk_StageKey (es_pipeline (op_stage_plan o)) (terminal_stage_kind o ingest).

Definition needed_stage_keys (o : OutputPath) (ingest : option string) : list StageKey :=
  option_list (video_stage o ingest) ++ option_list (codec_edge_stage o ingest)
  ++ option_list (routed_audio_stage o ingest).

(** ** The planners *)

Record PlannedOutput := mk_PlannedOutput {
  po_id : string;
  po_config : OutputConfig;
  po_url : string;
}.

Definition is_hevc_preview_codec (codec : string) : bool :=
  eq_ignore_ascii_case codec "hevc" || eq_ignore_ascii_case codec "h265".

Definition hevc_source_bridge_kind : StageKind := StCodecEdge "hevc_to_h264" StSource.

(** [plan.add_stage(key, select_backend(&key.kind))] *)
Definition add_selected (p : StageGraphPlan) (key : StageKey) : StageGraphPlan :=
  add_stage p key (select_backend (sk_kind key)).

Section Planners.
Context `{UrlParser}.

Definition output_path (pipeline_id : string) (o : PlannedOutput) : OutputPath :=
  OutputPath_resolve pipeline_id (po_config o) (po_url o).

(** The [for] loop over the outputs: the first one sets the terminal stage, each
    adds the stages it needs. *)
Fixpoint plan_outputs (pipeline_id : string) (ingest : option string) (index : nat)
    (outputs : list PlannedOutput) (p : StageGraphPlan) : StageGraphPlan :=
  match outputs with
  | [] => p
  | o :: rest =>
      let path := output_path pipeline_id o in
      let p1 := if (index =? 0)%nat then set_terminal p (terminal_stage_key path ingest) else p in
      let p2 := fold_left add_selected (needed_stage_keys path ingest) p1 in
      plan_outputs pipeline_id ingest (S index) rest p2
  end.

Definition plan_pipeline_graph (pipeline_id : string) (ingest : option string)
    (outputs : list PlannedOutput) (hls_preview_active : bool) : StageGraphPlan :=
  let source := mk_StageKey pipeline_id StSource in
  let output_id := match outputs with o :: _ => po_id o | [] => "" end in
  let p0 := StageGraphPlan_new pipeline_id (RoleOutput output_id) source in
  let p1 := add_stage p0 source BackendAudioRouter in
  let p2 := plan_outputs pipeline_id ingest 0 outputs p1 in
  match ingest with
  | Some codec =>
      if hls_preview_active && is_hevc_preview_codec codec then
        let bridge_key := mk_StageKey pipeline_id hevc_source_bridge_kind in
        let p3 := add_selected p2 bridge_key in
        match outputs with [] => set_terminal p3 bridge_key | _ => p3 end
      else p2
  | None => p2
  end.

Definition plan_hls_output_graph (pipeline_id : string) (ingest : option string)
    (output : PlannedOutput) : StageGraphPlan :=
  let p := plan_pipeline_graph pipeline_id ingest [output] false in
  let hls_kind := StHlsSegmenter (sk_kind (sg_terminal_stage p)) in
  let hls_key := mk_StageKey pipeline_id hls_kind in
  let p1 := add_stage p hls_key (select_backend hls_kind) in
  set_role (set_terminal p1 hls_key) (RoleHlsOutput (po_id output)).

Definition plan_hls_preview_graph (pipeline_id : string) (ingest : option string)
  : option StageGraphPlan :=
  match ingest with
  | None => None
  | Some codec =>
      let source_kind := StSource in
      let media_kind := if is_hevc_preview_codec codec then hevc_source_bridge_kind else source_kind in
      let terminal_kind := StHlsSegmenter media_kind in
      let terminal := mk_StageKey pipeline_id terminal_kind in
      let p0 := StageGraphPlan_new pipeline_id RoleHlsPreview terminal in
      let p1 := add_stage p0 (mk_StageKey pipeline_id source_kind) BackendAudioRouter in
      let p2 := if is_hevc_preview_codec codec
                then add_selected p1 (mk_StageKey pipeline_id media_kind) else p1 in
      Some (add_stage p2 (mk_StageKey pipeline_id terminal_kind) (select_backend terminal_kind))
  end.

Definition plan_recording_graph (pipeline_id : string) : StageGraphPlan :=
  let recording_key := mk_StageKey pipeline_id StRecording in
  let p0 := StageGraphPlan_new pipeline_id RoleRecording recording_key in
  let p1 := add_stage p0 (mk_StageKey pipeline_id StSource) BackendAudioRouter in
  add_stage p1 recording_key (select_backend StRecording).

End Planners.

(** ** Well-formed graphs *)

Definition planned_backend (k : StageKind) : StageBackendKind :=
  match k with StSource => BackendAudioRouter | _ => select_backend k end.

Definition graph_keys (p : StageGraphPlan) : list StageKey := map sp_key (sg_stages p).

(** The stages in the order they were added: no key twice, every stage of the
    pipeline, with the input and the backend its kind asks for, and every input among
    the stages before it (so following inputs always ends at a stage without one). *)
Inductive chain (pid : string) : list StagePlan -> Prop :=
| chain_nil : chain pid []
| chain_snoc l s :
    chain pid l -> sp_key s ∉ map sp_key l ->
    sk_pipeline (sp_key s) = pid -> sp_kind s = sk_kind (sp_key s) ->
    sp_input s = stage_input pid (sp_kind s) -> sp_backend s = planned_backend (sp_kind s) ->
    (forall k, sp_input s = Some k -> k ∈ map sp_key l) ->
    chain pid (l ++ [s]).

Definition edge_of (s : StagePlan) : option StageEdge :=
  (fun k => mk_StageEdge k (sp_key s)) <$> sp_input s.

Record graph_base (pid : string) (p : StageGraphPlan) : Prop := {
  gb_pipeline : sg_pipeline_id p = pid;
  gb_chain : chain pid (sg_stages p);
  gb_edges : sg_edges p = omap edge_of (sg_stages p);
}.

Record graph_ok (pid : string) (p : StageGraphPlan) : Prop := {
  go_base : graph_base pid p;
  go_terminal : sg_terminal_stage p ∈ graph_keys p;
}.

Lemma existsb_key l key :
  existsb (fun s => bool_decide (sp_key s = key)) l = true <-> key ∈ map sp_key l.
Proof.
  rewrite existsb_exists, list_elem_of_fmap. split.
  - intros (s & Hs & E). exists s. rewrite list_elem_of_In. by case_bool_decide.
  - intros (s & -> & Hs). exists s. rewrite bool_decide_true by done. by rewrite <- list_elem_of_In.
Qed.

Lemma add_stage_keys p key b k : k ∈ graph_keys (add_stage p key b) <-> k ∈ graph_keys p \/ k = key.
Proof.
  unfold add_stage, graph_keys. destruct (existsb _ _) eqn:E.
  - apply existsb_key in E. split; [by left|]. by intros [?| ->].
  - cbn. rewrite map_app, elem_of_app. cbn. by rewrite list_elem_of_singleton.
Qed.

Lemma add_stage_base pid p key :
  graph_base pid p -> sk_pipeline key = pid ->
  (forall i, stage_input pid (sk_kind key) = Some i -> i ∈ graph_keys p) ->
  graph_base pid (add_stage p key (planned_backend (sk_kind key))).
Proof.
  intros [Hp Hc He] Hk Hi. unfold add_stage. destruct (existsb _ _) eqn:E; [done|].
  rewrite Hp. split; cbn; [done| |].
  - apply chain_snoc; cbn; try done. rewrite <- existsb_key. by rewrite E.
  - rewrite omap_app, <- He. cbn. destruct (stage_input pid (sk_kind key)); [done|].
    cbn. by rewrite app_nil_r.
Qed.

Lemma set_terminal_base pid p k : graph_base pid p -> graph_base pid (set_terminal p k).
Proof. by intros [? ? ?]. Qed.

Lemma set_role_base pid p r : graph_base pid p -> graph_base pid (set_role p r).
Proof. by intros [? ? ?]. Qed.

Lemma planned_selected k : k <> StSource -> planned_backend k = select_backend k.
Proof. by destruct k. Qed.

(** A list of keys that can be added one after the other to a graph holding [seen]. *)
Fixpoint addable (pid : string) (seen l : list StageKey) : Prop :=
  match l with
  | [] => True
  | k :: l' =>
      sk_pipeline k = pid /\ sk_kind k <> StSource
      /\ (forall i, stage_input pid (sk_kind k) = Some i -> i ∈ seen)
      /\ addable pid (k :: seen) l'
  end.

Lemma addable_mono pid seen seen' l : seen ⊆ seen' -> addable pid seen l -> addable pid seen' l.
Proof.
  revert seen seen'. induction l as [|k l IH]; intros seen seen' Hs; cbn; [done|].
  intros (? & ? & Hi & Hl). split_and!; [done..|by eauto|]. eapply IH; [|done]. set_solver.
Qed.

Lemma add_selected_all pid l p :
  graph_base pid p -> addable pid (graph_keys p) l ->
  graph_base pid (fold_left add_selected l p)
  /\ sg_terminal_stage (fold_left add_selected l p) = sg_terminal_stage p
  /\ forall k, k ∈ graph_keys (fold_left add_selected l p) <-> k ∈ graph_keys p \/ k ∈ l.
Proof.
  revert p. induction l as [|k l IH]; intros p Hp Ha; cbn [fold_left].
  { split_and!; [done|done|]. intros k. set_solver. }
  destruct Ha as (Hk & Hs & Hi & Ha). unfold add_selected at 2 4 6.
  rewrite <- planned_selected by done.
  pose proof (add_stage_base pid p k Hp Hk Hi) as Hp'.
  destruct (IH _ Hp') as (HB & HT & HK).
  { eapply addable_mono; [|done]. intros x. rewrite add_stage_keys. set_solver. }
  split_and!; [done| |].
  - rewrite HT. unfold add_stage. by destruct (existsb _ _).
  - intros x. rewrite HK, add_stage_keys. set_solver.
Qed.

(** ** The stages one output needs *)

Definition path_ok (pid : string) (o : OutputPath) : Prop :=
  op_stage_plan o = from_output_config pid (op_config o).

Section Paths.
Context (pid : string) (o : OutputPath) (Hok : path_ok pid o) (ingest : option string).

Lemma path_plan : op_stage_plan o = from_output_config pid (op_config o).
Proof. exact Hok. Qed.

Lemma path_pipeline : es_pipeline (op_stage_plan o) = pid.
Proof. by rewrite path_plan. Qed.

Lemma video_stage_cases :
  video_stage o ingest = None /\ es_video_stage (op_stage_plan o) = None
  \/ exists preset codec, video_stage o ingest = Some (mk_StageKey pid (StVideoPreset preset codec)).
Proof.
  unfold video_stage, es_video_key. rewrite path_pipeline.
  assert (forall x, es_video_stage (op_stage_plan o) = Some x ->
            exists preset codec, x = StVideoPreset preset codec) as Hes.
  { rewrite path_plan. cbn. intros x. destruct (cfg_video (op_config o)) as [|p []|]; cbn; naive_solver. }
  destruct (resolved_config o _) as [[[] ? ?]|] eqn:E;
    try (destruct (es_video_stage (op_stage_plan o)) as [x|] eqn:Ev;
         [destruct (Hes _ eq_refl) as (? & ? & ->); right; by do 2 eexists|by left]).
  right. by destruct (as_stage_codec codec); do 2 eexists.
Qed.

Lemma codec_edge_upstream :
  mk_StageKey pid (codec_edge_upstream_stage_kind o ingest)
    ∈ mk_StageKey pid StSource :: option_list (video_stage o ingest).
Proof.
  unfold codec_edge_upstream_stage_kind, video_terminal_kind.
  destruct video_stage_cases as [[-> ->]|(? & ? & ->)].
  - rewrite path_plan. cbn. set_solver.
  - cbn. set_solver.
Qed.

Lemma codec_edge_cases :
  codec_edge_stage o ingest = None
  \/ codec_edge_stage o ingest
     = Some (mk_StageKey pid (StCodecEdge "hevc_to_h264" (codec_edge_upstream_stage_kind o ingest))).
Proof. unfold codec_edge_stage. rewrite path_pipeline. case_match; [by right|by left]. Qed.

Lemma routed_audio_cases :
  routed_audio_stage o ingest = None /\ es_audio_stage (op_stage_plan o) = None
  \/ exists op up, routed_audio_stage o ingest = Some (mk_StageKey pid (StAudioRoute op up))
     /\ mk_StageKey pid up ∈ mk_StageKey pid StSource
          :: option_list (video_stage o ingest) ++ option_list (codec_edge_stage o ingest).
Proof.
  assert (forall up, audio_stage_from_upstream (op_stage_plan o) up = None
                     /\ es_audio_stage (op_stage_plan o) = None
     \/ exists op, audio_stage_from_upstream (op_stage_plan o) up
          = Some (mk_StageKey pid (StAudioRoute op up))) as Ha.
  { intros up. unfold audio_stage_from_upstream. rewrite path_plan. cbn.
    destruct (operation_string _); [right; eexists; reflexivity|by left]. }
  unfold routed_audio_stage. destruct codec_edge_cases as [Ec|Ec]; rewrite Ec.
  - destruct video_stage_cases as [[Ev En]|(preset & codec & Ev)]; rewrite Ev.
    + unfold es_audio_key. rewrite path_pipeline. revert En. rewrite path_plan. cbn. intros ->.
      destruct (operation_string _); cbn; [right; do 2 eexists; split; [done|set_solver]|by left].
    + destruct (Ha (StVideoPreset preset codec)) as [?|(op & E)]; [by left|].
      right. do 2 eexists. split; [done|]. cbn. set_solver.
  - destruct (Ha (StCodecEdge "hevc_to_h264" (codec_edge_upstream_stage_kind o ingest)))
      as [?|(op & E)]; [by left|].
    right. do 2 eexists. split; [done|]. cbn. set_solver.
Qed.

Lemma needed_addable : addable pid [mk_StageKey pid StSource] (needed_stage_keys o ingest).
Proof.
  unfold needed_stage_keys. pose proof codec_edge_upstream as Hu.
  pose proof routed_audio_cases as Hr.
  destruct video_stage_cases as [[Ev _]|(preset & codec & Ev)]; rewrite Ev in *;
  destruct codec_edge_cases as [Ec|Ec]; rewrite Ec in *;
  destruct Hr as [[Er _]|(op & up & Er & Hup)]; rewrite Er; cbn in *;
    (split_and?; try done; intros i Hi; simplify_eq/=; rewrite ?elem_of_cons in *; tauto).
Qed.

Lemma terminal_needed :
  terminal_stage_key o ingest ∈ mk_StageKey pid StSource :: needed_stage_keys o ingest.
Proof.
  unfold terminal_stage_key, terminal_stage_kind, needed_stage_keys. rewrite path_pipeline.
  destruct routed_audio_cases as [[-> Ea]|(op & up & -> & _)]; [|cbn; set_solver].
  destruct codec_edge_cases as [-> | ->]; [|cbn; set_solver].
  destruct video_stage_cases as [[-> Ev]|(preset & codec & ->)]; [|cbn; set_solver].
  unfold terminal_kind. rewrite Ea, Ev, path_plan. cbn. set_solver.
Qed.

End Paths.

(** ** The planners *)

Section PlannerLemmas.
Context `{UrlParser} (pid : string) (ingest : option string).

Definition source_key : StageKey := mk_StageKey pid StSource.

Lemma output_path_ok o : path_ok pid (output_path pid o).
Proof. done. Qed.

Lemma source_only p :
  graph_base pid p -> sg_stages p = [] ->
  graph_base pid (add_stage p source_key BackendAudioRouter)
  /\ graph_keys (add_stage p source_key BackendAudioRouter) = [source_key]
  /\ sg_terminal_stage (add_stage p source_key BackendAudioRouter) = sg_terminal_stage p.
Proof.
  intros Hp Hn. split; [apply (add_stage_base pid p source_key Hp); cbn; [done|by intros]|].
  unfold add_stage, graph_keys. by rewrite Hn.
Qed.

Lemma new_base role t : graph_base pid (StageGraphPlan_new pid role t).
Proof. split; [done|constructor|done]. Qed.

Lemma plan_outputs_spec outputs i p :
  graph_base pid p -> source_key ∈ graph_keys p ->
  let p' := plan_outputs pid ingest i outputs p in
  graph_base pid p'
  /\ (forall k, k ∈ graph_keys p' <->
        k ∈ graph_keys p
        \/ exists o, o ∈ outputs /\ k ∈ needed_stage_keys (output_path pid o) ingest)
  /\ sg_terminal_stage p'
     = match i, outputs with
       | O, o :: _ => terminal_stage_key (output_path pid o) ingest
       | _, _ => sg_terminal_stage p
       end.
Proof.
  revert i p. induction outputs as [|o outputs IH]; intros i p Hp Hs; cbn [plan_outputs].
  { split_and!; [done| |by destruct i]. intros k. set_solver. }
  set (p1 := if (i =? 0)%nat then _ else _).
  assert (graph_base pid p1 /\ graph_keys p1 = graph_keys p
          /\ sg_terminal_stage p1 = match i with O => terminal_stage_key (output_path pid o) ingest
                                    | _ => sg_terminal_stage p end) as (H1 & K1 & T1).
  { subst p1. destruct i; cbn; [|done]. split; [by apply set_terminal_base|done]. }
  destruct (add_selected_all pid (needed_stage_keys (output_path pid o) ingest) p1 H1)
    as (H2 & T2 & K2).
  { eapply addable_mono; [|apply needed_addable, output_path_ok]. rewrite K1. set_solver. }
  destruct (IH (S i) _ H2) as (H3 & K3 & T3); [apply K2; left; by rewrite K1|].
  split_and!; [done| |].
  - intros k. rewrite K3, K2, K1. setoid_rewrite elem_of_cons. naive_solver.
  - rewrite T3, T2, T1. by destruct i.
Qed.

Lemma bridge_input p : source_key ∈ graph_keys p ->
  forall i, stage_input pid hevc_source_bridge_kind = Some i -> i ∈ graph_keys p.
Proof. intros Hs i [= <-]. done. Qed.

Definition wants_bridge (hls_preview_active : bool) : bool :=
  match ingest with
  | Some codec => hls_preview_active && is_hevc_preview_codec codec
  | None => false
  end.
Definition bridge_key : StageKey := mk_StageKey pid hevc_source_bridge_kind.

(** The pipeline graph: well formed, and made of the source, the stages some output
    needs, and the preview's bridge when the preview wants it. *)
Lemma pipeline_graph_spec outputs preview :
  let p := plan_pipeline_graph pid ingest outputs preview in
  graph_ok pid p
  /\ (forall k, k ∈ graph_keys p <->
        k = source_key
        \/ (exists o, o ∈ outputs /\ k ∈ needed_stage_keys (output_path pid o) ingest)
        \/ wants_bridge preview = true /\ k = bridge_key)
  /\ sg_terminal_stage p
     = match outputs with
       | o :: _ => terminal_stage_key (output_path pid o) ingest
       | [] => if wants_bridge preview then bridge_key else source_key
       end.
Proof.
  unfold plan_pipeline_graph. fold source_key. set (role := RoleOutput _).
  destruct (source_only _ (new_base role source_key) eq_refl) as (H1 & K1 & T1).
  set (p1 := add_stage _ _ _) in *.
  destruct (plan_outputs_spec outputs 0 p1 H1) as (H2 & K2 & T2); [rewrite K1; set_solver|].
  cbv zeta in *. set (p2 := plan_outputs _ _ _ _ _) in *.
  assert (source_key ∈ graph_keys p2) as Hsrc by (apply K2; left; rewrite K1; set_solver).
  assert (sg_terminal_stage p2 ∈ graph_keys p2) as Hterm.
  { rewrite T2. destruct outputs as [|o outputs]; [by rewrite T1|].
    pose proof (terminal_needed pid _ (output_path_ok o) ingest) as Hn. apply K2.
    apply elem_of_cons in Hn as [->|Hn]; [left; rewrite K1; set_solver|right].
    exists o. split; [set_solver|done]. }
  assert (forall k, k ∈ graph_keys p2 <-> k = source_key
            \/ exists o, o ∈ outputs /\ k ∈ needed_stage_keys (output_path pid o) ingest) as K2'.
  { intros k. rewrite K2, K1, list_elem_of_singleton. done. }
  unfold wants_bridge. destruct ingest as [codec|].
  2: { split_and!; [by split|intros k; rewrite K2'; naive_solver|]. rewrite T2. by destruct outputs. }
  destruct (preview && is_hevc_preview_codec codec) eqn:Ew.
  2: { split_and!; [by split|intros k; rewrite K2'; naive_solver|]. rewrite T2. by destruct outputs. }
  unfold add_selected. cbn [sk_kind].
  rewrite <- (planned_selected hevc_source_bridge_kind) by done.
  pose proof (add_stage_base pid p2 bridge_key H2 eq_refl (bridge_input p2 Hsrc)) as H3.
  pose proof (add_stage_keys p2 bridge_key (planned_backend hevc_source_bridge_kind)) as K3.
  fold bridge_key. cbn [sk_kind bridge_key] in H3. set (p3 := add_stage p2 _ _) in *.
  assert (sg_terminal_stage p3 = sg_terminal_stage p2) as T3.
  { subst p3. unfold add_stage. by destruct (existsb _ _). }
  destruct outputs as [|o outputs].
  - split_and!; [split; [by apply set_terminal_base|cbn; apply K3; by right]| |done].
    intros k. change (graph_keys (set_terminal p3 bridge_key)) with (graph_keys p3).
    rewrite K3, K2'. naive_solver.
  - split_and!; [split; [done|rewrite T3; apply K3; by left]| |by rewrite T3, T2].
    intros k. rewrite K3, K2'. naive_solver.
Qed.

Lemma hls_output_graph_spec o :
  let p := plan_hls_output_graph pid ingest o in
  graph_ok pid p
  /\ sg_terminal_stage p
     = mk_StageKey pid (StHlsSegmenter (terminal_stage_kind (output_path pid o) ingest)).
Proof.
  destruct (pipeline_graph_spec [o] false) as ([HB HT] & HK & Ht). cbv zeta in *.
  unfold plan_hls_output_graph. set (p := plan_pipeline_graph _ _ _ _) in *.
  rewrite Ht in *. cbn [sk_kind terminal_stage_key].
  set (kind := StHlsSegmenter _). rewrite <- (planned_selected kind) by done.
  split; [|done]. split; cbn [sg_terminal_stage set_role set_terminal].
  - apply set_role_base, set_terminal_base.
    apply (add_stage_base pid p (mk_StageKey pid kind) HB eq_refl). intros i [= <-].
    revert HT. unfold terminal_stage_key. by rewrite (path_pipeline pid _ (output_path_ok o)).
  - change (graph_keys _) with (graph_keys (add_stage p (mk_StageKey pid kind) (planned_backend kind))).
    apply add_stage_keys. by right.
Qed.

Lemma hls_preview_graph_spec codec :
  ingest = Some codec ->
  exists p, plan_hls_preview_graph pid ingest = Some p /\ graph_ok pid p
  /\ sg_terminal_stage p
     = mk_StageKey pid (StHlsSegmenter
         (if is_hevc_preview_codec codec then hevc_source_bridge_kind else StSource)).
Proof.
  intros ->. unfold plan_hls_preview_graph. eexists. split; [done|].
  set (kind := StHlsSegmenter _). set (t := mk_StageKey pid kind).
  destruct (source_only _ (new_base RoleHlsPreview t) eq_refl) as (H1 & K1 & T1).
  fold source_key. set (p1 := add_stage _ source_key _) in *.
  rewrite <- (planned_selected kind) by done.
  assert (source_key ∈ graph_keys p1) as Hs by (rewrite K1; set_solver).
  set (p2 := if is_hevc_preview_codec codec then _ else _).
  assert (graph_base pid p2 /\ sg_terminal_stage p2 = t
          /\ forall i, stage_input pid kind = Some i -> i ∈ graph_keys p2) as (H2 & T2 & I2).
  { subst p2 kind. destruct (is_hevc_preview_codec codec).
    - unfold add_selected. cbn [sk_kind]. rewrite <- (planned_selected hevc_source_bridge_kind) by done.
      split_and!; [by apply (add_stage_base pid p1 bridge_key H1 eq_refl (bridge_input p1 Hs))| |].
      + unfold add_stage. by destruct (existsb _ _).
      + intros i [= <-]. apply add_stage_keys. by right.
    - split_and!; [done|done|]. by intros i [= <-]. }
  split.
  - split; [by apply (add_stage_base pid p2 t)|].
    apply add_stage_keys. right. unfold add_stage. by destruct (existsb _ _).
  - unfold add_stage. by destruct (existsb _ _).
Qed.

Lemma recording_graph_spec : graph_ok pid (plan_recording_graph pid).
Proof.
  unfold plan_recording_graph. set (k := mk_StageKey pid StRecording).
  destruct (source_only _ (new_base RoleRecording k) eq_refl) as (H1 & K1 & T1).
  fold source_key. set (p1 := add_stage _ source_key _) in *.
  rewrite <- (planned_selected StRecording) by done. split.
  - apply (add_stage_base pid p1 k H1 eq_refl). intros i [= <-].
    apply list_elem_of_In. rewrite K1. by left.
  - apply add_stage_keys. right. unfold add_stage. by destruct (existsb _ _).
Qed.

End PlannerLemmas.

(** ** The codec an output gets *)

(** The codec of the video a stage puts out, given the ingest's: a preset encodes to
    the codec it names (or keeps its input's), the bridge and the preview to H.264, and
    an audio route or a segmenter passes the video through. *)
Fixpoint delivered (ingest : VideoCodecKind) (k : StageKind) : VideoCodecKind :=
  match k with
  | StSource | StHls | StRecording => ingest
  | StVideoPreset _ (Some codec) => from_codec_name codec
  | StVideoPreset _ None => ingest
  | StAudioRoute _ u | StHlsSegmenter u => delivered ingest u
  | StCodecEdge _ _ | StPreview _ _ => CodecH264
  end.

(** The audio stage does not change the video. *)
Lemma terminal_delivered pid o ingest : path_ok pid o ->
  delivered (normalized_input_codec ingest) (terminal_stage_kind o ingest)
  = match codec_edge_stage o ingest with
    | Some _ => CodecH264
    | None => delivered (normalized_input_codec ingest)
                (default StSource (sk_kind <$> video_stage o ingest))
    end.
Proof.
  intros Hok. unfold terminal_stage_kind, routed_audio_stage.
  destruct (codec_edge_cases pid o Hok ingest) as [Ec|Ec]; rewrite Ec.
  - destruct (video_stage_cases pid o Hok ingest) as [[Ev En]|(preset & codec & Ev)]; rewrite Ev.
    + unfold es_audio_key, terminal_kind. revert En. rewrite (path_plan pid o Hok). cbn. intros ->.
      by destruct (operation_string _).
    + unfold audio_stage_from_upstream. by destruct (_ ≫= _).
  - unfold audio_stage_from_upstream. by destruct (_ ≫= _).
Qed.

Lemma delivered_supported pid o ingest :
  path_ok pid o -> normalized_input_codec ingest <> CodecUnknown ->
  op_protocol o <> ProtoUnknown ->
  validate_capabilities (op_config o) (path_capabilities o) = None ->
  supports (path_capabilities o)
    (delivered (normalized_input_codec ingest) (terminal_stage_kind o ingest)) = true.
Proof.
  intros Hok Hi Hp Hv. rewrite (terminal_delivered pid) by done.
  destruct o as [plan proto [video audio pcfg]]. unfold path_ok in Hok. cbn in *.
  unfold path_capabilities, codec_edge_stage, needs_h264_codec_edge, video_stage, resolved_config,
    resolve_for_input_codec, validate_capabilities, path_capabilities, rtmp_mode in *. cbn in *.
  subst plan. destruct (normalized_input_codec ingest); [| |done];
    destruct proto; try done;
    destruct pcfg as [|[]]; destruct video as [[]|p []|]; cbn in *; done.
Qed.

(** ** Following the inputs *)

(** A stage the source's media reaches: the source itself, or a stage of the plan
    whose input is such a stage. *)
Inductive fed (l : list StagePlan) (pid : string) : StageKey -> Prop :=
| fed_source : fed l pid (mk_StageKey pid StSource)
| fed_input s i : s ∈ l -> sp_input s = Some i -> fed l pid i -> fed l pid (sp_key s).

Lemma fed_weaken l l' pid k : l ⊆ l' -> fed l pid k -> fed l' pid k.
Proof. intros Hl. induction 1; [constructor|]. econstructor; eauto. Qed.

Lemma chain_fed pid l : chain pid l -> Forall (fed l pid) (map sp_key l).
Proof.
  induction 1 as [|l s Hc IH Hk Hp Hkind Hi Hb Hin]; [constructor|].
  assert (Forall (fed (l ++ [s]) pid) (map sp_key l)) as IH'.
  { eapply Forall_impl; [exact IH|]. intros k. apply fed_weaken. set_solver. }
  rewrite map_app. apply Forall_app. split; [exact IH'|]. apply Forall_singleton.
  destruct (sp_input s) as [i|] eqn:Ei.
  - apply (fed_input _ _ s i); [set_solver|done|].
    rewrite Forall_forall in IH'. by apply IH', Hin.
  - rewrite Hkind in Hi. destruct (sp_key s) as [kp kk]. cbn in *. subst kp.
    destruct kk; cbn in Hi; try done. constructor.
Qed.

Lemma chain_nodup pid l : chain pid l -> NoDup (map sp_key l).
Proof.
  induction 1 as [|l s Hc IH Hk Hp Hkind Hi Hb Hin]; [constructor|].
  rewrite map_app. apply NoDup_app. split_and!; [done| |apply NoDup_singleton].
  intros k Hkl ->%list_elem_of_singleton. done.
Qed.

(** URLs for the examples: a scheme, a separator and the rest. *)
Definition scheme_only_urls : UrlParser := {|
  Url := string * string;
  url_parse s := match split_once ":"%char s with
                 | Some (scheme, rest) =>
                     (fun r => (scheme, r)) <$> strip_prefix "//" rest
                 | None => None
                 end;
  url_scheme := fst;
  url_as_str u := fst u +:+ "://" +:+ snd u;
  url_host_str u := match split_char "/"%char (snd u) with h :: _ => Some h | [] => None end;
  url_path_segments u := Some (tail (split_char "/"%char (snd u)));
|}.

(** ** Theorems *)

Section PlannerTheorems.
Context `{UrlParser} (pid : string) (ingest : option string).

(** C37: Every planner returns a well-formed graph, whatever the outputs, their URLs and
    the ingest codec: no stage is planned twice, every stage has the input and the
    backend of its kind, the edges are exactly the inputs, every input is planned
    before the stage that reads it, and the terminal stage is in the graph.  So in each
    the source's media reaches the terminal stage. *)
Theorem planned_graphs_well_formed outputs preview output :
  let ok p := graph_ok pid p /\ NoDup (graph_keys p)
              /\ fed (sg_stages p) pid (sg_terminal_stage p) in
  ok (plan_pipeline_graph pid ingest outputs preview)
  /\ ok (plan_hls_output_graph pid ingest output)
  /\ match plan_hls_preview_graph pid ingest with Some p => ok p | None => ingest = None end
  /\ ok (plan_recording_graph pid).
Proof.
  intros ok. assert (forall p, graph_ok pid p -> ok p) as Hok.
  { intros p Hp. pose proof (gb_chain _ _ (go_base _ _ Hp)) as Hc. split_and!; [done| |].
    - by apply (chain_nodup pid).
    - pose proof (chain_fed _ _ Hc) as Hf. rewrite Forall_forall in Hf. apply Hf, Hp. }
  split_and!; [apply Hok, pipeline_graph_spec|apply Hok, hls_output_graph_spec| |
    apply Hok, recording_graph_spec].
  destruct ingest as [codec|]; [|done].
  destruct (hls_preview_graph_spec pid (Some codec) codec eq_refl) as (p & -> & Hp & _). by apply Hok.
Qed.

(** The pipeline graph holds the source, the stages its outputs need and nothing else
    (the preview's bridge apart, when an HEVC ingest is previewed), so outputs that
    need the same stage share it; its terminal stage is the first output's. *)
Theorem pipeline_graph_is_what_outputs_need outputs preview k :
  let p := plan_pipeline_graph pid ingest outputs preview in
  (k ∈ graph_keys p <->
     k = mk_StageKey pid StSource
     \/ (exists o, o ∈ outputs /\ k ∈ needed_stage_keys (output_path pid o) ingest)
     \/ wants_bridge ingest preview = true /\ k = mk_StageKey pid hevc_source_bridge_kind)
  /\ sg_terminal_stage p
     = match outputs with
       | o :: _ => terminal_stage_key (output_path pid o) ingest
       | [] => mk_StageKey pid (if wants_bridge ingest preview then hevc_source_bridge_kind else StSource)
       end.
Proof.
  destruct (pipeline_graph_spec pid ingest outputs preview) as (_ & HK & HT).
  split; [apply HK|]. rewrite HT. destruct outputs; [|done]. by destruct (wants_bridge _ _).
Qed.

(** An output whose configuration its protocol accepts is planned so that the video it
    gets is in a codec the protocol carries, for every ingest of a known codec: the
    codec at the end of the planned chain of stages is one the protocol supports. *)
Theorem validated_output_gets_supported_codec o codec :
  let cap := from_output (po_url o) (po_config o) in
  from_codec_name codec <> CodecUnknown ->
  cap_protocol cap <> ProtoUnknown -> validate_capabilities (po_config o) cap = None ->
  supports cap (delivered (from_codec_name codec)
                  (terminal_stage_kind (output_path pid o) (Some codec))) = true.
Proof. intros cap Hc Hp Hv. by apply (delivered_supported pid (output_path pid o) (Some codec)). Qed.

End PlannerTheorems.

Lemma validated_output_gets_supported_codec_witness :
  let o := mk_PlannedOutput "out" (with_audio OutputConfig_source (Downmix 1)) "rtmp://host/live" in
  let k := terminal_stage_kind (@output_path scheme_only_urls "pipe" o) (Some "HEVC"%string) in
  k = StAudioRoute "downmix:1" (StCodecEdge "hevc_to_h264" StSource)
  /\ supports (@from_output scheme_only_urls (po_url o) (po_config o)) (delivered CodecHevc k) = true.
Proof.
  intros o k. split; [by vm_compute|].
  change CodecHevc with (from_codec_name "HEVC").
  apply (@validated_output_gets_supported_codec scheme_only_urls "pipe" o "HEVC");
    by vm_compute.
Defined.
