(* ===== verification/AudioRouter.v ===== *)
(** * The packet audio router

    Models the pure part of [crates/restream-engine/src/audio_router.rs]: the track
    metadata a routing stage publishes ([apply_audio_routing]) and what it does with
    each packet ([route_audio_packet]).  The stage's async loop around them (its
    ring reader, lifecycle and metrics) is not modelled. *)

From Stdlib Require Import Sorting.Sorted.
From stdpp Require Import sorting.
From S2P Require Import Prelude Media Probe AudioRouting.

Open Scope Z_scope.

(** ** Definitions *)

Definition set_track_index (m : AudioMeta) (i : Z) : AudioMeta :=
  mk_AudioMeta (am_codec m) (am_sample_rate m) (am_channels m) (am_channel_layout m) i
    (am_pid m) (am_language m) (am_title m) (am_profile m).

Definition set_stereo (m : AudioMeta) : AudioMeta :=
  mk_AudioMeta (am_codec m) (am_sample_rate m) 2 (Some "stereo"%string) (am_track_index m)
    (am_pid m) (am_language m) (am_title m) (am_profile m).

(** The loop of the [SelectTracks] arm, at input index [input_index] with
    [output_index] tracks already put out. *)
Fixpoint select_metas (tracks : list Z) (input_index output_index : Z) (l : list AudioMeta)
  : list AudioMeta :=
  match l with
  | [] => []
  | track :: l' =>
      if existsb (Z.eqb input_index) tracks
      then set_track_index track output_index
           :: select_metas tracks (input_index + 1) (as_u32 (output_index + 1)) l'
      else select_metas tracks (input_index + 1) output_index l'
  end.

Definition apply_audio_routing (routing : AudioRouting) (input_tracks : list AudioMeta)
  : list AudioMeta :=
  match routing with
  | Passthrough => input_tracks
  | SelectTracks tracks => select_metas tracks 0 0 input_tracks
  | Remap track _ _ =>
      match input_tracks !! Z.to_nat track with
      | Some t => [set_track_index t 0]
      | None => []
      end
  | Downmix track =>
      match input_tracks !! Z.to_nat track with
      | Some t => [set_stereo (set_track_index t 0)]
      | None => []
      end
  end.

Definition set_packet_track (p : MediaPacket) (i : Z) : MediaPacket :=
  mk_MediaPacket (media_type p) (format p) (is_keyframe p) i (pts p) (dts p) (payload p).

(** [tracks.iter().position(|&track| track == t)] *)
Fixpoint track_position (tracks : list Z) (t : Z) : option nat :=
  match tracks with
  | [] => None
  | x :: tracks' => if x =? t then Some O else S <$> track_position tracks' t
  end.

Definition route_audio_packet (routing : AudioRouting) (packet : MediaPacket)
  : option MediaPacket :=
  match routing with
  | Passthrough => Some packet
  | SelectTracks tracks =>
      match media_type packet with
      | Video => Some packet
      | Audio =>
          (fun output_index => set_packet_track packet (as_u32 (Z.of_nat output_index)))
            <$> track_position tracks (track_index packet)
      end
  | Remap track _ _ =>
      match media_type packet with
      | Video => Some packet
      | Audio => if track_index packet =? track then Some (set_packet_track packet 0) else None
      end
  | Downmix _ => Some packet
  end.

(** ** Lemmas *)

Lemma existsb_eqb i l : existsb (Z.eqb i) l = true <-> i ∈ l.
Proof.
  rewrite existsb_exists, list_elem_of_In. split.
  - by intros (x & Hx & ->%Z.eqb_eq).
  - intros Hi. exists i. by rewrite Z.eqb_refl.
Qed.

(** The metadata loop over a strictly increasing selection: with [before] already
    passed and [rest] still to come, the tracks it puts out are those of [rest], in
    order, numbered from where it stands. *)
Lemma select_metas_sorted l before rest from out :
  StronglySorted Z.lt rest -> Forall (fun t => t < from) before ->
  Forall (fun t => from <= t < from + Z.of_nat (length l)) rest ->
  0 <= out -> out + Z.of_nat (length l) < 2 ^ 32 ->
  length (select_metas (before ++ rest) from out l) = length rest
  /\ forall i t, rest !! i = Some t ->
       select_metas (before ++ rest) from out l !! i
       = (fun m => set_track_index m (out + Z.of_nat i)) <$> l !! Z.to_nat (t - from).
Proof.
  revert before rest from out.
  induction l as [|m l IH]; intros before rest from out Hs Hb Hr Ho Hl.
  { destruct Hr as [|t rest Ht _]; [done|]. cbn in Ht. lia. }
  cbn [select_metas length] in *. rewrite Nat2Z.inj_succ in *.
  destruct (existsb (Z.eqb from) (before ++ rest)) eqn:E.
  - apply existsb_eqb, elem_of_app in E as [E|E].
    { rewrite Forall_forall in Hb. apply Hb in E. lia. }
    destruct rest as [|t rest]; [by apply not_elem_of_nil in E|].
    apply StronglySorted_inv in Hs as [Hs Ht]. apply Forall_cons in Hr as [Hrt Hr].
    assert (t = from) as ->.
    { apply elem_of_cons in E as [->|E]; [done|]. rewrite Forall_forall in Ht.
      apply Ht in E. lia. }
    replace (before ++ from :: rest) with ((before ++ [from]) ++ rest) by (by rewrite <- app_assoc).
    rewrite wrapu_id by (unfold in_u; lia).
    destruct (IH (before ++ [from]) rest (from + 1) (out + 1)) as [HL HE]; [done| | |lia|lia|].
    { apply Forall_app. split; [|apply Forall_singleton; lia]. eapply Forall_impl; [done|]. cbn; lia. }
    { apply Forall_forall. intros x Hx. rewrite Forall_forall in Ht, Hr.
      specialize (Ht _ Hx). specialize (Hr _ Hx). cbn in *. lia. }
    split; [cbn; by rewrite HL|]. intros [|i] t Hi; cbn in Hi.
    + simplify_eq. rewrite Z.sub_diag, Z.add_0_r. done.
    + etrans; [exact (HE i t Hi)|].
      assert (from < t) by (rewrite Forall_forall in Ht; apply Ht; by eapply list_elem_of_lookup_2).
      replace (Z.to_nat (t - from)) with (S (Z.to_nat (t - (from + 1)))) by lia. cbn.
      destruct (l !! _); cbn; [|done]. do 2 f_equal. lia.
  - assert (from ∉ rest) as Hn.
    { intros Hin. assert (existsb (Z.eqb from) (before ++ rest) = true) as Ht
        by (apply existsb_eqb, elem_of_app; by right). by rewrite E in Ht. }
    destruct (IH before rest (from + 1) out) as [HL HE]; [done| | |lia|lia|].
    { eapply Forall_impl; [done|]. cbn; lia. }
    { apply Forall_forall. intros x Hx. rewrite Forall_forall in Hr. specialize (Hr _ Hx). cbn in *.
      assert (x <> from) by (by intros ->). lia. }
    split; [done|]. intros i t Hi. rewrite (HE i t Hi).
    assert (from + 1 <= t).
    { rewrite Forall_forall in Hr. pose proof (list_elem_of_lookup_2 _ _ _ Hi) as Hx.
      specialize (Hr _ Hx). cbn in Hr. assert (t <> from) by (by intros ->). lia. }
    replace (Z.to_nat (t - from)) with (S (Z.to_nat (t - (from + 1)))) by lia. done.
Qed.

Lemma track_position_lookup tracks t i :
  NoDup tracks -> tracks !! i = Some t -> track_position tracks t = Some i.
Proof.
  revert i. induction tracks as [|x tracks IH]; intros i Hd Hi; [done|].
  apply NoDup_cons in Hd as [Hx Hd]. cbn. destruct i as [|i]; cbn in Hi.
  - simplify_eq. by rewrite Z.eqb_refl.
  - destruct (Z.eqb_spec x t) as [->|]; [by apply list_elem_of_lookup_2 in Hi|].
    by rewrite (IH i).
Qed.

Lemma track_position_some tracks t i : track_position tracks t = Some i -> tracks !! i = Some t.
Proof.
  revert i. induction tracks as [|x tracks IH]; cbn; intros i; [done|].
  destruct (Z.eqb_spec x t) as [->|]; [by intros [= <-]|].
  destruct (track_position tracks t) as [j|]; cbn; [|done]. intros [= <-]. by apply IH.
Qed.

Lemma track_position_none tracks t : track_position tracks t = None -> t ∉ tracks.
Proof.
  induction tracks as [|x tracks IH]; cbn; [intros _; apply not_elem_of_nil|].
  destruct (Z.eqb_spec x t) as [->|Hx]; [done|].
  destruct (track_position tracks t); cbn; [done|]. intros _ [Ht|Ht]%elem_of_cons; [done|].
  by apply IH.
Qed.

Lemma sorted_lookup_ge sel a i t :
  StronglySorted Z.lt sel -> Forall (fun x => a <= x) sel -> sel !! i = Some t ->
  a + Z.of_nat i <= t.
Proof.
  intros Hs. revert a i. induction Hs as [|x sel Hs IH Hx]; intros a i Ha Hi; [done|].
  apply Forall_cons in Ha as [Hax _]. destruct i as [|i]; cbn in Hi; [simplify_eq; lia|].
  assert (x + 1 + Z.of_nat i <= t); [|lia]. apply IH; [|done].
  eapply Forall_impl; [done|]. cbn; lia.
Qed.

(** ** Theorems *)

(** A selection of existing tracks in increasing order keeps packets and metadata in
    step: an audio packet of a selected track comes out, unchanged but for its track
    number, under the number whose metadata entry describes the track it came from;
    a packet of any other track is dropped. *)
Theorem selected_metadata_matches_packets sel metas p :
  StronglySorted Z.lt sel ->
  Forall (fun t => 0 <= t < Z.of_nat (length metas)) sel ->
  Z.of_nat (length metas) < 2 ^ 32 -> media_type p = Audio ->
  match route_audio_packet (SelectTracks sel) p with
  | Some q =>
      q = set_packet_track p (track_index q)
      /\ exists m, metas !! Z.to_nat (track_index p) = Some m
         /\ apply_audio_routing (SelectTracks sel) metas !! Z.to_nat (track_index q)
            = Some (set_track_index m (track_index q))
  | None => track_index p ∉ sel
  end.
Proof.
  intros Hs Hr Hn Ha. cbn [route_audio_packet apply_audio_routing]. rewrite Ha.
  destruct (track_position sel (track_index p)) as [i|] eqn:E; cbn; [|by apply track_position_none].
  apply track_position_some in E.
  destruct (select_metas_sorted metas [] sel 0 0) as [HL HE]; [done|done|done|lia|lia|].
  cbn [app] in *. pose proof (Forall_lookup_1 _ _ _ _ Hr E) as Ht. cbn in Ht.
  destruct (lookup_lt_is_Some_2 metas (Z.to_nat (track_index p))) as [m Hm]; [lia|].
  specialize (HE i _ E). rewrite Z.sub_0_r, Hm in HE. cbn in HE.
  assert (0 + Z.of_nat i <= track_index p) as Hi.
  { eapply sorted_lookup_ge; [done| |done]. eapply Forall_impl; [done|]. cbn; lia. }
  rewrite wrapu_id by (unfold in_u; lia). split; [done|]. exists m. split; [done|].
  by rewrite Nat2Z.id, HE.
Qed.

Definition example_meta (language : string) : AudioMeta :=
  mk_AudioMeta "aac" 48000 2 None 0 None (Some language) None None.
Definition example_packet (track : Z) : MediaPacket :=
  mk_MediaPacket Audio Raw false track 100 100 [1; 2; 3].

Lemma selected_metadata_matches_packets_witness :
  let metas := [example_meta "en"; example_meta "fr"; example_meta "de"] in
  apply_audio_routing (SelectTracks [0; 2]) metas !! 1%nat = Some (set_track_index (example_meta "de") 1)
  /\ match route_audio_packet (SelectTracks [0; 2]) (example_packet 2) with
     | Some q => exists m, metas !! 2%nat = Some m
         /\ apply_audio_routing (SelectTracks [0; 2]) metas !! Z.to_nat (track_index q)
            = Some (set_track_index m (track_index q))
     | None => False
     end.
Proof.
  intros metas. split; [done|].
  pose proof (selected_metadata_matches_packets [0; 2] metas (example_packet 2)
                ltac:(repeat constructor) ltac:(repeat constructor; cbn; lia) ltac:(done) eq_refl) as H.
  exact (proj2 H).
Defined.

(** A selection in another order does not: with tracks 1 and 0 chosen in that order, a
    packet of track 1 comes out as track 0, and the metadata of track 0 still describes
    the input's track 0 (the metadata is numbered in input order, the packets in the
    order of the selection). *)
Theorem unsorted_selection_swaps_tracks m0 m1 p :
  media_type p = Audio -> track_index p = 1 ->
  route_audio_packet (SelectTracks [1; 0]) p = Some (set_packet_track p 0)
  /\ apply_audio_routing (SelectTracks [1; 0]) [m0; m1] !! 0%nat = Some (set_track_index m0 0).
Proof. intros Ha Ht. cbn. rewrite Ha, Ht. done. Qed.

Lemma unsorted_selection_swaps_tracks_witness :
  apply_audio_routing (SelectTracks [1; 0]) [example_meta "en"; example_meta "fr"] !! 0%nat
    = Some (example_meta "en").
Proof.
  exact (proj2 (unsorted_selection_swaps_tracks (example_meta "en") (example_meta "fr")
                  (example_packet 1) eq_refl eq_refl)).
Defined.
