(* ===== verification/StageFfmpeg.v ===== *)
(** * The external FFmpeg stage

    Models what decides how a stage is transcoded: the encoder profiles
    ([crates/restream-domain/src/domain/transcode_profile.rs] and
    [crates/restream-engine/src/profiles.rs]), the probe budget
    ([crates/restream-engine/src/startup_policy.rs]), the typed stage plan
    ([ffmpeg/stage_plan.rs], [stage_runtime.rs::build_ffmpeg_stage_plan]) and the
    argument list of the child process
    ([external_transcoder/ffmpeg_process.rs::build_stage_ffmpeg_args_inner],
    [external_transcoder.rs::external_stage_arg_preset]).  Running the child (the
    process, its pipes and threads) is not modelled. *)

From Stdlib Require Import Ascii.
From stdpp Require Import pretty.
From S2P Require Import Prelude Media Probe Text AudioRouting OutputSpec Planner AudioRouter.

Open Scope Z_scope.

(** ** Profiles *)

Record TranscodeProfile := mk_TranscodeProfile {
  tp_preset : string;
  tp_tune : string;
  tp_crf : Z;
  tp_gop : Z;
  tp_bframes : Z;
  tp_bitrate : Z;
  tp_max_bitrate : Z;
  tp_width : Z;
  tp_height : Z;
}.

Definition default_profile : TranscodeProfile :=
  mk_TranscodeProfile "ultrafast" "zerolatency" 23 60 0 0 0 0 0.

Definition valid_presets : list string :=
  ["ultrafast"; "superfast"; "veryfast"; "faster"; "fast"; "medium"; "slow"; "slower";
   "veryslow"; "placebo"]%string.
Definition valid_tunes : list string :=
  [""; "film"; "animation"; "grain"; "stillimage"; "psnr"; "ssim"; "fastdecode";
   "zerolatency"]%string.

Definition profile_validate (p : TranscodeProfile) : option string :=
  if negb (bool_decide (tp_preset p ∈ valid_presets))
  then Some "preset must be one of: ultrafast, superfast, veryfast, faster, fast, medium, slow, slower, veryslow, placebo"%string
  else if negb (bool_decide (tp_tune p ∈ valid_tunes))
  then Some "tune must be one of: film, animation, grain, stillimage, psnr, ssim, fastdecode, zerolatency, or empty"%string
  else if negb ((0 <=? tp_crf p) && (tp_crf p <=? 51)) then Some "crf must be between 0 and 51"%string
  else None.

Definition TranscodeProfiles : Type := gmap string TranscodeProfile.

Definition BASELINE_TRANSCODE_PROFILE_KEY : string := "h264".

Definition built_in_defaults : TranscodeProfiles :=
  {[ "h264"%string := default_profile;
     "720p"%string := mk_TranscodeProfile "ultrafast" "zerolatency" 23 60 0 0 0 1280 720;
     "1080p"%string := mk_TranscodeProfile "ultrafast" "zerolatency" 23 60 0 0 0 1920 1080 ]}.

Definition effective_profiles (profiles : TranscodeProfiles) : TranscodeProfiles :=
  profiles ∪ built_in_defaults.

Definition resolve_from_profiles (profiles : TranscodeProfiles) (name : string) : TranscodeProfile :=
  match profiles !! name with
  | Some p => p
  | None => default default_profile (profiles !! BASELINE_TRANSCODE_PROFILE_KEY)
  end.

(** The cache as a reader finds it: [None] while a writer holds it. *)
Definition try_get_cached (cache : option TranscodeProfiles) (name : string) : TranscodeProfile :=
  match cache with
  | Some c => resolve_from_profiles c name
  | None => resolve_from_profiles built_in_defaults name
  end.

(** ** The probe budget *)

Definition U64_MAX : Z := 2 ^ 64 - 1.
Definition saturating_mul (a b : Z) : Z := Z.min (a * b) U64_MAX.
Definition saturating_add (a b : Z) : Z := Z.min (a + b) U64_MAX.
Definition saturating_sub (a b : Z) : Z := Z.max (a - b) 0.
Definition div_ceil (a b : Z) : Z := (a + b - 1) / b.

Definition EXT_STAGE_ANALYZE_DURATION_US_DEFAULT : Z := 1000000.
Definition EXT_STAGE_PROBE_SIZE_BYTES_DEFAULT : Z := 128 * 1024.
Definition EXT_STAGE_ANALYZE_DURATION_US_HEVC : Z := 1000000.
Definition EXT_STAGE_PROBE_SIZE_BYTES_HEVC : Z := 512 * 1024.
Definition EXT_STAGE_PROBE_SIZE_BYTES_AUDIO_TRACK : Z := 16 * 1024.
Definition EXT_STAGE_PROBE_SIZE_BYTES_MAX : Z := 2 * 1024 * 1024.

Record ExtStageProbeContext := mk_ExtStageProbeContext {
  pc_codec : VideoCodecKind;
  pc_include_audio : bool;
  pc_audio_track_count : Z;
  pc_passthrough : bool;
  pc_observed_bitrate_bps : option Z;
}.

Definition ext_stage_probe_budget_for (c : ExtStageProbeContext) : Z * Z :=
  let '(analyze_duration_us, base_probe_size) :=
    if is_hevc (pc_codec c) || pc_passthrough c
    then (EXT_STAGE_ANALYZE_DURATION_US_HEVC, EXT_STAGE_PROBE_SIZE_BYTES_HEVC)
    else (EXT_STAGE_ANALYZE_DURATION_US_DEFAULT, EXT_STAGE_PROBE_SIZE_BYTES_DEFAULT) in
  let observed_window_bytes :=
    (fun bitrate_bps =>
       div_ceil (saturating_mul
                   (div_ceil (saturating_mul bitrate_bps analyze_duration_us) (8 * 1000000)) 3) 2)
      <$> pc_observed_bitrate_bps c in
  let stream_probe_size := default base_probe_size observed_window_bytes in
  let audio_tracks := if pc_include_audio c then pc_audio_track_count c else 0 in
  let audio_probe_size :=
    match observed_window_bytes with
    | Some _ => 0
    | None => saturating_mul (saturating_sub audio_tracks 1) EXT_STAGE_PROBE_SIZE_BYTES_AUDIO_TRACK
    end in
  (analyze_duration_us,
   Z.min (saturating_add stream_probe_size audio_probe_size) EXT_STAGE_PROBE_SIZE_BYTES_MAX).

(** ** The stage plan *)

Inductive StageCodec := StageH264 | StageHevc.

Definition stage_codec_from_name (name : string) : StageCodec :=
  let s := string_lowercase name in
  if bool_decide (s = "hevc") || bool_decide (s = "h265") || bool_decide (s = "h.265")
  then StageHevc else StageH264.

Definition stage_codec_as_str (c : StageCodec) : string :=
  match c with StageH264 => "h264" | StageHevc => "hevc" end.

Inductive CodecEdgeOp := HevcToH264.

Inductive VideoStageOp :=
| VopPassthrough
| VopScalePreset (preset : string)
| VopCodecEdge (op : CodecEdgeOp)
| VopPreview (preset : string).

Inductive AudioStageOp :=
| AopPassthrough
| AopDrop
| AopSelectTracks (tracks : list Z)
| AopDownmix (track : Z)
| AopRemap (track : Z) (channels : list Z).

Record StageInputSpec := mk_StageInputSpec {
  si_codec_hint : StageCodec;
  si_video_meta : option VideoMeta;
  si_audio_tracks : list AudioMeta;
}.

Record StageStartupPolicy := mk_StageStartupPolicy {
  keyframe_preroll_packets : Z;
  require_video_parameter_sets : bool;
  wait_for_first_keyframe : bool;
}.

Record TimelinePolicy := mk_TimelinePolicy {
  normalize_to_stage_zero : bool;
  unwrap_discontinuities : bool;
  enforce_dts_monotonicity : bool;
}.
Definition TimelinePolicy_default : TimelinePolicy := mk_TimelinePolicy true true true.

Record FfmpegStagePlan := mk_FfmpegStagePlan {
  fp_stage_key : StageKey;
  fp_pipeline_id : string;
  fp_input : StageInputSpec;
  fp_video : VideoStageOp;
  fp_audio : AudioStageOp;
  fp_output_codec : StageCodec;
  fp_output_profile : option string;
  fp_include_audio : bool;
  fp_startup : StageStartupPolicy;
  fp_timeline : TimelinePolicy;
}.

Definition audio_stage_op_from_routing (r : AudioRouting) : option AudioStageOp :=
  match r with
  | Passthrough => Some AopPassthrough
  | SelectTracks tracks => Some (AopSelectTracks tracks)
  | Downmix track => Some (AopDownmix track)
  | Remap track left_ch right_ch => Some (AopRemap track [left_ch; right_ch])
  end.

Definition build_ffmpeg_stage_plan (key : StageKey) (video_meta : option VideoMeta)
    (audio_tracks : list AudioMeta) (input_codec_override : option string) (include_audio : bool)
  : option FfmpegStagePlan :=
  let input_codec :=
    match input_codec_override with
    | Some c => stage_codec_from_name c
    | None => stage_codec_from_name (match video_meta with Some v => vm_codec v | None => "" end)
    end in
  let input := mk_StageInputSpec input_codec video_meta audio_tracks in
  let plan input video audio output_codec include_audio startup :=
    Some (mk_FfmpegStagePlan key (sk_pipeline key) input video audio output_codec None
            include_audio startup TimelinePolicy_default) in
  match sk_kind key with
  | StSource =>
      plan input VopPassthrough AopPassthrough input_codec include_audio
        (mk_StageStartupPolicy 0 true true)
  | StVideoPreset preset output_codec =>
      let output_codec := match output_codec with
                          | Some c => stage_codec_from_name c
                          | None => input_codec
                          end in
      plan input (VopScalePreset preset) AopPassthrough output_codec include_audio
        (mk_StageStartupPolicy 64 true true)
  | StCodecEdge operation _ =>
      if bool_decide (operation = "hevc_to_h264")
      then plan input (VopCodecEdge HevcToH264) AopPassthrough StageH264 include_audio
             (mk_StageStartupPolicy 128 true true)
      else None
  | StPreview preset _ =>
      plan (mk_StageInputSpec input_codec video_meta []) (VopPreview preset) AopDrop StageH264 false
        (mk_StageStartupPolicy 128 true true)
  | StAudioRoute operation _ =>
      match audio_stage_op_from_routing (parse_audio_operation operation) with
      | Some audio_op =>
          plan input VopPassthrough audio_op input_codec include_audio
            (mk_StageStartupPolicy 0 false false)
      | None => None
      end
  | _ => None
  end.

Definition external_stage_arg_preset (p : FfmpegStagePlan) (fallback : string) : string :=
  match fp_video p with
  | VopScalePreset preset | VopPreview preset => preset
  | VopCodecEdge _ => "h264"
  | VopPassthrough => fallback
  end.

(** ** The arguments *)

Definition stage_audio_routing (preset : string) : option AudioRouting :=
  let routing := match spec_audio_operation (StagePresetSpec_parse preset) with
                 | Some operation => parse_audio_operation operation
                 | None => parse_audio_routing preset
                 end in
  match routing with
  | Remap _ _ _ | Downmix _ => Some routing
  | _ => None
  end.

Definition audio_filter_complex (routing : option AudioRouting) : option string :=
  match routing with
  | Some (Remap track left_ch right_ch) =>
      Some ("[0:a:" +:+ display track +:+ "]pan=stereo|c0=c" +:+ display left_ch +:+ "|c1=c"
            +:+ display right_ch +:+ "[aout]")
  | Some (Downmix track) =>
      Some ("[0:a:" +:+ display track +:+ "]aresample=out_chlayout=stereo[aout]")
  | _ => None
  end.

Definition probe_audio_track_count (routing : option AudioRouting) (include_audio : bool)
    (observed_audio_track_count : Z) : Z :=
  if negb include_audio then 0
  else match routing with
       | Some (Remap track _ _) | Some (Downmix track) => saturating_add track 1
       | Some (SelectTracks tracks) =>
           match tracks with
           | [] => 0
           | t :: ts => saturating_add (fold_left Z.max ts t) 1
           end
       | Some Passthrough | None => observed_audio_track_count
       end.

(** [Display] of a signed integer *)
Definition display_int (z : Z) : string := pretty z.

Definition build_stage_ffmpeg_args_inner (cache : option TranscodeProfiles)
    (preset input_codec probe_codec : string) (include_audio : bool) (audio_track_count : Z)
    (observed_bitrate_bps : option Z) (threads : option Z) : list string :=
  let stage_spec := StagePresetSpec_parse preset in
  let encoding := as_encoding_str (spec_video stage_spec) in
  let audio_routing := stage_audio_routing preset in
  let is_passthrough := bool_decide (encoding = "") || bool_decide (encoding = "source")
                        || bool_decide (encoding = "custom") in
  let profile := if is_passthrough then None else Some (try_get_cached cache encoding) in
  let passthrough := bool_decide (encoding = "source") || bool_decide (encoding = "") in
  let full_stream_passthrough :=
    passthrough && match audio_routing with None => true | Some _ => false end in
  let probed_audio_track_count :=
    probe_audio_track_count audio_routing include_audio audio_track_count in
  let '(analyze_duration_us, probe_size_bytes) :=
    ext_stage_probe_budget_for
      (mk_ExtStageProbeContext (from_codec_name probe_codec) include_audio
         probed_audio_track_count full_stream_passthrough observed_bitrate_bps) in
  let ffmpeg_threads := Z.max (default 2 threads) 1 in
  ["-nostdin"; "-hide_banner"; "-nostats"; "-loglevel"; "warning"; "-threads";
   display ffmpeg_threads; "-flags"; "low_delay"; "-analyzeduration";
   display analyze_duration_us; "-probesize"; display probe_size_bytes; "-f"; "mpegts"; "-i";
   "pipe:0"]%string
  ++ (if negb include_audio then ["-map"; "0:v:0"]%string
      else match audio_filter_complex audio_routing with
           | Some filter =>
               ["-filter_complex"; filter; "-map"; "0:v:0?"; "-map"; "[aout]"]%string
           | None => ["-map"; "0:v:0"; "-map"; "0:a?"]%string
           end)
  ++ match profile with
     | Some p =>
         if (0 <? tp_width p) && (0 <? tp_height p)
         then ["-vf"; "scale=" +:+ display (tp_width p) +:+ ":" +:+ display (tp_height p)]%string
         else []
     | None => []
     end
  ++ (if is_passthrough then ["-c:v"; "copy"]%string
      else
        let encoder := if bool_decide (input_codec = "hevc") || bool_decide (input_codec = "h265")
                       then "libx265"%string else "libx264"%string in
        ["-c:v"; encoder; "-preset";
         match profile with Some p => tp_preset p | None => "veryfast" end; "-a53cc"; "1"]%string
        ++ (if bool_decide (encoder = "libx265"%string)
            then ["-x265-params"; "repeat-headers=1:log-level=none"]%string else [])
        ++ match profile with
           | Some p =>
               (if negb (bool_decide (tp_tune p = ""%string)) then ["-tune"%string; tp_tune p] else [])
               ++ ["-g"%string; display (tp_gop p); "-bf"%string; display (tp_bframes p)]
               ++ (if 0 <? tp_bitrate p
                   then ["-b:v"%string; display_int (tp_bitrate p)]
                        ++ (if 0 <? tp_max_bitrate p
                            then ["-maxrate"%string; display_int (tp_max_bitrate p); "-bufsize"%string;
                                  display_int (tp_max_bitrate p)]
                            else [])
                   else ["-crf"%string; display_int (tp_crf p)])
           | None => []
           end)
  ++ (if negb include_audio then []
      else match audio_routing with
           | Some _ => ["-c:a"; "aac"; "-b:a"; "160k"; "-ac"; "2"]%string
           | None => ["-c:a"; "copy"]%string
           end)
  ++ ["-mpegts_flags"; "resend_headers+pat_pmt_at_frames"; "-pes_payload_size"; "0";
      "-omit_video_pes_length"; "0"; "-max_interleave_delta"; "0"; "-flush_packets"; "1";
      "-muxdelay"; "0"; "-muxpreload"; "0"; "-f"; "mpegts"; "pipe:1"]%string.

(** The arguments [run_external_ffmpeg_backend] starts the child with, for the plan of a
    stage: the preset is the plan's, or the printed stage kind. *)
Definition stage_child_args (cache : option TranscodeProfiles) (p : FfmpegStagePlan)
    (input_codec_hint : string) (observed_bitrate_bps : option Z) : list string :=
  let encoding := stage_to_string (sk_kind (fp_stage_key p)) in
  let probe_codec := if bool_decide (input_codec_hint = "")
                     then stage_codec_as_str (si_codec_hint (fp_input p)) else input_codec_hint in
  build_stage_ffmpeg_args_inner cache (external_stage_arg_preset p encoding)
    (stage_codec_as_str (fp_output_codec p)) probe_codec (fp_include_audio p)
    (Z.of_nat (length (si_audio_tracks (fp_input p)))) observed_bitrate_bps None.

(** ** Reading a printed stage back *)

Lemma rsplit_once_app c p a b :
  rsplit_once (String c p) (p +:+ b) = None ->
  rsplit_once (String c p) (a +:+ String c p +:+ b) = Some (a, b).
Proof.
  intros Hn. induction a as [|x a IH].
  - change (EmptyString +:+ ?s) with s. change (String c p +:+ b) with (String c (p +:+ b)).
    cbn [rsplit_once]. rewrite Hn. change (String c (p +:+ b)) with (String c p +:+ b).
    by rewrite strip_prefix_app.
  - change (String x a +:+ ?s) with (String x (a +:+ s)). cbn [rsplit_once]. by rewrite IH.
Qed.

Lemma rsplit_once_inv p s a b : rsplit_once p s = Some (a, b) -> s = a +:+ p +:+ b.
Proof.
  revert a b. induction s as [|x s IH]; intros a b; cbn [rsplit_once].
  - case_bool_decide; [|done]. by intros [= <- <-]; subst.
  - destruct (rsplit_once p s) as [[a' b']|].
    + intros [= <- <-]. by rewrite (IH _ _ eq_refl).
    + destruct (strip_prefix p (String x s)) as [r|] eqn:E; [|done].
      intros [= <- <-]. by apply strip_prefix_inv in E.
Qed.

Lemma split_char_cat sep a b :
  split_char sep (a +:+ String sep EmptyString +:+ b) = split_char sep a ++ split_char sep b.
Proof.
  induction a as [|x a IH].
  { change (EmptyString +:+ _) with (String sep b). cbn. by rewrite bool_decide_true. }
  change (String x a +:+ ?s) with (String x (a +:+ s)). cbn [split_char]. rewrite IH.
  case_bool_decide; [done|]. destruct (split_char sep a) as [|h t] eqn:E; [|done].
  by apply split_char_nonempty in E.
Qed.

(** The marker between a route and its upstream occurs nowhere else in the printed
    upstream. *)
Lemma no_marker s : "from"%string ∉ tail (split_char ":"%char s) -> rsplit_once ":from:" s = None.
Proof.
  intros Hn. destruct (rsplit_once ":from:" s) as [[a b]|] eqn:E; [|done].
  apply rsplit_once_inv in E. subst s. destruct Hn.
  change (":from:" +:+ b) with (":" +:+ ("from" +:+ (":" +:+ b))).
  rewrite !split_char_cat. change (split_char ":" "from") with ["from"%string].
  destruct (split_char ":"%char a) eqn:E; [by apply split_char_nonempty in E|].
  cbn. set_solver.
Qed.

Definition preset_prints (name : string) : bool :=
  lacks ":"%char name && negb (bool_decide (name = "from")).

Lemma preset_stage_marker preset codec :
  preset_prints preset = true -> codec ∈ [None; Some "h264"; Some "hevc"]%string ->
  rsplit_once ":from:" ("from:" +:+ stage_to_string (StVideoPreset preset codec)) = None.
Proof.
  unfold preset_prints. intros [Hl Hn]%andb_prop Hc. apply no_marker.
  apply negb_true_iff, bool_decide_eq_false in Hn.
  assert (split_char ":"%char preset = [preset]) as Hp by (by apply split_char_lacks).
  assert (forall x, "from:" +:+ "video:" +:+ x = "from" +:+ ":" +:+ "video" +:+ ":" +:+ x) as Hx by done.
  rewrite !elem_of_cons in Hc. destruct Hc as [->|[->|[->|[]%not_elem_of_nil]]];
    cbn [stage_to_string]; rewrite Hx.
  all: try change (":codec:" +:+ ?x) with (":" +:+ "codec" +:+ ":" +:+ x).
  all: rewrite !split_char_cat, Hp.
  all: change (split_char ":" "from") with ["from"%string];
       change (split_char ":" "video") with ["video"%string].
  2: change (split_char ":" "codec") with ["codec"%string];
     change (split_char ":" "h264") with ["h264"%string].
  3: change (split_char ":" "codec") with ["codec"%string];
     change (split_char ":" "hevc") with ["hevc"%string].
  all: cbn [app tail]; rewrite !not_elem_of_cons; split_and?; try done; apply not_elem_of_nil.
Qed.

Lemma stage_preset_audio op up :
  rsplit_once ":from:" ("from:" +:+ stage_to_string up) = None ->
  spec_audio_operation (StagePresetSpec_parse (stage_to_string (StAudioRoute op up))) = Some op.
Proof.
  intros Hu. cbn [stage_to_string]. unfold StagePresetSpec_parse.
  rewrite strip_prefix_other, strip_prefix_app by done.
  by rewrite (rsplit_once_app ":"%char "from:" op (stage_to_string up) Hu).
Qed.

(** Behind the bridge the marker occurs twice and the parser stops at the last one, so
    the bridge's name is left on the operation. *)
Lemma stage_preset_audio_bridge op :
  spec_audio_operation (StagePresetSpec_parse (stage_to_string (StAudioRoute op hevc_source_bridge_kind)))
  = Some (op +:+ ":from:hevc_to_h264").
Proof.
  cbn [stage_to_string hevc_source_bridge_kind]. unfold StagePresetSpec_parse.
  rewrite strip_prefix_other, strip_prefix_app by done.
  change (":from:" +:+ "hevc_to_h264" +:+ ?x) with (":from:hevc_to_h264" +:+ x).
  rewrite <- string_app_assoc.
  by rewrite (rsplit_once_app ":"%char "from:" (op +:+ ":from:hevc_to_h264") "source" eq_refl).
Qed.

Lemma parse_digits_lacks c acc s n : digit c = None -> parse_digits acc s = Some n -> lacks c s = true.
Proof.
  intros Hc. revert acc. induction s as [|x s IH]; cbn; intros acc E; [done|].
  apply lacks_cons. destruct (digit x) as [d|] eqn:Ed; [|done]. case_match; [|done].
  split; [|by eapply IH]. intros ->. by rewrite Hc in Ed.
Qed.

Lemma parse_usize_lacks c s n : digit c = None -> c <> "+"%char -> parse_usize s = Some n -> lacks c s = true.
Proof.
  intros Hc Hp. unfold parse_usize. destruct s as [|x s]; [done|]. case_bool_decide as Ex.
  - subst x. destruct s as [|y s]; [done|]. intros E. apply lacks_cons.
    split; [done|]. by eapply parse_digits_lacks.
  - intros E. by eapply parse_digits_lacks.
Qed.

(** What the suffix does to each operation: a downmix no longer parses, a remap ignores
    it. *)
Lemma downmix_with_suffix t :
  parse_audio_operation ("downmix:" +:+ display t +:+ ":from:hevc_to_h264") = Passthrough.
Proof.
  unfold parse_audio_operation. rewrite !strip_prefix_other, strip_prefix_app by done.
  destruct (parse_usize _) as [n|] eqn:E; [|done].
  eapply (parse_usize_lacks ":"%char) in E; [|done|done]. by rewrite lacks_app, andb_false_r in E.
Qed.

Lemma remap_with_suffix track l r op :
  routing_ok (Remap track l r) -> operation_string (Remap track l r) = Some op ->
  parse_audio_operation (op +:+ ":from:hevc_to_h264") = Remap track l r.
Proof.
  intros (Ht & Hl & Hr) E. cbn -[display] in E.
  assert (split_char ":"%char "from:hevc_to_h264" = ["from"; "hevc_to_h264"]%string) as Hs by done.
  assert (parse_usize "from" = None) as Hf by done.
  destruct (Z.eqb_spec track 0) as [->|Hn]; simplify_eq; rewrite !string_app_assoc;
    unfold parse_audio_operation; rewrite strip_prefix_app;
    change ":from:hevc_to_h264"%string with (":" +:+ "from:hevc_to_h264");
    rewrite !split_char_app, Hs by (by apply display_lacks); cbn [lookup list_lookup mbind option_bind].
  - by rewrite Hf, !parse_display.
  - by rewrite !parse_display.
Qed.

(** ** The routing the child runs *)

Definition is_downmix (r : AudioRouting) : bool :=
  match r with Downmix _ => true | _ => false end.

Lemma stage_routing_direct r op up :
  routing_ok r -> is_lightweight_audio_route r = false -> operation_string r = Some op ->
  rsplit_once ":from:" ("from:" +:+ stage_to_string up) = None ->
  stage_audio_routing (stage_to_string (StAudioRoute op up)) = Some r.
Proof.
  intros Hr Hl Ho Hu. unfold stage_audio_routing.
  rewrite stage_preset_audio, (parse_operation_string r op) by done. by destruct r.
Qed.

Lemma stage_routing_bridge r op :
  routing_ok r -> is_lightweight_audio_route r = false -> operation_string r = Some op ->
  stage_audio_routing (stage_to_string (StAudioRoute op hevc_source_bridge_kind))
  = if is_downmix r then None else Some r.
Proof.
  intros Hr Hl Ho. unfold stage_audio_routing. rewrite stage_preset_audio_bridge.
  destruct r as [| |track l r|track]; [done|done| |].
  - by rewrite (remap_with_suffix track l r).
  - cbn [operation_string] in Ho. simplify_eq. by rewrite string_app_assoc, downmix_with_suffix.
Qed.

(** The preset of an output's video, when it has one, can be printed in a stage kind. *)
Definition config_prints (c : OutputConfig) : bool :=
  match cfg_video c with VideoPresetConfig preset _ => preset_prints preset | _ => true end.

Lemma video_stage_prints pid o ingest v : path_ok pid o ->
  config_prints (op_config o) = true -> video_stage o ingest = Some v ->
  rsplit_once ":from:" ("from:" +:+ stage_to_string (sk_kind v)) = None.
Proof.
  intros Hok Hp Hv. unfold config_prints in Hp.
  assert (exists preset codec, preset_prints preset = true
            /\ codec ∈ [None; Some "h264"; Some "hevc"]%string
            /\ sk_kind v = StVideoPreset preset codec) as (preset & codec & H1 & H2 & ->).
  { revert Hv. unfold video_stage, es_video_key, resolved_config, resolve_for_input_codec.
    rewrite (path_plan pid o Hok). cbn.
    destruct (cfg_video (op_config o)) as [k|preset k|]; cbn;
      repeat case_match; intros Hv; simplify_eq/=; do 2 eexists; (split_and!; [done| |reflexivity]);
      repeat case_match; simplify_eq/=; try set_solver.
    all: match goal with E : as_stage_codec ?c = Some _ |- _ => destruct c end; simplify_eq/=; set_solver. }
  by apply preset_stage_marker.
Qed.

Lemma edge_over_source pid o ingest : path_ok pid o ->
  needs_h264_codec_edge o ingest = true ->
  codec_edge_stage o ingest = Some (mk_StageKey pid hevc_source_bridge_kind).
Proof.
  intros Hok Hn. unfold codec_edge_stage. rewrite Hn, (path_pipeline pid o Hok).
  assert (codec_edge_upstream_stage_kind o ingest = StSource) as ->; [|done].
  unfold codec_edge_upstream_stage_kind, video_stage, es_video_key, video_terminal_kind.
  unfold needs_h264_codec_edge in Hn. apply andb_prop in Hn as [_ Hn].
  rewrite (path_plan pid o Hok). revert Hn. unfold resolved_config, resolve_for_input_codec.
  destruct (validate_capabilities _ _); [done|]. cbn. destruct (negb _); [done|].
  by destruct (cfg_video (op_config o)).
Qed.

Lemma routed_audio_stage_is pid o ingest op : path_ok pid o ->
  operation_string (cfg_audio (op_config o)) = Some op ->
  terminal_stage_kind o ingest
  = StAudioRoute op
      (if needs_h264_codec_edge o ingest then hevc_source_bridge_kind
       else default StSource (sk_kind <$> video_stage o ingest)).
Proof.
  intros Hok Ho. unfold terminal_stage_kind, routed_audio_stage, audio_stage_from_upstream.
  destruct (needs_h264_codec_edge o ingest) eqn:En.
  - rewrite (edge_over_source pid) by done. rewrite (path_plan pid o Hok). cbn. by rewrite Ho.
  - assert (codec_edge_stage o ingest = None) as -> by (unfold codec_edge_stage; by rewrite En).
    destruct (video_stage_cases pid o Hok ingest) as [[-> Ev]|(preset & codec & ->)].
    + unfold es_audio_key. revert Ev. rewrite (path_plan pid o Hok). cbn. intros ->. by rewrite Ho.
    + rewrite (path_plan pid o Hok). cbn. by rewrite Ho.
Qed.

Lemma heavy_has_operation r : is_lightweight_audio_route r = false ->
  exists op, operation_string r = Some op.
Proof. destruct r as [| |track ? ?|]; try done; intros _; cbn; [destruct (track =? 0)|]; eauto. Qed.

Lemma child_routing pid o ingest : path_ok pid o ->
  config_prints (op_config o) = true -> routing_ok (cfg_audio (op_config o)) ->
  is_lightweight_audio_route (cfg_audio (op_config o)) = false ->
  stage_audio_routing (stage_to_string (terminal_stage_kind o ingest))
  = if needs_h264_codec_edge o ingest && is_downmix (cfg_audio (op_config o)) then None
    else Some (cfg_audio (op_config o)).
Proof.
  intros Hok Hp Hr Hl. destruct (heavy_has_operation _ Hl) as [op Ho].
  rewrite (routed_audio_stage_is pid o ingest op Hok Ho).
  destruct (needs_h264_codec_edge o ingest); cbn [andb].
  - by rewrite (stage_routing_bridge (cfg_audio (op_config o))).
  - apply stage_routing_direct; try done.
    destruct (video_stage o ingest) as [v|] eqn:Ev; [|done].
    by apply (video_stage_prints pid o ingest v Hok).
Qed.

(** ** The child's arguments *)

Lemma audio_route_spec op up :
  spec_video (StagePresetSpec_parse (stage_to_string (StAudioRoute op up))) = SelSource.
Proof.
  cbn [stage_to_string]. unfold StagePresetSpec_parse.
  by rewrite strip_prefix_other, strip_prefix_app by done.
Qed.

(** The audio half of the arguments of an audio-route stage follows the routing read
    from the printed stage; its video is copied. *)
Lemma audio_route_args cache op up codec probe n rate :
  let k := stage_to_string (StAudioRoute op up) in
  exists d s,
    build_stage_ffmpeg_args_inner cache k codec probe true n rate None
    = ["-nostdin"; "-hide_banner"; "-nostats"; "-loglevel"; "warning"; "-threads"; "2"; "-flags";
       "low_delay"; "-analyzeduration"; display d; "-probesize"; display s; "-f"; "mpegts"; "-i";
       "pipe:0"]%string
      ++ match audio_filter_complex (stage_audio_routing k) with
         | Some f => ["-filter_complex"; f; "-map"; "0:v:0?"; "-map"; "[aout]"]%string
         | None => ["-map"; "0:v:0"; "-map"; "0:a?"]%string
         end
      ++ ["-c:v"; "copy"]%string
      ++ match stage_audio_routing k with
         | Some _ => ["-c:a"; "aac"; "-b:a"; "160k"; "-ac"; "2"]%string
         | None => ["-c:a"; "copy"]%string
         end
      ++ ["-mpegts_flags"; "resend_headers+pat_pmt_at_frames"; "-pes_payload_size"; "0";
          "-omit_video_pes_length"; "0"; "-max_interleave_delta"; "0"; "-flush_packets"; "1";
          "-muxdelay"; "0"; "-muxpreload"; "0"; "-f"; "mpegts"; "pipe:1"]%string.
Proof.
  intros k. unfold build_stage_ffmpeg_args_inner. subst k. rewrite audio_route_spec.
  destruct (ext_stage_probe_budget_for _) as [d s]. by exists d, s.
Qed.

Lemma display_not_flag n x : display n <> String "-"%char x.
Proof.
  intros E. pose proof (display_lacks "-"%char n eq_refl) as Hl. rewrite E in Hl.
  by apply lacks_cons in Hl as [? _].
Qed.

(** The two readings of a codec name agree on the names the planner knows. *)
Lemma stage_codec_agrees codec : from_codec_name codec <> CodecUnknown ->
  from_codec_name (stage_codec_as_str (stage_codec_from_name codec)) = from_codec_name codec.
Proof.
  unfold from_codec_name at 1 3, stage_codec_from_name, eq_ignore_ascii_case.
  change (string_lowercase "h264") with "h264"%string. change (string_lowercase "avc") with "avc"%string.
  change (string_lowercase "h265") with "h265"%string. change (string_lowercase "hevc") with "hevc"%string.
  generalize (string_lowercase codec) as s. intros s.
  case_bool_decide as H1; [by subst|]. case_bool_decide as H2; [by subst|].
  case_bool_decide as H3; [by subst|]. case_bool_decide as H4; [by subst|]. done.
Qed.

Lemma not_in_Forall (x : string) l : Forall (fun y => x <> y) l -> x ∉ l.
Proof. intros HF Hx. rewrite Forall_forall in HF. by apply (HF _ Hx). Qed.

(** ** Theorems *)

(** The external stage reads its audio routing from the printed stage kind.  For every
    output the planner resolves, whatever its URL, video and ingest codec, what it
    reads is the routing the output configured, with one exception: a downmix behind
    the HEVC bridge, which it does not see at all. *)
Theorem child_runs_configured_routing `{UrlParser} pid o ingest :
  let path := output_path pid o in
  let r := cfg_audio (po_config o) in
  config_prints (po_config o) = true -> routing_ok r -> is_lightweight_audio_route r = false ->
  stage_audio_routing (stage_to_string (terminal_stage_kind path ingest))
  = if needs_h264_codec_edge path ingest && is_downmix r then None else Some r.
Proof. intros path r Hp Hr Hl. by apply (child_routing pid path ingest). Qed.

Lemma child_runs_configured_routing_witness :
  let o := mk_PlannedOutput "out" (with_audio (OutputConfig_preset "720p") (Downmix 3))
             "srt://host:9000" in
  stage_audio_routing (stage_to_string
    (terminal_stage_kind (@output_path scheme_only_urls "pipe" o) (Some "h264"%string)))
  = Some (Downmix 3).
Proof.
  intros o. etrans.
  - apply (@child_runs_configured_routing scheme_only_urls "pipe" o (Some "h264"%string));
      [by vm_compute|by apply usize_ok_small|by vm_compute].
  - by vm_compute.
Defined.

(** So the downmix of a legacy RTMP output on an HEVC ingest is lost: the plan of its
    terminal stage asks for it, and the child is started without an audio filter and
    told to copy the audio. *)
Theorem downmix_lost_behind_bridge `{UrlParser} pid o codec track meta tracks override cache hint rate :
  po_config o = mk_OutputConfig (VideoSource OVAuto) (Downmix track) ProtocolAuto ->
  usize_ok track -> protocol_from_url (po_url o) = ProtoRtmp -> from_codec_name codec = CodecHevc ->
  exists p, build_ffmpeg_stage_plan (terminal_stage_key (output_path pid o) (Some codec))
              meta tracks override true = Some p
    /\ fp_audio p = AopDownmix track
    /\ let args := stage_child_args cache p hint rate in
       "-filter_complex"%string ∉ args
       /\ exists before after, args = before ++ ["-c:a"; "copy"]%string ++ after.
Proof.
  intros Hc Ht Hp Hh. set (path := output_path pid o).
  assert (needs_h264_codec_edge path (Some codec) = true) as Hn.
  { unfold needs_h264_codec_edge, resolved_config, path_capabilities. subst path. cbn.
    by rewrite Hh, Hc, Hp. }
  assert (operation_string (cfg_audio (op_config path)) = Some ("downmix:" +:+ display track)) as Ho
    by (subst path; cbn; by rewrite Hc).
  pose proof (routed_audio_stage_is pid path (Some codec) _ eq_refl Ho) as Hk. rewrite Hn in Hk.
  assert (parse_audio_operation ("downmix:" +:+ display track) = Downmix track) as Hparse
    by (by apply parse_operation_string).
  unfold terminal_stage_key. rewrite Hk. unfold build_ffmpeg_stage_plan. cbn [sk_kind].
  rewrite Hparse. cbn [audio_stage_op_from_routing]. eexists. split; [reflexivity|]. split; [done|].
  unfold stage_child_args.
  cbn [fp_stage_key sk_kind external_stage_arg_preset fp_video fp_include_audio].
  edestruct (audio_route_args cache ("downmix:" +:+ display track) hevc_source_bridge_kind)
    as (d & s & ->).
  rewrite (stage_routing_bridge (Downmix track)) by done. cbn [is_downmix audio_filter_complex]. split.
  - apply not_in_Forall. cbn [app].
    repeat first [apply Forall_nil_2|apply Forall_cons_2; [first [done|apply not_eq_sym, display_not_flag]|]].
  - match goal with |- exists b a, ?x ++ ?y ++ ?z ++ _ ++ ?w = _ => exists (x ++ y ++ z), w end.
    by rewrite <- !app_assoc.
Qed.

Lemma downmix_lost_behind_bridge_witness :
  let o := mk_PlannedOutput "out" (with_audio OutputConfig_source (Downmix 1)) "rtmp://host/live" in
  exists p, build_ffmpeg_stage_plan
              (terminal_stage_key (@output_path scheme_only_urls "pipe" o) (Some "hevc"%string))
              None [] None true = Some p
    /\ fp_audio p = AopDownmix 1
    /\ let args := stage_child_args None p "" None in
       "-filter_complex"%string ∉ args
       /\ exists before after, args = before ++ ["-c:a"; "copy"]%string ++ after.
Proof.
  intros o.
  apply (@downmix_lost_behind_bridge scheme_only_urls "pipe" o "hevc" 1 None [] None None "" None);
    [reflexivity|by apply usize_ok_small|by vm_compute|by vm_compute].
Defined.

(** The codec a stage is planned to put out is the codec the child encodes to, for the
    presets and the bridge of a planned graph, whatever codec flows into the stage. *)
Theorem planned_codec_is_encoded key meta tracks codec include_audio p :
  match sk_kind key with
  | StVideoPreset _ c => c ∈ [None; Some "h264"; Some "hevc"]%string
  | k => k = hevc_source_bridge_kind
  end ->
  from_codec_name codec <> CodecUnknown ->
  build_ffmpeg_stage_plan key meta tracks (Some codec) include_audio = Some p ->
  from_codec_name (stage_codec_as_str (fp_output_codec p))
  = delivered (from_codec_name codec) (sk_kind key).
Proof.
  intros Hk Hc. unfold build_ffmpeg_stage_plan.
  destruct (sk_kind key) as [|preset c| | | | | |]; try done.
  - rewrite !elem_of_cons in Hk. destruct Hk as [->|[->|[->|[]%not_elem_of_nil]]];
      intros [= <-]; cbn [fp_output_codec delivered]; try done.
    by apply stage_codec_agrees.
  - injection Hk as -> ->. by intros [= <-].
Qed.

Lemma planned_codec_is_encoded_witness :
  let key := mk_StageKey "pipe" (StVideoPreset "720p" None) in
  exists p, build_ffmpeg_stage_plan key None [] (Some "H265"%string) true = Some p
    /\ from_codec_name (stage_codec_as_str (fp_output_codec p)) = CodecHevc.
Proof.
  intros key. eexists. split; [reflexivity|].
  apply (planned_codec_is_encoded key None [] "H265" true); [|by vm_compute|reflexivity].
  cbn. set_solver.
Defined.

(** The probe budget never passes its cap, is positive whenever any rate was observed
    or none was, and never overflows: for every codec, track count and observed rate
    the machine can hold, FFmpeg analyses one second and at most two MiB. *)
Theorem probe_budget_bounded c :
  usize_ok (pc_audio_track_count c) ->
  match pc_observed_bitrate_bps c with Some r => 0 < r <= U64_MAX | None => True end ->
  let '(us, bytes) := ext_stage_probe_budget_for c in
  us = 1000000 /\ 0 < bytes <= EXT_STAGE_PROBE_SIZE_BYTES_MAX.
Proof.
  intros Hn Hr. unfold ext_stage_probe_budget_for, usize_ok, USIZE_MAX in *.
  set (test := _ || _).
  assert ((if test then (EXT_STAGE_ANALYZE_DURATION_US_HEVC, EXT_STAGE_PROBE_SIZE_BYTES_HEVC)
           else (EXT_STAGE_ANALYZE_DURATION_US_DEFAULT, EXT_STAGE_PROBE_SIZE_BYTES_DEFAULT))
          = (1000000, if test then 512 * 1024 else 128 * 1024)) as -> by (by destruct test).
  unfold saturating_add, saturating_mul, saturating_sub, div_ceil, EXT_STAGE_PROBE_SIZE_BYTES_MAX,
    EXT_STAGE_PROBE_SIZE_BYTES_AUDIO_TRACK, U64_MAX in *.
  destruct (pc_observed_bitrate_bps c) as [r|]; cbn [fmap option_fmap option_map default from_option id].
  - split; [done|]. set (a := Z.min (r * 1000000) _).
    assert (1 <= (a + 8 * 1000000 - 1) / (8 * 1000000)) as H1 by (apply Z.div_le_lower_bound; lia).
    set (b := (_ / (8 * 1000000))) in *.
    clearbody b. assert (1 <= (Z.min (b * 3) (2 ^ 64 - 1) + 2 - 1) / 2)
      by (apply Z.div_le_lower_bound; lia). lia.
  - split; [done|]. destruct test, (pc_include_audio c); lia.
Qed.

Lemma probe_budget_bounded_witness :
  ext_stage_probe_budget_for (mk_ExtStageProbeContext CodecHevc true 64 false (Some 8000000))
    = (1000000, 1500000)
  /\ 0 < 1500000 <= EXT_STAGE_PROBE_SIZE_BYTES_MAX.
Proof.
  set (c := mk_ExtStageProbeContext CodecHevc true 64 false (Some 8000000)).
  assert (ext_stage_probe_budget_for c = (1000000, 1500000)) as E by (by vm_compute).
  split; [exact E|].
  assert (let '(us, bytes) := ext_stage_probe_budget_for c in
          us = 1000000 /\ 0 < bytes <= EXT_STAGE_PROBE_SIZE_BYTES_MAX) as H.
  { apply (probe_budget_bounded c); cbn; unfold usize_ok, USIZE_MAX, U64_MAX; lia. }
  rewrite E in H. exact (proj2 H).
Defined.
