(* ===== verification/Diagnosis.v ===== *)
(** * Output diagnosis

    Models [crates/restream-health/src/diagnosis.rs]: why an output is degraded, as
    the first unhealthy of the four layers its media passes. *)

From S2P Require Import Prelude Text.

Open Scope Z_scope.

(** ** Definitions *)

Inductive Layer := LIngest | LFeed | LShard | LDestination.
#[global] Instance Layer_eq_dec : EqDecision Layer.
Proof. solve_decision. Defined.

Inductive Cause :=
| NoPublisher
| StageNotProducing (stage phase : string)
| ShardPanicked (shard : Z)
| ShardStalled (shard : Z)
| ShardStopped (shard : Z)
| CapacityRefused (error : string)
| RetriesExhausted
| RetryBudgetNearlySpent (attempts max : Z)
| Rejected (phase : option string) (error : string)
| Backpressured (stalled : bool)
| NoProgress.
#[global] Instance Cause_eq_dec : EqDecision Cause.
Proof. solve_decision. Defined.

Record Diagnosis := mk_Diagnosis {
  dg_layer : Layer;
  dg_cause : Cause;
  dg_ruled_out : list Layer;
}.
#[global] Instance Diagnosis_eq_dec : EqDecision Diagnosis.
Proof. solve_decision. Defined.

Inductive ShardHealth := ShHealthy | ShStalled | ShStopped | ShPanicked.
#[global] Instance ShardHealth_eq_dec : EqDecision ShardHealth.
Proof. solve_decision. Defined.

Record OutputSignals := mk_OutputSignals {
  wants_running : bool;
  retries_exhausted : bool;
  has_ingest : bool;
  blocked_by : option (string * string);
  os_shard : option (Z * ShardHealth);
  failing : bool;
  last_failure : option (option string * string);
  os_retry : option (Z * Z);
  backpressure : option string;
  os_stalled : bool;
}.

Definition RETRY_BUDGET_WARN_PCT : Z := 80.
Definition CAPACITY_REFUSED_PHASE : string := "egress_capacity".

(** [u64] multiplication in a release build *)
Definition mul_u64 (a b : Z) : Z := as_u64 (a * b).

Definition capacity_refused (s : OutputSignals) : option string :=
  if failing s
  then match last_failure s with
       | Some (Some phase, error) =>
           if bool_decide (phase = CAPACITY_REFUSED_PHASE) then Some error else None
       | _ => None
       end
  else None.

Definition destination_cause (s : OutputSignals) : option Cause :=
  let rest :=
    if failing s
    then let '(phase, error) :=
           default (None, "failed without a reported error"%string) (last_failure s) in
         Some (Rejected phase error)
    else match backpressure s with
         | Some reason => Some (Backpressured (bool_decide (reason = "stalled"%string)))
         | None => if os_stalled s then Some NoProgress else None
         end in
  match os_retry s with
  | Some (attempts, max) =>
      if (0 <? max) && (mul_u64 max RETRY_BUDGET_WARN_PCT <=? mul_u64 attempts 100)
      then Some (RetryBudgetNearlySpent attempts max) else rest
  | None => rest
  end.

Definition diagnose (s : OutputSignals) : option Diagnosis :=
  if negb (wants_running s) then None
  else if retries_exhausted s then Some (mk_Diagnosis LDestination RetriesExhausted [])
  else if negb (has_ingest s) then Some (mk_Diagnosis LIngest NoPublisher [])
  else match blocked_by s with
  | Some (stage, phase) => Some (mk_Diagnosis LFeed (StageNotProducing stage phase) [LIngest])
  | None =>
      let after ruled_out :=
        match capacity_refused s with
        | Some error => Some (mk_Diagnosis LShard (CapacityRefused error) ruled_out)
        | None => (fun cause => mk_Diagnosis LDestination cause ruled_out) <$> destination_cause s
        end in
      match os_shard s with
      | Some (shard, ShPanicked) => Some (mk_Diagnosis LShard (ShardPanicked shard) [LIngest; LFeed])
      | Some (shard, ShStalled) => Some (mk_Diagnosis LShard (ShardStalled shard) [LIngest; LFeed])
      | Some (shard, ShStopped) => Some (mk_Diagnosis LShard (ShardStopped shard) [LIngest; LFeed])
      | Some (_, ShHealthy) => after [LIngest; LFeed; LShard]
      | None => after [LIngest; LFeed]
      end
  end.

(** ** The layers *)

(** A layer's own verdict on the signals, and its rank along the media path. *)
Definition rank (l : Layer) : Z :=
  match l with LIngest => 0 | LFeed => 1 | LShard => 2 | LDestination => 3 end.

Definition layer_unhealthy (s : OutputSignals) (l : Layer) : bool :=
  match l with
  | LIngest => negb (has_ingest s)
  | LFeed => match blocked_by s with Some _ => true | None => false end
  | LShard =>
      match os_shard s with Some (_, h) => negb (bool_decide (h = ShHealthy)) | None => false end
      || match capacity_refused s with Some _ => true | None => false end
  | LDestination => match destination_cause s with Some _ => true | None => false end
  end.

(** A layer that was looked at: a shard only when the output runs on one. *)
Definition inspected (s : OutputSignals) (l : Layer) : bool :=
  match l with LShard => match os_shard s with Some _ => true | None => false end | _ => true end.

(** ** Theorems *)

(** The diagnosis of a running output whose restart budget is not spent is its first
    unhealthy layer along the media path: none exactly when every layer is healthy,
    and otherwise the layer named is unhealthy, every layer upstream of it is healthy,
    and the layers ruled out are healthy layers that were looked at. *)
Theorem diagnosis_is_first_unhealthy_layer s :
  wants_running s = true -> retries_exhausted s = false ->
  match diagnose s with
  | None => forall l, layer_unhealthy s l = false
  | Some d =>
      layer_unhealthy s (dg_layer d) = true
      /\ (forall l, rank l < rank (dg_layer d) -> layer_unhealthy s l = false)
      /\ Forall (fun l => layer_unhealthy s l = false \/ l = LShard /\ dg_layer d = LShard)
           (dg_ruled_out d)
      /\ (forall l, rank l < rank (dg_layer d) -> inspected s l = true -> l ∈ dg_ruled_out d)
  end.
Proof.
  intros Hw Hr. unfold diagnose. rewrite Hw, Hr. cbn [negb].
  destruct (has_ingest s) eqn:Ei; cbn [negb].
  2: { split_and!; cbn; [by rewrite Ei|intros []; cbn; lia|constructor|intros []; cbn; lia]. }
  destruct (blocked_by s) as [[stage phase]|] eqn:Eb.
  { split_and!; cbn; [by rewrite Eb| | |].
    - intros []; cbn; try lia. by rewrite Ei.
    - constructor; [left; cbn; by rewrite Ei|constructor].
    - intros []; cbn; try lia. set_solver. }
  destruct (os_shard s) as [[shard []]|] eqn:Es.
  1, 5: destruct (capacity_refused s) as [e|] eqn:Ec;
    [|destruct (destination_cause s) as [c|] eqn:Ed]; cbn.
  all: try (intros []; cbn; rewrite ?Ei, ?Eb, ?Es, ?Ec, ?Ed; done).
  all: cbn; split_and!; [rewrite ?Ei, ?Eb, ?Es, ?Ec, ?Ed; done| | |];
    try (intros []; cbn; rewrite ?Ei, ?Eb, ?Es, ?Ec, ?Ed; try done; intros; try lia; set_solver).
  all: repeat (constructor; [cbn; rewrite ?Ei, ?Eb, ?Es, ?Ec, ?Ed; tauto|]); constructor.
Qed.

Definition example_signals : OutputSignals :=
  mk_OutputSignals true false true None (Some (3, ShStalled)) true
    (Some (Some "connect"%string, "connection refused"%string)) (Some (9, 10)) None true.

Lemma diagnosis_is_first_unhealthy_layer_witness :
  diagnose example_signals = Some (mk_Diagnosis LShard (ShardStalled 3) [LIngest; LFeed])
  /\ forall l, rank l < 2 -> layer_unhealthy example_signals l = false.
Proof.
  split; [reflexivity|].
  exact (proj1 (proj2 (diagnosis_is_first_unhealthy_layer example_signals eq_refl eq_refl))).
Defined.
