(* ===== verification/Alerts.v ===== *)
(** * Alerts

    Models [crates/restream-health/src/alerts.rs] and [alerts/output.rs]: the alerts
    derived from a health snapshot.  The snapshot is a [serde_json::Value]: the type
    [Json] with the accessors the code uses. *)

From Stdlib Require Import Sorting.Sorted.
From S2P Require Import Prelude Text Diagnosis.

Open Scope Z_scope.

(** ** JSON *)

Inductive Json :=
| JNull
| JBool (b : bool)
| JInt (n : Z)
| JFloat (f : f64)
| JString (s : string)
| JArray (l : list Json)
| JObject (m : list (string * Json)).

Fixpoint assoc {A} (key : string) (m : list (string * A)) : option A :=
  match m with
  | [] => None
  | (k, v) :: m' => if bool_decide (k = key) then Some v else assoc key m'
  end.

(** [value.get(key)] and [value[key]] *)
Definition jget (j : Json) (key : string) : option Json :=
  match j with JObject m => assoc key m | _ => None end.
Definition jindex (j : Json) (key : string) : Json := default JNull (jget j key).
Definition as_u64_json (j : Json) : option Z :=
  match j with JInt n => if (0 <=? n) && (n <? 2 ^ 64) then Some n else None | _ => None end.
Definition as_str (j : Json) : option string :=
  match j with JString s => Some s | _ => None end.
Definition as_bool (j : Json) : option bool :=
  match j with JBool b => Some b | _ => None end.
Definition as_array (j : Json) : option (list Json) :=
  match j with JArray l => Some l | _ => None end.
Definition as_object (j : Json) : option (list (string * Json)) :=
  match j with JObject m => Some m | _ => None end.

Definition get_u64 (j : Json) (key : string) : option Z := jget j key ≫= as_u64_json.
Definition get_str (j : Json) (key : string) : option string := jget j key ≫= as_str.

(** [format!("{:.n}", x)]: the exact value rounded half to even to [n] places. *)
Definition round_half_even (num den : Z) : Z :=
  let q := num / den in
  let r := num mod den in
  if 2 * r <? den then q else if den <? 2 * r then q + 1 else if Z.even q then q else q + 1.
Definition fixed_digits (n : nat) (z : Z) : string :=
  let s := display z in
  String.concat "" (replicate (n - String.length s) "0"%string) +:+ s.
Definition fmt_prec (n : nat) (x : f64) : string :=
  let p := 10 ^ Z.of_nat n in
  let scaled := match x with
                | S754_finite _ m e =>
                    if 0 <=? e then Z.pos m * 2 ^ e * p
                    else round_half_even (Z.pos m * p) (2 ^ (- e))
                | _ => 0
                end in
  let digits := if (n =? 0)%nat then display scaled
                else display (scaled / p) +:+ "." +:+ fixed_digits n (scaled mod p) in
  let signed (negative : bool) body := if negative then "-" +:+ body else body in
  match x with
  | S754_nan => "NaN"
  | S754_infinity negative => signed negative "inf"%string
  | S754_zero negative => signed negative digits
  | S754_finite negative _ _ => signed negative digits
  end.

(** ** The alert *)

Inductive Severity := SevCritical | SevWarning.
Inductive Scope := ScEngine | ScPipeline | ScStage | ScOutput.
Inductive Confidence := Measured | Derived.
Record Evidence := mk_Evidence { signal : string; confidence : Confidence }.
Definition measured (s : string) : Evidence := mk_Evidence s Measured.
Definition derived (s : string) : Evidence := mk_Evidence s Derived.

Definition severity_rank (s : Severity) : Z :=
  match s with SevCritical => 0 | SevWarning => 1 end.

Record Alert := mk_Alert {
  al_id : string;
  al_severity : Severity;
  al_scope : Scope;
  al_pipeline_id : option string;
  al_stage_id : option string;
  al_output_id : option string;
  al_title : string;
  al_cause : string;
  al_evidence : list Evidence;
  al_recommended_action : string;
  al_generated_at : string;
  al_first_seen : option string;
  al_last_seen : option string;
  al_diagnosis : option Diagnosis;
}.

Definition Alert_new (id : string) (severity : Severity) (scope : Scope) (title cause : string)
    (evidence : list Evidence) (recommended_action generated_at : string) : Alert :=
  mk_Alert id severity scope None None None title cause evidence recommended_action generated_at
    None None None.

(** [Alert { pipeline_id, stage_id, output_id, ..alert }] *)
Definition scoped (pipeline_id stage_id output_id : option string) (a : Alert) : Alert :=
  mk_Alert (al_id a) (al_severity a) (al_scope a) pipeline_id stage_id output_id (al_title a)
    (al_cause a) (al_evidence a) (al_recommended_action a) (al_generated_at a) (al_first_seen a)
    (al_last_seen a) (al_diagnosis a).
Definition with_evidence (a : Alert) (more : list Evidence) : Alert :=
  mk_Alert (al_id a) (al_severity a) (al_scope a) (al_pipeline_id a) (al_stage_id a)
    (al_output_id a) (al_title a) (al_cause a) (al_evidence a ++ more) (al_recommended_action a)
    (al_generated_at a) (al_first_seen a) (al_last_seen a) (al_diagnosis a).
Definition with_diagnosis (a : Alert) (d : Diagnosis) : Alert :=
  mk_Alert (al_id a) (al_severity a) (al_scope a) (al_pipeline_id a) (al_stage_id a)
    (al_output_id a) (al_title a) (al_cause a) (al_evidence a) (al_recommended_action a)
    (al_generated_at a) (al_first_seen a) (al_last_seen a) (Some d).

Definition REPEATED_RESYNC_WARN_THRESHOLD : Z := 5.
Definition BLACK_ALERT_MS : Z := 10000.
Definition STILL_ALERT_MS : Z := 30000.
Definition SILENT_ALERT_MS : Z := 10000.
Definition LAG_SLOTS_WARN : Z := 256.
Definition CAPACITY_WAIT_WARN_MS : Z := 5000.
Definition SRT_RECV_BUFFER_WARN_PCT : f64 := f64_from 80.
Definition SRT_RECV_BUFFER_CRITICAL_PCT : f64 := f64_from 95.
Definition COMMAND_CHANNEL_OVERLOAD_WARN_PCT : f64 := f64_from 80.
Definition EGRESS_PROGRESS_STALE_MS : Z := 10000.

Definition f64_ge (a b : f64) : bool := SFleb b a.

Definition stage_phase_name (stage_info : Json) : string :=
  default ""%string
    (jget stage_info "phase" ≫= fun phase =>
       match phase with
       | JString s => Some s
       | _ => get_str phase "phase"
       end).

Definition blocked_output_action (phase : string) : string :=
  if bool_decide (phase = "waitingForCapacity"%string)
  then "Increase external FFmpeg capacity, reduce concurrent transcode outputs, or lower encoding presets."
  else if bool_decide (phase = "waitingForKeyframe"%string)
  then "Shorten the source GOP/keyframe interval or wait for the next keyframe."
  else if bool_decide (phase = "runningNoOutputYet"%string)
  then "Check backend stderr, codec compatibility, and stage output progress."
  else if bool_decide (phase = "failed"%string)
  then "Inspect the upstream stage failure and restart or reconfigure the affected output."
  else "Inspect the upstream stage lifecycle and dependency chain for the blocked output.".

Definition srt_recv_buffer_occupancy (quality : Json) : option (Z * Z * f64) :=
  buffered ← get_u64 quality "srtRecvBufPackets";
  capacity ← get_u64 quality "srtRecvBufCapacityPackets";
  if capacity =? 0 then None
  else Some (buffered, capacity, f64_mul (f64_div (f64_from buffered) (f64_from capacity)) (f64_from 100)).

(** ** Outputs *)

Definition ShardHealthMap : Type := gmap (string * Z) ShardHealth.

Definition shard_entry (shard : Json) : (string * Z) * ShardHealth :=
  let feed := default ""%string (get_str shard "feedId") in
  let index := default 0 (get_u64 shard "shardIndex") in
  let health :=
    match get_str shard "state" with
    | Some s => if bool_decide (s = "panicked"%string) then ShPanicked
                else if bool_decide (s = "stalled"%string) then ShStalled
                else if bool_decide (s = "stopped"%string) then ShStopped
                else ShHealthy
    | None => ShHealthy
    end in
  ((feed, index), health).

Definition snapshot_shards (snapshot : Json) : list Json :=
  default [] (as_array (jindex snapshot "egressFabricShards")).

(** [collect] into a map: a later entry with the same key replaces an earlier one. *)
Definition shard_health_map (snapshot : Json) : ShardHealthMap :=
  fold_left (fun m e => <[e.1 := e.2]> m) (map shard_entry (snapshot_shards snapshot)) ∅.

Definition output_signals (output : Json) (input_on : bool) (shards : ShardHealthMap)
    (max_retries : Z) : OutputSignals :=
  let status := default ""%string (get_str output "status") in
  let phase := default ""%string (get_str output "phase") in
  let blocked :=
    match jget output "blockedBy" with
    | Some (JObject m) =>
        let b := JObject m in
        let stage := match get_str b "stage" with
                     | Some s => s
                     | None => default "unknown"%string (get_str output "terminalStage")
                     end in
        Some (stage, stage_phase_name b)
    | _ => None
    end in
  let shard :=
    match get_str output "fabricFeed", get_u64 output "shardId" with
    | Some feed, Some index => Some (as_u32 index, default ShHealthy (shards !! (feed, index)))
    | _, _ => None
    end in
  let total_size :=
    default 0 ((match jget output "totalSize" with
                | Some v => Some v
                | None => jget output "bytesOut"
                end) ≫= as_u64_json) in
  let progress_age_ms := default 0 (get_u64 output "lastProgressAgeMs") in
  mk_OutputSignals true false input_on blocked shard
    (bool_decide (status = "retrying"%string) || bool_decide (status = "failed"%string)
     || bool_decide (status = "stopped"%string) || bool_decide (phase = "failed"%string))
    ((fun error => (get_str output "failurePhase", error)) <$> get_str output "lastError")
    (match get_u64 output "retryAttempts" with
     | Some attempts =>
         if bool_decide (status = "retrying"%string) then Some (as_u32 attempts, max_retries) else None
     | None => None
     end)
    (get_str output "backpressureReason")
    (bool_decide (status = "stalled"%string)
     || ((0 <? total_size) && (EGRESS_PROGRESS_STALE_MS <=? progress_age_ms))).

Definition layer_name (l : Layer) : string :=
  match l with
  | LIngest => "ingest"
  | LFeed => "feed"
  | LShard => "shard"
  | LDestination => "destination"
  end.

Definition output_alert (pipeline_id output_id : string) (output : Json) (diagnosis : Diagnosis)
    (generated_at : string) : option Alert :=
  let status := default ""%string (get_str output "status") in
  let id code := "pipeline:" +:+ pipeline_id +:+ ":output:" +:+ output_id +:+ ":" +:+ code in
  let named rest := "Output '" +:+ output_id +:+ "'" +:+ rest in
  let new code title cause evidence action :=
    Alert_new (id code) SevWarning ScOutput title cause evidence action generated_at in
  let found : option (option string * Alert) :=
    match dg_cause diagnosis with
    | NoPublisher | ShardPanicked _ | ShardStalled _ | ShardStopped _ => None
    | RetriesExhausted => None
    | Backpressured false => None
    | StageNotProducing stage phase =>
        let backend := default "unknown"%string (get_str (jindex output "blockedBy") "backend") in
        Some (Some stage,
          new "blocked_by_stage"%string (named " is blocked by upstream stage")
            ("The output is waiting on stage '" +:+ stage +:+ "' in phase '" +:+ phase +:+ "'.")
            [derived ("blockedBy.stage = " +:+ stage); measured ("blockedBy.phase = " +:+ phase);
             measured ("blockedBy.backend = " +:+ backend)]
            (blocked_output_action phase))
    | CapacityRefused error =>
        Some (None,
          new "egress_capacity_refused"%string (named " was refused: egress capacity is full")
            "Admitting this output would push the feed's least-loaded egress shard past its load ceiling and degrade every output on it, so it was refused. It retries on its restart backoff until its retry budget is spent."%string
            [measured error]
            "Stop other outputs of this pipeline, or run this destination on a host with more CPUs."%string)
    | RetryBudgetNearlySpent attempts max =>
        let backoff_ms := default 0 (get_u64 output "retryBackoffMs") in
        Some (None,
          new "retry_admission_saturation"%string (named " is close to exhausting its retry budget")
            "The output has failed and retried repeatedly; once it reaches the configured retry ceiling it stops retrying and requires manual intervention to restart."%string
            [measured ("retryAttempts = " +:+ display attempts +:+ " / outputMaxRetries = "
                       +:+ display max +:+ ", retryBackoffMs = " +:+ display backoff_ms)]
            "Investigate why the destination keeps rejecting connections before the retry budget is exhausted, or raise RESTREAM_OUTPUT_MAX_RETRIES."%string)
    | Rejected phase error =>
        if bool_decide (get_str output "phase" = Some "failed"%string) then
          let phase := default "unknown"%string phase in
          Some (None,
            new "failed_phase"%string (named " reported an egress failure")
              ("Output failed during the '" +:+ phase +:+ "' phase.")
              [measured "output.phase = failed"; measured ("lastError = " +:+ error)]
              "Check destination reachability, credentials, and protocol settings."%string)
        else
          Some (None,
            new "not_running"%string (named " is not running")
              ("Output status is '" +:+ status +:+ "' while the pipeline has an active publisher.")
              [measured ("output.status = " +:+ status)]
              "Check the destination URL, credentials, and network reachability."%string)
    | Backpressured true =>
        Some (None,
          new "send_path_stalled"%string (named " cannot drain its send path")
            "Data waits on the send path and has not drained within the deadline."%string
            [derived "backpressureReason = stalled"]
            "Check the destination's receive rate and the network path to it."%string)
    | NoProgress =>
        let age_ms := default 0 (get_u64 output "lastProgressAgeMs") in
        Some (None,
          new "stale_progress"%string (named " has stopped making progress")
            "The output is still registered but has not completed a send recently."%string
            [measured ("lastProgressAgeMs = " +:+ display age_ms +:+ " (threshold "
                       +:+ display EGRESS_PROGRESS_STALE_MS +:+ ")")]
            "Check downstream network health or restart the output if it remains stale."%string)
    end in
  (fun '(stage_id, a) =>
     let a := scoped (Some pipeline_id) stage_id (Some output_id) a in
     let a := match dg_ruled_out diagnosis with
              | [] => a
              | ruled_out =>
                  with_evidence a [derived ("ruled out: " +:+ join ", " (map layer_name ruled_out))]
              end in
     with_diagnosis a diagnosis) <$> found.

(** What the derivation accumulates: the outputs each unhealthy shard affects, and the
    alerts. *)
Record Acc := mk_Acc { affected : gmap (string * Z) Z; alerts : list Alert }.
Definition push (a : Alert) (s : Acc) : Acc := mk_Acc (affected s) (alerts s ++ [a]).
Definition push_all (l : list Alert) (s : Acc) : Acc := mk_Acc (affected s) (alerts s ++ l).

Definition push_output (pipeline_id : string) (input_on : bool) (shards : ShardHealthMap)
    (max_retries : Z) (generated_at : string) (s : Acc) (o : string * Json) : Acc :=
  let '(output_id, output) := o in
  match diagnose (output_signals output input_on shards max_retries) with
  | None => s
  | Some diagnosis =>
      let s := if bool_decide (dg_layer diagnosis = LShard)
               then match get_str output "fabricFeed", get_u64 output "shardId" with
                    | Some feed, Some index =>
                        let n := default 0 (affected s !! (feed, index)) in
                        mk_Acc (<[(feed, index) := n + 1]> (affected s)) (alerts s)
                    | _, _ => s
                    end
               else s in
      match output_alert pipeline_id output_id output diagnosis generated_at with
      | Some a => push a s
      | None => s
      end
  end.

Definition push_output_alerts (pipeline_id : string) (pipeline : Json) (input_on : bool)
    (shards : ShardHealthMap) (max_retries : Z) (generated_at : string) (s : Acc) : Acc :=
  match jget pipeline "outputs" ≫= as_object with
  | None => s
  | Some outputs =>
      fold_left (push_output pipeline_id input_on shards max_retries generated_at) outputs s
  end.

(** ** Engine and pipeline checks *)

Definition opt_alert (b : bool) (a : Alert) : list Alert := if b then [a] else [].

Definition nofile_alerts (snapshot : Json) (generated_at : string) : list Alert :=
  let nofile := jindex (jindex snapshot "runtimeLimits") "nofile" in
  match jget nofile "satisfied" ≫= as_bool with
  | Some false =>
      let configured := default 0 (get_u64 nofile "configured") in
      let line name v := match v with
                         | Some n => [measured (name +:+ " = " +:+ display n)]
                         | None => []
                         end in
      [Alert_new "engine:runtime:nofile_limit_too_low" SevWarning ScEngine
         "Runtime file descriptor limit is below configured target"
         "The process cannot open enough sockets/files for high fanout workloads."
         (measured ("configured = " +:+ display configured)
          :: line "soft"%string (get_u64 nofile "soft") ++ line "hard"%string (get_u64 nofile "hard"))
         "Run the documented host bootstrap/configuration and restart Restream with the requested nofile limit available."
         generated_at]
  | _ => []
  end.

Definition rtmp_listener_alerts (snapshot : Json) (generated_at : string) : list Alert :=
  let rtmp := jindex snapshot "rtmpListener" in
  let fd_exhaustion := default 0 (get_u64 rtmp "fdExhaustionErrors") in
  let accept_errors := default 0 (get_u64 rtmp "acceptErrors") in
  opt_alert (0 <? fd_exhaustion)
    (Alert_new "engine:rtmp_listener:fd_exhaustion" SevCritical ScEngine
       "RTMP listener exhausted file descriptors"
       "The RTMP listener hit the process or host open-file limit while accepting connections."
       [measured ("fdExhaustionErrors = " +:+ display fd_exhaustion);
        measured ("acceptErrors = " +:+ display accept_errors)]
       "Raise the process/host nofile limit, reduce concurrent connections, and restart affected publishers."
       generated_at).

Section Pipeline.
Context (pipeline_id generated_at : string).

Definition in_pipeline (code : string) : string := "pipeline:" +:+ pipeline_id +:+ ":" +:+ code.
Definition pipeline_alert (code : string) (severity : Severity) (title cause : string)
    (evidence : list Evidence) (action : string) : Alert :=
  scoped (Some pipeline_id) None None
    (Alert_new (in_pipeline code) severity ScPipeline title cause evidence action generated_at).

Definition no_publisher_alert : Alert :=
  pipeline_alert "no_publisher" SevCritical "No active publisher"
    "The pipeline is configured but not receiving a stream." [measured "input.status = off"]
    "Start the publisher or check the stream key and connection.".

Definition srt_buffer_alerts (input : Json) : list Alert :=
  match (jget input "publisher" ≫= fun p => jget p "quality") ≫= srt_recv_buffer_occupancy with
  | Some (recv_packets, capacity_packets, pct) =>
      if f64_ge pct SRT_RECV_BUFFER_WARN_PCT then
        let critical := f64_ge pct SRT_RECV_BUFFER_CRITICAL_PCT in
        [pipeline_alert "input:srt_recv_buffer_saturated"
           (if critical then SevCritical else SevWarning)
           (if critical then "SRT publisher ingest is not being drained"
            else "SRT publisher ingest receive buffer is filling")%string
           "The SRT application receive buffer is full or nearly full. The publisher can still be connected while Restream is not draining ingest data, so downstream outputs will stall. The kernel UDP queue may still look empty: the packets have already entered the srt-rs Owner."
           [measured ("srtRecvBufPackets = " +:+ display recv_packets +:+ " / "
                      +:+ display capacity_packets +:+ " (" +:+ fmt_prec 0 pct +:+ "%)")]
           "Treat this as an input/ingest issue first: restart the affected publisher or Restream, then inspect SRT ingest readiness if it recurs."]
      else []
  | None => []
  end.

Definition seconds (ms : Z) : string := display (ms / 1000) +:+ " s".

Definition still_alert (qa : Json) (ms : Z) : Alert :=
  let slate := bool_decide ((jget qa "stillIsSlate" ≫= as_bool) = Some true) in
  let evidence := [measured ("unchanged for " +:+ seconds ms)] in
  if slate then
    pipeline_alert "input:picture_slate" SevWarning "A slate is on air"
      "The picture has stayed the same and looks drawn (bars, a card or a still graphic): viewers see a slate, not the program."
      evidence "If the slate is not planned, switch the encoder back to the program scene."
  else
    pipeline_alert "input:picture_frozen" SevWarning "Picture is frozen"
      "The source keeps sending, but the camera picture has stayed exactly the same. A frozen camera or a stuck capture looks like this."
      evidence "Restart the camera or capture source on the encoder.".

Definition picture_alerts (qa : Json) : list Alert :=
  let still := match get_u64 qa "stillForMs" with
               | Some ms => opt_alert (STILL_ALERT_MS <=? ms) (still_alert qa ms)
               | None => []
               end in
  match get_u64 qa "blackForMs" with
  | Some ms =>
      if BLACK_ALERT_MS <=? ms then
        [pipeline_alert "input:picture_black" SevCritical "Picture is black"
           "The source is connected and sending, but its picture is black, so every destination shows black."
           [measured ("black for " +:+ seconds ms)]
           "Check the encoder's scene, camera or capture input; the stream itself is fine."]
      else still
  | None => still
  end.

Definition silent_alerts (qa : Json) : list Alert :=
  match get_u64 qa "silentForMs" with
  | Some ms =>
      opt_alert (SILENT_ALERT_MS <=? ms)
        (pipeline_alert "input:audio_silent" SevWarning "Sound is silent"
           "The source's first audio track has carried no sound."
           [measured ("silent for " +:+ seconds ms)]
           "Check the encoder's audio input and mixer, and that the right track is first.")
  | None => []
  end.

Definition silent_track_alerts (silent : Json) : list Alert :=
  match get_u64 silent "track", get_u64 silent "silentForMs" with
  | Some track, Some ms =>
      let n := display (as_u64 (track + 1)) in
      if ms <? SILENT_ALERT_MS then []
      else
        [pipeline_alert ("input:audio_silent:track" +:+ n) SevWarning
           ("Audio track " +:+ n +:+ " is silent")
           ("The source's audio track " +:+ n +:+ " has carried no sound.")
           [measured ("silent for " +:+ seconds ms)]
           "Check that the encoder routes a source to this track, or drop the track if it is not meant to carry sound."]
  | _, _ => []
  end.

Definition qa_alerts (input : Json) : list Alert :=
  match jget input "qa" with
  | None => []
  | Some qa =>
      picture_alerts qa ++ silent_alerts qa
      ++ mjoin (map silent_track_alerts (default [] (jget qa "silentTracks" ≫= as_array)))
  end.

Definition stage_scoped (stage : string) (code title cause : string) (evidence : list Evidence)
    (action : string) : Alert :=
  scoped (Some pipeline_id) (Some stage) None
    (Alert_new (in_pipeline ("stage:" +:+ stage +:+ ":" +:+ code)) SevWarning ScStage title cause
       evidence action generated_at).

Definition reader_alerts (reader : Json) : list Alert :=
  let name := default "unknown"%string (get_str reader "name") in
  let lag := default 0 (get_u64 reader "lagSlots") in
  let overflows := default 0 (get_u64 reader "overflowCount") in
  opt_alert (LAG_SLOTS_WARN <? lag)
    (stage_scoped name "lag" ("Stage '" +:+ name +:+ "' is lagging behind the ring buffer")
       "The consumer is reading slower than the producer is writing."
       [measured ("lagSlots = " +:+ display lag +:+ " (threshold " +:+ display LAG_SLOTS_WARN +:+ ")")]
       "Check downstream network/encoder throughput or reduce output bitrate.")
  ++ opt_alert (0 <? overflows)
    (stage_scoped name "overflow"
       ("Stage '" +:+ name +:+ "' has overflowed the ring buffer " +:+ display overflows +:+ " time(s)")
       "The ring buffer was full when this reader tried to consume packets; some packets were skipped."
       [measured ("overflowCount = " +:+ display overflows)]
       "Reduce output count or increase processing throughput.").

Definition pipeline_checks (pipeline : Json) (shards : ShardHealthMap) (max_retries : Z) (s : Acc)
  : Acc :=
  let input := jindex pipeline "input" in
  let input_status := default ""%string (get_str input "status") in
  let s := push_all (opt_alert (bool_decide (input_status = "off"%string)) no_publisher_alert) s in
  let s := push_all (srt_buffer_alerts input) s in
  let s := push_all (qa_alerts input) s in
  let s := push_all (mjoin (map reader_alerts (default [] (jget input "readerMetrics" ≫= as_array)))) s in
  push_output_alerts pipeline_id pipeline (bool_decide (input_status = "on"%string)) shards
    max_retries generated_at s.

End Pipeline.

(** ** Stage checks *)

Definition stage_alerts (generated_at : string) (entry : string * Json) : list Alert :=
  let '(stage_key, stage_info) := entry in
  match split_once (Ascii.ascii_of_nat 58) stage_key with
  | None => []
  | Some (pipeline_id, stage_kind) =>
      let alert := stage_scoped pipeline_id generated_at stage_kind in
      let phase_name := stage_phase_name stage_info in
      let last_error := default "unknown error"%string (get_str stage_info "lastError") in
      let n key := default 0 (get_u64 stage_info key) in
      let packets_in := n "packetsIn"%string in
      let packets_out := n "packetsOut"%string in
      let bytes_in := n "bytesIn"%string in
      let bytes_out := n "bytesOut"%string in
      let capacity_wait_ms := n "capacityWaitMs"%string in
      opt_alert (bool_decide (phase_name = "failed"%string))
        (alert "failed"%string ("Stage '" +:+ stage_kind +:+ "' has failed")
           ("The processing stage failed with error: " +:+ last_error +:+ ".")
           [measured "phase = failed"; measured ("lastError = " +:+ last_error)]
           "Check the transcoder logs, resource limits, and media source compatibility."%string)
      ++ opt_alert (bool_decide (phase_name = "runningNoOutputYet"%string)
                    && ((0 <? packets_in) || (0 <? bytes_in)) && (packets_out =? 0) && (bytes_out =? 0))
        (alert "no_output"%string
           ("Stage '" +:+ stage_kind +:+ "' is receiving input but has no output")
           "The stage backend has accepted input but has not produced any packets."%string
           [measured ("phase = " +:+ phase_name); measured ("packetsIn = " +:+ display packets_in);
            measured ("packetsOut = " +:+ display packets_out);
            measured ("bytesIn = " +:+ display bytes_in); measured ("bytesOut = " +:+ display bytes_out)]
           "Check backend stderr, codec compatibility, and downstream stage readiness."%string)
      ++ opt_alert (bool_decide (phase_name = "waitingForKeyframe"%string)
                    && (starts_with stage_kind "preview:" || bool_decide (stage_kind = "hls"%string)))
        (alert "waiting_for_keyframe"%string
           ("Preview stage '" +:+ stage_kind +:+ "' is waiting for a keyframe")
           "HLS/preview output cannot start until the source produces a video keyframe."%string
           [measured ("phase = " +:+ phase_name)]
           "Shorten the source GOP/keyframe interval or wait for the next keyframe."%string)
      ++ opt_alert (bool_decide (phase_name = "waitingForCapacity"%string)
                    || (CAPACITY_WAIT_WARN_MS <=? capacity_wait_ms))
        (alert "capacity_exhausted"%string
           ("Transcoding capacity exhausted for stage '" +:+ stage_kind +:+ "'")
           "The stage is waiting for transcoding capacity/permits to become available."%string
           [measured ("phase = " +:+ phase_name);
            measured ("capacityWaitMs = " +:+ display capacity_wait_ms +:+ " ms (threshold "
                      +:+ display CAPACITY_WAIT_WARN_MS +:+ ")")]
           "Increase RESTREAM_EXTERNAL_FFMPEG_PERMITS, reduce pipeline count, or lower encoding presets."%string)
  end.

(** ** Shard checks *)

Section Shard.
Context (generated_at : string) (shard_affected : gmap (string * Z) Z) (shard : Json).

Definition sh_protocol : string := default ""%string (get_str shard "protocol").
Definition sh_feed : string := default ""%string (get_str shard "feedId").
Definition sh_index : Z := default 0 (get_u64 shard "shardIndex").
Definition sh_state : string := default ""%string (get_str shard "state").
Definition shard_label : string :=
  sh_protocol +:+ " fabric shard " +:+ display sh_index +:+ " (feed " +:+ sh_feed +:+ ")".
Definition sh_affected : Z := default 0 (shard_affected !! (sh_feed, sh_index)).
Definition affected_evidence : Evidence := derived ("affectedOutputs = " +:+ display sh_affected).
Definition shard_alert_id (code : string) : string :=
  "engine:egress_fabric:" +:+ sh_protocol +:+ ":" +:+ sh_feed +:+ ":" +:+ display sh_index +:+ ":"
  +:+ code.

Definition shard_state_alerts : list Alert :=
  let extra := if 0 <? sh_affected then [affected_evidence] else [] in
  if bool_decide (sh_state = "panicked"%string) then
    [with_evidence
       (Alert_new (shard_alert_id "panicked") SevCritical ScEngine
          ("Egress fabric shard panicked (" +:+ shard_label +:+ ")")
          "The shard's OS thread panicked and every output assigned to it lost its connection. The fabric replaces the shard at its next resize check and those outputs retry with their usual backoff."
          [measured ("state = panicked (" +:+ shard_label +:+ ")")]
          "Check logs for the panic message and stack trace at the time this shard stopped; a shard that keeps panicking points at a backend bug, not the destinations."
          generated_at) extra]
  else if bool_decide (sh_state = "stalled"%string) then
    let age := match get_u64 shard "progressAgeMs" with
               | Some a => [measured ("progressAgeMs = " +:+ display a)]
               | None => []
               end in
    [with_evidence
       (Alert_new (shard_alert_id "stalled") SevWarning ScEngine
          ("Egress fabric shard has made no progress (" +:+ shard_label +:+ ")")
          "The shard has produced no media ticks for longer than the stall threshold; every output assigned to it may be stuck."
          (measured ("state = stalled (" +:+ shard_label +:+ ")") :: age)
          "Check whether this shard's assigned outputs have healthy destinations; a genuinely idle shard with no assigned outputs is expected to age past the threshold and is not itself a problem."
          generated_at) extra]
  else if bool_decide (sh_state = "stopped"%string) && (0 <? sh_affected) then
    [Alert_new (shard_alert_id "stopped") SevWarning ScEngine
       ("Egress fabric shard stopped with outputs assigned (" +:+ shard_label +:+ ")")
       "The shard's loop has ended while outputs still run on it; they cannot deliver."
       [measured ("state = stopped (" +:+ shard_label +:+ ")"); affected_evidence]
       "Check the logs for why the shard stopped; restart the affected outputs."
       generated_at]
  else [].

Definition shard_command_alerts : list Alert :=
  let command_depth := default 0 (get_u64 shard "commandDepth") in
  let command_capacity := default 0 (get_u64 shard "commandCapacity") in
  if 0 <? command_capacity then
    let pct := f64_mul (f64_div (f64_from command_depth) (f64_from command_capacity)) (f64_from 100) in
    opt_alert (f64_ge pct COMMAND_CHANNEL_OVERLOAD_WARN_PCT)
      (Alert_new (shard_alert_id "command_overload") SevWarning ScEngine
         ("Egress fabric shard command channel near capacity (" +:+ shard_label +:+ ")")
         "The shard's command channel (add/remove/update dispatch) is close to full; further commands risk being rejected until the shard catches up."
         [measured ("commandDepth = " +:+ display command_depth +:+ " / commandCapacity = "
                    +:+ display command_capacity +:+ " (" +:+ fmt_prec 1 pct +:+ "%)")]
         "Reduce the rate of output add/remove/update churn against this shard, or raise RESTREAM_EGRESS_COMMAND_CAPACITY."
         generated_at)
  else [].

Definition shard_resync_alerts : list Alert :=
  let resync_count := default 0 (get_u64 shard "resyncCount") in
  opt_alert (REPEATED_RESYNC_WARN_THRESHOLD <=? resync_count)
    (Alert_new (shard_alert_id "repeated_resync") SevWarning ScEngine
       ("Repeated egress resynchronizations detected (" +:+ shard_label +:+ ")")
       "The egress shard is experiencing repeated feed overruns and resynchronizing leaf cursors."
       [measured ("resyncCount = " +:+ display resync_count +:+ " (threshold "
                  +:+ display REPEATED_RESYNC_WARN_THRESHOLD +:+ ")")]
       "Check pipeline ring buffer capacity and downstream network bandwidth."
       generated_at).

Definition shard_alerts : list Alert :=
  shard_state_alerts ++ shard_command_alerts ++ shard_resync_alerts.
End Shard.

(** ** The derivation *)

Definition cmp_then (a b : comparison) : comparison := match a with Eq => b | _ => a end.
Definition cmp_option_string (a b : option string) : comparison :=
  match a, b with
  | None, None => Eq
  | None, Some _ => Lt
  | Some _, None => Gt
  | Some x, Some y => String.compare x y
  end.
Definition cmp_alert (a b : Alert) : comparison :=
  cmp_then (severity_rank (al_severity a) ?= severity_rank (al_severity b))
    (cmp_then (cmp_option_string (al_pipeline_id a) (al_pipeline_id b))
       (String.compare (al_id a) (al_id b))).

(** [sort_by]: a stable sort, so inserting from the right gives its result. *)
Fixpoint insert_alert (a : Alert) (l : list Alert) : list Alert :=
  match l with
  | [] => [a]
  | b :: l' => match cmp_alert a b with
               | Gt => b :: insert_alert a l'
               | _ => a :: l
               end
  end.
Definition sorted (l : list Alert) : list Alert := fold_right insert_alert [] l.

Definition derive_acc (snapshot : Json) : Acc :=
  let generated_at := default ""%string (get_str snapshot "generatedAt") in
  let output_max_retries :=
    default 10 (as_u64_json (jindex (jindex snapshot "tuning") "outputMaxRetries")) in
  let shards := shard_health_map snapshot in
  let s := push_all (nofile_alerts snapshot generated_at ++ rtmp_listener_alerts snapshot generated_at)
             (mk_Acc ∅ []) in
  match jget snapshot "pipelines" ≫= as_object with
  | Some pipelines =>
      fold_left (fun s '(pipeline_id, pipeline) =>
                   pipeline_checks pipeline_id generated_at pipeline shards output_max_retries s)
        pipelines s
  | None => s
  end.

Definition derive_alerts (snapshot : Json) : list Alert :=
  let generated_at := default ""%string (get_str snapshot "generatedAt") in
  let s := derive_acc snapshot in
  let stages := default [] (jget snapshot "stages" ≫= as_object) in
  sorted (alerts s
          ++ mjoin (map (stage_alerts generated_at) stages)
          ++ mjoin (map (shard_alerts generated_at (affected s)) (snapshot_shards snapshot))).

(** ** Names *)

(** [s.replacen(pat, by, 1)] of a pattern that is not empty *)
Fixpoint replace_first (pat by_ s : string) : string :=
  match strip_prefix pat s with
  | Some rest => by_ +:+ rest
  | None => match s with
            | EmptyString => EmptyString
            | String c s' => String c (replace_first pat by_ s')
            end
  end.

Definition with_title (title : string) (a : Alert) : Alert :=
  mk_Alert (al_id a) (al_severity a) (al_scope a) (al_pipeline_id a) (al_stage_id a)
    (al_output_id a) title (al_cause a) (al_evidence a) (al_recommended_action a)
    (al_generated_at a) (al_first_seen a) (al_last_seen a) (al_diagnosis a).

Definition name_subject (pipeline_names output_names : gmap string string) (a : Alert) : Alert :=
  let a := match al_output_id a ≫= fun id => (fun name => (id, name)) <$> output_names !! id with
           | Some (id, name) =>
               with_title (replace_first ("Output '" +:+ id +:+ "'") name (al_title a)) a
           | None => a
           end in
  match al_pipeline_id a ≫= fun id => pipeline_names !! id with
  | Some pipeline => with_title (pipeline +:+ ": " +:+ al_title a) a
  | None => a
  end.
Definition name_subjects (l : list Alert) (pipeline_names output_names : gmap string string)
  : list Alert := map (name_subject pipeline_names output_names) l.

(** ** What the derivation accumulates *)

Definition count (s : Acc) (k : string * Z) : Z := default 0 (affected s !! k).

(** Steps only add alerts and only raise the counts. *)
Definition grows (s s' : Acc) : Prop :=
  (forall a, a ∈ alerts s -> a ∈ alerts s') /\ forall k, count s k <= count s' k.
#[local] Instance grows_preorder : PreOrder grows.
Proof.
  split; [intros s; split; [done|lia]|].
  intros s1 s2 s3 [A1 C1] [A2 C2]. split; [by auto|]. intros k. specialize (C1 k). specialize (C2 k). lia.
Qed.

Lemma push_all_grows l s : grows s (push_all l s).
Proof. split; [intros a; cbn; rewrite elem_of_app; by left|done]. Qed.

(** Whether the diagnosis of an output puts it down to the shard [k]. *)
Definition on_shard (input_on : bool) (shards : ShardHealthMap) (max_retries : Z) (k : string * Z)
    (o : string * Json) : bool :=
  match diagnose (output_signals o.2 input_on shards max_retries),
        get_str o.2 "fabricFeed", get_u64 o.2 "shardId" with
  | Some d, Some feed, Some index =>
      bool_decide (dg_layer d = LShard) && bool_decide (k = (feed, index))
  | _, _, _ => false
  end.

Lemma push_output_count pid input_on shards max_retries ts s o k :
  count (push_output pid input_on shards max_retries ts s o) k
  = count s k + if on_shard input_on shards max_retries k o then 1 else 0.
Proof.
  unfold push_output, on_shard, count. destruct o as [oid o]. cbn [fst snd].
  destruct (diagnose _) as [d|]; [|lia].
  assert (forall s', affected (match output_alert pid oid o d ts with
                               | Some a => push a s' | None => s' end) = affected s') as ->
    by (intros s'; by destruct (output_alert _ _ _ _ _)).
  destruct (bool_decide (dg_layer d = LShard)) eqn:El.
  - destruct (get_str o "fabricFeed") as [feed|]; [|lia].
    destruct (get_u64 o "shardId") as [index|]; [|lia]. cbn.
    destruct (decide (k = (feed, index))) as [->|Ek].
    + rewrite bool_decide_eq_true_2 by done. cbn. by rewrite lookup_insert_eq.
    + rewrite bool_decide_eq_false_2 by done. cbn. rewrite lookup_insert_ne by done. lia.
  - destruct (get_str o "fabricFeed"); [|lia]. destruct (get_u64 o "shardId"); cbn; lia.
Qed.

Lemma push_output_grows pid input_on shards max_retries ts s o :
  grows s (push_output pid input_on shards max_retries ts s o).
Proof.
  split.
  - intros a Ha. unfold push_output. destruct o as [oid o]. destruct (diagnose _); [|done].
    assert (forall s', alerts s' = alerts s ->
      a ∈ alerts (match output_alert pid oid o d ts with Some a' => push a' s' | None => s' end)) as H.
    { intros s' E. destruct (output_alert _ _ _ _ _); cbn; rewrite ?elem_of_app, E; by eauto. }
    apply H. by repeat case_match.
  - intros k. rewrite push_output_count. case_match; lia.
Qed.

(** Folds of growing steps. *)
Section Folds.
Context {A : Type} (f : Acc -> A -> Acc) (Hf : forall s x, grows s (f s x)).

Lemma fold_grows l s : grows s (fold_left f l s).
Proof. revert s. induction l as [|x l IH]; intros s; cbn; [done|]. etrans; [apply Hf|apply IH]. Qed.

Lemma fold_visits l s x : x ∈ l -> exists s1, grows (f s1 x) (fold_left f l s).
Proof.
  intros (l1 & l2 & ->)%list_elem_of_split. rewrite fold_left_app. cbn. eexists. apply fold_grows.
Qed.

Lemma fold_count (g : A -> Z) k :
  (forall s x, count (f s x) k = count s k + g x) ->
  forall l s, count (fold_left f l s) k = count s k + foldr (fun x n => g x + n) 0 l.
Proof. intros Hg l. induction l as [|x l IH]; intros s; cbn; [lia|]. rewrite IH, Hg. lia. Qed.
End Folds.

Definition pipeline_outputs (pipeline : Json) : list (string * Json) :=
  default [] (jget pipeline "outputs" ≫= as_object).
Definition input_status (pipeline : Json) : string :=
  default ""%string (get_str (jindex pipeline "input") "status").
Definition input_on (pipeline : Json) : bool := bool_decide (input_status pipeline = "on"%string).

(** The outputs of a pipeline that are put down to the shard [k]. *)
Definition pipeline_on_shard (shards : ShardHealthMap) (max_retries : Z) (k : string * Z)
    (p : string * Json) : Z :=
  foldr (fun o n => (if on_shard (input_on p.2) shards max_retries k o then 1 else 0) + n) 0
    (pipeline_outputs p.2).

Lemma push_output_alerts_fold pid pipeline on shards max_retries ts s :
  push_output_alerts pid pipeline on shards max_retries ts s
  = fold_left (push_output pid on shards max_retries ts) (pipeline_outputs pipeline) s.
Proof. unfold push_output_alerts, pipeline_outputs. by destruct (_ ≫= _). Qed.

Lemma pipeline_checks_count pid ts pipeline shards max_retries s k :
  count (pipeline_checks pid ts pipeline shards max_retries s) k
  = count s k + pipeline_on_shard shards max_retries k (pid, pipeline).
Proof.
  unfold pipeline_checks. rewrite push_output_alerts_fold.
  erewrite fold_count; [reflexivity|]. intros. apply push_output_count.
Qed.

Lemma pipeline_checks_grows pid ts pipeline shards max_retries s :
  grows s (pipeline_checks pid ts pipeline shards max_retries s).
Proof.
  unfold pipeline_checks. rewrite push_output_alerts_fold.
  etrans; [|apply fold_grows, push_output_grows].
  by do 3 (etrans; [|apply push_all_grows]); apply push_all_grows.
Qed.

(** ** Sorting *)

Lemma insert_alert_perm a l : insert_alert a l ≡ₚ a :: l.
Proof.
  induction l as [|b l IH]; cbn; [done|]. destruct (cmp_alert a b); try done.
  rewrite IH. by constructor.
Qed.

Lemma sorted_perm l : sorted l ≡ₚ l.
Proof. induction l as [|a l IH]; cbn; [done|]. by rewrite insert_alert_perm, IH. Qed.

Lemma cmp_then_opp a b : CompOpp (cmp_then a b) = cmp_then (CompOpp a) (CompOpp b).
Proof. by destruct a. Qed.

Lemma cmp_alert_antisym a b : cmp_alert b a = CompOpp (cmp_alert a b).
Proof.
  unfold cmp_alert. rewrite !cmp_then_opp, <- Z.compare_antisym, <- String.compare_antisym. do 2 f_equal.
  destruct (al_pipeline_id a), (al_pipeline_id b); cbn; try done. apply String.compare_antisym.
Qed.

Definition alert_le (a b : Alert) : Prop := cmp_alert a b <> Gt.

Lemma insert_alert_sorted a l : Sorted alert_le l -> Sorted alert_le (insert_alert a l).
Proof.
  induction 1 as [|b l Hs IH Hb]; cbn; [by repeat constructor|].
  destruct (cmp_alert a b) eqn:E; try (constructor; [by constructor|constructor; unfold alert_le; by rewrite E]).
  constructor; [done|]. assert (alert_le b a) as Hba.
  { unfold alert_le. by rewrite cmp_alert_antisym, E. }
  destruct l as [|c l]; cbn; [by constructor|]. inversion Hb; subst.
  destruct (cmp_alert a c); by constructor.
Qed.

Lemma sorted_sorted l : Sorted alert_le (sorted l).
Proof. induction l as [|a l IH]; cbn; [constructor|]. by apply insert_alert_sorted. Qed.

(** ** What the alerts account for *)

Definition generated_at (snapshot : Json) : string :=
  default ""%string (get_str snapshot "generatedAt").
Definition output_max_retries (snapshot : Json) : Z :=
  default 10 (as_u64_json (jindex (jindex snapshot "tuning") "outputMaxRetries")).
Definition snapshot_pipelines (snapshot : Json) : list (string * Json) :=
  default [] (jget snapshot "pipelines" ≫= as_object).

(** The outputs of the snapshot that are put down to the shard [k]. *)
Definition outputs_on_shard (snapshot : Json) (k : string * Z) : Z :=
  foldr (fun p n =>
           pipeline_on_shard (shard_health_map snapshot) (output_max_retries snapshot) k p + n) 0
    (snapshot_pipelines snapshot).

Definition output_diagnosis (snapshot pipeline output : Json) : option Diagnosis :=
  diagnose (output_signals output (input_on pipeline) (shard_health_map snapshot)
              (output_max_retries snapshot)).

Lemma derive_acc_fold snapshot :
  exists s0, affected s0 = ∅ /\
  derive_acc snapshot
  = fold_left (fun s '(pid, pipeline) =>
       pipeline_checks pid (generated_at snapshot) pipeline (shard_health_map snapshot)
         (output_max_retries snapshot) s) (snapshot_pipelines snapshot) s0.
Proof.
  unfold derive_acc, snapshot_pipelines. fold (generated_at snapshot) (output_max_retries snapshot).
  eexists (push_all _ (mk_Acc ∅ [])). split; [done|]. by destruct (_ ≫= as_object).
Qed.

Lemma derive_acc_count snapshot k : count (derive_acc snapshot) k = outputs_on_shard snapshot k.
Proof.
  destruct (derive_acc_fold snapshot) as (s0 & E0 & ->). erewrite fold_count.
  - unfold count at 1. rewrite E0. reflexivity.
  - intros s [pid p]. apply pipeline_checks_count.
Qed.

Lemma derive_acc_visits snapshot pid pipeline :
  (pid, pipeline) ∈ snapshot_pipelines snapshot ->
  exists s, grows (pipeline_checks pid (generated_at snapshot) pipeline (shard_health_map snapshot)
                     (output_max_retries snapshot) s) (derive_acc snapshot).
Proof.
  intros Hp. destruct (derive_acc_fold snapshot) as (s0 & _ & ->).
  eapply (fold_visits (fun s '(pid, pipeline) => _)) in Hp as [s Hs]; [by exists s|].
  intros s [??]. apply pipeline_checks_grows.
Qed.

Lemma pipeline_checks_visits pid ts pipeline shards max_retries s o :
  o ∈ pipeline_outputs pipeline ->
  exists s1, grows (push_output pid (input_on pipeline) shards max_retries ts s1 o)
               (pipeline_checks pid ts pipeline shards max_retries s).
Proof.
  intros Ho. unfold pipeline_checks. rewrite push_output_alerts_fold.
  apply (fold_visits _ (push_output_grows _ _ _ _ _)). done.
Qed.

Lemma no_publisher_reported pid ts pipeline shards max_retries s :
  input_status pipeline = "off"%string ->
  no_publisher_alert pid ts ∈ alerts (pipeline_checks pid ts pipeline shards max_retries s).
Proof.
  intros E. unfold pipeline_checks. rewrite push_output_alerts_fold.
  apply (fold_grows _ (push_output_grows _ _ _ _ _)).
  do 3 apply push_all_grows. unfold input_status in E. rewrite E. cbn.
  rewrite elem_of_app. right. by apply list_elem_of_singleton.
Qed.

Lemma derive_alerts_elem snapshot a :
  a ∈ derive_alerts snapshot <->
  a ∈ alerts (derive_acc snapshot)
  \/ a ∈ mjoin (map (stage_alerts (generated_at snapshot))
                  (default [] (jget snapshot "stages" ≫= as_object)))
  \/ a ∈ mjoin (map (shard_alerts (generated_at snapshot) (affected (derive_acc snapshot)))
                  (snapshot_shards snapshot)).
Proof. unfold derive_alerts. rewrite sorted_perm, !elem_of_app. done. Qed.

(** A shard's health in the map is the one a snapshot entry with that key reports. *)
Lemma shard_map_entry (l : list Json) (m : gmap (string * Z) ShardHealth) k h :
  fold_left (fun m e => <[e.1 := e.2]> m) (map shard_entry l) m !! k = Some h ->
  m !! k = Some h \/ exists shard, shard ∈ l /\ shard_entry shard = (k, h).
Proof.
  revert m. induction l as [|x l IH]; intros m; cbn [fold_left map]; [by left|].
  intros [Hm|(y & Hy & Ey)]%IH; [|right; exists y; split; [by right|done]].
  destruct (decide (k = (shard_entry x).1)) as [->|Hne].
  - rewrite lookup_insert_eq in Hm. right. exists x. split; [by left|].
    destruct (shard_entry x) as [k' h']. cbn in Hm |- *. by injection Hm as <-.
  - rewrite lookup_insert_ne in Hm by done. by left.
Qed.

Definition shard_cause_state (c : Cause) : option string :=
  match c with
  | ShardPanicked _ => Some "panicked"%string
  | ShardStalled _ => Some "stalled"%string
  | ShardStopped _ => Some "stopped"%string
  | _ => None
  end.

(** A shard cause comes from the state a snapshot shard of the output's key reports. *)
Lemma shard_cause_entry snapshot pipeline output d state :
  output_diagnosis snapshot pipeline output = Some d ->
  shard_cause_state (dg_cause d) = Some state ->
  dg_layer d = LShard /\
  exists feed index shard,
    get_str output "fabricFeed" = Some feed /\ get_u64 output "shardId" = Some index
    /\ shard ∈ snapshot_shards snapshot
    /\ sh_feed shard = feed /\ sh_index shard = index /\ sh_state shard = state.
Proof.
  unfold output_diagnosis, diagnose. set (s := output_signals _ _ _ _).
  cbn [wants_running retries_exhausted]. change (wants_running s) with true.
  change (retries_exhausted s) with false. cbn [negb].
  destruct (has_ingest s); cbn [negb]; [|by intros [= <-]].
  destruct (blocked_by s) as [[]|]; [by intros [= <-]|].
  assert (forall r, match capacity_refused s with
          | Some error => Some (mk_Diagnosis LShard (CapacityRefused error) r)
          | None => (fun cause => mk_Diagnosis LDestination cause r) <$> destination_cause s
          end = Some d -> shard_cause_state (dg_cause d) = None) as Hafter.
  { intros r. unfold destination_cause. repeat case_match; intros; simplify_eq/=; done. }
  destruct (os_shard s) as [[i h]|] eqn:Es; [|intros E%Hafter; congruence].
  unfold s, output_signals in Es. cbn [os_shard] in Es.
  destruct (get_str output "fabricFeed") as [feed|]; [|done].
  destruct (get_u64 output "shardId") as [index|]; [|done].
  injection Es as <- Eh. intros E Hc.
  assert (h <> ShHealthy -> exists shard, shard ∈ snapshot_shards snapshot
            /\ shard_entry shard = ((feed, index), h)) as Hent.
  { intros Hne. destruct (shard_health_map snapshot !! (feed, index)) as [h'|] eqn:Em; [|by subst].
    cbn in Eh. subst h'. unfold shard_health_map in Em.
    apply shard_map_entry in Em as [Em|Em]; [|done].
    unfold ShardHealthMap in Em. by rewrite lookup_empty in Em. }
  assert (forall shard, shard_entry shard = ((feed, index), h) ->
    sh_feed shard = feed /\ sh_index shard = index
    /\ match h with ShHealthy => True | ShStalled => sh_state shard = "stalled"%string
       | ShStopped => sh_state shard = "stopped"%string | ShPanicked => sh_state shard = "panicked"%string end)
    as Hst.
  { intros shard. unfold shard_entry, sh_feed, sh_index, sh_state. intros [= <- <- <-].
    split_and!; [done|done|]. destruct (get_str shard "state"); cbn; repeat case_bool_decide; by subst. }
  destruct h; [by apply Hafter in E; congruence|..]; injection E as <-; injection Hc as <-;
    (split; [done|]); destruct Hent as (shard & Hin & Hsh); try done;
    destruct (Hst _ Hsh) as (? & ? & ?); by eauto 10.
Qed.

Lemma shard_state_reported ts affected shard c state :
  shard_cause_state c = Some state -> sh_state shard = state -> 0 < sh_affected affected shard ->
  exists a, a ∈ shard_alerts ts affected shard /\ al_id a = shard_alert_id shard state /\ al_scope a = ScEngine
            /\ affected_evidence affected shard ∈ al_evidence a.
Proof.
  intros Hc Hs Ha. unfold shard_alerts, shard_state_alerts. rewrite Hs.
  assert ((0 <? sh_affected affected shard) = true) as -> by lia.
  destruct c; simplify_eq; injection Hc as <-; cbn.
  all: eexists; split_and!; [rewrite elem_of_app; left; by apply list_elem_of_singleton|done|done|].
  all: cbn; set_solver.
Qed.

(** An output's own alert, when its cause has one. *)
Lemma output_alert_scope pid oid output d ts a :
  output_alert pid oid output d ts = Some a ->
  al_pipeline_id a = Some pid /\ al_output_id a = Some oid /\ al_diagnosis a = Some d.
Proof. unfold output_alert. repeat case_match; intros; simplify_option_eq; by destruct (dg_ruled_out d). Qed.

(** *** Diagnoses among the alerts *)

(** The causes an output has an alert of its own for. *)
Definition raises (c : Cause) : bool :=
  match c with
  | NoPublisher | ShardPanicked _ | ShardStalled _ | ShardStopped _ | RetriesExhausted | Backpressured false => false
  | _ => true
  end.
Definition diagnosed_well (a : Alert) : Prop := forall d, al_diagnosis a = Some d -> raises (dg_cause d) = true.
Definition quiet (l : list Alert) : Prop := Forall (fun a => al_diagnosis a = None) l.

Lemma quiet_well l : quiet l -> Forall diagnosed_well l.
Proof. intros H. eapply Forall_impl; [exact H|]. intros a E d. cbn in E. by rewrite E. Qed.
Lemma quiet_app l k : quiet l -> quiet k -> quiet (l ++ k).
Proof. apply Forall_app_2. Qed.
Lemma quiet_one a : al_diagnosis a = None -> quiet [a].
Proof. by repeat constructor. Qed.
Lemma quiet_opt b a : al_diagnosis a = None -> quiet (opt_alert b a).
Proof. destruct b; by repeat constructor. Qed.
Lemma quiet_join {A} (f : A -> list Alert) l : (forall x, quiet (f x)) -> quiet (mjoin (map f l)).
Proof. intros Hf. unfold quiet. induction l as [|x l IH]; cbn; [constructor|]. by apply Forall_app_2; [apply Hf|]. Qed.

Ltac quiet :=
  repeat first [apply quiet_app | apply quiet_opt | apply quiet_join; intros ?
               | apply quiet_one | apply Forall_nil_2 | case_match | progress cbn | done].

Lemma nofile_quiet snapshot ts : quiet (nofile_alerts snapshot ts).
Proof. unfold nofile_alerts. quiet. Qed.
Lemma rtmp_listener_quiet snapshot ts : quiet (rtmp_listener_alerts snapshot ts).
Proof. unfold rtmp_listener_alerts. quiet. Qed.
Lemma srt_buffer_quiet pid ts input : quiet (srt_buffer_alerts pid ts input).
Proof. unfold srt_buffer_alerts. quiet. Qed.
Lemma qa_quiet pid ts input : quiet (qa_alerts pid ts input).
Proof. unfold qa_alerts, picture_alerts, silent_alerts, silent_track_alerts, still_alert. quiet. Qed.
Lemma readers_quiet pid ts l : quiet (mjoin (map (reader_alerts pid ts) l)).
Proof. unfold reader_alerts. quiet. Qed.
Lemma stage_quiet ts e : quiet (stage_alerts ts e).
Proof. unfold stage_alerts. quiet. Qed.
Lemma shard_quiet ts affected shard : quiet (shard_alerts ts affected shard).
Proof. unfold shard_alerts, shard_state_alerts, shard_command_alerts, shard_resync_alerts. quiet. Qed.

Lemma output_alert_raises pid oid output d ts a :
  output_alert pid oid output d ts = Some a -> diagnosed_well a.
Proof.
  intros Ha d' Hd'. destruct (output_alert_scope _ _ _ _ _ _ Ha) as (_ & _ & E). rewrite E in Hd'. injection Hd' as <-.
  unfold output_alert in Ha. by destruct (dg_cause d) as [ | | | | | | | | |[]| ].
Qed.

Lemma push_output_well pid on shards max_retries ts s o :
  Forall diagnosed_well (alerts s) -> Forall diagnosed_well (alerts (push_output pid on shards max_retries ts s o)).
Proof.
  intros H. unfold push_output. destruct o as [oid o]. destruct (diagnose _) as [d|]; [|done].
  assert (forall s', alerts s' = alerts s ->
    Forall diagnosed_well (alerts (match output_alert pid oid o d ts with Some a => push a s' | None => s' end))) as Hs.
  { intros s' E. destruct (output_alert _ _ _ _ _) as [a|] eqn:Ea; cbn; rewrite E; [|done].
    apply Forall_app_2; [done|]. constructor; [by eapply output_alert_raises|done]. }
  apply Hs. by repeat case_match.
Qed.

Lemma fold_well {A} (f : Acc -> A -> Acc) l :
  (forall s x, Forall diagnosed_well (alerts s) -> Forall diagnosed_well (alerts (f s x))) ->
  forall s, Forall diagnosed_well (alerts s) -> Forall diagnosed_well (alerts (fold_left f l s)).
Proof. intros Hf. induction l as [|x l IH]; intros s H; cbn; [done|]. by apply IH, Hf. Qed.

Lemma push_all_well l s :
  quiet l -> Forall diagnosed_well (alerts s) -> Forall diagnosed_well (alerts (push_all l s)).
Proof. intros Hl H. apply Forall_app_2; [done|by apply quiet_well]. Qed.

Lemma pipeline_checks_well pid ts pipeline shards max_retries s :
  Forall diagnosed_well (alerts s) ->
  Forall diagnosed_well (alerts (pipeline_checks pid ts pipeline shards max_retries s)).
Proof.
  intros H. unfold pipeline_checks. rewrite push_output_alerts_fold. apply fold_well; [intros; by apply push_output_well|].
  apply push_all_well; [apply readers_quiet|]. apply push_all_well; [apply qa_quiet|].
  apply push_all_well; [apply srt_buffer_quiet|]. apply push_all_well; [|done]. by apply quiet_opt.
Qed.

(** A diagnosis carried by an alert is one the output has an alert for. *)
Lemma derive_alerts_well snapshot a : a ∈ derive_alerts snapshot -> diagnosed_well a.
Proof.
  assert (Forall diagnosed_well (alerts (derive_acc snapshot))) as Hacc.
  { assert (Forall diagnosed_well (alerts (push_all (nofile_alerts snapshot (generated_at snapshot)
      ++ rtmp_listener_alerts snapshot (generated_at snapshot)) (mk_Acc ∅ [])))) as H0.
    { apply push_all_well; [|constructor]. apply quiet_app; [apply nofile_quiet|apply rtmp_listener_quiet]. }
    unfold derive_acc. fold (generated_at snapshot). destruct (_ ≫= as_object); [|exact H0].
    apply fold_well; [|exact H0]. intros s [pid p]. apply pipeline_checks_well. }
  rewrite derive_alerts_elem, <- !(elem_of_app (A := Alert)). revert a. apply Forall_forall.
  apply Forall_app_2; [done|]. apply quiet_well, quiet_app; apply quiet_join; intros x;
    [apply stage_quiet|apply shard_quiet].
Qed.

(** No alert carries the diagnosis. *)
Definition unreported (snapshot : Json) (d : Diagnosis) : Prop :=
  forall a, a ∈ derive_alerts snapshot -> al_diagnosis a <> Some d.

Lemma not_raised snapshot d : raises (dg_cause d) = false -> unreported snapshot d.
Proof. intros Hr a Ha E. pose proof (derive_alerts_well _ _ Ha d E). congruence. Qed.

(** What the alerts say of an output diagnosed with [d]. *)
Definition explained (snapshot : Json) (pid : string) (pipeline : Json) (oid : string) (output : Json)
    (d : Diagnosis) : Prop :=
  let shard_down (state : string) :=
    exists shard a,
      shard ∈ snapshot_shards snapshot /\ sh_state shard = state
      /\ get_str output "fabricFeed" = Some (sh_feed shard) /\ get_u64 output "shardId" = Some (sh_index shard)
      /\ a ∈ derive_alerts snapshot /\ al_id a = shard_alert_id shard state /\ al_scope a = ScEngine
      /\ 1 <= outputs_on_shard snapshot (sh_feed shard, sh_index shard)
      /\ derived ("affectedOutputs = " +:+ display (outputs_on_shard snapshot (sh_feed shard, sh_index shard)))
         ∈ al_evidence a in
  match dg_cause d with
  | NoPublisher =>
      input_on pipeline = false /\
      if bool_decide (input_status pipeline = "off"%string)
      then no_publisher_alert pid (generated_at snapshot) ∈ derive_alerts snapshot
      else unreported snapshot d
  | ShardPanicked _ => shard_down "panicked"%string
  | ShardStalled _ => shard_down "stalled"%string
  | ShardStopped _ => shard_down "stopped"%string
  | RetriesExhausted => False
  | Backpressured false => unreported snapshot d
  | _ =>
      exists a, a ∈ derive_alerts snapshot /\ al_pipeline_id a = Some pid
                /\ al_output_id a = Some oid /\ al_diagnosis a = Some d
  end.

Lemma own_alert_reported snapshot pid pipeline oid output d a :
  (pid, pipeline) ∈ snapshot_pipelines snapshot -> (oid, output) ∈ pipeline_outputs pipeline ->
  output_diagnosis snapshot pipeline output = Some d ->
  output_alert pid oid output d (generated_at snapshot) = Some a -> a ∈ derive_alerts snapshot.
Proof.
  intros Hp Ho Hd Ha. apply derive_alerts_elem. left.
  destruct (derive_acc_visits _ _ _ Hp) as (s & Hs). apply Hs.
  edestruct (pipeline_checks_visits pid (generated_at snapshot) pipeline) as (s1 & Hs1); [done|].
  apply Hs1. unfold push_output. unfold output_diagnosis in Hd. rewrite Hd, Ha.
  cbn. rewrite elem_of_app. right. by apply list_elem_of_singleton.
Qed.

Lemma output_counted snapshot pid pipeline oid output d feed index :
  (pid, pipeline) ∈ snapshot_pipelines snapshot -> (oid, output) ∈ pipeline_outputs pipeline ->
  output_diagnosis snapshot pipeline output = Some d -> dg_layer d = LShard ->
  get_str output "fabricFeed" = Some feed -> get_u64 output "shardId" = Some index ->
  1 <= outputs_on_shard snapshot (feed, index).
Proof.
  intros Hp Ho Hd Hl Hf Hi.
  assert (forall {A} (g : A -> Z) l x, (forall y, 0 <= g y) -> x ∈ l ->
            g x <= foldr (fun y n => g y + n) 0 l) as Hsum.
  { intros A g l x Hg. assert (forall l, 0 <= foldr (fun y n => g y + n) 0 l) as Hnn.
    { clear -Hg. induction l as [|y l IH]; cbn; [done|]. specialize (Hg y). lia. }
    induction 1 as [y l|y z l _ IH]; cbn; [specialize (Hnn l)|specialize (Hg z)]; lia. }
  assert (forall on sh mr k o, 0 <= if on_shard on sh mr k o then 1 else 0) as H01
    by (intros; case_match; lia).
  assert (forall p, 0 <= pipeline_on_shard (shard_health_map snapshot) (output_max_retries snapshot)
                          (feed, index) p) as Hpos.
  { intros p. unfold pipeline_on_shard. induction (pipeline_outputs p.2); cbn; [done|]. case_match; lia. }
  etrans; [|by apply (Hsum _ _ _ _ Hpos Hp)].
  etrans; [|by apply (Hsum _ _ _ _ (fun o => H01 _ _ _ _ o) Ho)].
  unfold on_shard. unfold output_diagnosis in Hd. cbn [snd]. rewrite Hd, Hf, Hi.
  rewrite !bool_decide_eq_true_2 by done. done.
Qed.

Lemma shard_alert_reported snapshot pid pipeline oid output d state :
  (pid, pipeline) ∈ snapshot_pipelines snapshot -> (oid, output) ∈ pipeline_outputs pipeline ->
  output_diagnosis snapshot pipeline output = Some d ->
  shard_cause_state (dg_cause d) = Some state ->
  exists shard a,
    shard ∈ snapshot_shards snapshot /\ sh_state shard = state
    /\ get_str output "fabricFeed" = Some (sh_feed shard) /\ get_u64 output "shardId" = Some (sh_index shard)
    /\ a ∈ derive_alerts snapshot /\ al_id a = shard_alert_id shard state /\ al_scope a = ScEngine
    /\ 1 <= outputs_on_shard snapshot (sh_feed shard, sh_index shard)
    /\ derived ("affectedOutputs = " +:+ display (outputs_on_shard snapshot (sh_feed shard, sh_index shard)))
       ∈ al_evidence a.
Proof.
  intros Hp Ho Hd Hc.
  destruct (shard_cause_entry _ _ _ _ _ Hd Hc) as (Hl & feed & index & shard & Hf & Hi & Hin & <- & <- & Hs).
  pose proof (output_counted _ _ _ _ _ _ _ _ Hp Ho Hd Hl Hf Hi) as Hn.
  pose proof (derive_acc_count snapshot (sh_feed shard, sh_index shard)) as Hcount.
  change (count _ _) with (sh_affected (affected (derive_acc snapshot)) shard) in Hcount.
  destruct (shard_state_reported (generated_at snapshot) (affected (derive_acc snapshot)) shard
              (dg_cause d) state Hc Hs ltac:(lia)) as (a & Ha & Hid & Hsc & He).
  exists shard, a. split_and!; try done.
  - apply derive_alerts_elem. do 2 right. apply list_elem_of_join.
    eexists. split; [done|]. by apply (list_elem_of_fmap_2 _ _ _ Hin).
  - unfold affected_evidence in He. by rewrite Hcount in He.
Qed.

(** The causes a health view cannot have, and what it says of the input. *)
Lemma diagnosed_cause snapshot pipeline output d :
  output_diagnosis snapshot pipeline output = Some d ->
  dg_cause d <> RetriesExhausted /\ (dg_cause d = NoPublisher -> input_on pipeline = false).
Proof.
  unfold output_diagnosis, diagnose. set (s := output_signals _ _ _ _).
  change (wants_running s) with true. change (retries_exhausted s) with false.
  change (has_ingest s) with (input_on pipeline). cbn [negb].
  destruct (input_on pipeline); cbn [negb]; [|by intros [= <-]].
  assert (forall r c, (fun cause => mk_Diagnosis LDestination cause r) <$> destination_cause s = Some c ->
    dg_cause c <> RetriesExhausted /\ dg_cause c <> NoPublisher) as Hdest.
  { intros r c. unfold destination_cause. repeat case_match; intros; simplify_eq/=; done. }
  repeat case_match; intros E; simplify_eq/=; try done; apply Hdest in E as [? ?]; by split.
Qed.

Lemma output_explained snapshot pid pipeline oid output d :
  (pid, pipeline) ∈ snapshot_pipelines snapshot -> (oid, output) ∈ pipeline_outputs pipeline ->
  output_diagnosis snapshot pipeline output = Some d ->
  explained snapshot pid pipeline oid output d.
Proof.
  intros Hp Ho Hd.
  pose proof (fun a => own_alert_reported _ _ _ _ _ _ a Hp Ho Hd) as Hown.
  pose proof (fun s => shard_alert_reported _ _ _ _ _ _ s Hp Ho Hd) as Hshard.
  pose proof (not_raised snapshot d) as Hquiet. destruct (diagnosed_cause _ _ _ _ Hd) as [Hretries Hno].
  unfold explained. cbv zeta.
  destruct (output_alert pid oid output d (generated_at snapshot)) as [a|] eqn:Ea.
  - specialize (Hown a eq_refl). pose proof (output_alert_scope _ _ _ _ _ _ Ea) as (? & ? & ?).
    unfold output_alert in Ea. destruct (dg_cause d) as [ | | | | | | | | |[]| ]; try done; by exists a.
  - unfold output_alert in Ea.
    destruct (dg_cause d) as [ | | | | | | | |? ?|[]| ]; cbn in Ea; try done; try by eapply Hshard; try by apply Hquiet.
    + split; [by apply Hno|]. case_bool_decide as Hoff; [|by apply Hquiet]. apply derive_alerts_elem. left.
      destruct (derive_acc_visits _ _ _ Hp) as (s & Hs). by apply Hs, no_publisher_reported.
    + by case_bool_decide.
    + by apply Hquiet.
Qed.

(** C20: What the alerts derived from a snapshot say of each of its outputs whose media path
    is diagnosed as degraded.  A cause of its own: an alert of that output carrying exactly
    that diagnosis.  An unhealthy shard: the alert of that shard (by its protocol, feed, index
    and state), whose evidence counts exactly the outputs of the snapshot put down to it.
    No publisher: the pipeline's [no_publisher] alert when its input is off.  Nothing is
    raised for plain back-pressure, nor for an input that is neither on nor off: no alert
    carries that diagnosis.  [RetriesExhausted] does not occur.  The alerts come out critical
    first, then by pipeline and id. *)
Theorem degraded_outputs_are_explained snapshot :
  (forall pid pipeline oid output d,
     (pid, pipeline) ∈ snapshot_pipelines snapshot -> (oid, output) ∈ pipeline_outputs pipeline ->
     output_diagnosis snapshot pipeline output = Some d ->
     explained snapshot pid pipeline oid output d)
  /\ Sorted alert_le (derive_alerts snapshot).
Proof. split; [apply output_explained|apply sorted_sorted]. Qed.

(** A snapshot with two pipelines and three outputs on a panicked shard. *)
Definition example_output (status : string) : Json :=
  JObject [("status", JString status); ("fabricFeed", JString "f"); ("shardId", JInt 1);
           ("lastError", JString "refused")]%string.
Definition example_pipeline : Json :=
  JObject [("input", JObject [("status", JString "on")]);
           ("outputs", JObject [("a", example_output "running"); ("b", example_output "failed")])]%string.
Definition example_snapshot : Json :=
  JObject [("generatedAt", JString "t");
           ("pipelines", JObject [("p", example_pipeline); ("q", example_pipeline)]);
           ("egressFabricShards",
             JArray [JObject [("protocol", JString "rtmp"); ("feedId", JString "f");
                              ("shardIndex", JInt 1); ("state", JString "panicked")]])]%string.

Example panicked_shard_is_one_alert :
  map (fun a => (al_id a, map signal (al_evidence a))) (derive_alerts example_snapshot)
  = [("engine:egress_fabric:rtmp:f:1:panicked",
      ["state = panicked (rtmp fabric shard 1 (feed f))"; "affectedOutputs = 4"])]%string.
Proof. vm_compute. reflexivity. Qed.

Lemma degraded_outputs_are_explained_witness :
  explained example_snapshot "q" example_pipeline "b" (example_output "failed")
    (mk_Diagnosis LShard (ShardPanicked 1) [LIngest; LFeed]).
Proof.
  apply (proj1 (degraded_outputs_are_explained example_snapshot));
    [right; left|right; left|vm_compute; reflexivity].
Defined.

Example names_lead_the_title :
  al_title (name_subject {["p" := "Newsroom"]} {["o" := "YouTube main"]}
    (scoped (Some "p") None (Some "o")
       (Alert_new "x" SevWarning ScOutput "Output 'o' reported an egress failure" "" [] "" "")))%string
  = "Newsroom: YouTube main reported an egress failure"%string.
Proof. vm_compute. reflexivity. Qed.
