(* ===== verification/AlertTracker.v ===== *)
(** * Alert lifetimes

    Models [crates/restream-health/src/alerts/tracker.rs]: the open alerts, the bounded
    history of the resolved ones, and the evaluation readers are served.  A
    [DateTime<Utc>] is its instant as an integer; its RFC 3339 form and the order a
    [HashMap] iterates in are parameters. *)

From Stdlib Require Import Sorting.Sorted.
From S2P Require Import Prelude Text Diagnosis Alerts.

Open Scope Z_scope.

(** ** Definitions *)

Definition RESOLVED_CAP : nat := 256.

Record AlertHistory := mk_AlertHistory { ah_first_seen : string; ah_last : Alert }.
Record ResolvedAlert := mk_ResolvedAlert { ra_alert : Alert; ra_resolved_at : Z }.
Record Evaluation := mk_Evaluation { ev_generated_at : string; ev_alerts : list Alert }.
Record TrackerState := mk_TrackerState {
  ts_open : gmap string AlertHistory;
  ts_resolved : list ResolvedAlert;
  ts_complete_from : Z;
  ts_latest : option Evaluation;
}.
Record ResolvedWindow := mk_ResolvedWindow {
  rw_alerts : list ResolvedAlert;
  rw_complete_from : Z;
}.

Definition started_at (start : Z) : TrackerState := mk_TrackerState ∅ [] start None.

Definition publish (generated_at : string) (l : list Alert) (s : TrackerState) : TrackerState :=
  mk_TrackerState (ts_open s) (ts_resolved s) (ts_complete_from s)
    (Some (mk_Evaluation generated_at l)).

(** [alert.first_seen = ..; alert.last_seen = ..] *)
Definition stamped (first last : string) (a : Alert) : Alert :=
  mk_Alert (al_id a) (al_severity a) (al_scope a) (al_pipeline_id a) (al_stage_id a)
    (al_output_id a) (al_title a) (al_cause a) (al_evidence a) (al_recommended_action a)
    (al_generated_at a) (Some first) (Some last) (al_diagnosis a).

Section Tracker.
Context (to_rfc3339 : Z -> string).
Context (iter : gmap string AlertHistory -> list (string * AlertHistory)).

Definition stamp_only (now : Z) (s : TrackerState) (l : list Alert) : list Alert :=
  map (fun a => match ts_open s !! al_id a with
                | Some history => stamped (ah_first_seen history) (to_rfc3339 now) a
                | None => a
                end) l.

(** One pass of the loop over [gone]. *)
Definition resolve_one (now : Z) (s : TrackerState) (id : string) : TrackerState :=
  match ts_open s !! id with
  | None => s
  | Some history =>
      let resolved := filter (fun e => al_id (ra_alert e) <> id) (ts_resolved s) in
      let entry := mk_ResolvedAlert (ah_last history) now in
      let '(resolved, complete_from) :=
        match resolved with
        | evicted :: rest =>
            if (length resolved =? RESOLVED_CAP)%nat then (rest, ra_resolved_at evicted)
            else (resolved, ts_complete_from s)
        | [] => (resolved, ts_complete_from s)
        end in
      mk_TrackerState (delete id (ts_open s)) (resolved ++ [entry]) complete_from (ts_latest s)
  end.

(** One pass of the loop over [alerts]: the open set and the stamped alert. *)
Definition observe_one (now : Z) (s : TrackerState) (a : Alert) : TrackerState * Alert :=
  let stamp := to_rfc3339 now in
  let first_seen := match ts_open s !! al_id a with
                    | Some history => ah_first_seen history
                    | None => stamp
                    end in
  let a' := stamped first_seen stamp a in
  (mk_TrackerState (<[al_id a := mk_AlertHistory first_seen a']> (ts_open s)) (ts_resolved s)
     (ts_complete_from s) (ts_latest s), a').

Fixpoint observe_all (now : Z) (s : TrackerState) (l : list Alert) : TrackerState * list Alert :=
  match l with
  | [] => (s, [])
  | a :: l' =>
      let '(s, a) := observe_one now s a in
      let '(s, l') := observe_all now s l' in
      (s, a :: l')
  end.

Definition gone (s : TrackerState) (l : list Alert) : list string :=
  map fst (filter (fun e => e.1 ∉ map al_id l) (iter (ts_open s))).

Definition track_at (l : list Alert) (now : Z) (s : TrackerState) : TrackerState * list Alert :=
  observe_all now (fold_left (resolve_one now) (gone s l) s) l.

Definition active_count (s : TrackerState) : nat := size (ts_open s).

Definition resolved_since (since : Z) (s : TrackerState) : ResolvedWindow :=
  mk_ResolvedWindow (filter (fun e => since <= ra_resolved_at e) (rev (ts_resolved s)))
    (ts_complete_from s).

End Tracker.

(** ** The unbounded log of closings *)

(** What the tracker abbreviates: the same open set, with every closing kept. *)
Record Log := mk_Log { lg_open : gmap string AlertHistory; lg_closed : list ResolvedAlert }.

(** An entry of the log with no later closing of the same condition. *)
Definition latest_closing (log : list ResolvedAlert) (e : ResolvedAlert) : Prop :=
  exists l1 l2, log = l1 ++ e :: l2 /\ al_id (ra_alert e) ∉ map (al_id ∘ ra_alert) l2.

Section Spec.
Context (to_rfc3339 : Z -> string).
Context (iter : gmap string AlertHistory -> list (string * AlertHistory)).

Definition close_one (now : Z) (g : Log) (id : string) : Log :=
  match lg_open g !! id with
  | None => g
  | Some history =>
      mk_Log (delete id (lg_open g)) (lg_closed g ++ [mk_ResolvedAlert (ah_last history) now])
  end.

Definition open_one (now : Z) (g : Log) (a : Alert) : Log :=
  let stamp := to_rfc3339 now in
  let first_seen := from_option ah_first_seen stamp (lg_open g !! al_id a) in
  mk_Log (<[al_id a := mk_AlertHistory first_seen (stamped first_seen stamp a)]> (lg_open g))
    (lg_closed g).

Definition log_track (l : list Alert) (now : Z) (g : Log) : Log :=
  let absent := map fst (filter (fun e => e.1 ∉ map al_id l) (iter (lg_open g))) in
  fold_left (open_one now) l (fold_left (close_one now) absent g).

(** The evaluations of a run: what was observed, and when. *)
Definition tracker_run (evals : list (Z * list Alert)) (s : TrackerState) : TrackerState :=
  fold_left (fun s e => (track_at to_rfc3339 iter e.2 e.1 s).1) evals s.
Definition log_run (evals : list (Z * list Alert)) (g : Log) : Log :=
  fold_left (fun g e => log_track e.2 e.1 g) evals g.
End Spec.

(** The tracker at time [now] abbreviates the log. *)
Record abbreviates (now : Z) (s : TrackerState) (g : Log) : Prop := {
  ab_open : ts_open s = lg_open g;
  ab_ids : map_Forall (fun id h => al_id (ah_last h) = id) (ts_open s);
  ab_cap : (length (ts_resolved s) <= RESOLVED_CAP)%nat;
  ab_sorted : StronglySorted Z.le (ts_complete_from s :: map ra_resolved_at (ts_resolved s) ++ [now]);
  ab_nodup : NoDup (map (al_id ∘ ra_alert) (ts_resolved s));
  ab_sound : forall e, e ∈ ts_resolved s -> latest_closing (lg_closed g) e;
  ab_complete : forall e, latest_closing (lg_closed g) e -> ts_complete_from s < ra_resolved_at e ->
                e ∈ ts_resolved s;
}.

(** ** Lemmas *)

Lemma latest_closing_snoc log x e :
  latest_closing (log ++ [x]) e
  <-> e = x \/ latest_closing log e /\ al_id (ra_alert e) <> al_id (ra_alert x).
Proof.
  split.
  - intros (l1 & l2 & E & Hn). destruct l2 as [|y l2 _] using rev_ind.
    + apply app_inj_tail in E as [-> ->]. by left.
    + rewrite app_comm_cons, app_assoc in E. apply app_inj_tail in E as [-> ->].
      rewrite map_app, elem_of_app in Hn. right. split; [|set_solver].
      exists l1, l2. split; [done|]. set_solver.
  - intros [->|[(l1 & l2 & -> & Hn) Hne]].
    + exists log, []. split; [done|]. apply not_elem_of_nil.
    + exists l1, (l2 ++ [x]). split; [by rewrite <- app_assoc|]. rewrite map_app. set_solver.
Qed.

Lemma StronglySorted_sublist {A} (R : relation A) l l' :
  sublist l l' -> StronglySorted R l' -> StronglySorted R l.
Proof.
  induction 1 as [|x l l' Hl IH|x l l' Hl IH]; intros Hs; [done|..];
    apply StronglySorted_inv in Hs as [Hs Hx]; [|by apply IH].
  constructor; [by apply IH|]. rewrite Forall_forall in *. intros y Hy.
  apply Hx. by eapply elem_of_sublist.
Qed.

Lemma sublist_map {A B} (f : A -> B) l l' : sublist l l' -> sublist (map f l) (map f l').
Proof.
  induction 1; cbn; [apply sublist_nil|by apply sublist_skip|by apply sublist_cons].
Qed.

(** Sorted lists read through one list operation. *)
Lemma sorted_filter P `{!forall e, Decision (P e)} c (l : list ResolvedAlert) now :
  StronglySorted Z.le (c :: map ra_resolved_at l ++ [now]) ->
  StronglySorted Z.le (c :: map ra_resolved_at (filter P l) ++ [now]).
Proof.
  apply StronglySorted_sublist. apply sublist_skip, sublist_app; [|done].
  apply sublist_map, sublist_filter.
Qed.

Lemma sorted_push (l : list Z) now now' :
  now <= now' -> StronglySorted Z.le (l ++ [now]) -> StronglySorted Z.le ((l ++ [now']) ++ [now']).
Proof.
  intros Hn. induction l as [|x l IH]; cbn; intros Hs.
  - repeat constructor; lia.
  - apply StronglySorted_inv in Hs as [Hs Hx]. constructor; [by apply IH|].
    rewrite !Forall_app in *. rewrite !Forall_singleton in *. intuition lia.
Qed.

Lemma abbreviates_later now now' s g : now <= now' -> abbreviates now s g -> abbreviates now' s g.
Proof.
  intros Hn [Ho Hi Hc Hs Hd Hsd Hcm]. split; try done.
  pose proof (sorted_push (_ :: _) _ _ Hn Hs) as Hs'.
  eapply StronglySorted_sublist, Hs'. apply sublist_skip, sublist_app; [|done]. by apply sublist_inserts_r.
Qed.

(** Eviction keeps the bound: what the ring loses is not after the new bound. *)
Lemma evicted_bound c e (l : list ResolvedAlert) now :
  StronglySorted Z.le (c :: map ra_resolved_at (e :: l) ++ [now]) ->
  StronglySorted Z.le (ra_resolved_at e :: map ra_resolved_at l ++ [now]) /\ c <= ra_resolved_at e.
Proof.
  intros Hs. apply StronglySorted_inv in Hs as [Hs Hx]. split; [done|]. by apply Forall_cons in Hx as [? _].
Qed.

(** The ring after a closing of [id], before the new entry is pushed. *)
Definition make_room (resolved : list ResolvedAlert) (complete_from : Z) : list ResolvedAlert * Z :=
  match resolved with
  | evicted :: rest =>
      if (length resolved =? RESOLVED_CAP)%nat then (rest, ra_resolved_at evicted)
      else (resolved, complete_from)
  | [] => (resolved, complete_from)
  end.

Lemma make_room_spec l c now :
  (length l <= RESOLVED_CAP)%nat -> StronglySorted Z.le (c :: map ra_resolved_at l ++ [now]) ->
  let '(l', c') := make_room l c in
  (length l' < RESOLVED_CAP)%nat /\ StronglySorted Z.le (c' :: map ra_resolved_at l' ++ [now])
  /\ sublist l' l /\ c <= c' /\ forall e, e ∈ l -> c' < ra_resolved_at e -> e ∈ l'.
Proof.
  intros Hl Hs. unfold make_room. destruct l as [|e l].
  { split_and!; try done. apply Nat.lt_0_succ. }
  destruct (Nat.eqb_spec (length (e :: l)) RESOLVED_CAP) as [E|E].
  - destruct (evicted_bound _ _ _ _ Hs) as [Hs' Hc]. split_and!; try done.
    + by constructor.
    + intros x [->|Hx]%elem_of_cons; [lia|done].
  - split_and!; try done. lia.
Qed.

Lemma resolve_one_abbreviates now s g id :
  abbreviates now s g -> abbreviates now (resolve_one now s id) (close_one now g id).
Proof.
  intros [Ho Hi Hc Hs Hd Hsd Hcm]. unfold resolve_one, close_one. rewrite <- Ho.
  destruct (ts_open s !! id) as [h|] eqn:Eh; [|done].
  set (keep := filter _ (ts_resolved s)). fold (make_room keep (ts_complete_from s)).
  assert (length keep <= RESOLVED_CAP)%nat as Hk.
  { etrans; [|done]. apply sublist_length, sublist_filter. }
  pose proof (make_room_spec _ _ _ Hk (sorted_filter _ _ _ _ Hs)) as Hroom.
  destruct (make_room keep (ts_complete_from s)) as [l c]. destruct Hroom as (Hl & Hs' & Hsub & Hle & Hin).
  assert (forall e, e ∈ l -> e ∈ ts_resolved s /\ al_id (ra_alert e) <> id) as Hkeep.
  { intros e He. eapply elem_of_sublist in He; [|done]. by apply list_elem_of_filter in He as [? ?]. }
  pose proof (Hi _ _ Eh) as Hid. cbn in Hid. split; cbn.
  - done.
  - by apply map_Forall_delete.
  - rewrite length_app. cbn. lia.
  - rewrite map_app. by apply (sorted_push (_ :: _) _ _ (Z.le_refl now)).
  - rewrite map_app. apply NoDup_app. split_and!.
    + eapply sublist_NoDup; [exact Hd|]. apply sublist_map. etrans; [done|apply sublist_filter].
    + intros x (e & -> & He)%list_elem_of_fmap Hx. apply Hkeep in He as [_ He]. set_solver.
    + apply NoDup_singleton.
  - intros e [He|He]%elem_of_app; apply latest_closing_snoc.
    + apply Hkeep in He as [He Hne]. right. split; [by apply Hsd|]. cbn. congruence.
    + left. by apply list_elem_of_singleton.
  - intros e [->|[He Hne]]%latest_closing_snoc Ht; apply elem_of_app; [right; by left|]. left.
    apply Hin; [|done]. apply list_elem_of_filter. split; [cbn in Hne; congruence|]. apply Hcm; [done|lia].
Qed.

Lemma started_abbreviates start : abbreviates start (started_at start) (mk_Log ∅ []).
Proof.
  split; cbn; try done.
  - lia.
  - repeat constructor; lia.
  - constructor.
  - intros e He. by apply not_elem_of_nil in He.
  - by intros e ([]&?&[=]&?).
Qed.

Lemma sorted_rev (l : list Z) now : StronglySorted Z.le (l ++ [now]) -> StronglySorted Z.ge (rev l).
Proof.
  induction l as [|x l IH]; cbn; [constructor|]. intros [Hs Hx]%StronglySorted_inv.
  specialize (IH Hs). apply Forall_app in Hx as [Hx _]. rewrite (Permutation_rev l) in Hx.
  induction (rev l) as [|y r IHr]; cbn; [by repeat constructor|].
  apply StronglySorted_inv in IH as [IH Hy]. apply Forall_cons in Hx as [Hxy Hx].
  constructor; [by apply IHr|]. apply Forall_app. split; [done|]. constructor; [lia|done].
Qed.

Section Run.
Context (to_rfc3339 : Z -> string).
Context (iter : gmap string AlertHistory -> list (string * AlertHistory)).

Lemma observe_one_abbreviates now s g a :
  abbreviates now s g ->
  abbreviates now (observe_one to_rfc3339 now s a).1 (open_one to_rfc3339 now g a).
Proof.
  intros [Ho Hi Hc Hs Hd Hsd Hcm]. unfold observe_one, open_one. rewrite <- Ho.
  split; cbn; try done. by apply map_Forall_insert_2.
Qed.

Lemma observe_all_fst now l s :
  (observe_all to_rfc3339 now s l).1 = fold_left (fun s a => (observe_one to_rfc3339 now s a).1) l s.
Proof.
  revert s. induction l as [|a l IH]; intros s; cbn; [done|]. rewrite <- IH.
  by destruct (observe_all _ _ _ _).
Qed.

Lemma track_abbreviates now l s g :
  abbreviates now s g ->
  abbreviates now (track_at to_rfc3339 iter l now s).1 (log_track to_rfc3339 iter l now g).
Proof.
  intros H. unfold track_at, log_track, gone. rewrite observe_all_fst, <- (ab_open _ _ _ H).
  match goal with |- context [fold_left (resolve_one now) ?ids s] => generalize ids end; intros ids.
  assert (abbreviates now (fold_left (resolve_one now) ids s) (fold_left (close_one now) ids g)) as H'.
  { revert s g H. induction ids; intros s g H; cbn; [done|]. by apply IHids, resolve_one_abbreviates. }
  revert H'. generalize (fold_left (resolve_one now) ids s), (fold_left (close_one now) ids g).
  induction l as [|a l IH]; intros s' g' H'; cbn; [done|]. by apply IH, observe_one_abbreviates.
Qed.

Lemma run_abbreviates evals now s g :
  abbreviates now s g -> StronglySorted Z.le (now :: map fst evals) ->
  exists now', abbreviates now' (tracker_run to_rfc3339 iter evals s) (log_run to_rfc3339 iter evals g).
Proof.
  revert now s g. induction evals as [|[t l] evals IH]; intros now s g H Ht; [by exists now|].
  apply StronglySorted_inv in Ht as [Ht Hle]. apply Forall_cons in Hle as [Hle _]. cbn in Hle.
  eapply (IH t); [|done]. by eapply track_abbreviates, abbreviates_later.
Qed.
End Run.

Lemma resolve_all_open now ids s id :
  ts_open (fold_left (resolve_one now) ids s) !! id
  = if decide (id ∈ ids) then None else ts_open s !! id.
Proof.
  revert s. induction ids as [|x ids IH]; intros s; cbn [fold_left].
  { rewrite decide_False; [done|apply not_elem_of_nil]. }
  rewrite IH. assert (ts_open (resolve_one now s x) = delete x (ts_open s)) as ->.
  { unfold resolve_one. destruct (ts_open s !! x) eqn:E; [by repeat case_match|].
    by rewrite delete_id. }
  destruct (decide (id ∈ ids)), (decide (id ∈ x :: ids)); try done; try set_solver.
  - assert (id = x) as -> by set_solver. apply lookup_delete_eq.
  - apply lookup_delete_ne. set_solver.
Qed.

Section Stamps.
Context (to_rfc3339 : Z -> string).
Context (iter : gmap string AlertHistory -> list (string * AlertHistory)).
Context (now : Z).

(** When the condition [id] was first seen, if it is observed at [now]. *)
Definition first_of (s : TrackerState) (id : string) : string :=
  from_option ah_first_seen (to_rfc3339 now) (ts_open s !! id).

Lemma observe_one_first s a id : first_of (observe_one to_rfc3339 now s a).1 id = first_of s id.
Proof.
  unfold first_of. cbn. destruct (decide (id = al_id a)) as [->|Hne].
  - rewrite lookup_insert_eq. cbn. by destruct (ts_open s !! al_id a).
  - by rewrite lookup_insert_ne.
Qed.

Lemma observe_all_spec l s :
  let '(s', l') := observe_all to_rfc3339 now s l in
  (forall id, first_of s' id = first_of s id)
  /\ dom (ts_open s') = dom (ts_open s) ∪ list_to_set (map al_id l)
  /\ l' = map (fun a => stamped (first_of s (al_id a)) (to_rfc3339 now) a) l.
Proof.
  revert s. induction l as [|a l IH]; intros s; cbn [observe_all map list_to_set].
  { split_and!; [done|set_solver|done]. }
  pose proof (observe_one_first s a) as Hf.
  destruct (observe_one to_rfc3339 now s a) as [s1 a1] eqn:E1. cbn in Hf. specialize (IH s1).
  destruct (observe_all to_rfc3339 now s1 l) as [s2 l2]. destruct IH as (Hf2 & Hd2 & ->).
  unfold observe_one in E1. injection E1 as <- <-. split_and!.
  - intros id. by rewrite Hf2, Hf.
  - rewrite Hd2. cbn. rewrite dom_insert_L. set_solver.
  - f_equal. apply map_ext. intros b. by rewrite Hf.
Qed.

End Stamps.

(** ** Theorems *)

Section Theorems.
Context (to_rfc3339 : Z -> string).
Context (iter : gmap string AlertHistory -> list (string * AlertHistory)).

(** C39: Over any run of evaluations whose times do not go back, the tracker answers a
    window of resolved alerts as the unbounded log of closings would: every entry of the
    answer is the latest closing of its condition and falls in the window, newest first,
    at most 256 of them with one per condition; and a window that starts after
    [complete_from] misses none. *)
Theorem resolved_history_complete start evals since :
  StronglySorted Z.le (start :: map fst evals) ->
  let s := tracker_run to_rfc3339 iter evals (started_at start) in
  let log := log_run to_rfc3339 iter evals (mk_Log ∅ []) in
  let w := resolved_since since s in
  ts_open s = lg_open log
  /\ (length (rw_alerts w) <= 256)%nat
  /\ NoDup (map (al_id ∘ ra_alert) (rw_alerts w))
  /\ StronglySorted Z.ge (map ra_resolved_at (rw_alerts w))
  /\ (forall e, e ∈ rw_alerts w -> latest_closing (lg_closed log) e /\ since <= ra_resolved_at e)
  /\ (rw_complete_from w < since ->
      forall e, latest_closing (lg_closed log) e -> since <= ra_resolved_at e -> e ∈ rw_alerts w).
Proof.
  intros Ht s log w.
  destruct (run_abbreviates to_rfc3339 iter evals start (started_at start) (mk_Log ∅ [])) as [now H];
    [by apply started_abbreviates|done|]. fold s log in H. destruct H as [Ho Hi Hc Hs Hd Hsd Hcm].
  assert (forall e, e ∈ rw_alerts w <-> since <= ra_resolved_at e /\ e ∈ ts_resolved s) as Hw.
  { intros e. unfold w, resolved_since. cbn. by rewrite list_elem_of_filter, <- (Permutation_rev (ts_resolved s)). }
  split_and!; [done| | | | |].
  - unfold w. cbn. etrans; [apply sublist_length, sublist_filter|]. by rewrite length_rev.
  - eapply sublist_NoDup; [|apply sublist_map, sublist_filter].
    by rewrite map_rev, <- Permutation_rev.
  - eapply StronglySorted_sublist; [apply sublist_map, sublist_filter|]. rewrite map_rev.
    apply StronglySorted_inv in Hs as [Hs _]. by eapply sorted_rev.
  - intros e [? ?]%Hw. by auto.
  - intros Hsince e He Hge. apply Hw. split; [done|]. apply Hcm; [done|]. cbn in Hsince. lia.
Qed.

(** An evaluation leaves open exactly the conditions it observed, and stamps each alert
    with the time its current run of observations began and the time of this evaluation;
    a reader that stamps the same conditions later gets the same first time. *)
Theorem track_stamps_and_opens l now s :
  Permutation (iter (ts_open s)) (map_to_list (ts_open s)) ->
  let '(s', l') := track_at to_rfc3339 iter l now s in
  dom (ts_open s') = list_to_set (map al_id l)
  /\ l' = map (fun a => stamped (first_of to_rfc3339 now s (al_id a)) (to_rfc3339 now) a) l
  /\ forall later, stamp_only to_rfc3339 later s' l
     = map (fun a => stamped (first_of to_rfc3339 now s (al_id a)) (to_rfc3339 later) a) l.
Proof.
  intros Hiter. unfold track_at. set (s1 := fold_left _ _ s).
  assert (forall id, ts_open s1 !! id = if decide (id ∈ map al_id l) then ts_open s !! id else None) as H1.
  { intros id. unfold s1. rewrite resolve_all_open. unfold gone.
    assert (id ∈ map fst (filter (fun e => e.1 ∉ map al_id l) (iter (ts_open s)))
            <-> id ∉ map al_id l /\ is_Some (ts_open s !! id)) as Hg.
    { rewrite list_elem_of_fmap. split.
      - intros ([k h] & -> & [Hk Hin]%list_elem_of_filter). rewrite Hiter in Hin.
        apply elem_of_map_to_list in Hin. by eauto.
      - intros [Hk [h Hh]]. exists (id, h). split; [done|]. apply list_elem_of_filter.
        split; [done|]. rewrite Hiter. by apply elem_of_map_to_list. }
    destruct (decide (id ∈ map al_id l)); case_decide as Hd; rewrite Hg in Hd; try tauto.
    apply eq_None_not_Some. tauto. }
  pose proof (observe_all_spec to_rfc3339 now l s1) as Ho.
  destruct (observe_all to_rfc3339 now s1 l) as [s' l']. destruct Ho as (Hf & Hd & ->).
  assert (Forall (fun a => first_of to_rfc3339 now s1 (al_id a) = first_of to_rfc3339 now s (al_id a)) l)
    as Hfirst.
  { apply Forall_forall. intros a Ha. unfold first_of. rewrite H1, decide_True; [done|].
    by apply list_elem_of_fmap_2. }
  assert (dom (ts_open s') = list_to_set (map al_id l)) as Hdom.
  { rewrite Hd. apply set_eq. intros id. rewrite elem_of_union, elem_of_list_to_set, elem_of_dom, H1.
    destruct (decide (id ∈ map al_id l)); [tauto|]. split; [intros [[? [=]]|?]; done|tauto]. }
  split_and!; [done| |].
  - apply map_ext_in. intros a Ha%list_elem_of_In. rewrite Forall_forall in Hfirst. by rewrite Hfirst.
  - intros later. apply map_ext_in. intros a Ha%list_elem_of_In.
    assert (is_Some (ts_open s' !! al_id a)) as [h Hh].
    { apply elem_of_dom. rewrite Hdom. apply elem_of_list_to_set. by apply list_elem_of_fmap_2. }
    rewrite Hh. rewrite Forall_forall in Hfirst. rewrite <- Hfirst, <- Hf by done.
    unfold first_of. by rewrite Hh.
Qed.
End Theorems.

Definition example_alert (id : string) : Alert :=
  Alert_new id SevWarning ScPipeline id "" [] "" "".

Definition example_evals : list (Z * list Alert) :=
  [(0, [example_alert "a"; example_alert "b"]); (1, [example_alert "b"]); (2, [])].

(** Two conditions open and close in turn; the window from 1 reports both. *)
Lemma resolved_history_complete_witness :
  let s := tracker_run display map_to_list example_evals (started_at (-60)) in
  map (fun e => (al_id (ra_alert e), ra_resolved_at e)) (rw_alerts (resolved_since 1 s))
  = [("b", 2); ("a", 1)]%string
  /\ ts_open s = lg_open (log_run display map_to_list example_evals (mk_Log ∅ [])).
Proof.
  split; [vm_compute; reflexivity|].
  refine (proj1 (resolved_history_complete display map_to_list (-60) example_evals 1 _)).
  cbn. repeat (apply SSorted_cons || apply SSorted_nil || apply Forall_cons_2 || apply Forall_nil_2); lia.
Defined.

Lemma track_stamps_and_opens_witness :
  let s := (track_at display map_to_list [example_alert "a"] 5 (started_at 0)).1 in
  dom (ts_open (track_at display map_to_list [example_alert "a"] 7 s).1) = {["a"%string]}
  /\ (track_at display map_to_list [example_alert "a"] 7 s).2
     = [stamped "5" "7" (example_alert "a")].
Proof.
  intros s.
  pose proof (track_stamps_and_opens display map_to_list [example_alert "a"] 7 s (Permutation_refl _)) as H.
  destruct (track_at display map_to_list [example_alert "a"] 7 s) as [s' l'].
  destruct H as (Hd & Hl & _). cbn [fst snd]. rewrite Hd, Hl. cbn [map list_to_set]. split.
  - by rewrite union_empty_r_L.
  - by vm_compute.
Defined.
