(* ===== verification/Baselines.v ===== *)
(** * Destination baselines

    Models [crates/restream-health/src/destination_baselines.rs] and [anomaly_alerts] of
    [alerts.rs]: each running output's learned normal for three signals, and when it is
    off it.  [f64] is IEEE 754 binary64 through the Standard Library's [SpecFloat]. *)

From Stdlib Require Import Sorting.Sorted.
From S2P Require Import Prelude Text Diagnosis Alerts.

Open Scope Z_scope.

(** ** Floating point *)

Definition f64_add : f64 -> f64 -> f64 := SFadd 53 1024.
Definition f64_sub : f64 -> f64 -> f64 := SFsub 53 1024.
Definition f64_sqrt : f64 -> f64 := SFsqrt 53 1024.
Definition f64_abs : f64 -> f64 := SFabs.
Definition f64_lt (a b : f64) : bool := SFltb a b.
Definition f64_is_nan (a : f64) : bool := match a with S754_nan => true | _ => false end.
Definition f64_is_finite (a : f64) : bool :=
  match a with S754_nan | S754_infinity _ => false | _ => true end.
(** [f64::max]: the other argument when one is not a number. *)
Definition f64_max (a b : f64) : f64 :=
  if f64_is_nan a then b else if f64_is_nan b then a else if f64_lt a b then b else a.
(** A decimal literal: the quotient rounded to nearest. *)
Definition f64_lit (num den : Z) : f64 := f64_div (f64_from num) (f64_from den).

(** ** Definitions *)

Definition WARM_UP_SAMPLES : Z := 150.
Definition ALPHA : f64 := f64_div (f64_from 1) (f64_from 150).
Definition ENTER_SIGMAS : f64 := f64_from 4.
Definition EXIT_SIGMAS : f64 := f64_from 2.
Definition SUSTAIN_SAMPLES : Z := 5.

Inductive Signal := DeliveryRatio | RttMs | RetransPerSec.
#[global] Instance Signal_eq_dec : EqDecision Signal.
Proof. solve_decision. Defined.
Definition Signal_ALL : list Signal := [DeliveryRatio; RttMs; RetransPerSec].
(** [signal as u8] *)
Definition signal_index (s : Signal) : nat :=
  match s with DeliveryRatio => 0 | RttMs => 1 | RetransPerSec => 2 end.
#[global] Instance Signal_countable : Countable Signal.
Proof.
  refine (inj_countable' signal_index
    (fun n => match n with O => DeliveryRatio | 1%nat => RttMs | _ => RetransPerSec end) _).
  abstract (by intros []).
Defined.

Definition floor (s : Signal) (mean : f64) : f64 :=
  match s with
  | DeliveryRatio => f64_lit 5 1000
  | RttMs => f64_max (f64_mul (f64_abs mean) (f64_lit 1 10)) (f64_from 5)
  | RetransPerSec => f64_max (f64_mul (f64_abs mean) (f64_lit 1 2)) (f64_from 1)
  end.

Definition badness (s : Signal) (value mean sigma : f64) : f64 :=
  let spread := f64_max sigma (floor s mean) in
  match s with
  | DeliveryRatio => f64_div (f64_sub mean value) spread
  | RttMs | RetransPerSec => f64_div (f64_sub value mean) spread
  end.

Record Readings := mk_Readings {
  delivery_ratio : option f64;
  rtt_ms : option f64;
  retrans_per_sec : option f64;
}.

Definition reading (r : Readings) (s : Signal) : option f64 :=
  match match s with
        | DeliveryRatio => delivery_ratio r
        | RttMs => rtt_ms r
        | RetransPerSec => retrans_per_sec r
        end with
  | Some value => if f64_is_finite value then Some value else None
  | None => None
  end.

Record Baseline := mk_Baseline {
  bl_mean : f64;
  bl_variance : f64;
  bl_samples : Z;
  bl_streak : Z;
  bl_streak_from_ms : Z;
  bl_anomalous_since_ms : option Z;
  bl_last_value : f64;
}.
Definition Baseline_default : Baseline := mk_Baseline f64_zero f64_zero 0 0 0 None f64_zero.

(** The mean, variance and sample count after learning [value]. *)
Definition learn (value : f64) (b : Baseline) : Baseline :=
  let '(mean, variance) :=
    if bl_samples b =? 0 then (value, f64_zero)
    else
      let delta := f64_sub value (bl_mean b) in
      (f64_add (bl_mean b) (f64_mul ALPHA delta),
       f64_mul (f64_sub (f64_from 1) ALPHA)
         (f64_add (bl_variance b) (f64_mul (f64_mul ALPHA delta) delta))) in
  mk_Baseline mean variance (Z.min (2 ^ 32 - 1) (bl_samples b + 1)) (bl_streak b)
    (bl_streak_from_ms b) (bl_anomalous_since_ms b) value.

(** How far past its normal the baseline finds [value]. *)
Definition bl_badness (signal : Signal) (b : Baseline) (value : f64) : f64 :=
  badness signal value (bl_mean b) (f64_sqrt (bl_variance b)).

(** The standing part of a baseline replaced: the streak, its start, the anomaly. *)
Definition standing (b : Baseline) (value : f64) (streak from_ms : Z) (since : option Z) : Baseline :=
  mk_Baseline (bl_mean b) (bl_variance b) (bl_samples b) streak from_ms since value.

Definition Baseline_observe (signal : Signal) (at_ms : Z) (value : f64) (b : Baseline) : Baseline :=
  if WARM_UP_SAMPLES <=? bl_samples b then
    let bad := bl_badness signal b value in
    match bl_anomalous_since_ms b with
    | None =>
        if f64_lt ENTER_SIGMAS bad then
          let from_ms := if bl_streak b =? 0 then at_ms else bl_streak_from_ms b in
          let streak := as_u32 (bl_streak b + 1) in
          if SUSTAIN_SAMPLES <=? streak then standing b value 0 from_ms (Some from_ms)
          else standing b value streak from_ms None
        else learn value (standing b value 0 (bl_streak_from_ms b) None)
    | Some since =>
        if f64_lt bad EXIT_SIGMAS then
          let streak := as_u32 (bl_streak b + 1) in
          if SUSTAIN_SAMPLES <=? streak then standing b value 0 (bl_streak_from_ms b) None
          else standing b value streak (bl_streak_from_ms b) (Some since)
        else standing b value 0 (bl_streak_from_ms b) (Some since)
    end
  else learn value b.

Record OutputBaselines := mk_OutputBaselines {
  ob_pipeline_id : string;
  ob_signals : gmap Signal Baseline;
}.
Definition OutputBaselines_default : OutputBaselines := mk_OutputBaselines "" ∅.

Definition DestinationBaselines : Type := gmap string OutputBaselines.

Definition observe_signal (at_ms : Z) (readings : Readings) (m : gmap Signal Baseline) (s : Signal)
  : gmap Signal Baseline :=
  match reading readings s with
  | Some value => <[s := Baseline_observe s at_ms value (default Baseline_default (m !! s))]> m
  | None => m
  end.

Definition observe_output (at_ms : Z) (outputs : gmap string OutputBaselines)
    (e : string * string * Readings) : gmap string OutputBaselines :=
  let '(pipeline_id, output_id, readings) := e in
  let entry := default OutputBaselines_default (outputs !! output_id) in
  <[output_id := mk_OutputBaselines pipeline_id
                   (fold_left (observe_signal at_ms readings) Signal_ALL (ob_signals entry))]> outputs.

Definition observe (at_ms : Z) (sample : list (string * string * Readings))
    (outputs : gmap string OutputBaselines) : gmap string OutputBaselines :=
  let present := map (fun '(_, output, _) => output) sample in
  fold_left (observe_output at_ms) sample (filter (fun e => e.1 ∈ present) outputs).

Record Anomaly := mk_Anomaly {
  an_pipeline_id : string;
  an_output_id : string;
  an_signal : Signal;
  an_value : f64;
  an_usual : f64;
  an_since_ms : Z;
}.

Definition cmp_anomaly (a b : Anomaly) : comparison :=
  cmp_then (String.compare (an_output_id a) (an_output_id b))
    (Nat.compare (signal_index (an_signal a)) (signal_index (an_signal b))).
Fixpoint insert_anomaly (a : Anomaly) (l : list Anomaly) : list Anomaly :=
  match l with
  | [] => [a]
  | b :: l' => match cmp_anomaly a b with
               | Gt => b :: insert_anomaly a l'
               | _ => a :: l
               end
  end.

Definition output_anomalies (output_id : string) (output : OutputBaselines) : list Anomaly :=
  omap (fun '(s, b) =>
          (fun since => mk_Anomaly (ob_pipeline_id output) output_id s (bl_last_value b) (bl_mean b) since)
          <$> bl_anomalous_since_ms b)
    (map_to_list (ob_signals output)).

Definition anomalies (outputs : gmap string OutputBaselines) : list Anomaly :=
  fold_right insert_anomaly []
    (mjoin (map (fun '(id, o) => output_anomalies id o) (map_to_list outputs))).

Definition anomaly_alert (generated_at : string) (anomaly : Anomaly) : Alert :=
  let value := an_value anomaly in
  let usual := an_usual anomaly in
  let '(key, title, text, cause) :=
    match an_signal anomaly with
    | DeliveryRatio =>
        ("delivery", "delivers less than usual",
         "delivery ratio " +:+ fmt_prec 3 value +:+ ", usually " +:+ fmt_prec 3 usual,
         "The destination accepts a smaller share of the stream than it normally does, before it falls below the fixed delivery floor.")
    | RttMs =>
        ("rtt", "is slower to reach than usual",
         "round trip " +:+ fmt_prec 0 value +:+ " ms, usually " +:+ fmt_prec 0 usual +:+ " ms",
         "The network path to the destination got longer or congested.")
    | RetransPerSec =>
        ("retransmits", "is resending more than usual",
         fmt_prec 1 value +:+ " retransmits/s, usually " +:+ fmt_prec 1 usual,
         "SRT is resending more packets to this destination than it normally does: loss on the path.")
    end%string in
  scoped (Some (an_pipeline_id anomaly)) None (Some (an_output_id anomaly))
    (Alert_new ("output:" +:+ an_output_id anomaly +:+ ":anomaly:" +:+ key) SevWarning ScOutput
       ("Output '" +:+ an_output_id anomaly +:+ "' " +:+ title) cause [derived text]
       "Watch it: if it keeps worsening, check the destination's status page and this server's uplink."
       generated_at).

Definition anomaly_alerts (l : list Anomaly) (generated_at : string) : list Alert :=
  map (anomaly_alert generated_at) l.

(** ** Runs of one baseline *)

Definition baseline_run (signal : Signal) (h : list (Z * f64)) : Baseline :=
  fold_left (fun b e => Baseline_observe signal e.1 e.2 b) h Baseline_default.

Definition past_entry (signal : Signal) (b : Baseline) (e : Z * f64) : bool :=
  f64_lt ENTER_SIGMAS (bl_badness signal b e.2).
Definition within_exit (signal : Signal) (b : Baseline) (e : Z * f64) : bool :=
  f64_lt (bl_badness signal b e.2) EXIT_SIGMAS.

(** The length of the run of [P] a list ends in. *)
Definition trailing {A} (P : A -> bool) (l : list A) : Z :=
  fold_left (fun n x => if P x then n + 1 else 0) l 0.
Lemma trailing_snoc {A} (P : A -> bool) l x :
  trailing P (l ++ [x]) = if P x then trailing P l + 1 else 0.
Proof. unfold trailing. by rewrite fold_left_app. Qed.

Lemma prefix_snoc_or {A} (p l : list A) x :
  p `prefix_of` l ++ [x] -> p `prefix_of` l \/ p = l ++ [x].
Proof.
  intros [k E]. destruct k as [|y k _] using rev_ind.
  - right. by rewrite app_nil_r in E.
  - left. rewrite app_assoc in E. apply app_inj_tail in E as [-> _]. by exists k.
Qed.

(** Two baselines that judge a value alike: what is learned is the same. *)
Definition same_normal (b b' : Baseline) : Prop :=
  bl_mean b = bl_mean b' /\ bl_variance b = bl_variance b' /\ bl_samples b = bl_samples b'.
#[global] Instance same_normal_equiv : Equivalence same_normal.
Proof.
  split; [by intros b| |]; unfold same_normal; [intros b b'|intros b b' b'']; intuition congruence.
Qed.
#[global] Instance past_entry_proper signal : Proper (same_normal ==> eq ==> eq) (past_entry signal).
Proof.
  intros b b' (Em & Ev & _) e ? <-. unfold past_entry, bl_badness. by rewrite Em, Ev.
Qed.
#[global] Instance within_exit_proper signal : Proper (same_normal ==> eq ==> eq) (within_exit signal).
Proof.
  intros b b' (Em & Ev & _) e ? <-. unfold within_exit, bl_badness. by rewrite Em, Ev.
Qed.
Lemma trailing_ext {A} (P Q : A -> bool) l : (forall x, P x = Q x) -> trailing P l = trailing Q l.
Proof.
  intros H. induction l as [|x l IH] using rev_ind; [done|]. by rewrite !trailing_snoc, H, IH.
Qed.

(** ** The standing of a baseline, from its history *)

(** What a baseline that is not anomalous remembers: the bad samples it ends in. *)
Definition watching (signal : Signal) (h : list (Z * f64)) (b : Baseline) : Prop :=
  exists h1 bad, h = h1 ++ bad /\ Z.of_nat (length bad) = bl_streak b
    /\ bl_streak b < SUSTAIN_SAMPLES /\ Forall (fun e => past_entry signal b e = true) bad
    /\ (bad <> [] -> WARM_UP_SAMPLES <= bl_samples b
        /\ exists v, head bad = Some (bl_streak_from_ms b, v))
    /\ same_normal b (baseline_run signal h1).

(** What an anomalous one does: five bad samples in a row, the first at [t], the
    baseline they were judged by unchanged since, and no five good samples in a row
    after them. *)
Definition departed (signal : Signal) (h : list (Z * f64)) (b : Baseline) (t : Z) : Prop :=
  exists h1 bad h2, h = h1 ++ bad ++ h2 /\ length bad = 5%nat
    /\ (exists v, head bad = Some (t, v))
    /\ WARM_UP_SAMPLES <= bl_samples b /\ same_normal b (baseline_run signal h1)
    /\ Forall (fun e => past_entry signal b e = true) bad
    /\ (forall p, p `prefix_of` h2 -> trailing (within_exit signal b) p < SUSTAIN_SAMPLES)
    /\ trailing (within_exit signal b) h2 = bl_streak b.

Definition standing_ok (signal : Signal) (h : list (Z * f64)) (b : Baseline) : Prop :=
  match bl_anomalous_since_ms b with
  | None => watching signal h b
  | Some t => departed signal h b t
  end.

Lemma watching_reset signal h b :
  bl_streak b = 0 -> same_normal b (baseline_run signal h) -> watching signal h b.
Proof.
  intros Hs Hn. exists h, []. rewrite app_nil_r, Hs. by split_and!.
Qed.

Lemma standing_normal b v n f s : same_normal (standing b v n f s) b.
Proof. by repeat split. Qed.

Lemma as_u32_small n : 0 <= n < 5 -> as_u32 (n + 1) = n + 1.
Proof. intros. apply wrapu_id. unfold in_u. lia. Qed.

(** A bad sample while watching: it starts or extends the streak, or completes it. *)
Lemma watching_bad signal h b t v :
  WARM_UP_SAMPLES <= bl_samples b -> watching signal h b -> past_entry signal b (t, v) = true ->
  let from := if bl_streak b =? 0 then t else bl_streak_from_ms b in
  if SUSTAIN_SAMPLES <=? bl_streak b + 1
  then departed signal (h ++ [(t, v)]) (standing b v 0 from (Some from)) from
  else watching signal (h ++ [(t, v)]) (standing b v (bl_streak b + 1) from None).
Proof.
  intros Hw (h1 & bad & -> & Hlen & Hlt & Hbad & Hhead & Hn) Hx from.
  assert (Forall (fun e => past_entry signal b e = true) (bad ++ [(t, v)])) as Hbad'.
  { apply Forall_app. split; [done|]. by apply Forall_singleton. }
  assert (exists v0, head (bad ++ [(t, v)]) = Some (from, v0)) as Hhead'.
  { unfold from. destruct bad as [|e bad]; cbn.
    - rewrite <- Hlen. cbn. by eauto.
    - destruct Hhead as [_ Hh]; [done|]. cbn in Hh, Hlen.
      by rewrite (proj2 (Z.eqb_neq (bl_streak b) 0)) by lia. }
  rewrite <- app_assoc. destruct (Z.leb_spec SUSTAIN_SAMPLES (bl_streak b + 1)) as [Hs|Hs].
  - exists h1, (bad ++ [(t, v)]), []. rewrite app_nil_r. split_and!; try done.
    + rewrite length_app. cbn. unfold SUSTAIN_SAMPLES in *. lia.
    + intros p ->%prefix_nil_inv. done.
  - exists h1, (bad ++ [(t, v)]). split_and!; try done. rewrite length_app. cbn. lia.
Qed.

(** A sample while departed that does not complete five good ones. *)
Lemma departed_next signal h b t x f v n :
  departed signal h b t ->
  n = (if within_exit signal b x then bl_streak b + 1 else 0) -> n < SUSTAIN_SAMPLES ->
  departed signal (h ++ [x]) (standing b v n f (Some t)) t.
Proof.
  intros (h1 & bad & h2 & -> & Hlen & Hhead & Hw & Hn & Hbad & Hpre & Htr) En Hlt.
  exists h1, bad, (h2 ++ [x]). split_and!; try done.
  - by rewrite !app_assoc.
  - intros p [Hp| ->]%prefix_snoc_or; [by apply Hpre|].
    change (trailing (within_exit signal b) (h2 ++ [x]) < SUSTAIN_SAMPLES).
    rewrite trailing_snoc, Htr. by rewrite <- En.
  - change (trailing (within_exit signal b) (h2 ++ [x]) = n). by rewrite trailing_snoc, Htr.
Qed.

Lemma departed_streak signal h b t : departed signal h b t -> 0 <= bl_streak b < SUSTAIN_SAMPLES.
Proof.
  intros (h1 & bad & h2 & _ & _ & _ & _ & _ & _ & Hpre & <-). split; [|by apply Hpre].
  unfold trailing. induction h2 as [|x l IH] using rev_ind; [done|].
  rewrite fold_left_app. cbn. case_match; [|lia].
  enough (0 <= fold_left (λ n x, if within_exit signal b x then n + 1 else 0) l 0) by lia.
  apply IH. intros p Hp. apply Hpre. by apply prefix_app_r.
Qed.

Lemma baseline_run_snoc signal h t v :
  baseline_run signal (h ++ [(t, v)]) = Baseline_observe signal t v (baseline_run signal h).
Proof. unfold baseline_run. by rewrite fold_left_app. Qed.

Lemma learn_watching signal h t v b :
  baseline_run signal (h ++ [(t, v)]) = learn v b -> bl_streak b = 0 ->
  watching signal (h ++ [(t, v)]) (learn v b).
Proof.
  intros E Hs. apply watching_reset; [|by rewrite E].
  unfold learn. by case_match.
Qed.

Definition standing_inv (signal : Signal) (h : list (Z * f64)) (b : Baseline) : Prop :=
  standing_ok signal h b
  /\ (bl_samples b < WARM_UP_SAMPLES -> bl_anomalous_since_ms b = None /\ bl_streak b = 0).

Lemma learn_inv signal h t v b :
  baseline_run signal (h ++ [(t, v)]) = learn v b -> bl_streak b = 0 ->
  bl_anomalous_since_ms b = None -> standing_inv signal (h ++ [(t, v)]) (learn v b).
Proof.
  intros E Hs Ha. assert (bl_anomalous_since_ms (learn v b) = None) as Ha' by (unfold learn; by case_match).
  split; [unfold standing_ok; rewrite Ha'; by apply learn_watching|].
  intros _. split; [done|]. unfold learn. by case_match.
Qed.

Lemma baseline_run_inv signal h : standing_inv signal h (baseline_run signal h).
Proof.
  induction h as [|[t v] h IH] using rev_ind; [split; [by apply watching_reset|done]|].
  pose proof (baseline_run_snoc signal h t v) as Hrun. rewrite Hrun.
  destruct IH as [H Hcold]. set (b := baseline_run signal h) in *. clearbody b.
  unfold Baseline_observe in *. destruct (Z.leb_spec WARM_UP_SAMPLES (bl_samples b)) as [Hw|Hw].
  2: { destruct (Hcold Hw). by apply learn_inv. }
  unfold standing_ok in H. destruct (bl_anomalous_since_ms b) as [since|] eqn:Ea.
  - pose proof (departed_streak _ _ _ _ H) as Hlt. unfold SUSTAIN_SAMPLES in Hlt.
    rewrite as_u32_small in * by lia. change (f64_lt (bl_badness signal b v) EXIT_SIGMAS) with (within_exit signal b (t, v)) in *.
    destruct (within_exit signal b (t, v)) eqn:Ex; [destruct (Z.leb_spec SUSTAIN_SAMPLES (bl_streak b + 1))|].
    + split; [|intros Hc; unfold WARM_UP_SAMPLES in *; cbn in Hc; lia]. by apply watching_reset; [|rewrite Hrun].
    + split; [|intros Hc; unfold WARM_UP_SAMPLES in *; cbn in Hc; lia]. unfold standing_ok. cbn. apply departed_next; by rewrite ?Ex.
    + split; [|intros Hc; unfold WARM_UP_SAMPLES in *; cbn in Hc; lia]. unfold standing_ok. cbn. apply departed_next; by rewrite ?Ex.
  - change (f64_lt ENTER_SIGMAS (bl_badness signal b v)) with (past_entry signal b (t, v)) in *. destruct (past_entry signal b (t, v)) eqn:Ex; [|by apply learn_inv].
    pose proof (watching_bad _ _ _ _ _ Hw H Ex) as Hn.
    destruct H as (h1 & bad & _ & Hlen & Hlt & _). unfold SUSTAIN_SAMPLES in Hlt.
    rewrite as_u32_small by lia. destruct (Z.leb_spec SUSTAIN_SAMPLES (bl_streak b + 1));
      (split; [exact Hn|intros Hc; unfold WARM_UP_SAMPLES in *; cbn in Hc; lia]).
Qed.

(** ** Theorems *)

(** C40: Whatever samples a signal has seen, when its baseline calls it anomalous since [t]
    the samples contain five in a row, the first at [t], that are all past the entry line
    of the baseline as it stands (nothing was learned since they began), the baseline had
    its warm-up, and no five samples in a row after them were back within the exit
    line. *)
Theorem anomaly_is_sustained_departure signal h t :
  let b := baseline_run signal h in
  bl_anomalous_since_ms b = Some t ->
  exists h1 v0 four h2,
    h = h1 ++ ((t, v0) :: four) ++ h2 /\ length four = 4%nat
    /\ 150 <= bl_samples (baseline_run signal h1) /\ same_normal b (baseline_run signal h1)
    /\ Forall (fun e => past_entry signal b e = true) ((t, v0) :: four)
    /\ forall p, p `prefix_of` h2 -> trailing (within_exit signal b) p < 5.
Proof.
  intros b Hb. pose proof (proj1 (baseline_run_inv signal h)) as H. unfold standing_ok in H.
  fold b in H. rewrite Hb in H.
  destruct H as (h1 & [|e four] & h2 & -> & Hlen & (v & Hhead) & Hw & Hn & Hbad & Hpre & _); [done|].
  cbn in Hhead. injection Hhead as ->. exists h1, v, four, h2. split_and!; try done.
  - by injection Hlen.
  - destruct Hn as (_ & _ & <-). done.
Qed.

(** [n] more bad samples of a watching baseline, and [n] more good ones of an anomalous one. *)
Lemma bad_samples signal b s :
  WARM_UP_SAMPLES <= bl_samples b -> bl_anomalous_since_ms b = None ->
  0 <= bl_streak b -> bl_streak b + Z.of_nat (length s) = 5 -> s <> [] ->
  Forall (fun e => past_entry signal b e = true) s ->
  let b' := fold_left (fun b e => Baseline_observe signal e.1 e.2 b) s b in
  bl_anomalous_since_ms b' = Some (if bl_streak b =? 0 then (hd (0, f64_zero) s).1 else bl_streak_from_ms b)
  /\ bl_streak b' = 0 /\ same_normal b' b.
Proof.
  revert b. induction s as [|[t v] s IH]; intros b Hw Ha H0 Hlen Hne Hbad; [done|].
  apply Forall_cons in Hbad as [Hx Hbad]. cbn [fold_left fst snd hd].
  rewrite length_cons in Hlen.
  unfold Baseline_observe at 2 4 6. rewrite Ha, (proj2 (Z.leb_le _ _) Hw).
  change (f64_lt ENTER_SIGMAS (bl_badness signal b v)) with (past_entry signal b (t, v)). rewrite Hx, as_u32_small by lia.
  destruct (Z.leb_spec SUSTAIN_SAMPLES (bl_streak b + 1)) as [Hs|Hs]; unfold SUSTAIN_SAMPLES in Hs.
  - destruct s; [by repeat split|]. cbn in Hlen. lia.
  - specialize (IH (standing b v (bl_streak b + 1) (if bl_streak b =? 0 then t else bl_streak_from_ms b) None)).
    cbn in IH. destruct IH as (-> & -> & Hn); try done; try lia; [intros ->; cbn in Hlen; lia|].
    rewrite (proj2 (Z.eqb_neq (bl_streak b + 1) 0)) by lia. done.
Qed.

Lemma good_samples signal b s t :
  WARM_UP_SAMPLES <= bl_samples b -> bl_anomalous_since_ms b = Some t ->
  0 <= bl_streak b -> bl_streak b + Z.of_nat (length s) = 5 -> s <> [] ->
  Forall (fun e => within_exit signal b e = true) s ->
  let b' := fold_left (fun b e => Baseline_observe signal e.1 e.2 b) s b in
  bl_anomalous_since_ms b' = None /\ same_normal b' b.
Proof.
  revert b. induction s as [|[t' v] s IH]; intros b Hw Ha H0 Hlen Hne Hbad; [done|].
  apply Forall_cons in Hbad as [Hx Hbad]. cbn [fold_left fst snd].
  rewrite length_cons in Hlen.
  unfold Baseline_observe at 2 4. rewrite Ha, (proj2 (Z.leb_le _ _) Hw).
  change (f64_lt (bl_badness signal b v) EXIT_SIGMAS) with (within_exit signal b (t', v)). rewrite Hx, as_u32_small by lia.
  destruct (Z.leb_spec SUSTAIN_SAMPLES (bl_streak b + 1)) as [Hs|Hs]; unfold SUSTAIN_SAMPLES in Hs.
  - destruct s; [by repeat split|]. cbn in Hlen. lia.
  - specialize (IH (standing b v (bl_streak b + 1) (bl_streak_from_ms b) (Some t))).
    cbn in IH. destruct IH as (-> & Hn); try done; try lia. intros ->; cbn in Hlen; lia.
Qed.

(** Five bad samples in a row flag a warmed-up signal since the first of them, and five
    good ones in a row clear it; neither teaches the baseline anything. *)
Theorem sustained_departure_is_flagged signal b s g :
  WARM_UP_SAMPLES <= bl_samples b -> bl_anomalous_since_ms b = None -> bl_streak b = 0 ->
  length s = 5%nat -> Forall (fun e => past_entry signal b e = true) s ->
  length g = 5%nat -> Forall (fun e => within_exit signal b e = true) g ->
  let b' := fold_left (fun b e => Baseline_observe signal e.1 e.2 b) s b in
  let b'' := fold_left (fun b e => Baseline_observe signal e.1 e.2 b) g b' in
  bl_anomalous_since_ms b' = fst <$> head s /\ same_normal b' b
  /\ bl_anomalous_since_ms b'' = None /\ same_normal b'' b.
Proof.
  intros Hw Ha Hs Hls Hbad Hlg Hgood b' b''.
  destruct (bad_samples signal b s) as (Ea & Es & En); try done; try lia; [by intros ->|].
  fold b' in Ea, Es, En. rewrite Hs in Ea. cbn in Ea.
  edestruct (good_samples signal b' g) as (Ea' & En'); try done; try lia.
  - by destruct En as (_ & _ & ->).
  - by intros ->.
  - eapply Forall_impl; [exact Hgood|]. intros e <-. by rewrite En.
  - split_and!; [|done|done|by etrans]. rewrite Ea. by destruct s.
Qed.

Definition steady : list (Z * f64) := replicate 150 (0, f64_from 50).
Definition slow : list (Z * f64) := map (fun t => (t, f64_from 500)) [300; 302; 304; 306; 308].
Definition normal : list (Z * f64) := map (fun t => (t, f64_from 50)) [310; 312; 314; 316; 318].

Lemma anomaly_is_sustained_departure_witness :
  bl_anomalous_since_ms (baseline_run RttMs (steady ++ slow)) = Some 300
  /\ exists h1 v0 four h2, steady ++ slow = h1 ++ ((300, v0) :: four) ++ h2 /\ length four = 4%nat.
Proof.
  assert (bl_anomalous_since_ms (baseline_run RttMs (steady ++ slow)) = Some 300) as E
    by (vm_compute; reflexivity).
  split; [exact E|].
  destruct (anomaly_is_sustained_departure RttMs (steady ++ slow) 300 E)
    as (h1 & v0 & four & h2 & Eh & Hl & _).
  exists h1, v0, four, h2. split; [exact Eh|exact Hl].
Defined.

Lemma sustained_departure_is_flagged_witness :
  let b := baseline_run RttMs steady in
  bl_anomalous_since_ms
    (fold_left (fun b e => Baseline_observe RttMs e.1 e.2 b) slow b) = Some 300.
Proof.
  refine (proj1 (sustained_departure_is_flagged RttMs (baseline_run RttMs steady) slow normal
                   _ _ _ _ _ _ _)).
  - by vm_compute.
  - by vm_compute.
  - by vm_compute.
  - reflexivity.
  - apply Forall_forall. intros e He. repeat (apply elem_of_cons in He as [->|He]; [by vm_compute|]).
    by apply not_elem_of_nil in He.
  - reflexivity.
  - apply Forall_forall. intros e He. repeat (apply elem_of_cons in He as [->|He]; [by vm_compute|]).
    by apply not_elem_of_nil in He.
Defined.
