(* ===== verification/UploadPolicy.v ===== *)
(** * HLS upload policy

    Models [crates/restream-engine/src/hls/upload_policy.rs] and
    [hls/upload_policy/delivery.rs]: what an HLS PUT output uploads, in what order, and
    what it does on each response.  An [Instant] and a [Duration] are nanoseconds. *)

From S2P Require Import Prelude Text Diagnosis Alerts.

Open Scope Z_scope.

(** ** Durations *)

Definition from_millis (ms : Z) : Z := ms * 1000000.
Definition from_secs (s : Z) : Z := s * 1000000000.
(** [Duration::MAX] *)
Definition DURATION_MAX : Z := 2 ^ 64 * 1000000000 - 1.

(** [Duration::try_from_secs_f64]: to the nearest nanosecond, ties to even; an error for
    a negative, too large or undefined number. *)
Definition try_from_secs_f64 (x : f64) : option Z :=
  match x with
  | S754_zero _ => Some 0
  | S754_finite false m e =>
      let ns := if 0 <=? e then Z.pos m * 2 ^ e * 1000000000
                else round_half_even (Z.pos m * 1000000000) (2 ^ (- e)) in
      if ns <=? DURATION_MAX then Some ns else None
  | _ => None
  end.

(** [x.ceil() as u64] *)
Definition ceil_u64 (x : f64) : Z :=
  match x with
  | S754_infinity false => 2 ^ 64 - 1
  | S754_finite false m e =>
      sat_u 64 (if 0 <=? e then Z.pos m * 2 ^ e else (Z.pos m + 2 ^ (- e) - 1) / 2 ^ (- e))
  | _ => 0
  end.

Definition string_bytes (s : string) : bytes :=
  map (fun c => Z.of_N (Ascii.N_of_ascii c)) (String.list_ascii_of_string s).

(** ** Segment delivery *)

Definition SEGMENT_DUE_AFTER : Z := from_secs 6.

Record Awaiting := mk_Awaiting { aw_sequence : Z; aw_bytes : Z; aw_due_at : Z }.
Record SegmentDelivery := mk_SegmentDelivery {
  sd_awaiting : list Awaiting;
  sd_due_bytes : Z;
  sd_on_time_bytes : Z;
}.
Definition SegmentDelivery_default : SegmentDelivery := mk_SegmentDelivery [] 0 0.

Fixpoint settle_loop (now : Z) (awaiting : list Awaiting) (due : Z) : list Awaiting * Z :=
  match awaiting with
  | segment :: rest =>
      if aw_due_at segment <=? now then settle_loop now rest (sat_u 64 (due + aw_bytes segment))
      else (awaiting, due)
  | [] => ([], due)
  end.
Definition settle (now : Z) (d : SegmentDelivery) : SegmentDelivery :=
  let '(awaiting, due) := settle_loop now (sd_awaiting d) (sd_due_bytes d) in
  mk_SegmentDelivery awaiting due (sd_on_time_bytes d).

Definition published (sequence bytes now : Z) (d : SegmentDelivery) : SegmentDelivery :=
  let d := settle now d in
  mk_SegmentDelivery (sd_awaiting d ++ [mk_Awaiting sequence bytes (now + SEGMENT_DUE_AFTER)])
    (sd_due_bytes d) (sd_on_time_bytes d).

(** The first entry of a list that satisfies [P], and the list without it. *)
Fixpoint remove_first {A} (P : A -> bool) (l : list A) : option (A * list A) :=
  match l with
  | [] => None
  | x :: l' => if P x then Some (x, l') else (fun '(y, r) => (y, x :: r)) <$> remove_first P l'
  end.

Definition acknowledged (sequence now : Z) (d : SegmentDelivery) : SegmentDelivery :=
  let d := settle now d in
  match remove_first (fun a => aw_sequence a =? sequence) (sd_awaiting d) with
  | Some (segment, rest) =>
      mk_SegmentDelivery rest (sat_u 64 (sd_due_bytes d + aw_bytes segment))
        (sat_u 64 (sd_on_time_bytes d + aw_bytes segment))
  | None => d
  end.

Definition totals (now : Z) (d : SegmentDelivery) : SegmentDelivery * (Z * Z) :=
  let d := settle now d in (d, (sd_on_time_bytes d, sd_due_bytes d)).

(** ** The policy *)

Record HlsSegmentSnapshot := mk_HlsSegmentSnapshot { hs_index : Z; hs_duration : f64; hs_data : bytes }.
Record HlsStoreSnapshot := mk_HlsStoreSnapshot {
  hs_playlist : string;
  hs_segments : list HlsSegmentSnapshot;
}.

Definition HLS_PLAYLIST_CONTENT_TYPE : string := "application/vnd.apple.mpegurl".
Definition HLS_SEGMENT_CONTENT_TYPE : string := "video/mp2t".
Definition PLAYLIST_WINDOW : nat := 3.
Definition MAX_PENDING_SEGMENTS : nat := 5.
Definition BACKOFF_FIRST : Z := from_millis 200.
Definition BACKOFF_MAX : Z := from_secs 5.
Definition MIN_SEGMENT_RETRY : Z := from_secs 1.

Inductive UploadTarget :=
| TSegment (sequence : Z)
| TPlaylist (last_sequence : option Z) (end_ : bool).

Record UploadRequest := mk_UploadRequest {
  ur_target : UploadTarget;
  ur_file_name : string;
  ur_content_type : string;
  ur_body : bytes;
  ur_fresh_connection : bool;
}.

Inductive UploadOutcome := OStatus (status : Z) | OTransport.
Inductive Stopped := SRejected (status : Z) | SEnded.
Inductive Next := NPut (r : UploadRequest) | NWait (until : option Z) | NStop (s : Stopped).
Inductive ResultEffect :=
| RAcknowledged (bytes : Z)
| RWillRetry (attempts : Z)
| RRejected (status : Z)
| REndNotDelivered.

Record PendingSegment := mk_PendingSegment {
  ps_sequence : Z;
  ps_duration : f64;
  ps_data : bytes;
  ps_first_attempt : option Z;
}.
Record AckedSegment := mk_AckedSegment { as_sequence : Z; as_duration : f64 }.
Record InFlight := mk_InFlight { if_target : UploadTarget; if_duration : f64; if_bytes : Z }.

Record UploadPolicy := mk_UploadPolicy {
  up_session : string;
  up_last_store_index : option Z;
  up_next_sequence : Z;
  up_pending : list PendingSegment;
  up_window : list AckedSegment;
  up_sent_window : list AckedSegment;
  up_window_floor : Z;
  up_target_duration : Z;
  up_playlist_dirty : bool;
  up_in_flight : option InFlight;
  up_attempts : Z;
  up_backoff_until : option Z;
  up_ending : bool;
  up_stopped : option Stopped;
  up_dropped : Z;
  up_backlog_dropped : Z;
  up_delivery : SegmentDelivery;
}.

Definition policy_new (session : string) : UploadPolicy :=
  mk_UploadPolicy session None 0 [] [] [] 0 1 false None 0 None false None 0 0
    SegmentDelivery_default.

#[local] Notation "s <| 'pending' := p |>" :=
  (mk_UploadPolicy (up_session s) (up_last_store_index s) (up_next_sequence s) p (up_window s)
     (up_sent_window s) (up_window_floor s) (up_target_duration s) (up_playlist_dirty s)
     (up_in_flight s) (up_attempts s) (up_backoff_until s) (up_ending s) (up_stopped s)
     (up_dropped s) (up_backlog_dropped s) (up_delivery s)) (at level 9, only parsing).
#[local] Notation "s <| 'window' := w ; 'floor' := f |>" :=
  (mk_UploadPolicy (up_session s) (up_last_store_index s) (up_next_sequence s) (up_pending s) w
     (up_sent_window s) f (up_target_duration s) (up_playlist_dirty s)
     (up_in_flight s) (up_attempts s) (up_backoff_until s) (up_ending s) (up_stopped s)
     (up_dropped s) (up_backlog_dropped s) (up_delivery s)) (at level 9, only parsing).
#[local] Notation "s <| 'flight' := f ; 'sent' := w |>" :=
  (mk_UploadPolicy (up_session s) (up_last_store_index s) (up_next_sequence s) (up_pending s)
     (up_window s) w (up_window_floor s) (up_target_duration s) (up_playlist_dirty s)
     f (up_attempts s) (up_backoff_until s) (up_ending s) (up_stopped s)
     (up_dropped s) (up_backlog_dropped s) (up_delivery s)) (at level 9, only parsing).
#[local] Notation "s <| 'attempts' := a ; 'backoff' := b |>" :=
  (mk_UploadPolicy (up_session s) (up_last_store_index s) (up_next_sequence s) (up_pending s)
     (up_window s) (up_sent_window s) (up_window_floor s) (up_target_duration s)
     (up_playlist_dirty s) (up_in_flight s) a b (up_ending s) (up_stopped s)
     (up_dropped s) (up_backlog_dropped s) (up_delivery s)) (at level 9, only parsing).
#[local] Notation "s <| 'dirty' := d ; 'stopped' := t |>" :=
  (mk_UploadPolicy (up_session s) (up_last_store_index s) (up_next_sequence s) (up_pending s)
     (up_window s) (up_sent_window s) (up_window_floor s) (up_target_duration s) d
     (up_in_flight s) (up_attempts s) (up_backoff_until s) (up_ending s) t
     (up_dropped s) (up_backlog_dropped s) (up_delivery s)) (at level 9, only parsing).
#[local] Notation "s <| 'target' := t ; 'delivery' := d |>" :=
  (mk_UploadPolicy (up_session s) (up_last_store_index s) (up_next_sequence s) (up_pending s)
     (up_window s) (up_sent_window s) (up_window_floor s) t (up_playlist_dirty s)
     (up_in_flight s) (up_attempts s) (up_backoff_until s) (up_ending s) (up_stopped s)
     (up_dropped s) (up_backlog_dropped s) d) (at level 9, only parsing).
#[local] Notation "s <| 'dropped' := d ; 'backlog' := b |>" :=
  (mk_UploadPolicy (up_session s) (up_last_store_index s) (up_next_sequence s) (up_pending s)
     (up_window s) (up_sent_window s) (up_window_floor s) (up_target_duration s)
     (up_playlist_dirty s) (up_in_flight s) (up_attempts s) (up_backoff_until s) (up_ending s)
     (up_stopped s) d b (up_delivery s)) (at level 9, only parsing).

Definition delivery_totals (now : Z) (s : UploadPolicy) : UploadPolicy * (Z * Z) :=
  let '(d, t) := totals now (up_delivery s) in
  (s <| target := up_target_duration s; delivery := d |>, t).

Definition drop_segment (sequence : Z) (s : UploadPolicy) : UploadPolicy :=
  let s := s <| window := []; floor := Z.max (up_window_floor s) (sat_u 64 (sequence + 1)) |> in
  s <| dropped := sat_u 64 (up_dropped s + 1); backlog := up_backlog_dropped s |>.

(** One pass of the loop over the fresh segments. *)
Definition take_fresh (now : Z) (s : UploadPolicy) (segment : HlsSegmentSnapshot) : UploadPolicy :=
  let sequence := up_next_sequence s in
  mk_UploadPolicy (up_session s) (up_last_store_index s) (sat_u 64 (sequence + 1))
    (up_pending s ++ [mk_PendingSegment sequence (hs_duration segment) (hs_data segment) None])
    (up_window s) (up_sent_window s) (up_window_floor s) (up_target_duration s)
    (up_playlist_dirty s) (up_in_flight s) (up_attempts s) (up_backoff_until s) (up_ending s)
    (up_stopped s) (up_dropped s) (up_backlog_dropped s)
    (published sequence (zlen (hs_data segment)) now (up_delivery s)).

(** [while self.pending.len() > MAX_PENDING_SEGMENTS] *)
Fixpoint cap_backlog (fuel : nat) (s : UploadPolicy) : UploadPolicy :=
  match fuel with
  | O => s
  | S fuel =>
      if (MAX_PENDING_SEGMENTS <? length (up_pending s))%nat then
        match up_pending s with
        | dropped :: rest =>
            let s := drop_segment (ps_sequence dropped) (s <| pending := rest |>) in
            let s := s <| dropped := up_dropped s; backlog := sat_u 64 (up_backlog_dropped s + 1) |> in
            cap_backlog fuel s
        | [] => s
        end
      else s
  end.

Definition on_publish (snapshot : HlsStoreSnapshot) (now : Z) (s : UploadPolicy) : UploadPolicy :=
  if up_ending s then s
  else match up_stopped s with Some _ => s | None =>
    match hs_segments snapshot with
    | [] => s
    | first :: more =>
        let newest := fold_left (fun n x => Z.max n (hs_index x)) more (hs_index first) in
        let fresh :=
          match up_last_store_index s with
          | None => filter (fun x => hs_index x = newest) (hs_segments snapshot)
          | Some last =>
              if newest <? last then hs_segments snapshot
              else filter (fun x => last < hs_index x) (hs_segments snapshot)
          end in
        let s := mk_UploadPolicy (up_session s) (Some newest) (up_next_sequence s) (up_pending s)
                   (up_window s) (up_sent_window s) (up_window_floor s) (up_target_duration s)
                   (up_playlist_dirty s) (up_in_flight s) (up_attempts s) (up_backoff_until s)
                   (up_ending s) (up_stopped s) (up_dropped s) (up_backlog_dropped s)
                   (up_delivery s) in
        let s := fold_left (take_fresh now) fresh s in
        cap_backlog (length (up_pending s)) s
    end
  end.

Definition finish (s : UploadPolicy) : UploadPolicy :=
  mk_UploadPolicy (up_session s) (up_last_store_index s) (up_next_sequence s) []
    (match up_window s with [] => up_sent_window s | w => w end)
    (up_sent_window s) (up_window_floor s) (up_target_duration s) (up_playlist_dirty s)
    (up_in_flight s) (up_attempts s) None true (up_stopped s) (up_dropped s)
    (up_backlog_dropped s) (up_delivery s).

Definition segment_name (session : string) (sequence : Z) : string :=
  session +:+ "-" +:+ display sequence +:+ ".ts".

Definition NL : string := String (Ascii.ascii_of_nat 10) "".

Definition render_playlist (session : string) (target_duration : Z) (window : list AckedSegment)
    (end_ : bool) : string :=
  let first := match window with x :: _ => as_sequence x | [] => 0 end in
  "#EXTM3U" +:+ NL +:+ "#EXT-X-VERSION:3" +:+ NL +:+ "#EXT-X-TARGETDURATION:"
  +:+ display target_duration +:+ NL +:+ "#EXT-X-MEDIA-SEQUENCE:" +:+ display first +:+ NL
  +:+ String.concat "" (map (fun x => "#EXTINF:" +:+ fmt_prec 3 (as_duration x) +:+ "," +:+ NL
                                      +:+ segment_name session (as_sequence x) +:+ NL) window)
  +:+ (if end_ then "#EXT-X-ENDLIST" +:+ NL else "").

Definition playlist_request (s : UploadPolicy) : UploadPolicy * UploadRequest :=
  let end_ := up_ending s in
  let target := TPlaylist (as_sequence <$> last (up_window s)) end_ in
  let body := string_bytes (render_playlist (up_session s) (up_target_duration s) (up_window s) end_) in
  (s <| flight := Some (mk_InFlight target f64_zero (zlen body)); sent := up_window s |>,
   mk_UploadRequest target "" HLS_PLAYLIST_CONTENT_TYPE body (0 <? up_attempts s)).

Definition retry_window (duration : f64) : Z :=
  Z.max (default MIN_SEGMENT_RETRY (try_from_secs_f64 duration)) MIN_SEGMENT_RETRY.

Definition expired (now : Z) (p : PendingSegment) : bool :=
  match ps_first_attempt p with
  | Some first => first + retry_window (ps_duration p) <=? now
  | None => false
  end.

(** The [while let Some(front)] loop: drops the segments past their retry window and
    sends the first that is not. *)
Fixpoint send_pending (now : Z) (pending : list PendingSegment) (s : UploadPolicy)
  : UploadPolicy * option UploadRequest :=
  match pending with
  | [] => (s <| pending := [] |>, None)
  | front :: rest =>
      if expired now front then
        let s := drop_segment (ps_sequence front) (s <| pending := rest |>) in
        send_pending now rest (s <| attempts := 0; backoff := up_backoff_until s |>)
      else
        let front := mk_PendingSegment (ps_sequence front) (ps_duration front) (ps_data front)
                       (Some (default now (ps_first_attempt front))) in
        let target := TSegment (ps_sequence front) in
        let s := s <| pending := front :: rest |> in
        (s <| flight := Some (mk_InFlight target (ps_duration front) (zlen (ps_data front)));
             sent := up_sent_window s |>,
         Some (mk_UploadRequest target (segment_name (up_session s) (ps_sequence front))
                 HLS_SEGMENT_CONTENT_TYPE (ps_data front) (0 <? up_attempts s)))
  end.

Definition next (now : Z) (s : UploadPolicy) : UploadPolicy * Next :=
  match up_stopped s with
  | Some stopped => (s, NStop stopped)
  | None =>
      match up_in_flight s with
      | Some _ => (s, NWait None)
      | None =>
          match (match up_backoff_until s with
                 | Some until => if now <? until then Some until else None
                 | None => None
                 end) with
          | Some until => (s, NWait (Some until))
          | None =>
              let empty := match up_window s with [] => true | _ => false end in
              let s := if up_playlist_dirty s && empty
                       then s <| dirty := false; stopped := up_stopped s |> else s in
              if up_playlist_dirty s || (up_ending s && negb empty) then
                let '(s, r) := playlist_request s in (s, NPut r)
              else
                match send_pending now (up_pending s) s with
                | (s, Some r) => (s, NPut r)
                | (s, None) =>
                    if up_ending s
                    then (s <| dirty := up_playlist_dirty s; stopped := Some SEnded |>, NStop SEnded)
                    else (s, NWait None)
                end
          end
      end
  end.

Inductive Class := CAcknowledged | CRejected (status : Z) | CRetry.
Definition classify (outcome : UploadOutcome) : Class :=
  match outcome with
  | OStatus status =>
      if (200 <=? status) && (status <=? 299) then CAcknowledged
      else if (status =? 408) || (status =? 425) || (status =? 429) then CRetry
      else if (400 <=? status) && (status <=? 499) then CRejected status
      else CRetry
  | OTransport => CRetry
  end.

Definition backoff (attempts : Z) : Z :=
  let doublings := Z.min (sat_u 32 (attempts - 1)) 16 in
  Z.min (Z.min (BACKOFF_FIRST * (1 .<< doublings)) DURATION_MAX) BACKOFF_MAX.

(** [while self.window.len() > PLAYLIST_WINDOW] *)
Fixpoint trim_window (fuel : nat) (window : list AckedSegment) (floor : Z) : list AckedSegment * Z :=
  match fuel with
  | O => (window, floor)
  | S fuel =>
      if (PLAYLIST_WINDOW <? length window)%nat then
        match window with
        | leaving :: rest => trim_window fuel rest (Z.max floor (sat_u 64 (as_sequence leaving + 1)))
        | [] => (window, floor)
        end
      else (window, floor)
  end.

(** [pending] once its front, if it is [sequence], is popped. *)
Definition popped (sequence : Z) (pending : list PendingSegment) : list PendingSegment :=
  match pending with
  | front :: rest => if ps_sequence front =? sequence then rest else pending
  | [] => []
  end.

(** The window with a segment pushed to its end; one after a gap starts a new window. *)
Definition pushed (window : list AckedSegment) (x : AckedSegment) : list AckedSegment :=
  match last window with
  | Some back => if sat_u 64 (as_sequence back + 1) =? as_sequence x then window else []
  | None => window
  end ++ [x].

Definition acknowledge_segment (sequence : Z) (duration : f64) (now : Z) (s : UploadPolicy)
  : UploadPolicy :=
  let '(window, floor, dirty) :=
    if up_window_floor s <=? sequence then
      let window := pushed (up_window s) (mk_AckedSegment sequence duration) in
      (trim_window (length window) window (up_window_floor s), true)
    else (up_window s, up_window_floor s, up_playlist_dirty s) in
  mk_UploadPolicy (up_session s) (up_last_store_index s) (up_next_sequence s)
    (popped sequence (up_pending s)) window (up_sent_window s) floor
    (Z.max (up_target_duration s) (ceil_u64 duration)) dirty (up_in_flight s) (up_attempts s)
    (up_backoff_until s) (up_ending s) (up_stopped s) (up_dropped s) (up_backlog_dropped s)
    (acknowledged sequence now (up_delivery s)).

Definition on_result (outcome : UploadOutcome) (now : Z) (s : UploadPolicy)
  : UploadPolicy * option ResultEffect :=
  match up_in_flight s with
  | None => (s, None)
  | Some f =>
      let s := s <| flight := None; sent := up_sent_window s |> in
      match classify outcome with
      | CAcknowledged =>
          let s := s <| attempts := 0; backoff := None |> in
          match if_target f with
          | TSegment sequence =>
              (acknowledge_segment sequence (if_duration f) now s, Some (RAcknowledged (if_bytes f)))
          | TPlaylist _ end_ =>
              (s <| dirty := false; stopped := if end_ then Some SEnded else up_stopped s |>,
               Some (RAcknowledged (if_bytes f)))
          end
      | CRejected status =>
          (s <| dirty := up_playlist_dirty s; stopped := Some (SRejected status) |>,
           Some (RRejected status))
      | CRetry =>
          match if_target f with
          | TPlaylist _ true =>
              (s <| dirty := up_playlist_dirty s; stopped := Some SEnded |>, Some REndNotDelivered)
          | _ =>
              let attempts := sat_u 32 (up_attempts s + 1) in
              (s <| attempts := attempts; backoff := Some (now + backoff attempts) |>,
               Some (RWillRetry attempts))
          end
      end
  end.

Definition is_finishing (s : UploadPolicy) : bool := up_ending s.
Definition dropped_segments (s : UploadPolicy) : Z := up_dropped s.
Definition backlog_dropped_segments (s : UploadPolicy) : Z := up_backlog_dropped s.

Definition upload_phase (target : UploadTarget) : string :=
  match target with TSegment _ => "upload_segment" | TPlaylist _ _ => "upload_playlist" end.
Definition object_name (request : UploadRequest) : string :=
  match ur_target request with TPlaylist _ _ => "playlist" | TSegment _ => ur_file_name request end.
Definition rejected_message (file_name : string) (status : Z) : string :=
  "HLS ingest rejected " +:+ file_name +:+ " with HTTP " +:+ display status.
Definition dropped_message (cause : string) (total : Z) : string :=
  cause +:+ "; segment dropped after failing for its duration (" +:+ display total +:+ " so far)".
Definition backlog_dropped_message (total : Z) : string :=
  "upload backlog over " +:+ display (Z.of_nat MAX_PENDING_SEGMENTS)
  +:+ " segments; oldest dropped (" +:+ display total +:+ " so far)".

(** ** Sessions

    What a transport does with a policy: publishes, requests, results, an end; and what
    the server sees of it. *)

Inductive UpOp :=
| UPublish (snapshot : HlsStoreSnapshot) (now : Z)
| UNext (now : Z)
| UResult (outcome : UploadOutcome) (now : Z)
| UTotals (now : Z)
| UFinish.

Inductive UpEvent :=
| ESegment (sequence : Z) (r : UploadRequest)
| EPlaylist (listed : list AckedSegment) (r : UploadRequest)
| EAck (sequence : Z).

Definition request_event (s : UploadPolicy) (r : UploadRequest) : UpEvent :=
  match ur_target r with
  | TSegment q => ESegment q r
  | TPlaylist _ _ => EPlaylist (up_sent_window s) r
  end.

Definition acked_event (s : UploadPolicy) (outcome : UploadOutcome) : list UpEvent :=
  match up_in_flight s, classify outcome with
  | Some f, CAcknowledged => match if_target f with TSegment q => [EAck q] | _ => [] end
  | _, _ => []
  end.

Definition up_step (op : UpOp) (s : UploadPolicy) : UploadPolicy * list UpEvent :=
  match op with
  | UPublish snapshot now => (on_publish snapshot now s, [])
  | UNext now =>
      let '(s', n) := next now s in
      (s', match n with NPut r => [request_event s' r] | _ => [] end)
  | UResult outcome now => ((on_result outcome now s).1, acked_event s outcome)
  | UTotals now => ((delivery_totals now s).1, [])
  | UFinish => (finish s, [])
  end.

Fixpoint up_run (ops : list UpOp) (s : UploadPolicy) (log : list UpEvent)
  : UploadPolicy * list UpEvent :=
  match ops with
  | [] => (s, log)
  | op :: ops => let '(s, e) := up_step op s in up_run ops s (log ++ e)
  end.

(** ** What a server may rely on *)

(** [n] consecutive sequences from [a]. *)
Definition zseq (a : Z) (n : nat) : list Z := map (fun i => a + Z.of_nat i) (seq 0 n).

Definition media_sequence (l : list AckedSegment) : Z :=
  match l with x :: _ => as_sequence x | [] => 0 end.

(** A window: consecutive segments. *)
Definition consecutive (l : list AckedSegment) : Prop :=
  map as_sequence l = zseq (media_sequence l) (length l).

Definition event_ok (session : string) (log : list UpEvent) (e : UpEvent) : Prop :=
  match e with
  | ESegment q r =>
      ur_file_name r = segment_name session q /\ ~ EAck q ∈ log
  | EAck q => exists r, ESegment q r ∈ log
  | EPlaylist l r =>
      l <> [] /\ (length l <= PLAYLIST_WINDOW)%nat /\ consecutive l
      /\ (forall x, x ∈ l -> EAck (as_sequence x) ∈ log)
      /\ (forall l' r', EPlaylist l' r' ∈ log -> media_sequence l' <= media_sequence l)
      /\ exists target last_,
           ur_target r = TPlaylist (as_sequence <$> last l) last_
           /\ ur_body r = string_bytes (render_playlist session target l last_)
           /\ Forall (fun x => ceil_u64 (as_duration x) <= target) l
  end.

Fixpoint log_ok_from (session : string) (before log : list UpEvent) : Prop :=
  match log with
  | [] => True
  | e :: log' => event_ok session before e /\ log_ok_from session (before ++ [e]) log'
  end.
Definition log_ok (session : string) (log : list UpEvent) : Prop := log_ok_from session [] log.

(** The sequence of the first segment that is pending, or would be. *)
Definition lo (s : UploadPolicy) : Z := up_next_sequence s - zlen (up_pending s).

Definition U64_MAX : Z := 2 ^ 64 - 1.

Record policy_ok (session : string) (log : list UpEvent) (s : UploadPolicy) : Prop := {
  ok_session : up_session s = session;
  ok_lo : 0 <= up_window_floor s <= lo s;
  ok_next : up_next_sequence s < U64_MAX;
  ok_pending : map ps_sequence (up_pending s) = zseq (lo s) (length (up_pending s));
  ok_window : consecutive (up_window s) /\ (length (up_window s) <= PLAYLIST_WINDOW)%nat;
  ok_acked : forall q, EAck q ∈ log -> 0 <= q < lo s;
  ok_listed : forall x, x ∈ up_window s \/ x ∈ up_sent_window s ->
              EAck (as_sequence x) ∈ log /\ ceil_u64 (as_duration x) <= up_target_duration s;
  ok_sent : consecutive (up_sent_window s) /\ (length (up_sent_window s) <= PLAYLIST_WINDOW)%nat;
  ok_forward : up_window s <> [] -> up_sent_window s <> [] ->
               media_sequence (up_sent_window s) <= media_sequence (up_window s);
  ok_playlists : forall l r, EPlaylist l r ∈ log ->
                 up_sent_window s <> [] /\ media_sequence l <= media_sequence (up_sent_window s);
  ok_flight : forall f q, up_in_flight s = Some f -> if_target f = TSegment q ->
              (exists r, ESegment q r ∈ log) /\ 0 <= q < up_next_sequence s
              /\ (q < up_window_floor s
                  \/ (forall a, EAck a ∈ log -> a < q)
                     /\ (up_ending s = true \/ q = lo s /\ up_pending s <> []));
  ok_ending : up_ending s = true -> up_pending s = [];
}.

(** ** Lemmas *)

Lemma zseq_S a n : zseq a (S n) = a :: zseq (a + 1) n.
Proof.
  unfold zseq. cbn. rewrite <- seq_shift, map_map. f_equal; [lia|]. apply map_ext. intros i. lia.
Qed.
Lemma zseq_snoc a n : zseq a (S n) = zseq a n ++ [a + Z.of_nat n].
Proof. unfold zseq. by rewrite seq_S, map_app. Qed.
Lemma consecutive_cons x l :
  consecutive (x :: l) <-> map as_sequence l = zseq (as_sequence x + 1) (length l).
Proof.
  unfold consecutive. cbn [map media_sequence length]. rewrite zseq_S.
  split; [intros E; by injection E|intros E; by rewrite E].
Qed.
Lemma consecutive_tail x l : consecutive (x :: l) -> consecutive l.
Proof.
  rewrite consecutive_cons. intros H. destruct l as [|y l]; [done|]. unfold consecutive. rewrite H.
  cbn [length map] in *. rewrite zseq_S in *. injection H as Hy _. cbn [media_sequence]. by rewrite Hy, (zseq_S (_ + 1)).
Qed.
Lemma consecutive_snoc l x :
  consecutive l -> (l <> [] -> as_sequence <$> last l = Some (as_sequence x - 1)) ->
  consecutive (l ++ [x]).
Proof.
  destruct l as [|y l]; [intros _ _; unfold consecutive, zseq; cbn; f_equal; lia|].
  intros Hc Hx. specialize (Hx ltac:(done)).
  unfold consecutive in *. rewrite map_app, Hc, length_app, Nat.add_comm.
  cbn [map app media_sequence Nat.add]. rewrite zseq_snoc. f_equal. f_equal.
  assert (last (map as_sequence (y :: l)) = Some (as_sequence x - 1)) as Hl.
  { rewrite <- Hx. clear. change (map as_sequence (y :: l)) with (as_sequence <$> (y :: l)). apply fmap_last. }
  rewrite Hc in Hl. cbn [length] in *. rewrite zseq_snoc, last_snoc in Hl. injection Hl as Hl.
  cbn in Hl. lia.
Qed.

Lemma sat_succ q : 0 <= q < U64_MAX -> sat_u 64 (q + 1) = q + 1.
Proof. unfold sat_u, U64_MAX. lia. Qed.

(** Fields the invariant does not look at. *)
Lemma policy_ok_same session log s s' :
  up_session s' = up_session s -> up_next_sequence s' = up_next_sequence s ->
  up_pending s' = up_pending s -> up_window s' = up_window s ->
  up_sent_window s' = up_sent_window s -> up_window_floor s' = up_window_floor s ->
  up_target_duration s' = up_target_duration s -> up_ending s' = up_ending s ->
  (up_in_flight s' = up_in_flight s \/ up_in_flight s' = None) ->
  policy_ok session log s -> policy_ok session log s'.
Proof.
  intros E1 E2 E3 E4 E5 E6 E7 E9 E8 [].
  split; unfold lo in *; rewrite ?E1, ?E2, ?E3, ?E4, ?E5, ?E6, ?E7, ?E9; try done.
  intros f q Hf Hq. destruct E8 as [E8|E8]; rewrite E8 in Hf; [by eauto|done].
Qed.

Lemma zseq_pending_head session log s p rest :
  policy_ok session log s -> up_pending s = p :: rest ->
  ps_sequence p = lo s /\ map ps_sequence rest = zseq (lo s + 1) (length rest) /\ lo s < up_next_sequence s.
Proof.
  intros [] E. rewrite E in *. cbn [map length] in *. rewrite zseq_S in ok_pending0.
  injection ok_pending0 as -> ->. split_and!; try done. unfold lo. rewrite E, zlen_cons. unfold zlen. lia.
Qed.

(** Dropping the oldest pending segment. *)
Lemma drop_ok session log s p rest :
  policy_ok session log s -> up_pending s = p :: rest ->
  policy_ok session log
    (drop_segment (ps_sequence p)
       (mk_UploadPolicy (up_session s) (up_last_store_index s) (up_next_sequence s) rest (up_window s)
          (up_sent_window s) (up_window_floor s) (up_target_duration s) (up_playlist_dirty s)
          (up_in_flight s) (up_attempts s) (up_backoff_until s) (up_ending s) (up_stopped s)
          (up_dropped s) (up_backlog_dropped s) (up_delivery s))).
Proof.
  intros H E. destruct (zseq_pending_head _ _ _ _ _ H E) as (Ep & Er & Hlt).
  destruct H. rewrite Ep.
  assert (0 <= lo s < U64_MAX) as Hr by lia.
  set (s' := drop_segment _ _).
  assert (lo s' = lo s + 1) as Elo by (unfold lo, s'; cbn; rewrite E, zlen_cons; lia).
  split; rewrite ?Elo; cbn -[lo zseq]; rewrite ?sat_succ by done; try done.
  - lia.
  - split; [done|]. unfold PLAYLIST_WINDOW. lia.
  - intros q Hq. specialize (ok_acked0 q Hq). lia.
  - intros x [Hx|Hx]; [by apply not_elem_of_nil in Hx|]. apply ok_listed0. by right.
  - intros f q Hf Hq. destruct (ok_flight0 f q Hf Hq) as (Hs & Hb & Hd). split_and!; try done; try lia.
    left. destruct Hd as [Hd|[_ [Hd|[Hd _]]]]; [lia| |lia]. apply ok_ending0 in Hd. by rewrite Hd in E.
  - intros Hd. apply ok_ending0 in Hd. by rewrite Hd in E.
Qed.

Lemma take_fresh_ok session log now s x :
  policy_ok session log s -> up_next_sequence (take_fresh now s x) < U64_MAX ->
  up_ending s = false ->
  policy_ok session log (take_fresh now s x).
Proof.
  intros H Hmax Hfl. destruct H. cbn in Hmax.
  assert (0 <= up_next_sequence s) by (unfold lo, zlen in *; lia).
  rewrite sat_succ in Hmax by lia.
  assert (lo (take_fresh now s x) = lo s) as Elo.
  { unfold lo, take_fresh. cbn. rewrite sat_succ by lia. unfold zlen. rewrite length_app. cbn. lia. }
  split; rewrite ?Elo; cbn -[lo zseq]; try done.
  - rewrite sat_succ by lia. lia.
  - rewrite map_app, ok_pending0, length_app.
    replace (length (up_pending s) + _)%nat with (S (length (up_pending s))) by (cbn; lia).
    rewrite zseq_snoc. cbn. do 2 f_equal. unfold lo, zlen. lia.
  - intros f q Hf Hq. destruct (ok_flight0 f q Hf Hq) as (Hs & Hb & Hd). rewrite sat_succ by lia.
    split_and!; try done; try lia. destruct Hd as [Hd|[Ha [Hd|[Hd Hp]]]]; [by left|congruence|right].
    split; [done|]. right. split; [done|]. by destruct (up_pending s).
  - congruence.
Qed.

Lemma take_fresh_next now s x :
  up_ending (take_fresh now s x) = up_ending s
  /\ (0 <= up_next_sequence s <= U64_MAX ->
      up_next_sequence s <= up_next_sequence (take_fresh now s x) <= U64_MAX).
Proof. split; [done|]. cbn. unfold sat_u, U64_MAX. lia. Qed.

Lemma fold_fresh_next now l s :
  0 <= up_next_sequence s <= U64_MAX ->
  up_next_sequence s <= up_next_sequence (fold_left (take_fresh now) l s) <= U64_MAX.
Proof.
  revert s. induction l as [|y l IH]; intros s Hs; cbn [fold_left]; [lia|].
  destruct (take_fresh_next now s y) as [_ Hn]. specialize (Hn Hs). specialize (IH (take_fresh now s y)). lia.
Qed.

Lemma fold_fresh_ok session log now l s :
  policy_ok session log s -> up_ending s = false ->
  up_next_sequence (fold_left (take_fresh now) l s) < U64_MAX ->
  policy_ok session log (fold_left (take_fresh now) l s).
Proof.
  revert s. induction l as [|x l IH]; intros s H He Hmax; cbn [fold_left] in *; [done|].
  assert (0 <= up_next_sequence s <= U64_MAX) as Hb.
  { destruct H. unfold lo, zlen in *. lia. }
  destruct (take_fresh_next now s x) as [He' Hn]. specialize (Hn Hb).
  pose proof (fold_fresh_next now l (take_fresh now s x) ltac:(lia)).
  apply IH; [|by rewrite He'|done]. apply take_fresh_ok; try done. lia.
Qed.

Lemma cap_backlog_ok session log fuel s :
  policy_ok session log s -> policy_ok session log (cap_backlog fuel s).
Proof.
  revert s. induction fuel as [|fuel IH]; intros s H; cbn [cap_backlog]; [done|].
  destruct (_ <? _)%nat; [|done]. destruct (up_pending s) as [|p rest] eqn:E; [done|].
  apply IH. eapply policy_ok_same; [..|by eapply drop_ok]; try done. by left.
Qed.

Lemma cap_backlog_next fuel s : up_next_sequence (cap_backlog fuel s) = up_next_sequence s.
Proof.
  revert s. induction fuel as [|fuel IH]; intros s; cbn [cap_backlog]; [done|].
  destruct (_ <? _)%nat; [|done]. destruct (up_pending s); [done|]. by rewrite IH.
Qed.

Lemma cap_backlog_bound fuel s :
  (length (up_pending s) <= fuel + MAX_PENDING_SEGMENTS)%nat ->
  (length (up_pending (cap_backlog fuel s)) <= MAX_PENDING_SEGMENTS)%nat.
Proof.
  revert s. induction fuel as [|fuel IH]; intros s H; cbn [cap_backlog]; [lia|].
  destruct (Nat.ltb_spec MAX_PENDING_SEGMENTS (length (up_pending s))) as [Hl|Hl]; [|lia].
  destruct (up_pending s) as [|p rest] eqn:E; [cbn in Hl; lia|].
  apply IH. cbn in H |- *. lia.
Qed.

Lemma on_publish_ok session log snapshot now s :
  policy_ok session log s -> up_next_sequence (on_publish snapshot now s) < U64_MAX ->
  policy_ok session log (on_publish snapshot now s).
Proof.
  intros H. unfold on_publish. destruct (up_ending s) eqn:Ee; [done|].
  destruct (up_stopped s); [done|]. destruct (hs_segments snapshot) as [|x more]; [done|].
  rewrite cap_backlog_next. intros Hmax. apply cap_backlog_ok, fold_fresh_ok; [|done|done].
  eapply policy_ok_same; [..|exact H]; try done. by left.
Qed.

Lemma log_snoc (log : list UpEvent) e x : x ∈ log ++ [e] <-> x ∈ log \/ x = e.
Proof. by rewrite elem_of_app, list_elem_of_singleton. Qed.

Lemma finish_ok session log s : policy_ok session log s -> policy_ok session log (finish s).
Proof.
  intros []. assert (lo s <= up_next_sequence s) by (unfold lo, zlen; lia).
  assert (lo (finish s) = up_next_sequence s) as Elo by (unfold lo, finish, zlen; cbn; lia).
  split; rewrite ?Elo; cbn -[lo zseq]; try done.
  - lia.
  - by destruct (up_window s).
  - intros q Hq. specialize (ok_acked0 q Hq). lia.
  - intros x Hx. apply ok_listed0. destruct (up_window s); [right; tauto|tauto].
  - destruct (up_window s); [lia|done].
  - intros f q Hf Hq. destruct (ok_flight0 f q Hf Hq) as (Hs & Hb & Hd). split_and!; try done; try lia.
    destruct Hd as [Hd|[Ha _]]; [by left|right; by auto].
Qed.

(** A segment request sent for the first pending segment. *)
Lemma segment_sent_ok session log s s' p rest r :
  policy_ok session log s -> up_pending s = p :: rest -> up_ending s = false ->
  map ps_sequence (up_pending s') = map ps_sequence (up_pending s) ->
  up_session s' = up_session s -> up_next_sequence s' = up_next_sequence s ->
  up_window s' = up_window s -> up_sent_window s' = up_sent_window s ->
  up_window_floor s' = up_window_floor s -> up_target_duration s' = up_target_duration s ->
  up_ending s' = up_ending s ->
  (if_target <$> up_in_flight s') = Some (TSegment (ps_sequence p)) ->
  policy_ok session (log ++ [ESegment (ps_sequence p) r]) s'.
Proof.
  intros H E Ee Ep E1 E2 E4 E5 E6 E7 E8 Ef.
  destruct (zseq_pending_head _ _ _ _ _ H E) as (Hp & _ & Hlt). destruct H.
  assert (length (up_pending s') = length (up_pending s)) as El
    by (rewrite <- (length_map ps_sequence), Ep; apply length_map).
  assert (lo s' = lo s) as Elo by (unfold lo, zlen; by rewrite E2, El).
  split; rewrite ?Elo, ?E1, ?E2, ?E4, ?E5, ?E6, ?E7; try done.
  - by rewrite Ep, El.
  - intros q [Hq|Hq]%log_snoc; [by apply ok_acked0|done].
  - intros x Hx. destruct (ok_listed0 x Hx). split; [|done]. apply log_snoc. by left.
  - intros l r' [Hl|Hl]%log_snoc; [by eapply ok_playlists0|done].
  - intros f q Hf Hq. rewrite Hf in Ef. injection Ef as Ef. rewrite Hq in Ef. injection Ef as ->.
    rewrite Hp in *. split_and!; [exists r; apply log_snoc; by right|lia|lia|].
    right. split; [intros a [Ha|Ha]%log_snoc; [|done]; specialize (ok_acked0 a Ha); lia|].
    right. split; [done|]. intros Hn. rewrite Hn in El. by rewrite E in El.
  - congruence.
Qed.

Lemma send_pending_ok session log now s :
  policy_ok session log s -> up_in_flight s = None ->
  match send_pending now (up_pending s) s with
  | (s', None) => policy_ok session log s'
  | (s', Some r) => exists q, ur_target r = TSegment q /\ event_ok session log (ESegment q r)
                    /\ policy_ok session (log ++ [ESegment q r]) s'
  end.
Proof.
  remember (up_pending s) as pending eqn:E. revert s E.
  induction pending as [|p rest IH]; intros s E H Hf; cbn [send_pending].
  { eapply policy_ok_same; [..|exact H]; try done. by left. }
  destruct (expired now p).
  - match goal with |- context [send_pending now rest ?s1] => apply (IH s1) end; try done.
    eapply policy_ok_same; [..|eapply drop_ok; [exact H|by symmetry]]; try done. by left.
  - destruct (zseq_pending_head _ _ _ _ _ H (eq_sym E)) as (Hp & _ & _).
    exists (ps_sequence p). split_and!; [done| |].
    + split; [cbn; by rewrite (ok_session _ _ _ H)|]. intros Ha. apply (ok_acked _ _ _ H) in Ha. lia.
    + assert (up_ending s = false) as Ee.
      { destruct (up_ending s) eqn:Ee; [|done]. apply (ok_ending _ _ _ H) in Ee. by rewrite Ee in E. }
      eapply segment_sent_ok; [exact H|by symmetry|exact Ee|..]; try done. cbn. by rewrite <- E.
Qed.

Lemma playlist_sent_ok session log s :
  policy_ok session log s -> up_window s <> [] ->
  let '(s', r) := playlist_request s in
  event_ok session log (EPlaylist (up_sent_window s') r)
  /\ policy_ok session (log ++ [EPlaylist (up_sent_window s') r]) s'.
Proof.
  intros H Hw. cbn. destruct H. split.
  - split_and!; try tauto.
    + intros x Hx. by apply ok_listed0; left.
    + intros l r Hl. destruct (ok_playlists0 l r Hl). specialize (ok_forward0 Hw ltac:(done)). lia.
    + exists (up_target_duration s), (up_ending s). rewrite ok_session0. split_and!; try done.
      apply Forall_forall. intros x Hx. by apply ok_listed0; left.
  - split; cbn -[lo zseq]; try done.
    + intros q [Hq|Hq]%log_snoc; [by apply ok_acked0|done].
    + intros x Hx. destruct (ok_listed0 x) as [Ha Ht]; [tauto|]. split; [|done]. apply log_snoc. by left.
    + intros l r [Hl|Hl]%log_snoc; (split; [done|]).
      * destruct (ok_playlists0 l r Hl). specialize (ok_forward0 Hw ltac:(done)). lia.
      * injection Hl as -> _. lia.
    + by intros f q [= <-].
Qed.

Lemma next_ok session log now s :
  policy_ok session log s ->
  let '(s', n) := next now s in
  match n with
  | NPut r => event_ok session log (request_event s' r)
              /\ policy_ok session (log ++ [request_event s' r]) s'
  | _ => policy_ok session log s'
  end.
Proof.
  intros H. unfold next. destruct (up_stopped s) as [st|]; [done|].
  destruct (up_in_flight s) as [f|] eqn:Ef; [done|].
  match goal with |- context [match ?m with Some until => _ | None => _ end] => destruct m; [done|] end.
  set (s1 := if _ && _ then _ else s).
  assert (policy_ok session log s1) as H1.
  { unfold s1. destruct (_ && _); [|done]. eapply policy_ok_same; [..|exact H]; try done. by left. }
  assert (up_in_flight s1 = None) as Ef1 by (unfold s1; by destruct (_ && _)).
  assert (up_window s1 = up_window s) as Ew by (unfold s1; by destruct (_ && _)).
  destruct (_ || _) eqn:Eb.
  - assert (up_window s1 <> []) as Hw.
    { rewrite Ew. unfold s1 in Eb. destruct (up_window s); [|done]. destruct (up_playlist_dirty s) eqn:Ed; cbn in Eb.
      - by rewrite andb_false_r in Eb.
      - by rewrite Ed, andb_false_r in Eb. }
    pose proof (playlist_sent_ok session log s1 H1 Hw) as Hp. destruct (playlist_request s1) as [s' r] eqn:E.
    assert (request_event s' r = EPlaylist (up_sent_window s') r) as ->; [|done].
    unfold playlist_request in E. by injection E as <- <-.
  - pose proof (send_pending_ok session log now s1 H1 Ef1) as Hp.
    destruct (send_pending now (up_pending s1) s1) as [s' [r|]].
    + destruct Hp as (q & Eq & Hev & Hok). assert (request_event s' r = ESegment q r) as ->; [|done].
      unfold request_event. by rewrite Eq.
    + destruct (up_ending s') eqn:Ee; [|done]. eapply policy_ok_same; [..|exact Hp]; try done. by left.
Qed.

Lemma trim_window_spec w floor :
  consecutive w -> w <> [] -> (length w <= 4)%nat ->
  let '(w', floor') := trim_window (length w) w floor in
  consecutive w' /\ w' <> [] /\ (length w' <= PLAYLIST_WINDOW)%nat /\ (forall x, x ∈ w' -> x ∈ w)
  /\ media_sequence w <= media_sequence w'
  /\ (floor' = floor \/ exists x, x ∈ w /\ floor' = Z.max floor (sat_u 64 (as_sequence x + 1))).
Proof.
  intros Hc Hw Hl. destruct w as [|a [|b [|c [|d [|e w]]]]]; cbn in Hl; try done; try lia.
  1-3: cbn -[consecutive]; unfold PLAYLIST_WINDOW; split_and!; try done; try lia; by left.
  change (trim_window _ _ _) with ([b; c; d], Z.max floor (sat_u 64 (as_sequence a + 1))).
  split_and!; try done.
  - by apply consecutive_tail in Hc.
  - intros x Hx. by right.
  - apply consecutive_cons in Hc. cbn [map length] in Hc. rewrite zseq_S in Hc.
    injection Hc as Hb _. cbn. lia.
  - right. exists a. split; [by left|done].
Qed.

Lemma pushed_spec window x :
  consecutive window -> (length window <= PLAYLIST_WINDOW)%nat ->
  (forall y, y ∈ window -> 0 <= as_sequence y < as_sequence x) -> as_sequence x < U64_MAX ->
  consecutive (pushed window x) /\ (length (pushed window x) <= 4)%nat
  /\ (forall y, y ∈ pushed window x -> y ∈ window \/ y = x) /\ pushed window x <> []
  /\ (window <> [] -> media_sequence window <= media_sequence (pushed window x)).
Proof.
  intros Hc Hl Hlt Hx. unfold pushed, PLAYLIST_WINDOW in *.
  assert (consecutive [x]) as Hsing by (unfold consecutive, zseq; cbn; f_equal; lia).
  destruct (last window) as [back|] eqn:El.
  - assert (back ∈ window) as Hback by by apply last_Some_elem_of.
    specialize (Hlt back Hback). rewrite sat_succ by lia.
    destruct (Z.eqb_spec (as_sequence back + 1) (as_sequence x)) as [E|E].
    + split_and!.
      * apply consecutive_snoc; [done|]. intros _. rewrite El. cbn. f_equal. lia.
      * rewrite length_app. cbn. lia.
      * intros y [Hy|Hy]%elem_of_app; [by left|right; by apply list_elem_of_singleton].
      * by destruct window.
      * by destruct window.
    + split_and!; try done; [cbn; lia| |].
      * intros y Hy. right. by apply list_elem_of_singleton.
      * intros Hw. destruct window as [|y w]; [done|]. cbn.
        enough (as_sequence y <= as_sequence back) by lia.
        unfold consecutive in Hc. apply (list_elem_of_fmap_2 as_sequence) in Hback.
        change (as_sequence <$> y :: w) with (map as_sequence (y :: w)) in Hback. rewrite Hc in Hback.
        unfold zseq in Hback. apply list_elem_of_fmap in Hback as (i & Hi & _). cbn in Hi. lia.
  - apply last_None in El as ->. split_and!; try done; [cbn; lia|].
    intros y Hy. right. by apply list_elem_of_singleton.
Qed.

Lemma acknowledge_fields q duration now s :
  let s' := acknowledge_segment q duration now s in
  up_session s' = up_session s /\ up_next_sequence s' = up_next_sequence s
  /\ up_sent_window s' = up_sent_window s /\ up_ending s' = up_ending s
  /\ up_in_flight s' = up_in_flight s /\ up_pending s' = popped q (up_pending s)
  /\ up_target_duration s' = Z.max (up_target_duration s) (ceil_u64 duration)
  /\ (up_window s', up_window_floor s')
     = if up_window_floor s <=? q
       then let w := pushed (up_window s) (mk_AckedSegment q duration) in
            trim_window (length w) w (up_window_floor s)
       else (up_window s, up_window_floor s).
Proof.
  unfold acknowledge_segment. destruct (up_window_floor s <=? q); [|done].
  by destruct (trim_window _ _ _).
Qed.

Lemma popped_pending session log s q :
  policy_ok session log s -> (up_ending s = true \/ q = lo s /\ up_pending s <> []) ->
  let p := popped q (up_pending s) in
  let lo' := up_next_sequence s - zlen p in
  map ps_sequence p = zseq lo' (length p) /\ (up_ending s = true -> p = [])
  /\ lo s <= lo' /\ (q < up_next_sequence s -> q < lo').
Proof.
  intros H [He|[-> Hp]]; cbn zeta.
  - pose proof (ok_ending _ _ _ H He) as Ep. rewrite Ep. unfold lo, zlen. rewrite Ep. cbn. split_and!; try done; lia.
  - destruct (up_pending s) as [|p rest] eqn:E; [done|].
    destruct (zseq_pending_head _ _ _ _ _ H E) as (Hs & Hr & Hlt). cbn [popped]. rewrite Hs, Z.eqb_refl.
    assert (up_next_sequence s - zlen rest = lo s + 1) as -> by (unfold lo; rewrite E, zlen_cons; lia).
    split_and!; try done; try lia. intros He. apply (ok_ending _ _ _ H) in He. by rewrite He in E.
Qed.

Lemma popped_dropped session log s q :
  policy_ok session log s -> q < up_window_floor s -> popped q (up_pending s) = up_pending s.
Proof.
  intros H Hq. destruct (up_pending s) as [|p rest] eqn:E; [done|]. cbn.
  destruct (zseq_pending_head _ _ _ _ _ H E) as (Hs & _). destruct H.
  destruct (Z.eqb_spec (ps_sequence p) q); [lia|done].
Qed.

Lemma window_after session log s q duration w' floor' lo' :
  policy_ok session log s -> 0 <= q < up_next_sequence s ->
  (q < up_window_floor s
   \/ (forall a, EAck a ∈ log -> a < q) /\ (up_ending s = true \/ q = lo s /\ up_pending s <> [])) ->
  (w', floor')
  = (if up_window_floor s <=? q
     then let w := pushed (up_window s) (mk_AckedSegment q duration) in
          trim_window (length w) w (up_window_floor s)
     else (up_window s, up_window_floor s)) ->
  lo s <= lo' -> q < lo' ->
  consecutive w' /\ (length w' <= PLAYLIST_WINDOW)%nat
  /\ (forall x, x ∈ w' -> x ∈ up_window s \/ x = mk_AckedSegment q duration)
  /\ (w' <> [] -> up_sent_window s <> [] -> media_sequence (up_sent_window s) <= media_sequence w')
  /\ 0 <= floor' <= lo'.
Proof.
  intros H Hq Hd E Hlo Hqlo. destruct (Z.leb_spec (up_window_floor s) q) as [Hfl|Hfl].
  2: { injection E as -> ->. destruct H, ok_window0. split_and!; try done; try lia; by left. }
  destruct Hd as [Hd|[Ha _]]; [lia|]. destruct H. destruct ok_window0 as [Hc Hl].
  assert (forall y, y ∈ up_window s \/ y ∈ up_sent_window s -> 0 <= as_sequence y < q) as Hlt.
  { intros y Hy. destruct (ok_listed0 y Hy) as [Hy' _]. pose proof (ok_acked0 _ Hy'). specialize (Ha _ Hy'). lia. }
  destruct (pushed_spec (up_window s) (mk_AckedSegment q duration)) as (Pc & Pl & Pe & Pn & Pm);
    [done|done|intros; apply Hlt; by left|cbn; lia|].
  set (w := pushed _ _) in *. cbn zeta in E.
  pose proof (trim_window_spec w (up_window_floor s) Pc Pn Pl) as T. rewrite <- E in T.
  destruct T as (Tc & Tn & Tl & Te & Tm & Tf). split_and!; try done.
  - intros x Hx. by apply Pe, Te.
  - intros _ Hs. destruct (up_window s) as [|y0 ys] eqn:Ew.
    + assert (w = [mk_AckedSegment q duration]) as Ew' by done. rewrite Ew' in Tm. cbn in Tm.
      destruct (up_sent_window s) as [|z zs]; [done|]. specialize (Hlt z ltac:(right; by left)). cbn. lia.
    + specialize (Pm ltac:(done)). specialize (ok_forward0 ltac:(done) Hs). lia.
  - destruct Tf as [->|(x & _ & ->)]; lia.
  - destruct Tf as [->|(x & Hx & ->)]; [lia|]. apply Pe in Hx as [Hx| ->]; cbn.
    + specialize (Hlt x ltac:(by left)). rewrite sat_succ by lia. lia.
    + rewrite sat_succ by lia. lia.
Qed.

Lemma acknowledge_ok session log s q duration now :
  policy_ok session log s -> up_in_flight s = None -> 0 <= q < up_next_sequence s ->
  (q < up_window_floor s
   \/ (forall a, EAck a ∈ log -> a < q) /\ (up_ending s = true \/ q = lo s /\ up_pending s <> [])) ->
  policy_ok session (log ++ [EAck q]) (acknowledge_segment q duration now s).
Proof.
  intros H Hf Hq Hd.
  destruct (acknowledge_fields q duration now s) as (E1 & E2 & E3 & E4 & E5 & E6 & E7 & E8).
  set (s' := acknowledge_segment q duration now s) in *.
  assert (map ps_sequence (up_pending s') = zseq (lo s') (length (up_pending s'))
          /\ (up_ending s' = true -> up_pending s' = []) /\ lo s <= lo s' /\ q < lo s') as (Hpend & Hend & Hlo & Hqlo).
  { unfold lo at 1 3 4. rewrite E2, E4, E6. destruct Hd as [Hd|[_ Hd]].
    - rewrite (popped_dropped _ _ _ _ H Hd). destruct H. split_and!; try done; fold (lo s); lia.
    - destruct (popped_pending _ _ _ _ H Hd) as (? & ? & ? & ?). split_and!; try done; lia. }
  assert (forall a, EAck a ∈ log ++ [EAck q] -> 0 <= a < lo s') as Hacked.
  { intros a [Ha|[= ->]]%log_snoc; [|lia]. apply (ok_acked _ _ _ H) in Ha. lia. }
  assert (forall x, x ∈ up_window s \/ x ∈ up_sent_window s \/ x = mk_AckedSegment q duration ->
            EAck (as_sequence x) ∈ log ++ [EAck q] /\ ceil_u64 (as_duration x) <= up_target_duration s') as Hx.
  { intros x Hx. rewrite E7, log_snoc. destruct Hx as [Hx|[Hx| ->]]; cbn.
    1-2: destruct (ok_listed _ _ _ H x) as [? ?]; [tauto|]; split; [by left|lia].
    split; [by right|lia]. }
  assert (consecutive (up_window s') /\ (length (up_window s') <= PLAYLIST_WINDOW)%nat
          /\ (forall x, x ∈ up_window s' -> x ∈ up_window s \/ x = mk_AckedSegment q duration)
          /\ (up_window s' <> [] -> up_sent_window s <> [] ->
              media_sequence (up_sent_window s) <= media_sequence (up_window s'))
          /\ 0 <= up_window_floor s' <= lo s') as (Hc & Hl & Hel & Hfw & Hfl).
  { apply (window_after _ _ _ q duration _ _ (lo s') H Hq Hd) in E8; [|done|done]. by destruct E8. }
  destruct H. split; rewrite ?E1, ?E2, ?E3; try done; try lia.
  - intros x [Hw|Hw]; apply Hx; [|tauto]. apply Hel in Hw. tauto.
  - intros l r [Hl'|Hl']%log_snoc; [by apply ok_playlists0 in Hl'|done].
  - rewrite E5, Hf. done.
Qed.

Lemma on_result_ok session log outcome now s :
  policy_ok session log s ->
  policy_ok session (log ++ acked_event s outcome) (on_result outcome now s).1
  /\ Forall (event_ok session log) (acked_event s outcome).
Proof.
  intros H. unfold on_result, acked_event. destruct (up_in_flight s) as [f|] eqn:Ef; cbn;
    [|rewrite app_nil_r; by split].
  assert (forall s', up_session s' = up_session s -> up_next_sequence s' = up_next_sequence s ->
    up_pending s' = up_pending s -> up_window s' = up_window s ->
    up_sent_window s' = up_sent_window s -> up_window_floor s' = up_window_floor s ->
    up_target_duration s' = up_target_duration s -> up_ending s' = up_ending s ->
    up_in_flight s' = None -> policy_ok session (log ++ []) s' /\ Forall (event_ok session log) []) as Hsame.
  { intros. rewrite app_nil_r. split; [|done]. eapply policy_ok_same; [..|exact H]; by auto. }
  destruct (classify outcome), (if_target f) as [q|l e] eqn:Et; try (apply Hsame; done).
  - cbn. destruct (ok_flight _ _ _ H f q Ef Et) as ((r & Hr) & Hb & Hd). split.
    + match goal with |- policy_ok _ _ (acknowledge_segment _ _ _ ?s1) => set (s0 := s1) end.
      assert (policy_ok session log s0) as H0
        by (eapply policy_ok_same; [..|exact H]; try done; by right).
      by apply acknowledge_ok.
    + apply Forall_singleton. by exists r.
  - destruct e; cbn; apply Hsame; reflexivity.
Qed.

Lemma log_ok_app session before l1 l2 :
  log_ok_from session before (l1 ++ l2)
  <-> log_ok_from session before l1 /\ log_ok_from session (before ++ l1) l2.
Proof.
  revert before. induction l1 as [|e l1 IH]; intros before; cbn [app log_ok_from].
  - rewrite app_nil_r. tauto.
  - rewrite IH, <- app_assoc. cbn. tauto.
Qed.

Lemma up_step_ok session log op s :
  policy_ok session log s -> up_next_sequence (up_step op s).1 < U64_MAX ->
  policy_ok session (log ++ (up_step op s).2) (up_step op s).1
  /\ log_ok_from session log (up_step op s).2.
Proof.
  intros H Hmax. destruct op as [snapshot now|now|outcome now|now|]; cbn [up_step] in *.
  - cbn. rewrite app_nil_r. split; [|done]. by apply on_publish_ok.
  - pose proof (next_ok session log now s H) as Hn. destruct (next now s) as [s' [r|w|st]]; cbn [fst snd] in *.
    + destruct Hn as [He Hok]. split; [exact Hok|]. split; [exact He|exact I].
    + rewrite app_nil_r. by split.
    + rewrite app_nil_r. by split.
  - destruct (on_result_ok session log outcome now s H) as [Hok Hev]. split; [done|].
    cbn [snd]. unfold acked_event in *. repeat case_match; try exact I.
    rewrite Forall_singleton in Hev. split; [exact Hev|exact I].
  - cbn. rewrite app_nil_r. split; [|done]. eapply policy_ok_same; [..|exact H]; try done. by left.
  - cbn. rewrite app_nil_r. split; [|done]. by apply finish_ok.
Qed.

(** Numbering and the backlog, step by step. *)
Lemma send_pending_fields now pending s :
  let s' := (send_pending now pending s).1 in
  up_next_sequence s' = up_next_sequence s /\ (length (up_pending s') <= length pending)%nat.
Proof.
  revert s. induction pending as [|p rest IH]; intros s; cbn [send_pending]; [by split|].
  destruct (expired now p); [|by split].
  match goal with |- context [send_pending now rest ?s1] => destruct (IH s1) as [-> Hl] end.
  split; [done|]. cbn [length]. lia.
Qed.

Lemma next_fields now s :
  let s' := (next now s).1 in
  up_next_sequence s' = up_next_sequence s /\ (length (up_pending s') <= length (up_pending s))%nat.
Proof.
  unfold next. destruct (up_stopped s); [done|]. destruct (up_in_flight s); [done|].
  match goal with |- context [match ?m with Some until => _ | None => _ end] => destruct m; [done|] end.
  set (s1 := if _ && _ then _ else s).
  assert (up_next_sequence s1 = up_next_sequence s /\ up_pending s1 = up_pending s) as [E1 E2]
    by (unfold s1; by destruct (_ && _)).
  destruct (_ || _); [cbn [fst playlist_request up_next_sequence up_pending]; by rewrite E1, E2|].
  destruct (send_pending_fields now (up_pending s1) s1) as [Hn Hl].
  destruct (send_pending now (up_pending s1) s1) as [s2 [r|]]; cbn [fst] in *;
    rewrite E1 in Hn; rewrite E2 in Hl; [by split|]. by destruct (up_ending s2).
Qed.

Lemma on_result_fields outcome now s :
  let s' := (on_result outcome now s).1 in
  up_next_sequence s' = up_next_sequence s /\ (length (up_pending s') <= length (up_pending s))%nat.
Proof.
  unfold on_result. destruct (up_in_flight s) as [f|]; [|done].
  destruct (classify outcome), (if_target f) as [q|l []]; try done.
  match goal with |- context [acknowledge_segment ?q ?d ?n ?s1] =>
    destruct (acknowledge_fields q d n s1) as (_ & E2 & _ & _ & _ & E6 & _) end.
  cbn [fst]. rewrite E2, E6. split; [done|]. cbn [up_pending]. unfold popped.
  destruct (up_pending s) as [|p rest]; [done|]. destruct (_ =? _); cbn; lia.
Qed.

Lemma on_publish_fields snapshot now s :
  0 <= up_next_sequence s <= U64_MAX -> (length (up_pending s) <= MAX_PENDING_SEGMENTS)%nat ->
  let s' := on_publish snapshot now s in
  up_next_sequence s <= up_next_sequence s' <= U64_MAX
  /\ (length (up_pending s') <= MAX_PENDING_SEGMENTS)%nat.
Proof.
  intros Hb Hl. unfold on_publish. destruct (up_ending s); [split; [lia|done]|].
  destruct (up_stopped s); [split; [lia|done]|].
  destruct (hs_segments snapshot) as [|x more]; [split; [lia|done]|]. cbn zeta. split.
  - rewrite cap_backlog_next.
    match goal with |- context [fold_left (take_fresh now) ?l ?s1] =>
      change (up_next_sequence s) with (up_next_sequence s1) in Hb |- *; apply (fold_fresh_next now l s1 Hb) end.
  - apply cap_backlog_bound. lia.
Qed.

Definition bounded (s : UploadPolicy) : Prop :=
  0 <= up_next_sequence s <= U64_MAX /\ (length (up_pending s) <= MAX_PENDING_SEGMENTS)%nat.

Lemma up_step_bounded op s :
  bounded s -> bounded (up_step op s).1 /\ up_next_sequence s <= up_next_sequence (up_step op s).1.
Proof.
  intros [Hb Hl]. unfold bounded. destruct op as [snapshot now|now|outcome now|now|]; cbn [up_step].
  - destruct (on_publish_fields snapshot now s Hb Hl). cbn [fst]. split_and!; try done; lia.
  - destruct (next_fields now s) as [Hn Hp]. destruct (next now s) as [s' n]. cbn [fst] in *.
    split_and!; try done; lia.
  - destruct (on_result_fields outcome now s) as [Hn Hp]. cbn [fst]. split_and!; try done; lia.
  - done.
  - cbn. split_and!; try done; lia.
Qed.

Lemma up_run_ok session ops s log :
  policy_ok session log s -> bounded s -> log_ok session log ->
  let '(s', log') := up_run ops s log in
  up_next_sequence s <= up_next_sequence s' /\ (length (up_pending s') <= MAX_PENDING_SEGMENTS)%nat
  /\ (up_next_sequence s' < U64_MAX -> log_ok session log').
Proof.
  revert s log. induction ops as [|op ops IH]; intros s log H Hb Hlog; cbn [up_run].
  { destruct Hb. split_and!; try done; lia. }
  destruct (up_step_bounded op s Hb) as [Hb' Hmono].
  pose proof (up_step_ok session log op s H) as Hok. destruct (up_step op s) as [s1 e]. cbn [fst snd] in *.
  destruct (decide (up_next_sequence s1 < U64_MAX)) as [Hlt|Hge].
  - destruct (Hok Hlt) as [H1 He]. specialize (IH s1 (log ++ e) H1 Hb').
    destruct (up_run ops s1 (log ++ e)) as [s' log']. destruct IH as (? & ? & ?).
    + apply log_ok_app. split; [done|]. by rewrite app_nil_l.
    + split_and!; try done. lia.
  - clear IH Hok H Hlog. generalize (log ++ e). clear log e. revert s1 Hb' Hmono Hge.
    induction ops as [|op' ops IH]; intros s1 Hb1 Hmono Hge log.
    + cbn. destruct Hb1. split_and!; try done; lia.
    + cbn [up_run]. destruct (up_step_bounded op' s1 Hb1) as [Hb2 Hm2]. destruct (up_step op' s1) as [s2 e2].
      cbn [fst] in *. apply IH; try done; lia.
Qed.

(** ** Theorems *)

(** C10: Whatever an HLS PUT output publishes, however the server answers and whenever it is
    stopped, every request it makes follows the ingest rules: a segment is sent under the
    name of its own sequence and never again once acknowledged; a playlist lists one to
    three consecutive segments, each acknowledged before, under a target duration none of
    them exceeds, and its media sequence never goes back; and at most five segments wait
    to be sent. *)
Theorem upload_session_ok session ops :
  let '(s, log) := up_run ops (policy_new session) [] in
  up_next_sequence s < U64_MAX ->
  log_ok session log /\ (length (up_pending s) <= 5)%nat.
Proof.
  assert (policy_ok session [] (policy_new session)) as H.
  { split; cbn; try done; try (unfold PLAYLIST_WINDOW; by split; [|lia]);
      try (intros; by match goal with H : _ ∈ [] |- _ => apply not_elem_of_nil in H end).
    intros x [Hx|Hx]; by apply not_elem_of_nil in Hx. }
  pose proof (up_run_ok session ops (policy_new session) [] H) as Hrun.
  destruct (up_run ops (policy_new session) []) as [s log].
  destruct Hrun as (_ & Hl & Hlog); [split; cbn; unfold MAX_PENDING_SEGMENTS, U64_MAX; lia|done|].
  intros Hmax. split; [by apply Hlog|exact Hl].
Qed.

(** A session: two segments, the first sent and listed, the second refused until its
    retry window ends and dropped, a third, and the end. *)
Definition example_snapshot_of (l : list Z) : HlsStoreSnapshot :=
  mk_HlsStoreSnapshot "" (map (fun i => mk_HlsSegmentSnapshot i (f64_from 2) [i]) l).
Definition example_ops : list UpOp :=
  [UPublish (example_snapshot_of [7; 8]) 0; UNext 0; UResult (OStatus 200) 1; UNext 1;
   UResult (OStatus 201) 2; UPublish (example_snapshot_of [8; 9]) 3; UNext 3; UResult OTransport 4;
   UNext (from_secs 4); UPublish (example_snapshot_of [9; 10]) (from_secs 4); UNext (from_secs 4);
   UResult (OStatus 200) (from_secs 5); UFinish; UNext (from_secs 5); UResult (OStatus 200) (from_secs 6)].

Example example_session_log :
  map (fun e => match e with
                | ESegment q r => (q, ur_file_name r)
                | EPlaylist l _ => (media_sequence l, "playlist"%string)
                | EAck q => (q, "ack"%string)
                end) (up_run example_ops (policy_new "s") []).2
  = [(0, "s-0.ts"); (0, "ack"); (0, "playlist"); (1, "s-1.ts"); (2, "s-2.ts"); (2, "ack"); (2, "playlist")]%string.
Proof. vm_compute. reflexivity. Qed.

Lemma upload_session_ok_witness :
  log_ok "s" (up_run example_ops (policy_new "s") []).2.
Proof.
  pose proof (upload_session_ok "s" example_ops) as H.
  assert (up_next_sequence (up_run example_ops (policy_new "s") []).1 < U64_MAX) as Hlt by by vm_compute.
  destruct (up_run example_ops (policy_new "s") []) as [s log]. exact (proj1 (H Hlt)).
Defined.

Lemma send_pending_result now pending s :
  let '(s', r) := send_pending now pending s in
  up_ending s' = up_ending s
  /\ match r with Some _ => is_Some (up_in_flight s') | None => up_pending s' = [] end.
Proof.
  revert s. induction pending as [|p rest IH]; intros s; cbn [send_pending]; [done|].
  destruct (expired now p); [|split; [done|by eexists]].
  match goal with |- context [send_pending now rest ?s1] => exact (IH s1) end.
Qed.

(** A policy that is asked for its next request either has one, and then it is in
    flight, or says what it waits for: the request in flight, a back-off that has not run
    out, or the next publish, and then no segment is pending and no playlist is due. *)
Theorem next_never_idles now s :
  match (next now s).2 with
  | NPut r => is_Some (up_in_flight (next now s).1)
  | NWait (Some until) => now < until
  | NWait None =>
      is_Some (up_in_flight s)
      \/ up_pending (next now s).1 = [] /\ up_ending s = false
         /\ (up_playlist_dirty s = true -> up_window s = [])
  | NStop _ => is_Some (up_stopped (next now s).1)
  end.
Proof.
  unfold next. destruct (up_stopped s) eqn:Es; [cbn; by rewrite Es|].
  destruct (up_in_flight s) eqn:Ef; [left; by eexists|].
  destruct (up_backoff_until s) as [until|];
    [destruct (Z.ltb_spec now until); [cbn; lia|]|].
  all: set (s1 := if _ && _ then _ else s).
  all: assert (up_ending s1 = up_ending s) as Ee by (unfold s1; by destruct (_ && _)).
  all: destruct (_ || _) eqn:Eb; [by eexists|].
  all: pose proof (send_pending_result now (up_pending s1) s1) as Hr.
  all: destruct (send_pending now (up_pending s1) s1) as [s2 [r|]]; destruct Hr as [He Hp]; [done|].
  all: destruct (up_ending s2) eqn:E2; [by eexists|]; right; split; [done|]; split; [congruence|].
  all: intros Hd; destruct (up_window s) as [|x w] eqn:Ew; [done|].
  all: unfold s1 in Eb; rewrite andb_false_r in Eb; by rewrite Hd in Eb.
Qed.
