(* ===== verification/InputGate.v ===== *)
(** * Input gates

    Models [crates/restream-engine/src/input_gate.rs] (the gate that decides whether an
    input's packets reach the pipeline's ring, and the map of its timestamps), and the
    three forwarders that use it: [forward_ingest_packets] of [srt/ingest_packets.rs],
    the packet path of [rtmp/ingest_media.rs] and [forward_batch] of
    [ingest_publisher.rs].  The gate is one atomic word shared by the forwarding threads
    and the engine; its interleavings are a step relation. *)

From S2P Require Import Prelude Media Queues.

Open Scope Z_scope.

(** ** The gate word *)

Definition STANDBY : Z := 0.
Definition AWAITING_KEYFRAME : Z := 1.
Definition ACTIVE : Z := 2.
Definition STATE_MASK : Z := 3.
Definition IN_FLIGHT_ONE : Z := 4.

Inductive InputForwardState := FStandby | FAwaitingKeyframe | FActive.
#[global] Instance InputForwardState_eq_dec : EqDecision InputForwardState.
Proof. solve_decision. Defined.

Inductive InputPacketBoundary := VideoKeyframe | ReplayReady | OtherPacket.
#[global] Instance InputPacketBoundary_eq_dec : EqDecision InputPacketBoundary.
Proof. solve_decision. Defined.

Definition gate_state (word : Z) : InputForwardState :=
  let state := word .& STATE_MASK in
  if state =? STANDBY then FStandby
  else if state =? AWAITING_KEYFRAME then FAwaitingKeyframe
  else if state =? ACTIVE then FActive
  else FStandby.

(** [current & !STATE_MASK] *)
Definition in_flight_part (word : Z) : Z := Z.ldiff word STATE_MASK.

(** The body of the loop of [try_enter]: the word to install and whether entering
    promotes the input, or [None] when the packet is refused. *)
Definition enter_next (boundary : InputPacketBoundary) (current : Z) : option (Z * bool) :=
  let state := current .& STATE_MASK in
  let granted (activated : bool) :=
    let next_state := if activated then ACTIVE else state in
    (fun n => (n .| next_state, activated)) <$> checked_u 64 (in_flight_part current + IN_FLIGHT_ONE) in
  if state =? STANDBY then None
  else if state =? AWAITING_KEYFRAME
  then if bool_decide (boundary = OtherPacket) then None else granted true
  else if state =? ACTIVE then granted false
  else None.

(** The word [set_state] installs. *)
Definition set_next (state current : Z) : Z := in_flight_part current .| state.

(** [try_enter], [set_state] and the drop of a lease, alone. *)
Definition try_enter (boundary : InputPacketBoundary) (word : Z) : Z * option bool :=
  match enter_next boundary word with
  | Some (next, activated) => (next, Some activated)
  | None => (word, None)
  end.
Definition activate (word : Z) : Z := set_next ACTIVE word.
Definition arm_for_promotion (word : Z) : Z := set_next AWAITING_KEYFRAME word.
Definition demote (word : Z) : Z := set_next STANDBY word.
Definition drop_lease (word : Z) : Z := as_u64 (word - IN_FLIGHT_ONE).

(** ** Timestamps *)

Record InputTimestampMapper := mk_InputTimestampMapper { initialized : bool; offset_ms : Z }.
Definition InputTimestampMapper_default : InputTimestampMapper := mk_InputTimestampMapper false 0.

Definition with_times (p : MediaPacket) (pts_ dts_ : Z) : MediaPacket :=
  mk_MediaPacket (media_type p) (format p) (is_keyframe p) (track_index p) pts_ dts_ (payload p).

Definition map_packet (self : InputTimestampMapper) (packet : MediaPacket) (activated : bool)
    (last_forwarded_dts : Z) : InputTimestampMapper * MediaPacket :=
  let self :=
    if activated || negb (initialized self) then
      mk_InputTimestampMapper true
        (if activated then
           if last_forwarded_dts =? i64_MIN then 0
           else sat_i 64 (sat_i 64 (last_forwarded_dts + 1) - dts packet)
         else 0)
    else self in
  (self, with_times packet (sat_i 64 (pts packet + offset_ms self))
           (sat_i 64 (dts packet + offset_ms self))).

(** [packets.iter().max_by_key(|packet| packet.dts)] and [record_forwarded]. *)
Definition record_forwarded (packet : MediaPacket) (last_forwarded_dts : Z) : Z :=
  Z.max last_forwarded_dts (dts packet).
Definition max_dts (packets : list MediaPacket) : option MediaPacket :=
  fold_left (fun best p => match best with
                           | Some b => if dts p <? dts b then Some b else Some p
                           | None => Some p
                           end) packets None.
Definition record_batch (packets : list MediaPacket) (last_forwarded_dts : Z) : Z :=
  match max_dts packets with
  | Some last => record_forwarded last last_forwarded_dts
  | None => last_forwarded_dts
  end.

Definition record_keyframe (times : list Z) (pts_ : Z) : list Z :=
  let times := times ++ [pts_] in
  if (30 <? length times)%nat then drop 1 times else times.
Definition record_keyframes (times : list Z) (packets : list MediaPacket) : list Z :=
  fold_left (fun times p => if is_video_keyframe p then record_keyframe times (pts p) else times)
    packets times.

(** ** Forwarders *)

(** What an input forwards through: its gate and the last decoding time forwarded on the
    pipeline, with what was pushed to the ring and to the preview ring. *)
Record Target := mk_Target {
  t_gate : Z;
  t_last_dts : Z;
  t_ring : list MediaPacket;
  t_preview : option (list MediaPacket);
  t_keyframes : list Z;
}.
Definition push_preview (packets : list MediaPacket) (t : Target) : Target :=
  mk_Target (t_gate t) (t_last_dts t) (t_ring t) ((fun l => l ++ packets) <$> t_preview t) (t_keyframes t).
Definition set_gate (word : Z) (t : Target) : Target :=
  mk_Target word (t_last_dts t) (t_ring t) (t_preview t) (t_keyframes t).
Definition publish_batch (packets : list MediaPacket) (t : Target) : Target :=
  mk_Target (drop_lease (t_gate t)) (record_batch packets (t_last_dts t)) (t_ring t ++ packets)
    (t_preview t) (record_keyframes (t_keyframes t) packets).

Definition batch_boundary (packets : list MediaPacket) : InputPacketBoundary :=
  if existsb is_video_keyframe packets then VideoKeyframe else OtherPacket.

(** The loop that maps a batch; [activated] of the packet at each index. *)
Fixpoint map_batch (self : InputTimestampMapper) (packets : list MediaPacket) (index : nat)
    (activated : nat -> bool) (last_forwarded_dts : Z) : InputTimestampMapper * list MediaPacket :=
  match packets with
  | [] => (self, [])
  | p :: rest =>
      let '(self, p) := map_packet self p (activated index) last_forwarded_dts in
      let '(self, rest) := map_batch self rest (S index) activated last_forwarded_dts in
      (self, p :: rest)
  end.

(** The state an owner keeps for one input. *)
Record Forwarder := mk_Forwarder { fw_mapper : InputTimestampMapper; fw_standby : StandbyGopCache }.

Definition forward_ingest_packets (packets : list MediaPacket) (f : Forwarder) (t : Target)
  : Forwarder * Target :=
  let t := push_preview packets t in
  let publish (activated : bool) (packets : list MediaPacket) (standby : StandbyGopCache) (t : Target) :=
    let '(mapper, packets) :=
      map_batch (fw_mapper f) packets 0 (fun index => activated && (index =? 0)%nat) (t_last_dts t) in
    (mk_Forwarder mapper standby, publish_batch packets t) in
  if bool_decide (gate_state (t_gate t) = FActive) then
    match try_enter (batch_boundary packets) (t_gate t) with
    | (_, None) => (f, t)
    | (word, Some activated) => publish activated packets (fw_standby f) (set_gate word t)
    end
  else
    let standby := fold_left gop_push packets (fw_standby f) in
    let boundary := if is_replay_ready standby then ReplayReady else OtherPacket in
    match try_enter boundary (t_gate t) with
    | (_, None) => (mk_Forwarder (fw_mapper f) standby, t)
    | (word, Some activated) =>
        let '(replay, standby) := take_replay standby in
        publish activated replay standby (set_gate word t)
    end.

Definition promotion_header (t : MediaType) (payload_ : bytes) (timestamp : Z) : MediaPacket :=
  mk_MediaPacket t Flv false 0 timestamp timestamp payload_.
Definition push_promotion_headers (headers : option bytes * option bytes) (timestamp : Z)
  : list MediaPacket :=
  match headers.1 with Some p => [promotion_header Video p timestamp] | None => [] end
  ++ match headers.2 with Some p => [promotion_header Audio p timestamp] | None => [] end.

Definition push_ring (packets : list MediaPacket) (t : Target) : Target :=
  mk_Target (t_gate t) (t_last_dts t) (t_ring t ++ packets) (t_preview t) (t_keyframes t).

Definition try_promote (headers : option bytes * option bytes) (f : Forwarder) (t : Target)
  : Forwarder * Target :=
  if negb (is_replay_ready (fw_standby f))
     || negb (bool_decide (gate_state (t_gate t) = FAwaitingKeyframe)) then (f, t)
  else
    match try_enter ReplayReady (t_gate t) with
    | (_, None) => (f, t)
    | (word, Some activated) =>
        let '(replay, standby) := take_replay (fw_standby f) in
        let t := set_gate word t in
        let '(mapper, replay) :=
          map_batch (fw_mapper f) replay 0 (fun index => activated && (index =? 0)%nat) (t_last_dts t) in
        let t := match replay with
                 | first :: _ =>
                     if activated
                     then push_ring (push_promotion_headers headers (sat_i 64 (dts first - 1))) t
                     else t
                 | [] => t
                 end in
        (mk_Forwarder mapper standby, publish_batch replay t)
    end.

(** The packet path of [on_video] and [on_audio] once the message is a packet. *)
Definition forward_rtmp_packet (headers : option bytes * option bytes) (packet : MediaPacket)
    (f : Forwarder) (t : Target) : Forwarder * Target :=
  let t := push_preview [packet] t in
  let boundary := if is_video_keyframe packet then VideoKeyframe else OtherPacket in
  if bool_decide (gate_state (t_gate t) = FActive) then
    match try_enter boundary (t_gate t) with
    | (_, None) => (f, t)
    | (word, Some _) =>
        let '(mapper, packet) := map_packet (fw_mapper f) packet false (t_last_dts t) in
        (mk_Forwarder mapper (fw_standby f), publish_batch [packet] (set_gate word t))
    end
  else try_promote headers (mk_Forwarder (fw_mapper f) (gop_push (fw_standby f) packet)) t.

(** [packets.drain(..first_keyframe)] *)
Fixpoint from_keyframe (packets : list MediaPacket) : list MediaPacket :=
  match packets with
  | [] => []
  | p :: rest => if is_video_keyframe p then packets else from_keyframe rest
  end.

(** [forward_batch] of the ingest publisher. *)
Definition forward_batch (packets : list MediaPacket) (mapper : InputTimestampMapper) (t : Target)
  : InputTimestampMapper * Target :=
  match packets with
  | [] => (mapper, t)
  | _ =>
      let t := push_preview packets t in
      match try_enter (batch_boundary packets) (t_gate t) with
      | (_, None) => (mapper, t)
      | (word, Some activated) =>
          let packets := if activated && existsb is_video_keyframe packets
                         then from_keyframe packets else packets in
          let '(mapper, packets) :=
            map_batch mapper packets 0 (fun _ => activated) (t_last_dts t) in
          (mapper, publish_batch packets (set_gate word t))
      end
  end.

(** ** Interleavings

    Threads that enter the gate with a packet, hold a lease while they push it, or set
    the gate's state; each load, compare-and-exchange and subtraction is one step. *)

Inductive Pc :=
| PIdle
| PTry (boundary : InputPacketBoundary)
| PLoaded (boundary : InputPacketBoundary) (current : Z)
| PHold (activated : bool)
| PSet (state : Z)
| PSetLoaded (state current : Z).

Record Gate := mk_Gate { g_word : Z; g_threads : list Pc }.

Definition gate_word_of (s : InputForwardState) : Z :=
  match s with FStandby => STANDBY | FAwaitingKeyframe => AWAITING_KEYFRAME | FActive => ACTIVE end.

Inductive gate_step : Gate -> Gate -> Prop :=
| step_arrive w ts i b :
    ts !! i = Some PIdle -> gate_step (mk_Gate w ts) (mk_Gate w (<[i := PTry b]> ts))
| step_load w ts i b :
    ts !! i = Some (PTry b) -> gate_step (mk_Gate w ts) (mk_Gate w (<[i := PLoaded b w]> ts))
| step_refused w ts i b current :
    ts !! i = Some (PLoaded b current) -> enter_next b current = None ->
    gate_step (mk_Gate w ts) (mk_Gate w (<[i := PIdle]> ts))
| step_entered w ts i b current next activated :
    ts !! i = Some (PLoaded b current) -> enter_next b current = Some (next, activated) ->
    w = current -> gate_step (mk_Gate w ts) (mk_Gate next (<[i := PHold activated]> ts))
| step_retry w ts i b current :
    ts !! i = Some (PLoaded b current) -> is_Some (enter_next b current) -> w <> current ->
    gate_step (mk_Gate w ts) (mk_Gate w (<[i := PTry b]> ts))
| step_drop w ts i activated :
    ts !! i = Some (PHold activated) ->
    gate_step (mk_Gate w ts) (mk_Gate (drop_lease w) (<[i := PIdle]> ts))
| step_set w ts i s :
    ts !! i = Some PIdle -> gate_step (mk_Gate w ts) (mk_Gate w (<[i := PSet (gate_word_of s)]> ts))
| step_set_load w ts i state :
    ts !! i = Some (PSet state) -> gate_step (mk_Gate w ts) (mk_Gate w (<[i := PSetLoaded state w]> ts))
| step_set_retry w ts i state current :
    ts !! i = Some (PSetLoaded state current) -> w <> current ->
    gate_step (mk_Gate w ts) (mk_Gate w (<[i := PSetLoaded state w]> ts))
| step_set_done w ts i state current :
    ts !! i = Some (PSetLoaded state current) -> w = current ->
    gate_step (mk_Gate w ts) (mk_Gate (set_next state current) (<[i := PIdle]> ts)).

Definition holds (p : Pc) : bool := match p with PHold _ => true | _ => false end.
Definition holders (ts : list Pc) : Z := zlen (base.filter (fun p => holds p = true) ts).
Definition setting (p : Pc) : bool := match p with PSet _ | PSetLoaded _ _ => true | _ => false end.

(** A gate [standby()] or [active()] with [n] threads at rest. *)
Definition gate_new (s : InputForwardState) (n : nat) : Gate := mk_Gate (gate_word_of s) (replicate n PIdle).

(** The word holds the state and four times the leases; a setter writes one of the three
    states. *)
Record gate_ok (g : Gate) : Prop := {
  gk_word : exists st, 0 <= st <= 2 /\ g_word g = 4 * holders (g_threads g) + st;
  gk_setters : Forall (fun p => match p with PSet st | PSetLoaded st _ => 0 <= st <= 2 | _ => True end)
                 (g_threads g);
  gk_threads : 4 * zlen (g_threads g) + 4 <= 2 ^ 64;
}.

(** ** Arithmetic of the word *)

Lemma word_state h st : 0 <= st <= 2 -> (4 * h + st) .& STATE_MASK = st.
Proof.
  intros. change STATE_MASK with (Z.ones 2). rewrite Z.land_ones by lia.
  change (2 ^ 2) with 4. rewrite Z.add_comm, Z.mul_comm, Z_mod_plus_full. apply Z.mod_small. lia.
Qed.
Lemma word_in_flight h st : 0 <= st <= 2 -> in_flight_part (4 * h + st) = 4 * h.
Proof.
  intros. unfold in_flight_part. change STATE_MASK with (Z.ones 2).
  rewrite Z.ldiff_ones_r, Z.shiftr_div_pow2, Z.shiftl_mul_pow2 by lia. change (2 ^ 2) with 4.
  replace (4 * h + st) with (st + h * 4) by lia. rewrite Z_div_plus_full, Z.div_small by lia. lia.
Qed.
Lemma word_join h st : 0 <= st <= 2 -> (4 * h) .| st = 4 * h + st.
Proof.
  intros. rewrite <- Z.add_nocarry_lor; [done|].
  assert (st = st .& Z.ones 2) as -> by (rewrite Z.land_ones, Z.mod_small; lia).
  rewrite (Z.land_comm st), Z.land_assoc, Z.land_ones by lia. change (2 ^ 2) with 4.
  rewrite Z.mul_comm, Z_mod_mult. apply Z.land_0_l.
Qed.

Lemma gate_word_range s : 0 <= gate_word_of s <= 2.
Proof. destruct s; vm_compute; split; congruence. Qed.

Lemma set_next_ok h st state : 0 <= st <= 2 -> 0 <= state <= 2 -> set_next state (4 * h + st) = 4 * h + state.
Proof. intros. unfold set_next. by rewrite word_in_flight, word_join by lia. Qed.

Lemma enter_next_ok b h st next activated :
  0 <= st <= 2 -> 0 <= h -> enter_next b (4 * h + st) = Some (next, activated) ->
  st <> STANDBY /\ next = 4 * (h + 1) + ACTIVE.
Proof.
  intros Hst Hh. unfold enter_next. rewrite word_state, word_in_flight by lia.
  unfold STANDBY, AWAITING_KEYFRAME, ACTIVE, IN_FLIGHT_ONE in *.
  destruct (Z.eqb_spec st 0); [done|].
  assert (forall n : Z, match checked_u 64 (4 * h + 4) with Some m => Some (m .| 2, true) | None => None end
          = Some (next, activated) -> next = 4 * (h + 1) + 2) as Hadm.
  { intros _. unfold checked_u. destruct (_ && _); [|done]. intros [= <- _].
    replace (4 * h + 4) with (4 * (h + 1)) by lia. apply word_join. lia. }
  destruct (Z.eqb_spec st 1).
  - case_bool_decide; [done|]. intros E. split; [done|]. by apply Hadm.
  - destruct (Z.eqb_spec st 2); [|done]. subst st. intros E. split; [done|]. unfold checked_u in E.
    destruct (_ && _); [|done]. injection E as <- _.
    replace (4 * h + 4) with (4 * (h + 1)) by lia. apply word_join. lia.
Qed.

Lemma enter_standby b h : enter_next b (4 * h + STANDBY) = None.
Proof. unfold enter_next. rewrite word_state by (unfold STANDBY; lia). done. Qed.

(** ** The invariant *)

Lemma holders_insert ts i p q :
  ts !! i = Some p ->
  holders (<[i := q]> ts) = holders ts + (if holds q then 1 else 0) - (if holds p then 1 else 0).
Proof.
  intros Hi. rewrite (insert_take_drop ts i q) by by eapply lookup_lt_Some.
  assert (holders ts = holders (take i ts ++ p :: drop (S i) ts)) as -> by by rewrite take_drop_middle.
  unfold holders.
  rewrite !filter_app, !filter_cons. unfold zlen. rewrite !length_app.
  repeat case_decide; destruct (holds p), (holds q); try done; cbn; lia.
Qed.

Lemma holders_nonneg ts : 0 <= holders ts <= zlen ts.
Proof. unfold holders, zlen. pose proof (length_filter (fun p => holds p = true) ts). lia. Qed.

Lemma gate_step_ok g g' : gate_step g g' -> gate_ok g -> gate_ok g'.
Proof.
  intros Hs [(st & Hst & Hw) Hset Hn].
  assert (forall w ts i p q, g_threads g = ts -> ts !! i = Some p ->
    match q with PSet st | PSetLoaded st _ => 0 <= st <= 2 | _ => True end ->
    (exists st', 0 <= st' <= 2
       /\ w = 4 * (holders ts + (if holds q then 1 else 0) - (if holds p then 1 else 0)) + st') ->
    gate_ok (mk_Gate w (<[i := q]> ts))) as Hok.
  { intros w ts i p q E Hi Hq (st' & Hst' & Hw'). subst ts. split; cbn.
    - exists st'. by rewrite (holders_insert _ _ _ _ Hi).
    - by apply Forall_insert.
    - unfold zlen in *. by rewrite length_insert. }
  pose proof (holders_nonneg (g_threads g)) as Hh.
  destruct Hs; cbn in *.
  all: try (eapply Hok; [done|done|done|]; exists st; cbn; split; [done|lia]).
  - subst current. destruct (enter_next_ok _ _ _ _ _ Hst (proj1 Hh) (eq_trans (f_equal _ (eq_sym Hw)) H0)) as [_ ->].
    eapply Hok; [done|done|done|]. exists ACTIVE. cbn. unfold ACTIVE. lia.
  - eapply Hok; [done|done|done|]. exists st. cbn. split; [done|]. unfold drop_lease, IN_FLIGHT_ONE.
    assert (1 <= holders ts) as H1.
    { pose proof (holders_insert ts i (PHold activated) PIdle H) as E. cbn in E.
      pose proof (holders_nonneg (<[i := PIdle]> ts)). lia. }
    rewrite wrapu_id; [lia|]. unfold in_u. lia.
  - eapply Hok; [done|done| |]; [apply gate_word_range|]. exists st. cbn. split; [done|lia].
  - eapply Hok; [done|done| |]; [|exists st; cbn; split; [done|lia]].
    rewrite Forall_lookup in Hset. apply (Hset _ _ H).
  - eapply Hok; [done|done| |]; [|exists st; cbn; split; [done|lia]].
    rewrite Forall_lookup in Hset. apply (Hset _ _ H).
  - subst current. rewrite Forall_lookup in Hset. pose proof (Hset _ _ H) as Hstate. cbn in Hstate.
    eapply Hok; [done|done|done|]. exists state. cbn. split; [done|].
    rewrite Hw, set_next_ok by done. lia.
Qed.

Lemma gate_new_ok s n : 4 * Z.of_nat n + 4 <= 2 ^ 64 -> gate_ok (gate_new s n).
Proof.
  intros Hn. split; cbn.
  - exists (gate_word_of s). split; [apply gate_word_range|].
    assert (holders (replicate n PIdle) = 0) as ->; [|lia].
    clear Hn. induction n as [|n IH]; [done|]. unfold holders in *. cbn [replicate]. rewrite filter_cons. by cbn.
  - apply Forall_replicate. done.
  - unfold zlen. rewrite length_replicate. lia.
Qed.

Lemma gate_steps_ok g g' : rtc gate_step g g' -> gate_ok g -> gate_ok g'.
Proof. induction 1; eauto using gate_step_ok. Qed.

Lemma no_holder_of_count ts i a : holders ts = 0 -> ts !! i <> Some (PHold a).
Proof.
  intros H0 Hi. pose proof (holders_insert ts i (PHold a) PIdle Hi) as E. cbn in E.
  pose proof (holders_nonneg (<[i := PIdle]> ts)). lia.
Qed.

(** Steps in which no thread changes the gate's state. *)
Definition quiet_step (g g' : Gate) : Prop :=
  gate_step g g' /\ Forall (fun p => setting p = false) (g_threads g').

Lemma closed_step g g' :
  quiet_step g g' -> g_word g = STANDBY -> holders (g_threads g) = 0 ->
  Forall (fun p => setting p = false) (g_threads g) ->
  g_word g' = STANDBY /\ holders (g_threads g') = 0.
Proof.
  intros [Hs Hq'] Hw Hh Hq.
  destruct Hs; cbn in *; rewrite ?(holders_insert _ _ _ _ H); cbn; try (split; [done|lia]).
  - subst current w. pose proof (enter_standby b 0) as E. change (4 * 0 + STANDBY) with STANDBY in E.
    by rewrite E in H0.
  - exfalso. by eapply no_holder_of_count.
  - exfalso. rewrite Forall_lookup in Hq. by apply Hq in H.
Qed.

(** ** Theorems *)

(** C15: Under every interleaving of the threads at a gate, when the word shows no lease in
    flight (what [wait_until_idle] returns on) no thread holds one, so every packet
    admitted before has been pushed; and while the gate is in standby and nobody sets its
    state, none is admitted: an input that was demoted and waited for does not write to the
    ring again until it is armed or activated. *)
Theorem demoted_gate_stays_closed s n g g' :
  4 * Z.of_nat n + 4 <= 2 ^ 64 -> rtc gate_step (gate_new s n) g ->
  g_word g <= STATE_MASK ->
  (forall i a, g_threads g !! i <> Some (PHold a))
  /\ (gate_state (g_word g) = FStandby -> Forall (fun p => setting p = false) (g_threads g) ->
      rtc quiet_step g g' ->
      forall i a, g_threads g' !! i <> Some (PHold a)).
Proof.
  intros Hn Hr Hidle. pose proof (gate_steps_ok _ _ Hr (gate_new_ok s n Hn)) as [(st & Hst & Hw) _ _].
  pose proof (holders_nonneg (g_threads g)) as Hh. unfold STATE_MASK in Hidle.
  assert (holders (g_threads g) = 0) as H0 by lia. split; [intros i a; by apply no_holder_of_count|].
  intros Hstate Hq Hrun.
  assert (g_word g = STANDBY) as Hw0.
  { rewrite Hw, H0 in Hstate |- *. unfold gate_state in Hstate. rewrite word_state in Hstate by done.
    unfold STANDBY, AWAITING_KEYFRAME, ACTIVE in *. destruct (Z.eqb_spec st 0); [lia|].
    destruct (Z.eqb_spec st 1); [done|]. destruct (Z.eqb_spec st 2); [done|lia]. }
  clear Hw Hr Hidle Hstate Hh. induction Hrun as [|g g1 g2 Hstep _ IH]; [intros i a; by apply no_holder_of_count|].
  destruct (closed_step _ _ Hstep Hw0 H0 Hq) as [Hw1 H1]. apply IH; [done|apply Hstep|done].
Qed.

(** A forwarder enters, the engine demotes meanwhile, the forwarder pushes and leaves. *)
Definition handover : Gate := mk_Gate 0 [PIdle; PIdle].

Lemma handover_reachable : rtc gate_step (gate_new FActive 2) handover.
Proof.
  eapply rtc_l; [apply (step_arrive 2 _ 0%nat VideoKeyframe); reflexivity|].
  eapply rtc_l; [eapply (step_load 2 _ 0%nat); reflexivity|].
  eapply rtc_l; [eapply (step_entered 2 _ 0%nat); reflexivity|].
  eapply rtc_l; [eapply (step_set 6 _ 1%nat FStandby); reflexivity|].
  eapply rtc_l; [eapply (step_set_load 6 _ 1%nat); reflexivity|].
  eapply rtc_l; [eapply (step_set_done 6 _ 1%nat); reflexivity|].
  eapply rtc_l; [eapply (step_drop 4 _ 0%nat); reflexivity|].
  apply rtc_refl.
Qed.

Lemma demoted_gate_stays_closed_witness :
  (forall i a, g_threads handover !! i <> Some (PHold a))
  /\ forall i a, [PTry VideoKeyframe; PIdle] !! i <> Some (PHold a).
Proof.
  destruct (demoted_gate_stays_closed FActive 2 handover (mk_Gate 0 [PTry VideoKeyframe; PIdle]))
    as [H1 H2]; [vm_compute; congruence|exact handover_reachable|vm_compute; congruence|].
  split; [exact H1|]. apply H2; [reflexivity|repeat constructor|].
  eapply rtc_once. split; [apply (step_arrive 0 [PIdle; PIdle] 0%nat VideoKeyframe); reflexivity|repeat constructor].
Defined.

(** ** Promotion *)

(** A packet moved by [offset] on both clocks. *)
Definition shifted (offset : Z) (p : MediaPacket) : MediaPacket :=
  with_times p (pts p + offset) (dts p + offset).
Definition fits (offset : Z) (p : MediaPacket) : Prop :=
  in_i 64 (pts p + offset) /\ in_i 64 (dts p + offset).

Lemma sat_i_id x : in_i 64 x -> sat_i 64 x = x.
Proof. unfold in_i, sat_i. lia. Qed.

Lemma map_batch_later mapper packets index act last_dts :
  initialized mapper = true -> (forall i, (index <= i)%nat -> act i = false) ->
  Forall (fits (offset_ms mapper)) packets ->
  map_batch mapper packets index act last_dts = (mapper, map (shifted (offset_ms mapper)) packets).
Proof.
  intros Hi Hact Hf. revert index Hact.
  induction Hf as [|p rest [Hp Hd] _ IH]; intros index Hact; cbn [map_batch map]; [done|].
  unfold map_packet. rewrite Hact, Hi by lia. cbn [orb negb]. rewrite IH by (intros; apply Hact; lia).
  by rewrite !sat_i_id by done.
Qed.

Definition first_only (activated : bool) (index : nat) : bool := activated && (index =? 0)%nat.
Lemma first_only_later activated i : (1 <= i)%nat -> first_only activated i = false.
Proof. intros. unfold first_only. destruct i; [lia|]. apply andb_false_r. Qed.

(** The batch of a promotion, mapped as one. *)
Lemma map_batch_promoted mapper p rest last_dts :
  let offset := last_dts + 1 - dts p in
  last_dts <> i64_MIN -> in_i 64 (last_dts + 1) -> in_i 64 offset -> Forall (fits offset) (p :: rest) ->
  map_batch mapper (p :: rest) 0 (first_only true) last_dts
  = (mk_InputTimestampMapper true offset, map (shifted offset) (p :: rest)).
Proof.
  intros offset Hm Hl Ho Hf. apply Forall_cons in Hf as [[Hp Hd] Hf]. cbn [map_batch map].
  change (first_only true 0) with true. unfold map_packet. cbn [orb].
  destruct (Z.eqb_spec last_dts i64_MIN); [done|].
  rewrite (sat_i_id (last_dts + 1)), (sat_i_id (last_dts + 1 - dts p)) by done. fold offset.
  rewrite (map_batch_later (mk_InputTimestampMapper true offset))
    by (try done; intros; by apply first_only_later).
  cbn [offset_ms]. by rewrite !sat_i_id by done.
Qed.

(** A batch of an input that is past its promotion. *)
Lemma map_batch_active mapper packets last_dts :
  initialized mapper = true -> Forall (fits (offset_ms mapper)) packets ->
  map_batch mapper packets 0 (first_only false) last_dts
  = (mapper, map (shifted (offset_ms mapper)) packets).
Proof. intros. by apply map_batch_later. Qed.

(** The first packet of a promotion comes right after the last decoding time forwarded on
    the pipeline, by whichever input, and the whole replay moves by that one offset, which
    the packets that follow keep: the spacing of the input's timestamps survives. *)
Theorem promotion_keeps_spacing packets f t standby p rest :
  fold_left gop_push packets (fw_standby f) = standby -> is_replay_ready standby = true ->
  Queues.packets standby = p :: rest ->
  t_gate t = AWAITING_KEYFRAME -> t_last_dts t <> i64_MIN ->
  let offset := t_last_dts t + 1 - dts p in
  in_i 64 (t_last_dts t + 1) -> in_i 64 offset -> Forall (fits offset) (p :: rest) ->
  let '(f', t') := forward_ingest_packets packets f t in
  t_ring t' = t_ring t ++ map (shifted offset) (p :: rest)
  /\ dts (shifted offset p) = t_last_dts t + 1
  /\ gate_state (t_gate t') = FActive
  /\ fw_mapper f' = mk_InputTimestampMapper true offset
  /\ forall q more, Forall (fits offset) (q :: more) ->
     t_ring (forward_ingest_packets (q :: more) f' t').2
     = t_ring t' ++ map (shifted offset) (q :: more).
Proof.
  intros Hs Hready Hp Hg Hm offset Hl Ho Hf. unfold forward_ingest_packets.
  change (t_gate (push_preview packets t)) with (t_gate t). rewrite Hg.
  rewrite bool_decide_eq_false_2 by by vm_compute. rewrite Hs, Hready.
  change (try_enter ReplayReady AWAITING_KEYFRAME) with (6, Some true).
  unfold take_replay. rewrite Hready, Hp.
  change (t_last_dts (set_gate 6 (push_preview packets t))) with (t_last_dts t).
  fold (first_only true). rewrite map_batch_promoted by done. cbn [t_ring publish_batch set_gate push_preview fw_mapper fw_standby t_gate].
  split_and!; try done; [cbn; lia|].
  intros q more Hq. cbn [t_gate push_preview publish_batch set_gate].
  rewrite bool_decide_eq_true_2 by by vm_compute.
  assert (forall b, try_enter b (drop_lease 6) = (6, Some false)) as -> by by intros [].
  cbn [fw_mapper fw_standby]. fold (first_only false). by rewrite map_batch_active.
Qed.

(** The ingest publisher's [forward_batch] passes [activated] for every packet of the
    batch, not only for the first: a promotion gives every packet of the batch the same
    decoding time. *)
Theorem publisher_promotion_collapses_times packets mapper t p rest :
  packets <> [] -> existsb is_video_keyframe packets = true -> from_keyframe packets = p :: rest ->
  t_gate t = AWAITING_KEYFRAME -> t_last_dts t <> i64_MIN -> in_i 64 (t_last_dts t + 1) ->
  Forall (fun q => in_i 64 (t_last_dts t + 1 - dts q)) (p :: rest) ->
  exists out, t_ring (forward_batch packets mapper t).2 = t_ring t ++ out
    /\ length out = length (p :: rest)
    /\ Forall (fun q => dts q = t_last_dts t + 1) out.
Proof.
  intros Hne Hk Hp Hg Hm Hl Hf. unfold forward_batch. destruct packets as [|x xs]; [done|].
  unfold batch_boundary. rewrite Hk. change (t_gate (push_preview (x :: xs) t)) with (t_gate t). rewrite Hg.
  change (try_enter VideoKeyframe AWAITING_KEYFRAME) with (6, Some true). cbn [andb]. rewrite Hp.
  change (t_last_dts (set_gate 6 (push_preview (x :: xs) t))) with (t_last_dts t).
  change (t_last_dts (push_preview (x :: xs) t)) with (t_last_dts t).
  assert (forall l mapper index, Forall (fun q => in_i 64 (t_last_dts t + 1 - dts q)) l ->
    length (map_batch mapper l index (fun _ => true) (t_last_dts t)).2 = length l
    /\ Forall (fun q => dts q = t_last_dts t + 1)
         (map_batch mapper l index (fun _ => true) (t_last_dts t)).2) as Hmap.
  { clear -Hm Hl. intros l. induction l as [|q l IH]; intros mapper index Hf; [by split|].
    apply Forall_cons in Hf as [Hq Hf]. cbn [map_batch]. unfold map_packet. cbn [orb].
    destruct (Z.eqb_spec (t_last_dts t) i64_MIN); [done|].
    destruct (IH (mk_InputTimestampMapper true (t_last_dts t + 1 - dts q)) (S index) Hf) as [H1 H2].
    rewrite (sat_i_id (t_last_dts t + 1)), (sat_i_id (t_last_dts t + 1 - dts q)) by done.
    destruct (map_batch _ l _ _ _) as [m' l']. cbn in *. split; [by rewrite H1|].
    constructor; [|done]. cbn. rewrite sat_i_id; [lia|]. by replace (dts q + (t_last_dts t + 1 - dts q)) with (t_last_dts t + 1) by lia. }
  destruct (Hmap (p :: rest) mapper 0%nat Hf) as [H1 H2].
  destruct (map_batch mapper (p :: rest) 0 (fun _ => true) (t_last_dts t)) as [m' l'].
  exists l'. by split_and!.
Qed.

Definition example_packet (key : bool) (t : Z) : MediaPacket := mk_MediaPacket Video Raw key 0 t t [].
Definition example_target (last : Z) : Target := mk_Target AWAITING_KEYFRAME last [] None [].
Definition example_forwarder : Forwarder :=
  mk_Forwarder InputTimestampMapper_default (StandbyGopCache_new 100 100).

Lemma promotion_keeps_spacing_witness :
  let '(f', t') := forward_ingest_packets [example_packet true 100; example_packet false 140]
                     example_forwarder (example_target 5000) in
  map dts (t_ring t') = [5001; 5041]
  /\ map dts (t_ring (forward_ingest_packets [example_packet false 180] f' t').2) = [5001; 5041; 5081].
Proof.
  assert (in_i 64 5001) as Hl by (vm_compute; split; congruence).
  assert (in_i 64 4901) as Ho by (vm_compute; split; congruence).
  assert (5000 <> i64_MIN) as Hm by (vm_compute; congruence).
  assert (forall b t, 0 <= t <= 200 -> fits 4901 (example_packet b t)) as Hfit.
  { intros b t Ht. unfold fits, in_i. cbn. lia. }
  assert (Forall (fits 4901) [example_packet true 100; example_packet false 140]) as Hf.
  { repeat (apply Forall_cons; split; [apply Hfit; lia|]). by apply Forall_nil. }
  pose proof (promotion_keeps_spacing [example_packet true 100; example_packet false 140] example_forwarder
    (example_target 5000) _ (example_packet true 100) [example_packet false 140] eq_refl eq_refl eq_refl
    eq_refl Hm Hl Ho Hf) as H.
  destruct (forward_ingest_packets _ example_forwarder _) as [f' t'].
  destruct H as (Hr & _ & _ & _ & Hmore). rewrite Hmore, Hr.
  - split; reflexivity.
  - apply Forall_cons. split; [apply Hfit; lia|by apply Forall_nil].
Defined.

(** Three frames 40 ms apart are published with one decoding time. *)
Lemma publisher_promotion_collapses_times_witness :
  map dts (t_ring (forward_batch [example_packet true 100; example_packet false 140; example_packet false 180]
                     InputTimestampMapper_default (example_target 5000)).2) = [5001; 5001; 5001].
Proof.
  assert (in_i 64 5001) as Hl by (vm_compute; split; congruence).
  assert (5000 <> i64_MIN) as Hm by (vm_compute; congruence).
  assert (Forall (fun q => in_i 64 (5000 + 1 - dts q))
            [example_packet true 100; example_packet false 140; example_packet false 180]) as Hf.
  { repeat (apply Forall_cons; split; [unfold in_i; cbn; lia|]). by apply Forall_nil. }
  destruct (publisher_promotion_collapses_times
    [example_packet true 100; example_packet false 140; example_packet false 180]
    InputTimestampMapper_default (example_target 5000) (example_packet true 100)
    [example_packet false 140; example_packet false 180] ltac:(discriminate) eq_refl eq_refl eq_refl Hm Hl Hf)
    as (out & E & Hlen & Hd).
  rewrite E. cbn [t_ring example_target app]. cbn [length] in Hlen.
  destruct out as [|a [|b [|c [|d out]]]]; try discriminate.
  apply Forall_cons in Hd as [Ha Hd]. apply Forall_cons in Hd as [Hb Hd]. apply Forall_cons in Hd as [Hc _].
  cbn [map]. rewrite Ha, Hb, Hc. reflexivity.
Defined.
