(* ===== verification/Continuity.v ===== *)
(** * Timestamp continuity

    Models [crates/restream-engine/src/ingest_publisher/continuity.rs]: how the packets of
    a replayed file pass, or of a stream after a discontinuity, are shifted so that each
    stream's timestamps keep increasing. *)

From Stdlib Require Import Sorting.Sorted.
From S2P Require Import Prelude Media InputGate.

Open Scope Z_scope.

(** ** Definitions *)

Record ContinuousTimestampState := mk_Continuous {
  ct_offset_ms : Z;
  ct_last_by_stream : gmap Z Z;
  ct_rebase_pending : bool;
  ct_pending_generation : option Z;
  ct_generation : Z;
  ct_last_raw_ms : option Z;
}.
Definition Continuous_default : ContinuousTimestampState := mk_Continuous 0 ∅ false None 0 None.
Definition joining : ContinuousTimestampState := mk_Continuous 0 ∅ true None 0 None.

Definition media_type_index (t : MediaType) : Z := match t with Video => 0 | Audio => 1 end.
Definition stream_key (p : MediaPacket) : Z :=
  as_u64 (media_type_index (media_type p) .<< 32) .| track_index p.

(** The greatest value of a map: [values().copied().max()]. *)
Definition map_max (m : gmap Z Z) : option Z :=
  fold_right (fun e best => Some (match best with Some b => Z.max e.2 b | None => e.2 end)) None
    (map_to_list m).
Definition latest_ms (s : ContinuousTimestampState) : option Z := map_max (ct_last_by_stream s).

Definition rebase_to (offset : Z) (s : ContinuousTimestampState) : ContinuousTimestampState :=
  mk_Continuous offset (ct_last_by_stream s) false None
    (match ct_pending_generation s with
     | Some g => Z.max (ct_generation s) g
     | None => ct_generation s
     end) (ct_last_raw_ms s).

Definition continuity_timestamp_ms (p : MediaPacket) : Z := if 0 <=? dts p then dts p else pts p.

Definition mark_clock_discontinuity (s : ContinuousTimestampState) : ContinuousTimestampState :=
  mk_Continuous (ct_offset_ms s) (ct_last_by_stream s) true (ct_pending_generation s)
    (ct_generation s) (ct_last_raw_ms s).
Definition mark_timeline_break (generation : Z) (s : ContinuousTimestampState)
  : ContinuousTimestampState :=
  mk_Continuous (ct_offset_ms s) (ct_last_by_stream s) true (Some generation)
    (ct_generation s) (ct_last_raw_ms s).

(** The pending re-anchor at the start of [apply]. *)
Definition settle_rebase (raw : Z) (s : ContinuousTimestampState) : ContinuousTimestampState :=
  if ct_rebase_pending s then
    rebase_to (match latest_ms s with
               | Some latest => sat_i 64 (sat_i 64 (latest + 1) - raw)
               | None => ct_offset_ms s
               end) s
  else s.

(** The offset for a packet of the stream [key], past that stream's last timestamp. *)
Definition stream_offset (key raw : Z) (s : ContinuousTimestampState) : Z :=
  match ct_last_by_stream s !! key with
  | Some last =>
      if sat_i 64 (raw + ct_offset_ms s) <=? last then sat_i 64 (sat_i 64 (last + 1) - raw)
      else ct_offset_ms s
  | None => ct_offset_ms s
  end.

Definition apply (packet : MediaPacket) (s : ContinuousTimestampState)
  : ContinuousTimestampState * MediaPacket :=
  let key := stream_key packet in
  let raw := continuity_timestamp_ms packet in
  let s := settle_rebase raw s in
  let offset := stream_offset key raw s in
  let packet := with_times packet (sat_i 64 (pts packet + offset)) (sat_i 64 (dts packet + offset)) in
  let adjusted := continuity_timestamp_ms packet in
  let newest := match ct_last_by_stream s !! key with
                | Some current => Z.max current adjusted
                | None => adjusted
                end in
  (mk_Continuous offset (<[key := newest]> (ct_last_by_stream s)) (ct_rebase_pending s)
     (ct_pending_generation s) (ct_generation s) (Some raw), packet).

(** ** Runs *)

Inductive ContOp :=
| CPacket (p : MediaPacket)
| CClock
| CBreak (generation : Z)
| CRebase (offset : Z).

Definition cont_step (op : ContOp) (s : ContinuousTimestampState)
  : ContinuousTimestampState * list MediaPacket :=
  match op with
  | CPacket p => let '(s, p) := apply p s in (s, [p])
  | CClock => (mark_clock_discontinuity s, [])
  | CBreak g => (mark_timeline_break g s, [])
  | CRebase offset => (rebase_to offset s, [])
  end.

Fixpoint cont_run (ops : list ContOp) (s : ContinuousTimestampState)
  : ContinuousTimestampState * list MediaPacket :=
  match ops with
  | [] => (s, [])
  | op :: ops =>
      let '(s, out) := cont_step op s in
      let '(s, rest) := cont_run ops s in
      (s, out ++ rest)
  end.

(** ** Lemmas *)

Definition i64_MAX : Z := 2 ^ 63 - 1.

Lemma sat_i64_bounds x : - 2 ^ 63 <= sat_i 64 x <= i64_MAX.
Proof. unfold sat_i, i64_MAX. cbn. lia. Qed.

(** What the offset past [last] makes of a time that is not negative. *)
Lemma past_last last raw :
  last < i64_MAX -> 0 <= raw -> last < sat_i 64 (raw + sat_i 64 (sat_i 64 (last + 1) - raw)).
Proof. unfold sat_i, i64_MAX. change (64 - 1) with 63. lia. Qed.

Lemma map_max_ge m k v : m !! k = Some v -> exists best, map_max m = Some best /\ v <= best.
Proof.
  intros H. apply elem_of_map_to_list in H. unfold map_max.
  induction (map_to_list m) as [|[k' v'] l IH]; [by apply not_elem_of_nil in H|].
  cbn. apply elem_of_cons in H as [[= -> ->]|H].
  - eexists. split; [done|]. case_match; lia.
  - destruct (IH H) as (best & -> & Hle). eexists. split; [done|]. lia.
Qed.

Lemma settle_rebase_last raw s : ct_last_by_stream (settle_rebase raw s) = ct_last_by_stream s.
Proof. unfold settle_rebase. by destruct (ct_rebase_pending s). Qed.

(** The packet [apply] puts out, past the last one of its stream. *)
Lemma apply_increases p s last :
  0 <= dts p -> ct_last_by_stream s !! stream_key p = Some last -> last < i64_MAX ->
  last < dts (apply p s).2.
Proof.
  intros Hd Hlast Hmax. unfold apply. cbn [snd dts with_times].
  assert (continuity_timestamp_ms p = dts p) as -> by (unfold continuity_timestamp_ms; case_match; lia).
  unfold stream_offset. rewrite settle_rebase_last, Hlast.
  destruct (Z.leb_spec (sat_i 64 (dts p + ct_offset_ms (settle_rebase (dts p) s))) last); [|lia].
  by apply past_last.
Qed.

Lemma continuity_nonneg p : 0 <= dts p -> continuity_timestamp_ms p = dts p.
Proof. intros. unfold continuity_timestamp_ms. case_match; lia. Qed.

Lemma apply_key p s : stream_key (apply p s).2 = stream_key p.
Proof. done. Qed.

(** ** The last times of a run *)

Definition of_stream (key : Z) (l : list MediaPacket) : list MediaPacket := filter (fun p => stream_key p = key) l.

(** The time kept for a stream is the latest one put out on it. *)
Definition last_is_latest (s : ContinuousTimestampState) (out : list MediaPacket) : Prop :=
  forall key, match ct_last_by_stream s !! key with
              | Some last =>
                  Forall (fun p => continuity_timestamp_ms p <= last) (of_stream key out)
                  /\ exists p, p ∈ of_stream key out /\ continuity_timestamp_ms p = last
              | None => of_stream key out = []
              end.

Lemma of_stream_snoc key l p :
  of_stream key (l ++ [p]) = of_stream key l ++ (if decide (stream_key p = key) then [p] else []).
Proof. unfold of_stream. rewrite filter_app, filter_cons, filter_nil. by case_decide. Qed.

Lemma apply_latest p s out :
  last_is_latest s out -> last_is_latest (apply p s).1 (out ++ [(apply p s).2]).
Proof.
  intros H key. specialize (H key). rewrite of_stream_snoc, apply_key.
  unfold apply. cbn [fst snd ct_last_by_stream]. rewrite settle_rebase_last. set (q := with_times _ _ _).
  destruct (decide (stream_key p = key)) as [<-|Hne]; [rewrite lookup_insert_eq|rewrite lookup_insert_ne, app_nil_r by done; done].
  destruct (ct_last_by_stream s !! stream_key p) as [last|].
  - destruct H as [Hle (x & Hx & Ex)]. split.
    + apply Forall_app_2; [|constructor; [lia|done]]. eapply Forall_impl; [exact Hle|]. cbn. lia.
    + destruct (decide (last <= continuity_timestamp_ms q)).
      * exists q. split; [|lia]. apply elem_of_app. right. by apply list_elem_of_singleton.
      * exists x. split; [|lia]. apply elem_of_app. by left.
  - rewrite H. split; [by repeat constructor|]. exists q. split; [by apply list_elem_of_singleton|done].
Qed.

Lemma cont_run_latest ops s out :
  last_is_latest s out -> last_is_latest (cont_run ops s).1 (out ++ (cont_run ops s).2).
Proof.
  revert s out. induction ops as [|op ops IH]; intros s out H; [by rewrite app_nil_r|]. cbn [cont_run].
  assert (last_is_latest (cont_step op s).1 (out ++ (cont_step op s).2)) as H1.
  { destruct op as [p| |g|offset]; cbn [cont_step fst snd]; rewrite ?app_nil_r; try exact H.
    pose proof (apply_latest p s out H) as Ha. by destruct (apply p s). }
  destruct (cont_step op s) as [s1 o1]. specialize (IH s1 _ H1).
  destruct (cont_run ops s1) as [s2 o2]. cbn [fst snd] in *. by rewrite app_assoc.
Qed.

(** ** Theorems *)

(** C38: Times only go up: after any run of packets and discontinuities, whichever way the
    source's clock jumps, a packet whose decoding time is not negative is put out with a
    decoding time past the time of every packet put out before on its stream (the decoding
    time, or the presentation time where the decoding time put out is negative), as long as
    none of these is the last of [i64].  A packet with a negative decoding time is ordered by
    its presentation time and may go back ([negative_dts_goes_back]). *)
Theorem stream_times_increase ops p q :
  let '(s, out) := cont_run ops Continuous_default in
  Forall (fun x => continuity_timestamp_ms x < i64_MAX) (of_stream (stream_key q) out) ->
  p ∈ of_stream (stream_key q) out -> 0 <= dts q ->
  continuity_timestamp_ms p < dts (apply q s).2 /\ (0 <= dts p -> dts p < dts (apply q s).2).
Proof.
  assert (last_is_latest Continuous_default []) as H0 by done.
  pose proof (cont_run_latest ops _ _ H0 (stream_key q)) as H.
  destruct (cont_run ops Continuous_default) as [s out]. cbn [fst snd app] in *. intros Hmax Hp Hq.
  destruct (ct_last_by_stream s !! stream_key q) as [last|] eqn:E; [|rewrite H in Hp; by apply elem_of_nil in Hp].
  destruct H as [Hle (x & Hx & Ex)]. rewrite Forall_forall in Hle, Hmax.
  assert (last < dts (apply q s).2) as Hlt by (apply apply_increases; [done|done|rewrite <- Ex; by apply Hmax]).
  specialize (Hle p Hp). cbn in Hle. split; [lia|]. intros Hd. rewrite (continuity_nonneg p Hd) in Hle. lia.
Qed.

(** The first packet after a mark comes right after the latest time of every stream. *)
Theorem rebase_follows_every_stream p s latest :
  0 <= dts p <= i64_MAX -> ct_rebase_pending s = true -> latest_ms s = Some latest -> -1 <= latest < i64_MAX ->
  dts (apply p s).2 = latest + 1 /\ ct_rebase_pending (apply p s).1 = false.
Proof.
  intros Hd Hp Hl Hm. unfold apply. cbn [fst snd dts with_times ct_rebase_pending].
  rewrite (continuity_nonneg p) by lia.
  unfold settle_rebase. rewrite Hp, Hl. cbn [ct_rebase_pending rebase_to]. split; [|done].
  assert (sat_i 64 (dts p + sat_i 64 (sat_i 64 (latest + 1) - dts p)) = latest + 1) as E.
  { unfold sat_i, i64_MAX in *. change (64 - 1) with 63. lia. }
  unfold stream_offset, rebase_to. cbn.
  destruct (ct_last_by_stream s !! stream_key p) as [last|] eqn:El; [|done].
  destruct (map_max_ge _ _ _ El) as (best & Eb & Hle). unfold latest_ms in Hl. rewrite Hl in Eb.
  injection Eb as <-. rewrite E. by rewrite (proj2 (Z.leb_gt (latest + 1) last)) by lia.
Qed.

Definition cont_packet (t : MediaType) (pts_ dts_ : Z) : MediaPacket := mk_MediaPacket t Raw false 0 pts_ dts_ [].

(** Two passes of a file and a marked jump forward. *)
Definition example_cont_ops : list ContOp :=
  [CPacket (cont_packet Video 0 0); CPacket (cont_packet Audio 5 5); CPacket (cont_packet Video 40 40);
   CPacket (cont_packet Video 0 0); CClock; CPacket (cont_packet Video 9000000 9000000)].

Lemma stream_times_increase_witness :
  let '(s, out) := cont_run example_cont_ops Continuous_default in
  map dts out = [0; 5; 40; 41; 42] /\ 42 < dts (apply (cont_packet Video 7 7) s).2.
Proof.
  pose proof (stream_times_increase example_cont_ops (cont_packet Video 42 42) (cont_packet Video 7 7)) as H.
  assert (of_stream (stream_key (cont_packet Video 7 7)) (cont_run example_cont_ops Continuous_default).2
          = [cont_packet Video 0 0; cont_packet Video 40 40; cont_packet Video 41 41; cont_packet Video 42 42]) as E
    by (vm_compute; reflexivity).
  assert (map dts (cont_run example_cont_ops Continuous_default).2 = [0; 5; 40; 41; 42]) as Ed by (vm_compute; reflexivity).
  destruct (cont_run example_cont_ops Continuous_default) as [s out]. cbn [snd] in E, Ed. rewrite E in H.
  split; [exact Ed|]. refine (proj2 (H _ _ _) _).
  - repeat (apply Forall_cons; split; [vm_compute; reflexivity|]). apply Forall_nil_2.
  - do 3 right. left.
  - cbn. lia.
  - cbn. lia.
Defined.

Lemma rebase_follows_every_stream_witness :
  let s := mark_clock_discontinuity
             (cont_run [CPacket (cont_packet Video 1000 1000); CPacket (cont_packet Audio 1010 1010)]
                Continuous_default).1 in
  dts (apply (cont_packet Video 9000000 9000000) s).2 = 1011.
Proof.
  refine (proj1 (rebase_follows_every_stream _ _ 1010 _ _ _ _)); vm_compute; intuition congruence.
Defined.

(** A negative decoding time: the order is kept on the presentation clock, and the
    decoding time put out, now not negative, is behind the stream's last one. *)
Example negative_dts_goes_back :
  map dts (cont_run [CPacket (cont_packet Video 200 200); CPacket (cont_packet Video 209 209);
                     CPacket (cont_packet Video 0 0); CPacket (cont_packet Video 10 (-5))]
             Continuous_default).2 = [200; 209; 210; 205].
Proof. vm_compute. reflexivity. Qed.
