(* ===== verification/IngestRegistry.v ===== *)
(** * Ingest selection

    Models the ingest half of [crates/restream-engine/src/engine_ingest.rs] (with
    [IngestRegistry] of [engine_registries.rs] and [build_recent_ingest_outcome] of
    [engine.rs]): which input of a pipeline is registered, selected and forwards.  The
    operations hold [selection_lock] and are cut at every [await] between two accesses to the
    state: at such a point forwarders go on, and the future may be dropped.  A gate is named by
    the attempt that made it; attempt ids are unbounded.  Metadata, preview rings, the track
    hints of the ring, the event log and the boolean answers of the operations are not part of
    the state. *)

From S2P Require Import Prelude Media InputGate.

Open Scope Z_scope.

(** ** Definitions *)

Record ActiveIngest := mk_ActiveIngest {
  ai_attempt_id : Z;
  ai_pipeline_id : string;
  ai_input_id : string;
  ai_stream_key : string;
  ai_protocol : string;
}.
#[global] Instance ActiveIngest_eq_dec : EqDecision ActiveIngest.
Proof. solve_decision. Defined.

Record RecentIngestOutcome := mk_RecentIngestOutcome {
  ri_protocol : string;
  ri_disconnected_at_ms : Z;
  ri_first_disconnect_at_ms : Z;
  ri_disconnect_count : Z;
  ri_reason : option string;
  ri_failure_phase : option string;
  ri_had_error : bool;
  ri_remote_addr : option string;
  ri_bytes_received : Z;
}.

Record IngestRegistry := mk_IngestRegistry {
  rg_tokens : gmap string Z;
  rg_cancelled : gset Z;
  rg_next_attempt_id : Z;
  rg_sessions : gmap string ActiveIngest;
  rg_selected : gmap string string;
  rg_timelines : gmap string Z;
  rg_active : gmap string ActiveIngest;
  rg_gates : gmap Z Z;
  rg_recent : gmap string RecentIngestOutcome;
}.
Definition registry_new : IngestRegistry := mk_IngestRegistry ∅ ∅ 1 ∅ ∅ ∅ ∅ ∅ ∅.

Definition set_gates (gates : gmap Z Z) (r : IngestRegistry) : IngestRegistry :=
  mk_IngestRegistry (rg_tokens r) (rg_cancelled r) (rg_next_attempt_id r) (rg_sessions r)
    (rg_selected r) (rg_timelines r) (rg_active r) gates (rg_recent r).
(** [gate.demote()] and the like on the gate of an attempt. *)
Definition gate_update (f : Z -> Z) (attempt : Z) (r : IngestRegistry) : IngestRegistry :=
  set_gates (alter f attempt (rg_gates r)) r.

(** ** Registration *)

Record Registration := mk_Registration {
  rn_pipeline_id : string;
  rn_input_id : string;
  rn_stream_key : string;
  rn_protocol : string;
  rn_selected : bool;
}.

(** The gate a registration demotes, with the state it had. *)
Definition DemotedGate : Type := option (Z * InputForwardState).

(** [try_register_pipeline_input_attempt] up to the demotion: [None] when the input has a
    session that is not cancelled; else whether it is selected, and the gate to demote. *)
Definition register_begin (n : Registration) (r : IngestRegistry) : option (Registration * DemotedGate) :=
  let live := match rg_tokens r !! rn_input_id n with
              | Some a => bool_decide (a ∉ rg_cancelled r)
              | None => false
              end in
  if live then None
  else
    let selected := match rg_selected r !! rn_pipeline_id n with
                    | Some input => bool_decide (input = rn_input_id n)
                    | None => rn_selected n
                    end in
    let n := mk_Registration (rn_pipeline_id n) (rn_input_id n) (rn_stream_key n) (rn_protocol n) selected in
    Some (n,
      match (if selected then rg_active r !! rn_pipeline_id n else None) with
      | Some previous =>
          if bool_decide (ai_input_id previous = rn_input_id n) then None
          else Some (ai_attempt_id previous, gate_state (default 0 (rg_gates r !! ai_attempt_id previous)))
      | None => None
      end).

(** [try_register_ingest_attempt], which asks for a pipeline without an active input. *)
Definition register_ingest_begin (pipeline_id stream_key protocol : string) (r : IngestRegistry)
  : option (Registration * DemotedGate) :=
  match rg_active r !! pipeline_id with
  | Some _ => None
  | None => register_begin (mk_Registration pipeline_id stream_key stream_key protocol true) r
  end.

Definition register_demote (d : DemotedGate) (r : IngestRegistry) : IngestRegistry :=
  match d with
  | Some (attempt, _) => gate_update demote attempt r
  | None => r
  end.

(** [wait_until_idle]: no lease is out. *)
Definition gate_idle (a : Z) (r : IngestRegistry) : bool := default 0 (rg_gates r !! a) <=? STATE_MASK.
Definition demoted_idle (d : DemotedGate) (r : IngestRegistry) : bool :=
  match d with Some (a, _) => gate_idle a r | None => true end.

(** [next_attempt_id.fetch_add(1)]. *)
Definition register_number (r : IngestRegistry) : IngestRegistry :=
  mk_IngestRegistry (rg_tokens r) (rg_cancelled r) (rg_next_attempt_id r + 1) (rg_sessions r)
    (rg_selected r) (rg_timelines r) (rg_active r) (rg_gates r) (rg_recent r).

Definition set_timeline (pipeline_id : string) (t : Z) (r : IngestRegistry) : IngestRegistry :=
  mk_IngestRegistry (rg_tokens r) (rg_cancelled r) (rg_next_attempt_id r) (rg_sessions r)
    (rg_selected r) (<[pipeline_id := t]> (rg_timelines r)) (rg_active r) (rg_gates r) (rg_recent r).
Definition register_timeline (pipeline_id : string) (r : IngestRegistry) : IngestRegistry :=
  match rg_timelines r !! pipeline_id with
  | Some _ => r
  | None => set_timeline pipeline_id i64_MIN r
  end.

(** The state the new gate starts in. *)
Definition register_gate (n : Registration) (r : IngestRegistry) : Z :=
  let last_forwarded_dts := default i64_MIN (rg_timelines r !! rn_pipeline_id n) in
  if rn_selected n && (last_forwarded_dts =? i64_MIN) then ACTIVE
  else if rn_selected n then arm_for_promotion STANDBY
  else STANDBY.

(** The inserts, under the write guards of all the tables. *)
Definition register_insert (n : Registration) (attempt gate : Z) (r : IngestRegistry) : IngestRegistry :=
  let ingest := mk_ActiveIngest attempt (rn_pipeline_id n) (rn_input_id n) (rn_stream_key n)
                  (rn_protocol n) in
  mk_IngestRegistry (<[rn_input_id n := attempt]> (rg_tokens r)) (rg_cancelled r) (rg_next_attempt_id r)
    (<[rn_input_id n := ingest]> (rg_sessions r))
    (if rn_selected n then <[rn_pipeline_id n := rn_input_id n]> (rg_selected r) else rg_selected r)
    (rg_timelines r)
    (if rn_selected n then <[rn_pipeline_id n := ingest]> (rg_active r) else rg_active r)
    (<[attempt := gate]> (rg_gates r)) (rg_recent r).

(** [DemotedGate]'s drop, which restores the gate. *)
Definition register_dropped (d : DemotedGate) (r : IngestRegistry) : IngestRegistry :=
  match d with
  | Some (attempt, FActive) => gate_update activate attempt r
  | Some (attempt, FAwaitingKeyframe) => gate_update arm_for_promotion attempt r
  | Some (attempt, FStandby) => gate_update demote attempt r
  | None => r
  end.

(** ** Selection *)

Definition select_input (pipeline_id input_id : string) (r : IngestRegistry) : IngestRegistry :=
  mk_IngestRegistry (rg_tokens r) (rg_cancelled r) (rg_next_attempt_id r) (rg_sessions r)
    (<[pipeline_id := input_id]> (rg_selected r)) (rg_timelines r) (rg_active r) (rg_gates r)
    (rg_recent r).
Definition set_active (active : gmap string ActiveIngest) (r : IngestRegistry) : IngestRegistry :=
  mk_IngestRegistry (rg_tokens r) (rg_cancelled r) (rg_next_attempt_id r) (rg_sessions r)
    (rg_selected r) (rg_timelines r) active (rg_gates r) (rg_recent r).

(** The session [select_pipeline_input] arms: that of the input, if it is of the pipeline. *)
Definition replacement_of (pipeline_id input_id : string) (r : IngestRegistry) : option ActiveIngest :=
  match rg_sessions r !! input_id with
  | Some s => if bool_decide (ai_pipeline_id s = pipeline_id) then Some s else None
  | None => None
  end.

Definition cancel_attempts (l : list Z) (r : IngestRegistry) : IngestRegistry :=
  mk_IngestRegistry (rg_tokens r) (rg_cancelled r ∪ list_to_set l) (rg_next_attempt_id r)
    (rg_sessions r) (rg_selected r) (rg_timelines r) (rg_active r) (rg_gates r) (rg_recent r).

Definition cancel_pipeline_input (input_id : string) (r : IngestRegistry) : IngestRegistry * bool :=
  match rg_tokens r !! input_id with
  | Some attempt => (cancel_attempts [attempt] r, true)
  | None => (r, false)
  end.

Definition input_has_session (pipeline_id input_id : string) (r : IngestRegistry) : bool :=
  match rg_sessions r !! input_id with
  | Some s => bool_decide (ai_pipeline_id s = pipeline_id)
  | None => false
  end.
Definition connected_input_count (pipeline_id : string) (r : IngestRegistry) : nat :=
  size (filter (fun e => ai_pipeline_id e.2 = pipeline_id) (rg_sessions r)).

(** ** Disconnects *)

Definition INGEST_FLAP_WINDOW_MS : Z := 30000.

Definition build_recent_ingest_outcome (now : Z) (previous : option RecentIngestOutcome)
    (protocol : string) (phase reason : option string) (had_error : bool)
    (remote_addr : option string) (bytes_received : Z) : RecentIngestOutcome :=
  let '(first, count) :=
    match previous with
    | Some p =>
        if sat_u 64 (now - ri_disconnected_at_ms p) <=? INGEST_FLAP_WINDOW_MS
        then (ri_first_disconnect_at_ms p, sat_u 32 (ri_disconnect_count p + 1))
        else (now, 1)
    | None => (now, 1)
    end in
  mk_RecentIngestOutcome protocol now first count reason phase had_error remote_addr bytes_received.

Definition set_recent (recent : gmap string RecentIngestOutcome) (r : IngestRegistry) : IngestRegistry :=
  mk_IngestRegistry (rg_tokens r) (rg_cancelled r) (rg_next_attempt_id r) (rg_sessions r)
    (rg_selected r) (rg_timelines r) (rg_active r) (rg_gates r) recent.

(** What the session's shared counters hold when a disconnect is recorded. *)
Record SessionCounters := mk_SessionCounters { sc_now : Z; sc_remote_addr : option string; sc_bytes : Z }.

Definition note_disconnect (c : SessionCounters) (pipeline_id protocol : string)
    (phase reason : option string) (had_error : bool) (r : IngestRegistry) : IngestRegistry :=
  set_recent
    (<[pipeline_id := build_recent_ingest_outcome (sc_now c) (rg_recent r !! pipeline_id) protocol phase
                        reason had_error (sc_remote_addr c) (sc_bytes c)]> (rg_recent r)) r.

Definition record_ingest_disconnect (c : SessionCounters) (pipeline_id : string)
    (phase reason : option string) (had_error : bool) (r : IngestRegistry) : IngestRegistry :=
  match rg_active r !! pipeline_id with
  | Some ingest => note_disconnect c pipeline_id (ai_protocol ingest) phase reason had_error r
  | None => r
  end.

Definition record_ingest_disconnect_if_current (c : SessionCounters) (pipeline_id input_id : string)
    (attempt : Z) (phase reason : option string) (had_error : bool) (r : IngestRegistry)
  : IngestRegistry * bool :=
  match rg_sessions r !! input_id with
  | None => (r, false)
  | Some ingest =>
      if negb (bool_decide (ai_pipeline_id ingest = pipeline_id)) || negb (ai_attempt_id ingest =? attempt)
      then (r, false)
      else
        match rg_active r !! pipeline_id with
        | Some a =>
            if ai_attempt_id a =? attempt
            then (note_disconnect c pipeline_id (ai_protocol ingest) phase reason had_error r, true)
            else (r, true)
        | None => (r, true)
        end
  end.

(** [recent.entry(pipeline).or_insert_with(..)] for the input that was selected. *)
Definition note_removed (c : SessionCounters) (pipeline_id : string) (removed : option ActiveIngest)
    (r : IngestRegistry) : IngestRegistry :=
  match removed, rg_recent r !! pipeline_id with
  | Some ingest, None =>
      set_recent
        (<[pipeline_id := mk_RecentIngestOutcome (ai_protocol ingest) (sc_now c) (sc_now c) 1 None None
                            false (sc_remote_addr c) (sc_bytes c)]> (rg_recent r)) r
  | _, _ => r
  end.

(** *** Releasing sessions *)

Definition leaving (pipeline_id : string) (release : ActiveIngest -> bool) (e : string * ActiveIngest) : Prop :=
  ai_pipeline_id e.2 = pipeline_id /\ release e.2 = true.

Definition set_sessions (sessions : gmap string ActiveIngest) (r : IngestRegistry) : IngestRegistry :=
  mk_IngestRegistry (rg_tokens r) (rg_cancelled r) (rg_next_attempt_id r) sessions
    (rg_selected r) (rg_timelines r) (rg_active r) (rg_gates r) (rg_recent r).
Definition forget_selected (pipeline_id : string) (r : IngestRegistry) : IngestRegistry :=
  mk_IngestRegistry (rg_tokens r) (rg_cancelled r) (rg_next_attempt_id r) (rg_sessions r)
    (delete pipeline_id (rg_selected r)) (rg_timelines r) (rg_active r) (rg_gates r) (rg_recent r).

(** The tokens of the inputs that left are taken out and cancelled. *)
Definition drop_tokens (inputs : list string) (r : IngestRegistry) : IngestRegistry :=
  mk_IngestRegistry (filter (fun e => e.1 ∉ inputs) (rg_tokens r))
    (rg_cancelled r ∪ list_to_set (omap (fun i => rg_tokens r !! i) inputs)) (rg_next_attempt_id r)
    (rg_sessions r) (rg_selected r) (rg_timelines r) (rg_active r) (rg_gates r) (rg_recent r).

(** The active session of the pipeline is taken out when it is one of them. *)
Definition remove_active (pipeline_id : string) (release : ActiveIngest -> bool) (r : IngestRegistry)
  : IngestRegistry * option ActiveIngest :=
  match rg_active r !! pipeline_id with
  | Some a => if release a then (set_active (delete pipeline_id (rg_active r)) r, Some a) else (r, None)
  | None => (r, None)
  end.

(** ** Interleavings

    Where an operation that holds [selection_lock] is, with its locals. *)
Inductive Point :=
(* try_register_pipeline_input_attempt *)
| RegDemote (n : Registration) (d : DemotedGate)
| RegIdle (n : Registration) (d : DemotedGate)
| RegTimeline (n : Registration) (d : DemotedGate) (attempt : Z)
| RegGate (n : Registration) (d : DemotedGate) (attempt : Z)
| RegInsert (n : Registration) (d : DemotedGate) (attempt gate : Z)
(* select_pipeline_input *)
| SelBegin (p i : string)
| SelSame (p i : string)
| SelIdle (p i : string) (a : Z)
| SelRecord (p i : string)
| SelFind (p i : string)
| SelActivate (p : string) (x : ActiveIngest)
| SelClear (p : string)
(* release_ingest_sessions; the last two also unregister_ingest_if_current *)
| RelSessions (c : SessionCounters) (p : string) (release : ActiveIngest -> bool) (forget : bool)
| RelTokens (c : SessionCounters) (p : string) (release : ActiveIngest -> bool) (forget : bool) (inputs : list string)
| RelActive (c : SessionCounters) (p : string) (release : ActiveIngest -> bool) (forget : bool)
| RelSelection (c : SessionCounters) (p : string) (forget : bool) (removed : option ActiveIngest)
| RelRecent (c : SessionCounters) (p : string) (removed : option ActiveIngest)
(* unregister_ingest_if_current *)
| UnSessions (c : SessionCounters) (p i : string) (attempt : Z).

(** The calls that take the lock; [None]: a registration refused. *)
Definition register_start (n : Registration) (r : IngestRegistry) : option Point :=
  match register_begin n r with Some (n, d) => Some (RegDemote n d) | None => None end.
Definition select_pipeline_input (pipeline_id input_id : string) : Point := SelBegin pipeline_id input_id.
Definition release_ingest_sessions (c : SessionCounters) (pipeline_id : string)
    (release : ActiveIngest -> bool) (forget_selection : bool) : Point :=
  RelSessions c pipeline_id release forget_selection.
Definition unregister_ingest (c : SessionCounters) (pipeline_id : string) : Point :=
  release_ingest_sessions c pipeline_id (fun _ => true) true.
Definition unregister_file_ingest (c : SessionCounters) (pipeline_id : string) : Point :=
  release_ingest_sessions c pipeline_id (fun i => bool_decide (ai_protocol i = "file"%string)) false.
Definition unregister_ingest_if_current (c : SessionCounters) (pipeline_id input_id : string) (attempt : Z) : Point :=
  UnSessions c pipeline_id input_id attempt.

(** The sections of a registration. *)
Definition resume_register (pt : Point) (r : IngestRegistry) : option (IngestRegistry * option Point) :=
  match pt with
  | RegDemote n d => Some (register_demote d r, Some (RegIdle n d))
  | RegIdle n d =>
      if demoted_idle d r then Some (register_number r, Some (RegTimeline n d (rg_next_attempt_id r))) else None
  | RegTimeline n d attempt => Some (register_timeline (rn_pipeline_id n) r, Some (RegGate n d attempt))
  | RegGate n d attempt => Some (r, Some (RegInsert n d attempt (register_gate n r)))
  | RegInsert n d attempt gate => Some (register_insert n attempt gate r, None)
  | _ => None
  end.

(** The sections of a selection. *)
Definition resume_select (pt : Point) (r : IngestRegistry) : option (IngestRegistry * option Point) :=
  match pt with
  | SelBegin p i =>
      Some match rg_active r !! p with
           | Some previous =>
               if bool_decide (ai_input_id previous = i) then (r, Some (SelSame p i))
               else (gate_update demote (ai_attempt_id previous) r, Some (SelIdle p i (ai_attempt_id previous)))
           | None => (r, Some (SelRecord p i))
           end
  | SelSame p i => Some (select_input p i r, None)
  | SelIdle p i a => if gate_idle a r then Some (r, Some (SelRecord p i)) else None
  | SelRecord p i => Some (select_input p i r, Some (SelFind p i))
  | SelFind p i =>
      Some match replacement_of p i r with
           | Some x => (gate_update arm_for_promotion (ai_attempt_id x) r, Some (SelActivate p x))
           | None => (r, Some (SelClear p))
           end
  | SelActivate p x => Some (set_active (<[p := x]> (rg_active r)) r, None)
  | SelClear p => Some (set_active (delete p (rg_active r)) r, None)
  | _ => None
  end.

(** The sections of a release. *)
Definition resume_release (pt : Point) (r : IngestRegistry) : option (IngestRegistry * option Point) :=
  match pt with
  | RelSessions c p release forget =>
      Some (set_sessions (filter (fun e => ~ leaving p release e) (rg_sessions r)) r,
            Some (RelTokens c p release forget (map_to_list (filter (leaving p release) (rg_sessions r))).*1))
  | RelTokens c p release forget inputs => Some (drop_tokens inputs r, Some (RelActive c p release forget))
  | RelActive c p release forget =>
      let '(r, removed) := remove_active p release r in Some (r, Some (RelSelection c p forget removed))
  | RelSelection c p forget removed =>
      Some (if forget then forget_selected p r else r, Some (RelRecent c p removed))
  | RelRecent c p removed => Some (note_removed c p removed r, None)
  | UnSessions c p i attempt =>
      match rg_sessions r !! i with
      | Some s =>
          if bool_decide (ai_pipeline_id s = p) && (ai_attempt_id s =? attempt)
          then Some (set_sessions (delete i (rg_sessions r)) r,
                     Some (RelTokens c p (fun a => ai_attempt_id a =? attempt) false [i]))
          else Some (r, None)
      | None => Some (r, None)
      end
  | _ => None
  end.

(** To the next [await], or the end: [None] while it waits for a gate. *)
Definition resume (pt : Point) (r : IngestRegistry) : option (IngestRegistry * option Point) :=
  match pt with
  | RegDemote _ _ | RegIdle _ _ | RegTimeline _ _ _ | RegGate _ _ _ | RegInsert _ _ _ _ => resume_register pt r
  | SelBegin _ _ | SelSame _ _ | SelIdle _ _ _ | SelRecord _ _ | SelFind _ _ | SelActivate _ _ | SelClear _ =>
      resume_select pt r
  | _ => resume_release pt r
  end.

(** The future dropped at a point.  There is no [await] between reading the state of a gate and
    demoting it. *)
Definition dropped (pt : Point) (r : IngestRegistry) : option IngestRegistry :=
  match pt with
  | RegDemote _ _ => None
  | RegIdle _ d | RegTimeline _ d _ | RegGate _ d _ | RegInsert _ d _ _ => Some (register_dropped d r)
  | _ => Some r
  end.

(** The session a selection has armed and is about to make active. *)
Definition armed (l : option Point) : option ActiveIngest :=
  match l with Some (SelActivate _ x) => Some x | _ => None end.
Definition armed_attempt (l : option Point) : gset Z :=
  match armed l with Some x => {[ai_attempt_id x]} | None => ∅ end.

(** The registry with the operation that holds the lock, if any.  [en_stranded] is a record of
    the run: the attempts whose gate was armed by a selection that was dropped before it made
    them active, and that none has made active since. *)
Record Engine := mk_Engine { en_lock : option Point; en_reg : IngestRegistry; en_stranded : gset Z }.

(** Forwarders enter and leave gates and move the time line at any point, tokens are cancelled
    and outcomes of disconnects are recorded without the lock (the reads and the write of
    [record_ingest_disconnect] and of [record_ingest_disconnect_if_current] are apart, so any
    table may result; see [record_changes_recent]). *)
Inductive engine_step : Engine -> Engine -> Prop :=
| es_enter l r t a b w n activated :
    rg_gates r !! a = Some w -> enter_next b w = Some (n, activated) ->
    engine_step (mk_Engine l r t) (mk_Engine l (set_gates (<[a := n]> (rg_gates r)) r) t)
| es_leave l r t a w :
    rg_gates r !! a = Some w -> STATE_MASK < w ->
    engine_step (mk_Engine l r t) (mk_Engine l (set_gates (<[a := drop_lease w]> (rg_gates r)) r) t)
| es_timeline l r t p dts : engine_step (mk_Engine l r t) (mk_Engine l (set_timeline p dts r) t)
| es_cancel l r t input : engine_step (mk_Engine l r t) (mk_Engine l (cancel_pipeline_input input r).1 t)
| es_record l r t recent : engine_step (mk_Engine l r t) (mk_Engine l (set_recent recent r) t)
| es_register r t n pt : register_start n r = Some pt -> engine_step (mk_Engine None r t) (mk_Engine (Some pt) r t)
| es_select r t p i : engine_step (mk_Engine None r t) (mk_Engine (Some (select_pipeline_input p i)) r t)
| es_release r t c p release forget :
    engine_step (mk_Engine None r t) (mk_Engine (Some (release_ingest_sessions c p release forget)) r t)
| es_unregister r t c p i a :
    engine_step (mk_Engine None r t) (mk_Engine (Some (unregister_ingest_if_current c p i a)) r t)
| es_resume pt r t r' l :
    resume pt r = Some (r', l) -> engine_step (mk_Engine (Some pt) r t) (mk_Engine l r' (t ∖ armed_attempt (Some pt)))
| es_dropped pt r t r' :
    dropped pt r = Some r' -> engine_step (mk_Engine (Some pt) r t) (mk_Engine None r' (t ∪ armed_attempt (Some pt))).

Definition engine_new : Engine := mk_Engine None registry_new ∅.

(** The operation that holds the lock run until it ends or waits. *)
Fixpoint drive (fuel : nat) (e : Engine) : Engine :=
  match fuel, e with
  | S fuel, mk_Engine (Some pt) r t =>
      match resume pt r with
      | Some (r', l) => drive fuel (mk_Engine l r' (t ∖ armed_attempt (Some pt)))
      | None => e
      end
  | _, _ => e
  end.

(** ** The invariant *)

(** A gate word: its state and four times the leases. *)
Definition word_ok (w : Z) : Prop := exists h st, 0 <= h /\ 0 <= st <= 2 /\ w = 4 * h + st /\ w < 2 ^ 64.
(** A gate that is in standby with no lease: nothing goes through it. *)
Definition gate_closed (r : IngestRegistry) (a : Z) : Prop := rg_gates r !! a = Some STANDBY.
Definition gate_standby (r : IngestRegistry) (a : Z) : Prop := gate_state (default 0 (rg_gates r !! a)) = FStandby.

Record registry_ok (r : IngestRegistry) : Prop := {
  rk_gates : map_Forall (fun a w => a < rg_next_attempt_id r /\ word_ok w) (rg_gates r);
  rk_sessions : map_Forall (fun i s => ai_input_id s = i /\ is_Some (rg_gates r !! ai_attempt_id s)) (rg_sessions r);
  rk_active : map_Forall (fun p s => ai_pipeline_id s = p /\ is_Some (rg_gates r !! ai_attempt_id s)) (rg_active r);
  rk_same : forall i s p a, rg_sessions r !! i = Some s -> rg_active r !! p = Some a ->
            ai_attempt_id s = ai_attempt_id a -> s = a;
  rk_distinct : forall i j s t, rg_sessions r !! i = Some s -> rg_sessions r !! j = Some t ->
                ai_attempt_id s = ai_attempt_id t -> i = j;
}.

(** The sessions whose gate may be open: the active one of the pipeline, the one the running
    selection has armed, and those that a dropped selection left armed. *)
Definition may_write (l : option Point) (t : gset Z) (r : IngestRegistry) (s : ActiveIngest) : Prop :=
  rg_active r !! ai_pipeline_id s = Some s \/ armed l = Some s \/ ai_attempt_id s ∈ t.
Definition writers_ok (l : option Point) (t : gset Z) (r : IngestRegistry) : Prop :=
  forall i s, rg_sessions r !! i = Some s -> gate_closed r (ai_attempt_id s) \/ may_write l t r s.

(** The gate of the active session that [n] replaces is closed. *)
Definition replaced_closed (p : string) (keep : ActiveIngest -> Prop) (r : IngestRegistry) : Prop :=
  forall s, rg_active r !! p = Some s -> keep s \/ gate_closed r (ai_attempt_id s).
(** A demoted gate is that of the active session, so a drop may restore it. *)
Definition demotes (n : Registration) (d : DemotedGate) (r : IngestRegistry) : Prop :=
  match d with
  | Some (a, _) => exists s, rg_active r !! rn_pipeline_id n = Some s /\ ai_attempt_id s = a
  | None => rn_selected n = true -> forall s, rg_active r !! rn_pipeline_id n = Some s -> ai_input_id s = rn_input_id n
  end.
Definition numbered (n : Registration) (d : DemotedGate) (attempt : Z) (r : IngestRegistry) : Prop :=
  demotes n d r /\ attempt < rg_next_attempt_id r /\ rg_gates r !! attempt = None /\
  (rn_selected n = true -> replaced_closed (rn_pipeline_id n) (fun s => ai_input_id s = rn_input_id n) r).
Definition all_left (p : string) (release : ActiveIngest -> bool) (r : IngestRegistry) : Prop :=
  forall i s, rg_sessions r !! i = Some s -> ai_pipeline_id s = p -> release s = false.

(** What an operation has established at a point. *)
Definition point_ok (r : IngestRegistry) (pt : Point) : Prop :=
  match pt with
  | RegDemote n d => demotes n d r
  | RegIdle n d => demotes n d r /\ forall a st, d = Some (a, st) -> gate_standby r a
  | RegTimeline n d attempt | RegGate n d attempt => numbered n d attempt r
  | RegInsert n d attempt gate => numbered n d attempt r /\ word_ok gate /\ (rn_selected n = false -> gate = STANDBY)
  | SelIdle p i a => gate_standby r a /\ exists s, rg_active r !! p = Some s /\ ai_attempt_id s = a
  | SelRecord p i | SelFind p i => replaced_closed p (fun _ => False) r
  | SelClear p => replaced_closed p (fun _ => False) r
  | SelActivate p x =>
      rg_sessions r !! ai_input_id x = Some x /\ ai_pipeline_id x = p /\ replaced_closed p (fun s => s = x) r
  | RelTokens c p release _ _ | RelActive c p release _ => all_left p release r
  | SelBegin _ _ | SelSame _ _ | RelSessions _ _ _ _ | RelSelection _ _ _ _ | RelRecent _ _ _ | UnSessions _ _ _ _ => True
  end.

Record engine_ok (e : Engine) : Prop := {
  eo_registry : registry_ok (en_reg e);
  eo_writers : writers_ok (en_lock e) (en_stranded e) (en_reg e);
  eo_lock : forall pt, en_lock e = Some pt -> point_ok (en_reg e) pt;
}.

Lemma word_state_of h st : 0 <= st <= 2 ->
  gate_state (4 * h + st) = (if st =? 0 then FStandby else if st =? 1 then FAwaitingKeyframe else FActive).
Proof.
  intros. unfold gate_state. rewrite word_state by done. unfold STANDBY, AWAITING_KEYFRAME, ACTIVE.
  destruct (Z.eqb_spec st 0); [done|]. destruct (Z.eqb_spec st 1); [done|]. destruct (Z.eqb_spec st 2); [done|lia].
Qed.

Lemma word_ok_set st w : 0 <= st <= 2 -> word_ok w ->
  word_ok (set_next st w) /\ (st = 0 -> gate_state (set_next st w) = FStandby).
Proof.
  intros Hst (h & st' & Hh & Hst' & -> & Hb). rewrite set_next_ok by done. split.
  - exists h, st. split_and!; try done; lia.
  - intros ->. by rewrite word_state_of.
Qed.

Lemma word_ok_enter b w n activated : word_ok w -> enter_next b w = Some (n, activated) ->
  word_ok n /\ gate_state w <> FStandby.
Proof.
  intros (h & st & Hh & Hst & -> & Hb) E. pose proof E as E'.
  apply enter_next_ok in E as [Hs ->]; [|done|done]. split.
  - exists (h + 1), ACTIVE. unfold ACTIVE. split_and!; try lia.
    assert (4 * h + 4 < 2 ^ 64) as Hc; [|lia].
    unfold enter_next in E'. rewrite word_state, word_in_flight in E' by done.
    unfold IN_FLIGHT_ONE, checked_u in E'. destruct (Z.ltb_spec (4 * h + 4) (2 ^ 64)); [done|].
    rewrite andb_false_r in E'. repeat case_match; done.
  - rewrite word_state_of by done. unfold STANDBY in Hs. repeat case_match; try done. lia.
Qed.

Lemma word_ok_leave w : word_ok w -> STATE_MASK < w ->
  word_ok (drop_lease w) /\ gate_state (drop_lease w) = gate_state w.
Proof.
  intros (h & st & Hh & Hst & -> & Hb) Hm. unfold STATE_MASK in Hm. unfold drop_lease, IN_FLIGHT_ONE.
  rewrite wrapu_id by (unfold in_u; lia). replace (4 * h + st - 4) with (4 * (h - 1) + st) by lia. split.
  - exists (h - 1), st. split_and!; try done; lia.
  - by rewrite !word_state_of.
Qed.

Lemma idle_closed r a : registry_ok r -> is_Some (rg_gates r !! a) -> gate_standby r a -> gate_idle a r = true ->
  gate_closed r a.
Proof.
  intros Hok [w Hw] Hs Hi%Z.leb_le. unfold gate_closed, gate_standby in *. rewrite Hw in Hs, Hi |- *. cbn in *. f_equal.
  destruct (rk_gates _ Hok _ _ Hw) as (_ & h & st & Hh & Hst & -> & _). rewrite word_state_of in Hs by done.
  unfold STATE_MASK, STANDBY in *. destruct (Z.eqb_spec st 0); [lia|]. by destruct (st =? 1).
Qed.

Lemma closed_standby r a : gate_closed r a -> gate_standby r a.
Proof. unfold gate_closed, gate_standby. by intros ->. Qed.

(** *** What the steps may do to gates *)

(** Gates change under forwarders: nothing is opened that was closed, and standby stays. *)
Record gates_move (r r' : IngestRegistry) : Prop := {
  gm_fields : rg_sessions r' = rg_sessions r /\ rg_active r' = rg_active r
              /\ rg_next_attempt_id r' = rg_next_attempt_id r;
  gm_ok : map_Forall (fun a w => a < rg_next_attempt_id r /\ word_ok w) (rg_gates r');
  gm_dom : forall a, is_Some (rg_gates r' !! a) <-> is_Some (rg_gates r !! a);
  gm_closed : forall a, gate_closed r a -> gate_closed r' a;
  gm_standby : forall a, gate_standby r a -> gate_standby r' a;
}.

Lemma gates_move_registry r r' : gates_move r r' -> registry_ok r -> registry_ok r'.
Proof.
  intros [(E1 & E2 & E3) Hg Hd _ _] []. split; rewrite ?E1, ?E2, ?E3; try done.
  - intros i s Hi. destruct (rk_sessions0 i s Hi). split; [done|by apply Hd].
  - intros p s Hi. destruct (rk_active0 p s Hi). split; [done|by apply Hd].
Qed.

Lemma gates_move_closed r r' p keep : gates_move r r' -> replaced_closed p keep r -> replaced_closed p keep r'.
Proof.
  intros [(_ & E2 & _) _ _ Hc _] H s. rewrite E2. intros Hs. destruct (H s Hs); [by left|right; by apply Hc].
Qed.

Lemma gates_move_point r r' pt : gates_move r r' -> point_ok r pt -> point_ok r' pt.
Proof.
  intros Hm. pose proof Hm as [(E1 & E2 & E3) _ Hd Hc Hs].
  assert (forall n d, demotes n d r -> demotes n d r') as Hdem.
  { intros n [[a st]|]; unfold demotes; by rewrite E2. }
  assert (forall n d a, numbered n d a r -> numbered n d a r') as Hnum.
  { intros n d a (? & ? & Hn & Hcl). unfold numbered. rewrite E3. split_and!; eauto using gates_move_closed.
    destruct (rg_gates r' !! a) eqn:E; [|done]. exfalso.
    assert (is_Some (rg_gates r !! a)) as [? ?] by (apply Hd; by eexists). congruence. }
  destruct pt; cbn; unfold all_left; rewrite ?E1, ?E2; try naive_solver eauto using gates_move_closed.
Qed.

Lemma gates_move_writers r r' l t : gates_move r r' -> writers_ok l t r -> writers_ok l t r'.
Proof.
  intros [(E1 & E2 & _) _ _ Hc _] H i s. rewrite E1. intros Hi. unfold may_write. rewrite E2.
  destruct (H i s Hi) as [?|?]; [left; by apply Hc|by right].
Qed.

Lemma gates_move_ok l r r' t : gates_move r r' -> engine_ok (mk_Engine l r t) -> engine_ok (mk_Engine l r' t).
Proof.
  intros Hm [H1 H2 H3]. cbn in *. split; cbn; eauto using gates_move_registry, gates_move_writers, gates_move_point.
Qed.

(** One word replaced by another. *)
Lemma gates_move_word r a w n :
  registry_ok r -> rg_gates r !! a = Some w -> word_ok n -> w <> STANDBY ->
  (gate_state w = FStandby -> gate_state n = FStandby) ->
  gates_move r (set_gates (<[a := n]> (rg_gates r)) r).
Proof.
  intros Hr Hw Hn Hne Hst. split; cbn; try done.
  - apply map_Forall_insert_2; [split; [by apply (rk_gates _ Hr _ _ Hw)|done]|apply Hr].
  - intros b. rewrite lookup_insert. case_decide as E; [|done]. subst. split; intros _; by eexists.
  - intros b Hb. unfold gate_closed in *. cbn. rewrite lookup_insert_ne; [done|]. intros ->. congruence.
  - intros b Hb. unfold gate_standby in *. cbn. rewrite lookup_insert. case_decide as E; [|done]. subst.
    rewrite Hw in Hb. by apply Hst.
Qed.

(** Fields that the invariant does not look at. *)
Lemma gates_move_same r r' :
  registry_ok r -> rg_gates r' = rg_gates r -> rg_next_attempt_id r' = rg_next_attempt_id r ->
  rg_sessions r' = rg_sessions r -> rg_active r' = rg_active r -> gates_move r r'.
Proof.
  intros [Hg] E1 E2 E3 E4. split; unfold gate_closed, gate_standby; rewrite ?E1; done.
Qed.

(** *** Gates set by an operation *)

Lemma gate_set_registry st a r : 0 <= st <= 2 -> registry_ok r -> registry_ok (gate_update (set_next st) a r).
Proof.
  intros Hst []. 
  assert (forall b, is_Some (rg_gates r !! b) -> is_Some (alter (set_next st) a (rg_gates r) !! b)) as Hdom.
  { intros b [w Hw]. destruct (decide (a = b)) as [<-|]; [rewrite lookup_alter_eq, Hw; by eexists|].
    rewrite lookup_alter_ne by done. by eexists. }
  split; cbn; try done.
  - intros b w. destruct (decide (a = b)) as [<-|]; [|rewrite lookup_alter_ne by done; apply rk_gates0].
    rewrite lookup_alter_eq. intros (w0 & Hw0 & ->)%fmap_Some. destruct (rk_gates0 _ _ Hw0). split; [done|].
    by apply word_ok_set.
  - intros i s Hi. destruct (rk_sessions0 i s Hi). auto.
  - intros p s Hi. destruct (rk_active0 p s Hi). auto.
Qed.

Lemma gate_set_closed f a b r : a <> b -> gate_closed r b -> gate_closed (gate_update f a r) b.
Proof. intros. unfold gate_closed. cbn. by rewrite lookup_alter_ne. Qed.

Lemma gate_set_writers f l l' t a r :
  (forall s, armed l = Some s -> armed l' = Some s) ->
  (forall i s, rg_sessions r !! i = Some s -> ai_attempt_id s = a -> may_write l' t r s) ->
  writers_ok l t r -> writers_ok l' t (gate_update f a r).
Proof.
  intros Hl Ha H i s Hi. cbn in Hi. destruct (decide (ai_attempt_id s = a)) as [E|Hne]; [right; by eapply Ha|].
  destruct (H i s Hi) as [Hc|[?|[?|?]]]; [left; by apply gate_set_closed|right..]; unfold may_write; cbn; auto.
Qed.

(** The session that owns the gate of an active one is that one. *)
Lemma owner_active r l t p a i s :
  registry_ok r -> rg_active r !! p = Some a -> rg_sessions r !! i = Some s ->
  ai_attempt_id s = ai_attempt_id a -> may_write l t r s.
Proof.
  intros [] Hp Hi E. assert (s = a) as -> by by eapply rk_same0. left.
  destruct (rk_active0 _ _ Hp) as [-> _]. done.
Qed.

(** Demoting an active session. *)
Lemma demoted_standby r p a : registry_ok r -> rg_active r !! p = Some a ->
  gate_standby (gate_update demote (ai_attempt_id a) r) (ai_attempt_id a).
Proof.
  intros H Hp. destruct (rk_active _ H _ _ Hp) as [_ [w Hw]]. unfold gate_standby. cbn.
  rewrite lookup_alter_eq, Hw. cbn. apply word_ok_set; [done| |done]. by apply (rk_gates _ H _ _ Hw).
Qed.

Lemma set_active_gate r t p a st :
  registry_ok r -> writers_ok None t r -> rg_active r !! p = Some a -> 0 <= st <= 2 ->
  registry_ok (gate_update (set_next st) (ai_attempt_id a) r) /\
  writers_ok None t (gate_update (set_next st) (ai_attempt_id a) r).
Proof.
  intros Hr Hw Hp Hst. split; [by apply gate_set_registry|].
  eapply gate_set_writers; [done| |exact Hw]. intros i s Hi E. by eapply owner_active.
Qed.

Lemma unarmed_ok l r t : armed l = None -> registry_ok r -> writers_ok None t r ->
  (forall pt, l = Some pt -> point_ok r pt) -> engine_ok (mk_Engine l r t).
Proof.
  intros Hl Hr Hw Hp. split; try done. intros i s Hi. unfold may_write.
  destruct (Hw i s Hi) as [?|[?|[[=]|?]]]; auto.
Qed.

(** *** Registration *)

Lemma register_start_ok n r pt t :
  engine_ok (mk_Engine None r t) -> register_start n r = Some pt -> engine_ok (mk_Engine (Some pt) r t).
Proof.
  intros [Hr Hw _]. unfold register_start, register_begin.
  destruct (match rg_tokens r !! _ with Some _ => _ | None => _ end); [done|].
  intros [= <-]. apply unarmed_ok; try done. intros _ [= <-]. cbn.
  set (selected := match rg_selected r !! _ with Some _ => _ | None => _ end).
  destruct selected; [|done]. destruct (rg_active r !! rn_pipeline_id n) as [prev|] eqn:Ep.
  - case_bool_decide; [|by exists prev]. cbn. intros _ s Hs. congruence.
  - cbn. intros _ s Hs. congruence.
Qed.

Lemma register_demote_ok n d r t :
  registry_ok r -> writers_ok None t r -> demotes n d r ->
  engine_ok (mk_Engine (Some (RegIdle n d)) (register_demote d r) t).
Proof.
  intros Hr Hw Hd. destruct d as [[a st]|]; cbn.
  - pose proof Hd as (s & Hs & <-).
    destruct (set_active_gate _ _ _ _ STANDBY Hr Hw Hs) as [Hr' Hw']; [unfold STANDBY; lia|].
    apply unarmed_ok; try done. intros _ [= <-]. split; [by exists s|]. intros a st' [= <- <-]. by eapply demoted_standby.
  - apply unarmed_ok; try done. intros _ [= <-]. by split.
Qed.

Lemma register_number_ok n d r t :
  registry_ok r -> writers_ok None t r -> point_ok r (RegIdle n d) -> demoted_idle d r = true ->
  engine_ok (mk_Engine (Some (RegTimeline n d (rg_next_attempt_id r))) (register_number r) t).
Proof.
  intros Hr Hw [Hd Hs] Hi. pose proof Hr as [Hg]. apply unarmed_ok; try done.
  - split; cbn; try done. intros a w Ha. destruct (Hg a w Ha). split; [lia|done].
  - intros _ [= <-]. split_and!; cbn; [done|lia| |].
    + destruct (rg_gates r !! rg_next_attempt_id r) eqn:E; [|done]. apply Hg in E. lia.
    + intros Hsel s Ha. destruct d as [[a st]|]; [|left; by apply Hd].
      right. destruct Hd as (s' & Hs' & <-). cbn in Ha. rewrite Hs' in Ha. injection Ha as ->.
      apply (idle_closed r); [done|by apply (rk_active _ Hr _ _ Hs')|by eapply Hs|done].
Qed.

Lemma register_gate_ok n r : word_ok (register_gate n r) /\ (rn_selected n = false -> register_gate n r = STANDBY).
Proof.
  unfold register_gate. split; [|by intros ->]. destruct (rn_selected n); cbn [andb]; [destruct (_ =? _)|].
  - exists 0, 2. unfold ACTIVE. lia.
  - exists 0, 1. change (arm_for_promotion STANDBY) with 1. lia.
  - exists 0, 0. unfold STANDBY. lia.
Qed.

(** A registry with a session that is new. *)
Lemma register_insert_registry n attempt gate r :
  registry_ok r -> attempt < rg_next_attempt_id r -> rg_gates r !! attempt = None -> word_ok gate ->
  registry_ok (register_insert n attempt gate r).
Proof.
  intros [Hg Hs Ha Hsame Hd] Hlt Hn Hgate. unfold register_insert. set (x := mk_ActiveIngest _ _ _ _ _).
  assert (forall s, is_Some (rg_gates r !! ai_attempt_id s) -> attempt <> ai_attempt_id s) as Hnew.
  { intros s [w Hw] E. congruence. }
  assert (forall s, is_Some (rg_gates r !! ai_attempt_id s) -> is_Some (<[attempt := gate]> (rg_gates r) !! ai_attempt_id s)) as Hkeep.
  { intros s H. rewrite lookup_insert_ne; [done|by apply Hnew]. }
  assert (forall p a, (if rn_selected n then <[rn_pipeline_id n := x]> (rg_active r) else rg_active r) !! p = Some a ->
    (p = rn_pipeline_id n /\ a = x) \/ rg_active r !! p = Some a) as Hact.
  { intros p a. destruct (rn_selected n); [|by right]. intros [[<- <-]|[_ ?]]%lookup_insert_Some; auto. }
  split; cbn.
  - apply map_Forall_insert_2; done.
  - apply map_Forall_insert_2; [split; [done|rewrite lookup_insert_eq; by eexists]|].
    intros i s Hi. destruct (Hs _ _ Hi). auto.
  - intros p a [[-> ->]|Hp]%Hact; [split; [done|rewrite lookup_insert_eq; by eexists]|].
    destruct (Ha _ _ Hp). auto.
  - intros i s p a Hi Hp E. apply lookup_insert_Some in Hi as [[_ <-]|[_ Hi]]; apply Hact in Hp as [[_ ->]|Hp]; try done.
    + exfalso. destruct (Ha _ _ Hp). by eapply Hnew.
    + exfalso. destruct (Hs _ _ Hi). by eapply Hnew.
    + by eapply Hsame.
  - intros i j s t Hi Hj E.
    apply lookup_insert_Some in Hi as [[<- <-]|[_ Hi]], Hj as [[<- <-]|[_ Hj]]; try done.
    + exfalso. destruct (Hs _ _ Hj). by eapply Hnew.
    + exfalso. destruct (Hs _ _ Hi). by eapply Hnew.
    + by eapply Hd.
Qed.

Lemma register_insert_ok n d attempt gate r t :
  registry_ok r -> writers_ok None t r -> point_ok r (RegInsert n d attempt gate) ->
  engine_ok (mk_Engine None (register_insert n attempt gate r) t).
Proof.
  intros Hr Hw ((_ & Hlt & Hn & Hcl) & Hgate & Hstandby). apply unarmed_ok; try done.
  { by apply register_insert_registry. }
  intros i s Hi. unfold gate_closed, may_write. cbn in *. apply lookup_insert_Some in Hi as [[<- <-]|[Hne Hi]].
  - cbn. destruct (rn_selected n) eqn:Es; [right; left; by rewrite lookup_insert_eq|].
    left. rewrite lookup_insert_eq. f_equal. by apply Hstandby.
  - destruct (rk_sessions _ Hr _ _ Hi) as [Hin [w Hgs]].
    assert (attempt <> ai_attempt_id s) as Hna by (intros ->; congruence).
    rewrite lookup_insert_ne by done. destruct (Hw i s Hi) as [?|[Hact|[?|?]]]; [by left| |done|auto].
    destruct (rn_selected n) eqn:Es; [|auto].
    destruct (decide (ai_pipeline_id s = rn_pipeline_id n)) as [Ep|Hnp]; [|rewrite lookup_insert_ne by done; auto].
    left. rewrite Ep in Hact. destruct (Hcl eq_refl s Hact) as [?|?]; [congruence|done].
Qed.

Lemma resume_register_ok pt r t r' l :
  registry_ok r -> writers_ok None t r -> point_ok r pt -> resume_register pt r = Some (r', l) ->
  engine_ok (mk_Engine l r' t).
Proof.
  intros Hr Hw Hp. destruct pt; cbn [resume_register]; try done.
  - intros [= <- <-]. by apply register_demote_ok.
  - destruct (demoted_idle d r) eqn:Hi; [|done]. intros [= <- <-]. by apply register_number_ok.
  - intros [= <- <-]. unfold register_timeline.
    destruct (rg_timelines r !! _); [|eapply (gates_move_ok _ r); [by apply gates_move_same|]];
      (apply unarmed_ok; [done..|intros _ [= <-]; exact Hp]).
  - intros [= <- <-]. apply unarmed_ok; try done. intros _ [= <-]. split; [done|]. apply register_gate_ok.
  - intros [= <- <-]. by eapply register_insert_ok.
Qed.

(** *** Selection *)

Lemma set_active_registry r active :
  registry_ok r ->
  map_Forall (fun p a => rg_active r !! p = Some a \/ ai_pipeline_id a = p /\ rg_sessions r !! ai_input_id a = Some a) active ->
  registry_ok (set_active active r).
Proof.
  intros [Hg Hs Ha Hsame Hd] Hact. split; cbn; try done.
  - intros p a Hp. destruct (Hact p a Hp) as [?|[? Hx]]; [by apply Ha|]. split; [done|]. by apply (Hs _ _ Hx).
  - intros i s p a Hi Hp E. destruct (Hact p a Hp) as [?|[_ Hx]]; [by eapply Hsame|].
    pose proof (Hd _ _ _ _ Hi Hx E) as ->. congruence.
Qed.

Lemma select_find_ok p i r t r' l :
  registry_ok r -> writers_ok None t r -> replaced_closed p (fun _ => False) r ->
  resume_select (SelFind p i) r = Some (r', l) -> engine_ok (mk_Engine l r' t).
Proof.
  intros Hr Hw Hc. cbn. unfold replacement_of.
  assert (engine_ok (mk_Engine (Some (SelClear p)) r t)) as Hclear by (apply unarmed_ok; try done; by intros _ [= <-]).
  destruct (rg_sessions r !! i) as [x|] eqn:Ei; [|by intros [= <- <-]].
  case_bool_decide as Ep; intros [= <- <-]; [|done].
  destruct (rk_sessions _ Hr _ _ Ei) as [Hin _]. split; cbn.
  - by apply gate_set_registry; [unfold AWAITING_KEYFRAME; lia|].
  - eapply gate_set_writers; [|intros j s Hj E; right; left|exact Hw]; [done|].
    cbn. pose proof (rk_distinct _ Hr _ _ _ _ Ei Hj (eq_sym E)) as ->. congruence.
  - intros _ [= <-]. split_and!; [by rewrite Hin|done|].
    intros s Hs. cbn in Hs. destruct (decide (ai_attempt_id x = ai_attempt_id s)) as [E|Hne].
    + left. symmetry. by eapply (rk_same _ Hr).
    + right. apply gate_set_closed; [done|]. by destruct (Hc s Hs).
Qed.

Lemma select_activate_ok p x r t :
  registry_ok r -> writers_ok (Some (SelActivate p x)) t r -> point_ok r (SelActivate p x) ->
  engine_ok (mk_Engine None (set_active (<[p := x]> (rg_active r)) r) (t ∖ {[ai_attempt_id x]})).
Proof.
  intros Hr Hw (Hx & Hp & Hc). apply unarmed_ok; try done.
  - apply set_active_registry; [done|]. intros q a [[<- <-]|[_ ?]]%lookup_insert_Some; auto.
  - intros j s Hj. cbn in Hj. unfold may_write, gate_closed. cbn.
    destruct (decide (s = x)) as [->|Hne]; [right; left; by rewrite Hp, lookup_insert_eq|].
    assert (ai_attempt_id s <> ai_attempt_id x) as Hna.
    { intros E. pose proof (rk_distinct _ Hr _ _ _ _ Hj Hx E) as ->. congruence. }
    destruct (Hw j s Hj) as [?|[Hact|[Harm|?]]]; [by left| |cbn in Harm; congruence|right; right; right; set_solver].
    destruct (decide (ai_pipeline_id s = p)) as [E|]; [|right; left; by rewrite lookup_insert_ne].
    left. rewrite E in Hact. by destruct (Hc s Hact).
Qed.

Lemma select_clear_ok p r t :
  registry_ok r -> writers_ok None t r -> replaced_closed p (fun _ => False) r ->
  engine_ok (mk_Engine None (set_active (delete p (rg_active r)) r) t).
Proof.
  intros Hr Hw Hc. apply unarmed_ok; try done.
  - apply set_active_registry; [done|]. intros q a [_ ?]%lookup_delete_Some; auto.
  - intros j s Hj. cbn in Hj. unfold may_write, gate_closed. cbn.
    destruct (Hw j s Hj) as [?|[Hact|[?|?]]]; [by left| |done|auto].
    destruct (decide (ai_pipeline_id s = p)) as [E|]; [|right; left; by rewrite lookup_delete_ne].
    left. rewrite E in Hact. by destruct (Hc s Hact).
Qed.

Lemma resume_select_ok pt r t r' l :
  registry_ok r -> writers_ok (Some pt) t r -> point_ok r pt -> resume_select pt r = Some (r', l) ->
  engine_ok (mk_Engine l r' (t ∖ armed_attempt (Some pt))).
Proof.
  intros Hr Hw Hp. unfold armed_attempt. destruct pt; try done; cbn [armed]; rewrite ?difference_empty_L.
  - cbn. destruct (rg_active r !! p) as [prev|] eqn:Ep.
    + case_bool_decide; intros [= <- <-]; [apply unarmed_ok; try done; by intros _ [= <-]|].
      destruct (set_active_gate _ _ _ _ STANDBY Hr Hw Ep) as [Hr' Hw']; [unfold STANDBY; lia|].
      apply unarmed_ok; try done. intros _ [= <-]. split; [by eapply demoted_standby|by exists prev].
    + intros [= <- <-]. apply unarmed_ok; try done. intros _ [= <-] s Hs. congruence.
  - intros [= <- <-]. eapply (gates_move_ok _ r); [by apply gates_move_same|]. by apply unarmed_ok.
  - cbn. destruct (gate_idle a r) eqn:Hi; [|done]. intros [= <- <-]. apply unarmed_ok; try done.
    intros _ [= <-] s Hs. destruct Hp as (Hst & s' & Hs' & <-). right. rewrite Hs in Hs'. injection Hs' as <-.
    by apply idle_closed; [|apply (rk_active _ Hr _ _ Hs)|..].
  - intros [= <- <-]. eapply (gates_move_ok _ r); [by apply gates_move_same|].
    apply unarmed_ok; try done. by intros _ [= <-].
  - by apply select_find_ok.
  - intros [= <- <-]. by apply select_activate_ok.
  - intros [= <- <-]. by apply select_clear_ok.
Qed.

(** *** Release *)

(** Sessions and active inputs that leave. *)
Lemma leaving_registry r r' :
  registry_ok r -> rg_gates r' = rg_gates r -> rg_next_attempt_id r' = rg_next_attempt_id r ->
  rg_sessions r' ⊆ rg_sessions r -> rg_active r' ⊆ rg_active r -> registry_ok r'.
Proof.
  intros [] E1 E2 Hs Ha. split; rewrite ?E1, ?E2; try done.
  - intros i s Hi. apply rk_sessions0. by eapply lookup_weaken.
  - intros p s Hi. apply rk_active0. by eapply lookup_weaken.
  - intros i s p a Hi Hp. apply (rk_same0 i s p a); by eapply lookup_weaken.
  - intros i j s t Hi Hj. apply (rk_distinct0 i j s t); by eapply lookup_weaken.
Qed.

Lemma set_sessions_ok pt sessions r t :
  armed (Some pt) = None -> registry_ok r -> writers_ok None t r -> sessions ⊆ rg_sessions r ->
  point_ok (set_sessions sessions r) pt -> engine_ok (mk_Engine (Some pt) (set_sessions sessions r) t).
Proof.
  intros Ha Hr Hw Hs Hp. apply unarmed_ok; [done|by eapply leaving_registry| |by intros _ [= <-]].
  intros i s Hi. apply (Hw i). by eapply lookup_weaken.
Qed.

Lemma remove_active_ok p release r t :
  registry_ok r -> writers_ok None t r -> all_left p release r ->
  registry_ok (remove_active p release r).1 /\ writers_ok None t (remove_active p release r).1.
Proof.
  intros Hr Hw Hl. unfold remove_active. destruct (rg_active r !! p) as [a|] eqn:Ep; [|done].
  destruct (release a) eqn:Ef; [|done]. split.
  - eapply leaving_registry; [exact Hr|done..|]. apply delete_subseteq.
  - intros i s Hi. cbn in Hi. unfold may_write, gate_closed. cbn.
    destruct (Hw i s Hi) as [?|[Hact|?]]; [by left| |by auto]. right. left.
    rewrite lookup_delete_ne; [done|]. intros E. rewrite <- E in Hact. rewrite Ep in Hact. injection Hact as ->.
    rewrite (Hl i s Hi (eq_sym E)) in Ef. done.
Qed.

Lemma note_removed_move c p x r : registry_ok r -> gates_move r (note_removed c p x r).
Proof. intros H. unfold note_removed. repeat case_match; by apply gates_move_same. Qed.

Lemma resume_release_ok pt r t r' l :
  registry_ok r -> writers_ok None t r -> point_ok r pt -> resume_release pt r = Some (r', l) ->
  engine_ok (mk_Engine l r' t).
Proof.
  intros Hr Hw Hp. destruct pt; try done.
  - intros [= <- <-]. apply set_sessions_ok; try done; [apply map_filter_subseteq|].
    intros i s [Hi Hs]%map_lookup_filter_Some E. unfold leaving in Hs. cbn in Hs. destruct (release s); [|done].
    exfalso. by apply Hs.
  - intros [= <- <-]. eapply (gates_move_ok _ r); [by apply gates_move_same|].
    apply unarmed_ok; try done. by intros _ [= <-].
  - cbn. pose proof (remove_active_ok p release r t Hr Hw Hp) as [Hr' Hw'].
    destruct (remove_active p release r) as [r1 removed]. intros [= <- <-].
    apply unarmed_ok; try done. by intros _ [= <-].
  - intros [= <- <-]. destruct forget; [eapply (gates_move_ok _ r); [by apply gates_move_same|]|];
      (apply unarmed_ok; try done; by intros _ [= <-]).
  - intros [= <- <-]. eapply gates_move_ok; [by apply note_removed_move|]. by apply unarmed_ok.
  - cbn. destruct (rg_sessions r !! i) as [s|] eqn:Ei; [|intros [= <- <-]; by apply unarmed_ok].
    destruct (_ && _) eqn:Ec; intros [= <- <-]; [|by apply unarmed_ok].
    apply andb_true_iff in Ec as [_ Ec%Z.eqb_eq].
    apply set_sessions_ok; try done; [apply delete_subseteq|].
    intros j s' Hj _. cbn in Hj. apply lookup_delete_Some in Hj as [Hne Hj]. apply Z.eqb_neq. intros E. apply Hne.
    eapply (rk_distinct _ Hr); [exact Ei|exact Hj|congruence].
Qed.

(** *** Every step *)

Lemma resume_ok pt r t r' l :
  engine_ok (mk_Engine (Some pt) r t) -> resume pt r = Some (r', l) ->
  engine_ok (mk_Engine l r' (t ∖ armed_attempt (Some pt))).
Proof.
  intros [Hr Hw Hp] E. cbn in *. specialize (Hp pt eq_refl).
  destruct pt; cbn [resume] in E;
    solve [unfold armed_attempt; cbn [armed]; rewrite difference_empty_L;
             first [by eapply resume_register_ok|by eapply resume_release_ok]
          |by eapply resume_select_ok].
Qed.

Lemma register_dropped_ok n d r t :
  registry_ok r -> writers_ok None t r -> demotes n d r -> engine_ok (mk_Engine None (register_dropped d r) t).
Proof.
  intros Hr Hw Hd. destruct d as [[a st]|]; [|by apply unarmed_ok]. destruct Hd as (s & Hs & <-).
  destruct st; cbn;
    (edestruct set_active_gate as [Hr' Hw']; [exact Hr|exact Hw|exact Hs| |by apply unarmed_ok]; vm_compute; split; congruence).
Qed.

Lemma dropped_ok pt r t r' :
  engine_ok (mk_Engine (Some pt) r t) -> dropped pt r = Some r' ->
  engine_ok (mk_Engine None r' (t ∪ armed_attempt (Some pt))).
Proof.
  intros [Hr Hw Hp] E. cbn in *. specialize (Hp pt eq_refl).
  destruct (armed (Some pt)) as [x|] eqn:Ha.
  - destruct pt; try done. injection E as <-. injection Ha as ->. apply unarmed_ok; try done.
    intros i s Hi. destruct (Hw i s Hi) as [?|[?|[[= <-]|?]]]; [by left|right..]; unfold may_write, armed_attempt; cbn; [auto|right; right; set_solver..].
  - unfold armed_attempt. rewrite Ha, union_empty_r_L.
    assert (writers_ok None t r) as Hw'.
    { intros i s Hi. destruct (Hw i s Hi) as [?|[?|[?|?]]]; [by left|right; by left|congruence|right; right; by right]. }
    destruct pt; try done; cbn in E; injection E as <-; try (by apply unarmed_ok);
      (eapply (register_dropped_ok n); [done..|]; cbn in Hp; unfold numbered in Hp; tauto).
Qed.

Lemma engine_step_ok e e' : engine_step e e' -> engine_ok e -> engine_ok e'.
Proof.
  intros Hs H. pose proof (eo_registry _ H) as Hr. destruct Hs; cbn in Hr.
  - destruct (rk_gates _ Hr _ _ H0) as [Ha Hw]. destruct (word_ok_enter _ _ _ _ Hw H1) as [Hn Hns].
    eapply gates_move_ok; [|exact H]. eapply gates_move_word; try done. by intros ->.
  - destruct (rk_gates _ Hr _ _ H0) as [Ha Hw]. destruct (word_ok_leave _ Hw H1) as [Hn Hst].
    eapply gates_move_ok; [|exact H]. eapply gates_move_word; try done; [by intros ->|congruence].
  - eapply gates_move_ok; [by apply gates_move_same|exact H].
  - eapply gates_move_ok; [|exact H]. unfold cancel_pipeline_input.
    destruct (rg_tokens r !! input); by apply gates_move_same.
  - eapply gates_move_ok; [by apply gates_move_same|exact H].
  - by eapply register_start_ok.
  - destruct H. apply unarmed_ok; try done. by intros _ [= <-].
  - destruct H. apply unarmed_ok; try done. by intros _ [= <-].
  - destruct H. apply unarmed_ok; try done. by intros _ [= <-].
  - by eapply resume_ok.
  - by eapply dropped_ok.
Qed.

Lemma engine_steps_ok e : rtc engine_step engine_new e -> engine_ok e.
Proof.
  intros H. assert (engine_ok engine_new) as H0.
  { apply unarmed_ok; done. }
  induction H; eauto using engine_step_ok.
Qed.

(** Recording a disconnect changes the table of outcomes only. *)
Lemma record_changes_recent c p i a phase reason err r :
  (exists recent, record_ingest_disconnect c p phase reason err r = set_recent recent r) /\
  (exists recent, (record_ingest_disconnect_if_current c p i a phase reason err r).1 = set_recent recent r).
Proof.
  assert (exists recent, r = set_recent recent r) as Hid by (exists (rg_recent r); by destruct r).
  split; [unfold record_ingest_disconnect|unfold record_ingest_disconnect_if_current]; unfold note_disconnect;
    repeat case_match; cbn; (exact Hid || by eexists).
Qed.

Lemma drive_steps n e : rtc engine_step e (drive n e).
Proof.
  revert e. induction n as [|n IH]; intros [[pt|] r t]; cbn; try reflexivity.
  destruct (resume pt r) as [[r' l]|] eqn:E; [|reflexivity]. eapply rtc_l; [by apply es_resume|apply IH].
Qed.

(** ** Theorems *)

(** The gate of a session admits packets, or counts one that is being pushed. *)
Definition forwarding (r : IngestRegistry) (s : ActiveIngest) : Prop :=
  exists w, rg_gates r !! ai_attempt_id s = Some w /\ w <> STANDBY.

(** C4: Whatever inputs register, reconnect, are selected, cancelled and removed, with forwarders
    at work between any two accesses of an operation and operations dropped where they await:
    of the sessions registered for a pipeline at most one has a gate that admits or holds a
    packet, so two registered inputs never write to one ring at the same time, and that session
    is the active one or the one the running selection is about to make active.  The exception
    is exact: a selection dropped after it armed a session and before it made it active leaves
    that session stranded until it is selected again, and the claim is about the others. *)
Theorem one_input_writes e i j s t :
  rtc engine_step engine_new e ->
  rg_sessions (en_reg e) !! i = Some s -> rg_sessions (en_reg e) !! j = Some t ->
  ai_pipeline_id s = ai_pipeline_id t -> forwarding (en_reg e) s -> forwarding (en_reg e) t ->
  ai_attempt_id s ∉ en_stranded e -> ai_attempt_id t ∉ en_stranded e ->
  i = j /\ (rg_active (en_reg e) !! ai_pipeline_id s = Some s \/ armed (en_lock e) = Some s).
Proof.
  intros Hr Hi Hj Hp (w & Hw & Hne) (w' & Hw' & Hne') Hs Ht. apply engine_steps_ok in Hr as [Hok Hwr Hl].
  assert (forall k x v, rg_sessions (en_reg e) !! k = Some x -> rg_gates (en_reg e) !! ai_attempt_id x = Some v ->
    v <> STANDBY -> ai_attempt_id x ∉ en_stranded e ->
    rg_active (en_reg e) !! ai_pipeline_id x = Some x \/ armed (en_lock e) = Some x) as Hact.
  { intros k x v Hk Hv Hnv Hx. destruct (Hwr _ _ Hk) as [Hc|[?|[?|?]]]; auto; [|done]. unfold gate_closed in Hc. congruence. }
  pose proof (Hact _ _ _ Hi Hw Hne Hs) as H1. pose proof (Hact _ _ _ Hj Hw' Hne' Ht) as H2. split; [|done].
  assert (forall x y v, rg_active (en_reg e) !! ai_pipeline_id x = Some x -> armed (en_lock e) = Some y ->
    rg_gates (en_reg e) !! ai_attempt_id x = Some v -> v <> STANDBY -> ai_pipeline_id x = ai_pipeline_id y -> x = y) as Hboth.
  { intros x y v Hx Hy Hv Hnv E. destruct (en_lock e) as [pt|]; [|done]. destruct pt; try done.
    injection Hy as ->. destruct (Hl _ eq_refl) as (_ & Hpy & Hc). rewrite E, Hpy in Hx.
    destruct (Hc x Hx) as [?|Hcl]; [done|]. unfold gate_closed in Hcl. congruence. }
  assert (s = t) as ->.
  { destruct H1 as [H1|H1], H2 as [H2|H2]; try congruence; [by eapply Hboth|symmetry; by eapply Hboth]. }
  apply (rk_sessions _ Hok) in Hi as [<- _], Hj as [<- _]. done.
Qed.

(** ** Witnesses and limits *)

Definition reg_of (input : string) (selected : bool) : Registration :=
  mk_Registration "p" input input "srt" selected.

(** A registration or a selection that runs to its end. *)
Definition registered (input : string) (e : Engine) : Engine :=
  drive 5 (mk_Engine (register_start (reg_of input true) (en_reg e)) (en_reg e) (en_stranded e)).
Definition selecting (input : string) (e : Engine) : Engine :=
  mk_Engine (Some (select_pipeline_input "p" input)) (en_reg e) (en_stranded e).

Lemma registered_reach input e : en_lock e = None -> rtc engine_step engine_new e -> rtc engine_step engine_new (registered input e).
Proof.
  destruct e as [l r t]. cbn. intros -> H. unfold registered. cbn [en_reg en_stranded].
  destruct (register_start (reg_of input true) r) eqn:E; [|exact H].
  etrans; [exact H|]. eapply rtc_l; [by eapply es_register|apply (drive_steps 5)].
Qed.
Lemma selecting_reach input n e : en_lock e = None -> rtc engine_step engine_new e ->
  rtc engine_step engine_new (drive n (selecting input e)).
Proof.
  destruct e as [l r t]. cbn. intros -> H. etrans; [exact H|].
  eapply rtc_l; [apply es_select|apply (drive_steps n)].
Qed.

(** Dropped where it is. *)
Definition drop_now (e : Engine) : Engine :=
  mk_Engine None (match en_lock e with Some pt => default (en_reg e) (dropped pt (en_reg e)) | None => en_reg e end)
    (en_stranded e ∪ armed_attempt (en_lock e)).
Lemma drop_now_reach e : match en_lock e with Some pt => is_Some (dropped pt (en_reg e)) | None => False end ->
  rtc engine_step engine_new e -> rtc engine_step engine_new (drop_now e).
Proof.
  destruct e as [[pt|] r t]; [|done]. cbn. intros [r' E] H. apply (rtc_r _ (mk_Engine (Some pt) r t)); [done|].
  unfold drop_now. cbn [en_lock en_reg en_stranded]. rewrite E. by apply es_dropped.
Qed.

(** [primary] registers and forwards; [backup] registers and is selected: just before it becomes
    active, and at the end. *)
Definition two_inputs : Engine := registered "backup" (registered "primary" engine_new).
Definition during_switch : Engine := drive 4 (selecting "backup" two_inputs).
Definition after_switch : Engine := drive 5 (selecting "backup" two_inputs).

Lemma two_inputs_reach : rtc engine_step engine_new two_inputs.
Proof. do 2 (apply registered_reach; [vm_compute; reflexivity|]). reflexivity. Qed.
Lemma switch_reach n : rtc engine_step engine_new (drive n (selecting "backup" two_inputs)).
Proof. apply selecting_reach; [vm_compute; reflexivity|apply two_inputs_reach]. Qed.

Definition backup_session : ActiveIngest := mk_ActiveIngest 2 "p" "backup" "backup" "srt".

Lemma one_input_writes_witness :
  (rg_active (en_reg during_switch) !! "p"%string <> Some backup_session /\
   armed (en_lock during_switch) = Some backup_session) /\
  rg_active (en_reg after_switch) !! "p"%string = Some backup_session /\
  map_to_list (rg_gates (en_reg after_switch)) = [(2, AWAITING_KEYFRAME); (1, STANDBY)].
Proof.
  assert (forall e, rg_sessions (en_reg e) !! "backup"%string = Some backup_session ->
    rg_gates (en_reg e) !! 2 = Some AWAITING_KEYFRAME -> en_stranded e = ∅ -> rtc engine_step engine_new e ->
    rg_active (en_reg e) !! "p"%string = Some backup_session \/ armed (en_lock e) = Some backup_session) as H.
  { intros e Hs Hg Ht Hr.
    assert (forwarding (en_reg e) backup_session) as Hf by (exists AWAITING_KEYFRAME; split; [exact Hg|discriminate]).
    assert (ai_attempt_id backup_session ∉ en_stranded e) as Hn by (rewrite Ht; apply not_elem_of_empty).
    exact (proj2 (one_input_writes e _ _ _ _ Hr Hs Hs eq_refl Hf Hf Hn Hn)). }
  split_and!.
  - vm_compute. discriminate.
  - destruct (H during_switch) as [Hd|Hd]; [reflexivity..|apply switch_reach| |exact Hd].
    exfalso. revert Hd. vm_compute. discriminate.
  - destruct (H after_switch) as [Hd|Hd]; [reflexivity..|apply switch_reach|exact Hd|].
    exfalso. revert Hd. vm_compute. discriminate.
  - vm_compute. reflexivity.
Defined.

(** An attempt replaced under its own input id is not demoted: after a cancelled session
    of an input is registered again, the gates of both attempts are open, and the old
    attempt, which is no longer registered, may still write beside the new one. *)
Theorem reconnect_leaves_old_gate_open :
  exists e, rtc engine_step engine_new e
    /\ (exists s, rg_active (en_reg e) !! "p"%string = Some s /\ ai_attempt_id s = 2)
    /\ map_to_list (rg_gates (en_reg e)) = [(2, ACTIVE); (1, ACTIVE)].
Proof.
  set (e := registered "a" engine_new).
  exists (registered "a" (mk_Engine (en_lock e) (cancel_pipeline_input "a" (en_reg e)).1 (en_stranded e))). split; [|split].
  - apply registered_reach; [reflexivity|].
    apply (rtc_r _ e); [by apply registered_reach|]. apply (es_cancel (en_lock e) (en_reg e)).
  - eexists. split; vm_compute; reflexivity.
  - vm_compute. reflexivity.
Qed.

(** A selection dropped while it waits leaves the previous input active and demoted, and
    selecting that input again does not open its gate. *)
Theorem dropped_selection_strands_input :
  exists e s, rtc engine_step engine_new e /\ en_lock e = None
    /\ rg_active (en_reg e) !! "p"%string = Some s /\ gate_closed (en_reg e) (ai_attempt_id s)
    /\ ai_input_id s = "primary"%string
    /\ rg_gates (en_reg (drive 9 (selecting "primary" e))) = rg_gates (en_reg e).
Proof.
  exists (drop_now (drive 1 (selecting "backup" two_inputs))). eexists. split_and!; try (vm_compute; reflexivity).
  apply drop_now_reach; [by eexists|apply switch_reach].
Qed.

(** A selection dropped after it armed the new input strands it: the next selection demotes the
    active input only, and two registered inputs of one pipeline forward. *)
Theorem stranded_input_keeps_forwarding :
  exists e s t, rtc engine_step engine_new e
    /\ rg_sessions (en_reg e) !! "backup"%string = Some s /\ rg_sessions (en_reg e) !! "third"%string = Some t
    /\ rg_active (en_reg e) !! "p"%string = Some t
    /\ forwarding (en_reg e) s /\ forwarding (en_reg e) t /\ en_stranded e = {[ai_attempt_id s]}.
Proof.
  exists (drive 9 (selecting "third" (registered "third" (drop_now during_switch)))). do 2 eexists.
  split_and!; try (vm_compute; reflexivity); try (exists AWAITING_KEYFRAME; split; [vm_compute; reflexivity|discriminate]).
  apply selecting_reach; [vm_compute; reflexivity|]. apply registered_reach; [reflexivity|].
  apply drop_now_reach; [by eexists|apply switch_reach].
Qed.
