(* ===== verification/HlsPlaylist.v ===== *)
(** * HLS playlists

    Models [crates/restream-engine/src/hls_ingest/playlist.rs]: the parser of the playlists
    that encoders push, the choice of a variant and of its audio, and the paths of objects.
    Durations are nanoseconds. *)

From Stdlib Require Import Ascii.
From S2P Require Import Prelude Media Text Diagnosis Alerts UploadPolicy.

Open Scope string_scope.
Open Scope Z_scope.

(** ** Text of the standard library *)

(** [char::is_ascii] folding of [eq_ignore_ascii_case] *)
Definition ascii_lower (c : Ascii.ascii) : Ascii.ascii :=
  let n := Ascii.nat_of_ascii c in
  if ((65 <=? n) && (n <=? 90))%nat then Ascii.ascii_of_nat (n + 32) else c.
Fixpoint map_string (f : Ascii.ascii -> Ascii.ascii) (s : string) : string :=
  match s with EmptyString => EmptyString | String c s' => String (f c) (map_string f s') end.
Definition eq_ignore_ascii_case (a b : string) : bool :=
  bool_decide (map_string ascii_lower a = map_string ascii_lower b).

Fixpoint string_exists (f : Ascii.ascii -> bool) (s : string) : bool :=
  match s with EmptyString => false | String c s' => f c || string_exists f s' end.

(** [str::contains] of a string *)
Fixpoint contains (p s : string) : bool :=
  starts_with s p || match s with EmptyString => false | String _ s' => contains p s' end.

(** [std::str::from_utf8]: the text when the bytes are well-formed UTF-8 (no overlong
    forms, no surrogates, nothing past U+10FFFF). *)
Definition continuation (b : Z) : bool := (128 <=? b) && (b <=? 191).
Fixpoint utf8_valid (fuel : nat) (l : bytes) : bool :=
  match fuel with
  | O => match l with [] => true | _ => false end
  | S fuel' =>
      match l with
      | [] => true
      | a :: r =>
          if a <? 128 then utf8_valid fuel' r
          else if (194 <=? a) && (a <=? 223) then
            match r with b :: r' => continuation b && utf8_valid fuel' r' | _ => false end
          else if (224 <=? a) && (a <=? 239) then
            match r with
            | b :: c :: r' =>
                continuation b && continuation c
                && (if a =? 224 then 160 <=? b else if a =? 237 then b <=? 159 else true)
                && utf8_valid fuel' r'
            | _ => false
            end
          else if (240 <=? a) && (a <=? 244) then
            match r with
            | b :: c :: d :: r' =>
                continuation b && continuation c && continuation d
                && (if a =? 240 then 144 <=? b else if a =? 244 then b <=? 143 else true)
                && utf8_valid fuel' r'
            | _ => false
            end
          else false
      end
  end.
Definition bytes_string (l : bytes) : string :=
  fold_right (fun b s => String (Ascii.ascii_of_N (Z.to_N b)) s) EmptyString l.
Definition from_utf8 (l : bytes) : option string :=
  if utf8_valid (length l) l then Some (bytes_string l) else None.

(** [str::lines]: the lines end at line feeds, a carriage return before one goes with it,
    and there is no last line when the text ends with a line feed. *)
Definition LF : Ascii.ascii := Ascii.ascii_of_nat 10.
Definition CR : Ascii.ascii := Ascii.ascii_of_nat 13.
Fixpoint strip_cr (s : string) : string :=
  match s with
  | EmptyString => EmptyString
  | String c EmptyString => if bool_decide (c = CR) then EmptyString else s
  | String c s' => String c (strip_cr s')
  end.
Fixpoint lines_of (l : list string) : list string :=
  match l with
  | [] => []
  | [s] => match s with EmptyString => [] | _ => [s] end
  | s :: l' => strip_cr s :: lines_of l'
  end.
Definition lines (s : string) : list string := lines_of (split_char LF s).

(** [str::parse::<f64>]: a sign, then [inf], [infinity] or [nan] in any case, or digits
    with a point and an exponent, rounded to the nearest double, ties to even. *)
Fixpoint take_digits (acc : Z) (n : nat) (s : string) : Z * nat * string :=
  match s with
  | String c s' =>
      match digit c with
      | Some d => take_digits (acc * 10 + d) (S n) s'
      | None => (acc, n, s)
      end
  | EmptyString => (acc, n, s)
  end.

Definition take_sign (s : string) : bool * string :=
  match s with
  | String c s' =>
      if bool_decide (c = "-"%char) then (true, s')
      else if bool_decide (c = "+"%char) then (false, s') else (false, s)
  | EmptyString => (false, s)
  end.

Definition parse_exponent (s : string) : option Z :=
  match s with
  | EmptyString => Some 0
  | String c s' =>
      if bool_decide (c = "e"%char) || bool_decide (c = "E"%char) then
        let '(negative, digits) := take_sign s' in
        let '(e, n, rest) := take_digits 0 0 digits in
        match n, rest with
        | S _, EmptyString => Some (if negative then - e else e)
        | _, _ => None
        end
      else None
  end.

(** The double nearest to [m * 10^e]. *)
Definition f64_of_decimal (negative : bool) (m e : Z) : f64 :=
  if m =? 0 then S754_zero negative
  else if 0 <=? e
  then binary_normalize 53 1024 (if negative then - (m * 10 ^ e) else m * 10 ^ e) 0 negative
  else let '(mz, ez, lz) := SFdiv_core_binary 53 1024 m 0 (10 ^ (- e)) 0 in
       binary_round_aux 53 1024 negative mz ez lz.

Definition parse_f64 (s : string) : option f64 :=
  let '(negative, body) := take_sign s in
  if eq_ignore_ascii_case body "inf" || eq_ignore_ascii_case body "infinity"
  then Some (S754_infinity negative)
  else if eq_ignore_ascii_case body "nan" then Some S754_nan
  else
    let '(whole, n1, rest) := take_digits 0 0 body in
    let '(m, n2, rest) :=
      match rest with
      | String c rest' =>
          if bool_decide (c = "."%char) then take_digits whole 0 rest' else (whole, O, rest)
      | EmptyString => (whole, O, rest)
      end in
    if (n1 + n2 =? 0)%nat then None
    else (fun e => f64_of_decimal negative m (e - Z.of_nat n2)) <$> parse_exponent rest.

(** ** The data of a playlist *)

Record Encryption := mk_Encryption { en_method : string; en_session : bool }.

Record SegmentEntry := mk_SegmentEntry {
  se_sequence : Z;
  se_path : string;
  se_duration : Z;
  se_discontinuity : bool;
  se_map_uri : option string;
}.

Record MediaPlaylist := mk_MediaPlaylist {
  mp_target_duration : Z;
  mp_media_sequence : Z;
  mp_segments : list SegmentEntry;
  mp_ended : bool;
  mp_map_uri : option string;
  mp_encryption : option Encryption;
  mp_byte_range : bool;
}.

Record Variant := mk_Variant {
  va_bandwidth : Z;
  va_path : string;
  va_audio_group : option string;
  va_codecs : list string;
}.

Record AudioRendition := mk_AudioRendition {
  ar_group_id : string;
  ar_name : string;
  ar_default : bool;
  ar_autoselect : bool;
  ar_path : option string;
}.

Record MasterPlaylist := mk_MasterPlaylist {
  ms_variants : list Variant;
  ms_audio : list AudioRendition;
  ms_session_key : option Encryption;
}.

Inductive Playlist := Media (m : MediaPlaylist) | Master (m : MasterPlaylist).

Inductive PlaylistError :=
| NotUtf8
| MissingHeader
| MissingTargetDuration
| MixedMasterAndMedia
| InvalidTag (line : Z) (tag : string)
| SegmentWithoutDuration (line : Z)
| VariantWithoutUri
| InvalidUri (line : Z)
| SequenceOverflow.

(** ** The choice of a variant *)

Definition highest_bandwidth (self : MasterPlaylist) : option Variant :=
  match ms_variants self with
  | [] => None
  | v :: rest =>
      Some (fold_left (fun best next => if va_bandwidth best <? va_bandwidth next then next else best)
              rest v)
  end.

Definition audio_rendition (self : MasterPlaylist) (variant : Variant) : option AudioRendition :=
  group ← va_audio_group variant;
  let members := filter (fun audio => ar_group_id audio = group) (ms_audio self) in
  match List.find ar_default members with
  | Some audio => Some audio
  | None =>
      match List.find ar_autoselect members with
      | Some audio => Some audio
      | None => head members
      end
  end.

(** ** Paths *)

(** [char::is_control] over the UTF-8 text: U+0000 to U+001F, U+007F, U+0080 to U+009F. *)
Fixpoint has_control (s : string) : bool :=
  match s with
  | EmptyString => false
  | String c s' =>
      let n := Ascii.nat_of_ascii c in
      ((n <? 32) || (n =? 127))%nat
      || ((n =? 194)%nat
          && match s' with
             | String d _ => let m := Ascii.nat_of_ascii d in ((128 <=? m) && (m <=? 159))%nat
             | EmptyString => false
             end)
      || has_control s'
  end.

Fixpoint normalize_parts (parts : list string) (stack : list string) : option (list string) :=
  match parts with
  | [] => Some stack
  | part :: rest =>
      if bool_decide (part = "") || bool_decide (part = ".") then normalize_parts rest stack
      else if bool_decide (part = "..") then
        match stack with [] => None | _ => normalize_parts rest (removelast stack) end
      else normalize_parts rest (stack ++ [part])
  end.

Definition normalize_path (path : string) : option string :=
  if string_exists (fun c => bool_decide (c = "\"%char)) path || has_control path then None
  else parts ← normalize_parts (split_char "/" path) [];
       match parts with [] => None | _ => Some (join "/" parts) end.

(** [uri.split(['?', '#']).next()] *)
Fixpoint before_query (s : string) : string :=
  match s with
  | EmptyString => EmptyString
  | String c s' =>
      if bool_decide (c = "?"%char) || bool_decide (c = "#"%char) then EmptyString
      else String c (before_query s')
  end.

Definition resolve_uri (playlist_path uri : string) : option string :=
  let uri := before_query uri in
  if bool_decide (uri = "") || contains "://" uri || starts_with uri "/" then None
  else
    let directory := match rsplit_once "/" playlist_path with Some (dir, _) => dir | None => "" end in
    normalize_path (directory +:+ "/" +:+ uri).

(** ** Attributes and numbers *)

Definition QUOTE : Ascii.ascii := Ascii.ascii_of_nat 34.
Definition QUOTE_STR : string := String QUOTE EmptyString.

Fixpoint attribute_loop (fuel : nat) (rest key : string) : option string :=
  match fuel with
  | O => None
  | S fuel' =>
      match rest with
      | EmptyString => None
      | _ =>
          '(name, after_name) ← split_once "=" rest;
          '(value, after_value) ←
            match strip_prefix QUOTE_STR after_name with
            | Some quoted =>
                '(value, tail) ← split_once QUOTE quoted;
                Some (value, default tail (strip_prefix "," tail))
            | None => Some (default (after_name, "") (split_once "," after_name))
            end;
          if bool_decide (trim name = key) then Some (trim value)
          else attribute_loop fuel' after_value key
      end
  end.
(** Every turn takes at least the equals sign. *)
Definition attribute (list key : string) : option string :=
  attribute_loop (S (String.length list)) list key.

Definition key_attributes (line : string) : option string :=
  match strip_prefix "#EXT-X-KEY:" line with
  | Some a => Some a
  | None => strip_prefix "#EXT-X-SESSION-KEY:" line
  end.

Definition parse_seconds (value : string) : option Z :=
  seconds ← parse_f64 (trim value);
  try_from_secs_f64 seconds.

Definition MAX_TARGET_DURATION : Z := from_secs 3600.

(** ** The parser *)

(** The variables of the loop over lines. *)
Record ParseState := mk_ParseState {
  p_target_duration : option Z;
  p_media_sequence : Z;
  p_ended : bool;
  p_map_uri : option string;
  p_byte_range : bool;
  p_key_in_force : option Encryption;
  p_media_encryption : option Encryption;
  p_session_encryption : option Encryption;
  p_pending_duration : option Z;
  p_pending_discontinuity : bool;
  p_pending_bandwidth : option Z;
  p_pending_audio_group : option string;
  p_pending_codecs : list string;
  p_segment_uris : list (string * Z * bool * option string);
  p_variants : list Variant;
  p_audio : list AudioRendition;
}.

Definition parse_start : ParseState :=
  mk_ParseState None 0 false None false None None None None false None None [] [] [] [].

Definition with_target target_duration (p : ParseState) : ParseState :=
  mk_ParseState
    target_duration (p_media_sequence p) (p_ended p) (p_map_uri p) (p_byte_range p)
    (p_key_in_force p) (p_media_encryption p) (p_session_encryption p)
    (p_pending_duration p) (p_pending_discontinuity p) (p_pending_bandwidth p)
    (p_pending_audio_group p) (p_pending_codecs p) (p_segment_uris p) (p_variants p)
    (p_audio p).
Definition with_sequence media_sequence (p : ParseState) : ParseState :=
  mk_ParseState
    (p_target_duration p) media_sequence (p_ended p) (p_map_uri p) (p_byte_range p)
    (p_key_in_force p) (p_media_encryption p) (p_session_encryption p)
    (p_pending_duration p) (p_pending_discontinuity p) (p_pending_bandwidth p)
    (p_pending_audio_group p) (p_pending_codecs p) (p_segment_uris p) (p_variants p)
    (p_audio p).
Definition with_ended ended (p : ParseState) : ParseState :=
  mk_ParseState
    (p_target_duration p) (p_media_sequence p) ended (p_map_uri p) (p_byte_range p)
    (p_key_in_force p) (p_media_encryption p) (p_session_encryption p)
    (p_pending_duration p) (p_pending_discontinuity p) (p_pending_bandwidth p)
    (p_pending_audio_group p) (p_pending_codecs p) (p_segment_uris p) (p_variants p)
    (p_audio p).
Definition with_map map_uri byte_range (p : ParseState) : ParseState :=
  mk_ParseState
    (p_target_duration p) (p_media_sequence p) (p_ended p) map_uri byte_range
    (p_key_in_force p) (p_media_encryption p) (p_session_encryption p)
    (p_pending_duration p) (p_pending_discontinuity p) (p_pending_bandwidth p)
    (p_pending_audio_group p) (p_pending_codecs p) (p_segment_uris p) (p_variants p)
    (p_audio p).
Definition with_byte_range byte_range (p : ParseState) : ParseState :=
  mk_ParseState
    (p_target_duration p) (p_media_sequence p) (p_ended p) (p_map_uri p) byte_range
    (p_key_in_force p) (p_media_encryption p) (p_session_encryption p)
    (p_pending_duration p) (p_pending_discontinuity p) (p_pending_bandwidth p)
    (p_pending_audio_group p) (p_pending_codecs p) (p_segment_uris p) (p_variants p)
    (p_audio p).
Definition with_key key_in_force (p : ParseState) : ParseState :=
  mk_ParseState
    (p_target_duration p) (p_media_sequence p) (p_ended p) (p_map_uri p) (p_byte_range
    p) key_in_force (p_media_encryption p) (p_session_encryption p) (p_pending_duration
    p) (p_pending_discontinuity p) (p_pending_bandwidth p) (p_pending_audio_group p)
    (p_pending_codecs p) (p_segment_uris p) (p_variants p) (p_audio p).
Definition with_session_key session_encryption (p : ParseState) : ParseState :=
  mk_ParseState
    (p_target_duration p) (p_media_sequence p) (p_ended p) (p_map_uri p) (p_byte_range
    p) (p_key_in_force p) (p_media_encryption p) session_encryption (p_pending_duration
    p) (p_pending_discontinuity p) (p_pending_bandwidth p) (p_pending_audio_group p)
    (p_pending_codecs p) (p_segment_uris p) (p_variants p) (p_audio p).
Definition with_duration pending_duration (p : ParseState) : ParseState :=
  mk_ParseState
    (p_target_duration p) (p_media_sequence p) (p_ended p) (p_map_uri p) (p_byte_range
    p) (p_key_in_force p) (p_media_encryption p) (p_session_encryption p)
    pending_duration (p_pending_discontinuity p) (p_pending_bandwidth p)
    (p_pending_audio_group p) (p_pending_codecs p) (p_segment_uris p) (p_variants p)
    (p_audio p).
Definition with_discontinuity pending_discontinuity (p : ParseState) : ParseState :=
  mk_ParseState
    (p_target_duration p) (p_media_sequence p) (p_ended p) (p_map_uri p) (p_byte_range
    p) (p_key_in_force p) (p_media_encryption p) (p_session_encryption p)
    (p_pending_duration p) pending_discontinuity (p_pending_bandwidth p)
    (p_pending_audio_group p) (p_pending_codecs p) (p_segment_uris p) (p_variants p)
    (p_audio p).
Definition with_stream pending_bandwidth pending_audio_group pending_codecs (p : ParseState) : ParseState :=
  mk_ParseState
    (p_target_duration p) (p_media_sequence p) (p_ended p) (p_map_uri p) (p_byte_range
    p) (p_key_in_force p) (p_media_encryption p) (p_session_encryption p)
    (p_pending_duration p) (p_pending_discontinuity p) pending_bandwidth
    pending_audio_group pending_codecs (p_segment_uris p) (p_variants p) (p_audio p).
Definition with_variants variants (p : ParseState) : ParseState :=
  mk_ParseState
    (p_target_duration p) (p_media_sequence p) (p_ended p) (p_map_uri p) (p_byte_range
    p) (p_key_in_force p) (p_media_encryption p) (p_session_encryption p)
    (p_pending_duration p) (p_pending_discontinuity p) (p_pending_bandwidth p)
    (p_pending_audio_group p) (p_pending_codecs p) (p_segment_uris p) variants (p_audio
    p).
Definition with_segment media_encryption pending_duration pending_discontinuity segment_uris (p : ParseState) : ParseState :=
  mk_ParseState
    (p_target_duration p) (p_media_sequence p) (p_ended p) (p_map_uri p) (p_byte_range
    p) (p_key_in_force p) media_encryption (p_session_encryption p) pending_duration
    pending_discontinuity (p_pending_bandwidth p) (p_pending_audio_group p)
    (p_pending_codecs p) segment_uris (p_variants p) (p_audio p).
Definition with_audio_tags audio (p : ParseState) : ParseState :=
  mk_ParseState
    (p_target_duration p) (p_media_sequence p) (p_ended p) (p_map_uri p) (p_byte_range
    p) (p_key_in_force p) (p_media_encryption p) (p_session_encryption p)
    (p_pending_duration p) (p_pending_discontinuity p) (p_pending_bandwidth p)
    (p_pending_audio_group p) (p_pending_codecs p) (p_segment_uris p) (p_variants p)
    audio.

(** A line of the loop: its new variables, or the error that ends it.  [line_number] is
    1-based, [line] is trimmed and not empty. *)
Section Parser.
Context (resolve : string -> option string).

Definition ok_or {A} (e : PlaylistError) (x : option A) : PlaylistError + A :=
  match x with Some a => inr a | None => inl e end.

Definition parse_target (line_number : Z) (value : string) (p : ParseState)
  : PlaylistError + ParseState :=
  match parse_seconds value with
  | Some d =>
      if (d <=? MAX_TARGET_DURATION) && negb (d =? 0) then inr (with_target (Some d) p)
      else inl (InvalidTag line_number "EXT-X-TARGETDURATION")
  | None => inl (InvalidTag line_number "EXT-X-TARGETDURATION")
  end.

Definition parse_sequence (line_number : Z) (value : string) (p : ParseState)
  : PlaylistError + ParseState :=
  match parse_usize (trim value) with
  | Some n => inr (with_sequence n p)
  | None => inl (InvalidTag line_number "EXT-X-MEDIA-SEQUENCE")
  end.

Definition parse_extinf (line_number : Z) (value : string) (p : ParseState)
  : PlaylistError + ParseState :=
  match parse_seconds (default "" (head (split_char "," value))) with
  | Some d => inr (with_duration (Some d) p)
  | None => inl (InvalidTag line_number "EXTINF")
  end.

Definition parse_key (line attributes : string) (p : ParseState) : ParseState :=
  let session := starts_with line "#EXT-X-SESSION-KEY:" in
  let method := default "" (attribute attributes "METHOD") in
  let encryption := if eq_ignore_ascii_case method "NONE" then None
                    else Some (mk_Encryption method session) in
  if session then with_session_key encryption p else with_key encryption p.

Definition parse_map (line_number : Z) (value : string) (p : ParseState)
  : PlaylistError + ParseState :=
  match attribute value "URI" with
  | None => inl (InvalidTag line_number "EXT-X-MAP")
  | Some uri =>
      let byte_range := p_byte_range p
        || match attribute value "BYTERANGE" with
           | Some range => negb (bool_decide (range = ""))
           | None => false
           end in
      match resolve uri with
      | Some path => inr (with_map (Some path) byte_range p)
      | None => inl (InvalidUri line_number)
      end
  end.

Definition non_empty (s : string) : option string :=
  if bool_decide (s = "") then None else Some s.

Definition is_yes (x : option string) : bool :=
  match x with Some value => eq_ignore_ascii_case value "YES" | None => false end.

Definition parse_media_tag (line_number : Z) (attributes : string) (p : ParseState)
  : PlaylistError + ParseState :=
  match attribute attributes "TYPE" with
  | Some kind =>
      if eq_ignore_ascii_case kind "AUDIO" then
        match attribute attributes "GROUP-ID" ≫= non_empty with
        | None => inl (InvalidTag line_number "EXT-X-MEDIA")
        | Some group_id =>
            let push path :=
              with_audio_tags
                (p_audio p ++
                   [mk_AudioRendition group_id (default "" (attribute attributes "NAME"))
                      (is_yes (attribute attributes "DEFAULT"))
                      (is_yes (attribute attributes "AUTOSELECT")) path]) p in
            match attribute attributes "URI" ≫= non_empty with
            | Some uri =>
                match resolve uri with
                | Some path => inr (push (Some path))
                | None => inl (InvalidUri line_number)
                end
            | None => inr (push None)
            end
        end
      else inr p
  | None => inr p
  end.

Definition parse_codecs (codecs : string) : list string :=
  filter (fun codec => codec <> "") (map trim (split_char "," codecs)).

Definition parse_stream_inf (line_number : Z) (attributes : string) (p : ParseState)
  : PlaylistError + ParseState :=
  match attribute attributes "BANDWIDTH" ≫= parse_usize with
  | None => inl (InvalidTag line_number "EXT-X-STREAM-INF")
  | Some bandwidth =>
      inr (with_stream (Some bandwidth) (attribute attributes "AUDIO" ≫= non_empty)
             (from_option parse_codecs [] (attribute attributes "CODECS")) p)
  end.

Definition parse_uri (line_number : Z) (line : string) (p : ParseState)
  : PlaylistError + ParseState :=
  match resolve line with
  | None => inl (InvalidUri line_number)
  | Some path =>
      match p_pending_bandwidth p with
      | Some bandwidth =>
          inr (with_stream None None []
                 (with_variants
                    (p_variants p ++
                       [mk_Variant bandwidth path (p_pending_audio_group p) (p_pending_codecs p)]) p))
      | None =>
          match p_pending_duration p with
          | None => inl (SegmentWithoutDuration line_number)
          | Some duration =>
              let encryption := match p_media_encryption p with
                                | None => p_key_in_force p
                                | Some e => Some e
                                end in
              inr (with_segment encryption None false
                     (p_segment_uris p ++
                        [(path, duration, p_pending_discontinuity p, p_map_uri p)]) p)
          end
      end
  end.

Definition parse_line (line_number : Z) (line : string) (p : ParseState)
  : PlaylistError + ParseState :=
  match strip_prefix "#EXT-X-TARGETDURATION:" line with
  | Some value => parse_target line_number value p
  | None =>
  match strip_prefix "#EXT-X-MEDIA-SEQUENCE:" line with
  | Some value => parse_sequence line_number value p
  | None =>
  match strip_prefix "#EXTINF:" line with
  | Some value => parse_extinf line_number value p
  | None =>
  if bool_decide (line = "#EXT-X-DISCONTINUITY") then inr (with_discontinuity true p)
  else if bool_decide (line = "#EXT-X-ENDLIST") then inr (with_ended true p)
  else if starts_with line "#EXT-X-BYTERANGE:" then inr (with_byte_range true p)
  else
  match key_attributes line with
  | Some attributes => inr (parse_key line attributes p)
  | None =>
  match strip_prefix "#EXT-X-MAP:" line with
  | Some value => parse_map line_number value p
  | None =>
  match strip_prefix "#EXT-X-MEDIA:" line with
  | Some attributes => parse_media_tag line_number attributes p
  | None =>
  match strip_prefix "#EXT-X-STREAM-INF:" line with
  | Some attributes => parse_stream_inf line_number attributes p
  | None =>
  if starts_with line "#" then inr p
  else parse_uri line_number line p
  end end end end end end end.

Fixpoint parse_lines (l : list (Z * string)) (p : ParseState) : PlaylistError + ParseState :=
  match l with
  | [] => inr p
  | (n, line) :: l' =>
      match parse_line n line p with
      | inr p' => parse_lines l' p'
      | inl e => inl e
      end
  end.

(** The numbering of the segments. *)
Fixpoint number_segments (media_sequence offset : Z) (l : list (string * Z * bool * option string))
  : PlaylistError + list SegmentEntry :=
  match l with
  | [] => inr []
  | (path, duration, discontinuity, map_uri) :: l' =>
      match checked_u 64 (media_sequence + offset) with
      | None => inl SequenceOverflow
      | Some sequence =>
          match number_segments media_sequence (offset + 1) l' with
          | inl e => inl e
          | inr segments =>
              inr (mk_SegmentEntry sequence path duration discontinuity map_uri :: segments)
          end
      end
  end.

Definition parse_end (p : ParseState) : PlaylistError + Playlist :=
  if bool_decide (is_Some (p_pending_bandwidth p)) then inl VariantWithoutUri
  else
    match p_variants p with
    | _ :: _ =>
        match p_segment_uris p, p_target_duration p with
        | [], None => inr (Master (mk_MasterPlaylist (p_variants p) (p_audio p) (p_session_encryption p)))
        | _, _ => inl MixedMasterAndMedia
        end
    | [] =>
        match p_target_duration p with
        | None => inl MissingTargetDuration
        | Some target =>
            match number_segments (p_media_sequence p) 0 (p_segment_uris p) with
            | inl e => inl e
            | inr segments =>
                inr (Media (mk_MediaPlaylist target (p_media_sequence p) segments (p_ended p)
                              (p_map_uri p)
                              (match p_media_encryption p with
                               | Some e => Some e
                               | None => p_session_encryption p
                               end) (p_byte_range p)))
            end
        end
    end.

Fixpoint numbered (n : Z) (l : list string) : list (Z * string) :=
  match l with [] => [] | s :: l' => (n, trim s) :: numbered (n + 1) l' end.

(** The byte order mark, U+FEFF. *)
Definition BOM : string := byte_string [239; 187; 191]%nat.

Definition parse_with (data : bytes) : PlaylistError + Playlist :=
  match from_utf8 data with
  | None => inl NotUtf8
  | Some text =>
      let text := default text (strip_prefix BOM text) in
      match filter (fun nl => nl.2 <> "") (numbered 1 (lines text)) with
      | (_, header) :: rest =>
          if bool_decide (header = "#EXTM3U") then
            match parse_lines rest parse_start with
            | inl e => inl e
            | inr p => parse_end p
            end
          else inl MissingHeader
      | [] => inl MissingHeader
      end
  end.
End Parser.

Definition parse (data : bytes) (playlist_path : string) : PlaylistError + Playlist :=
  parse_with (resolve_uri playlist_path) data.

(** ** Paths are canonical *)

#[local] Arguments String.append : simpl nomatch.

Definition good_part (part : string) : Prop :=
  part <> "" /\ part <> "." /\ part <> ".." /\ lacks "/" part = true.

(** A path inside its stream key's namespace, in the one form it has. *)
Definition canonical (path : string) : Prop :=
  Forall good_part (split_char "/" path) /\ normalize_path path = Some path.

Lemma split_char_all_lacks sep s : Forall (fun p => lacks sep p = true) (split_char sep s).
Proof.
  induction s as [|c s IH]; cbn [split_char]; [now repeat constructor|].
  case_bool_decide as Hc; [now constructor|].
  destruct (split_char sep s) as [|h t]; [constructor; [|done]|].
  - apply lacks_cons. done.
  - apply Forall_cons in IH as [Hh Ht]. constructor; [|done]. now apply lacks_cons.
Qed.

Lemma normalize_parts_good parts : forall stack out,
  Forall (fun p => lacks "/" p = true) parts -> Forall good_part stack ->
  normalize_parts parts stack = Some out -> Forall good_part out.
Proof.
  induction parts as [|p parts IH]; intros stack out Hp Hs; cbn [normalize_parts].
  { now intros [= <-]. }
  apply Forall_cons in Hp as [Hp Hps].
  destruct (bool_decide_reflect (p = "")), (bool_decide_reflect (p = ".")); cbn [orb]; eauto.
  case_bool_decide.
  - destruct stack as [|x stack]; [done|]. apply IH; [done|].
    rewrite removelast_firstn_len. now apply Forall_take.
  - apply IH; [done|]. apply Forall_app. split; [done|]. constructor; [|done]. done.
Qed.

Lemma normalize_parts_id parts : forall stack,
  Forall good_part parts -> normalize_parts parts stack = Some (stack ++ parts)%list.
Proof.
  induction parts as [|p parts IH]; intros stack H; cbn [normalize_parts]; [now rewrite app_nil_r|].
  apply Forall_cons in H as [(H1 & H2 & H3 & _) H].
  rewrite !bool_decide_eq_false_2 by done. cbn [orb]. rewrite IH by done. now rewrite <- app_assoc.
Qed.

(** Characters that break no path: what a check of single characters sees in the parts. *)
Lemma string_exists_app f a b : string_exists f (a +:+ b) = string_exists f a || string_exists f b.
Proof.
  induction a as [|c a IH]; [done|]. change (String c a +:+ b) with (String c (a +:+ b)).
  cbn. now rewrite IH, orb_assoc.
Qed.

Lemma has_control_slash a b : has_control (a +:+ "/" +:+ b) = has_control a || has_control b.
Proof.
  induction a as [|c a IH]; [done|].
  change (String c a +:+ "/" +:+ b) with (String c (a +:+ "/" +:+ b)). cbn [has_control].
  rewrite IH. destruct a as [|d a]; [|now rewrite <- !orb_assoc].
  cbn. now rewrite !andb_false_r, !orb_false_r, <- ?orb_assoc.
Qed.

Definition clean (s : string) : bool :=
  negb (string_exists (fun c => bool_decide (c = "\"%char)) s || has_control s).

Lemma clean_slash a b : clean (a +:+ "/" +:+ b) = clean a && clean b.
Proof.
  unfold clean. rewrite has_control_slash, !string_exists_app. cbn [string_exists].
  rewrite bool_decide_eq_false_2 by done.
  destruct (string_exists _ a), (string_exists _ b), (has_control a), (has_control b); done.
Qed.

Lemma join_cons sep a b l : join sep (a :: b :: l) = a +:+ sep +:+ join sep (b :: l).
Proof. done. Qed.

Lemma clean_join l : l <> [] -> clean (join "/" l) = forallb clean l.
Proof.
  induction l as [|a [|b l] IH]; intros Hl; [done|cbn; now rewrite andb_true_r|].
  rewrite join_cons, clean_slash, IH by done. done.
Qed.

Lemma join_split sep s : join (String sep "") (split_char sep s) = s.
Proof.
  induction s as [|c s IH]; [done|]. cbn [split_char].
  pose proof (split_char_nonempty sep s) as Hn.
  case_bool_decide as Hc.
  - destruct (split_char sep s) as [|h t]; [done|]. rewrite join_cons, IH. now subst.
  - destruct (split_char sep s) as [|h [|h' t]]; [done| |].
    + cbn in *. congruence.
    + rewrite join_cons in *. rewrite <- IH. done.
Qed.

Lemma normalize_parts_clean parts : forall stack out,
  forallb clean parts = true -> forallb clean stack = true ->
  normalize_parts parts stack = Some out -> forallb clean out = true.
Proof.
  induction parts as [|p parts IH]; intros stack out Hp Hs; cbn [normalize_parts].
  { now intros [= <-]. }
  cbn in Hp. apply andb_true_iff in Hp as [Hp Hps].
  destruct (_ || _); [now apply IH|]. case_bool_decide.
  - destruct stack as [|x stack]; [done|]. apply IH; [done|].
    rewrite removelast_firstn_len. rewrite forallb_forall in *. intros y Hy. apply Hs.
    rewrite <- (take_drop (Init.Nat.pred (length (x :: stack))) (x :: stack)). apply List.in_or_app. now left.
  - apply IH; [done|]. rewrite forallb_app, Hs. cbn. now rewrite Hp.
Qed.

Lemma normalize_path_canonical path r : normalize_path path = Some r -> canonical r.
Proof.
  unfold normalize_path. destruct (_ || _) eqn:Ec; [done|].
  assert (clean path = true) as Hc by (unfold clean; now rewrite Ec).
  destruct (normalize_parts (split_char "/" path) []) as [parts|] eqn:E; [|done]. cbn.
  destruct parts as [|a l] eqn:Ep; [done|]. rewrite <- Ep in *. assert (parts <> []) as Hne by now rewrite Ep.
  intros [= <-].
  assert (Forall good_part parts) as Hg.
  { eapply normalize_parts_good; [|constructor|exact E]. apply split_char_all_lacks. }
  assert (Forall (fun s => lacks "/" s = true) parts) as Hl.
  { eapply Forall_impl; [exact Hg|]. now intros x (_ & _ & _ & ?). }
  assert (clean (join "/" parts) = true) as Hj.
  { rewrite clean_join by done. eapply (normalize_parts_clean _ [] parts); [|done|exact E].
    rewrite <- clean_join by apply split_char_nonempty.
    now rewrite (join_split "/" path). }
  assert (split_char "/" (join "/" parts) = parts) as Es by now apply (split_join "/").
  split; [now rewrite Es|]. unfold normalize_path. unfold clean in Hj. apply negb_true_iff in Hj. rewrite Hj, Es.
  rewrite normalize_parts_id by done. cbn. now rewrite Ep.
Qed.

(** A URI of a playlist resolves only to a path inside the stream key's namespace, in the
    form every upload's path is normalized to: no empty, [.] or [..] part, no control character
    or backslash, and normalizing it again changes nothing. *)
Theorem resolved_paths_stay_inside playlist_path uri r :
  resolve_uri playlist_path uri = Some r -> canonical r.
Proof.
  unfold resolve_uri. destruct (_ || _); [done|]. apply normalize_path_canonical.
Qed.

Lemma resolved_paths_stay_inside_witness :
  resolve_uri "live/a/index.m3u8" "../b/./seg8.ts?x=1" = Some "live/b/seg8.ts"
  /\ canonical "live/b/seg8.ts".
Proof.
  split; [vm_compute; reflexivity|].
  apply (resolved_paths_stay_inside "live/a/index.m3u8" "../b/./seg8.ts?x=1"). vm_compute. reflexivity.
Defined.

(** ** What a parsed playlist is *)

Lemma parse_digits_range s : forall acc n,
  0 <= acc <= USIZE_MAX -> parse_digits acc s = Some n -> 0 <= n <= USIZE_MAX.
Proof.
  induction s as [|c s IH]; intros acc n Ha; cbn [parse_digits]; [now intros [= <-]|].
  destruct (digit c) as [d|] eqn:Ed; [|done].
  destruct (Z.leb_spec (acc * 10 + d) USIZE_MAX); [|done]. apply IH.
  unfold digit in Ed. destruct (_ && _) eqn:E; [|done]. apply andb_true_iff in E as [E1%Z.leb_le E2].
  injection Ed as <-. lia.
Qed.

Lemma parse_usize_range s n : parse_usize s = Some n -> 0 <= n <= USIZE_MAX.
Proof.
  assert (0 <= 0 <= USIZE_MAX) as H0 by (unfold USIZE_MAX; lia).
  unfold parse_usize. destruct s as [|c s]; [done|]. case_bool_decide; [destruct s; [done|]|];
    now apply parse_digits_range.
Qed.

Lemma round_half_even_nonneg n d : 0 <= n -> 0 < d -> 0 <= round_half_even n d.
Proof.
  intros Hn Hd. unfold round_half_even. pose proof (Z.div_pos n d Hn Hd).
  repeat case_match; lia.
Qed.

Lemma try_from_secs_range x d : try_from_secs_f64 x = Some d -> 0 <= d <= DURATION_MAX.
Proof.
  unfold try_from_secs_f64. destruct x as [b|b| |[] m e]; try done.
  - intros [= <-]. unfold DURATION_MAX. lia.
  - match goal with |- context [if ?z <=? _ then _ else _] => set (ns := z) end.
    destruct (Z.leb_spec ns DURATION_MAX); [|done]. intros [= <-]. split; [|done].
    unfold ns. destruct (Z.leb_spec 0 e) as [He|He].
    + pose proof (Z.pow_nonneg 2 e). nia.
    + apply round_half_even_nonneg; [lia|]. apply Z.pow_pos_nonneg; lia.
Qed.

Lemma parse_seconds_range v d : parse_seconds v = Some d -> 0 <= d <= DURATION_MAX.
Proof.
  unfold parse_seconds. destruct (parse_f64 (trim v)); [|done]. cbn. apply try_from_secs_range.
Qed.

Section Parsed.
Context (resolve : string -> option string) (P : string -> Prop).
Context (resolve_P : forall uri path, resolve uri = Some path -> P path).

Definition opt_P (o : option string) : Prop := match o with Some path => P path | None => True end.
Definition target_ok (d : Z) : Prop := 0 < d <= MAX_TARGET_DURATION.

Definition uri_ok (x : string * Z * bool * option string) : Prop :=
  let '(path, duration, _, map_uri) := x in
  P path /\ 0 <= duration <= DURATION_MAX /\ opt_P map_uri.

Record parse_ok (p : ParseState) : Prop := {
  po_target : match p_target_duration p with Some d => target_ok d | None => True end;
  po_sequence : 0 <= p_media_sequence p <= USIZE_MAX;
  po_map : opt_P (p_map_uri p);
  po_duration : match p_pending_duration p with Some d => 0 <= d <= DURATION_MAX | None => True end;
  po_bandwidth : match p_pending_bandwidth p with Some n => 0 <= n <= USIZE_MAX | None => True end;
  po_uris : Forall uri_ok (p_segment_uris p);
  po_variants : Forall (fun v => P (va_path v) /\ 0 <= va_bandwidth v <= USIZE_MAX) (p_variants p);
  po_audio : Forall (fun a => opt_P (ar_path a)) (p_audio p);
}.

Lemma parse_start_ok : parse_ok parse_start.
Proof. constructor; cbn; try done; unfold USIZE_MAX; lia. Qed.

Lemma parse_line_ok n line p p' :
  parse_ok p -> parse_line resolve n line p = inr p' -> parse_ok p'.
Proof.
  intros [H1 H2 H3 H4 H5 H6 H7 H8]. unfold parse_line.
  destruct (strip_prefix "#EXT-X-TARGETDURATION:" line) as [v|].
  { unfold parse_target. destruct (parse_seconds v) as [d|] eqn:Ed; [|done].
    destruct (_ && _) eqn:E; [|done]. intros [= <-]. constructor; cbn; try done.
    apply parse_seconds_range in Ed. apply andb_true_iff in E as [E1%Z.leb_le E2%negb_true_iff%Z.eqb_neq].
    unfold target_ok. lia. }
  destruct (strip_prefix "#EXT-X-MEDIA-SEQUENCE:" line) as [v|].
  { unfold parse_sequence. destruct (parse_usize (trim v)) eqn:E; [|done]. intros [= <-].
    constructor; cbn; try done. by eapply parse_usize_range. }
  destruct (strip_prefix "#EXTINF:" line) as [v|].
  { unfold parse_extinf. destruct (parse_seconds _) eqn:E; [|done]. intros [= <-].
    constructor; cbn; try done. by eapply parse_seconds_range. }
  case_bool_decide; [intros [= <-]; now constructor|].
  case_bool_decide; [intros [= <-]; now constructor|].
  destruct (starts_with line "#EXT-X-BYTERANGE:"); [intros [= <-]; now constructor|].
  destruct (key_attributes line) as [v|].
  { unfold parse_key. destruct (starts_with line _); intros [= <-]; now constructor. }
  destruct (strip_prefix "#EXT-X-MAP:" line) as [v|].
  { unfold parse_map. destruct (attribute v "URI") as [uri|]; [|done].
    destruct (resolve uri) as [path|] eqn:E; [|done]. intros [= <-]. constructor; cbn; try done.
    by eapply resolve_P. }
  destruct (strip_prefix "#EXT-X-MEDIA:" line) as [v|].
  { unfold parse_media_tag. destruct (attribute v "TYPE") as [kind|]; [|intros [= <-]; now constructor].
    destruct (eq_ignore_ascii_case kind "AUDIO"); [|intros [= <-]; now constructor].
    destruct (attribute v "GROUP-ID" ≫= non_empty) as [g|]; [|done].
    destruct (attribute v "URI" ≫= non_empty) as [uri|].
    - destruct (resolve uri) as [path|] eqn:E; [|done]. intros [= <-]. constructor; cbn; try done.
      apply Forall_app. split; [done|]. constructor; [|done]. by eapply resolve_P.
    - intros [= <-]. constructor; cbn; try done. apply Forall_app. split; [done|]. now constructor. }
  destruct (strip_prefix "#EXT-X-STREAM-INF:" line) as [v|].
  { unfold parse_stream_inf. destruct (attribute v "BANDWIDTH") as [b|]; [|done]. cbn.
    destruct (parse_usize b) eqn:E; [|done]. intros [= <-]. constructor; cbn; try done.
    by eapply parse_usize_range. }
  destruct (starts_with line "#"); [intros [= <-]; now constructor|].
  unfold parse_uri. destruct (resolve line) as [path|] eqn:E; [|done]. apply resolve_P in E.
  destruct (p_pending_bandwidth p) as [b|] eqn:Eb.
  { intros [= <-]. constructor; cbn; try done. apply Forall_app. split; [done|]. now constructor. }
  destruct (p_pending_duration p) as [d|]; [|done].
  intros [= <-]. constructor; cbn; rewrite ?Eb; try done.
  apply Forall_app. split; [done|]. constructor; [|done]. done.
Qed.

Lemma parse_lines_ok l : forall p p',
  parse_ok p -> parse_lines resolve l p = inr p' -> parse_ok p'.
Proof.
  induction l as [|[n line] l IH]; intros p p' Hp; cbn; [now intros [= <-]|].
  destruct (parse_line resolve n line p) as [|p1] eqn:E; [done|]. apply IH. by eapply parse_line_ok.
Qed.

(** Segments numbered from the media sequence, every path a resolved one. *)
Record media_playlist_ok (m : MediaPlaylist) : Prop := {
  mo_target : target_ok (mp_target_duration m);
  mo_sequence : 0 <= mp_media_sequence m;
  mo_last : mp_media_sequence m + zlen (mp_segments m) <= 2 ^ 64 \/ mp_segments m = [];
  mo_numbered : map se_sequence (mp_segments m) = zseq (mp_media_sequence m) (length (mp_segments m));
  mo_paths : Forall (fun s => P (se_path s) /\ opt_P (se_map_uri s)
                              /\ 0 <= se_duration s <= DURATION_MAX) (mp_segments m);
  mo_map : opt_P (mp_map_uri m);
}.

Definition master_playlist_ok (m : MasterPlaylist) : Prop :=
  ms_variants m <> []
  /\ Forall (fun v => P (va_path v) /\ 0 <= va_bandwidth v <= USIZE_MAX) (ms_variants m)
  /\ Forall (fun a => opt_P (ar_path a)) (ms_audio m).

Definition playlist_ok (p : Playlist) : Prop :=
  match p with Media m => media_playlist_ok m | Master m => master_playlist_ok m end.

Lemma number_segments_spec seq l : forall offset segs,
  number_segments seq offset l = inr segs ->
  length segs = length l
  /\ map se_sequence segs = map (fun i => seq + offset + Z.of_nat i) (List.seq 0 (length l))
  /\ (l <> [] -> seq + offset + zlen l <= 2 ^ 64)
  /\ (Forall uri_ok l -> Forall (fun s => P (se_path s) /\ opt_P (se_map_uri s)
                                /\ 0 <= se_duration s <= DURATION_MAX) segs).
Proof.
  induction l as [|[[[path d] disc] map_uri] l IH]; intros offset segs; cbn [number_segments].
  { intros [= <-]. split_and!; done. }
  destruct (checked_u 64 (seq + offset)) as [k|] eqn:Ek; [|done].
  destruct (number_segments seq (offset + 1) l) as [|segs1] eqn:E; [done|]. intros [= <-].
  destruct (IH _ _ E) as (A1 & A2 & A3 & A4). apply checked_u_inv in Ek as [-> Hk]. split_and!.
  - cbn. congruence.
  - cbn [map length List.seq]. f_equal; [cbn; lia|]. rewrite A2, <- seq_shift, map_map.
    apply map_ext. intros i. lia.
  - intros _. rewrite zlen_cons. destruct l as [|y l]; [unfold zlen; cbn; unfold in_u in *; lia|].
    specialize (A3 ltac:(done)). lia.
  - intros [(H1 & H2 & H3) H]%Forall_cons. constructor; [done|]. now apply A4.
Qed.

Lemma parse_with_ok data pl : parse_with resolve data = inr pl -> playlist_ok pl.
Proof.
  unfold parse_with. destruct (from_utf8 data) as [text|]; [|done].
  destruct (filter _ _) as [|[n header] rest]; [done|]. case_bool_decide; [|done].
  destruct (parse_lines resolve rest parse_start) as [|p] eqn:E; [done|].
  apply parse_lines_ok in E; [|apply parse_start_ok]. destruct E as [H1 H2 H3 H4 H5 H6 H7 H8].
  unfold parse_end. case_bool_decide; [done|]. destruct (p_variants p) as [|v vs] eqn:Ev.
  - destruct (p_target_duration p) as [d|]; [|done].
    destruct (number_segments _ _ _) as [|segs] eqn:En; [done|]. intros [= <-].
    apply number_segments_spec in En as (A1 & A2 & A3 & A4). rewrite Z.add_0_r in *.
    constructor; cbn; try done; [lia| | |now apply A4].
    + destruct (p_segment_uris p) as [|u us]; [right; now destruct segs|left].
      unfold zlen in *. rewrite A1. now apply A3.
    + rewrite A2. unfold zseq. now rewrite A1.
  - destruct (p_segment_uris p); [|done]. destruct (p_target_duration p); [done|].
    intros [= <-]. split_and!; cbn; try done. 
Qed.
End Parsed.

(** C24: Whatever bytes an encoder uploads, a playlist that parses is well formed: a media
    playlist has a target duration above zero and at most an hour and numbers its segments
    consecutively from its media sequence without overflow; a master has a variant; and every
    path in either is inside the stream key's namespace. *)
Theorem parsed_playlist_well_formed data playlist_path pl :
  parse data playlist_path = inr pl -> playlist_ok canonical pl.
Proof.
  apply parse_with_ok. intros uri path H. unfold resolve_uri in H. destruct (_ || _); [done|].
  now apply normalize_path_canonical in H.
Qed.

(** ** Text that passes the line reader *)

Definition printable (c : ascii) : bool :=
  let n := nat_of_ascii c in ((33 <=? n) && (n <=? 126))%nat.

Lemma string_forall_app f a b : string_forall f (a +:+ b) = string_forall f a && string_forall f b.
Proof.
  induction a as [|c a IH]; [done|]. change (String c a +:+ b) with (String c (a +:+ b)).
  cbn. now rewrite IH, andb_assoc.
Qed.

Lemma string_forall_impl (f g : ascii -> bool) s :
  (forall c, f c = true -> g c = true) -> string_forall f s = true -> string_forall g s = true.
Proof.
  intros H. induction s as [|c s IH]; [done|]. cbn. rewrite !andb_true_iff. intros [? ?]. auto.
Qed.

Lemma string_forall_rev_app f a : forall acc,
  string_forall f (string_rev_app a acc) = string_forall f a && string_forall f acc.
Proof.
  induction a as [|c a IH]; intros acc; [done|]. cbn [string_rev_app string_forall]. rewrite IH. cbn.
  destruct (f c), (string_forall f a); done.
Qed.

Lemma string_rev_app_twice a : forall b c,
  string_rev_app (string_rev_app a b) c = string_rev_app b (a +:+ c).
Proof. induction a as [|x a IH]; intros b c; [done|]. cbn [string_rev_app]. now rewrite IH. Qed.

Lemma string_app_nil s : s +:+ "" = s.
Proof. induction s as [|c s IH]; [done|]. change (String c s +:+ "") with (String c (s +:+ "")). now rewrite IH. Qed.

Lemma string_rev_involutive s : string_rev (string_rev s) = s.
Proof. unfold string_rev. rewrite string_rev_app_twice. cbn. apply string_app_nil. Qed.

Definition starts_odd (p : string) : bool :=
  match p with String c _ => negb (printable c) | EmptyString => false end.

Lemma strip_any_printable ps s :
  forallb starts_odd ps = true -> string_forall printable s = true -> strip_any ps s = None.
Proof.
  intros Hps Hs. induction ps as [|p ps IH]; [done|]. cbn in Hps. apply andb_true_iff in Hps as [Hp Hps].
  cbn [strip_any]. destruct (strip_prefix p s) as [r|] eqn:E; [|now apply IH].
  apply strip_prefix_inv in E as ->. destruct p as [|c p]; [done|].
  change (String c p +:+ r) with (String c (p +:+ r)) in Hs. cbn in Hs, Hp.
  apply andb_true_iff in Hs as [Hc _]. now rewrite Hc in Hp.
Qed.

Lemma trim_start_fuel_printable n ps s :
  forallb starts_odd ps = true -> string_forall printable s = true -> trim_start_fuel n ps s = s.
Proof. intros Hps Hs. destruct n; [done|]. cbn. now rewrite strip_any_printable. Qed.

Lemma trim_printable s : string_forall printable s = true -> trim s = s.
Proof.
  intros Hs. unfold trim, trim_start, trim_end.
  rewrite (trim_start_fuel_printable _ WHITE_SPACE s) by (done || now vm_compute).
  rewrite trim_start_fuel_printable; [apply string_rev_involutive|now vm_compute|].
  unfold string_rev. now rewrite string_forall_rev_app, Hs.
Qed.

Lemma printable_neq c d : printable c = true -> printable d = false -> c <> d.
Proof. congruence. Qed.

Lemma printable_lacks sep s : printable sep = false -> string_forall printable s = true -> lacks sep s = true.
Proof.
  intros Hsep. apply string_forall_impl. intros c Hc. rewrite bool_decide_eq_false_2; [done|].
  now apply (printable_neq c sep).
Qed.

Lemma strip_cr_lacks s : lacks CR s = true -> strip_cr s = s.
Proof.
  induction s as [|c s IH]; [done|]. intros [Hc Hs]%lacks_cons. cbn.
  rewrite bool_decide_eq_false_2 by done. destruct s; [done|]. now rewrite IH.
Qed.

Definition unlines (l : list string) : string := String.concat "" (map (fun s => s +:+ NL) l).

Lemma concat_cons a l : String.concat "" (a :: l) = a +:+ String.concat "" l.
Proof. destruct l; cbn [String.concat]; [now rewrite string_app_nil|done]. Qed.

Lemma unlines_cons a l : unlines (a :: l) = a +:+ NL +:+ unlines l.
Proof. unfold unlines. cbn [map]. now rewrite concat_cons, string_app_assoc. Qed.

Lemma unlines_app a b : unlines (a ++ b) = unlines a +:+ unlines b.
Proof.
  induction a as [|x a IH]; [done|]. cbn [app]. now rewrite !unlines_cons, IH, !string_app_assoc.
Qed.

Lemma lines_unlines l :
  Forall (fun s => string_forall printable s = true) l -> lines (unlines l) = l.
Proof.
  unfold lines. induction 1 as [|s l Hs Hl IH]; [done|]. rewrite unlines_cons.
  change NL with (String LF ""). rewrite split_char_app by now apply printable_lacks.
  pose proof (split_char_nonempty LF (unlines l)) as Hn.
  destruct (split_char LF (unlines l)) as [|h t] eqn:E; [done|].
  change (lines_of (s :: h :: t)) with (strip_cr s :: lines_of (h :: t)). rewrite IH.
  now rewrite strip_cr_lacks by now apply printable_lacks.
Qed.

Definition is_ascii (c : ascii) : bool := (N_of_ascii c <? 128)%N.

Lemma utf8_ascii s n :
  string_forall is_ascii s = true -> (String.length s <= n)%nat ->
  utf8_valid n (string_bytes s) = true.
Proof.
  revert n. induction s as [|c s IH]; intros n Hs Hn; [now destruct n|].
  cbn in Hs, Hn. apply andb_true_iff in Hs as [Hc Hs]. destruct n as [|n]; [lia|].
  unfold string_bytes. cbn. unfold is_ascii in Hc. apply N.ltb_lt in Hc.
  rewrite (proj2 (Z.ltb_lt _ 128)) by lia. apply IH; [done|lia].
Qed.

Lemma bytes_string_bytes s : bytes_string (string_bytes s) = s.
Proof.
  unfold bytes_string, string_bytes. induction s as [|c s IH]; [done|]. cbn.
  now rewrite N2Z.id, ascii_N_embedding, IH.
Qed.

Lemma length_string_bytes s : length (string_bytes s) = String.length s.
Proof. unfold string_bytes. induction s as [|c s IH]; [done|]. cbn in *. congruence. Qed.

Lemma from_utf8_ascii s : string_forall is_ascii s = true -> from_utf8 (string_bytes s) = Some s.
Proof.
  intros Hs. unfold from_utf8. rewrite utf8_ascii; [now rewrite bytes_string_bytes|done|].
  rewrite length_string_bytes. lia.
Qed.

Lemma printable_ascii c : printable c = true -> is_ascii c = true.
Proof.
  unfold printable, is_ascii, nat_of_ascii. rewrite andb_true_iff, N.ltb_lt. intros [_ H%Nat.leb_le]. lia.
Qed.

Lemma unlines_ascii l :
  Forall (fun s => string_forall printable s = true) l -> string_forall is_ascii (unlines l) = true.
Proof.
  induction 1 as [|s l Hs Hl IH]; [done|]. rewrite unlines_cons, !string_forall_app, IH.
  rewrite (string_forall_impl printable is_ascii s) by (done || apply printable_ascii). done.
Qed.

Lemma numbered_printable l : forall n,
  Forall (fun s => string_forall printable s = true) l ->
  numbered n l = imap (fun i s => (n + Z.of_nat i, s)) l.
Proof.
  induction l as [|s l IH]; intros n Hl; [done|]. apply Forall_cons in Hl as [Hs Hl].
  cbn [numbered imap]. rewrite trim_printable, IH by done. cbn. f_equal; [f_equal; lia|].
  apply imap_ext. intros i x _. cbn. f_equal. lia.
Qed.

(** Text made of lines of printable characters reads as those lines. *)
Lemma parse_unlines resolve l header :
  Forall (fun s => string_forall printable s = true /\ s <> "") (header :: l) ->
  header = "#EXTM3U" ->
  parse_with resolve (string_bytes (unlines (header :: l)))
  = match parse_lines resolve (imap (fun i s => (2 + Z.of_nat i, s)) l) parse_start with
    | inl e => inl e
    | inr p => parse_end p
    end.
Proof.
  intros Hl ->.
  assert (Forall (fun s => string_forall printable s = true) ("#EXTM3U" :: l)) as Hp.
  { eapply Forall_impl; [exact Hl|]. now intros x [? ?]. }
  unfold parse_with. rewrite from_utf8_ascii by now apply unlines_ascii.
  assert (strip_prefix BOM (unlines ("#EXTM3U" :: l)) = None) as ->.
  { rewrite unlines_cons. reflexivity. }
  cbn [default]. rewrite lines_unlines, numbered_printable by done. cbn [imap].
  assert (forall n (k : list string), Forall (fun s => string_forall printable s = true /\ s <> "") k ->
    filter (fun nl => nl.2 <> "") (imap (fun i s => (n + Z.of_nat i, s)) k)
    = imap (fun i s => (n + Z.of_nat i, s)) k) as Hf.
  { intros n k. revert n. induction k as [|s k IH]; intros n Hk; [done|].
    apply Forall_cons in Hk as [[_ Hs] Hk]. cbn [imap]. rewrite filter_cons_True by done. f_equal.
    specialize (IH (n + 1) Hk).
    assert (imap ((fun i s => (n + Z.of_nat i, s)) ∘ S) k = imap (fun i s => (n + 1 + Z.of_nat i, s)) k) as ->
      by (apply imap_ext; intros i x _; cbn; f_equal; lia).
    exact IH. }
  apply Forall_cons in Hl as [_ Hl].
  rewrite filter_cons_True by done. cbn [app].
  assert (imap ((fun i s => (1 + Z.of_nat i, s)) ∘ S) l = imap (fun i s => (2 + Z.of_nat i, s)) l) as ->
    by (apply imap_ext; intros i x _; cbn; f_equal; lia).
  rewrite Hf by done. now rewrite bool_decide_eq_true_2.
Qed.

(** ** The playlists of an HLS upload read back *)

Lemma lacks_all (f : ascii -> bool) s :
  (forall sep, f sep = false -> lacks sep s = true) -> string_forall f s = true.
Proof.
  induction s as [|c s IH]; intros H; [done|]. cbn. destruct (f c) eqn:E.
  - apply IH. intros sep Hsep. now apply H, lacks_cons in Hsep as [_ ?].
  - apply H in E. apply lacks_cons in E as [? _]. done.
Qed.

(** The characters of a number in an [EXTINF]: no comma among them. *)
Definition number_char (c : ascii) : bool := printable c && negb (bool_decide (c = ","%char)).

Lemma number_char_digit c : number_char c = false -> digit c = None.
Proof.
  unfold number_char, digit, printable. intros H.
  destruct ((48 <=? Z.of_nat (nat_of_ascii c)) && (Z.of_nat (nat_of_ascii c) <=? 57)) eqn:E; [|done].
  apply andb_true_iff in E as [E1%Z.leb_le E2%Z.leb_le].
  rewrite (proj2 (Nat.leb_le 33 _)), (proj2 (Nat.leb_le _ 126)) in H by lia.
  case_bool_decide as Hc; [|done]. subst c. vm_compute in E1. now destruct E1.
Qed.

Lemma display_number n : string_forall number_char (display n) = true.
Proof. apply lacks_all. intros sep Hsep. now apply display_lacks, number_char_digit. Qed.

Lemma fixed_digits_number n z : string_forall number_char (fixed_digits n z) = true.
Proof.
  unfold fixed_digits. rewrite string_forall_app, display_number, andb_true_r.
  induction (n - String.length (display z))%nat as [|k IH]; [done|]. cbn [replicate].
  rewrite concat_cons, string_forall_app, IH. done.
Qed.

Lemma fmt_prec_number n x : string_forall number_char (fmt_prec n x) = true.
Proof.
  unfold fmt_prec. cbv zeta.
  match goal with |- context [if (n =? 0)%nat then display ?a else ?b] =>
    assert (forall z q, string_forall number_char (if (n =? 0)%nat then display z
              else display q +:+ "." +:+ fixed_digits n (z mod 10 ^ Z.of_nat n)) = true) as H end.
  { intros z q. destruct (n =? 0)%nat; [apply display_number|].
    now rewrite !string_forall_app, display_number, fixed_digits_number. }
  destruct x as [[]|[]| |[] m e]; try done; rewrite ?string_forall_app; now rewrite ?H.
Qed.

Lemma number_printable s : string_forall number_char s = true -> string_forall printable s = true.
Proof. apply string_forall_impl. intros c [? _]%andb_true_iff. done. Qed.

Lemma number_lacks_comma s : string_forall number_char s = true -> lacks "," s = true.
Proof. apply string_forall_impl. intros c [_ ?]%andb_true_iff. done. Qed.

(** A name with none of the characters a URI or a path treats specially. *)
Definition name_char (c : ascii) : bool :=
  printable c && negb (existsb (fun d => bool_decide (c = d)) ["/"; "\"; "?"; "#"; ":"]%char).

Lemma number_char_name c : digit c <> None -> name_char c = true.
Proof.
  unfold name_char, digit, printable. intros H.
  destruct ((48 <=? Z.of_nat (nat_of_ascii c)) && (Z.of_nat (nat_of_ascii c) <=? 57)) eqn:E; [|done].
  apply andb_true_iff in E as [E1%Z.leb_le E2%Z.leb_le].
  rewrite (proj2 (Nat.leb_le 33 _)), (proj2 (Nat.leb_le _ 126)) by lia. cbn.
  rewrite !bool_decide_eq_false_2; [done|..]; intros ->; vm_compute in E1, E2; now (destruct E1 || destruct E2).
Qed.

Lemma segment_name_chars session n :
  string_forall name_char session = true -> string_forall name_char (segment_name session n) = true.
Proof.
  intros Hs. unfold segment_name. rewrite !string_forall_app, Hs.
  assert (string_forall name_char (display n) = true) as ->; [|done].
  apply lacks_all. intros sep Hsep. apply display_lacks.
  destruct (digit sep) eqn:E; [|done]. rewrite number_char_name in Hsep by now rewrite E. done.
Qed.

Lemma name_lacks c s :
  name_char c = false -> string_forall name_char s = true -> lacks c s = true.
Proof.
  intros Hc. apply string_forall_impl. intros d Hd. rewrite bool_decide_eq_false_2; [done|]. congruence.
Qed.

Lemma name_printable s : string_forall name_char s = true -> string_forall printable s = true.
Proof. apply string_forall_impl. intros c [? _]%andb_true_iff. done. Qed.

Lemma before_query_name s : string_forall name_char s = true -> before_query s = s.
Proof.
  induction s as [|c s IH]; [done|]. cbn [string_forall]. rewrite andb_true_iff. intros [Hc Hs].
  cbn [before_query]. rewrite !bool_decide_eq_false_2 by (intros ->; done). cbn. now rewrite IH.
Qed.

Lemma contains_lacks c p s : lacks c s = true -> contains (String c p) s = false.
Proof.
  induction s as [|d s IH]; [done|]. intros [Hc Hs]%lacks_cons. cbn [contains].
  rewrite IH by done. unfold starts_with. cbn. now rewrite bool_decide_eq_false_2 by congruence.
Qed.

Lemma has_control_printable s : string_forall printable s = true -> has_control s = false.
Proof.
  induction s as [|c s IH]; [done|]. cbn [has_control string_forall]. rewrite andb_true_iff.
  intros [Hc Hs]. unfold printable in Hc. apply andb_true_iff in Hc as [H1%Nat.leb_le H2%Nat.leb_le].
  rewrite IH by done. rewrite (proj2 (Nat.ltb_ge _ 32)) by lia. rewrite !(proj2 (Nat.eqb_neq _ _)) by lia. done.
Qed.

Lemma string_exists_lacks c s :
  lacks c s = true -> string_exists (fun d => bool_decide (d = c)) s = false.
Proof.
  induction s as [|d s IH]; [done|]. intros [Hc Hs]%lacks_cons. cbn. now rewrite IH, bool_decide_eq_false_2.
Qed.

Lemma rsplit_once_lacks c s : lacks c s = true -> rsplit_once (String c "") s = None.
Proof.
  induction s as [|d s IH]; [intros _; cbn; now rewrite bool_decide_eq_false_2|]. intros [Hc Hs]%lacks_cons.
  cbn [rsplit_once]. rewrite IH by done. cbn. now rewrite bool_decide_eq_false_2 by congruence.
Qed.

(** A plain name resolves to itself beside a playlist at the top of the namespace. *)
Lemma resolve_name playlist_path name :
  lacks "/" playlist_path = true -> string_forall name_char name = true ->
  (2 < String.length name)%nat -> resolve_uri playlist_path name = Some name.
Proof.
  intros Hp Hn Hlen. unfold resolve_uri. rewrite before_query_name by done.
  assert (lacks "/" name = true) as Hs by now apply name_lacks.
  assert (name <> "" /\ name <> "." /\ name <> "..") as (N1 & N2 & N3)
    by (split_and!; intros ->; cbn in Hlen; lia).
  rewrite bool_decide_eq_false_2 by done. rewrite contains_lacks by now apply name_lacks.
  assert (starts_with name "/" = false) as ->.
  { destruct name as [|c name]; [done|]. unfold starts_with. cbn. apply lacks_cons in Hs as [? _].
    now rewrite bool_decide_eq_false_2 by congruence. }
  cbn [orb]. rewrite rsplit_once_lacks by done.
  change ("" +:+ "/" +:+ name) with ("" +:+ String "/" "" +:+ name).
  unfold normalize_path.
  assert (lacks "\" ("" +:+ String "/" "" +:+ name) = true) as Hb.
  { change ("" +:+ String "/" "" +:+ name) with (String "/" name). apply lacks_cons.
    split; [done|]. now apply name_lacks. }
  rewrite string_exists_lacks by done.
  rewrite has_control_printable by (cbn; now rewrite name_printable).
  rewrite split_char_app by done. rewrite split_char_lacks by done.
  cbn [normalize_parts orb]. rewrite (bool_decide_eq_true_2 ("" = "")) by done. cbn [normalize_parts orb].
  rewrite !bool_decide_eq_false_2 by done. done.
Qed.

Definition segment_lines (session : string) (x : AckedSegment) : list string :=
  ["#EXTINF:" +:+ fmt_prec 3 (as_duration x) +:+ ","; segment_name session (as_sequence x)].
Definition playlist_lines (session : string) (target first : Z) (window : list AckedSegment)
    (end_ : bool) : list string :=
  ("#EXT-X-VERSION:3" :: ("#EXT-X-TARGETDURATION:" +:+ display target)
   :: ("#EXT-X-MEDIA-SEQUENCE:" +:+ display first)
   :: concat (map (segment_lines session) window)
   ++ (if end_ then ["#EXT-X-ENDLIST"] else []))%list.

Definition first_sequence (window : list AckedSegment) : Z :=
  match window with x :: _ => as_sequence x | [] => 0 end.

Lemma render_playlist_lines session target window end_ :
  render_playlist session target window end_
  = unlines ("#EXTM3U" :: playlist_lines session target (first_sequence window) window end_).
Proof.
  unfold render_playlist, playlist_lines. fold (first_sequence window).
  rewrite !unlines_cons, unlines_app, !string_app_assoc.
  assert (String.concat "" (map (fun x => "#EXTINF:" +:+ fmt_prec 3 (as_duration x) +:+ "," +:+ NL
            +:+ segment_name session (as_sequence x) +:+ NL) window)
          = unlines (concat (map (segment_lines session) window))) as ->.
  { induction window as [|x window IH]; [done|]. cbn [map concat]. rewrite concat_cons, unlines_app, IH.
    unfold segment_lines. rewrite !unlines_cons. now rewrite !string_app_assoc. }
  destruct end_; done.
Qed.

Lemma playlist_lines_printable session target first window end_ :
  string_forall name_char session = true ->
  Forall (fun s => string_forall printable s = true /\ s <> "")
    ("#EXTM3U" :: playlist_lines session target first window end_).
Proof.
  intros Hs. unfold playlist_lines.
  assert (forall n, string_forall printable (display n) = true) as Hd.
  { intros n. apply number_printable, display_number. }
  repeat (constructor; [now rewrite ?string_forall_app, ?Hd|]).
  apply Forall_app. split; [|destruct end_; now repeat constructor].
  induction window as [|x window IH]; [constructor|]. cbn [map concat]. apply Forall_app. split; [|exact IH].
  repeat constructor.
  - rewrite !string_forall_app. now rewrite (number_printable _ (fmt_prec_number 3 (as_duration x))).
  - done.
  - now apply name_printable, segment_name_chars.
  - unfold segment_name. destruct session; done.
Qed.

(** The parser after the header and some segments. *)
Definition read_state (target first : Z) (uris : list (string * Z * bool * option string)) : ParseState :=
  mk_ParseState (Some target) first false None false None None None None false None None [] uris [] [].

Lemma strip_hash p s c : c <> "#"%char -> strip_prefix (String "#" p) (String c s) = None.
Proof. intros H. cbn. now rewrite bool_decide_eq_false_2 by congruence. Qed.

Lemma parse_name_line resolve n name p :
  string_forall name_char name = true -> name <> "" ->
  parse_line resolve n name p = parse_uri resolve n name p.
Proof.
  destruct name as [|c name]; [done|]. intros [Hc _]%andb_true_iff _.
  assert (c <> "#"%char) as Hh by now intros ->.
  unfold parse_line, key_attributes, starts_with. rewrite !strip_hash by done.
  rewrite !bool_decide_eq_false_2 by congruence. done.
Qed.

Lemma parse_extinf_line resolve n v d p :
  string_forall number_char v = true -> parse_seconds v = Some d ->
  parse_line resolve n ("#EXTINF:" +:+ v +:+ ",") p = inr (with_duration (Some d) p).
Proof.
  intros Hv Hd.
  assert (parse_line resolve n ("#EXTINF:" +:+ v +:+ ",") p = parse_extinf n (v +:+ ",") p) as ->.
  { unfold parse_line.
    assert (strip_prefix "#EXTINF:" ("#EXTINF:" +:+ v +:+ ",") = Some (v +:+ ",")) as ->
      by apply strip_prefix_app. reflexivity. }
  unfold parse_extinf. change (v +:+ ",") with (v +:+ String "," "" +:+ "").
  rewrite split_char_app by now apply number_lacks_comma. cbn [head default]. cbn. now rewrite Hd.
Qed.

(** Whole seconds up to an hour read back exactly. *)
Lemma target_seconds n : 1 <= n <= 3600 -> parse_seconds (display n) = Some (from_secs n).
Proof.
  assert (forallb (fun k => bool_decide (parse_seconds (display (Z.of_nat k)) = Some (from_secs (Z.of_nat k))))
            (seq 1 3600) = true) as H by (vm_compute; reflexivity).
  intros Hn. rewrite forallb_forall in H. specialize (H (Z.to_nat n)).
  rewrite bool_decide_eq_true, Z2Nat.id in H by lia. apply H. apply in_seq. lia.
Qed.

Lemma parse_lines_app resolve a b : forall p,
  parse_lines resolve (a ++ b) p
  = match parse_lines resolve a p with inr p' => parse_lines resolve b p' | inl e => inl e end.
Proof.
  induction a as [|[n line] a IH]; intros p; [done|]. cbn.
  destruct (parse_line resolve n line p); [done|]. apply IH.
Qed.

Lemma parse_header_lines resolve n1 n2 n3 target first :
  1 <= target <= 3600 -> 0 <= first <= USIZE_MAX ->
  parse_lines resolve
    [(n1, "#EXT-X-VERSION:3"); (n2, "#EXT-X-TARGETDURATION:" +:+ display target);
     (n3, "#EXT-X-MEDIA-SEQUENCE:" +:+ display first)] parse_start
  = inr (read_state (from_secs target) first []).
Proof.
  intros Ht Hf. cbn [parse_lines].
  change (parse_line resolve n1 "#EXT-X-VERSION:3" parse_start) with (inr (A := PlaylistError) parse_start).
  cbv iota.
  assert (forall p, parse_line resolve n2 ("#EXT-X-TARGETDURATION:" +:+ display target) p
            = parse_target n2 (display target) p) as E1.
  { intros p. unfold parse_line. now rewrite strip_prefix_app. }
  assert (forall p, parse_line resolve n3 ("#EXT-X-MEDIA-SEQUENCE:" +:+ display first) p
            = parse_sequence n3 (display first) p) as E2.
  { intros p. unfold parse_line. now rewrite strip_prefix_app. }
  rewrite E1. unfold parse_target. rewrite target_seconds by done.
  assert ((from_secs target <=? MAX_TARGET_DURATION) && negb (from_secs target =? 0) = true) as ->.
  { unfold MAX_TARGET_DURATION, from_secs. rewrite andb_true_iff, Z.leb_le, negb_true_iff, Z.eqb_neq. lia. }
  cbv iota. rewrite E2. unfold parse_sequence.
  rewrite trim_printable by apply number_printable, display_number.
  rewrite parse_display by done. reflexivity.
Qed.

Section ReadBack.
Context (session playlist_path : string).
Context (session_ok : string_forall name_char session = true).
Context (path_ok : lacks "/" playlist_path = true).

Lemma segment_name_long n : (2 < String.length (segment_name session n))%nat.
Proof.
  unfold segment_name.
  assert (forall a b, String.length (a +:+ b) = String.length a + String.length b)%nat as Hl.
  { intros a b. induction a as [|c a IH]; [done|]. change (String c a +:+ b) with (String c (a +:+ b)). cbn. lia. }
  rewrite !Hl. cbn. lia.
Qed.

Definition uri_of (x : AckedSegment) (d : Z) : string * Z * bool * option string :=
  (segment_name session (as_sequence x), d, false, None).

Lemma parse_segments target first window : forall durs uris l,
  Forall2 (fun x d => parse_seconds (fmt_prec 3 (as_duration x)) = Some d) window durs ->
  map snd l = concat (map (segment_lines session) window) ->
  parse_lines (resolve_uri playlist_path) l (read_state target first uris)
  = inr (read_state target first (uris ++ zip_with uri_of window durs)%list).
Proof.
  induction window as [|x window IH]; intros durs uris l Hd Hl.
  - destruct l; [|done]. inversion Hd. cbn. now rewrite app_nil_r.
  - inversion Hd as [|? d ? durs' Hx Hrest]; subst.
    destruct l as [|[n1 l1] [|[n2 l2] l]]; try done.
    unfold segment_lines at 1 in Hl. cbn [map concat app snd] in Hl. injection Hl as -> -> Hl.
    cbn [parse_lines]. 
    match goal with |- context [parse_line _ n1 ?s _] =>
      change s with ("#EXTINF:" +:+ fmt_prec 3 (as_duration x) +:+ ",") end.
    rewrite (parse_extinf_line _ _ _ d) by (done || apply fmt_prec_number).
    rewrite parse_name_line; [|now apply segment_name_chars|].
    2:{ pose proof (segment_name_long (as_sequence x)). intros E. rewrite E in *. cbn in *. lia. }
    unfold parse_uri. rewrite resolve_name; [|done|now apply segment_name_chars|apply segment_name_long].
    match goal with |- _ = inr ?q =>
      change (parse_lines (resolve_uri playlist_path) l (read_state target first (uris ++ [uri_of x d])%list)
              = inr q) end.
    rewrite (IH durs') by done. cbn [zip_with]. now rewrite <- app_assoc.
Qed.

Definition entry_of (x : AckedSegment) (d : Z) : SegmentEntry :=
  mk_SegmentEntry (as_sequence x) (segment_name session (as_sequence x)) d false None.

Lemma number_window window : forall durs first offset,
  length durs = length window -> 0 <= first + offset -> first + offset + zlen window <= 2 ^ 64 ->
  map as_sequence window = map (fun i => first + offset + Z.of_nat i) (seq 0 (length window)) ->
  number_segments first offset (zip_with uri_of window durs) = inr (zip_with entry_of window durs).
Proof.
  induction window as [|x window IH]; intros [|d durs] first offset Hlen H0 Hz Hs; try done.
  cbn in Hlen, Hs. injection Hs as Hx Hs. rewrite zlen_cons in Hz. pose proof (zlen_nonneg window).
  cbn [zip_with number_segments uri_of]. rewrite checked_u_Some by (unfold in_u; lia).
  rewrite (IH durs first (offset + 1)); [|congruence|lia|lia|].
  - cbn [zip_with]. unfold entry_of at 2. rewrite Hx, Z.add_0_r. done.
  - rewrite Hs, <- seq_shift, map_map. apply map_ext. intros i. lia.
Qed.

(** C17: The playlist an HLS upload of this program sends is one its HLS ingest reads: for a
    window of acknowledged segments it parses to a media playlist with the same media sequence
    and end, the target duration, and an entry per segment in order, with its own sequence, its
    own name and the duration its [EXTINF] says. *)
Theorem uploaded_playlist_reads_back target window durs end_ :
  1 <= target <= 3600 -> 0 <= first_sequence window ->
  first_sequence window + zlen window <= 2 ^ 64 ->
  map as_sequence window = zseq (first_sequence window) (length window) ->
  Forall2 (fun x d => parse_seconds (fmt_prec 3 (as_duration x)) = Some d) window durs ->
  parse (string_bytes (render_playlist session target window end_)) playlist_path
  = inr (Media (mk_MediaPlaylist (from_secs target) (first_sequence window)
                  (zip_with (entry_of) window durs) end_ None None false)).
Proof.
  intros Ht H0 Hz Hs Hd. unfold parse. rewrite render_playlist_lines.
  rewrite parse_unlines by (done || now apply playlist_lines_printable).
  match goal with |- context [imap ?f (playlist_lines ?a ?b ?c ?d ?e)] => set (nl := imap f (playlist_lines a b c d e)) end.
  assert (map snd nl = playlist_lines session target (first_sequence window) window end_) as Hl.
  { unfold nl. generalize (playlist_lines session target (first_sequence window) window end_). generalize 2.
    intros n l. revert n. induction l as [|x l IH]; intros n; [done|]. cbn [imap map]. cbn. f_equal.
    rewrite <- (IH (n + 1)) at 2. f_equal. apply imap_ext. intros i y _. cbn. f_equal. lia. }
  clearbody nl. destruct nl as [|[n1 l1] [|[n2 l2] [|[n3 l3] nl]]]; try done.
  unfold playlist_lines in Hl. cbn [map snd] in Hl. injection Hl as -> E2 E3 Hl.
  assert (l2 = "#EXT-X-TARGETDURATION:" +:+ display target) as -> by exact E2.
  assert (l3 = "#EXT-X-MEDIA-SEQUENCE:" +:+ display (first_sequence window)) as -> by exact E3.
  apply map_eq_app in Hl as (segs & ends & -> & Hsegs & Hends).
  match goal with |- context [parse_lines ?r (?a :: ?b :: ?c :: segs ++ ends) ?p] =>
    change (a :: b :: c :: segs ++ ends)%list with ([a; b; c] ++ (segs ++ ends))%list end.
  rewrite !parse_lines_app, parse_header_lines; [|done|].
  2:{ unfold USIZE_MAX. destruct window as [|x w]; cbn in *; [lia|]. rewrite zlen_cons in Hz.
      pose proof (zlen_nonneg w). lia. }
  cbv iota. rewrite parse_lines_app, (parse_segments _ _ window durs) by done. cbv iota. cbn [app].
  assert (parse_lines (resolve_uri playlist_path) ends
            (read_state (from_secs target) (first_sequence window) (zip_with uri_of window durs))
          = inr (with_ended end_ (read_state (from_secs target) (first_sequence window) (zip_with uri_of window durs))))
    as ->.
  { destruct end_; destruct ends as [|[n e] [|? ?]]; try done. cbn in Hends. injection Hends as ->. reflexivity. }
  unfold parse_end. cbn [with_ended read_state p_pending_bandwidth p_variants p_target_duration p_media_sequence
    p_segment_uris p_ended p_map_uri p_media_encryption p_session_encryption p_byte_range].
  rewrite bool_decide_eq_false_2 by now intros [].
  rewrite number_window; try done; [now apply Forall2_length in Hd| | |]; rewrite Z.add_0_r; done.
Qed.
End ReadBack.

Definition ex_duration : f64 := f64_of_decimal false 5005 (-3).
Definition ex_window : list AckedSegment := [mk_AckedSegment 7 ex_duration; mk_AckedSegment 8 ex_duration].

Lemma uploaded_playlist_reads_back_witness :
  parse (string_bytes (render_playlist "r1" 6 ex_window true)) "index.m3u8"
  = inr (Media (mk_MediaPlaylist (from_secs 6) 7
                  [mk_SegmentEntry 7 "r1-7.ts" (from_millis 5005) false None;
                   mk_SegmentEntry 8 "r1-8.ts" (from_millis 5005) false None] true None None false)).
Proof.
  apply (uploaded_playlist_reads_back "r1" "index.m3u8" eq_refl eq_refl 6 ex_window
           [from_millis 5005; from_millis 5005] true); try (cbn; lia); try done.
  repeat constructor; vm_compute; reflexivity.
Defined.

Lemma parsed_playlist_well_formed_witness :
  exists pl, parse (string_bytes (render_playlist "r1" 6 ex_window true)) "live/index.m3u8" = inr pl
  /\ playlist_ok canonical pl.
Proof.
  eexists. split; [vm_compute; reflexivity|].
  apply (parsed_playlist_well_formed (string_bytes (render_playlist "r1" 6 ex_window true))
           "live/index.m3u8").
  vm_compute. reflexivity.
Defined.
