(* ===== verification/HlsOrdering.v ===== *)
(** * Ordering of pushed HLS segments

    Models [crates/restream-engine/src/hls_ingest/ordering.rs] and [ordering/release.rs]: one
    push session holds the segments an encoder uploads until a followed playlist names them
    and releases them in order.  Instants and durations are nanoseconds, a [BTreeMap] with
    ordered traversal is its sorted list of entries, and a payload is its bytes (the permits
    it carries are the allocator's business). *)

From stdpp Require Import sorting.
From S2P Require Import Prelude Media Text Diagnosis Alerts UploadPolicy HlsPlaylist.

Open Scope string_scope.
Open Scope list_scope.
Open Scope Z_scope.

(** ** Ordered maps: [BTreeMap<u64, V>] *)

Section BTree.
Context {V : Type}.
Implicit Types m : list (Z * V).

Fixpoint btree_get (k : Z) m : option V :=
  match m with
  | [] => None
  | (k', v) :: m' => if k =? k' then Some v else btree_get k m'
  end.

Fixpoint btree_insert (k : Z) (v : V) m : list (Z * V) :=
  match m with
  | [] => [(k, v)]
  | (k', v') :: m' =>
      if k <? k' then (k, v) :: m
      else if k =? k' then (k, v) :: m'
      else (k', v') :: btree_insert k v m'
  end.
End BTree.

(** ** Data *)

Section Ordering.
(** [DefaultHasher] over the bytes of an init; its algorithm is not specified. *)
Context (hash : bytes -> Z).

Record SessionLimits := mk_SessionLimits {
  hold_segments : Z;
  hold_bytes : Z;
  idle_floor : Z;
}.

Inductive SegmentOutcome := SegHeld | SegAttached | SegDuplicate | SegOtherVariant | SegInit.
Inductive PlaylistOutcome := PlAccepted | PlOtherVariant.

Record Counters := mk_Counters {
  ct_skipped : Z;
  ct_duplicates : Z;
  ct_evicted : Z;
  ct_epochs : Z;
  ct_failed : Z;
}.

Definition MAX_OTHER_VARIANTS : nat := 16.
Definition MAX_MAPS : nat := 4.
Definition MAX_RENDITIONS : nat := 2.

Record MapState := mk_MapState {
  ma_uri : string;
  ma_pending : option bytes;
  ma_delivered : option Z;
  ma_last : option bytes;
}.

Inductive Follows := Unlocked | Rendition (i : nat) | Other.

Record Listed := mk_Listed {
  li_path : string;
  li_discontinuity : bool;
  li_duration : Z;
  li_listed_at : Z;
  li_map_uri : option string;
  li_payload : option bytes;
}.

Record Held := mk_Held { he_path : string; he_payload : bytes; he_at : Z }.

Record Window := mk_Window {
  wi_media_sequence : Z;
  wi_last : Z;
  wi_by_sequence : gmap Z string;
}.

Record Init := mk_Init { in_uri : string; in_payload : bytes }.
Inductive Reanchor := RNone | RClock | RTimeline (generation : Z).
Record Release := mk_Release {
  re_rendition : nat;
  re_sequence : Z;
  re_epoch : Z;
  re_reanchor : Reanchor;
  re_after_gap : bool;
  re_duration : Z;
  re_init : option Init;
  re_payload : bytes;
}.
Definition media (r : Release) : Z := if (re_rendition r =? 0)%nat then re_duration r else 0.

(** ** The pool *)

Record Pool := mk_Pool {
  po_limits : SessionLimits;
  po_held : list Held;
  po_held_bytes : Z;
  po_counters : Counters;
  po_seeded : list (string * bytes);
}.

Definition pool_with_held (held : list Held) (held_bytes : Z) (p : Pool) : Pool :=
  mk_Pool (po_limits p) held held_bytes (po_counters p) (po_seeded p).
Definition pool_with_counters (c : Counters) (p : Pool) : Pool :=
  mk_Pool (po_limits p) (po_held p) (po_held_bytes p) c (po_seeded p).

Definition count_skipped (n : Z) (p : Pool) : Pool :=
  let c := po_counters p in
  pool_with_counters (mk_Counters (sat_u 64 (ct_skipped c + n)) (ct_duplicates c) (ct_evicted c)
                        (ct_epochs c) (ct_failed c)) p.
Definition count_duplicate (p : Pool) : Pool :=
  let c := po_counters p in
  pool_with_counters (mk_Counters (ct_skipped c) (sat_u 64 (ct_duplicates c + 1)) (ct_evicted c)
                        (ct_epochs c) (ct_failed c)) p.
Definition count_evicted (p : Pool) : Pool :=
  let c := po_counters p in
  pool_with_counters (mk_Counters (ct_skipped c) (ct_duplicates c) (sat_u 64 (ct_evicted c + 1))
                        (ct_epochs c) (ct_failed c)) p.
Definition count_epoch (p : Pool) : Pool :=
  let c := po_counters p in
  pool_with_counters (mk_Counters (ct_skipped c) (ct_duplicates c) (ct_evicted c)
                        (sat_u 64 (ct_epochs c + 1)) (ct_failed c)) p.
Definition count_failed (p : Pool) : Pool :=
  let c := po_counters p in
  pool_with_counters (mk_Counters (ct_skipped c) (ct_duplicates c) (ct_evicted c)
                        (ct_epochs c) (sat_u 64 (ct_failed c + 1))) p.

(** The first held object with a path, and the others. *)
Fixpoint held_remove (path : string) (l : list Held) : option (Held * list Held) :=
  match l with
  | [] => None
  | h :: l' =>
      if bool_decide (he_path h = path) then Some (h, l')
      else match held_remove path l' with Some (x, r) => Some (x, h :: r) | None => None end
  end.

Definition take_held (path : string) (p : Pool) : option bytes * Pool :=
  match held_remove path (po_held p) with
  | Some (h, rest) =>
      (Some (he_payload h), pool_with_held rest (po_held_bytes p - zlen (he_payload h)) p)
  | None => (None, p)
  end.

Definition remove_held (path : string) (p : Pool) : bool * Pool :=
  let '(payload, p) := take_held path p in
  (match payload with Some _ => true | None => false end, p).

Definition pop_oldest_held (p : Pool) : Pool :=
  match po_held p with
  | h :: rest => pool_with_held rest (po_held_bytes p - zlen (he_payload h)) p
  | [] => p
  end.

(** ** A track *)

Record Track := mk_Track {
  tr_path : option string;
  tr_target : option Z;
  tr_listed : list (Z * Listed);
  tr_window : option Window;
  tr_latest_listing : gmap string Z;
  tr_next_seq : option Z;
  tr_epoch : Z;
  tr_timeline_pending : option Z;
  tr_clock_pending : bool;
  tr_gap_pending : bool;
  tr_generation : Z;
  tr_ended : bool;
  tr_maps : list MapState;
  tr_current_map : option string;
  tr_playlist_seen : bool;
  tr_applied : option Z;
}.

Definition Track_new (path : option string) : Track :=
  mk_Track path None [] None ∅ None 0 None false false 0 false [] None false None.

Definition with_path path (t : Track) : Track :=
  mk_Track
    path (tr_target t) (tr_listed t) (tr_window t) (tr_latest_listing t) (tr_next_seq t)
    (tr_epoch t) (tr_timeline_pending t) (tr_clock_pending t) (tr_gap_pending t)
    (tr_generation t) (tr_ended t) (tr_maps t) (tr_current_map t) (tr_playlist_seen t)
    (tr_applied t).
Definition with_listed listed (t : Track) : Track :=
  mk_Track
    (tr_path t) (tr_target t) listed (tr_window t) (tr_latest_listing t) (tr_next_seq t)
    (tr_epoch t) (tr_timeline_pending t) (tr_clock_pending t) (tr_gap_pending t)
    (tr_generation t) (tr_ended t) (tr_maps t) (tr_current_map t) (tr_playlist_seen t)
    (tr_applied t).
Definition with_next next_seq (t : Track) : Track :=
  mk_Track
    (tr_path t) (tr_target t) (tr_listed t) (tr_window t) (tr_latest_listing t) next_seq
    (tr_epoch t) (tr_timeline_pending t) (tr_clock_pending t) (tr_gap_pending t)
    (tr_generation t) (tr_ended t) (tr_maps t) (tr_current_map t) (tr_playlist_seen t)
    (tr_applied t).
Definition with_anchors timeline_pending clock_pending generation (t : Track) : Track :=
  mk_Track
    (tr_path t) (tr_target t) (tr_listed t) (tr_window t) (tr_latest_listing t)
    (tr_next_seq t) (tr_epoch t) timeline_pending clock_pending (tr_gap_pending t)
    generation (tr_ended t) (tr_maps t) (tr_current_map t) (tr_playlist_seen t)
    (tr_applied t).
Definition with_gap gap_pending (t : Track) : Track :=
  mk_Track
    (tr_path t) (tr_target t) (tr_listed t) (tr_window t) (tr_latest_listing t)
    (tr_next_seq t) (tr_epoch t) (tr_timeline_pending t) (tr_clock_pending t)
    gap_pending (tr_generation t) (tr_ended t) (tr_maps t) (tr_current_map t)
    (tr_playlist_seen t) (tr_applied t).
Definition with_ended ended (t : Track) : Track :=
  mk_Track
    (tr_path t) (tr_target t) (tr_listed t) (tr_window t) (tr_latest_listing t)
    (tr_next_seq t) (tr_epoch t) (tr_timeline_pending t) (tr_clock_pending t)
    (tr_gap_pending t) (tr_generation t) ended (tr_maps t) (tr_current_map t)
    (tr_playlist_seen t) (tr_applied t).
Definition with_maps maps (t : Track) : Track :=
  mk_Track
    (tr_path t) (tr_target t) (tr_listed t) (tr_window t) (tr_latest_listing t)
    (tr_next_seq t) (tr_epoch t) (tr_timeline_pending t) (tr_clock_pending t)
    (tr_gap_pending t) (tr_generation t) (tr_ended t) maps (tr_current_map t)
    (tr_playlist_seen t) (tr_applied t).
Definition with_applied applied (t : Track) : Track :=
  mk_Track
    (tr_path t) (tr_target t) (tr_listed t) (tr_window t) (tr_latest_listing t)
    (tr_next_seq t) (tr_epoch t) (tr_timeline_pending t) (tr_clock_pending t)
    (tr_gap_pending t) (tr_generation t) (tr_ended t) (tr_maps t) (tr_current_map t)
    (tr_playlist_seen t) applied.

Definition find_map (uri : string) (maps : list MapState) : option MapState :=
  List.find (fun m => bool_decide (ma_uri m = uri)) maps.

(** [iter_mut().find(..)] and a change of what it finds. *)
Fixpoint update_map (uri : string) (f : MapState -> MapState) (maps : list MapState)
  : list MapState :=
  match maps with
  | [] => []
  | m :: maps' =>
      if bool_decide (ma_uri m = uri) then f m :: maps' else m :: update_map uri f maps'
  end.

Definition knows_map (uri : string) (t : Track) : bool :=
  existsb (fun m => bool_decide (ma_uri m = uri)) (tr_maps t).

Definition track_finished (t : Track) : bool :=
  tr_ended t && match tr_listed t with [] => true | _ => false end.

Definition switch_to (path : string) (t : Track) : Track :=
  mk_Track (Some path) (tr_target t) [] None ∅ None (tr_epoch t) (tr_timeline_pending t) true
    (tr_gap_pending t) (tr_generation t) false [] None false (tr_applied t).

Definition next_generation (t : Track) : Z := sat_u 64 (tr_generation t + 1).

Definition skip_discontinuity (discontinuity : bool) (t : Track) : Track :=
  let t := with_gap true t in
  match discontinuity, tr_timeline_pending t with
  | true, None =>
      let g := next_generation t in with_anchors (Some g) (tr_clock_pending t) g t
  | _, _ => t
  end.

Definition take_reanchor (discontinuity replaces_init : bool) (t : Track) : Track * Reanchor :=
  let clock := tr_clock_pending t || replaces_init in
  match tr_timeline_pending t with
  | Some g => (with_anchors None false (tr_generation t) t, RTimeline g)
  | None =>
      if discontinuity then
        let g := next_generation t in (with_anchors None false g t, RTimeline g)
      else (with_anchors None false (tr_generation t) t, if clock then RClock else RNone)
  end.

Definition moved (t : Track) : Track := with_applied None t.

Definition seeded_init (uri : string) (p : Pool) : option bytes :=
  snd <$> List.find (fun s => bool_decide (s.1 = uri)) (po_seeded p).

Definition ensure_map (uri : string) (t : Track) (p : Pool) : Track * Pool :=
  if knows_map uri t then (t, p)
  else
    let '(held, p) := take_held uri p in
    let pending := match held with Some b => Some b | None => seeded_init uri p end in
    let maps := if (MAX_MAPS <=? length (tr_maps t))%nat then tail (tr_maps t) else tr_maps t in
    (with_maps (maps ++ [mk_MapState uri pending None None]) t, p).

Definition starts_new_epoch (t : Track) (m : MediaPlaylist) (last : Z) : bool :=
  match tr_window t with
  | None => false
  | Some window =>
      (mp_media_sequence m <? wi_media_sequence window)
      || (last <? wi_last window)
      || existsb (fun segment =>
                    match wi_by_sequence window !! se_sequence segment with
                    | Some path => negb (bool_decide (path = se_path segment))
                    | None => false
                    end) (mp_segments m)
  end.

Definition init_ready (uri : option string) (t : Track) : bool :=
  match uri with
  | None => true
  | Some uri =>
      match find_map uri (tr_maps t) with
      | Some m => bool_decide (is_Some (ma_pending m)) || bool_decide (is_Some (ma_delivered m))
      | None => false
      end
  end.

(** The bytes of the init a map would deliver, their hash, and the map after it. *)
Definition map_take (m : MapState) : option (bytes * Z * MapState) :=
  match ma_pending m with
  | Some payload =>
      let h := hash payload in
      Some (payload, h, mk_MapState (ma_uri m) None (Some h) (Some payload))
  | None =>
      match ma_delivered m, ma_last m with
      | Some h, Some kept => Some (kept, h, mk_MapState (ma_uri m) None (Some h) (Some kept))
      | _, _ => None
      end
  end.

Definition take_init (uri : option string) (t : Track) : Track * option Init * bool :=
  match uri with
  | None => (t, None, false)
  | Some uri =>
      match find_map uri (tr_maps t) ≫= map_take with
      | None => (t, None, false)
      | Some (data, h, m) =>
          let t := with_maps (update_map uri (fun _ => m) (tr_maps t)) t in
          if bool_decide (tr_applied t = Some h) then (t, None, false)
          else (with_applied (Some h) t, Some (mk_Init uri data),
                bool_decide (is_Some (tr_applied t)))
      end
  end.

(** A new epoch: the old listing is void. *)
Definition start_epoch (first : Z) (t : Track) : Track :=
  let g := next_generation t in
  mk_Track (tr_path t) (tr_target t) [] (tr_window t) ∅ (Some first)
    (sat_u 64 (tr_epoch t + 1)) (Some g) false (tr_gap_pending t) g false (tr_maps t)
    (tr_current_map t) (tr_playlist_seen t) (tr_applied t).

(** The body of the loop over the segments of a followed playlist. *)
Definition merge_segment (now : Z) (segment : SegmentEntry) (tp : Track * Pool) : Track * Pool :=
  let '(t, p) := tp in
  if match tr_next_seq t with Some next => se_sequence segment <? next | None => false end then
    let '(removed, p) := remove_held (se_path segment) p in
    (t, if removed then count_duplicate p else p)
  else
    match btree_get (se_sequence segment) (tr_listed t) with
    | Some l =>
        match li_payload l with
        | None =>
            if bool_decide (li_path l = se_path segment) then
              let '(payload, p) := take_held (se_path segment) p in
              match payload with
              | Some b =>
                  (with_listed (btree_insert (se_sequence segment)
                                  (mk_Listed (li_path l) (li_discontinuity l) (li_duration l)
                                     (li_listed_at l) (li_map_uri l) (Some b)) (tr_listed t)) t, p)
              | None => (t, p)
              end
            else (t, p)
        | Some _ => (t, p)
        end
    | None =>
        let '(t, p) := match se_map_uri segment with
                       | Some uri => ensure_map uri t p
                       | None => (t, p)
                       end in
        let '(payload, p) := take_held (se_path segment) p in
        (with_listed (btree_insert (se_sequence segment)
                        (mk_Listed (se_path segment) (se_discontinuity segment)
                           (se_duration segment) now (se_map_uri segment) payload)
                        (tr_listed t)) t, p)
    end.

Definition latest_of (segments : list SegmentEntry) : gmap string Z :=
  fold_left (fun m s => <[se_path s := se_sequence s]> m) segments ∅.
Definition by_sequence_of (segments : list SegmentEntry) : gmap Z string :=
  fold_left (fun m s => <[se_sequence s := se_path s]> m) segments ∅.

(** The playlist's own fields, before its segments. *)
Definition note_playlist (m : MediaPlaylist) (tp : Track * Pool) : Track * Pool :=
  let '(t, p) := tp in
  let t := mk_Track (tr_path t) (tr_target t) (tr_listed t) (tr_window t) (tr_latest_listing t)
             (tr_next_seq t) (tr_epoch t) (tr_timeline_pending t) (tr_clock_pending t)
             (tr_gap_pending t) (tr_generation t) (tr_ended t) (tr_maps t) (mp_map_uri m) true
             (tr_applied t) in
  let '(t, p) := match mp_map_uri m with
                 | Some uri => ensure_map uri t p
                 | None => (t, p)
                 end in
  (mk_Track (tr_path t) (Some (mp_target_duration m)) (tr_listed t) (tr_window t)
     (tr_latest_listing t) (tr_next_seq t) (tr_epoch t) (tr_timeline_pending t)
     (tr_clock_pending t) (tr_gap_pending t) (tr_generation t) (tr_ended t) (tr_maps t)
     (tr_current_map t) (tr_playlist_seen t) (tr_applied t), p).

Definition note_window (m : MediaPlaylist) (last : Z) (t : Track) : Track :=
  mk_Track (tr_path t) (tr_target t) (tr_listed t)
    (Some (mk_Window (mp_media_sequence m) last (by_sequence_of (mp_segments m))))
    (latest_of (mp_segments m)) (tr_next_seq t) (tr_epoch t) (tr_timeline_pending t)
    (tr_clock_pending t) (tr_gap_pending t) (tr_generation t) (tr_ended t || mp_ended m)
    (tr_maps t) (tr_current_map t) (tr_playlist_seen t) (tr_applied t).

Definition on_followed (m : MediaPlaylist) (now : Z) (tp : Track * Pool) : Track * Pool :=
  let '(t, p) := note_playlist m tp in
  match head (mp_segments m), last (mp_segments m) with
  | Some first, Some last =>
      let '(t, p) :=
        if starts_new_epoch t m (se_sequence last)
        then (start_epoch (se_sequence first) t, count_epoch p) else (t, p) in
      let t := match tr_next_seq t with
               | None => with_next (Some (se_sequence first)) t
               | Some _ => t
               end in
      let '(t, p) := fold_left (fun tp s => merge_segment now s tp) (mp_segments m) (t, p) in
      (note_window m (se_sequence last) t, p)
  | _, _ => (with_ended (tr_ended t || mp_ended m) t, p)
  end.

Definition later_bytes_ready (t : Track) : bool :=
  existsb (fun e => bool_decide (is_Some (li_payload e.2))) (tail (tr_listed t)).

(** [now.saturating_duration_since(at)] *)
Definition since (now at_ : Z) : Z := Z.max 0 (now - at_).

Definition waited (target : option Z) (now at_ : Z) : bool :=
  match target with Some d => d <=? since now at_ | None => false end.

Definition gap_expired (t : Track) (head : Listed) (now : Z) : bool :=
  waited (tr_target t) now (li_listed_at head) && later_bytes_ready t.

(** One turn of the loop of [Track::poll]: [None] when the loop ends. *)
Definition poll_turn (rendition : nat) (now : Z) (t : Track) (p : Pool)
  : option (Track * Pool * list Release) :=
  match tr_next_seq t, tr_listed t with
  | Some next, (sequence, head) :: rest =>
      if next <? sequence then
        Some (with_next (Some sequence) (with_gap true t), count_skipped (sequence - next) p, [])
      else
        match li_payload head with
        | None =>
            if gap_expired t head now then
              let t := skip_discontinuity (li_discontinuity head) (with_listed rest t) in
              Some (with_next (checked_u 64 (sequence + 1)) t, count_skipped 1 p, [])
            else None
        | Some payload =>
            if init_ready (li_map_uri head) t then
              let '(t, init, replaces) := take_init (li_map_uri head) (with_listed rest t) in
              let '(t, reanchor) := take_reanchor (li_discontinuity head) replaces t in
              let r := mk_Release rendition sequence (tr_epoch t) reanchor (tr_gap_pending t)
                         (li_duration head) init payload in
              Some (with_next (checked_u 64 (sequence + 1)) (with_gap false t), p, [r])
            else if waited (tr_target t) now (li_listed_at head) then
              let t := with_listed rest (skip_discontinuity (li_discontinuity head) t) in
              Some (with_next (checked_u 64 (sequence + 1)) t, count_skipped 1 p, [])
            else None
        end
  | _, _ => None
  end.

Fixpoint poll_loop (fuel : nat) (rendition : nat) (now : Z) (t : Track) (p : Pool)
  : Track * Pool * list Release :=
  match fuel with
  | O => (t, p, [])
  | S fuel' =>
      match poll_turn rendition now t p with
      | None => (t, p, [])
      | Some (t, p, out) =>
          let '(t, p, out') := poll_loop fuel' rendition now t p in (t, p, (out ++ out')%list)
      end
  end.
(** A turn takes the first entry, or moves up to it. *)
Definition track_poll (rendition : nat) (now : Z) (t : Track) (p : Pool) :=
  poll_loop (2 + 2 * length (tr_listed t)) rendition now t p.

Definition track_next_deadline (t : Track) : option Z :=
  match tr_listed t with
  | [] => None
  | (_, head) :: _ =>
      let waits_for_bytes := bool_decide (li_payload head = None) && later_bytes_ready t in
      let waits_for_init :=
        bool_decide (is_Some (li_payload head)) && negb (init_ready (li_map_uri head) t) in
      if waits_for_bytes || waits_for_init
      then (fun target => li_listed_at head + target) <$> tr_target t
      else None
  end.

(** ** A session *)

Record Session := mk_Session {
  ss_pool : Pool;
  ss_tracks : list Track;
  ss_other_variants : gmap string (gset string);
  ss_master_seen : bool;
}.

Definition Session_new (limits : SessionLimits) : Session :=
  mk_Session (mk_Pool limits [] 0 (mk_Counters 0 0 0 0 0) []) [Track_new None] ∅ false.

Definition renditions (s : Session) : Z :=
  Z.max 1 (zlen (filter (fun t => is_Some (tr_path t)) (ss_tracks s))).

Definition map_required (s : Session) : bool :=
  let seen := filter (fun t => tr_playlist_seen t = true) (ss_tracks s) in
  match seen with
  | [] => false
  | _ => forallb (fun t => bool_decide (tr_current_map t = None)) seen
  end.

Definition session_knows_map (uri : string) (s : Session) : bool :=
  existsb (knows_map uri) (ss_tracks s).

(** [while self.tracks.len() <= rendition] *)
Definition grow_tracks (rendition : nat) (tracks : list Track) : list Track :=
  tracks ++ replicate (S rendition - length tracks) (Track_new None).

Definition seed_init (rendition : nat) (uri : string) (data : bytes) (s : Session) : Session :=
  if (MAX_RENDITIONS <=? rendition)%nat then s
  else
    let p := ss_pool s in
    let seeded := filter (fun e => e.1 <> uri) (po_seeded p) ++ [(uri, data)] in
    let p := mk_Pool (po_limits p) (po_held p) (po_held_bytes p) (po_counters p) seeded in
    let tracks := grow_tracks rendition (ss_tracks s) in
    match tracks !! rendition with
    | Some t =>
        let '(t, p) := ensure_map uri t p in
        mk_Session p (<[rendition := t]> tracks) (ss_other_variants s) (ss_master_seen s)
    | None => mk_Session p tracks (ss_other_variants s) (ss_master_seen s)
    end.

Definition void_map (uri : string) (s : Session) : Session :=
  let void m := mk_MapState (ma_uri m) None None None in
  let p := ss_pool s in
  mk_Session
    (mk_Pool (po_limits p) (po_held p) (po_held_bytes p) (po_counters p)
       (filter (fun e => e.1 <> uri) (po_seeded p)))
    (map (fun t => with_maps (update_map uri void (tr_maps t)) t) (ss_tracks s))
    (ss_other_variants s) (ss_master_seen s).

Definition note_failed_segment (s : Session) : Session :=
  mk_Session (count_failed (ss_pool s)) (ss_tracks s) (ss_other_variants s) (ss_master_seen s).

Definition option_max (a b : option Z) : option Z :=
  match a, b with
  | Some x, Some y => Some (Z.max x y)
  | Some x, None => Some x
  | None, b => b
  end.
Definition option_min (a b : option Z) : option Z :=
  match a, b with
  | Some x, Some y => Some (Z.min x y)
  | Some x, None => Some x
  | None, b => b
  end.

Definition target (s : Session) : option Z :=
  fold_right (fun t m => option_max (tr_target t) m) None (ss_tracks s).

Definition idle_timeout (s : Session) : Z :=
  let floor := idle_floor (po_limits (ss_pool s)) in
  match target s with
  | Some d => Z.max (Z.min (d * 3) DURATION_MAX) floor
  | None => floor
  end.

Definition pacing_lead (s : Session) : Z :=
  default (idle_floor (po_limits (ss_pool s))) (target s).

Definition session_finished (s : Session) : bool :=
  match ss_tracks s with t :: _ => track_finished t | [] => false end
  && forallb track_finished (filter (fun t => tr_playlist_seen t = true) (ss_tracks s)).

Fixpoint position_path (path : string) (i : nat) (tracks : list Track) : option nat :=
  match tracks with
  | [] => None
  | t :: tracks' =>
      if bool_decide (tr_path t = Some path) then Some i else position_path path (S i) tracks'
  end.

Definition follows (playlist_path : string) (s : Session) : Follows :=
  match ss_tracks s with
  | t :: _ =>
      match tr_path t with
      | None => Unlocked
      | Some _ => from_option Rendition Other (position_path playlist_path 0 (ss_tracks s))
      end
  | [] => Unlocked
  end.

(** The first track with the map gets the upload. *)
Fixpoint attach_init (path : string) (payload : bytes) (tracks : list Track) : option (list Track) :=
  match tracks with
  | [] => None
  | t :: tracks' =>
      if knows_map path t then
        Some (with_maps (update_map path
                           (fun m => mk_MapState (ma_uri m) (Some payload) (ma_delivered m) (ma_last m))
                           (tr_maps t)) t :: tracks')
      else (fun r => t :: r) <$> attach_init path payload tracks'
  end.

(** The first track that lists the path under a sequence not released yet: whether it
    had bytes, and the tracks after. *)
Fixpoint attach_segment (path : string) (payload : bytes) (tracks : list Track)
  : option (bool * list Track) :=
  match tracks with
  | [] => None
  | t :: tracks' =>
      let here :=
        sequence ← tr_latest_listing t !! path;
        l ← btree_get sequence (tr_listed t);
        if bool_decide (li_path l = path) then Some (sequence, l) else None in
      match here with
      | Some (sequence, l) =>
          match li_payload l with
          | Some _ => Some (true, t :: tracks')
          | None =>
              Some (false,
                    with_listed (btree_insert sequence
                                   (mk_Listed (li_path l) (li_discontinuity l) (li_duration l)
                                      (li_listed_at l) (li_map_uri l) (Some payload))
                                   (tr_listed t)) t :: tracks')
          end
      | None => (fun r => (r.1, t :: r.2)) <$> attach_segment path payload tracks'
      end
  end.

(** The loop that evicts while the hold is over a limit, by the objects it holds. *)
Fixpoint evict_loop (held : list Held) (p : Pool) : Pool :=
  match held with
  | [] => p
  | _ :: held' =>
      if (hold_segments (po_limits p) <? zlen (po_held p)) || (hold_bytes (po_limits p) <? po_held_bytes p)
      then evict_loop held' (count_evicted (pop_oldest_held p)) else p
  end.

Definition hold (path : string) (payload : bytes) (now : Z) (p : Pool) : Pool :=
  let '(_, p) := remove_held path p in
  let p := pool_with_held (po_held p ++ [mk_Held path payload now])
             (po_held_bytes p + zlen payload) p in
  evict_loop (po_held p) p.

Definition on_segment (path : string) (payload : bytes) (now : Z) (s : Session)
  : Session * SegmentOutcome :=
  match attach_init path payload (ss_tracks s) with
  | Some tracks => (mk_Session (ss_pool s) tracks (ss_other_variants s) (ss_master_seen s), SegInit)
  | None =>
      match attach_segment path payload (ss_tracks s) with
      | Some (true, tracks) =>
          (mk_Session (count_duplicate (ss_pool s)) tracks (ss_other_variants s) (ss_master_seen s),
           SegDuplicate)
      | Some (false, tracks) =>
          (mk_Session (ss_pool s) tracks (ss_other_variants s) (ss_master_seen s), SegAttached)
      | None =>
          if negb (existsb (fun t => bool_decide (is_Some (tr_latest_listing t !! path))) (ss_tracks s))
             && existsb (fun e : string * gset string => bool_decide (path ∈ e.2)) (map_to_list (ss_other_variants s))
          then (s, SegOtherVariant)
          else (mk_Session (hold path payload now (ss_pool s)) (ss_tracks s) (ss_other_variants s)
                  (ss_master_seen s), SegHeld)
      end
  end.

Definition on_other_variant (playlist_path : string) (m : MediaPlaylist) (s : Session) : Session :=
  let paths : gset string := list_to_set (map se_path (mp_segments m)) in
  let known := bool_decide (is_Some (ss_other_variants s !! playlist_path)) in
  let p := if ss_master_seen s || known
           then fold_left (fun p path => (remove_held path p).2) (elements paths) (ss_pool s)
           else ss_pool s in
  let variants := if known || (size (ss_other_variants s) <? MAX_OTHER_VARIANTS)%nat
                  then <[playlist_path := paths]> (ss_other_variants s)
                  else ss_other_variants s in
  mk_Session p (ss_tracks s) variants (ss_master_seen s).

(** The playlists a master makes the session follow. *)
Definition wanted (master : MasterPlaylist) : list string :=
  match highest_bandwidth master with
  | None => []
  | Some chosen =>
      va_path chosen ::
        match audio_rendition master chosen ≫= ar_path with
        | Some path => if bool_decide (path = va_path chosen) then [] else [path]
        | None => []
        end
  end.

(** The first pass: each wanted playlist takes the track that follows it already. *)
Fixpoint take_followed (rendition : nat) (paths : list string) (old : list (option Track))
  : list (option Track) * list (option Track) :=
  match paths with
  | [] => ([], old)
  | path :: paths' =>
      match list_find (fun o => o ≫= tr_path = Some path) old with
      | Some (index, Some t) =>
          let t := if (index =? rendition)%nat then t else moved t in
          let '(slots, old) := take_followed (S rendition) paths' (<[index := None]> old) in
          (Some t :: slots, old)
      | _ =>
          let '(slots, old) := take_followed (S rendition) paths' old in (None :: slots, old)
      end
  end.

(** The second pass: the others take the track of their rendition, or a new one. *)
Fixpoint fill_slots (rendition : nat) (paths : list string) (slots old : list (option Track))
  : list Track :=
  match paths, slots with
  | path :: paths', slot :: slots' =>
      match slot with
      | Some t => t :: fill_slots (S rendition) paths' slots' old
      | None =>
          let t := match old !! rendition with
                   | Some (Some t) =>
                       match tr_path t with
                       | Some _ => switch_to path t
                       | None => with_path (Some path) t
                       end
                   | _ => Track_new (Some path)
                   end in
          t :: fill_slots (S rendition) paths' slots' (<[rendition := None]> old)
      end
  | _, _ => []
  end.

Definition on_master (master : MasterPlaylist) (s : Session) : Session :=
  match wanted master with
  | [] => mk_Session (ss_pool s) (ss_tracks s) (ss_other_variants s) true
  | paths =>
      let '(slots, old) := take_followed 0 paths (Some <$> ss_tracks s) in
      let tracks := fill_slots 0 paths slots old in
      mk_Session (ss_pool s) (match tracks with [] => [Track_new None] | _ => tracks end)
        (fold_left (fun m path => delete path m) paths (ss_other_variants s)) true
  end.

Definition on_playlist (playlist_path : string) (playlist : Playlist) (now : Z) (s : Session)
  : Session * PlaylistOutcome :=
  match playlist with
  | Master master => (on_master master s, PlAccepted)
  | Media m =>
      let follow (i : nat) (tracks : list Track) :=
        match tracks !! i with
        | Some t =>
            let '(t, p) := on_followed m now (t, ss_pool s) in
            mk_Session p (<[i := t]> tracks) (ss_other_variants s) (ss_master_seen s)
        | None => s
        end in
      match follows playlist_path s with
      | Other => (on_other_variant playlist_path m s, PlOtherVariant)
      | Unlocked =>
          (follow 0%nat (match ss_tracks s with
                         | t :: ts => with_path (Some playlist_path) t :: ts
                         | [] => []
                         end), PlAccepted)
      | Rendition i => (follow i (ss_tracks s), PlAccepted)
      end
  end.

Fixpoint poll_tracks (rendition : nat) (now : Z) (tracks : list Track) (p : Pool)
  : list Track * Pool * list Release :=
  match tracks with
  | [] => ([], p, [])
  | t :: tracks' =>
      let '(t, p, out) := track_poll rendition now t p in
      let '(ts, p, out') := poll_tracks (S rendition) now tracks' p in
      (t :: ts, p, out ++ out')
  end.

(** The loop that ages out the hold. *)
Fixpoint age_loop (now hold_age : Z) (held : list Held) (p : Pool) : Pool :=
  match held with
  | [] => p
  | h :: held' =>
      if hold_age <=? since now (he_at h)
      then age_loop now hold_age held' (count_evicted (pop_oldest_held p)) else p
  end.

Definition poll (now : Z) (s : Session) : Session * list Release :=
  let '(tracks, p, out) := poll_tracks 0 now (ss_tracks s) (ss_pool s) in
  let s := mk_Session p tracks (ss_other_variants s) (ss_master_seen s) in
  (mk_Session (age_loop now (idle_timeout s) (po_held p) p) tracks (ss_other_variants s)
     (ss_master_seen s), out).

Definition next_deadline (s : Session) : option Z :=
  let gap := fold_right (fun t m => option_min (track_next_deadline t) m) None (ss_tracks s) in
  let hold := match po_held (ss_pool s) with
              | h :: _ => Some (he_at h + idle_timeout s)
              | [] => None
              end in
  option_min gap hold.

(** ** Ordered maps *)

Definition keys {V} (m : list (Z * V)) : list Z := map fst m.

Lemma keys_insert {V} k (v : V) m x : x ∈ keys (btree_insert k v m) <-> x = k \/ x ∈ keys m.
Proof.
  induction m as [|[k' v'] m IH]; cbn [btree_insert].
  - cbn. set_solver.
  - destruct (Z.ltb_spec k k'); [cbn; set_solver|].
    destruct (Z.eqb_spec k k'); [subst; cbn; set_solver|].
    cbn in *. rewrite elem_of_cons, IH. set_solver.
Qed.

Lemma sorted_insert {V} k (v : V) m :
  StronglySorted Z.lt (keys m) -> StronglySorted Z.lt (keys (btree_insert k v m)).
Proof.
  induction m as [|[k' v'] m IH]; cbn [btree_insert]; intros Hs.
  - repeat constructor.
  - apply StronglySorted_inv in Hs as [Hs Hk].
    destruct (Z.ltb_spec k k').
    + constructor; [now constructor|]. constructor; [done|].
      eapply Forall_impl; [exact Hk|]. cbn. lia.
    + destruct (Z.eqb_spec k k'); [subst; now constructor|].
      constructor; [now apply IH|]. apply Forall_forall. intros x Hx.
      apply keys_insert in Hx as [->|Hx]; [cbn; lia|].
      rewrite Forall_forall in Hk. now apply Hk.
Qed.

Lemma keys_insert_present {V} k (v w : V) m :
  btree_get k m = Some w -> StronglySorted Z.lt (keys m) -> keys (btree_insert k v m) = keys m.
Proof.
  induction m as [|[k' v'] m IH]; cbn [btree_insert btree_get]; [done|].
  intros Hg Hs. apply StronglySorted_inv in Hs as [Hs Hk].
  destruct (Z.eqb_spec k k') as [->|].
  - now rewrite Z.ltb_irrefl.
  - destruct (Z.ltb_spec k k').
    + exfalso. assert (k ∈ keys m) as Hin.
      { clear -Hg. induction m as [|[a b] m IH]; cbn in *; [done|].
        destruct (Z.eqb_spec k a); [subst; left|right; auto]. }
      rewrite Forall_forall in Hk. specialize (Hk _ Hin). cbn in Hk. lia.
    + cbn. f_equal. now apply IH.
Qed.

(** ** What a well-formed track is *)

Definition next_ok (t : Track) : Prop :=
  match tr_next_seq t with
  | Some n => 0 <= n < 2 ^ 64 /\ Forall (Z.le n) (keys (tr_listed t))
  | None => tr_listed t = []
  end.

Record track_ok (t : Track) : Prop := {
  tk_sorted : StronglySorted Z.lt (keys (tr_listed t));
  tk_range : Forall (fun k => 0 <= k < 2 ^ 64 - 1) (keys (tr_listed t));
  tk_next : next_ok t;
  tk_target : tr_listed t <> [] -> exists d, tr_target t = Some d /\ 0 < d;
  tk_epoch : 0 <= tr_epoch t;
}.

Definition skipped (p : Pool) : Z := ct_skipped (po_counters p).

Definition same_hold (p p' : Pool) : Prop :=
  po_limits p' = po_limits p /\ po_held p' = po_held p /\ po_held_bytes p' = po_held_bytes p
  /\ po_seeded p' = po_seeded p.

(** Where a track stands: its epoch and the next sequence it releases. *)
Definition same_place (t t' : Track) : Prop :=
  tr_epoch t' = tr_epoch t /\ tr_next_seq t' = tr_next_seq t /\ tr_listed t' = tr_listed t
  /\ tr_target t' = tr_target t /\ tr_gap_pending t' = tr_gap_pending t.

Lemma track_ok_ext t t' :
  tr_next_seq t' = tr_next_seq t -> tr_listed t' = tr_listed t -> tr_target t' = tr_target t ->
  tr_epoch t' = tr_epoch t -> track_ok t -> track_ok t'.
Proof.
  intros Hn Hl Ht He [H1 H2 H3 H4 H5].
  constructor; rewrite ?Hl, ?Ht, ?He; auto. unfold next_ok in *. now rewrite Hn, Hl.
Qed.

Lemma take_init_place uri t t' i r : take_init uri t = (t', i, r) -> same_place t t'.
Proof.
  unfold take_init. destruct uri as [uri|]; [|intros [= <- _ _]; done].
  destruct (find_map uri (tr_maps t) ≫= map_take) as [[[d h] m]|]; [|intros [= <- _ _]; done].
  case_bool_decide; intros [= <- _ _]; done.
Qed.

Lemma take_reanchor_place d b t t' r : take_reanchor d b t = (t', r) -> same_place t t'.
Proof.
  unfold take_reanchor. destruct (tr_timeline_pending t); [intros [= <- _]; done|].
  destruct d; intros [= <- _]; done.
Qed.

Lemma skip_discontinuity_place d t :
  same_place (with_gap true t) (skip_discontinuity d t).
Proof. unfold skip_discontinuity. destruct d; [|done]. cbn. now destruct (tr_timeline_pending t). Qed.

(** The turns of the loop: one skips sequences, one releases the next. *)
Definition skips (t : Track) (p : Pool) (t' : Track) (p' : Pool) (out : list Release) : Prop :=
  exists n n', tr_next_seq t = Some n /\ tr_next_seq t' = Some n' /\ n < n' /\ out = []
  /\ p' = count_skipped (n' - n) p /\ tr_gap_pending t' = true.

Definition releases (r : nat) (t : Track) (p : Pool) (t' : Track) (p' : Pool) (out : list Release)
  : Prop :=
  exists n head x, tr_next_seq t = Some n /\ tr_next_seq t' = Some (n + 1)
  /\ hd_error (tr_listed t) = Some (n, head) /\ out = [x] /\ p' = p
  /\ re_rendition x = r /\ re_sequence x = n /\ re_epoch x = tr_epoch t
  /\ Some (re_payload x) = li_payload head
  /\ re_after_gap x = tr_gap_pending t /\ tr_gap_pending t' = false.

(** The entries left: a turn that does not take the first moves up to it. *)
Definition turns_left (t : Track) : nat :=
  2 * length (tr_listed t)
  + match tr_next_seq t, tr_listed t with
    | Some n, (k, _) :: _ => if n <? k then 1 else 0
    | _, _ => 0
    end.

Lemma rest_ok t k head rest n :
  track_ok t -> tr_listed t = (k, head) :: rest -> n = k + 1 ->
  track_ok (with_next (checked_u 64 n) (with_listed rest t)) /\ checked_u 64 n = Some n.
Proof.
  intros [Hs Hr Hn Ht He] El ->. rewrite El in *. cbn in Hs, Hr.
  apply StronglySorted_inv in Hs as [Hs Hk]. apply Forall_cons in Hr as [Hr0 Hr].
  assert (checked_u 64 (k + 1) = Some (k + 1)) as Ec.
  { unfold checked_u. rewrite (proj2 (Z.leb_le 0 _)), (proj2 (Z.ltb_lt _ (2 ^ 64))) by lia. done. }
  split; [|done]. constructor; cbn; [done|done| | |done].
  - unfold next_ok. cbn. rewrite Ec. split; [lia|].
    eapply Forall_impl; [exact Hk|]. cbn. lia.
  - intros _. now apply Ht.
Qed.

Lemma turn_spec r now t p t' p' out :
  track_ok t -> poll_turn r now t p = Some (t', p', out) ->
  track_ok t' /\ tr_epoch t' = tr_epoch t /\ tr_target t' = tr_target t
  /\ (turns_left t' < turns_left t)%nat
  /\ (skips t p t' p' out \/ releases r t p t' p' out).
Proof.
  intros Hok. unfold poll_turn. destruct (tr_next_seq t) as [n|] eqn:En; [|done].
  destruct (tr_listed t) as [|[k head] rest] eqn:El; [done|].
  pose proof (tk_next t Hok) as Hn. unfold next_ok in Hn. rewrite En, El in Hn.
  destruct Hn as [Hn0 Hn]. cbn in Hn. apply Forall_cons in Hn as [Hnk Hrest].
  assert (length rest < length (tr_listed t))%nat as Hlen by (rewrite El; cbn; lia).
  assert (turns_left t = (2 * length (tr_listed t))%nat + (if (n <? k)%Z then 1 else 0))%nat as Etl
    by (unfold turns_left; now rewrite En, El).
  destruct (Z.ltb_spec n k) as [Hjump|Hjump].
  { intros [= <- <- <-]. split_and!; try done.
    - destruct Hok as [H1 H2 H3 H4 H5]. constructor; cbn; auto. unfold next_ok. cbn.
      rewrite El in *. cbn in *. apply StronglySorted_inv in H1 as [_ H1].
      apply Forall_cons in H2 as [H2 _]. split; [lia|]. constructor; [lia|].
      eapply Forall_impl; [exact H1|]. cbn. lia.
    - rewrite Etl. unfold turns_left. cbn. rewrite El, Z.ltb_irrefl. lia.
    - left. exists n, k. done. }
  assert (k = n) as -> by lia.
  destruct (rest_ok t n head rest (n + 1) Hok El eq_refl) as [Hrok Ec].
  assert (forall u, same_place (with_gap (tr_gap_pending u) (with_listed rest t)) u ->
            track_ok (with_next (Some (n + 1)) u)
            /\ (turns_left (with_next (Some (n + 1)%Z) u) < turns_left t)%nat) as Hu.
  { intros u (E1 & E2 & E3 & E4 & E5). rewrite Ec in Hrok. split.
    - eapply track_ok_ext; [| | | |exact Hrok]; done.
    - rewrite Etl. unfold turns_left. cbn in *. rewrite E3.
      destruct rest as [|[k' ?] rest']; cbn in *; [lia|]. destruct (n + 1 <? k'); lia. }
  assert (forall d, same_place (with_gap true (with_listed rest t))
                      (skip_discontinuity d (with_listed rest t)))
    as Hskip by (intros; apply skip_discontinuity_place).
  assert (forall u, same_place (with_gap true (with_listed rest t)) u ->
            track_ok (with_next (Some (n + 1)) u) /\ tr_epoch u = tr_epoch t
            /\ tr_target u = tr_target t
            /\ (turns_left (with_next (Some (n + 1)%Z) u) < turns_left t)%nat
            /\ (skips t p (with_next (Some (n + 1)) u) (count_skipped 1 p) []
                \/ releases r t p (with_next (Some (n + 1)) u) (count_skipped 1 p) [])) as Hdone.
  { intros u Hpl. pose proof Hpl as (E1 & E2 & E3 & E4 & E5).
    destruct (Hu u) as [H1 H2]; [unfold same_place in *; cbn in *; now rewrite E5|].
    split_and!; try done. left. exists n, (n + 1). cbn in *. rewrite E5.
    replace (n + 1 - n) with 1 by lia. split_and!; try done. lia. }
  destruct (li_payload head) as [payload|] eqn:Ep.
  2:{ destruct (gap_expired t head now); [|done]. rewrite Ec. intros [= <- <- <-]. exact (Hdone _ (Hskip _)). }
  destruct (init_ready (li_map_uri head) t).
  2:{ destruct (waited _ _ _); [|done]. rewrite Ec. intros [= <- <- <-].
      apply (Hdone (with_listed rest (skip_discontinuity (li_discontinuity head) t))).
      destruct (skip_discontinuity_place (li_discontinuity head) t) as (E1 & E2 & E3 & E4 & E5).
      unfold same_place. cbn in *. now rewrite E1, E2, E4, E5. }
  destruct (take_init _ _) as [[u i] b] eqn:E1. apply take_init_place in E1.
  destruct (take_reanchor _ _ _) as [v a] eqn:E2. apply take_reanchor_place in E2.
  destruct E1 as (A1 & A2 & A3 & A4 & A5), E2 as (B1 & B2 & B3 & B4 & B5).
  rewrite Ec. intros [= <- <- <-]. cbn in *.
  destruct (Hu (with_gap false v)) as [H1 H2]; [unfold same_place; cbn; split_and!; congruence|].
  split_and!; try done; try congruence.
  right. eexists n, head, _. rewrite El. split_and!; try done; cbn; congruence.
Qed.

(** The sequences from [n] to [n'] are released in order or skipped, and a release is
    marked exactly when it follows a skipped one. *)
Fixpoint accounted (epoch n : Z) (gap : bool) (out : list Release) (n' : Z) (gap' : bool) : Prop :=
  match out with
  | [] => n <= n' /\ gap' = gap || (n <? n')
  | x :: out' =>
      n <= re_sequence x /\ re_epoch x = epoch
      /\ re_after_gap x = gap || (n <? re_sequence x)
      /\ accounted epoch (re_sequence x + 1) false out' n' gap'
  end.

Lemma accounted_skip epoch m n out n' gap' :
  m < n -> accounted epoch n true out n' gap' -> forall gap, accounted epoch m gap out n' gap'.
Proof.
  intros Hm. destruct out as [|x out]; cbn; intros H gap.
  - destruct H as [? ->]. split; [lia|]. rewrite (proj2 (Z.ltb_lt m n')) by lia. now rewrite orb_true_r.
  - destruct H as (? & ? & -> & ?). split_and!; try done; [lia|].
    rewrite (proj2 (Z.ltb_lt m _)) by lia. now rewrite orb_true_r.
Qed.

Lemma accounted_length epoch n gap out n' gap' :
  accounted epoch n gap out n' gap' -> n + zlen out <= n'.
Proof.
  revert n gap. induction out as [|x out IH]; cbn; intros n gap.
  - unfold zlen. cbn. lia.
  - intros (? & _ & _ & H). apply IH in H. rewrite zlen_cons. lia.
Qed.

Lemma count_skipped_add a b p :
  0 <= a -> 0 <= b -> 0 <= skipped p ->
  skipped (count_skipped b (count_skipped a p)) = skipped (count_skipped (a + b) p).
Proof. unfold skipped, count_skipped, sat_u. cbn. lia. Qed.

(** The loop ends by itself. *)
Lemma poll_loop_spec fuel r now t p t' p' out n :
  (turns_left t < fuel)%nat -> track_ok t -> 0 <= skipped p < 2 ^ 64 ->
  tr_next_seq t = Some n ->
  poll_loop fuel r now t p = (t', p', out) ->
  track_ok t' /\ tr_epoch t' = tr_epoch t /\ tr_target t' = tr_target t
  /\ poll_turn r now t' p' = None
  /\ Forall (fun x => re_rendition x = r) out
  /\ same_hold p p'
  /\ exists n', tr_next_seq t' = Some n'
     /\ accounted (tr_epoch t) n (tr_gap_pending t) out n' (tr_gap_pending t')
     /\ skipped p' = skipped (count_skipped (n' - n - zlen out) p).
Proof.
  revert t p t' p' out n. induction fuel as [|fuel IH]; intros t p t' p' out n Hf Hok Hsk Hn; [lia|].
  cbn [poll_loop]. destruct (poll_turn r now t p) as [[[t1 p1] out1]|] eqn:E.
  2:{ intros [= <- <- <-]. split_and!; try done.
      exists n. split_and!; try done; cbn.
      - split; [lia|]. now rewrite Z.ltb_irrefl, orb_false_r.
      - unfold skipped, count_skipped, sat_u, zlen in *. cbn. lia. }
  destruct (turn_spec _ _ _ _ _ _ _ Hok E) as (Hok1 & He & Ht & Hl & Hcase).
  destruct (poll_loop fuel r now t1 p1) as [[t2 p2] out2] eqn:E2. intros [= <- <- <-].
  destruct Hcase as [(m & n1 & Em & En1 & Hlt & -> & -> & Hg)
                    |(m & head & x & Em & En1 & _ & -> & -> & Hr & Hs & Hep & _ & Hag & Hg)].
  - assert (m = n) as -> by congruence.
    destruct (IH t1 (count_skipped (n1 - n) p) t2 p2 out2 n1 ltac:(lia) Hok1) as (H1 & H2 & H3 & H4 & H5 & H6 & n' & H7 & H8 & H9);
      [unfold skipped, count_skipped, sat_u in *; cbn; lia|done|done|].
    rewrite He, Hg in H8. split_and!; try done; try congruence.
    exists n'. split_and!; try done; [exact (accounted_skip _ _ _ _ _ _ Hlt H8 _)|].
    pose proof (accounted_length _ _ _ _ _ _ H8). rewrite H9, count_skipped_add by lia.
    cbn [app]. do 2 f_equal. lia.
  - assert (m = n) as -> by congruence.
    destruct (IH t1 p t2 p2 out2 (n + 1) ltac:(lia) Hok1 Hsk En1 E2)
      as (H1 & H2 & H3 & H4 & H5 & H6 & n' & H7 & H8 & H9).
    rewrite He, Hg in H8. split_and!; try done; try congruence.
    { constructor; [done|]. done. }
    exists n'. split_and!; try done.
    + cbn. rewrite Hs. split_and!; [lia|done| |done]. rewrite Hag. now rewrite Z.ltb_irrefl, orb_false_r.
    + rewrite H9. cbn [app]. rewrite zlen_cons. do 2 f_equal. lia.
Qed.

(** Nothing more may leave the track at [now]. *)
Definition stuck (now : Z) (t : Track) : Prop := forall r p, poll_turn r now t p = None.

Lemma turn_none_stuck r now t p : poll_turn r now t p = None -> stuck now t.
Proof.
  unfold stuck, poll_turn. intros H r' p'. destruct (tr_next_seq t); [|done].
  destruct (tr_listed t) as [|[k head] rest]; [done|]. destruct (_ <? _); [done|].
  destruct (li_payload head).
  - destruct (init_ready _ _); [|now destruct (waited _ _ _)].
    destruct (take_init _ _) as [[? ?] ?]. now destruct (take_reanchor _ _ _).
  - now destruct (gap_expired t head now).
Qed.

(** What a poll does to a track whose releases are [out]. *)
Definition track_polled (t : Track) (out : list Release) (t' : Track) : Prop :=
  tr_epoch t' = tr_epoch t /\ tr_target t' = tr_target t
  /\ match tr_next_seq t with
     | None => t' = t /\ out = []
     | Some n => exists n', tr_next_seq t' = Some n'
                 /\ accounted (tr_epoch t) n (tr_gap_pending t) out n' (tr_gap_pending t')
     end.

(** How far the track moved. *)
Definition advance (t t' : Track) : Z :=
  match tr_next_seq t, tr_next_seq t' with Some n, Some n' => n' - n | _, _ => 0 end.

Definition counters_ok (p : Pool) : Prop := 0 <= skipped p < 2 ^ 64.

Lemma track_poll_spec r now t p t' p' out :
  track_ok t -> counters_ok p -> track_poll r now t p = (t', p', out) ->
  track_ok t' /\ stuck now t' /\ track_polled t out t' /\ same_hold p p' /\ counters_ok p'
  /\ Forall (fun x => re_rendition x = r) out
  /\ zlen out <= advance t t'
  /\ skipped p' = sat_u 64 (skipped p + (advance t t' - zlen out)).
Proof.
  intros Hok Hc. unfold track_poll. destruct (tr_next_seq t) as [n|] eqn:En.
  - intros E. assert (turns_left t < 2 + 2 * length (tr_listed t))%nat as Hf.
    { unfold turns_left. rewrite En. destruct (tr_listed t) as [|[k ?] ?]; cbn; [lia|].
      destruct (n <? k); lia. }
    destruct (poll_loop_spec _ _ _ _ _ _ _ _ n Hf
      Hok Hc En E) as (H1 & H2 & H3 & H4 & H5 & H6 & n' & H7 & H8 & H9).
    pose proof (accounted_length _ _ _ _ _ _ H8).
    assert (skipped p' = sat_u 64 (skipped p + (advance t t' - zlen out))) as Hs
      by (unfold advance; rewrite En, H7; exact H9).
    split_and!; try done.
    + eapply turn_none_stuck; eassumption.
    + unfold track_polled. rewrite En. eauto.
    + unfold counters_ok. rewrite Hs. unfold sat_u. lia.
    + unfold advance. rewrite En, H7. lia.
  - assert (poll_turn r now t p = None) as E by (unfold poll_turn; now rewrite En).
    cbn [poll_loop Nat.add]. rewrite E. intros [= <- <- <-].
    split_and!; try done.
    + eapply turn_none_stuck; eassumption.
    + unfold track_polled. now rewrite En.
    + unfold advance. now rewrite En.
    + unfold advance. rewrite En. unfold counters_ok, sat_u, zlen in *. cbn. lia.
Qed.

Definition of_rendition (i : nat) (out : list Release) : list Release :=
  filter (fun x => re_rendition x = i) out.

Lemma of_rendition_app i a b : of_rendition i (a ++ b) = of_rendition i a ++ of_rendition i b.
Proof. apply filter_app. Qed.

Lemma of_rendition_all i out : Forall (fun x => re_rendition x = i) out -> of_rendition i out = out.
Proof.
  induction 1 as [|x out Hx _ IH]; [done|]. unfold of_rendition in *.
  now rewrite filter_cons_True, IH.
Qed.

Lemma of_rendition_none i out :
  Forall (fun x => re_rendition x <> i) out -> of_rendition i out = [].
Proof.
  induction 1 as [|x out Hx _ IH]; [done|]. unfold of_rendition in *.
  now rewrite filter_cons_False.
Qed.

Fixpoint total_advance (ts ts' : list Track) : Z :=
  match ts, ts' with
  | t :: ts, t' :: ts' => advance t t' + total_advance ts ts'
  | _, _ => 0
  end.

Lemma poll_tracks_spec ts : forall r now p ts' p' out,
  Forall track_ok ts -> counters_ok p -> poll_tracks r now ts p = (ts', p', out) ->
  same_hold p p' /\ counters_ok p' /\ Forall track_ok ts' /\ Forall (stuck now) ts'
  /\ length ts' = length ts
  /\ Forall (fun x => (r <= re_rendition x)%nat) out
  /\ (forall i t, ts !! i = Some t -> exists t', ts' !! i = Some t'
        /\ track_polled t (of_rendition (r + i) out) t')
  /\ zlen out <= total_advance ts ts'
  /\ skipped p' = sat_u 64 (skipped p + (total_advance ts ts' - zlen out)).
Proof.
  induction ts as [|t ts IH]; intros r now p ts' p' out Hok Hc; cbn [poll_tracks].
  - intros [= <- <- <-]. split_and!; try done.
    unfold counters_ok, sat_u, zlen in *. cbn. lia.
  - apply Forall_cons in Hok as [Hok Hoks].
    destruct (track_poll r now t p) as [[t1 p1] out1] eqn:E1.
    destruct (poll_tracks (S r) now ts p1) as [[ts2 p2] out2] eqn:E2. intros [= <- <- <-].
    destruct (track_poll_spec _ _ _ _ _ _ _ Hok Hc E1) as (A1 & A2 & A3 & A4 & A5 & A6 & A7 & A8).
    destruct (IH _ _ _ _ _ _ Hoks A5 E2) as (B1 & B2 & B3 & B4 & B5 & B6 & B7 & B8 & B9).
    assert (zlen (out1 ++ out2) = zlen out1 + zlen out2) as El
      by (unfold zlen; rewrite length_app; lia).
    split_and!; try done.
    + unfold same_hold in *. destruct A4 as (? & ? & ? & ?), B1 as (? & ? & ? & ?).
      split_and!; congruence.
    + now constructor.
    + now constructor.
    + cbn. congruence.
    + apply Forall_app. split.
      * eapply Forall_impl; [exact A6|]. cbn. lia.
      * eapply Forall_impl; [exact B6|]. cbn. lia.
    + intros [|i] u; cbn.
      * intros [= <-]. exists t1. split; [done|]. rewrite Nat.add_0_r, of_rendition_app.
        rewrite of_rendition_all by done. rewrite (of_rendition_none r out2).
        { now rewrite app_nil_r. }
        eapply Forall_impl; [exact B6|]. cbn. lia.
      * intros Hi. destruct (B7 _ _ Hi) as (t' & Ht' & Hp). exists t'. split; [done|].
        rewrite of_rendition_app. rewrite (of_rendition_none _ out1).
        { now replace (r + S i)%nat with (S r + i)%nat by lia. }
        eapply Forall_impl; [exact A6|]. cbn. lia.
    + cbn [total_advance]. lia.
    + rewrite B9, A8. cbn [total_advance]. rewrite El. unfold counters_ok, sat_u in *. lia.
Qed.

(** ** Operations of a session *)

Inductive Op :=
| OpSegment (path : string) (payload : bytes) (now : Z)
| OpPlaylist (path : string) (playlist : Playlist) (now : Z)
| OpPoll (now : Z)
| OpSeed (rendition : nat) (uri : string) (data : bytes)
| OpVoid (uri : string)
| OpFailed.

Definition step (op : Op) (s : Session) : Session * list Release :=
  match op with
  | OpSegment path payload now => ((on_segment path payload now s).1, [])
  | OpPlaylist path playlist now => ((on_playlist path playlist now s).1, [])
  | OpPoll now => poll now s
  | OpSeed rendition uri data => (seed_init rendition uri data s, [])
  | OpVoid uri => (void_map uri s, [])
  | OpFailed => (note_failed_segment s, [])
  end.

Fixpoint session_run (ops : list Op) (s : Session) : Session * list Release :=
  match ops with
  | [] => (s, [])
  | op :: ops =>
      let '(s, out) := step op s in
      let '(s, out') := session_run ops s in (s, out ++ out')
  end.

(** What the parser returns, a target duration above zero and sequences in range, but for the
    last [u64]: after it there is no next sequence, and a listing of it is taken for new
    ([last_sequence_repeats]). *)
Definition media_ok (m : MediaPlaylist) : Prop :=
  0 < mp_target_duration m
  /\ Forall (fun s => 0 <= se_sequence s < 2 ^ 64 - 1) (mp_segments m).
Definition op_ok (op : Op) : Prop :=
  match op with OpPlaylist _ (Media m) _ => media_ok m | _ => True end.

(** What the parser returns is what a session is given, short of the last sequence. *)
Lemma parsed_media_ok data path m :
  parse data path = inr (Media m) -> mp_media_sequence m + zlen (mp_segments m) < 2 ^ 64 ->
  media_ok m.
Proof.
  intros H Hz. apply (parse_with_ok _ canonical) in H.
  2:{ intros uri r Hr. unfold resolve_uri in Hr. destruct (_ || _); [done|].
      now apply normalize_path_canonical in Hr. }
  destruct H as [[Ht _] H0 _ Hn _ _]. split; [done|]. apply Forall_forall. intros s Hs.
  assert (se_sequence s ∈ map se_sequence (mp_segments m)) as Hin by now apply list_elem_of_fmap_2.
  rewrite Hn in Hin. unfold zseq in Hin. apply list_elem_of_In, in_map_iff in Hin as (i & <- & Hi%in_seq).
  unfold zlen in Hz. lia.
Qed.

(** ** Position *)

Definition pos_le (t t' : Track) : Prop :=
  tr_epoch t < tr_epoch t'
  \/ tr_epoch t' = tr_epoch t
     /\ match tr_next_seq t, tr_next_seq t' with
        | None, _ => True
        | Some n, Some n' => n <= n'
        | Some _, None => False
        end.

#[local] Instance pos_le_refl : Reflexive pos_le.
Proof. intros t. right. split; [done|]. destruct (tr_next_seq t); lia. Qed.

(** Same listing and position: what an operation on inits leaves. *)
Lemma ensure_map_place uri t p t' p' : ensure_map uri t p = (t', p') -> same_place t t'.
Proof.
  unfold ensure_map. destruct (knows_map uri t); [intros [= <- _]; done|].
  destruct (take_held uri p). intros [= <- _]. done.
Qed.

Lemma take_held_counters path p : po_counters (take_held path p).2 = po_counters p.
Proof. unfold take_held. now destruct (held_remove _ _) as [[? ?]|]. Qed.

Lemma ensure_map_counters uri t p : po_counters (ensure_map uri t p).2 = po_counters p.
Proof.
  unfold ensure_map. destruct (knows_map uri t); [done|].
  pose proof (take_held_counters uri p). now destruct (take_held uri p).
Qed.

Lemma track_ok_insert t k l :
  track_ok t -> 0 <= k < 2 ^ 64 - 1 -> (exists d, tr_target t = Some d /\ 0 < d) ->
  (exists n, tr_next_seq t = Some n /\ n <= k) ->
  track_ok (with_listed (btree_insert k l (tr_listed t)) t).
Proof.
  intros [H1 H2 H3 H4 H5] Hk Ht (n & En & Hn).
  constructor; cbn; [now apply sorted_insert| | |done|done].
  - apply Forall_forall. intros x [->|Hx]%keys_insert; [done|]. rewrite Forall_forall in H2. auto.
  - unfold next_ok in *. cbn. rewrite En in *. destruct H3 as [Hr H3]. split; [done|].
    apply Forall_forall. intros x [->|Hx]%keys_insert; [done|]. rewrite Forall_forall in H3. auto.
Qed.

(** What the loop over a playlist's segments keeps. *)
Definition merging (n epoch : Z) (gap : bool) (tp : Track * Pool) : Prop :=
  track_ok tp.1 /\ tr_next_seq tp.1 = Some n /\ tr_epoch tp.1 = epoch
  /\ tr_gap_pending tp.1 = gap
  /\ (exists d, tr_target tp.1 = Some d /\ 0 < d) /\ counters_ok tp.2.

Lemma counters_ok_ext p p' : po_counters p' = po_counters p -> counters_ok p -> counters_ok p'.
Proof. unfold counters_ok, skipped. now intros ->. Qed.

Lemma merge_segment_keeps n epoch gap now seg tp :
  0 <= se_sequence seg < 2 ^ 64 - 1 -> merging n epoch gap tp ->
  merging n epoch gap (merge_segment now seg tp).
Proof.
  destruct tp as [t p]. intros Hr (Hok & Hn & He & Hg & Ht & Hc). unfold merge_segment.
  cbn [fst snd] in *. rewrite Hn. destruct (Z.ltb_spec (se_sequence seg) n) as [Hlt|Hge].
  { unfold remove_held. pose proof (take_held_counters (se_path seg) p) as Ec.
    destruct (take_held (se_path seg) p) as [[b|] p1]; cbn in Ec.
    - split_and!; cbn; try done. unfold counters_ok, skipped in *. cbn. now rewrite Ec.
    - split_and!; cbn; try done. now apply (counters_ok_ext p). }
  destruct (btree_get _ _) as [l|].
  { destruct (li_payload l); [done|]. case_bool_decide; [|done].
    pose proof (take_held_counters (se_path seg) p) as Ec.
    destruct (take_held (se_path seg) p) as [[b|] p1]; cbn in Ec; [|split_and!; try done].
    2: now apply (counters_ok_ext p).
    split_and!; cbn; try done; [|now apply (counters_ok_ext p)]. apply track_ok_insert; eauto. }
  destruct (match se_map_uri seg with Some uri => ensure_map uri t p | None => (t, p) end)
    as [t1 p1] eqn:E1.
  assert (same_place t t1 /\ po_counters p1 = po_counters p) as [(A1 & A2 & A3 & A4 & A5) Ec1].
  { destruct (se_map_uri seg) as [uri|]; [|injection E1 as <- <-; done].
    split; [exact (ensure_map_place _ _ _ _ _ E1)|]. pose proof (ensure_map_counters uri t p). now rewrite E1 in *. }
  pose proof (take_held_counters (se_path seg) p1) as Ec.
  destruct (take_held (se_path seg) p1) as [b p2]. cbn in Ec.
  assert (track_ok t1) as Hok1 by exact (track_ok_ext t t1 A2 A3 A4 A1 Hok).
  assert (tr_next_seq t1 = Some n) as Hn1 by congruence.
  assert (exists d, tr_target t1 = Some d /\ 0 < d) as Ht1 by (destruct Ht as (d & ? & ?); exists d; split; congruence).
  split_and!; cbn [fst snd]; try done; try (cbn; congruence).
  - apply track_ok_insert; eauto.
  - apply (counters_ok_ext p); congruence.
Qed.

Lemma merge_all_keeps n epoch gap now segs : forall tp,
  Forall (fun s => 0 <= se_sequence s < 2 ^ 64 - 1) segs -> merging n epoch gap tp ->
  merging n epoch gap (fold_left (fun tp s => merge_segment now s tp) segs tp).
Proof.
  induction segs as [|s segs IH]; intros tp Hr Hm; [done|]. apply Forall_cons in Hr as [Hs Hr].
  cbn. apply IH; [done|]. now apply merge_segment_keeps.
Qed.

Lemma note_playlist_place m t p t' p' :
  note_playlist m (t, p) = (t', p') ->
  tr_epoch t' = tr_epoch t /\ tr_next_seq t' = tr_next_seq t /\ tr_listed t' = tr_listed t
  /\ tr_target t' = Some (mp_target_duration m) /\ tr_gap_pending t' = tr_gap_pending t
  /\ po_counters p' = po_counters p.
Proof.
  unfold note_playlist. destruct (mp_map_uri m) as [uri|]; [|intros [= <- <-]; done].
  match goal with |- context [ensure_map uri ?u p] =>
    destruct (ensure_map uri u p) as [t1 p1] eqn:E;
    pose proof (ensure_map_counters uri u p) as Ec; rewrite E in Ec end.
  apply ensure_map_place in E as (A1 & A2 & A3 & A4 & A5). intros [= <- <-]. done.
Qed.

Lemma on_followed_spec m now t p t' p' :
  media_ok m -> track_ok t -> counters_ok p -> tr_epoch t < 2 ^ 64 - 1 ->
  on_followed m now (t, p) = (t', p') ->
  track_ok t' /\ counters_ok p' /\ pos_le t t' /\ tr_epoch t' <= tr_epoch t + 1.
Proof.
  intros [Htg Hseq] Hok Hc Hep. unfold on_followed.
  destruct (note_playlist m (t, p)) as [t1 p1] eqn:E1.
  apply note_playlist_place in E1 as (A1 & A2 & A3 & A4 & A5 & Ec1).
  assert (counters_ok p1) as Hc1 by now apply (counters_ok_ext p).
  assert (track_ok t1) as Hok1.
  { destruct Hok as [H1 H2 H3 H4 H5]. constructor; rewrite ?A3, ?A1; try done.
    - unfold next_ok in *. now rewrite A2, A3.
    - intros _. exists (mp_target_duration m). done. }
  assert (pos_le t t1) as Hle1.
  { right. split; [done|]. rewrite A2. destruct (tr_next_seq t); lia. }
  destruct (head (mp_segments m)) as [first|] eqn:Ef.
  2:{ intros [= <- <-]. split_and!; try done; cbn; [|lia]. eapply track_ok_ext; [| | | |exact Hok1]; done. }
  destruct (last (mp_segments m)) as [lst|] eqn:El.
  2:{ intros [= <- <-]. split_and!; try done; cbn; [|lia]. eapply track_ok_ext; [| | | |exact Hok1]; done. }
  assert (0 <= se_sequence first < 2 ^ 64 - 1) as Hfirst.
  { rewrite Forall_forall in Hseq. apply Hseq. destruct (mp_segments m); [done|]. injection Ef as ->. left. }
  set (tp := if starts_new_epoch t1 m (se_sequence lst)
             then (start_epoch (se_sequence first) t1, count_epoch p1) else (t1, p1)).
  assert (track_ok tp.1 /\ counters_ok tp.2 /\ pos_le t tp.1 /\ tr_epoch tp.1 <= tr_epoch t + 1
          /\ (exists d, tr_target tp.1 = Some d /\ 0 < d)) as (B1 & B2 & B3 & B4 & B5).
  { unfold tp. destruct (starts_new_epoch _ _ _); cbn; [|split_and!; eauto; lia].
    pose proof (tk_epoch t Hok). assert (sat_u 64 (tr_epoch t1 + 1) = tr_epoch t + 1) as Hsat
      by (unfold sat_u; lia).
    split_and!; try done.
    - constructor; cbn; [constructor|constructor| |done|lia].
      split; [lia|constructor].
    - left. cbn. lia.
    - lia.
    - eauto. }
  destruct tp as [t2 p2]. cbn [fst snd] in *.
  set (t3 := match tr_next_seq t2 with Some _ => t2 | None => with_next (Some (se_sequence first)) t2 end).
  assert (exists n, tr_next_seq t3 = Some n
            /\ (tr_next_seq t2 = None \/ tr_next_seq t2 = Some n)
            /\ merging n (tr_epoch t2) (tr_gap_pending t2) (t3, p2)) as (n & Hn & Hn2 & Hm).
  { unfold t3. destruct (tr_next_seq t2) as [n|] eqn:En.
    - exists n. split_and!; try done. now right.
    - exists (se_sequence first). split_and!; try done; [now left|]. destruct B1 as [H1 H2 H3 H4 H5].
      unfold next_ok in H3. rewrite En in H3. cbn [fst].
      unfold merging. split_and!; cbn [fst snd]; try done.
      constructor; cbn; try done. unfold next_ok. cbn. rewrite H3. split; [lia|constructor]. }
  apply (merge_all_keeps _ _ _ now (mp_segments m) _ Hseq) in Hm.
  destruct (fold_left _ _ _) as [t4 p4]. destruct Hm as (C1 & C2 & C3 & C4 & C5 & C6). cbn in *.
  intros [= <- <-]. split_and!; try done; cbn; [| |lia].
  - eapply track_ok_ext; [| | | |exact C1]; done.
  - unfold pos_le in *. cbn. rewrite C2, C3.
    destruct B3 as [?|[? B3]]; [now left|right]. split; [done|].
    destruct (tr_next_seq t); [|done]. destruct Hn2 as [E|E]; rewrite E in B3; done.
Qed.

(** ** The invariant of a session *)

Record session_ok (k : Z) (s : Session) : Prop := {
  so_tracks : Forall track_ok (ss_tracks s);
  so_epochs : Forall (fun t => tr_epoch t <= k) (ss_tracks s);
  so_counters : counters_ok (ss_pool s);
}.

Lemma session_new_ok limits : session_ok 0 (Session_new limits).
Proof.
  constructor; cbn; [|repeat constructor; done|unfold counters_ok, skipped; cbn; lia].
  constructor; [|constructor]. constructor; cbn; try constructor; done.
Qed.

(** A change of tracks that loses none and takes none back. *)
Definition tracks_le (ts ts' : list Track) : Prop :=
  forall i t, ts !! i = Some t -> exists t', ts' !! i = Some t' /\ pos_le t t'.

#[local] Instance tracks_le_refl : Reflexive tracks_le.
Proof. intros ts i t Hi. exists t. done. Qed.

Definition keeps (t t' : Track) : Prop :=
  tr_epoch t' = tr_epoch t /\ tr_next_seq t' = tr_next_seq t /\ (track_ok t -> track_ok t').

#[local] Instance keeps_refl : Reflexive keeps.
Proof. intros t. done. Qed.

Lemma keeps_le t t' : keeps t t' -> pos_le t t'.
Proof. intros (E1 & E2 & _). right. split; [done|]. rewrite E2. destruct (tr_next_seq t); lia. Qed.

Lemma keeps_tracks k ts ts' :
  Forall2 keeps ts ts' -> Forall track_ok ts -> Forall (fun t => tr_epoch t <= k) ts ->
  Forall track_ok ts' /\ Forall (fun t => tr_epoch t <= k) ts' /\ tracks_le ts ts'.
Proof.
  intros H Hok He. split_and!.
  - induction H as [|t t' ts ts' (_ & _ & Hk) _ IH]; [constructor|].
    apply Forall_cons in Hok as [? ?], He as [? ?]. constructor; auto.
  - induction H as [|t t' ts ts' (E & _) _ IH]; [constructor|].
    apply Forall_cons in Hok as [? ?], He as [? ?]. constructor; [congruence|auto].
  - intros i t Hi. destruct (Forall2_lookup_l _ _ _ _ _ H Hi) as (t' & Ht' & Hk).
    exists t'. split; [done|]. now apply keeps_le.
Qed.

Lemma place_keeps t t' : same_place t t' -> keeps t t'.
Proof. intros (E1 & E2 & E3 & E4 & _). split_and!; [done|done|]. now apply track_ok_ext. Qed.

Lemma attach_init_keeps path payload ts ts' :
  attach_init path payload ts = Some ts' -> Forall2 keeps ts ts'.
Proof.
  revert ts'. induction ts as [|t ts IH]; cbn; [done|]. intros ts'.
  destruct (knows_map path t).
  - intros [= <-]. constructor; [|reflexivity]. now apply place_keeps.
  - destruct (attach_init path payload ts); [|done]. intros [= <-]. constructor; [done|]. now apply IH.
Qed.

Lemma btree_get_in {V} k (m : list (Z * V)) v : btree_get k m = Some v -> k ∈ keys m.
Proof.
  induction m as [|[a b] m IH]; cbn; [done|]. destruct (Z.eqb_spec k a); [subst; left|right; auto].
Qed.

Lemma fill_listed_keeps t k l v :
  btree_get k (tr_listed t) = Some v -> keeps t (with_listed (btree_insert k l (tr_listed t)) t).
Proof.
  intros Hg. split_and!; [done|done|]. intros [H1 H2 H3 H4 H5].
  pose proof (keys_insert_present _ l _ _ Hg H1) as Ek.
  constructor; cbn [with_listed tr_listed tr_target tr_epoch]; rewrite ?Ek; try done.
  - unfold next_ok in *. cbn [with_listed tr_listed tr_next_seq]. rewrite Ek. destruct (tr_next_seq t); [done|]. now rewrite H3 in Hg.
  - intros _. apply H4. intros E. now rewrite E in Hg.
Qed.

Lemma attach_segment_keeps path payload ts b ts' :
  attach_segment path payload ts = Some (b, ts') -> Forall2 keeps ts ts'.
Proof.
  revert b ts'. induction ts as [|t ts IH]; cbn [attach_segment]; [done|]. intros b ts'.
  destruct (tr_latest_listing t !! path ≫= _) as [[k l]|] eqn:E.
  - destruct (tr_latest_listing t !! path) as [k'|]; [|done]. cbn in E.
    destruct (btree_get k' (tr_listed t)) as [l'|] eqn:Eg; [|done]. cbn in E.
    case_bool_decide; [|done]. injection E as <- <-.
    destruct (li_payload l').
    + intros [= <- <-]. reflexivity.
    + intros [= <- <-]. constructor; [|reflexivity]. exact (fill_listed_keeps _ _ _ _ Eg).
  - destruct (attach_segment path payload ts) as [[b1 ts1]|]; [|done]. cbn. intros [= <- <-].
    constructor; [done|]. exact (IH _ _ eq_refl).
Qed.

(** What a master does to any property of tracks that its changes keep. *)
Section MasterTracks.
Context (P : Track -> Prop).
Context (P_moved : forall t, P t -> P (moved t)).
Context (P_switch : forall t path, P t -> P (switch_to path t)).
Context (P_path : forall t path, P t -> P (with_path path t)).
Context (P_new : forall path, P (Track_new path)).

Definition all_some (l : list (option Track)) : Prop := forall t, Some t ∈ l -> P t.

Lemma all_some_insert_None i l : all_some l -> all_some (<[i := None]> l).
Proof.
  intros H t Ht. apply list_elem_of_lookup in Ht as [j Hj].
  apply list_lookup_insert_Some in Hj as [(_ & ? & _)|[_ Hj]]; [done|].
  apply H. by eapply list_elem_of_lookup_2.
Qed.

Lemma take_followed_all paths : forall r old slots old',
  all_some old -> take_followed r paths old = (slots, old') -> all_some slots /\ all_some old'.
Proof.
  induction paths as [|path paths IH]; intros r old slots old' Hold; cbn [take_followed].
  { intros [= <- <-]. split; [|done]. intros t Ht. now apply elem_of_nil in Ht. }
  destruct (list_find _ old) as [[i [t|]]|] eqn:Ef.
  - destruct (take_followed _ paths _) as [s1 o1] eqn:E1. intros [= <- <-].
    destruct (IH _ _ _ _ (all_some_insert_None _ _ Hold) E1) as [H1 H2]. split; [|done].
    apply list_find_Some in Ef as (Hi & _). assert (P t) as Ht.
    { apply Hold. by eapply list_elem_of_lookup_2. }
    intros u [[= ->]|Hu]%elem_of_cons; [|now apply H1]. case_match; auto.
  - destruct (take_followed _ paths _) as [s1 o1] eqn:E1. intros [= <- <-].
    destruct (IH _ _ _ _ Hold E1) as [H1 H2]. split; [|done].
    intros u [?|Hu]%elem_of_cons; [done|now apply H1].
  - destruct (take_followed _ paths _) as [s1 o1] eqn:E1. intros [= <- <-].
    destruct (IH _ _ _ _ Hold E1) as [H1 H2]. split; [|done].
    intros u [?|Hu]%elem_of_cons; [done|now apply H1].
Qed.

Lemma fill_slots_all paths : forall r slots old,
  all_some slots -> all_some old -> Forall P (fill_slots r paths slots old).
Proof.
  induction paths as [|path paths IH]; intros r slots old Hs Ho; [constructor|].
  destruct slots as [|slot slots]; [constructor|]. cbn [fill_slots].
  assert (all_some slots) as Hs' by (intros t Ht; apply Hs; now right).
  destruct slot as [t|]; constructor; auto.
  - apply Hs. left.
  - destruct (old !! r) as [[t|]|] eqn:E; try apply P_new.
    assert (P t) by (apply Ho; by eapply list_elem_of_lookup_2). destruct (tr_path t); auto.
  - apply IH; [done|]. now apply all_some_insert_None.
Qed.

Lemma on_master_all m s : Forall P (ss_tracks s) -> Forall P (ss_tracks (on_master m s)).
Proof.
  intros H. unfold on_master. destruct (wanted m) as [|a paths]; [done|].
  destruct (take_followed 0 (a :: paths) _) as [slots old] eqn:E. cbn [ss_tracks].
  apply take_followed_all in E as [H1 H2].
  2:{ intros t (u & [= <-] & Hu)%list_elem_of_fmap. rewrite Forall_forall in H. auto. }
  pose proof (fill_slots_all (a :: paths) 0 slots old H1 H2) as H3.
  destruct (fill_slots 0 (a :: paths) slots old); [|done]. now repeat constructor.
Qed.
End MasterTracks.

(** ** Steps *)

Lemma remove_held_skipped path p : skipped (remove_held path p).2 = skipped p.
Proof.
  unfold remove_held, skipped. rewrite <- (take_held_counters path p). now destruct (take_held path p).
Qed.

Lemma pop_oldest_skipped p : skipped (pop_oldest_held p) = skipped p.
Proof. unfold pop_oldest_held. now destruct (po_held p). Qed.

Lemma evict_loop_skipped l : forall p, skipped (evict_loop l p) = skipped p.
Proof.
  induction l as [|h l IH]; intros p; cbn [evict_loop]; [done|].
  destruct (_ || _); [|done]. rewrite IH. exact (pop_oldest_skipped p).
Qed.

Lemma age_loop_skipped now a l : forall p, skipped (age_loop now a l p) = skipped p.
Proof.
  induction l as [|h l IH]; intros p; cbn [age_loop]; [done|].
  destruct (_ <=? _); [|done]. rewrite IH. exact (pop_oldest_skipped p).
Qed.

Lemma hold_skipped path payload now p : skipped (hold path payload now p) = skipped p.
Proof.
  unfold hold. pose proof (remove_held_skipped path p). destruct (remove_held path p) as [b p1].
  now rewrite evict_loop_skipped.
Qed.

Lemma remove_all_skipped l : forall p,
  skipped (fold_left (fun p path => (remove_held path p).2) l p) = skipped p.
Proof.
  induction l as [|h l IH]; intros p; cbn; [done|]. rewrite IH. apply remove_held_skipped.
Qed.

Lemma on_segment_ok k path payload now s :
  session_ok k s ->
  session_ok k (on_segment path payload now s).1
  /\ tracks_le (ss_tracks s) (ss_tracks (on_segment path payload now s).1).
Proof.
  intros [H1 H2 H3]. unfold on_segment.
  destruct (attach_init path payload (ss_tracks s)) as [ts|] eqn:E1.
  { apply attach_init_keeps in E1. destruct (keeps_tracks k _ _ E1 H1 H2) as (A1 & A2 & A3). done. }
  destruct (attach_segment path payload (ss_tracks s)) as [[[] ts]|] eqn:E2.
  - apply attach_segment_keeps in E2. destruct (keeps_tracks k _ _ E2 H1 H2) as (A1 & A2 & A3). done.
  - apply attach_segment_keeps in E2. destruct (keeps_tracks k _ _ E2 H1 H2) as (A1 & A2 & A3). done.
  - destruct (_ && _); [done|]. split; [|reflexivity]. constructor; cbn; try done.
    unfold counters_ok. now rewrite hold_skipped.
Qed.

Lemma tracks_insert k k' ts i t t' :
  ts !! i = Some t -> pos_le t t' -> track_ok t' -> tr_epoch t' <= k' -> k <= k' ->
  Forall track_ok ts -> Forall (fun t => tr_epoch t <= k) ts ->
  Forall track_ok (<[i := t']> ts) /\ Forall (fun t => tr_epoch t <= k') (<[i := t']> ts)
  /\ tracks_le ts (<[i := t']> ts).
Proof.
  intros Hi Hle Hok He Hk Hts Hes. split_and!.
  - now apply Forall_insert.
  - apply Forall_insert; [|done]. eapply Forall_impl; [exact Hes|]. cbn. lia.
  - intros j u Hj. destruct (decide (i = j)) as [<-|Hij].
    + rewrite list_lookup_insert_eq by (eapply lookup_lt_Some; exact Hi). exists t'.
      rewrite Hi in Hj. injection Hj as <-. done.
    + rewrite list_lookup_insert_ne by done. exists u. done.
Qed.

Lemma on_media_ok k path m now s :
  media_ok m -> session_ok k s -> k < 2 ^ 64 - 1 ->
  session_ok (k + 1) (on_playlist path (Media m) now s).1
  /\ tracks_le (ss_tracks s) (ss_tracks (on_playlist path (Media m) now s).1).
Proof.
  intros Hm [H1 H2 H3] Hk.
  assert (forall i ts, Forall2 keeps (ss_tracks s) ts ->
    let s' := match ts !! i with
              | Some t => let '(t, p) := on_followed m now (t, ss_pool s) in
                          mk_Session p (<[i := t]> ts) (ss_other_variants s) (ss_master_seen s)
              | None => s
              end in
    session_ok (k + 1) s' /\ tracks_le (ss_tracks s) (ss_tracks s')) as Hf.
  { intros i ts Hts. destruct (keeps_tracks k _ _ Hts H1 H2) as (A1 & A2 & A3).
    destruct (ts !! i) as [t|] eqn:Ei.
    - destruct (on_followed m now (t, ss_pool s)) as [t' p'] eqn:Ef.
      rewrite Forall_forall in A1, A2. assert (t ∈ ts) as Hin by by eapply list_elem_of_lookup_2.
      specialize (A2 _ Hin). cbn in A2.
      destruct (on_followed_spec _ _ _ _ _ _ Hm (A1 _ Hin) H3 ltac:(lia) Ef) as (B1 & B2 & B3 & B4).
      destruct (keeps_tracks k _ _ Hts H1 H2) as (A1' & A2' & _).
      destruct (tracks_insert k (k + 1) ts i t t' Ei B3 B1 ltac:(lia) ltac:(lia) A1' A2') as (C1 & C2 & C3).
      split; [constructor; done|]. cbn. intros j u Hj.
      destruct (Forall2_lookup_l _ _ _ _ _ Hts Hj) as (u' & Hu' & Hku). destruct (C3 _ _ Hu') as (v & Hv & Hle).
      exists v. split; [done|]. destruct Hku as (E1 & E2 & _). unfold pos_le in *. now rewrite E1, E2 in Hle.
    - split; [|reflexivity]. constructor; try done. eapply Forall_impl; [exact H2|]. cbn. lia. }
  cbn [on_playlist]. destruct (follows path s) as [|i|].
  - apply (Hf 0%nat). destruct (ss_tracks s); [constructor|]. constructor; [|reflexivity]. now apply place_keeps.
  - apply (Hf i). reflexivity.
  - cbn. split; [|reflexivity]. constructor; cbn; try done.
    + eapply Forall_impl; [exact H2|]. cbn. lia.
    + unfold counters_ok. destruct (_ || _); [|done]. now rewrite remove_all_skipped.
Qed.

Lemma on_master_ok k m s : session_ok k s -> 0 <= k -> session_ok k (on_master m s).
Proof.
  intros [H1 H2 H3] Hk. constructor.
  - apply on_master_all; try done.
    + intros t. apply track_ok_ext; done.
    + intros t path [A1 A2 A3 A4 A5]. constructor; cbn; try constructor; done.
    + intros t path. apply track_ok_ext; done.
    + intros path. constructor; cbn; try constructor; done.
  - apply on_master_all; try done.
  - unfold on_master. destruct (wanted m); [done|]. now destruct (take_followed _ _ _).
Qed.

Lemma seed_init_ok k i uri data s :
  session_ok k s -> 0 <= k ->
  session_ok k (seed_init i uri data s) /\ tracks_le (ss_tracks s) (ss_tracks (seed_init i uri data s)).
Proof.
  intros [H1 H2 H3] Hk. unfold seed_init. case_match; [done|].
  set (ts := grow_tracks i (ss_tracks s)).
  assert (Forall track_ok ts /\ Forall (fun t => tr_epoch t <= k) ts /\ tracks_le (ss_tracks s) ts)
    as (A1 & A2 & A3).
  { unfold ts, grow_tracks. split_and!.
    - apply Forall_app. split; [done|]. apply Forall_replicate. constructor; cbn; try constructor; done.
    - apply Forall_app. split; [done|]. apply Forall_replicate. done.
    - intros j t Hj. exists t. split; [|done]. now apply lookup_app_l_Some. }
  destruct (ts !! i) as [t|] eqn:Ei; [|done].
  match goal with |- context [ensure_map uri t ?q] => set (p := q);
    pose proof (ensure_map_counters uri t p) as Ec; destruct (ensure_map uri t p) as [t' p'] eqn:E end.
  apply ensure_map_place, place_keeps in E. pose proof (keeps_le _ _ E) as Hle.
  destruct E as (E1 & E2 & E3). assert (t ∈ ts) as Hin by by eapply list_elem_of_lookup_2.
  destruct (tracks_insert k k ts i t t' Ei Hle) as (C1 & C2 & C3); try done.
  { apply E3. rewrite Forall_forall in A1. auto. }
  { rewrite E1. rewrite Forall_forall in A2. auto. }
  split.
  - constructor; cbn; try done. apply (counters_ok_ext (ss_pool s)); done.
  - intros j u Hj. destruct (A3 _ _ Hj) as (v & Hv & Hle'). destruct (C3 _ _ Hv) as (w & Hw & Hle2).
    exists w. split; [done|]. unfold ts, grow_tracks in Hv. rewrite lookup_app_l in Hv.
    + congruence.
    + by eapply lookup_lt_Some.
Qed.

Lemma void_map_ok k uri s :
  session_ok k s ->
  session_ok k (void_map uri s) /\ tracks_le (ss_tracks s) (ss_tracks (void_map uri s)).
Proof.
  intros [H1 H2 H3]. assert (Forall2 keeps (ss_tracks s) (ss_tracks (void_map uri s))) as Hk.
  { cbn. induction (ss_tracks s); constructor.
    - now apply place_keeps.
    - apply IHl; [now apply Forall_cons in H1 as [_ ?]|now apply Forall_cons in H2 as [_ ?]]. }
  destruct (keeps_tracks k _ _ Hk H1 H2) as (A1 & A2 & A3). done.
Qed.

(** The order of releases: by epoch, then by sequence. *)
Definition release_lt (x y : Release) : Prop :=
  re_epoch x < re_epoch y \/ re_epoch x = re_epoch y /\ re_sequence x < re_sequence y.

(** Everything released is before the track's position. *)
Definition behind (out : list Release) (t : Track) : Prop :=
  Forall (fun x => re_epoch x < tr_epoch t
                   \/ re_epoch x = tr_epoch t /\ exists n, tr_next_seq t = Some n /\ re_sequence x < n) out.

Lemma behind_le out t t' : pos_le t t' -> behind out t -> behind out t'.
Proof.
  intros Hle Hb. eapply Forall_impl; [exact Hb|]. intros x Hx. cbn in *.
  destruct Hle as [Hle|[He Hn]]; [destruct Hx as [?|[? _]]; left; lia|]. rewrite He.
  destruct Hx as [?|[? (n & En & ?)]]; [now left|right]. split; [done|]. rewrite En in Hn.
  destruct (tr_next_seq t') as [n'|]; [|done]. exists n'. split; [done|]. lia.
Qed.

Lemma accounted_behind t' out : forall n gap n' gap',
  accounted (tr_epoch t') n gap out n' gap' -> tr_next_seq t' = Some n' ->
  behind out t' /\ Forall (fun x => re_epoch x = tr_epoch t' /\ n <= re_sequence x) out
  /\ StronglySorted release_lt out.
Proof.
  induction out as [|x out IH]; intros n gap n' gap' Ha Hn'; [repeat constructor|].
  destruct Ha as (H1 & H2 & _ & H4). pose proof (accounted_length _ _ _ _ _ _ H4) as Hl.
  destruct (IH _ _ _ _ H4 Hn') as (B1 & B2 & B3). pose proof (zlen_nonneg out).
  split_and!.
  - constructor; [|done]. right. split; [done|]. exists n'. split; [done|lia].
  - constructor; [done|]. eapply Forall_impl; [exact B2|]. cbn. intros ? [? ?]. split; [done|lia].
  - constructor; [done|]. eapply Forall_impl; [exact B2|]. intros y [Hy1 Hy2]. right. split; [congruence|lia].
Qed.

Lemma polled_sorted t t' before out :
  track_polled t out t' -> behind before t -> StronglySorted release_lt before ->
  behind (before ++ out) t' /\ StronglySorted release_lt (before ++ out).
Proof.
  intros (He & _ & Hn) Hb Hs. destruct (tr_next_seq t) as [n|] eqn:En.
  - destruct Hn as (n' & En' & Ha). rewrite <- He in Ha.
    destruct (accounted_behind _ _ _ _ _ _ Ha En') as (A1 & A2 & A3). split.
    + apply Forall_app. split; [|done]. apply (behind_le _ t); [|done]. right. split; [done|].
      rewrite En, En'. apply accounted_length in Ha. pose proof (zlen_nonneg out). lia.
    + apply StronglySorted_app. split_and!; try done. intros x y Hx Hy.
      unfold behind in Hb. rewrite Forall_forall in Hb, A2. destruct (A2 _ Hy) as [Hy1 Hy2].
      destruct (Hb _ Hx) as [?|[? (m & Em & ?)]]; [left; lia|right].
      rewrite En in Em. injection Em as <-. split; [congruence|lia].
  - destruct Hn as [-> ->]. now rewrite app_nil_r.
Qed.

Lemma poll_tracks_bound ts : forall r now p ts' p' out,
  poll_tracks r now ts p = (ts', p', out) ->
  Forall (fun x => (re_rendition x < r + length ts)%nat) out.
Proof.
  assert (forall fuel r now t p t' p' out, poll_loop fuel r now t p = (t', p', out) ->
    Forall (fun x => re_rendition x = r) out) as Hl.
  { induction fuel as [|fuel IH]; intros r now t p t' p' out; cbn [poll_loop]; [intros [= _ _ <-]; constructor|].
    destruct (poll_turn r now t p) as [[[t1 p1] o1]|] eqn:E; [|intros [= _ _ <-]; constructor].
    destruct (poll_loop fuel r now t1 p1) as [[t2 p2] o2] eqn:E2. intros [= _ _ <-].
    apply Forall_app. split; [|by eapply IH]. unfold poll_turn in E.
    repeat (case_match; try done); simplify_eq; repeat constructor. }
  induction ts as [|t ts IH]; intros r now p ts' p' out; cbn [poll_tracks]; [intros [= _ _ <-]; constructor|].
  unfold track_poll. destruct (poll_loop _ r now t p) as [[t1 p1] o1] eqn:E1.
  destruct (poll_tracks (S r) now ts p1) as [[ts2 p2] o2] eqn:E2. intros [= _ _ <-].
  apply Hl in E1. apply IH in E2. apply Forall_app. split.
  - eapply Forall_impl; [exact E1|]. cbn. lia.
  - eapply Forall_impl; [exact E2|]. cbn. lia.
Qed.

(** ** Runs *)

Lemma poll_spec k now s s' out :
  session_ok k s -> poll now s = (s', out) ->
  session_ok k s' /\ Forall (stuck now) (ss_tracks s')
  /\ length (ss_tracks s') = length (ss_tracks s)
  /\ (forall i t, ss_tracks s !! i = Some t -> exists t', ss_tracks s' !! i = Some t'
        /\ track_polled t (of_rendition i out) t')
  /\ zlen out <= total_advance (ss_tracks s) (ss_tracks s')
  /\ skipped (ss_pool s')
     = sat_u 64 (skipped (ss_pool s) + (total_advance (ss_tracks s) (ss_tracks s') - zlen out)).
Proof.
  intros [H1 H2 H3]. unfold poll.
  destruct (poll_tracks 0 now (ss_tracks s) (ss_pool s)) as [[ts p] o] eqn:E. intros [= <- <-].
  destruct (poll_tracks_spec _ _ _ _ _ _ _ H1 H3 E) as (A1 & A2 & A3 & A4 & A5 & A6 & A7 & A8 & A9).
  cbn [ss_tracks ss_pool]. rewrite age_loop_skipped. split_and!; try done.
  constructor; cbn [ss_tracks ss_pool]; [done| |unfold counters_ok; now rewrite age_loop_skipped].
  apply Forall_forall. intros t Ht. apply list_elem_of_lookup in Ht as [i Hi].
  destruct (lookup_lt_is_Some_2 (ss_tracks s) i) as [u Hu]; [rewrite <- A5; by eapply lookup_lt_Some|].
  destruct (A7 _ _ Hu) as (t' & Ht' & He & _). assert (t' = t) as -> by congruence. rewrite He.
  rewrite Forall_forall in H2. apply H2. by eapply list_elem_of_lookup_2.
Qed.

(** A master names one playlist, or two different ones. *)
Lemma wanted_shape m :
  wanted m = [] \/ (exists a, wanted m = [a]) \/ exists a b, wanted m = [a; b] /\ a <> b.
Proof.
  unfold wanted. destruct (highest_bandwidth m) as [v|]; [|now left]. right.
  destruct (audio_rendition m v ≫= ar_path) as [path|]; [|left; eauto].
  case_bool_decide; [left; eauto|]. right. eauto.
Qed.

(** A master that names what is followed already changes no track. *)
Lemma on_master_same m s :
  tr_path <$> ss_tracks s = Some <$> wanted m -> wanted m <> [] ->
  ss_tracks (on_master m s) = ss_tracks s.
Proof.
  intros Hp Hne. unfold on_master.
  destruct (wanted_shape m) as [?|[(a & E)|(a & b & E & Hab)]]; [done|rewrite E in *|rewrite E in *].
  - destruct (ss_tracks s) as [|t [|? ?]]; csimpl in Hp; try done. injection Hp as Ht. cbn.
    rewrite decide_True by done. done.
  - destruct (ss_tracks s) as [|t [|u [|? ?]]]; csimpl in Hp; try done. injection Hp as Ht Hu. cbn.
    rewrite decide_True by done. cbn. rewrite decide_False by done. cbn.
    rewrite decide_True by done. done.
Qed.

(** The session goes on following the playlists it follows. *)
Definition keeps_renditions (op : Op) (s : Session) : Prop :=
  match op with
  | OpPlaylist _ (Master m) _ =>
      wanted m = [] \/ tr_path <$> ss_tracks s = Some <$> wanted m
  | _ => True
  end.

Fixpoint keeps_following (ops : list Op) (s : Session) : Prop :=
  match ops with
  | [] => True
  | op :: ops => keeps_renditions op s /\ keeps_following ops (step op s).1
  end.

Lemma step_ok k op s :
  op_ok op -> session_ok k s -> 0 <= k < 2 ^ 64 - 1 -> session_ok (k + 1) (step op s).1.
Proof.
  intros Hop Hs Hk.
  assert (forall s', session_ok k s' -> session_ok (k + 1) s') as Hw.
  { intros s' [H1 H2 H3]. constructor; try done. eapply Forall_impl; [exact H2|]. cbn. lia. }
  destruct op as [path b now|path [m|m] now|now|i uri d|uri|]; cbn.
  - apply Hw, on_segment_ok, Hs.
  - apply on_media_ok; [done|done|lia].
  - apply Hw, on_master_ok; [done|lia].
  - destruct (poll now s) as [s' out] eqn:E. apply Hw. now apply (poll_spec _ _ _ _ _ Hs E).
  - apply Hw, seed_init_ok; [done|lia].
  - apply Hw, void_map_ok, Hs.
  - apply Hw. destruct Hs as [H1 H2 H3]. done.
Qed.

Lemma run_ok ops : forall k s,
  Forall op_ok ops -> session_ok k s -> 0 <= k -> k + zlen ops < 2 ^ 64 ->
  session_ok (k + zlen ops) (session_run ops s).1.
Proof.
  induction ops as [|op ops IH]; intros k s Hops Hs Hk Hb; cbn [session_run].
  - unfold zlen. cbn. now rewrite Z.add_0_r.
  - apply Forall_cons in Hops as [Hop Hops]. rewrite zlen_cons in *. pose proof (zlen_nonneg ops).
    pose proof (step_ok k op s Hop Hs ltac:(lia)) as H1. destruct (step op s) as [s1 out1].
    pose proof (IH (k + 1) s1 Hops H1 ltac:(lia) ltac:(lia)) as H2.
    destruct (session_run ops s1) as [s2 out2]. cbn in *. now replace (k + (zlen ops + 1)) with (k + 1 + zlen ops) by lia.
Qed.

(** What was released so far is in order and before every track's position. *)
Definition ordered (out : list Release) (s : Session) : Prop :=
  forall i, StronglySorted release_lt (of_rendition i out)
  /\ match ss_tracks s !! i with
     | Some t => behind (of_rendition i out) t
     | None => of_rendition i out = []
     end.

Lemma ordered_le out s s' :
  tracks_le (ss_tracks s) (ss_tracks s') -> ordered out s -> ordered out s'.
Proof.
  intros Hle Ho i. destruct (Ho i) as [H1 H2]. split; [done|].
  destruct (ss_tracks s !! i) as [t|] eqn:E.
  - destruct (Hle _ _ E) as (t' & -> & Hp). now apply (behind_le _ t).
  - destruct (ss_tracks s' !! i); [|done]. rewrite H2. constructor.
Qed.

Lemma step_ordered k op s out :
  op_ok op -> session_ok k s -> 0 <= k < 2 ^ 64 - 1 -> keeps_renditions op s ->
  ordered out s -> ordered (out ++ (step op s).2) (step op s).1.
Proof.
  intros Hop Hs Hk Hr Ho.
  assert (forall s', tracks_le (ss_tracks s) (ss_tracks s') -> ordered (out ++ []) s') as Hle.
  { intros s' H. rewrite app_nil_r. now apply (ordered_le _ s). }
  destruct op as [path b now|path [m|m] now|now|i uri d|uri|]; cbn.
  - apply Hle, (on_segment_ok k), Hs.
  - apply Hle, (on_media_ok k); [done|done|lia].
  - apply Hle. destruct (decide (wanted m = [])) as [E|E].
    + unfold on_master. rewrite E. reflexivity.
    + destruct Hr as [?|Hr]; [done|]. now rewrite (on_master_same _ _ Hr E).
  - destruct (poll now s) as [s' o] eqn:E.
    destruct (poll_spec _ _ _ _ _ Hs E) as (_ & _ & Hlen & Hp & _). intros i. cbn.
    rewrite of_rendition_app. destruct (Ho i) as [H1 H2].
    destruct (ss_tracks s !! i) as [t|] eqn:Ei.
    + destruct (Hp _ _ Ei) as (t' & -> & Ht). destruct (polled_sorted _ _ _ _ Ht H2 H1). done.
    + rewrite H2. assert (of_rendition i o = []) as ->.
      { unfold poll in E. destruct (poll_tracks _ _ _ _) as [[ts p] o'] eqn:E'. injection E as <- <-.
        pose proof (poll_tracks_bound _ _ _ _ _ _ _ E') as Hb. apply of_rendition_none.
        apply lookup_ge_None in Ei. eapply Forall_impl; [exact Hb|]. cbn. lia. }
      apply lookup_ge_None in Ei. rewrite <- Hlen in Ei. apply lookup_ge_None in Ei. rewrite Ei.
      split; [constructor|done].
  - apply Hle, (seed_init_ok k); [done|lia].
  - apply Hle, (void_map_ok k), Hs.
  - now apply Hle.
Qed.

Lemma run_ordered ops : forall k s out,
  Forall op_ok ops -> session_ok k s -> 0 <= k -> k + zlen ops < 2 ^ 64 ->
  keeps_following ops s -> ordered out s -> ordered (out ++ (session_run ops s).2) (session_run ops s).1.
Proof.
  induction ops as [|op ops IH]; intros k s out Hops Hs Hk Hb Hf Ho; cbn [session_run].
  - now rewrite app_nil_r.
  - apply Forall_cons in Hops as [Hop Hops]. rewrite zlen_cons in *. pose proof (zlen_nonneg ops).
    destruct Hf as [Hr Hf].
    pose proof (step_ok k op s Hop Hs ltac:(lia)) as H1.
    pose proof (step_ordered k op s out Hop Hs ltac:(lia) Hr Ho) as H2.
    destruct (step op s) as [s1 out1]. cbn [fst snd] in *.
    pose proof (IH (k + 1) s1 _ Hops H1 ltac:(lia) ltac:(lia) Hf H2) as H3.
    destruct (session_run ops s1) as [s2 out2]. cbn [fst snd] in *. now rewrite app_assoc.
Qed.

(** ** Deadlines *)

Definition not_yet (now : Z) (d : option Z) : Prop :=
  match d with Some d => now < d | None => True end.

Lemma waited_deadline d now at_ : 0 < d -> waited (Some d) now at_ = (at_ + d <=? now).
Proof. intros Hd. unfold waited, since. apply Bool.eq_iff_eq_true. rewrite !Z.leb_le. lia. Qed.

Lemma stuck_deadline now t :
  track_ok t -> stuck now t -> forall now', stuck now' t <-> not_yet now' (track_next_deadline t).
Proof.
  intros Hok Hs now'. specialize (Hs 0%nat).
  assert (forall p : Pool, stuck now' t <-> poll_turn 0 now' t p = None) as Hst.
  { intros p. split; [intros H; apply H|apply turn_none_stuck]. }
  set (p := mk_Pool (mk_SessionLimits 0 0 0) [] 0 (mk_Counters 0 0 0 0 0) []).
  rewrite (Hst p). specialize (Hs p). clear Hst.
  pose proof (tk_next t Hok) as Hn. pose proof (tk_target t Hok) as Ht.
  unfold poll_turn, track_next_deadline, next_ok in *.
  destruct (tr_next_seq t) as [n|]; [|rewrite Hn; done].
  destruct (tr_listed t) as [|[k head] rest] eqn:El; [done|].
  destruct (n <? k); [done|]. destruct (Ht ltac:(done)) as (d & Ed & Hd).
  unfold gap_expired in *. rewrite Ed in *. rewrite !waited_deadline in * by done.
  destruct (li_payload head) as [payload|].
  - rewrite bool_decide_eq_false_2, bool_decide_eq_true_2 by (done || eauto). cbn [orb andb].
    destruct (init_ready (li_map_uri head) t).
    { destruct (take_init _ _) as [[? ?] ?]. now destruct (take_reanchor _ _ _). }
    cbn. destruct (Z.leb_spec (li_listed_at head + d) now'); split; try done; lia.
  - rewrite bool_decide_eq_true_2 by done. rewrite (bool_decide_eq_false_2 (is_Some None)) by now intros [].
    destruct (later_bytes_ready t); cbn; [|now rewrite andb_false_r].
    rewrite andb_true_r. destruct (Z.leb_spec (li_listed_at head + d) now'); split; try done; lia.
Qed.

Lemma stuck_poll_tracks now ts : forall r p,
  Forall (stuck now) ts -> poll_tracks r now ts p = (ts, p, []).
Proof.
  induction ts as [|t ts IH]; intros r p H; [done|]. apply Forall_cons in H as [Ht H].
  cbn [poll_tracks]. unfold track_poll. cbn [Nat.add poll_loop]. now rewrite (Ht r p), IH.
Qed.

(** The object at the front of the hold is too young to go. *)
Definition fresh (now age : Z) (held : list Held) : Prop :=
  match held with h :: _ => now < he_at h + age | [] => True end.

Lemma aged_spec now age at_ : 0 < age -> (age <=? since now at_) = (at_ + age <=? now).
Proof. intros. unfold since. apply Bool.eq_iff_eq_true. rewrite !Z.leb_le. lia. Qed.

Lemma age_loop_fresh now age held : forall p,
  0 < age -> po_held p = held -> fresh now age (po_held (age_loop now age held p)).
Proof.
  induction held as [|h held IH]; intros p Ha Hh; cbn [age_loop]; [now rewrite Hh|].
  rewrite aged_spec by done. destruct (Z.leb_spec (he_at h + age) now) as [H|H].
  - apply IH; [done|]. unfold pop_oldest_held. now rewrite Hh.
  - now rewrite Hh.
Qed.

Lemma fresh_age_loop now age p :
  0 < age -> fresh now age (po_held p) -> age_loop now age (po_held p) p = p.
Proof.
  intros Ha Hf. destruct (po_held p) as [|h held]; [done|]. cbn [age_loop fresh] in *.
  rewrite aged_spec by done. now rewrite (proj2 (Z.leb_gt _ _)) by lia.
Qed.

Lemma not_yet_min now a b : not_yet now (option_min a b) <-> not_yet now a /\ not_yet now b.
Proof. destruct a, b; cbn; (split; [intros|intros [? ?]]); try split; try done; lia. Qed.

Lemma not_yet_all now ts :
  not_yet now (fold_right (fun t m => option_min (track_next_deadline t) m) None ts)
  <-> Forall (fun t => not_yet now (track_next_deadline t)) ts.
Proof.
  induction ts as [|t ts IH]; cbn; [split; [constructor|done]|].
  rewrite not_yet_min, IH, Forall_cons. done.
Qed.

Lemma idle_timeout_pos s : 0 < idle_floor (po_limits (ss_pool s)) -> 0 < idle_timeout s.
Proof. unfold idle_timeout. destruct (target s); lia. Qed.

(** The limits never change. *)
Lemma evict_loop_limits l : forall p, po_limits (evict_loop l p) = po_limits p.
Proof.
  induction l as [|h l IH]; intros p; cbn [evict_loop]; [done|]. destruct (_ || _); [|done].
  rewrite IH. cbn. unfold pop_oldest_held. now destruct (po_held p).
Qed.

Lemma age_loop_limits now a l : forall p, po_limits (age_loop now a l p) = po_limits p.
Proof.
  induction l as [|h l IH]; intros p; cbn [age_loop]; [done|]. destruct (_ <=? _); [|done].
  rewrite IH. cbn. unfold pop_oldest_held. now destruct (po_held p).
Qed.

Lemma poll_next_deadline k now s s' out :
  session_ok k s -> 0 < idle_floor (po_limits (ss_pool s)) -> poll now s = (s', out) ->
  forall now', poll now' s' = (s', []) <-> not_yet now' (next_deadline s').
Proof.
  intros Hs Hl E now'. destruct (poll_spec _ _ _ _ _ Hs E) as (Hs' & Hst & _).
  assert (po_limits (ss_pool s') = po_limits (ss_pool s)) as El.
  { unfold poll in E. destruct (poll_tracks _ _ _ _) as [[ts p] o] eqn:Ep. injection E as <- <-.
    destruct (poll_tracks_spec _ _ _ _ _ _ _ (so_tracks _ _ Hs) (so_counters _ _ Hs) Ep) as ((H & _) & _).
    cbn. now rewrite age_loop_limits. }
  assert (0 < idle_timeout s') as Ht by (apply idle_timeout_pos; now rewrite El).
  assert (not_yet now' (next_deadline s')
          <-> Forall (stuck now') (ss_tracks s') /\ fresh now' (idle_timeout s') (po_held (ss_pool s'))) as ->.
  { unfold next_deadline. rewrite not_yet_min, not_yet_all.
    destruct Hs' as [Hok _ _]. rewrite !Forall_forall in *. split; intros [H1 H2].
    - split; [|now destruct (po_held (ss_pool s'))].
      intros t Hin. apply (stuck_deadline now); auto.
    - split; [|now destruct (po_held (ss_pool s'))].
      intros t Hin. apply (stuck_deadline now); auto. }
  split.
  - intros E'. destruct (poll_spec _ _ _ _ _ Hs' E') as (_ & H & _). split; [done|].
    unfold poll in E'. destruct (poll_tracks _ _ _ _) as [[ts p] o] eqn:Ep.
    set (u := mk_Session p ts (ss_other_variants s') (ss_master_seen s')) in *.
    injection E' as Es _. assert (ss_tracks s' = ts) as Ets by now rewrite <- Es.
    assert (po_limits p = po_limits (ss_pool s')) as Epl
      by (rewrite <- Es at 1; cbn; now rewrite age_loop_limits).
    assert (idle_timeout u = idle_timeout s') as Ei.
    { unfold idle_timeout, target. cbn. now rewrite Epl, Ets. }
    rewrite <- Es at 2. cbn [ss_pool]. rewrite Ei. now apply age_loop_fresh.
  - intros [H1 H2]. unfold poll. rewrite stuck_poll_tracks by done.
    destruct s' as [p ts o ms]. cbn [ss_tracks ss_pool ss_other_variants ss_master_seen] in *.
    now rewrite fresh_age_loop.
Qed.

(** ** Bounds *)

Fixpoint held_size (l : list Held) : Z :=
  match l with [] => 0 | h :: l => zlen (he_payload h) + held_size l end.
#[local] Arguments zlen : simpl never.

Record hold_ok (p : Pool) : Prop := {
  ho_bytes : po_held_bytes p = held_size (po_held p);
  ho_paths : NoDup (map he_path (po_held p));
  ho_count : zlen (po_held p) <= hold_segments (po_limits p);
  ho_limit : held_size (po_held p) <= hold_bytes (po_limits p);
}.

Definition limits_ok (l : SessionLimits) : Prop := 0 <= hold_segments l /\ 0 <= hold_bytes l.

Lemma held_size_nonneg l : 0 <= held_size l.
Proof. induction l as [|h l IH]; cbn; [lia|]. pose proof (zlen_nonneg (he_payload h)). lia. Qed.

Lemma held_remove_spec path l h rest :
  held_remove path l = Some (h, rest) ->
  he_path h = path /\ held_size l = zlen (he_payload h) + held_size rest
  /\ zlen l = zlen rest + 1 /\ (forall q, q ∈ map he_path rest -> q ∈ map he_path l)
  /\ (NoDup (map he_path l) -> NoDup (map he_path rest) /\ path ∉ map he_path rest).
Proof.
  revert rest. induction l as [|x l IH]; cbn [held_remove]; [done|]. intros rest.
  case_bool_decide as Hp.
  - intros [= <- <-]. split_and!; try done.
    + apply zlen_cons.
    + cbn. intros q Hq. now right.
    + cbn. rewrite NoDup_cons, Hp. now intros [? ?].
  - destruct (held_remove path l) as [[y r]|]; [|done]. intros [= <- <-].
    destruct (IH _ eq_refl) as (H1 & H2 & H3 & H4 & H5). split_and!; try done.
    + cbn. rewrite H2. lia.
    + rewrite !zlen_cons. lia.
    + cbn. intros q. rewrite !elem_of_cons. naive_solver.
    + cbn. rewrite !NoDup_cons, elem_of_cons. intros [Hx Hn]. destruct (H5 Hn) as [Hr Hnr].
      split; [split; [|done]|]; [intros Hin; now apply Hx, H4|]. intros [E|?]; [|done]. now rewrite E in Hp.
Qed.

Lemma held_remove_None path l : held_remove path l = None -> path ∉ map he_path l.
Proof.
  induction l as [|x l IH]; cbn [held_remove map]; [intros _ H; now apply elem_of_nil in H|].
  case_bool_decide; [done|]. destruct (held_remove path l) as [[? ?]|]; [done|].
  intros _. rewrite elem_of_cons. intros [E|Hin]; [now rewrite E in H|]. now apply IH.
Qed.

Lemma take_held_ok path p :
  hold_ok p ->
  hold_ok (take_held path p).2 /\ path ∉ map he_path (po_held (take_held path p).2)
  /\ po_limits (take_held path p).2 = po_limits p.
Proof.
  intros [H1 H2 H3 H4]. unfold take_held. destruct (held_remove path (po_held p)) as [[h rest]|] eqn:E.
  - apply held_remove_spec in E as (A1 & A2 & A3 & _ & A5). destruct (A5 H2) as [A6 A7].
    pose proof (zlen_nonneg (he_payload h)). split_and!; try done.
    constructor; cbn; try done; lia.
  - split_and!; try done. now apply held_remove_None.
Qed.

Lemma remove_held_ok path p :
  hold_ok p ->
  hold_ok (remove_held path p).2 /\ path ∉ map he_path (po_held (remove_held path p).2)
  /\ po_limits (remove_held path p).2 = po_limits p.
Proof. intros H%(take_held_ok path). unfold remove_held. now destruct (take_held path p). Qed.

Lemma hold_ok_ext p p' :
  po_held p' = po_held p -> po_held_bytes p' = po_held_bytes p -> po_limits p' = po_limits p ->
  hold_ok p -> hold_ok p'.
Proof. intros E1 E2 E3 [H1 H2 H3 H4]. constructor; rewrite ?E1, ?E2, ?E3; done. Qed.

Lemma evict_loop_ok l : forall p,
  limits_ok (po_limits p) -> po_held p = l ->
  po_held_bytes p = held_size l -> NoDup (map he_path l) -> hold_ok (evict_loop l p).
Proof.
  induction l as [|h l IH]; intros p [Hl1 Hl2] Hh Hb Hn; cbn [evict_loop].
  - constructor; rewrite ?Hh; try done.
  - destruct (_ || _) eqn:E.
    + apply IH; cbn; unfold pop_oldest_held; rewrite ?Hh; cbn; try done.
      * rewrite Hb. cbn. lia.
      * now apply NoDup_cons in Hn as [_ ?].
    + apply orb_false_iff in E as [E1%Z.ltb_ge E2%Z.ltb_ge]. rewrite Hb in E2.
      constructor; rewrite ?Hh in *; done.
Qed.

Lemma held_size_app a b : held_size (a ++ b) = held_size a + held_size b.
Proof. induction a as [|x a IH]; cbn; [done|]. rewrite IH. lia. Qed.

Lemma hold_keeps_ok path payload now p :
  limits_ok (po_limits p) -> hold_ok p -> hold_ok (hold path payload now p).
Proof.
  intros Hl Hp. unfold hold. destruct (remove_held_ok path p Hp) as (H1 & H2 & H3).
  destruct (remove_held path p) as [b p1]. cbn [snd] in *.
  apply evict_loop_ok; cbn; [now rewrite H3|done| |].
  - rewrite held_size_app. cbn. rewrite (ho_bytes _ H1). lia.
  - rewrite map_app. apply NoDup_app. cbn. split_and!; [apply (ho_paths _ H1)| |].
    + intros q Hq. rewrite list_elem_of_singleton. intros ->. done.
    + apply NoDup_singleton.
Qed.

Lemma pop_oldest_ok p : hold_ok p -> hold_ok (pop_oldest_held p).
Proof.
  intros [H1 H2 H3 H4]. unfold pop_oldest_held. destruct (po_held p) as [|h l] eqn:E; [constructor; now rewrite ?E|].
  cbn in *. apply NoDup_cons in H2 as [_ H2]. rewrite zlen_cons in H3. pose proof (zlen_nonneg (he_payload h)).
  constructor; cbn; try done; lia.
Qed.

Lemma age_loop_ok now a l : forall p, hold_ok p -> hold_ok (age_loop now a l p).
Proof.
  induction l as [|h l IH]; intros p Hp; cbn [age_loop]; [done|]. destruct (_ <=? _); [|done].
  apply IH. apply (hold_ok_ext (pop_oldest_held p)); try done. now apply pop_oldest_ok.
Qed.

(** ** Maps *)

(** A map's hash is that of the init it keeps. *)
Definition map_ok (m : MapState) : Prop := ma_delivered m = hash <$> ma_last m.
Definition maps_ok (t : Track) : Prop :=
  (length (tr_maps t) <= MAX_MAPS)%nat /\ Forall map_ok (tr_maps t).

Lemma update_map_length uri f l : length (update_map uri f l) = length l.
Proof. induction l as [|m l IH]; cbn; [done|]. case_bool_decide; cbn; congruence. Qed.

Lemma update_map_ok uri f l :
  (forall m, map_ok m -> map_ok (f m)) -> Forall map_ok l -> Forall map_ok (update_map uri f l).
Proof.
  intros Hf. induction 1 as [|m l Hm Hl IH]; cbn; [constructor|].
  case_bool_decide; constructor; auto.
Qed.

Lemma ensure_map_ok uri t p :
  maps_ok t -> hold_ok p ->
  maps_ok (ensure_map uri t p).1 /\ hold_ok (ensure_map uri t p).2
  /\ po_limits (ensure_map uri t p).2 = po_limits p.
Proof.
  intros [Hl Hm] Hp. unfold ensure_map. destruct (knows_map uri t); [done|].
  destruct (take_held_ok uri p Hp) as (H1 & _ & H3). destruct (take_held uri p) as [b p1].
  split_and!; try done. split; cbn [tr_maps with_maps fst].
  - rewrite length_app. cbn [length]. unfold MAX_MAPS in *.
    destruct (Nat.leb_spec 4 (length (tr_maps t))); [|lia]. destruct (tr_maps t); cbn in *; lia.
  - apply Forall_app. split; [|now repeat constructor].
    destruct (_ <=? _)%nat; [|done]. destruct (tr_maps t); [done|]. now apply Forall_cons in Hm as [_ ?].
Qed.

Definition pair_ok (l : SessionLimits) (tp : Track * Pool) : Prop :=
  maps_ok tp.1 /\ hold_ok tp.2 /\ po_limits tp.2 = l.

Lemma merge_segment_pair l now seg tp : pair_ok l tp -> pair_ok l (merge_segment now seg tp).
Proof.
  destruct tp as [t p]. intros (Hm & Hp & Hl). cbn in *. unfold merge_segment.
  destruct (match tr_next_seq t with Some next => se_sequence seg <? next | None => false end).
  { destruct (remove_held_ok (se_path seg) p Hp) as (H1 & _ & H3).
    destruct (remove_held (se_path seg) p) as [[] p1]; cbn in *; split_and!; cbn; try congruence; try done.
    apply (hold_ok_ext p1); done. }
  destruct (btree_get _ _) as [x|].
  { destruct (li_payload x); [done|]. case_bool_decide; [|done].
    destruct (take_held_ok (se_path seg) p Hp) as (H1 & _ & H3).
    destruct (take_held (se_path seg) p) as [[] p1]; cbn in *; split_and!; cbn; try congruence; done. }
  assert (pair_ok l (match se_map_uri seg with Some uri => ensure_map uri t p | None => (t, p) end))
    as (A1 & A2 & A3).
  { destruct (se_map_uri seg) as [uri|]; [|done].
    destruct (ensure_map_ok uri t p Hm Hp) as (? & ? & ?). split_and!; try done; congruence. }
  destruct (match se_map_uri seg with Some uri => ensure_map uri t p | None => (t, p) end) as [t1 p1].
  cbn in *. destruct (take_held_ok (se_path seg) p1 A2) as (H1 & _ & H3).
  destruct (take_held (se_path seg) p1) as [b p2]. cbn in *. split_and!; cbn; try done; congruence.
Qed.

Lemma merge_all_pair l now segs : forall tp,
  pair_ok l tp -> pair_ok l (fold_left (fun tp s => merge_segment now s tp) segs tp).
Proof.
  induction segs as [|x segs IH]; intros tp H; [done|]. cbn. now apply IH, merge_segment_pair.
Qed.

Lemma on_followed_pair l m now tp : pair_ok l tp -> pair_ok l (on_followed m now tp).
Proof.
  intros H. unfold on_followed.
  assert (pair_ok l (note_playlist m tp)) as H1.
  { destruct tp as [t p]. destruct H as (Hm & Hp & Hl). unfold note_playlist.
    destruct (mp_map_uri m) as [uri|]; [|done].
    match goal with |- context [ensure_map uri ?u p] =>
      destruct (ensure_map_ok uri u p) as (A1 & A2 & A3); [done|done|]; destruct (ensure_map uri u p) end.
    cbn in *. split_and!; cbn; try done; congruence. }
  destruct (note_playlist m tp) as [t p]. destruct (head (mp_segments m)), (last (mp_segments m)); try done.
  set (tp2 := if starts_new_epoch t m _ then _ else _).
  assert (pair_ok l tp2) as H2.
  { unfold tp2. destruct (starts_new_epoch _ _ _); [|done]. destruct H1 as (B1 & B2 & B3).
    split_and!; cbn; try done. apply (hold_ok_ext p); done. }
  destruct tp2 as [t2 p2].
  set (t3 := match tr_next_seq t2 with Some _ => t2 | None => _ end).
  assert (pair_ok l (t3, p2)) as H3 by (unfold t3; now destruct (tr_next_seq t2)).
  pose proof (merge_all_pair l now (mp_segments m) _ H3) as H4.
  now destruct (fold_left _ _ _).
Qed.

(** The init of a map: its newest upload, or the one it delivered. *)
Definition init_of (uri : string) (t : Track) : option bytes :=
  m ← find_map uri (tr_maps t);
  match ma_pending m with Some b => Some b | None => ma_last m end.

Lemma find_map_Some v l m : find_map v l = Some m -> ma_uri m = v /\ m ∈ l.
Proof.
  unfold find_map. intros H. apply List.find_some in H as [H1 H2]. apply bool_decide_eq_true in H2.
  split; [done|]. now apply list_elem_of_In.
Qed.

Lemma map_take_spec m b h m' :
  map_ok m -> map_take m = Some (b, h, m') ->
  map_ok m' /\ ma_uri m' = ma_uri m /\ h = hash b /\ ma_pending m' = None /\ ma_last m' = Some b
  /\ match ma_pending m with Some x => Some x | None => ma_last m end = Some b.
Proof.
  unfold map_ok, map_take. intros Hm. destruct (ma_pending m) as [x|]; [intros [= <- <- <-]; done|].
  destruct (ma_last m) as [x|]; cbn in Hm; rewrite Hm; [|done]. intros [= <- <- <-]. done.
Qed.

(** Any state may take the place of one that agrees on the uri. *)
Lemma find_map_replace uri m0 m l v :
  find_map uri l = Some m0 -> ma_uri m = uri ->
  find_map v (update_map uri (fun _ => m) l) = if decide (v = uri) then Some m else find_map v l.
Proof.
  unfold find_map. intros Hf Hm. induction l as [|x l IH]; cbn in *; [done|].
  case_bool_decide as Hx; cbn.
  - destruct (decide (v = uri)) as [->|Hv].
    + now rewrite bool_decide_eq_true_2.
    + rewrite bool_decide_eq_false_2 by congruence. now rewrite (bool_decide_eq_false_2 (ma_uri x = v)) by congruence.
  - destruct (decide (v = uri)) as [->|Hv].
    + rewrite bool_decide_eq_false_2 by done. now apply IH.
    + case_bool_decide; [done|]. now apply IH.
Qed.

Lemma take_init_spec uri t t' i r :
  maps_ok t -> init_ready (Some uri) t = true -> take_init (Some uri) t = (t', i, r) ->
  maps_ok t' /\ (forall v, init_of v t' = init_of v t)
  /\ exists b, init_of uri t = Some b /\ tr_applied t' = Some (hash b)
     /\ (i = None /\ tr_applied t = Some (hash b) \/ i = Some (mk_Init uri b)).
Proof.
  intros [Hlen Hm] Hr. unfold take_init, init_ready in *.
  destruct (find_map uri (tr_maps t)) as [m|] eqn:Ef; [|done]. cbn [mbind option_bind].
  pose proof (find_map_Some _ _ _ Ef) as [Huri Hin]. rewrite Forall_forall in Hm.
  pose proof (Hm _ Hin) as Hmok.
  destruct (map_take m) as [[[b h] m']|] eqn:Et.
  2:{ exfalso. unfold map_take, map_ok in *. destruct (ma_pending m); [done|].
      destruct (ma_last m); cbn in Hmok; rewrite Hmok in *; [done|].
      rewrite !bool_decide_eq_false_2 in Hr by (intros [? ?]; done). done. }
  destruct (map_take_spec _ _ _ _ Hmok Et) as (A1 & A2 & -> & A4 & A5 & A6).
  assert (maps_ok (with_maps (update_map uri (fun _ => m') (tr_maps t)) t)) as Hok.
  { split; cbn; [now rewrite update_map_length|]. apply update_map_ok; [done|]. now apply Forall_forall. }
  assert (forall v, init_of v (with_maps (update_map uri (fun _ => m') (tr_maps t)) t) = init_of v t) as Hi.
  { intros v. unfold init_of. cbn [tr_maps with_maps]. rewrite (find_map_replace _ _ _ _ _ Ef) by congruence.
    destruct (decide (v = uri)) as [->|]; [|done]. rewrite Ef. cbn. now rewrite A4, A5, A6. }
  assert (init_of uri t = Some b) as Hb by (unfold init_of; rewrite Ef; exact A6).
  cbn [tr_applied with_maps]. destruct (bool_decide_reflect (tr_applied t = Some (hash b))) as [Ha|Ha];
    intros [= <- <- <-]; split_and!; try done; exists b; split_and!; try done.
  - now left.
  - now right.
Qed.

Lemma take_reanchor_maps d b t t' r :
  take_reanchor d b t = (t', r) -> tr_maps t' = tr_maps t /\ tr_applied t' = tr_applied t.
Proof.
  unfold take_reanchor. destruct (tr_timeline_pending t); [intros [= <- _]; done|].
  destruct d; intros [= <- _]; done.
Qed.

Lemma skip_discontinuity_maps d t :
  tr_maps (skip_discontinuity d t) = tr_maps t /\ tr_applied (skip_discontinuity d t) = tr_applied t.
Proof. unfold skip_discontinuity. destruct d; [|done]. cbn. now destruct (tr_timeline_pending t). Qed.

(** What a demuxer holds after a release. *)
Definition demux_init (held : option bytes) (x : Release) : option bytes :=
  match re_init x with Some i => Some (in_payload i) | None => held end.

Definition applied_ok (held : option bytes) (t : Track) : Prop :=
  forall h, tr_applied t = Some h -> exists b, held = Some b /\ hash b = h.

Lemma ready_ext uri t t' : tr_maps t' = tr_maps t -> init_ready uri t' = init_ready uri t.
Proof. unfold init_ready. now intros ->. Qed.

Lemma maps_ext t t' :
  tr_maps t' = tr_maps t ->
  (maps_ok t -> maps_ok t') /\ (forall v, init_of v t' = init_of v t).
Proof. unfold maps_ok, init_of. now intros ->. Qed.

(** A turn of the loop keeps the maps, and delivers the right init with a release. *)
Lemma turn_inits r now t p t' p' out held :
  maps_ok t -> applied_ok held t -> poll_turn r now t p = Some (t', p', out) ->
  maps_ok t' /\ (forall v, init_of v t' = init_of v t)
  /\ (forall k n', tr_next_seq t' = Some n' -> n' <= k ->
        btree_get k (tr_listed t') = btree_get k (tr_listed t))
  /\ match out with
     | [] => applied_ok held t'
     | x :: _ =>
         applied_ok (demux_init held x) t'
         /\ forall l u, btree_get (re_sequence x) (tr_listed t) = Some l -> li_map_uri l = Some u ->
              exists b b0, demux_init held x = Some b /\ init_of u t = Some b0 /\ hash b = hash b0
     end.
Proof.
  intros Hm Ha. unfold poll_turn. destruct (tr_next_seq t) as [n|]; [|done].
  destruct (tr_listed t) as [|[k head] rest] eqn:El; [done|].
  assert (forall k0, k0 <> k -> btree_get k0 rest = btree_get k0 ((k, head) :: rest)) as Hget.
  { intros k0 Hk. cbn. destruct (Z.eqb_spec k0 k); done. }
  destruct (n <? k).
  { intros [= <- <- <-]. split_and!; try done. cbn. now rewrite El. }
  assert (forall k0 n', checked_u 64 (k + 1) = Some n' -> n' <= k0 -> k0 <> k) as Hne.
  { intros k0 n' Hc Hk. apply checked_u_inv in Hc. lia. }
  assert (forall t1, tr_listed t1 = rest -> tr_maps t1 = tr_maps t -> tr_applied t1 = tr_applied t ->
    maps_ok t1 /\ (forall v, init_of v t1 = init_of v t)
    /\ (forall k0 n', checked_u 64 (k + 1) = Some n' -> n' <= k0 ->
          btree_get k0 (tr_listed t1) = btree_get k0 ((k, head) :: rest))
    /\ applied_ok held t1) as Hskip.
  { intros t1 E1 E2 E3. destruct (maps_ext t t1 E2) as [H1 H2]. split_and!; auto.
    - intros k0 n' Hc Hk. rewrite E1. eauto.
    - unfold applied_ok. now rewrite E3. }
  destruct (li_payload head) as [payload|].
  2:{ destruct (gap_expired t head now); [|done]. intros [= <- <- <-].
      pose proof (skip_discontinuity_maps (li_discontinuity head) (with_listed rest t)) as [E1 E2].
      pose proof (skip_discontinuity_place (li_discontinuity head) (with_listed rest t)) as (_ & _ & E3 & _).
      now apply Hskip. }
  destruct (init_ready (li_map_uri head) t) eqn:Er.
  2:{ destruct (waited _ _ _); [|done]. intros [= <- <- <-].
      pose proof (skip_discontinuity_maps (li_discontinuity head) t) as [E1 E2]. now apply Hskip. }
  destruct (take_init _ _) as [[t1 i] rep] eqn:Et.
  destruct (take_reanchor _ _ _) as [t2 re] eqn:E2. intros [= <- <- <-].
  pose proof (take_reanchor_place _ _ _ _ _ E2) as (_ & _ & P3 & _).
  pose proof (take_init_place _ _ _ _ _ Et) as (_ & _ & P3' & _).
  apply take_reanchor_maps in E2 as [M1 M2].
  assert (forall k0 n', checked_u 64 (k + 1) = Some n' -> n' <= k0 ->
            btree_get k0 (tr_listed t2) = btree_get k0 ((k, head) :: rest)) as Hg.
  { intros k0 n' Hc Hk. rewrite P3, P3'. eauto. }
  cbn [re_sequence tr_listed tr_next_seq with_next with_gap].
  assert (btree_get k ((k, head) :: rest) = Some head) as Hk by (cbn; now rewrite Z.eqb_refl).
  rewrite Hk.
  destruct (li_map_uri head) as [uri|] eqn:Eu.
  - destruct (take_init_spec uri (with_listed rest t) t1 i rep Hm Er Et) as (B1 & B2 & b & B3 & B4 & B5).
    destruct (maps_ext t1 (with_next (checked_u 64 (k + 1)) (with_gap false t2)) M1) as [H1 H2].
    split_and!; auto.
    + intros v. rewrite H2. apply B2.
    + intros h. cbn. rewrite M2, B4. intros [= <-]. unfold demux_init. cbn.
      destruct B5 as [[-> Hap]| ->]; cbn; [|eauto]. destruct (Ha _ Hap) as (c & -> & Hc). eauto.
    + intros l u [= <-] Hu. assert (u = uri) as -> by congruence. unfold demux_init. cbn.
      destruct B5 as [[-> Hap]| ->]; cbn.
      * destruct (Ha _ Hap) as (c & -> & Hc). eauto.
      * exists b, b. done.
  - cbn in Et. injection Et as <- <- <-.
    destruct (maps_ext t (with_next (checked_u 64 (k + 1)) (with_gap false t2)) M1) as [H1 H2].
    split_and!; auto.
    + unfold applied_ok. cbn. rewrite M2. exact Ha.
    + intros l u [= <-] Hu. congruence.
Qed.

(** Every released segment finds in the demuxer of its rendition the init of the map it
    was listed under; [t] is the track before the poll, [held] what the demuxer holds. *)
Fixpoint demuxed_right (t : Track) (held : option bytes) (out : list Release) : Prop :=
  match out with
  | [] => True
  | x :: out' =>
      (forall l u, btree_get (re_sequence x) (tr_listed t) = Some l -> li_map_uri l = Some u ->
         exists b b0, demux_init held x = Some b /\ init_of u t = Some b0 /\ hash b = hash b0)
      /\ demuxed_right t (demux_init held x) out'
  end.

Lemma demuxed_right_from n t t' : forall out held,
  (forall v, init_of v t' = init_of v t) ->
  (forall k, n <= k -> btree_get k (tr_listed t') = btree_get k (tr_listed t)) ->
  Forall (fun x => n <= re_sequence x) out ->
  demuxed_right t' held out -> demuxed_right t held out.
Proof.
  induction out as [|x out IH]; intros held Hi Hg Hn; [done|]. apply Forall_cons in Hn as [Hx Hn].
  cbn. intros [H1 H2]. split; [|now apply IH]. intros l u Hl Hu. rewrite <- (Hi u).
  apply (H1 l u); [|done]. now rewrite Hg.
Qed.

Lemma accounted_ge epoch out : forall n gap n' gap',
  accounted epoch n gap out n' gap' -> Forall (fun x => n <= re_sequence x) out.
Proof.
  induction out as [|x out IH]; intros n gap n' gap'; [constructor|].
  intros (H1 & _ & _ & H4). constructor; [done|]. eapply Forall_impl; [exact (IH _ _ _ _ H4)|]. cbn. lia.
Qed.

Lemma poll_loop_inits fuel r now : forall t p t' p' out held,
  (turns_left t < fuel)%nat -> track_ok t -> counters_ok p -> maps_ok t -> applied_ok held t ->
  poll_loop fuel r now t p = (t', p', out) ->
  maps_ok t' /\ applied_ok (fold_left demux_init out held) t' /\ demuxed_right t held out.
Proof.
  induction fuel as [|fuel IH]; intros t p t' p' out held Hf Hok Hc Hm Ha; [lia|].
  cbn [poll_loop]. destruct (poll_turn r now t p) as [[[t1 p1] out1]|] eqn:E.
  2:{ intros [= <- <- <-]. done. }
  destruct (turn_spec _ _ _ _ _ _ _ Hok E) as (Hok1 & _ & _ & Hl & Hcase).
  destruct (turn_inits _ _ _ _ _ _ _ held Hm Ha E) as (A1 & A2 & A3 & A4).
  destruct (poll_loop fuel r now t1 p1) as [[t2 p2] out2] eqn:E2. intros [= <- <- <-].
  assert (exists n1, tr_next_seq t1 = Some n1) as [n1 Hn1].
  { destruct Hcase as [(? & n1 & _ & ? & _)|(n & ? & ? & _ & ? & _)]; eauto. }
  assert (counters_ok p1) as Hc1.
  { unfold counters_ok in *. destruct Hcase as [(? & ? & _ & _ & _ & _ & -> & _)|(? & ? & ? & _ & _ & _ & _ & -> & _)]; [|done].
    unfold skipped, count_skipped, sat_u in *. cbn. lia. }
  assert (Forall (fun x => n1 <= re_sequence x) out2) as Hge.
  { destruct (poll_loop_spec fuel r now t1 p1 t2 p2 out2 n1 ltac:(lia) Hok1 Hc1 Hn1 E2)
      as (_ & _ & _ & _ & _ & _ & n' & _ & Hacc & _). now apply accounted_ge in Hacc. }
  assert (forall held1, applied_ok held1 t1 ->
    maps_ok t2 /\ applied_ok (fold_left demux_init out2 held1) t2 /\ demuxed_right t held1 out2) as Hrec.
  { intros held1 Ha1. destruct (IH t1 p1 t2 p2 out2 held1 ltac:(lia) Hok1 Hc1 A1 Ha1 E2) as (B1 & B2 & B3).
    split_and!; try done. eapply (demuxed_right_from n1 t t1); eauto. }
  destruct Hcase as [(? & ? & _ & _ & _ & -> & _)|(n & head & x & _ & _ & _ & -> & _)].
  - now apply Hrec.
  - destruct A4 as [A4 A5]. cbn. destruct (Hrec _ A4) as (B1 & B2 & B3). done.
Qed.

(** The bounds of a session, and the inits of its demuxers. *)
Definition demuxers (out : list Release) (i : nat) : option bytes :=
  fold_left demux_init (of_rendition i out) None.

Record session_bounded (s : Session) : Prop := {
  sb_hold : hold_ok (ss_pool s);
  sb_tracks : (1 <= length (ss_tracks s) <= MAX_RENDITIONS)%nat;
  sb_maps : Forall maps_ok (ss_tracks s);
  sb_variants : (size (ss_other_variants s) <= MAX_OTHER_VARIANTS)%nat;
}.

Definition inits_ok (out : list Release) (s : Session) : Prop :=
  forall i t, ss_tracks s !! i = Some t -> applied_ok (demuxers out i) t.

Definition tracks_inits (ts ts' : list Track) : Prop :=
  forall i t', ts' !! i = Some t' ->
    tr_applied t' = None \/ exists t, ts !! i = Some t /\ tr_applied t' = tr_applied t.

Lemma tracks_inits_ok out s s' :
  tracks_inits (ss_tracks s) (ss_tracks s') -> inits_ok out s -> inits_ok out s'.
Proof.
  intros H Hi i t' Ht' h Hh. destruct (H _ _ Ht') as [?|(t & Ht & E)]; [congruence|].
  apply (Hi _ _ Ht). congruence.
Qed.

(** A track changed in its listing or its maps, not in its init. *)
Definition touched (t t' : Track) : Prop :=
  tr_applied t' = tr_applied t /\ (maps_ok t -> maps_ok t').

Lemma touched_tracks ts ts' :
  Forall2 touched ts ts' -> Forall maps_ok ts ->
  Forall maps_ok ts' /\ tracks_inits ts ts' /\ length ts' = length ts.
Proof.
  intros H Hm. split_and!.
  - induction H as [|t t' ts ts' [_ Hk] _ IH]; [constructor|]. apply Forall_cons in Hm as [? ?]. constructor; auto.
  - intros i t' Hi. destruct (Forall2_lookup_r _ _ _ _ _ H Hi) as (t & Ht & Hk & _). right. eauto.
  - symmetry. by eapply Forall2_length.
Qed.

#[local] Instance touched_refl : Reflexive touched.
Proof. intros t. done. Qed.

Lemma attach_init_touched path payload ts ts' :
  attach_init path payload ts = Some ts' -> Forall2 touched ts ts'.
Proof.
  revert ts'. induction ts as [|t ts IH]; cbn; [done|]. intros ts'.
  destruct (knows_map path t).
  - intros [= <-]. constructor; [|reflexivity]. split; [done|]. intros [H1 H2].
    split; cbn; [now rewrite update_map_length|]. now apply update_map_ok.
  - destruct (attach_init path payload ts); [|done]. intros [= <-]. constructor; [done|]. now apply IH.
Qed.

Lemma attach_segment_touched path payload ts b ts' :
  attach_segment path payload ts = Some (b, ts') -> Forall2 touched ts ts'.
Proof.
  revert b ts'. induction ts as [|t ts IH]; cbn [attach_segment]; [done|]. intros b ts'.
  destruct (tr_latest_listing t !! path ≫= _) as [[k l]|] eqn:E.
  - destruct (li_payload l); intros [= <- <-]; [reflexivity|]. constructor; [done|reflexivity].
  - destruct (attach_segment path payload ts) as [[b1 ts1]|]; [|done]. cbn. intros [= <- <-].
    constructor; [done|]. exact (IH _ _ eq_refl).
Qed.

(** Masters: a track stays at its rendition, or gives up its init. *)
Lemma take_followed_inits paths : forall r old slots old',
  take_followed r paths old = (slots, old') ->
  length slots = length paths
  /\ (forall j t, old' !! j = Some (Some t) -> old !! j = Some (Some t))
  /\ (forall j t', slots !! j = Some (Some t') ->
        tr_applied t' = None
        \/ exists t, old !! (r + j)%nat = Some (Some t) /\ tr_applied t' = tr_applied t).
Proof.
  induction paths as [|path paths IH]; intros r old slots old'; cbn [take_followed].
  { intros [= <- <-]. split_and!; done. }
  assert (forall i j t, <[i := None]> old !! j = Some (Some t) -> old !! j = Some (Some t)) as Hins.
  { intros i j t H. apply list_lookup_insert_Some in H as [(_ & ? & _)|[_ H]]; done. }
  destruct (list_find _ old) as [[i [t|]]|] eqn:Ef;
    (destruct (take_followed _ paths _) as [s1 o1] eqn:E1; intros [= <- <-];
     destruct (IH _ _ _ _ E1) as (H1 & H2 & H3); split_and!; [cbn; congruence| |]).
  - intros j u Hj. apply (Hins i), H2, Hj.
  - apply list_find_Some in Ef as (Hi & _). intros [|j] u; cbn.
    + intros [= <-]. destruct (Nat.eqb_spec i r) as [->|]; [right|now left]. rewrite Nat.add_0_r. eauto.
    + intros Hj. destruct (H3 _ _ Hj) as [?|(v & Hv & E)]; [now left|right]. exists v.
      split; [|done]. apply (Hins i). now replace (r + S j)%nat with (S r + j)%nat by lia.
  - auto.
  - intros [|j] u; cbn; [done|]. intros Hj. destruct (H3 _ _ Hj) as [?|(v & Hv & E)]; [now left|right].
    exists v. now replace (r + S j)%nat with (S r + j)%nat by lia.
  - auto.
  - intros [|j] u; cbn; [done|]. intros Hj. destruct (H3 _ _ Hj) as [?|(v & Hv & E)]; [now left|right].
    exists v. now replace (r + S j)%nat with (S r + j)%nat by lia.
Qed.

Lemma fill_slots_inits (old0 : list (option Track)) paths : forall r slots old,
  (forall j t, old !! j = Some (Some t) -> old0 !! j = Some (Some t)) ->
  (forall j t', slots !! j = Some (Some t') ->
     tr_applied t' = None
     \/ exists t, old0 !! (r + j)%nat = Some (Some t) /\ tr_applied t' = tr_applied t) ->
  (length (fill_slots r paths slots old) <= length paths)%nat
  /\ forall j t', fill_slots r paths slots old !! j = Some t' ->
       tr_applied t' = None
       \/ exists t, old0 !! (r + j)%nat = Some (Some t) /\ tr_applied t' = tr_applied t.
Proof.
  induction paths as [|path paths IH]; intros r slots old Ho Hs; [split; [done|intros j t'; done]|].
  destruct slots as [|slot slots]; [cbn; split; [lia|intros j t'; done]|].
  assert (forall j t', slots !! j = Some (Some t') ->
     tr_applied t' = None
     \/ exists t, old0 !! (S r + j)%nat = Some (Some t) /\ tr_applied t' = tr_applied t) as Hs'.
  { intros j t' Hj. replace (S r + j)%nat with (r + S j)%nat by lia. now apply Hs. }
  cbn [fill_slots]. destruct slot as [t|].
  - destruct (IH (S r) slots old Ho Hs') as [A1 A2]. split; [cbn; lia|]. intros [|j] u; cbn.
    + intros [= <-]. now apply (Hs 0%nat).
    + intros Hj. replace (r + S j)%nat with (S r + j)%nat by lia. now apply A2.
  - destruct (IH (S r) slots (<[r := None]> old)) as [A1 A2]; [|done|].
    { intros j t H. apply list_lookup_insert_Some in H as [(_ & ? & _)|[_ H]]; [done|]. now apply Ho. }
    split; [cbn; lia|]. intros [|j] u; cbn.
    + intros [= <-]. rewrite Nat.add_0_r. destruct (old !! r) as [[t|]|] eqn:E; [|now left|now left].
      right. exists t. split; [now apply Ho|]. now destruct (tr_path t).
    + intros Hj. replace (r + S j)%nat with (S r + j)%nat by lia. now apply A2.
Qed.

Lemma on_master_bounded m s :
  session_bounded s ->
  session_bounded (on_master m s) /\ tracks_inits (ss_tracks s) (ss_tracks (on_master m s))
  /\ po_limits (ss_pool (on_master m s)) = po_limits (ss_pool s).
Proof.
  intros [H1 H2 H3 H4].
  assert (Forall maps_ok (ss_tracks (on_master m s))) as Hmaps.
  { apply on_master_all; try done. intros t path _. split; cbn; [lia|constructor].
    intros path. split; cbn; [lia|constructor]. }
  unfold on_master in *. destruct (wanted_shape m) as [Ew|Ew].
  { rewrite Ew in *. split_and!; try done. intros i t Hi. right. eauto. }
  assert (0 < length (wanted m) <= MAX_RENDITIONS)%nat as Hlen.
  { unfold MAX_RENDITIONS. destruct Ew as [(a & ->)|(a & b & -> & _)]; cbn; lia. }
  destruct (wanted m) as [|a paths]; [cbn in Hlen; lia|]. clear Ew.
  destruct (take_followed 0 (a :: paths) _) as [slots old] eqn:E.
  apply take_followed_inits in E as (A1 & A2 & A3).
  destruct (fill_slots_inits _ (a :: paths) 0 slots old A2 A3) as [B1 B2].
  cbn [ss_tracks ss_pool ss_other_variants] in *.
  assert (fill_slots 0 (a :: paths) slots old <> []) as Hne.
  { destruct slots as [|[t|] slots]; cbn in *; [lia|done|done]. }
  destruct (fill_slots 0 (a :: paths) slots old) as [|t ts] eqn:Ef; [done|].
  split_and!; try done.
  - constructor; cbn [ss_tracks ss_pool ss_other_variants]; try done; [cbn in *; lia|].
    clear -H4. revert H4. generalize (ss_other_variants s) as vs. generalize (a :: paths) as ps.
    induction ps as [|p ps IH]; intros vs H; [done|]. cbn. apply IH.
    pose proof (map_size_delete p vs) as E. destruct (vs !! p); cbn in E; unfold id in E; lia.
  - intros i t' Hi. destruct (B2 _ _ Hi) as [?|(u & Hu & E)]; [now left|right]. exists u.
    split; [|done]. cbn in Hu. rewrite list_lookup_fmap in Hu.
    destruct (ss_tracks s !! i); [|done]. now injection Hu as ->.
Qed.

Lemma ensure_map_applied uri t p : tr_applied (ensure_map uri t p).1 = tr_applied t.
Proof. unfold ensure_map. destruct (knows_map uri t); [done|]. now destruct (take_held uri p). Qed.

Lemma merge_all_applied now segs : forall tp,
  tr_applied (fold_left (fun tp s => merge_segment now s tp) segs tp).1 = tr_applied tp.1.
Proof.
  induction segs as [|s segs IH]; intros tp; [done|]. cbn. rewrite IH. destruct tp as [t p].
  unfold merge_segment. cbn.
  destruct (match tr_next_seq t with Some next => _ | None => false end); [now destruct (remove_held _ _)|].
  destruct (btree_get _ _) as [x|].
  { destruct (li_payload x); [done|]. case_bool_decide; [|done]. now destruct (take_held _ _) as [[]]. }
  destruct (se_map_uri s) as [uri|]; [|now destruct (take_held _ _)].
  rewrite <- (ensure_map_applied uri t p). destruct (ensure_map uri t p) as [t1 p1].
  now destruct (take_held _ _).
Qed.

Lemma on_followed_applied m now tp : tr_applied (on_followed m now tp).1 = tr_applied tp.1.
Proof.
  unfold on_followed.
  assert (tr_applied (note_playlist m tp).1 = tr_applied tp.1) as E1.
  { destruct tp as [t p]. unfold note_playlist. destruct (mp_map_uri m) as [uri|]; [|done].
    match goal with |- context [ensure_map uri ?u p] =>
      pose proof (ensure_map_applied uri u p); now destruct (ensure_map uri u p) end. }
  destruct (note_playlist m tp) as [t p]. destruct (head (mp_segments m)), (last (mp_segments m)); try done.
  set (tp2 := if starts_new_epoch t m _ then _ else _).
  assert (tr_applied tp2.1 = tr_applied t) as E2 by (unfold tp2; now destruct (starts_new_epoch _ _ _)).
  destruct tp2 as [t2 p2]. set (t3 := match tr_next_seq t2 with Some _ => t2 | None => _ end).
  assert (tr_applied t3 = tr_applied t2) as E3 by (unfold t3; now destruct (tr_next_seq t2)).
  pose proof (merge_all_applied now (mp_segments m) (t3, p2)) as E4.
  destruct (fold_left _ _ _) as [t4 p4]. cbn in *. congruence.
Qed.

Lemma poll_tracks_inits now ts : forall r p ts' p' out (held : nat -> option bytes),
  Forall track_ok ts -> counters_ok p -> Forall maps_ok ts ->
  (forall i t, ts !! i = Some t -> applied_ok (held (r + i)%nat) t) ->
  poll_tracks r now ts p = (ts', p', out) ->
  Forall maps_ok ts'
  /\ forall i t, ts !! i = Some t -> exists t', ts' !! i = Some t'
     /\ applied_ok (fold_left demux_init (of_rendition (r + i) out) (held (r + i)%nat)) t'
     /\ demuxed_right t (held (r + i)%nat) (of_rendition (r + i) out).
Proof.
  induction ts as [|t ts IH]; intros r p ts' p' out held Hok Hc Hm Ha; cbn [poll_tracks].
  { intros [= <- <- <-]. done. }
  apply Forall_cons in Hok as [Hok Hoks], Hm as [Hm Hms].
  destruct (track_poll r now t p) as [[t1 p1] out1] eqn:E1.
  destruct (poll_tracks (S r) now ts p1) as [[ts2 p2] out2] eqn:E2. intros [= <- <- <-].
  destruct (track_poll_spec _ _ _ _ _ _ _ Hok Hc E1) as (_ & _ & _ & _ & Hc1 & Hr1 & _).
  destruct (poll_tracks_spec _ _ _ _ _ _ _ Hoks Hc1 E2) as (_ & _ & _ & _ & _ & Hr2 & _).
  assert (turns_left t < 2 + 2 * length (tr_listed t))%nat as Hf.
  { unfold turns_left. destruct (tr_next_seq t) as [n|], (tr_listed t) as [|[k ?] ?]; cbn; try lia.
    destruct (n <? k); lia. }
  destruct (poll_loop_inits _ _ _ _ _ _ _ _ _ Hf Hok Hc Hm (Ha 0%nat t eq_refl) E1) as (A1 & A2 & A3).
  destruct (IH (S r) p1 ts2 p2 out2 held Hoks Hc1 Hms) as [B1 B2]; [|exact E2|].
  { intros i u Hi. replace (S r + i)%nat with (r + S i)%nat by lia. now apply (Ha (S i)). }
  split; [now constructor|]. intros [|i] u; cbn.
  - intros [= <-]. exists t1. rewrite of_rendition_app, Nat.add_0_r in *.
    rewrite of_rendition_all by done. rewrite (of_rendition_none r out2).
    { now rewrite app_nil_r. }
    eapply Forall_impl; [exact Hr2|]. cbn. lia.
  - intros Hi. destruct (B2 _ _ Hi) as (t' & H1 & H2 & H3). exists t'.
    rewrite of_rendition_app, (of_rendition_none _ out1).
    { now replace (r + S i)%nat with (S r + i)%nat by lia. }
    eapply Forall_impl; [exact Hr1|]. cbn. lia.
Qed.

Lemma demuxers_app out o i :
  demuxers (out ++ o) i = fold_left demux_init (of_rendition i o) (demuxers out i).
Proof. unfold demuxers. now rewrite of_rendition_app, fold_left_app. Qed.

Lemma poll_inits k now s s' out before :
  session_ok k s -> Forall maps_ok (ss_tracks s) -> inits_ok before s -> poll now s = (s', out) ->
  Forall maps_ok (ss_tracks s') /\ inits_ok (before ++ out) s'
  /\ forall i t, ss_tracks s !! i = Some t -> demuxed_right t (demuxers before i) (of_rendition i out).
Proof.
  intros Hs Hm Hi E. pose proof (poll_spec _ _ _ _ _ Hs E) as (_ & _ & Hlen & _).
  unfold poll in E. destruct (poll_tracks _ _ _ _) as [[ts p] o] eqn:Ep. injection E as <- <-.
  destruct Hs as [H1 H2 H3].
  destruct (poll_tracks_inits _ _ 0 _ _ _ _ (demuxers before) H1 H3 Hm Hi Ep) as [A1 A2].
  cbn [ss_tracks] in *. split_and!; [done| |].
  - intros i t' Hi'. rewrite demuxers_app.
    destruct (lookup_lt_is_Some_2 (ss_tracks s) i) as [u Hu]; [rewrite <- Hlen; by eapply lookup_lt_Some|].
    destruct (A2 _ _ Hu) as (v & Hv & Ha & _). cbn in *. assert (v = t') as -> by congruence. done.
  - intros i t Ht. now destruct (A2 _ _ Ht) as (v & _ & _ & H).
Qed.

Lemma on_other_variant_bounded path m s :
  session_bounded s ->
  session_bounded (on_other_variant path m s)
  /\ po_limits (ss_pool (on_other_variant path m s)) = po_limits (ss_pool s).
Proof.
  intros [H1 H2 H3 H4]. unfold on_other_variant.
  set (known := bool_decide (is_Some (ss_other_variants s !! path))).
  assert (forall l p, hold_ok p ->
    hold_ok (fold_left (fun p path => (remove_held path p).2) l p)
    /\ po_limits (fold_left (fun p path => (remove_held path p).2) l p) = po_limits p) as Hf.
  { induction l as [|x l IH]; intros p Hp; [done|]. cbn.
    destruct (remove_held_ok x p Hp) as (A1 & _ & A3). destruct (IH _ A1) as [? ?]. split; congruence. }
  split.
  - constructor; cbn [ss_tracks ss_pool ss_other_variants]; try done.
    + destruct (_ || _); [|done]. now apply Hf.
    + destruct (known || _) eqn:E; [|done].
      rewrite map_size_insert. unfold known in E.
      destruct (ss_other_variants s !! path) eqn:El; cbn; unfold id; [done|].
      rewrite bool_decide_eq_false_2 in E by now intros [].
      rewrite orb_false_l in E. apply Nat.ltb_lt in E. lia.
  - cbn. destruct (_ || _); [|done]. now apply Hf.
Qed.

Lemma step_bounded k op s before :
  op_ok op -> session_ok k s -> 0 <= k < 2 ^ 64 - 1 -> limits_ok (po_limits (ss_pool s)) ->
  session_bounded s -> inits_ok before s ->
  session_bounded (step op s).1 /\ inits_ok (before ++ (step op s).2) (step op s).1
  /\ po_limits (ss_pool (step op s).1) = po_limits (ss_pool s).
Proof.
  intros Hop Hs Hk Hl Hb Hi. pose proof Hb as [H1 H2 H3 H4].
  assert (forall s', tracks_inits (ss_tracks s) (ss_tracks s') -> inits_ok (before ++ []) s') as Hin.
  { intros s' H. rewrite app_nil_r. now apply (tracks_inits_ok _ s). }
  assert (tracks_inits (ss_tracks s) (ss_tracks s)) as Hrefl by (intros i t Ht; right; eauto).
  assert (forall ts p, Forall2 touched (ss_tracks s) ts -> hold_ok p -> po_limits p = po_limits (ss_pool s) ->
    let s' := mk_Session p ts (ss_other_variants s) (ss_master_seen s) in
    session_bounded s' /\ inits_ok (before ++ []) s' /\ po_limits (ss_pool s') = po_limits (ss_pool s)) as Ht.
  { intros ts p Hts Hp El. destruct (touched_tracks _ _ Hts H3) as (A1 & A2 & A3).
    split_and!; [|now apply Hin|done]. constructor; cbn; try done. now rewrite A3. }
  destruct op as [path b now|path [m|m] now|now|i uri d|uri|]; cbn [step fst snd].
  - unfold on_segment. destruct (attach_init path b (ss_tracks s)) as [ts|] eqn:E1.
    { apply Ht; [exact (attach_init_touched _ _ _ _ E1)|done|done]. }
    destruct (attach_segment path b (ss_tracks s)) as [[[] ts]|] eqn:E2.
    + apply (Ht ts); [exact (attach_segment_touched _ _ _ _ _ E2)| |done]. now apply (hold_ok_ext (ss_pool s)).
    + apply (Ht ts); [exact (attach_segment_touched _ _ _ _ _ E2)|done|done].
    + destruct (_ && _); [split_and!; [done|now apply Hin|done]|].
      apply (Ht (ss_tracks s)); [reflexivity|now apply hold_keeps_ok|].
      unfold hold. destruct (remove_held_ok path (ss_pool s) H1) as (_ & _ & A). destruct (remove_held _ _).
      now rewrite evict_loop_limits.
  - assert (forall i ts, Forall2 touched (ss_tracks s) ts ->
      let s' := match ts !! i with
                | Some t => let '(t, p) := on_followed m now (t, ss_pool s) in
                            mk_Session p (<[i := t]> ts) (ss_other_variants s) (ss_master_seen s)
                | None => s
                end in
      session_bounded s' /\ inits_ok (before ++ []) s' /\ po_limits (ss_pool s') = po_limits (ss_pool s)) as Hf.
    { intros i ts Hts. destruct (touched_tracks _ _ Hts H3) as (A1 & _).
      destruct (ts !! i) as [t|] eqn:Ei; [|split_and!; [done|now apply Hin|done]].
      assert (maps_ok t) as Hmt by (rewrite Forall_forall in A1; apply A1; by eapply list_elem_of_lookup_2).
      pose proof (on_followed_pair (po_limits (ss_pool s)) m now (t, ss_pool s)) as (B1 & B2 & B3);
        [split_and!; done|].
      pose proof (on_followed_applied m now (t, ss_pool s)) as Ba.
      destruct (on_followed m now (t, ss_pool s)) as [t' p']. cbn in *.
      apply (Ht (<[i := t']> ts)); [|done|done].
      destruct (Forall2_lookup_r _ _ _ _ _ Hts Ei) as (t0 & Ht0 & Ea & Em).
      rewrite <- (list_insert_id (ss_tracks s) i t0) by done.
      apply Forall2_insert; [done|]. split; [congruence|]. intros _. done. }
    cbn [on_playlist]. destruct (follows path s) as [|i|].
    + apply (Hf 0%nat). destruct (ss_tracks s); [constructor|]. constructor; [done|reflexivity].
    + apply (Hf i). reflexivity.
    + destruct (on_other_variant_bounded path m s Hb) as [A1 A2]. split_and!; [done|now apply Hin|done].
  - destruct (on_master_bounded m s Hb) as (A1 & A2 & A3). split_and!; [done|now apply Hin|done].
  - destruct (poll now s) as [s' out] eqn:E. cbn [fst snd].
    destruct (poll_inits _ _ _ _ _ before Hs H3 Hi E) as (A1 & A2 & _).
    destruct (poll_spec _ _ _ _ _ Hs E) as (_ & _ & A3 & _).
    unfold poll in E. destruct (poll_tracks _ _ _ _) as [[ts p] o] eqn:Ep. injection E as <- <-.
    destruct (poll_tracks_spec _ _ _ _ _ _ _ (so_tracks _ _ Hs) (so_counters _ _ Hs) Ep)
      as ((B1 & B2 & B3 & _) & _). cbn [ss_tracks ss_pool ss_other_variants] in *.
    split_and!; [|done|now rewrite age_loop_limits].
    constructor; cbn [ss_tracks ss_pool ss_other_variants]; try done; [|now rewrite A3].
    apply age_loop_ok. now apply (hold_ok_ext (ss_pool s)).
  - unfold seed_init. destruct (Nat.leb_spec MAX_RENDITIONS i); [split_and!; [done|now apply Hin|done]|].
    set (ts := grow_tracks i (ss_tracks s)).
    match goal with |- context [ensure_map uri _ ?q] => set (p := q) end.
    assert (hold_ok p) as Hp by now apply (hold_ok_ext (ss_pool s)).
    assert (Forall maps_ok ts /\ (1 <= length ts <= MAX_RENDITIONS)%nat /\ tracks_inits (ss_tracks s) ts)
      as (A1 & A2 & A3).
    { unfold ts, grow_tracks. split_and!.
      - apply Forall_app. split; [done|]. apply Forall_replicate. split; cbn; [lia|constructor].
      - rewrite length_app. lia.
      - rewrite length_app, length_replicate. lia.
      - intros j t Hj. apply lookup_app_Some in Hj as [Hj|[_ Hj]]; [right; eauto|left].
        apply lookup_replicate in Hj as [-> _]. done. }
    destruct (ts !! i) as [t|] eqn:Ei.
    2:{ split_and!; [|now apply Hin|done]. constructor; done. }
    assert (maps_ok t) as Hmt by (rewrite Forall_forall in A1; apply A1; by eapply list_elem_of_lookup_2).
    destruct (ensure_map_ok uri t p Hmt Hp) as (B1 & B2 & B3).
    pose proof (ensure_map_applied uri t p) as Ba.
    destruct (ensure_map uri t p) as [t' p']. cbn [fst snd] in *.
    split_and!; [|apply Hin|done].
    + constructor; cbn; try done; [|now apply Forall_insert]. now rewrite length_insert.
    + cbn. intros j u Hj. apply list_lookup_insert_Some in Hj as [(<- & <- & _)|[_ Hj]]; [|now apply A3].
      rewrite Ba. now apply A3.
  - unfold void_map. apply (Ht (map _ (ss_tracks s))); [|now apply (hold_ok_ext (ss_pool s))|done].
    clear. induction (ss_tracks s) as [|t ts IH]; cbn; constructor; [|done].
    split; [done|]. intros [A1 A2]. split; cbn; [now rewrite update_map_length|]. now apply update_map_ok.
  - apply (Ht (ss_tracks s)); [reflexivity|now apply (hold_ok_ext (ss_pool s))|done].
Qed.

Lemma run_bounded ops : forall k s before,
  Forall op_ok ops -> session_ok k s -> 0 <= k -> k + zlen ops < 2 ^ 64 ->
  limits_ok (po_limits (ss_pool s)) -> session_bounded s -> inits_ok before s ->
  session_bounded (session_run ops s).1 /\ inits_ok (before ++ (session_run ops s).2) (session_run ops s).1
  /\ po_limits (ss_pool (session_run ops s).1) = po_limits (ss_pool s).
Proof.
  induction ops as [|op ops IH]; intros k s before Hops Hs Hk Hz Hl Hb Hi; cbn [session_run].
  - now rewrite app_nil_r.
  - apply Forall_cons in Hops as [Hop Hops]. rewrite zlen_cons in *. pose proof (zlen_nonneg ops).
    pose proof (step_ok k op s Hop Hs ltac:(lia)) as H1.
    destruct (step_bounded k op s before Hop Hs ltac:(lia) Hl Hb Hi) as (A1 & A2 & A3).
    destruct (step op s) as [s1 o1]. cbn [fst snd] in *. rewrite <- A3 in Hl.
    destruct (IH (k + 1) s1 _ Hops H1 ltac:(lia) ltac:(lia) Hl A1 A2) as (B1 & B2 & B3).
    destruct (session_run ops s1) as [s2 o2]. cbn [fst snd] in *. rewrite app_assoc. split_and!; [done|done|congruence].
Qed.

Lemma session_new_bounded limits : limits_ok limits -> session_bounded (Session_new limits).
Proof.
  intros [? ?]. constructor; cbn; try done.
  - constructor; cbn; try done; constructor.
  - unfold MAX_RENDITIONS. lia.
  - repeat constructor; cbn; lia.
  - rewrite map_size_empty. lia.
Qed.

(** A run from the start of a session, its limits sound and its playlists as parsed. *)
Definition started (limits : SessionLimits) (ops : list Op) : Prop :=
  limits_ok limits /\ 0 < idle_floor limits /\ Forall op_ok ops /\ zlen ops < 2 ^ 64.

Lemma started_ok limits ops :
  started limits ops ->
  session_ok (zlen ops) (session_run ops (Session_new limits)).1
  /\ session_bounded (session_run ops (Session_new limits)).1
  /\ inits_ok (session_run ops (Session_new limits)).2 (session_run ops (Session_new limits)).1
  /\ po_limits (ss_pool (session_run ops (Session_new limits)).1) = limits.
Proof.
  intros (Hl & _ & Hops & Hz). pose proof (zlen_nonneg ops).
  pose proof (run_ok ops 0 (Session_new limits) Hops (session_new_ok limits) ltac:(lia) ltac:(lia)) as H1.
  destruct (run_bounded ops 0 (Session_new limits) [] Hops (session_new_ok limits) ltac:(lia) ltac:(lia) Hl
              (session_new_bounded limits Hl)) as (H2 & H3 & H4); [|done].
  intros [|i] t; cbn; [|done]. intros [= <-] h Hh. done.
Qed.

(** ** The theorems *)

(** C11: While a session goes on following the playlists it follows, each of its renditions
    releases segments in strictly increasing order of epoch and media sequence: none twice,
    none out of order, whatever is uploaded, listed, re-listed or lost and whenever it polls.
    The playlists are those the parser returns without the last media sequence, 2^64 - 1, which
    it accepts and for which the claim fails ([last_sequence_repeats]); the session handles
    fewer than 2^64 objects and polls. *)
Theorem releases_in_order limits before ops i :
  started limits (before ++ ops) ->
  keeps_following ops (session_run before (Session_new limits)).1 ->
  StronglySorted release_lt (of_rendition i (session_run ops (session_run before (Session_new limits)).1).2).
Proof.
  intros (Hl & Hf & Hops & Hz) Hk. apply Forall_app in Hops as [Hb Ho].
  assert (zlen (before ++ ops) = zlen before + zlen ops) as El by (unfold zlen; rewrite length_app; lia).
  pose proof (zlen_nonneg before). pose proof (zlen_nonneg ops).
  pose proof (run_ok before 0 (Session_new limits) Hb (session_new_ok limits) ltac:(lia) ltac:(lia)) as H1.
  eapply (run_ordered ops _ _ [] Ho H1 ltac:(lia) ltac:(lia) Hk).
  intros j. cbn. split; [constructor|]. destruct (ss_tracks _ !! j); [constructor|done].
Qed.

(** A poll accounts for every media sequence it moves past: each is released or counted
    as skipped, and a release says it follows a gap exactly when a sequence before it was
    skipped. *)
Theorem poll_accounts_for_sequences limits ops now :
  started limits ops ->
  let s := (session_run ops (Session_new limits)).1 in
  let '(s', out) := poll now s in
  (forall i t, ss_tracks s !! i = Some t ->
     exists t', ss_tracks s' !! i = Some t' /\ track_polled t (of_rendition i out) t')
  /\ skipped (ss_pool s')
     = sat_u 64 (skipped (ss_pool s) + (total_advance (ss_tracks s) (ss_tracks s') - zlen out)).
Proof.
  intros H. destruct (started_ok _ _ H) as (H1 & _). cbv zeta.
  destruct (poll now _) as [s' out] eqn:E.
  destruct (poll_spec _ _ _ _ _ H1 E) as (_ & _ & _ & A & _ & B). done.
Qed.

(** [next_deadline] is exact: after a poll, polling again without a new object changes
    nothing before the deadline and something from it on. *)
Theorem next_deadline_is_exact limits ops now :
  started limits ops ->
  let s' := (poll now (session_run ops (Session_new limits)).1).1 in
  forall now', poll now' s' = (s', []) <-> not_yet now' (next_deadline s').
Proof.
  intros H. destruct (started_ok _ _ H) as (H1 & _ & _ & H4). destruct H as (_ & Hf & _). cbv zeta.
  destruct (poll now _) as [s' out] eqn:E. eapply poll_next_deadline; [exact H1| |exact E].
  now rewrite H4.
Qed.

(** A session stays within its bounds whatever an encoder sends: the hold keeps at most
    its limits of objects and bytes, under distinct paths and counted exactly; it follows one
    or two playlists, with at most four inits each, and remembers at most sixteen others. *)
Theorem session_stays_bounded limits ops :
  started limits ops ->
  let s := (session_run ops (Session_new limits)).1 in
  session_bounded s /\ po_limits (ss_pool s) = limits.
Proof. intros H. now destruct (started_ok _ _ H) as (_ & H2 & _ & H4). Qed.

(** C12: Every released segment that was listed under an [EXT-X-MAP] reaches a demuxer that
    holds that map's newest init (up to equal hashes): through changing maps, returns to an
    earlier map, re-uploads, moved renditions and switched variants.  The playlists are those
    the parser returns without the media sequence 2^64 - 1. *)
Theorem segments_meet_their_init limits ops now i t :
  started limits ops ->
  let '(s, before) := session_run ops (Session_new limits) in
  ss_tracks s !! i = Some t ->
  demuxed_right t (demuxers before i) (of_rendition i (poll now s).2).
Proof.
  intros H. destruct (started_ok _ _ H) as (H1 & H2 & H3 & _).
  destruct (session_run ops (Session_new limits)) as [s before]. cbn [fst snd] in *. intros Ht.
  destruct (poll now s) as [s' out] eqn:E.
  destruct (poll_inits _ _ _ _ _ _ H1 (sb_maps _ H2) H3 E) as (_ & _ & A). now apply A.
Qed.
End Ordering.

(** ** Runs of an encoder *)

Definition ex_segment (n : Z) (path : string) (map_uri : option string) : SegmentEntry :=
  mk_SegmentEntry n path (from_secs 6) false map_uri.
Definition ex_media (first : Z) (map_uri : option string) (l : list string) : Playlist :=
  Media (mk_MediaPlaylist (from_secs 6) first
           (imap (fun i p => ex_segment (first + Z.of_nat i) p map_uri) l) false map_uri None false).
Definition ex_master (path : string) : Playlist :=
  Master (mk_MasterPlaylist [mk_Variant 1 path None []] [] None).
Definition ex_limits : SessionLimits := mk_SessionLimits 8 1000000 (from_secs 10).
Definition ex_hash (b : bytes) : Z := fold_left (fun h x => h * 257 + x) b 7.

(** Two segments before their playlist, the second late, a third never. *)
Definition ex_ops : list Op :=
  [OpSegment "init.mp4" [1; 2] 0; OpSegment "s5.m4s" [5] 1; OpSegment "s7.m4s" [7] 2;
   OpPlaylist "a.m3u8" (ex_media 5 (Some "init.mp4") ["s5.m4s"; "s6.m4s"; "s7.m4s"]) 3].

Definition ex_started ops : bool :=
  forallb (fun op => match op with
                     | OpPlaylist _ (Media m) _ =>
                         (0 <? mp_target_duration m)
                         && forallb (fun s => (0 <=? se_sequence s) && (se_sequence s <? 2 ^ 64 - 1))
                              (mp_segments m)
                     | _ => true
                     end) ops
  && (zlen ops <? 2 ^ 64).

Lemma ex_started_ok ops : ex_started ops = true -> started ex_limits ops.
Proof.
  unfold ex_started. rewrite andb_true_iff, forallb_forall. intros [H1 H2%Z.ltb_lt].
  split; [now split|]. split; [done|]. split; [|done]. apply Forall_forall. intros op Hop%list_elem_of_In.
  specialize (H1 _ Hop). destruct op as [| ? [m|] ?| | | |]; try done. cbn.
  apply andb_true_iff in H1 as [Ht%Z.ltb_lt Hs]. split; [done|].
  apply Forall_forall. intros s Hin%list_elem_of_In. rewrite forallb_forall in Hs.
  specialize (Hs _ Hin). apply andb_true_iff in Hs as [? ?]. lia.
Qed.

(** A switch to another variant keeps the epoch and starts over in the sequences: the same
    rendition, epoch and sequence are released twice. *)
Theorem variant_switch_repeats_sequence :
  let ops := [OpPlaylist "a.m3u8" (ex_media 5 None ["a5.ts"]) 0; OpSegment "a5.ts" [1] 1; OpPoll 2;
              OpPlaylist "master.m3u8" (ex_master "b.m3u8") 3;
              OpPlaylist "b.m3u8" (ex_media 5 None ["b5.ts"]) 4; OpSegment "b5.ts" [2] 5; OpPoll 6] in
  map (fun x => (re_rendition x, re_epoch x, re_sequence x, re_reanchor x, re_payload x))
    (session_run ex_hash ops (Session_new ex_limits)).2
  = [(0%nat, 0, 5, RNone, [1]); (0%nat, 0, 5, RClock, [2])].
Proof. vm_compute. reflexivity. Qed.

(** After the last media sequence there is no next one, and the next listing starts anew at its
    own first sequence: uploaded and listed again, it is released again in the same epoch. *)
Theorem last_sequence_repeats :
  let ops := [OpPlaylist "a.m3u8" (ex_media (2 ^ 64 - 1) None ["s.ts"]) 0; OpSegment "s.ts" [1] 1; OpPoll 2;
              OpSegment "s.ts" [1] 3; OpPlaylist "a.m3u8" (ex_media (2 ^ 64 - 1) None ["s.ts"]) 4; OpPoll 5] in
  map (fun x => (re_rendition x, re_epoch x, re_sequence x, re_payload x))
    (session_run ex_hash ops (Session_new ex_limits)).2
  = [(0%nat, 0, 2 ^ 64 - 1, [1]); (0%nat, 0, 2 ^ 64 - 1, [1])].
Proof. vm_compute. reflexivity. Qed.

Definition ex_run : list Op := ex_ops ++ [OpPoll 4; OpPoll (from_secs 7)].

Lemma releases_in_order_witness :
  map re_sequence (of_rendition 0 (session_run ex_hash ex_run (Session_new ex_limits)).2) = [5; 7]
  /\ StronglySorted release_lt (of_rendition 0 (session_run ex_hash ex_run (Session_new ex_limits)).2).
Proof.
  split; [vm_compute; reflexivity|].
  apply (releases_in_order ex_hash ex_limits [] ex_run 0%nat).
  - apply ex_started_ok. vm_compute. reflexivity.
  - unfold ex_run, ex_ops. cbn [app keeps_following keeps_renditions]. repeat (split; [exact I|]). exact I.
Defined.

Lemma poll_accounts_for_sequences_witness :
  let s := (session_run ex_hash (ex_ops ++ [OpPoll 4]) (Session_new ex_limits)).1 in
  let '(s', out) := poll ex_hash (from_secs 7) s in
  skipped (ss_pool s') = 1
  /\ skipped (ss_pool s')
     = sat_u 64 (skipped (ss_pool s) + (total_advance (ss_tracks s) (ss_tracks s') - zlen out)).
Proof.
  pose proof (poll_accounts_for_sequences ex_hash ex_limits (ex_ops ++ [OpPoll 4]) (from_secs 7)
                (ex_started_ok (ex_ops ++ [OpPoll 4]) eq_refl)) as H.
  cbv zeta in *. destruct (poll _ _ _) as [s' out] eqn:E. destruct H as [_ H].
  split; [|exact H]. vm_compute in E. injection E as <- _. reflexivity.
Defined.

(** The next deadline is that of the missing segment, a target duration after its listing. *)
Lemma next_deadline_is_exact_witness :
  let s' := (poll ex_hash 4 (session_run ex_hash ex_ops (Session_new ex_limits)).1).1 in
  next_deadline s' = Some (3 + from_secs 6)
  /\ forall now', poll ex_hash now' s' = (s', []) <-> not_yet now' (next_deadline s').
Proof.
  split; [vm_compute; reflexivity|].
  exact (next_deadline_is_exact ex_hash ex_limits ex_ops 4 (ex_started_ok ex_ops eq_refl)).
Defined.

Lemma session_stays_bounded_witness :
  map he_path (po_held (ss_pool (session_run ex_hash (take 3 ex_ops) (Session_new ex_limits)).1))
  = ["init.mp4"; "s5.m4s"; "s7.m4s"]
  /\ session_bounded ex_hash (session_run ex_hash (take 3 ex_ops) (Session_new ex_limits)).1.
Proof.
  split; [vm_compute; reflexivity|].
  exact (proj1 (session_stays_bounded ex_hash ex_limits (take 3 ex_ops)
                 (ex_started_ok (take 3 ex_ops) eq_refl))).
Defined.

Lemma segments_meet_their_init_witness :
  let '(s, before) := session_run ex_hash ex_ops (Session_new ex_limits) in
  match ss_tracks s !! 0%nat with
  | Some t =>
      map re_init (poll ex_hash 4 s).2 = [Some (mk_Init "init.mp4" [1; 2])]
      /\ demuxed_right ex_hash t (demuxers before 0) (of_rendition 0 (poll ex_hash 4 s).2)
  | None => False
  end.
Proof.
  pose proof (segments_meet_their_init ex_hash ex_limits ex_ops 4 0%nat) as H.
  destruct (session_run ex_hash ex_ops (Session_new ex_limits)) as [s before] eqn:E.
  destruct (ss_tracks s !! 0%nat) as [t|] eqn:Et.
  - split; [|exact (H t (ex_started_ok ex_ops eq_refl) eq_refl)].
    clear H Et. vm_compute in E. injection E as <- _. vm_compute. reflexivity.
  - clear H. vm_compute in E. injection E as <- _. discriminate Et.
Defined.
