(* ===== verification/Security.v ===== *)
(** * Ingest security: failures counted and addresses banned

    Models [crates/restream-engine/src/security.rs] and the configuration of
    [crates/restream-domain/src/domain/ingest_security.rs].  Instants are nanoseconds; the
    order a [HashMap] iterates in is a parameter. *)

From Stdlib Require Import Ascii Sorted.
From stdpp Require Import sorting.
From S2P Require Import Prelude Media Text UploadPolicy HlsPlaylist.

Open Scope string_scope.
Open Scope list_scope.
Open Scope Z_scope.

(** ** Configuration *)

Record IngestSecurityConfig := mk_IngestSecurityConfig {
  failure_limit : Z;
  failure_window_ms : Z;
  ban_ms : Z;
  tracked_ip_limit : Z;
}.

Definition DEFAULT_INGEST_SECURITY_CONFIG : IngestSecurityConfig :=
  mk_IngestSecurityConfig 10 (60 * 1000) (10 * 60 * 1000) 10000.

Definition config_normalize (c : IngestSecurityConfig) : IngestSecurityConfig :=
  mk_IngestSecurityConfig (Z.max (failure_limit c) 1) (Z.max (failure_window_ms c) 1)
    (Z.max (ban_ms c) 1) (Z.max (tracked_ip_limit c) 1).

Definition config_validate (c : IngestSecurityConfig) : option string :=
  if failure_limit c <? 1 then Some "ingestSecurity.failureLimit must be >= 1"
  else if failure_window_ms c <? 1 then Some "ingestSecurity.failureWindowMs must be >= 1"
  else if ban_ms c <? 1 then Some "ingestSecurity.banMs must be >= 1"
  else if tracked_ip_limit c <? 1 then Some "ingestSecurity.trackedIpLimit must be >= 1"
  else None.

(** ** Scopes *)

Inductive RateLimitScope :=
| DashboardLogin | RtmpPublish | SrtPublish | SrtRead | HlsPublish | MoqPublish.
#[export] Instance RateLimitScope_eq_dec : EqDecision RateLimitScope.
Proof. solve_decision. Defined.

Definition scope_key (s : RateLimitScope) : string :=
  match s with
  | DashboardLogin => "dashboard-login"
  | RtmpPublish => "rtmp-publish"
  | SrtPublish => "srt-publish"
  | SrtRead => "srt-read"
  | HlsPublish => "hls-publish"
  | MoqPublish => "moq-publish"
  end.

Definition scope_from_key (key : string) : option RateLimitScope :=
  if bool_decide (key = "dashboard-login") then Some DashboardLogin
  else if bool_decide (key = "rtmp-publish") then Some RtmpPublish
  else if bool_decide (key = "srt-publish") then Some SrtPublish
  else if bool_decide (key = "srt-read") then Some SrtRead
  else if bool_decide (key = "hls-publish") then Some HlsPublish
  else if bool_decide (key = "moq-publish") then Some MoqPublish
  else None.

Definition exempts_loopback (s : RateLimitScope) : bool :=
  match s with DashboardLogin => false | _ => true end.

(** ** Addresses: [str::parse::<IpAddr>] of the standard library *)

Inductive IpAddr := V4 (octets : list Z) | V6 (groups : list Z).

Fixpoint read_digits (radix acc : Z) (count : nat) (s : string) : Z * nat * string :=
  match s with
  | String c s' =>
      match to_digit radix c with
      | Some d => read_digits radix (acc * radix + d) (S count) s'
      | None => (acc, count, s)
      end
  | EmptyString => (acc, count, s)
  end.

(** A number of at most [max_digits] digits below [bound], and what follows it. *)
Definition read_number (radix : Z) (max_digits : nat) (allow_zero_prefix : bool) (bound : Z) (s : string)
  : option (Z * string) :=
  let '(v, count, rest) := read_digits radix 0 0 s in
  if (max_digits <? count)%nat || (count =? 0)%nat then None
  else if negb allow_zero_prefix && starts_with s "0" && (1 <? count)%nat then None
  else if v <? bound then Some (v, rest) else None.

Definition read_separator {A} (sep : string) (index : nat) (inner : string -> option (A * string))
    (s : string) : option (A * string) :=
  if (0 <? index)%nat then rest ← strip_prefix sep s; inner rest else inner s.

Definition read_ipv4_addr (s : string) : option (list Z * string) :=
  let octet := read_number 10 3 false 256 in
  '(a, s) ← read_separator "." 0 octet s;
  '(b, s) ← read_separator "." 1 octet s;
  '(c, s) ← read_separator "." 2 octet s;
  '(d, s) ← read_separator "." 3 octet s;
  Some ([a; b; c; d], s).

(** [read_groups]: the groups read, whether an IPv4 address ended them, and the rest. *)
Fixpoint read_groups (left i : nat) (s : string) : list Z * bool * string :=
  match left with
  | O => ([], false, s)
  | S left' =>
      match (if (1 <=? left')%nat then read_separator ":" i read_ipv4_addr s else None) with
      | Some (octets, rest) =>
          match octets with
          | [a; b; c; d] => ([a * 256 + b; c * 256 + d], true, rest)
          | _ => ([], false, s)
          end
      | None =>
          match read_separator ":" i (read_number 16 4 true 65536) s with
          | Some (g, rest) => let '(gs, v4, rest) := read_groups left' (S i) rest in (g :: gs, v4, rest)
          | None => ([], false, s)
          end
      end
  end.

Definition read_ipv6_addr (s : string) : option (list Z * string) :=
  let '(hd_, head_ipv4, rest) := read_groups 8 0 s in
  if (length hd_ =? 8)%nat then Some (hd_, rest)
  else if head_ipv4 then None
  else
    rest ← strip_prefix ":" rest;
    rest ← strip_prefix ":" rest;
    let limit := (8 - (length hd_ + 1))%nat in
    let '(tl_, _, rest) := read_groups limit 0 rest in
    Some (hd_ ++ replicate (8 - length hd_ - length tl_) 0 ++ tl_, rest).

Definition parse_ip_addr (s : string) : option IpAddr :=
  let whole {A} (f : A -> IpAddr) (x : A * string) :=
    match x.2 with EmptyString => Some (f x.1) | _ => None end in
  match read_ipv4_addr s with
  | Some x => whole V4 x
  | None => read_ipv6_addr s ≫= whole V6
  end.

(** [IpAddr::is_loopback]: 127.0.0.0/8, or ::1 *)
Definition is_loopback (a : IpAddr) : bool :=
  match a with
  | V4 octets => match octets with o :: _ => o =? 127 | [] => false end
  | V6 groups => bool_decide (groups = [0; 0; 0; 0; 0; 0; 0; 1])
  end.

Definition is_loopback_ip (ip : string) : bool :=
  if bool_decide (ip = "localhost") then true
  else match parse_ip_addr ip with Some a => is_loopback a | None => false end.

(** ** The service *)

Record FailureRecord := mk_FailureRecord { fr_failures : list Z; fr_banned_until : option Z }.
Abbreviation Table := (gmap string FailureRecord).

Definition NUL : ascii := ascii_of_nat 0.
Definition scoped_key (scope : RateLimitScope) (ip : string) : string :=
  scope_key scope +:+ String NUL "" +:+ ip.
Definition parse_scoped_key (key : string) : option (string * string) :=
  '(scope, ip) ← split_once NUL key;
  match scope_from_key scope with
  | Some _ => if bool_decide (ip = "") then None else Some (scope, ip)
  | None => None
  end.

Definition exempt (scope : RateLimitScope) (ip : string) : bool :=
  exempts_loopback scope && is_loopback_ip ip.

Definition is_ip_banned_for (scope : RateLimitScope) (ip : string) (now : Z) (state : Table)
  : option Z :=
  if exempt scope ip then None
  else
    record ← state !! scoped_key scope ip;
    match fr_banned_until record with
    | Some until => if now <? until then Some (until - now) else None
    | None => None
    end.

Section Service.
(** The order in which a [HashMap] iterates. *)
Context (order : Table -> list (string * FailureRecord)).

Definition currently_banned (now : Z) (r : FailureRecord) : bool :=
  match fr_banned_until r with Some t => now <? t | None => false end.
Definition most_recent_failure (now : Z) (r : FailureRecord) : Z :=
  match fr_failures r with
  | [] => now
  | t :: l => fold_left Z.max l t
  end.

(** The sort key [(currently_banned, most_recent_failure)], unbanned first. *)
Definition rank_leb (now : Z) (a b : FailureRecord) : bool :=
  match currently_banned now a, currently_banned now b with
  | false, true => true
  | true, false => false
  | _, _ => most_recent_failure now a <=? most_recent_failure now b
  end.

Definition sort_entries (now : Z) : list (string * FailureRecord) -> list (string * FailureRecord) :=
  sort_by (fun x y => rank_leb now x.2 y.2).

Definition stale (now : Z) (r : FailureRecord) : bool :=
  let expired_ban := match fr_banned_until r with Some t => t <=? now | None => true end in
  let has_failures := match fr_failures r with [] => false | _ => true end in
  negb (negb expired_ban || has_failures).

Definition evict_oldest_if_needed (now : Z) (limit : Z) (state : Table) : Table :=
  if Z.of_nat (size state) <=? limit then state
  else
    let state := filter (fun e => stale now e.2 = false) state in
    if limit <? Z.of_nat (size state) then
      let excess := Z.to_nat (Z.of_nat (size state) - limit) in
      let keys_to_remove := map fst (take excess (sort_entries now (order state))) in
      fold_left (fun m k => delete k m) keys_to_remove state
    else state.

(** The clock is read twice: [now] by the call itself, [later] by the eviction. *)
Definition record_failure_for (c : IngestSecurityConfig) (scope : RateLimitScope) (ip : string)
    (now later : Z) (state : Table) : Table * bool :=
  if exempt scope ip then (state, false)
  else
    let limit := Z.max (tracked_ip_limit c) 1 in
    let state := evict_oldest_if_needed later (limit - 1) state in
    let key := scoped_key scope ip in
    let record := default (mk_FailureRecord [] None) (state !! key) in
    let window := from_millis (failure_window_ms c) in
    let failures := filter (fun t => Z.max 0 (now - t) < window) (fr_failures record ++ [now]) in
    if failure_limit c <=? zlen failures
    then (<[key := mk_FailureRecord failures (Some (now + from_millis (ban_ms c)))]> state, true)
    else (<[key := mk_FailureRecord failures (fr_banned_until record)]> state, false).

Definition record_success_for (scope : RateLimitScope) (ip : string) (state : Table) : Table :=
  if exempt scope ip then state else delete (scoped_key scope ip) state.

Definition reset_matches (scope : option RateLimitScope) (ip : option string) (key : string) : bool :=
  match parse_scoped_key key with
  | None => false
  | Some (stored_scope, stored_ip) =>
      match scope with Some s => bool_decide (stored_scope = scope_key s) | None => true end
      && match ip with Some ip => bool_decide (stored_ip = ip) | None => true end
  end.

Definition reset (scope : option RateLimitScope) (ip : option string) (state : Table) : Table * Z :=
  let after := filter (fun e => reset_matches scope ip e.1 = false) state in
  (after, sat_u 64 (Z.of_nat (size state) - Z.of_nat (size after))).

Record RateLimitSnapshot := mk_RateLimitSnapshot {
  sn_scope : string;
  sn_ip : string;
  sn_failure_count : Z;
  sn_banned : bool;
  sn_ban_remaining_ms : option Z;
}.

Definition snapshot_of (now : Z) (e : string * FailureRecord) : option RateLimitSnapshot :=
  '(scope, ip) ← parse_scoped_key e.1;
  let banned_until :=
    match fr_banned_until e.2 with Some u => if now <? u then Some u else None | None => None end in
  Some (mk_RateLimitSnapshot scope ip (zlen (fr_failures e.2)) (bool_decide (is_Some banned_until))
          ((fun u => as_u64 ((u - now) / 1000000)) <$> banned_until)).

(** Banned first, then by scope, then by address. *)
Definition snapshot_leb (a b : RateLimitSnapshot) : bool :=
  match sn_banned a, sn_banned b with
  | true, false => true
  | false, true => false
  | _, _ =>
      match String.compare (sn_scope a) (sn_scope b) with
      | Lt => true
      | Gt => false
      | Eq => match String.compare (sn_ip a) (sn_ip b) with Gt => false | _ => true end
      end
  end.

Definition snapshots (now : Z) (state : Table) : list RateLimitSnapshot :=
  sort_by snapshot_leb (omap (snapshot_of now) (order state)).

(** ** Runs of the service *)

Record IngestSecurityService := mk_IngestSecurityService {
  sv_config : IngestSecurityConfig;
  sv_state : Table;
}.

Definition service_new (config : IngestSecurityConfig) : IngestSecurityService :=
  mk_IngestSecurityService (config_normalize config) ∅.

Definition update_config (new_config : IngestSecurityConfig) (s : IngestSecurityService)
  : IngestSecurityService :=
  mk_IngestSecurityService (config_normalize new_config) (sv_state s).

(** The calls that change the service. *)
Inductive Op :=
| OpFail (scope : RateLimitScope) (ip : string) (now later : Z)
| OpSuccess (scope : RateLimitScope) (ip : string)
| OpReset (scope : option RateLimitScope) (ip : option string)
| OpConfig (c : IngestSecurityConfig).

Definition service_step (s : IngestSecurityService) (op : Op) : IngestSecurityService :=
  let table t := mk_IngestSecurityService (sv_config s) t in
  match op with
  | OpFail scope ip now later =>
      table (record_failure_for (sv_config s) scope ip now later (sv_state s)).1
  | OpSuccess scope ip => table (record_success_for scope ip (sv_state s))
  | OpReset scope ip => table (reset scope ip (sv_state s)).1
  | OpConfig c => update_config c s
  end.

Definition service_run (config : IngestSecurityConfig) (ops : list Op) : IngestSecurityService :=
  fold_left service_step ops (service_new config).

(** ** Keys *)

Lemma scope_key_lacks s : lacks NUL (scope_key s) = true.
Proof. by destruct s. Qed.

Lemma scope_from_key_of s : scope_from_key (scope_key s) = Some s.
Proof. by destruct s. Qed.

Lemma scoped_key_split s ip : split_once NUL (scoped_key s ip) = Some (scope_key s, ip).
Proof. apply split_once_app, scope_key_lacks. Qed.

Lemma scoped_key_inj s ip s' ip' : scoped_key s ip = scoped_key s' ip' -> s = s' /\ ip = ip'.
Proof.
  intros He. pose proof (scoped_key_split s ip) as H1. rewrite He, scoped_key_split in H1.
  injection H1 as Hs ->. split; [|done]. apply (f_equal scope_from_key) in Hs.
  rewrite !scope_from_key_of in Hs. by injection Hs.
Qed.

Lemma parse_scoped_key_of s ip :
  ip <> "" -> parse_scoped_key (scoped_key s ip) = Some (scope_key s, ip).
Proof.
  intros Hip. unfold parse_scoped_key. rewrite scoped_key_split. cbn.
  by rewrite scope_from_key_of, bool_decide_false.
Qed.

(** ** The log of a run

    What the limiter remembers, read off the calls themselves. *)




Definition in_window (c : IngestSecurityConfig) (now t : Z) : Prop :=
  Z.max 0 (now - t) < from_millis (failure_window_ms c).
#[export] Instance in_window_dec c now t : Decision (in_window c now t).
Proof. unfold in_window. apply _. Defined.




Lemma run_snoc config ops op :
  service_run config (ops ++ [op]) = service_step (service_run config ops) op.
Proof. unfold service_run. by rewrite fold_left_app. Qed.



(** ** The table *)

Lemma delete_keys_sub (ks : list string) (m : Table) :
  fold_left (fun m k => delete k m) ks m ⊆ m.
Proof.
  revert m. induction ks as [|k ks IH]; intros m; [done|]. cbn.
  etrans; [apply IH|]. apply delete_subseteq.
Qed.

Lemma evict_sub now limit m : evict_oldest_if_needed now limit m ⊆ m.
Proof.
  unfold evict_oldest_if_needed. case_match; [done|]. case_match.
  - etrans; [apply delete_keys_sub|]. apply map_filter_subseteq.
  - apply map_filter_subseteq.
Qed.







(** ** A table with room *)

Definition fail_time (op : Op) : option Z :=
  match op with OpFail _ _ now _ => Some now | _ => None end.
Definition keeps_config (op : Op) : Prop := match op with OpConfig _ => False | _ => True end.




Lemma with_room_config config ops :
  Forall keeps_config ops -> sv_config (service_run config ops) = config_normalize config.
Proof.
  induction ops as [|op ops IH] using rev_ind; [done|]. rewrite Forall_app, run_snoc.
  intros [Ho Hop]. specialize (IH Ho). by destruct op; inversion_clear Hop.
Qed.















(** ** Eviction *)

Lemma rank_total now a b : rank_leb now a b = false -> rank_leb now b a = true.
Proof. unfold rank_leb. repeat case_match; try done; lia. Qed.
Lemma rank_trans now a b c :
  rank_leb now a b = true -> rank_leb now b c = true -> rank_leb now a c = true.
Proof. unfold rank_leb. repeat case_match; try done; lia. Qed.

Context (order_perm : forall m, order m ≡ₚ map_to_list m).

Lemma delete_keys_lookup (ks : list string) (m : Table) k :
  fold_left (fun m k => delete k m) ks m !! k = if decide (k ∈ ks) then None else m !! k.
Proof.
  revert m. induction ks as [|k' ks IH]; intros m; [by rewrite decide_False by set_solver|].
  cbn. rewrite IH. destruct (decide (k ∈ ks)); [by rewrite decide_True by set_solver|].
  destruct (decide (k = k')) as [->|Hne].
  - by rewrite lookup_delete_eq, decide_True by set_solver.
  - by rewrite lookup_delete_ne, decide_False by set_solver.
Qed.

Lemma sorted_entries_lookup now (m : Table) k r :
  m !! k = Some r <-> (k, r) ∈ sort_entries now (order m).
Proof. unfold sort_entries. by rewrite sort_by_perm, order_perm, elem_of_map_to_list. Qed.

Lemma size_list_to_set_le (l : list string) : (size (list_to_set l : gset string) <= length l)%nat.
Proof.
  induction l as [|x l IH]; [by cbn; rewrite size_empty|]. cbn.
  rewrite size_union_alt, size_singleton. pose proof (subseteq_size (list_to_set l ∖ {[x]}) (list_to_set l : gset string)).
  specialize (H ltac:(set_solver)). lia.
Qed.

Lemma cap_entries now n (m : Table) :
  let m' := fold_left (fun m k => delete k m) (map fst (take n (sort_entries now (order m)))) m in
  (size m' <= size m - n)%nat /\
  forall k r k' r', m !! k = Some r -> m' !! k = None -> m' !! k' = Some r' -> rank_leb now r r' = true.
Proof.
  intros m'. set (l := sort_entries now (order m)) in *.
  assert (Hkeep : forall k r, m' !! k = Some r -> (k, r) ∈ drop n l).
  { intros k r. unfold m'. rewrite delete_keys_lookup. case_decide as Hk; [done|].
    rewrite (sorted_entries_lookup now). fold l. rewrite <- (take_drop n l) at 1.
    intros [Hin|Hin]%elem_of_app; [|done]. destruct Hk. apply list_elem_of_fmap. by exists (k, r). }
  split.
  - rewrite <- size_dom. trans (size (list_to_set (map fst (drop n l)) : gset string)).
    + apply subseteq_size. intros k [r Hr]%elem_of_dom. apply elem_of_list_to_set, list_elem_of_fmap.
      exists (k, r). auto.
    + etrans; [apply size_list_to_set_le|]. rewrite length_map, length_drop.
      unfold l, sort_entries. rewrite sort_by_perm, order_perm, length_map_to_list. done.
  - intros k r k' r' Hr Hgone Hr'. apply Hkeep in Hr'. unfold m' in Hgone.
    rewrite delete_keys_lookup in Hgone. case_decide as Hk; [|congruence].
    apply list_elem_of_fmap in Hk as ([k0 r0] & -> & Hin).
    assert (r0 = r) as ->.
    { assert ((k0, r0) ∈ l) as Hl by (eapply elem_of_take in Hin as (? & ? & _); by eapply list_elem_of_lookup_2).
      apply sorted_entries_lookup in Hl. cbn in Hr. congruence. }
    exact (sort_by_split (fun x y => rank_leb now x.2 y.2) (fun x y => rank_total now x.2 y.2)
             (fun x y z => rank_trans now x.2 y.2 z.2) n _ (k0, r) (k', r') Hin Hr').
Qed.

Lemma evict_entries now limit m :
  0 <= limit ->
  let m' := evict_oldest_if_needed now limit m in
  Z.of_nat (size m') <= limit /\
  forall k r k' r', m !! k = Some r -> m' !! k = None -> m' !! k' = Some r' ->
    stale now r = true \/ rank_leb now r r' = true.
Proof.
  intros Hlim. unfold evict_oldest_if_needed. case_match eqn:Hsz; cbv zeta.
  { split; [lia|]. intros; congruence. }
  set (f := filter _ m).
  assert (Hf : forall k r, m !! k = Some r -> stale now r = true \/ f !! k = Some r).
  { intros k r Hr. destruct (stale now r) eqn:Hst; [by left|]. right. by apply map_lookup_filter_Some. }
  case_match eqn:Hover.
  - destruct (cap_entries now (Z.to_nat (Z.of_nat (size f) - limit)) f) as [Hs Hk].
    split; [lia|]. intros k r k' r' Hr Hg Hr'. destruct (Hf _ _ Hr); [by left|]. right. by eapply Hk.
  - split; [lia|]. intros k r k' r' Hr Hg Hr'. destruct (Hf _ _ Hr); [by left|congruence].
Qed.

Lemma record_failure_inserts c scope ip now later m :
  exempt scope ip = false ->
  exists r, (record_failure_for c scope ip now later m).1 =
    <[scoped_key scope ip := r]> (evict_oldest_if_needed later (Z.max (tracked_ip_limit c) 1 - 1) m).
Proof. intros Hex. unfold record_failure_for. rewrite Hex. case_match; by eexists. Qed.

(** A flood of addresses is bounded and does not buy an early end of a ban: after a failure
    is recorded the table is within its limit, no other address changed, and an address that
    was dropped (with a failure on record or a ban) ranks below every other one kept.  If
    it was banned then so is each of those; if one kept is no more banned than it, that one
    failed no earlier. *)
Theorem eviction_keeps_the_active c scope ip now later m :
  exempt scope ip = false ->
  let m' := (record_failure_for c scope ip now later m).1 in
  Z.of_nat (size m') <= Z.max (tracked_ip_limit c) 1 /\
  forall k r, k <> scoped_key scope ip -> m !! k = Some r -> stale later r = false ->
    m' !! k = Some r \/
    (m' !! k = None /\ forall k' r', k' <> scoped_key scope ip -> m' !! k' = Some r' ->
       (currently_banned later r = true -> currently_banned later r' = true) /\
       (currently_banned later r = currently_banned later r' ->
        most_recent_failure later r <= most_recent_failure later r')).
Proof.
  intros Hex m'. destruct (record_failure_inserts c scope ip now later m Hex) as [r0 Hm'].
  set (limit := Z.max (tracked_ip_limit c) 1) in *. subst m'. rewrite Hm'.
  destruct (evict_entries later (limit - 1) m ltac:(lia)) as [Hs Hk].
  pose proof (evict_sub later (limit - 1) m) as Hsub. revert Hs Hk Hsub.
  generalize (evict_oldest_if_needed later (limit - 1) m). intros e Hs Hk Hsub. split.
  { rewrite map_size_insert. destruct (e !! _); unfold id; lia. }
  intros k r Hne Hr Hst. rewrite lookup_insert_ne by done.
  destruct (e !! k) as [r1|] eqn:He.
  { left. rewrite <- Hr. symmetry. by eapply lookup_weaken. }
  right. split; [done|]. intros k' r' Hne' Hr'. rewrite lookup_insert_ne in Hr' by done.
  destruct (Hk _ _ _ _ Hr He Hr') as [?|Hrank]; [congruence|]. revert Hrank. unfold rank_leb.
  destruct (currently_banned later r), (currently_banned later r'); intros; split; try done; lia.
Qed.

(** ** Resets *)

(** A reset removes the records it names, by scope, by address or both, and no other, and
    returns how many. *)
Theorem reset_forgets_exactly scope ip m :
  let '(m', n) := reset scope ip m in
  (forall s i, i <> "" ->
     m' !! scoped_key s i =
     if bool_decide ((scope = None \/ scope = Some s) /\ (ip = None \/ ip = Some i)) then None
     else m !! scoped_key s i) /\
  (Z.of_nat (size m) < 2 ^ 64 -> Z.of_nat (size m) = Z.of_nat (size m') + n).
Proof.
  unfold reset. split.
  - intros s i Hi. rewrite map_lookup_filter.
    assert (Hm : reset_matches scope ip (scoped_key s i) =
      bool_decide ((scope = None \/ scope = Some s) /\ (ip = None \/ ip = Some i))).
    { unfold reset_matches. rewrite parse_scoped_key_of by done.
      destruct scope as [s0|], ip as [i0|]; cbn; apply eq_bool_prop_intro;
        rewrite ?andb_True, ?bool_decide_spec; try naive_solver.
      all: assert (scope_key s = scope_key s0 <-> s = s0) as ->
        by (split; [by destruct s, s0|congruence]); naive_solver. }
    rewrite <- Hm. destruct (m !! scoped_key s i) as [r|]; cbn; [|by case_match].
    by destruct (reset_matches _ _ _); case_guard.
  - intros Hm. assert (Hs : (size (filter (fun e => reset_matches scope ip e.1 = false) m) <= size m)%nat).
    { apply map_subseteq_size, map_filter_subseteq. }
    unfold sat_u. lia.
Qed.

(** ** A full table *)

Lemma single_slot c scope ip now later m :
  tracked_ip_limit c <= 1 -> 2 <= failure_limit c -> exempt scope ip = false ->
  exists fs, (record_failure_for c scope ip now later m).1 = {[scoped_key scope ip := mk_FailureRecord fs None]}.
Proof.
  intros Ht Hl Hex. unfold record_failure_for. rewrite Hex.
  destruct (evict_entries later (Z.max (tracked_ip_limit c) 1 - 1) m ltac:(lia)) as [Hs _].
  assert (evict_oldest_if_needed later (Z.max (tracked_ip_limit c) 1 - 1) m = ∅) as ->.
  { apply map_size_empty_inv. revert Hs. cbv zeta. lia. }
  rewrite lookup_empty. cbn [default fr_failures fr_banned_until app].
  case_match eqn:Hlim; [exfalso|].
  - apply Z.leb_le in Hlim. unfold zlen in Hlim.
    pose proof (length_filter (fun t => Z.max 0 (now - t) < from_millis (failure_window_ms c)) [now]).
    apply inj_le in H. pose proof (Z.le_trans _ _ _ Hlim H) as Hone. cbn in Hone. lia.
  - by eexists.
Qed.

(** Room is made for a new record even when the address has one: with one tracked address
    and a limit of two or more, a failing address evicts its own record each time and nobody is
    ever banned. *)
Theorem single_slot_never_bans config ops scope ip now :
  tracked_ip_limit config <= 1 -> 2 <= failure_limit config ->
  Forall (fun op => is_Some (fail_time op)) ops ->
  is_ip_banned_for scope ip now (sv_state (service_run config ops)) = None.
Proof.
  intros Ht Hl Hops.
  assert (Hc : sv_config (service_run config ops) = config_normalize config).
  { apply with_room_config. eapply Forall_impl; [exact Hops|]. by intros [] []. }
  assert (Hinv : map_Forall (fun _ r => fr_banned_until r = None) (sv_state (service_run config ops))).
  { induction ops as [|op ops IH] using rev_ind; [apply map_Forall_empty|].
    rewrite run_snoc in *. apply Forall_app in Hops as [Hops Hop]. inversion Hop as [|? ? [t Hf] _]; subst.
    destruct op as [s i t' later| | |]; [|done..]. cbn in Hc. specialize (IH Hops Hc).
    cbn. destruct (exempt s i) eqn:Hex.
    { unfold record_failure_for. by rewrite Hex. }
    rewrite Hc. destruct (single_slot (config_normalize config) s i t' later
      (sv_state (service_run config ops))) as [fs ->]; [cbn; lia|cbn; lia|done|].
    by apply map_Forall_singleton. }
  unfold is_ip_banned_for. destruct (exempt scope ip); [done|].
  destruct (_ !! _) as [r|] eqn:Hr; [|done]. cbn. by rewrite (Hinv _ _ Hr).
Qed.

(** The first pass of an eviction never removes a record: every record of a run keeps the
    failure it was written with. *)
Theorem no_record_is_stale config ops now :
  map_Forall (fun _ r => stale now r = false) (sv_state (service_run config ops)).
Proof.
  assert (Hne : map_Forall (fun _ r => fr_failures r <> []) (sv_state (service_run config ops)) /\
                0 < failure_window_ms (sv_config (service_run config ops))).
  { induction ops as [|op ops [IH IHw]] using rev_ind.
    { split; [apply map_Forall_empty|cbn; lia]. }
    rewrite run_snoc. destruct op as [s i t later|s i|s i|c]; cbn.
    - split; [|done]. unfold record_failure_for. destruct (exempt s i); [done|].
      set (e := evict_oldest_if_needed _ _ _).
      assert (He : map_Forall (fun _ r => fr_failures r <> []) e).
      { intros k r Hk. apply (IH k r). eapply lookup_weaken; [exact Hk|apply evict_sub]. }
      set (fs := filter _ _). assert (Hfs : fs <> []).
      { intros Hfs. apply (elem_of_nil t). rewrite <- Hfs. apply list_elem_of_filter.
        split; [unfold from_millis; lia|set_solver]. }
      case_match; apply map_Forall_insert_2; done.
    - split; [|done]. unfold record_success_for. case_match; [done|]. by apply map_Forall_delete.
    - split; [|done]. intros k r [Hk _]%map_lookup_filter_Some. by apply (IH k r).
    - split; [done|lia]. }
  destruct Hne as [Hne _]. intros k r Hk. unfold stale. pose proof (Hne _ _ Hk) as Hf. cbn in Hf.
  destruct (fr_failures r); [done|]. by rewrite orb_true_r.
Qed.

End Service.

(** The comment of [is_loopback_ip] counts IPv4-mapped addresses as loopback; they are not,
    and are limited like any other. *)
Theorem mapped_loopback_is_limited :
  is_loopback_ip "127.0.0.1" = true /\ is_loopback_ip "::1" = true /\
  parse_ip_addr "::ffff:127.0.0.1" = Some (V6 [0; 0; 0; 0; 0; 65535; 32512; 1]) /\
  is_loopback_ip "::ffff:127.0.0.1" = false.
Proof. vm_compute. done. Qed.

(** ** Witnesses *)

Definition sample_config := mk_IngestSecurityConfig 2 1000 5000 3.
Definition sample_ops :=
  [OpFail RtmpPublish "10.0.0.1" 0 0; OpFail SrtRead "10.0.0.1" 10 10; OpFail RtmpPublish "10.0.0.1" 20 20].


Example sample_ban :
  is_ip_banned_for RtmpPublish "10.0.0.1" 30 (sv_state (service_run map_to_list sample_config sample_ops))
  = Some (from_millis 5000 - 10).
Proof. vm_compute. done. Qed.

Lemma eviction_keeps_the_active_witness :
  let m := sv_state (service_run map_to_list sample_config sample_ops) in
  let m' := (record_failure_for map_to_list sample_config HlsPublish "10.0.0.2" 40 40 m).1 in
  Z.of_nat (size m') <= 3.
Proof.
  apply (eviction_keeps_the_active map_to_list (fun m => reflexivity _) sample_config HlsPublish "10.0.0.2" 40 40
           (sv_state (service_run map_to_list sample_config sample_ops))). vm_compute. done.
Defined.

Lemma single_slot_never_bans_witness :
  is_ip_banned_for RtmpPublish "10.0.0.1" 30
    (sv_state (service_run map_to_list (mk_IngestSecurityConfig 2 1000 5000 1) sample_ops)) = None.
Proof.
  apply (single_slot_never_bans map_to_list (fun m => reflexivity _) (mk_IngestSecurityConfig 2 1000 5000 1)
           sample_ops RtmpPublish "10.0.0.1" 30); [cbn; lia|cbn; lia|].
  repeat constructor; eexists; done.
Defined.
