(* ===== verification/Http1.v ===== *)
(** * HTTP/1.1 responses of uploads

    Models [crates/restream-engine/src/egress/http1.rs]: the request head an upload writes
    and the reader that turns response bytes, fed in any split, into one response.  The
    parser of response heads is the [httparse] crate's: it is the class [HeadParser] with its
    documented behaviour. *)

From Stdlib Require Import Ascii.
From S2P Require Import Prelude Media Text Diagnosis Alerts UploadPolicy HlsPlaylist.

Open Scope string_scope.
Open Scope list_scope.
Open Scope Z_scope.

(** ** Definitions *)

Definition MAX_RESPONSE_HEAD : Z := 16 * 1024.
Definition MAX_RESPONSE_BODY : Z := 1024 * 1024.
Definition MAX_HEADERS : nat := 64.
Definition MAX_CHUNK_LINE : Z := 1024.

Record RequestHead := mk_RequestHead {
  rh_method : string;
  rh_target : string;
  rh_host : string;
  rh_user_agent : string;
  rh_content_type : string;
  rh_content_length : Z;
}.

Definition CRLF : string := String CR (String LF EmptyString).
Definition write_request_head (head : RequestHead) (out : bytes) : bytes :=
  out ++ string_bytes
    (rh_method head +:+ " " +:+ rh_target head +:+ " HTTP/1.1" +:+ CRLF
     +:+ "Host: " +:+ rh_host head +:+ CRLF
     +:+ "User-Agent: " +:+ rh_user_agent head +:+ CRLF
     +:+ "Content-Type: " +:+ rh_content_type head +:+ CRLF
     +:+ "Content-Length: " +:+ display (rh_content_length head) +:+ CRLF +:+ CRLF).

Record Response := mk_Response { status : Z; keep_alive : bool }.

Inductive HttpError :=
| Malformed (what : string)
| HeadTooLarge
| BodyTooLarge
| Truncated.

(** The [httparse] crate: the outcome of parsing the front of a buffer as a response head
    with room for [max_headers] headers.  A head once complete, or an error once found, does
    not depend on the bytes that follow; a complete head lies within the buffer and is
    complete by itself. *)
Inductive ParsedHead :=
| Complete (len : nat) (code version : option Z) (headers : list (string * bytes))
| Partial
| TooManyHeaders
| HeadError.

Class HeadParser := {
  parse_head : nat -> bytes -> ParsedHead;
  parse_head_extends max buf more :
    parse_head max buf <> Partial -> parse_head max (buf ++ more) = parse_head max buf;
  parse_head_within max buf len code version headers :
    parse_head max buf = Complete len code version headers -> (0 < len <= length buf)%nat;
  parse_head_prefix max buf len code version headers :
    parse_head max buf = Complete len code version headers ->
    parse_head max (take len buf) = Complete len code version headers;
}.

Inductive State :=
| Head
| Sized (response : Response) (remaining : Z)
| ChunkSize (response : Response) (total : Z)
| ChunkData (response : Response) (total remaining : Z)
| ChunkDataEnd (response : Response) (total : Z)
| Trailers (response : Response)
| UntilClose (response : Response) (total : Z)
| Done (response : Response).

Record ResponseReader := mk_Reader { state : State; unread : bytes }.

Definition has_unread (self : ResponseReader) : bool :=
  match unread self with [] => false | _ => true end.
Definition reader_new : ResponseReader := mk_Reader Head [].

Inductive Step := Consumed (count : nat) | Wait.

(** [take_up_to] *)
Definition take_up_to (l : bytes) (limit : Z) : nat := Z.to_nat (Z.min limit (zlen l)).

(** The offset of the first CRLF. *)
Fixpoint find_crlf (l : bytes) : option nat :=
  match l with
  | a :: ((b :: _) as l') => if (a =? 13) && (b =? 10) then Some O else S <$> find_crlf l'
  | _ => None
  end.

Definition line (l : bytes) (max : Z) : HttpError + option (bytes * nat) :=
  match find_crlf l with
  | None => if max + 1 <? zlen l then inl (Malformed "line too long") else inr None
  | Some end_ =>
      if max <? Z.of_nat end_ then inl (Malformed "line too long")
      else inr (Some (take end_ l, (end_ + 2)%nat))
  end.

(** [u64::from_str_radix(_, 16)] of hexadecimal digits *)
Fixpoint parse_hex (acc : Z) (s : string) : option Z :=
  match s with
  | EmptyString => Some acc
  | String c s' => d ← to_digit 16 c; v ← checked_u 64 (acc * 16 + d); parse_hex v s'
  end.

Definition is_ascii_digit (c : ascii) : bool := bool_decide (is_Some (digit c)).
Definition is_ascii_hexdigit (c : ascii) : bool := bool_decide (is_Some (to_digit 16 c)).
Definition SEMICOLON : Z := 59.

Fixpoint before_byte (b : Z) (l : bytes) : bytes :=
  match l with [] => [] | x :: l' => if x =? b then [] else x :: before_byte b l' end.

Definition parse_chunk_size (l : bytes) : HttpError + Z :=
  let bad := inl (Malformed "chunk size") in
  match from_utf8 (before_byte SEMICOLON l) with
  | None => bad
  | Some size =>
      let size := trim size in
      if bool_decide (size = "") || (16 <? Z.of_nat (String.length size))
         || negb (string_forall is_ascii_hexdigit size) then bad
      else match parse_hex 0 size with Some n => inr n | None => bad end
  end.

(** ** Framing *)

Inductive Body := Length (n : Z) | Chunked | BodyUntilClose.
Record Framing := mk_Framing { fm_body : Body; fm_keep_alive : bool }.

(** The variables of the loop over the headers. *)
Record HeaderScan := mk_HeaderScan {
  hs_length : option Z;
  hs_chunked : bool;
  hs_transfer_encoded : bool;
  hs_keep_alive : bool;
}.

Definition last_part (l : list string) : string := default "" (last l).

Definition connection_option (keep_alive : bool) (option_ : string) : bool :=
  if eq_ignore_ascii_case option_ "close" then false
  else if eq_ignore_ascii_case option_ "keep-alive" then true
  else keep_alive.

Definition scan_header (h : string * bytes) (s : HeaderScan) : HttpError + HeaderScan :=
  match from_utf8 h.2 with
  | None => inl (Malformed "header value")
  | Some value =>
      let value := trim value in
      if eq_ignore_ascii_case h.1 "content-length" then
        if bool_decide (value = "") || negb (string_forall is_ascii_digit value)
        then inl (Malformed "content-length")
        else
          match parse_usize value with
          | None => inl (Malformed "content-length")
          | Some parsed =>
              if match hs_length s with Some length => negb (length =? parsed) | None => false end
              then inl (Malformed "conflicting content-length")
              else inr (mk_HeaderScan (Some parsed) (hs_chunked s) (hs_transfer_encoded s) (hs_keep_alive s))
          end
      else if eq_ignore_ascii_case h.1 "transfer-encoding" then
        inr (mk_HeaderScan (hs_length s)
               (eq_ignore_ascii_case (trim (last_part (split_char "," value))) "chunked")
               true (hs_keep_alive s))
      else if eq_ignore_ascii_case h.1 "connection" then
        inr (mk_HeaderScan (hs_length s) (hs_chunked s) (hs_transfer_encoded s)
               (fold_left connection_option (map trim (split_char "," value)) (hs_keep_alive s)))
      else inr s
  end.

Fixpoint scan_headers (l : list (string * bytes)) (s : HeaderScan) : HttpError + HeaderScan :=
  match l with
  | [] => inr s
  | h :: l' => match scan_header h s with inl e => inl e | inr s => scan_headers l' s end
  end.

Definition from_headers (headers : list (string * bytes)) (http10 : bool) : HttpError + Framing :=
  match scan_headers headers (mk_HeaderScan None false false (negb http10)) with
  | inl e => inl e
  | inr s =>
      let keep_alive :=
        if hs_transfer_encoded s
           && (bool_decide (is_Some (hs_length s)) || negb (hs_chunked s) || http10)
        then false else hs_keep_alive s in
      let body :=
        if hs_chunked s then Chunked
        else if hs_transfer_encoded s then BodyUntilClose
        else match hs_length s with Some length => Length length | None => BodyUntilClose end in
      inr (mk_Framing body keep_alive)
  end.

(** ** The reader *)

Section Reader.
Context `{HeadParser}.

(** The state after a complete head of a final response. *)
Definition head_state (code : Z) (framing : Framing) : HttpError + State :=
  let response := mk_Response code (fm_keep_alive framing) in
  if (code =? 204) || (code =? 304) then inr (Done response)
  else
    match fm_body framing with
    | Length length =>
        if length =? 0 then inr (Done response)
        else if MAX_RESPONSE_BODY <? length then inl BodyTooLarge
        else inr (Sized response length)
    | Chunked => inr (ChunkSize response 0)
    | BodyUntilClose => inr (UntilClose (mk_Response code false) 0)
    end.

Definition read_head (l : bytes) : HttpError + (Step * State) :=
  match parse_head MAX_HEADERS l with
  | Partial => if MAX_RESPONSE_HEAD <? zlen l then inl HeadTooLarge else inr (Wait, Head)
  | TooManyHeaders => inl HeadTooLarge
  | HeadError => inl (Malformed "status line or header")
  | Complete head_len code version headers =>
      if MAX_RESPONSE_HEAD <? Z.of_nat head_len then inl HeadTooLarge
      else
        match code with
        | None => inl (Malformed "no status")
        | Some code =>
            match from_headers headers (bool_decide (version = Some 0)) with
            | inl e => inl e
            | inr framing =>
                if (100 <=? code) && (code <? 200) then inr (Consumed head_len, Head)
                else match head_state code framing with
                     | inl e => inl e
                     | inr s => inr (Consumed head_len, s)
                     end
            end
        end
  end.

Definition step (s : State) (l : bytes) : HttpError + (Step * State) :=
  match s with
  | Head => read_head l
  | Sized response remaining =>
      let taken := take_up_to l remaining in
      if (taken =? 0)%nat then inr (Wait, s)
      else
        let remaining := sat_u 64 (remaining - Z.of_nat taken) in
        inr (Consumed taken, if remaining =? 0 then Done response else Sized response remaining)
  | ChunkSize response total =>
      match line l MAX_CHUNK_LINE with
      | inl e => inl e
      | inr None => inr (Wait, s)
      | inr (Some (ln, consumed)) =>
          match parse_chunk_size ln with
          | inl e => inl e
          | inr size =>
              match checked_u 64 (total + size) with
              | None => inl BodyTooLarge
              | Some total =>
                  if MAX_RESPONSE_BODY <? total then inl BodyTooLarge
                  else inr (Consumed consumed,
                            if size =? 0 then Trailers response else ChunkData response total size)
              end
          end
      end
  | ChunkData response total remaining =>
      let taken := take_up_to l remaining in
      if (taken =? 0)%nat then inr (Wait, s)
      else
        let remaining := sat_u 64 (remaining - Z.of_nat taken) in
        inr (Consumed taken,
             if remaining =? 0 then ChunkDataEnd response total else ChunkData response total remaining)
  | ChunkDataEnd response total =>
      match line l 0 with
      | inl e => inl e
      | inr None => inr (Wait, s)
      | inr (Some (ln, consumed)) =>
          match ln with
          | [] => inr (Consumed consumed, ChunkSize response total)
          | _ => inl (Malformed "chunk data longer than its size")
          end
      end
  | Trailers response =>
      match line l MAX_RESPONSE_HEAD with
      | inl e => inl e
      | inr None => inr (Wait, s)
      | inr (Some (ln, consumed)) =>
          inr (Consumed consumed, match ln with [] => Done response | _ => s end)
      end
  | UntilClose response total =>
      match l with
      | [] => inr (Wait, s)
      | _ =>
          match checked_u 64 (total + zlen l) with
          | None => inl BodyTooLarge
          | Some total =>
              if MAX_RESPONSE_BODY <? total then inl BodyTooLarge
              else inr (Consumed (length l), UntilClose response total)
          end
      end
  | Done _ => inr (Wait, s)
  end.

(** The loop of [feed] over what is left of the bytes: the result, the state and the bytes
    left unread. *)
Fixpoint feed_loop (fuel : nat) (s : State) (l : bytes) : (HttpError + option Response) * State * bytes :=
  match s with
  | Done response => (inr (Some response), s, l)
  | _ =>
      match fuel with
      | O => (inr None, s, l)
      | S fuel' =>
          match step s l with
          | inl e => (inl e, s, l)
          | inr (Wait, _) => (inr None, s, l)
          | inr (Consumed count, s') => feed_loop fuel' s' (drop count l)
          end
      end
  end.

Definition feed (self : ResponseReader) (data : bytes) : (HttpError + option Response) * ResponseReader :=
  let l := unread self ++ data in
  let '(result, s, l) := feed_loop (S (length l)) (state self) l in
  (result, mk_Reader s l).

Definition finish (self : ResponseReader) : (HttpError + Response) * ResponseReader :=
  match state self with
  | Done response => (inr response, self)
  | UntilClose response _ =>
      let response := mk_Response (status response) false in
      (inr response, mk_Reader (Done response) (unread self))
  | _ => (inl Truncated, self)
  end.

(** ** Lines *)

Lemma find_crlf_cons a b l :
  find_crlf (a :: b :: l) = if (a =? 13) && (b =? 10) then Some O else S <$> find_crlf (b :: l).
Proof. done. Qed.

Lemma find_crlf_bound l n : find_crlf l = Some n -> (n + 2 <= length l)%nat.
Proof.
  revert n. induction l as [|a l IH]; intros n; [done|]. destruct l as [|b l]; [done|].
  rewrite find_crlf_cons. case_match; [intros [= <-]; cbn; lia|].
  intros (m & Hm & ->)%fmap_Some. apply IH in Hm. cbn in *. lia.
Qed.

Lemma find_crlf_extends l more n : find_crlf l = Some n -> find_crlf (l ++ more) = Some n.
Proof.
  revert n. induction l as [|a l IH]; intros n; [done|]. destruct l as [|b l]; [done|].
  rewrite <- !app_comm_cons, !find_crlf_cons. case_match; [done|]. intros (m & Hm & ->)%fmap_Some.
  rewrite app_comm_cons. by rewrite (IH _ Hm).
Qed.

(** Without a CRLF in front, one found later ends past all but the last byte. *)
Lemma find_crlf_later l more n : find_crlf l = None -> find_crlf (l ++ more) = Some n -> (length l <= n + 1)%nat.
Proof.
  revert n. induction l as [|a l IH]; intros n; [cbn; lia|]. destruct l as [|b l]; [cbn; lia|].
  rewrite <- !app_comm_cons, !find_crlf_cons. case_match; [done|]. intros Hn (m & Hm & ->)%fmap_Some.
  apply fmap_None in Hn. rewrite app_comm_cons in Hm.
  specialize (IH _ Hn Hm). cbn in *. lia.
Qed.

Lemma line_extends l more max x : line l max = inr (Some x) -> line (l ++ more) max = inr (Some x).
Proof.
  unfold line. destruct (find_crlf l) as [n|] eqn:Hf; [|by case_match].
  rewrite (find_crlf_extends _ _ _ Hf). case_match; [done|]. intros [= <-].
  pose proof (find_crlf_bound _ _ Hf). by rewrite take_app_le by lia.
Qed.

Lemma line_error_extends l more max e : line l max = inl e -> line (l ++ more) max = inl e.
Proof.
  unfold line. destruct (find_crlf l) as [n|] eqn:Hf.
  - rewrite (find_crlf_extends _ _ _ Hf). by case_match.
  - case_match eqn:Hl; [|done]. intros [= <-]. destruct (find_crlf (l ++ more)) as [n|] eqn:Hm.
    + pose proof (find_crlf_later _ _ _ Hf Hm). case_match; [done|]. unfold zlen in *. lia.
    + case_match; [done|]. unfold zlen in *. pose proof (length_app l more). lia.
Qed.

Lemma line_bound l max ln n :
  line l max = inr (Some (ln, n)) -> (2 <= n <= length l)%nat /\ ln = take (n - 2) l.
Proof.
  unfold line. destruct (find_crlf l) as [m|] eqn:Hf; [|by case_match].
  case_match; [done|]. intros [= <- <-]. apply find_crlf_bound in Hf. split; [lia|]. f_equal. lia.
Qed.

(** ** One step *)

(** The states the reader can be in. *)
Definition state_ok (s : State) : Prop :=
  match s with
  | Sized _ remaining => 0 < remaining <= MAX_RESPONSE_BODY
  | ChunkSize _ total | ChunkDataEnd _ total | UntilClose _ total => 0 <= total <= MAX_RESPONSE_BODY
  | ChunkData _ total remaining => 0 < remaining <= MAX_RESPONSE_BODY /\ 0 <= total <= MAX_RESPONSE_BODY
  | Head | Trailers _ | Done _ => True
  end.

Lemma parse_hex_nonneg s : forall acc n, 0 <= acc -> parse_hex acc s = Some n -> 0 <= n.
Proof.
  induction s as [|c s IH]; intros acc n Ha; cbn; [by intros [= <-]|].
  intros (d & Hd & (v & Hv & Hn)%bind_Some)%bind_Some. apply (IH v); [|done].
  unfold checked_u in Hv. case_match; simplify_eq. lia.
Qed.

Lemma parse_chunk_size_nonneg l n : parse_chunk_size l = inr n -> 0 <= n.
Proof.
  unfold parse_chunk_size. repeat case_match; intros; simplify_eq; try done.
  by eapply parse_hex_nonneg; [|done].
Qed.

Lemma take_up_to_bound l limit : (take_up_to l limit <= length l)%nat.
Proof. unfold take_up_to, zlen. lia. Qed.

Lemma take_up_to_left l remaining :
  0 < remaining <= MAX_RESPONSE_BODY ->
  Z.of_nat (take_up_to l remaining) = Z.min remaining (zlen l) /\
  sat_u 64 (remaining - Z.of_nat (take_up_to l remaining)) = remaining - Z.min remaining (zlen l).
Proof.
  intros Hr. assert (Ht : Z.of_nat (take_up_to l remaining) = Z.min remaining (zlen l)).
  { unfold take_up_to, zlen. lia. }
  split; [done|]. rewrite Ht. unfold sat_u, MAX_RESPONSE_BODY, zlen in *.
  change (2 ^ 64 - 1) with 18446744073709551615. lia.
Qed.

Lemma scan_header_nonneg h s s' :
  scan_header h s = inr s' -> (forall n, hs_length s = Some n -> 0 <= n) ->
  forall n, hs_length s' = Some n -> 0 <= n.
Proof.
  unfold scan_header. repeat case_match; intros; simplify_eq; cbn in *; simplify_eq; eauto.
  all: match goal with Hp : parse_usize _ = Some _ |- _ => apply parse_usize_range in Hp end; lia.
Qed.

Lemma scan_headers_nonneg l : forall s s',
  scan_headers l s = inr s' -> (forall n, hs_length s = Some n -> 0 <= n) ->
  forall n, hs_length s' = Some n -> 0 <= n.
Proof.
  induction l as [|h l IH]; intros s s'; cbn; [by intros [= <-]|].
  destruct (scan_header h s) as [e|s1] eqn:Hs; [done|]. intros H1 H0.
  apply (IH s1 s' H1). by apply (scan_header_nonneg h s s1).
Qed.

Lemma framing_nonneg headers http10 f n :
  from_headers headers http10 = inr f -> fm_body f = Length n -> 0 <= n.
Proof.
  unfold from_headers. destruct (scan_headers _ _) as [e|s] eqn:Hs; [done|].
  intros [= <-]. cbn. repeat case_match; intros; simplify_eq.
  by eapply (scan_headers_nonneg _ _ _ Hs).
Qed.

Lemma head_state_ok code headers http10 f s :
  from_headers headers http10 = inr f -> head_state code f = inr s -> state_ok s.
Proof.
  intros Hf. unfold head_state. destruct ((code =? 204) || (code =? 304)); [by intros [= <-]|].
  destruct (fm_body f) as [n| |] eqn:Hb.
  - repeat case_match; intros; simplify_eq; cbn; [done|].
    pose proof (framing_nonneg _ _ _ _ Hf Hb). lia.
  - intros [= <-]. cbn. unfold MAX_RESPONSE_BODY. lia.
  - intros [= <-]. cbn. unfold MAX_RESPONSE_BODY. lia.
Qed.

(** A step takes at least one byte, none it has not, and keeps the state in bounds. *)
Lemma step_consumes s l n s' :
  state_ok s -> step s l = inr (Consumed n, s') -> (0 < n <= length l)%nat /\ state_ok s'.
Proof.
  intros Hok. unfold MAX_RESPONSE_BODY in *. destruct s; cbn [step].
  - unfold read_head. destruct (parse_head MAX_HEADERS l) as [len code version headers| | |] eqn:Hp;
      repeat case_match; intros; simplify_eq; apply parse_head_within in Hp as ?; (split; [lia|]); try done.
    by eapply head_state_ok.
  - pose proof (take_up_to_bound l remaining). destruct (take_up_to_left l remaining) as [Ht ->]; [apply Hok|].
    case_match eqn:Ht0; intros; simplify_eq. apply Nat.eqb_neq in Ht0. split; [lia|].
    unfold state_ok in Hok. case_match; [done|]. unfold state_ok, MAX_RESPONSE_BODY, zlen in *. lia.
  - destruct (line l MAX_CHUNK_LINE) as [e|[[ln k]|]] eqn:Hl; [done| |done].
    destruct (parse_chunk_size ln) as [e|size] eqn:Hs; [done|].
    unfold checked_u. destruct ((0 <=? total + size) && _) eqn:Hc; [|done]. case_match eqn:Hm; [done|].
    intros; simplify_eq. apply line_bound in Hl as [? _]. apply parse_chunk_size_nonneg in Hs.
    split; [lia|]. unfold state_ok in Hok. case_match; [done|].
    unfold state_ok, MAX_RESPONSE_BODY in *. lia.
  - pose proof (take_up_to_bound l remaining). destruct (take_up_to_left l remaining) as [Ht ->]; [apply Hok|].
    case_match eqn:Ht0; intros; simplify_eq. apply Nat.eqb_neq in Ht0. split; [lia|].
    unfold state_ok in Hok. case_match; unfold state_ok, MAX_RESPONSE_BODY, zlen in *; lia.
  - destruct (line l 0) as [e|[[ln k]|]] eqn:Hl; [done| |done]. destruct ln; [|done].
    intros; simplify_eq. apply line_bound in Hl as [? _]. split; [lia|done].
  - destruct (line l MAX_RESPONSE_HEAD) as [e|[[ln k]|]] eqn:Hl; [done| |done].
    intros; simplify_eq. apply line_bound in Hl as [? _]. split; [lia|]. by case_match.
  - destruct l as [|x l]; [done|]. destruct (checked_u 64 _) as [t|] eqn:Hc; [|done]. case_match eqn:Hm; [done|].
    intros; simplify_eq. split; [cbn; lia|]. unfold checked_u in Hc. case_match; simplify_eq.
    unfold state_ok, MAX_RESPONSE_BODY in *. lia.
  - done.
Qed.

Lemma checked_u_over w x y : checked_u w x = None -> 0 <= x -> x <= y -> checked_u w y = None.
Proof. unfold checked_u. case_match; [done|]. intros _ ? ?. case_match; [lia|done]. Qed.

(** What a step refuses it still refuses with more bytes. *)
Lemma step_error_extends s l more e : state_ok s -> step s l = inl e -> exists e', step s (l ++ more) = inl e'.
Proof.
  intros Hok. destruct s; cbn [step].
  - unfold read_head. destruct (parse_head MAX_HEADERS l) eqn:Hp.
    + rewrite (parse_head_extends MAX_HEADERS l more) by (by rewrite Hp). rewrite Hp.
      intros He. rewrite He. by eexists.
    + destruct (MAX_RESPONSE_HEAD <? zlen l) eqn:Hlen; [|done]. intros _.
      destruct (parse_head MAX_HEADERS (l ++ more)) as [len code version headers| | |] eqn:Hm; [|..].
      * assert (length l < len)%nat as Hlt.
        { destruct (decide (len <= length l)%nat) as [Hle|]; [exfalso|lia].
          apply parse_head_prefix in Hm. rewrite take_app_le in Hm by done.
          pose proof (parse_head_extends MAX_HEADERS (take len l) (drop len l)) as Hx.
          rewrite take_drop, Hm, Hp in Hx. by specialize (Hx ltac:(done)). }
        rewrite (proj2 (Z.ltb_lt _ _)); [by eexists|]. unfold zlen in *. lia.
      * apply Z.ltb_lt in Hlen. rewrite (proj2 (Z.ltb_lt MAX_RESPONSE_HEAD (zlen (l ++ more)))); [by eexists|].
        unfold zlen in *. rewrite length_app. lia.
      * by eexists.
      * by eexists.
    + rewrite (parse_head_extends MAX_HEADERS l more) by (by rewrite Hp). rewrite Hp. by eexists.
    + rewrite (parse_head_extends MAX_HEADERS l more) by (by rewrite Hp). rewrite Hp. by eexists.
  - by case_match.
  - destruct (line l MAX_CHUNK_LINE) as [e'|[[ln k]|]] eqn:Hl; [| |done].
    + rewrite (line_error_extends _ more _ _ Hl). by eexists.
    + rewrite (line_extends _ more _ _ Hl). intros ->. by eexists.
  - by case_match.
  - destruct (line l 0) as [e'|[[ln k]|]] eqn:Hl; [| |done].
    + rewrite (line_error_extends _ more _ _ Hl). by eexists.
    + rewrite (line_extends _ more _ _ Hl). intros ->. by eexists.
  - destruct (line l MAX_RESPONSE_HEAD) as [e'|[[ln k]|]] eqn:Hl; [|done|done].
    rewrite (line_error_extends _ more _ _ Hl). by eexists.
  - destruct l as [|x l]; [done|]. rewrite <- app_comm_cons.
    destruct (checked_u 64 (total + zlen (x :: l))) as [t|] eqn:Hc.
    + apply checked_u_inv in Hc as [-> _]. case_match eqn:Hm; [|done]. intros _.
      destruct (checked_u 64 (total + zlen (x :: l ++ more))) as [t|] eqn:Hc; [|by eexists].
      apply checked_u_inv in Hc as [-> _]. case_match eqn:Hm2; [by eexists|]. exfalso.
      apply Z.ltb_lt in Hm. apply Z.ltb_ge in Hm2. rewrite app_comm_cons in Hm2. unfold zlen in *.
      rewrite length_app in Hm2. lia.
    + intros _. rewrite (checked_u_over 64 _ (total + zlen (x :: l ++ more)) Hc); [by eexists|..].
      all: unfold state_ok, zlen in *; cbn [length]; pose proof (length_app l more); lia.
  - done.
Qed.

(** The states that take whatever bytes there are. *)
Definition takes_bytes (s : State) : bool :=
  match s with Sized _ _ | ChunkData _ _ _ | UntilClose _ _ => true | _ => false end.

Lemma step_consumes_extends s l more n s' :
  takes_bytes s = false -> step s l = inr (Consumed n, s') -> step s (l ++ more) = inr (Consumed n, s').
Proof.
  intros Hb. destruct s; try done; cbn [step].
  - unfold read_head. destruct (parse_head MAX_HEADERS l) eqn:Hp; try done.
    + by rewrite (parse_head_extends MAX_HEADERS l more), Hp by (by rewrite Hp).
    + by case_match.
  - destruct (line l MAX_CHUNK_LINE) as [e'|[[ln k]|]] eqn:Hl; [done| |done].
    by rewrite (line_extends _ more _ _ Hl).
  - destruct (line l 0) as [e'|[[ln k]|]] eqn:Hl; [done| |done].
    by rewrite (line_extends _ more _ _ Hl).
  - destruct (line l MAX_RESPONSE_HEAD) as [e'|[[ln k]|]] eqn:Hl; [done| |done].
    by rewrite (line_extends _ more _ _ Hl).
Qed.

(** ** The loop *)

(** The fuel of [feed] is never what ends the loop. *)
Lemma feed_loop_fuel n : forall m s l,
  state_ok s -> (length l < n)%nat -> (length l < m)%nat -> feed_loop n s l = feed_loop m s l.
Proof.
  induction n as [|n IH]; intros m s l Hok Hn Hm; [lia|]. destruct m as [|m]; [lia|].
  cbn [feed_loop]. destruct (step s l) as [e|[[k|] s']] eqn:Hs; try done.
  destruct (step_consumes _ _ _ _ Hok Hs) as [Hk Hok'].
  rewrite (IH m) by (try done; rewrite length_drop; lia). done.
Qed.

Definition reader_run (s : State) (l : bytes) : (HttpError + option Response) * State * bytes :=
  feed_loop (S (length l)) s l.

Lemma run_done response l : reader_run (Done response) l = (inr (Some response), Done response, l).
Proof. done. Qed.

Lemma run_step s l :
  state_ok s ->
  reader_run s l =
  match s with
  | Done response => (inr (Some response), s, l)
  | _ =>
      match step s l with
      | inl e => (inl e, s, l)
      | inr (Wait, _) => (inr None, s, l)
      | inr (Consumed count, s') => reader_run s' (drop count l)
      end
  end.
Proof.
  intros Hok. unfold reader_run at 1. cbn [feed_loop].
  destruct (step s l) as [e|[[k|] s']] eqn:Hs; try done.
  destruct (step_consumes _ _ _ _ Hok Hs) as [Hk Hok'].
  unfold reader_run. rewrite (feed_loop_fuel (length l) (S (length (drop k l)))); [done|done| |lia].
  rewrite length_drop. lia.
Qed.

(** The outcome of a loop and of one that went further: the same response or wait in the
    same state, or the same error. *)
Definition same_run (x y : (HttpError + option Response) * State * bytes) : Prop :=
  x.1.1 = y.1.1 /\ (forall o, x.1.1 = inr o -> x = y).

Lemma same_run_refl x : same_run x x.
Proof. by split. Qed.

Definition split_ok (s : State) (a b : bytes) : Prop :=
  match reader_run s a with
  | (inl _, _, _) => exists e s' l', reader_run s (a ++ b) = (inl e, s', l')
  | (inr _, s', l') => same_run (reader_run s (a ++ b)) (reader_run s' (l' ++ b))
  end.

Lemma run_wait s l s' : state_ok s -> step s l = inr (Wait, s') -> reader_run s l = (inr None, s, l) \/ exists r, s = Done r.
Proof. intros Hok Hs. rewrite run_step by done. destruct s; try (rewrite Hs; by left). right. by eexists. Qed.

Lemma run_step_open s l :
  state_ok s -> (forall r, s <> Done r) ->
  reader_run s l = match step s l with
            | inl e => (inl e, s, l)
            | inr (Wait, _) => (inr None, s, l)
            | inr (Consumed count, s') => reader_run s' (drop count l)
            end.
Proof. intros Hok Hd. rewrite run_step by done. destruct s; try done. by destruct (Hd response). Qed.

Lemma zlen_pos {A} (l : list A) : l <> [] -> 0 < zlen l.
Proof. destruct l; [done|]. unfold zlen. cbn. lia. Qed.

Section Counted.
(** [Sized] and [ChunkData]: [mk remaining] until [fin]. *)
Context (mk : Z -> State) (fin : State).
Context (mk_step : forall remaining l, step (mk remaining) l =
  if (take_up_to l remaining =? 0)%nat then inr (Wait, mk remaining)
  else inr (Consumed (take_up_to l remaining),
            if sat_u 64 (remaining - Z.of_nat (take_up_to l remaining)) =? 0 then fin
            else mk (sat_u 64 (remaining - Z.of_nat (take_up_to l remaining))))).
Context (mk_ok : forall remaining, 0 < remaining <= MAX_RESPONSE_BODY -> state_ok (mk remaining)).
Context (mk_open : forall remaining r, mk remaining <> Done r).

Lemma counted_wait remaining :
  0 < remaining <= MAX_RESPONSE_BODY -> reader_run (mk remaining) [] = (inr None, mk remaining, []).
Proof using All.
  intros Hr. rewrite run_step_open by auto. rewrite mk_step.
  replace (take_up_to [] remaining) with 0%nat; [done|]. unfold take_up_to, zlen. cbn [length]. lia.
Qed.

(** All of [a] is taken, and the rest is wanted. *)
Lemma counted_partly remaining a b :
  0 < remaining <= MAX_RESPONSE_BODY -> zlen a < remaining ->
  reader_run (mk remaining) (a ++ b) = reader_run (mk (remaining - zlen a)) b.
Proof using All.
  intros Hr Hlt. destruct (decide (a = [])) as [->|Ha]; [by rewrite Z.sub_0_r|].
  apply zlen_pos in Ha. destruct (decide (b = [])) as [->|Hb].
  - rewrite app_nil_r, counted_wait, run_step_open by (auto; lia). rewrite mk_step.
    destruct (take_up_to_left a remaining Hr) as [Ht ->]. rewrite Z.min_r in * by lia.
    rewrite (proj2 (Nat.eqb_neq _ _)) by lia. rewrite (proj2 (Z.eqb_neq _ _)) by lia.
    rewrite drop_ge by (unfold zlen in *; lia). apply counted_wait. lia.
  - apply zlen_pos in Hb. rewrite !run_step_open by (auto; apply mk_ok; lia). rewrite !mk_step.
    assert (Hl : zlen (a ++ b) = zlen a + zlen b) by (unfold zlen; rewrite length_app; lia).
    destruct (take_up_to_left (a ++ b) remaining Hr) as [Ht ->].
    destruct (take_up_to_left b (remaining - zlen a)) as [Ht' ->]; [lia|]. rewrite Hl in *.
    rewrite (proj2 (Nat.eqb_neq (take_up_to (a ++ b) remaining) 0)) by lia.
    rewrite (proj2 (Nat.eqb_neq (take_up_to b (remaining - zlen a)) 0)) by lia.
    replace (remaining - (remaining `min` (zlen a + zlen b)))
      with (remaining - zlen a - (remaining - zlen a) `min` zlen b) by lia.
    f_equal. replace (take_up_to (a ++ b) remaining) with (length a + take_up_to b (remaining - zlen a))%nat
      by (unfold zlen in *; lia).
    by rewrite <- drop_drop, drop_app_length.
Qed.

(** All that is wanted is in [a]. *)
Lemma counted_whole remaining a b :
  0 < remaining <= MAX_RESPONSE_BODY -> remaining <= zlen a ->
  reader_run (mk remaining) (a ++ b) = reader_run fin (drop (Z.to_nat remaining) a ++ b).
Proof using All.
  intros Hr Hle. rewrite run_step_open by auto. rewrite mk_step.
  assert (Hl : remaining <= zlen (a ++ b)) by (unfold zlen in *; rewrite length_app; lia).
  destruct (take_up_to_left (a ++ b) remaining Hr) as [Ht ->]. rewrite Z.min_l in * by lia.
  rewrite (proj2 (Nat.eqb_neq _ _)) by lia. rewrite Z.sub_diag. cbn [Z.eqb].
  replace (take_up_to (a ++ b) remaining) with (Z.to_nat remaining) by lia.
  by rewrite drop_app_le by (unfold zlen in *; lia).
Qed.

(** What was left to read after [a] decides what [a ++ b] comes to. *)
Lemma counted_split remaining a b :
  0 < remaining <= MAX_RESPONSE_BODY -> split_ok fin (drop (Z.to_nat remaining) a) b ->
  split_ok (mk remaining) a b.
Proof using All.
  intros Hr Hfin. unfold split_ok.
  replace (reader_run (mk remaining) a) with (reader_run (mk remaining) (a ++ [])) by (by rewrite app_nil_r).
  destruct (decide (remaining <= zlen a)) as [Hle|Hlt].
  - rewrite !counted_whole by done. rewrite app_nil_r. exact Hfin.
  - rewrite !counted_partly by (done || lia). rewrite counted_wait by (pose proof (zlen_nonneg a); lia).
    apply same_run_refl.
Qed.
End Counted.

Lemma until_close_run response t l :
  0 <= t <= MAX_RESPONSE_BODY ->
  reader_run (UntilClose response t) l =
    if MAX_RESPONSE_BODY <? t + zlen l then (inl BodyTooLarge, UntilClose response t, l)
    else (inr None, UntilClose response (t + zlen l), []).
Proof.
  intros Hok. rewrite run_step by done. cbn [step]. destruct l as [|x l].
  { rewrite Z.add_0_r. case_match; [lia|done]. }
  pose proof (zlen_nonneg (x :: l)). destruct (checked_u 64 _) as [t'|] eqn:Hc.
  - apply checked_u_inv in Hc as [-> _].
    destruct (MAX_RESPONSE_BODY <? t + zlen (x :: l)) eqn:Hm; [done|]. rewrite drop_ge by done.
    by rewrite run_step by (unfold state_ok; lia).
  - apply checked_u_None in Hc. destruct (MAX_RESPONSE_BODY <? t + zlen (x :: l)) eqn:Hm; [done|]. destruct Hc. unfold in_u, MAX_RESPONSE_BODY in *.
    change (2 ^ 64) with 18446744073709551616. lia.
Qed.

Lemma until_close_split response total a b :
  0 <= total <= MAX_RESPONSE_BODY -> split_ok (UntilClose response total) a b.
Proof.
  intros Ht. unfold split_ok. rewrite !until_close_run by done.
  pose proof (zlen_nonneg a). pose proof (zlen_nonneg b).
  assert (Hl : zlen (a ++ b) = zlen a + zlen b) by (unfold zlen; rewrite length_app; lia).
  destruct (MAX_RESPONSE_BODY <? total + zlen a) eqn:Ha.
  - rewrite (proj2 (Z.ltb_lt _ _)) by lia. by do 3 eexists.
  - rewrite app_nil_l, until_close_run by lia. rewrite Hl.
    replace (total + zlen a + zlen b) with (total + (zlen a + zlen b)) by lia.
    case_match; by split.
Qed.

(** ** Splits do not matter *)

Lemma run_split_step s a b :
  state_ok s -> takes_bytes s = false ->
  (forall n s', step s a = inr (Consumed n, s') -> split_ok s' (drop n a) b) -> split_ok s a b.
Proof.
  intros Hok Hb Hnext. assert ((exists r, s = Done r) \/ forall r, s <> Done r) as [[r ->]|Hopen] by (destruct s; eauto).
  { unfold split_ok. rewrite run_done. rewrite !run_done. apply same_run_refl. }
  unfold split_ok.
  rewrite (run_step_open s a), (run_step_open s (a ++ b)) by done.
  destruct (step s a) as [e|[[n|] s']] eqn:Hs.
  - destruct (step_error_extends _ _ b _ Hok Hs) as [e' ->]. by do 3 eexists.
  - rewrite (step_consumes_extends _ _ b _ _ Hb Hs). destruct (step_consumes _ _ _ _ Hok Hs) as [Hn _].
    rewrite drop_app_le by lia. by apply Hnext.
  - rewrite <- run_step_open by done. apply same_run_refl.
Qed.

Lemma run_split n : forall a s b, (length a < n)%nat -> state_ok s -> split_ok s a b.
Proof.
  induction n as [|n IH]; intros a s b Hn Hok; [lia|].
  assert (Hnext : forall k s', step s a = inr (Consumed k, s') -> split_ok s' (drop k a) b).
  { intros k s' Hs. destruct (step_consumes _ _ _ _ Hok Hs). apply IH; [|done]. rewrite length_drop. lia. }
  destruct s; try (by apply run_split_step); [| |by apply until_close_split].
  - apply (counted_split (Sized response) (Done response)); done.
  - destruct Hok as [Hr Ht].
    apply (counted_split (ChunkData response total) (ChunkDataEnd response total)); try done.
    assert (Hok : state_ok (ChunkDataEnd response total)) by done.
    apply run_split_step; [done|done|]. intros k s' Hs. destruct (step_consumes _ _ _ _ Hok Hs).
    apply IH; [|done]. rewrite !length_drop in *. lia.
Qed.

(** ** The bytes kept *)

Lemma line_none_bound l max : line l max = inr None -> zlen l <= max + 1.
Proof. unfold line. repeat case_match; try done. intros _. lia. Qed.

Lemma take_up_to_none l remaining : 0 < remaining -> take_up_to l remaining = 0%nat -> l = [].
Proof. destruct l; [done|]. unfold take_up_to, zlen. cbn [length]. lia. Qed.

Lemma step_wait_bound s l s' :
  state_ok s -> (forall r, s <> Done r) -> step s l = inr (Wait, s') -> zlen l <= MAX_RESPONSE_HEAD + 1.
Proof.
  intros Hok Hopen. unfold MAX_RESPONSE_HEAD. destruct s; cbn [step].
  - unfold read_head, MAX_RESPONSE_HEAD. repeat case_match; try done. intros _. lia.
  - destruct (take_up_to l remaining =? 0)%nat eqn:Ht; [|done]. apply Nat.eqb_eq, take_up_to_none in Ht as ->;
      [done|apply Hok].
  - destruct (line l MAX_CHUNK_LINE) as [e|[[ln k]|]] eqn:Hl; repeat case_match; try done.
    intros _. apply line_none_bound in Hl. unfold MAX_CHUNK_LINE in Hl. lia.
  - destruct (take_up_to l remaining =? 0)%nat eqn:Ht; [|done]. apply Nat.eqb_eq, take_up_to_none in Ht as ->;
      [done|apply Hok].
  - destruct (line l 0) as [e|[[ln k]|]] eqn:Hl; repeat case_match; try done.
    intros _. apply line_none_bound in Hl. lia.
  - destruct (line l MAX_RESPONSE_HEAD) as [e|[[ln k]|]] eqn:Hl; repeat case_match; try done.
    intros _. apply line_none_bound in Hl. unfold MAX_RESPONSE_HEAD in Hl. lia.
  - destruct l; [done|]. repeat case_match; done.
  - by destruct (Hopen response).
Qed.

Lemma run_result n : forall s l, (length l < n)%nat -> state_ok s ->
  let '(res, s', l') := reader_run s l in
  state_ok s' /\ l' `suffix_of` l /\
  (res = inr None -> zlen l' <= MAX_RESPONSE_HEAD + 1) /\ (forall r, res = inr (Some r) -> s' = Done r).
Proof.
  induction n as [|n IH]; intros s l Hn Hok; [lia|].
  assert ((exists r, s = Done r) \/ forall r, s <> Done r) as [[r ->]|Hopen] by (destruct s; eauto).
  { rewrite run_done. split_and!; try done. by intros r' [= ->]. }
  rewrite run_step_open by done. destruct (step s l) as [e|[[k|] s1]] eqn:Hs.
  - done.
  - destruct (step_consumes _ _ _ _ Hok Hs) as [Hk Hok1]. specialize (IH s1 (drop k l)).
    rewrite length_drop in IH. specialize (IH ltac:(lia) Hok1). destruct (reader_run s1 (drop k l)) as [[res s'] l'].
    destruct IH as (H1 & H2 & H3). split_and!; [done| |by destruct H3..].
    etrans; [exact H2|]. exists (take k l). by rewrite take_drop.
  - split_and!; try done. intros _. by eapply step_wait_bound.
Qed.

(** ** Feeding in pieces *)

(** The calls of a reader that stops at an error. *)
Fixpoint feed_all (self : ResponseReader) (pieces : list bytes) : (HttpError + option Response) * ResponseReader :=
  match pieces with
  | [] => feed self []
  | piece :: pieces' =>
      match feed self piece with
      | (inl e, self) => (inl e, self)
      | (inr _, self) => feed_all self pieces'
      end
  end.

Lemma feed_run self data :
  feed self data = let '(res, s, l) := reader_run (state self) (unread self ++ data) in (res, mk_Reader s l).
Proof. done. Qed.

(** The same response, or wait, in the same state; or an error from both. *)
Definition same_feed (x y : (HttpError + option Response) * ResponseReader) : Prop :=
  match x.1, y.1 with
  | inr _, inr _ => x = y
  | inl _, inl _ => True
  | _, _ => False
  end.

Lemma same_feed_trans x y z : same_feed x y -> same_feed y z -> same_feed x z.
Proof. unfold same_feed. destruct x as [[]], y as [[]], z as [[]]; cbn; try done. congruence. Qed.

Lemma feed_split self a b :
  state_ok (state self) ->
  match feed self a with
  | (inl _, _) => exists e r, feed self (a ++ b) = (inl e, r)
  | (inr _, self') => same_feed (feed self' b) (feed self (a ++ b)) /\ state_ok (state self')
  end.
Proof.
  intros Hok. rewrite !feed_run.
  pose proof (run_split _ (unread self ++ a) (state self) b (Nat.lt_succ_diag_r _) Hok) as Hs.
  pose proof (run_result _ (state self) (unread self ++ a) (Nat.lt_succ_diag_r _) Hok) as Hr.
  unfold split_ok in Hs. rewrite <- app_assoc in Hs.
  destruct (reader_run (state self) (unread self ++ a)) as [[res s'] l']. destruct Hr as [Hok' _].
  destruct res as [e|o].
  - destruct Hs as (e' & s2 & l2 & ->). by do 2 eexists.
  - split; [|done]. rewrite feed_run. cbn [state unread]. destruct Hs as [Heq Hall].
    destruct (reader_run (state self) (unread self ++ a ++ b)) as [[res1 s1] l1].
    destruct (reader_run s' (l' ++ b)) as [[res2 s2] l2]. cbn in Heq. subst res2. destruct res1 as [e|o1]; [done|].
    specialize (Hall o1 eq_refl). by simplify_eq.
Qed.

Lemma feed_all_concat pieces : forall self,
  state_ok (state self) -> same_feed (feed_all self pieces) (feed self (concat pieces)).
Proof.
  induction pieces as [|a pieces IH]; intros self Hok; cbn [feed_all concat].
  { unfold same_feed. by destruct (feed self []) as [[]]. }
  pose proof (feed_split self a (concat pieces) Hok) as Hs. destruct (feed self a) as [[e|o] self'].
  - destruct Hs as (e' & r & ->). done.
  - destruct Hs as [Hs Hok']. eapply same_feed_trans; [by apply IH|done].
Qed.

(** ** The wire form of a response *)

Definition hex_char (d : Z) : ascii :=
  if d <? 10 then ascii_of_nat (Z.to_nat (48 + d)) else ascii_of_nat (Z.to_nat (87 + d)).
(** [n] in [digits] hexadecimal digits *)
Fixpoint hex_fixed (digits : nat) (n : Z) : string :=
  match digits with
  | O => ""
  | S k => String (hex_char (n / 16 ^ Z.of_nat k)) (hex_fixed k (n mod 16 ^ Z.of_nat k))
  end.

Record Chunk := mk_Chunk { ch_digits : nat; ch_extension : string; ch_data : bytes }.

Definition EOL : bytes := [13; 10].
Definition size_line (c : Chunk) : bytes :=
  string_bytes (hex_fixed (ch_digits c) (zlen (ch_data c))) ++ string_bytes (ch_extension c).
Definition encode_chunk (c : Chunk) : bytes := size_line c ++ EOL ++ ch_data c ++ EOL.

Definition size_line_ok (c : Chunk) : Prop :=
  (1 <= ch_digits c <= 16)%nat /\ zlen (ch_data c) < 16 ^ Z.of_nat (ch_digits c) /\
  (ch_extension c = "" \/ exists e, ch_extension c = String ";" e) /\
  lacks CR (ch_extension c) = true /\ zlen (size_line c) <= MAX_CHUNK_LINE.

Definition trailer_ok (t : bytes) : Prop :=
  t <> [] /\ Forall (fun b => b <> 13) t /\ zlen t <= MAX_RESPONSE_HEAD.

(** [w] is a body the framing announces. *)
Definition body_wire (code : Z) (f : Framing) (w : bytes) : Prop :=
  if (code =? 204) || (code =? 304) then w = []
  else
    match fm_body f with
    | Length n => zlen w = n /\ n <= MAX_RESPONSE_BODY
    | Chunked => exists chunks final trailers,
        w = concat (map encode_chunk chunks) ++ size_line final ++ EOL
              ++ concat (map (fun t => t ++ EOL) trailers) ++ EOL /\
        Forall (fun c => size_line_ok c /\ ch_data c <> []) chunks /\
        size_line_ok final /\ ch_data final = [] /\ Forall trailer_ok trailers /\
        zlen (concat (map ch_data chunks)) <= MAX_RESPONSE_BODY
    | BodyUntilClose => False
    end.

Definition head_wire (h : bytes) (code : Z) (f : Framing) : Prop :=
  exists version headers,
    parse_head MAX_HEADERS h = Complete (length h) (Some code) version headers /\
    zlen h <= MAX_RESPONSE_HEAD /\ from_headers headers (bool_decide (version = Some 0)) = inr f.

Definition interim (h : bytes) : Prop := exists code f, 100 <= code < 200 /\ head_wire h code f.

(** ** Reading it *)

Lemma find_crlf_at l rest : Forall (fun b => b <> 13) l -> find_crlf (l ++ 13 :: 10 :: rest) = Some (length l).
Proof.
  induction 1 as [|b l Hb Hl IH]; [done|]. cbn [app length].
  destruct (l ++ 13 :: 10 :: rest) as [|c l'] eqn:E; [by destruct l|]. rewrite find_crlf_cons, IH.
  by rewrite (proj2 (Z.eqb_neq _ _) Hb).
Qed.

Lemma line_at l rest max :
  Forall (fun b => b <> 13) l -> zlen l <= max -> line (l ++ EOL ++ rest) max = inr (Some (l, (length l + 2)%nat)).
Proof.
  intros Hl Hm. unfold line. cbn [EOL app]. rewrite find_crlf_at by done. unfold zlen in Hm.
  case_match; [lia|]. by rewrite take_app_length.
Qed.

Lemma drop_line (l rest : bytes) : drop (length l + 2) (l ++ EOL ++ rest) = rest.
Proof. rewrite app_assoc. apply drop_app_length'. rewrite length_app. done. Qed.

Lemma head_run h code f rest :
  head_wire h code f ->
  reader_run Head (h ++ rest) =
    if (100 <=? code) && (code <? 200) then reader_run Head rest
    else match head_state code f with
         | inl e => (inl e, Head, h ++ rest)
         | inr s => reader_run s rest
         end.
Proof.
  intros (version & headers & Hp & Hlen & Hf). rewrite run_step by done. cbn [step]. unfold read_head.
  rewrite (parse_head_extends MAX_HEADERS h rest), Hp by (by rewrite Hp). unfold zlen in Hlen.
  rewrite (proj2 (Z.ltb_ge _ _)) by lia. rewrite Hf.
  destruct ((100 <=? code) && (code <? 200)); [by rewrite drop_app_length|].
  destruct (head_state code f); [done|]. by rewrite drop_app_length.
Qed.

Lemma interims_run hs rest : Forall interim hs -> reader_run Head (concat hs ++ rest) = reader_run Head rest.
Proof.
  induction 1 as [|h hs (code & f & Hc & Hw) Hhs IH]; [done|]. cbn [concat]. rewrite <- app_assoc.
  rewrite (head_run _ _ _ _ Hw). by rewrite (proj2 (andb_true_iff _ _)) by lia.
Qed.

Definition is_hex (c : ascii) : bool := printable c && is_ascii_hexdigit c && negb (bool_decide (c = ";"%char)).

Lemma hex_char_ok d : 0 <= d < 16 -> is_hex (hex_char d) = true /\ to_digit 16 (hex_char d) = Some d.
Proof.
  intros Hd. replace d with (Z.of_nat (Z.to_nat d)) by lia. assert (Hn : (Z.to_nat d < 16)%nat) by lia.
  revert Hn. generalize (Z.to_nat d). intros n Hn. do 16 (destruct n as [|n]; [vm_compute; done|]). lia.
Qed.

Lemma div_digit n k : 0 <= n < 16 ^ Z.of_nat (S k) -> 0 <= n / 16 ^ Z.of_nat k < 16 /\ 0 <= n mod 16 ^ Z.of_nat k < 16 ^ Z.of_nat k.
Proof.
  intros Hn. rewrite Nat2Z.inj_succ, Z.pow_succ_r in Hn by lia.
  assert (0 < 16 ^ Z.of_nat k) by (apply Z.pow_pos_nonneg; lia).
  split; [|by apply Z.mod_pos_bound]. split; [by apply Z.div_pos; lia|]. apply Z.div_lt_upper_bound; lia.
Qed.

Lemma hex_fixed_hex k : forall n, 0 <= n < 16 ^ Z.of_nat k -> string_forall is_hex (hex_fixed k n) = true.
Proof.
  induction k as [|k IH]; intros n Hn; [done|]. destruct (div_digit n k Hn) as [Hd Hm]. cbn [hex_fixed string_forall].
  destruct (hex_char_ok _ Hd) as [-> _]. by rewrite IH.
Qed.

Lemma hex_fixed_length k : forall n, String.length (hex_fixed k n) = k.
Proof. induction k as [|k IH]; intros n; [done|]. cbn. by rewrite IH. Qed.

Lemma parse_hex_fixed k : forall n acc,
  0 <= n < 16 ^ Z.of_nat k -> 0 <= acc -> (acc + 1) * 16 ^ Z.of_nat k <= 2 ^ 64 ->
  parse_hex acc (hex_fixed k n) = Some (acc * 16 ^ Z.of_nat k + n).
Proof.
  induction k as [|k IH]; intros n acc Hn Ha Hmax; [cbn; f_equal; cbn in Hn; lia|].
  destruct (div_digit n k Hn) as [Hd Hm]. cbn [hex_fixed parse_hex]. destruct (hex_char_ok _ Hd) as [_ ->].
  cbn [mbind option_bind]. rewrite Nat2Z.inj_succ, Z.pow_succ_r in Hmax |- * by lia.
  assert (0 < 16 ^ Z.of_nat k) by (apply Z.pow_pos_nonneg; lia).
  set (d := n / 16 ^ Z.of_nat k) in *. set (p := 16 ^ Z.of_nat k) in *.
  assert (Hfit : (acc * 16 + d + 1) * p <= 2 ^ 64) by nia.
  rewrite checked_u_Some by (unfold in_u; nia). cbn [mbind option_bind]. rewrite IH; [|done|lia|done].
  f_equal. pose proof (Z.div_mod n p). fold d in H1. unfold p in *. nia.
Qed.

Lemma ascii_byte c d : Z.of_N (N_of_ascii c) = Z.of_N (N_of_ascii d) -> c = d.
Proof. intros He. apply N2Z.inj in He. rewrite <- (ascii_N_embedding c), <- (ascii_N_embedding d). by rewrite He. Qed.

Lemma string_bytes_cons c s : string_bytes (String c s) = Z.of_N (N_of_ascii c) :: string_bytes s.
Proof. done. Qed.

Lemma string_bytes_no_cr s : lacks CR s = true -> Forall (fun b => b <> 13) (string_bytes s).
Proof.
  induction s as [|c s IH]; [constructor|]. intros [Hc Hs]%lacks_cons. rewrite string_bytes_cons. constructor; [|by apply IH].
  intros He. apply Hc, ascii_byte. by rewrite He.
Qed.

Lemma is_hex_inv c : is_hex c = true -> printable c = true /\ is_ascii_hexdigit c = true /\ c <> ";"%char.
Proof.
  unfold is_hex. rewrite !andb_true_iff, negb_true_iff. intros [[Hp Hh] Hs]. split_and!; try done.
  by apply bool_decide_eq_false in Hs.
Qed.

Lemma before_semicolon s ext :
  string_forall is_hex s = true -> ext = "" \/ (exists e, ext = String ";" e) ->
  before_byte SEMICOLON (string_bytes s ++ string_bytes ext) = string_bytes s.
Proof.
  intros Hs Hext. induction s as [|c s IH].
  - by destruct Hext as [->|[e ->]].
  - cbn [string_forall] in Hs. apply andb_true_iff in Hs as [Hc Hs]. rewrite string_bytes_cons. cbn [app before_byte]. rewrite IH by done.
    case_match eqn:He; [|done]. apply Z.eqb_eq in He. apply is_hex_inv in Hc as (_ & _ & Hc).
    destruct Hc. by apply ascii_byte.
Qed.

Lemma size_line_parses c : size_line_ok c -> parse_chunk_size (size_line c) = inr (zlen (ch_data c)).
Proof.
  intros (Hk & Hn & Hext & _). unfold parse_chunk_size, size_line.
  set (s := hex_fixed _ _). pose proof (zlen_nonneg (ch_data c)).
  assert (Hs : string_forall is_hex s = true) by (apply hex_fixed_hex; lia).
  rewrite before_semicolon by done.
  assert (Hp : string_forall printable s = true).
  { eapply string_forall_impl; [|exact Hs]. intros x Hx. by apply is_hex_inv in Hx as (? & _). }
  rewrite from_utf8_ascii by (eapply string_forall_impl; [|exact Hp]; apply printable_ascii).
  rewrite trim_printable by done. pose proof (hex_fixed_length (ch_digits c) (zlen (ch_data c))) as Hl.
  fold s in Hl. rewrite bool_decide_false by (intros He; rewrite He in Hl; cbn in Hl; lia).
  rewrite (proj2 (Z.ltb_ge _ _)) by lia.
  rewrite (string_forall_impl is_hex is_ascii_hexdigit s); [|by intros x (_ & ? & _)%is_hex_inv|done].
  cbn [orb negb]. unfold s. rewrite parse_hex_fixed; [done|lia|lia|].
  rewrite Z.mul_1_l. change (2 ^ 64) with (16 ^ 16). apply Z.pow_le_mono_r; lia.
Qed.

Lemma size_line_no_cr c : size_line_ok c -> Forall (fun b => b <> 13) (size_line c).
Proof.
  intros (Hk & Hn & _ & Hcr & _). apply Forall_app. split; apply string_bytes_no_cr; [|done].
  apply printable_lacks; [done|]. eapply string_forall_impl; [|apply hex_fixed_hex].
  - intros x Hx. by apply is_hex_inv in Hx as (? & _).
  - pose proof (zlen_nonneg (ch_data c)). lia.
Qed.

(** A chunk's size line. *)
Lemma size_line_run response total c rest :
  0 <= total -> total + zlen (ch_data c) <= MAX_RESPONSE_BODY -> size_line_ok c ->
  reader_run (ChunkSize response total) (size_line c ++ EOL ++ rest) =
  reader_run (if zlen (ch_data c) =? 0 then Trailers response
       else ChunkData response (total + zlen (ch_data c)) (zlen (ch_data c))) rest.
Proof.
  intros Ht Hmax Hok. pose proof (zlen_nonneg (ch_data c)).
  rewrite run_step by (unfold state_ok; lia). cbn [step].
  rewrite line_at by (apply Hok || by apply size_line_no_cr). rewrite size_line_parses by done.
  rewrite checked_u_Some by (unfold in_u, MAX_RESPONSE_BODY in *; change (2 ^ 64) with 18446744073709551616; lia).
  rewrite (proj2 (Z.ltb_ge _ _)) by lia. by rewrite drop_line.
Qed.

Lemma chunk_run response total c rest :
  0 <= total -> total + zlen (ch_data c) <= MAX_RESPONSE_BODY -> size_line_ok c -> ch_data c <> [] ->
  reader_run (ChunkSize response total) (encode_chunk c ++ rest) = reader_run (ChunkSize response (total + zlen (ch_data c))) rest.
Proof.
  intros Ht Hmax Hok Hne. apply zlen_pos in Hne. unfold encode_chunk.
  rewrite <- !app_assoc, size_line_run by done. rewrite (proj2 (Z.eqb_neq _ _)) by lia.
  rewrite (counted_whole (ChunkData response (total + zlen (ch_data c)))
             (ChunkDataEnd response (total + zlen (ch_data c)))); try done; try lia.
  2: { intros r Hr. unfold state_ok. lia. }
  rewrite drop_ge by (unfold zlen; lia). cbn [app].
  rewrite run_step by (unfold state_ok; lia). cbn [step].
  change (EOL ++ rest) with ([] ++ EOL ++ rest). by rewrite line_at.
Qed.

Lemma chunks_run response chunks : forall total rest,
  0 <= total -> total + zlen (concat (map ch_data chunks)) <= MAX_RESPONSE_BODY ->
  Forall (fun c => size_line_ok c /\ ch_data c <> []) chunks ->
  reader_run (ChunkSize response total) (concat (map encode_chunk chunks) ++ rest) =
  reader_run (ChunkSize response (total + zlen (concat (map ch_data chunks)))) rest.
Proof.
  induction chunks as [|c chunks IH]; intros total rest Ht Hmax Hok; cbn [map concat] in *.
  { by rewrite Z.add_0_r. }
  apply Forall_cons in Hok as [[Hc Hne] Hok]. pose proof (zlen_nonneg (ch_data c)).
  assert (Hl : zlen (ch_data c ++ concat (map ch_data chunks)) = zlen (ch_data c) + zlen (concat (map ch_data chunks)))
    by (unfold zlen; rewrite length_app; lia).
  pose proof (zlen_nonneg (concat (map ch_data chunks))). rewrite Hl in *.
  rewrite <- app_assoc, chunk_run by (done || lia). rewrite IH by (done || lia). by rewrite Z.add_assoc.
Qed.

Lemma trailers_run response trailers rest :
  Forall trailer_ok trailers ->
  reader_run (Trailers response) (concat (map (fun t => t ++ EOL) trailers) ++ EOL ++ rest)
  = (inr (Some response), Done response, rest).
Proof.
  induction 1 as [|t trailers (Hne & Hcr & Hlen) Hok IH]; rewrite run_step by done; cbn [step map concat app].
  - by change (EOL ++ rest) with ([] ++ EOL ++ rest); rewrite line_at.
  - rewrite <- !app_assoc, line_at by done. destruct t; [done|]. by rewrite drop_line.
Qed.

Lemma body_run code f w extra :
  body_wire code f w ->
  exists s, head_state code f = inr s /\
    reader_run s (w ++ extra) = (inr (Some (mk_Response code (fm_keep_alive f))),
                          Done (mk_Response code (fm_keep_alive f)), extra).
Proof.
  intros Hw. unfold body_wire, head_state in *.
  destruct ((code =? 204) || (code =? 304)); [subst w; by eexists|].
  destruct (fm_body f) as [n| |]; [| |done].
  - destruct Hw as [Hn Hmax]. pose proof (zlen_nonneg w). destruct (n =? 0) eqn:E.
    + apply Z.eqb_eq in E. assert (w = []) as -> by (destruct w; [done|]; unfold zlen in *; cbn in *; lia).
      by eexists.
    + apply Z.eqb_neq in E. rewrite (proj2 (Z.ltb_ge _ _)) by lia. eexists. split; [done|].
      rewrite (counted_whole (Sized _) (Done (mk_Response code (fm_keep_alive f)))); try done; try lia.
      rewrite drop_ge by (unfold zlen in *; lia). done.
  - destruct Hw as (chunks & final & trailers & -> & Hchunks & Hfinal & Hd & Htr & Htot).
    eexists. split; [done|]. rewrite <- !app_assoc, chunks_run by (done || lia).
    pose proof (zlen_nonneg (concat (map ch_data chunks))).
    rewrite size_line_run; [|lia|by rewrite Hd, Z.add_0_r|done]. rewrite Hd. cbn [zlen length Z.of_nat Z.eqb].
    by apply trailers_run.
Qed.

(** However the bytes of a response are split into reads, feeding them one read at a time is
    the same as feeding them at once: the same response, or the same state waiting for the
    same bytes; and where one is refused so is the other. *)
Theorem feed_any_split pieces :
  same_feed (feed_all reader_new pieces) (feed reader_new (concat pieces)).
Proof. by apply feed_all_concat. Qed.

(** While a response is incomplete the reader keeps no more than the largest head or line of
    it, whatever the peer sends. *)
Theorem reader_stays_bounded pieces reader :
  feed_all reader_new pieces = (inr None, reader) ->
  state_ok (state reader) /\ zlen (unread reader) <= MAX_RESPONSE_HEAD + 1.
Proof.
  intros Hf. pose proof (feed_all_concat pieces reader_new I) as Hs. rewrite Hf, feed_run in Hs.
  pose proof (run_result _ (state reader_new) (unread reader_new ++ concat pieces) (Nat.lt_succ_diag_r _) I) as Hr.
  destruct (reader_run _ _) as [[res s'] l']. destruct res; [done|]. unfold same_feed in Hs. cbn in Hs.
  simplify_eq. by destruct Hr as (? & _ & Hb & _); auto.
Qed.

(** C18: A whole response reads back, however it is split: after any interim responses, a head
    within the limits and the body its framing announces (none, sized, or chunked, with
    extensions and trailers) give its status and whether the connection stays open, and
    exactly the bytes after it are left unread. *)
Theorem response_reads_back interims head code f w extra pieces :
  Forall interim interims -> head_wire head code f -> ~ (100 <= code < 200) -> body_wire code f w ->
  concat pieces = concat interims ++ head ++ w ++ extra ->
  feed_all reader_new pieces =
    (inr (Some (mk_Response code (fm_keep_alive f))),
     mk_Reader (Done (mk_Response code (fm_keep_alive f))) extra).
Proof.
  intros Hi Hh Hc Hw Hp. pose proof (feed_all_concat pieces reader_new I) as Hs.
  assert (Hf : feed reader_new (concat pieces) =
    (inr (Some (mk_Response code (fm_keep_alive f))), mk_Reader (Done (mk_Response code (fm_keep_alive f))) extra)).
  { rewrite feed_run. cbn [state unread reader_new app]. rewrite Hp, interims_run by done.
    rewrite (head_run _ _ _ _ Hh). destruct ((100 <=? code) && (code <? 200)) eqn:E; [lia|].
    destruct (body_run code f w extra Hw) as (s & -> & Hrun). by rewrite Hrun. }
  rewrite Hf in Hs. unfold same_feed in Hs. destruct (feed_all reader_new pieces) as [[]]; cbn in Hs; [done|].
  exact Hs.
Qed.

(** A body without a length ends with the connection. *)
Theorem response_until_close head code f w pieces :
  head_wire head code f -> ~ (100 <= code < 200) -> code <> 204 -> code <> 304 ->
  fm_body f = BodyUntilClose -> zlen w <= MAX_RESPONSE_BODY -> concat pieces = head ++ w ->
  exists reader, feed_all reader_new pieces = (inr None, reader) /\
    (finish reader).1 = inr (mk_Response code false).
Proof.
  intros Hh Hc H2 H3 Hb Hw Hp. pose proof (feed_all_concat pieces reader_new I) as Hs.
  assert (Hf : feed reader_new (concat pieces) =
    (inr None, mk_Reader (UntilClose (mk_Response code false) (zlen w)) [])).
  { rewrite feed_run. cbn [state unread reader_new app]. rewrite Hp, (head_run _ _ _ _ Hh).
    destruct ((100 <=? code) && (code <? 200)) eqn:E; [lia|]. unfold head_state.
    rewrite (proj2 (Z.eqb_neq code 204)), (proj2 (Z.eqb_neq code 304)) by done. cbn [orb]. rewrite Hb.
    rewrite until_close_run by (unfold MAX_RESPONSE_BODY; lia). cbn [Z.add].
    by rewrite (proj2 (Z.ltb_ge _ _)) by done. }
  rewrite Hf in Hs. unfold same_feed in Hs. destruct (feed_all reader_new pieces) as [[]]; cbn in Hs; [done|].
  eexists. split; [exact Hs|done].
Qed.

End Reader.

(** ** A parser of heads

    A small instance of [HeadParser]: the head ends at the first empty line and is judged
    when it is complete. *)

Fixpoint find_end (l : bytes) : option nat :=
  match l with
  | [] => None
  | _ :: l' => if bool_decide (take 4 l = [13; 10; 13; 10]) then Some O else S <$> find_end l'
  end.

Fixpoint split_lines (fuel : nat) (l : bytes) : list bytes :=
  match fuel, find_crlf l with
  | S fuel', Some n => take n l :: split_lines fuel' (drop (n + 2) l)
  | _, _ => [l]
  end.

Definition split_header (l : bytes) : string * bytes :=
  let name := before_byte 58 l in (bytes_string name, drop (length name + 1) l).

Definition simple_head (max : nat) (h : bytes) : ParsedHead :=
  match split_lines (length h) h with
  | [] => HeadError
  | status_line :: headers =>
      if (max <? length headers)%nat then TooManyHeaders
      else
        match from_utf8 (take 3 (drop 9 status_line)) with
        | Some code =>
            match parse_digits 0 code with
            | Some code => Complete (length h + 4) (Some code) ((fun b => b - 48) <$> status_line !! 7%nat)
                             (map split_header headers)
            | None => HeadError
            end
        | None => HeadError
        end
  end.

Definition simple_parse (max : nat) (buf : bytes) : ParsedHead :=
  match find_end buf with Some n => simple_head max (take n buf) | None => Partial end.

Lemma find_end_bound l n : find_end l = Some n -> (n + 4 <= length l)%nat.
Proof.
  revert n. induction l as [|a l IH]; intros n; [done|]. cbn [find_end]. case_bool_decide as Ht.
  - intros [= <-]. apply (f_equal length) in Ht. rewrite length_take in Ht. cbn [length] in *. lia.
  - intros (m & Hm & ->)%fmap_Some. apply IH in Hm. cbn. lia.
Qed.

Lemma find_end_extends l more n : find_end l = Some n -> find_end (l ++ more) = Some n.
Proof.
  revert n. induction l as [|a l IH]; intros n; [done|]. cbn [find_end app]. case_bool_decide as Ht.
  - intros [= <-]. rewrite bool_decide_true; [done|]. rewrite app_comm_cons, take_app_le; [done|].
    apply (f_equal length) in Ht. rewrite length_take in Ht. cbn [length] in *. lia.
  - intros (m & Hm & ->)%fmap_Some. pose proof (find_end_bound _ _ Hm).
    rewrite bool_decide_false, (IH _ Hm); [done|]. rewrite app_comm_cons, take_app_le; [done|]. cbn. lia.
Qed.

Lemma find_end_prefix l n : find_end l = Some n -> find_end (take (n + 4) l) = Some n.
Proof.
  revert n. induction l as [|a l IH]; intros n; [done|]. cbn [find_end]. case_bool_decide as Ht.
  - intros [= <-]. cbn [plus]. rewrite Ht. done.
  - intros (m & Hm & ->)%fmap_Some. cbn [plus take find_end]. rewrite (IH _ Hm).
    rewrite bool_decide_false; [done|]. intros Hq. destruct Ht.
    rewrite <- Hq. change (a :: take (m + 4) l) with (take (S (m + 4)) (a :: l)). by rewrite take_take, Nat.min_l by lia.
Qed.

Lemma simple_head_len max h len code version headers :
  simple_head max h = Complete len code version headers -> len = (length h + 4)%nat.
Proof. unfold simple_head. repeat case_match; intros; by simplify_eq. Qed.

#[export] Program Instance simple_parser : HeadParser := {| parse_head := simple_parse |}.
Next Obligation.
  intros max buf more. unfold simple_parse. destruct (find_end buf) as [n|] eqn:Hf; [|done]. intros _.
  rewrite (find_end_extends _ _ _ Hf). pose proof (find_end_bound _ _ Hf). by rewrite take_app_le by lia.
Qed.
Next Obligation.
  intros max buf len code version headers. unfold simple_parse.
  destruct (find_end buf) as [n|] eqn:Hf; [|done]. intros ->%simple_head_len.
  pose proof (find_end_bound _ _ Hf). rewrite length_take. lia.
Qed.
Next Obligation.
  intros max buf len code version headers. unfold simple_parse.
  destruct (find_end buf) as [n|] eqn:Hf; [|done]. intros Hs. pose proof (simple_head_len _ _ _ _ _ _ Hs) as ->.
  pose proof (find_end_bound _ _ Hf).
  assert (Hl : length (take n buf) = n) by (rewrite length_take; lia). rewrite Hl in *.
  rewrite (find_end_prefix _ _ Hf), take_take, Nat.min_l by lia. exact Hs.
Qed.

(** ** Witnesses *)

Definition sample_head : bytes :=
  string_bytes ("HTTP/1.1 200 OK" +:+ CRLF +:+ "Transfer-Encoding: chunked" +:+ CRLF +:+ CRLF).
Definition sample_chunk : Chunk := mk_Chunk 2 ";x=1" [1; 2; 3].
Definition sample_final : Chunk := mk_Chunk 1 "" [].
Definition sample_body : bytes := encode_chunk sample_chunk ++ size_line sample_final ++ EOL ++ EOL.
Definition sample_framing : Framing := mk_Framing Chunked true.

Lemma sample_head_wire : head_wire sample_head 200 sample_framing.
Proof.
  exists (Some 1), [("Transfer-Encoding", string_bytes " chunked")]. split_and!; vm_compute; done.
Qed.

Lemma sample_body_wire : body_wire 200 sample_framing sample_body.
Proof.
  exists [sample_chunk], sample_final, [].
  assert (Hc : size_line_ok sample_chunk).
  { unfold size_line_ok. split_and!; [cbn; lia|cbn; lia|vm_compute; done|right; by eexists|vm_compute; done..]. }
  assert (Hf : size_line_ok sample_final).
  { unfold size_line_ok. split_and!; [cbn; lia|cbn; lia|vm_compute; done|by left|vm_compute; done..]. }
  split_and!; [vm_compute; done|constructor; [by split|constructor]|done|done|constructor|vm_compute; done].
Qed.

Lemma response_reads_back_witness :
  feed_all reader_new [take 30 (sample_head ++ sample_body); drop 30 (sample_head ++ sample_body) ++ [7]] =
    (inr (Some (mk_Response 200 true)), mk_Reader (Done (mk_Response 200 true)) [7]).
Proof.
  apply (response_reads_back [] sample_head 200 sample_framing sample_body [7]).
  - constructor.
  - apply sample_head_wire.
  - lia.
  - apply sample_body_wire.
  - vm_compute. done.
Defined.

Lemma feed_any_split_witness :
  same_feed (feed_all reader_new [take 5 sample_head; drop 5 sample_head; sample_body])
    (feed reader_new (concat [take 5 sample_head; drop 5 sample_head; sample_body])).
Proof. apply (feed_any_split [take 5 sample_head; drop 5 sample_head; sample_body]). Defined.
