(* ===== verification/Mp4Boxes.v ===== *)
(** * Boxes of fragmented MP4 objects

    Models [crates/restream-engine/src/ingest_publisher/fmp4/boxes.rs]: the walk over the
    boxes of the fMP4 objects an encoder uploads, which finds the fragments of a media segment
    and refuses what the demuxer must not be given. *)

From S2P Require Import Prelude Media.

Open Scope Z_scope.

(** ** Definitions *)

Definition MAX_FRAGMENTS : nat := 64.
Definition MAX_BOXES : Z := 4096.
Definition MAX_MOOF_BYTES : Z := 256 * 1024.
Definition MAX_SEGMENT_SAMPLES : Z := 16 * 1024.
Definition TFHD_BASE_DATA_OFFSET_PRESENT : Z := 0x000001.

Definition k_moof : bytes := string_bytes "moof".
Definition k_mdat : bytes := string_bytes "mdat".
Definition k_moov : bytes := string_bytes "moov".
Definition k_traf : bytes := string_bytes "traf".
Definition k_tfhd : bytes := string_bytes "tfhd".
Definition k_tfdt : bytes := string_bytes "tfdt".
Definition k_trun : bytes := string_bytes "trun".

Definition KNOWN_SKIPPED : list bytes :=
  map string_bytes ["styp"; "sidx"; "ssix"; "prft"; "emsg"; "free"; "skip"; "ftyp"]%string.

Inductive WalkError :=
| Truncated (offset : nat)
| TooSmall (kind : bytes) (offset : nat)
| Oversized (kind : bytes) (offset : nat)
| SizeToEnd (kind : bytes)
| MoofWithoutMdat (offset : nat)
| MdatWithoutMoof (offset : nat)
| NoFragments
| TooManyFragments
| TooManyBoxes
| MoofTooLarge (offset : nat)
| TooManySamples
| ExplicitBaseDataOffset
| TrafWithoutTfdt
| NoMoov.

Record BoxSpan := mk_BoxSpan {
  bs_kind : bytes;
  bs_start : nat;
  bs_body : nat;
  bs_end : nat;
  bs_to_end : bool;
}.

(** The span of a box whose header at [offset] gave these sizes, in [len] bytes. *)
Definition box_span (len : nat) (kind : bytes) (offset : nat) (size32 size header_len : Z)
  : WalkError + BoxSpan :=
  match checked_u 64 (Z.of_nat offset + header_len) with
  | None => inl (Oversized kind offset)
  | Some header_end =>
      if size32 =? 0 then inr (mk_BoxSpan kind offset (Z.to_nat header_end) len true)
      else if size <? header_len then inl (TooSmall kind offset)
      else
        match checked_u 64 (Z.of_nat offset + size) with
        | Some end_ =>
            if end_ <=? Z.of_nat len
            then inr (mk_BoxSpan kind offset (Z.to_nat header_end) (Z.to_nat end_) false)
            else inl (Oversized kind offset)
        | None => inl (Oversized kind offset)
        end
  end.

(** The first eight bytes of [bytes.get(offset..)] *)
Definition eight_at (offset : nat) (l : bytes) : option bytes := get_from offset l ≫= first_chunk 8.

Definition read_box (l : bytes) (offset : nat) : WalkError + BoxSpan :=
  match eight_at offset l with
  | None => inl (Truncated offset)
  | Some header =>
      let kind := drop 4 header in
      let size32 := be_value (take 4 header) in
      if size32 =? 1 then
        match eight_at (offset + 8) l with
        | None => inl (Truncated offset)
        | Some large => box_span (length l) kind offset size32 (be_value large) 16
        end
      else box_span (length l) kind offset size32 size32 8
  end.

(** [count_box]: the boxes walked so far. *)
Definition count_box (walked : Z) : WalkError + Z :=
  let walked := sat_u 64 (walked + 1) in
  if MAX_BOXES <? walked then inl TooManyBoxes else inr walked.

(** [bytes.get(a..b).unwrap_or_default()] *)
Definition slice (a b : nat) (l : bytes) : bytes := default [] (get_range a b l).

Section Child.
Context {S : Type} (visit : BoxSpan -> bytes -> S -> Z -> WalkError + (S * Z)).

Fixpoint for_each_child_loop (fuel : nat) (payload : bytes) (offset : nat) (s : S) (walked : Z)
  : WalkError + (S * Z) :=
  if (length payload <=? offset)%nat then inr (s, walked)
  else
    match fuel with
    | O => inl TooManyBoxes
    | Datatypes.S fuel' =>
        match count_box walked with
        | inl e => inl e
        | inr walked =>
            match read_box payload offset with
            | inl e => inl e
            | inr span =>
                if bs_to_end span then inl (SizeToEnd (bs_kind span))
                else
                  match visit span (slice (bs_body span) (bs_end span) payload) s walked with
                  | inl e => inl e
                  | inr (s, walked) => for_each_child_loop fuel' payload (bs_end span) s walked
                  end
            end
        end
    end.

Definition for_each_child (payload : bytes) (s : S) (walked : Z) : WalkError + (S * Z) :=
  for_each_child_loop (length payload) payload 0 s walked.
End Child.

(** The visit of a child of a [traf]: whether a [tfdt] was seen, and the samples. *)
Definition visit_traf_child (child : BoxSpan) (body : bytes) (s : bool * Z) (walked : Z)
  : WalkError + (bool * Z * Z) :=
  let '(has_tfdt, samples) := s in
  if bool_decide (bs_kind child = k_tfdt) then inr (true, samples, walked)
  else if bool_decide (bs_kind child = k_tfhd) then
    match first_chunk 4 body with
    | None => inl (Truncated (bs_body child))
    | Some header =>
        if negb (be_value (drop 1 header) .& TFHD_BASE_DATA_OFFSET_PRESENT =? 0)
        then inl ExplicitBaseDataOffset
        else inr (has_tfdt, samples, walked)
    end
  else if bool_decide (bs_kind child = k_trun) then
    match get_range 4 8 body with
    | None => inl (Truncated (bs_body child))
    | Some count =>
        let samples := sat_u 64 (samples + be_value count) in
        if MAX_SEGMENT_SAMPLES <? samples then inl TooManySamples else inr (has_tfdt, samples, walked)
    end
  else inr (has_tfdt, samples, walked).

Definition visit_moof_child (child : BoxSpan) (body : bytes) (samples : Z) (walked : Z)
  : WalkError + (Z * Z) :=
  if negb (bool_decide (bs_kind child = k_traf)) then inr (samples, walked)
  else
    match for_each_child visit_traf_child body (false, samples) walked with
    | inl e => inl e
    | inr (has_tfdt, samples, walked) =>
        if has_tfdt then inr (samples, walked) else inl TrafWithoutTfdt
    end.

Definition check_moof (moof : bytes) (samples walked : Z) : WalkError + (Z * Z) :=
  for_each_child visit_moof_child moof samples walked.

Record WalkReport := mk_WalkReport { first_unknown : option bytes }.

(** The variables of the walk over a media segment. *)
Record Walk := mk_Walk {
  wk_fragments : list (nat * nat);
  wk_unknown : option bytes;
  wk_walked : Z;
  wk_samples : Z;
}.

(** The branch of a [moof]: the offset after its [mdat]. *)
Definition walk_moof (l : bytes) (offset : nat) (span : BoxSpan) (w : Walk) : WalkError + (nat * Walk) :=
  if bs_to_end span then inl (SizeToEnd (bs_kind span))
  else if MAX_MOOF_BYTES <? Z.of_nat (bs_end span - bs_start span) then inl (MoofTooLarge offset)
  else
    match check_moof (slice (bs_body span) (bs_end span) l) (wk_samples w) (wk_walked w) with
    | inl e => inl e
    | inr (samples, walked) =>
        if (length l <=? bs_end span)%nat then inl (MoofWithoutMdat offset)
        else
          match read_box l (bs_end span) with
          | inl e => inl e
          | inr mdat =>
              if negb (bool_decide (bs_kind mdat = k_mdat)) then inl (MoofWithoutMdat offset)
              else if bs_to_end mdat then inl (SizeToEnd (bs_kind mdat))
              else if (MAX_FRAGMENTS <=? length (wk_fragments w))%nat then inl TooManyFragments
              else inr (bs_end mdat,
                        mk_Walk (wk_fragments w ++ [(bs_start span, bs_end mdat)]) (wk_unknown w)
                          walked samples)
          end
    end.

(** One turn of the loop. *)
Definition walk_box (l : bytes) (offset : nat) (w : Walk) : WalkError + (nat * Walk) :=
  match count_box (wk_walked w) with
  | inl e => inl e
  | inr walked =>
      let w := mk_Walk (wk_fragments w) (wk_unknown w) walked (wk_samples w) in
      match read_box l offset with
      | inl e => inl e
      | inr span =>
          if bool_decide (bs_kind span = k_moof) then walk_moof l offset span w
          else if bool_decide (bs_kind span = k_mdat) then inl (MdatWithoutMoof offset)
          else if bool_decide (bs_kind span ∈ KNOWN_SKIPPED) then inr (bs_end span, w)
          else inr (bs_end span,
                    mk_Walk (wk_fragments w)
                      (match wk_unknown w with Some k => Some k | None => Some (bs_kind span) end)
                      (wk_walked w) (wk_samples w))
      end
  end.

(** The loop: the error it ended with, if any, and the variables then. *)
Fixpoint walk_loop (fuel : nat) (l : bytes) (offset : nat) (w : Walk) : option WalkError * Walk :=
  if (length l <=? offset)%nat then (None, w)
  else
    match fuel with
    | O => (Some TooManyBoxes, w)
    | S fuel' =>
        match walk_box l offset w with
        | inl e => (Some e, w)
        | inr (offset, w) => walk_loop fuel' l offset w
        end
    end.

(** The report or the error, and the fragments collected until then. *)
Definition media_fragments (l : bytes) : (WalkError + WalkReport) * list (nat * nat) :=
  let '(error, w) := walk_loop (length l) l 0 (mk_Walk [] None 0 0) in
  (match error, wk_fragments w with
   | Some e, _ => inl e
   | None, [] => inl NoFragments
   | None, _ => inr (mk_WalkReport (wk_unknown w))
   end, wk_fragments w).

Fixpoint moov_loop (fuel : nat) (l : bytes) (offset : nat) : WalkError + (nat * nat) :=
  if (length l <=? offset)%nat then inl NoMoov
  else
    match fuel with
    | O => inl NoMoov
    | S fuel' =>
        match read_box l offset with
        | inl e => inl e
        | inr span =>
            if bool_decide (bs_kind span = k_moov) then inr (bs_start span, bs_end span)
            else moov_loop fuel' l (bs_end span)
        end
    end.
Definition moov_range (l : bytes) : WalkError + (nat * nat) := moov_loop (length l) l 0.

Fixpoint is_init_loop (fuel : nat) (l : bytes) (offset : nat) : bool :=
  if (length l <=? offset)%nat then false
  else
    match fuel with
    | O => false
    | S fuel' =>
        match read_box l offset with
        | inl _ => false
        | inr span =>
            if bool_decide (bs_kind span = k_moov) then true
            else if bool_decide (bs_kind span = k_moof) then false
            else is_init_loop fuel' l (bs_end span)
        end
    end.
Definition is_init_segment (l : bytes) : bool := is_init_loop (length l) l 0.

(** ** The layout of boxes *)

Record Mp4Box := mk_Mp4Box { mb_kind : bytes; mb_large : bool; mb_data : bytes }.

Definition header_len (b : Mp4Box) : nat := if mb_large b then 16%nat else 8%nat.
Definition encode_box (b : Mp4Box) : bytes :=
  let size := Z.of_nat (header_len b) + zlen (mb_data b) in
  if mb_large b then to_be_bytes 4 1 ++ mb_kind b ++ to_be_bytes 8 size ++ mb_data b
  else to_be_bytes 4 size ++ mb_kind b ++ mb_data b.

Definition box_ok (b : Mp4Box) : Prop :=
  length (mb_kind b) = 4%nat /\ (mb_large b = false -> 8 + zlen (mb_data b) < 2 ^ 32).

Definition span_of (n : nat) (b : Mp4Box) : BoxSpan :=
  mk_BoxSpan (mb_kind b) n (n + header_len b) (n + length (encode_box b)) false.

(** A slice of the program is at most [isize::MAX] bytes. *)
Definition slice_ok (l : bytes) : Prop := zlen l < 2 ^ 63.

Lemma encode_box_length b :
  length (mb_kind b) = 4%nat -> length (encode_box b) = (header_len b + length (mb_data b))%nat.
Proof.
  intros Hk. unfold encode_box, header_len. destruct (mb_large b);
    rewrite !length_app, !length_to_be_bytes, Hk; lia.
Qed.

(** *** Positions do not matter *)

Definition shift_error (n : nat) (e : WalkError) : WalkError :=
  match e with
  | Truncated o => Truncated (n + o)
  | TooSmall k o => TooSmall k (n + o)
  | Oversized k o => Oversized k (n + o)
  | e => e
  end.
Definition shift_span (n : nat) (s : BoxSpan) : BoxSpan :=
  mk_BoxSpan (bs_kind s) (n + bs_start s) (n + bs_body s) (n + bs_end s) (bs_to_end s).
Definition shift_box (n : nat) (x : WalkError + BoxSpan) : WalkError + BoxSpan :=
  match x with inl e => inl (shift_error n e) | inr s => inr (shift_span n s) end.

Lemma get_from_skip {A} (pre rest : list A) n : get_from (length pre + n) (pre ++ rest) = get_from n rest.
Proof.
  unfold get_from. rewrite length_app. destruct (n <=? length rest)%nat eqn:E.
  - apply Nat.leb_le in E. rewrite (proj2 (Nat.leb_le _ _)) by lia. by rewrite drop_app_add.
  - apply Nat.leb_gt in E. by rewrite (proj2 (Nat.leb_gt _ _)) by lia.
Qed.

Lemma be_value_nonneg l : bytes_ok l -> 0 <= be_value l.
Proof. intros H. apply (be_value_range l H). Qed.

Lemma checked_add_pos (n : nat) x :
  0 <= x -> checked_u 64 (Z.of_nat n + x) = if Z.of_nat n + x <? 2 ^ 64 then Some (Z.of_nat n + x) else None.
Proof. intros Hx. unfold checked_u. by rewrite (proj2 (Z.leb_le _ _)) by lia. Qed.

Lemma eight_at_app pre rest n : eight_at (length pre + n) (pre ++ rest) = eight_at n rest.
Proof. unfold eight_at. by rewrite get_from_skip. Qed.

Lemma eight_at_Some n l h : eight_at n l = Some h -> (n + 8 <= length l)%nat /\ h = take 8 (drop n l).
Proof.
  unfold eight_at, get_from. destruct (n <=? length l)%nat eqn:E; [|done]. cbn. unfold first_chunk, get_to.
  destruct (8 <=? length (drop n l))%nat eqn:E2; [|done]. intros [= <-].
  apply Nat.leb_le in E, E2. rewrite length_drop in E2. split; [lia|done].
Qed.

Lemma eight_at_ok n l h : bytes_ok l -> eight_at n l = Some h -> bytes_ok h.
Proof. intros Hb [_ ->]%eight_at_Some. by apply Forall_take, Forall_drop. Qed.

Lemma box_span_shift n len kind offset size32 size hl :
  Z.of_nat (n + len) < 2 ^ 63 -> (offset <= len)%nat -> 0 <= size -> hl = 8 \/ hl = 16 ->
  box_span (n + len) kind (n + offset) size32 size hl = shift_box n (box_span len kind offset size32 size hl).
Proof.
  intros Hl Hn Hs Hhl. unfold box_span. rewrite !checked_add_pos by (destruct Hhl; lia).
  change (2 ^ 64) with 18446744073709551616. change (2 ^ 63) with 9223372036854775808 in Hl.
  assert (0 <= hl <= 16) by (destruct Hhl; lia). clear Hhl.
  rewrite (proj2 (Z.ltb_lt (Z.of_nat (n + offset) + hl) _)) by lia.
  rewrite (proj2 (Z.ltb_lt (Z.of_nat offset + hl) _)) by lia.
  destruct (size32 =? 0).
  { unfold shift_box, shift_span. cbn. do 2 f_equal; lia. }
  destruct (size <? hl) eqn:Ehl; [done|].
  destruct (decide (Z.of_nat offset + size <= Z.of_nat len)) as [Hle|Hgt].
  - rewrite (proj2 (Z.ltb_lt (Z.of_nat (n + offset) + size) _)) by lia.
    rewrite (proj2 (Z.ltb_lt (Z.of_nat offset + size) _)) by lia.
    rewrite (proj2 (Z.leb_le (Z.of_nat (n + offset) + size) _)) by lia.
    rewrite (proj2 (Z.leb_le (Z.of_nat offset + size) _)) by lia.
    unfold shift_box, shift_span. cbn. do 2 f_equal; lia.
  - destruct (Z.of_nat (n + offset) + size <? _), (Z.of_nat offset + size <? _);
      rewrite ?(proj2 (Z.leb_gt (Z.of_nat (n + offset) + size) _)) by lia;
      rewrite ?(proj2 (Z.leb_gt (Z.of_nat offset + size) _)) by lia; done.
Qed.

Lemma read_box_shift pre rest n :
  slice_ok (pre ++ rest) -> bytes_ok rest -> (n <= length rest)%nat ->
  read_box (pre ++ rest) (length pre + n) = shift_box (length pre) (read_box rest n).
Proof.
  intros Hl Hb Hn. unfold read_box. rewrite <- Nat.add_assoc, !eight_at_app, length_app.
  destruct (eight_at n rest) as [h|] eqn:Hh; [|done]. pose proof (eight_at_ok _ _ _ Hb Hh) as Hhb.
  unfold slice_ok, zlen in Hl. rewrite length_app in Hl.
  assert (0 <= be_value (take 4 h)) by (by apply be_value_nonneg, Forall_take).
  destruct (be_value (take 4 h) =? 1).
  - destruct (eight_at (n + 8) rest) as [g|] eqn:Hg; [|done].
    apply box_span_shift; [done|done| |by right]. apply be_value_nonneg. exact (eight_at_ok _ _ _ Hb Hg).
  - apply box_span_shift; [done|done|done|by left].
Qed.

(** *** A box at the front *)

Lemma eight_at_0 a rest : length a = 8%nat -> eight_at 0 (a ++ rest) = Some a.
Proof.
  intros Ha. unfold eight_at, get_from. cbn. unfold first_chunk, get_to. rewrite drop_0, length_app, Ha.
  by rewrite take_app_length'.
Qed.

Lemma size_bytes n x : 0 <= x < 2 ^ (8 * Z.of_nat n) -> be_value (to_be_bytes n x) = x.
Proof. intros H. by apply be_value_to_be_bytes_id. Qed.

Lemma read_box_encode b rest :
  box_ok b -> slice_ok (encode_box b ++ rest) ->
  read_box (encode_box b ++ rest) 0 = inr (span_of 0 b).
Proof.
  intros [Hk Hs] Hl. unfold slice_ok, zlen in Hl. rewrite length_app, encode_box_length in Hl by done.
  change (2 ^ 63) with 9223372036854775808 in Hl. unfold read_box, span_of. rewrite (encode_box_length b Hk), length_app.
  rewrite (encode_box_length b Hk). unfold encode_box, header_len in *. destruct (mb_large b) eqn:Hlg.
  - set (size := Z.of_nat 16 + zlen (mb_data b)). rewrite <- !app_assoc, (app_assoc (to_be_bytes 4 1)).
    rewrite eight_at_0 by (rewrite length_app, length_to_be_bytes, Hk; done).
    rewrite take_app_length', drop_app_length' by (by rewrite length_to_be_bytes).
    change (be_value (to_be_bytes 4 1)) with 1. cbn [Z.eqb Pos.eqb].
    replace (0 + 8)%nat with (length (to_be_bytes 4 1 ++ mb_kind b) + 0)%nat
      by (rewrite length_app, length_to_be_bytes, Hk; done).
    rewrite eight_at_app, eight_at_0 by (by rewrite length_to_be_bytes).
    assert (Hsz : size = 16 + Z.of_nat (length (mb_data b))) by done.
    rewrite size_bytes by (change (2 ^ (8 * Z.of_nat 8)) with 18446744073709551616; lia).
    unfold box_span. rewrite !checked_u_Some by (unfold in_u; change (2 ^ 64) with 18446744073709551616; lia).
    cbn [Z.eqb]. rewrite (proj2 (Z.ltb_ge _ _)) by lia. rewrite (proj2 (Z.leb_le _ _)) by lia.
    do 2 f_equal; lia.
  - set (size := Z.of_nat 8 + zlen (mb_data b)). assert (Hsz : size = 8 + Z.of_nat (length (mb_data b))) by done.
    specialize (Hs eq_refl). unfold zlen in Hs. change (2 ^ 32) with 4294967296 in Hs.
    rewrite <- !app_assoc, (app_assoc (to_be_bytes 4 size)).
    rewrite eight_at_0 by (rewrite length_app, length_to_be_bytes, Hk; done).
    rewrite take_app_length', drop_app_length' by (by rewrite length_to_be_bytes).
    rewrite size_bytes by (change (2 ^ (8 * Z.of_nat 4)) with 4294967296; lia).
    rewrite (proj2 (Z.eqb_neq _ _)) by lia.
    unfold box_span. rewrite !checked_u_Some by (unfold in_u; change (2 ^ 64) with 18446744073709551616; lia).
    rewrite (proj2 (Z.eqb_neq _ _)) by lia. rewrite (proj2 (Z.ltb_ge _ _)) by lia.
    rewrite (proj2 (Z.leb_le _ _)) by lia. do 2 f_equal; lia.
Qed.

Lemma to_be_bytes_be_value l : bytes_ok l -> to_be_bytes (length l) (be_value l) = l.
Proof.
  intros Hb. induction l as [|b l IH] using rev_ind; [done|]. apply Forall_app in Hb as [Hl Hb].
  apply Forall_cons in Hb as [Hb _]. rewrite length_app, Nat.add_comm. cbn [length plus].
  rewrite to_be_bytes_snoc, be_value_snoc. unfold in_u in Hb.
  pose proof (be_value_nonneg l Hl). rewrite lor_shiftl_add by lia.
  f_equal; [|f_equal].
  - rewrite Z.shiftr_div_pow2, Z.div_add_l, Z.div_small, Z.add_0_r by (done || lia). by apply IH.
  - unfold wrapu. rewrite Z.add_comm, Z.mod_add by lia.
    by apply Z.mod_small.
Qed.

Lemma split_bytes n (l : bytes) : (n <= length l)%nat -> l = take n l ++ drop n l /\ length (take n l) = n.
Proof. intros H. rewrite take_drop, length_take. split; [done|lia]. Qed.

Lemma box_span_inv len kind offset size32 size hl span :
  0 <= hl -> 0 <= size -> box_span len kind offset size32 size hl = inr span ->
  (size32 = 0 /\ span = mk_BoxSpan kind offset (offset + Z.to_nat hl) len true) \/
  (size32 <> 0 /\ hl <= size /\ Z.of_nat offset + size <= Z.of_nat len /\
   span = mk_BoxSpan kind offset (offset + Z.to_nat hl) (offset + Z.to_nat size) false).
Proof.
  intros H1 H2. unfold box_span. destruct (checked_u 64 (Z.of_nat offset + hl)) as [he|] eqn:Hc; [|done].
  apply checked_u_inv in Hc as [-> _]. destruct (size32 =? 0) eqn:E0.
  { intros [= <-]. left. split; [lia|]. f_equal; lia. }
  destruct (size <? hl) eqn:Es; [done|].
  destruct (checked_u 64 (Z.of_nat offset + size)) as [en|] eqn:Hc2; [|done].
  apply checked_u_inv in Hc2 as [-> _]. destruct (_ <=? _) eqn:El; [|done]. intros [= <-]. right.
  split_and!; try lia. f_equal; lia.
Qed.

Lemma read_box_inv l span :
  bytes_ok l -> read_box l 0 = inr span ->
  (exists kind data, length kind = 4%nat /\ l = to_be_bytes 4 0 ++ kind ++ data /\
     span = mk_BoxSpan kind 0 8 (length l) true) \/
  (exists b rest, box_ok b /\ l = encode_box b ++ rest /\ span = span_of 0 b).
Proof.
  intros Hb. unfold read_box. destruct (eight_at 0 l) as [h|] eqn:Hh; [|done].
  apply eight_at_Some in Hh as [Hlen ->]. rewrite drop_0.
  set (k := drop 4 (take 8 l)). set (size32 := be_value (take 4 (take 8 l))).
  assert (Hk : length k = 4%nat) by (unfold k; rewrite length_drop, length_take; lia).
  assert (Hsplit : l = take 4 l ++ k ++ drop 8 l).
  { unfold k. rewrite <- (take_drop 4 l) at 1. f_equal. rewrite <- (take_drop 4 (drop 4 l)) at 1.
    rewrite drop_drop. f_equal. rewrite take_drop_commute. done. }
  assert (H32 : size32 = be_value (take 4 l)) by (unfold size32; by rewrite take_take).
  assert (Hsz : 0 <= size32 < 2 ^ 32).
  { rewrite H32. pose proof (be_value_range (take 4 l) ltac:(by apply Forall_take)) as Hr. unfold zlen in Hr.
    rewrite length_take, Nat.min_l in Hr by lia. done. }
  assert (Htk : take 4 l = to_be_bytes 4 size32).
  { rewrite H32. pose proof (to_be_bytes_be_value (take 4 l) ltac:(by apply Forall_take)) as Hr.
    rewrite length_take, Nat.min_l in Hr by lia. done. }
  destruct (size32 =? 1) eqn:E1.
  - destruct (eight_at (0 + 8) l) as [g|] eqn:Hg; [|done]. apply eight_at_Some in Hg as [Hlen2 ->]. change (0 + 8)%nat with 8%nat in *.
    pose proof (be_value_range (take 8 (drop 8 l)) ltac:(by apply Forall_take, Forall_drop)) as Hr.
    set (size := be_value (take 8 (drop 8 l))) in *. intros [[? _]|(_ & Hle & Hend & ->)]%box_span_inv; try lia.
    right. exists (mk_Mp4Box k true (take (Z.to_nat size - 16) (drop 16 l))), (drop (Z.to_nat size) l).
    assert (Hd : length (take (Z.to_nat size - 16) (drop 16 l)) = (Z.to_nat size - 16)%nat)
      by (rewrite length_take, length_drop; lia).
    assert (Henc : to_be_bytes 8 size = take 8 (drop 8 l)).
    { pose proof (to_be_bytes_be_value (take 8 (drop 8 l)) ltac:(by apply Forall_take, Forall_drop)) as Hq.
      rewrite length_take, length_drop, Nat.min_l in Hq by lia. done. }
    split_and!.
    + split; [done|]. done.
    + unfold encode_box. cbn [mb_large mb_kind mb_data header_len]. unfold zlen. rewrite Hd.
      replace (Z.of_nat 16 + Z.of_nat (Z.to_nat size - 16)) with size by lia.
      rewrite Henc, <- !app_assoc. rewrite Hsplit at 1. rewrite Htk. replace size32 with 1 by lia. f_equal. f_equal.
      rewrite <- (take_drop 8 (drop 8 l)) at 1. f_equal. rewrite drop_drop.
      rewrite <- (take_drop (Z.to_nat size - 16) (drop (8 + 8) l)) at 1. f_equal. rewrite drop_drop. f_equal. lia.
    + unfold span_of. rewrite encode_box_length by done. cbn [header_len mb_large mb_kind mb_data]. rewrite Hd.
      f_equal; lia.
  - intros [[H0 ->]|(H0 & Hle & Hend & ->)]%box_span_inv; try lia.
    + left. exists k, (drop 8 l). split_and!; [done| |done]. rewrite <- H0, <- Htk. exact Hsplit.
    + right. exists (mk_Mp4Box k false (take (Z.to_nat size32 - 8) (drop 8 l))), (drop (Z.to_nat size32) l).
      assert (Hd : length (take (Z.to_nat size32 - 8) (drop 8 l)) = (Z.to_nat size32 - 8)%nat)
        by (rewrite length_take, length_drop; lia).
      split_and!.
      * split; [done|]. intros _. unfold zlen. cbn [mb_data]. rewrite Hd. lia.
      * unfold encode_box. cbn [mb_large mb_kind mb_data header_len]. unfold zlen. rewrite Hd.
        replace (Z.of_nat 8 + Z.of_nat (Z.to_nat size32 - 8)) with size32 by lia.
        rewrite <- !app_assoc. rewrite Hsplit at 1. rewrite Htk. f_equal. f_equal.
        rewrite <- (take_drop (Z.to_nat size32 - 8) (drop 8 l)) at 1. f_equal. rewrite drop_drop. f_equal. lia.
      * unfold span_of. rewrite encode_box_length by done. cbn [header_len mb_large mb_kind mb_data]. rewrite Hd.
        f_equal; lia.
Qed.

(** ** Children *)

Definition to_opt {A} (x : WalkError + A) : option A := match x with inl _ => None | inr a => Some a end.

Definition encode_boxes (bs : list Mp4Box) : bytes := concat (map encode_box bs).

Lemma encode_boxes_app a b : encode_boxes (a ++ b) = encode_boxes a ++ encode_boxes b.
Proof. unfold encode_boxes. by rewrite map_app, concat_app. Qed.

Lemma encode_box_pos b : box_ok b -> (8 <= length (encode_box b))%nat.
Proof. intros [Hk _]. rewrite encode_box_length by done. unfold header_len. case_match; lia. Qed.

Lemma slice_box pre b rest :
  box_ok b -> slice (length pre + header_len b) (length pre + length (encode_box b)) (pre ++ encode_box b ++ rest) = mb_data b.
Proof.
  intros [Hk _]. unfold slice, get_range. rewrite !length_app, encode_box_length by done.
  rewrite (proj2 (Nat.leb_le _ _)) by lia. rewrite (proj2 (Nat.leb_le _ _)) by lia. cbn [andb default].
  rewrite drop_app_add. replace (_ - _)%nat with (length (mb_data b)) by lia.
  unfold encode_box, header_len. destruct (mb_large b).
  - rewrite <- !app_assoc, (app_assoc (mb_kind b)), (app_assoc (to_be_bytes 4 _)).
    rewrite drop_app_length' by (rewrite !length_app, !length_to_be_bytes; lia). by rewrite take_app_length.
  - rewrite <- !app_assoc, (app_assoc (to_be_bytes 4 _)).
    rewrite drop_app_length' by (rewrite !length_app, !length_to_be_bytes; lia). by rewrite take_app_length.
Qed.

Lemma read_box_app_encode pre b rest :
  box_ok b -> bytes_ok (encode_box b ++ rest) -> slice_ok (pre ++ encode_box b ++ rest) ->
  read_box (pre ++ encode_box b ++ rest) (length pre) = inr (span_of (length pre) b).
Proof.
  intros Hb Hbytes Hl. pose proof (read_box_shift pre (encode_box b ++ rest) 0 Hl Hbytes ltac:(lia)) as Hs.
  rewrite Nat.add_0_r in Hs. rewrite Hs, read_box_encode; [|done|].
  - cbn. unfold span_of, shift_span. cbn. do 2 f_equal. lia.
  - unfold slice_ok, zlen in *. rewrite !length_app in *. lia.
Qed.

Lemma read_box_app_inv pre rest span :
  bytes_ok rest -> slice_ok (pre ++ rest) -> read_box (pre ++ rest) (length pre) = inr span ->
  (exists kind data, length kind = 4%nat /\ rest = to_be_bytes 4 0 ++ kind ++ data /\
     span = mk_BoxSpan kind (length pre) (length pre + 8) (length (pre ++ rest)) true) \/
  (exists b rest', box_ok b /\ rest = encode_box b ++ rest' /\ span = span_of (length pre) b).
Proof.
  intros Hbytes Hl Hs. pose proof (read_box_shift pre rest 0 Hl Hbytes ltac:(lia)) as Hsh.
  rewrite Nat.add_0_r, Hs in Hsh. destruct (read_box rest 0) as [e|s0] eqn:Hr; [done|]. cbn in Hsh.
  injection Hsh as ->. destruct (read_box_inv _ _ Hbytes Hr) as [(k & d & Hk & Hd & ->)|(b & rest' & Hb & Hd & ->)].
  - left. exists k, d. split_and!; try done. unfold shift_span. cbn. rewrite length_app. f_equal. lia.
  - right. exists b, rest'. split_and!; try done. unfold span_of, shift_span. cbn. f_equal. lia.
Qed.

Lemma encode_box_inj b r b' r' :
  box_ok b -> box_ok b' -> slice_ok (encode_box b ++ r) ->
  encode_box b ++ r = encode_box b' ++ r' -> b = b' /\ r = r'.
Proof.
  intros Hb Hb' Hl He. pose proof (read_box_encode b r Hb Hl) as H1.
  pose proof (slice_box [] b r Hb) as H2. pose proof (slice_box [] b' r' Hb') as H3. cbn [app length] in *.
  rewrite He in H1, H2, Hl. rewrite (read_box_encode b' r' Hb' Hl) in H1. injection H1 as Hk Hh Hn.
  rewrite Hh, Hn in H3. rewrite H2 in H3. apply app_inj_1 in He as [_ Hr]; [|done]. split; [|done].
  destruct b as [k lg d], b' as [k' lg' d']. cbn in *. subst. f_equal. unfold header_len in Hh. cbn in Hh.
  by destruct lg, lg'.
Qed.

Section ChildSpec.
Context {S : Type} (visit : BoxSpan -> bytes -> S -> Z -> WalkError + (S * Z)).
(** What the visit does with a box, where it lies aside. *)
Context (effect : Mp4Box -> S -> Z -> option (S * Z)).
Context (visit_effect : forall n b s w, to_opt (visit (span_of n b) (mb_data b) s w) = effect b s w).

Fixpoint fold_boxes (bs : list Mp4Box) (s : S) (walked : Z) : option (S * Z) :=
  match bs with
  | [] => Some (s, walked)
  | b :: bs' =>
      if MAX_BOXES <? walked + 1 then None
      else '(s, walked) ← effect b s (walked + 1); fold_boxes bs' s walked
  end.

Lemma count_box_spec w :
  0 <= w <= MAX_BOXES -> to_opt (count_box w) = if MAX_BOXES <? w + 1 then None else Some (w + 1).
Proof.
  intros Hw. unfold count_box, MAX_BOXES, sat_u in *. change (2 ^ 64 - 1) with 18446744073709551615.
  replace (0 `max` ((w + 1) `min` 18446744073709551615)) with (w + 1) by lia. by case_match.
Qed.

Context (effect_bound : forall b s w s' w', 0 <= w <= MAX_BOXES -> effect b s w = Some (s', w') -> w <= w' <= MAX_BOXES).

Lemma child_loop_boxes fuel : forall pre rest s w r,
  slice_ok (pre ++ rest) -> bytes_ok rest -> 0 <= w <= MAX_BOXES -> (length rest <= fuel)%nat ->
  to_opt (for_each_child_loop visit fuel (pre ++ rest) (length pre) s w) = Some r <->
  exists bs, Forall box_ok bs /\ rest = encode_boxes bs /\ fold_boxes bs s w = Some r.
Proof using visit_effect effect_bound.
  induction fuel as [|fuel IH]; intros pre rest s w r Hl Hb Hw Hf; cbn [for_each_child_loop]; rewrite length_app.
  - destruct rest; [|cbn in Hf; lia]. rewrite (proj2 (Nat.leb_le _ _)) by (cbn; lia). cbn. split.
    + intros [= <-]. by exists [].
    + intros (bs & Hok & He & Hr). destruct bs as [|b bs]; [done|]. apply Forall_cons in Hok as [Hok _].
      apply encode_box_pos in Hok. apply (f_equal length) in He. cbn in He. rewrite length_app in He. lia.
  - destruct (decide (rest = [])) as [->|Hne].
    { rewrite (proj2 (Nat.leb_le _ _)) by (cbn; lia). cbn. split.
      - intros [= <-]. by exists [].
      - intros (bs & Hok & He & Hr). destruct bs as [|b bs]; [done|]. apply Forall_cons in Hok as [Hok _].
        apply encode_box_pos in Hok. apply (f_equal length) in He. cbn in He. rewrite length_app in He. lia. }
    assert (0 < length rest)%nat by (destruct rest; [done|cbn; lia]).
    rewrite (proj2 (Nat.leb_gt _ _)) by lia. pose proof (count_box_spec w Hw) as Hc.
    destruct (count_box w) as [e|w1]; cbn in Hc.
    { cbn. split; [done|]. intros (bs & Hok & He & Hr). destruct bs as [|b bs]; [done|]. cbn in Hr.
      by case_match. }
    case_match eqn:Hm; [done|]. injection Hc as ->.
    destruct (read_box (pre ++ rest) (length pre)) as [e|span] eqn:Hr.
    { cbn. split; [done|]. intros (bs & Hok & He & _). destruct bs as [|b bs]; [done|].
      apply Forall_cons in Hok as [Hok _]. change (encode_boxes (b :: bs)) with (encode_box b ++ encode_boxes bs) in He.
      subst rest. rewrite read_box_app_encode in Hr by done. done. }
    destruct (read_box_app_inv _ _ _ Hb Hl Hr) as [(k & d & Hk & Hd & ->)|(b & rest' & Hbok & -> & ->)].
    { cbn. split; [done|]. intros (bs & Hok & He & _). destruct bs as [|b bs]; [by rewrite He in Hne|].
      apply Forall_cons in Hok as [Hok _]. change (encode_boxes (b :: bs)) with (encode_box b ++ encode_boxes bs) in He.
      subst rest. rewrite He in Hr, Hb, Hl. by rewrite read_box_app_encode in Hr by done. }
    cbn [bs_to_end span_of bs_body bs_end bs_kind]. rewrite slice_box by done.
    pose proof (visit_effect (length pre) b s (w + 1)) as Hv.
    assert (Hstep : forall s' w', effect b s (w + 1) = Some (s', w') ->
      to_opt (for_each_child_loop visit fuel (pre ++ encode_box b ++ rest') (length pre + length (encode_box b)) s' w') = Some r <->
      exists bs, Forall box_ok bs /\ rest' = encode_boxes bs /\ fold_boxes bs s' w' = Some r).
    { intros s' w' He. pose proof (effect_bound b s (w + 1) s' w' ltac:(lia) He).
      rewrite app_assoc, <- length_app. rewrite app_assoc in Hl. apply Forall_app in Hb as [_ Hb].
      apply IH; [done|done|lia|]. rewrite length_app in Hf. apply encode_box_pos in Hbok. lia. }
    assert (Hfirst : forall bs, Forall box_ok bs -> encode_box b ++ rest' = encode_boxes bs ->
              exists bs', bs = b :: bs' /\ rest' = encode_boxes bs').
    { intros bs Hok He. destruct bs as [|b' bs]; [by rewrite He in Hne|]. apply Forall_cons in Hok as [Hok _].
      change (encode_boxes (b' :: bs)) with (encode_box b' ++ encode_boxes bs) in He.
      apply encode_box_inj in He as [-> ->]; [by eexists|done|done|].
      unfold slice_ok, zlen in *. rewrite !length_app in *. lia. }
    destruct (visit (span_of (length pre) b) (mb_data b) s (w + 1)) as [e|[s' w']]; cbn in Hv.
    + cbn. split; [done|]. intros (bs & Hok & He & Hfold). destruct (Hfirst bs Hok He) as (bs' & -> & _).
      cbn in Hfold. by rewrite Hm, <- Hv in Hfold.
    + rewrite (Hstep s' w') by done. split.
      * intros (bs & Hok & -> & Hfold). exists (b :: bs). split_and!; [by constructor|done|].
        cbn [fold_boxes]. by rewrite Hm, <- Hv.
      * intros (bs & Hok & He & Hfold). destruct (Hfirst bs Hok He) as (bs' & -> & ->).
        apply Forall_cons in Hok as [_ Hok]. exists bs'. split_and!; [done|done|].
        cbn [fold_boxes] in Hfold. by rewrite Hm, <- Hv in Hfold.
Qed.

Lemma for_each_child_boxes payload s w r :
  slice_ok payload -> bytes_ok payload -> 0 <= w <= MAX_BOXES ->
  to_opt (for_each_child visit payload s w) = Some r <->
  exists bs, Forall box_ok bs /\ payload = encode_boxes bs /\ fold_boxes bs s w = Some r.
Proof using visit_effect effect_bound. intros Hl Hb Hw. by apply (child_loop_boxes (length payload) [] payload). Qed.
End ChildSpec.

(** ** Track fragments *)

Definition is_kind (k : bytes) (b : Mp4Box) : bool := bool_decide (mb_kind b = k).
Definition tfhd_flags (b : Mp4Box) : Z := be_value (drop 1 (take 4 (mb_data b))).
Definition traf_child_ok (b : Mp4Box) : Prop :=
  (mb_kind b = k_tfhd -> (4 <= length (mb_data b))%nat /\ tfhd_flags b .& TFHD_BASE_DATA_OFFSET_PRESENT = 0) /\
  (mb_kind b = k_trun -> (8 <= length (mb_data b))%nat).
Definition run_samples (b : Mp4Box) : Z :=
  if is_kind k_trun b then be_value (take 4 (drop 4 (mb_data b))) else 0.

Definition sum (l : list Z) : Z := fold_right Z.add 0 l.
Lemma zsum_cons x l : sum (x :: l) = x + sum l.
Proof. done. Qed.
Lemma zsum_app a b : sum (a ++ b) = sum a + sum b.
Proof. induction a as [|x a IH]; [done|]. unfold sum in *. cbn [app fold_right]. lia. Qed.
Lemma sum_nonneg l : Forall (Z.le 0) l -> 0 <= sum l.
Proof. induction 1 as [|x l Hx Hl IH]; unfold sum in *; cbn [fold_right]; lia. Qed.

Definition box_bytes_ok (b : Mp4Box) : Prop := bytes_ok (mb_data b) /\ slice_ok (mb_data b).

Lemma run_samples_nonneg b : box_bytes_ok b -> 0 <= run_samples b.
Proof.
  intros [Hb _]. unfold run_samples. case_match; [|done]. by apply be_value_nonneg, Forall_take, Forall_drop.
Qed.

Definition traf_effect (b : Mp4Box) (s : bool * Z) (w : Z) : option (bool * Z * Z) :=
  to_opt (visit_traf_child (span_of 0 b) (mb_data b) s w).

Lemma visit_traf_effect n b s w : to_opt (visit_traf_child (span_of n b) (mb_data b) s w) = traf_effect b s w.
Proof. unfold traf_effect, visit_traf_child. destruct s. cbn. by repeat case_match. Qed.

Lemma traf_effect_walked b s w s' w' : traf_effect b s w = Some (s', w') -> w' = w.
Proof. unfold traf_effect, visit_traf_child. destruct s. repeat case_match; cbn; intros; by simplify_eq. Qed.

Lemma traf_effect_spec b has samples w s' :
  box_bytes_ok b -> 0 <= samples <= MAX_SEGMENT_SAMPLES ->
  traf_effect b (has, samples) w = Some (s', w) <->
  traf_child_ok b /\ samples + run_samples b <= MAX_SEGMENT_SAMPLES /\
  s' = (has || is_kind k_tfdt b, samples + run_samples b).
Proof.
  intros Hb Hs. pose proof (run_samples_nonneg b Hb) as Hn.
  unfold traf_effect, visit_traf_child, traf_child_ok, run_samples, is_kind in *. cbn [bs_kind span_of].
  destruct (bool_decide_reflect (mb_kind b = k_tfdt)) as [->|H1].
  { rewrite orb_true_r. rewrite bool_decide_false in * by done. cbn [to_opt]. rewrite Z.add_0_r in *.
    split; [intros [= <-]; split_and!; try done; lia|by intros (_ & _ & ->)]. }
  rewrite orb_false_r. destruct (bool_decide_reflect (mb_kind b = k_tfhd)) as [->|H2].
  { rewrite bool_decide_false in * by done. rewrite Z.add_0_r in *. unfold first_chunk, get_to, tfhd_flags.
    destruct (4 <=? length (mb_data b))%nat eqn:E.
    - apply Nat.leb_le in E. destruct (_ .& _ =? 0) eqn:Ef; cbn [negb to_opt].
      + apply Z.eqb_eq in Ef. split; [intros [= <-]; split_and!; try done; lia|by intros (_ & _ & ->)].
      + apply Z.eqb_neq in Ef. split; [done|]. intros ([Hf _] & _). by destruct (Hf eq_refl).
    - apply Nat.leb_gt in E. cbn [to_opt]. split; [done|]. intros ([Hf _] & _). destruct (Hf eq_refl). lia. }
  destruct (bool_decide_reflect (mb_kind b = k_trun)) as [->|H3].
  { unfold get_range. change (4 <=? 8)%nat with true. rewrite andb_true_l. change (8 - 4)%nat with 4%nat.
    destruct (8 <=? length (mb_data b))%nat eqn:E.
    - apply Nat.leb_le in E. assert (Hsat : sat_u 64 (samples + be_value (take 4 (drop 4 (mb_data b)))) =
        Z.min (samples + be_value (take 4 (drop 4 (mb_data b)))) (2 ^ 64 - 1)) by (unfold sat_u; lia).
      rewrite Hsat. unfold MAX_SEGMENT_SAMPLES in *. change (2 ^ 64 - 1) with 18446744073709551615.
      destruct (_ <? _) eqn:El; cbn [to_opt].
      + split; [done|]. intros (_ & Hle & _). lia.
      + rewrite Z.min_l by lia. split; [intros [= <-]; split_and!; try done; lia|by intros (_ & _ & ->)].
    - apply Nat.leb_gt in E. cbn [to_opt]. split; [done|]. intros ([_ Hf] & _). specialize (Hf eq_refl). lia. }
  cbn [to_opt]. rewrite Z.add_0_r in *. split; [intros [= <-]; split_and!; try done; lia|by intros (_ & _ & ->)].
Qed.

Lemma traf_fold_spec bs : forall has samples w r,
  Forall box_bytes_ok bs -> 0 <= samples <= MAX_SEGMENT_SAMPLES -> 0 <= w <= MAX_BOXES ->
  fold_boxes traf_effect bs (has, samples) w = Some r <->
  Forall traf_child_ok bs /\ samples + sum (map run_samples bs) <= MAX_SEGMENT_SAMPLES /\
  w + zlen bs <= MAX_BOXES /\
  r = (has || existsb (is_kind k_tfdt) bs, samples + sum (map run_samples bs), w + zlen bs).
Proof.
  induction bs as [|b bs IH]; intros has samples w r Hb Hs Hw.
  { cbn. rewrite orb_false_r, !Z.add_0_r. split; [intros [= <-]; split_and!; try done; lia|by intros (_ & _ & _ & ->)]. }
  apply Forall_cons in Hb as [Hb Hbs]. pose proof (run_samples_nonneg b Hb).
  assert (0 <= sum (map run_samples bs)).
  { apply sum_nonneg, Forall_map. eapply Forall_impl; [exact Hbs|]. apply run_samples_nonneg. }
  cbn [fold_boxes map existsb]. rewrite zlen_cons, zsum_cons, Forall_cons. pose proof (zlen_nonneg bs).
  replace (w + (zlen bs + 1)) with (w + 1 + zlen bs) by lia.
  destruct (MAX_BOXES <? w + 1) eqn:Hm; [split; [done|intros (_ & _ & Hle & _); lia]|].
  destruct (traf_effect b (has, samples) (w + 1)) as [[s' w']|] eqn:He; cbn [mbind option_bind].
  - pose proof (traf_effect_walked _ _ _ _ _ He) as ->. apply traf_effect_spec in He as (Hok & Hle & ->); [|done|done].
    rewrite IH by (done || lia). rewrite !Z.add_assoc, orb_assoc.
    split; [intros (? & ? & ? & ->); split_and!; done|intros ((_ & ?) & ? & ? & ->); split_and!; done].
  - split; [done|]. intros ((Hok & _) & Hle & Hwle & _).
    assert (Hx : traf_effect b (has, samples) (w + 1) = Some ((has || is_kind k_tfdt b, samples + run_samples b), w + 1)).
    { apply traf_effect_spec; try done. split_and!; try done. lia. }
    congruence.
Qed.

(** ** Movie fragments *)

(** A child of a [moof]: a box of another kind, or a [traf] with its children. *)
Inductive MoofChild := MPlain (b : Mp4Box) | MTraf (large : bool) (boxes : list Mp4Box).

Definition child_box (c : MoofChild) : Mp4Box :=
  match c with MPlain b => b | MTraf large bs => mk_Mp4Box k_traf large (encode_boxes bs) end.
Definition child_ok (c : MoofChild) : Prop :=
  box_ok (child_box c) /\
  match c with
  | MPlain b => mb_kind b <> k_traf
  | MTraf _ bs => Forall box_ok bs /\ Forall traf_child_ok bs /\ existsb (is_kind k_tfdt) bs = true
  end.
Definition child_walks (c : MoofChild) : Z := match c with MPlain _ => 1 | MTraf _ bs => 1 + zlen bs end.
Definition child_samples (c : MoofChild) : Z :=
  match c with MPlain _ => 0 | MTraf _ bs => sum (map run_samples bs) end.

Lemma encode_box_data_ok b l : length (mb_kind b) = 4%nat ->
  bytes_ok (encode_box b ++ l) -> slice_ok (encode_box b ++ l) -> box_bytes_ok b.
Proof.
  intros Hk Hb Hl. split.
  - apply Forall_app in Hb as [Hb _]. unfold encode_box in Hb. destruct (mb_large b).
    + by apply Forall_app in Hb as [_ [_ [_ Hb]%Forall_app]%Forall_app].
    + by apply Forall_app in Hb as [_ [_ Hb]%Forall_app].
  - unfold slice_ok, zlen in *. rewrite length_app, encode_box_length in Hl by done. lia.
Qed.

Lemma encode_boxes_data_ok bs l :
  Forall box_ok bs -> bytes_ok (encode_boxes bs ++ l) -> slice_ok (encode_boxes bs ++ l) -> Forall box_bytes_ok bs.
Proof.
  induction 1 as [|b bs Hb Hbs IH]; [constructor|]. change (encode_boxes (b :: bs)) with (encode_box b ++ encode_boxes bs).
  rewrite <- app_assoc. intros Hl Hs. constructor; [eapply encode_box_data_ok; [apply Hb|done|done]|].
  apply IH; [by apply Forall_app in Hl as [_ Hl]|]. unfold slice_ok, zlen in *. rewrite length_app in Hs. lia.
Qed.

Lemma child_loop_walked {S} visit fuel payload :
  (forall n body s w (s' : S) w', 0 <= w <= MAX_BOXES -> visit n body s w = inr (s', w') -> w <= w' <= MAX_BOXES) ->
  forall offset s w s' w', 0 <= w <= MAX_BOXES ->
  for_each_child_loop visit fuel payload offset s w = inr (s', w') -> w <= w' <= MAX_BOXES.
Proof.
  intros Hv. induction fuel as [|fuel IH]; intros offset s w s' w' Hw; cbn [for_each_child_loop].
  { case_match; intros; simplify_eq. lia. }
  case_match; [intros; simplify_eq; lia|]. destruct (count_box w) as [e|w1] eqn:Hc; [done|].
  destruct (read_box payload offset) as [e|span]; [done|]. destruct (bs_to_end span); [done|].
  pose proof (count_box_spec w Hw) as Hcs. rewrite Hc in Hcs. cbn in Hcs. case_match eqn:Hm; [done|]. injection Hcs as ->.
  destruct (visit _ _ s (w + 1)) as [e|[s1 w1]] eqn:Hvis; [done|]. apply Hv in Hvis; [|lia].
  intros Hl. apply IH in Hl; lia.
Qed.

Lemma visit_traf_walked n body s w s' w' :
  0 <= w <= MAX_BOXES -> visit_traf_child n body s w = inr (s', w') -> w <= w' <= MAX_BOXES.
Proof.
  intros Hw. unfold visit_traf_child. destruct s. repeat case_match; intros; simplify_eq; lia.
Qed.

Definition moof_effect (b : Mp4Box) (samples : Z) (w : Z) : option (Z * Z) :=
  to_opt (visit_moof_child (span_of 0 b) (mb_data b) samples w).

Lemma visit_moof_effect n b s w : to_opt (visit_moof_child (span_of n b) (mb_data b) s w) = moof_effect b s w.
Proof. done. Qed.

Lemma visit_moof_walked n body s w s' w' :
  0 <= w <= MAX_BOXES -> visit_moof_child n body s w = inr (s', w') -> w <= w' <= MAX_BOXES.
Proof.
  intros Hw. unfold visit_moof_child. case_match; [intros; simplify_eq; lia|].
  destruct (for_each_child _ _ _ _) as [e|[[has samples] w1]] eqn:Hf; [done|]. case_match; [|done].
  intros; simplify_eq. eapply (child_loop_walked visit_traf_child); [|done|exact Hf]. apply visit_traf_walked.
Qed.

Lemma moof_effect_walked b s w s' w' :
  0 <= w <= MAX_BOXES -> moof_effect b s w = Some (s', w') -> w <= w' <= MAX_BOXES.
Proof.
  intros Hw. unfold moof_effect. destruct (visit_moof_child _ _ _ _) as [e|[s1 w1]] eqn:Hv; [done|].
  cbn. intros; simplify_eq. by eapply visit_moof_walked.
Qed.

Lemma traf_effect_bound b s w s' w' :
  0 <= w <= MAX_BOXES -> traf_effect b s w = Some (s', w') -> w <= w' <= MAX_BOXES.
Proof. intros Hw ->%traf_effect_walked. lia. Qed.

Lemma moof_effect_spec b samples w r :
  box_ok b -> box_bytes_ok b -> 0 <= samples <= MAX_SEGMENT_SAMPLES -> 0 <= w <= MAX_BOXES ->
  moof_effect b samples w = Some r <->
  exists c, child_box c = b /\ child_ok c /\ samples + child_samples c <= MAX_SEGMENT_SAMPLES /\
    w + (child_walks c - 1) <= MAX_BOXES /\ r = (samples + child_samples c, w + (child_walks c - 1)).
Proof.
  intros Hok [Hbytes Hsl] Hs Hw. unfold moof_effect, visit_moof_child. cbn [bs_kind span_of].
  destruct (bool_decide_reflect (mb_kind b = k_traf)) as [Hk|Hk]; cbn [negb].
  - pose proof (for_each_child_boxes visit_traf_child traf_effect visit_traf_effect
      (fun b s w s' w' => traf_effect_bound b s w s' w') (mb_data b) (false, samples) w) as Hspec.
    assert (Hfold : forall bs, Forall box_ok bs -> mb_data b = encode_boxes bs -> Forall box_bytes_ok bs).
    { intros bs Hbs He. eapply (encode_boxes_data_ok bs []); [done|..]; by rewrite app_nil_r, <- He. }
    split.
    + destruct (for_each_child _ _ _ _) as [e|[[has samples'] w']] eqn:Hf; [done|].
      destruct has; [|done]. intros [= <-].
      destruct (proj1 (Hspec (true, samples', w') Hsl Hbytes Hw)) as (bs & Hbs & He & Hfb); [done|].
      apply traf_fold_spec in Hfb as (Hc & Hle & Hwle & Hr); [|by apply Hfold|done|done].
      cbn [orb] in Hr. injection Hr as Hhas -> ->. exists (MTraf (mb_large b) bs). cbn [child_box child_samples child_walks].
      assert (Hb : mk_Mp4Box k_traf (mb_large b) (encode_boxes bs) = b) by (rewrite <- Hk, <- He; by destruct b).
      split_and!; try done; [split; [cbn [child_box]; by rewrite Hb|done]|lia|]. f_equal. lia.
    + intros (c & Hcb & [_ Hcok] & Hle & Hwle & ->). destruct c as [b'|lg bs]; [cbn in Hcb; congruence|].
      destruct Hcok as (Hbs & Htc & Hhas). cbn [child_samples child_walks] in *.
      assert (He : mb_data b = encode_boxes bs) by (by rewrite <- Hcb).
      assert (Hx : to_opt (for_each_child visit_traf_child (mb_data b) (false, samples) w) =
                   Some (true, samples + sum (map run_samples bs), w + zlen bs)).
      { apply Hspec; try done. exists bs. split_and!; try done. apply traf_fold_spec; [by apply Hfold|done|done|].
        cbn [orb]. rewrite Hhas. split_and!; try done. lia. }
      destruct (for_each_child _ _ _ _) as [e|r']; [done|]. injection Hx as ->. cbn. do 2 f_equal. lia.
  - split.
    + cbn. intros [= <-]. exists (MPlain b). cbn [child_box child_samples child_walks]. rewrite !Z.add_0_r. split_and!; try done; lia.
    + intros (c & <- & [_ Hcok] & _ & _ & ->). destruct c as [b'|lg bs]; [|by destruct Hk].
      cbn. by rewrite !Z.add_0_r.
Qed.

Lemma child_samples_nonneg c : child_ok c -> box_bytes_ok (child_box c) -> 0 <= child_samples c.
Proof.
  intros [_ Hc] [Hb Hs]. destruct c as [b|lg bs]; [done|]. cbn [child_samples child_box mb_data] in *.
  apply sum_nonneg, Forall_map. destruct Hc as [Hbs _].
  eapply Forall_impl; [|apply run_samples_nonneg].
  apply (encode_boxes_data_ok bs []); [done|by rewrite app_nil_r..].
Qed.

Lemma child_walks_pos c : 1 <= child_walks c.
Proof. destruct c as [b|lg bs]; cbn [child_walks]; [lia|]. pose proof (zlen_nonneg bs). lia. Qed.

Lemma walks_nonneg cs : 0 <= sum (map child_walks cs).
Proof. apply sum_nonneg, Forall_map, Forall_true. intros c. pose proof (child_walks_pos c). cbn. lia. Qed.

Lemma moof_fold_spec bs : forall samples w r,
  Forall box_ok bs -> Forall box_bytes_ok bs -> 0 <= samples <= MAX_SEGMENT_SAMPLES -> 0 <= w <= MAX_BOXES ->
  fold_boxes moof_effect bs samples w = Some r <->
  exists cs, bs = map child_box cs /\ Forall child_ok cs /\
    samples + sum (map child_samples cs) <= MAX_SEGMENT_SAMPLES /\ w + sum (map child_walks cs) <= MAX_BOXES /\
    r = (samples + sum (map child_samples cs), w + sum (map child_walks cs)).
Proof.
  induction bs as [|b bs IH]; intros samples w r Hok Hb Hs Hw; cbn [fold_boxes].
  { split.
    - intros [= <-]. exists []. cbn [map]. unfold sum. cbn [fold_right]. rewrite !Z.add_0_r. split_and!; try done; lia.
    - intros (cs & Hcs & _ & _ & _ & ->). destruct cs; [|done]. cbn. by rewrite !Z.add_0_r. }
  apply Forall_cons in Hok as [Hokb Hok]. apply Forall_cons in Hb as [Hbb Hb].
  assert (Hnn : forall cs, bs = map child_box cs -> Forall child_ok cs -> 0 <= sum (map child_samples cs)).
  { intros cs -> Hcs. apply sum_nonneg, Forall_map. rewrite Forall_map in Hb. clear -Hb Hcs.
    induction cs; [constructor|]. inversion_clear Hb. inversion_clear Hcs. constructor; [by apply child_samples_nonneg|auto]. }
  split.
  - case_match eqn:Hm; [done|]. intros ([samples1 w1] & He & Hf)%bind_Some.
    apply moof_effect_spec in He as (c & <- & Hc & Hle & Hwle & [= -> ->]); [|done|done|done|lia].
    pose proof (child_walks_pos c). pose proof (child_samples_nonneg c Hc Hbb).
    apply IH in Hf as (cs & -> & Hcs & Hle2 & Hwle2 & ->); [|done|done|lia|lia].
    exists (c :: cs). cbn [map]. rewrite !zsum_cons. split_and!; [done|by constructor|lia|lia|]. f_equal; lia.
  - intros (cs & Hbs & Hcs & Hle & Hwle & ->). destruct cs as [|c cs]; [done|]. cbn [map] in *. injection Hbs as -> ->.
    apply Forall_cons in Hcs as [Hc Hcs]. rewrite !zsum_cons in *. pose proof (child_walks_pos c).
    pose proof (child_samples_nonneg c Hc Hbb). pose proof (walks_nonneg cs). specialize (Hnn cs eq_refl Hcs).
    rewrite (proj2 (Z.ltb_ge _ _)) by lia.
    assert (He : moof_effect (child_box c) samples (w + 1) = Some (samples + child_samples c, w + child_walks c)).
    { apply moof_effect_spec; [done|done|done|lia|]. exists c. split_and!; try done; [lia|lia|]. f_equal. lia. }
    rewrite He. cbn [mbind option_bind]. apply IH; [done|done|lia|lia|]. exists cs. split_and!; try done; try lia.
    f_equal; lia.
Qed.

Definition encode_children (cs : list MoofChild) : bytes := encode_boxes (map child_box cs).

Lemma check_moof_spec payload samples w r :
  slice_ok payload -> bytes_ok payload -> 0 <= samples <= MAX_SEGMENT_SAMPLES -> 0 <= w <= MAX_BOXES ->
  to_opt (check_moof payload samples w) = Some r <->
  exists cs, Forall child_ok cs /\ payload = encode_children cs /\
    samples + sum (map child_samples cs) <= MAX_SEGMENT_SAMPLES /\ w + sum (map child_walks cs) <= MAX_BOXES /\
    r = (samples + sum (map child_samples cs), w + sum (map child_walks cs)).
Proof.
  intros Hl Hb Hs Hw. unfold check_moof.
  rewrite (for_each_child_boxes visit_moof_child moof_effect visit_moof_effect moof_effect_walked) by done.
  assert (Hfold : forall bs, Forall box_ok bs -> payload = encode_boxes bs -> Forall box_bytes_ok bs).
  { intros bs Hbs He. apply (encode_boxes_data_ok bs []); [done|by rewrite app_nil_r, <- He..]. }
  split.
  - intros (bs & Hbs & He & Hf). apply moof_fold_spec in Hf as (cs & -> & Hcs & Hrest); [|done|by apply Hfold|done|done].
    by exists cs.
  - intros (cs & Hcs & He & Hrest). assert (Hbs : Forall box_ok (map child_box cs)).
    { apply Forall_map. eapply Forall_impl; [exact Hcs|]. by intros c [? _]. }
    exists (map child_box cs). split_and!; [done|done|].
    apply moof_fold_spec; [done|by apply Hfold|done|done|]. by exists cs.
Qed.

(** ** Media segments *)

(** What a media segment holds at its top level: another box, or a fragment. *)
Inductive Item := IOther (b : Mp4Box) | IFragment (large : bool) (children : list MoofChild) (mdat : Mp4Box).

Definition moof_box (large : bool) (cs : list MoofChild) : Mp4Box := mk_Mp4Box k_moof large (encode_children cs).
Definition encode_item (i : Item) : bytes :=
  match i with
  | IOther b => encode_box b
  | IFragment large cs mdat => encode_box (moof_box large cs) ++ encode_box mdat
  end.
Definition item_ok (i : Item) : Prop :=
  match i with
  | IOther b => box_ok b /\ mb_kind b <> k_moof /\ mb_kind b <> k_mdat
  | IFragment large cs mdat =>
      box_ok (moof_box large cs) /\ zlen (encode_box (moof_box large cs)) <= MAX_MOOF_BYTES /\
      Forall child_ok cs /\ box_ok mdat /\ mb_kind mdat = k_mdat
  end.
Definition item_walks (i : Item) : Z := match i with IOther _ => 1 | IFragment _ cs _ => 1 + sum (map child_walks cs) end.
Definition item_samples (i : Item) : Z := match i with IOther _ => 0 | IFragment _ cs _ => sum (map child_samples cs) end.
Definition item_fragments (i : Item) : nat := match i with IOther _ => 0 | IFragment _ _ _ => 1 end.

(** A last box of size 0 runs to the end. *)
Definition encode_tail (tail : option (bytes * bytes)) : bytes :=
  match tail with Some (kind, data) => to_be_bytes 4 0 ++ kind ++ data | None => [] end.
Definition tail_ok (tail : option (bytes * bytes)) : Prop :=
  match tail with Some (kind, _) => length kind = 4%nat /\ kind <> k_moof /\ kind <> k_mdat | None => True end.

Definition encode_segment (items : list Item) (tail : option (bytes * bytes)) : bytes :=
  concat (map encode_item items) ++ encode_tail tail.

Definition note_unknown (kind : bytes) (unknown : option bytes) : option bytes :=
  if bool_decide (kind ∈ KNOWN_SKIPPED) then unknown
  else match unknown with Some k => Some k | None => Some kind end.

(** What the walk makes of an item at [pos], and of the last box. *)
Definition item_after (pos : nat) (i : Item) (w : Walk) : Walk :=
  match i with
  | IOther b => mk_Walk (wk_fragments w) (note_unknown (mb_kind b) (wk_unknown w)) (wk_walked w + 1) (wk_samples w)
  | IFragment _ _ _ =>
      mk_Walk (wk_fragments w ++ [(pos, (pos + length (encode_item i))%nat)]) (wk_unknown w)
        (wk_walked w + item_walks i) (wk_samples w + item_samples i)
  end.
Definition tail_after (tail : option (bytes * bytes)) (w : Walk) : Walk :=
  match tail with
  | Some (kind, _) => mk_Walk (wk_fragments w) (note_unknown kind (wk_unknown w)) (wk_walked w + 1) (wk_samples w)
  | None => w
  end.
Fixpoint items_after (pos : nat) (items : list Item) (w : Walk) : Walk :=
  match items with
  | [] => w
  | i :: items' => items_after (pos + length (encode_item i)) items' (item_after pos i w)
  end.

Definition within_limits (w : Walk) : Prop :=
  0 <= wk_walked w <= MAX_BOXES /\ 0 <= wk_samples w <= MAX_SEGMENT_SAMPLES /\
  (length (wk_fragments w) <= MAX_FRAGMENTS)%nat.

Lemma moof_data_ok large cs rest :
  bytes_ok (encode_box (moof_box large cs) ++ rest) -> slice_ok (encode_box (moof_box large cs) ++ rest) ->
  bytes_ok (encode_children cs) /\ slice_ok (encode_children cs).
Proof. intros Hb Hl. apply (encode_box_data_ok (moof_box large cs) rest); done. Qed.

Lemma suffix_slice_ok (pre rest : bytes) : slice_ok (pre ++ rest) -> slice_ok rest.
Proof. unfold slice_ok, zlen. rewrite length_app. lia. Qed.

Lemma item_samples_nonneg large cs rest :
  Forall child_ok cs -> bytes_ok (encode_box (moof_box large cs) ++ rest) ->
  slice_ok (encode_box (moof_box large cs) ++ rest) -> 0 <= sum (map child_samples cs).
Proof.
  intros Hcs Hb Hl. destruct (moof_data_ok _ _ _ Hb Hl) as [Hb' Hl'].
  assert (Hbs : Forall box_bytes_ok (map child_box cs)).
  { apply (encode_boxes_data_ok _ []); rewrite ?app_nil_r; try done.
    apply Forall_map. eapply Forall_impl; [exact Hcs|]. by intros c [? _]. }
  rewrite Forall_map in Hbs. apply sum_nonneg, Forall_map. clear -Hbs Hcs.
  induction cs; [constructor|]. inversion_clear Hbs. inversion_clear Hcs.
  constructor; [by apply child_samples_nonneg|auto].
Qed.

Lemma count_box_inv w w1 : 0 <= w <= MAX_BOXES -> count_box w = inr w1 -> w1 = w + 1 /\ w1 <= MAX_BOXES.
Proof. intros Hw Hc. pose proof (count_box_spec w Hw) as Hs. rewrite Hc in Hs. cbn in Hs. case_match; [done|]. simplify_eq. lia. Qed.

Lemma count_box_ok w : 0 <= w -> w + 1 <= MAX_BOXES -> count_box w = inr (w + 1).
Proof.
  intros H0 Hw. pose proof (count_box_spec w ltac:(lia)) as Hs. rewrite (proj2 (Z.ltb_ge _ _)) in Hs by lia.
  destruct (count_box w); [done|]. by injection Hs as ->.
Qed.

(** Boxes that are skipped. *)
Lemma walk_skip kind (o : nat) f u wd sm (x : WalkError + (nat * Walk)) :
  x = (if bool_decide (kind ∈ KNOWN_SKIPPED) then inr (o, mk_Walk f u wd sm)
       else inr (o, mk_Walk f (match u with Some k => Some k | None => Some kind end) wd sm)) ->
  x = inr (o, mk_Walk f (note_unknown kind u) wd sm).
Proof. intros ->. unfold note_unknown. by case_bool_decide. Qed.

Lemma walk_item pre i rest w :
  item_ok i -> bytes_ok (encode_item i ++ rest) -> slice_ok (pre ++ encode_item i ++ rest) ->
  within_limits w -> within_limits (item_after (length pre) i w) ->
  walk_box (pre ++ encode_item i ++ rest) (length pre) w =
    inr ((length pre + length (encode_item i))%nat, item_after (length pre) i w).
Proof.
  intros Hi Hb Hl (Hw & Hs & Hn) (Hw' & Hs' & Hn'). unfold walk_box. destruct i as [b|large cs mdat].
  - destruct Hi as (Hok & Hmoof & Hmdat). cbn [item_after encode_item wk_walked wk_samples wk_fragments] in *.
    rewrite count_box_ok by lia. rewrite read_box_app_encode by done. cbn [bs_kind span_of bs_end].
    rewrite !bool_decide_false by done. by apply walk_skip.
  - destruct Hi as (Hok & Hmax & Hcs & Hmd & Hk). cbn [item_after encode_item wk_walked wk_samples wk_fragments item_walks item_samples] in *.
    rewrite <- app_assoc in Hb, Hl |- *. pose proof (walks_nonneg cs).
    pose proof (item_samples_nonneg large cs (encode_box mdat ++ rest) Hcs Hb (suffix_slice_ok _ _ Hl)) as Hsn.
    rewrite count_box_ok by lia. rewrite read_box_app_encode by done. cbn [bs_kind span_of].
    rewrite bool_decide_true by done. unfold walk_moof. cbn [bs_kind span_of bs_to_end bs_end bs_start bs_body].
    rewrite (proj2 (Z.ltb_ge _ _)) by (unfold zlen in Hmax; lia). rewrite slice_box by done.
    destruct (moof_data_ok _ _ _ Hb (suffix_slice_ok _ _ Hl)) as [Hcb Hcl].
    assert (Hc : to_opt (check_moof (encode_children cs) (wk_samples w) (wk_walked w + 1)) =
      Some (wk_samples w + sum (map child_samples cs), wk_walked w + (1 + sum (map child_walks cs)))).
    { apply check_moof_spec; [done|done|lia|lia|]. exists cs. split_and!; try done; [lia|lia|]. f_equal. lia. }
    cbn [mb_data moof_box wk_samples wk_walked]. destruct (check_moof _ _ _) as [e|r]; [done|]. injection Hc as ->.
    rewrite !length_app. apply encode_box_pos in Hmd as Hpos. rewrite (proj2 (Nat.leb_gt _ _)) by lia.
    rewrite app_assoc, <- length_app. rewrite app_assoc in Hl. apply Forall_app in Hb as [_ Hb].
    rewrite read_box_app_encode by done. cbn [bs_kind span_of bs_to_end bs_end]. rewrite Hk, bool_decide_true by done.
    cbn [negb wk_fragments]. rewrite (proj2 (Nat.leb_gt _ _)) by (rewrite length_app in Hn'; cbn in Hn'; lia).
    rewrite !length_app, <- !Nat.add_assoc. done.
Qed.

Lemma walk_tail pre kind data w :
  tail_ok (Some (kind, data)) -> bytes_ok (encode_tail (Some (kind, data))) -> slice_ok (pre ++ encode_tail (Some (kind, data))) ->
  within_limits w -> within_limits (tail_after (Some (kind, data)) w) ->
  walk_box (pre ++ encode_tail (Some (kind, data))) (length pre) w =
    inr (length (pre ++ encode_tail (Some (kind, data))), tail_after (Some (kind, data)) w).
Proof.
  intros (Hk & Hmoof & Hmdat) Hb Hl (Hw & _) (Hw' & _). cbn [tail_after wk_walked] in Hw'. unfold walk_box.
  rewrite count_box_ok by lia. set (rest := encode_tail _) in *.
  pose proof (read_box_shift pre rest 0 Hl Hb ltac:(lia)) as Hs. rewrite Nat.add_0_r in Hs.
  assert (Hr : read_box rest 0 = inr (mk_BoxSpan kind 0 8 (length rest) true)).
  { unfold read_box. unfold rest at 1. cbn [encode_tail]. rewrite app_assoc, eight_at_0.
    2: { rewrite length_app, length_to_be_bytes, Hk. done. }
    rewrite take_app_length', drop_app_length' by (by rewrite length_to_be_bytes).
    change (be_value (to_be_bytes 4 0)) with 0. cbn [Z.eqb]. unfold box_span. by rewrite checked_u_Some. }
  rewrite Hs, Hr. cbn [shift_box shift_span bs_kind bs_end]. rewrite !bool_decide_false by done.
  cbn [tail_after]. rewrite length_app. by apply walk_skip.
Qed.

Lemma walk_box_inv pre rest w o' w' :
  rest <> [] -> bytes_ok rest -> slice_ok (pre ++ rest) -> within_limits w ->
  walk_box (pre ++ rest) (length pre) w = inr (o', w') ->
  within_limits w' /\
  ((exists i rest', item_ok i /\ rest = encode_item i ++ rest' /\ o' = (length pre + length (encode_item i))%nat /\
      w' = item_after (length pre) i w) \/
   (exists kind data, tail_ok (Some (kind, data)) /\ rest = encode_tail (Some (kind, data)) /\
      o' = length (pre ++ rest) /\ w' = tail_after (Some (kind, data)) w)).
Proof.
  intros Hne Hb Hl (Hw & Hs & Hn). unfold walk_box. destruct (count_box (wk_walked w)) as [e|w1] eqn:Hc; [done|].
  apply count_box_inv in Hc as [-> Hw1]; [|done].
  destruct (read_box (pre ++ rest) (length pre)) as [e|span] eqn:Hr; [done|].
  destruct (read_box_app_inv _ _ _ Hb Hl Hr) as [(k & d & Hk & Hd & ->)|(b & rest' & Hbok & -> & ->)];
    cbn [bs_kind span_of bs_end].
  - destruct (bool_decide_reflect (k = k_moof)) as [->|Hmoof].
    { done. }
    destruct (bool_decide_reflect (k = k_mdat)) as [->|Hmdat]; [done|].
    intros Hx%eq_sym%walk_skip. injection Hx as -> ->. cbn [wk_fragments wk_unknown wk_walked wk_samples]. split; [split_and!; cbn; lia|].
    right. exists k, d. by split_and!.
  - destruct (bool_decide_reflect (mb_kind b = k_moof)) as [Hmoof|Hmoof].
    2: { destruct (bool_decide_reflect (mb_kind b = k_mdat)) as [_|Hmdat]; [done|].
      intros Hx%eq_sym%walk_skip. injection Hx as -> ->. cbn [wk_fragments wk_unknown wk_walked wk_samples]. split; [split_and!; cbn; lia|].
      left. exists (IOther b), rest'. by split_and!. }
    unfold walk_moof. cbn [bs_kind span_of bs_to_end bs_end bs_start bs_body wk_samples wk_walked wk_fragments wk_unknown].
    case_match eqn:Hmax; [done|]. rewrite slice_box by done.
    destruct (encode_box_data_ok b rest' (proj1 Hbok) Hb (suffix_slice_ok _ _ Hl)) as [Hdb Hds].
    destruct (check_moof (mb_data b) (wk_samples w) (wk_walked w + 1)) as [e|r] eqn:Hcm; [done|].
    destruct (proj1 (check_moof_spec (mb_data b) (wk_samples w) (wk_walked w + 1) r Hds Hdb Hs ltac:(lia)))
      as (cs & Hcs & Hdata & Hle & Hwle & ->); [by rewrite Hcm|].
    case_match eqn:Hlen; [done|]. apply Nat.leb_gt in Hlen. rewrite !length_app in Hlen.
    rewrite app_assoc, <- length_app. rewrite app_assoc in Hl. apply Forall_app in Hb as Hb'. destruct Hb' as [_ Hb'].
    destruct (read_box ((pre ++ encode_box b) ++ rest') (length (pre ++ encode_box b))) as [e|mdat] eqn:Hrm; [done|].
    destruct (bool_decide_reflect (bs_kind mdat = k_mdat)) as [Hkm|Hkm]; cbn [negb]; [|done].
    destruct (bs_to_end mdat) eqn:Hte; [done|]. case_match eqn:Hfr; [done|]. apply Nat.leb_gt in Hfr.
    intros [= <- <-].
    destruct (read_box_app_inv _ _ _ Hb' Hl Hrm) as [(k & d & _ & _ & ->)|(bm & rest2 & Hmok & -> & ->)]; [done|].
    assert (Hmb : b = moof_box (mb_large b) cs) by (unfold moof_box; rewrite <- Hmoof, <- Hdata; by destruct b).
    cbn [bs_kind bs_end span_of] in *. rewrite length_app in *.
    pose proof (walks_nonneg cs). assert (Hsn : 0 <= sum (map child_samples cs)).
    { eapply (item_samples_nonneg (mb_large b) cs); rewrite <- ?Hmb; [done|exact Hb|].
      apply (suffix_slice_ok pre). by rewrite app_assoc. }
    split.
    { unfold within_limits. cbn [wk_walked wk_samples wk_fragments]. rewrite length_app. cbn [length].
      clear -Hw Hs Hwle Hle Hfr H Hsn. lia. }
    left. exists (IFragment (mb_large b) cs bm), rest2.
    assert (Henc : encode_item (IFragment (mb_large b) cs bm) = encode_box b ++ encode_box bm) by (cbn [encode_item]; by rewrite <- Hmb).
    rewrite Henc, length_app. split_and!.
    + cbn [item_ok]. rewrite <- Hmb. apply Z.ltb_ge in Hmax. rewrite Nat.add_comm, Nat.add_sub in Hmax.
      split_and!; try done; apply Hbok.
    + by rewrite <- app_assoc.
    + lia.
    + cbn [item_after]. rewrite Henc, length_app. cbn [item_walks item_samples].
      by rewrite <- !Nat.add_assoc, <- !Z.add_assoc.
Qed.

Lemma item_pos i : item_ok i -> (8 <= length (encode_item i))%nat.
Proof.
  destruct i as [b|large cs mdat].
  - intros [Hb _]. by apply encode_box_pos.
  - intros (Hb & _). apply encode_box_pos in Hb. cbn [encode_item]. rewrite length_app. lia.
Qed.

Lemma note_after_limits pos i w : within_limits (item_after pos i w) -> item_ok i ->
  0 <= wk_walked w -> 0 <= item_samples i -> 0 <= wk_samples w -> within_limits w.
Proof.
  intros (Hw & Hs & Hn) Hi Hw0 Hi0 Hs0. destruct i as [b|large cs mdat];
    cbn [item_after wk_walked wk_samples wk_fragments item_walks item_samples] in *.
  - unfold within_limits. split_and!; try done; lia.
  - pose proof (walks_nonneg cs). rewrite length_app in Hn. unfold within_limits. split_and!; try done; lia.
Qed.

Lemma walk_loop_inv fuel : forall pre rest w w',
  bytes_ok rest -> slice_ok (pre ++ rest) -> within_limits w -> (length rest <= fuel)%nat ->
  walk_loop fuel (pre ++ rest) (length pre) w = (None, w') ->
  within_limits w' /\ exists items tail, Forall item_ok items /\ tail_ok tail /\ rest = encode_segment items tail /\
    w' = tail_after tail (items_after (length pre) items w).
Proof.
  assert (Hnil : forall pre w w', within_limits w -> w = w' -> within_limits w' /\ exists items tail,
    Forall item_ok items /\ tail_ok tail /\ [] = encode_segment items tail /\
    w' = tail_after tail (items_after pre items w)).
  { intros pre w w' Hw <-. split; [done|]. by exists [], None. }
  induction fuel as [|fuel IH]; intros pre rest w w' Hb Hl Hw Hf; cbn [walk_loop].
  { destruct rest; [|cbn in Hf; lia]. rewrite app_nil_r, Nat.leb_refl. intros [= ?]. by apply Hnil. }
  destruct (decide (rest = [])) as [->|Hne].
  { rewrite app_nil_r, Nat.leb_refl. intros [= ?]. by apply Hnil. }
  assert (0 < length rest)%nat by (destruct rest; [done|cbn; lia]).
  rewrite (proj2 (Nat.leb_gt _ _)) by (rewrite length_app; lia).
  destruct (walk_box (pre ++ rest) (length pre) w) as [e|[o' w1]] eqn:Hbox; [done|].
  apply walk_box_inv in Hbox as [Hw1 [(i & rest' & Hi & -> & -> & ->)|(k & d & Ht & -> & -> & ->)]]; try done.
  - apply item_pos in Hi as Hpos. rewrite app_assoc, <- length_app. rewrite app_assoc in Hl.
    apply Forall_app in Hb as [_ Hb]. rewrite length_app in Hf. intros Hrun.
    apply IH in Hrun as [Hw' (items & tail & Hitems & Htail & -> & ->)]; [|done|done|done|lia].
    split; [done|]. exists (i :: items), tail. split_and!; [by constructor|done| |].
    + unfold encode_segment. cbn [map concat]. by rewrite app_assoc.
    + cbn [items_after]. by rewrite length_app.
  - intros Hrun. assert (Hend : walk_loop fuel (pre ++ encode_tail (Some (k, d))) (length (pre ++ encode_tail (Some (k, d))))
        (tail_after (Some (k, d)) w) = (None, tail_after (Some (k, d)) w)).
    { destruct fuel; cbn [walk_loop]; by rewrite Nat.leb_refl. }
    rewrite Hend in Hrun. injection Hrun as <-. split; [done|]. by exists [], (Some (k, d)).
Qed.

Lemma item_samples_ok i rest :
  item_ok i -> bytes_ok (encode_item i ++ rest) -> slice_ok (encode_item i ++ rest) -> 0 <= item_samples i.
Proof.
  destruct i as [b|large cs mdat]; [done|]. intros (_ & _ & Hcs & _) Hb Hl. cbn [encode_item item_samples] in *.
  rewrite <- app_assoc in Hb, Hl. by eapply item_samples_nonneg.
Qed.

(** The limits at the end held all along. *)
Lemma items_after_limits items : forall pos tail w rest,
  Forall item_ok items -> bytes_ok (encode_segment items tail ++ rest) -> slice_ok (encode_segment items tail ++ rest) ->
  0 <= wk_walked w -> 0 <= wk_samples w ->
  within_limits (tail_after tail (items_after pos items w)) -> within_limits w.
Proof.
  induction items as [|i items IH]; intros pos tail w rest Hi Hb Hl Hw Hs.
  - cbn [items_after]. destruct tail as [[k d]|]; [|done]. cbn. intros (H1 & H2 & H3).
    unfold within_limits. cbn [wk_walked wk_samples wk_fragments] in *. split_and!; try done; lia.
  - apply Forall_cons in Hi as [Hi Hitems]. unfold encode_segment in Hb, Hl. cbn [map concat] in Hb, Hl.
    rewrite <- !app_assoc in Hb, Hl. pose proof (item_samples_ok i _ Hi Hb Hl) as Hsn. cbn [items_after].
    apply Forall_app in Hb as [_ Hb]. apply suffix_slice_ok in Hl. rewrite app_assoc in Hb, Hl. intros Hlim.
    assert (0 <= wk_walked (item_after pos i w) /\ 0 <= wk_samples (item_after pos i w)) as [].
    { destruct i as [b|large cs mdat]; cbn [item_after wk_walked wk_samples item_walks item_samples] in *; [lia|].
      pose proof (walks_nonneg cs). lia. }
    apply (IH (pos + length (encode_item i))%nat tail (item_after pos i w) rest) in Hlim; try done.
    by eapply note_after_limits.
Qed.

Lemma walk_loop_complete items : forall fuel pre tail w,
  Forall item_ok items -> tail_ok tail -> bytes_ok (encode_segment items tail) ->
  slice_ok (pre ++ encode_segment items tail) -> (length (encode_segment items tail) <= fuel)%nat ->
  0 <= wk_walked w -> 0 <= wk_samples w ->
  within_limits (tail_after tail (items_after (length pre) items w)) ->
  walk_loop fuel (pre ++ encode_segment items tail) (length pre) w =
    (None, tail_after tail (items_after (length pre) items w)).
Proof.
  induction items as [|i items IH]; intros fuel pre tail w Hi Ht Hb Hl Hf Hw0 Hs0 Hlim.
  - cbn [items_after] in *. unfold encode_segment in *. cbn [map concat app] in *. destruct tail as [[k d]|].
    + assert (0 < length (encode_tail (Some (k, d))))%nat by (cbn; lia). destruct fuel as [|fuel]; [lia|].
      cbn [walk_loop]. rewrite (proj2 (Nat.leb_gt _ _)) by (rewrite length_app; lia).
      assert (Hw : within_limits w).
      { destruct Hlim as (H1 & H2 & H3). cbn [tail_after wk_walked wk_samples wk_fragments] in *.
        unfold within_limits. split_and!; try done; lia. }
      rewrite walk_tail by done. destruct fuel; cbn [walk_loop]; by rewrite Nat.leb_refl.
    + cbn [encode_tail]. rewrite app_nil_r. destruct fuel; cbn [walk_loop]; by rewrite Nat.leb_refl.
  - apply Forall_cons in Hi as [Hi Hitems]. pose proof (item_pos i Hi) as Hpos.
    assert (Henc : encode_segment (i :: items) tail = encode_item i ++ encode_segment items tail)
      by (unfold encode_segment; cbn [map concat]; by rewrite app_assoc).
    rewrite Henc in Hb, Hl, Hf |- *. rewrite length_app in Hf. destruct fuel as [|fuel]; [lia|].
    pose proof (item_samples_ok i _ Hi Hb (suffix_slice_ok _ _ Hl)) as Hsn. cbn [items_after] in Hlim.
    assert (0 <= wk_walked (item_after (length pre) i w) /\ 0 <= wk_samples (item_after (length pre) i w)) as [Hw1 Hs1].
    { destruct i as [b|large cs mdat]; cbn [item_after wk_walked wk_samples item_walks item_samples] in *; [lia|].
      pose proof (walks_nonneg cs). lia. }
    apply Forall_app in Hb as Hb'. destruct Hb' as [_ Hb'].
    assert (Hlim1 : within_limits (item_after (length pre) i w)).
    { eapply (items_after_limits items _ tail _ []); rewrite ?app_nil_r; try done.
      by apply suffix_slice_ok, suffix_slice_ok in Hl. }
    cbn [walk_loop]. rewrite (proj2 (Nat.leb_gt _ _)) by (rewrite !length_app; lia).
    rewrite walk_item; [|done|done|done|by eapply note_after_limits|done].
    rewrite app_assoc in Hl |- *. rewrite <- length_app in Hlim |- *. cbn [items_after].
    rewrite (IH fuel) by (done || lia). by rewrite length_app.
Qed.

(** C23: The walk over a media segment is exact.  On the bytes of an uploaded object it succeeds
    if and only if they are, to the last byte, boxes laid out as they must be: each [moof]
    with its [mdat] right behind it, small enough, each of its [traf]s with a [tfdt], without
    an explicit base offset and with whole headers, anything else skipped, no stray [mdat],
    a last box of size 0 at most, and boxes, samples and fragments within the limits, at
    least one fragment.  It then gives exactly the ranges of the fragments and the first
    kind of box it does not know. *)
Theorem media_fragments_exact l report fragments :
  bytes_ok l -> slice_ok l ->
  media_fragments l = (inr report, fragments) <->
  exists items tail, let w := tail_after tail (items_after 0 items (mk_Walk [] None 0 0)) in
    Forall item_ok items /\ tail_ok tail /\ l = encode_segment items tail /\ within_limits w /\
    fragments = wk_fragments w /\ fragments <> [] /\ report = mk_WalkReport (wk_unknown w).
Proof.
  intros Hb Hl. unfold media_fragments.
  assert (Hw0 : within_limits (mk_Walk [] None 0 0)) by (vm_compute; repeat split; try done; lia). split.
  - destruct (walk_loop _ l 0 _) as [error w] eqn:Hrun. destruct error as [e|]; [done|].
    apply (walk_loop_inv (length l) []) in Hrun as [Hw (items & tail & Hi & Ht & He & Hwa)]; try done.
    destruct (wk_fragments w) as [|f fs] eqn:Hfs; [done|]. intros [= <- <-]. exists items, tail.
    cbn [length] in Hwa. rewrite <- Hwa. by split_and!.
  - intros (items & tail & Hi & Ht & -> & Hw & -> & Hne & ->).
    pose proof (walk_loop_complete items (length (encode_segment items tail)) [] tail (mk_Walk [] None 0 0) Hi Ht Hb Hl
                  ltac:(lia) ltac:(done) ltac:(done) Hw) as Hrun.
    cbn [app length] in Hrun. rewrite Hrun. by destruct (wk_fragments _).
Qed.

(** ** Init segments *)

Lemma moov_loop_skip pre : forall fuel l0 b rest,
  Forall (fun x => box_ok x /\ mb_kind x <> k_moov) pre -> box_ok b -> mb_kind b = k_moov ->
  bytes_ok (encode_boxes pre ++ encode_box b ++ rest) -> slice_ok (l0 ++ encode_boxes pre ++ encode_box b ++ rest) ->
  (length (encode_boxes pre ++ encode_box b) <= fuel)%nat ->
  moov_loop fuel (l0 ++ encode_boxes pre ++ encode_box b ++ rest) (length l0) =
    inr ((length l0 + length (encode_boxes pre))%nat, (length l0 + length (encode_boxes pre ++ encode_box b))%nat).
Proof.
  induction pre as [|x pre IH]; intros fuel l0 b rest Hpre Hb Hk Hbytes Hl Hf.
  - unfold encode_boxes in *. cbn [map concat app length] in *. apply encode_box_pos in Hb as Hpos.
    destruct fuel as [|fuel]; [lia|]. cbn [moov_loop]. rewrite (proj2 (Nat.leb_gt _ _)) by (rewrite !length_app; lia).
    rewrite read_box_app_encode by done. cbn [bs_kind span_of bs_start bs_end]. rewrite bool_decide_true by done.
    by rewrite Nat.add_0_r.
  - apply Forall_cons in Hpre as [[Hx Hxk] Hpre]. apply encode_box_pos in Hx as Hpos.
    change (encode_boxes (x :: pre)) with (encode_box x ++ encode_boxes pre) in *. rewrite <- !app_assoc in Hbytes, Hl, Hf |- *.
    rewrite length_app in Hf. destruct fuel as [|fuel]; [lia|]. cbn [moov_loop].
    rewrite (proj2 (Nat.leb_gt _ _)) by (rewrite !length_app; lia).
    rewrite read_box_app_encode by done. cbn [bs_kind span_of bs_end]. rewrite bool_decide_false by done.
    rewrite app_assoc in Hl |- *. rewrite <- length_app. apply Forall_app in Hbytes as [_ Hbytes].
    rewrite IH by (done || lia). rewrite !length_app. do 2 f_equal; lia.
Qed.

(** The range of an init segment's [moov] is that of the first one at its top level. *)
Theorem moov_range_first pre b rest :
  Forall (fun x => box_ok x /\ mb_kind x <> k_moov) pre -> box_ok b -> mb_kind b = k_moov ->
  bytes_ok (encode_boxes pre ++ encode_box b ++ rest) -> slice_ok (encode_boxes pre ++ encode_box b ++ rest) ->
  moov_range (encode_boxes pre ++ encode_box b ++ rest) =
    inr (length (encode_boxes pre), length (encode_boxes pre ++ encode_box b)).
Proof.
  intros Hpre Hb Hk Hbytes Hl. unfold moov_range.
  apply (moov_loop_skip pre _ [] b rest); try done. rewrite !length_app. lia.
Qed.

(** ** Where the fragments lie *)

Lemma read_box_bounds l o span :
  read_box l o = inr span -> bs_start span = o /\ (o < bs_end span <= length l)%nat.
Proof.
  assert (Hspan : forall kind s32 size hl, (o + 8 <= length l)%nat -> 8 <= hl ->
    box_span (length l) kind o s32 size hl = inr span -> bs_start span = o /\ (o < bs_end span <= length l)%nat).
  { intros kind s32 size hl Hl Hhl. unfold box_span, checked_u.
    repeat (match goal with |- context [if ?b then _ else _] => destruct b eqn:? end; try done; cbn iota beta);
      intros [= <-]; cbn [bs_start bs_end]; lia. }
  unfold read_box. destruct (eight_at o l) as [h|] eqn:Hh; [|done]. apply eight_at_Some in Hh as [Hl _].
  destruct (_ =? 1); [destruct (eight_at (o + 8) l); [|done]|]; apply Hspan; lia.
Qed.

Definition in_bounds (l : bytes) (r : nat * nat) : Prop := (r.1 < r.2 <= length l)%nat.

Lemma walk_box_bounds l o w o' w' :
  walk_box l o w = inr (o', w') ->
  Forall (in_bounds l) (wk_fragments w) -> (length (wk_fragments w) <= MAX_FRAGMENTS)%nat ->
  Forall (in_bounds l) (wk_fragments w') /\ (length (wk_fragments w') <= MAX_FRAGMENTS)%nat.
Proof.
  unfold walk_box. destruct (count_box _); [done|]. destruct (read_box l o) as [|span] eqn:Hs; [done|].
  apply read_box_bounds in Hs as [<- Hs]. case_bool_decide; [|case_bool_decide; [done|]; case_bool_decide; by intros [= <- <-]].
  unfold walk_moof. cbn [wk_fragments]. destruct (bs_to_end span); [done|]. destruct (_ <? _); [done|].
  destruct (check_moof _ _ _) as [|[samples walked]]; [done|]. destruct (_ <=? _)%nat eqn:?; [done|].
  destruct (read_box l (bs_end span)) as [|mdat] eqn:Hm; [done|]. apply read_box_bounds in Hm as [_ Hm].
  case_bool_decide; [|done]. destruct (bs_to_end mdat); [done|]. cbn [negb].
  destruct (_ <=? length _)%nat eqn:Hn; [done|]. intros [= <- <-] Hf Hl. cbn [wk_fragments]. split.
  - apply Forall_app. split; [done|]. constructor; [|done]. unfold in_bounds. cbn [fst snd]. lia.
  - rewrite length_app. cbn [length]. apply Nat.leb_gt in Hn. lia.
Qed.

Lemma walk_loop_bounds fuel : forall l o w e w',
  walk_loop fuel l o w = (e, w') ->
  Forall (in_bounds l) (wk_fragments w) -> (length (wk_fragments w) <= MAX_FRAGMENTS)%nat ->
  Forall (in_bounds l) (wk_fragments w') /\ (length (wk_fragments w') <= MAX_FRAGMENTS)%nat.
Proof.
  induction fuel as [|fuel IH]; intros l o w e w'; cbn [walk_loop]; (destruct (_ <=? _)%nat; [by intros [= <- <-]|]);
    [by intros [= <- <-]|].
  destruct (walk_box l o w) as [?|[o1 w1]] eqn:Hw; [by intros [= <- <-]|]. intros Hl Hf Hn.
  destruct (walk_box_bounds _ _ _ _ _ Hw Hf Hn). by eapply IH.
Qed.

Lemma media_fragments_bounds l :
  Forall (in_bounds l) (media_fragments l).2 /\ (length (media_fragments l).2 <= MAX_FRAGMENTS)%nat.
Proof.
  unfold media_fragments. destruct (walk_loop _ _ _ _) as [e w] eqn:Hw. cbn [snd].
  eapply walk_loop_bounds; [exact Hw|constructor|cbn; unfold MAX_FRAGMENTS; lia].
Qed.

(** ** Witnesses *)

Definition sample_children : list MoofChild :=
  [MPlain (mk_Mp4Box (string_bytes "mfhd") false [0; 0; 0; 0; 0; 0; 0; 1]);
   MTraf false [mk_Mp4Box k_tfhd false [0; 2; 0; 0; 0; 0; 0; 1]; mk_Mp4Box k_tfdt false [0; 0; 0; 0; 0; 0; 0; 9];
                mk_Mp4Box k_trun true [0; 0; 0; 0; 0; 0; 0; 2]]].
Definition sample_segment : bytes :=
  encode_segment [IOther (mk_Mp4Box (string_bytes "styp") false [1; 2; 3; 4]);
                  IFragment false sample_children (mk_Mp4Box k_mdat false [5; 6])] (Some (string_bytes "zzzz", [7])).

Lemma media_fragments_exact_witness :
  bytes_ok sample_segment /\
  (media_fragments sample_segment = (inr (mk_WalkReport (Some (string_bytes "zzzz"))), [(12%nat, 110%nat)]) <->
   exists items tail, let w := tail_after tail (items_after 0 items (mk_Walk [] None 0 0)) in
     Forall item_ok items /\ tail_ok tail /\ sample_segment = encode_segment items tail /\ within_limits w /\
     [(12%nat, 110%nat)] = wk_fragments w /\ [(12%nat, 110%nat)] <> [] /\
     mk_WalkReport (Some (string_bytes "zzzz")) = mk_WalkReport (wk_unknown w)).
Proof.
  assert (Hb : bytes_ok sample_segment) by (vm_compute; repeat constructor; done).
  split; [exact Hb|]. apply (media_fragments_exact sample_segment); [exact Hb|vm_compute; done].
Defined.

Example sample_segment_walk :
  media_fragments sample_segment = (inr (mk_WalkReport (Some (string_bytes "zzzz"))), [(12%nat, 110%nat)]).
Proof. vm_compute. done. Qed.
