(* ===== verification/Fmp4Demux.v ===== *)
(** * The demuxer of fragmented MP4 objects

    Models [crates/restream-engine/src/ingest_publisher/fmp4.rs]: an init segment gives the
    published tracks and the probe, a media segment is demuxed fragment by fragment while the
    chunks that pace it arrive, at most [MAX_SAMPLES_PER_STEP] samples a step.  The boxes
    inside a [moov] and the samples of a fragment are read by the [shiguredo_mp4] crate, the
    class [Mp4]; the texts of rejections and the log are not modelled. *)

From S2P Require Import Prelude Bits Aac Annexb H264Sps HevcConfig Media Probe TsDemux Mp4Boxes.
From Stdlib Require Import Sorted.
From stdpp Require Import sorting.

Open Scope Z_scope.

(** ** Definitions *)

Definition START_CODE : bytes := [0; 0; 0; 1].
Definition MAX_SAMPLES_PER_STEP : Z := 256.

Inductive MediaRejection := Unsupported | Malformed | TooLarge.

(** *** The boxes and samples the [shiguredo_mp4] crate reads *)

Record VisualSampleEntryFields := mk_Visual { vs_width : Z; vs_height : Z }.
Record AvccBox := mk_AvccBox {
  avcc_sps_list : list bytes;
  avcc_pps_list : list bytes;
  avcc_length_size_minus_one : Z;
}.
Record NaluArray := mk_NaluArray { na_nal_unit_type : Z; na_nalus : list bytes }.
Record HvccBox := mk_HvccBox { hvcc_length_size_minus_one : Z; hvcc_nalu_arrays : list NaluArray }.
Inductive SampleEntry :=
  | Avc1 (avcc : AvccBox) (visual : VisualSampleEntryFields)
  | Hev1 (hvcc : HvccBox) (visual : VisualSampleEntryFields)
  | Hvc1 (hvcc : HvccBox) (visual : VisualSampleEntryFields)
  | Mp4a (dec_specific_info : option bytes)
  | OtherEntry.
Inductive Handler := HANDLER_TYPE_VIDE | HANDLER_TYPE_SOUN | OtherHandler.
Record TrakBox := mk_TrakBox {
  tb_track_id : Z;
  tb_handler : Handler;
  tb_entries : list SampleEntry;
}.

(** One sample of a fragment: its track's id and timescale (a [NonZeroU32]), its decode time and
    where its bytes lie. *)
Record Sample := mk_Sample {
  sm_track_id : Z;
  sm_timescale : Z;
  sm_timestamp : Z;
  sm_composition_time_offset : option Z;
  sm_keyframe : bool;
  sm_data_offset : Z;
  sm_data_size : Z;
}.

(** The width of a length field is a two-bit number, less one. *)
Definition entry_at_width (e : SampleEntry) : Prop :=
  match e with
  | Avc1 avcc _ => 0 <= avcc_length_size_minus_one avcc <= 3
  | Hev1 hvcc _ | Hvc1 hvcc _ => 0 <= hvcc_length_size_minus_one hvcc <= 3
  | Mp4a _ | OtherEntry => True
  end.

Class Mp4 := {
  Demuxer : Type;
  demuxer_new : Demuxer;
  (* [MoovBox::decode]: the track boxes *)
  decode_moov : bytes -> option (list TrakBox);
  (* [None] is an error *)
  handle_init_segment : Demuxer -> bytes -> option Demuxer;
  handle_media_segment : Demuxer -> bytes -> Demuxer * option (list Sample);
  (* the samples are in memory *)
  samples_in_memory : forall d l d' samples,
    handle_media_segment d l = (d', Some samples) -> zlen samples < 2 ^ 56;
  entries_at_width : forall l traks,
    decode_moov l = Some traks -> Forall (fun t => Forall entry_at_width (tb_entries t)) traks;
}.

(** *** AAC configuration *)

Record AdtsConfig := mk_AdtsConfig { ac_object_type : Z; ac_freq_index : Z; ac_channel_config : Z }.

Definition from_audio_specific_config (asc : bytes) : MediaRejection + AdtsConfig :=
  match first_chunk 2 asc with
  | Some [b0; b1] =>
      let object_type := b0 .>> 3 in
      let freq_index := as_u8 ((b0 .& 0x07) .<< 1) .| (b1 .>> 7) in
      let channel_config := (b1 .>> 3) .& 0x0F in
      if negb ((1 <=? object_type) && (object_type <=? 4)) then inl Unsupported
      else if freq_index =? 0x0F then inl Unsupported
      else if zlen AAC_SAMPLE_RATES <=? freq_index then inl Malformed
      else if negb ((1 <=? channel_config) && (channel_config <=? 7)) then inl Unsupported
      else inr (mk_AdtsConfig object_type freq_index channel_config)
  | _ => inl Malformed
  end.

Definition adts_header (c : AdtsConfig) (frame_len : Z) : option bytes :=
  build_adts_header_for frame_len (ac_object_type c) (ac_freq_index c) (ac_channel_config c).
Definition sample_rate (c : AdtsConfig) : Z := default 0 (AAC_SAMPLE_RATES !! Z.to_nat (ac_freq_index c)).
Definition channels (c : AdtsConfig) : Z := if ac_channel_config c =? 7 then 8 else ac_channel_config c.
Definition profile (c : AdtsConfig) : string :=
  if ac_object_type c =? 1 then "Main"
  else if ac_object_type c =? 2 then "LC"
  else if ac_object_type c =? 3 then "SSR"
  else "LTP/Reserved".

(** *** Tracks *)

Inductive VideoNal := NalH264 | NalH265.
#[global] Instance VideoNal_eq_dec : EqDecision VideoNal.
Proof. solve_decision. Defined.

Inductive Codec :=
  | CodecVideo (nal : VideoNal) (nalu_length_size : nat) (parameter_sets : bytes)
  | CodecAac (config : AdtsConfig).

Definition is_sps (nal : VideoNal) (header : Z) : bool :=
  match nal with
  | NalH264 => header .& 0x1F =? 7
  | NalH265 => (header .>> 1) .& 0x3F =? 33
  end.

Definition HEVC_PARAMETER_SETS (t : Z) : bool := (32 <=? t) && (t <=? 34).

Record Track := mk_Track {
  tr_track_id : Z;
  tr_media_type : MediaType;
  tr_track_index : Z;
  tr_codec : Codec;
}.

Definition start_codes (nalus : list bytes) : bytes := flat_map (fun nalu => START_CODE ++ nalu) nalus.

Definition video_meta (sps : bytes) (width height : Z) : VideoMeta :=
  let meta := mk_VideoMeta "h264" width height f64_zero None None None None None None None in
  match get_from 1 sps ≫= parse_h264_sps with
  | Some parsed =>
      mk_VideoMeta "h264" (h264_width parsed) (h264_height parsed)
        (if f64_gt_zero (h264_fps parsed) then h264_fps parsed else f64_zero) None None None None
        (Some (profile_name (h264_profile_idc parsed))) (Some (level_name (h264_level_idc parsed))) None
  | None => meta
  end.

Section with_mp4.
Context `{Memmem} `{Mp4}.

Definition hevc_track (track_id : Z) (hvcc : HvccBox) (visual : VisualSampleEntryFields)
  : MediaRejection + (VideoMeta * Track) :=
  let parameter_sets :=
    flat_map (fun array => if HEVC_PARAMETER_SETS (na_nal_unit_type array) then start_codes (na_nalus array) else [])
      (hvcc_nalu_arrays hvcc) in
  let has_sps :=
    existsb (fun array => (na_nal_unit_type array =? 33) && negb (match na_nalus array with [] => true | _ => false end))
      (hvcc_nalu_arrays hvcc) in
  if negb has_sps then inl Malformed
  else
    let meta := hevc_video_meta parameter_sets in
    let meta :=
      if (vm_width meta =? 0) || (vm_height meta =? 0)
      then mk_VideoMeta (vm_codec meta) (vs_width visual) (vs_height visual) (vm_fps meta) (vm_bw meta)
             (vm_pid meta) (vm_language meta) (vm_title meta) (vm_profile meta) (vm_level meta)
             (vm_pixel_format meta)
      else meta in
    inr (meta, mk_Track track_id Video 0
                 (CodecVideo NalH265 (Z.to_nat (hvcc_length_size_minus_one hvcc + 1)) parameter_sets)).

Record Init := mk_Init { in_demuxer : Demuxer; in_tracks : list Track }.

(** The variables of the loop over the track boxes. *)
Record InitScan := mk_InitScan {
  is_tracks : list Track;
  is_video : option VideoMeta;
  is_sequence_header : option bytes;
  is_video_track_count : Z;
  is_audio_tracks : list AudioMeta;
}.

Definition scan_h264 (track_id : Z) (avcc : AvccBox) (visual : VisualSampleEntryFields) (s : InitScan)
  : MediaRejection + InitScan :=
  let count := sat_u 64 (is_video_track_count s + 1) in
  match is_video s with
  | Some _ => inr (mk_InitScan (is_tracks s) (is_video s) (is_sequence_header s) count (is_audio_tracks s))
  | None =>
      let parameter_sets := start_codes (avcc_sps_list avcc ++ avcc_pps_list avcc) in
      match avcc_sps_list avcc with
      | [] => inl Malformed
      | sps :: _ =>
          inr (mk_InitScan
                 (is_tracks s ++ [mk_Track track_id Video 0
                    (CodecVideo NalH264 (Z.to_nat (avcc_length_size_minus_one avcc + 1)) parameter_sets)])
                 (Some (video_meta sps (vs_width visual) (vs_height visual)))
                 (build_avcc_sequence_header parameter_sets) count (is_audio_tracks s))
      end
  end.

Definition scan_hevc (track_id : Z) (hvcc : HvccBox) (visual : VisualSampleEntryFields) (s : InitScan)
  : MediaRejection + InitScan :=
  let count := sat_u 64 (is_video_track_count s + 1) in
  match is_video s with
  | Some _ => inr (mk_InitScan (is_tracks s) (is_video s) (is_sequence_header s) count (is_audio_tracks s))
  | None =>
      match hevc_track track_id hvcc visual with
      | inl e => inl e
      | inr (meta, track) =>
          inr (mk_InitScan (is_tracks s ++ [track]) (Some meta) (is_sequence_header s) count (is_audio_tracks s))
      end
  end.

Definition scan_aac (track_id : Z) (dec_specific_info : option bytes) (s : InitScan)
  : MediaRejection + InitScan :=
  match dec_specific_info with
  | None => inl Malformed
  | Some asc =>
      match from_audio_specific_config asc with
      | inl e => inl e
      | inr adts =>
          let track_index := default (2 ^ 32 - 1) (checked_u 32 (zlen (is_audio_tracks s))) in
          inr (mk_InitScan
                 (is_tracks s ++ [mk_Track track_id Audio track_index (CodecAac adts)])
                 (is_video s) (is_sequence_header s) (is_video_track_count s)
                 (is_audio_tracks s ++ [mk_AudioMeta "aac" (sample_rate adts) (channels adts) None track_index
                                          None None None (Some (profile adts))]))
      end
  end.

(** The body of the loop. *)
Definition scan_trak (trak : TrakBox) (s : InitScan) : MediaRejection + InitScan :=
  let track_id := tb_track_id trak in
  match tb_handler trak, tb_entries trak with
  | OtherHandler, _ => inr s
  | HANDLER_TYPE_VIDE, [Avc1 avcc visual] => scan_h264 track_id avcc visual s
  | HANDLER_TYPE_VIDE, [Hev1 hvcc visual] => scan_hevc track_id hvcc visual s
  | HANDLER_TYPE_VIDE, [Hvc1 hvcc visual] => scan_hevc track_id hvcc visual s
  | HANDLER_TYPE_SOUN, [Mp4a info] => scan_aac track_id info s
  | _, _ => inl Unsupported
  end.

Fixpoint scan_traks (traks : list TrakBox) (s : InitScan) : MediaRejection + InitScan :=
  match traks with
  | [] => inr s
  | trak :: traks =>
      match scan_trak trak s with
      | inl e => inl e
      | inr s => scan_traks traks s
      end
  end.

Definition moov_bytes (l : bytes) : option bytes :=
  match moov_range l with
  | inl _ => None
  | inr (a, b) => get_range a b l
  end.

Definition parse_init (l : bytes) (max_bytes : Z) : MediaRejection + (Init * DemuxProbe) :=
  if max_bytes <? zlen l then inl TooLarge
  else
    match moov_bytes l with
    | None => inl Malformed
    | Some moov =>
        match decode_moov moov with
        | None => inl Malformed
        | Some traks =>
            match scan_traks traks (mk_InitScan [] None None 0 []) with
            | inl e => inl e
            | inr s =>
                match is_tracks s with
                | [] => inl Unsupported
                | tracks =>
                    match handle_init_segment demuxer_new l with
                    | None => inl Malformed
                    | Some demuxer =>
                        inr (mk_Init demuxer tracks,
                             mk_DemuxProbe (is_video s) (is_sequence_header s) (is_video_track_count s)
                               (is_audio_tracks s))
                    end
                end
            end
        end
    end.

Definition check_init (l : bytes) (max_bytes : Z) : MediaRejection + unit :=
  match parse_init l max_bytes with
  | inl e => inl e
  | inr _ => inr tt
  end.

(** *** Samples *)

(** [ticks] is an [i128]. *)
Definition ticks_to_ms (ticks timescale : Z) : option Z :=
  if timescale =? 0 then None
  else
    scaled ← checked_i 128 (ticks * 1000);
    scaled ← checked_i 128 (scaled + timescale / 2);
    (* [div_euclid] by a positive number *)
    checked_i 64 (scaled / timescale).

(** What the first pass over a video sample reads: IRAP, SPS, length. *)
Definition scan_nalu (nal : VideoNal) (nalu : bytes) (s : bool * bool * Z) : bool * bool * Z :=
  let '(irap, has_sps, annexb_len) := s in
  let header := default 0 (head nalu) in
  let nal_type := (header .>> 1) .& 0x3F in
  (irap || ((16 <=? nal_type) && (nal_type <=? 23)),
   has_sps || is_sps nal header,
   sat_u 64 (annexb_len + sat_u 64 (zlen nalu + zlen START_CODE))).

(** The payload of a sample and whether it is a keyframe. *)
Definition convert_payload (codec : Codec) (keyframe : bool) (data : bytes) : MediaRejection + (bytes * bool) :=
  match codec with
  | CodecVideo nal nalu_length_size parameter_sets =>
      let '(framed, (irap, has_sps, _)) :=
        for_each_length_prefixed (scan_nalu nal) nalu_length_size data (false, false, 0) in
      if negb framed then inl Malformed
      else
        let keyframe := if bool_decide (nal = NalH265) then keyframe && irap else keyframe in
        let inject := keyframe && negb has_sps in
        let payload := if inject then parameter_sets else [] in
        let '(_, payload) :=
          for_each_length_prefixed (fun nalu p => p ++ START_CODE ++ nalu) nalu_length_size data payload in
        inr (payload, keyframe)
  | CodecAac adts =>
      match build_adts_header_for (zlen data) (ac_object_type adts) (ac_freq_index adts)
              (ac_channel_config adts) with
      | None => inl Malformed
      | Some header => inr (header ++ data, keyframe)
      end
  end.

Definition convert_sample (track : Track) (timescale timestamp composition_offset : Z) (keyframe : bool)
    (data : bytes) : MediaRejection + MediaPacket :=
  let dts := ticks_to_ms timestamp timescale in
  let pts := ticks ← checked_i 128 (timestamp + composition_offset); ticks_to_ms ticks timescale in
  match dts, pts with
  | Some dts, Some pts =>
      match convert_payload (tr_codec track) keyframe data with
      | inl e => inl e
      | inr (payload, keyframe) =>
          inr (mk_MediaPacket (tr_media_type track) Raw (bool_decide (tr_media_type track = Video) && keyframe)
                 (tr_track_index track) pts dts payload)
      end
  | _, _ => inl Malformed
  end.

(** *** Fragments *)

Record SamplePlan := mk_SamplePlan {
  sp_track : nat;
  sp_timescale : Z;
  sp_timestamp : Z;
  sp_dts_ms : Z;
  sp_composition_offset : Z;
  sp_keyframe : bool;
  sp_offset : Z;
  sp_size : Z;
  sp_release_at : Z;
}.

(** One sample of the first loop of [plan_fragment]: skipped, planned or refused. *)
Definition plan_sample (tracks : list Track) (fragment_end : Z) (sample : Sample)
  : MediaRejection + option SamplePlan :=
  match position (fun track => tr_track_id track =? sm_track_id sample) tracks with
  | None => inr None
  | Some track =>
      match ticks_to_ms (sm_timestamp sample) (sm_timescale sample) with
      | None => inl Malformed
      | Some dts_ms =>
          (* [usize::try_from] of a [u64] keeps it *)
          inr (Some (mk_SamplePlan track (sm_timescale sample) (sm_timestamp sample) dts_ms
                       (default 0 (sm_composition_time_offset sample)) (sm_keyframe sample)
                       (sm_data_offset sample) (sm_data_size sample) fragment_end))
      end
  end.

Fixpoint plan_samples (tracks : list Track) (fragment_end : Z) (samples : list Sample)
  : MediaRejection + list SamplePlan :=
  match samples with
  | [] => inr []
  | sample :: samples =>
      match plan_sample tracks fragment_end sample with
      | inl e => inl e
      | inr plan =>
          match plan_samples tracks fragment_end samples with
          | inl e => inl e
          | inr plans => inr (match plan with Some p => p :: plans | None => plans end)
          end
      end
  end.

Definition set_release_at (p : SamplePlan) (release_at : Z) : SamplePlan :=
  mk_SamplePlan (sp_track p) (sp_timescale p) (sp_timestamp p) (sp_dts_ms p) (sp_composition_offset p)
    (sp_keyframe p) (sp_offset p) (sp_size p) release_at.

(** The second loop: the cumulative shares. *)
Fixpoint share_release (fragment_end release_at : Z) (plans : list SamplePlan) : list SamplePlan :=
  match plans with
  | [] => []
  | p :: plans =>
      let release_at := Z.min (sat_u 64 (release_at + sp_size p)) fragment_end in
      set_release_at p release_at :: share_release fragment_end release_at plans
  end.

Definition plan_fragment (tracks : list Track) (samples : list Sample) (range : nat * nat)
  : MediaRejection + list SamplePlan :=
  match plan_samples tracks (Z.of_nat range.2) samples with
  | inl e => inl e
  | inr plans =>
      let plans := sort_by (fun a b => sp_dts_ms a <=? sp_dts_ms b) plans in
      inr (share_release (Z.of_nat range.2) (Z.of_nat range.1) plans)
  end.

(** *** The session's demuxer *)

Record Releasing := mk_Releasing { rl_range : nat * nat; rl_plans : list SamplePlan; rl_next : nat }.
Record Object := mk_Object {
  ob_bytes : bytes;
  ob_next_fragment : nat;
  ob_arrived : Z;
  ob_releasing : option Releasing;
}.
Record Fmp4Demux := mk_Fmp4Demux {
  fd_init : option Init;
  fd_object : option Object;
  fd_fragments : list (nat * nat);
  fd_output : list MediaPacket;
  fd_probe : option DemuxProbe;
  fd_unknown_logged : bool;
}.

Definition Fmp4Demux_default : Fmp4Demux := mk_Fmp4Demux None None [] [] None false.

Definition set_object (o : option Object) (d : Fmp4Demux) : Fmp4Demux :=
  mk_Fmp4Demux (fd_init d) o (fd_fragments d) (fd_output d) (fd_probe d) (fd_unknown_logged d).
Definition set_arrived (n : Z) (o : Object) : Object :=
  mk_Object (ob_bytes o) (ob_next_fragment o) n (ob_releasing o).

(** One planned sample, from its fragment's bytes. *)
Definition convert_plan (tracks : list Track) (fragment : bytes) (p : SamplePlan) : MediaRejection + MediaPacket :=
  match tracks !! sp_track p with
  | None => inl Malformed
  | Some track =>
      match e ← checked_u 64 (sp_offset p + sp_size p);
            get_range (Z.to_nat (sp_offset p)) (Z.to_nat e) fragment with
      | None => inl Malformed
      | Some data =>
          convert_sample track (sp_timescale p) (sp_timestamp p) (sp_composition_offset p) (sp_keyframe p) data
      end
  end.

(** The inner loop of [advance], over the plans from [next] on: the error it ended with, the
    budget, [next] and the output after it. *)
Fixpoint release_loop (tracks : list Track) (fragment : bytes) (arrived : Z) (plans : list SamplePlan)
    (budget : Z) (next : nat) (output : list MediaPacket)
  : option MediaRejection * Z * nat * list MediaPacket :=
  match plans with
  | [] => (None, budget, next, output)
  | p :: plans =>
      if (0 <? budget) && (sp_release_at p <=? arrived) then
        match convert_plan tracks fragment p with
        | inl e => (Some e, budget, next, output)
        | inr packet =>
            release_loop tracks fragment arrived plans (sat_u 64 (budget - 1)) (S next) (output ++ [packet])
        end
      else (None, budget, next, output)
  end.

(** The variables of the loop of [advance]. *)
Record Advance := mk_Advance {
  av_demuxer : Demuxer;
  av_object : Object;
  av_output : list MediaPacket;
  av_budget : Z;
}.

(** The first half of a turn, without a fragment in progress: [None] is the loop's [break]. *)
Definition open_fragment (tracks : list Track) (fragments : list (nat * nat)) (a : Advance)
  : option (option MediaRejection * Advance * option Releasing) :=
  let o := av_object a in
  match fragments !! ob_next_fragment o with
  | None => None
  | Some range =>
      if (ob_arrived o <=? Z.of_nat range.1) || (av_budget a =? 0) then None
      else
        match get_range range.1 range.2 (ob_bytes o) with
        | None => Some (Some Malformed, a, None)
        | Some fragment =>
            let '(demuxer, samples) := handle_media_segment (av_demuxer a) fragment in
            let a := mk_Advance demuxer o (av_output a) (av_budget a) in
            match samples with
            | None => Some (Some Malformed, a, None)
            | Some samples =>
                match plan_fragment tracks samples range with
                | inl e => Some (Some e, a, None)
                | inr plans =>
                    let releasing := mk_Releasing range plans 0 in
                    Some (None,
                          mk_Advance demuxer
                            (mk_Object (ob_bytes o) (ob_next_fragment o) (ob_arrived o) (Some releasing))
                            (av_output a) (sat_u 64 (av_budget a - Z.max (zlen plans) 1)),
                          Some releasing)
                end
            end
        end
  end.

(** The second half of a turn: release of the fragment in progress. *)
Definition release_fragment (tracks : list Track) (r : Releasing) (a : Advance)
  : option MediaRejection * bool * Advance :=
  let o := av_object a in
  match get_range (rl_range r).1 (rl_range r).2 (ob_bytes o) with
  | None => (Some Malformed, false, a)
  | Some fragment =>
      let '(error, budget, next, output) :=
        release_loop tracks fragment (ob_arrived o) (drop (rl_next r) (rl_plans r)) (av_budget a) (rl_next r)
          (av_output a) in
      let kept := Some (mk_Releasing (rl_range r) (rl_plans r) next) in
      let stay := mk_Advance (av_demuxer a)
                    (mk_Object (ob_bytes o) (ob_next_fragment o) (ob_arrived o) kept) output budget in
      match error with
      | Some e => (Some e, false, stay)
      | None =>
          if (next <? length (rl_plans r))%nat then (None, false, stay)
          else (None, true,
                mk_Advance (av_demuxer a)
                  (mk_Object (ob_bytes o) (S (ob_next_fragment o)) (ob_arrived o) None) output budget)
      end
  end.

(** One turn of the loop: its error, and whether another turn follows. *)
Definition turn (tracks : list Track) (fragments : list (nat * nat)) (a : Advance)
  : option MediaRejection * bool * Advance :=
  let opened :=
    match ob_releasing (av_object a) with
    | Some r => Some (None, a, Some r)
    | None => open_fragment tracks fragments a
    end in
  match opened with
  | None => (None, false, a)
  | Some (Some e, a, _) => (Some e, false, a)
  | Some (None, a, None) => (None, false, a)
  | Some (None, a, Some r) => release_fragment tracks r a
  end.

Fixpoint advance_loop (fuel : nat) (tracks : list Track) (fragments : list (nat * nat)) (a : Advance)
  : option MediaRejection * Advance :=
  match fuel with
  | O => (None, a)
  | S fuel' =>
      match turn tracks fragments a with
      | (Some e, _, a) => (Some e, a)
      | (None, false, a) => (None, a)
      | (None, true, a) => advance_loop fuel' tracks fragments a
      end
  end.

Definition to_result (e : option MediaRejection) : MediaRejection + unit :=
  match e with Some e => inl e | None => inr tt end.

Definition advance (budget : Z) (d : Fmp4Demux) : Fmp4Demux * (MediaRejection + unit) :=
  match fd_object d with
  | None => (d, inr tt)
  | Some object =>
      match fd_init d with
      | None => (d, inl Malformed)
      | Some init =>
          let '(e, a) :=
            advance_loop (S (S (length (fd_fragments d)))) (in_tracks init) (fd_fragments d)
              (mk_Advance (in_demuxer init) object (fd_output d) budget) in
          (mk_Fmp4Demux (Some (mk_Init (av_demuxer a) (in_tracks init))) (Some (av_object a)) (fd_fragments d)
             (av_output a) (fd_probe d) (fd_unknown_logged d),
           to_result e)
      end
  end.

Definition begin_object (l : bytes) (d : Fmp4Demux) : Fmp4Demux * (MediaRejection + unit) :=
  match fd_init d with
  | None => (d, inl Malformed)
  | Some _ =>
      let '(report, fragments) := media_fragments l in
      match report with
      | inl _ => (mk_Fmp4Demux (fd_init d) (fd_object d) fragments (fd_output d) (fd_probe d) (fd_unknown_logged d),
                  inl Malformed)
      | inr report =>
          (mk_Fmp4Demux (fd_init d) (Some (mk_Object l 0 0 None)) fragments (fd_output d) (fd_probe d)
             (fd_unknown_logged d || bool_decide (is_Some (first_unknown report))),
           inr tt)
      end
  end.

Definition feed (chunk : bytes) (d : Fmp4Demux) : Fmp4Demux * (MediaRejection + unit) :=
  match fd_object d with
  | None => (d, inl Malformed)
  | Some o =>
      advance MAX_SAMPLES_PER_STEP
        (set_object (Some (set_arrived (Z.min (sat_u 64 (ob_arrived o + zlen chunk)) (zlen (ob_bytes o))) o)) d)
  end.

Definition pending (d : Fmp4Demux) : bool :=
  match fd_object d with
  | None => false
  | Some o =>
      match ob_releasing o with
      | Some r =>
          match rl_plans r !! rl_next r with
          | Some plan => sp_release_at plan <=? ob_arrived o
          | None => false
          end
      | None =>
          match fd_fragments d !! ob_next_fragment o with
          | Some range => Z.of_nat range.1 <? ob_arrived o
          | None => false
          end
      end
  end.

Definition drain_into (d : Fmp4Demux) (out : list MediaPacket) : nat * list MediaPacket * Fmp4Demux :=
  (length (fd_output d), out ++ fd_output d,
   mk_Fmp4Demux (fd_init d) (fd_object d) (fd_fragments d) [] (fd_probe d) (fd_unknown_logged d)).

Definition end_object (d : Fmp4Demux) : Fmp4Demux * (MediaRejection + unit) :=
  let d := match fd_object d with
           | Some o => set_object (Some (set_arrived (zlen (ob_bytes o)) o)) d
           | None => d
           end in
  let '(d, released) := advance (2 ^ 64 - 1) d in
  (set_object None d, released).

Definition flush (d : Fmp4Demux) : Fmp4Demux :=
  let d := match fd_object d with
           | Some o =>
               match ob_releasing o with
               | Some r => set_object (Some (set_arrived (Z.max (ob_arrived o) (Z.of_nat (rl_range r).2)) o)) d
               | None => d
               end
           | None => d
           end in
  set_object None (advance (2 ^ 64 - 1) d).1.

Definition discard_object (d : Fmp4Demux) : Fmp4Demux :=
  mk_Fmp4Demux (fd_init d) None (fd_fragments d) [] (fd_probe d) (fd_unknown_logged d).

Definition discontinuity (d : Fmp4Demux) : Fmp4Demux := set_object None d.

Definition apply_init (l : bytes) (max_bytes : Z) (d : Fmp4Demux) : Fmp4Demux * (MediaRejection + unit) :=
  match parse_init l max_bytes with
  | inl e => (d, inl e)
  | inr (init, probe) =>
      (mk_Fmp4Demux (Some init) (fd_object d) (fd_fragments d) (fd_output d) (Some probe) (fd_unknown_logged d),
       inr tt)
  end.

Definition take_probe (d : Fmp4Demux) : option DemuxProbe * Fmp4Demux :=
  (fd_probe d,
   mk_Fmp4Demux (fd_init d) (fd_object d) (fd_fragments d) (fd_output d) None (fd_unknown_logged d)).

(** ** Specification: the whole object at once *)

(** Every plan in turn, up to the first that cannot be converted. *)
Fixpoint convert_plans (tracks : list Track) (fragment : bytes) (plans : list SamplePlan)
  : list MediaPacket * option MediaRejection :=
  match plans with
  | [] => ([], None)
  | p :: plans =>
      match convert_plan tracks fragment p with
      | inl e => ([], Some e)
      | inr q => let '(qs, e) := convert_plans tracks fragment plans in (q :: qs, e)
      end
  end.

Abbreviation Outcome := (Demuxer * list MediaPacket * option MediaRejection)%type.

Definition after (qs : list MediaPacket) (x : Outcome) : Outcome := (x.1.1, qs ++ x.1.2, x.2).

Definition demux_fragment (dm : Demuxer) (tracks : list Track) (l : bytes) (range : nat * nat) : Outcome :=
  match get_range range.1 range.2 l with
  | None => (dm, [], Some Malformed)
  | Some fragment =>
      let '(dm, samples) := handle_media_segment dm fragment in
      match samples with
      | None => (dm, [], Some Malformed)
      | Some samples =>
          match plan_fragment tracks samples range with
          | inl e => (dm, [], Some e)
          | inr plans => let '(qs, e) := convert_plans tracks fragment plans in (dm, qs, e)
          end
      end
  end.

Fixpoint demux_fragments (dm : Demuxer) (tracks : list Track) (l : bytes) (ranges : list (nat * nat)) : Outcome :=
  match ranges with
  | [] => (dm, [], None)
  | range :: ranges =>
      let '(dm, qs, e) := demux_fragment dm tracks l range in
      match e with
      | Some e => (dm, qs, Some e)
      | None => after qs (demux_fragments dm tracks l ranges)
      end
  end.

(** What is left of an object in the middle of it. *)
Definition finish (dm : Demuxer) (tracks : list Track) (l : bytes) (r : Releasing) (rest : list (nat * nat)) : Outcome :=
  match get_range (rl_range r).1 (rl_range r).2 l with
  | None => (dm, [], Some Malformed)
  | Some fragment =>
      let '(qs, e) := convert_plans tracks fragment (drop (rl_next r) (rl_plans r)) in
      match e with
      | Some e => (dm, qs, Some e)
      | None => after qs (demux_fragments dm tracks l rest)
      end
  end.
Definition remaining (tracks : list Track) (fragments : list (nat * nat)) (a : Advance) : Outcome :=
  let o := av_object a in
  match ob_releasing o with
  | Some r => finish (av_demuxer a) tracks (ob_bytes o) r (drop (S (ob_next_fragment o)) fragments)
  | None => demux_fragments (av_demuxer a) tracks (ob_bytes o) (drop (ob_next_fragment o) fragments)
  end.

(** ** Pacing *)

Lemma after_nil x : after [] x = x.
Proof. by destruct x as [[??]?]. Qed.
Lemma after_app a b x : after a (after b x) = after (a ++ b) x.
Proof. unfold after. cbn. by rewrite app_assoc. Qed.

(** What the inner loop does: the packets of a prefix of the plans; it stops at an error, at
    the end, without budget, or at a sample that is not released. *)
Lemma release_loop_spec tracks f arrived plans : forall budget next output e budget' next' output',
  0 <= budget < 2 ^ 64 ->
  release_loop tracks f arrived plans budget next output = (e, budget', next', output') ->
  exists qs, output' = output ++ qs /\ next' = (next + length qs)%nat /\ budget' = budget - zlen qs /\ 0 <= budget' /\
    (length qs <= length plans)%nat /\
    match e with
    | Some e => convert_plans tracks f plans = (qs, Some e) /\ (length qs < length plans)%nat
    | None =>
        convert_plans tracks f plans =
          (qs ++ (convert_plans tracks f (drop (length qs) plans)).1, (convert_plans tracks f (drop (length qs) plans)).2) /\
        (forall p, plans !! length qs = Some p -> budget' = 0 \/ arrived < sp_release_at p)
    end.
Proof.
  induction plans as [|p plans IH]; intros budget next output e budget' next' output' Hb; cbn [release_loop].
  { intros [= <- <- <- <-]. exists []. rewrite app_nil_r. unfold zlen. cbn [length drop convert_plans fst snd app].
    split_and!; try (done || lia). }
  destruct ((0 <? budget) && (sp_release_at p <=? arrived)) eqn:Hgo; cycle 1.
  { intros [= <- <- <- <-]. exists []. rewrite app_nil_r, drop_0. cbn [app length lookup list_lookup].
    rewrite <- surjective_pairing. unfold zlen. cbn [length]. split_and!; try (done || lia). intros ? [= ->]. lia. }
  destruct (convert_plan tracks f p) as [err|q] eqn:Hp.
  { intros [= <- <- <- <-]. exists []. cbn [convert_plans length]. rewrite app_nil_r, Hp. unfold zlen; cbn [length].
    split_and!; try (done || lia). }
  assert (Hs : sat_u 64 (budget - 1) = budget - 1) by (unfold sat_u; lia).
  rewrite Hs. intros Hrun. apply IH in Hrun as (qs & -> & -> & -> & Hle & Hlen & Hr); [|lia].
  exists (q :: qs). unfold zlen in *. cbn [length convert_plans drop lookup list_lookup]. rewrite Hp.
  split_and!; try lia; [by rewrite <- app_assoc|]. destruct e as [e|].
  - destruct Hr as [-> ?]. split; [done|lia].
  - destruct Hr as [Hc Hstop]. rewrite Hc. cbn [app]. split; [done|].
    intros p' Hp'. destruct (Hstop p' Hp'); [left|right]; lia.
Qed.

(** *** The invariant of an object in progress *)

Definition releasing_at (next : nat -> nat -> Prop) (fragments : list (nat * nat)) (o : Object) (r : Releasing) : Prop :=
  ob_releasing o = Some r /\ fragments !! ob_next_fragment o = Some (rl_range r) /\
  next (rl_next r) (length (rl_plans r)) /\ zlen (rl_plans r) < 2 ^ 56 /\
  Forall (fun p => sp_release_at p <= Z.of_nat (rl_range r).2) (rl_plans r).

Definition bounds_ok (fragments : list (nat * nat)) (o : Object) : Prop :=
  Forall (in_bounds (ob_bytes o)) fragments /\ (length fragments <= MAX_FRAGMENTS)%nat /\
  0 <= ob_arrived o <= zlen (ob_bytes o).

Definition object_ok (fragments : list (nat * nat)) (o : Object) : Prop :=
  bounds_ok fragments o /\ forall r, ob_releasing o = Some r -> releasing_at lt fragments o r.

(** The parts of an object no step changes. *)
Definition same_object (o o' : Object) : Prop :=
  ob_bytes o' = ob_bytes o /\ ob_arrived o' = ob_arrived o.

Lemma bounds_ok_same fragments o o' : same_object o o' -> bounds_ok fragments o -> bounds_ok fragments o'.
Proof. unfold bounds_ok. by intros [-> ->]. Qed.

Lemma fragment_in_bounds fragments o n range :
  bounds_ok fragments o -> fragments !! n = Some range -> exists f, get_range range.1 range.2 (ob_bytes o) = Some f.
Proof.
  intros (Hf & _) Hn. eapply Forall_lookup_1 in Hf; [|exact Hn]. unfold in_bounds in Hf. unfold get_range.
  rewrite (proj2 (Nat.leb_le _ _)), (proj2 (Nat.leb_le _ _)) by lia. eauto.
Qed.

Lemma plan_samples_length tracks fe samples : forall plans,
  plan_samples tracks fe samples = inr plans -> (length plans <= length samples)%nat.
Proof.
  induction samples as [|s samples IH]; intros plans; cbn [plan_samples]; [by intros [= <-]|].
  destruct (plan_sample _ _ _) as [|plan]; [done|]. destruct (plan_samples _ _ _) as [|ps]; [done|].
  intros [= <-]. specialize (IH _ eq_refl). destruct plan; cbn [length]; lia.
Qed.

Lemma share_release_spec fe plans : forall at_,
  length (share_release fe at_ plans) = length plans /\
  Forall (fun p => sp_release_at p <= fe) (share_release fe at_ plans).
Proof.
  induction plans as [|p plans IH]; intros at_; cbn [share_release]; [done|].
  destruct (IH (Z.min (sat_u 64 (at_ + sp_size p)) fe)) as [Hl Hf]. cbn [length]. rewrite Hl.
  split; [done|]. constructor; [cbn; lia|done].
Qed.

Lemma plan_fragment_spec tracks samples range plans :
  plan_fragment tracks samples range = inr plans ->
  (length plans <= length samples)%nat /\ Forall (fun p => sp_release_at p <= Z.of_nat range.2) plans.
Proof.
  unfold plan_fragment. destruct (plan_samples _ _ _) as [|ps] eqn:Hp; [done|]. intros [= <-].
  destruct (share_release_spec (Z.of_nat range.2) (sort_by (fun a b => sp_dts_ms a <=? sp_dts_ms b) ps)
    (Z.of_nat range.1)) as [Hl Hf].
  rewrite Hl. split; [|done]. apply plan_samples_length in Hp. by rewrite sort_by_perm.
Qed.

(** *** The two halves of a turn *)

Lemma demux_fragments_head dm tracks l fragments n range :
  fragments !! n = Some range ->
  demux_fragments dm tracks l (drop n fragments) =
    let '(dm, qs, e) := demux_fragment dm tracks l range in
    match e with
    | Some e => (dm, qs, Some e)
    | None => after qs (demux_fragments dm tracks l (drop (S n) fragments))
    end.
Proof. intros Hn. by rewrite (drop_S _ _ _ Hn). Qed.

Lemma open_fragment_spec tracks fragments a :
  ob_releasing (av_object a) = None -> bounds_ok fragments (av_object a) ->
  match open_fragment tracks fragments a with
  | None => forall range, fragments !! ob_next_fragment (av_object a) = Some range ->
              ob_arrived (av_object a) <= Z.of_nat range.1 \/ av_budget a = 0
  | Some (Some e, a', _) =>
      remaining tracks fragments a = (av_demuxer a', [], Some e) /\ av_output a' = av_output a /\
      av_object a' = av_object a /\ av_budget a' = av_budget a
  | Some (None, a', r) =>
      exists range plans, r = Some (mk_Releasing range plans 0) /\
        releasing_at le fragments (av_object a') (mk_Releasing range plans 0) /\
        remaining tracks fragments a = remaining tracks fragments a' /\ av_output a' = av_output a /\
        same_object (av_object a) (av_object a') /\ ob_next_fragment (av_object a') = ob_next_fragment (av_object a) /\
        av_budget a' = sat_u 64 (av_budget a - Z.max (zlen plans) 1)
  end.
Proof.
  intros Hr Hok. destruct a as [dm o output budget]. cbn [av_object av_budget] in *. unfold open_fragment.
  cbn [av_object av_budget av_demuxer av_output]. destruct (fragments !! ob_next_fragment o) as [range|] eqn:Hn; [|done].
  destruct ((ob_arrived o <=? Z.of_nat range.1) || (budget =? 0)) eqn:Hstop; [intros ? [= <-]; lia|].
  unfold remaining. cbn [av_object av_demuxer]. rewrite Hr, (demux_fragments_head _ _ _ _ _ _ Hn). unfold demux_fragment.
  destruct (get_range range.1 range.2 (ob_bytes o)) as [f|] eqn:Hf; [|done].
  destruct (handle_media_segment dm f) as [dm' [samples|]] eqn:Hm; [|done].
  destruct (plan_fragment tracks samples range) as [e|plans] eqn:Hp; [done|].
  apply samples_in_memory in Hm. apply plan_fragment_spec in Hp as [Hl Hrel].
  exists range, plans. split; [done|]. cbn [av_object ob_releasing ob_bytes ob_next_fragment ob_arrived av_output].
  split_and!; try done.
  - unfold releasing_at, zlen in *.
    cbn [ob_releasing ob_next_fragment rl_next rl_plans rl_range]. split_and!; (done || lia).
  - unfold finish. cbn [rl_range rl_next rl_plans]. rewrite Hf, drop_0.
    destruct (convert_plans tracks f plans) as [qs [e|]]; done.
Qed.

Lemma release_fragment_spec tracks fragments r a e go a' :
  releasing_at le fragments (av_object a) r -> bounds_ok fragments (av_object a) -> 0 <= av_budget a < 2 ^ 64 ->
  release_fragment tracks r a = (e, go, a') ->
  exists qs, av_output a' = av_output a ++ qs /\ av_budget a' = av_budget a - zlen qs /\ 0 <= av_budget a' /\
    (zlen qs <= zlen (rl_plans r) - Z.of_nat (rl_next r)) /\
    same_object (av_object a) (av_object a') /\ object_ok fragments (av_object a') /\
    match e with
    | Some e => remaining tracks fragments a = (av_demuxer a', qs, Some e)
    | None =>
        remaining tracks fragments a = after qs (remaining tracks fragments a') /\
        if go then ob_releasing (av_object a') = None /\
                   ob_next_fragment (av_object a') = S (ob_next_fragment (av_object a))
        else exists r', ob_releasing (av_object a') = Some r' /\ rl_next r' = (rl_next r + length qs)%nat /\
               rl_plans r' = rl_plans r /\
               ob_next_fragment (av_object a') = ob_next_fragment (av_object a) /\
               forall p, rl_plans r !! rl_next r' = Some p ->
                 av_budget a' = 0 \/ ob_arrived (av_object a) < sp_release_at p
    end.
Proof.
  intros (Hrel & Hn & Hnext & Hmem & Hat) Hok Hb. destruct a as [dm o output budget].
  cbn [av_object av_budget av_output av_demuxer] in *. unfold release_fragment. cbn [av_object av_budget av_output av_demuxer].
  destruct (fragment_in_bounds _ _ _ _ Hok Hn) as [f Hf]. unfold remaining, finish. cbn [av_object av_demuxer].
  rewrite Hrel, Hf. destruct (release_loop _ _ _ _ _ _ _) as [[[err budget'] next'] output'] eqn:Hloop.
  apply release_loop_spec in Hloop as (qs & -> & -> & -> & Hle & Hlen & Hout); [|done]. rewrite length_drop in Hlen.
  destruct err as [err|]; [|destruct (_ <? _)%nat eqn:Hend]; intros [= <- <- <-]; exists qs;
    cbn [av_object av_budget av_output av_demuxer ob_bytes ob_arrived ob_releasing ob_next_fragment].
  - destruct Hout as [-> Hlt]. rewrite length_drop in Hlt. unfold zlen in *. split_and!; try (done || lia).
    split; [done|]. cbn [ob_releasing]. intros ? [= <-]. unfold releasing_at, zlen.
    cbn [ob_releasing ob_next_fragment rl_next rl_plans rl_range]. split_and!; (done || lia).
  - apply Nat.ltb_lt in Hend. destruct Hout as [-> Hstop]. unfold zlen in *. split_and!; try (done || lia).
    + split; [done|]. cbn [ob_releasing]. intros ? [= <-]. unfold releasing_at, zlen. cbn [ob_releasing ob_next_fragment rl_next rl_plans rl_range].
      split_and!; done.
    + cbn [rl_range rl_next rl_plans]. rewrite Hf, <- drop_drop.
      destruct (convert_plans tracks f (drop (length qs) _)) as [ps [?|]]; cbn [fst snd]; [done|].
      by rewrite after_app.
    + eexists. split_and!; [done..|]. cbn [rl_next]. intros p Hp. apply Hstop. by rewrite lookup_drop.
  - apply Nat.ltb_ge in Hend. destruct Hout as [-> _]. unfold zlen in *. split_and!; try (done || lia).
    rewrite drop_ge by (rewrite length_drop; lia). cbn [convert_plans fst snd]. by rewrite app_nil_r.
Qed.

(** *** Turns *)

(** [pending] of an object. *)
Definition object_pending (fragments : list (nat * nat)) (o : Object) : bool :=
  pending (mk_Fmp4Demux None (Some o) fragments [] None false).

(** Fragments left, and samples left in the one in progress. *)
Definition work_left (fragments : list (nat * nat)) (o : Object) : Z :=
  (Z.of_nat (length fragments) - Z.of_nat (ob_next_fragment o)) * 2 ^ 57 +
  match ob_releasing o with
  | Some r => zlen (rl_plans r) - Z.of_nat (rl_next r) + 1 - 2 ^ 57
  | None => 0
  end.

Record turn_ok (tracks : list Track) (fragments : list (nat * nat)) (a : Advance) (e : option MediaRejection)
    (go : bool) (a' : Advance) (qs : list MediaPacket) : Prop := {
  to_output : av_output a' = av_output a ++ qs;
  to_budget : 0 <= av_budget a' <= av_budget a - zlen qs;
  to_cost : av_budget a - 2 ^ 57 <= av_budget a';
  to_same : same_object (av_object a) (av_object a');
  to_ok : object_ok fragments (av_object a');
  to_error : forall err, e = Some err -> remaining tracks fragments a = (av_demuxer a', qs, Some err);
  to_rest : e = None -> remaining tracks fragments a = after qs (remaining tracks fragments a');
  to_go : e = None -> go = true ->
    ob_next_fragment (av_object a') = S (ob_next_fragment (av_object a)) /\
    (ob_next_fragment (av_object a) < length fragments)%nat;
  to_stop : e = None -> go = false -> av_budget a' = 0 \/ object_pending fragments (av_object a') = false;
  to_work : e = None ->
    go = false /\ a' = a \/
    work_left fragments (av_object a') < work_left fragments (av_object a) /\
    (ob_next_fragment (av_object a) < length fragments)%nat;
}.

Lemma release_turn_ok tracks fragments r a e go a' :
  releasing_at le fragments (av_object a) r -> bounds_ok fragments (av_object a) -> 0 <= av_budget a < 2 ^ 64 ->
  release_fragment tracks r a = (e, go, a') ->
  exists qs, av_budget a - 2 ^ 56 <= av_budget a' /\ turn_ok tracks fragments a e go a' qs.
Proof.
  intros Hr Hok Hb Hrun.
  destruct (release_fragment_spec _ _ _ _ _ _ _ Hr Hok Hb Hrun) as (qs & Ho & Hbu & Hle & Hlen & Hs & Hok' & He).
  destruct Hr as (Hrel & Hn & Hnext & Hmem & _). apply lookup_lt_Some in Hn as Hlt.
  exists qs. assert (0 <= zlen qs) by (unfold zlen; lia). split; [lia|].
  constructor; try done; try lia.
  - intros err ->. done.
  - intros ->. by destruct He.
  - intros -> ->. destruct He as (_ & _ & ->). done.
  - intros -> ->. destruct He as (_ & r' & Hr' & Hnx & Hpl & Hnf & Hp). destruct Hs as [_ Ha].
    unfold object_pending, pending. cbn [fd_object]. rewrite Hr', Hpl, Ha.
    destruct (rl_plans r !! rl_next r') as [p|] eqn:Hl; [|by right]. destruct (Hp p eq_refl); [by left|right; lia].
  - intros ->. destruct He as [_ He]. unfold work_left. rewrite Hrel. destruct go.
    + right. destruct He as [-> ->]. split; [|done]. unfold zlen in *. lia.
    + destruct He as (r' & Hr' & Hnx & Hpl & Hnf & _). rewrite Hr', Hnx, Hpl, Hnf.
      destruct qs as [|q qs]; [|right; unfold zlen in *; cbn [length] in *; lia].
      left. split; [done|]. rewrite app_nil_r in Ho. revert Hrun Hr' Hs Ho Hbu. unfold release_fragment.
      destruct (get_range _ _ _); [|by intros [= <-]].
      destruct (release_loop _ _ _ _ _ _ _) as [[[err b'] n'] o'].
      destruct err; [done|]. destruct (_ <? _)%nat; [|done]. intros [= <-].
      cbn [av_object ob_releasing av_output av_budget]. intros [= <-] _ -> ->. cbn [rl_next] in Hnx.
      cbn [length] in Hnx. rewrite Nat.add_0_r in Hnx. subst n'.
      destruct a as [dm [ob nf ar rel] out bud]. cbn in *. rewrite Hrel. destruct r. cbn.
      unfold zlen. cbn. by rewrite Z.sub_0_r.
Qed.

Lemma advance_turn_spec tracks fragments a e go a' :
  object_ok fragments (av_object a) -> 0 <= av_budget a < 2 ^ 64 ->
  turn tracks fragments a = (e, go, a') -> exists qs, turn_ok tracks fragments a e go a' qs.
Proof.
  intros [Hok Hrel] Hb. unfold turn. destruct (ob_releasing (av_object a)) as [r|] eqn:Hr.
  { intros Hrun. destruct (Hrel r eq_refl) as (? & ? & ? & ? & ?).
    apply (release_turn_ok _ fragments) in Hrun as (qs & _ & Hq); [by exists qs| |done..].
    unfold releasing_at. split_and!; try done. lia. }
  pose proof (open_fragment_spec tracks fragments a Hr Hok) as Hopen.
  destruct (open_fragment tracks fragments a) as [[[err a1] o]|] eqn:Hrun1; cycle 1.
  { intros [= <- <- <-]. exists []. constructor; rewrite ?app_nil_r, ?after_nil; try done; try (by left).
    - unfold zlen. cbn [length]. lia.
    - lia.
    - by split; [|intros ? Hx; rewrite Hr in Hx].
    - intros _ _. unfold object_pending, pending. cbn [fd_object fd_fragments]. rewrite Hr.
      destruct (fragments !! _) as [range|]; [|by right]. destruct (Hopen range eq_refl); [right; lia|by left]. }
  destruct err as [err|].
  { destruct Hopen as (Hrem & Ho & Hob & Hbu). intros [= <- <- <-]. exists [].
    constructor; rewrite ?app_nil_r, ?Hob, ?Hbu; try done.
    - unfold zlen. cbn [length]. lia.
    - lia.
    - by split; [|intros ? Hx; rewrite Hr in Hx].
    - by intros ? [= <-]. }
  destruct Hopen as (range & plans & -> & Hr1 & Hrem & Ho & Hs & Hnf & Hbu). intros Hrun.
  destruct Hr1 as (Hr1 & Hn & Hnx & Hmem & Hat). cbn [rl_plans rl_next] in *. apply lookup_lt_Some in Hn as Hlt.
  assert (Hb1 : 0 <= av_budget a1 <= av_budget a /\ av_budget a - 2 ^ 56 <= av_budget a1)
    by (rewrite Hbu; unfold sat_u; lia).
  destruct (release_turn_ok tracks fragments _ a1 e go a' ltac:(unfold releasing_at; split_and!; done)
    (bounds_ok_same _ _ _ Hs Hok) ltac:(lia) Hrun) as (qs & Hcost & Hq).
  exists qs. destruct Hq. constructor; try done; try lia.
  - by rewrite to_output0, Ho.
  - destruct Hs, to_same0. split; congruence.
  - intros ? ?. rewrite Hrem. by apply to_error0.
  - intros ?. rewrite Hrem. by apply to_rest0.
  - rewrite <- Hnf. by apply to_go0.
  - intros He. right. rewrite <- Hnf. assert (Hw1 : work_left fragments (av_object a1) < work_left fragments (av_object a)).
    { unfold work_left. rewrite Hr, Hr1, Hnf. cbn [rl_plans rl_next]. lia. }
    destruct (to_work0 He) as [[_ ->]|[? ?]]; split; try done; lia.
Qed.

(** *** The loop *)

Record loop_ok (tracks : list Track) (fragments : list (nat * nat)) (a : Advance) (e : option MediaRejection)
    (a' : Advance) (qs : list MediaPacket) : Prop := {
  lo_output : av_output a' = av_output a ++ qs;
  lo_budget : 0 <= av_budget a' <= av_budget a - zlen qs;
  lo_cost : e = None ->
    av_budget a - (Z.of_nat (length fragments) - Z.of_nat (ob_next_fragment (av_object a))) * 2 ^ 57 <= av_budget a' \/ a' = a;
  lo_same : same_object (av_object a) (av_object a');
  lo_ok : object_ok fragments (av_object a');
  lo_error : forall err, e = Some err -> remaining tracks fragments a = (av_demuxer a', qs, Some err);
  lo_rest : e = None -> remaining tracks fragments a = after qs (remaining tracks fragments a');
  lo_work : e = None -> a' = a \/ work_left fragments (av_object a') < work_left fragments (av_object a);
  lo_stop : e = None -> av_budget a' = 0 \/ object_pending fragments (av_object a') = false;
}.

Lemma advance_loop_spec tracks fragments fuel : forall a e a',
  object_ok fragments (av_object a) -> 0 <= av_budget a < 2 ^ 64 ->
  (length fragments - ob_next_fragment (av_object a) < fuel)%nat ->
  advance_loop fuel tracks fragments a = (e, a') -> exists qs, loop_ok tracks fragments a e a' qs.
Proof.
  induction fuel as [|fuel IH]; intros a e a' Hok Hb Hf; [lia|]. cbn [advance_loop].
  destruct (turn tracks fragments a) as [[e1 go] a1] eqn:Ht.
  apply advance_turn_spec in Ht as [qs [Ho Hbu Hc Hs Hok1 He Hr Hgo Hstop Hw]]; [|done..].
  destruct e1 as [err|]; [|specialize (Hr eq_refl); specialize (Hw eq_refl); destruct go].
  - intros [= <- <-]. exists qs. by constructor.
  - destruct (Hgo eq_refl eq_refl) as [Hnf Hlt]. intros Hrun.
    assert (0 <= zlen qs) by (unfold zlen; lia).
    apply IH in Hrun as [qs' [Ho' Hbu' Hc' Hs' Hok' He' Hr' Hw' Hstop']]; [|done|lia|lia].
    destruct Hw as [[? _]|[Hw _]]; [done|]. exists (qs ++ qs'). constructor; try done.
    + by rewrite Ho', Ho, app_assoc.
    + unfold zlen in *. rewrite length_app. lia.
    + intros Hn. left. destruct (Hc' Hn) as [Hc1| ->]; rewrite ?Hnf in *; lia.
    + destruct Hs, Hs'. split; congruence.
    + intros err Herr. rewrite Hr, (He' _ Herr). done.
    + intros Hn. by rewrite Hr, (Hr' Hn), after_app.
    + intros Hn. right. destruct (Hw' Hn) as [->|?]; lia.
  - intros [= <- <-]. exists qs. constructor; try done.
    + intros _. destruct Hw as [[_ ->]|[_ Hlt]]; [by right|left; lia].
    + intros _. destruct Hw as [[_ ->]|[? _]]; auto.
    + intros _. by apply Hstop.
Qed.

(** *** Whole steps *)

Definition state_of (i : Init) (o : Object) (d : Fmp4Demux) : Prop :=
  fd_init d = Some i /\ fd_object d = Some o /\ object_ok (fd_fragments d) o.

Definition left_of (i : Init) (o : Object) (fragments : list (nat * nat)) : Outcome :=
  remaining (in_tracks i) fragments (mk_Advance (in_demuxer i) o [] 0).

Lemma advance_spec budget i o d d' r :
  state_of i o d -> 0 <= budget < 2 ^ 64 -> advance budget d = (d', r) ->
  exists qs dm o', let i' := mk_Init dm (in_tracks i) in
    d' = mk_Fmp4Demux (Some i') (Some o') (fd_fragments d) (fd_output d ++ qs) (fd_probe d) (fd_unknown_logged d) /\
    same_object o o' /\ object_ok (fd_fragments d) o' /\ zlen qs <= budget /\
    match r with
    | inl e => left_of i o (fd_fragments d) = (dm, qs, Some e)
    | inr _ =>
        left_of i o (fd_fragments d) = after qs (left_of i' o' (fd_fragments d)) /\
        (object_pending (fd_fragments d) o' = false \/
         zlen (fd_fragments d) * 2 ^ 57 >= budget) /\
        (work_left (fd_fragments d) o' < work_left (fd_fragments d) o \/
         o' = o /\ i' = i /\ qs = [] /\ (budget = 0 \/ object_pending (fd_fragments d) o = false))
    end.
Proof.
  intros (Hi & Ho & Hok) Hb. unfold advance. rewrite Hi, Ho.
  destruct (advance_loop _ _ _ _) as [e a'] eqn:Hrun.
  apply advance_loop_spec in Hrun as [qs [Hout Hbu Hc Hs Hok' He Hr Hw Hst]]; [|done|done|cbn; lia].
  intros [= <- <-]. cbn [av_object av_output av_budget] in *. exists qs, (av_demuxer a'), (av_object a').
  split_and!; try done; [by rewrite Hout|lia|]. destruct e as [e|]; cbn [to_result].
  - by apply He.
  - split_and!.
    + apply Hr. done.
    + destruct (Hst eq_refl) as [Hz|]; [right|by left]. unfold zlen. destruct (Hc eq_refl) as [Hc'| ->]; [lia|].
      cbn [av_budget] in Hz. lia.
    + destruct (Hw eq_refl) as [->|?]; [right|by left]. cbn [av_object av_demuxer av_output av_budget] in *.
      apply (f_equal length) in Hout. rewrite length_app in Hout.
      split_and!; [done|by destruct i|apply nil_length_inv; lia|]. by apply Hst.
Qed.

Lemma object_ok_arrived fragments o n :
  object_ok fragments o -> 0 <= n <= zlen (ob_bytes o) -> object_ok fragments (set_arrived n o).
Proof. intros [(? & ? & _) Hr] Hn. by split. Qed.

Lemma nothing_left fragments i o :
  object_ok fragments o -> ob_arrived o = zlen (ob_bytes o) -> object_pending fragments o = false ->
  left_of i o fragments = (in_demuxer i, [], None).
Proof.
  intros [(Hb & _ & _) Hr] Ha. unfold object_pending, pending, left_of, remaining.
  cbn [fd_object fd_fragments av_object av_demuxer]. rewrite Ha.
  assert (Hin : forall n range, fragments !! n = Some range -> (range.1 < range.2 <= length (ob_bytes o))%nat)
    by (intros n range; apply (Forall_lookup_1 _ _ _ _ Hb)).
  destruct (ob_releasing o) as [r|] eqn:Hrel.
  - destruct (Hr r eq_refl) as (_ & Hn & Hlt & _ & Hat). apply Hin in Hn.
    apply lookup_lt_is_Some_2 in Hlt as [p Hp]. rewrite Hp. eapply Forall_lookup_1 in Hat; [|exact Hp].
    unfold zlen. cbn beta in Hat. lia.
  - destruct (fragments !! ob_next_fragment o) as [range|] eqn:Hn.
    + apply Hin in Hn. unfold zlen. lia.
    + intros _. apply lookup_ge_None in Hn. by rewrite drop_ge.
Qed.

Definition arrives (chunk : bytes) (o : Object) : Z := Z.min (ob_arrived o + zlen chunk) (zlen (ob_bytes o)).

Lemma pending_arrived fragments o n :
  ob_arrived o <= n -> object_pending fragments o = true -> object_pending fragments (set_arrived n o) = true.
Proof.
  intros Hn. unfold object_pending, pending. cbn [fd_object fd_fragments set_arrived ob_releasing ob_arrived ob_next_fragment].
  destruct (ob_releasing o) as [r|]; [destruct (rl_plans r !! rl_next r)|destruct (fragments !! _)]; lia || done.
Qed.

Lemma feed_spec chunk i o d d' r :
  state_of i o d -> zlen (ob_bytes o) + zlen chunk < 2 ^ 64 -> feed chunk d = (d', r) ->
  exists qs dm o', let i' := mk_Init dm (in_tracks i) in
    state_of i' o' d' /\ fd_fragments d' = fd_fragments d /\ fd_output d' = fd_output d ++ qs /\
    ob_bytes o' = ob_bytes o /\ ob_arrived o' = arrives chunk o /\ zlen qs <= MAX_SAMPLES_PER_STEP /\
    match r with
    | inl e => left_of i o (fd_fragments d) = (dm, qs, Some e)
    | inr _ =>
        left_of i o (fd_fragments d) = after qs (left_of i' o' (fd_fragments d)) /\
        work_left (fd_fragments d) o' <= work_left (fd_fragments d) o /\
        (object_pending (fd_fragments d) o = true -> work_left (fd_fragments d) o' < work_left (fd_fragments d) o)
    end.
Proof.
  intros (Hi & Ho & Hok) Hl. unfold feed. rewrite Ho. destruct Hok as [(Hfr & Hfl & Ha) Hrel].
  assert (Hn : Z.min (sat_u 64 (ob_arrived o + zlen chunk)) (zlen (ob_bytes o)) = arrives chunk o)
    by (unfold arrives, sat_u, zlen in *; lia).
  rewrite Hn. set (n := arrives chunk o). intros Hrun.
  assert (Hb : 0 <= n <= zlen (ob_bytes o) /\ ob_arrived o <= n) by (unfold n, arrives, zlen in *; lia).
  apply (advance_spec _ i (set_arrived n o)) in Hrun as (qs & dm & o' & -> & [Hbytes Har] & Hok' & Hz & Hr).
  - exists qs, dm, o'. cbn [fd_fragments fd_output set_object]. split_and!; try done.
    destruct r; [done|]. destruct Hr as (Hr & _ & Hw).
    assert (Hw' : work_left (fd_fragments d) (set_arrived n o) = work_left (fd_fragments d) o) by done.
    cbn [fd_fragments set_object] in Hr, Hw. rewrite Hw' in Hw. split; [done|].
    destruct Hw as [Hlt|(-> & _ & _ & Hp)]; [split; lia|]. split; [done|]. intros Hpend.
    destruct Hp as [Hp|Hp]; [done|]. apply (pending_arrived _ _ n) in Hpend; [congruence|lia].
  - split_and!; [done..|]. apply object_ok_arrived; [|lia]. by split.
  - unfold MAX_SAMPLES_PER_STEP. lia.
Qed.

Lemma end_object_spec i o d d' r :
  state_of i o d -> end_object d = (d', r) ->
  exists qs dm e, left_of i o (fd_fragments d) = (dm, qs, e) /\ r = to_result e /\
    fd_output d' = fd_output d ++ qs /\ fd_init d' = Some (mk_Init dm (in_tracks i)) /\ fd_object d' = None.
Proof.
  intros (Hi & Ho & Hok). unfold end_object. rewrite Ho. destruct (advance _ _) as [d1 r1] eqn:Hrun.
  intros [= <- <-]. apply (advance_spec _ i (set_arrived (zlen (ob_bytes o)) o)) in Hrun
    as (qs & dm & o' & -> & [Hb Ha] & Hok' & Hz & Hr).
  - cbn [set_object fd_fragments fd_output fd_init fd_object] in *. destruct r1 as [e|[]].
    + exists qs, dm, (Some e). done.
    + destruct Hr as (Hr & Hst & _). exists qs, dm, None. split_and!; try done. cbn in Ha.
      change (left_of i o (fd_fragments d)) with (left_of i (set_arrived (zlen (ob_bytes o)) o) (fd_fragments d)).
      rewrite Hr, (nothing_left _ _ o'); [by unfold after; cbn; rewrite app_nil_r|done|by rewrite Hb|].
      destruct Hst as [|Hst]; [done|]. destruct Hok as [(_ & Hn & _) _]. unfold MAX_FRAGMENTS, zlen in *. lia.
  - split_and!; [done..|]. apply object_ok_arrived; [done|unfold zlen; lia].
  - lia.
Qed.

(** *** One fragment, sample by sample *)

(** The packet of a sample, by itself. *)
Definition sample_packet (tracks : list Track) (fragment : bytes) (s : Sample) : MediaRejection + option MediaPacket :=
  match plan_sample tracks 0 s with
  | inl e => inl e
  | inr None => inr None
  | inr (Some p) =>
      match convert_plan tracks fragment p with
      | inl e => inl e
      | inr q => inr (Some q)
      end
  end.

Definition published (tracks : list Track) (s : Sample) : Prop := sm_track_id s ∈ map tr_track_id tracks.
#[global] Instance published_dec tracks s : Decision (published tracks s).
Proof. unfold published. apply _. Defined.

Lemma position_None {A} (f : A -> bool) l : position f l = None <-> Forall (fun x => f x = false) l.
Proof.
  induction l as [|x l IH]; [done|]. cbn. rewrite Forall_cons. destruct (f x).
  - split; [done|by intros []].
  - destruct (position f l); cbn; [|by rewrite <- IH]. split; [done|]. by intros [_ ?%IH].
Qed.

Lemma plan_sample_published tracks fe s :
  plan_sample tracks fe s = inr None <-> ~ published tracks s.
Proof.
  unfold plan_sample, published. destruct (position _ _) eqn:Hp.
  - assert (Hin : sm_track_id s ∈ map tr_track_id tracks).
    { destruct (decide (sm_track_id s ∈ map tr_track_id tracks)) as [|Hn]; [done|]. exfalso.
      assert (position (fun track => tr_track_id track =? sm_track_id s) tracks = None) as Hno; [|congruence].
      apply position_None, Forall_forall. intros t Ht. apply Z.eqb_neq. intros Heq. apply Hn. rewrite <- Heq.
      by apply list_elem_of_fmap_2. }
    by destruct (ticks_to_ms _ _).
  - apply position_None in Hp. split; [|done]. intros _ (t & Ht & Hin)%list_elem_of_fmap.
    rewrite Forall_forall in Hp. apply Hp in Hin. lia.
Qed.

(** What planning keeps of a published sample. *)
Definition plans_sample (tracks : list Track) (s : Sample) (p : SamplePlan) : Prop :=
  exists fe, plan_sample tracks fe s = inr (Some (set_release_at p fe)).

Lemma plan_sample_end tracks fe fe' s p :
  plan_sample tracks fe s = inr (Some p) -> plan_sample tracks fe' s = inr (Some (set_release_at p fe')).
Proof.
  unfold plan_sample. destruct (position _ _); [|done]. destruct (ticks_to_ms _ _); [|done]. by intros [= <-].
Qed.

Lemma set_release_convert tracks f p n : convert_plan tracks f (set_release_at p n) = convert_plan tracks f p.
Proof. done. Qed.

Lemma plans_sample_packet tracks f s p q :
  plans_sample tracks s p -> convert_plan tracks f p = inr q -> sample_packet tracks f s = inr (Some q).
Proof.
  intros [fe Hp] Hq. apply (plan_sample_end _ _ 0) in Hp. unfold sample_packet. rewrite Hp, !set_release_convert.
  by rewrite Hq.
Qed.

Lemma convert_plan_dts tracks f s p q :
  plans_sample tracks s p -> convert_plan tracks f p = inr q -> dts q = sp_dts_ms p.
Proof.
  intros [fe Hp]. unfold plan_sample in Hp. destruct (position _ _); [|done].
  destruct (ticks_to_ms _ _) as [ms|] eqn:Hms; [|done]. injection Hp as _ Hts Hst -> _ _ _ _.
  unfold convert_plan. destruct (tracks !! _); [|done]. destruct (_ ≫= _); [|done].
  unfold convert_sample. rewrite <- Hts, <- Hst, Hms. destruct (_ ≫= _); [|done].
  destruct (convert_payload _ _ _) as [|[]]; [done|]. by intros [= <-].
Qed.

Lemma plan_samples_spec tracks fe samples : forall plans,
  plan_samples tracks fe samples = inr plans ->
  Forall2 (plans_sample tracks) (filter (published tracks) samples) plans.
Proof.
  induction samples as [|s samples IH]; intros plans; cbn [plan_samples]; [intros [= <-]; constructor|].
  destruct (plan_sample tracks fe s) as [|plan] eqn:Hp; [done|].
  destruct (plan_samples tracks fe samples) as [|ps]; [done|]. intros [= <-]. rewrite filter_cons.
  specialize (IH _ eq_refl). destruct plan as [p|].
  - rewrite decide_True.
    + constructor; [|done]. exists fe. by apply (plan_sample_end _ fe).
    + destruct (decide (published tracks s)) as [|Hn]; [done|]. apply (plan_sample_published _ fe) in Hn. congruence.
  - apply plan_sample_published in Hp. by rewrite decide_False.
Qed.

Lemma share_release_plans tracks fe samples plans : forall at_,
  Forall2 (plans_sample tracks) samples plans -> Forall2 (plans_sample tracks) samples (share_release fe at_ plans).
Proof.
  intros at_ HF. revert at_. induction HF as [|s p samples plans Hp HF IH]; intros at_; cbn [share_release]; constructor; auto.
Qed.
Lemma share_release_dts fe plans : forall at_,
  map sp_dts_ms (share_release fe at_ plans) = map sp_dts_ms plans.
Proof. induction plans as [|p plans IH]; intros at_; cbn [share_release map]; f_equal; auto. Qed.

Lemma convert_plans_spec tracks f samples plans qs :
  Forall2 (plans_sample tracks) samples plans -> convert_plans tracks f plans = (qs, None) ->
  Forall2 (fun s q => sample_packet tracks f s = inr (Some q)) samples qs /\ map dts qs = map sp_dts_ms plans.
Proof.
  intros HF. revert qs. induction HF as [|s p samples plans Hp HF IH]; intros qs; cbn [convert_plans].
  { intros [= <-]. by split. }
  destruct (convert_plan tracks f p) as [|q] eqn:Hq; [done|]. destruct (convert_plans tracks f plans) as [qs' e].
  intros [= <- ->]. destruct (IH _ eq_refl) as [? Hd]. cbn [map]. rewrite Hd. erewrite convert_plan_dts by done.
  split; [|done]. constructor; [|done]. by eapply plans_sample_packet.
Qed.

Definition sample_ms (s : Sample) : Z := default 0 (ticks_to_ms (sm_timestamp s) (sm_timescale s)).
Definition ms_leb (a b : Sample) : bool := sample_ms a <=? sample_ms b.

Lemma plans_sample_dts tracks s p : plans_sample tracks s p -> sp_dts_ms p = sample_ms s.
Proof.
  intros [fe Hp]. unfold plan_sample in Hp. unfold sample_ms. destruct (position _ _); [|done].
  destruct (ticks_to_ms _ _) as [ms|]; [|done]. by injection Hp as _ _ _ -> _ _ _ _.
Qed.

Lemma Forall2_insert_by {A B} (R : A -> B -> Prop) la lb (Hleb : forall a b c d, R a c -> R b d -> la a b = lb c d) x y l k :
  R x y -> Forall2 R l k -> Forall2 R (insert_by la x l) (insert_by lb y k).
Proof.
  intros Hxy. induction 1 as [|a b l k Hab HF IH]; cbn; [by repeat constructor|].
  rewrite (Hleb _ _ _ _ Hxy Hab). destruct (lb y b); repeat constructor; done.
Qed.
Lemma Forall2_sort_by {A B} (R : A -> B -> Prop) la lb (Hleb : forall a b c d, R a c -> R b d -> la a b = lb c d) l k :
  Forall2 R l k -> Forall2 R (sort_by la l) (sort_by lb k).
Proof. induction 1; [constructor|]. by apply Forall2_insert_by. Qed.

Lemma StronglySorted_map {A} (key : A -> Z) l :
  StronglySorted (fun a b => key a <= key b) l <-> StronglySorted Z.le (map key l).
Proof.
  induction l as [|x l IH]; [by split; constructor|]. cbn [map]. split; intros Hs; inversion_clear Hs as [|? ? Hl Hx];
    (constructor; [by apply IH|]); by rewrite ?Forall_map in *.
Qed.

Lemma ms_leb_total a b : ms_leb a b = false -> ms_leb b a = true.
Proof. unfold ms_leb. lia. Qed.
Lemma ms_leb_trans a b c : ms_leb a b = true -> ms_leb b c = true -> ms_leb a c = true.
Proof. unfold ms_leb. lia. Qed.

Lemma sorted_ms_leb l : StronglySorted (fun a b => sample_ms a <= sample_ms b) l <-> StronglySorted (fun a b => ms_leb a b = true) l.
Proof.
  unfold ms_leb. split;
    (induction 1 as [|x l _ IH Hx]; constructor; [done|]; eapply Forall_impl; [exact Hx|]; cbn; lia).
Qed.

(** A fragment is published in decode order across its tracks: the packets of a fragment are those of its
    samples on published tracks, each converted by itself, sorted by their time in milliseconds;
    samples of one track that come in the order of their times keep that order even where the
    milliseconds are equal. *)
Theorem fragment_in_decode_order dm tracks l range dm' qs :
  demux_fragment dm tracks l range = (dm', qs, None) ->
  exists fragment samples,
    get_range range.1 range.2 l = Some fragment /\ handle_media_segment dm fragment = (dm', Some samples) /\
    let shown := sort_by ms_leb (filter (published tracks) samples) in
    Forall2 (fun s q => sample_packet tracks fragment s = inr (Some q)) shown qs /\
    StronglySorted (fun p q => dts p <= dts q) qs /\
    forall t, let of_track := filter (fun s => sm_track_id s = t) (filter (published tracks) samples) in
      StronglySorted (fun a b => sample_ms a <= sample_ms b) of_track ->
      filter (fun s => sm_track_id s = t) shown = of_track.
Proof.
  unfold demux_fragment. destruct (get_range _ _ _) as [f|] eqn:Hf; [|done].
  destruct (handle_media_segment dm f) as [dm1 [samples|]] eqn:Hm; [|done].
  unfold plan_fragment. destruct (plan_samples tracks _ samples) as [|plans] eqn:Hp; [done|].
  destruct (convert_plans _ _ _) as [ps e] eqn:Hc. intros [= <- <- ->]. exists f, samples.
  split; [done|split; [done|]]. cbn zeta. apply plan_samples_spec in Hp.
  assert (HF : Forall2 (plans_sample tracks) (sort_by ms_leb (filter (published tracks) samples))
                 (sort_by (fun a b => sp_dts_ms a <=? sp_dts_ms b) plans)).
  { apply Forall2_sort_by; [|done]. unfold ms_leb. intros a b c d Ha%plans_sample_dts Hb%plans_sample_dts. by rewrite Ha, Hb. }
  apply (convert_plans_spec _ _ _ _ _ (share_release_plans _ _ _ _ _ HF)) in Hc as [Hq Hd]. split; [done|split].
  - apply StronglySorted_map. rewrite Hd, share_release_dts. apply (StronglySorted_map sp_dts_ms).
    assert (Hs : StronglySorted (fun a b => (sp_dts_ms a <=? sp_dts_ms b) = true)
      (sort_by (fun a b => sp_dts_ms a <=? sp_dts_ms b) plans)) by (apply sort_by_sorted; intros; lia).
    clear -Hs. induction Hs as [|x l _ IH Hx]; constructor; [done|]. eapply Forall_impl; [exact Hx|]. cbn. lia.
  - intros t Ht. rewrite filter_sort_by by (apply ms_leb_total || apply ms_leb_trans).
    apply sort_by_id. by apply sorted_ms_leb.
Qed.

(** *** Samples and their packets *)

Lemma ticks_to_ms_nearest ticks timescale :
  0 < timescale -> 1000 * Z.abs ticks + timescale < 2 ^ 63 ->
  exists ms, ticks_to_ms ticks timescale = Some ms /\ 2 * Z.abs (ms * timescale - 1000 * ticks) <= timescale.
Proof.
  intros Ht Hb. unfold ticks_to_ms. rewrite (proj2 (Z.eqb_neq _ _)) by lia.
  pose proof (Z.div_mod timescale 2 ltac:(lia)) as H2. pose proof (Z.mod_pos_bound timescale 2 ltac:(lia)).
  set (x := ticks * 1000 + timescale / 2).
  pose proof (Z.div_mod x timescale ltac:(lia)) as Hx. pose proof (Z.mod_pos_bound x timescale ltac:(lia)).
  assert (Hq : - 2 ^ 63 <= x / timescale < 2 ^ 63) by (split; [apply Z.div_le_lower_bound|apply Z.div_lt_upper_bound]; nia).
  assert (Hin : forall y, - 2 ^ 63 <= y < 2 ^ 63 -> checked_i 128 y = Some y).
  { intros y Hy. unfold checked_i. rewrite (proj2 (Z.leb_le _ _)), (proj2 (Z.ltb_lt _ _)) by lia. done. }
  rewrite Hin by lia. cbn [mbind option_bind]. fold x. rewrite (Hin x) by lia. cbn [mbind option_bind].
  exists (x / timescale). split.
  - unfold checked_i. rewrite (proj2 (Z.leb_le _ _)), (proj2 (Z.ltb_lt _ _)) by lia. done.
  - unfold x in *. lia.
Qed.

Definition is_irap (nalu : bytes) : bool :=
  let t := (default 0 (head nalu) .>> 1) .& 0x3F in (16 <=? t) && (t <=? 23).
Definition has_sps (nal : VideoNal) (nalu : bytes) : bool := is_sps nal (default 0 (head nalu)).

Lemma scan_fold nal nalus : forall irap sps len,
  exists len', fold_left (fun s n => scan_nalu nal n s) nalus (irap, sps, len) =
    (irap || existsb is_irap nalus, sps || existsb (has_sps nal) nalus, len').
Proof.
  induction nalus as [|n nalus IH]; intros irap sps len; cbn [fold_left existsb]; [rewrite !orb_false_r; eauto|].
  unfold scan_nalu at 2. fold (is_irap n). fold (has_sps nal n).
  destruct (IH (irap || is_irap n) (sps || has_sps nal n) (sat_u 64 (len + sat_u 64 (zlen n + zlen START_CODE)))) as [len' Hl].
  exists len'. rewrite !orb_assoc. exact Hl.
Qed.

Lemma push_fold nalus : forall p,
  fold_left (fun s n => s ++ START_CODE ++ n) nalus p = p ++ start_coded nalus.
Proof.
  induction nalus as [|n nalus IH]; intros p; cbn [fold_left start_coded flat_map]; [by rewrite app_nil_r|].
  rewrite IH, <- !app_assoc. done.
Qed.

Lemma for_each_ok {S} (visit : bytes -> S -> S) size nalus s :
  (1 <= size <= 4)%nat -> Forall (fits size) nalus ->
  for_each_length_prefixed visit size (flat_map (len_prefixed size) nalus) s =
    (true, fold_left (fun s n => visit n s) nalus s).
Proof.
  intros Hs Hn. unfold for_each_length_prefixed.
  rewrite (proj2 (Nat.leb_le _ _)), (proj2 (Nat.leb_le _ _)) by lia. cbn [andb negb].
  apply for_each_length_prefixed_loop_ok; [done|]. pose proof (length_prefixed_nalus size nalus Hn). lia.
Qed.

Lemma split_start_coded nalus :
  Forall clean nalus -> Forall (fun n => n <> []) nalus -> split_annexb_nalus (start_coded nalus) = nalus.
Proof.
  intros Hc Hne. destruct nalus as [|n nalus _] using rev_ind.
  { apply split_code_free. intros i [Hi _]. cbn in Hi. lia. }
  assert (Hs : start_coded (nalus ++ [n]) = [] ++ annexb_stream (map (fun n => (1%nat, n)) nalus ++ [(1%nat, n)])).
  { unfold start_coded, annexb_stream. rewrite !flat_map_app, flat_map_concat_map, (flat_map_concat_map annexb_unit), map_map.
    done. }
  apply Forall_app in Hc as [Hc [Hn _]%Forall_cons]. rewrite Hs, split_stream.
  - rewrite map_app, map_map, map_id. cbn [map snd]. unfold keep_nonempty.
    clear -Hne. induction Hne as [|m ms Hm _ IH]; [done|]. cbn. destruct m; [done|]. cbn. by rewrite IH.
  - split; [|done]. intros i [Hi _]. cbn in Hi. lia.
  - by apply Forall_map.
  - apply Hn.
Qed.

(** Whether a sample is published as a keyframe, and the NAL units in front of it. *)
Definition shown_keyframe (nal : VideoNal) (keyframe : bool) (nalus : list bytes) : bool :=
  keyframe && (bool_decide (nal = NalH264) || existsb is_irap nalus).
Definition put_in_front (nal : VideoNal) (keyframe : bool) (params nalus : list bytes) : list bytes :=
  if shown_keyframe nal keyframe nalus && negb (existsb (has_sps nal) nalus) then params else [].

Lemma convert_payload_video nal size params keyframe nalus :
  (1 <= size <= 4)%nat -> Forall (fits size) nalus ->
  convert_payload (CodecVideo nal size (start_codes params)) keyframe (flat_map (len_prefixed size) nalus) =
    inr (start_coded (put_in_front nal keyframe params nalus ++ nalus), shown_keyframe nal keyframe nalus).
Proof.
  intros Hs Hn. unfold convert_payload. rewrite !for_each_ok by done.
  destruct (scan_fold nal nalus false false 0) as [len ->]. cbn [negb orb].
  assert (Hk : (if bool_decide (nal = NalH265) then keyframe && existsb is_irap nalus else keyframe) =
               shown_keyframe nal keyframe nalus).
  { unfold shown_keyframe. destruct nal; cbn; by rewrite ?andb_true_r. }
  rewrite Hk. unfold put_in_front. rewrite for_each_ok by done. rewrite push_fold.
  unfold start_coded at 2. rewrite flat_map_app. by destruct (shown_keyframe _ _ _ && _).
Qed.

(** C35: A video sample reads back from its packet: of an access unit of length-prefixed NAL
    units, the Annex B payload splits into those NAL units, behind the track's parameter sets
    when the packet is a keyframe without an SPS of its own; an HEVC sample counts as a
    keyframe only with an IRAP picture; the times are the sample's, in milliseconds, rounded
    to nearest. *)
Theorem video_sample_reads_back nal size params nalus id index timescale timestamp offset keyframe :
  (1 <= size <= 4)%nat -> Forall (fits size) nalus -> Forall clean (params ++ nalus) ->
  Forall (fun n => n <> []) params -> 0 < timescale -> 0 <= timestamp ->
  1000 * (timestamp + Z.abs offset) + timescale < 2 ^ 63 ->
  exists q,
    convert_sample (mk_Track id Video index (CodecVideo nal size (start_codes params))) timescale timestamp offset
      keyframe (flat_map (len_prefixed size) nalus) = inr q /\
    split_annexb_nalus (payload q) = put_in_front nal keyframe params nalus ++ nalus /\
    is_keyframe q = shown_keyframe nal keyframe nalus /\ track_index q = index /\
    2 * Z.abs (dts q * timescale - 1000 * timestamp) <= timescale /\
    2 * Z.abs (pts q * timescale - 1000 * (timestamp + offset)) <= timescale.
Proof.
  intros Hs Hn Hc Hp Ht Hts Hb.
  destruct (ticks_to_ms_nearest timestamp timescale) as (d & Hd & Hd'); [lia..|].
  destruct (ticks_to_ms_nearest (timestamp + offset) timescale) as (p & Hpp & Hp'); [lia..|].
  unfold convert_sample. rewrite Hd. unfold checked_i. rewrite (proj2 (Z.leb_le _ _)), (proj2 (Z.ltb_lt _ _)) by lia.
  cbn [andb mbind option_bind tr_codec tr_media_type tr_track_index]. rewrite Hpp, convert_payload_video by done.
  eexists. split; [done|]. cbn [payload is_keyframe track_index dts pts].
  rewrite bool_decide_true by done. split_and!; try done. apply Forall_app in Hc as [Hcp Hcn].
  apply split_start_coded; unfold put_in_front; (destruct (_ && _); cbn [app]; [apply Forall_app; split|]); try done;
    (eapply Forall_impl; [exact Hn|]; by intros n []).
Qed.

(** *** Init segments *)

Definition codec_ok (t : Track) : Prop :=
  match tr_codec t with
  | CodecVideo _ size _ => tr_media_type t = Video /\ tr_track_index t = 0 /\ (1 <= size <= 4)%nat
  | CodecAac c =>
      tr_media_type t = Audio /\ AAC_SAMPLE_RATES !! Z.to_nat (ac_freq_index c) = Some (sample_rate c) /\
      forall n, 0 <= n <= MAX_ADTS_PAYLOAD -> is_Some (adts_header c n)
  end.

Definition of_type (m : MediaType) (t : Track) : Prop := tr_media_type t = m.
#[global] Instance of_type_dec m t : Decision (of_type m t).
Proof. unfold of_type. apply _. Defined.

(** The audio tracks of the probe, by their tracks. *)
Definition audio_of (i : nat) (t : Track) (a : AudioMeta) : Prop :=
  tr_track_index t = Z.of_nat i /\ am_track_index a = Z.of_nat i /\
  exists c, tr_codec t = CodecAac c /\ am_sample_rate a = sample_rate c /\ am_channels a = channels c.

Definition audio_agree (ts : list Track) (audio : list AudioMeta) : Prop :=
  length ts = length audio /\ forall i t a, ts !! i = Some t -> audio !! i = Some a -> audio_of i t a.

(** What the published tracks and the probe of an init segment promise. *)
Definition tracks_ok (tracks : list Track) (video : option VideoMeta) (audio : list AudioMeta) : Prop :=
  Forall codec_ok tracks /\ length (filter (of_type Video) tracks) = (if video then 1 else 0)%nat /\
  audio_agree (filter (of_type Audio) tracks) audio.

Lemma audio_agree_snoc ts audio t a :
  audio_agree ts audio -> audio_of (length audio) t a -> audio_agree (ts ++ [t]) (audio ++ [a]).
Proof.
  intros [Hl Ha] Ht. split; [by rewrite !length_app, Hl|]. intros i t' a' H1 H2.
  apply lookup_app_Some in H1 as [H1|[Hge H1]]; apply lookup_app_Some in H2 as [H2|[Hge' H2]].
  - by eapply Ha.
  - apply lookup_lt_Some in H1. lia.
  - apply lookup_lt_Some in H2. lia.
  - apply list_lookup_singleton_Some in H1 as [H1 <-], H2 as [H2 <-].
    by replace i with (length audio) by lia.
Qed.

Lemma tracks_ok_video tracks audio t meta :
  tracks_ok tracks None audio -> codec_ok t -> tr_media_type t = Video ->
  tracks_ok (tracks ++ [t]) (Some meta) audio.
Proof.
  intros (Hc & Hv & Ha) Ht Hm. split_and!; [apply Forall_app; split; [done|by constructor]| |];
    rewrite filter_app, filter_cons.
  - rewrite decide_True by done. by rewrite filter_nil, length_app, Hv.
  - rewrite decide_False by (unfold of_type; congruence). by rewrite filter_nil, app_nil_r.
Qed.

Lemma asc_headers asc c :
  from_audio_specific_config asc = inr c ->
  AAC_SAMPLE_RATES !! Z.to_nat (ac_freq_index c) = Some (sample_rate c) /\
  forall n, 0 <= n <= MAX_ADTS_PAYLOAD -> is_Some (adts_header c n).
Proof.
  unfold from_audio_specific_config. destruct (first_chunk 2 asc) as [[|b0 [|b1 [|? ?]]]|]; try done.
  set (ot := b0 .>> 3). set (fi := _ .| _). set (cc := _ .& 0x0F).
  destruct ((1 <=? ot) && (ot <=? 4)) eqn:Hot; [|done]. destruct (fi =? 15); [done|]. cbn [negb].
  destruct (_ <=? fi) eqn:Hfi; [done|]. destruct ((1 <=? cc) && (cc <=? 7)) eqn:Hcc; [|done].
  intros [= <-].
  change (zlen AAC_SAMPLE_RATES) with 13 in Hfi. split.
  - unfold sample_rate. cbn [ac_freq_index]. destruct (AAC_SAMPLE_RATES !! Z.to_nat fi) eqn:Hl; [done|].
    apply lookup_ge_None in Hl. cbn in Hl. lia.
  - intros n Hn. unfold adts_header, build_adts_header_for, MAX_ADTS_PAYLOAD in *. cbn [ac_object_type ac_freq_index ac_channel_config].
    rewrite Hot. rewrite (proj2 (Z.ltb_ge 12 fi)), (proj2 (Z.ltb_ge 7 cc)) by lia. cbn [negb orb].
    unfold checked_u. rewrite (proj2 (Z.leb_le 0 n)), (proj2 (Z.ltb_lt n _)) by lia. cbn [andb mbind option_bind].
    rewrite (proj2 (Z.leb_le 0 (n + 7))), (proj2 (Z.ltb_lt (n + 7) _)) by lia. cbn [andb mbind option_bind].
    rewrite (proj2 (Z.leb_le (n + 7) 8191)) by lia. cbn [negb]. eauto.
Qed.

Definition scan_ok (s : InitScan) : Prop := tracks_ok (is_tracks s) (is_video s) (is_audio_tracks s).

Lemma scan_h264_ok id avcc visual s s' :
  entry_at_width (Avc1 avcc visual) -> scan_ok s -> scan_h264 id avcc visual s = inr s' ->
  scan_ok s' /\ (length (is_audio_tracks s') = length (is_audio_tracks s))%nat.
Proof.
  intros He Hs. unfold scan_ok in *. unfold scan_h264. revert Hs. destruct (is_video s); intros Hs.
  { intros [= <-]. by split. }
  destruct (avcc_sps_list avcc); [done|]. intros [= <-]. cbn [is_tracks is_video is_audio_tracks]. split; [|done].
  apply tracks_ok_video; [done| |done]. unfold codec_ok. cbn [tr_codec tr_media_type tr_track_index].
  cbn in He. split_and!; try done; lia.
Qed.

Lemma scan_hevc_ok id hvcc visual s s' :
  entry_at_width (Hev1 hvcc visual) -> scan_ok s -> scan_hevc id hvcc visual s = inr s' ->
  scan_ok s' /\ (length (is_audio_tracks s') = length (is_audio_tracks s))%nat.
Proof.
  intros He Hs. unfold scan_ok in *. unfold scan_hevc, hevc_track. revert Hs. destruct (is_video s); intros Hs.
  { intros [= <-]. by split. }
  destruct (negb _); [done|]. intros [= <-]. cbn [is_tracks is_video is_audio_tracks]. split; [|done].
  apply tracks_ok_video; [done| |done]. unfold codec_ok. cbn [tr_codec tr_media_type tr_track_index].
  cbn in He. split_and!; try done; lia.
Qed.

Lemma scan_aac_ok id info s s' :
  zlen (is_audio_tracks s) < 2 ^ 32 -> scan_ok s -> scan_aac id info s = inr s' ->
  scan_ok s' /\ (length (is_audio_tracks s') = S (length (is_audio_tracks s)))%nat.
Proof.
  intros Hlen (Hc & Hv & Ha). unfold scan_aac. destruct info as [asc|]; [|done].
  destruct (from_audio_specific_config asc) as [|c] eqn:Hasc; [done|]. apply asc_headers in Hasc as [Hr Hh].
  unfold checked_u. rewrite (proj2 (Z.leb_le _ _)), (proj2 (Z.ltb_lt _ _)) by (unfold zlen in *; lia).
  cbn [andb default]. intros [= <-]. unfold scan_ok, tracks_ok. cbn [is_tracks is_video is_audio_tracks].
  rewrite !filter_app, !filter_cons.
  rewrite decide_False, decide_True by done. rewrite !filter_nil, app_nil_r, length_app. cbn [length].
  split_and!; try done; try lia.
  - apply Forall_app. split; [done|]. constructor; [|done]. by split.
  - apply audio_agree_snoc; [done|]. unfold audio_of, zlen. cbn. split_and!; try done. by exists c.
Qed.

Lemma scan_trak_ok trak s s' :
  Forall entry_at_width (tb_entries trak) -> zlen (is_audio_tracks s) < 2 ^ 32 -> scan_ok s ->
  scan_trak trak s = inr s' -> scan_ok s' /\ (length (is_audio_tracks s') <= S (length (is_audio_tracks s)))%nat.
Proof.
  intros He Hl Hs. unfold scan_trak.
  destruct (tb_handler trak); destruct (tb_entries trak) as [|[] [|? ?]]; try done;
    try (by intros [= <-]; split; [|lia]); apply Forall_cons in He as [He _]; intros Hr;
    (apply scan_h264_ok in Hr as [? ->] || apply scan_hevc_ok in Hr as [? ->] || apply scan_aac_ok in Hr as [? ->]);
    try done; (split; [done|lia]).
Qed.

Lemma scan_traks_ok traks : forall s s',
  Forall (fun t => Forall entry_at_width (tb_entries t)) traks ->
  zlen (is_audio_tracks s) + zlen traks <= 2 ^ 32 -> scan_ok s -> scan_traks traks s = inr s' -> scan_ok s'.
Proof.
  induction traks as [|t traks IH]; intros s s' He Hl Hs; cbn [scan_traks]; [by intros [= <-]|].
  apply Forall_cons in He as [He Hes]. unfold zlen in Hl. cbn [length] in Hl.
  destruct (scan_trak t s) as [|s1] eqn:Ht; [done|].
  apply scan_trak_ok in Ht as [Hs1 Hl1]; [|done|unfold zlen; lia|done]. apply IH; [done| |done].
  unfold zlen. lia.
Qed.

(** The tracks an accepted init segment publishes are ones the demuxer can convert and the probe
    describes: there is one at least; at most one is video, exactly when the probe has video;
    the audio tracks are numbered from zero in the order of the probe's, which gives their
    rate and channels; every video track reads length fields of one to four bytes, and every
    AAC track can head any frame ADTS has room for. *)
Theorem init_tracks_convertible l max_bytes init probe :
  zlen (default [] (moov_bytes l ≫= decode_moov)) <= 2 ^ 32 ->
  parse_init l max_bytes = inr (init, probe) ->
  zlen l <= max_bytes /\ in_tracks init <> [] /\
  Forall codec_ok (in_tracks init) /\
  length (filter (of_type Video) (in_tracks init)) = (if dp_video probe then 1 else 0)%nat /\
  audio_agree (filter (of_type Audio) (in_tracks init)) (dp_audio_tracks probe).
Proof.
  intros Hl. unfold parse_init. destruct (max_bytes <? zlen l) eqn:Hm; [done|].
  destruct (moov_bytes l) as [moov|]; [|done]. cbn [mbind option_bind] in Hl.
  destruct (decode_moov moov) as [traks|] eqn:Hd; [|done]. change (zlen traks <= 2 ^ 32) in Hl.
  destruct (scan_traks traks _) as [|s] eqn:Hs; [done|]. destruct (is_tracks s) as [|t ts] eqn:Ht; [done|].
  destruct (handle_init_segment demuxer_new l) as [dm|]; [|done]. intros [= <- <-].
  apply scan_traks_ok in Hs.
  - unfold scan_ok in Hs. rewrite Ht in Hs. destruct Hs as (? & ? & ?). cbn [in_tracks dp_video dp_audio_tracks].
    split_and!; try done. lia.
  - by eapply entries_at_width.
  - unfold zlen in *. cbn [is_audio_tracks length]. lia.
  - unfold scan_ok, tracks_ok, audio_agree. cbn. split_and!; try done.
Qed.
End with_mp4.

(** An empty video sample passes as an access unit of no NAL units: its packet has an empty
    payload, though the rejection of broken framing names an empty sample too. *)
Theorem empty_video_sample_is_published `{Mp4} nal size params :
  (1 <= size <= 4)%nat -> convert_payload (CodecVideo nal size params) false [] = inr ([], false).
Proof.
  intros Hs. unfold convert_payload, for_each_length_prefixed.
  rewrite (proj2 (Nat.leb_le _ _)), (proj2 (Nat.leb_le _ _)) by lia. cbn. by destruct nal.
Qed.

(** ** Witnesses *)

Definition sample_traks : list TrakBox :=
  [mk_TrakBox 1 HANDLER_TYPE_VIDE [Avc1 (mk_AvccBox [[0x67; 66]] [[0x68; 1]] 3) (mk_Visual 640 360)];
   mk_TrakBox 2 HANDLER_TYPE_SOUN [Mp4a (Some [0x11; 0x90])]].

(** A demuxer that finds a video sample of six bytes and an AAC sample of two at the end of a
    fragment. *)
#[export, refine] Instance simple_mp4 : Mp4 := {
  Demuxer := unit;
  demuxer_new := tt;
  decode_moov l := Some sample_traks;
  handle_init_segment d l := Some d;
  handle_media_segment d l :=
    (d, Some [mk_Sample 1 1000 40 (Some 20) true (zlen l - 8) 6; mk_Sample 2 1000 20 None true (zlen l - 2) 2]);
}.
Proof.
  - intros d l d' samples [= <- <-]. vm_compute. done.
  - intros l traks [= <-]. repeat constructor; cbn; lia.
Defined.

Definition sample_init : bytes := encode_box (mk_Mp4Box k_moov false []).
Definition sample_media : bytes :=
  encode_segment [IFragment false sample_children (mk_Mp4Box k_mdat false [0; 0; 0; 2; 0x65; 9; 1; 2])] None.
Definition sample_range : nat * nat := (0, 104)%nat.
Definition sample_adts : AdtsConfig := mk_AdtsConfig 2 3 2.
Definition sample_tracks : list Track :=
  [mk_Track 1 Video 0 (CodecVideo NalH264 4 (start_codes [[0x67; 66]; [0x68; 1]]));
   mk_Track 2 Audio 0 (CodecAac sample_adts)].
Definition sample_packets : list MediaPacket :=
  [mk_MediaPacket Audio Raw false 0 20 20 [0xFF; 0xF1; 0x4C; 0x80; 1; 0x3F; 0xFC; 1; 2];
   mk_MediaPacket Video Raw true 0 60 40
     [0; 0; 0; 1; 0x67; 66; 0; 0; 0; 1; 0x68; 1; 0; 0; 0; 1; 0x65; 9]].

Example sample_media_demuxed :
  demux_fragment tt sample_tracks sample_media sample_range = (tt, sample_packets, None).
Proof. vm_compute. done. Qed.

Lemma fragment_in_decode_order_witness :
  exists fragment samples,
    get_range 0 104 sample_media = Some fragment /\
    handle_media_segment demuxer_new fragment = (demuxer_new, Some samples) /\
    let shown := sort_by ms_leb (filter (published sample_tracks) samples) in
    Forall2 (fun s q => sample_packet sample_tracks fragment s = inr (Some q)) shown sample_packets /\
    StronglySorted (fun p q => dts p <= dts q) sample_packets /\
    forall t, let of_track := filter (fun s => sm_track_id s = t) (filter (published sample_tracks) samples) in
      StronglySorted (fun a b => sample_ms a <= sample_ms b) of_track ->
      filter (fun s => sm_track_id s = t) shown = of_track.
Proof.
  apply (fragment_in_decode_order demuxer_new sample_tracks sample_media sample_range demuxer_new sample_packets).
  vm_compute. reflexivity.
Defined.

Lemma video_sample_reads_back_witness :
  exists q,
    convert_sample (mk_Track 1 Video 0 (CodecVideo NalH264 4 (start_codes [[0x67; 66]; [0x68; 1]]))) 90000 3600 (-100)
      true (flat_map (len_prefixed 4) [[0x06; 5]; [0x65; 9]]) = inr q /\
    @split_annexb_nalus naive_memmem (payload q) = [[0x67; 66]; [0x68; 1]; [0x06; 5]; [0x65; 9]] /\
    is_keyframe q = true /\ track_index q = 0 /\
    2 * Z.abs (dts q * 90000 - 1000 * 3600) <= 90000 /\ 2 * Z.abs (pts q * 90000 - 1000 * (3600 + -100)) <= 90000.
Proof.
  apply (@video_sample_reads_back naive_memmem NalH264 4 [[0x67; 66]; [0x68; 1]] [[0x06; 5]; [0x65; 9]] 1 0 90000 3600 (-100) true).
  - lia.
  - repeat constructor; done.
  - repeat constructor; try done; (intros i [Hi _]; cbn in Hi; lia).
  - repeat constructor; done.
  - lia.
  - lia.
  - lia.
Defined.

Lemma init_tracks_convertible_witness :
  exists init probe, @parse_init naive_memmem _ sample_init 64 = inr (init, probe) /\
    zlen sample_init <= 64 /\ in_tracks init <> [] /\ Forall codec_ok (in_tracks init) /\
    length (filter (of_type Video) (in_tracks init)) = (if dp_video probe then 1 else 0)%nat /\
    audio_agree (filter (of_type Audio) (in_tracks init)) (dp_audio_tracks probe).
Proof.
  assert (Hl : zlen (default [] (moov_bytes sample_init ≫= decode_moov)) <= 2 ^ 32) by (vm_compute; discriminate).
  assert (Hok : match @parse_init naive_memmem simple_mp4 sample_init 64 with inl _ => false | inr _ => true end = true)
    by (vm_compute; reflexivity).
  destruct (@parse_init naive_memmem simple_mp4 sample_init 64) as [e|[init probe]] eqn:Hp; [discriminate|].
  exists init, probe. split; [reflexivity|].
  exact (@init_tracks_convertible naive_memmem simple_mp4 sample_init 64 init probe Hl Hp).
Defined.

Example sample_media_walk : media_fragments sample_media = (inr (mk_WalkReport None), [sample_range]).
Proof. vm_compute. done. Qed.
