(* ===== verification/SegmentPublisher.v ===== *)
(** * The segment publisher

    Models the publisher of [crates/restream-engine/src/ingest_publisher.rs] and the step of
    [crates/restream-engine/src/hls_ingest/session.rs] that publishes the outbox: the interface
    of a demuxer and its two implementations, the forwarding of one rendition or of several
    merged by decode time, re-anchoring, flushing and probing.  Byte counters, clocks and
    pacing are not modelled; a [Target] holds what is pushed to the rings. *)

From S2P Require Import Prelude Annexb Media Probe TsDemux InputGate Continuity HlsOrdering Mp4Boxes Fmp4Demux.
From Stdlib Require Import Sorted.
From stdpp Require Import sorting.

Open Scope Z_scope.

(** ** Definitions *)

Definition PUBLISH_CHUNK_BYTES : Z := 64 * 1024.

(** *** Demuxers *)

Class SegmentDemux (D : Type) := {
  sd_begin_object : bytes -> D -> D * (MediaRejection + unit);
  sd_feed : bytes -> D -> D * (MediaRejection + unit);
  sd_pending : D -> bool;
  sd_drain_into : D -> list MediaPacket -> nat * list MediaPacket * D;
  sd_end_object : D -> D * (MediaRejection + unit);
  sd_flush : D -> D;
  sd_discard_object : D -> D;
  sd_discontinuity : D -> D;
  sd_apply_init : bytes -> Z -> D -> D * (MediaRejection + unit);
  sd_take_probe : D -> option DemuxProbe * D;
}.

#[export] Instance ts_segment_demux `{Memmem} `{Memchr} : SegmentDemux TsDemuxer := {
  sd_begin_object _ d := (d, inr tt);
  sd_feed chunk d := (TsDemux.feed d chunk, inr tt);
  sd_pending _ := false;
  sd_drain_into := TsDemux.drain_into;
  sd_end_object d := (d, inr tt);
  sd_flush := TsDemux.flush;
  sd_discard_object d := d;
  sd_discontinuity _ := TsDemuxer_new;
  sd_apply_init _ _ d := (d, inl Unsupported);
  sd_take_probe := TsDemux.take_probe;
}.

#[export] Instance fmp4_segment_demux `{Memmem} `{Mp4} : SegmentDemux Fmp4Demux := {
  sd_begin_object := begin_object;
  sd_feed := feed;
  sd_pending := pending;
  sd_drain_into := drain_into;
  sd_end_object := end_object;
  sd_flush := flush;
  sd_discard_object := discard_object;
  sd_discontinuity := discontinuity;
  sd_apply_init := apply_init;
  sd_take_probe := take_probe;
}.

Section publisher.
Context {D : Type} `{SegmentDemux D}.

(** *** State *)

Record Rendition := mk_Rendition {
  rn_demux : D;
  rn_probe_taken : bool;
  rn_probe : option DemuxProbe;
  rn_queue : list MediaPacket;
  rn_continuous : ContinuousTimestampState;
  rn_absent : bool;
  rn_awaiting_keyframe : bool;
}.
Definition Rendition_new (demux : D) : Rendition := mk_Rendition demux false None [] joining false false.

Record SegmentPublisher := mk_Publisher {
  pb_renditions : list Rendition;
  pb_current : nat;
  pb_expected : nat;
  pb_window_ms : Z;
  pb_packets : list MediaPacket;
  pb_probe_pending : bool;
  pb_probe_forced : bool;
  pb_unborn_absent : bool;
  pb_continuous : ContinuousTimestampState;
  pb_promotion : InputTimestampMapper;
  pb_media_time_ms : option Z;
}.

Definition publisher_new (demux : D) (continuous : ContinuousTimestampState) (promotion : InputTimestampMapper)
  : SegmentPublisher :=
  mk_Publisher [Rendition_new demux] 0 1 0 [] false false false continuous promotion None.

(** What a publisher publishes to: the rings behind the gate, and the probes recorded. *)
Record World := mk_World { wo_target : Target; wo_probes : list DemuxProbe }.

Definition set_renditions (rs : list Rendition) (p : SegmentPublisher) : SegmentPublisher :=
  mk_Publisher rs (pb_current p) (pb_expected p) (pb_window_ms p) (pb_packets p) (pb_probe_pending p)
    (pb_probe_forced p) (pb_unborn_absent p) (pb_continuous p) (pb_promotion p) (pb_media_time_ms p).
Definition set_packets (ps : list MediaPacket) (p : SegmentPublisher) : SegmentPublisher :=
  mk_Publisher (pb_renditions p) (pb_current p) (pb_expected p) (pb_window_ms p) ps (pb_probe_pending p)
    (pb_probe_forced p) (pb_unborn_absent p) (pb_continuous p) (pb_promotion p) (pb_media_time_ms p).
Definition set_current (n : nat) (p : SegmentPublisher) : SegmentPublisher :=
  mk_Publisher (pb_renditions p) n (pb_expected p) (pb_window_ms p) (pb_packets p) (pb_probe_pending p)
    (pb_probe_forced p) (pb_unborn_absent p) (pb_continuous p) (pb_promotion p) (pb_media_time_ms p).
Definition set_probe_flags (pending forced : bool) (p : SegmentPublisher) : SegmentPublisher :=
  mk_Publisher (pb_renditions p) (pb_current p) (pb_expected p) (pb_window_ms p) (pb_packets p) pending
    forced (pb_unborn_absent p) (pb_continuous p) (pb_promotion p) (pb_media_time_ms p).
Definition set_continuous (s : ContinuousTimestampState) (p : SegmentPublisher) : SegmentPublisher :=
  mk_Publisher (pb_renditions p) (pb_current p) (pb_expected p) (pb_window_ms p) (pb_packets p) (pb_probe_pending p)
    (pb_probe_forced p) (pb_unborn_absent p) s (pb_promotion p) (pb_media_time_ms p).

Definition set_demux (d : D) (r : Rendition) : Rendition :=
  mk_Rendition d (rn_probe_taken r) (rn_probe r) (rn_queue r) (rn_continuous r) (rn_absent r) (rn_awaiting_keyframe r).
Definition set_queue (q : list MediaPacket) (absent : bool) (r : Rendition) : Rendition :=
  mk_Rendition (rn_demux r) (rn_probe_taken r) (rn_probe r) q (rn_continuous r) absent (rn_awaiting_keyframe r).
Definition set_rendition_continuous (s : ContinuousTimestampState) (r : Rendition) : Rendition :=
  mk_Rendition (rn_demux r) (rn_probe_taken r) (rn_probe r) (rn_queue r) s (rn_absent r) (rn_awaiting_keyframe r).
Definition set_awaiting (b : bool) (r : Rendition) : Rendition :=
  mk_Rendition (rn_demux r) (rn_probe_taken r) (rn_probe r) (rn_queue r) (rn_continuous r) (rn_absent r) b.
Definition set_probe (taken : bool) (probe : option DemuxProbe) (r : Rendition) : Rendition :=
  mk_Rendition (rn_demux r) taken probe (rn_queue r) (rn_continuous r) (rn_absent r) (rn_awaiting_keyframe r).

Definition at_current (f : Rendition -> Rendition) (p : SegmentPublisher) : SegmentPublisher :=
  set_renditions (alter f (pb_current p) (pb_renditions p)) p.

(** [demux()]: the index of the rendition it borrows; the list is never empty. *)
Definition demux_index (p : SegmentPublisher) : nat :=
  if (pb_current p <? length (pb_renditions p))%nat then pb_current p else 0%nat.
Definition with_demux (f : D -> D) (p : SegmentPublisher) : SegmentPublisher :=
  set_renditions (alter (fun r => set_demux (f (rn_demux r)) r) (demux_index p) (pb_renditions p)) p.
Definition try_demux (f : D -> D * (MediaRejection + unit)) (p : SegmentPublisher)
  : SegmentPublisher * (MediaRejection + unit) :=
  match pb_renditions p !! demux_index p with
  | Some r => (with_demux (fun d => (f d).1) p, (f (rn_demux r)).2)
  | None => (p, inr tt)
  end.

(** *** Continuity *)

Definition continuity_of (p : SegmentPublisher) (rendition : nat) : ContinuousTimestampState :=
  match pb_renditions p !! rendition with
  | Some other => if (0 <? rendition)%nat then rn_continuous other else pb_continuous p
  | None => pb_continuous p
  end.
(** [continuity], with a function of the state it borrows. *)
Definition with_continuity (rendition : nat) (f : ContinuousTimestampState -> ContinuousTimestampState)
    (p : SegmentPublisher) : SegmentPublisher :=
  let s := f (continuity_of p rendition) in
  if (0 <? rendition)%nat && (rendition <? length (pb_renditions p))%nat
  then set_renditions (alter (set_rendition_continuous s) rendition (pb_renditions p)) p
  else set_continuous s p.

Fixpoint apply_all (packets : list MediaPacket) (s : ContinuousTimestampState)
  : ContinuousTimestampState * list MediaPacket :=
  match packets with
  | [] => (s, [])
  | q :: packets =>
      let '(s, q) := Continuity.apply q s in
      let '(s, packets) := apply_all packets s in
      (s, q :: packets)
  end.

(** [Option::max]: [None] is the least. *)
Definition option_max (a b : option Z) : option Z :=
  match a, b with
  | Some a, Some b => Some (Z.max a b)
  | None, b => b
  | a, None => a
  end.

(** One round of the loop of [align_rebase]. *)
Definition align_step (p : SegmentPublisher) (rendition : nat) (pending_generation : option Z) (generation raw : Z)
    (acc : option Z * option Z) (index : nat) : option Z * option Z :=
  let '(aligned, latest) := acc in
  let other := continuity_of p index in
  let latest := option_max latest (latest_ms other) in
  if (index =? rendition)%nat || bool_decide (is_Some aligned) || negb (ct_generation other =? generation)
  then (aligned, latest)
  else
    let window := default 0 (checked_u 64 (pb_window_ms p)) in
    let close := match ct_last_raw_ms other with
                 | Some last => Z.abs (last - raw) <=? window
                 | None => false
                 end in
    (if bool_decide (is_Some pending_generation) || close then Some (ct_offset_ms other) else aligned, latest).

Definition align_rebase (rendition : nat) (p : SegmentPublisher) : SegmentPublisher :=
  let state := continuity_of p rendition in
  if negb (ct_rebase_pending state) then p
  else
    let pending_generation := ct_pending_generation state in
    let generation := default (ct_generation state) pending_generation in
    match pb_packets p with
    | [] => p
    | first :: _ =>
        let raw := continuity_timestamp_ms first in
        let '(aligned, latest) :=
          fold_left (align_step p rendition pending_generation generation raw)
            (seq 0 (length (pb_renditions p))) (None, None) in
        let offset :=
          match aligned, latest with
          | Some offset, _ => offset
          | None, Some latest => sat_i 64 (sat_i 64 (latest + 1) - raw)
          | None, None => 0
          end in
        with_continuity rendition (rebase_to offset) p
    end.

(** *** Forwarding *)

(** [forward_batch]: [InputGate.forward_batch] is the part behind the gate. *)
Definition forward_batch (p : SegmentPublisher) (w : World) : SegmentPublisher * World :=
  match last (pb_packets p) with
  | None => (p, w)
  | Some newest =>
      let '(promotion, target) := InputGate.forward_batch (pb_packets p) (pb_promotion p) (wo_target w) in
      (mk_Publisher (pb_renditions p) (pb_current p) (pb_expected p) (pb_window_ms p) [] (pb_probe_pending p)
         (pb_probe_forced p) (pb_unborn_absent p) (pb_continuous p) promotion
         (option_max (pb_media_time_ms p) (Some (dts newest))),
       mk_World target (wo_probes w))
  end.

(** The variables of the scan over the renditions: the oldest packet with its rendition, the
    newest time, and whether a rendition is waited for. *)
Record MergeScan := mk_MergeScan { ms_oldest : option (nat * Z); ms_newest : Z; ms_waiting : bool }.

Definition scan_rendition (expected : nat) (s : MergeScan) (index : nat) (r : Rendition) : MergeScan :=
  match head (rn_queue r), last (rn_queue r) with
  | Some front, Some back =>
      mk_MergeScan
        (match ms_oldest s with
         | Some (_, d) => if dts front <? d then Some (index, dts front) else ms_oldest s
         | None => Some (index, dts front)
         end)
        (Z.max (ms_newest s) (dts back)) (ms_waiting s)
  | _, _ => mk_MergeScan (ms_oldest s) (ms_newest s) (ms_waiting s || ((index <? expected)%nat && negb (rn_absent r)))
  end.

Fixpoint scan_renditions (expected : nat) (s : MergeScan) (index : nat) (rs : list Rendition) : MergeScan :=
  match rs with
  | [] => s
  | r :: rs => scan_renditions expected (scan_rendition expected s index r) (S index) rs
  end.

Definition merge_scan (p : SegmentPublisher) : MergeScan :=
  let s := scan_renditions (pb_expected p) (mk_MergeScan None i64_MIN false) 0 (pb_renditions p) in
  mk_MergeScan (ms_oldest s) (ms_newest s)
    (ms_waiting s || ((length (pb_renditions p) <? pb_expected p)%nat && negb (pb_unborn_absent p))).

(** The wait ran out: what has nothing queued is absent. *)
Fixpoint mark_absent (expected : nat) (rs : list Rendition) : list Rendition :=
  match expected, rs with
  | S expected, r :: rs =>
      (match rn_queue r with [] => set_queue [] true r | _ => r end) :: mark_absent expected rs
  | _, _ => rs
  end.
Definition wait_over (p : SegmentPublisher) : SegmentPublisher :=
  mk_Publisher (mark_absent (pb_expected p) (pb_renditions p)) (pb_current p) (pb_expected p) (pb_window_ms p)
    (pb_packets p) (pb_probe_pending p) true true (pb_continuous p) (pb_promotion p) (pb_media_time_ms p).

(** The packet popped from a queue goes to [packets]. *)
Definition pop_packet (index : nat) (p : SegmentPublisher) : option SegmentPublisher :=
  match pb_renditions p !! index with
  | Some r =>
      match rn_queue r with
      | q :: queue =>
          Some (set_packets (pb_packets p ++ [q])
                  (set_renditions (alter (set_queue queue (rn_absent r)) index (pb_renditions p)) p))
      | [] => None
      end
  | None => None
  end.

(** One turn of [release_interleaved]; [None] is its return. *)
Definition release_turn (all : bool) (p : SegmentPublisher) : option SegmentPublisher :=
  let s := merge_scan p in
  match ms_oldest s with
  | None => None
  | Some (index, d) =>
      if ms_waiting s && negb all then
        if sat_i 64 (ms_newest s - d) <=? pb_window_ms p then None
        else pop_packet index (wait_over p)
      else pop_packet index p
  end.

Fixpoint release_loop (fuel : nat) (all : bool) (p : SegmentPublisher) : SegmentPublisher :=
  match fuel with
  | O => p
  | S fuel =>
      match release_turn all p with
      | Some p => release_loop fuel all p
      | None => p
      end
  end.

Definition queued (rs : list Rendition) : nat := list_sum (map (fun r => length (rn_queue r)) rs).
Definition release_interleaved (all : bool) (p : SegmentPublisher) : SegmentPublisher :=
  release_loop (S (queued (pb_renditions p))) all p.

(** [packets.retain(..)] while a keyframe is awaited. *)
Fixpoint drop_interframes (awaiting : bool) (packets : list MediaPacket) : bool * list MediaPacket :=
  match packets with
  | [] => (awaiting, [])
  | q :: packets =>
      if negb awaiting then let '(a, ps) := drop_interframes awaiting packets in (a, q :: ps)
      else if is_video_interframe q then drop_interframes awaiting packets
      else let '(a, ps) := drop_interframes (negb (is_video_keyframe q)) packets in (a, q :: ps)
  end.

(** The packets of one rendition among several, into its queue. *)
Definition queue_packets (p : SegmentPublisher) : SegmentPublisher :=
  let current := pb_current p in
  let keep := if (current =? 0)%nat then Video else Audio in
  let p := if (0 <? current)%nat || (1 <? pb_expected p)%nat
           then set_packets (filter (fun q => media_type q = keep) (pb_packets p)) p else p in
  let p := align_rebase current p in
  let '(s, packets) := apply_all (pb_packets p) (continuity_of p current) in
  let p := with_continuity current (fun _ => s) p in
  set_packets []
    (at_current (fun r => set_queue (rn_queue r ++ packets)
                            (match packets with [] => rn_absent r | _ => false end) r) p).

Definition forward (p : SegmentPublisher) (w : World) : SegmentPublisher * World :=
  match pb_renditions p !! pb_current p with
  | None => (p, w)
  | Some rendition =>
      let '(moved, packets, d) := sd_drain_into (rn_demux rendition) (pb_packets p) in
      let p := at_current (set_demux d) (set_packets packets p) in
      if (moved =? 0)%nat then (p, w)
      else
        let p := if rn_awaiting_keyframe rendition then
                   let '(awaiting, packets) := drop_interframes true packets in
                   at_current (set_awaiting awaiting) (set_packets packets p)
                 else p in
        if negb ((1 <? length (pb_renditions p))%nat || (1 <? pb_expected p)%nat) then
          let '(s, packets) := apply_all (pb_packets p) (pb_continuous p) in
          forward_batch (set_packets packets (set_continuous s p)) w
        else forward_batch (release_interleaved false (queue_packets p)) w
  end.

Definition select_rendition (rendition : nat) (demux : D) (p : SegmentPublisher) : SegmentPublisher :=
  let p := if (length (pb_renditions p) <=? rendition)%nat
           then mk_Publisher (pb_renditions p ++ [Rendition_new demux]) (pb_current p) (pb_expected p)
                  (pb_window_ms p) (pb_packets p) (pb_probe_pending p) (pb_probe_forced p) false
                  (pb_continuous p) (pb_promotion p) (pb_media_time_ms p)
           else p in
  set_current (Nat.min rendition (length (pb_renditions p) - 1)) p.

(** [window] in milliseconds. *)
Definition interleave (renditions : nat) (window : Z) (p : SegmentPublisher) (w : World) : SegmentPublisher * World :=
  let expected := Nat.max renditions 1 in
  let shrank := (expected <? pb_expected p)%nat in
  let p := mk_Publisher (pb_renditions p) (pb_current p) expected (default i64_MAX (checked_i 64 window))
             (pb_packets p) (pb_probe_pending p) (pb_probe_forced p) (pb_unborn_absent p)
             (pb_continuous p) (pb_promotion p) (pb_media_time_ms p) in
  if shrank then forward_batch (release_interleaved false p) w else (p, w).

(** *** Probes *)

Definition merged_probe (renditions : list Rendition) (expected : nat) : option DemuxProbe * list Rendition :=
  if (expected <=? 1)%nat && (length renditions <=? 1)%nat then
    (match renditions with r :: _ => rn_probe r | [] => None end,
     alter (fun r => set_probe (rn_probe_taken r) None r) 0%nat renditions)
  else
    let probes := omap rn_probe renditions in
    let video := find (fun probe => bool_decide (is_Some (dp_video probe))) probes in
    let audio := last (filter (fun probe => dp_audio_tracks probe <> []) probes) in
    (merged ← (match video with Some v => Some v | None => audio end);
     Some (match audio with
           | Some a => mk_DemuxProbe (dp_video merged) (dp_video_sequence_header merged)
                         (dp_video_track_count merged) (dp_audio_tracks a)
           | None => merged
           end),
     renditions).

Definition take_rendition_probe (p : SegmentPublisher) : SegmentPublisher :=
  match pb_renditions p !! pb_current p with
  | Some r =>
      if rn_probe_taken r then p
      else
        let '(probe, d) := sd_take_probe (rn_demux r) in
        let p := at_current (set_demux d) p in
        match probe with
        | Some probe => set_probe_flags true (pb_probe_forced p) (at_current (set_probe true (Some probe)) p)
        | None => p
        end
  | None => p
  end.

Definition take_probe (p : SegmentPublisher) (w : World) : SegmentPublisher * World :=
  let p := take_rendition_probe p in
  if negb (pb_probe_pending p) then (p, w)
  else
    let probed := length (filter (fun r => is_Some (rn_probe r)) (pb_renditions p)) in
    if (probed <? pb_expected p)%nat && negb (pb_probe_forced p) then (p, w)
    else
      let '(probe, rs) := merged_probe (pb_renditions p) (pb_expected p) in
      (set_renditions rs (set_probe_flags false false p),
       mk_World (wo_target w) (wo_probes w ++ match probe with Some probe => [probe] | None => [] end)).

(** *** Objects *)

Definition publish (chunk : bytes) (p : SegmentPublisher) (w : World)
  : SegmentPublisher * World * (MediaRejection + unit) :=
  let '(p, r) := try_demux (sd_feed chunk) p in
  match r with
  | inl e => (p, w, inl e)
  | inr _ => let '(p, w) := forward p w in (take_probe p w, inr tt)
  end.

Definition publisher_pending (p : SegmentPublisher) : bool :=
  match pb_renditions p !! demux_index p with
  | Some r => sd_pending (rn_demux r)
  | None => false
  end.

Definition publisher_end_object (p : SegmentPublisher) (w : World)
  : SegmentPublisher * World * (MediaRejection + unit) :=
  let '(p, r) := try_demux sd_end_object p in
  match r with
  | inl e => (p, w, inl e)
  | inr _ => (forward p w, inr tt)
  end.

Definition publisher_apply_init (l : bytes) (max_bytes : Z) (p : SegmentPublisher) (w : World)
  : SegmentPublisher * World * (MediaRejection + unit) :=
  let '(p, r) := try_demux (sd_apply_init l max_bytes) p in
  match r with
  | inl e => (p, w, inl e)
  | inr _ => (take_probe (at_current (fun r => set_probe false (rn_probe r) r) p) w, inr tt)
  end.

Definition flush_current (p : SegmentPublisher) (w : World) : SegmentPublisher * World :=
  forward (with_demux sd_flush p) w.

Fixpoint flush_all (renditions : list nat) (p : SegmentPublisher) (w : World) : SegmentPublisher * World :=
  match renditions with
  | [] => (p, w)
  | rendition :: renditions =>
      let '(p, w) := flush_current (set_current rendition p) w in flush_all renditions p w
  end.

Definition publisher_flush (p : SegmentPublisher) (w : World) : SegmentPublisher * World :=
  let current := pb_current p in
  let '(p, w) := flush_all (seq 0 (length (pb_renditions p))) p w in
  let p := set_current current p in
  if (1 <? length (pb_renditions p))%nat then forward_batch (release_interleaved true p) w else (p, w).

Definition after_gap (p : SegmentPublisher) : SegmentPublisher := at_current (set_awaiting true) p.

Definition discard_failed_object (p : SegmentPublisher) : SegmentPublisher :=
  let p := set_packets [] (with_demux sd_discard_object p) in
  after_gap (with_continuity (pb_current p) mark_clock_discontinuity p).

Definition reanchor (kind : Reanchor) (p : SegmentPublisher) (w : World) : SegmentPublisher * World :=
  match kind with
  | RNone => (p, w)
  | RClock =>
      let '(p, w) := flush_current p w in
      let p := with_demux sd_discontinuity p in
      (with_continuity (pb_current p) mark_clock_discontinuity p, w)
  | RTimeline generation =>
      let '(p, w) := flush_current p w in
      let p := with_demux sd_discontinuity p in
      (with_continuity (pb_current p) (mark_timeline_break generation) p, w)
  end.

(** *** The outbox of a session *)

Record Outbox := mk_Outbox { ox_releases : list Release; ox_offset : Z; ox_bytes : Z; ox_media : Z }.

(** [media] is a duration in nanoseconds; its additions do not saturate below [2 ^ 64] seconds. *)
Definition outbox_push (r : Release) (o : Outbox) : Outbox :=
  mk_Outbox (ox_releases o ++ [r]) (ox_offset o) (ox_bytes o + zlen (re_payload r)) (ox_media o + media r).
Definition outbox_pop_front (o : Outbox) : Outbox :=
  match ox_releases o with
  | [] => mk_Outbox [] 0 (ox_bytes o) (ox_media o)
  | r :: rs => mk_Outbox rs 0 (ox_bytes o - zlen (re_payload r)) (Z.max 0 (ox_media o - media r))
  end.

(** What publishing needs: the outbox, the publisher once there is one, the bound of an init
    segment, and the slots of applied inits by rendition ([AppliedInits::set] ignores one out of range). *)
Record Publishing := mk_Publishing {
  pl_outbox : Outbox;
  pl_publisher : option SegmentPublisher;
  pl_max_init_bytes : Z;
  pl_applied : list (option HlsOrdering.Init);
}.

(** The work before the first chunk of a release: its gap, break, init and object. *)
Definition start_release (fresh : D) (max_init_bytes : Z) (r : Release) (applied : list (option HlsOrdering.Init))
    (p : SegmentPublisher) (w : World)
  : list (option HlsOrdering.Init) * SegmentPublisher * World * (MediaRejection + unit) :=
  let p := select_rendition (re_rendition r) fresh p in
  let p := if re_after_gap r then after_gap p else p in
  let '(p, w) := reanchor (re_reanchor r) p w in
  let started :=
    match re_init r with
    | None => (applied, p, w, inr tt)
    | Some init =>
        let '(p, w, result) := publisher_apply_init (HlsOrdering.in_payload init) max_init_bytes p w in
        (match result with inl _ => applied | inr _ => <[re_rendition r := Some init]> applied end, p, w, result)
    end in
  match started with
  | (applied, p, w, inl e) => (applied, p, w, inl e)
  | (applied, p, w, inr _) =>
      let '(p, result) := try_demux (sd_begin_object (re_payload r)) p in (applied, p, w, result)
  end.

(** The rest of the step: one chunk or one bounded step, and the end of the object: the new
    offset, and whether the release is done. *)
Definition publish_chunk (l : bytes) (offset : Z) (p : SegmentPublisher) (w : World)
  : SegmentPublisher * World * Z * (MediaRejection + bool) :=
  let '(chunk, next) :=
    if publisher_pending p then ([], offset)
    else
      let next := Z.min (zlen l) (offset + PUBLISH_CHUNK_BYTES) in
      (take (Z.to_nat next - Z.to_nat offset) (drop (Z.to_nat offset) l), next) in
  let '(p, w, result) := publish chunk p w in
  match result with
  | inl e => (p, w, offset, inl e)
  | inr _ =>
      if (next <? zlen l) || publisher_pending p then (p, w, next, inr false)
      else
        let '(p, w, result) := publisher_end_object p w in
        match result with
        | inl e => (p, w, next, inl e)
        | inr _ => (p, w, next, inr true)
        end
  end.

Definition set_outbox_offset (n : Z) (o : Outbox) : Outbox := mk_Outbox (ox_releases o) n (ox_bytes o) (ox_media o).

Definition publish_next_chunk (fresh : D) (s : Publishing) (w : World)
  : Publishing * World * (MediaRejection + unit) :=
  match ox_releases (pl_outbox s), pl_publisher s with
  | r :: _, Some p =>
      let o := pl_outbox s in
      let '(applied, p, w, started) :=
        if ox_offset o =? 0 then start_release fresh (pl_max_init_bytes s) r (pl_applied s) p w
        else (pl_applied s, p, w, inr tt) in
      match started with
      | inl e => (mk_Publishing o (Some p) (pl_max_init_bytes s) applied, w, inl e)
      | inr _ =>
          let '(p, w, offset, result) := publish_chunk (re_payload r) (ox_offset o) p w in
          let o := set_outbox_offset offset o in
          match result with
          | inl e => (mk_Publishing o (Some p) (pl_max_init_bytes s) applied, w, inl e)
          | inr done =>
              (mk_Publishing (if done then outbox_pop_front o else o) (Some p) (pl_max_init_bytes s) applied, w,
               inr tt)
          end
      end
  | _, _ => (s, w, inr tt)
  end.

Definition drop_failed_release (s : Publishing) : Publishing :=
  mk_Publishing (outbox_pop_front (pl_outbox s)) (discard_failed_object <$> pl_publisher s)
    (pl_max_init_bytes s) (pl_applied s).

(** The arm of [drive] that publishes. *)
Definition publish_arm (fresh : D) (s : Publishing) (w : World) : Publishing * World :=
  let '(s, w, result) := publish_next_chunk fresh s w in
  match result with
  | inl _ => (drop_failed_release s, w)
  | inr _ => (s, w)
  end.

(** ** The merge of renditions *)

(** The scan finds a packet exactly when one is queued: the front of the first queue with the
    least time, and a bound of every queued time. *)
Record scan_ok (rs : list Rendition) (n : nat) (s : MergeScan) : Prop := {
  so_front : forall i d, ms_oldest s = Some (i, d) ->
    exists r q queue, (i < n)%nat /\ rs !! i = Some r /\ rn_queue r = q :: queue /\ dts q = d;
  so_least : forall i r q queue, (i < n)%nat -> rs !! i = Some r -> rn_queue r = q :: queue ->
    exists j d, ms_oldest s = Some (j, d) /\ d <= dts q;
  so_newest : forall i r q, (i < n)%nat -> rs !! i = Some r -> last (rn_queue r) = Some q -> dts q <= ms_newest s;
}.

Lemma scan_rendition_ok expected rs n s r :
  rs !! n = Some r -> scan_ok rs n s -> scan_ok rs (S n) (scan_rendition expected s n r).
Proof.
  intros Hr [Hf Hl Hn]. unfold scan_rendition.
  destruct (rn_queue r) as [|q queue] eqn:Hq; cbn [head].
  - constructor; cbn [ms_oldest ms_newest].
    + intros i d Hi. destruct (Hf i d Hi) as (r' & q & queue & ? & ? & ? & ?). exists r', q, queue. split_and!; try done. lia.
    + intros i r' q queue Hi Hr' Hq'. destruct (decide (i = n)) as [->|]; [simplify_eq; congruence|].
      eapply Hl; [|done..]. lia.
    + intros i r' q Hi Hr' Hq'. destruct (decide (i = n)) as [->|]; [simplify_eq; rewrite Hq in Hq'; done|].
      eapply Hn; [|done..]. lia.
  - destruct (last (q :: queue)) as [back|] eqn:Hb; [|by apply last_None in Hb].
    constructor; cbn [ms_oldest ms_newest].
    + intros i d. assert (Hold : ms_oldest s = Some (i, d) ->
        exists r q queue, (i < S n)%nat /\ rs !! i = Some r /\ rn_queue r = q :: queue /\ dts q = d).
      { intros Hi. destruct (Hf i d Hi) as (r' & q' & queue' & ? & ? & ? & ?). exists r', q', queue'. split_and!; try done. lia. }
      destruct (ms_oldest s) as [[j d']|]; [destruct (dts q <? d')|]; [|by apply Hold|];
        intros [= <- <-]; exists r, q, queue; split_and!; try done; lia.
    + intros i r' q' queue' Hi Hr' Hq'. destruct (decide (i = n)) as [->|].
      * simplify_eq. rewrite Hq in Hq'. simplify_eq. destruct (ms_oldest s) as [[j d']|]; [destruct (dts q' <? d') eqn:?|]; eexists _, _; split; try done; lia.
      * destruct (Hl i r' q' queue' ltac:(lia) Hr' Hq') as (j & d' & -> & Hle).
        destruct (dts q <? d') eqn:?; eexists _, _; split; try done; lia.
    + intros i r' q' Hi Hr' Hq'. destruct (decide (i = n)) as [->|].
      * simplify_eq. rewrite Hq in Hq'. simplify_eq. lia.
      * specialize (Hn i r' q' ltac:(lia) Hr' Hq'). lia.
Qed.

Lemma scan_renditions_ok expected rs k : forall pre s,
  rs = pre ++ k -> scan_ok rs (length pre) s ->
  scan_ok rs (length rs) (scan_renditions expected s (length pre) k).
Proof.
  induction k as [|r k IH]; intros pre s -> Hs; cbn [scan_renditions]; [by rewrite app_nil_r in *|].
  specialize (IH (pre ++ [r])). rewrite length_app in IH. cbn [length] in IH. rewrite Nat.add_1_r in IH.
  apply IH; [by rewrite <- app_assoc|]. apply scan_rendition_ok; [|done].
  by rewrite lookup_app_r, Nat.sub_diag by lia.
Qed.

Lemma merge_scan_ok p : scan_ok (pb_renditions p) (length (pb_renditions p)) (merge_scan p).
Proof.
  pose proof (scan_renditions_ok (pb_expected p) (pb_renditions p) (pb_renditions p) [] (mk_MergeScan None i64_MIN false) eq_refl)
    as Hs. cbn [length] in Hs. destruct Hs as [Hf Hl Hn]; [constructor; [done|lia|lia]|].
  unfold merge_scan. by constructor; cbn [ms_oldest ms_newest].
Qed.

(** The queues of two publishers, apart from the flags of absence. *)
Definition queues (p : SegmentPublisher) : list (list MediaPacket) := map rn_queue (pb_renditions p).

Lemma mark_absent_queues expected rs : map rn_queue (mark_absent expected rs) = map rn_queue rs.
Proof.
  revert expected. induction rs as [|r rs IH]; intros [|expected]; cbn; try done. rewrite IH. f_equal.
  by destruct (rn_queue r) eqn:?.
Qed.

Lemma queued_sum rs : queued rs = list_sum (map length (map rn_queue rs)).
Proof. unfold queued. by rewrite map_map. Qed.

Lemma pop_packet_spec i p p' :
  pop_packet i p = Some p' ->
  exists q queue, queues p !! i = Some (q :: queue) /\ queues p' = <[i := queue]> (queues p) /\
    pb_packets p' = pb_packets p ++ [q] /\ pb_window_ms p' = pb_window_ms p /\ pb_expected p' = pb_expected p /\
    length (pb_renditions p') = length (pb_renditions p).
Proof.
  unfold pop_packet, queues. destruct (pb_renditions p !! i) as [r|] eqn:Hr; [|done].
  destruct (rn_queue r) as [|q queue] eqn:Hq; [done|]. intros [= <-]. exists q, queue.
  cbn [set_packets set_renditions pb_renditions pb_packets pb_window_ms pb_expected]. split_and!; try done.
  - by rewrite list_lookup_fmap, Hr, <- Hq.
  - apply list_eq. intros k. rewrite list_lookup_fmap.
    destruct (decide (k = i)) as [->|Hk].
    + rewrite list_lookup_alter_eq, Hr. cbn. rewrite list_lookup_insert_eq; [done|].
      rewrite length_map. by apply lookup_lt_Some in Hr.
    + rewrite list_lookup_alter_ne, list_lookup_insert_ne by done. by rewrite list_lookup_fmap.
  - by rewrite length_alter.
Qed.

(** A merge: each packet comes off the front of a queue, and no queue has an older one. *)
Inductive merged : list (list MediaPacket) -> list MediaPacket -> list (list MediaPacket) -> Prop :=
| merged_nil qs : merged qs [] qs
| merged_pop qs i q queue out qs' :
    qs !! i = Some (q :: queue) ->
    (forall j q' queue', qs !! j = Some (q' :: queue') -> dts q <= dts q') ->
    merged (<[i := queue]> qs) out qs' -> merged qs (q :: out) qs'.

(** A rendition the merge waits for: nothing queued (or not there yet) and not known absent. *)
Definition waited_for (p : SegmentPublisher) : Prop :=
  exists i, (i < pb_expected p)%nat /\
    match pb_renditions p !! i with
    | Some r => rn_queue r = [] /\ rn_absent r = false
    | None => pb_unborn_absent p = false
    end.

Lemma scan_waiting expected rs : forall s n,
  ms_waiting (scan_renditions expected s n rs) = true ->
  ms_waiting s = true \/ exists i r, rs !! i = Some r /\ (n + i < expected)%nat /\ rn_queue r = [] /\ rn_absent r = false.
Proof.
  induction rs as [|r rs IH]; intros s n; cbn [scan_renditions]; [by left|]. intros Hw.
  apply IH in Hw as [Hw|(i & r' & Hr & Hi & Hq & Ha)].
  - unfold scan_rendition in Hw. destruct (rn_queue r) as [|q queue] eqn:Hq; cbn [head ms_waiting] in Hw.
    + apply orb_true_iff in Hw as [Hw|Hw]; [by left|]. right. exists 0%nat, r.
      apply andb_true_iff in Hw as [Hn Ha]. apply Nat.ltb_lt in Hn. apply negb_true_iff in Ha. split_and!; (done || lia).
    + destruct (last (q :: queue)) eqn:Hl; [by left|]. by apply last_None in Hl.
  - right. exists (S i), r'. split_and!; (done || lia).
Qed.

Lemma merge_waiting p : ms_waiting (merge_scan p) = true -> waited_for p.
Proof.
  unfold merge_scan. cbn [ms_waiting]. intros [Hw|Hw]%orb_true_iff.
  - apply scan_waiting in Hw as [?|(i & r & Hr & Hi & ?)]; [done|]. exists i. by rewrite Hr.
  - apply andb_true_iff in Hw as [Hl Hu]. apply Nat.ltb_lt in Hl. exists (length (pb_renditions p)). split; [done|].
    rewrite lookup_ge_None_2 by done. by apply negb_true_iff.
Qed.

Lemma release_turn_pop all p p' :
  release_turn all p = Some p' ->
  exists i q queue, queues p !! i = Some (q :: queue) /\
    (forall j q' queue', queues p !! j = Some (q' :: queue') -> dts q <= dts q') /\
    queues p' = <[i := queue]> (queues p) /\ pb_packets p' = pb_packets p ++ [q] /\
    pb_window_ms p' = pb_window_ms p.
Proof.
  unfold release_turn. destruct (merge_scan_ok p) as [Hf Hl _]. destruct (ms_oldest (merge_scan p)) as [[i d]|] eqn:Hold; [|done].
  intros Hturn. assert (Hpop : exists p0, pop_packet i p0 = Some p' /\ queues p0 = queues p /\
    pb_packets p0 = pb_packets p /\ pb_window_ms p0 = pb_window_ms p).
  { destruct (ms_waiting (merge_scan p) && negb all); [destruct (_ <=? _); [done|]|]; eexists; split; try done.
    unfold wait_over, queues. cbn [pb_renditions pb_packets pb_window_ms]. by rewrite mark_absent_queues. }
  destruct Hpop as (p0 & Hpop & Hq0 & Hp0 & Hw0). apply pop_packet_spec in Hpop as (q & queue & Hq & Hqs & Hps & Hw & _).
  rewrite Hq0 in *. exists i, q, queue. rewrite <- Hp0, <- Hw0. split_and!; try done.
  destruct (Hf i d eq_refl) as (r & q1 & queue1 & _ & Hr & Hrq & <-).
  assert (q1 = q) as ->.
  { unfold queues in Hq. rewrite list_lookup_fmap, Hr in Hq. cbn in Hq. rewrite Hrq in Hq. by simplify_eq. }
  intros j q' queue' Hj. unfold queues in Hj. rewrite list_lookup_fmap in Hj.
  destruct (pb_renditions p !! j) as [r'|] eqn:Hr'; [|done]. cbn in Hj. injection Hj as Hj.
  destruct (Hl j r' q' queue' (lookup_lt_Some _ _ _ Hr') Hr' Hj) as (? & ? & [= <- <-] & ?). done.
Qed.

Lemma queues_shrink (qs : list (list MediaPacket)) i q queue :
  qs !! i = Some (q :: queue) ->
  list_sum (map length qs) = S (list_sum (map length (<[i := queue]> qs))) /\ concat qs ≡ₚ q :: concat (<[i := queue]> qs).
Proof.
  revert i. induction qs as [|x qs IH]; intros [|i]; cbn; try done.
  - intros [= ->]. cbn. done.
  - intros Hi. destruct (IH i Hi) as [Hs Hp]. split; [change (length x + list_sum (map length qs) = S (length x + list_sum (map length (<[i:=queue]> qs))))%nat; lia|]. rewrite Hp. by rewrite Permutation_middle.
Qed.

Lemma merge_loop_spec all fuel : forall p,
  (queued (pb_renditions p) < fuel)%nat ->
  exists out, let p' := release_loop fuel all p in
    pb_packets p' = pb_packets p ++ out /\ merged (queues p) out (queues p') /\
    pb_window_ms p' = pb_window_ms p /\ release_turn all p' = None.
Proof.
  induction fuel as [|fuel IH]; intros p Hf; [lia|]. cbn [release_loop].
  destruct (release_turn all p) as [p1|] eqn:Ht; cycle 1.
  { exists []. rewrite app_nil_r. split_and!; try done. constructor. }
  apply release_turn_pop in Ht as (i & q & queue & Hi & Hle & Hq & Hp & Hw).
  rewrite queued_sum in Hf. fold (queues p) in Hf. apply queues_shrink in Hi as Hs. destruct Hs as [Hs _].
  destruct (IH p1) as (out & Ho & Hm & Hw' & Hn).
  { rewrite queued_sum. fold (queues p1). rewrite Hq. lia. }
  exists (q :: out). cbn zeta. rewrite Ho, Hp, Hw', Hw, <- app_assoc. split_and!; try done.
  econstructor; [done|done|]. by rewrite <- Hq.
Qed.

Abbreviation by_dts := (fun p q : MediaPacket => dts p <= dts q).

Lemma elem_of_concat {A} (x : A) qs : x ∈ concat qs <-> exists l, x ∈ l /\ l ∈ qs.
Proof.
  rewrite list_elem_of_In, in_concat. split; intros (l & H1 & H2); exists l; by rewrite !list_elem_of_In in *.
Qed.

Lemma front_least (qs : list (list MediaPacket)) q :
  Forall (StronglySorted by_dts) qs ->
  (forall j q' queue', qs !! j = Some (q' :: queue') -> dts q <= dts q') ->
  forall x, x ∈ concat qs -> dts q <= dts x.
Proof.
  intros Hs Hq x Hx. apply elem_of_concat in Hx as (l & Hx & Hl). apply list_elem_of_lookup in Hl as [j Hj].
  eapply Forall_lookup_1 in Hs; [|exact Hj]. destruct l as [|q' queue']; [by apply elem_of_nil in Hx|].
  specialize (Hq _ _ _ Hj). inversion_clear Hs as [|? ? _ Hall]. apply elem_of_cons in Hx as [->|Hx]; [done|].
  rewrite Forall_forall in Hall. specialize (Hall _ Hx). lia.
Qed.

(** Sorted queues merge into a sorted list, before everything still queued. *)
Lemma merged_sorted qs out qs' :
  merged qs out qs' -> Forall (StronglySorted by_dts) qs ->
  Forall (StronglySorted by_dts) qs' /\ concat qs ≡ₚ out ++ concat qs' /\ StronglySorted by_dts out /\
  Forall (fun q => forall x, x ∈ concat qs' -> dts q <= dts x) out.
Proof.
  induction 1 as [qs|qs i q queue out qs' Hi Hle Hm IH]; intros Hs; [split_and!; try done; constructor|].
  destruct (queues_shrink _ _ _ _ Hi) as [_ Hp].
  destruct IH as (Hs' & Hp' & Ho & Hall).
  { apply Forall_insert; [done|]. eapply Forall_lookup_1 in Hs; [|exact Hi]. by inversion_clear Hs. }
  assert (Hq : forall x, x ∈ out ++ concat qs' -> dts q <= dts x).
  { intros x Hx. eapply front_least; [exact Hs|exact Hle|]. rewrite Hp. apply elem_of_cons. right. by rewrite Hp'. }
  split_and!; try done.
  - by rewrite Hp, Hp'.
  - constructor; [done|]. apply Forall_forall. intros x Hx. apply Hq, elem_of_app. by left.
  - constructor; [|done]. intros x Hx. apply Hq, elem_of_app. by right.
Qed.

Lemma turn_over all p :
  release_turn all p = None -> Forall (StronglySorted by_dts) (queues p) -> pb_window_ms p < 2 ^ 63 - 1 ->
  concat (queues p) = [] \/
  all = false /\ waited_for p /\
  forall x y, x ∈ concat (queues p) -> y ∈ concat (queues p) -> dts y - dts x <= pb_window_ms p.
Proof.
  unfold release_turn. destruct (merge_scan_ok p) as [Hf Hl Hn]. intros Ht Hs Hw.
  destruct (ms_oldest (merge_scan p)) as [[i d]|] eqn:Hold; cycle 1.
  { left. apply elem_of_nil_inv. intros x Hx. apply elem_of_concat in Hx as (l & Hx & Hin).
    unfold queues in Hin. apply list_elem_of_fmap in Hin as (r & -> & Hr). apply list_elem_of_lookup in Hr as [j Hj].
    destruct (rn_queue r) as [|q queue] eqn:Hq; [by apply elem_of_nil in Hx|].
    by destruct (Hl j r q queue (lookup_lt_Some _ _ _ Hj) Hj Hq) as (? & ? & ? & _). }
  right. destruct (Hf i d eq_refl) as (r & q & queue & _ & Hr & Hq & Hd).
  assert (Hpop : forall p0, queues p0 = queues p -> pop_packet i p0 <> None).
  { intros p0 Hp0. apply (f_equal (lookup i)) in Hp0. unfold queues in Hp0. rewrite !list_lookup_fmap, Hr in Hp0.
    cbn in Hp0. rewrite Hq in Hp0. unfold pop_packet. destruct (pb_renditions p0 !! i) as [r0|]; [|done].
    cbn in Hp0. injection Hp0 as Hp0. by rewrite Hp0. }
  destruct (ms_waiting (merge_scan p)) eqn:Hwait; cbn [andb] in Ht; [|by destruct (Hpop p eq_refl)].
  destruct all; cbn [negb] in Ht; [by destruct (Hpop p eq_refl)|].
  destruct (_ <=? _) eqn:Hwin; cycle 1.
  { exfalso. eapply (Hpop (wait_over p)); [|done]. unfold queues, wait_over. cbn [pb_renditions]. apply mark_absent_queues. }
  split; [done|]. split; [by apply merge_waiting|]. intros x y Hx Hy.
  assert (d <= dts x).
  { subst d. eapply front_least; [exact Hs| |exact Hx]. intros j q' queue' Hj.
    unfold queues in Hj. rewrite list_lookup_fmap in Hj. destruct (pb_renditions p !! j) as [r'|] eqn:Hr'; [|done].
    injection Hj as Hj. by destruct (Hl j r' q' queue' (lookup_lt_Some _ _ _ Hr') Hr' Hj) as (? & ? & [= <- <-] & ?). }
  assert (dts y <= ms_newest (merge_scan p)).
  { apply elem_of_concat in Hy as (l & Hy & Hin). apply list_elem_of_lookup in Hin as [j Hj].
    eapply Forall_lookup_1 in Hs; [|exact Hj]. unfold queues in Hj. rewrite list_lookup_fmap in Hj.
    destruct (pb_renditions p !! j) as [r'|] eqn:Hr'; [|done]. injection Hj as <-.
    destruct (last (rn_queue r')) as [q1|] eqn:Hlast; [|apply last_None in Hlast; rewrite Hlast in Hy; by apply elem_of_nil in Hy].
    specialize (Hn j r' q1 (lookup_lt_Some _ _ _ Hr') Hr' Hlast). apply last_Some in Hlast as [k Hk]. rewrite Hk in Hy, Hs.
    apply elem_of_app in Hy as [Hy|Hy]; [|by apply list_elem_of_singleton in Hy as ->].
    enough (dts y <= dts q1) by lia.
    eapply (StronglySorted_app_1_elem_of by_dts); [exact Hs|done|by apply list_elem_of_singleton]. }
  unfold sat_i in Hwin. lia.
Qed.

(** C13: Several renditions are merged in decode order: the packets a release adds to the batch are
    taken from the fronts of the queues, each the oldest queued, so that queues in decode order give
    a batch in decode order, none of it newer than what stays queued; everything leaves at the end
    of the stream, and otherwise packets stay only while a rendition that may still deliver has
    nothing queued, and then they span no more than the window. *)
Theorem merge_in_decode_order all p :
  Forall (StronglySorted by_dts) (queues p) -> pb_window_ms p < 2 ^ 63 - 1 ->
  let p' := release_interleaved all p in
  exists out,
    pb_packets p' = pb_packets p ++ out /\ merged (queues p) out (queues p') /\
    concat (queues p) ≡ₚ out ++ concat (queues p') /\ StronglySorted by_dts out /\
    Forall (fun q => forall x, x ∈ concat (queues p') -> dts q <= dts x) out /\
    (concat (queues p') = [] \/
     all = false /\ waited_for p' /\
     forall x y, x ∈ concat (queues p') -> y ∈ concat (queues p') -> dts y - dts x <= pb_window_ms p).
Proof.
  intros Hs Hw. unfold release_interleaved.
  destruct (merge_loop_spec all (S (queued (pb_renditions p))) p ltac:(lia)) as (out & Ho & Hm & Hwin & Hn).
  exists out. destruct (merged_sorted _ _ _ Hm Hs) as (Hs' & Hp & Hso & Hall). split_and!; try done.
  rewrite <- Hwin in Hw |- *. by apply turn_over.
Qed.
End publisher.

(** ** One rendition, published to an active input *)




Lemma apply_all_length packets : forall s, length (apply_all packets s).2 = length packets.
Proof.
  induction packets as [|q packets IH]; intros s; cbn [apply_all]; [done|].
  destruct (Continuity.apply q s) as [s1 q1]. specialize (IH s1). destruct (apply_all packets s1). cbn in *. lia.
Qed.




Section single.
Context {D : Type} `{SegmentDemux D}.
Implicit Types p : SegmentPublisher (D := D).




End single.

(** ** A media segment from the outbox to the ring *)

Section fmp4.
Context `{Memmem} `{Mp4}.
Implicit Types (p : SegmentPublisher (D := Fmp4Demux)) (d : Fmp4Demux).













Definition run_arms (n : nat) (fresh : Fmp4Demux) (s : Publishing) (w : World) : Publishing * World :=
  Nat.iter n (fun sw => publish_arm fresh sw.1 sw.2) (s, w).









End fmp4.

(** ** Witnesses *)

Definition merge_packet (t : MediaType) (d : Z) : MediaPacket := mk_MediaPacket t Raw true 0 d d [].
Definition merge_rendition (queue : list MediaPacket) : Rendition (D := unit) :=
  mk_Rendition tt true None queue joining false false.
Definition merge_publisher : SegmentPublisher :=
  mk_Publisher [merge_rendition [merge_packet Video 10; merge_packet Video 50; merge_packet Video 90];
                merge_rendition [merge_packet Audio 20; merge_packet Audio 40]]
    0 2 200 [] false false false Continuous_default InputTimestampMapper_default None.

Example merge_example :
  pb_packets (release_interleaved false merge_publisher) =
    [merge_packet Video 10; merge_packet Audio 20; merge_packet Audio 40] /\
  queues (release_interleaved false merge_publisher) = [[merge_packet Video 50; merge_packet Video 90]; []].
Proof. split; vm_compute; reflexivity. Qed.

Lemma merge_in_decode_order_witness :
  let p' := release_interleaved false merge_publisher in
  exists out,
    pb_packets p' = [] ++ out /\ merged (queues merge_publisher) out (queues p') /\
    concat (queues merge_publisher) ≡ₚ out ++ concat (queues p') /\ StronglySorted (fun p q => dts p <= dts q) out /\
    Forall (fun q => forall x, x ∈ concat (queues p') -> dts q <= dts x) out /\
    (concat (queues p') = [] \/
     false = false /\ waited_for p' /\
     forall x y, x ∈ concat (queues p') -> y ∈ concat (queues p') -> dts y - dts x <= 200).
Proof.
  apply (merge_in_decode_order false merge_publisher).
  - repeat constructor; cbn; lia.
  - cbn. lia.
Defined.

Definition sample_demux : Fmp4Demux := mk_Fmp4Demux (Some (mk_Init demuxer_new sample_tracks)) None [] [] None false.
Definition sample_release : Release := mk_Release 0 7 0 RNone false 4000 None sample_media.
Definition sample_publisher : SegmentPublisher :=
  publisher_new sample_demux Continuous_default InputTimestampMapper_default.
Definition sample_publishing : Publishing :=
  mk_Publishing (outbox_push sample_release (mk_Outbox [] 0 0 0)) (Some sample_publisher) 1024 [None; None].
Definition sample_world : World := mk_World (mk_Target ACTIVE i64_MIN [] None []) [].


Example sample_segment_published :
  let '(s', w') := @run_arms naive_memmem simple_mp4 1 Fmp4Demux_default sample_publishing sample_world in
  ox_releases (pl_outbox s') = [] /\ t_ring (wo_target w') = sample_packets.
Proof. vm_compute. done. Qed.
