(* ===== verification/Cmaf.v ===== *)
(** * CMAF tracks of MoQ

    Models [crates/restream-engine/src/moq/ingest/cmaf.rs]: a MoQ track of CMAF fragments, which
    are demuxed whole by the demuxer of HLS push. *)

From S2P Require Import Prelude Annexb Media Probe TsDemux Mp4Boxes Fmp4Demux.

Open Scope Z_scope.

Definition MAX_CMAF_INIT_BYTES : Z := 1 .<< 20.

Section with_mp4.
Context `{Memmem} `{Mp4}.

Record CmafTrack := mk_CmafTrack {
  cm_demux : Fmp4Demux;
  cm_probe : option DemuxProbe;
  cm_audio_base : Z;
}.

Definition CmafTrack_new (init : bytes) (audio_base : Z) : MediaRejection + CmafTrack :=
  match apply_init init MAX_CMAF_INIT_BYTES Fmp4Demux_default with
  | (_, inl e) => inl e
  | (demux, inr _) => let '(probe, demux) := take_probe demux in inr (mk_CmafTrack demux probe audio_base)
  end.

Definition cmaf_video_meta (t : CmafTrack) : option VideoMeta := cm_probe t ≫= dp_video.

Definition cmaf_audio_meta (t : CmafTrack) : option AudioMeta :=
  probe ← cm_probe t;
  meta ← head (dp_audio_tracks probe);
  Some (mk_AudioMeta (am_codec meta) (am_sample_rate meta) (am_channels meta) (am_channel_layout meta)
          (sat_u 32 (am_track_index meta + cm_audio_base t)) (am_pid meta) (am_language meta) (am_title meta)
          (am_profile meta)).

Definition rebase_audio (audio_base : Z) (q : MediaPacket) : MediaPacket :=
  if bool_decide (media_type q = Audio)
  then mk_MediaPacket (media_type q) (format q) (is_keyframe q) (sat_u 32 (track_index q + audio_base)) (pts q)
         (dts q) (payload q)
  else q.

Definition set_cmaf_demux (d : Fmp4Demux) (t : CmafTrack) : CmafTrack := mk_CmafTrack d (cm_probe t) (cm_audio_base t).

Definition fragment (l : bytes) (t : CmafTrack) (out : list MediaPacket)
  : CmafTrack * list MediaPacket * (MediaRejection + unit) :=
  let '(d, demuxed) :=
    match begin_object l (cm_demux t) with
    | (d, inl e) => (d, inl e)
    | (d, inr _) => end_object d
    end in
  match demuxed with
  | inl e => (set_cmaf_demux (discard_object d) t, out, inl e)
  | inr _ =>
      let start := length out in
      let '(_, out, d) := drain_into d out in
      (set_cmaf_demux d t, take start out ++ map (rebase_audio (cm_audio_base t)) (drop start out), inr tt)
  end.

(** Between fragments: an init, no object in progress, nothing undelivered. *)
Definition cmaf_idle (i : Init) (t : CmafTrack) : Prop :=
  fd_init (cm_demux t) = Some i /\ fd_object (cm_demux t) = None /\ fd_output (cm_demux t) = [].

(** C29: A CMAF payload is published whole or not at all: a payload whose fragments all demux adds
    their packets in order, audio moved up by the track's base, and one the walk or a fragment
    refuses adds nothing; the track is idle again in every case, so the next payload is
    independent of it but for the demuxer's own state. *)
Theorem payload_published_whole_or_not l t i out :
  cmaf_idle i t ->
  let '(t', out', result) := fragment l t out in
  exists dm,
    cmaf_idle (mk_Init dm (in_tracks i)) t' /\
    match media_fragments l with
    | (inl _, _) => out' = out /\ result = inl Malformed
    | (inr _, fragments) =>
        let '(dm', qs, e) := demux_fragments (in_demuxer i) (in_tracks i) l fragments in
        dm = dm' /\ result = to_result e /\
        out' = match e with None => out ++ map (rebase_audio (cm_audio_base t)) qs | Some _ => out end
    end.
Proof.
  intros (Hi & Ho & Hout). unfold fragment, begin_object. rewrite Hi.
  destruct (media_fragments l) as [[e|report] fragments] eqn:Hm.
  { exists (in_demuxer i). destruct i. by split. }
  pose proof (media_fragments_bounds l) as [Hb Hl]. rewrite Hm in Hb, Hl. cbn [snd] in Hb, Hl.
  set (d := mk_Fmp4Demux _ _ fragments _ _ _). destruct (end_object d) as [d' r] eqn:Hend.
  assert (Hst : state_of i (mk_Object l 0 0 None) d).
  { split_and!; [done..|]. split; [|done]. split_and!; [done..|cbn; unfold zlen; lia]. }
  destruct (end_object_spec _ _ _ _ _ Hst Hend) as (qs & dm & e & Hleft & -> & Hout' & Hi' & Ho').
  change (demux_fragments (in_demuxer i) (in_tracks i) l fragments = (dm, qs, e)) in Hleft.
  change (fd_output d) with (fd_output (cm_demux t)) in Hout'. rewrite Hout in Hout'. cbn [app] in Hout'.
  destruct e as [e|]; cbn [to_result drain_into]; exists dm; rewrite Hleft; (split; [by split_and!|]); [done|].
  split_and!; try done. by rewrite take_app_length, drop_app_length, Hout'.
Qed.
End with_mp4.

Definition sample_cmaf : CmafTrack :=
  mk_CmafTrack (mk_Fmp4Demux (Some (mk_Init demuxer_new sample_tracks)) None [] [] None false) None 3.

Lemma payload_published_whole_or_not_witness :
  let '(t', out', result) := fragment sample_media sample_cmaf [] in
  exists dm,
    cmaf_idle (mk_Init dm sample_tracks) t' /\
    match media_fragments sample_media with
    | (inl _, _) => out' = [] /\ result = inl Malformed
    | (inr _, fragments) =>
        let '(dm', qs, e) := demux_fragments demuxer_new sample_tracks sample_media fragments in
        dm = dm' /\ result = to_result e /\
        out' = match e with None => [] ++ map (rebase_audio 3) qs | Some _ => [] end
    end.
Proof.
  apply (payload_published_whole_or_not sample_media sample_cmaf (mk_Init demuxer_new sample_tracks) []).
  split_and!; reflexivity.
Defined.

Example sample_payload :
  (fragment sample_media sample_cmaf []).1.2 = map (rebase_audio 3) sample_packets.
Proof. vm_compute. reflexivity. Qed.
