(* ===== verification/HlsSession.v ===== *)
(** * A push session

    Models [crates/restream-engine/src/hls_ingest/session.rs] around the ordering of [HlsOrdering]
    and the publisher of [SegmentPublisher], and the pacer of [hls_ingest/pacing.rs]: what is done
    with an uploaded object, when the outbox is published, and the turns of the session's loop.
    A turn is given the branch its [select!] took and the times it read. *)

From S2P Require Import Prelude Annexb Media Probe TsDemux InputGate Continuity UploadPolicy HlsPlaylist HlsOrdering Mp4Boxes Fmp4Demux.
From S2P Require Import SegmentPublisher.

Open Scope Z_scope.

(** ** The pacer *)

Definition MS : Z := 1000000.

(** [anchor]: an instant, and the media time in milliseconds. *)
Record Pacer := mk_Pacer { pa_anchor : option (Z * Z) }.
Definition pacer_reset : Pacer := mk_Pacer None.

Definition delay (now : Z) (media_ms : option Z) (lead : Z) (p : Pacer) : Pacer * Z :=
  match media_ms with
  | None => (p, 0)
  | Some media_ms =>
      match pa_anchor p with
      | None => (mk_Pacer (Some (now, media_ms)), 0)
      | Some (anchor_wall, anchor_ms) =>
          match checked_u 64 (sat_i 64 (media_ms - anchor_ms)) with
          | None => (mk_Pacer (Some (now, media_ms)), 0)
          | Some elapsed_ms =>
              let due := anchor_wall + elapsed_ms * MS in
              if now <=? due then
                if lead <? due - now then (mk_Pacer (Some (now, media_ms)), 0) else (p, due - now)
              else if lead <? now - due then (mk_Pacer (Some (now, media_ms)), 0) else (p, 0)
          end
      end
  end.

(** ** Containers *)

Inductive Container := ContainerTs | ContainerFmp4.
#[global] Instance Container_eq_dec : EqDecision Container.
Proof. solve_decision. Defined.

Section session.
Context `{Memmem} `{Memchr} `{Mp4} (hash : bytes -> Z).

(** A [Box<dyn SegmentDemux>] is one of the two. *)
Inductive AnyDemux := DTs (d : TsDemuxer) | DFmp4 (d : Fmp4Demux).

Definition container_demux (c : Container) : AnyDemux :=
  match c with
  | ContainerTs => DTs TsDemuxer_new
  | ContainerFmp4 => DFmp4 Fmp4Demux_default
  end.
Definition container_of (d : AnyDemux) : Container :=
  match d with DTs _ => ContainerTs | DFmp4 _ => ContainerFmp4 end.

Definition map_any {A} (f : TsDemuxer -> TsDemuxer * A) (g : Fmp4Demux -> Fmp4Demux * A) (d : AnyDemux) : AnyDemux * A :=
  match d with
  | DTs d => let '(d, a) := f d in (DTs d, a)
  | DFmp4 d => let '(d, a) := g d in (DFmp4 d, a)
  end.
Definition both {A B} (x : A * B) : B * A := (x.2, x.1).
Definition only {A} (x : A) : A * unit := (x, tt).

#[export] Instance any_segment_demux : SegmentDemux AnyDemux := {
  sd_begin_object l := map_any (sd_begin_object l) (sd_begin_object l);
  sd_feed chunk := map_any (sd_feed chunk) (sd_feed chunk);
  sd_pending d := match d with DTs d => sd_pending d | DFmp4 d => sd_pending d end;
  sd_drain_into d out := both (map_any (fun d => both (sd_drain_into d out)) (fun d => both (sd_drain_into d out)) d);
  sd_end_object := map_any sd_end_object sd_end_object;
  sd_flush d := (map_any (fun d => only (sd_flush d)) (fun d => only (sd_flush d)) d).1;
  sd_discard_object d := (map_any (fun d => only (sd_discard_object d)) (fun d => only (sd_discard_object d)) d).1;
  sd_discontinuity d := (map_any (fun d => only (sd_discontinuity d)) (fun d => only (sd_discontinuity d)) d).1;
  sd_apply_init l n := map_any (sd_apply_init l n) (sd_apply_init l n);
  sd_take_probe d := both (map_any (fun d => both (sd_take_probe d)) (fun d => both (sd_take_probe d)) d);
}.

(** ** Uploaded objects *)

Inductive ObjectContent :=
| CPlaylist (parsed : option Playlist)
| CTsSegment
| CFmp4.

Inductive ObjectOutcome := OStored | OHeld | ODropped | OUnsupported | OMalformed | OTooLarge.

Definition outcome_of (e : MediaRejection) : ObjectOutcome :=
  match e with Unsupported => OUnsupported | Malformed => OMalformed | TooLarge => OTooLarge end.

Definition check_fmp4 (l : bytes) (is_map_object map_required_ : bool) (max_init_bytes : Z) : MediaRejection + unit :=
  if is_init_segment l then check_init l max_init_bytes
  else if is_map_object then inl Malformed
  else if map_required_ then inl Unsupported
  else match (media_fragments l).1 with inl _ => inl Malformed | inr _ => inr tt end.

(** The state of [run]: the ordering, the publishing state, the container, the pacer, and what is
    published to. *)
Record State := mk_State {
  st_session : Session;
  st_publishing : Publishing (D := AnyDemux);
  st_container : option Container;
  st_pacer : Pacer;
  st_outbox_limit : Z;
  st_last_activity : Z;
  st_world : World;
}.

Definition forget_uri (uri : string) (inits : list (option HlsOrdering.Init)) : list (option HlsOrdering.Init) :=
  map (fun slot => match slot with
                   | Some init => if bool_decide (in_uri init = uri) then None else slot
                   | None => None
                   end) inits.

Definition set_session (s : Session) (st : State) : State :=
  mk_State s (st_publishing st) (st_container st) (st_pacer st) (st_outbox_limit st) (st_last_activity st) (st_world st).
Definition set_publishing (p : Publishing) (w : World) (st : State) : State :=
  mk_State (st_session st) p (st_container st) (st_pacer st) (st_outbox_limit st) (st_last_activity st) w.
Definition set_pacer (p : Pacer) (st : State) : State :=
  mk_State (st_session st) (st_publishing st) (st_container st) p (st_outbox_limit st) (st_last_activity st) (st_world st).

(** The end of [apply]: the container is fixed by the first accepted object. *)
Definition accept (container : Container) (path : string) (payload : bytes) (now : Z) (st : State)
  : State * ObjectOutcome :=
  let p := st_publishing st in
  let st := match st_container st with
            | Some _ => st
            | None =>
                mk_State (st_session st)
                  (mk_Publishing (pl_outbox p)
                     (Some (publisher_new (container_demux container) Continuous_default InputTimestampMapper_default))
                     (pl_max_init_bytes p) (pl_applied p))
                  (Some container) (st_pacer st) (st_outbox_limit st) (st_last_activity st) (st_world st)
            end in
  let '(s, outcome) := on_segment path payload now (st_session st) in
  (set_session s st,
   match outcome with
   | SegHeld => OHeld
   | SegAttached | SegInit => OStored
   | SegDuplicate | SegOtherVariant => ODropped
   end).

Definition apply (content : ObjectContent) (path : string) (payload : bytes) (now : Z) (st : State)
  : State * ObjectOutcome :=
  let segment (container : Container) :=
    match st_container st with
    | Some current => if bool_decide (current = container) then None else Some OUnsupported
    | None => None
    end in
  match content with
  | CPlaylist None => (st, OMalformed)
  | CPlaylist (Some parsed) =>
      let '(s, outcome) := on_playlist path parsed now (st_session st) in
      (set_session s st, match outcome with PlAccepted => OStored | PlOtherVariant => ODropped end)
  | CTsSegment =>
      match segment ContainerTs with
      | Some outcome => (st, outcome)
      | None => accept ContainerTs path payload now st
      end
  | CFmp4 =>
      match segment ContainerFmp4 with
      | Some outcome => (st, outcome)
      | None =>
          let p := st_publishing st in
          let is_map_object := session_knows_map path (st_session st) in
          match check_fmp4 payload is_map_object (map_required (st_session st)) (pl_max_init_bytes p) with
          | inl rejection =>
              (if is_map_object || is_init_segment payload
               then mk_State (void_map path (st_session st))
                      (mk_Publishing (pl_outbox p) (pl_publisher p) (pl_max_init_bytes p) (forget_uri path (pl_applied p)))
                      (st_container st) (st_pacer st) (st_outbox_limit st) (st_last_activity st) (st_world st)
               else st, outcome_of rejection)
          | inr _ => accept ContainerFmp4 path payload now st
          end
      end
  end.

(** ** The loop *)

Definition set_last_activity (at_ : Z) (st : State) : State :=
  mk_State (st_session st) (st_publishing st) (st_container st) (st_pacer st) (st_outbox_limit st) at_ (st_world st).

Inductive SessionEnd := EndEnded | EndIdle | EndCancelled.

(** The branch a turn of the loop takes, with the time it is taken at. *)
Inductive Branch :=
| BCancelled
| BClosed
| BObject (content : ObjectContent) (path : string) (payload : bytes) (at_ : Z)
| BPublish (at_ : Z)
| BWake (at_ : Z).

(** [publish_at]: the pacer is asked only while there is something to publish. *)
Definition publish_at (now : Z) (st : State) : option Z * State :=
  match pl_publisher (st_publishing st), ox_releases (pl_outbox (st_publishing st)) with
  | Some p, _ :: _ =>
      let '(pacer, wait) := delay now (pb_media_time_ms p) (pacing_lead (st_session st)) (st_pacer st) in
      (Some (now + wait), set_pacer pacer st)
  | _, _ => (None, st)
  end.

Definition idle_at (st : State) : option Z :=
  match ox_releases (pl_outbox (st_publishing st)) with
  | [] => Some (st_last_activity st + idle_timeout (st_session st))
  | _ => None
  end.
Definition wake_at (st : State) : option Z := option_min (next_deadline (st_session st)) (idle_at st).

Definition accepting (st : State) : bool :=
  let o := pl_outbox (st_publishing st) in
  (ox_media o <? Z.min (pacing_lead (st_session st) * 2) DURATION_MAX) && (ox_bytes o <=? st_outbox_limit st).

Definition due (t : option Z) (at_ : Z) : bool := match t with Some t => t <=? at_ | None => false end.

(** Whether the branch may be taken. *)
Definition enabled (publish : option Z) (st : State) (b : Branch) : bool :=
  match b with
  | BCancelled => true
  | BClosed | BObject _ _ _ _ => accepting st
  | BPublish at_ => due publish at_
  | BWake at_ => due (wake_at st) at_
  end.

(** A release that re-anchors resets the pacer when it starts, and so does a failure. *)
Definition starts_reanchor (p : Publishing (D := AnyDemux)) : bool :=
  match ox_releases (pl_outbox p), pl_publisher p with
  | r :: _, Some _ =>
      (ox_offset (pl_outbox p) =? 0) && match re_reanchor r with RNone => false | _ => true end
  | _, _ => false
  end.

Definition publish_branch (st : State) : State :=
  let p := st_publishing st in
  let st := if starts_reanchor p then set_pacer pacer_reset st else st in
  let '(p, w, result) := publish_next_chunk (container_demux (default ContainerTs (st_container st))) p (st_world st) in
  match result with
  | inr _ => set_publishing p w st
  | inl _ => set_pacer pacer_reset
               (set_publishing (drop_failed_release p) w (set_session (note_failed_segment (st_session st)) st))
  end.

Definition with_publisher (f : SegmentPublisher -> World -> SegmentPublisher * World) (st : State) : State :=
  let s := st_publishing st in
  match pl_publisher s with
  | Some p =>
      let '(p, w) := f p (st_world st) in
      set_publishing (mk_Publishing (pl_outbox s) (Some p) (pl_max_init_bytes s) (pl_applied s)) w st
  | None => st
  end.

(** The rest of a turn: what is due is released into the outbox. *)
Definition push_releases (releases : list Release) (st : State) : State :=
  let s := st_publishing st in
  set_publishing (mk_Publishing (fold_left (fun o r => outbox_push r o) releases (pl_outbox s)) (pl_publisher s)
                    (pl_max_init_bytes s) (pl_applied s)) (st_world st) st.

Definition after_branch (poll_at : Z) (st : State) : State * option SessionEnd :=
  let '(s, releases) := poll hash poll_at (st_session st) in
  let st := set_session s st in
  let st := with_publisher (interleave (Z.to_nat (renditions s)) (Z.min (pacing_lead s * 3) DURATION_MAX / MS)) st in
  let st := push_releases releases st in
  match ox_releases (pl_outbox (st_publishing st)) with
  | [] => if session_finished s then (with_publisher publisher_flush st, Some EndEnded) else (st, None)
  | _ => (st, None)
  end.

(** One turn of [drive]: [None] when the branch cannot be taken. *)
Definition drive_turn (now : Z) (b : Branch) (poll_at : Z) (st : State)
  : option (State * option ObjectOutcome * option SessionEnd) :=
  let '(publish, st) := publish_at now st in
  if negb (enabled publish st b) then None
  else
    match b with
    | BCancelled | BClosed => Some (st, None, Some EndCancelled)
    | BObject content path payload at_ =>
        let '(st, outcome) := apply content path payload at_ (set_last_activity at_ st) in
        let '(st, ended) := after_branch poll_at st in
        Some (st, Some outcome, ended)
    | BPublish at_ =>
        let '(st, ended) := after_branch poll_at (set_last_activity at_ (publish_branch st)) in
        Some (st, None, ended)
    | BWake at_ =>
        if due (idle_at st) at_ then Some (with_publisher publisher_flush st, None, Some EndIdle)
        else let '(st, ended) := after_branch poll_at st in Some (st, None, ended)
    end.

(** The start of [run]: the inits the stream key applied before are seeded. *)
Fixpoint seed_inits (rendition : nat) (inits : list (option HlsOrdering.Init)) (s : Session) : Session :=
  match inits with
  | [] => s
  | Some init :: inits => seed_inits (S rendition) inits (seed_init rendition (in_uri init) (in_payload init) s)
  | None :: inits => seed_inits (S rendition) inits s
  end.

Definition run_start (limits : SessionLimits) (max_init_bytes : Z) (inits : list (option HlsOrdering.Init)) (now : Z)
    (w : World) : State :=
  mk_State (seed_inits 0 inits (Session_new limits))
    (mk_Publishing (mk_Outbox [] 0 0 0) None max_init_bytes inits) None pacer_reset (hold_bytes limits) now w.

(** A run of the loop that has not ended. *)
Inductive session_reach (limits : SessionLimits) (max_init_bytes : Z) : State -> Prop :=
| reach_start inits now w : session_reach limits max_init_bytes (run_start limits max_init_bytes inits now w)
| reach_turn st now b poll_at st' outcome :
    session_reach limits max_init_bytes st -> drive_turn now b poll_at st = Some (st', outcome, None) ->
    session_reach limits max_init_bytes st'.

(** ** The pacer follows the clock *)

(** C30: pacing keeps to the wall clock: the wait it asks for is between nothing and the lead, and
    after every question the media published so far is due at most the lead before or after now, on
    the clock anchored at the first media of the timeline; the wait ends exactly when it is due, so
    that media is never ahead of that clock, and what is behind it is not waited for. *)
Theorem pacing_follows_the_clock now media_ms lead p :
  0 <= lead -> in_i 64 media_ms -> (forall wall ms, pa_anchor p = Some (wall, ms) -> Z.abs (media_ms - ms) < 2 ^ 63) ->
  let '(p', wait) := delay now (Some media_ms) lead p in
  0 <= wait <= lead /\
  exists wall ms, pa_anchor p' = Some (wall, ms) /\ ms <= media_ms /\
    let due := wall + (media_ms - ms) * MS in
    now - lead <= due <= now + lead /\ now + wait = Z.max now due /\
    (pa_anchor p = None \/ p' = p \/ wall = now /\ ms = media_ms).
Proof.
  intros Hl Hm Hb. unfold delay. destruct (pa_anchor p) as [[wall ms]|] eqn:Ha; cycle 1.
  { split; [lia|]. exists now, media_ms. cbn [pa_anchor]. split_and!; (done || lia || by left). }
  assert (Hreset : 0 <= 0 <= lead /\ exists w m, pa_anchor (mk_Pacer (Some (now, media_ms))) = Some (w, m) /\ m <= media_ms /\
    now - lead <= w + (media_ms - m) * MS <= now + lead /\ now + 0 = Z.max now (w + (media_ms - m) * MS) /\
    (Some (wall, ms) = None \/ mk_Pacer (Some (now, media_ms)) = p \/ w = now /\ m = media_ms)).
  { split; [lia|]. exists now, media_ms. split_and!; (done || lia). }
  specialize (Hb wall ms eq_refl). unfold sat_i, checked_u. set (d := Z.max _ _).
  destruct ((0 <=? d) && (d <? 2 ^ 64)) eqn:Hd; [|exact Hreset].
  assert (d = media_ms - ms) as -> by (unfold d in *; lia).
  assert (Hkeep : forall wait, (0 <= wait <= lead) -> 0 <= media_ms - ms ->
    now - lead <= wall + (media_ms - ms) * MS <= now + lead -> now + wait = Z.max now (wall + (media_ms - ms) * MS) ->
    0 <= wait <= lead /\ exists w m, pa_anchor p = Some (w, m) /\ m <= media_ms /\
    now - lead <= w + (media_ms - m) * MS <= now + lead /\ now + wait = Z.max now (w + (media_ms - m) * MS) /\
    (Some (wall, ms) = None \/ p = p \/ w = now /\ m = media_ms)).
  { intros wait Hw Hge Hd1 Hd2. split; [done|]. exists wall, ms. rewrite Ha. split_and!; (done || lia || by right; left). }
  destruct (now <=? _) eqn:Hdue; (destruct (lead <? _) eqn:Hlead; [exact Hreset|]); apply Hkeep; lia.
Qed.

(** ** What holds of a session *)

Definition of_container (c : Container) (n : nat) (p : SegmentPublisher (D := AnyDemux)) : Prop :=
  Forall (fun r => container_of (rn_demux r) = c) (pb_renditions p) /\ length (pb_renditions p) = n /\
  (pb_current p < n)%nat.

(** Between calls: the publisher's [n] demuxers are of one container, the one it borrows is there, and
    no packet is left in its batch. *)
Definition pub_ok (c : Container) (n : nat) (p : SegmentPublisher) : Prop := of_container c n p /\ pb_packets p = [].

Lemma map_any_container {A} f g (d : AnyDemux) : container_of (map_any (A := A) f g d).1 = container_of d.
Proof. destruct d as [d|d]; cbn; [by destruct (f d)|by destruct (g d)]. Qed.

Lemma alter_container c n p f i :
  (forall r, container_of (rn_demux (f r)) = container_of (rn_demux r)) ->
  of_container c n p -> of_container c n (set_renditions (alter f i (pb_renditions p)) p).
Proof.
  intros Hf (Hr & Hl & Hc). split_and!; cbn [set_renditions pb_renditions pb_current]; [|by rewrite length_alter|done].
  apply Forall_alter; [done|]. intros r _. by rewrite Hf.
Qed.

Lemma drain_moved (d : AnyDemux) out moved packets d' :
  sd_drain_into d out = (moved, packets, d') ->
  container_of d' = container_of d /\ exists qs, packets = out ++ qs /\ moved = length qs.
Proof.
  destruct d as [d|d]; cbn; intros [= <- <- <-]; split; try done; eexists; split; done.
Qed.

Lemma try_demux_ok c n p f :
  (forall d, container_of (f d).1 = container_of d) -> pub_ok c n p -> pub_ok c n (try_demux f p).1.
Proof.
  intros Hf [Hc Hp]. unfold try_demux. destruct (pb_renditions p !! _); [|done]. split; [|done].
  apply alter_container; [|done]. intros r'. apply Hf.
Qed.
Lemma with_demux_ok c n p f :
  (forall d, container_of (f d) = container_of d) -> pub_ok c n p -> pub_ok c n (with_demux f p).
Proof. intros Hf [Hc Hp]. split; [|done]. apply alter_container; [|done]. intros r. apply Hf. Qed.
Lemma at_current_ok c n p f :
  (forall r, rn_demux (f r) = rn_demux r) -> of_container c n p -> of_container c n (at_current f p).
Proof. intros Hf. apply alter_container. intros r. by rewrite Hf. Qed.

Lemma with_continuity_ok c n p i f : of_container c n p -> of_container c n (with_continuity i f p).
Proof. intros Hp. unfold with_continuity. destruct (_ && _); [by apply alter_container|done]. Qed.
Lemma with_continuity_packets i f (p : SegmentPublisher (D := AnyDemux)) : pb_packets (with_continuity i f p) = pb_packets p.
Proof. unfold with_continuity. by destruct (_ && _). Qed.

Lemma forward_batch_ok c n p w : of_container c n p -> pub_ok c n (forward_batch p w).1.
Proof.
  intros Hp. unfold forward_batch. destruct (last (pb_packets p)) eqn:Hl.
  - destruct (InputGate.forward_batch _ _ _). by split.
  - apply last_None in Hl. by split.
Qed.

Lemma mark_absent_demux expected (rs : list (Rendition (D := AnyDemux))) :
  map rn_demux (mark_absent expected rs) = map rn_demux rs.
Proof.
  revert expected. induction rs as [|r rs IH]; intros [|expected]; cbn; try done. rewrite IH. f_equal.
  by destruct (rn_queue r).
Qed.

Lemma wait_over_ok c n p : of_container c n p -> of_container c n (wait_over p).
Proof.
  unfold of_container, wait_over. cbn [pb_renditions pb_current].
  rewrite <- (length_map rn_demux (mark_absent _ _)), mark_absent_demux, length_map. intros (Hr & Hl & Hc). split; [|done].
  rewrite <- (Forall_map rn_demux (fun d => container_of d = c)) in Hr |- *. by rewrite mark_absent_demux.
Qed.

Lemma pop_packet_ok c n p i p' : of_container c n p -> pop_packet i p = Some p' -> of_container c n p'.
Proof.
  intros Hp. unfold pop_packet. destruct (pb_renditions p !! i) as [r|]; [|done].
  destruct (rn_queue r); [done|]. intros [= <-]. by apply (alter_container c n p).
Qed.

Lemma release_loop_ok c n all fuel : forall p, of_container c n p -> of_container c n (release_loop fuel all p).
Proof.
  induction fuel as [|fuel IH]; intros p Hp; cbn [release_loop]; [done|].
  destruct (release_turn all p) as [p1|] eqn:Ht; [|done]. apply IH. revert Ht. unfold release_turn.
  destruct (ms_oldest _) as [[i d]|]; [|done]. destruct (_ && _); [destruct (_ <=? _); [done|]|]; apply pop_packet_ok; [|done].
  by apply wait_over_ok.
Qed.

Lemma align_rebase_ok c n i p : of_container c n p -> of_container c n (align_rebase i p).
Proof.
  intros Hp. unfold align_rebase. destruct (negb _); [done|]. destruct (pb_packets p); [done|].
  destruct (fold_left _ _ _). by apply with_continuity_ok.
Qed.

Lemma queue_packets_ok c n p : of_container c n p -> of_container c n (queue_packets p).
Proof.
  intros Hp. unfold queue_packets. set (p1 := if _ || _ then _ else p).
  assert (Hp1 : of_container c n p1) by (unfold p1; by destruct (_ || _)).
  destruct (apply_all _ _) as [s packets].
  apply (at_current_ok c n (with_continuity (pb_current p) (fun _ => s) (align_rebase (pb_current p) p1))
           (fun r => set_queue (rn_queue r ++ packets) (match packets with [] => rn_absent r | _ => false end) r)); [done|].
  by apply with_continuity_ok, align_rebase_ok.
Qed.

Lemma forward_ok c n p w : pub_ok c n p -> pub_ok c n (forward p w).1.
Proof.
  intros [Hc Hp]. unfold forward. destruct (pb_renditions p !! pb_current p) as [r|] eqn:Hr; [|by split].
  destruct (sd_drain_into (rn_demux r) (pb_packets p)) as [[moved packets] d] eqn:Hd.
  apply drain_moved in Hd as [Hcd (qs & -> & ->)]. rewrite Hp. cbn [app].
  assert (Hcr : container_of (rn_demux r) = c) by (destruct Hc as [Hf _]; by eapply Forall_lookup_1 in Hf).
  assert (H2 : of_container c n (at_current (set_demux d) (set_packets qs p))).
  { unfold at_current, of_container. cbn [set_packets set_renditions pb_renditions pb_current]. rewrite length_alter.
    destruct Hc as (Hf & Hl & Hlt). split_and!; [|done..]. apply Forall_alter; [done|]. intros x _ _. cbn. by rewrite Hcd, Hcr. }
  set (p1 := at_current _ _) in *. destruct (length qs =? 0)%nat eqn:Hz.
  { apply Nat.eqb_eq, nil_length_inv in Hz as ->. by split. }
  set (p2 := if rn_awaiting_keyframe r then _ else p1).
  assert (H3 : of_container c n p2).
  { unfold p2. destruct (rn_awaiting_keyframe r); [|done]. destruct (drop_interframes true qs) as [awaiting packets].
    by apply (at_current_ok c n (set_packets packets p1) (set_awaiting awaiting)). }
  destruct (negb _).
  - destruct (apply_all _ _) as [s packets]. by apply forward_batch_ok.
  - by apply forward_batch_ok, release_loop_ok, queue_packets_ok.
Qed.

Lemma take_probe_ok c n p w : pub_ok c n p -> pub_ok c n (take_probe p w).1.
Proof.
  intros Hp. unfold take_probe.
  assert (H2 : pub_ok c n (take_rendition_probe p)).
  { destruct Hp as [Hc Hp]. unfold take_rendition_probe. destruct (pb_renditions p !! pb_current p) as [r|] eqn:Hr; [|by split].
    destruct (rn_probe_taken r); [by split|]. destruct (sd_take_probe (rn_demux r)) as [probe d] eqn:Hd.
    assert (Hcd : container_of d = c).
    { destruct Hc as [Hf _]. eapply Forall_lookup_1 in Hf; [|exact Hr].
      destruct (rn_demux r) as [x|x]; cbn in Hd; injection Hd as _ <-; done. }
    assert (H3 : of_container c n (at_current (set_demux d) p)).
    { unfold at_current, of_container. cbn [set_renditions pb_renditions pb_current]. rewrite length_alter.
      destruct Hc as (Hf & Hl & Hlt). split_and!; [|done..]. by apply Forall_alter; [|intros x _ _]. }
    destruct probe as [probe|]; [|by split]. split; [|done].
    by apply (at_current_ok c n (at_current (set_demux d) p) (set_probe true (Some probe))). }
  set (p1 := take_rendition_probe p) in *. destruct (negb _); [done|]. destruct (_ && _); [done|].
  unfold merged_probe. destruct ((_ <=? 1)%nat && _); [|by destruct H2 as [(? & ? & ?) ?]].
  destruct H2 as [Hc Hpk]. split; [|done]. by apply (alter_container c n (set_probe_flags false false p1)).
Qed.

Lemma publish_ok c n chunk p w : pub_ok c n p -> pub_ok c n (publish chunk p w).1.1.
Proof.
  intros Hp. unfold publish. pose proof (try_demux_ok c n p (sd_feed chunk) (fun d => map_any_container _ _ d) Hp) as H2.
  destruct (try_demux _ p) as [p1 [e|[]]]; [done|]. pose proof (forward_ok c n p1 w H2) as H3.
  destruct (forward p1 w) as [p2 w2]. by apply take_probe_ok.
Qed.

Lemma publisher_end_ok c n p w : pub_ok c n p -> pub_ok c n (publisher_end_object p w).1.1.
Proof.
  intros Hp. unfold publisher_end_object. pose proof (try_demux_ok c n p sd_end_object (fun d => map_any_container _ _ d) Hp) as H2.
  destruct (try_demux _ p) as [p1 [e|[]]]; [done|]. by apply forward_ok.
Qed.

Lemma publisher_init_ok c n l k p w : pub_ok c n p -> pub_ok c n (publisher_apply_init l k p w).1.1.
Proof.
  intros Hp. unfold publisher_apply_init.
  pose proof (try_demux_ok c n p (sd_apply_init l k) (fun d => map_any_container _ _ d) Hp) as H2.
  destruct (try_demux _ p) as [p1 [e|[]]]; [done|]. apply take_probe_ok. destruct H2 as [Hc Hpk]. split; [|done].
  by apply at_current_ok.
Qed.

Lemma flush_current_ok c n p w : pub_ok c n p -> pub_ok c n (flush_current p w).1.
Proof. intros Hp. apply forward_ok, with_demux_ok; [intros d; apply map_any_container|done]. Qed.

Lemma interleave_ok c n k window p w : pub_ok c n p -> pub_ok c n (interleave k window p w).1.
Proof.
  intros [Hc Hp]. unfold interleave. destruct (_ <? _)%nat; [|by split]. by apply forward_batch_ok, release_loop_ok.
Qed.

Lemma reanchor_ok c n kind p w : pub_ok c n p -> pub_ok c n (reanchor kind p w).1.
Proof.
  intros Hp. pose proof (flush_current_ok c n p w Hp) as H2. unfold reanchor.
  destruct kind; [done|..]; destruct (flush_current p w) as [p1 w1];
    (apply (with_demux_ok c n p1 sd_discontinuity) in H2 as [Hc Hpk]; [|intros d; apply map_any_container]);
    (split; [by apply with_continuity_ok|cbn [fst]; by rewrite with_continuity_packets]).
Qed.

Lemma discard_ok c n p : pub_ok c n p -> pub_ok c n (discard_failed_object p).
Proof.
  intros Hp. unfold discard_failed_object, after_gap.
  apply (with_demux_ok c n p sd_discard_object) in Hp as [Hc _]; [|intros d; apply map_any_container].
  split; [by apply at_current_ok, with_continuity_ok|].
  exact (with_continuity_packets _ mark_clock_discontinuity (set_packets [] (with_demux sd_discard_object p))).
Qed.

Lemma select_ok c n i d p :
  container_of d = c -> pub_ok c n p -> exists n', pub_ok c n' (select_rendition i d p).
Proof.
  intros Hd [(Hf & Hl & Hlt) Hp]. exists (length (pb_renditions (select_rendition i d p))). unfold select_rendition.
  destruct (_ <=? i)%nat; (split; [|done]); (split_and!; cbn [set_current pb_renditions pb_current]); try done;
    rewrite ?length_app; try (cbn [length]; lia).
  apply Forall_app. split; [done|]. by constructor.
Qed.

Lemma start_release_ok c n fresh k r applied p w :
  container_of fresh = c -> pub_ok c n p -> exists n', pub_ok c n' (start_release fresh k r applied p w).1.1.2.
Proof.
  intros Hd Hp. unfold start_release. apply (select_ok c n (re_rendition r) fresh p Hd) in Hp as [n' Hp]. exists n'.
  set (p1 := select_rendition _ _ p) in *.
  assert (H2 : pub_ok c n' (if re_after_gap r then after_gap p1 else p1)).
  { destruct (re_after_gap r); [|done]. destruct Hp. split; [by apply at_current_ok|done]. }
  apply (reanchor_ok c n' (re_reanchor r) _ w) in H2. destruct (reanchor _ _ w) as [p2 w2]. cbn [fst] in H2.
  assert (Hbegin : forall p3, pub_ok c n' p3 -> pub_ok c n' (try_demux (sd_begin_object (re_payload r)) p3).1)
    by (intros p3; apply try_demux_ok; intros d; apply map_any_container).
  destruct (re_init r) as [init|].
  - apply (publisher_init_ok c n' (in_payload init) k p2 w2) in H2.
    destruct (publisher_apply_init _ _ p2 w2) as [[p3 w3] [e|[]]]; [done|].
    specialize (Hbegin p3 H2). by destruct (try_demux _ p3).
  - specialize (Hbegin p2 H2). by destruct (try_demux _ p2).
Qed.

Lemma publish_chunk_ok c n l offset p w :
  0 <= offset <= zlen l -> pub_ok c n p ->
  let '(p', _, offset', _) := publish_chunk l offset p w in pub_ok c n p' /\ 0 <= offset' <= zlen l.
Proof.
  intros Ho Hp. unfold publish_chunk. set (cn := if publisher_pending p then _ else _).
  assert (Hn : 0 <= cn.2 <= zlen l) by (unfold cn, PUBLISH_CHUNK_BYTES; destruct (publisher_pending p); cbn [snd]; lia).
  destruct cn as [chunk next]. cbn [snd] in Hn. pose proof (publish_ok c n chunk p w Hp) as H2.
  destruct (publish chunk p w) as [[p1 w1] [e|[]]]; [done|]. destruct (_ || _); [done|].
  pose proof (publisher_end_ok c n p1 w1 H2) as H3. by destruct (publisher_end_object p1 w1) as [[p2 w2] [e|[]]].
Qed.

Definition payload_bytes (rs : list Release) : Z := sum (map (fun r => zlen (re_payload r)) rs).

(** The outbox counts its bytes exactly and its offset lies in the first release. *)
Definition outbox_ok (o : Outbox) : Prop :=
  ox_bytes o = payload_bytes (ox_releases o) /\
  match ox_releases o with
  | [] => ox_offset o = 0
  | r :: _ => 0 <= ox_offset o <= zlen (re_payload r)
  end.

(** There is a publisher exactly when the container is fixed, and it is of that container. *)
Definition publisher_matches (c : option Container) (p : option SegmentPublisher) : Prop :=
  match c, p with
  | None, None => True
  | Some c, Some p => exists n, pub_ok c n p
  | _, _ => False
  end.

Definition state_ok (st : State) : Prop :=
  outbox_ok (pl_outbox (st_publishing st)) /\
  publisher_matches (st_container st) (pl_publisher (st_publishing st)).

Lemma outbox_push_ok r o : outbox_ok o -> outbox_ok (outbox_push r o).
Proof.
  intros [Hb Ho]. split; cbn.
  - unfold payload_bytes in *. rewrite map_app, zsum_app, Hb. cbn. lia.
  - destruct (ox_releases o) as [|x rs]; cbn; [|done]. rewrite Ho. unfold zlen. lia.
Qed.

Lemma outbox_pop_ok o : outbox_ok o -> outbox_ok (outbox_pop_front o).
Proof.
  intros [Hb _]. unfold outbox_pop_front. destruct (ox_releases o) as [|r rs]; [by split|]. split; cbn [ox_bytes ox_releases ox_offset].
  - rewrite Hb. unfold payload_bytes. cbn [map]. rewrite zsum_cons. lia.
  - destruct rs; [done|]. unfold zlen. lia.
Qed.

Lemma set_offset_ok o r rs n :
  outbox_ok o -> ox_releases o = r :: rs -> 0 <= n <= zlen (re_payload r) -> outbox_ok (set_outbox_offset n o).
Proof. intros [Hb _] Hr Hn. split; cbn; [done|]. by rewrite Hr. Qed.

Definition publishing_ok (c : option Container) (s : Publishing) : Prop :=
  outbox_ok (pl_outbox s) /\ publisher_matches c (pl_publisher s).

Lemma publish_next_ok c s w :
  publishing_ok c s -> publishing_ok c (publish_next_chunk (container_demux (default ContainerTs c)) s w).1.1.
Proof.
  intros [Ho Hp]. unfold publish_next_chunk. destruct (ox_releases (pl_outbox s)) as [|r rs] eqn:Hr; [by split|].
  destruct (pl_publisher s) as [p|] eqn:Hpub; [|split; [done|]; cbn [fst]; by rewrite Hpub].
  destruct c as [c|]; [|done]. cbn [default from_option id] in *. cbn [publisher_matches] in Hp. destruct Hp as [n Hp].
  assert (Hoff : 0 <= ox_offset (pl_outbox s) <= zlen (re_payload r)) by (destruct Ho as [_ Ho]; by rewrite Hr in Ho).
  set (started := if ox_offset (pl_outbox s) =? 0 then _ else _).
  assert (Hst : exists n, pub_ok c n started.1.1.2).
  { unfold started. destruct (_ =? 0); [|by exists n]. eapply start_release_ok; [by destruct c|done]. }
  destruct Hst as [n' Hst].
  destruct started as [[[applied p1] w1] [e|[]]]; cbn [fst snd] in Hst; [by split; [|exists n']|].
  pose proof (publish_chunk_ok c n' (re_payload r) (ox_offset (pl_outbox s)) p1 w1 Hoff Hst) as Hc.
  destruct (publish_chunk _ _ _ _) as [[[p2 w2] offset] [e|done_]]; destruct Hc as [Hp2 Hoff2];
    pose proof (set_offset_ok _ _ _ _ Ho Hr Hoff2) as Hset; [by split; [|exists n']|].
  split; [|by exists n']. cbn [pl_outbox fst]. destruct done_; [by apply outbox_pop_ok|done].
Qed.

Lemma drop_failed_ok c s : publishing_ok c s -> publishing_ok c (drop_failed_release s).
Proof.
  intros [Ho Hp]. split; [by apply outbox_pop_ok|]. cbn. unfold publisher_matches in *.
  destruct c, (pl_publisher s); try done. destruct Hp as [n Hp]. exists n. by apply discard_ok.
Qed.

Lemma publish_branch_ok st : state_ok st -> state_ok (publish_branch st).
Proof.
  intros Hok. unfold publish_branch. set (st1 := if starts_reanchor _ then _ else st).
  assert (Hok1 : publishing_ok (st_container st1) (st_publishing st) /\ st_container st1 = st_container st)
    by (unfold st1; by destruct (starts_reanchor _)).
  destruct Hok1 as [Hok1 Hc]. apply (publish_next_ok _ _ (st_world st1)) in Hok1.
  destruct (publish_next_chunk _ _ _) as [[p w] [e|[]]]; cbn [fst] in Hok1; [|exact Hok1].
  by apply drop_failed_ok in Hok1.
Qed.

Lemma with_publisher_ok f st :
  (forall c n p w, pub_ok c n p -> pub_ok c n (f p w).1) -> state_ok st -> state_ok (with_publisher f st).
Proof.
  intros Hf [Ho Hp]. unfold with_publisher. destruct (pl_publisher (st_publishing st)) as [p|] eqn:Hpub; cycle 1.
  { split; [done|]. by rewrite Hpub. }
  unfold publisher_matches in Hp. destruct (st_container st) as [c|] eqn:Hc; [|done].
  destruct Hp as [n Hp]. specialize (Hf c n p (st_world st) Hp). destruct (f p _) as [p1 w1]. split; [done|]. cbn. rewrite Hc.
  by exists n.
Qed.


Lemma flush_all_ok c n l : forall p w,
  Forall (fun i => (i < n)%nat) l -> pub_ok c n p -> pub_ok c n (flush_all l p w).1.
Proof.
  induction l as [|i l IH]; intros p w Hl Hp; cbn [flush_all]; [done|]. apply Forall_cons in Hl as [Hi Hl].
  assert (H2 : pub_ok c n (set_current i p)) by (destruct Hp as [(? & ? & ?) ?]; done).
  apply (flush_current_ok c n _ w) in H2. destruct (flush_current _ w) as [p1 w1]. by apply IH.
Qed.

Lemma publisher_flush_ok c n p w : pub_ok c n p -> pub_ok c n (publisher_flush p w).1.
Proof.
  intros Hp. pose proof Hp as [(Hf & Hl & Hlt) Hpk]. unfold publisher_flush. rewrite Hl.
  pose proof (flush_all_ok c n (seq 0 n) p w) as H2. destruct (flush_all (seq 0 n) p w) as [p1 w1]. cbn [fst] in H2.
  destruct H2 as [(Hf1 & Hl1 & Hlt1) Hpk1]; [|by split|].
  { apply Forall_forall. intros i Hi%elem_of_seq. lia. }
  assert (H3 : of_container c n (set_current (pb_current p) p1)) by done.
  destruct (1 <? _)%nat; [|by split]. by apply forward_batch_ok, release_loop_ok.
Qed.

Lemma accept_ok c path payload now st :
  st_container st = None \/ st_container st = Some c -> state_ok st -> state_ok (accept c path payload now st).1.
Proof.
  intros Hc [Ho Hp]. unfold accept. set (st1 := match st_container st with Some _ => st | None => _ end).
  assert (Hok : state_ok st1).
  { unfold st1, state_ok. destruct (st_container st) as [c'|] eqn:Hst; [by rewrite Hst|]. split; [done|]. cbn. exists 1%nat.
    split; [|done]. split_and!; [|done|cbn; lia]. constructor; [by destruct c|done]. }
  by destruct (on_segment _ _ _ _).
Qed.

Lemma apply_ok content path payload now st : state_ok st -> state_ok (apply content path payload now st).1.
Proof.
  intros Hok. unfold apply. destruct content as [[parsed|]| |]; [by destruct (on_playlist _ _ _ _)|done|..];
    (destruct (st_container st) as [c|] eqn:Hc; [case_bool_decide as Heq; [subst|done]|]);
    try (apply accept_ok; [by auto|done]);
    (destruct (check_fmp4 _ _ _ _); [destruct (_ || _); [|done]|apply accept_ok; [by auto|done]]);
    by destruct Hok as [Ho Hp]; split; [|cbn; rewrite ?Hc in *].
Qed.

Lemma push_releases_ok releases st : state_ok st -> state_ok (push_releases releases st).
Proof.
  intros [Ho Hp]. split; [|done]. cbn. revert Ho. generalize (pl_outbox (st_publishing st)).
  induction releases as [|r releases IH]; intros o Ho; cbn [fold_left]; [done|]. by apply IH, outbox_push_ok.
Qed.

Lemma after_branch_ok poll_at st : state_ok st -> state_ok (after_branch poll_at st).1.
Proof.
  intros Hok. unfold after_branch. destruct (poll hash poll_at (st_session st)) as [s releases].
  set (st1 := push_releases _ _). assert (Hok1 : state_ok st1).
  { apply push_releases_ok, with_publisher_ok; [|done]. intros c n p w. apply interleave_ok. }
  destruct (ox_releases _); [|done]. destruct (session_finished s); [|done].
  apply with_publisher_ok; [|done]. intros c n p w. apply publisher_flush_ok.
Qed.

Lemma drive_turn_ok now b poll_at st st' outcome ended :
  state_ok st -> drive_turn now b poll_at st = Some (st', outcome, ended) -> state_ok st'.
Proof.
  intros Hok. unfold drive_turn. destruct (publish_at now st) as [publish st1] eqn:Hpub.
  assert (Hok1 : state_ok st1).
  { revert Hpub. unfold publish_at. destruct (pl_publisher _); [destruct (ox_releases _)|]; try by intros [= _ <-].
    destruct (delay _ _ _ _). by intros [= _ <-]. }
  clear Hpub Hok. destruct (negb _); [done|].
  destruct b as [| |content path payload at_|at_|at_]; [by intros [= <- _ _]..| | |].
  - pose proof (apply_ok content path payload at_ (set_last_activity at_ st1) Hok1) as H2.
    revert H2. destruct (apply _ _ _ _ _) as [st2 o]. intros H2%(after_branch_ok poll_at). cbn [fst] in H2. revert H2.
    destruct (after_branch poll_at st2). by intros H2 [= <- _ _].
  - pose proof (publish_branch_ok st1 Hok1) as H2.
    assert (H3 : state_ok (set_last_activity at_ (publish_branch st1))) by done.
    apply (after_branch_ok poll_at) in H3. revert H3. destruct (after_branch _ _). by intros H3 [= <- _ _].
  - destruct (due _ at_).
    + intros [= <- _ _]. apply with_publisher_ok; [|done]. intros c n p w. apply publisher_flush_ok.
    + apply (after_branch_ok poll_at) in Hok1. revert Hok1. destruct (after_branch _ _). by intros Hok1 [= <- _ _].
Qed.

(** C27: a push session stays consistent whatever is uploaded and whenever its timers fire, refused
    objects and failed segments included: there is a publisher exactly once the first accepted
    object has fixed the container, every demuxer it made is of that container, the rendition it
    works on exists, no packet is left behind in its batch, and the outbox counts the bytes it holds
    exactly with its offset inside the first release. *)
Theorem session_stays_consistent limits max_init_bytes st :
  session_reach limits max_init_bytes st ->
  outbox_ok (pl_outbox (st_publishing st)) /\
  publisher_matches (st_container st) (pl_publisher (st_publishing st)).
Proof.
  induction 1 as [inits now w|st now b poll_at st' outcome _ IH Ht]; [by split|].
  exact (drive_turn_ok _ _ _ _ _ _ _ IH Ht).
Qed.
End session.

(** ** Witnesses *)

Lemma pacing_follows_the_clock_witness :
  let '(p', wait) := delay 5000000 (Some 140) 2000000000 (mk_Pacer (Some (0, 100))) in
  0 <= wait <= 2000000000 /\
  exists wall ms, pa_anchor p' = Some (wall, ms) /\ ms <= 140 /\
    let due := wall + (140 - ms) * MS in
    5000000 - 2000000000 <= due <= 5000000 + 2000000000 /\ 5000000 + wait = Z.max 5000000 due /\
    (pa_anchor (mk_Pacer (Some (0, 100))) = None \/ p' = mk_Pacer (Some (0, 100)) \/ wall = 5000000 /\ ms = 140).
Proof.
  apply (pacing_follows_the_clock 5000000 140 2000000000 (mk_Pacer (Some (0, 100)))).
  - lia.
  - unfold in_i. lia.
  - intros wall ms [= <- <-]. lia.
Defined.

Definition session_limits : SessionLimits := ex_limits.
Definition session_start : State := run_start session_limits 1024 [None; None] 0 (mk_World (mk_Target ACTIVE i64_MIN [] None []) []).
Definition session_turn : option (State * option ObjectOutcome * option SessionEnd) :=
  @drive_turn naive_memmem naive_Memchr simple_mp4 (fun _ => 0) 0 (BObject CFmp4 "init.mp4" sample_init 1) 2 session_start.

Lemma session_stays_consistent_witness :
  exists st outcome, session_turn = Some (st, outcome, None) /\ st_container st = Some ContainerFmp4 /\
    outbox_ok (pl_outbox (st_publishing st)) /\
    publisher_matches (st_container st) (pl_publisher (st_publishing st)).
Proof.
  assert (Hrun : match session_turn with Some (st, _, None) => bool_decide (st_container st = Some ContainerFmp4) | _ => false end = true)
    by (vm_compute; reflexivity).
  destruct session_turn as [[[st outcome] [e|]]|] eqn:Ht; [discriminate| |discriminate].
  exists st, outcome. split; [reflexivity|]. split; [exact (bool_decide_eq_true_1 _ Hrun)|].
  apply (@session_stays_consistent naive_memmem naive_Memchr simple_mp4 (fun _ => 0) session_limits 1024 st).
  eapply reach_turn; [apply reach_start|exact Ht].
Defined.
